(* ===== verification/_CoqProject ===== *)
-Q . S2P
Prelude.v
Canon.v
Economy.v
Settlement.v
Difficulty.v
Revenue.v
Costs.v
Towns.v
Flow.v
Allocation.v
Feeder.v
Proto.v
Chars.v
Ident.v
Identity.v
Codec.v
Pacing.v
Limit.v
Verdict.v
Snapshots.v
Ruleset.v
TurnLog.v
Game.v
Follower.v
Lockstep.v
Persist.v
Room.v
RoomInv.v
Holds.v
Streams.v
Recover.v
Compact.v
Ring.v
Link.v
Gate.v
BridgeCodec.v
Hook.v
Playout.v
Bridge.v
BridgeInv.v
Rejoin.v
Seat.v
Client.v
Delivery.v
Manifest.v
Store.v
Sink.v
StoreInv.v
StoreSpec.v
Whole.v
Vault.v
Restart.v
Bulk.v
Worlds.v
Transfer.v
SaveCheck.v
Admission.v
Pattern.v
Detour.v
Server.v
Connect.v
Address.v
Tunnel.v
Listener.v
Http.v
Launcher.v
Pe.v
Proxy.v
ServerInv.v
ServerLimits.v
