(* ===== verification/Prelude.v ===== *)
(** * TPF3-MP: lockstep multiplayer, verified

    TPF3-MP plays one deterministic simulation on every player's machine.  The
    server orders what players do into numbered turns; each client applies the
    same events at the same steps.  This library models the parts of the program
    that make this work and proves that they do.

    ** The program and its files

    The server ([crates/tpf3mp-server/src]):

    - It keeps a room per game ([room.rs]): a lobby, then a running game that
      orders intents into events, seals events into turns up to a frontier the
      clock allows, streams the turns to every member, and logs them.  [Room] is
      the whole actor: its state ([Room], [Member], [Phase]), one definition per
      command, the tick ([on_tick]) and the loop ([run_room]).  [Game] is its
      sequencer ([impl Game]): [append], [seal], the resume window, histories,
      [stream_after], [stream_from_save].
    - [Pacing] ([pacing.rs]) is the clock a room runs on; [Limit] ([limit.rs]) the
      token bucket that bounds what a member may send; [Verdict] ([verdict.rs])
      decides whose checkpoint digests are right; [Snapshots] ([snapshots.rs])
      when a room saves, on which save it agrees, and who holds which snapshot
      ([Holds]: a room's books of its holds);
      [Ruleset] ([ruleset.rs]) the rules that take part in sequencing, as a class
      with the law that compaction relies on.
    - [Persist] ([persist.rs]) is the log on disk: checksummed records, what an
      interrupted write leaves, and what reading back finds.  [Recover] is
      [Room::recover]: a log replayed into a room after a restart, [Compact] a log the
      room had compacted, and [Restart] the start of the server: reading the data directory, the pointer files and the
      snapshots they name ([directory.rs], [snapshots.rs]).
    - [Admission] ([admission.rs]) counts what one address holds.  [Server] puts
      connections, sessions, the directory and the rooms together
      ([connection.rs], [directory.rs], [lib.rs]) as tasks that take turns;
      [ServerInv] and [ServerLimits] prove what holds however they interleave.
      [Delivery] has the task that writes turn streams, [Worlds] the one that serves
      bulk streams, with rooms, uploads, releases and the store around it.
    - [Address] (the texts of [std::net] and ranges of addresses), [Tunnel]
      ([crates/tpf3mp-net/src/tunnel]) and [Listener] ([tunnel.rs]) are the way in for
      players whose network lets no UDP through.

    The wire and the snapshots:

    - [Proto] ([crates/tpf3mp-proto], [crates/tpf3mp-net/src/io.rs]) is what goes
      over the wire: preamble, frames, messages.  Postcard, the serializer, is
      third-party code: a class [Postcard] with the round-trip law it documents
      ([PostcardLaws]).  [Codec] builds an encoding that satisfies it.  [Ident]
      is the text of invites and ids ([text.rs], [ids.rs], [bytes.rs]), over
      [Chars], Rust's strings.  [Identity] ([crates/tpf3mp-net/src/identity.rs]) is a
      player's key, in its file and on the wire.
    - [Manifest] ([crates/tpf3mp-snapshot]: [params.rs], [chunker.rs],
      [manifest.rs]) cuts a save into chunks and names it by its manifest;
      [Store] ([codec.rs], [store.rs]) keeps chunks and records on disk; [Sink]
      ([sink.rs]) takes chunks in.  [StoreInv] states what a store holds whatever
      happens to it, [StoreSpec] what its operations promise, [Whole] that what a
      store retains is whole.  [Vault] is the server's snapshots over that store
      ([snapshots.rs]) and a player's ([crates/tpf3mp-agent/src/transfer.rs]).
    - [Bulk] ([crates/tpf3mp-net/src/bulk.rs]) serves and fetches a snapshot over a
      stream: two machines, each over its own store.

    The player's machine:

    - [Connect] and [Client] ([crates/tpf3mp-agent/src/lib.rs]) are the agent's side of
      a connection: the way to the server, the handshake, and the tasks that share
      the connection, at single steps.
    - [Follower] ([crates/tpf3mp-agent/src/follower.rs]) checks every turn and says
      what the game may do next; [Playout] ([playout.rs]) is the jitter buffer;
      [Bridge] ([bridge.rs]) the loop between the room and the game.  [BridgeInv]
      is its invariant, and [Rejoin] plays on over connections that come and go.
    - [Transfer] ([transfer.rs]) opens bulk streams, fetches and uploads worlds, and
      [SaveCheck] ([save_check.rs]) checks the script data of a received one.
    - [Http] and [Launcher] ([crates/tpf3mp-agent/src/launcher]) are the page the player
      starts from: its server, and what it does with what the page asks.
    - [Link] ([crates/tpf3mp-ipc/src/lib.rs], [header.rs]) sets the shared memory up,
      [Ring] ([ring.rs]) is the queue in it between agent and game, [Gate], [BridgeCodec] and [Hook] ([crates/tpf3mp-bridge/src])
      the messages on it, the gate that holds the game's steps and the session
      inside the game.  [Seat] composes bridge, ring and hook into one seat.
    - [Pattern] ([crates/tpf3mp-hookcore/src/pattern.rs], [profile.rs]) finds the
      functions to hook in a game's image, or refuses; [Detour] ([detour]) patches
      them.  [Pe] ([pe.rs], [crates/tpf3mp-hook/src/lib.rs]) reads the executable and
      decides which profile is for it, and [Proxy] ([crates/tpf3mp-proxygen/src/lib.rs])
      writes the library that loads the hook.

    The economy: [Canon] ([crates/tpf3mp-canon/src/lib.rs], [lua.rs]) is the
    canonical arithmetic, and [Economy], [Settlement], [Difficulty], [Revenue],
    [Costs], [Towns], [Flow], [Allocation] and [Feeder] the economy on top of it
    ([crates/tpf3mp-canon/src/economy/]): integers only, the same on every machine,
    and within the range a Lua number holds exactly.

    ** Specifications

    [TurnLog] says what a turn log is: positions, [turn_follows], [chain], and
    the one sequence of actions a log stands for ([log_actions]).  The server's
    [Game] refines it (its frames are a chain), the client's [TurnFollower]
    refines it (it accepts exactly a chain and does a prefix of its actions), and
    [Lockstep] composes the two.  [RoomInv] states what holds of a room whatever
    happens to it; most steps are [quiet], they touch neither the table nor the
    log, and the others are proved one by one.  [Streams] carries the composition
    to the whole room: what each link has been sent ([fed]) and what a room must
    have sent every link that receives turns ([streams_ok]).  [Seat] carries it to
    the game: what the room streams is what the game runs; and [Delivery] puts the
    streams' bytes and the client in between, so that the room's log and the game's
    deeds are the two ends of one theorem.  A ring refines a queue
    of frames, a store a map from ids to the bytes they name.

    ** What the theorems show

    - End to end: whatever the room, the network, the client, the bridge, the ring
      and the hook do, in whatever order and with whatever failures, and over however
      many connections, a player's game does what the room's one log orders, from
      wherever the world it loaded stands ([Delivery.game_plays_log]).
    - Rooms stream their log: whatever commands, ticks, failed sends and failed
      writes happen, in whatever order, each link a room feeds has received a
      start and then exactly the turns of the room's one log from there on
      ([Streams.room_streams]).
    - Lockstep: every client accepts what the server streams and does the same
      things in the same order ([Lockstep.lockstep], [Follower.replicas_agree],
      [Follower.accept_iff_follows], [Game.seal_refines_log]); the game does what
      the room ordered, through bridge, ring and hook ([Seat.game_follows_room],
      [Hook.game_follows_agent], [Ring.ring_fifo]).
    - The client: what a room feeds a connection is what the agent gets, over all
      streams and their seams ([Delivery.feed_reaches_client]); no request hangs
      once the connection is gone, and each is answered as itself
      ([Client.calls_return], [Client.answers_own]); what is queued is bounded
      ([Client.client_bounded]); one way to the server is enough
      ([Connect.some_route_found]), and both ends agree on how a handshake ended
      ([Connect.handshake_agrees]).
    - Coming back: a client resumes exactly where it was and is refused if a crash
      lost turns it saw ([Lockstep.reconnect_resumes], [Game.lost_turns_refused]); its
      attempts to come back end, and not too early ([Rejoin.rejoin_ends]);
      a crash of the server costs at most the record being written
      ([Persist.crash_loses_only_torn]), and the restarted server rebuilds the room
      from the rest ([Recover.recovery_restores]), also when the log had been compacted
      ([Compact.compaction_restores]), leaves the logs it cannot read
      where they can be found ([Restart.restart_keeps_logs]) and serves the worlds of
      those it can ([Restart.restored_worlds_served]).  [Recover.lobby_ban_lost] shows
      that a ban made in the lobby does not survive it, and
      [Bridge.superseded_load_fatal] that a load the room has superseded ends a
      session.
    - Rooms and sessions: an invariant of every run of the room's loop
      ([RoomInv.room_invariant]); a connection has one seat, its owner's, and no
      request is lost, however tasks interleave ([ServerInv.one_seat_per_connection],
      [ServerInv.no_request_lost]); no limit is exceeded and none leaks
      ([ServerLimits.server_within_limits], [Admission.admission_fair]); a removed
      player stays out ([RoomInv.kicked_stays_out]); verdicts and holds
      ([Verdict.decide_order_irrelevant], [Snapshots.held_snapshots_kept]).
    - Snapshots: a manifest has one encoding ([Manifest.manifest_canonical]); a save
      comes back as it went in ([StoreSpec.ingest_assemble]); a store stays sound
      and publishes only what it verified ([StoreInv.store_sound],
      [StoreSpec.published_verified]), collection keeps what is referenced
      ([StoreInv.gc_keeps_referenced]), and a transfer between two stores
      completes with an honest peer and is harmless with any
      ([StoreSpec.transfer_completes], [Bulk.bulk_transfer], [Bulk.fetch_any_peer]).
      A room's books of what it holds balance ([Holds.room_keeps_books]), what it
      offers is there ([Worlds.offered_world_served]), and so a world one player saved
      reaches another, while the server goes on ([Transfer.world_reaches_player]); a
      player keeps the worlds it needs and no other ([Vault.worlds_kept]).
    - Untrusted input on the player's machine: the check of script data admits exactly
      tables of literals, as its own lexer reads the text ([SaveCheck.admits_only_data]);
      it takes every comment to end with its line ([SaveCheck.long_comment_admitted]);
      only the launcher's own
      page acts and learns ([Http.only_the_page_acts]), its requests are the same
      however they arrive ([Http.heard_however_split]), and what it shows is what there
      is ([Launcher.launcher_consistent], [Launcher.copied_found]).
    - Identities: agents that start at once agree on one key, as long as links can be made
      ([Identity.identities_agree], [Identity.renames_race]), and the proof of it counts
      in one session ([Identity.proof_bound], [Identity.small_order_exact]).
    - Tunnels: datagrams go where they belong, in order ([Tunnel.tunnel_faithful]), an
      address has its share of tunnels and no more, and only a trusted proxy speaks for
      another one ([Listener.tunnels_fair]).
    - Hooks: a link's memory is only used as laid out ([Link.link_sound]); a scan finds
      every match ([Pattern.find_all_exhaustive]), a profile resolves whole or not at
      all ([Pattern.resolve_fail_closed]), and a detour changes what it must, and can be
      taken back ([Detour.detour_patches]).  A build that no profile names is left alone
      ([Pe.unknown_build_untouched]), and a proxy forwards what the library exports
      ([Proxy.proxy_forwards]), except for the first of two names for one function
      ([Proxy.alias_dropped]).
    - Bounds: the clock, the frontier, the resume window, the checkpoint rounds
      and the rates ([Pacing], [Game], [Limit]).  [Limit.impatient_starved] shows
      that a bucket does not refill continuously, as its comment says.
    - Wire: preamble and frames round trip ([Proto.frames_roundtrip]), and so do
      names and invites, each with one text ([Ident.names_canonical],
      [Ident.invites_canonical]).
    - Economy: nothing is created or lost, in cents, passengers, capital or
      capacity; shares do not overshoot; the logit table is monotone; the best
      feeder counts.

    ** How the code is represented

    Rust integers are [Z] with their ranges, and every checked, saturating or
    wrapping operation is written out ([Prelude]).  [Result] is [result], with
    the error values of the code.  Structs are records, updated with
    [r <| field := v |>].  A [BTreeMap] or [HashMap] is a [gmap]; where the order
    of a [BTreeMap] matters its keys are listed in order ([btree_keys],
    [btree_ints], [btree_strings]).  [Instant] and [Duration] are nanoseconds, and
    the time is an argument wherever the code reads the clock.

    What happens outside the program is an argument of the definitions: whether a
    channel takes a message ([SendOutcome]), how a write ended ([WriteOutcome]),
    whether a call of the file system succeeds, the checksum, the MAC, the hash,
    the compressor, the cutter of chunks, and random numbers.  The theorems hold
    for all of them, under the laws their libraries document.  A room's messages
    are recorded in a trace ([out]).  Metrics and tracing are left out.

    Concurrency is interleaving.  The ring's two sides take turns at single loads,
    stores and copied bytes, in program order ([Ring.Sched]); a client's tasks at
    single accesses of what they share ([Client.client_step]); the store's
    operations are atomic, as they run under its locks; bulk machines and the
    server's tasks run from one awaited message to the next.  A room's id is drawn
    until it is free, and a step that draws none does nothing.  Temporary and
    partial files are left out of the store, since nothing reads them.

    Recursion is structural except in a few loops, which take fuel:
    [trim_loop] as much as there are turns (each round drops one),
    [sweep_seats] as much as there are members, [ask_for_upload] recurses on the
    candidates, [legacy_rounds] takes as many rounds as there are services and is
    proved to end within them ([Allocation.capacity_legacy_conserves]),
    [read_records] takes the number of records read, [replay] the bytes of the
    file and one more, which no log exhausts ([Recover.replay_fuel]), [fill] the
    chunks still wanted, [scan_from] the bytes of the image, which is enough
    ([Pattern.find_all_exhaustive]), [turn_events] the bytes of the stream
    ([Client.turn_events_enough]), [rejoin_room] the attempts there is time for
    ([Rejoin.rejoin_ends]), and [SaveCheck.parse] two for each byte of the text
    ([SaveCheck.parse_total]); [try_aside] tries as many names as the code does.

    ** What is not modelled

    QUIC, TLS, WebSocket and HTTP libraries, and opening sockets; mapping shared memory
    and changing the protection of code (platform calls); the processes, their command
    lines and metrics; the launcher's state as JSON; the test kit. *)
From stdpp Require Export prelude gmap strings list numbers sorting.
From Stdlib Require Export ZArith Lia.

#[global] Set Default Goal Selector "!".
Open Scope Z_scope.

(** * Record update

    The Rust code updates one field of a struct at a time.  A record type
    declares [Eta], its constructor applied to its own projections, and
    [r <| p := v |>] then rebuilds [r] with the field [p] replaced.  The update
    is a constructor application, so that reading any field of an updated
    record reduces without a case analysis on the record. *)
Class Eta (R : Type) := eta_expand : R → R.

Class FieldUpdate {R A : Type} (p : R → A) := MkFieldUpdate {
  update_field : (A → A) → R → R;
  update_field_get (f : A → A) (r : R) : p (update_field f r) = f (p r);
}.
Arguments update_field {R A} p {_} f r.

Ltac solve_field_update :=
  lazymatch goal with
  | |- @FieldUpdate ?R ?A ?p =>
      let f := fresh "f" in
      let r := fresh "r" in
      simple refine (@MkFieldUpdate R A p _ _);
      [ intros f r;
        let e := eval hnf in (eta_expand r) in
        lazymatch eval pattern (p r) in e with
        | ?k _ =>
            let b := eval cbv beta in (k (f (p r))) in
            exact b
        end
      | intros f r; reflexivity ]
  end.

#[export] Hint Extern 1 (FieldUpdate _) => solve_field_update : typeclass_instances.

Declare Scope record_scope.
Notation "r <| p := v |>" := (update_field p (fun _ => v) r)
  (at level 1, left associativity, p constr, v constr,
   format "r  <|  p  :=  v  |>") : record_scope.
Notation "r <| p ::= f |>" := (update_field p f r)
  (at level 1, left associativity, p constr, f constr,
   format "r  <|  p  ::=  f  |>") : record_scope.
#[global] Open Scope record_scope.


(** * Machine integers

    Rust integers are [Z] values within their type's range.  [checked_*] is
    Rust's checked arithmetic: [None] when the exact result leaves the range.
    [saturating_*] clamps to the range instead. *)
Definition i64_min : Z := - 2 ^ 63.
Definition i64_max : Z := 2 ^ 63 - 1.
Definition u16_max : Z := 2 ^ 16 - 1.
Definition u32_max : Z := 2 ^ 32 - 1.
Definition u64_max : Z := 2 ^ 64 - 1.

Definition is_i64 (z : Z) : Prop := i64_min ≤ z ≤ i64_max.
Definition is_u32 (z : Z) : Prop := 0 ≤ z ≤ u32_max.
Definition is_u64 (z : Z) : Prop := 0 ≤ z ≤ u64_max.

Definition to_i64 (z : Z) : option Z :=
  if (i64_min <=? z) && (z <=? i64_max) then Some z else None.

Definition checked_add_i64 (a b : Z) : option Z := to_i64 (a + b).
Definition checked_sub_i64 (a b : Z) : option Z := to_i64 (a - b).
Definition checked_mul_i64 (a b : Z) : option Z := to_i64 (a * b).
Definition checked_abs_i64 (a : Z) : option Z := to_i64 (Z.abs a).

(** Rust's [/] and [%] round toward zero; [i64::MIN / -1] overflows, and so
    does [i64::MIN % -1]. *)
Definition checked_div_i64 (a b : Z) : option Z :=
  if b =? 0 then None else to_i64 (Z.quot a b).
Definition checked_rem_i64 (a b : Z) : option Z :=
  if (b =? 0) || ((a =? i64_min) && (b =? -1)) then None else Some (Z.rem a b).

Definition clamp (z low high : Z) : Z := Z.max low (Z.min z high).

Definition saturating_add_i64 (a b : Z) : Z := clamp (a + b) i64_min i64_max.
Definition saturating_mul_i64 (a b : Z) : Z := clamp (a * b) i64_min i64_max.

Definition saturating_add_u64 (a b : Z) : Z := Z.min (a + b) u64_max.
Definition saturating_mul_u64 (a b : Z) : Z := Z.min (a * b) u64_max.
Definition saturating_sub_u64 (a b : Z) : Z := Z.max (a - b) 0.
Definition checked_add_u64 (a b : Z) : option Z :=
  if a + b <=? u64_max then Some (a + b) else None.

Lemma to_i64_Some z r : to_i64 z = Some r ↔ r = z ∧ is_i64 z.
Proof. unfold to_i64, is_i64. case_match; naive_solver lia. Qed.

Lemma to_i64_in z : is_i64 z → to_i64 z = Some z.
Proof. intros. by apply to_i64_Some. Qed.

(** The range constants are numerals for [lia] once these are unfolded. *)
Ltac unfold_ranges :=
  unfold is_i64, is_u32, is_u64, i64_min, i64_max, u16_max, u32_max, u64_max in *.
Ltac range_lia := unfold_ranges; lia.

(** * Time

    [Instant] is a reading of the monotonic clock and [Duration] a length of
    time, both in nanoseconds. *)
Abbreviation Instant := Z (only parsing).
Abbreviation Duration := Z (only parsing).

Definition from_secs (s : Z) : Duration := s * 1000000000.
Definition from_millis (ms : Z) : Duration := ms * 1000000.
Definition as_micros (d : Duration) : Z := d / 1000.
Definition as_millis (d : Duration) : Z := d / 1000000.
Definition saturating_duration_since (now earlier : Instant) : Duration :=
  Z.max (now - earlier) 0.

Lemma as_micros_nonneg d : 0 ≤ d → 0 ≤ as_micros d.
Proof. intros. unfold as_micros. by apply Z.div_pos. Qed.

Lemma as_millis_nonneg d : 0 ≤ d → 0 ≤ as_millis d.
Proof. intros. unfold as_millis. by apply Z.div_pos. Qed.

Lemma saturating_duration_since_nonneg now earlier :
  0 ≤ saturating_duration_since now earlier.
Proof. unfold saturating_duration_since. lia. Qed.

(** Side conditions on ranges and lengths of time. *)
Create HintDb rust.
#[export] Hint Resolve to_i64_in as_micros_nonneg as_millis_nonneg saturating_duration_since_nonneg : rust.

(** * Options and errors *)

(** [Result<A, E>]: the code's fallible functions. *)
Inductive result (A E : Type) : Type :=
  | Ok (a : A)
  | Err (e : E).
Arguments Ok {A E} a.
Arguments Err {A E} e.

Definition result_bind {A B E : Type} (m : result A E) (f : A → result B E) : result B E :=
  match m with
  | Ok a => f a
  | Err e => Err e
  end.

Definition ok_or {A E : Type} (o : option A) (e : E) : result A E :=
  match o with
  | Some a => Ok a
  | None => Err e
  end.

Definition is_ok {A E : Type} (r : result A E) : bool :=
  match r with Ok _ => true | Err _ => false end.

Notation "'let?' x ':=' m 'in' k" := (result_bind m (fun x => k))
  (at level 10, x pattern, m at level 100, k at level 200).

Lemma result_bind_Ok {A B E} (m : result A E) (f : A → result B E) b :
  result_bind m f = Ok b ↔ ∃ a, m = Ok a ∧ f a = Ok b.
Proof. destruct m; naive_solver. Qed.

(** Inverts every [x ← m; k = Some v] in the context. *)
Ltac inv_option :=
  repeat match goal with
  | H : mbind _ _ = Some _ |- _ =>
      apply bind_Some in H; let x := fresh "v" in destruct H as (x & ? & H)
  | H : result_bind _ _ = Ok _ |- _ =>
      apply result_bind_Ok in H; let x := fresh "v" in destruct H as (x & ? & H)
  | H : Some _ = Some _ |- _ => injection H as ?
  | H : Ok _ = Ok _ |- _ => injection H as ?
  | H : None = Some _ |- _ => discriminate H
  | H : Some _ = None |- _ => discriminate H
  | H : Err _ = Ok _ |- _ => discriminate H
  | H : Ok _ = Err _ |- _ => discriminate H
  end; simplify_eq/=.

(** * State and errors

    A method that changes its object and may fail: an error leaves the object
    as it was when the error was raised, as [?] does. *)
Definition SE (S E A : Type) : Type := S → S * result A E.

#[export] Instance SE_ret {S E} : MRet (SE S E) := λ A a s, (s, Ok a).
#[export] Instance SE_bind {S E} : MBind (SE S E) := λ A B f m s,
  match m s with
  | (s, Ok a) => f a s
  | (s, Err e) => (s, Err e)
  end.

Section state_error.
Context {S E : Type}.

Definition se_err {A} (e : E) : SE S E A := λ s, (s, Err e).
Definition se_get : SE S E S := λ s, (s, Ok s).
Definition se_mod (f : S → S) : SE S E unit := λ s, (f s, Ok tt).
Definition se_lift {A E'} (wrap : E' → E) (r : result A E') : SE S E A := λ s,
  (s, match r with Ok a => Ok a | Err e => Err (wrap e) end).
End state_error.

(** * Arithmetic shared by the components *)

(** Sum of a list of integers. *)
Definition sum_Z (l : list Z) : Z := foldr Z.add 0 l.

Arguments sum_Z : simpl never.

Lemma sum_Z_cons z l : sum_Z (z :: l) = z + sum_Z l.
Proof. reflexivity. Qed.

Lemma sum_Z_nil : sum_Z [] = 0.
Proof. reflexivity. Qed.

Lemma sum_Z_app l k : sum_Z (l ++ k) = sum_Z l + sum_Z k.
Proof.
  induction l; simpl; [by rewrite sum_Z_nil |]. rewrite !sum_Z_cons. lia.
Qed.

#[export] Hint Rewrite sum_Z_nil sum_Z_cons sum_Z_app : sums.

(** Sums of mapped lists, by their pieces. *)
Ltac sum_lia := rewrite ?fmap_app; csimpl; autorewrite with sums; lia.

Lemma sum_Z_nonneg l : Forall (Z.le 0) l → 0 ≤ sum_Z l.
Proof. induction 1; rewrite ?sum_Z_cons, ?sum_Z_nil; lia. Qed.

Lemma sum_Z_perm l k : l ≡ₚ k → sum_Z l = sum_Z k.
Proof. induction 1; rewrite ?sum_Z_cons, ?sum_Z_nil in *; lia. Qed.

(** The floor of [a / b] and the remainder that goes with it. *)
Lemma div_unique_floor a b q :
  0 < b → b * q ≤ a < b * (q + 1) → a / b = q.
Proof. intros. symmetry. apply (Z.div_unique_pos a b q (a - b * q)); lia. Qed.

Lemma div_mod_pos a b :
  0 < b → a = b * (a / b) + a mod b ∧ 0 ≤ a mod b < b.
Proof. intros. split; [apply Z.div_mod; lia | by apply Z.mod_pos_bound]. Qed.

Lemma quot_rem_nonneg a b :
  0 ≤ a → 0 < b → Z.quot a b = a / b ∧ Z.rem a b = a mod b.
Proof. intros. by rewrite Z.quot_div_nonneg, Z.rem_mod_nonneg. Qed.

Lemma div_le_self a b : 0 ≤ a → 0 < b → a / b ≤ a.
Proof. intros. apply Z.div_le_upper_bound; nia. Qed.

(** * Sorting

    [sort_by_key] and [sort_by] of Rust's slices are stable: equal elements
    keep their order.  [BTreeSet] and [BTreeMap] iterate in key order. *)
Section sort_by.
Context {A : Type} (leb : A → A → bool).

Fixpoint insert_by (x : A) (l : list A) : list A :=
  match l with
  | [] => [x]
  | y :: l' => if leb x y then x :: l else y :: insert_by x l'
  end.

Definition sort_by (l : list A) : list A := foldr insert_by [] l.

Lemma insert_by_perm x l : insert_by x l ≡ₚ x :: l.
Proof.
  induction l as [| y l IH]; simpl; [done |].
  destruct (leb x y); [done |]. rewrite IH. apply Permutation_swap.
Qed.

Lemma sort_by_perm l : sort_by l ≡ₚ l.
Proof.
  induction l as [| x l IH]; simpl; [done |]. by rewrite insert_by_perm, IH.
Qed.

Hypothesis leb_total : ∀ x y, leb x y = false → leb y x = true.
Hypothesis leb_trans : ∀ x y z, leb x y = true → leb y z = true → leb x z = true.

Lemma insert_by_sorted x l :
  StronglySorted (λ a b, leb a b = true) l →
  StronglySorted (λ a b, leb a b = true) (insert_by x l).
Proof.
  induction 1 as [| y l Hl IH Hy]; simpl; [repeat constructor |].
  destruct (leb x y) eqn:E.
  - constructor; [by constructor |]. constructor; [done |].
    eapply Forall_impl; [exact Hy |]. simpl. eauto.
  - constructor; [done |]. rewrite insert_by_perm. constructor; auto.
Qed.

Lemma sort_by_sorted l : StronglySorted (λ a b, leb a b = true) (sort_by l).
Proof. induction l; simpl; [constructor | by apply insert_by_sorted]. Qed.

End sort_by.

Lemma elem_of_sort_by {A} (leb : A → A → bool) x l : x ∈ sort_by leb l ↔ x ∈ l.
Proof. by rewrite sort_by_perm. Qed.

Lemma length_sort_by {A} (leb : A → A → bool) l : length (sort_by leb l) = length l.
Proof. by rewrite sort_by_perm. Qed.

(** [Vec::dedup_by_key]: of each run of equal keys, the first element stays. *)
Fixpoint dedup_by_key {A K} `{EqDecision K} (key : A → K) (l : list A) : list A :=
  match l with
  | [] => []
  | x :: l' =>
      match dedup_by_key key l' with
      | [] => [x]
      | y :: r => if decide (key x = key y) then x :: r else x :: y :: r
      end
  end.

(** The elements of a [BTreeSet] of strings built from a list, in order. *)
Definition btree_strings (l : list string) : list string :=
  sort_by (λ a b, bool_decide (String.le a b)) (remove_dups l).

Lemma elem_of_btree_strings x l : x ∈ btree_strings l ↔ x ∈ l.
Proof. unfold btree_strings. by rewrite elem_of_sort_by, elem_of_remove_dups. Qed.

Lemma NoDup_btree_strings l : NoDup (btree_strings l).
Proof. unfold btree_strings. rewrite sort_by_perm. apply NoDup_remove_dups. Qed.

Lemma btree_strings_sorted l : StronglySorted String.le (btree_strings l).
Proof.
  unfold btree_strings.
  assert (StronglySorted (λ a b, bool_decide (String.le a b) = true)
    (sort_by (λ a b, bool_decide (String.le a b)) (remove_dups l))) as H.
  { apply sort_by_sorted.
    - intros x y Hf%bool_decide_eq_false. apply bool_decide_eq_true.
      by destruct (total String.le x y).
    - intros x y z Hxy%bool_decide_eq_true Hyz%bool_decide_eq_true.
      apply bool_decide_eq_true. by etrans. }
  induction H as [| x k _ IH Hx]; [constructor | constructor; [done |]].
  eapply Forall_impl; [exact Hx |]. intros y. apply bool_decide_eq_true_1.
Qed.

(** The keys of a [BTreeMap<u64, _>] in order. *)
Definition btree_keys {A} (m : gmap Z A) : list Z :=
  sort_by Z.leb (map_to_list m).*1.

Lemma elem_of_btree_keys {A} (m : gmap Z A) k : k ∈ btree_keys m ↔ is_Some (m !! k).
Proof.
  unfold btree_keys. rewrite elem_of_sort_by, list_elem_of_fmap. split.
  - intros ([k' a] & -> & Hin%elem_of_map_to_list). eauto.
  - intros [a Ha]. exists (k, a). split; [done | by apply elem_of_map_to_list].
Qed.

Lemma NoDup_btree_keys {A} (m : gmap Z A) : NoDup (btree_keys m).
Proof. unfold btree_keys. rewrite sort_by_perm. apply NoDup_fst_map_to_list. Qed.

Lemma btree_keys_sorted {A} (m : gmap Z A) : StronglySorted Z.le (btree_keys m).
Proof.
  unfold btree_keys.
  assert (StronglySorted (λ a b, Z.leb a b = true) (sort_by Z.leb (map_to_list m).*1)) as H
    by (apply sort_by_sorted; intros; lia).
  induction H as [| x k _ IH Hx]; [constructor | constructor; [done |]].
  eapply Forall_impl; [exact Hx |]. simpl. lia.
Qed.

Lemma StronglySorted_sublist {A} (R : relation A) (l k : list A) :
  l `sublist_of` k → StronglySorted R k → StronglySorted R l.
Proof.
  induction 1 as [| x l k Hsub IH | x l k Hsub IH]; intros Hk; [constructor | |];
    apply StronglySorted_inv in Hk as [Hk Hx].
  - constructor; [by apply IH |]. rewrite Forall_forall in Hx |- *. intros y Hy.
    apply Hx. by eapply elem_of_sublist.
  - by apply IH.
Qed.

Lemma StronglySorted_lookup_lt {A} (R : relation A) (l : list A) i j x y :
  StronglySorted R l → l !! i = Some x → l !! j = Some y → (i < j)%nat → R x y.
Proof.
  intros Hl. revert i j. induction Hl as [| z l Hl IH Hz]; intros i j Hi Hj Hij; [done |].
  destruct j as [| j]; [lia |]. destruct i as [| i]; simpl in *; simplify_eq.
  - rewrite Forall_forall in Hz. apply Hz. by eapply list_elem_of_lookup_2.
  - eapply IH; [done | done | lia].
Qed.

(** A [BTreeSet] of integers collected from a list, in order. *)
Definition btree_ints (l : list Z) : list Z := sort_by Z.leb (remove_dups l).

Lemma elem_of_btree_ints x l : x ∈ btree_ints l ↔ x ∈ l.
Proof. unfold btree_ints. by rewrite elem_of_sort_by, elem_of_remove_dups. Qed.

Lemma NoDup_btree_ints l : NoDup (btree_ints l).
Proof. unfold btree_ints. rewrite sort_by_perm. apply NoDup_remove_dups. Qed.

Lemma sorted_Z_unique (l k : list Z) :
  StronglySorted (λ a b, (a <=? b) = true) l → StronglySorted (λ a b, (a <=? b) = true) k →
  l ≡ₚ k → l = k.
Proof.
  revert k. induction l as [| x l IH]; intros k Hl Hk Hp.
  { symmetry. by apply Permutation_nil. }
  destruct k as [| y k]; [by symmetry in Hp; apply Permutation_nil_cons in Hp |].
  apply StronglySorted_inv in Hl as [Hl Hx]. apply StronglySorted_inv in Hk as [Hk Hy].
  rewrite Forall_forall in Hx, Hy.
  assert (x = y) as ->.
  { assert (x ∈ y :: k) as [-> | H1]%elem_of_cons by (rewrite <- Hp; left); [done |].
    assert (y ∈ x :: l) as [-> | H2]%elem_of_cons by (rewrite Hp; left); [done |].
    specialize (Hx _ H2). specialize (Hy _ H1). lia. }
  f_equal. apply IH; [done | done |]. by eapply Permutation_cons_inv.
Qed.

(** A set's iteration order depends on its elements only. *)
Lemma btree_ints_ext l k : (∀ x, x ∈ l ↔ x ∈ k) → btree_ints l = btree_ints k.
Proof.
  intros Hext. apply sorted_Z_unique.
  - apply sort_by_sorted; intros; lia.
  - apply sort_by_sorted; intros; lia.
  - apply NoDup_Permutation; [apply NoDup_btree_ints.. |].
    intros x. by rewrite !elem_of_btree_ints.
Qed.

(** Elements of a list with distinct keys are determined by their keys. *)
Lemma NoDup_fmap_elem_inj {A B} (f : A → B) (l : list A) x y :
  NoDup (f <$> l) → x ∈ l → y ∈ l → f x = f y → x = y.
Proof.
  intros Hnd Hx Hy E. apply list_elem_of_lookup in Hx as [i Hi].
  apply list_elem_of_lookup in Hy as [j Hj].
  assert (i = j) as ->; [| congruence].
  apply (NoDup_lookup (f <$> l) i j (f x) Hnd); rewrite list_lookup_fmap.
  - by rewrite Hi.
  - by rewrite Hj, E.
Qed.

(** * Sums over maps *)
Section map_sum.
Context {K : Type} `{Countable K}.

(** The sum of a map's values. *)
Definition map_sum (m : gmap K Z) : Z := map_fold (λ _ v acc, v + acc) 0 m.

Lemma map_sum_empty : map_sum ∅ = 0.
Proof. apply map_fold_empty. Qed.

Lemma map_sum_insert m k v :
  map_sum (<[k := v]> m) = map_sum m - default 0 (m !! k) + v.
Proof.
  unfold map_sum.
  assert (∀ m' : gmap K Z, m' !! k = None →
    map_fold (λ _ v acc, v + acc) 0 (<[k := v]> m')
    = v + map_fold (λ _ v acc, v + acc) 0 m') as Hins.
  { intros m' Hk. apply map_fold_insert_L; [intros; lia | done]. }
  destruct (m !! k) as [w |] eqn:E; simpl.
  - rewrite <- (insert_delete_eq m k v). rewrite Hins by apply lookup_delete_eq.
    rewrite (map_fold_delete_L (λ _ v acc, v + acc) 0 k w m) at 1; [| intros; lia | done]. lia.
  - rewrite Hins by done. lia.
Qed.

Lemma map_sum_delete m k : map_sum (delete k m) = map_sum m - default 0 (m !! k).
Proof.
  destruct (m !! k) as [v |] eqn:E; simpl.
  - rewrite <- (insert_id m k v E) at 2. rewrite <- insert_delete_eq, map_sum_insert.
    rewrite lookup_delete_eq. simpl. lia.
  - rewrite delete_id by done. lia.
Qed.

(** The sum of a map over a list that enumerates its keys. *)
Lemma map_sum_keys (ks : list K) (m : gmap K Z) :
  NoDup ks → (∀ k, is_Some (m !! k) → k ∈ ks) →
  map_sum m = sum_Z ((λ k, default 0 (m !! k)) <$> ks).
Proof.
  intros Hnd. revert m. induction Hnd as [| k ks Hk Hnd IH]; intros m Hm; csimpl.
  { rewrite sum_Z_nil. destruct (map_choose_or_empty m) as [(k & v & E) | ->].
    - destruct (not_elem_of_nil k). apply Hm. by eexists.
    - apply map_sum_empty. }
  rewrite sum_Z_cons. specialize (IH (delete k m)). rewrite map_sum_delete in IH.
  rewrite <- (Z.sub_add (default 0 (m !! k)) (map_sum m)), IH.
  - rewrite Z.add_comm. do 2 f_equal. apply list_fmap_ext. intros i j Hj. simpl.
    rewrite lookup_delete_ne; [done |]. intros ->. destruct Hk. by eapply list_elem_of_lookup_2.
  - intros j Hj. rewrite lookup_delete_is_Some in Hj. destruct Hj as [Hne Hj].
    apply Hm in Hj. set_solver.
Qed.

Lemma map_sum_list_to_map (l : list (K * Z)) :
  NoDup l.*1 → map_sum (list_to_map l) = sum_Z l.*2.
Proof.
  induction l as [| [k v] l IH]; csimpl; intros Hnd; [by rewrite map_sum_empty |].
  apply NoDup_cons in Hnd as [Hk Hnd]. rewrite map_sum_insert, sum_Z_cons, IH by done.
  rewrite (proj1 (not_elem_of_list_to_map _ _)) by done. simpl. lia.
Qed.

Lemma map_sum_to_list (m : gmap K Z) : map_sum m = sum_Z (map_to_list m).*2.
Proof.
  rewrite <- (list_to_map_to_list m) at 1.
  apply map_sum_list_to_map, NoDup_fst_map_to_list.
Qed.

Lemma map_sum_nonneg m : (∀ k, 0 ≤ default 0 (m !! k)) → 0 ≤ map_sum m.
Proof.
  intros Hpos. rewrite map_sum_to_list. apply sum_Z_nonneg, Forall_fmap, Forall_forall.
  intros [j w] Hj%elem_of_map_to_list. specialize (Hpos j). by rewrite Hj in Hpos.
Qed.

Lemma map_sum_ge k m : (∀ k, 0 ≤ default 0 (m !! k)) → default 0 (m !! k) ≤ map_sum m.
Proof.
  intros Hpos. assert (0 ≤ map_sum (delete k m)) as Hd; [| rewrite map_sum_delete in Hd; lia].
  apply map_sum_nonneg. intros j. destruct (decide (j = k)) as [-> |].
  - by rewrite lookup_delete_eq.
  - by rewrite lookup_delete_ne.
Qed.

End map_sum.
