(* ===== verification/Canon.v ===== *)
(** The arithmetic of the canonical rules: [tpf3mp-canon/src/lib.rs] (money in
    cents, floor division) and [tpf3mp-canon/src/lua.rs] (Lua 5.1 numbers on
    exact integers). *)
From S2P Require Import Prelude.
Local Open Scope Z_scope.

(** * Money: [struct Cents] *)
Record Cents := MkCents { cents : Z }.

Module Cents.

Definition ZERO : Cents := MkCents 0.

Definition checked_add (a b : Cents) : option Cents :=
  MkCents <$> checked_add_i64 (cents a) (cents b).

Definition checked_sub (a b : Cents) : option Cents :=
  MkCents <$> checked_sub_i64 (cents a) (cents b).

(** [self * numerator / denominator] toward negative infinity.  The product of
    two [i64] fits an [i128], and so does the quotient. *)
Definition mul_div_floor (self : Cents) (numerator denominator : Z) : option Cents :=
  if denominator =? 0 then None
  else
    let product := cents self * numerator in
    let quotient := Z.quot product denominator in
    let floored :=
      if negb (Z.rem product denominator =? 0)
         && negb (eqb (product <? 0) (denominator <? 0))
      then quotient - 1
      else quotient in
    MkCents <$> to_i64 floored.

End Cents.

(** * [floor_div] *)
Definition floor_div (a b : Z) : option Z :=
  quotient ← checked_div_i64 a b;
  remainder ← checked_rem_i64 a b;
  if negb (remainder =? 0) && negb (eqb (remainder <? 0) (b <? 0))
  then checked_sub_i64 quotient 1
  else Some quotient.

(** Truncated division, corrected when the signs differ, is floored
    division.  [x] is the quantity whose sign the code tests: the remainder in
    [floor_div], the product in [mul_div_floor]. *)
Lemma trunc_to_floor a b x :
  b ≠ 0 →
  (Z.rem a b ≠ 0 → (x < 0 ↔ a < 0)) →
  (if negb (Z.rem a b =? 0) && negb (eqb (x <? 0) (b <? 0))
   then Z.quot a b - 1 else Z.quot a b) = a / b.
Proof.
  intros Hb Hx.
  pose proof (Z.quot_rem a b Hb) as Hqr.
  pose proof (Z.rem_bound_abs a b Hb) as Hbound.
  destruct (decide (Z.rem a b = 0)) as [Hr | Hr].
  { rewrite Hr; simpl. rewrite Hr, Z.add_0_r in Hqr. rewrite Hqr at 2.
    by rewrite Z.mul_comm, Z.div_mul. }
  specialize (Hx Hr).
  pose proof (Z.rem_sign_nz a b Hb Hr) as Hsgn.
  rewrite (proj2 (Z.eqb_neq _ _) Hr); simpl.
  destruct (x <? 0) eqn:Ex, (b <? 0) eqn:Eb; simpl.
  all: try (apply (Z.div_unique_neg a b _ (Z.rem a b)); lia).
  all: try (apply (Z.div_unique_pos a b _ (Z.rem a b)); lia).
  all: try (apply (Z.div_unique_neg a b _ (Z.rem a b + b)); lia).
  all: try (apply (Z.div_unique_pos a b _ (Z.rem a b + b)); lia).
Qed.

Lemma rem_neg_iff a b : Z.rem a b ≠ 0 → b ≠ 0 → (Z.rem a b < 0 ↔ a < 0).
Proof. intros Hr Hb. pose proof (Z.rem_sign_nz a b Hb Hr). lia. Qed.

Lemma div_i64_overflow a b :
  is_i64 a → is_i64 b → b ≠ 0 → ¬ (a = i64_min ∧ b = -1) →
  is_i64 (Z.quot a b) ∧ is_i64 (a / b).
Proof.
  intros Ha Hb Hnz Hno.
  pose proof (Z.div_mod a b Hnz). pose proof (Z.quot_rem a b Hnz).
  pose proof (Z.rem_bound_abs a b Hnz). pose proof (Z.mod_bound_or a b Hnz).
  unfold_ranges. split; nia.
Qed.

(** [floor_div] is floored division ([Z.div]) on [i64] operands; it is refused
    exactly for a zero divisor and for the one quotient that does not fit. *)
Lemma floor_div_eq a b :
  is_i64 a → is_i64 b →
  floor_div a b = if b =? 0 then None else to_i64 (a / b).
Proof.
  intros Ha Hb. unfold floor_div, checked_div_i64, checked_rem_i64.
  destruct (Z.eqb_spec b 0) as [-> | Hnz]; [done |]. simpl.
  destruct ((a =? i64_min) && (b =? -1)) eqn:Emin.
  { apply andb_true_iff in Emin as [->%Z.eqb_eq ->%Z.eqb_eq]. reflexivity. }
  assert (¬ (a = i64_min ∧ b = -1)) as Hno by lia.
  destruct (div_i64_overflow a b Ha Hb Hnz Hno) as [Hq Hd].
  rewrite (to_i64_in _ Hq); simpl.
  rewrite <- (trunc_to_floor a b (Z.rem a b) Hnz (fun Hr => rem_neg_iff a b Hr Hnz)) in Hd |- *.
  unfold checked_sub_i64.
  destruct (negb (Z.rem a b =? 0) && negb (eqb (Z.rem a b <? 0) (b <? 0))); [done |].
  by rewrite to_i64_in.
Qed.

Lemma floor_div_pos a b :
  is_i64 a → is_i64 b → 0 < b → floor_div a b = Some (a / b).
Proof.
  intros Ha Hb Hpos. rewrite floor_div_eq by done.
  rewrite (proj2 (Z.eqb_neq b 0)) by lia.
  apply to_i64_in, (div_i64_overflow a b Ha Hb); lia.
Qed.

(** * Lua 5.1 numbers: module [lua] *)
Module lua.

Definition MAX_EXACT_INTEGER : Z := Z.shiftl 1 53 - 1.

Definition exact (value : Z) : option Z :=
  if Z.abs value <=? Z.abs MAX_EXACT_INTEGER then Some value else None.

Definition add (a b : Z) : option Z :=
  a' ← exact a; b' ← exact b; r ← checked_add_i64 a' b'; exact r.

Definition sub (a b : Z) : option Z :=
  a' ← exact a; b' ← exact b; r ← checked_sub_i64 a' b'; exact r.

Definition mul (a b : Z) : option Z :=
  a' ← exact a; b' ← exact b; r ← checked_mul_i64 a' b'; exact r.

Definition floor_div (a b : Z) : option Z :=
  a' ← exact a; b' ← exact b; Canon.floor_div a' b'.

Definition modulo (a b : Z) : option Z :=
  a' ← exact a;
  aa ← checked_abs_i64 a';
  b' ← exact b;
  ab ← checked_abs_i64 b';
  s ← checked_add_i64 aa ab;
  _ ← exact s;
  remainder ← checked_rem_i64 a b;
  if negb (remainder =? 0) && negb (eqb (remainder <? 0) (b <? 0))
  then Some (remainder + b)
  else Some remainder.

Definition clamp (value low high : Z) : Z :=
  if value <? low then low else if high <? value then high else value.

(** An integer Lua holds exactly, along with everything smaller. *)
Definition is_exact (z : Z) : Prop := - MAX_EXACT_INTEGER ≤ z ≤ MAX_EXACT_INTEGER.

End lua.

(** [lua] arithmetic is a checked window of the exact integers: it returns the
    integer result, and only when both operands and the result are exact. *)
Section lua_spec.
Import lua.

Lemma max_exact_value : MAX_EXACT_INTEGER = 9007199254740991.
Proof. reflexivity. Qed.

Lemma is_exact_i64 z : is_exact z → is_i64 z.
Proof. unfold is_exact. rewrite max_exact_value. range_lia. Qed.

Lemma exact_Some z r : exact z = Some r ↔ r = z ∧ is_exact z.
Proof.
  unfold exact, is_exact. rewrite max_exact_value.
  destruct (Z.leb_spec (Z.abs z) (Z.abs 9007199254740991)); naive_solver lia.
Qed.

Lemma exact_in z : is_exact z → exact z = Some z.
Proof. intros. by apply exact_Some. Qed.

(** The shape shared by [add], [sub] and [mul]. *)
Lemma exact_op_Some (op : Z → Z → Z) a b r :
  (a' ← exact a; b' ← exact b; r' ← to_i64 (op a' b'); exact r') = Some r ↔
  r = op a b ∧ is_exact a ∧ is_exact b ∧ is_exact (op a b).
Proof.
  split.
  - intros H. inv_option.
    repeat match goal with
    | H : exact _ = Some _ |- _ => apply exact_Some in H as [-> ?]
    | H : to_i64 _ = Some _ |- _ => apply to_i64_Some in H as [-> ?]
    end. done.
  - intros (-> & Ha & Hb & Hr).
    rewrite (exact_in a), (exact_in b) by done; simpl.
    rewrite to_i64_in by (by apply is_exact_i64). by apply exact_in.
Qed.

Lemma add_Some a b r :
  add a b = Some r ↔ r = a + b ∧ is_exact a ∧ is_exact b ∧ is_exact (a + b).
Proof. apply (exact_op_Some Z.add). Qed.

Lemma sub_Some a b r :
  sub a b = Some r ↔ r = a - b ∧ is_exact a ∧ is_exact b ∧ is_exact (a - b).
Proof. apply (exact_op_Some Z.sub). Qed.

Lemma mul_Some a b r :
  mul a b = Some r ↔ r = a * b ∧ is_exact a ∧ is_exact b ∧ is_exact (a * b).
Proof. apply (exact_op_Some Z.mul). Qed.

Lemma is_exact_div a b : is_exact a → b ≠ 0 → is_exact (a / b).
Proof.
  unfold is_exact. rewrite max_exact_value. intros Ha Hb.
  pose proof (Z.div_mod a b Hb). pose proof (Z.mod_bound_or a b Hb). nia.
Qed.

Lemma lua_floor_div_Some a b r :
  floor_div a b = Some r ↔ r = a / b ∧ b ≠ 0 ∧ is_exact a ∧ is_exact b.
Proof.
  unfold floor_div. split.
  - intros H. inv_option.
    repeat match goal with
    | H : exact _ = Some _ |- _ => apply exact_Some in H as [-> ?]
    end.
    rewrite floor_div_eq in H by (by apply is_exact_i64).
    destruct (Z.eqb_spec b 0) as [-> | Hnz]; [done |].
    by apply to_i64_Some in H as [-> _].
  - intros (-> & Hnz & Ha & Hb).
    rewrite (exact_in a), (exact_in b) by done; simpl.
    rewrite floor_div_eq by (by apply is_exact_i64).
    rewrite (proj2 (Z.eqb_neq b 0)) by done.
    by apply to_i64_in, is_exact_i64, is_exact_div.
Qed.

Lemma modulo_Some a b r :
  modulo a b = Some r ↔ r = a mod b ∧ b ≠ 0 ∧ is_exact (Z.abs a + Z.abs b).
Proof.
  assert (Hrem : b ≠ 0 →
    (if negb (Z.rem a b =? 0) && negb (eqb (Z.rem a b <? 0) (b <? 0))
     then Some (Z.rem a b + b) else Some (Z.rem a b)) = Some (a mod b)).
  { intros Hnz.
    pose proof (trunc_to_floor a b (Z.rem a b) Hnz (fun Hr => rem_neg_iff a b Hr Hnz)) as Hf.
    pose proof (Z.quot_rem a b Hnz). pose proof (Z.div_mod a b Hnz).
    case_match; f_equal; nia. }
  unfold modulo, checked_abs_i64, checked_add_i64, checked_rem_i64. split.
  - intros H. inv_option.
    repeat match goal with
    | H : exact _ = Some _ |- _ => apply exact_Some in H as [-> ?]
    | H : to_i64 _ = Some _ |- _ => apply to_i64_Some in H as [-> ?]
    end.
    destruct (Z.eqb_spec b 0) as [-> | Hnz]; [done |]. simpl in *.
    destruct ((a =? i64_min) && (b =? -1)); [done |]. simplify_eq/=.
    rewrite (Hrem Hnz) in H. by simplify_eq.
  - intros (-> & Hnz & He).
    assert (is_exact a ∧ is_exact b ∧ is_exact (Z.abs a) ∧ is_exact (Z.abs b))
      as (Ha & Hb & Haa & Hab) by (unfold is_exact in *; rewrite max_exact_value in *; lia).
    rewrite (exact_in a), (exact_in b) by done; simpl.
    rewrite !(to_i64_in (Z.abs _)) by (by apply is_exact_i64); simpl.
    rewrite to_i64_in by (by apply is_exact_i64); simpl.
    rewrite exact_in by done; simpl.
    assert ((b =? 0) || ((a =? i64_min) && (b =? -1)) = false) as ->.
    { unfold is_exact in Ha. rewrite max_exact_value in Ha. range_lia. }
    simpl. by apply Hrem.
Qed.

Lemma lua_clamp_eq v low high : low ≤ high → clamp v low high = Prelude.clamp v low high.
Proof. unfold clamp, Prelude.clamp. intros. repeat case_match; lia. Qed.

End lua_spec.

(** Computes with [lua] operations that are known to succeed, and inverts those
    that did. *)
Ltac lua_inv :=
  inv_option;
  repeat match goal with
  | H : lua.add _ _ = Some _ |- _ => apply add_Some in H as (-> & ? & ? & ?)
  | H : lua.sub _ _ = Some _ |- _ => apply sub_Some in H as (-> & ? & ? & ?)
  | H : lua.mul _ _ = Some _ |- _ => apply mul_Some in H as (-> & ? & ? & ?)
  | H : lua.floor_div _ _ = Some _ |- _ => apply lua_floor_div_Some in H as (-> & ? & ? & ?)
  | H : lua.modulo _ _ = Some _ |- _ => apply modulo_Some in H as (-> & ? & ?)
  | H : lua.exact _ = Some _ |- _ => apply exact_Some in H as (-> & ?)
  end; simplify_eq/=.

Ltac exact_lia := unfold lua.is_exact in *; rewrite ?max_exact_value in *; lia.
Ltac exact_nia := unfold lua.is_exact in *; rewrite ?max_exact_value in *; nia.

(** * Properties *)

(** [floor_div] on any two [i64] is floored division; [None] exactly for a
    zero divisor and for [i64::MIN / -1], the one quotient outside [i64]. *)
Lemma floor_div_floors (a b : Z) :
  is_i64 a → is_i64 b →
  floor_div a b =
    if (b =? 0) || ((a =? i64_min) && (b =? -1)) then None else Some (a / b).
Proof.
  intros Ha Hb. rewrite floor_div_eq by done.
  destruct (Z.eqb_spec b 0) as [-> | Hnz]; [done |]. simpl.
  destruct ((a =? i64_min) && (b =? -1)) eqn:Emin.
  - apply andb_true_iff in Emin as [->%Z.eqb_eq ->%Z.eqb_eq]. reflexivity.
  - apply to_i64_in, (div_i64_overflow a b Ha Hb Hnz). lia.
Qed.
