(* ===== verification/Economy.v ===== *)
(** The constants every economy module shares:
    [tpf3mp-canon/src/economy/mod.rs]. *)
From S2P Require Import Prelude Canon.
Local Open Scope Z_scope.

(** Ceiling of every authored money aggregate: 10^15 cents. *)
Definition ACCUMULATOR_LIMIT : Z := 1000000000000000.

(** One whole market's demand, in parts per million. *)
Definition SHARE_SCALE : Z := 1000000.

Inductive MarketKind :=
  | Passenger
  | Cargo.

#[export] Instance MarketKind_eq_dec : EqDecision MarketKind.
Proof. solve_decision. Defined.

(** [value.clamp(0, ACCUMULATOR_LIMIT)], the [bounded] of [revenue.rs] and the
    [non_negative] of [costs.rs]. *)
Definition bounded (value : Z) : Z := clamp value 0 ACCUMULATOR_LIMIT.

Lemma bounded_range v : 0 ≤ bounded v ≤ ACCUMULATOR_LIMIT.
Proof. unfold bounded, clamp, ACCUMULATOR_LIMIT. lia. Qed.

Lemma bounded_id v : 0 ≤ v ≤ ACCUMULATOR_LIMIT → bounded v = v.
Proof. unfold bounded, clamp. lia. Qed.

Lemma bounded_exact v : lua.is_exact (bounded v).
Proof. pose proof (bounded_range v). unfold ACCUMULATOR_LIMIT in *. exact_lia. Qed.

Ltac limit_lia := unfold ACCUMULATOR_LIMIT, SHARE_SCALE in *; lia.
