(* ===== verification/Settlement.v ===== *)
(** Aggregate arithmetic of settlement and scoring:
    [tpf3mp-canon/src/economy/settlement.rs]. *)
From S2P Require Import Prelude Canon Economy.
Local Open Scope Z_scope.

Definition CENTS_PER_DOLLAR : Z := 100.

Definition saturating_add (left right : Z) : Z :=
  Z.min (saturating_add_i64 (Z.max left 0) (Z.max right 0)) ACCUMULATOR_LIMIT.

Definition saturating_multiply (left right : Z) : Z :=
  Z.min (saturating_mul_i64 (Z.max left 0) (Z.max right 0)) ACCUMULATOR_LIMIT.

Definition signed_add (left right : Z) : Z :=
  clamp (saturating_add_i64 left right) (- ACCUMULATOR_LIMIT) ACCUMULATOR_LIMIT.

Definition wallet_delta_dollars (net_revenue_cents carried_residual_cents : Z) : Z * Z :=
  let combined := signed_add net_revenue_cents carried_residual_cents in
  (Z.quot combined CENTS_PER_DOLLAR, Z.rem combined CENTS_PER_DOLLAR).

Arguments wallet_delta_dollars : simpl never.

Definition model_value_cents
    (net_revenue_cents demand markets_reached active_lines : Z) : Z :=
  let earnings :=
    signed_add (saturating_mul_i64 net_revenue_cents 10) (saturating_multiply demand 100) in
  let reach :=
    saturating_add (saturating_multiply markets_reached 500000)
                   (saturating_multiply active_lines 250000) in
  Z.max (signed_add earnings reach) 0.

(** The intermediate [i64] saturation never shows: clamping the exact sum to
    the accumulator limit gives the same value, because the limit is far inside
    the [i64] range. *)
Lemma signed_add_exact left right :
  signed_add left right = clamp (left + right) (- ACCUMULATOR_LIMIT) ACCUMULATOR_LIMIT.
Proof. unfold signed_add, saturating_add_i64, clamp. unfold_ranges. limit_lia. Qed.

Lemma saturating_add_exact left right :
  saturating_add left right = Z.min (Z.max left 0 + Z.max right 0) ACCUMULATOR_LIMIT.
Proof. unfold saturating_add, saturating_add_i64, clamp. unfold_ranges. limit_lia. Qed.

Lemma saturating_multiply_exact left right :
  saturating_multiply left right = Z.min (Z.max left 0 * Z.max right 0) ACCUMULATOR_LIMIT.
Proof.
  unfold saturating_multiply, saturating_mul_i64, clamp. unfold_ranges.
  assert (0 ≤ Z.max left 0 * Z.max right 0) by nia. limit_lia.
Qed.

Lemma signed_add_range left right :
  - ACCUMULATOR_LIMIT ≤ signed_add left right ≤ ACCUMULATOR_LIMIT.
Proof. rewrite signed_add_exact. unfold clamp. limit_lia. Qed.

(** Settles a list of net revenues one after the other, carrying the residual,
    and returns the dollars credited in all and the residual left. *)
Fixpoint settle_wallet (nets : list Z) (residual : Z) : Z * Z :=
  match nets with
  | [] => (0, residual)
  | net :: nets' =>
      let '(dollars, residual') := wallet_delta_dollars net residual in
      let '(total, final) := settle_wallet nets' residual' in
      (dollars + total, final)
  end.

Lemma wallet_delta_split net residual d r :
  wallet_delta_dollars net residual = (d, r) →
  signed_add net residual = d * 100 + r ∧ -100 < r < 100 ∧
  0 ≤ r * signed_add net residual.
Proof.
  unfold wallet_delta_dollars, CENTS_PER_DOLLAR. intros [= <- <-].
  set (c := signed_add net residual).
  pose proof (Z.quot_rem c 100 ltac:(lia)).
  pose proof (Z.rem_bound_abs c 100 ltac:(lia)).
  pose proof (Z.rem_sign_mul c 100 ltac:(lia)). lia.
Qed.

Lemma signed_add_small net residual :
  Z.abs net ≤ ACCUMULATOR_LIMIT - 100 → Z.abs residual < 100 →
  signed_add net residual = net + residual.
Proof. intros. rewrite signed_add_exact. unfold clamp. limit_lia. Qed.

Lemma settle_wallet_cons net nets residual :
  settle_wallet (net :: nets) residual =
    let '(d, r) := wallet_delta_dollars net residual in
    (d + (settle_wallet nets r).1, (settle_wallet nets r).2).
Proof.
  cbn [settle_wallet]. destruct (wallet_delta_dollars net residual).
  by destruct (settle_wallet nets _).
Qed.

(** [wallet_delta_dollars] loses no cent.  The dollars credited over any
    sequence of settlements whose sums stay within the accumulator limit, plus
    the residual carried at the end, are exactly the cents settled plus the
    residual at the start; the residual is always below one dollar, and is the
    truncated part of the combined amount, so a loss is carried as a loss. *)
Theorem wallet_conserves_cents (nets : list Z) (residual : Z) :
  Forall (λ net, Z.abs net ≤ ACCUMULATOR_LIMIT - 100) nets →
  Z.abs residual < 100 →
  (settle_wallet nets residual).1 * 100 + (settle_wallet nets residual).2
    = sum_Z nets + residual ∧
  Z.abs (settle_wallet nets residual).2 < 100.
Proof.
  intros Hnets. revert residual.
  induction Hnets as [| net nets Hnet _ IH]; intros residual Hres.
  { rewrite sum_Z_nil. simpl. lia. }
  rewrite sum_Z_cons, settle_wallet_cons.
  destruct (wallet_delta_dollars net residual) as [d r] eqn:Ed.
  apply wallet_delta_split in Ed as (Hsum & Hr & _).
  rewrite signed_add_small in Hsum by done.
  destruct (IH r ltac:(lia)) as [IHsum IHr]. cbn [fst snd]. split; [lia | exact IHr].
Qed.

Lemma wallet_conserves_cents_witness :
  (settle_wallet [199; -250; 50] 60).1 * 100 + (settle_wallet [199; -250; 50] 60).2 = 59.
Proof.
  destruct (wallet_conserves_cents [199; -250; 50] 60) as [H _].
  - repeat constructor; vm_compute; discriminate.
  - vm_compute. reflexivity.
  - exact H.
Defined.
