(* ===== verification/Difficulty.v ===== *)
(** Difficulty presets and revenue scaling:
    [tpf3mp-canon/src/economy/difficulty.rs]. *)
From S2P Require Import Prelude Canon Economy.
From Stdlib Require Import Ascii String.
Local Open Scope Z_scope.

Definition SCALE : Z := 1000000.
Definition MAX_MULTIPLIER_PPM : Z := 4000000.

Inductive Difficulty :=
  | Normal
  | Hard
  | Easy
  | Relaxed.

#[export] Instance Difficulty_eq_dec : EqDecision Difficulty.
Proof. solve_decision. Defined.

Definition DEFAULT : Difficulty := Normal.
Definition ORDER : list Difficulty := [Normal; Hard; Easy; Relaxed].

Definition key (d : Difficulty) : string :=
  match d with
  | Normal => "normal"
  | Hard => "hard"
  | Easy => "easy"
  | Relaxed => "relaxed"
  end.

Definition label (d : Difficulty) : string :=
  match d with
  | Normal => "Normal"
  | Hard => "Hard"
  | Easy => "Easy"
  | Relaxed => "Relaxed"
  end.

Definition revenue_multiplier_ppm (d : Difficulty) : Z :=
  match d with
  | Normal => 1000000
  | Hard => 600000
  | Easy => 1500000
  | Relaxed => 2000000
  end.

(** [u8::to_ascii_lowercase] and [str::eq_ignore_ascii_case]. *)
Definition to_ascii_lowercase (c : ascii) : ascii :=
  let n := nat_of_ascii c in
  if ((65 <=? n) && (n <=? 90))%nat then ascii_of_nat (n + 32) else c.

Fixpoint eq_ignore_ascii_case (s t : string) : bool :=
  match s, t with
  | EmptyString, EmptyString => true
  | String a s', String b t' =>
      Ascii.eqb (to_ascii_lowercase a) (to_ascii_lowercase b) && eq_ignore_ascii_case s' t'
  | _, _ => false
  end.

Definition from_key (k : string) : Difficulty :=
  default DEFAULT (List.find (λ preset, eq_ignore_ascii_case k (key preset)) ORDER).

Definition apply (raw_cents multiplier_ppm residual : Z) : Z * Z :=
  let raw := clamp raw_cents 0 ACCUMULATOR_LIMIT in
  let multiplier := clamp multiplier_ppm 0 MAX_MULTIPLIER_PPM in
  let carried := clamp residual 0 (SCALE - 1) in
  let whole := Z.quot raw SCALE in
  let remainder := Z.rem raw SCALE in
  let base := whole * multiplier in
  if ACCUMULATOR_LIMIT <=? base then (ACCUMULATOR_LIMIT, 0)
  else
    let tail := remainder * multiplier + carried in
    let scaled := base + Z.quot tail SCALE in
    if ACCUMULATOR_LIMIT <=? scaled then (ACCUMULATOR_LIMIT, 0)
    else (scaled, Z.rem tail SCALE).

Arguments apply : simpl never.

(** [apply] without the clamps and the split: the reference it must equal. *)
Definition apply_exact (raw multiplier residual : Z) : Z * Z :=
  let numerator := raw * multiplier + residual in
  if ACCUMULATOR_LIMIT <=? numerator / SCALE
  then (ACCUMULATOR_LIMIT, 0)
  else (numerator / SCALE, numerator mod SCALE).

Lemma apply_exact_eq raw m r :
  0 ≤ raw ≤ ACCUMULATOR_LIMIT → 0 ≤ m ≤ MAX_MULTIPLIER_PPM → 0 ≤ r < SCALE →
  apply raw m r = apply_exact raw m r.
Proof.
  intros Hraw Hm Hr. unfold apply, apply_exact.
  assert (clamp raw 0 ACCUMULATOR_LIMIT = raw) as -> by (unfold clamp; lia).
  assert (clamp m 0 MAX_MULTIPLIER_PPM = m) as -> by (unfold clamp; lia).
  assert (clamp r 0 (SCALE - 1) = r) as -> by (unfold clamp; lia).
  assert (0 < SCALE) as Hs by done.
  destruct (quot_rem_nonneg raw SCALE) as [-> ->]; [lia | done |].
  destruct (div_mod_pos raw SCALE Hs) as [Hsplit Hmod].
  set (w := raw / SCALE) in *. set (p := raw mod SCALE) in *.
  assert (0 ≤ p * m + r) by nia.
  destruct (quot_rem_nonneg (p * m + r) SCALE) as [-> ->]; [lia | done |].
  assert (raw * m + r = (p * m + r) + (w * m) * SCALE) as -> by nia.
  rewrite Z.div_add, Z.mod_add by lia.
  assert (0 ≤ (p * m + r) / SCALE) by (apply Z.div_pos; lia).
  rewrite (Z.add_comm (w * m)).
  destruct (Z.leb_spec ACCUMULATOR_LIMIT (w * m)); [| done].
  by rewrite (proj2 (Z.leb_le _ _)) by lia.
Qed.

(** A series of payments with the residual carried from one to the next. *)
Fixpoint apply_all (raws : list Z) (multiplier residual : Z) : Z * Z :=
  match raws with
  | [] => (0, residual)
  | raw :: raws' =>
      let '(scaled, residual') := apply raw multiplier residual in
      let '(total, final) := apply_all raws' multiplier residual' in
      (scaled + total, final)
  end.

(** Revenue scaling keeps every millionth of a cent.  Any sequence of
    payments whose total stays under the accumulator limit earns, in total and
    in carried residual, exactly what one payment of their sum earns. *)
Theorem many_payments_equal_one (raws : list Z) (multiplier residual : Z) :
  Forall (Z.le 0) raws →
  0 ≤ multiplier ≤ MAX_MULTIPLIER_PPM → 0 ≤ residual < SCALE →
  sum_Z raws * multiplier + residual < ACCUMULATOR_LIMIT * SCALE →
  sum_Z raws ≤ ACCUMULATOR_LIMIT →
  apply_all raws multiplier residual = apply (sum_Z raws) multiplier residual.
Proof.
  intros Hpos Hm. revert residual.
  induction Hpos as [| raw raws Hraw Hraws IH]; intros r Hr Hlim Hle.
  - rewrite sum_Z_nil in *. simpl. rewrite apply_exact_eq by (simpl; unfold ACCUMULATOR_LIMIT; lia).
    unfold apply_exact; simpl. rewrite Z.div_small, Z.mod_small by lia.
    by rewrite (proj2 (Z.leb_gt _ _)) by limit_lia.
  - rewrite sum_Z_cons in *. cbn [apply_all].
    pose proof (sum_Z_nonneg raws Hraws).
    rewrite !apply_exact_eq by lia.
    assert (0 < SCALE) as Hs by done.
    assert (∀ n, n < ACCUMULATOR_LIMIT * SCALE → (ACCUMULATOR_LIMIT <=? n / SCALE) = false) as Hlow.
    { intros n Hn. apply Z.leb_gt, Z.div_lt_upper_bound; lia. }
    unfold apply_exact. rewrite !Hlow by nia.
    destruct (div_mod_pos (raw * multiplier + r) SCALE Hs) as [Hdm Hmod].
    set (q := (raw * multiplier + r) / SCALE) in *.
    set (p := (raw * multiplier + r) mod SCALE) in *.
    assert (0 ≤ q) by (apply Z.div_pos; nia).
    rewrite IH by (unfold ACCUMULATOR_LIMIT, SCALE, MAX_MULTIPLIER_PPM in *; nia).
    rewrite apply_exact_eq by lia. unfold apply_exact. rewrite Hlow by nia.
    assert ((raw + sum_Z raws) * multiplier + r = (sum_Z raws * multiplier + p) + q * SCALE)
      as -> by nia.
    rewrite Z.div_add, Z.mod_add by lia. by rewrite Z.add_comm.
Qed.

Lemma many_payments_equal_one_witness :
  apply_all [3; 3; 3; 3; 3; 3; 3] (revenue_multiplier_ppm Hard) 0
  = apply 21 (revenue_multiplier_ppm Hard) 0.
Proof.
  apply (many_payments_equal_one [3; 3; 3; 3; 3; 3; 3] (revenue_multiplier_ppm Hard) 0).
  - repeat constructor; lia.
  - vm_compute; split; discriminate.
  - vm_compute; split; [discriminate | reflexivity].
  - vm_compute; reflexivity.
  - vm_compute; discriminate.
Defined.
