(* ===== verification/Revenue.v ===== *)
(** Fares and delivery revenue: [tpf3mp-canon/src/economy/revenue.rs]. *)
From S2P Require Import Prelude Canon Economy.
Local Open Scope Z_scope.

Definition PASSENGER_COHORT_SCALE : Z := 1000.
Definition CARGO_CENTS_PER_UNIT_KM : Z := 100000.
Definition CARGO_REFERENCE_FARE_CENTS : Z := 1000.
Definition DEFAULT_PASSENGER_BASE_FARE_CENTS : Z := 500.
Definition DEFAULT_PASSENGER_FARE_CENTS_PER_KM : Z := 150.
Definition DEFAULT_CARGO_DISTANCE_METERS : Z := 1000.

Definition saturating_multiply (left right : Z) : Z :=
  let left := bounded left in
  let right := bounded right in
  if (left =? 0) || (right =? 0) then 0
  else if Z.quot ACCUMULATOR_LIMIT right <? left then ACCUMULATOR_LIMIT
  else left * right.

Definition default_fare_cents (distance_meters : option Z) (kind : MarketKind) : option Z :=
  match kind with
  | Cargo => Some CARGO_REFERENCE_FARE_CENTS
  | Passenger =>
      let distance := Z.max (default 0 distance_meters) 0 in
      m ← lua.mul distance DEFAULT_PASSENGER_FARE_CENTS_PER_KM;
      s ← lua.add m 500;
      per_km ← lua.floor_div s 1000;
      lua.add DEFAULT_PASSENGER_BASE_FARE_CENTS per_km
  end.

Definition passenger_delivery_cents (passengers fare_cents : Z) : Z :=
  saturating_multiply (saturating_multiply passengers fare_cents) PASSENGER_COHORT_SCALE.

Definition model_delivery_cents
    (kind : MarketKind) (distance_meters : option Z) (fare_cents delivered : Z) : option Z :=
  match kind with
  | Passenger => Some (passenger_delivery_cents delivered fare_cents)
  | Cargo =>
      let distance := Z.max (default DEFAULT_CARGO_DISTANCE_METERS distance_meters) 0 in
      km0 ← lua.floor_div distance 1000;
      let km := Z.max km0 1 in
      let base :=
        saturating_multiply (saturating_multiply delivered km) CARGO_CENTS_PER_UNIT_KM in
      Some (Z.quot (saturating_multiply base fare_cents) CARGO_REFERENCE_FARE_CENTS)
  end.

(** The division test is exact: the product of the clamped operands, capped. *)
Lemma saturating_multiply_eq left right :
  saturating_multiply left right = Z.min (bounded left * bounded right) ACCUMULATOR_LIMIT.
Proof.
  unfold saturating_multiply.
  pose proof (bounded_range left). pose proof (bounded_range right).
  set (l := bounded left) in *. set (r := bounded right) in *.
  destruct ((l =? 0) || (r =? 0)) eqn:E0.
  { apply orb_true_iff in E0 as [->%Z.eqb_eq | ->%Z.eqb_eq]; limit_lia. }
  apply orb_false_iff in E0 as [Hl%Z.eqb_neq Hr%Z.eqb_neq].
  destruct (quot_rem_nonneg ACCUMULATOR_LIMIT r) as [-> _]; [limit_lia | lia |].
  destruct (div_mod_pos ACCUMULATOR_LIMIT r) as [Hd Hm]; [lia |].
  destruct (Z.ltb_spec (ACCUMULATOR_LIMIT / r) l) as [Hlt | Hge].
  - assert (r * (ACCUMULATOR_LIMIT / r + 1) ≤ r * l) by nia. lia.
  - assert (r * l ≤ r * (ACCUMULATOR_LIMIT / r)) by nia. lia.
Qed.

Lemma saturating_multiply_range left right :
  0 ≤ saturating_multiply left right ≤ ACCUMULATOR_LIMIT.
Proof.
  rewrite saturating_multiply_eq.
  pose proof (bounded_range left). pose proof (bounded_range right).
  assert (0 ≤ bounded left * bounded right) by nia. limit_lia.
Qed.

Lemma saturating_multiply_mono l1 l2 r1 r2 :
  l1 ≤ l2 → r1 ≤ r2 → saturating_multiply l1 r1 ≤ saturating_multiply l2 r2.
Proof.
  intros Hl Hr. rewrite !saturating_multiply_eq.
  assert (0 ≤ bounded l1 ≤ bounded l2) by (unfold bounded, clamp; limit_lia).
  assert (0 ≤ bounded r1 ≤ bounded r2) by (unfold bounded, clamp; limit_lia).
  assert (bounded l1 * bounded r1 ≤ bounded l2 * bounded r2) by nia. lia.
Qed.

(** Cargo revenue, whenever the distance is one Lua holds exactly, is a
    number of cents within the accumulator limit, and never falls when more
    units are delivered or the fare rises; the saturating product it is built
    from is the exact product of the clamped operands, capped at the limit. *)
Theorem model_delivery_bounded_monotone
    (kind : MarketKind) (distance fare1 fare2 n1 n2 : Z) :
  lua.is_exact distance → fare1 ≤ fare2 → n1 ≤ n2 →
  ∃ c1 c2,
    model_delivery_cents kind (Some distance) fare1 n1 = Some c1 ∧
    model_delivery_cents kind (Some distance) fare2 n2 = Some c2 ∧
    0 ≤ c1 ≤ c2 ∧ c2 ≤ ACCUMULATOR_LIMIT.
Proof.
  intros Hd Hf Hn. destruct kind; simpl.
  - eexists _, _. split; [done |]. split; [done |]. unfold passenger_delivery_cents.
    repeat split; try apply saturating_multiply_range.
    by repeat apply saturating_multiply_mono.
  - assert (lua.floor_div (Z.max distance 0) 1000 = Some (Z.max distance 0 / 1000)) as ->.
    { apply lua_floor_div_Some. repeat split; exact_lia. }
    simpl. eexists _, _. split; [done |]. split; [done |].
    unfold CARGO_REFERENCE_FARE_CENTS. set (km := Z.max (Z.max distance 0 / 1000) 1).
    set (m1 := saturating_multiply _ fare1). set (m2 := saturating_multiply _ fare2).
    assert (0 ≤ m1) by apply saturating_multiply_range.
    assert (m1 ≤ m2) by (by repeat apply saturating_multiply_mono).
    assert (m2 ≤ ACCUMULATOR_LIMIT) by apply saturating_multiply_range.
    rewrite !Z.quot_div_nonneg by lia. pose proof (div_le_self m2 1000 ltac:(lia) ltac:(lia)).
    split; [split; [by apply Z.div_pos | by apply Z.div_le_mono] | lia].
Qed.

Lemma model_delivery_bounded_monotone_witness :
  ∃ c1 c2,
    model_delivery_cents Cargo (Some 2999) 1500 10 = Some c1 ∧
    model_delivery_cents Cargo (Some 2999) 1600 12 = Some c2 ∧
    0 ≤ c1 ≤ c2 ∧ c2 ≤ ACCUMULATOR_LIMIT.
Proof.
  apply (model_delivery_bounded_monotone Cargo 2999 1500 1600 10 12).
  - vm_compute. split; discriminate.
  - lia.
  - lia.
Defined.
