(* ===== verification/Costs.v ===== *)
(** Operating costs and their proration:
    [tpf3mp-canon/src/economy/costs.rs]. *)
From S2P Require Import Prelude Canon Economy.
Local Open Scope Z_scope.

Definition HOURS_PER_YEAR : Z := 365 * 24.
Definition FINANCIAL_YEAR_SECONDS : Z := 3 * 3600.
Definition VEHICLE_PURCHASE_TO_ANNUAL_DIVISOR : Z := 6.
Definition INFRASTRUCTURE_CAPITAL_TO_ANNUAL_DIVISOR : Z := 10.

Definition non_negative (value : Z) : Z := clamp value 0 ACCUMULATOR_LIMIT.

Definition vehicle_annual_upkeep_cents (purchase_price_dollars : Z) : option Z :=
  m ← lua.mul (non_negative purchase_price_dollars) 100;
  lua.floor_div m VEHICLE_PURCHASE_TO_ANNUAL_DIVISOR.

Definition infrastructure_annual_upkeep_cents (capital_cents : Z) : Z :=
  Z.quot (non_negative capital_cents) INFRASTRUCTURE_CAPITAL_TO_ANNUAL_DIVISOR.

Definition hourly_charge (annual_cents residual : Z) : option (Z * Z) :=
  numerator ← lua.add (non_negative annual_cents) (Z.max residual 0);
  Some (Z.quot numerator HOURS_PER_YEAR, Z.rem numerator HOURS_PER_YEAR).

Definition period_charge (annual_cents residual period_seconds : Z) : option (Z * Z) :=
  let annual := non_negative annual_cents in
  let period := Z.max period_seconds 0 in
  let quotient := Z.quot annual FINANCIAL_YEAR_SECONDS in
  let remainder := Z.rem annual FINANCIAL_YEAR_SECONDS in
  m ← lua.mul remainder period;
  tail ← lua.add m (Z.max residual 0);
  q ← lua.mul quotient period;
  charge ← lua.add q (Z.quot tail FINANCIAL_YEAR_SECONDS);
  Some (Z.min charge ACCUMULATOR_LIMIT, Z.rem tail FINANCIAL_YEAR_SECONDS).

Definition charge (annual_cents residual period_seconds version : Z) : option (Z * Z) :=
  if version <? 6
  then hourly_charge annual_cents residual
  else period_charge annual_cents residual period_seconds.

(** [base + i64::from(index < remainder)] for the ids in order. *)
Fixpoint capital_shares (base remainder : Z) (index : Z) (cids : list string)
    : list (string * Z) :=
  match cids with
  | [] => []
  | cid :: cids' =>
      (cid, base + (if index <? remainder then 1 else 0))
      :: capital_shares base remainder (index + 1) cids'
  end.

(** [i64::try_from(ordered.len())] cannot fail: no [BTreeSet] has [2^63]
    elements. *)
Definition allocate_capital (cids : list string) (total_cents : Z)
    : option (gmap string Z) :=
  let ordered := btree_strings (filter (λ cid, cid ≠ ""%string) cids) in
  match ordered with
  | [] => Some ∅
  | _ =>
      let total := non_negative total_cents in
      count ← to_i64 (Z.of_nat (length ordered));
      let base := Z.quot total count in
      let remainder := Z.rem total count in
      Some (list_to_map (capital_shares base remainder 0 ordered))
  end.

(** ** Proration *)

Lemma non_negative_range v : 0 ≤ non_negative v ≤ ACCUMULATOR_LIMIT.
Proof. apply bounded_range. Qed.

Lemma non_negative_id v : 0 ≤ v ≤ ACCUMULATOR_LIMIT → non_negative v = v.
Proof. apply bounded_id. Qed.

(** A charge and its residual are the quotient and remainder of the exact
    amount owed. *)
Lemma period_charge_exact annual residual period c r :
  0 ≤ annual ≤ ACCUMULATOR_LIMIT → 0 ≤ residual → 0 ≤ period →
  period_charge annual residual period = Some (c, r) →
  c < ACCUMULATOR_LIMIT →
  c * FINANCIAL_YEAR_SECONDS + r = annual * period + residual ∧
  0 ≤ r < FINANCIAL_YEAR_SECONDS.
Proof.
  intros Ha Hr Hp H Hc. unfold period_charge in H.
  rewrite (non_negative_id annual Ha), (Z.max_l period 0 Hp), (Z.max_l residual 0 Hr) in H.
  set (Y := FINANCIAL_YEAR_SECONDS) in *. assert (0 < Y) as HY by done.
  destruct (quot_rem_nonneg annual Y) as [Eq Er]; [lia | done |]. rewrite Eq, Er in H.
  destruct (div_mod_pos annual Y HY) as [Hsplit Hmod].
  lua_inv.
  set (t := annual mod Y * period + residual) in *. assert (0 ≤ t) by nia.
  destruct (quot_rem_nonneg t Y) as [Eqt Ert]; [lia | done |]. rewrite Eqt, Ert in *.
  destruct (div_mod_pos t Y HY) as [Ht Htm]. split; [| done].
  rewrite Z.min_l by lia. nia.
Qed.

(** Charges a series of intervals, carrying the residual. *)
Fixpoint charge_series (annual residual : Z) (periods : list Z) : option (Z * Z) :=
  match periods with
  | [] => Some (0, residual)
  | p :: ps =>
      cr ← period_charge annual residual p;
      tr ← charge_series annual cr.2 ps;
      Some (cr.1 + tr.1, tr.2)
  end.

(** Intervals of up to a day on any amount below the limit never leave Lua's
    exact range. *)
Lemma period_charge_total annual residual period :
  0 ≤ annual → annual * period < ACCUMULATOR_LIMIT * FINANCIAL_YEAR_SECONDS - FINANCIAL_YEAR_SECONDS →
  annual ≤ ACCUMULATOR_LIMIT →
  0 ≤ residual < FINANCIAL_YEAR_SECONDS → 0 ≤ period ≤ 86400 →
  ∃ c r, period_charge annual residual period = Some (c, r) ∧ 0 ≤ c < ACCUMULATOR_LIMIT.
Proof.
  intros H0 Hlim Hle Hr Hp. unfold period_charge.
  rewrite (non_negative_id annual) by lia. rewrite !Z.max_l by lia.
  set (Y := FINANCIAL_YEAR_SECONDS) in *.
  assert (Y = 10800) as EY by done. assert (0 < Y) as HY by done.
  destruct (quot_rem_nonneg annual Y) as [-> ->]; [lia | done |].
  destruct (div_mod_pos annual Y HY) as [Hsplit Hmod].
  set (q := annual / Y) in *. set (m := annual mod Y) in *.
  assert (0 ≤ q) by (apply Z.div_pos; lia).
  assert (0 ≤ m * period ≤ 10800 * 86400) by nia.
  rewrite (proj2 (mul_Some m period _)) by (split; [done |]; repeat split; exact_nia). simpl.
  rewrite (proj2 (add_Some _ residual _)) by (split; [done |]; repeat split; exact_nia). simpl.
  assert (q * period < ACCUMULATOR_LIMIT) by (unfold ACCUMULATOR_LIMIT in *; nia).
  rewrite (proj2 (mul_Some q period _))
    by (split; [done |]; unfold ACCUMULATOR_LIMIT in *; repeat split; exact_nia). simpl.
  set (t := m * period + residual) in *. assert (0 ≤ t) by nia.
  destruct (quot_rem_nonneg t Y) as [-> ->]; [lia | done |].
  destruct (div_mod_pos t Y HY) as [Ht Htm].
  assert (0 ≤ t / Y) by (apply Z.div_pos; lia).
  assert (q * period + t / Y < ACCUMULATOR_LIMIT) by (unfold ACCUMULATOR_LIMIT in *; nia).
  rewrite (proj2 (add_Some (q * period) (t / Y) _))
    by (split; [done |]; unfold ACCUMULATOR_LIMIT in *; repeat split; exact_nia). simpl.
  eexists _, _. split; [done |]. lia.
Qed.

(** Proration is exact.  Charging any division of a span of play into
    settlement intervals of at most a day succeeds, and the charges add up to
    the exact share of the annual amount: cents charged times the length of the
    financial year, plus the residual carried, is the annual amount times the
    seconds charged, plus the residual at the start. *)
Theorem proration_exact (annual residual : Z) (periods : list Z) :
  0 ≤ annual →
  annual * 86400 < ACCUMULATOR_LIMIT * FINANCIAL_YEAR_SECONDS - FINANCIAL_YEAR_SECONDS →
  0 ≤ residual < FINANCIAL_YEAR_SECONDS →
  Forall (λ p, 0 ≤ p ≤ 86400) periods →
  ∃ total final,
    charge_series annual residual periods = Some (total, final) ∧
    total * FINANCIAL_YEAR_SECONDS + final = annual * sum_Z periods + residual ∧
    0 ≤ final < FINANCIAL_YEAR_SECONDS.
Proof.
  intros Ha Hlim Hr Hps. revert residual Hr.
  induction Hps as [| p ps Hp _ IH]; intros residual Hr.
  { exists 0, residual. rewrite sum_Z_nil. split; [done |]. lia. }
  assert (annual ≤ ACCUMULATOR_LIMIT)
    by (unfold ACCUMULATOR_LIMIT, FINANCIAL_YEAR_SECONDS in *; lia).
  destruct (period_charge_total annual residual p) as (c & r & Hc & Hcl);
    [done | nia | done | done | done |].
  destruct (period_charge_exact annual residual p c r) as [He Hr']; [lia | lia | lia | done | lia |].
  destruct (IH r Hr') as (t & f & Ht & Hs & Hf).
  cbn [charge_series]. rewrite Hc; simpl. rewrite Ht; simpl.
  eexists _, _. split; [done |]. rewrite sum_Z_cons. split; [nia | done].
Qed.

Lemma proration_exact_witness :
  ∃ total final,
    charge_series 1234567 0 (replicate 36 300) = Some (total, final) ∧
    total * FINANCIAL_YEAR_SECONDS + final = 1234567 * sum_Z (replicate 36 300) + 0 ∧
    0 ≤ final < FINANCIAL_YEAR_SECONDS.
Proof.
  apply (proration_exact 1234567 0 (replicate 36 300)).
  - lia.
  - vm_compute. reflexivity.
  - vm_compute. split; [discriminate | reflexivity].
  - apply Forall_replicate. lia.
Defined.

(** ** Capital *)

Lemma capital_shares_keys base remainder index cids :
  (capital_shares base remainder index cids).*1 = cids.
Proof. revert index. induction cids; intros; simpl; [done |]. by f_equal. Qed.

Lemma capital_shares_sum base remainder index cids :
  0 ≤ index → 0 ≤ remainder →
  sum_Z (capital_shares base remainder index cids).*2 =
    base * Z.of_nat (length cids)
    + (Z.min (index + Z.of_nat (length cids)) remainder - Z.min index remainder).
Proof.
  revert index. induction cids as [| cid cids IH]; intros index Hi Hr.
  { cbn. rewrite sum_Z_nil. lia. }
  cbn [capital_shares]. rewrite fmap_cons, sum_Z_cons.
  rewrite IH by lia. cbn [length snd]. destruct (Z.ltb_spec index remainder); lia.
Qed.

Lemma capital_shares_each base remainder index cids cid v :
  (cid, v) ∈ capital_shares base remainder index cids → v = base ∨ v = base + 1.
Proof.
  revert index. induction cids as [| c cids IH]; intros index; simpl.
  { by intros ?%not_elem_of_nil. }
  rewrite elem_of_cons. intros [[= -> ->] | H]; [| by eapply IH].
  case_match; lia.
Qed.

(** [allocate_capital] splits the capital exactly: every distinct non-empty
    id gets a share, the shares add up to the clamped total, and any two differ
    by at most one cent. *)
Theorem allocate_capital_exact (cids : list string) (total : Z) :
  (∃ cid, cid ∈ cids ∧ cid ≠ ""%string) →
  Z.of_nat (length cids) ≤ i64_max →
  ∃ m, allocate_capital cids total = Some m ∧
    map_sum m = non_negative total ∧
    (∀ cid, is_Some (m !! cid) ↔ cid ∈ cids ∧ cid ≠ ""%string) ∧
    (∀ c1 c2 v1 v2, m !! c1 = Some v1 → m !! c2 = Some v2 → Z.abs (v1 - v2) ≤ 1).
Proof.
  intros (cid0 & Hin0 & Hne0) Hlen. unfold allocate_capital.
  set (ordered := btree_strings _).
  assert (Hord : ∀ cid, cid ∈ ordered ↔ cid ∈ cids ∧ cid ≠ ""%string).
  { intros cid. unfold ordered. rewrite elem_of_btree_strings, list_elem_of_filter. tauto. }
  assert (Hnd : NoDup ordered) by apply NoDup_btree_strings.
  assert (length ordered ≤ length cids)%nat as Hle.
  { apply submseteq_length, NoDup_submseteq; [done |]. intros c Hc. by apply Hord. }
  assert (0 < length ordered)%nat as Hpos.
  { destruct ordered; [| simpl; lia]. exfalso. by apply (not_elem_of_nil cid0), Hord. }
  destruct ordered as [| o os] eqn:Eo; [simpl in *; lia |]. rewrite <- Eo in *.
  rewrite to_i64_in by range_lia. simpl.
  set (n := Z.of_nat (length ordered)) in *. assert (0 < n) as Hn by lia.
  pose proof (non_negative_range total) as Hrange.
  destruct (quot_rem_nonneg (non_negative total) n) as [-> ->]; [lia | done |].
  destruct (div_mod_pos (non_negative total) n Hn) as [Hsplit Hmod].
  set (shares := capital_shares _ _ 0 ordered).
  assert (Hkeys : shares.*1 = ordered) by apply capital_shares_keys.
  eexists. split; [done |]. split; [| split].
  - rewrite map_sum_list_to_map by (by rewrite Hkeys).
    unfold shares. rewrite capital_shares_sum by lia.
    change (Z.of_nat (length ordered)) with n. lia.
  - intros cid. rewrite <- Hord, <- Hkeys. symmetry. rewrite list_elem_of_fmap. split.
    + intros ([c v] & -> & Hin). exists v. apply elem_of_list_to_map_1; [by rewrite Hkeys | done].
    + intros [v Hv%elem_of_list_to_map_2]. by exists (cid, v).
  - intros c1 c2 v1 v2 H1%elem_of_list_to_map_2 H2%elem_of_list_to_map_2.
    apply capital_shares_each in H1. apply capital_shares_each in H2. lia.
Qed.

Lemma allocate_capital_exact_witness :
  ∃ m, allocate_capital ["b"; "a"; ""; "b"; "c"] 10 = Some m ∧
    map_sum m = non_negative 10 ∧
    (∀ cid, is_Some (m !! cid) ↔ cid ∈ ["b"; "a"; ""; "b"; "c"] ∧ cid ≠ ""%string) ∧
    (∀ c1 c2 v1 v2, m !! c1 = Some v1 → m !! c2 = Some v2 → Z.abs (v1 - v2) ≤ 1).
Proof.
  apply (allocate_capital_exact ["b"; "a"; ""; "b"; "c"] 10).
  - exists "b"%string. split; [left | discriminate].
  - vm_compute. discriminate.
Defined.
