(* ===== verification/Towns.v ===== *)
(** Model towns, gravity demand and town growth:
    [tpf3mp-canon/src/economy/town_demand.rs]. *)
From S2P Require Import Prelude Canon Economy.
Local Open Scope Z_scope.

Definition SCHEMA_VERSION : Z := 1.
Definition NOMINAL_CAPACITY_PER_BUILDING : Z := 4.
Definition FALLBACK_TOWN_BUILDINGS : Z := 50.
Definition FALLBACK_TOWN_SIZE : Z := FALLBACK_TOWN_BUILDINGS * NOMINAL_CAPACITY_PER_BUILDING.
Definition GRAVITY_DIVISOR : Z := 25.
Definition MIN_DEMAND : Z := 50.
Definition MAX_DEMAND : Z := 100000.
Definition MAX_TOWN_SIZE : Z := 100000.
Definition GROWTH_PASSENGERS_PER_BUILDING : Z := 400.
Definition MAX_MARKET_DEMAND : Z := 1000000000.
Definition DEFAULT_CORRIDOR_METERS : Z := 1000.

Definition bounded (value : option Z) (fallback low high : Z) : Z :=
  lua.clamp (default fallback value) low high.

Definition market_size_from_buildings (buildings : option Z) : Z :=
  let count := default FALLBACK_TOWN_BUILDINGS
                 (buildings ≫= λ count, if 0 <? count then Some count else None) in
  bounded (Some (saturating_mul_i64 count NOMINAL_CAPACITY_PER_BUILDING))
    FALLBACK_TOWN_SIZE 1 MAX_TOWN_SIZE.

Definition gravity_demand (size_a size_b distance_meters : option Z) : Z :=
  let first := bounded size_a FALLBACK_TOWN_SIZE 1 MAX_TOWN_SIZE in
  let second := bounded size_b FALLBACK_TOWN_SIZE 1 MAX_TOWN_SIZE in
  let km :=
    Z.max (Z.quot (Z.max (default DEFAULT_CORRIDOR_METERS distance_meters) 0) 1000) 1 in
  lua.clamp (Z.quot (first * second) (saturating_mul_i64 GRAVITY_DIVISOR km))
    MIN_DEMAND MAX_DEMAND.

Record Town := MkTown {
  size : Z;
  growth_resid : Z;
  total_growth : Z;
}.

Definition observe_town (existing : option Town) (observed_size : option Z) : Town :=
  let size0 := bounded observed_size FALLBACK_TOWN_SIZE 1 MAX_TOWN_SIZE in
  match existing with
  | None => MkTown size0 0 0
  | Some town =>
      MkTown (Z.max (bounded (Some (size town)) size0 1 MAX_TOWN_SIZE) size0)
        (lua.clamp (growth_resid town) 0 (GROWTH_PASSENGERS_PER_BUILDING - 1))
        (lua.clamp (total_growth town) 0 MAX_TOWN_SIZE)
  end.

Record CarriedMarket := MkCarriedMarket {
  town_a : string;
  town_b : string;
  delivered : list Z;
}.

(** [for delivered in market.delivered { total = lua::add(total, max(0))? }] *)
Fixpoint delivered_total (total : Z) (l : list Z) : option Z :=
  match l with
  | [] => Some total
  | d :: l' => total' ← lua.add total (Z.max d 0); delivered_total total' l'
  end.

Definition carry_market (carried : gmap string Z) (market : CarriedMarket)
    : option (gmap string Z) :=
  total ← delivered_total 0 (delivered market);
  half ← lua.floor_div total 2;
  a ← lua.add (default 0 (carried !! town_a market)) half;
  let carried := <[town_a market := a]> carried in
  s ← lua.add (default 0 (carried !! town_b market)) total;
  b ← lua.sub s half;
  Some (<[town_b market := b]> carried).

Fixpoint carry_markets (carried : gmap string Z) (markets : list CarriedMarket)
    : option (gmap string Z) :=
  match markets with
  | [] => Some carried
  | market :: markets' => carried' ← carry_market carried market; carry_markets carried' markets'
  end.

Definition carried_by_town (markets : list CarriedMarket) : option (gmap string Z) :=
  carry_markets ∅ markets.

Record TownGrowth := MkTownGrowth {
  carried : Z;
  previous_size : Z;
  grown_size : Z;
  gained : Z;
  grown_resid : Z;
}.

Definition grow_town (town : Town) (carried : Z) : option (Town * TownGrowth) :=
  c ← lua.mul (Z.max carried 0) NOMINAL_CAPACITY_PER_BUILDING;
  numerator ← lua.add (Z.max (growth_resid town) 0) c;
  let gain := Z.quot numerator GROWTH_PASSENGERS_PER_BUILDING in
  let resid := Z.rem numerator GROWTH_PASSENGERS_PER_BUILDING in
  s ← lua.add (size town) gain;
  let size' := Z.min s MAX_TOWN_SIZE in
  t ← lua.add (Z.max (total_growth town) 0) size';
  t' ← lua.sub t (size town);
  let total' := Z.min t' MAX_TOWN_SIZE in
  g ← lua.sub size' (size town);
  Some (MkTown size' resid total', MkTownGrowth carried (size town) size' g resid).

Record DemandRefresh := MkDemandRefresh {
  previous_demand : Z;
  direct_demand : Z;
  demand : Z;
}.

Definition refresh_market_demand (demand : Z) (network_demand direct : option Z)
    (size_a size_b : Z) (corridor_meters : option Z) : DemandRefresh :=
  let previous_demand := bounded (Some demand) MIN_DEMAND 0 MAX_MARKET_DEMAND in
  let computed := gravity_demand (Some size_a) (Some size_b) corridor_meters in
  let prior_network := bounded network_demand 0 0 MAX_MARKET_DEMAND in
  let prior_direct :=
    bounded direct (Z.max (previous_demand - prior_network) 0) 0 MAX_MARKET_DEMAND in
  let direct_demand := Z.max prior_direct computed in
  MkDemandRefresh previous_demand direct_demand
    (Z.min (direct_demand + prior_network) MAX_MARKET_DEMAND).

(** ** Well-formed towns *)

(** What [observe_town] establishes and growth keeps. *)
Definition town_ok (t : Town) : Prop :=
  1 ≤ size t ≤ MAX_TOWN_SIZE ∧
  0 ≤ growth_resid t < GROWTH_PASSENGERS_PER_BUILDING ∧
  0 ≤ total_growth t ≤ MAX_TOWN_SIZE.

Ltac town_lia :=
  unfold MAX_TOWN_SIZE, GROWTH_PASSENGERS_PER_BUILDING, NOMINAL_CAPACITY_PER_BUILDING,
    FALLBACK_TOWN_SIZE, FALLBACK_TOWN_BUILDINGS, MIN_DEMAND, MAX_DEMAND,
    MAX_MARKET_DEMAND, ACCUMULATOR_LIMIT in *; lia.

Lemma bounded_in v f low high : low ≤ high → low ≤ bounded v f low high ≤ high.
Proof. intros. unfold bounded. rewrite lua_clamp_eq by done. unfold clamp. lia. Qed.

Lemma observe_town_ok existing observed : town_ok (observe_town existing observed).
Proof.
  unfold observe_town, town_ok.
  pose proof (bounded_in observed FALLBACK_TOWN_SIZE 1 MAX_TOWN_SIZE ltac:(done)).
  destruct existing as [t |]; simpl; [| town_lia].
  pose proof (bounded_in (Some (size t))
    (bounded observed FALLBACK_TOWN_SIZE 1 MAX_TOWN_SIZE) 1 MAX_TOWN_SIZE ltac:(done)).
  rewrite !lua_clamp_eq by done. unfold clamp. town_lia.
Qed.

Lemma gravity_demand_range a b d :
  MIN_DEMAND ≤ gravity_demand a b d ≤ MAX_DEMAND.
Proof.
  unfold gravity_demand. rewrite lua_clamp_eq by done. unfold clamp. town_lia.
Qed.

(** A town's life.  Observations and growth keep every town's record within
    its ranges, neither ever shrinks a town, and growth loses no passenger:
    below the size cap, four points per passenger plus the points carried are
    exactly the 400-point buildings gained plus the points carried on. *)
Theorem town_growth_exact (existing : option Town) (observed : option Z) (carried0 : Z) :
  lua.is_exact (4 * Z.max carried0 0 + 1000000) →
  ∃ town' report,
    let town := observe_town existing observed in
    grow_town town carried0 = Some (town', report) ∧
    town_ok town ∧ town_ok town' ∧
    (∀ t, existing = Some t → size t ≤ MAX_TOWN_SIZE → size t ≤ size town) ∧
    size town ≤ size town' ∧ gained report = size town' - size town ∧
    (size town' < MAX_TOWN_SIZE →
      gained report * 400 + growth_resid town' = growth_resid town + 4 * Z.max carried0 0).
Proof.
  intros He. pose proof (observe_town_ok existing observed) as Hok.
  assert (Hgrow : ∀ t, existing = Some t → size t ≤ MAX_TOWN_SIZE →
    size t ≤ size (observe_town existing observed)).
  { intros t -> Ht. unfold observe_town, bounded. simpl.
    rewrite !lua_clamp_eq by done. unfold clamp. town_lia. }
  set (town := observe_town existing observed) in *. clearbody town.
  destruct Hok as (Hs & Hr & Ht).
  unfold grow_town, NOMINAL_CAPACITY_PER_BUILDING.
  rewrite (proj2 (mul_Some _ 4 _)) by (split; [done |]; repeat split; exact_lia). simpl.
  rewrite (Z.max_l (growth_resid town) 0) by lia.
  rewrite (Z.max_l (total_growth town) 0) by lia.
  rewrite (proj2 (add_Some (growth_resid town) _ _))
    by (split; [done |]; repeat split; town_lia || (unfold GROWTH_PASSENGERS_PER_BUILDING in *; exact_lia)).
  simpl.
  set (n := growth_resid town + Z.max carried0 0 * 4).
  destruct (quot_rem_nonneg n GROWTH_PASSENGERS_PER_BUILDING) as [-> ->]; [lia | done |].
  destruct (div_mod_pos n GROWTH_PASSENGERS_PER_BUILDING ltac:(done)) as [Hn Hm].
  assert (0 ≤ n / GROWTH_PASSENGERS_PER_BUILDING ≤ n)
    by (split; [apply Z.div_pos; town_lia | apply div_le_self; town_lia]).
  set (g := n / GROWTH_PASSENGERS_PER_BUILDING) in *.
  unfold GROWTH_PASSENGERS_PER_BUILDING, MAX_TOWN_SIZE in *.
  rewrite (proj2 (add_Some (size town) g _)) by (split; [done |]; repeat split; exact_lia). simpl.
  rewrite (proj2 (add_Some (total_growth town) _ _))
    by (split; [done |]; repeat split; exact_lia). simpl.
  rewrite (proj2 (sub_Some (total_growth town + _) (size town) _))
    by (split; [done |]; repeat split; exact_lia). simpl.
  rewrite (proj2 (sub_Some _ (size town) _)) by (split; [done |]; repeat split; exact_lia). simpl.
  eexists _, _. split; [done |]. unfold town_ok, MAX_TOWN_SIZE, GROWTH_PASSENGERS_PER_BUILDING.
  simpl. repeat split; try lia. apply Hgrow.
Qed.

Lemma town_growth_exact_witness :
  ∃ town' report,
    let town := observe_town (Some (MkTown 500 399 7)) (Some 200) in
    grow_town town 125 = Some (town', report) ∧
    town_ok town ∧ town_ok town' ∧
    (∀ t, Some (MkTown 500 399 7) = Some t → size t ≤ MAX_TOWN_SIZE → size t ≤ size town) ∧
    size town ≤ size town' ∧ gained report = size town' - size town ∧
    (size town' < MAX_TOWN_SIZE →
      gained report * 400 + growth_resid town' = growth_resid town + 4 * Z.max 125 0).
Proof.
  apply (town_growth_exact (Some (MkTown 500 399 7)) (Some 200) 125).
  vm_compute. split; discriminate.
Defined.

(** ** Carried passengers *)

Definition delivered_sum (l : list Z) : Z := sum_Z ((λ d, Z.max d 0) <$> l).

Lemma delivered_total_eq acc l t :
  delivered_total acc l = Some t → t = acc + delivered_sum l.
Proof.
  revert acc. induction l as [| d l IH]; intros acc H; simpl in H.
  { inv_option. unfold delivered_sum. simpl. rewrite sum_Z_nil. lia. }
  lua_inv. apply IH in H. unfold delivered_sum in *. rewrite fmap_cons, sum_Z_cons. lia.
Qed.

Lemma carry_markets_total c markets c' :
  carry_markets c markets = Some c' →
  map_sum c' = map_sum c + sum_Z ((λ m, delivered_sum (delivered m)) <$> markets).
Proof.
  revert c. induction markets as [| m ms IH]; intros c H; simpl in H.
  { inv_option. simpl. rewrite sum_Z_nil. lia. }
  inv_option. apply IH in H. rewrite H; clear H; cbn; rewrite sum_Z_cons.
  match goal with H : carry_market _ _ = Some _ |- _ => unfold carry_market in H; rename H into Hm end.
  lua_inv. rewrite !map_sum_insert.
  match goal with H : delivered_total _ _ = Some _ |- _ => apply delivered_total_eq in H end.
  lia.
Qed.

(** No passenger is lost or counted twice between towns: the passengers
    [carried_by_town] credits to all towns together are exactly the passengers
    every market delivered. *)
Theorem carried_by_town_conserves (markets : list CarriedMarket) (c : gmap string Z) :
  carried_by_town markets = Some c →
  map_sum c = sum_Z ((λ m, delivered_sum (delivered m)) <$> markets).
Proof. intros H. apply carry_markets_total in H. rewrite H. reflexivity. Qed.

Lemma carried_by_town_conserves_witness :
  ∃ c, carried_by_town [MkCarriedMarket "a" "b" [5; -2]; MkCarriedMarket "b" "b" [3; 4]] = Some c
    ∧ map_sum c = 12.
Proof.
  eexists. split; [vm_compute; reflexivity |].
  apply (carried_by_town_conserves
    [MkCarriedMarket "a" "b" [5; -2]; MkCarriedMarket "b" "b" [3; 4]]).
  vm_compute. reflexivity.
Defined.
