(* ===== verification/Flow.v ===== *)
(** Generalized cost, pinned logit weights and share movement:
    [tpf3mp-canon/src/economy/flow.rs]. *)
From S2P Require Import Prelude Canon Economy.
Local Open Scope Z_scope.

Definition EXP_TABLE : list Z := [
    65536; 59299; 53656; 48550; 43930; 39750; 35967; 32544; 29447; 26645; 24109; 21815; 19739;
    17861; 16161; 14623; 13231; 11972; 10833; 9802; 8869; 8025; 7262; 6571; 5945; 5380; 4868; 4404;
    3985; 3606; 3263; 2952; 2671; 2417; 2187; 1979; 1791; 1620; 1466; 1327; 1200; 1086; 983; 889;
    805; 728; 659; 596; 539; 488; 442; 400; 362; 327; 296; 268; 242; 219; 198; 180; 162; 147; 133;
    120; 109; 99; 89; 81; 73; 66; 60; 54; 49; 44; 40; 36; 33; 30; 27; 24; 22].

Definition CUTOFF_CENTINATS : Z := 800.
Definition DEFAULT_WAIT_WEIGHT_PM : Z := 2000.
Definition FARE_SHOCK_ALPHA_PM : Z := 1000.
Definition LEGACY_PERIOD_SECONDS : Z := 3600.
Definition DEFAULT_PERIOD_SECONDS : Z := 300.
Definition MIN_PERIOD_SECONDS : Z := 60.
Definition MAX_PERIOD_SECONDS : Z := 86400.

Record CostParams := MkCostParams {
  max_wait_seconds : Z;
  params_transfer_seconds : Z;
  crowd_threshold_ppm : Z;
}.

Record MarketCost := MkMarketCost {
  vot_cents_per_hour : Z;
  wait_weight_pm : option Z;
  transfer_seconds : option Z;
}.

Record ServiceCost := MkServiceCost {
  headway_seconds : Z;
  journey_seconds : Z;
  transfers : Z;
  service_lag_load_ppm : Z;
  quality : Z;
  service_fare_cents : Z;
}.

Record FeederAccessFactors := MkFeederAccessFactors {
  base_comfort_cents : Z;
  feeder_access_cents : Z;
}.

Record GeneralizedCost := MkGeneralizedCost {
  fare_cents : Z;
  time_cost_cents : Z;
  wait_cost_cents : Z;
  transfer_cost_cents : Z;
  crowd_cost_cents : Z;
  comfort_cents : Z;
  gc_cents : Z;
  feeder_access : option FeederAccessFactors;
}.

Definition generalized_cost (params : CostParams) (market : MarketCost)
    (service : ServiceCost) (feeder : option Z) : option GeneralizedCost :=
  let vot := vot_cents_per_hour market in
  let weight := default DEFAULT_WAIT_WEIGHT_PM (wait_weight_pm market) in
  let transfer := default (params_transfer_seconds params) (transfer_seconds market) in
  half ← lua.floor_div (headway_seconds service) 2;
  let wait_seconds := Z.min half (max_wait_seconds params) in
  t0 ← lua.mul vot (journey_seconds service);
  time_cost ← lua.floor_div t0 3600;
  w0 ← lua.mul vot wait_seconds;
  w1 ← lua.mul w0 weight;
  wait_cost ← lua.floor_div w1 3600000;
  x0 ← lua.mul vot (transfers service);
  x1 ← lua.mul x0 transfer;
  transfer_cost ← lua.floor_div x1 3600;
  crowd_span ← lua.sub SHARE_SCALE (crowd_threshold_ppm params);
  over ← lua.sub (service_lag_load_ppm service) (crowd_threshold_ppm params);
  let crowd_excess := lua.clamp over 0 crowd_span in
  c0 ← lua.mul time_cost crowd_excess;
  crowd_cost ← lua.floor_div c0 crowd_span;
  let base_comfort := quality service in
  let access := Z.max (default 0 feeder) 0 in
  comfort ← lua.add base_comfort access;
  s0 ← lua.add (service_fare_cents service) time_cost;
  s1 ← lua.add s0 wait_cost;
  s2 ← lua.add s1 transfer_cost;
  total ← lua.add s2 crowd_cost;
  g ← lua.sub total comfort;
  let gc := Z.max g 1 in
  Some (MkGeneralizedCost (service_fare_cents service) time_cost wait_cost transfer_cost
          crowd_cost comfort gc
          ((λ _, MkFeederAccessFactors base_comfort access) <$> feeder)).

Definition logit_cutoff_weight (version : Z) : Z := if 3 <=? version then 0 else 1.

(** The table lookup of [logit_weight] for [0 <= centinats < 800]. *)
Definition table_weight (centinats cutoff_weight : Z) : option Z :=
  let index := Z.to_nat (Z.quot centinats 10) in
  let fraction := Z.rem centinats 10 in
  left ← EXP_TABLE !! index;
  right ← EXP_TABLE !! S index;
  step ← lua.floor_div ((right - left) * fraction) 10;
  Some (Z.max cutoff_weight (left + step)).

Definition logit_weight (gc_cents gc_min_cents theta_cents cutoff_weight : Z) : option Z :=
  d ← lua.sub gc_cents gc_min_cents;
  m ← lua.mul d 100;
  centinats ← lua.floor_div m theta_cents;
  if CUTOFF_CENTINATS <=? centinats then Some cutoff_weight
  else table_weight (Z.max centinats 0) cutoff_weight.

Definition period_seconds (period : option Z) (version : Z) : Z :=
  if 6 <=? version
  then clamp (default DEFAULT_PERIOD_SECONDS period) MIN_PERIOD_SECONDS MAX_PERIOD_SECONDS
  else LEGACY_PERIOD_SECONDS.

Definition scaled_rate (hourly residual period : Z) : option (Z * Z) :=
  m ← lua.mul (Z.max hourly 0) period;
  numerator ← lua.add m (Z.max residual 0);
  q ← lua.floor_div numerator 3600;
  r ← lua.modulo numerator 3600;
  Some (q, r).

Definition glide (actual equilibrium alpha_pm residual : Z) : option (Z * Z) :=
  gap ← lua.sub equilibrium actual;
  m ← lua.mul gap alpha_pm;
  delta ← lua.add m residual;
  step ← lua.floor_div delta 1000;
  moved ← lua.add actual step;
  back ← lua.mul step 1000;
  residual' ← lua.sub delta back;
  Some (moved, residual').

Record ShareParams := MkShareParams {
  alpha_up_pm : Z;
  alpha_down_pm : Z;
}.

Record ShareStock := MkShareStock {
  share_ppm : option Z;
  share_resid : Z;
  last_fare_cents : option Z;
}.

Definition move_share (stock : ShareStock) (equilibrium_ppm fare : Z)
    (params : ShareParams) (version : Z) : option ShareStock :=
  sr ← match share_ppm stock with
       | None => Some (equilibrium_ppm, 0)
       | Some share =>
           let shock :=
             (3 <=? version) &&
             match last_fare_cents stock with
             | None => true
             | Some last_fare => last_fare <? fare
             end in
           let alpha_pm :=
             if share <=? equilibrium_ppm then alpha_up_pm params
             else if shock then FARE_SHOCK_ALPHA_PM
             else alpha_down_pm params in
           mr ← glide share equilibrium_ppm alpha_pm (share_resid stock);
           Some (lua.clamp mr.1 0 SHARE_SCALE, mr.2)
       end;
  Some (MkShareStock (Some sr.1) sr.2
          (if 3 <=? version then Some fare else last_fare_cents stock)).

Fixpoint share_total (total : Z) (shares : list Z) : option Z :=
  match shares with
  | [] => Some total
  | share :: shares' => total' ← lua.add total share; share_total total' shares'
  end.

Definition outside_share_ppm (service_shares_ppm : list Z) : option Z :=
  total ← share_total 0 service_shares_ppm;
  rest ← lua.sub SHARE_SCALE total;
  Some (Z.max rest 0).

Definition lag_load_ppm (requested available_capacity : Z) : option Z :=
  if 0 <? available_capacity
  then m ← lua.mul requested SHARE_SCALE; lua.floor_div m available_capacity
  else Some SHARE_SCALE.

Definition share_basis_points (allocated demand : Z) : option Z :=
  if 0 <? demand
  then m ← lua.mul allocated 10000; lua.floor_div m demand
  else Some 0.

(** ** The pinned logit *)

Definition centinats_domain : list Z := Z.of_nat <$> seq 0 800.

(** Checked once for all 800 cells: every cell gives a weight between the table's
    ends, and no cell's weight exceeds the one before. *)
Definition table_cell_ok (c : Z) : bool :=
  match table_weight c 0, table_weight (c + 1) 0 with
  | Some w, Some w' => (22 <=? w) && (w <=? 65536) && (w' <=? w)
  | Some w, None => (22 <=? w) && (w <=? 65536) && (c =? 799)
  | None, _ => false
  end.

Lemma table_cells_ok : forallb table_cell_ok centinats_domain = true.
Proof. vm_compute. reflexivity. Qed.

Lemma table_cell c : 0 ≤ c < 800 → table_cell_ok c = true.
Proof.
  intros Hc. pose proof table_cells_ok as H. rewrite forallb_forall in H. apply H.
  apply list_elem_of_In. unfold centinats_domain. apply list_elem_of_fmap.
  exists (Z.to_nat c). split; [lia |]. apply elem_of_seq. lia.
Qed.

Lemma table_weight_defined c :
  0 ≤ c < 800 → ∃ w, table_weight c 0 = Some w ∧ 22 ≤ w ≤ 65536.
Proof.
  intros Hc. pose proof (table_cell c Hc) as H. unfold table_cell_ok in H.
  destruct (table_weight c 0) as [w |]; [| done]. exists w. split; [done |].
  destruct (table_weight (c + 1) 0); lia.
Qed.

Lemma table_weight_step c w w' :
  0 ≤ c < 799 → table_weight c 0 = Some w → table_weight (c + 1) 0 = Some w' → w' ≤ w.
Proof.
  intros Hc Hw Hw'. pose proof (table_cell c ltac:(lia)) as H. unfold table_cell_ok in H.
  rewrite Hw, Hw' in H. lia.
Qed.

Lemma table_weight_antitone n c w w' :
  0 ≤ c → c + Z.of_nat n < 800 →
  table_weight c 0 = Some w → table_weight (c + Z.of_nat n) 0 = Some w' → w' ≤ w.
Proof.
  intros Hc Hd Hw. revert w'. induction n as [| n IH]; intros w' Hw'.
  { rewrite Z.add_0_r in Hw'. simplify_eq. lia. }
  destruct (table_weight_defined (c + Z.of_nat n)) as (u & Hu & _); [lia |].
  specialize (IH ltac:(lia) u Hu).
  enough (w' ≤ u) by lia. apply (table_weight_step (c + Z.of_nat n)); [lia | done |].
  rewrite <- Hw'. f_equal. lia.
Qed.

(** From model version 3 the cutoff weight is zero. *)
Lemma logit_weight_cases gc gc_min theta w :
  0 < theta → gc_min ≤ gc →
  logit_weight gc gc_min theta 0 = Some w →
  let c := (gc - gc_min) * 100 / theta in
  0 ≤ c ∧ (if 800 <=? c then w = 0 else table_weight c 0 = Some w).
Proof.
  intros Ht Hge H. unfold logit_weight, CUTOFF_CENTINATS in H. lua_inv.
  assert (0 ≤ (gc - gc_min) * 100 / theta) by (apply Z.div_pos; lia).
  split; [done |]. destruct (800 <=? _); [by simplify_eq |].
  by rewrite Z.max_l in H by lia.
Qed.

(** The pinned logit behaves as an exponential should, for every theta and
    every pair of costs within Lua's exact range: the weight exists, lies in
    [0, 65536], is the full weight for the cheapest option, is zero from eight
    theta on, and never rises with the cost. *)
Theorem logit_weight_antitone (gc1 gc2 gc_min theta : Z) :
  0 < theta → gc_min ≤ gc1 ≤ gc2 →
  lua.is_exact theta → lua.is_exact gc_min → lua.is_exact gc2 →
  lua.is_exact ((gc2 - gc_min) * 100) →
  ∃ w1 w2,
    logit_weight gc1 gc_min theta 0 = Some w1 ∧
    logit_weight gc2 gc_min theta 0 = Some w2 ∧
    0 ≤ w2 ≤ w1 ∧ w1 ≤ 65536 ∧
    (gc1 = gc_min → w1 = 65536) ∧
    (8 * theta ≤ gc2 - gc_min → w2 = 0).
Proof.
  intros Ht Hle Het Hem He2 Hed.
  assert (Hdef : ∀ gc, gc_min ≤ gc ≤ gc2 → is_Some (logit_weight gc gc_min theta 0)).
  { intros gc Hgc. unfold logit_weight, CUTOFF_CENTINATS.
    rewrite (proj2 (sub_Some gc gc_min _)) by (split; [done |]; repeat split; exact_lia). simpl.
    rewrite (proj2 (mul_Some _ 100 _)) by (split; [done |]; repeat split; exact_lia). simpl.
    rewrite (proj2 (lua_floor_div_Some _ theta _)) by (split; [done |]; repeat split; exact_lia).
    simpl. assert (0 ≤ (gc - gc_min) * 100 / theta) by (apply Z.div_pos; lia).
    destruct (Z.leb_spec 800 ((gc - gc_min) * 100 / theta)); [by eexists |].
    rewrite Z.max_l by lia.
    destruct (table_weight_defined ((gc - gc_min) * 100 / theta)) as (w & -> & _); [lia |]. done. }
  destruct (Hdef gc1) as [w1 Hw1]; [lia |]. destruct (Hdef gc2) as [w2 Hw2]; [lia |].
  exists w1, w2. split; [done |]. split; [done |].
  apply logit_weight_cases in Hw1 as [Hc1 Hw1]; [| lia..].
  apply logit_weight_cases in Hw2 as [Hc2 Hw2]; [| lia..].
  assert ((gc1 - gc_min) * 100 / theta ≤ (gc2 - gc_min) * 100 / theta) as Hcc
    by (apply Z.div_le_mono; lia).
  assert (Hzero : gc1 = gc_min → (gc1 - gc_min) * 100 / theta = 0).
  { intros ->. by rewrite Z.sub_diag, Z.mul_0_l, Z.div_0_l by lia. }
  assert (Hcut : 8 * theta ≤ gc2 - gc_min → 800 ≤ (gc2 - gc_min) * 100 / theta).
  { intros. apply Z.div_le_lower_bound; lia. }
  set (c1 := (gc1 - gc_min) * 100 / theta) in *. set (c2 := (gc2 - gc_min) * 100 / theta) in *.
  destruct (Z.leb_spec 800 c1), (Z.leb_spec 800 c2); [lia | lia | |].
  - destruct (table_weight_defined c1) as (u & Hu & ?); [lia |].
    assert (u = w1) as -> by congruence. subst w2.
    split; [lia |]. split; [lia |]. split; [| done]. intros E.
    rewrite (Hzero E) in Hu. vm_compute in Hu. by simplify_eq.
  - destruct (table_weight_defined c1) as (u & Hu & ?); [lia |].
    destruct (table_weight_defined c2) as (u2 & Hu2 & ?); [lia |].
    assert (u = w1) as -> by congruence. assert (u2 = w2) as -> by congruence.
    assert (w2 ≤ w1).
    { apply (table_weight_antitone (Z.to_nat (c2 - c1)) c1); [lia | lia | done |].
      rewrite <- Hu2. f_equal. lia. }
    split; [lia |]. split; [lia |]. split; [| lia]. intros E.
    rewrite (Hzero E) in Hu. vm_compute in Hu. by simplify_eq.
Qed.

Lemma logit_weight_antitone_witness :
  ∃ w1 w2,
    logit_weight 1003 1000 100 0 = Some w1 ∧
    logit_weight 1031 1000 100 0 = Some w2 ∧
    0 ≤ w2 ≤ w1 ∧ w1 ≤ 65536 ∧
    (1003 = 1000 → w1 = 65536) ∧ (8 * 100 ≤ 1031 - 1000 → w2 = 0).
Proof.
  apply (logit_weight_antitone 1003 1031 1000 100);
    first [lia | (vm_compute; split; discriminate)].
Defined.

(** ** Share movement *)

Lemma glide_exact actual eq alpha resid moved resid' :
  glide actual eq alpha resid = Some (moved, resid') →
  moved * 1000 + resid' = actual * 1000 + (eq - actual) * alpha + resid ∧
  0 ≤ resid' < 1000.
Proof.
  intros H. unfold glide in H. lua_inv.
  destruct (div_mod_pos ((eq - actual) * alpha + resid) 1000 ltac:(lia)) as [Hd Hm]. lia.
Qed.

(** A share glides toward its equilibrium without overshooting it and
    without leaving its range.  Whatever [move_share] returns from a share and
    an equilibrium in [0, SHARE_SCALE], a residual in [0, 1000) and movement
    rates of at most 1000 per mille, the new share lies between the old share
    and the equilibrium, its residual is again in [0, 1000), and a fare rise
    (from version 3) adopts a lower equilibrium at once. *)
Theorem move_share_no_overshoot
    (stock stock' : ShareStock) (share eq fare version : Z) (params : ShareParams) :
  share_ppm stock = Some share →
  0 ≤ share ≤ SHARE_SCALE → 0 ≤ eq ≤ SHARE_SCALE → 0 ≤ share_resid stock < 1000 →
  0 ≤ alpha_up_pm params ≤ 1000 → 0 ≤ alpha_down_pm params ≤ 1000 →
  move_share stock eq fare params version = Some stock' →
  ∃ share', share_ppm stock' = Some share' ∧
    Z.min share eq ≤ share' ≤ Z.max share eq ∧
    0 ≤ share_resid stock' < 1000 ∧
    (3 ≤ version → eq < share →
      (∀ last, last_fare_cents stock = Some last → last < fare) → share' = eq).
Proof.
  intros Hs Hshare Heq Hres Hup Hdown H. unfold move_share in H. rewrite Hs in H.
  set (shock := (3 <=? version) && _) in H.
  set (alpha := if share <=? eq then _ else _) in H.
  assert (0 ≤ alpha ≤ 1000) as Halpha.
  { unfold alpha, FARE_SHOCK_ALPHA_PM. repeat case_match; lia. }
  inv_option. match goal with x : Z * Z |- _ => destruct x as [moved r] end. simplify_eq/=.
  match goal with H : glide _ _ _ _ = _ |- _ => apply glide_exact in H as [He Hr] end.
  set (g := eq - share) in *.
  assert (Hup' : share ≤ eq → share ≤ moved ≤ eq) by (intros; nia).
  assert (Hdn' : eq ≤ share → eq ≤ moved ≤ share) by (intros; nia).
  eexists. split; [done |]. rewrite lua_clamp_eq by done. unfold clamp.
  repeat split; try lia.
  intros Hv Hlt Hlast.
  assert (alpha = 1000) as Ea.
  { unfold alpha, shock. rewrite (proj2 (Z.leb_gt share eq)) by lia.
    rewrite (proj2 (Z.leb_le 3 version)) by lia. simpl.
    destruct (last_fare_cents stock) as [l |]; [| done].
    by rewrite (proj2 (Z.ltb_lt l fare)) by (by apply Hlast). }
  rewrite Ea in He. lia.
Qed.

Lemma move_share_no_overshoot_witness :
  ∃ share', Some 100000 = Some share' ∧
    Z.min 400000 100000 ≤ share' ≤ Z.max 400000 100000 ∧ 0 ≤ 0 < 1000 ∧
    (3 ≤ 10 → 100000 < 400000 →
      (∀ last, Some 1000 = Some last → last < 2000) → share' = 100000).
Proof.
  apply (move_share_no_overshoot (MkShareStock (Some 400000) 0 (Some 1000))
    (MkShareStock (Some 100000) 0 (Some 2000)) 400000 100000 2000 10 (MkShareParams 350 500));
    first [reflexivity | (simpl; unfold SHARE_SCALE; lia) | vm_compute; reflexivity].
Defined.
