(* ===== verification/Allocation.v ===== *)
(** Largest-remainder choice and capacity admission:
    [tpf3mp-canon/src/economy/allocation.rs]. *)
From S2P Require Import Prelude Canon Economy.
Local Open Scope Z_scope.

Definition OUTSIDE_CID : string := "~outside".

(** ** [proportional] *)
Section proportional.

(** The ids, with their [Ord] as a comparison. *)
Context {K : Type} `{Countable K} (key_leb : K → K → bool).

Fixpoint sum_weights (weight_sum : Z) (items : list (K * Z)) : option Z :=
  match items with
  | [] => Some weight_sum
  | (_, weight) :: items' => s ← lua.add weight_sum weight; sum_weights s items'
  end.

(** The state of the loop over the items: allocations, units used, and the
    remainders to rank (in item order). *)
Record Split := MkSplit {
  split_allocations : gmap K Z;
  split_used : Z;
  split_ranked : list (K * Z);
}.

Fixpoint split_items (total weight_sum : Z) (items : list (K * Z)) (st : Split)
    : option Split :=
  match items with
  | [] => Some st
  | (cid, weight) :: items' =>
      numerator ← lua.mul total weight;
      base ← lua.floor_div numerator weight_sum;
      used ← lua.add (split_used st) base;
      remainder ← lua.modulo numerator weight_sum;
      split_items total weight_sum items'
        (MkSplit (<[cid := base]> (split_allocations st)) used
           (split_ranked st ++ [(cid, remainder)]))
  end.

(** [b.1.cmp(&a.1).then_with(|| a.0.cmp(b.0))]: larger remainders first, ties
    to the smaller id. *)
Definition rank_leb (a b : K * Z) : bool :=
  (b.2 <? a.2) || ((b.2 =? a.2) && key_leb a.1 b.1).

(** [for index in 0..n]: one unit each to the ranked ids in turn. *)
Fixpoint give_units (ranked : list (K * Z)) (count : Z) (n : nat) (index : Z)
    (allocations : gmap K Z) : option (gmap K Z) :=
  match n with
  | O => Some allocations
  | S n' =>
      entry ← ranked !! Z.to_nat (Z.rem index count);
      amount ← allocations !! entry.1;
      amount' ← lua.add amount 1;
      give_units ranked count n' (index + 1) (<[entry.1 := amount']> allocations)
  end.

Definition proportional (total : Z) (items : list (K * Z)) : option (gmap K Z) :=
  weight_sum ← sum_weights 0 items;
  if (total <=? 0) || (weight_sum <=? 0) then Some ∅
  else
    st ← split_items total weight_sum items (MkSplit ∅ 0 []);
    let ranked := sort_by rank_leb (split_ranked st) in
    count ← to_i64 (Z.of_nat (length ranked));
    left ← lua.sub total (split_used st);
    give_units ranked count (Z.to_nat left) 0 (split_allocations st).

(** *** What the loops compute *)

Lemma sum_weights_eq s items w :
  sum_weights s items = Some w → w = s + sum_Z items.*2.
Proof.
  revert s. induction items as [| [k z] items IH]; intros s Hs; simpl in Hs.
  { inv_option. csimpl. rewrite sum_Z_nil. lia. }
  lua_inv. apply IH in Hs. sum_lia.
Qed.

Definition base_of (total W : Z) (it : K * Z) : K * Z := (it.1, total * it.2 / W).
Definition rem_of (total W : Z) (it : K * Z) : K * Z := (it.1, (total * it.2) mod W).

Lemma split_items_eq total W items st st' :
  split_items total W items st = Some st' →
  split_ranked st' = split_ranked st ++ (rem_of total W <$> items) ∧
  split_used st' = split_used st + sum_Z (base_of total W <$> items).*2 ∧
  split_allocations st' =
    foldl (λ m kv, <[kv.1 := kv.2]> m) (split_allocations st) (base_of total W <$> items).
Proof.
  revert st. induction items as [| [k w] items IH]; intros st Hs; simpl in Hs.
  { inv_option. csimpl. rewrite app_nil_r, sum_Z_nil. repeat split; lia. }
  lua_inv. apply IH in Hs as (-> & -> & ->). simpl. csimpl.
  rewrite sum_Z_cons, <- app_assoc. repeat split; simpl; lia.
Qed.

Lemma foldl_insert_list_to_map (l : list (K * Z)) :
  NoDup l.*1 → foldl (λ m kv, <[kv.1 := kv.2]> m) (∅ : gmap K Z) l = list_to_map l.
Proof.
  intros Hnd.
  assert (foldl (λ m kv, <[kv.1 := kv.2]> m) (∅ : gmap K Z) l = list_to_map (reverse l)) as ->.
  { rewrite <- (reverse_involutive l) at 1. generalize (reverse l) as k. clear.
    induction k as [| kv k IH]; [done |].
    rewrite reverse_cons, foldl_app. simpl. by rewrite IH. }
  apply list_to_map_proper; [| apply reverse_Permutation].
  by rewrite fmap_reverse, reverse_Permutation.
Qed.

Lemma give_units_eq ranked count n index m m' :
  give_units ranked count n index m = Some m' →
  count = Z.of_nat (length ranked) → 0 ≤ index → index + Z.of_nat n ≤ count →
  NoDup ranked.*1 →
  (∀ k, m' !! k =
    (λ v, v + if decide (k ∈ (take n (drop (Z.to_nat index) ranked)).*1) then 1 else 0)
      <$> m !! k) ∧
  map_sum m' = map_sum m + Z.of_nat n.
Proof.
  intros Hg -> Hi Hn Hnd. revert index m Hg Hi Hn.
  induction n as [| n IH]; intros index m Hg Hi Hn; simpl in Hg.
  { inv_option. split; [| lia]. intros k.
    destruct (m' !! k); simpl; [| done].
    f_equal. lia. }
  rewrite Z.rem_small in Hg by lia. lua_inv.
  match goal with H : ranked !! _ = Some ?e |- _ => destruct e as [c r]; rename H into Hc end.
  simpl in *.
  match goal with H : m !! c = Some ?a |- _ => rename H into Ha; rename a into amount end.
  apply IH in Hg as [Hl Hs]; [| lia..].
  rewrite map_sum_insert, Ha in Hs. simpl in Hs.
  assert (drop (Z.to_nat index) ranked = (c, r) :: drop (Z.to_nat (index + 1)) ranked) as Hdrop.
  { rewrite (drop_S ranked (c, r) (Z.to_nat index)) by done. do 2 f_equal. lia. }
  split; [| lia]. intros k. rewrite Hl, Hdrop. csimpl.
  assert (Hcn : c ∉ (take n (drop (Z.to_nat (index + 1)) ranked)).*1).
  { rewrite <- (take_drop (Z.to_nat index) ranked), Hdrop, fmap_app, fmap_cons in Hnd.
    apply NoDup_app in Hnd as (_ & _ & Hnd). apply NoDup_cons in Hnd as [Hnd _].
    simpl in Hnd. contradict Hnd.
    rewrite <- (take_drop n (drop (Z.to_nat (index + 1)) ranked)), fmap_app.
    apply elem_of_app. by left. }
  destruct (decide (k = c)) as [-> | Hne].
  - rewrite lookup_insert_eq, Ha. simpl. rewrite decide_False by done.
    rewrite decide_True by (left). f_equal. lia.
  - rewrite lookup_insert_ne by done. destruct (m !! k); simpl; [| done]. f_equal. f_equal.
    apply decide_ext. rewrite elem_of_cons. naive_solver.
Qed.

(** The leftover units are fewer than the items. *)
Lemma leftover_bound total W (items : list (K * Z)) :
  0 < W →
  sum_Z (rem_of total W <$> items).*2 =
    total * sum_Z items.*2 - W * sum_Z (base_of total W <$> items).*2 ∧
  0 ≤ sum_Z (rem_of total W <$> items).*2 ∧
  (items ≠ [] → sum_Z (rem_of total W <$> items).*2 < W * Z.of_nat (length items)).
Proof.
  intros HW. induction items as [| [k w] items (IH1 & IH2 & IH3)]; csimpl.
  { rewrite !sum_Z_nil. split; [lia |]. by split. }
  rewrite !sum_Z_cons. cbn [rem_of base_of fst snd].
  destruct (div_mod_pos (total * w) W HW) as [Hd Hm].
  set (R := sum_Z (rem_of total W <$> items).*2) in *.
  set (B := sum_Z (base_of total W <$> items).*2) in *.
  repeat split; [nia | lia |]. intros _. destruct items as [| it items].
  - unfold R. csimpl. rewrite sum_Z_nil. lia.
  - specialize (IH3 ltac:(done)). cbn [length] in *. nia.
Qed.

Lemma rank_keys total W (items : list (K * Z)) : (rem_of total W <$> items).*1 = items.*1.
Proof. induction items; csimpl; [done |]. by f_equal. Qed.

Lemma base_keys total W (items : list (K * Z)) : (base_of total W <$> items).*1 = items.*1.
Proof. induction items; csimpl; [done |]. by f_equal. Qed.

(** The outcome of [proportional] on distinct ids: the floors, and one more unit
    for the first [L] ranked ids, where [L] is what the floors leave over. *)
Lemma proportional_outcome total items m :
  NoDup items.*1 → proportional total items = Some m →
  0 < total → 0 < sum_Z items.*2 →
  let W := sum_Z items.*2 in
  let ranked := sort_by rank_leb (rem_of total W <$> items) in
  ∃ L : nat, (L < length items)%nat ∧
    total = sum_Z (base_of total W <$> items).*2 + Z.of_nat L ∧
    map_sum m = total ∧
    (∀ k, m !! k =
      (λ v, v + if decide (k ∈ (take L ranked).*1) then 1 else 0)
        <$> (list_to_map (base_of total W <$> items) : gmap K Z) !! k).
Proof.
  intros Hnd Hp Ht HW W ranked. unfold proportional in Hp. inv_option.
  match goal with H : sum_weights _ _ = Some ?w |- _ =>
    apply sum_weights_eq in H; rewrite Z.add_0_l in H; fold W in H; subst w end.
  rewrite (proj2 (Z.leb_gt total 0)), (proj2 (Z.leb_gt W 0)) in Hp by lia. simpl in Hp.
  inv_option.
  match goal with H : split_items _ _ _ _ = Some ?s |- _ =>
    apply split_items_eq in H as (Hr & Hu & Ha); simpl in Hr, Hu, Ha end.
  rewrite Hr, Hu, Ha in *. clear Hr Hu Ha.
  match goal with H : to_i64 _ = Some _ |- _ => apply to_i64_Some in H as [-> _] end.
  lua_inv. fold ranked in Hp.
  rewrite foldl_insert_list_to_map in Hp by (by rewrite base_keys).
  destruct (leftover_bound total W items ltac:(lia)) as (Hrem & Hr0 & Hrlt).
  fold W in Hrem. set (B := sum_Z (base_of total W <$> items).*2) in *.
  assert (items ≠ []) as Hne by (intros ->; unfold W in HW; csimpl in HW; rewrite sum_Z_nil in HW; lia).
  specialize (Hrlt Hne). rewrite Hrem in *.
  assert (0 ≤ total - B < Z.of_nat (length items)) as HL by nia.
  exists (Z.to_nat (total - B)).
  apply give_units_eq in Hp as [Hl Hs]; [| done | lia | |].
  - split; [lia |]. split; [lia |].
    rewrite map_sum_list_to_map in Hs by (by rewrite base_keys). fold B in Hs.
    split; [lia |]. intros k. rewrite Hl. by rewrite drop_0.
  - unfold ranked. rewrite length_sort_by, length_fmap. lia.
  - unfold ranked. rewrite sort_by_perm, rank_keys. done.
Qed.

(** *** Totality *)

Lemma sum_weights_total s (items : list (K * Z)) :
  0 ≤ s → Forall (Z.le 0) items.*2 → lua.is_exact (s + sum_Z items.*2) →
  sum_weights s items = Some (s + sum_Z items.*2).
Proof.
  revert s. induction items as [| [k w] items IH]; csimpl; intros s Hs Hw He.
  { rewrite sum_Z_nil. f_equal. lia. }
  apply Forall_cons in Hw as [Hw Hws]. pose proof (sum_Z_nonneg _ Hws).
  rewrite sum_Z_cons in *.
  rewrite (proj2 (add_Some s w _)) by (split; [done |]; repeat split; exact_lia). simpl.
  rewrite IH by (done || lia || exact_lia). f_equal. lia.
Qed.

Lemma bases_nonneg total W (items : list (K * Z)) :
  0 < W → 0 ≤ total → Forall (Z.le 0) items.*2 →
  Forall (Z.le 0) (base_of total W <$> items).*2.
Proof.
  intros HW Ht. induction items as [| [k w] items IH]; csimpl; [done |].
  intros [Hw Hws]%Forall_cons. constructor; [| by apply IH].
  apply Z.div_pos; nia.
Qed.

Lemma split_items_total total W (items : list (K * Z)) st :
  0 < W → 0 ≤ total → Forall (λ w, 0 ≤ w ≤ W) items.*2 →
  lua.is_exact (total * W + W) → 0 ≤ split_used st →
  lua.is_exact (split_used st + sum_Z (base_of total W <$> items).*2) →
  is_Some (split_items total W items st).
Proof.
  intros HW Ht Hws He. revert st.
  induction items as [| [k w] items IH]; csimpl; intros st Hu Hb; [done |].
  apply Forall_cons in Hws as [Hw Hws]. simpl in Hw.
  assert (Forall (Z.le 0) (base_of total W <$> items).*2) as Hnn.
  { apply bases_nonneg; [done | done |]. eapply Forall_impl; [exact Hws |]. simpl. lia. }
  pose proof (sum_Z_nonneg _ Hnn). rewrite sum_Z_cons in Hb. cbn [base_of fst snd] in Hb.
  assert (0 ≤ total * w ≤ total * W) by nia.
  assert (0 ≤ total * w / W) by (apply Z.div_pos; lia).
  rewrite (proj2 (mul_Some total w _)) by (split; [done |]; repeat split; exact_nia). simpl.
  rewrite (proj2 (lua_floor_div_Some (total * w) W _))
    by (split; [done |]; repeat split; exact_lia). simpl.
  rewrite (proj2 (add_Some (split_used st) _ _)) by (split; [done |]; repeat split; exact_lia).
  simpl.
  rewrite (proj2 (modulo_Some (total * w) W _)) by (split; [done |]; repeat split; exact_lia).
  simpl. apply IH; simpl; [done | lia | exact_lia].
Qed.

Lemma give_units_total (ranked : list (K * Z)) count n index m B :
  count = Z.of_nat (length ranked) → 0 < count → 0 ≤ index →
  (∀ e, e ∈ ranked → is_Some (m !! e.1)) →
  (∀ k v, m !! k = Some v → 0 ≤ v ≤ B) → lua.is_exact (B + Z.of_nat n) →
  is_Some (give_units ranked count n index m).
Proof.
  intros -> Hc. revert index m B.
  induction n as [| n IH]; intros index m B Hi Hin Hv He; cbn [give_units]; [done |].
  pose proof (Z.rem_bound_pos index (Z.of_nat (length ranked)) Hi Hc).
  destruct (lookup_lt_is_Some_2 ranked (Z.to_nat (Z.rem index (Z.of_nat (length ranked)))))
    as [e He']; [lia |].
  rewrite He'. simpl. destruct (Hin e) as [v Hv']; [by eapply list_elem_of_lookup_2 |].
  rewrite Hv'. simpl. specialize (Hv e.1 v Hv') as Hb.
  rewrite (proj2 (add_Some v 1 _)) by (split; [done |]; repeat split; exact_lia). simpl.
  apply (IH _ _ (B + 1)); [lia | | |exact_lia].
  - intros e' Hin'. destruct (decide (e.1 = e'.1)) as [-> | Hne].
    + by rewrite lookup_insert_eq.
    + rewrite lookup_insert_ne by done. by apply Hin.
  - intros k w. destruct (decide (e.1 = k)) as [<- | Hne].
    + rewrite lookup_insert_eq. intros [= <-]. lia.
    + rewrite lookup_insert_ne by done. intros Hk. apply Hv in Hk. lia.
Qed.

Lemma weights_le_sum (l : list Z) : Forall (Z.le 0) l → Forall (λ w, 0 ≤ w ≤ sum_Z l) l.
Proof.
  induction 1 as [| w l Hw Hl IH]; [done |].
  rewrite sum_Z_cons. pose proof (sum_Z_nonneg _ Hl).
  constructor; [lia |]. eapply Forall_impl; [exact IH |]. simpl. lia.
Qed.

Lemma proportional_total total items :
  NoDup items.*1 → Forall (Z.le 0) items.*2 → 0 < total → 0 < sum_Z items.*2 →
  lua.is_exact (total * sum_Z items.*2 + sum_Z items.*2 + total) →
  Z.of_nat (length items) ≤ i64_max →
  is_Some (proportional total items).
Proof.
  intros Hnd Hw Ht HW He Hlen. unfold proportional.
  set (W := sum_Z items.*2) in *.
  rewrite sum_weights_total by (done || lia || (fold W; exact_nia)). simpl.
  rewrite Z.add_0_l. fold W.
  rewrite (proj2 (Z.leb_gt total 0)), (proj2 (Z.leb_gt W 0)) by lia. simpl.
  destruct (leftover_bound total W items HW) as (Hrem & Hr0 & Hrlt). fold W in Hrem.
  assert (items ≠ []) as Hne by (intros ->; unfold W in HW; csimpl in HW; rewrite sum_Z_nil in HW; lia).
  specialize (Hrlt Hne).
  assert (Forall (Z.le 0) (base_of total W <$> items).*2) as Hb
    by (apply bases_nonneg; [lia | lia | done]).
  pose proof (sum_Z_nonneg _ Hb). pose proof (weights_le_sum _ Hb) as Hbs.
  set (B := sum_Z (base_of total W <$> items).*2) in *.
  assert (0 ≤ total - B < Z.of_nat (length items)) as HL by nia.
  destruct (split_items_total total W items (MkSplit ∅ 0 [])) as [st Hst];
    [lia | lia | by apply weights_le_sum | exact_nia | done | fold B; simpl; exact_nia |].
  rewrite Hst. simpl. apply split_items_eq in Hst as (Hr & Hu & Ha). cbn [split_used split_allocations split_ranked app] in *.
  fold B in Hu. rewrite Z.add_0_l in Hu.
  rewrite Hr, Hu, Ha. rewrite length_sort_by, length_fmap.
  rewrite to_i64_in by range_lia. simpl.
  rewrite (proj2 (sub_Some total B _)) by (split; [done |]; repeat split; exact_nia). simpl.
  rewrite foldl_insert_list_to_map by (by rewrite base_keys).
  assert (0 < length items)%nat by (destruct items; simpl in *; [done | lia]).
  apply (give_units_total _ _ _ _ _ B); [by rewrite length_sort_by, length_fmap | lia | lia | | |].
  - intros e He'. rewrite elem_of_sort_by in He'.
    assert (e.1 ∈ (base_of total W <$> items).*1) as Hin.
    { rewrite base_keys, <- (rank_keys total W). by apply list_elem_of_fmap_2. }
    apply list_elem_of_fmap in Hin as ([k v] & Hk & Hin). simpl in Hk.
    exists v. rewrite Hk. apply elem_of_list_to_map_1; [by rewrite base_keys | done].
  - intros k v Hk%elem_of_list_to_map_2.
    rewrite Forall_forall in Hbs. apply Hbs. by apply (list_elem_of_fmap_2' snd _ (k, v)).
  - exact_nia.
Qed.

End proportional.

Section largest_remainder.
Context {K : Type} `{Countable K} (key_leb : K → K → bool).
Hypothesis key_total : ∀ x y, key_leb x y = false → key_leb y x = true.
Hypothesis key_trans : ∀ x y z, key_leb x y = true → key_leb y z = true → key_leb x z = true.

Lemma rank_sorted (l : list (K * Z)) :
  StronglySorted (λ a b, rank_leb key_leb a b = true) (sort_by (rank_leb key_leb) l).
Proof using key_total key_trans.
  apply sort_by_sorted; unfold rank_leb.
  - intros [x rx] [y ry]. simpl. intros Hf. destruct (key_leb y x) eqn:E; [lia |].
    apply key_total in E. rewrite E in Hf. lia.
  - intros [x rx] [y ry] [z rz]. simpl. intros Hxy Hyz.
    destruct (key_leb x y) eqn:E1; [destruct (key_leb y z) eqn:E2 |]; [| lia..].
    rewrite (key_trans _ _ _ E1 E2). lia.
Qed.

(** [proportional] is the largest-remainder method.  For distinct ids,
    non-negative weights and a total within Lua's exact range it succeeds, and
    the units it hands out add up to the total; every id gets the floor of its
    exact share or one unit more; and an id that gets the extra unit ranks
    before every id that does not: its remainder is larger, or equal with a
    smaller id. *)
Theorem proportional_largest_remainder (total : Z) (items : list (K * Z)) :
  NoDup items.*1 → Forall (Z.le 0) items.*2 → 0 < total → 0 < sum_Z items.*2 →
  lua.is_exact (total * sum_Z items.*2 + sum_Z items.*2 + total) →
  Z.of_nat (length items) ≤ i64_max →
  let W := sum_Z items.*2 in
  ∃ m, proportional key_leb total items = Some m ∧
    map_sum m = total ∧
    (∀ k, is_Some (m !! k) ↔ k ∈ items.*1) ∧
    (∀ k w, (k, w) ∈ items →
       m !! k = Some (total * w / W) ∨ m !! k = Some (total * w / W + 1)) ∧
    (∀ k1 w1 k2 w2, (k1, w1) ∈ items → (k2, w2) ∈ items →
       m !! k1 = Some (total * w1 / W + 1) → m !! k2 = Some (total * w2 / W) →
       rank_leb key_leb (k1, (total * w1) mod W) (k2, (total * w2) mod W) = true).
Proof using key_total key_trans.
  intros Hnd Hw Ht HW He Hlen W.
  destruct (proportional_total key_leb total items) as [m Hm]; [done..|].
  destruct (proportional_outcome key_leb total items m) as (L & HL & Hsum & Hms & Hk); [done..|].
  fold W in Hsum, Hk. set (ranked := sort_by (rank_leb key_leb) (rem_of total W <$> items)) in *.
  assert (Hlook : ∀ k w, (k, w) ∈ items →
    m !! k = Some (total * w / W + if decide (k ∈ (take L ranked).*1) then 1 else 0)).
  { intros k w Hin. rewrite Hk.
    rewrite (elem_of_list_to_map_1 (base_of total W <$> items) k (total * w / W)).
    - done.
    - by rewrite base_keys.
    - by apply (list_elem_of_fmap_2' (base_of total W) items (k, w)). }
  exists m. split; [done |]. split; [done |]. split; [| split].
  - intros k. rewrite Hk, fmap_is_Some, <- (base_keys total W).
    rewrite list_elem_of_fmap. split.
    + intros [v Hv%elem_of_list_to_map_2]. by exists (k, v).
    + intros ([k' v] & -> & Hin). exists v.
      apply elem_of_list_to_map_1; [by rewrite base_keys | done].
  - intros k w Hin. rewrite (Hlook k w Hin). case_decide; [by right | left]. f_equal. lia.
  - intros k1 w1 k2 w2 Hin1 Hin2 Hm1 Hm2.
    rewrite (Hlook _ _ Hin1) in Hm1. rewrite (Hlook _ _ Hin2) in Hm2.
    destruct (decide (k1 ∈ _)) as [Hd1 |]; [| injection Hm1; lia].
    destruct (decide (k2 ∈ _)) as [| Hd2]; [injection Hm2; lia |].
    assert (∀ k w, (k, w) ∈ items → (k, (total * w) mod W) ∈ ranked) as Hrk.
    { intros k w Hin. unfold ranked. rewrite elem_of_sort_by.
      by apply (list_elem_of_fmap_2' (rem_of total W) items (k, w)). }
    assert (NoDup ranked.*1) as Hndr by (unfold ranked; by rewrite sort_by_perm, rank_keys).
    pose proof (rank_sorted (rem_of total W <$> items)) as Hsorted. fold ranked in Hsorted.
    apply Hrk in Hin1. apply Hrk in Hin2.
    rewrite <- (take_drop L ranked) in Hsorted, Hin1, Hin2, Hndr.
    rewrite elem_of_app in Hin1, Hin2. rewrite fmap_app in Hndr.
    apply NoDup_app in Hndr as (_ & Hdisj & _).
    apply (StronglySorted_app_1_elem_of _ _ _ _ _ Hsorted).
    + destruct Hin1 as [? | Hbad]; [done |]. destruct (Hdisj k1 Hd1).
      by apply (list_elem_of_fmap_2' fst _ (k1, (total * w1) mod W)).
    + destruct Hin2 as [Hbad | ?]; [| done]. destruct Hd2.
      by apply (list_elem_of_fmap_2' fst _ (k2, (total * w2) mod W)).
Qed.

End largest_remainder.

(** Lua's string order: bytewise, as [str]'s [Ord]. *)
Definition str_leb (a b : string) : bool := bool_decide (String.le a b).

Lemma str_leb_total x y : str_leb x y = false → str_leb y x = true.
Proof.
  unfold str_leb. intros Hf%bool_decide_eq_false. apply bool_decide_eq_true.
  by destruct (total String.le x y).
Qed.

Lemma str_leb_trans x y z : str_leb x y = true → str_leb y z = true → str_leb x z = true.
Proof.
  unfold str_leb. intros Hxy%bool_decide_eq_true Hyz%bool_decide_eq_true.
  apply bool_decide_eq_true. by etrans.
Qed.

Lemma proportional_largest_remainder_witness :
  let items := [("b", 1); ("a", 1); ("c", 1)]%string in
  ∃ m, proportional str_leb 4 items = Some m ∧ map_sum m = 4 ∧ m !! "a"%string = Some 2.
Proof.
  destruct (proportional_largest_remainder str_leb str_leb_total str_leb_trans
    4 [("b", 1); ("a", 1); ("c", 1)]%string) as (m & Hm & Hs & _).
  - repeat constructor; set_solver.
  - csimpl. repeat first [apply Forall_nil_2 | apply Forall_cons_2; [lia |]].
  - lia.
  - vm_compute. reflexivity.
  - vm_compute. split; discriminate.
  - vm_compute. discriminate.
  - exists m. split; [exact Hm |]. split; [exact Hs |].
    vm_compute in Hm. injection Hm as <-. vm_compute. reflexivity.
Defined.

(** ** [capacity_constrained] *)

Record CapacityOption := MkCapacityOption {
  cid : string;
  share_ppm : Z;
  available_capacity : Z;
}.

Record CapacityAllocation := MkCapacityAllocation {
  allocations : gmap string Z;
  requested : option (gmap string Z);
  queued : Z;
}.

Definition choice_items (services : list CapacityOption) (outside_ppm : Z) : list (string * Z) :=
  (OUTSIDE_CID, outside_ppm) :: ((λ o, (cid o, share_ppm o)) <$> services).

(** The admission loop of model version 9 and later. *)
Fixpoint admit_all (chosen : gmap string Z) (services : list CapacityOption)
    (allocations : gmap string Z) (queued : Z) : option (gmap string Z * Z) :=
  match services with
  | [] => Some (allocations, queued)
  | option :: services' =>
      let amount := default 0 (chosen !! cid option) in
      let admitted := Z.min amount (available_capacity option) in
      over ← lua.sub amount admitted;
      queued' ← lua.add queued (Z.max over 0);
      admit_all chosen services' (<[cid option := admitted]> allocations) queued'
  end.

(** [for (cid, amount) in preview]: in id order. *)
Fixpoint add_preview (preview : list (string * Z)) (allocations : gmap string Z)
    : option (gmap string Z) :=
  match preview with
  | [] => Some allocations
  | (c, amount) :: preview' =>
      total ← lua.add (default 0 (allocations !! c)) amount;
      add_preview preview' (<[c := total]> allocations)
  end.

Definition preview_in_order (preview : gmap string Z) : list (string * Z) :=
  sort_by (λ a b, str_leb a.1 b.1) (map_to_list preview).

(** [for option in capped]: capped services take what they can carry. *)
Fixpoint cap_all (capped : list CapacityOption) (allocations : gmap string Z) (remaining : Z)
    : option (gmap string Z * Z) :=
  match capped with
  | [] => Some (allocations, remaining)
  | option :: capped' =>
      remaining' ← lua.sub remaining (available_capacity option);
      cap_all capped' (<[cid option := available_capacity option]> allocations) remaining'
  end.

Definition over_capacity (preview : gmap string Z) (option : CapacityOption) : bool :=
  available_capacity option <? default 0 (preview !! cid option).

(** The rounds before model version 9.  Every round that caps a service takes it
    out of [active], so one more unit of fuel than there are services is enough
    (see [legacy_rounds_finish]). *)
Fixpoint legacy_rounds (fuel : nat) (outside_ppm : Z) (active : list CapacityOption)
    (allocations : gmap string Z) (remaining : Z) : option (gmap string Z * Z * list CapacityOption) :=
  match fuel with
  | O => Some (allocations, remaining, active)
  | S fuel' =>
      if (0 <? remaining) && negb (bool_decide (active = [])) then
        preview ← proportional str_leb remaining (choice_items active outside_ppm);
        let capped := List.filter (over_capacity preview) active in
        let survivors := List.filter (λ o, negb (over_capacity preview o)) active in
        match capped with
        | [] =>
            allocations' ← add_preview (preview_in_order preview) allocations;
            legacy_rounds fuel' outside_ppm survivors allocations' 0
        | _ =>
            ar ← cap_all capped allocations remaining;
            legacy_rounds fuel' outside_ppm survivors ar.1 ar.2
        end
      else Some (allocations, remaining, active)
  end.

Definition capacity_constrained (demand : Z) (services : list CapacityOption)
    (outside_ppm version : Z) : option CapacityAllocation :=
  if 9 <=? version then
    chosen ← proportional str_leb demand (choice_items services outside_ppm);
    let allocations := {[ OUTSIDE_CID := default 0 (chosen !! OUTSIDE_CID) ]} in
    aq ← admit_all chosen services allocations 0;
    Some (MkCapacityAllocation aq.1 (Some chosen) aq.2)
  else
    arl ← legacy_rounds (S (length services)) outside_ppm services ∅ demand;
    let '(allocations, remaining, _) := arl in
    if 0 <? remaining then
      outside ← lua.add (default 0 (allocations !! OUTSIDE_CID)) remaining;
      Some (MkCapacityAllocation (<[OUTSIDE_CID := outside]> allocations) None 0)
    else Some (MkCapacityAllocation allocations None 0).

(** *** What admission conserves *)

(** A well-posed market: distinct services, none of them the outside option,
    with shares, capacities and totals Lua holds exactly. *)
Record market_ok (demand : Z) (services : list CapacityOption) (outside_ppm : Z) : Prop := {
  mk_distinct : NoDup (OUTSIDE_CID :: (cid <$> services));
  mk_shares : Forall (λ o, 0 ≤ share_ppm o) services;
  mk_caps : Forall (λ o, 0 ≤ available_capacity o ∧ lua.is_exact (available_capacity o)) services;
  mk_outside : 0 ≤ outside_ppm;
  mk_count : Z.of_nat (length services) < i64_max;
}.

Definition weight_total (services : list CapacityOption) (outside_ppm : Z) : Z :=
  outside_ppm + sum_Z (share_ppm <$> services).

Lemma choice_items_keys services o : (choice_items services o).*1 = OUTSIDE_CID :: (cid <$> services).
Proof. unfold choice_items. csimpl. f_equal. by rewrite <- list_fmap_compose. Qed.

Lemma choice_items_weights services o :
  (choice_items services o).*2 = o :: (share_ppm <$> services).
Proof. unfold choice_items. csimpl. f_equal. by rewrite <- list_fmap_compose. Qed.

(** One choice: it exists, hands out exactly the total, and gives every option a
    non-negative number of units. *)
Lemma choice_outcome total services o :
  market_ok total services o → 0 < total → 0 < weight_total services o →
  lua.is_exact (total * weight_total services o + weight_total services o + total) →
  ∃ m, proportional str_leb total (choice_items services o) = Some m ∧
    map_sum m = total ∧
    (∀ k, is_Some (m !! k) ↔ k ∈ OUTSIDE_CID :: (cid <$> services)) ∧
    (∀ k, 0 ≤ default 0 (m !! k)) ∧
    (∀ k w, (k, w) ∈ choice_items services o →
      let share := total * w / weight_total services o in share ≤ default 0 (m !! k) ≤ share + 1).
Proof.
  intros [Hnd Hsh _ Ho Hc] Ht HW He.
  assert (sum_Z (choice_items services o).*2 = weight_total services o) as EW
    by (rewrite choice_items_weights; apply sum_Z_cons).
  assert (Forall (Z.le 0) (choice_items services o).*2) as Hnn.
  { rewrite choice_items_weights. constructor; [done |]. by apply Forall_fmap. }
  assert (NoDup (choice_items services o).*1) as Hnd' by (by rewrite choice_items_keys).
  assert (Z.of_nat (length (choice_items services o)) ≤ i64_max) as Hlen
    by (unfold choice_items; cbn [length]; rewrite length_fmap; lia).
  assert (0 < sum_Z (choice_items services o).*2) as HW' by lia.
  destruct (proportional_total str_leb total (choice_items services o)) as [m Hm];
    [done | done | done | done | by rewrite EW | done |].
  destruct (proportional_outcome str_leb total (choice_items services o) m)
    as (L & HL & Hsum & Hms & Hk); [done..|].
  rewrite EW in Hsum, Hk. set (W := weight_total services o) in *.
  exists m. split; [done |]. split; [done |]. split; [| split].
  - intros k. rewrite <- (choice_items_keys services o), Hk, fmap_is_Some, <- (base_keys total W).
    rewrite list_elem_of_fmap. split.
    + intros [v Hv%elem_of_list_to_map_2]. by exists (k, v).
    + intros ([k' v] & -> & Hin). exists v.
      apply elem_of_list_to_map_1; [by rewrite base_keys | done].
  - intros k. rewrite Hk.
    destruct (list_to_map _ !! k) as [v |] eqn:E; simpl; [| done].
    apply elem_of_list_to_map_2 in E.
    assert (0 ≤ v).
    { pose proof (bases_nonneg total W (choice_items services o) ltac:(lia) ltac:(lia) Hnn) as Hb.
      rewrite Forall_forall in Hb. apply Hb. by apply (list_elem_of_fmap_2' snd _ (k, v)). }
    case_decide; lia.
  - intros k w Hin share. rewrite Hk.
    assert ((list_to_map (base_of total W <$> choice_items services o) : gmap string Z) !! k = Some share) as ->.
    { apply elem_of_list_to_map_1; [by rewrite base_keys |]. by apply (list_elem_of_fmap_2' (base_of total W) _ (k, w)). }
    cbn. case_decide; lia.
Qed.

Lemma choice_sum services m :
  NoDup (OUTSIDE_CID :: (cid <$> services)) →
  (∀ k, is_Some (m !! k) ↔ k ∈ OUTSIDE_CID :: (cid <$> services)) →
  map_sum m = default 0 (m !! OUTSIDE_CID)
    + sum_Z ((λ o, default 0 (m !! cid o)) <$> services).
Proof.
  intros Hnd Hdom. rewrite (map_sum_keys (OUTSIDE_CID :: (cid <$> services))).
  - csimpl. rewrite sum_Z_cons. f_equal. by rewrite <- list_fmap_compose.
  - done.
  - intros k. by rewrite Hdom.
Qed.

(** The admission loop moves every chosen unit to a service or to the queue. *)
Lemma admit_all_ok chosen services a q :
  NoDup (cid <$> services) →
  (∀ o, o ∈ services → a !! cid o = None) →
  Forall (λ o, 0 ≤ available_capacity o ∧ lua.is_exact (available_capacity o)) services →
  (∀ k, 0 ≤ default 0 (chosen !! k)) → 0 ≤ q →
  lua.is_exact (q + sum_Z ((λ o, default 0 (chosen !! cid o)) <$> services)) →
  ∃ a' q', admit_all chosen services a q = Some (a', q') ∧
    map_sum a' + q' = map_sum a + q + sum_Z ((λ o, default 0 (chosen !! cid o)) <$> services) ∧
    0 ≤ q' ∧
    (∀ k, k ∉ cid <$> services → a' !! k = a !! k) ∧
    (∀ o, o ∈ services →
       a' !! cid o = Some (Z.min (default 0 (chosen !! cid o)) (available_capacity o))).
Proof.
  intros Hnd Hfree Hcaps Hpos. revert a q Hfree.
  induction services as [| o services IH]; intros a q Hfree Hq He; csimpl.
  { exists a, q. rewrite sum_Z_nil. repeat split; try lia. intros o Ho. by apply not_elem_of_nil in Ho. }
  csimpl in *. apply NoDup_cons in Hnd as [Ho Hnd]. apply Forall_cons in Hcaps as [[Hc0 Hc] Hcaps].
  rewrite sum_Z_cons in He. pose proof (Hpos (cid o)) as Hamt.
  assert (0 ≤ sum_Z ((λ o, default 0 (chosen !! cid o)) <$> services)) as Hrest.
  { apply sum_Z_nonneg, Forall_fmap, Forall_forall. intros x _. apply Hpos. }
  set (amount := default 0 (chosen !! cid o)) in *. set (cap := available_capacity o) in *.
  rewrite (proj2 (sub_Some amount (Z.min amount cap) _))
    by (split; [done |]; repeat split; exact_lia). simpl.
  rewrite (proj2 (add_Some q _ _)) by (split; [done |]; repeat split; exact_lia). simpl.
  destruct (IH Hnd Hcaps (<[cid o := Z.min amount cap]> a) (q + Z.max (amount - Z.min amount cap) 0))
    as (a' & q' & Hr & Hs & Hq' & Hother & Hmine).
  { intros x Hx. rewrite lookup_insert_ne.
    - apply Hfree. by right.
    - intros E. apply Ho. rewrite E. by apply list_elem_of_fmap_2. }
  { lia. }
  { exact_lia. }
  exists a', q'. split; [done |].
  rewrite map_sum_insert, (Hfree o) in Hs by left. cbn [default] in Hs. rewrite sum_Z_cons. fold amount.
  repeat split; [simpl in Hs; lia | done | |].
  - intros k Hk. rewrite not_elem_of_cons in Hk. destruct Hk as [Hne Hk].
    rewrite Hother by done. by rewrite lookup_insert_ne.
  - intros x. rewrite elem_of_cons. intros [-> | Hx]; [| by apply Hmine].
    rewrite Hother by done. by rewrite lookup_insert_eq.
Qed.

Lemma nothing_chosen (services : list CapacityOption) :
  sum_Z ((λ o, default 0 ((∅ : gmap string Z) !! cid o)) <$> services) = 0.
Proof. induction services as [| o services IH]; [done |]. rewrite fmap_cons, sum_Z_cons, IH. by rewrite lookup_empty. Qed.

(** Of nothing, or among options without weight, nothing is chosen. *)
Lemma choice_nothing total services o :
  market_ok total services o → 0 ≤ total → ¬ (0 < total ∧ 0 < weight_total services o) →
  lua.is_exact (total * weight_total services o + weight_total services o + total) →
  proportional str_leb total (choice_items services o) = Some ∅.
Proof.
  intros [_ Hsh _ Ho _] Ht Hno He.
  assert (sum_Z (choice_items services o).*2 = weight_total services o) as EW
    by (rewrite choice_items_weights; apply sum_Z_cons).
  assert (Forall (Z.le 0) (choice_items services o).*2) as Hnn.
  { rewrite choice_items_weights. constructor; [done |]. by apply Forall_fmap. }
  pose proof (sum_Z_nonneg _ Hnn) as HW. rewrite EW in HW.
  unfold proportional. rewrite sum_weights_total; [| done | done | rewrite EW; exact_nia]. cbn [mbind option_bind].
  rewrite EW, Z.add_0_l. destruct (Z.leb_spec total 0), (Z.leb_spec (weight_total services o) 0); try done. lia.
Qed.

(** C40: from model version 9, admission conserves demand.  The services have
    distinct ids, none of them the outside option's, and their shares and
    capacities, the outside option's share and the demand are not negative;
    and the products of demand and weights stay within the 53 bits that Lua
    holds exactly.  Then there is an allocation: no service carries more than
    its capacity or more than was chosen for it, and exactly the smaller of the
    two.  If there is demand and some option has weight, every unit of
    demand is carried by a service, stays outside, or is reported as queued, and
    what is chosen of each option is its share of the demand to within one
    unit.  If there is no demand, or if no option has any weight, nothing is
    chosen, carried or queued: demand without options is dropped. *)
Theorem capacity_v9_conserves (demand : Z) (services : list CapacityOption)
    (outside_ppm version : Z) :
  9 ≤ version → market_ok demand services outside_ppm → 0 ≤ demand →
  lua.is_exact (demand * weight_total services outside_ppm
                + weight_total services outside_ppm + demand) →
  ∃ r chosen, capacity_constrained demand services outside_ppm version = Some r ∧
    requested r = Some chosen ∧ 0 ≤ queued r ∧
    allocations r !! OUTSIDE_CID = Some (default 0 (chosen !! OUTSIDE_CID)) ∧
    (∀ o, o ∈ services →
      allocations r !! cid o
      = Some (Z.min (default 0 (chosen !! cid o)) (available_capacity o))) ∧
    (0 < demand ∧ 0 < weight_total services outside_ppm →
      map_sum chosen = demand ∧ map_sum (allocations r) + queued r = demand ∧
      ∀ k w, (k, w) ∈ (OUTSIDE_CID, outside_ppm) :: ((λ o, (cid o, share_ppm o)) <$> services) →
        let share := demand * w / weight_total services outside_ppm in
        share ≤ default 0 (chosen !! k) ≤ share + 1) ∧
    (demand = 0 ∨ weight_total services outside_ppm = 0 →
      chosen = ∅ ∧ map_sum (allocations r) = 0 ∧ queued r = 0).
Proof.
  intros Hv Hmk Hd He. unfold capacity_constrained.
  rewrite (proj2 (Z.leb_le 9 version)) by done.
  assert (0 ≤ weight_total services outside_ppm) as HW0.
  { destruct Hmk as [_ Hsh _ Ho _]. unfold weight_total. assert (0 ≤ sum_Z (share_ppm <$> services)); [| lia].
    by apply sum_Z_nonneg, Forall_fmap. }
  set (some := 0 < demand ∧ 0 < weight_total services outside_ppm) in *.
  assert (∃ m, proportional str_leb demand (choice_items services outside_ppm) = Some m ∧ (∀ k, 0 ≤ default 0 (m !! k)) ∧
    default 0 (m !! OUTSIDE_CID) + sum_Z ((λ o, default 0 (m !! cid o)) <$> services) = map_sum m ∧
    (some → map_sum m = demand ∧ ∀ k w, (k, w) ∈ choice_items services outside_ppm →
      let share := demand * w / weight_total services outside_ppm in share ≤ default 0 (m !! k) ≤ share + 1) ∧
    (¬ some → m = ∅)) as (m & Hm & Hpos & Hcs & Hsome & Hnone).
  { destruct (decide some) as [[Hd' HW] | Hno].
    - destruct (choice_outcome demand services outside_ppm Hmk Hd' HW He) as (m & Hm & Hsum & Hdom & Hpos & Hshare).
      exists m. rewrite <- (choice_sum services m) by (destruct Hmk; done).
      split; [done |]. split; [done |]. split; [done |]. split; [intros _; by split | by intros []].
    - exists ∅. split; [by apply choice_nothing |]. split; [intros k; by rewrite lookup_empty |].
      split; [| done]. by rewrite nothing_chosen. }
  rewrite Hm. simpl. destruct Hmk as [Hnd _ Hcaps _ _]. apply NoDup_cons in Hnd as [Hoc Hnd].
  assert (0 ≤ sum_Z ((λ o, default 0 (m !! cid o)) <$> services)) as Hrest
    by (apply sum_Z_nonneg, Forall_fmap, Forall_forall; intros x _; apply Hpos).
  assert (map_sum m ≤ demand) as Hle.
  { destruct (decide some) as [Hs | Hno]; [by destruct (Hsome Hs) as [-> _] |]. by rewrite (Hnone Hno), (map_sum_empty (K:=string)). }
  pose proof (Hpos OUTSIDE_CID) as Hout.
  destruct (admit_all_ok m services {[OUTSIDE_CID := default 0 (m !! OUTSIDE_CID)]} 0)
    as (a' & q' & Ha & Hs & Hq & Hother & Hmine); [done | | done | done | done | exact_nia |].
  { intros o Ho. apply lookup_singleton_None. intros E. apply Hoc. rewrite E. by apply list_elem_of_fmap_2. }
  rewrite Ha. simpl. eexists _, m. split; [done |]. simpl.
  rewrite <- insert_empty, map_sum_insert, lookup_empty, (map_sum_empty (K:=string)) in Hs. simpl in Hs.
  split; [done |]. split; [done |]. split; [rewrite Hother by done; by rewrite lookup_singleton_eq |]. split; [done |]. split.
  - intros H. destruct (Hsome H) as [Hsum Hshare]. split; [done |]. split; [lia | exact Hshare].
  - intros H. assert (m = ∅) as -> by (apply Hnone; unfold some; lia).
    rewrite lookup_empty, nothing_chosen in Hs. cbn [default] in Hs. assert (0 ≤ map_sum a'); [| repeat split; cbn in Hs; lia].
    apply map_sum_nonneg. intros k. destruct (decide (k ∈ cid <$> services)) as [(o & -> & Ho)%list_elem_of_fmap | Hk].
    + rewrite (Hmine o Ho), lookup_empty. cbn. rewrite Forall_forall in Hcaps. destruct (Hcaps o Ho). lia.
    + rewrite (Hother k Hk), lookup_singleton. case_decide; done.
Qed.

Lemma capacity_v9_conserves_witness :
  ∃ r chosen,
    capacity_constrained 100 [MkCapacityOption "line:a" 500000 30] 500000 9 = Some r ∧
    requested r = Some chosen ∧ map_sum chosen = 100 ∧
    map_sum (allocations r) + queued r = 100 ∧ 0 ≤ queued r ∧
    allocations r !! "line:a" = Some (Z.min (default 0 (chosen !! "line:a")) 30) ∧ 50 ≤ default 0 (chosen !! "line:a") ≤ 51.
Proof.
  destruct (capacity_v9_conserves 100 [MkCapacityOption "line:a" 500000 30] 500000 9)
    as (r & chosen & Hr & Hq & Hn & _ & Hall & Hsome & _).
  - lia.
  - constructor.
    + apply (bool_decide_unpack _). vm_compute. exact I.
    + repeat constructor; simpl; lia.
    + repeat constructor; simpl; try lia; vm_compute; discriminate.
    + lia.
    + vm_compute. reflexivity.
  - lia.
  - vm_compute. split; discriminate.
  - destruct Hsome as (H1 & H2 & H3); [by split; vm_compute |]. exists r, chosen.
    split; [exact Hr |]. split; [exact Hq |]. split; [exact H1 |]. split; [exact H2 |]. split; [exact Hn |].
    split; [apply (Hall (MkCapacityOption "line:a" 500000 30)); by left |].
    apply (H3 "line:a" 500000). right. by left.
Defined.

(** *** The rounds before model version 9 *)

Lemma add_preview_ok l a :
  NoDup l.*1 → Forall (Z.le 0) l.*2 → (∀ k, 0 ≤ default 0 (a !! k)) →
  lua.is_exact (map_sum a + sum_Z l.*2) →
  (∀ k, k ∈ l.*1 → a !! k = None) →
  ∃ a', add_preview l a = Some a' ∧ map_sum a' = map_sum a + sum_Z l.*2 ∧
    (∀ k v, (k, v) ∈ l → a' !! k = Some v) ∧ (∀ k, k ∉ l.*1 → a' !! k = a !! k).
Proof.
  revert a. induction l as [| [k v] l IH]; csimpl; intros a Hnd Hnn Hpos He Hfree.
  { exists a. rewrite sum_Z_nil. repeat split; try done; [lia |].
    intros k v Hk. by apply not_elem_of_nil in Hk. }
  apply NoDup_cons in Hnd as [Hk Hnd]. apply Forall_cons in Hnn as [Hv Hnn].
  rewrite sum_Z_cons in *. pose proof (sum_Z_nonneg _ Hnn) as Hs.
  assert (a !! k = None) as Ek by (apply Hfree; left). rewrite Ek. cbn [default].
  assert (0 ≤ map_sum a) as Ha.
  { by apply map_sum_nonneg. }
  rewrite (proj2 (add_Some 0 v _)) by (split; [done |]; repeat split; exact_lia).
  cbn [mbind option_bind]. rewrite Z.add_0_l.
  assert (map_sum (<[k := v]> a) = map_sum a + v) as Es
    by (rewrite map_sum_insert, Ek; simpl; lia).
  destruct (IH (<[k := v]> a)) as (a' & Hr & Hsum & Hin & Hother); [done | done | | | |].
  - intros j. rewrite lookup_insert. case_decide; [done | apply Hpos].
  - rewrite Es. exact_lia.
  - intros j Hj. rewrite lookup_insert_ne by (intros ->; done). apply Hfree. by right.
  - exists a'. split; [done |]. split; [lia |]. split.
    + intros j w. rewrite elem_of_cons. intros [[= -> ->] | Hj]; [| by apply Hin].
      rewrite Hother by done. by rewrite lookup_insert_eq.
    + intros j Hj. rewrite not_elem_of_cons in Hj. destruct Hj as [Hne Hj].
      rewrite Hother by done. by rewrite lookup_insert_ne.
Qed.

Lemma cap_all_ok capped a remaining :
  NoDup (cid <$> capped) → (∀ o, o ∈ capped → a !! cid o = None) →
  Forall (λ o, 0 ≤ available_capacity o ∧ lua.is_exact (available_capacity o)) capped →
  sum_Z (available_capacity <$> capped) ≤ remaining → lua.is_exact remaining →
  ∃ a', cap_all capped a remaining
      = Some (a', remaining - sum_Z (available_capacity <$> capped)) ∧
    map_sum a' = map_sum a + sum_Z (available_capacity <$> capped) ∧
    (∀ o, o ∈ capped → a' !! cid o = Some (available_capacity o)) ∧
    (∀ k, k ∉ cid <$> capped → a' !! k = a !! k).
Proof.
  revert a remaining. induction capped as [| o capped IH]; csimpl;
    intros a remaining Hnd Hfree Hcaps Hle He.
  { exists a. rewrite sum_Z_nil. split; [do 2 f_equal; lia |]. split; [lia |]. split; [| done].
    intros o Ho. by apply not_elem_of_nil in Ho. }
  apply NoDup_cons in Hnd as [Ho Hnd]. apply Forall_cons in Hcaps as [[Hc0 Hc] Hcaps].
  rewrite sum_Z_cons in *.
  assert (0 ≤ sum_Z (available_capacity <$> capped)) as Hnn.
  { apply sum_Z_nonneg, Forall_fmap. eapply Forall_impl; [exact Hcaps |]. simpl. tauto. }
  rewrite (proj2 (sub_Some remaining _ _)) by (split; [done |]; repeat split; exact_lia).
  cbn [mbind option_bind].
  destruct (IH (<[cid o := available_capacity o]> a) (remaining - available_capacity o))
    as (a' & Hr & Hs & Hin & Hother); [done | | done | lia | exact_lia |].
  - intros x Hx. rewrite lookup_insert_ne; [apply Hfree; by right |].
    intros E. apply Ho. rewrite E. by apply list_elem_of_fmap_2.
  - exists a'. split; [rewrite Hr; do 2 f_equal; lia |].
    rewrite map_sum_insert, (Hfree o) in Hs by left. simpl in Hs. split; [lia |]. split.
    + intros x. rewrite elem_of_cons. intros [-> | Hx]; [| by apply Hin].
      rewrite Hother by done. by rewrite lookup_insert_eq.
    + intros k Hk. rewrite not_elem_of_cons in Hk. destruct Hk as [Hne Hk].
      rewrite Hother by done. by rewrite lookup_insert_ne.
Qed.

(** What a round of the legacy loop keeps. *)
Record round_ok (D W : Z) (outside_ppm : Z) (active : list CapacityOption)
    (a : gmap string Z) (remaining : Z) : Prop := {
  ro_market : market_ok D active outside_ppm;
  ro_outside : 0 < outside_ppm;
  ro_weight : weight_total active outside_ppm ≤ W;
  ro_exact : lua.is_exact (D * W + W + D);
  ro_left : 0 ≤ remaining;
  ro_sum : map_sum a + remaining = D;
  ro_pos : ∀ k, 0 ≤ default 0 (a !! k);
  ro_free : ∀ k, k ∈ OUTSIDE_CID :: (cid <$> active) → a !! k = None;
}.

(** What the loop ends with: all demand placed or left over, every service that
    was active within its capacity, everyone else untouched. *)
Record rounds_done (D : Z) (active : list CapacityOption) (a a' : gmap string Z)
    (remaining' : Z) (active' : list CapacityOption) : Prop := {
  rd_end : remaining' = 0 ∨ active' = [];
  rd_left : 0 ≤ remaining';
  rd_sum : map_sum a' + remaining' = D;
  rd_pos : ∀ k, 0 ≤ default 0 (a' !! k);
  rd_caps : ∀ o, o ∈ active → ∃ v, a' !! cid o = Some v ∧ v ≤ available_capacity o;
  rd_other : ∀ k, k ∉ OUTSIDE_CID :: (cid <$> active) → a' !! k = a !! k;
}.

Lemma elem_of_filter_sub {A} (f : A → bool) (l : list A) x :
  x ∈ List.filter f l → x ∈ l ∧ f x = true.
Proof. rewrite !list_elem_of_In. apply filter_In. Qed.

Lemma market_ok_sub D active o (f : CapacityOption → bool) :
  market_ok D active o → market_ok D (List.filter f active) o.
Proof.
  intros [Hnd Hs Hc Ho Hl].
  assert (Hsub : List.filter f active `sublist_of` active).
  { clear. induction active as [| x l IH]; simpl; [constructor |].
    destruct (f x); by constructor. }
  split; [| | | done |].
  - eapply sublist_NoDup; [exact Hnd |]. constructor. by apply fmap_sublist.
  - rewrite Forall_forall in Hs |- *. intros x [Hx _]%elem_of_filter_sub. by apply Hs.
  - rewrite Forall_forall in Hc |- *. intros x [Hx _]%elem_of_filter_sub. by apply Hc.
  - apply sublist_length in Hsub. lia.
Qed.

Lemma sum_filter_le {A} (g : A → Z) (f : A → bool) (l : list A) :
  Forall (λ x, 0 ≤ g x) l → sum_Z (g <$> List.filter f l) ≤ sum_Z (g <$> l).
Proof.
  induction 1 as [| x l Hx Hl IH]; csimpl; [done |].
  rewrite sum_Z_cons. destruct (f x); csimpl; rewrite ?sum_Z_cons; lia.
Qed.

Lemma sum_fmap_le {A} (g h : A → Z) (l : list A) :
  Forall (λ x, g x + 1 ≤ h x) l →
  sum_Z (g <$> l) + Z.of_nat (length l) ≤ sum_Z (h <$> l).
Proof.
  induction 1 as [| x l Hx Hl IH]; csimpl; [rewrite sum_Z_nil; lia |].
  rewrite !sum_Z_cons. lia.
Qed.

Lemma filter_negb_length {A} (f : A → bool) (l : list A) :
  length l = (length (List.filter f l) + length (List.filter (λ x, negb (f x)) l))%nat.
Proof. induction l as [| x l IH]; simpl; [done |]. destruct (f x); simpl; lia. Qed.

Lemma filter_nil_all {A} (f : A → bool) (l : list A) :
  List.filter f l = [] → List.filter (λ x, negb (f x)) l = l ∧ ∀ x, x ∈ l → f x = false.
Proof.
  induction l as [| x l IH]; simpl; [intros _; split; [done |]; intros ? []%not_elem_of_nil |].
  destruct (f x) eqn:E; [done |]. intros H. destruct (IH H) as [Hf Hall]. simpl. rewrite Hf.
  split; [done |]. intros y. rewrite elem_of_cons. intros [-> | Hy]; auto.
Qed.

Lemma round_exact D W active o a remaining :
  round_ok D W o active a remaining →
  0 < weight_total active o ∧
  lua.is_exact (remaining * weight_total active o + weight_total active o + remaining) ∧
  0 ≤ map_sum a.
Proof.
  intros [[_ Hsh _ _ _] Ho HW He Hl Hsum Hpos _].
  assert (0 ≤ sum_Z (share_ppm <$> active)) by (by apply sum_Z_nonneg, Forall_fmap).
  assert (0 ≤ map_sum a).
  { by apply map_sum_nonneg. }
  unfold weight_total in *. split; [lia |]. split; [| done]. exact_nia.
Qed.

Lemma legacy_rounds_zero fuel o active a :
  legacy_rounds fuel o active a 0 = Some (a, 0, active).
Proof. by destruct fuel. Qed.

(** What one preview says: it hands out exactly what remains. *)
Record preview_ok (active : list CapacityOption) (remaining : Z) (p : gmap string Z) : Prop := {
  pv_sum : map_sum p = remaining;
  pv_dom : ∀ k, is_Some (p !! k) ↔ k ∈ OUTSIDE_CID :: (cid <$> active);
  pv_pos : ∀ k, 0 ≤ default 0 (p !! k);
}.

Lemma settle_round D W o active a remaining p :
  round_ok D W o active a remaining → preview_ok active remaining p →
  (∀ x, x ∈ active → over_capacity p x = false) →
  ∃ a', add_preview (preview_in_order p) a = Some a' ∧ rounds_done D active a a' 0 active.
Proof.
  intros Hok [Hps Hdom Hpp] Hunder.
  destruct (round_exact _ _ _ _ _ _ Hok) as (HW0 & _ & Ha0).
  destruct Hok as [_ _ HW He Hl Hsum Hpos Hfree].
  assert (Hperm : preview_in_order p ≡ₚ map_to_list p) by apply sort_by_perm.
  assert (Hin : ∀ k v, (k, v) ∈ preview_in_order p ↔ p !! k = Some v)
    by (intros; by rewrite Hperm, elem_of_map_to_list).
  assert (Hkeys : ∀ k, k ∈ (preview_in_order p).*1 ↔ is_Some (p !! k)).
  { intros k. rewrite list_elem_of_fmap. split.
    - intros ([j v] & -> & Hj%Hin). by eexists.
    - intros [v Hv]. exists (k, v). split; [done | by apply Hin]. }
  assert (sum_Z (preview_in_order p).*2 = remaining) as Es
    by (rewrite <- Hps, map_sum_to_list; apply sum_Z_perm; by rewrite Hperm).
  destruct (add_preview_ok (preview_in_order p) a) as (a' & Hr & Hs & Hmine & Hother).
  - rewrite Hperm. apply NoDup_fst_map_to_list.
  - rewrite Forall_forall. intros v ([k w] & -> & Hk%Hin)%list_elem_of_fmap.
    specialize (Hpp k). by rewrite Hk in Hpp.
  - done.
  - rewrite Es, Hsum. assert (0 ≤ D * W) by nia. exact_lia.
  - intros k Hk. by apply Hfree, Hdom, Hkeys.
  - exists a'. split; [done |]. split; [by left | done | lia | | |].
    + intros k. destruct (decide (k ∈ (preview_in_order p).*1)) as [Hk | Hk].
      * destruct (proj1 (Hkeys k) Hk) as [v Hv]. rewrite (Hmine k v) by (by apply Hin).
        specialize (Hpp k). by rewrite Hv in Hpp.
      * by rewrite Hother.
    + intros x Hx. assert (is_Some (p !! cid x)) as [v Hv].
      { apply Hdom. right. by apply list_elem_of_fmap_2. }
      exists v. split; [by apply Hmine, Hin |].
      specialize (Hunder x Hx). unfold over_capacity in Hunder. rewrite Hv in Hunder. simpl in Hunder. lia.
    + intros k Hk. apply Hother. by rewrite Hkeys, Hdom.
Qed.

(** What the capped services have room for is less than what a preview gives the
    whole market. *)
Lemma capped_total active remaining p :
  preview_ok active remaining p → NoDup (OUTSIDE_CID :: (cid <$> active)) →
  let capped := List.filter (over_capacity p) active in
  sum_Z (available_capacity <$> capped) + Z.of_nat (length capped) ≤ remaining.
Proof.
  intros [Hps Hdom Hpp] Hnd capped.
  pose proof (choice_sum active p Hnd Hdom) as Hcs. pose proof (Hpp OUTSIDE_CID) as Hpo.
  assert (sum_Z (available_capacity <$> capped) + Z.of_nat (length capped)
    ≤ sum_Z ((λ x, default 0 (p !! cid x)) <$> capped)).
  { apply sum_fmap_le, Forall_forall. intros x [_ Hx]%elem_of_filter_sub.
    unfold over_capacity in Hx. lia. }
  assert (sum_Z ((λ x, default 0 (p !! cid x)) <$> capped)
    ≤ sum_Z ((λ x, default 0 (p !! cid x)) <$> active)).
  { apply sum_filter_le, Forall_forall. intros x _. apply Hpp. }
  lia.
Qed.

Lemma filter_cids (f : CapacityOption → bool) active k :
  k ∈ cid <$> List.filter f active → k ∈ cid <$> active.
Proof.
  intros (x & -> & [Hx _]%elem_of_filter_sub)%list_elem_of_fmap. by apply list_elem_of_fmap_2.
Qed.

(** Services are told apart by their ids. *)
Lemma filter_cids_disjoint (f : CapacityOption → bool) active k :
  NoDup (cid <$> active) →
  k ∈ cid <$> List.filter (λ x, negb (f x)) active → k ∉ cid <$> List.filter f active.
Proof.
  intros Hnd (x & -> & [Hx Hnx]%elem_of_filter_sub)%list_elem_of_fmap
    (y & Hxy & [Hy Hny]%elem_of_filter_sub)%list_elem_of_fmap.
  assert (x = y) as -> by (by apply (NoDup_fmap_elem_inj cid active)). by rewrite Hny in Hnx.
Qed.

Lemma cap_round D W o active a remaining p :
  round_ok D W o active a remaining → preview_ok active remaining p →
  let capped := List.filter (over_capacity p) active in
  let survivors := List.filter (λ x, negb (over_capacity p x)) active in
  capped ≠ [] →
  ∃ a' remaining',
    cap_all capped a remaining = Some (a', remaining') ∧ 0 < remaining' ∧
    round_ok D W o survivors a' remaining' ∧
    (∀ x, x ∈ capped → a' !! cid x = Some (available_capacity x)) ∧
    (∀ k, k ∉ cid <$> capped → a' !! k = a !! k).
Proof.
  intros Hok Hp capped survivors Hne.
  destruct (round_exact _ _ _ _ _ _ Hok) as (HW0 & Hex & Ha0).
  destruct Hok as [Hmk Ho HW He Hl Hsum Hpos Hfree].
  pose proof (market_ok_sub _ _ _ (over_capacity p) Hmk) as Hmc. fold capped in Hmc.
  pose proof (market_ok_sub _ _ _ (λ x, negb (over_capacity p x)) Hmk) as Hms. fold survivors in Hms.
  pose proof (capped_total active remaining p Hp (mk_distinct _ _ _ Hmk)) as Hlt. fold capped in Hlt. cbn in Hlt.
  assert (0 < length capped)%nat by (destruct capped; [done | simpl; lia]).
  assert (0 ≤ remaining * weight_total active o) by nia.
  pose proof (mk_distinct _ _ _ Hmc) as [Hoc Hnd]%NoDup_cons.
  destruct (cap_all_ok capped a remaining) as (a' & Hr & Hs & Hin & Hother);
    [done | | apply Hmc | lia | exact_lia |].
  { intros x Hx. apply Hfree. right. apply (filter_cids (over_capacity p)).
    by apply list_elem_of_fmap_2. }
  eexists _, _. split; [exact Hr |]. split; [lia |]. split; [| split; [exact Hin | exact Hother]].
  assert (Hcap0 : Forall (λ x, 0 ≤ available_capacity x) capped).
  { eapply Forall_impl; [exact (mk_caps _ _ _ Hmc) |]. simpl. tauto. }
  assert (0 ≤ sum_Z (available_capacity <$> capped)) by (by apply sum_Z_nonneg, Forall_fmap).
  split; [exact Hms | exact Ho | | exact He | lia | lia | |].
  - unfold weight_total in *.
    assert (sum_Z (share_ppm <$> survivors) ≤ sum_Z (share_ppm <$> active))
      by (apply sum_filter_le, Hmk). lia.
  - intros k. destruct (decide (k ∈ cid <$> capped)) as [Hk | Hk].
    + apply list_elem_of_fmap in Hk as (x & -> & Hx). rewrite (Hin x Hx). simpl.
      rewrite Forall_forall in Hcap0. by apply Hcap0.
    + rewrite Hother by done. apply Hpos.
  - intros k Hk. rewrite Hother; [apply Hfree |].
    + rewrite elem_of_cons in Hk |- *. destruct Hk as [-> | Hk]; [by left | right]. by eapply filter_cids.
    + rewrite elem_of_cons in Hk. destruct Hk as [-> | Hk]; [done |]. apply filter_cids_disjoint; [| done].
      pose proof (mk_distinct _ _ _ Hmk) as [_ ?]%NoDup_cons. done.
Qed.

(** What the later rounds achieve for the survivors, and this round for the
    capped services, together covers everyone who was active. *)
Lemma rounds_done_extend D W o f active a remaining a' a2 r2 act2 :
  round_ok D W o active a remaining →
  rounds_done D (List.filter (λ x, negb (f x)) active) a' a2 r2 act2 →
  (∀ x, x ∈ List.filter f active → a' !! cid x = Some (available_capacity x)) →
  (∀ k, k ∉ cid <$> List.filter f active → a' !! k = a !! k) →
  rounds_done D active a a2 r2 act2.
Proof.
  intros Hok [Hend Hl Hs Hp Hcaps Hoth] Hin Hother.
  pose proof (mk_distinct _ _ _ (ro_market _ _ _ _ _ _ Hok)) as [Hoc Hnd]%NoDup_cons.
  assert (Hsub : ∀ (g : CapacityOption → bool) k,
    k ∈ cid <$> List.filter g active → k ∈ cid <$> active).
  { intros g k (x & -> & [Hx _]%elem_of_filter_sub)%list_elem_of_fmap.
    by apply list_elem_of_fmap_2. }
  split; [done | done | done | done | |].
  - intros x Hx. destruct (f x) eqn:E.
    + assert (x ∈ List.filter f active) as Hxf
        by (apply list_elem_of_In, filter_In; split; [by apply list_elem_of_In | done]).
      exists (available_capacity x). split; [| done]. rewrite <- (Hin x Hxf). apply Hoth.
      rewrite not_elem_of_cons. split.
      * intros Ex. apply Hoc. rewrite <- Ex. by apply list_elem_of_fmap_2.
      * intros (y & Exy & [Hy Hny]%elem_of_filter_sub)%list_elem_of_fmap.
        assert (x = y) as <- by (by apply (NoDup_fmap_elem_inj cid active)).
        by rewrite E in Hny.
    + apply Hcaps, list_elem_of_In, filter_In. rewrite E. split; [by apply list_elem_of_In | done].
  - intros k Hk. rewrite not_elem_of_cons in Hk. destruct Hk as [Hko Hk].
    rewrite Hoth, Hother; [done | |].
    + intros ?. by eapply Hk, Hsub.
    + rewrite not_elem_of_cons. split; [done |]. intros ?. by eapply Hk, Hsub.
Qed.

(** The loop ends: a round that does not settle caps a service, so one round
    more than there are services is enough. *)
Lemma legacy_rounds_finish fuel D W o active a remaining :
  round_ok D W o active a remaining → 0 < remaining → (length active < fuel)%nat →
  ∃ a' remaining' active',
    legacy_rounds fuel o active a remaining = Some (a', remaining', active') ∧
    rounds_done D active a a' remaining' active'.
Proof.
  revert active a remaining.
  induction fuel as [| fuel IH]; intros active a remaining Hok Hr Hf; [lia |].
  cbn [legacy_rounds]. rewrite (proj2 (Z.ltb_lt 0 remaining)) by done. cbn [andb].
  destruct (bool_decide (active = [])) eqn:Ea; cbn [negb].
  { apply bool_decide_eq_true in Ea as ->. eexists _, _, _. split; [done |].
    destruct Hok. split; try done; [by right | intros ? []%not_elem_of_nil]. }
  destruct (round_exact _ _ _ _ _ _ Hok) as (HW0 & Hex & _).
  destruct (choice_outcome remaining active o) as (p & Hp & Hps & Hdom & Hpos & _);
    [by destruct Hok as [[] _ _ _ _ _ _ _] | done | done | done |].
  rewrite Hp. cbn [mbind option_bind].
  assert (Hpv : preview_ok active remaining p) by done.
  destruct (List.filter (over_capacity p) active) as [| c capped] eqn:Ec.
  - apply filter_nil_all in Ec as [-> Hunder].
    destruct (settle_round _ _ _ _ _ _ _ Hok Hpv Hunder) as (a' & Ha & Hd).
    rewrite Ha. cbn [mbind option_bind]. rewrite legacy_rounds_zero. by eexists _, _, _.
  - destruct (cap_round _ _ _ _ _ _ _ Hok Hpv) as (a' & r' & Hc & Hr' & Hok' & Hin & Hother);
      [by rewrite Ec |].
    rewrite Ec in Hc. rewrite Hc. cbn [mbind option_bind fst snd].
    pose proof (filter_negb_length (over_capacity p) active) as Hlen.
    rewrite Ec in Hlen. cbn [length] in Hlen.
    destruct (IH _ _ _ Hok' Hr') as (a2 & r2 & act2 & Hrun & Hdone); [lia |].
    rewrite Hrun. eexists _, _, _. split; [done |].
    eapply rounds_done_extend; [exact Hok | exact Hdone | exact Hin | exact Hother].
Qed.

(** Before model version 9, demand beyond a capped service is offered to
    the others and the outside option absorbs the rest: the loop ends, every
    unit of demand is placed, no service carries more than its capacity and
    nothing is queued. *)
Theorem capacity_legacy_conserves (demand : Z) (services : list CapacityOption)
    (outside_ppm version : Z) :
  version < 9 → market_ok demand services outside_ppm → 0 < demand → 0 < outside_ppm →
  lua.is_exact (demand * weight_total services outside_ppm
                + weight_total services outside_ppm + demand) →
  ∃ r, capacity_constrained demand services outside_ppm version = Some r ∧
    requested r = None ∧ queued r = 0 ∧ map_sum (allocations r) = demand ∧
    (∀ o, o ∈ services →
      ∃ v, allocations r !! cid o = Some v ∧ 0 ≤ v ≤ available_capacity o).
Proof.
  intros Hv Hmk Hd Ho He. unfold capacity_constrained.
  rewrite (proj2 (Z.leb_gt 9 version)) by done.
  destruct (legacy_rounds_finish (S (length services)) demand (weight_total services outside_ppm)
    outside_ppm services ∅ demand) as (a & r & act & Hr & [_ Hl Hs Hp Hc _]); [| done | lia |].
  { split; try done; lia. }
  rewrite Hr. cbn [mbind option_bind].
  assert (Hcaps : ∀ o, o ∈ services → ∃ v, a !! cid o = Some v ∧ 0 ≤ v ≤ available_capacity o).
  { intros o Hin. destruct (Hc o Hin) as (v & Ev & Hle). specialize (Hp (cid o)).
    rewrite Ev in Hp. by exists v. }
  destruct (Z.ltb_spec 0 r) as [Hr0 | Hr0].
  2: { eexists. split; [done |]. simpl. repeat split; [lia | exact Hcaps]. }
  pose proof (map_sum_ge OUTSIDE_CID a Hp) as Hle. pose proof (Hp OUTSIDE_CID) as Hge.
  assert (0 ≤ weight_total services outside_ppm) as HW.
  { unfold weight_total. assert (0 ≤ sum_Z (share_ppm <$> services)); [| lia].
    apply sum_Z_nonneg, Forall_fmap, (mk_shares _ _ _ Hmk). }
  rewrite (proj2 (add_Some _ _ _)) by (split; [done |]; repeat split; exact_nia).
  eexists. split; [done |]. simpl. rewrite map_sum_insert. repeat split; [lia |].
  intros o Hin. rewrite lookup_insert_ne; [by apply Hcaps |].
  intros E. pose proof (mk_distinct _ _ _ Hmk) as [Hoc _]%NoDup_cons.
  apply Hoc. rewrite E. by apply list_elem_of_fmap_2.
Qed.

Lemma capacity_legacy_conserves_witness :
  let services := [MkCapacityOption "line:a" 500000 30; MkCapacityOption "line:b" 250000 1000] in
  ∃ r, capacity_constrained 100 services 250000 8 = Some r ∧
    requested r = None ∧ queued r = 0 ∧ map_sum (allocations r) = 100 ∧
    (∀ o, o ∈ services →
      ∃ v, allocations r !! cid o = Some v ∧ 0 ≤ v ≤ available_capacity o).
Proof.
  apply (capacity_legacy_conserves 100
    [MkCapacityOption "line:a" 500000 30; MkCapacityOption "line:b" 250000 1000] 250000 8).
  - lia.
  - constructor.
    + apply (bool_decide_unpack _). vm_compute. exact I.
    + repeat constructor; simpl; lia.
    + repeat constructor; simpl; try lia; vm_compute; discriminate.
    + lia.
    + vm_compute. reflexivity.
  - lia.
  - lia.
  - vm_compute. split; discriminate.
Defined.
