(* ===== verification/Feeder.v ===== *)
(** Feeder access ([crates/tpf3mp-canon/src/economy/feeder_access.rs]): a company's
    local road and tram lines make the stations they serve easier to reach for its
    own intercity services. *)
From S2P Require Import Prelude Economy.
From stdpp Require Import strings.
Local Open Scope Z_scope.

Definition CENTS_PER_ENDPOINT : Z := 150.
Definition FREQUENCY_CENT_SECONDS : Z := 90000.

Record FeederMarket := MkFeederMarket {
  kind : MarketKind;
  m_scope : option string;
  town_a : option string;
  town_b : option string;
}.

Record FeederService := MkFeederService {
  market_cid : string;
  company_cid : string;
  enabled : bool;
  capacity : Z;
  headway_seconds : Z;
  carrier : option string;
  s_scope : option string;
  endpoint_town_cids : option (list string);
  station_group_cids : option (list string);
}.

(** Best access per company, town and station group, in cents. *)
Abbreviation FeederIndex := (gmap string (gmap string (gmap string Z))).

Definition scope (market : FeederMarket) (service : FeederService) : option string :=
  match s_scope service with Some s => Some s | None => m_scope market end.

Definition endpoint_towns (market : FeederMarket) (service : FeederService) : option string * option string :=
  match endpoint_town_cids service with
  | Some towns => (towns !! 0%nat, towns !! 1%nat)
  | None => (town_a market, town_b market)
  end.

Definition is_cargo (k : MarketKind) : bool := match k with Cargo => true | _ => false end.

(** [BTreeSet]: the distinct station groups a service stops at, in order. *)
Definition groups_of (service : FeederService) : list string :=
  btree_strings (default [] (station_group_cids service)).

(** Whether a service can feed at all. *)
Definition feeds (market : FeederMarket) (service : FeederService) : bool :=
  negb (is_cargo (kind market) || negb (bool_decide (scope market service = Some "local")) || negb (enabled service) ||
        (capacity service <=? 0) || negb (bool_decide (carrier service = Some "ROAD") || bool_decide (carrier service = Some "TRAM"))).

Definition access_of (service : FeederService) : Z :=
  let frequency_cents := FREQUENCY_CENT_SECONDS / Z.max (headway_seconds service) 1 in
  Z.min (Z.min CENTS_PER_ENDPOINT (capacity service)) frequency_cents.

(** [entry(..).or_insert(access)], then the larger of the two. *)
Definition best_at (access : Z) (stations : gmap string Z) (group : string) : gmap string Z :=
  let best := default access (stations !! group) in <[group := Z.max best access]> stations.

(** What one service adds to the index. *)
Definition index_service (markets : gmap string FeederMarket) (index : FeederIndex) (service : FeederService) : FeederIndex :=
  match markets !! market_cid service with
  | None => index
  | Some market =>
      if negb (feeds market service) then index
      else
        let groups := groups_of service in
        let access := access_of service in
        match (endpoint_towns market service).1 with
        | Some town =>
            if negb (2 <=? length groups)%nat then index
            else if access <=? 0 then index
            else
              let towns := default ∅ (index !! company_cid service) in
              let stations := default ∅ (towns !! town) in
              <[company_cid service := <[town := foldl (best_at access) stations groups]> towns]> index
        | None => index
        end
  end.

(** The values of a [BTreeMap], in the order of its keys. *)
Definition values_of (services : gmap string FeederService) : list FeederService :=
  omap (λ cid, services !! cid) (btree_strings (map_to_list services).*1).

Definition build_index (markets : gmap string FeederMarket) (services : gmap string FeederService) : FeederIndex :=
  foldl (index_service markets) ∅ (values_of services).

Definition lookup_access (index : FeederIndex) (company : string) (town : option string) (group : string) : Z :=
  default 0 (town ← town; towns ← index !! company; stations ← towns !! town; stations !! group).

(** Lua's key for an endpoint already counted. *)
Definition seen_key (town : option string) (group : string) : string :=
  (default "nil" town +:+ String Ascii.zero "" +:+ group)%string.

(** The access of a corridor service in cents, and how many endpoints have some. *)
Definition cents (market : FeederMarket) (service : FeederService) (index : FeederIndex) : Z * Z :=
  if is_cargo (kind market) || negb (bool_decide (scope market service = Some "corridor")) then (0, 0)
  else
    let groups := default [] (station_group_cids service) in
    match head groups, last groups with
    | Some first_group, Some last_group =>
        if negb (2 <=? length groups)%nat then (0, 0)
        else
          let '(first_town, second_town) := endpoint_towns market service in
          let a1 := lookup_access index (company_cid service) first_town first_group in
          let a2 := lookup_access index (company_cid service) second_town last_group in
          let first_counts := 0 <? a1 in
          let second_counts := (0 <? a2) &&
            negb (first_counts && bool_decide (seen_key first_town first_group = seen_key second_town last_group)) in
          ((if first_counts then a1 else 0) + (if second_counts then a2 else 0),
           (if first_counts then 1 else 0) + (if second_counts then 1 else 0))
    | _, _ => (0, 0)
    end.

(** * What the index holds *)

(** [service] gives [access] at a station group of a town to its company. *)
Definition gives (markets : gmap string FeederMarket) (service : FeederService) (company town group : string) : bool :=
  match markets !! market_cid service with
  | None => false
  | Some market =>
      feeds market service && bool_decide (company_cid service = company) &&
      bool_decide ((endpoint_towns market service).1 = Some town) &&
      bool_decide (group ∈ groups_of service) && (2 <=? length (groups_of service))%nat && (0 <? access_of service)
  end.

Definition access_at (index : FeederIndex) (company town group : string) : option Z :=
  towns ← index !! company; stations ← towns !! town; stations !! group.

Lemma best_at_all access groups stations g :
  foldl (best_at access) stations groups !! g =
  if bool_decide (g ∈ groups) then Some (Z.max (default access (stations !! g)) access) else stations !! g.
Proof.
  revert stations. induction groups as [| g' groups IH]; intros stations; cbn [foldl]; [by rewrite bool_decide_false by set_solver |].
  rewrite IH. unfold best_at. cbv zeta. destruct (decide (g' = g)) as [-> | Hne].
  - rewrite (bool_decide_true (g ∈ g :: groups)) by set_solver. rewrite lookup_insert_eq. cbn.
    destruct (bool_decide _); [f_equal; lia | done].
  - rewrite lookup_insert_ne by done. case_bool_decide as H1; case_bool_decide as H2; set_solver.
Qed.

Lemma index_service_access markets index service company town group :
  access_at (index_service markets index service) company town group =
  if gives markets service company town group
  then Some (Z.max (default (access_of service) (access_at index company town group)) (access_of service))
  else access_at index company town group.
Proof.
  unfold index_service, gives. destruct (markets !! market_cid service) as [market |]; [| done].
  destruct (feeds market service); cbn [negb andb]; [| done].
  destruct ((endpoint_towns market service).1) as [t |]; cycle 1.
  { by rewrite (bool_decide_false (None = Some town)), andb_false_r by done. }
  destruct (2 <=? length (groups_of service))%nat; cbn [negb]; [| by rewrite !andb_false_r].
  rewrite Z.ltb_antisym. destruct (access_of service <=? 0); cbn [negb]; rewrite ?andb_false_r, ?andb_true_r; [done |].
  unfold access_at. destruct (decide (company_cid service = company)) as [-> | Hc].
  2: { rewrite bool_decide_false, lookup_insert_ne by done. done. }
  rewrite lookup_insert_eq, (bool_decide_true (company = company)) by done. cbn [mbind option_bind andb].
  destruct (decide (t = town)) as [-> | Ht].
  2: { rewrite bool_decide_false, lookup_insert_ne by congruence. destruct (index !! company) as [towns |]; cbn; by rewrite ?lookup_empty. }
  rewrite lookup_insert_eq, (bool_decide_true (Some town = Some town)) by done. cbn [mbind option_bind andb]. rewrite best_at_all.
  assert (default ∅ (default ∅ (index !! company) !! town) !! group = (index !! company ≫= λ towns, towns !! town ≫= λ stations, stations !! group)) as E.
  { destruct (index !! company) as [towns |]; cbn; [| by rewrite lookup_empty; cbn; rewrite lookup_empty].
    destruct (towns !! town); cbn; [done | by rewrite lookup_empty]. }
  by rewrite E.
Qed.

Lemma index_access markets services index company town group a :
  access_at (foldl (index_service markets) index services) company town group = Some a ↔
  (access_at index company town group = Some a ∨ ∃ s, s ∈ services ∧ gives markets s company town group = true ∧ access_of s = a) ∧
  (∀ b, access_at index company town group = Some b → b ≤ a) ∧
  (∀ s, s ∈ services → gives markets s company town group = true → access_of s ≤ a).
Proof.
  revert index. induction services as [| s services IH]; intros index; cbn [foldl].
  - split; [intros E; rewrite E; split; [by left |]; split; [by intros b [= <-] | by intros s ?%elem_of_nil] |].
    intros [[E | (s & ?%elem_of_nil & _)] _]; done.
  - rewrite IH, index_service_access. destruct (gives markets s company town group) eqn:Eg.
    + set (old := access_at index company town group). split.
      * intros (Hex & Hle & Hall). specialize (Hle _ eq_refl). split; [| split].
        -- destruct Hex as [[= <-] | (s' & Hs' & Hg' & Ha')]; [| right; exists s'; set_solver].
           destruct old as [b |]; cbn in *; [| right; exists s; rewrite Z.max_id; set_solver].
           destruct (Z.max_spec b (access_of s)) as [[_ ->] | [_ ->]]; [right; exists s; set_solver | by left].
        -- intros b Hb. rewrite Hb in Hle. cbn in Hle. lia.
        -- intros s' [-> | Hs']%elem_of_cons Hg'; [destruct old; cbn in Hle; lia | by apply Hall].
      * intros (Hex & Hle & Hall). pose proof (Hall s ltac:(set_solver) Eg) as Hs. split; [| split].
        -- destruct Hex as [E | (s' & [-> | Hs']%elem_of_cons & Hg' & Ha')].
           ++ left. rewrite E. cbn. f_equal. lia.
           ++ left. f_equal. destruct old as [b |]; cbn; [specialize (Hle b eq_refl); lia | lia].
           ++ right. by exists s'.
        -- intros b [= <-]. destruct old as [b |]; cbn; [specialize (Hle b eq_refl); lia | lia].
        -- intros s' Hs'. apply Hall. by right.
    + split.
      * intros (Hex & Hle & Hall). split; [| split; [done |]].
        -- destruct Hex as [| (s' & Hs' & Hg' & Ha')]; [by left | right; exists s'; set_solver].
        -- intros s' [-> | Hs']%elem_of_cons Hg'; [congruence | by apply Hall].
      * intros (Hex & Hle & Hall). split; [| split; [done |]].
        -- destruct Hex as [| (s' & [-> | Hs']%elem_of_cons & Hg' & Ha')]; [by left | congruence | right; by exists s'].
        -- intros s' Hs'. apply Hall. by right.
Qed.

Lemma elem_of_values services s : s ∈ values_of services ↔ ∃ cid, services !! cid = Some s.
Proof.
  unfold values_of. rewrite list_elem_of_omap. split.
  - intros (cid & _ & H). by exists cid.
  - intros [cid H]. exists cid. split; [| done]. apply elem_of_btree_strings, list_elem_of_fmap. exists (cid, s).
    split; [done |]. by apply elem_of_map_to_list.
Qed.

Lemma access_range markets s company town group :
  gives markets s company town group = true → 0 < access_of s ≤ CENTS_PER_ENDPOINT.
Proof.
  unfold gives. destruct (markets !! market_cid s); [| done]. rewrite !andb_true_iff, Z.ltb_lt. intros [_ H]. split; [done |].
  unfold access_of. lia.
Qed.

Lemma lookup_access_eq index company town group :
  lookup_access index company town group = default 0 (town ← town; access_at index company town group).
Proof. by destruct town. Qed.

(** Feeders never stack.  What the index holds for a company at a station of a
    town is the best access any one of its feeders gives there, between 1 and 150
    cents, and it holds nothing where no feeder gives any.  So a corridor service
    gains at most 150 cents for each of at most two endpoints, counts an endpoint
    exactly if it gains there, and gains nothing in a cargo market or outside a
    corridor. *)
Theorem feeder_best (markets : gmap string FeederMarket) (services : gmap string FeederService) :
  let index := build_index markets services in
  (∀ company town group a, access_at index company town group = Some a ↔
    (∃ cid s, services !! cid = Some s ∧ gives markets s company town group = true ∧ access_of s = a) ∧
    (∀ cid s, services !! cid = Some s → gives markets s company town group = true → access_of s ≤ a)) ∧
  (∀ company town group a, access_at index company town group = Some a → 0 < a ≤ CENTS_PER_ENDPOINT) ∧
  (∀ market service, let '(total, count) := cents market service index in
    0 ≤ count ≤ 2 ∧ count ≤ total ≤ CENTS_PER_ENDPOINT * count ∧
    (is_cargo (kind market) = true ∨ scope market service ≠ Some "corridor" → count = 0)).
Proof.
  intros index.
  assert (∀ company town group a, access_at index company town group = Some a ↔
    (∃ cid s, services !! cid = Some s ∧ gives markets s company town group = true ∧ access_of s = a) ∧
    (∀ cid s, services !! cid = Some s → gives markets s company town group = true → access_of s ≤ a)) as H.
  { intros company town group a. unfold index, build_index. rewrite index_access. split.
    - intros ([E | (s & [cid Hs]%elem_of_values & Hg & Ha)] & _ & Hall); [by unfold access_at in E; rewrite lookup_empty in E |].
      split; [by exists cid, s |]. intros cid' s' Hs' Hg'. apply Hall; [apply elem_of_values; by exists cid' | done].
    - intros [(cid & s & Hs & Hg & Ha) Hall]. split; [right; exists s; split; [apply elem_of_values; by exists cid | done] |].
      split; [intros b Hb; unfold access_at in Hb; by rewrite lookup_empty in Hb |].
      intros s' [cid' Hs']%elem_of_values Hg'. by eapply Hall. }
  assert (∀ company town group a, access_at index company town group = Some a → 0 < a ≤ CENTS_PER_ENDPOINT) as Hr.
  { intros company town group a [(cid & s & _ & Hg & <-) _]%H. by eapply access_range. }
  split; [done |]. split; [done |]. intros market service.
  assert (∀ company town group, 0 ≤ lookup_access index company town group ≤ CENTS_PER_ENDPOINT) as Hl.
  { intros company town group. rewrite lookup_access_eq. destruct town as [town |]; cbn; [| unfold CENTS_PER_ENDPOINT; lia].
    destruct (access_at index company town group) eqn:E; cbn; [apply Hr in E; lia | unfold CENTS_PER_ENDPOINT; lia]. }
  unfold cents. destruct (is_cargo (kind market)) eqn:Ec; cbn [orb]; [cbn; unfold CENTS_PER_ENDPOINT; lia |].
  case_bool_decide as Es; cbn [negb]; [| unfold CENTS_PER_ENDPOINT; lia].
  assert (false = true ∨ scope market service ≠ Some "corridor" → False) as Hno by (intros [|]; congruence).
  cbv zeta. set (groups := default [] (station_group_cids service)).
  destruct (head groups), (last groups); try (unfold CENTS_PER_ENDPOINT; lia).
  destruct (negb _); [unfold CENTS_PER_ENDPOINT; lia |]. destruct (endpoint_towns market service) as [t1 t2]. cbv zeta.
  match goal with |- context [lookup_access index ?c t1 ?g] => pose proof (Hl c t1 g); set (a1 := lookup_access index c t1 g) in * end.
  match goal with |- context [lookup_access index ?c t2 ?g] => pose proof (Hl c t2 g); set (a2 := lookup_access index c t2 g) in * end.
  destruct (Z.ltb_spec 0 a1), (Z.ltb_spec 0 a2); cbn [andb negb]; try destruct (bool_decide _); cbn [negb];
    (split; [lia |]; split; [lia |]; intros ?%Hno; done).
Qed.
