(* ===== verification/Proto.v ===== *)
(** The wire protocol ([crates/tpf3mp-proto], [crates/tpf3mp-net/src/io.rs]):
    the messages the server and the agents exchange, the stream preamble and
    the frames that carry messages, with the round trip of both.

    A fixed-size byte array is the number its bytes spell, most significant
    byte first, so that its order is the array's; a byte string is a list of
    bytes; text is its UTF-8 bytes. *)
From S2P Require Import Prelude.
Local Open Scope Z_scope.

(** * Identifiers *)
Abbreviation PlayerId := Z (only parsing).
Abbreviation RoomId := Z (only parsing).
Abbreviation SessionId := Z (only parsing).
Abbreviation Digest := Z (only parsing).
Abbreviation SnapshotId := Z (only parsing).
Abbreviation ContentFingerprint := Z (only parsing).
Abbreviation Payload := (list Z) (only parsing).
Abbreviation Text := string (only parsing).

(** * Platforms *)
Inductive Os := Windows | Linux | MacOs | OtherOs.
Inductive Arch := X86_64 | Aarch64 | OtherArch.
Record Platform := MkPlatform { os : Os; arch : Arch }.

#[export] Instance Os_eq_dec : EqDecision Os.
Proof. solve_decision. Defined.
#[export] Instance Arch_eq_dec : EqDecision Arch.
Proof. solve_decision. Defined.
#[export] Instance Platform_eq_dec : EqDecision Platform.
Proof. solve_decision. Defined.

(** * Speeds and settings *)

(** Session speed in percent of normal. *)
Abbreviation Speed := Z (only parsing).
Definition PAUSED : Speed := 0.
Definition NORMAL : Speed := 100.
Definition MAX_SPEED : Speed := 1600.
Definition is_paused (speed : Speed) : bool := speed =? 0.

Record RoomSettings := MkRoomSettings {
  steps_per_second : Z;
  input_delay_ms : Z;
  checkpoint_interval : Z;
}.

Definition DEFAULT_SETTINGS : RoomSettings := MkRoomSettings 5 250 50.

Definition contains_incl (low high z : Z) : bool := (low <=? z) && (z <=? high).

Definition settings_valid (s : RoomSettings) : bool :=
  contains_incl 1 240 (steps_per_second s)
  && contains_incl 20 2000 (input_delay_ms s)
  && contains_incl 1 1000000 (checkpoint_interval s).

Definition MAX_ROOM_MEMBERS : Z := 64.
Definition MAX_CHECKPOINT_LANES : Z := 32.
Definition MAX_PAYLOAD : Z := 48 * 1024.

(** * Messages on the turn stream *)
Inductive EventBody :=
  | Command (player : PlayerId) (client_seq : Z) (payload : Payload)
  | PlayerJoined (player : PlayerId) (name : Text) (platform : Platform)
  | PlayerLeft (player : PlayerId) (kicked : bool)
  | SaveWorld.

Record Event := MkEvent { seq : Z; step : Z; body : EventBody }.

Record Turn := MkTurn {
  number : Z;
  turn_sealed_through : Z;
  turn_speed : Speed;
  events : list Event;
}.

Record WorldOffer := MkWorldOffer { offer_snapshot : SnapshotId; offer_size : Z }.
Record SavedWorld := MkSavedWorld { saved_snapshot : SnapshotId; saved_size : Z }.

Record TurnStart := MkTurnStart {
  start_room : RoomId;
  start_rules : Text;
  start_next_turn : Z;
  start_next_event : Z;
  start_sealed_through : Z;
  start_steps_per_second : Z;
  start_checkpoint_interval : Z;
  start_history : Z;
  start_world : option WorldOffer;
}.

Inductive TurnMessage :=
  | Start (start : TurnStart)
  | TurnOf (turn : Turn).

(** * Messages on the control stream *)
Record Resume := MkResume { after_turn : Z; history_id : Z }.

Inductive RequestError :=
  | AlreadyInRoom | NotInRoom | BadInvite | RoomFull | NotOwner | NotAllReady
  | ContentMismatch | GameRunning | GameNotRunning | InvalidSettings | TooManyRooms
  | ResumeUnavailable | RequestRateLimited | NoSuchPlayer | CannotKickSelf | UnknownRules.

Inductive IntentRejection :=
  | RejectedGameNotRunning
  | RejectedRateLimited
  | Refused (code : Z).

Record LaneDigest := MkLaneDigest { lane : Z; digest : Digest }.

Inductive RoomPhase := PhaseLobby | PhaseRunning.

Record MemberView := MkMemberView {
  view_player : PlayerId;
  view_name : Text;
  view_platform : Platform;
  view_ready : bool;
  view_content : option ContentFingerprint;
  view_connected : bool;
}.

Record RoomView := MkRoomView {
  view_id : RoomId;
  view_room_name : Text;
  view_rules : Text;
  view_owner : PlayerId;
  view_max_players : Z;
  view_has_password : bool;
  view_phase : RoomPhase;
  view_settings : RoomSettings;
  view_members : list MemberView;
}.

Record Invite := MkInvite { invite_room : RoomId; invite_token : Z }.

Record Hello := MkHello {
  client_version : Text;
  hello_platform : Platform;
  hello_name : Text;
  identity : PlayerId;
  proof : Z;
}.

Record CreateRoom := MkCreateRoom {
  create_name : Text;
  create_max_players : Z;
  create_password : option Text;
  create_settings : RoomSettings;
  create_rules : option Text;
}.

Record JoinRoom := MkJoinRoom {
  join_invite : Invite;
  join_password : option Text;
  join_resume : option Resume;
  join_content : option ContentFingerprint;
}.

Inductive Request :=
  | RequestCreate (create : CreateRoom)
  | RequestJoin (join : JoinRoom)
  | RequestLeave
  | RequestReady (ready : bool)
  | RequestContent (content : ContentFingerprint)
  | RequestStart
  | RequestSpeed (speed : Speed)
  | RequestKick (target : PlayerId)
  | RequestChat (text : Text).

Inductive GameMessage :=
  | GameIntent (client_seq : Z) (payload : Payload)
  | GameProgress (step : Z)
  | GameCheckpoint (step : Z) (lanes : list LaneDigest)
  | GameSaved (event : Z) (lanes : list LaneDigest) (world : option SavedWorld).

Inductive ClientMessage :=
  | ClientHello (hello : Hello)
  | ClientRequest (id : Z) (request : Request)
  | ClientGame (message : GameMessage).

Inductive RejectReason := ServerFull | BadProof | TooManyConnections.

Inductive Response :=
  | RoomCreated (invite : Invite) (room : RoomView)
  | RoomJoined (view : RoomView)
  | Done.

Inductive ServerMessage :=
  | Welcome (server_version : Text) (session_id : SessionId) (rules : list (Text * Text))
  | Reject (reason : RejectReason)
  | ResponseTo (id : Z) (result : result Response RequestError)
  | RoomUpdate (view : RoomView)
  | IntentRejected (client_seq : Z) (reason : IntentRejection)
  | Diverged (diverged_step : Z) (diverged_lanes : list Z)
  | Kicked
  | UploadRequest (event : Z) (snapshot : SnapshotId)
  | Chat (from : PlayerId) (text : Text).

#[export] Instance EventBody_eq_dec : EqDecision EventBody.
Proof. solve_decision. Defined.
#[export] Instance Event_eq_dec : EqDecision Event.
Proof. solve_decision. Defined.
#[export] Instance Turn_eq_dec : EqDecision Turn.
Proof. solve_decision. Defined.
#[export] Instance RequestError_eq_dec : EqDecision RequestError.
Proof. solve_decision. Defined.
#[export] Instance LaneDigest_eq_dec : EqDecision LaneDigest.
Proof. solve_decision. Defined.

(** * Little-endian integers *)

(** [to_le_bytes] and [from_le_bytes] of an [n]-byte unsigned integer. *)
Fixpoint to_le_bytes (n : nat) (z : Z) : list Z :=
  match n with
  | O => []
  | S n' => z mod 256 :: to_le_bytes n' (z / 256)
  end.

Fixpoint from_le_bytes (bytes : list Z) : Z :=
  match bytes with
  | [] => 0
  | b :: bytes' => b + 256 * from_le_bytes bytes'
  end.

(** [FixedBytes]: the bytes of an [n]-byte array, most significant first, and the
    array some bytes make. *)
Definition fixed_bytes (n : nat) (z : Z) : list Z := rev (to_le_bytes n z).
Definition from_fixed (bytes : list Z) : Z := from_le_bytes (rev bytes).

Lemma to_le_bytes_length n z : length (to_le_bytes n z) = n.
Proof. revert z. induction n as [| n IH]; intros z; simpl; [done | by rewrite IH]. Qed.

Lemma le_bytes_roundtrip n z :
  0 ≤ z < 256 ^ Z.of_nat n → from_le_bytes (to_le_bytes n z) = z.
Proof.
  revert z. induction n as [| n IH]; intros z Hz; simpl; [simpl in Hz; lia |].
  rewrite Nat2Z.inj_succ, Z.pow_succ_r in Hz by lia.
  rewrite IH; [pose proof (Z.div_mod z 256); lia |].
  split; [apply Z.div_pos; lia | apply Z.div_lt_upper_bound; lia].
Qed.

(** * The preamble *)

(** "TPF3MP". *)
Definition MAGIC : list Z := [84; 80; 70; 51; 77; 80].
Definition PROTOCOL_VERSION : Z := 2.
Definition PREAMBLE_LEN : nat := length MAGIC + 4.

Inductive PreambleError := BadMagic.

Definition encode_preamble (version : Z) : list Z := MAGIC ++ to_le_bytes 4 version.

Definition decode_preamble (bytes : list Z) : result Z PreambleError :=
  let magic := take (length MAGIC) bytes in
  let version := drop (length MAGIC) bytes in
  if negb (bool_decide (magic = MAGIC)) then Err BadMagic
  else Ok (from_le_bytes version).

(** * Frames *)
Definition CONTROL_MAX_FRAME : Z := 64 * 1024.
Definition TURN_MAX_FRAME : Z := 1024 * 1024.
Definition FRAME_HEADER_LEN : nat := 4.

(** Postcard, the encoding of messages, is outside this repository: what the
    code calls of it, and what it relies on. *)
Class Postcard (T : Type) := {
  to_stdvec : T → option (list Z);
  take_from_bytes : list Z → option (T * list Z);
}.

(** A decoder consumes exactly what the encoder wrote. *)
Class PostcardLaws (T : Type) {P : Postcard T} := {
  postcard_roundtrip (m : T) (bytes rest : list Z) :
    to_stdvec m = Some bytes → take_from_bytes (bytes ++ rest) = Some (m, rest);
  postcard_nonempty (m : T) (bytes : list Z) : to_stdvec m = Some bytes → bytes ≠ [];
}.

Inductive FrameError :=
  | TooLarge (len max : Z)
  | Empty
  | Malformed
  | TrailingBytes (count : Z).

Section frames.
Context {T : Type} {P : Postcard T}.

Definition encode_frame (message : T) (max : Z) : result (list Z) FrameError :=
  let? payload := ok_or (to_stdvec message) Malformed in
  let len := Z.of_nat (length payload) in
  if max <? len then Err (TooLarge len max)
  else if u32_max <? len then Err (TooLarge len max)
  else Ok (to_le_bytes 4 len ++ payload).

Definition frame_len (header : list Z) (max : Z) : result Z FrameError :=
  let len := from_le_bytes header in
  if len =? 0 then Err Empty
  else if max <? len then Err (TooLarge len max)
  else Ok len.

Definition decode_frame (payload : list Z) : result T FrameError :=
  match take_from_bytes payload with
  | None => Err Malformed
  | Some (message, rest) =>
      if negb (bool_decide (rest = [])) then Err (TrailingBytes (Z.of_nat (length rest)))
      else Ok message
  end.

End frames.

(** * Reading from a stream

    A receive stream is the bytes that will still arrive before its end. *)
Inductive NetError :=
  | Read
  | FrameErr (e : FrameError)
  | PreambleErr (e : PreambleError).

Definition is_disconnect (e : NetError) : bool :=
  match e with Read => true | _ => false end.

Definition map_err {A E F : Type} (f : E → F) (r : result A E) : result A F :=
  match r with Ok a => Ok a | Err e => Err (f e) end.

(** [read_exact]: the next [n] bytes, or an error if the stream ends first. *)
Definition read_exact (n : nat) (recv : list Z) : result (list Z * list Z) NetError :=
  if decide (n ≤ length recv)%nat then Ok (take n recv, drop n recv) else Err Read.

Definition read_preamble (recv : list Z) : result (Z * list Z) NetError :=
  let? (bytes, recv) := read_exact PREAMBLE_LEN recv in
  let? version := map_err PreambleErr (decode_preamble bytes) in
  Ok (version, recv).

Definition read_message {T} {P : Postcard T} (max : Z) (recv : list Z) :
    result (T * list Z) NetError :=
  let? (header, recv) := read_exact FRAME_HEADER_LEN recv in
  let? len := map_err FrameErr (frame_len header max) in
  let? (payload, recv) := read_exact (Z.to_nat len) recv in
  let? message := map_err FrameErr (decode_frame payload) in
  Ok (message, recv).

Lemma read_exact_app n front recv :
  length front = n → read_exact n (front ++ recv) = Ok (front, recv).
Proof.
  intros <-. unfold read_exact. rewrite decide_True by (rewrite length_app; lia).
  by rewrite take_app_length, drop_app_length.
Qed.

(** A reader finds the version its peer wrote, for every version a
    preamble can carry and whatever follows on the stream. *)
Theorem preamble_roundtrip (version : Z) (rest : list Z) :
  is_u32 version → read_preamble (encode_preamble version ++ rest) = Ok (version, rest).
Proof.
  intros Hv. unfold read_preamble.
  rewrite read_exact_app by (unfold encode_preamble; by rewrite length_app, to_le_bytes_length).
  cbn [result_bind]. unfold decode_preamble, encode_preamble.
  rewrite take_app_length, drop_app_length, bool_decide_true by done. cbn [negb map_err result_bind].
  rewrite le_bytes_roundtrip; [done | range_lia].
Qed.

Lemma preamble_roundtrip_witness :
  read_preamble (encode_preamble PROTOCOL_VERSION ++ [1; 2]) = Ok (PROTOCOL_VERSION, [1; 2]).
Proof. apply (preamble_roundtrip PROTOCOL_VERSION [1; 2]). vm_compute. by split. Defined.

Section frame_roundtrip.
Context {T : Type} {P : Postcard T} {L : PostcardLaws T}.

Lemma encode_frame_Ok (m : T) max frame :
  encode_frame m max = Ok frame ↔
  ∃ payload, to_stdvec m = Some payload ∧ Z.of_nat (length payload) ≤ Z.min max u32_max ∧
    frame = to_le_bytes 4 (Z.of_nat (length payload)) ++ payload.
Proof.
  unfold encode_frame. destruct (to_stdvec m) as [payload |]; cbn [ok_or result_bind]; [| naive_solver].
  destruct (Z.ltb_spec max (Z.of_nat (length payload)));
    [| destruct (Z.ltb_spec u32_max (Z.of_nat (length payload)))]; naive_solver lia.
Qed.

Lemma encode_frame_drop (m : T) max frame :
  encode_frame m max = Ok frame → to_stdvec m = Some (drop FRAME_HEADER_LEN frame).
Proof.
  intros (payload & Hp & _ & ->)%encode_frame_Ok.
  by rewrite drop_app_length' by (by rewrite to_le_bytes_length).
Qed.

Lemma decode_frame_encoded (m : T) payload :
  to_stdvec m = Some payload → decode_frame payload = Ok m.
Proof.
  intros Hm. unfold decode_frame.
  rewrite <- (app_nil_r payload), (postcard_roundtrip m payload []) by done.
  by rewrite bool_decide_true.
Qed.

(** A frame as the room log and the turn stream hold it decodes to its
    message. *)
Lemma decode_frame_drop (m : T) max frame :
  encode_frame m max = Ok frame → decode_frame (drop FRAME_HEADER_LEN frame) = Ok m.
Proof. intros. by eapply decode_frame_encoded, encode_frame_drop. Qed.

Lemma read_message_encoded (m : T) max frame rest :
  encode_frame m max = Ok frame → read_message max (frame ++ rest) = Ok (m, rest).
Proof.
  intros (payload & Hm & Hlen & ->)%encode_frame_Ok. unfold read_message.
  rewrite <- (app_assoc (to_le_bytes 4 _)), read_exact_app by apply to_le_bytes_length.
  cbn [result_bind]. unfold frame_len. rewrite le_bytes_roundtrip by range_lia.
  assert (length payload ≠ 0)%nat by (intros E; by apply (postcard_nonempty m payload Hm), length_zero_iff_nil).
  destruct (Z.eqb_spec (Z.of_nat (length payload)) 0); [lia |].
  destruct (Z.ltb_spec max (Z.of_nat (length payload))); [lia |]. cbn [map_err result_bind].
  rewrite read_exact_app by (by rewrite Nat2Z.id). cbn [result_bind].
  by rewrite (decode_frame_encoded m).
Qed.

End frame_roundtrip.

(** Reads [n] messages, one after the other. *)
Fixpoint read_messages {T} {P : Postcard T} (n : nat) (max : Z) (recv : list Z) :
    result (list T * list Z) NetError :=
  match n with
  | O => Ok ([], recv)
  | S n' =>
      let? (message, recv) := read_message max recv in
      let? (messages, recv) := read_messages n' max recv in
      Ok (message :: messages, recv)
  end.

(** Messages written to a stream one frame after another are read back
    in order, exactly, with whatever follows left unread: frames need no other
    delimiter. *)
Theorem frames_roundtrip {T} {P : Postcard T} (L : PostcardLaws T)
    (max : Z) (messages : list T) (frames : list (list Z)) (rest : list Z) :
  Forall2 (λ m frame, encode_frame m max = Ok frame) messages frames →
  read_messages (length messages) max (concat frames ++ rest) = Ok (messages, rest).
Proof.
  induction 1 as [| m frame messages frames Hm Hms IH]; [done |].
  cbn [length read_messages concat]. rewrite <- app_assoc.
  rewrite (read_message_encoded m max frame _ Hm). cbn [result_bind].
  rewrite IH. done.
Qed.

(** A concrete encoding: a message that is one byte, and its witness of the
    laws. *)
Module ByteMessage.
#[local] Instance byte_postcard : Postcard Z := {
  to_stdvec m := Some [m];
  take_from_bytes bytes := match bytes with [] => None | b :: rest => Some (b, rest) end;
}.
#[local] Instance byte_postcard_laws : PostcardLaws Z.
Proof. split; intros m bytes; [intros rest |]; by intros [= <-]. Qed.

Lemma frames_roundtrip_witness :
  read_messages 2 8 (concat [[1; 0; 0; 0; 5]; [1; 0; 0; 0; 9]] ++ [7]) = Ok ([5; 9], [7]).
Proof. apply (frames_roundtrip byte_postcard_laws 8 [5; 9]). repeat constructor. Defined.
End ByteMessage.
