(* ===== verification/Chars.v ===== *)
(** Rust's text, as the list of its characters, each a code point. *)
From S2P Require Import Prelude.
From stdpp Require Import strings.
Local Open Scope Z_scope.

Abbreviation Chars := (list Z).

Definition chars (s : string) : Chars := (λ a, Z.of_N (Ascii.N_of_ascii a)) <$> String.list_ascii_of_string s.

(** [char::is_whitespace]. *)
Definition is_whitespace (c : Z) : bool :=
  ((9 <=? c) && (c <=? 13)) || (c =? 32) || (c =? 133) || (c =? 160) || (c =? 5760) ||
  ((8192 <=? c) && (c <=? 8202)) || (c =? 8232) || (c =? 8233) || (c =? 8239) || (c =? 8287) || (c =? 12288).

(** [str::split_whitespace]; [word] is what was read of the next word. *)
Fixpoint split_from (word : Chars) (text : Chars) : list Chars :=
  match text with
  | [] => if bool_decide (word = []) then [] else [word]
  | c :: text =>
      if is_whitespace c
      then if bool_decide (word = []) then split_from [] text else word :: split_from [] text
      else split_from (word ++ [c]) text
  end.
Definition split_whitespace (text : Chars) : list Chars := split_from [] text.

(** The bytes of a character in UTF-8, and of a text ([str::len]). *)
Definition utf8_len (c : Z) : nat := if c <? 128 then 1 else if c <? 2048 then 2 else if c <? 65536 then 3 else 4.
Definition str_len (text : Chars) : nat := foldr (λ c n, (utf8_len c + n)%nat) 0%nat text.

(** A digit of [{:x}] and [{:X}]. *)
Definition hex_low (d : Z) : Z := if d <? 10 then 48 + d else 87 + d.
Definition hex_high (d : Z) : Z := if d <? 10 then 48 + d else 55 + d.

(** [char::is_control]: the category Cc. *)
Definition is_control (c : Z) : bool := ((0 <=? c) && (c <=? 31)) || ((127 <=? c) && (c <=? 159)).

(** [str::trim]. *)
Fixpoint trim_start (text : Chars) : Chars :=
  match text with
  | [] => []
  | c :: rest => if is_whitespace c then trim_start rest else text
  end.
Definition trim (text : Chars) : Chars := rev (trim_start (rev (trim_start text))).

(** [str::strip_prefix]. *)
Fixpoint without_prefix (prefix text : Chars) : option Chars :=
  match prefix, text with
  | [], _ => Some text
  | p :: prefix, c :: text => if p =? c then without_prefix prefix text else None
  | _ :: _, [] => None
  end.

(** A character in UTF-8, and [str::as_bytes]. *)
Definition utf8 (c : Z) : list Z :=
  if c <? 128 then [c]
  else if c <? 2048 then [192 + c / 64; 128 + c mod 64]
  else if c <? 65536 then [224 + c / 4096; 128 + c / 64 mod 64; 128 + c mod 64]
  else [240 + c / 262144; 128 + c / 4096 mod 64; 128 + c / 64 mod 64; 128 + c mod 64].
Definition as_bytes (text : Chars) : list Z := text ≫= utf8.

(** [str::is_char_boundary]: whether a character starts, or the text ends, at a byte. *)
Fixpoint is_char_boundary (text : Chars) (i : nat) : bool :=
  match i, text with
  | O, _ => true
  | _, [] => false
  | _, c :: text => (utf8_len c <=? i)%nat && is_char_boundary text (i - utf8_len c)
  end.

(** [String::truncate], at a boundary. *)
Fixpoint truncate (text : Chars) (i : nat) : Chars :=
  match text with
  | [] => []
  | c :: rest => if (utf8_len c <=? i)%nat then c :: truncate rest (i - utf8_len c) else []
  end.
