(* ===== verification/Ident.v ===== *)
(** Names and text that people pass around ([crates/tpf3mp-proto/src/text.rs],
    [ids.rs], [bytes.rs], [crates/tpf3mp-snapshot/src/id.rs]): bounded text, the
    hexadecimal names of chunks and snapshots, and invites.

    An id of [n] bytes is a number below [256 ^ n], its bytes most significant first
    ([fixed_bytes]).  Base64 is third-party code: a record of its two functions, with
    what the crate documents of the alphabet without padding ([base64_laws]). *)
From S2P Require Import Prelude Proto Chars.
From stdpp Require Import strings.
Local Open Scope Z_scope.

(** * Text *)
Inductive TextError := TextTooLong (len max : nat) | ControlCharacter.

(** [Text::new], for a text of at most [max] bytes. *)
Definition Text_new (max : nat) (value : Chars) : result Chars TextError :=
  if (max <? str_len value)%nat then Err (TextTooLong (str_len value) max)
  else if existsb is_control value then Err ControlCharacter
  else Ok value.

(** The last boundary at or before a byte. *)
Fixpoint floor_boundary (text : Chars) (end_ : nat) : nat :=
  if is_char_boundary text end_ then end_
  else match end_ with O => 0%nat | S n => floor_boundary text n end.

Definition lossy (max : nat) (value : Chars) : Chars :=
  let text := (λ c, if is_control c then 32 else c) <$> value in
  if (max <? str_len text)%nat then truncate text (floor_boundary text max) else text.

(** * Payloads *)
Definition Payload_new (bytes : list Z) : result Payload Z :=
  if MAX_PAYLOAD <? Z.of_nat (length bytes) then Err (Z.of_nat (length bytes)) else Ok bytes.

(** * Hexadecimal *)
Definition write_hex (bytes : list Z) : Chars := bytes ≫= λ b, [hex_low (b / 16); hex_low (b mod 16)].

Definition hex_value (digit : Z) : option Z :=
  if (48 <=? digit) && (digit <=? 57) then Some (digit - 48)
  else if (97 <=? digit) && (digit <=? 102) then Some (digit - 97 + 10)
  else None.

Fixpoint parse_pairs (digits : list Z) : option (list Z) :=
  match digits with
  | high :: low :: rest =>
      match hex_value high, hex_value low with
      | Some h, Some l => cons (Z.lor (Z.shiftl h 4) l) <$> parse_pairs rest
      | _, _ => None
      end
  | _ => Some []
  end.

Definition parse_hex (text : Chars) : option (list Z) :=
  let digits := as_bytes text in
  if negb (length digits =? 64)%nat then None else parse_pairs digits.

(** [from_hex] and [Display] of a name: [ChunkId], [FileHash], [ManifestId]. *)
Definition from_hex (text : Chars) : option Z := from_fixed <$> parse_hex text.
Definition name_text (name : Z) : Chars := write_hex (fixed_bytes 32 name).

(** [Display] of a session, a room and, shortened, a player. *)
Definition session_text (id : Z) : Chars := chars "s-" ++ write_hex (fixed_bytes 16 id).
Definition room_text (id : RoomId) : Chars := chars "r-" ++ write_hex (fixed_bytes 16 id).
Definition player_text (id : PlayerId) : Chars := chars "p-" ++ write_hex (firstn 8 (fixed_bytes 32 id)).

(** * Invites *)
Definition INVITE_PREFIX : Chars := chars "TPF3MP1.".
Definition INVITE_BYTES : nat := 16 + 32.

Inductive InviteError := InvitePrefix | InviteMalformed.

Record Base64 := MkBase64 {
  encode64 : list Z → Chars;
  decode64 : Chars → option (list Z);
}.

Section invite.
Context (B : Base64).

(** [Display] of an invite. *)
Definition invite_text (i : Invite) : Chars :=
  INVITE_PREFIX ++ encode64 B (fixed_bytes 16 (invite_room i) ++ fixed_bytes 32 (invite_token i)).

(** [FromStr]. *)
Definition invite_from_str (text : Chars) : result Invite InviteError :=
  let? encoded := ok_or (without_prefix INVITE_PREFIX (trim text)) InvitePrefix in
  let? decoded := ok_or (decode64 B encoded) InviteMalformed in
  if negb (length decoded =? INVITE_BYTES)%nat then Err InviteMalformed
  else Ok (MkInvite (from_fixed (firstn 16 decoded)) (from_fixed (skipn 16 decoded))).
End invite.

(** * What holds of them *)
Definition is_byte (b : Z) : Prop := 0 ≤ b < 256.

(** ** Bytes of ids *)
Lemma le_bytes_bytes n z : Forall is_byte (to_le_bytes n z).
Proof. revert z. induction n as [| n IH]; intros z; cbn; constructor; [apply Z.mod_pos_bound; lia | apply IH]. Qed.

Lemma from_le_range bytes : Forall is_byte bytes → 0 ≤ from_le_bytes bytes < 256 ^ Z.of_nat (length bytes).
Proof.
  induction 1 as [| b bytes Hb _ IH]; cbn -[Z.of_nat]; [done |]. rewrite Nat2Z.inj_succ, Z.pow_succ_r by lia.
  unfold is_byte in Hb. lia.
Qed.

Lemma le_bytes_made bytes : Forall is_byte bytes → to_le_bytes (length bytes) (from_le_bytes bytes) = bytes.
Proof.
  unfold is_byte. induction 1 as [| b bytes Hb _ IH]; cbn; [done |]. f_equal.
  - rewrite Z.mul_comm, Z_mod_plus by lia. by apply Z.mod_small.
  - rewrite Z.mul_comm, Z.div_add, Z.div_small by lia. exact IH.
Qed.

Lemma fixed_length n z : length (fixed_bytes n z) = n.
Proof. unfold fixed_bytes. by rewrite length_rev, to_le_bytes_length. Qed.

Lemma fixed_bytes_bytes n z : Forall is_byte (fixed_bytes n z).
Proof. apply Forall_rev, le_bytes_bytes. Qed.

Lemma fixed_roundtrip n z : 0 ≤ z < 256 ^ Z.of_nat n → from_fixed (fixed_bytes n z) = z.
Proof. unfold from_fixed, fixed_bytes. rewrite rev_involutive. apply le_bytes_roundtrip. Qed.

Lemma fixed_made n bytes : length bytes = n → Forall is_byte bytes →
  0 ≤ from_fixed bytes < 256 ^ Z.of_nat n ∧ fixed_bytes n (from_fixed bytes) = bytes.
Proof.
  intros <- Hb. apply Forall_rev in Hb. unfold from_fixed, fixed_bytes. split.
  - rewrite <- (length_rev bytes). by apply from_le_range.
  - rewrite <- (length_rev bytes), le_bytes_made by done. apply rev_involutive.
Qed.

(** ** Hexadecimal *)
Lemma hex_value_Some d v : hex_value d = Some v ↔ 0 ≤ v < 16 ∧ d = hex_low v.
Proof.
  unfold hex_value, hex_low. split.
  - repeat case_match; intros; simplify_eq; rewrite ?andb_true_iff, ?andb_false_iff, ?Z.leb_le, ?Z.leb_gt in *;
      split; try lia; case_match; rewrite ?Z.ltb_lt, ?Z.ltb_ge in *; lia.
  - intros [Hv ->]. repeat case_match; rewrite ?andb_true_iff, ?andb_false_iff, ?Z.leb_le, ?Z.leb_gt, ?Z.ltb_lt, ?Z.ltb_ge in *;
      try (f_equal; lia); lia.
Qed.

Lemma nibbles_byte h l : 0 ≤ h < 16 → 0 ≤ l < 16 → Z.lor (Z.shiftl h 4) l = 16 * h + l.
Proof.
  intros Hh Hl. rewrite Z.shiftl_mul_pow2 by lia. pose proof (Z.add_lor_land (h * 2 ^ 4) l) as E.
  enough (Z.land (h * 2 ^ 4) l = 0) by lia. clear E.
  apply Z.bits_inj'. intros i Hi. rewrite Z.land_spec, Z.bits_0.
  destruct (decide (i < 4)); [by rewrite Z.mul_pow2_bits_low | rewrite (Z.bits_above_log2 l), andb_false_r; [done | lia |]].
  destruct (decide (l = 0)) as [-> |]; [cbn; lia |]. apply Z.log2_lt_pow2; [lia |].
  assert (2 ^ 4 ≤ 2 ^ i) by (apply Z.pow_le_mono_r; lia). lia.
Qed.

Lemma parse_pairs_write bytes : Forall is_byte bytes → parse_pairs (write_hex bytes) = Some bytes.
Proof.
  unfold is_byte. induction 1 as [| b bytes Hb _ IH]; [done |].
  assert (0 ≤ b / 16 < 16 ∧ 0 ≤ b mod 16 < 16 ∧ b = 16 * (b / 16) + b mod 16) as (H1 & H2 & H3).
  { split; [split; [apply Z.div_pos | apply Z.div_lt_upper_bound]; lia |]. split; [apply Z.mod_pos_bound; lia |].
    apply Z.div_mod. lia. }
  unfold write_hex in *. cbn [mbind list_bind app parse_pairs].
  rewrite (proj2 (hex_value_Some _ _) (conj H1 eq_refl)), (proj2 (hex_value_Some _ _) (conj H2 eq_refl)), IH.
  cbn. by rewrite nibbles_byte, <- H3.
Qed.

Lemma parse_pairs_Some n digits bytes :
  length digits = (2 * n)%nat → parse_pairs digits = Some bytes →
  length bytes = n ∧ Forall is_byte bytes ∧ digits = write_hex bytes.
Proof.
  revert digits bytes. induction n as [| n IH]; intros digits bytes Hn H.
  { destruct digits; [| done]. cbn in H. by simplify_eq. }
  destruct digits as [| h [| l digits]]; [done | cbn in Hn; lia |]. cbn [parse_pairs] in H.
  destruct (hex_value h) as [vh |] eqn:Eh, (hex_value l) as [vl |] eqn:El; try done.
  apply hex_value_Some in Eh as [Hh ->], El as [Hl ->]. apply fmap_Some in H as (rest & Hr & ->).
  apply IH in Hr as (<- & Hb & ->); [| cbn in Hn; lia]. rewrite nibbles_byte by done. split; [done |]. split.
  - constructor; [unfold is_byte; lia | done].
  - unfold write_hex. cbn [mbind list_bind app]. do 2 f_equal; [f_equal | f_equal].
    + rewrite Z.mul_comm, Z.div_add_l, Z.div_small by lia. lia.
    + f_equal. rewrite Z.add_comm, Z.mul_comm, Z_mod_plus, Z.mod_small by lia. done.
Qed.

Lemma write_hex_length bytes : length (write_hex bytes) = (2 * length bytes)%nat.
Proof. induction bytes as [| b bytes IH]; [done |]. unfold write_hex in *. cbn. rewrite IH. lia. Qed.

Lemma utf8_high c : 128 ≤ c → Forall (λ b, 128 ≤ b) (utf8 c).
Proof.
  intros Hc. unfold utf8. destruct (Z.ltb_spec c 128); [lia |].
  assert (∀ k, 0 < k → 0 ≤ c / k) as Hd by (intros; apply Z.div_pos; lia).
  pose proof (Hd 64 ltac:(lia)). pose proof (Hd 4096 ltac:(lia)). pose proof (Hd 262144 ltac:(lia)).
  pose proof (Z.mod_pos_bound c 64 ltac:(lia)). pose proof (Z.mod_pos_bound (c / 64) 64 ltac:(lia)).
  pose proof (Z.mod_pos_bound (c / 4096) 64 ltac:(lia)).
  repeat case_match; repeat constructor; lia.
Qed.

(** Text whose bytes are all ASCII is its bytes. *)
Lemma as_bytes_ascii text bytes : Forall (λ b, b < 128) bytes → as_bytes text = bytes ↔ text = bytes.
Proof.
  intros Hb. split.
  - revert bytes Hb. induction text as [| c text IH]; intros bytes Hb <-; [done |].
    unfold as_bytes in *. cbn [mbind list_bind] in *. apply Forall_app in Hb as [Hc Hb].
    destruct (Z.ltb_spec c 128) as [Hlt | Hge].
    + unfold utf8 at 1. rewrite (proj2 (Z.ltb_lt _ _) Hlt). cbn. f_equal. by apply IH.
    + pose proof (utf8_high c Hge) as Hu. destruct (utf8 c) as [| b rest] eqn:E.
      * exfalso. unfold utf8 in E. repeat case_match; done.
      * inversion Hu. inversion Hc. lia.
  - intros ->. induction Hb as [| b bytes Hb _ IH]; [done |]. unfold as_bytes in *. cbn [mbind list_bind].
    unfold utf8 at 1. rewrite (proj2 (Z.ltb_lt _ _) Hb). cbn. by rewrite IH.
Qed.

Lemma write_hex_ascii bytes : Forall is_byte bytes → Forall (λ b, b < 128) (write_hex bytes).
Proof.
  induction 1 as [| b bytes Hb _ IH]; [constructor |]. unfold write_hex in *. cbn. unfold is_byte in Hb.
  pose proof (Z.mod_pos_bound b 16 ltac:(lia)). assert (b / 16 < 16) by (apply Z.div_lt_upper_bound; lia).
  assert (∀ d, d < 16 → hex_low d < 128) as Hd by (intros d ?; unfold hex_low; case_match; lia).
  repeat constructor; [by apply Hd | apply Hd; lia | exact IH].
Qed.

(** The name of a chunk or snapshot has one text.  Reading a text gives a name
    exactly if the text is the 64 lowercase digits that name is written with, so a file
    name that is read always maps back to the same file, and no other text, however
    encoded, passes for a name. *)
Theorem names_canonical (text : Chars) (name : Z) :
  from_hex text = Some name ↔ 0 ≤ name < 256 ^ 32 ∧ text = name_text name.
Proof.
  unfold from_hex, name_text. rewrite fmap_Some. split.
  - intros (bytes & H & ->). unfold parse_hex in H. destruct (Nat.eqb_spec (length (as_bytes text)) 64) as [Hl |]; [| done].
    apply (parse_pairs_Some 32) in H as (Hn & Hb & Ht); [| exact Hl].
    destruct (fixed_made 32 bytes Hn Hb) as [Hr Hf]. split; [exact Hr |]. rewrite Hf.
    apply as_bytes_ascii; [by apply write_hex_ascii | exact Ht].
  - intros [Hr ->]. exists (fixed_bytes 32 name). pose proof (fixed_bytes_bytes 32 name) as Hb.
    split; [| by rewrite fixed_roundtrip]. unfold parse_hex.
    rewrite (proj2 (as_bytes_ascii _ _ (write_hex_ascii _ Hb)) eq_refl), write_hex_length, fixed_length. change (negb _) with false.
    by apply parse_pairs_write.
Qed.

(** ** Text *)
Lemma utf8_len_pos c : (1 <= utf8_len c)%nat.
Proof. unfold utf8_len. repeat case_match; lia. Qed.

Lemma utf8_len_bytes c : utf8_len c = length (utf8 c).
Proof. unfold utf8_len, utf8. repeat case_match; done. Qed.

Lemma str_len_cons c text : str_len (c :: text) = (utf8_len c + str_len text)%nat.
Proof. done. Qed.

(** Cutting at the last boundary that fits takes as many characters as fit. *)
Lemma truncate_fits text n : (str_len (truncate text n) <= n)%nat.
Proof.
  revert n. induction text as [| c text IH]; intros n; cbn; [lia |]. destruct (Nat.leb_spec (utf8_len c) n); [| cbn; lia].
  rewrite str_len_cons. specialize (IH (n - utf8_len c)%nat). lia.
Qed.

Lemma truncate_boundary text n : (n <= str_len text)%nat → is_char_boundary text n = true → str_len (truncate text n) = n.
Proof.
  revert n. induction text as [| c text IH]; intros n Hn Hb; [cbn in *; lia |]. destruct n as [| n].
  { cbn [truncate]. pose proof (utf8_len_pos c). destruct (Nat.leb_spec (utf8_len c) 0); [lia | done]. }
  cbn [is_char_boundary] in Hb. apply andb_true_iff in Hb as [Hc Hb]. cbn [truncate]. rewrite Hc.
  apply Nat.leb_le in Hc. rewrite str_len_cons in *. rewrite IH by (done || lia). lia.
Qed.

Lemma boundary_truncate text n : is_char_boundary text (str_len (truncate text n)) = true.
Proof.
  revert n. induction text as [| c text IH]; intros n; [done |]. cbn [truncate].
  destruct (Nat.leb_spec (utf8_len c) n); [| done]. rewrite str_len_cons.
  pose proof (utf8_len_pos c) as Hp. destruct (utf8_len c + _)%nat as [| k] eqn:E; [lia |].
  cbn [is_char_boundary]. rewrite <- E, (proj2 (Nat.leb_le _ _)) by lia. cbn.
  replace (_ + _ - _)%nat with (str_len (truncate text (n - utf8_len c))) by lia. apply IH.
Qed.

Lemma floor_boundary_spec text n :
  is_char_boundary text (floor_boundary text n) = true ∧ (floor_boundary text n <= n)%nat ∧
  ∀ k, (k <= n)%nat → is_char_boundary text k = true → (k <= floor_boundary text n)%nat.
Proof.
  induction n as [| n (IH1 & IH2 & IH3)]; [cbn; destruct text; cbn; split; try done; split; intros; lia |].
  cbn [floor_boundary]. destruct (is_char_boundary text (S n)) eqn:E; [split; [done |]; split; intros; lia |].
  split; [done |]. split; [lia |]. intros k Hk Hb. destruct (decide (k = S n)) as [-> |]; [congruence |]. apply IH3; [lia | done].
Qed.

Lemma truncate_prefix text n : ∃ rest, text = truncate text n ++ rest.
Proof.
  revert n. induction text as [| c text IH]; intros n; [by exists [] |]. cbn [truncate].
  destruct (utf8_len c <=? n)%nat; [| by eexists]. destruct (IH (n - utf8_len c)%nat) as [rest Hr].
  exists rest. cbn. by rewrite <- Hr.
Qed.

Lemma str_len_app t1 t2 : str_len (t1 ++ t2) = (str_len t1 + str_len t2)%nat.
Proof. induction t1 as [| c t1 IH]; [done |]. cbn [app]. rewrite !str_len_cons, IH. lia. Qed.

Lemma boundary_prefix t1 t2 : is_char_boundary (t1 ++ t2) (str_len t1) = true.
Proof.
  induction t1 as [| c t1 IH]; [by destruct t2 |]. rewrite str_len_cons. pose proof (utf8_len_pos c).
  destruct (utf8_len c + _)%nat as [| k] eqn:E; [lia |]. cbn [app is_char_boundary].
  rewrite <- E, (proj2 (Nat.leb_le _ _)) by lia. cbn. by replace (_ + _ - _)%nat with (str_len t1) by lia.
Qed.

Lemma existsb_clean value : existsb is_control ((λ c, if is_control c then 32 else c) <$> value) = false.
Proof. induction value as [| c value IH]; [done |]. cbn. rewrite IH. destruct (is_control c) eqn:E; [done | by rewrite E]. Qed.

Lemma existsb_app_false {A} (f : A → bool) l1 l2 : existsb f (l1 ++ l2) = false → existsb f l1 = false.
Proof. rewrite existsb_app. by intros [? _]%orb_false_iff. Qed.

Lemma clean_valid value : existsb is_control value = false → (λ c, if is_control c then 32 else c) <$> value = value.
Proof. induction value as [| c value IH]; [done |]. cbn. intros [-> H]%orb_false_iff. by rewrite IH. Qed.

(** [lossy] always makes text, and loses as little as it may.  Whatever it is
    given, what it makes fits the bound and has no control character; text that
    already fits and has none is left as it is; and what is made is the given text with
    spaces for control characters, up to the first character that no longer fits. *)
Theorem lossy_valid (max : nat) (value : Chars) :
  let clean := (λ c, if is_control c then 32 else c) <$> value in
  Text_new max (lossy max value) = Ok (lossy max value) ∧
  (Text_new max value = Ok value → lossy max value = value) ∧
  ∃ rest, clean = lossy max value ++ rest ∧
    ∀ c more, rest = c :: more → (max < str_len (lossy max value ++ [c]))%nat.
Proof.
  intros clean. pose proof (existsb_clean value) as Hc. fold clean in Hc.
  assert (lossy max value = if (max <? str_len clean)%nat then truncate clean (floor_boundary clean max) else clean) as E by done.
  destruct (floor_boundary_spec clean max) as (Hb & Hle & Hmost). set (n := floor_boundary clean max) in *.
  destruct (truncate_prefix clean n) as [rest Hr]. split; [| split].
  - rewrite E. unfold Text_new. destruct (Nat.ltb_spec max (str_len clean)) as [Hlt | Hge].
    + pose proof (truncate_fits clean n). destruct (Nat.ltb_spec max (str_len (truncate clean n))); [lia |].
      by rewrite (existsb_app_false _ _ rest) by (by rewrite <- Hr).
    + destruct (Nat.ltb_spec max (str_len clean)); [lia |]. by rewrite Hc.
  - unfold Text_new. destruct (Nat.ltb_spec max (str_len value)); [done |].
    destruct (existsb is_control value) eqn:Ev; [done |]. intros _. rewrite E. unfold clean. rewrite (clean_valid value Ev).
    by destruct (Nat.ltb_spec max (str_len value)); [lia |].
  - rewrite E. destruct (Nat.ltb_spec max (str_len clean)) as [Hlt | Hge]; [| exists []; split; [by rewrite app_nil_r | done]].
    exists rest. split; [exact Hr |]. intros c more ->. apply Nat.nle_gt. intros Hfit.
    pose proof (boundary_prefix (truncate clean n ++ [c]) more) as Hp. rewrite <- app_assoc in Hp. cbn [app] in Hp.
    rewrite <- Hr in Hp. apply Hmost in Hp; [| exact Hfit].
    rewrite str_len_app, (truncate_boundary clean n) in Hp by (done || lia).
    rewrite str_len_cons in Hp. pose proof (utf8_len_pos c). lia.
Qed.

(** ** Invites *)

(** What the base64 crate documents of [URL_SAFE_NO_PAD]: it decodes what it encodes,
    it decodes nothing else (no padding, no trailing bits), and its alphabet has no
    whitespace. *)
Record base64_laws (B : Base64) : Prop := {
  b64_decodes : ∀ bytes, Forall is_byte bytes → decode64 B (encode64 B bytes) = Some bytes;
  b64_strict : ∀ text bytes, decode64 B text = Some bytes → Forall is_byte bytes ∧ encode64 B bytes = text;
  b64_alphabet : ∀ bytes, Forall is_byte bytes → Forall (λ c, is_whitespace c = false) (encode64 B bytes);
}.

Lemma without_prefix_Some prefix text rest : without_prefix prefix text = Some rest ↔ text = prefix ++ rest.
Proof.
  revert text. induction prefix as [| p prefix IH]; intros text; [cbn; split; congruence |].
  destruct text as [| c text]; [done |]. cbn. destruct (Z.eqb_spec p c) as [-> | Hne]; [| split; congruence].
  rewrite IH. split; congruence.
Qed.

Lemma trim_start_blank ws text : Forall (λ c, is_whitespace c = true) ws → trim_start (ws ++ text) = trim_start text.
Proof. induction 1 as [| c ws Hc _ IH]; [done |]. cbn. by rewrite Hc. Qed.

Lemma trim_start_solid text : Forall (λ c, is_whitespace c = false) text → trim_start text = text.
Proof. destruct 1 as [| c text Hc _]; [done |]. cbn. by rewrite Hc. Qed.

Lemma trim_pasted ws1 text ws2 :
  Forall (λ c, is_whitespace c = true) ws1 → Forall (λ c, is_whitespace c = true) ws2 →
  Forall (λ c, is_whitespace c = false) text → trim (ws1 ++ text ++ ws2) = text.
Proof.
  intros H1 H2 Ht. unfold trim. rewrite trim_start_blank by done. destruct Ht as [| c text Hc Ht].
  - cbn. rewrite <- (app_nil_r ws2), trim_start_blank by done. done.
  - cbn [app trim_start]. rewrite Hc. change (c :: text ++ ws2) with ((c :: text) ++ ws2).
    rewrite rev_app_distr, trim_start_blank by (by apply Forall_rev).
    rewrite trim_start_solid by (by apply Forall_rev; constructor). apply rev_involutive.
Qed.

Definition invite_ok (i : Invite) : Prop := 0 ≤ invite_room i < 256 ^ 16 ∧ 0 ≤ invite_token i < 256 ^ 32.

Lemma invite_bytes_length i : length (fixed_bytes 16 (invite_room i) ++ fixed_bytes 32 (invite_token i)) = INVITE_BYTES.
Proof. by rewrite length_app, !fixed_length. Qed.

Section invites.
Context (B : Base64) (L : base64_laws B).

Lemma invite_read text i : invite_from_str B text = Ok i ↔ invite_ok i ∧ trim text = invite_text B i.
Proof.
  destruct L as [Hd Hs _]. unfold invite_from_str, invite_text. split.
  - destruct (without_prefix _ _) as [encoded |] eqn:Ep; [| done]. cbn [ok_or result_bind].
    apply without_prefix_Some in Ep. destruct (decode64 B encoded) as [decoded |] eqn:Ed; [| done]. cbn [ok_or result_bind].
    destruct (Nat.eqb_spec (length decoded) INVITE_BYTES) as [El |]; [| done]. intros [= <-].
    apply Hs in Ed as [Hb He]. unfold INVITE_BYTES in El.
    destruct (fixed_made 16 (firstn 16 decoded)) as [R1 F1]; [rewrite length_firstn; lia | by apply Forall_take |].
    destruct (fixed_made 32 (skipn 16 decoded)) as [R2 F2]; [rewrite length_skipn; lia | by apply Forall_drop |].
    split; [by split |]. cbn [invite_room invite_token]. by rewrite F1, F2, firstn_skipn, He.
  - intros [[R1 R2] ->]. rewrite (proj2 (without_prefix_Some _ _ _) eq_refl). cbn [ok_or result_bind].
    rewrite Hd by (apply Forall_app; split; apply fixed_bytes_bytes). cbn [ok_or result_bind].
    rewrite invite_bytes_length, Nat.eqb_refl. cbn [negb].
    rewrite take_app_length', drop_app_length' by (by rewrite fixed_length). rewrite !fixed_roundtrip by done. by destruct i.
Qed.

Lemma invite_solid i : Forall (λ c, is_whitespace c = false) (invite_text B i).
Proof. apply Forall_app. split; [by repeat constructor | apply (b64_alphabet B L), Forall_app]. split; apply fixed_bytes_bytes. Qed.

Lemma invite_pasted i ws1 ws2 : invite_ok i → Forall (λ c, is_whitespace c = true) ws1 → Forall (λ c, is_whitespace c = true) ws2 →
  invite_from_str B (ws1 ++ invite_text B i ++ ws2) = Ok i.
Proof. intros Hi H1 H2. apply invite_read. split; [exact Hi |]. apply trim_pasted; [done | done | apply invite_solid]. Qed.
End invites.

(** C25: an invite has one text, and survives being passed around.  A text reads as an
    invite exactly if, without the whitespace around it, it is the text that invite is
    written as; so writing and reading round trip, also with whitespace pasted around
    it, and no two texts, nor two invites, are taken for one another. *)
Theorem invites_canonical (B : Base64) :
  base64_laws B →
  (∀ text i, invite_from_str B text = Ok i ↔ invite_ok i ∧ trim text = invite_text B i) ∧
  (∀ i ws1 ws2, invite_ok i → Forall (λ c, is_whitespace c = true) ws1 → Forall (λ c, is_whitespace c = true) ws2 →
    invite_from_str B (ws1 ++ invite_text B i ++ ws2) = Ok i).
Proof. intros L. split; [by apply invite_read | by apply invite_pasted]. Qed.

(** * A concrete encoding: two hexadecimal digits for each byte. *)
Definition hex64 : Base64 := {|
  encode64 := write_hex;
  decode64 text := if Nat.even (length text) then parse_pairs text else None;
|}.

Lemma hex64_laws : base64_laws hex64.
Proof.
  split; cbn [hex64 encode64 decode64].
  - intros bytes Hb. rewrite write_hex_length. rewrite (proj2 (Nat.even_spec _)) by (by eexists). by apply parse_pairs_write.
  - intros text bytes. destruct (Nat.even (length text)) eqn:E; [| done]. apply Nat.even_spec in E as [n E].
    intros H. apply (parse_pairs_Some n) in H as (_ & Hb & ->); [done | lia].
  - unfold write_hex. induction 1 as [| b bytes Hb _ IH]; [constructor |]. unfold is_byte in Hb. cbn.
    assert (∀ d, 0 ≤ d < 16 → is_whitespace (hex_low d) = false) as Hd.
    { intros d Hd. assert (d ∈ seqZ 0 16) as Hin by (apply elem_of_seqZ; lia). clear Hd. revert d Hin.
      apply Forall_forall. by repeat constructor. }
    constructor; [apply Hd; split; [apply Z.div_pos; lia | apply Z.div_lt_upper_bound; lia] |].
    constructor; [apply Hd, Z.mod_pos_bound; lia | exact IH].
Qed.

Lemma invites_canonical_witness :
  let i := MkInvite 171 92 in
  invite_from_str hex64 (chars " " ++ invite_text hex64 i ++ [10]) = Ok i ∧ length (invite_text hex64 i) = 104%nat.
Proof.
  intros i. split; [| reflexivity].
  apply (proj2 (invites_canonical hex64 hex64_laws)); [by split; cbn | by repeat constructor | by repeat constructor].
Defined.
