(* ===== verification/Identity.v ===== *)
(** A player's identity ([crates/tpf3mp-net/src/identity.rs]): the key file an agent
    loads or creates, and the proof that a player holds its key, bound to one session.

    Several agents may start at once.  Each is a process that takes turns with the
    others at single calls of the file system; a crash is a process that takes no more
    turns.  How each call ends is an argument.  A file has a number, as an inode has,
    and names lead to it, so that a link and an open file are what they are.  [ring],
    which makes keys and signatures, and the keying material a session exports are
    parameters. *)
From S2P Require Import Prelude Proto Chars Ident.
Local Open Scope Z_scope.

Abbreviation Name := (Chars * option Chars)%type (only parsing).

Inductive IoKind := NotFound | AlreadyExists | OtherIo.
Inductive IdentityError := InvalidKey | Generate | IdentityIo (kind : IoKind) | KeyingMaterial.

#[export] Instance IoKind_eq_dec : EqDecision IoKind.
Proof. solve_decision. Defined.

(** * Keys *)

(** What [ring] offers: keys from their PKCS#8 encoding, with their public halves, and
    signatures. *)
Record Ring := MkRing {
  KeyPair : Type;
  pair_of_pkcs8 : list Z → option KeyPair;
  public_key : KeyPair → list Z;
  sign : KeyPair → list Z → list Z;
  verify : list Z → list Z → list Z → bool;
}.

Record Identity (G : Ring) := MkIdentity { key_pair : KeyPair G; player : PlayerId }.
Arguments MkIdentity {G} _ _.
Arguments key_pair {G} _.
Arguments player {G} _.

Section keys.
Context (G : Ring).

Definition from_pkcs8 (pkcs8 : list Z) : result (Identity G) IdentityError :=
  let? key := ok_or (pair_of_pkcs8 G pkcs8) InvalidKey in
  let public := public_key G key in
  if negb (length public =? 32)%nat then Err InvalidKey
  else Ok (MkIdentity key (from_fixed public)).

(** [drawn]: the key [ring] makes from the system's random numbers, if it can. *)
Definition generate (drawn : option (list Z)) : result (Identity G * list Z) IdentityError :=
  let? pkcs8 := ok_or drawn Generate in
  let? identity := from_pkcs8 pkcs8 in
  Ok (identity, pkcs8).
End keys.

(** * Proofs *)

Definition AUTH_DOMAIN : list Z := chars "tpf3mp-auth-v1".
Definition AUTH_EXPORTER_LABEL : list Z := chars "EXPORTER-tpf3mp-auth".

(** Encodings of the points of small order, as the code lists them. *)
Definition SMALL_ORDER : list (list Z) := [
  replicate 32 0;
  0x01 :: replicate 31 0;
  [0x26; 0xe8; 0x95; 0x8f; 0xc2; 0xb2; 0x27; 0xb0; 0x45; 0xc3; 0xf4;
   0x89; 0xf2; 0xef; 0x98; 0xf0; 0xd5; 0xdf; 0xac; 0x05; 0xd3; 0xc6;
   0x33; 0x39; 0xb1; 0x38; 0x02; 0x88; 0x6d; 0x53; 0xfc; 0x05];
  [0xc7; 0x17; 0x6a; 0x70; 0x3d; 0x4d; 0xd8; 0x4f; 0xba; 0x3c; 0x0b;
   0x76; 0x0d; 0x10; 0x67; 0x0f; 0x2a; 0x20; 0x53; 0xfa; 0x2c; 0x39;
   0xcc; 0xc6; 0x4e; 0xc7; 0xfd; 0x77; 0x92; 0xac; 0x03; 0x7a];
  [0xec] ++ replicate 30 0xff ++ [0x7f];
  [0xed] ++ replicate 30 0xff ++ [0x7f];
  [0xee] ++ replicate 30 0xff ++ [0x7f]].

(** Comparing all but the sign, the top bit of the last byte. *)
Definition same_point (key point : list Z) : bool :=
  bool_decide (take 31 key = take 31 point) && (Z.land (nth 31 key 0) 0x7f =? nth 31 point 0).

Definition has_small_order (key : list Z) : bool :=
  if negb (length key =? 32)%nat then false else existsb (same_point key) SMALL_ORDER.

Section proofs.
Context (G : Ring) {Connection : Type}.

(** [quinn] and TLS: 32 bytes that both ends of a session derive for a label. *)
Context (export_keying_material : Connection → list Z → list Z → option (list Z)).

Definition auth_message (connection : Connection) : result (list Z) IdentityError :=
  let? keying_material := ok_or (export_keying_material connection AUTH_EXPORTER_LABEL []) KeyingMaterial in
  Ok (AUTH_DOMAIN ++ keying_material).

Definition prove (identity : Identity G) (connection : Connection) : result Z IdentityError :=
  let? message := auth_message connection in
  let signature := sign G (key_pair identity) message in
  if negb (length signature =? 64)%nat then Err InvalidKey else Ok (from_fixed signature).

Definition verify_proof (connection : Connection) (who : PlayerId) (proof : Z) : bool :=
  if has_small_order (fixed_bytes 32 who) then false
  else
    match auth_message connection with
    | Err _ => false
    | Ok message => verify G (fixed_bytes 32 who) message (fixed_bytes 64 proof)
    end.
End proofs.

(** * The file system *)

Record Disk := MkDisk { names : gmap Name nat; data : gmap nat (list Z) }.

(** How a call ends, when the disk has a say: as it should, or with an error, a write
    after some bytes. *)
Inductive Call := Works | Fails (reached : nat).

Definition file_at (d : Disk) (n : Name) : option (list Z) := names d !! n ≫= λ file, data d !! file.

Definition read (d : Disk) (n : Name) (c : Call) : result (list Z) IoKind :=
  match c with
  | Works => ok_or (file_at d n) NotFound
  | Fails _ => Err OtherIo
  end.

Definition new_file (d : Disk) : nat := fresh (dom (data d) ∪ (map_img (names d) : gset nat)).

(** [create_new]: only if nothing has the name. *)
Definition open_new (d : Disk) (n : Name) (c : Call) : Disk * result nat IoKind :=
  match names d !! n, c with
  | Some _, _ => (d, Err AlreadyExists)
  | None, Fails _ => (d, Err OtherIo)
  | None, Works => let file := new_file d in (MkDisk (<[n := file]> (names d)) (<[file := []]> (data d)), Ok file)
  end.

Definition write_all (d : Disk) (file : nat) (bytes : list Z) (c : Call) : Disk * result unit IoKind :=
  match c with
  | Works => (MkDisk (names d) (<[file := bytes]> (data d)), Ok tt)
  | Fails n => (MkDisk (names d) (<[file := take n bytes]> (data d)), Err OtherIo)
  end.

Definition hard_link (d : Disk) (original link : Name) (c : Call) : Disk * result unit IoKind :=
  match names d !! original, names d !! link, c with
  | None, _, _ => (d, Err NotFound)
  | _, Some _, _ => (d, Err AlreadyExists)
  | _, _, Fails _ => (d, Err OtherIo)
  | Some file, None, Works => (MkDisk (<[link := file]> (names d)) (data d), Ok tt)
  end.

(** [rename] replaces what has the name. *)
Definition rename (d : Disk) (original to : Name) (c : Call) : Disk * result unit IoKind :=
  match names d !! original, c with
  | None, _ => (d, Err NotFound)
  | _, Fails _ => (d, Err OtherIo)
  | Some file, Works => (MkDisk (<[to := file]> (delete original (names d))) (data d), Ok tt)
  end.

Definition remove_file (d : Disk) (n : Name) (c : Call) : Disk :=
  match c with Works => MkDisk (delete n (names d)) (data d) | Fails _ => d end.

(** [Path::exists], which says no when it cannot tell. *)
Definition exists_at (d : Disk) (n : Name) (c : Call) : bool :=
  match c with Works => bool_decide (is_Some (names d !! n)) | Fails _ => false end.

(** * Loading or creating *)

(** [with_extension] of the random suffix and [tmp]. *)
Definition temporary_of (path : Name) (suffix : list Z) : Name :=
  (path.1 ++ chars "." ++ write_hex suffix, Some (chars "tmp")).

Section load.
Context (G : Ring) (path : Name) (has_parent : bool).

(** Where a process is in [load_or_create], at a call of the file system: before it
    reads the file, creates the directory, opens, writes and flushes the temporary
    file; at the link, the look and the rename of [publish]; before it removes the
    temporary file and reads the other's. *)
Inductive Stage :=
  | Reading
  | MakingDir (identity : Identity G) (pkcs8 : list Z)
  | Opening (identity : Identity G) (pkcs8 : list Z) (temporary : Name)
  | Writing (identity : Identity G) (pkcs8 : list Z) (temporary : Name) (file : nat)
  | Syncing (identity : Identity G) (pkcs8 : list Z) (temporary : Name) (file : nat)
  | Linking (identity : Identity G) (pkcs8 : list Z) (temporary : Name) (file : nat)
  | Looking (identity : Identity G) (temporary : Name)
  | Renaming (identity : Identity G) (temporary : Name)
  | Removing (identity : Identity G) (temporary : Name) (published : result unit IoKind)
  | Rereading
  | Finished (loaded : result (Identity G) IdentityError).

(** What the system's random numbers give a process, and where it is. *)
Record Process := MkProcess { drawn : option (list Z); suffix : option (list Z); stage : Stage }.

Definition io_error (kind : IoKind) : Stage := Finished (Err (IdentityIo kind)).

(** After the directory is there: the suffix, and on to the temporary file. *)
Definition draw_suffix (p : Process) (identity : Identity G) (pkcs8 : list Z) : Stage :=
  match suffix p with
  | None => Finished (Err Generate)
  | Some s => Opening identity pkcs8 (temporary_of path s)
  end.

Definition create (p : Process) : Stage :=
  match generate G (drawn p) with
  | Err e => Finished (Err e)
  | Ok (identity, pkcs8) => if has_parent then MakingDir identity pkcs8 else draw_suffix p identity pkcs8
  end.

(** [publish]: after the link, and after the look that follows where no link can be made. *)
Definition after_link (identity : Identity G) (temporary : Name) (linked : result unit IoKind) : Stage :=
  match linked with
  | Err AlreadyExists => Removing identity temporary linked
  | Err _ => Looking identity temporary
  | Ok _ => Removing identity temporary linked
  end.

Definition after_look (identity : Identity G) (temporary : Name) (there : bool) : Stage :=
  if there then Removing identity temporary (Err AlreadyExists) else Renaming identity temporary.

(** [load_or_create], with [write_private] and [publish], from one call to the next. *)
Definition advance (d : Disk) (p : Process) (c : Call) : Disk * Stage :=
  match stage p with
  | Reading =>
      (d, match read d path c with
          | Ok pkcs8 => Finished (from_pkcs8 G pkcs8)
          | Err NotFound => create p
          | Err kind => io_error kind
          end)
  | MakingDir identity pkcs8 =>
      (d, match c with Works => draw_suffix p identity pkcs8 | Fails _ => io_error OtherIo end)
  | Opening identity pkcs8 temporary =>
      match open_new d temporary c with
      | (d, Ok file) => (d, Writing identity pkcs8 temporary file)
      | (d, Err kind) => (d, io_error kind)
      end
  | Writing identity pkcs8 temporary file =>
      match write_all d file pkcs8 c with
      | (d, Ok _) => (d, Syncing identity pkcs8 temporary file)
      | (d, Err kind) => (d, io_error kind)
      end
  | Syncing identity pkcs8 temporary file =>
      (d, match c with Works => Linking identity pkcs8 temporary file | Fails _ => io_error OtherIo end)
  | Linking identity pkcs8 temporary file =>
      let '(d, linked) := hard_link d temporary path c in (d, after_link identity temporary linked)
  | Looking identity temporary => (d, after_look identity temporary (exists_at d path c))
  | Renaming identity temporary =>
      let '(d, renamed) := rename d temporary path c in (d, Removing identity temporary renamed)
  | Removing identity temporary published =>
      (remove_file d temporary c,
       match published with
       | Ok _ => Finished (Ok identity)
       | Err AlreadyExists => Rereading
       | Err kind => io_error kind
       end)
  | Rereading =>
      (d, match read d path c with
          | Ok pkcs8 => Finished (from_pkcs8 G pkcs8)
          | Err kind => io_error kind
          end)
  | Finished _ => (d, stage p)
  end.

(** Several processes, of which one takes the next turn. *)
Record World := MkWorld { disk : Disk; processes : list Process }.

Definition turn (w : World) (i : nat) (c : Call) : World :=
  match processes w !! i with
  | None => w
  | Some p =>
      let '(d, s) := advance (disk w) p c in
      MkWorld d (<[i := MkProcess (drawn p) (suffix p) s]> (processes w))
  end.

Definition run (w : World) (turns : list (nat * Call)) : World := foldl (λ w t, turn w t.1 t.2) w turns.

(** Whether every link that is tried is one the file system can make. *)
Fixpoint links_work (w : World) (turns : list (nat * Call)) : bool :=
  match turns with
  | [] => true
  | (i, c) :: turns =>
      match stage <$> processes w !! i, c with
      | Some (Linking _ _ _ _), Fails _ => false
      | _, _ => true
      end && links_work (turn w i c) turns
  end.
End load.

Arguments Reading {G}.
Arguments MakingDir {G} _ _.
Arguments Opening {G} _ _ _.
Arguments Writing {G} _ _ _ _.
Arguments Syncing {G} _ _ _ _.
Arguments Linking {G} _ _ _ _.
Arguments Looking {G} _ _.
Arguments Renaming {G} _ _.
Arguments Removing {G} _ _ _.
Arguments Rereading {G}.
Arguments Finished {G} _.
Arguments MkProcess {G} _ _ _.
Arguments drawn {G} _.
Arguments suffix {G} _.
Arguments stage {G} _.
Arguments MkWorld {G} _ _.
Arguments disk {G} _.
Arguments processes {G} _.

(** * Processes that create an identity at once *)

Lemma temporary_other path s : temporary_of path s ≠ path.
Proof.
  destruct path as [stem ext]. intros [= E _]. apply (f_equal length) in E. rewrite !length_app in E. cbn in E. lia.
Qed.

Lemma new_file_unseen d n : names d !! n ≠ Some (new_file d).
Proof.
  intros E. pose proof (is_fresh (dom (data d) ∪ (map_img (names d) : gset nat))) as H. apply H.
  apply elem_of_union_r. rewrite elem_of_map_img. by exists n.
Qed.

Lemma new_file_empty d n f : names d !! n = Some f → data d !! f = None ∨ f ≠ new_file d.
Proof. intros E. right. intros ->. by eapply new_file_unseen. Qed.

Section agree.
Context (G : Ring) (path : Name) (has_parent : bool).
Implicit Types (p : Process G) (s : Stage G) (d : Disk).

(** The temporary file that is a process's own. *)
Definition held s : option Name :=
  match s with
  | Writing _ _ t _ | Syncing _ _ t _ | Linking _ _ t _ | Removing _ t _ => Some t
  | _ => None
  end.

(** The stored key is this identity's. *)
Definition stored d (identity : Identity G) : Prop := ∃ k, file_at d path = Some k ∧ from_pkcs8 G k = Ok identity.

Definition made_of p (identity : Identity G) (k : list Z) : Prop := drawn p = Some k ∧ from_pkcs8 G k = Ok identity.

(** What holds of a process and the disk while links can be made. *)
Definition stage_ok d p : Prop :=
  match stage p with
  | Reading | Rereading | Finished (Err _) => True
  | MakingDir id k => made_of p id k
  | Opening id k t => made_of p id k ∧ t ≠ path
  | Writing id k t f => made_of p id k ∧ t ≠ path ∧ names d !! t = Some f ∧ ∀ n, names d !! n = Some f → n = t
  | Syncing id k t f | Linking id k t f =>
      made_of p id k ∧ t ≠ path ∧ names d !! t = Some f ∧ data d !! f = Some k
  | Looking _ _ | Renaming _ _ => False
  | Removing id t r => t ≠ path ∧ is_Some (names d !! t) ∧ match r with Ok _ => stored d id | Err e => e = AlreadyExists end
  | Finished (Ok id) => stored d id
  end.

(** What a step leaves as it was, for one that holds [t]: other names, the files they
    lead to, and the stored key; a name it makes leads to a new file or its own. *)
Record moves (t : option Name) d d' : Prop := {
  mv_names : ∀ n f, t ≠ Some n → names d !! n = Some f → names d' !! n = Some f;
  mv_data : ∀ n f, t ≠ Some n → names d !! n = Some f → data d' !! f = data d !! f;
  mv_new : ∀ n f, names d' !! n = Some f →
    names d !! n = Some f ∨ (∀ m, names d !! m ≠ Some f) ∨ (∃ u, t = Some u ∧ names d !! u = Some f);
}.

Lemma moves_refl t d : moves t d d.
Proof. split; auto. Qed.

Lemma moves_file t d d' n k : moves t d d' → t ≠ Some n → file_at d n = Some k → file_at d' n = Some k.
Proof.
  intros [Hn Hd _] Ht. unfold file_at. intros (f & Ef & Ek)%bind_Some. apply bind_Some. exists f.
  split; [by apply Hn |]. rewrite <- Ek. by eapply Hd.
Qed.

Lemma moves_stored t d d' id : moves t d d' → t ≠ Some path → stored d id → stored d' id.
Proof. intros Hm Ht (k & Hk & Hid). exists k. split; [by eapply moves_file | done]. Qed.

(** A step of another process. *)
Lemma stage_ok_frame t d d' p : moves t d d' → t ≠ Some path →
  (∀ u, held (stage p) = Some u → t ≠ Some u) → stage_ok d p → stage_ok d' p.
Proof.
  intros Hm Ht Hheld. pose proof Hm as [Hn Hd Hnew]. unfold stage_ok.
  destruct (stage p) as [| | | id k u f | id k u f | id k u f | | | id u r | | [id | e]]; try done; cbn in Hheld.
  - intros (Hk & Hu & Hf & Hx). repeat split; [apply Hk | apply Hk | done | by apply Hn; auto |].
    intros n [E | [E | (v & Ev & E)]]%Hnew; [by apply Hx | by destruct (E u) |].
    apply Hx in E as ->. by destruct (Hheld u).
  - intros (Hk & Hu & Hf & Hx). repeat split; [apply Hk | apply Hk | done | by apply Hn; auto |].
    rewrite <- Hx. eapply Hd; [by apply Hheld | done].
  - intros (Hk & Hu & Hf & Hx). repeat split; [apply Hk | apply Hk | done | by apply Hn; auto |].
    rewrite <- Hx. eapply Hd; [by apply Hheld | done].
  - intros (Hu & [f Hf] & Hr). split; [done |]. split; [exists f; by apply Hn; auto |].
    destruct r; [by eapply moves_stored | done].
  - by apply moves_stored with t.
Qed.

Lemma stored_read d k id : read d path Works = Ok k → from_pkcs8 G k = Ok id → stored d id.
Proof. unfold read. intros H Hid. exists k. split; [| done]. by destruct (file_at d path); simplify_eq/=. Qed.

Lemma create_ok d p : stage_ok d (MkProcess (drawn p) (suffix p) (create G path has_parent p)) ∧
  held (create G path has_parent p) = None.
Proof.
  unfold create, generate, draw_suffix, stage_ok. destruct (drawn p) as [k |]; cbn; [| done].
  destruct (from_pkcs8 G k) as [id |] eqn:Eid; cbn; [| done].
  destruct has_parent; cbn; [done |]. destruct (suffix p); cbn; [| done]. split; [| done]. split; [done |].
  apply temporary_other.
Qed.

(** A process that read the stored key, or failed. *)
Lemma read_stage_ok d p c : stage_ok d (MkProcess (drawn p) (suffix p)
  match read d path c with Ok k => Finished (from_pkcs8 G k) | Err kind => io_error G kind end).
Proof.
  unfold read. destruct c; [| done]. unfold stage_ok. cbn.
  destruct (file_at d path) as [k |] eqn:Ek; cbn; [| done].
  destruct (from_pkcs8 G k) eqn:Eid; [| done]. by exists k.
Qed.

Definition step_ok p d d' s : Prop :=
  stage_ok d' (MkProcess (drawn p) (suffix p) s) ∧ moves (held (stage p)) d d' ∧
  ∀ u, held s = Some u → held (stage p) = Some u ∨ names d !! u = None.

Lemma idle_ok p d s : stage_ok d (MkProcess (drawn p) (suffix p) s) → held s = None ∨ held s = held (stage p) → step_ok p d d s.
Proof. intros H Hs. split; [done |]. split; [apply moves_refl |]. intros u Hu. left. destruct Hs; congruence. Qed.

Lemma opening_ok d p c id k t d' s :
  stage p = Opening id k t → made_of p id k → t ≠ path → advance G path has_parent d p c = (d', s) → step_ok p d d' s.
Proof.
  intros Es Hm Ht. unfold advance, open_new. rewrite Es. destruct (names d !! t) as [f |] eqn:Et; [intros [= <- <-]; by apply idle_ok; auto |].
  destruct c; intros [= <- <-]; [| by apply idle_ok; auto]. unfold step_ok. rewrite Es. cbn.
  split; [| split; [split; cbn |]].
  - unfold stage_ok. cbn. split; [done |]. split; [done |]. split; [apply lookup_insert_eq |].
    intros n [[<- _] | [_ E]]%lookup_insert_Some; [done |]. by apply new_file_unseen in E.
  - intros n f _ E. rewrite lookup_insert_ne; [done |]. congruence.
  - intros n f _ E. rewrite lookup_insert_ne; [done |]. intros <-. by apply new_file_unseen in E.
  - intros n f [[<- <-] | [_ E]]%lookup_insert_Some; [| by left]. right. left. intros m. apply new_file_unseen.
  - intros u [= <-]. by right.
Qed.

Lemma writing_ok d p c id k t f d' s :
  stage p = Writing id k t f → stage_ok d p → advance G path has_parent d p c = (d', s) → step_ok p d d' s.
Proof.
  intros Es Hok. unfold advance, write_all. rewrite Es. unfold stage_ok in Hok. rewrite Es in Hok.
  destruct Hok as (Hm & Ht & Hf & Hx).
  assert (Hmv : ∀ bytes, moves (Some t) d (MkDisk (names d) (<[f := bytes]> (data d)))).
  { intros bytes. split; cbn; [done | | by left]. intros n g Hn E. rewrite lookup_insert_ne; [done |].
    intros <-. apply Hx in E as ->. done. }
  destruct c; intros [= <- <-]; unfold step_ok; rewrite Es; cbn; (split; [| split; [apply Hmv |]]); try done; [| by left].
  unfold stage_ok. cbn. by rewrite lookup_insert_eq.
Qed.

Lemma linking_ok d p id k t f d' s :
  stage p = Linking id k t f → stage_ok d p → advance G path has_parent d p Works = (d', s) → step_ok p d d' s.
Proof.
  intros Es Hok. unfold advance, hard_link. rewrite Es. unfold stage_ok in Hok. rewrite Es in Hok.
  destruct Hok as (Hm & Ht & Hf & Hd). rewrite Hf.
  destruct (names d !! path) as [g |] eqn:Ep; intros [= <- <-].
  { apply idle_ok; [| right; by rewrite Es]. unfold stage_ok. cbn. by rewrite Hf. }
  unfold step_ok. rewrite Es. cbn. split; [| split; [split; cbn |]].
  - unfold stage_ok. cbn. rewrite lookup_insert_ne by done. split; [done |]. split; [by rewrite Hf |].
    exists k. split; [| apply Hm]. unfold file_at. cbn. by rewrite lookup_insert_eq.
  - intros n g _ E. rewrite lookup_insert_ne; [done |]. congruence.
  - done.
  - intros n g [[<- <-] | [_ E]]%lookup_insert_Some; [| by left]. right. right. by exists t.
  - by left.
Qed.

Lemma removing_ok d p c id t r d' s :
  stage p = Removing id t r → stage_ok d p → advance G path has_parent d p c = (d', s) → step_ok p d d' s.
Proof.
  intros Es Hok. unfold advance. rewrite Es. unfold stage_ok in Hok. rewrite Es in Hok. destruct Hok as (Ht & _ & Hr).
  intros [= <- <-].
  assert (Hmv : moves (Some t) d (remove_file d t c)).
  { unfold remove_file. destruct c; [| apply moves_refl]. split; cbn; [| done |].
    - intros n f Hn E. rewrite lookup_delete_ne; [done |]. congruence.
    - intros n f [_ E]%lookup_delete_Some. by left. }
  unfold step_ok. rewrite Es. cbn. split; [| split; [done |]]; destruct r as [| e]; try done; [| by subst e..].
  unfold stage_ok. cbn. eapply moves_stored; [done | congruence | done].
Qed.

(** One call of [load_or_create], where a link that is tried can be made. *)
Lemma load_step_ok d p c d' s :
  stage_ok d p → match stage p, c with Linking _ _ _ _, Fails _ => False | _, _ => True end →
  advance G path has_parent d p c = (d', s) → step_ok p d d' s.
Proof.
  intros Hok Hl H. pose proof Hok as Hok'. unfold stage_ok in Hok'.
  destruct (stage p) as [| id k | id k t | id k t f | id k t f | id k t f | | | id t r | | r] eqn:Es; try done.
  - unfold advance in H. rewrite Es in H. injection H as <- <-. pose proof (read_stage_ok d p c) as Hr.
    destruct (read d path c) as [k | []]; try (by apply idle_ok; [done | left]).
    destruct (create_ok d p). by apply idle_ok; [| left].
  - unfold advance in H. rewrite Es in H. injection H as <- <-. destruct c; [| by apply idle_ok; [| left]].
    unfold draw_suffix. destruct (suffix p) eqn:Eu; (apply idle_ok; [unfold stage_ok; cbn | by left]); [| done].
    split; [done | apply temporary_other].
  - destruct Hok'. by eapply opening_ok.
  - by eapply writing_ok.
  - unfold advance in H. rewrite Es in H. injection H as <- <-. destruct c; [| by apply idle_ok; [| left]].
    apply idle_ok; [exact Hok' | right; by rewrite Es].
  - destruct c; [| done]. by eapply linking_ok.
  - by eapply removing_ok.
  - unfold advance in H. rewrite Es in H. injection H as <- <-. apply idle_ok; [apply read_stage_ok | left].
    by destruct (read d path c).
  - unfold advance in H. rewrite Es in H. injection H as <- <-. apply idle_ok; [exact Hok' | by left].
Qed.

(** Every process is in order, and no two hold the same temporary file. *)
Record world_ok (w : World G) : Prop := {
  wo_stages : ∀ i p, processes w !! i = Some p → stage_ok (disk w) p;
  wo_held : ∀ i j p q t, processes w !! i = Some p → processes w !! j = Some q →
    held (stage p) = Some t → held (stage q) = Some t → i = j;
}.

Lemma held_other d p t : stage_ok d p → held (stage p) = Some t → t ≠ path ∧ is_Some (names d !! t).
Proof. unfold stage_ok. destruct (stage p); cbn; try done; intros H [= ->]; naive_solver. Qed.

Lemma turn_ok w i c : world_ok w →
  match stage <$> processes w !! i, c with Some (Linking _ _ _ _), Fails _ => False | _, _ => True end →
  world_ok (turn G path has_parent w i c).
Proof.
  intros [Hs Hh] Hl. unfold turn. destruct (processes w !! i) as [p |] eqn:Ep; [| by split].
  destruct (advance G path has_parent (disk w) p c) as [d' s] eqn:Ea.
  pose proof (Hs _ _ Ep) as Hp. destruct (load_step_ok (disk w) p c d' s Hp Hl Ea) as (Hok & Hm & Hnew).
  assert (Hother : ∀ j q, j ≠ i → processes w !! j = Some q → ∀ u, held (stage q) = Some u → held (stage p) ≠ Some u).
  { intros j q Hne Eq u Hu Hu'. by destruct Hne, (Hh j i q p u). }
  assert (Hnew' : ∀ j q u, j ≠ i → processes w !! j = Some q → held s = Some u → held (stage q) ≠ Some u).
  { intros j q u Hne Eq Hu Hq. destruct (Hnew u Hu) as [Hu' | Hu']; [by eapply Hother |].
    destruct (held_other _ _ _ (Hs _ _ Eq) Hq) as [_ [? ?]]. congruence. }
  split; cbn.
  - intros j q [(<- & <- & _) | [Hne Eq]]%list_lookup_insert_Some; [done |].
    apply stage_ok_frame with (held (stage p)) (disk w); [done | | by eapply Hother | by eapply Hs].
    intros Hu. by destruct (held_other _ _ _ Hp Hu).
  - intros j k q r u [(<- & <- & _) | [Hj Eq]]%list_lookup_insert_Some [(<- & <- & _) | [Hk Er]]%list_lookup_insert_Some Hq Hr; cbn in *.
    + done.
    + by destruct (Hnew' k r u).
    + by destruct (Hnew' j q u).
    + by eapply Hh.
Qed.

(** A key comes to be stored whole, from a process that made it. *)
Lemma advance_stored d p c d' s k : stage_ok d p →
  match stage p, c with Linking _ _ _ _, Fails _ => False | _, _ => True end →
  advance G path has_parent d p c = (d', s) → file_at d' path = Some k → file_at d path = Some k ∨ drawn p = Some k.
Proof.
  intros Hok Hl. unfold advance, stage_ok in *.
  destruct (stage p) as [| | id k' t | id k' t f | | id k' t f | | | id t r | |] eqn:Es; try done; try (intros [= <- <-]; by left).
  - destruct Hok as [_ Ht]. unfold open_new. destruct (names d !! t); [intros [= <- <-]; by left |].
    destruct c; intros [= <- <-]; [| by left]. unfold file_at. cbn. rewrite lookup_insert_ne by done.
    intros (f & Ef & Ek)%bind_Some. rewrite lookup_insert_ne in Ek; [left; by rewrite Ef |].
    intros <-. by apply new_file_unseen in Ef.
  - destruct Hok as (_ & Ht & _ & Hx). unfold write_all.
    assert (∀ bytes, file_at (MkDisk (names d) (<[f := bytes]> (data d))) path = Some k → file_at d path = Some k) as H.
    { intros bytes (g & Eg & Ek)%bind_Some. unfold file_at. cbn in *. rewrite Eg. cbn.
      rewrite lookup_insert_ne in Ek; [done |]. intros ->. apply Hx in Eg. congruence. }
    destruct c; intros [= <- <-]; left; by eapply H.
  - destruct Hok as ([Hd _] & Ht & Hf & Hk), c; [| done]. unfold hard_link. rewrite Hf.
    destruct (names d !! path); intros [= <- <-]; [by left |]. unfold file_at. cbn. rewrite lookup_insert_eq. cbn.
    rewrite Hk. intros [= <-]. by right.
  - destruct Hok as [Ht _]. intros [= <- <-]. left. unfold remove_file in *. destruct c; [| done].
    unfold file_at in *. cbn in *. by rewrite lookup_delete_ne in H.
Qed.

Lemma turn_drawn w i c : drawn <$> processes (turn G path has_parent w i c) = drawn <$> processes w.
Proof.
  unfold turn. destruct (processes w !! i) as [p |] eqn:Ep; [| done]. destruct (advance _ _ _ _ _ _) as [d' s]. cbn.
  rewrite list_fmap_insert. cbn. apply list_insert_id. by rewrite list_lookup_fmap, Ep.
Qed.

(** What is stored stays, and whoever loaded it holds it. *)
Lemma turn_keeps w i c : world_ok w →
  match stage <$> processes w !! i, c with Some (Linking _ _ _ _), Fails _ => False | _, _ => True end →
  let w' := turn G path has_parent w i c in
  (∀ k, file_at (disk w) path = Some k → file_at (disk w') path = Some k) ∧
  (∀ k, file_at (disk w') path = Some k → file_at (disk w) path = Some k ∨ Some k ∈ drawn <$> processes w).
Proof.
  intros [Hs Hh] Hl. unfold turn. destruct (processes w !! i) as [p |] eqn:Ep; cbn; [| by auto].
  destruct (advance G path has_parent (disk w) p c) as [d' s] eqn:Ea. pose proof (Hs _ _ Ep) as Hp. cbn. split; intros k Hk.
  - destruct (load_step_ok _ _ _ _ _ Hp Hl Ea) as (_ & Hm & _). eapply moves_file; [done | | done].
    intros Hu. by destruct (held_other _ _ _ Hp Hu).
  - destruct (advance_stored _ _ _ _ _ k Hp Hl Ea Hk) as [? | E]; [by left |]. right. rewrite <- E.
    apply list_elem_of_fmap_2. by eapply list_elem_of_lookup_2.
Qed.

Lemma run_keeps turns w : world_ok w → links_work G path has_parent w turns = true →
  let w' := run G path has_parent w turns in
  world_ok w' ∧ drawn <$> processes w' = drawn <$> processes w ∧
  (∀ k, file_at (disk w) path = Some k → file_at (disk w') path = Some k) ∧
  (∀ k, file_at (disk w') path = Some k → file_at (disk w) path = Some k ∨ Some k ∈ drawn <$> processes w).
Proof.
  revert w. induction turns as [| [i c] turns IH]; intros w Hw Hl; cbn; [by auto |].
  cbn in Hl. apply andb_true_iff in Hl as [Hc Hl].
  assert (match stage <$> processes w !! i, c with Some (Linking _ _ _ _), Fails _ => False | _, _ => True end) as Hc'
    by (destruct (stage <$> processes w !! i) as [[] |], c; done).
  destruct (turn_keeps w i c Hw Hc') as [H1 H2].
  destruct (IH (turn G path has_parent w i c)) as (H3 & H4 & H5 & H6); [by apply turn_ok | done |].
  rewrite turn_drawn in H4, H6. split; [done |]. split; [done |]. split; [by auto |].
  intros k Hk. destruct (H6 k Hk); auto.
Qed.

Lemma world_starts d ps : Forall (λ p, stage p = Reading) ps → world_ok (MkWorld d ps).
Proof.
  intros Hr. assert (∀ i p, ps !! i = Some p → stage p = Reading) as H by (intros i p E; by eapply Forall_lookup_1 in Hr).
  split; cbn.
  - intros i p E%H. unfold stage_ok. by rewrite E.
  - intros i j p q t Ep%H. by rewrite Ep.
Qed.

(** ** Every process ends *)

(** The calls a process still makes, at most. *)
Definition calls_left s : nat :=
  match s with
  | Reading => 10 | MakingDir _ _ => 9 | Opening _ _ _ => 8 | Writing _ _ _ _ => 7 | Syncing _ _ _ _ => 6
  | Linking _ _ _ _ => 5 | Looking _ _ => 4 | Renaming _ _ => 3 | Removing _ _ _ => 2 | Rereading => 1 | Finished _ => 0
  end.

Lemma advance_ends d p c : (calls_left (advance G path has_parent d p c).2 ≤ calls_left (stage p) - 1)%nat.
Proof.
  unfold advance, create, draw_suffix, after_link, after_look. destruct (stage p) as [| | | | | | | | id t [| []] | | ]; cbn.
  - destruct (read d path c) as [| []]; cbn; try lia. destruct (generate G (drawn p)) as [[] |]; cbn; [| lia].
    destruct has_parent, (suffix p); cbn; lia.
  - destruct c, (suffix p); cbn; lia.
  - destruct (open_new _ _ _) as [? []]; cbn; lia.
  - destruct (write_all _ _ _ _) as [? []]; cbn; lia.
  - destruct c; cbn; lia.
  - destruct (hard_link _ _ _ _) as [? [| []]]; cbn; lia.
  - destruct (exists_at _ _ _); cbn; lia.
  - destruct (rename _ _ _ _); cbn; lia.
  - lia.
  - lia.
  - lia.
  - lia.
  - destruct (read _ _ _); cbn; lia.
  - lia.
Qed.

(** The turns a process had. *)
Definition turns_of (i : nat) (turns : list (nat * Call)) : nat := length (filter (λ t, t.1 = i) turns).

Lemma run_ends turns w i p : processes w !! i = Some p →
  ∃ p', processes (run G path has_parent w turns) !! i = Some p' ∧
    (calls_left (stage p') ≤ calls_left (stage p) - turns_of i turns)%nat.
Proof.
  unfold turns_of. revert w p. induction turns as [| [j c] turns IH]; intros w p Ep; cbn [run foldl]; [exists p; split; [done | cbn; lia] |].
  rewrite filter_cons. cbn [fst snd].
  assert (∃ q, processes (turn G path has_parent w j c) !! i = Some q ∧
    (calls_left (stage q) ≤ calls_left (stage p) - (if decide (j = i) then 1 else 0))%nat) as (q & Eq & Hq).
  { unfold turn. destruct (decide (j = i)) as [-> | Hne].
    - rewrite Ep. pose proof (advance_ends (disk w) p c). destruct (advance _ _ _ _ _ _) as [d' s]. cbn in *.
      eexists. split; [apply list_lookup_insert_eq; by eapply lookup_lt_Some | done].
    - exists p. destruct (processes w !! j); [| split; [done | lia]]. destruct (advance _ _ _ _ _ _). cbn.
      rewrite list_lookup_insert_ne by done. split; [done | lia]. }
  destruct (IH _ _ Eq) as (p' & Ep' & Hp'). exists p'. split; [done |]. destruct (decide (j = i)); cbn [length]; lia.
Qed.
End agree.

(** C26: however many agents start at once, and however their calls of the file system
    interleave and fail, and whoever of them crashes on the way: where the file system can
    make links, the key that is stored stays, and is whole, the one that was there or one
    that an agent made; every agent that gets an identity gets the stored one; and each
    comes to an end within ten calls. *)
Theorem identities_agree (G : Ring) (path : Name) (has_parent : bool) (d : Disk) (ps : list (Process G))
    (before later : list (nat * Call)) :
  Forall (λ p, stage p = Reading) ps →
  let start := MkWorld d ps in
  links_work G path has_parent start (before ++ later) = true →
  let w := run G path has_parent start before in
  let w' := run G path has_parent start (before ++ later) in
  (∀ key, file_at (disk w) path = Some key →
    file_at (disk w') path = Some key ∧ (file_at d path = Some key ∨ Some key ∈ drawn <$> ps)) ∧
  (∀ p identity, p ∈ processes w → stage p = Finished (Ok identity) →
    ∃ key, file_at (disk w') path = Some key ∧ from_pkcs8 G key = Ok identity) ∧
  (∀ i, (i < length ps)%nat → (10 ≤ turns_of i before)%nat →
    ∃ p loaded, processes w !! i = Some p ∧ stage p = Finished loaded).
Proof.
  intros Hr start Hl w w'. pose proof (world_starts G path d ps Hr) as H0. fold start in H0.
  assert (Hsplit : ∀ turns1 turns2 w, links_work G path has_parent w (turns1 ++ turns2) =
    links_work G path has_parent w turns1 && links_work G path has_parent (run G path has_parent w turns1) turns2).
  { induction turns1 as [| [i c] turns1 IH]; intros turns2 v; cbn; [done |]. by rewrite IH, andb_assoc. }
  rewrite Hsplit in Hl. apply andb_true_iff in Hl as [Hl1 Hl2]. fold w in Hl2.
  destruct (run_keeps G path has_parent before start H0 Hl1) as (Hw & Hd & _ & Hmade). fold w in Hw, Hd, Hmade.
  destruct (run_keeps G path has_parent later w Hw Hl2) as (_ & _ & Hkeep & _).
  assert (Ew : run G path has_parent w later = w') by (unfold w, w', run; by rewrite foldl_app). rewrite Ew in Hkeep.
  split; [| split].
  - intros key Hk. split; [by apply Hkeep | by apply Hmade].
  - intros p identity [i Hi]%list_elem_of_lookup_1 Hs. pose proof (wo_stages _ _ _ Hw _ _ Hi) as Hp.
    unfold stage_ok in Hp. rewrite Hs in Hp. destruct Hp as (key & Hk & Hid). exists key. by split; [apply Hkeep |].
  - intros i [p Hp]%lookup_lt_is_Some_2 Hn. destruct (run_ends G path has_parent before start i p Hp) as (p' & Hp' & Hc).
    exists p'. eapply Forall_lookup_1 in Hr; [| exact Hp]. cbn in Hr. rewrite Hr in Hc. cbn in Hc.
    destruct (stage p') eqn:Es; cbn in Hc; try lia. by eexists.
Qed.

(** * Which keys are refused *)

(** The curve's field, and the encoded coordinate of a key, its sign aside. *)
Definition FIELD : Z := 2 ^ 255 - 19.
Definition coordinate (key : list Z) : Z := from_le_bytes key mod 2 ^ 255.

(** The coordinates of the points whose order divides eight: of order one and two, of
    order four, and of order eight. *)
Definition ORDER_EIGHT : Z := 0x5fc536d880238b13933c6d305acdfd5f098eff289f4c345b027b2c28f95e826.
Definition small_coordinates : list Z := [0; 1; FIELD - 1; ORDER_EIGHT; FIELD - ORDER_EIGHT].

(** On the curve [-x^2 + y^2 = 1 + d x^2 y^2], [d = -121665/121666], the double of a
    point has [y = 0] just when [d y^4 + 2 y^2 - 1 = 0], and a point with [y = 0] has the
    double [(0, -1)]. *)
Definition eight_torsion (y : Z) : Z := (y * (y ^ 2 - 1) * (- 121665 * y ^ 4 + 2 * 121666 * y ^ 2 - 121666)) mod FIELD.

Lemma from_le_app l k : from_le_bytes (l ++ k) = from_le_bytes l + 256 ^ Z.of_nat (length l) * from_le_bytes k.
Proof.
  induction l as [| b l IH]; cbn [app from_le_bytes length]; [lia |].
  rewrite IH, Nat2Z.inj_succ, Z.pow_succ_r by lia. lia.
Qed.

Lemma from_le_inj l k : Forall is_byte l → Forall is_byte k → length l = length k → from_le_bytes l = from_le_bytes k → l = k.
Proof. intros Hl Hk Hn E. rewrite <- (le_bytes_made l Hl), <- (le_bytes_made k Hk), Hn. by f_equal. Qed.

Lemma key_split key : length key = 32%nat → key = take 31 key ++ [nth 31 key 0].
Proof.
  intros H. rewrite <- (take_drop 31 key) at 1. f_equal.
  destruct (drop 31 key) as [| b [| c r]] eqn:E; pose proof (f_equal length E) as E'; rewrite length_drop, H in E'; try done.
  replace b with (nth 0 (drop 31 key) 0) by (by rewrite E). by rewrite nth_skipn.
Qed.

Lemma coordinate_split key : length key = 32%nat → Forall is_byte key →
  coordinate key = from_le_bytes (take 31 key) + 256 ^ 31 * Z.land (nth 31 key 0) 0x7f ∧
  0 ≤ from_le_bytes (take 31 key) < 256 ^ 31 ∧ 0 ≤ Z.land (nth 31 key 0) 0x7f < 128.
Proof.
  intros Hn Hb. assert (length (take 31 key) = 31%nat) as Ht by (rewrite length_take; lia).
  pose proof (from_le_range (take 31 key) (Forall_take _ _ _ Hb)) as Hr. rewrite Ht in Hr.
  change (256 ^ Z.of_nat 31) with (256 ^ 31) in Hr.
  assert (Z.land (nth 31 key 0) 0x7f = nth 31 key 0 mod 128) as El by (change 0x7f with (Z.ones 7); by rewrite Z.land_ones).
  split; [| split; [done | rewrite El; by apply Z.mod_pos_bound]].
  unfold coordinate. rewrite El. rewrite (key_split key Hn) at 1. rewrite from_le_app, Ht. cbn [from_le_bytes].
  change (256 ^ Z.of_nat 31) with (256 ^ 31). set (a := from_le_bytes (take 31 key)) in *. set (b := nth 31 key 0).
  pose proof (Z.mod_pos_bound b 128). pose proof (Z.div_mod b 128).
  symmetry. apply Z.mod_unique with (b / 128); [left | ]; change (2 ^ 255) with (256 ^ 31 * 128); lia.
Qed.

Lemma same_point_iff key point : length key = 32%nat → Forall is_byte key →
  length point = 32%nat → Forall is_byte point → nth 31 point 0 < 128 →
  same_point key point = true ↔ coordinate key = from_le_bytes point.
Proof.
  intros Hk Hbk Hp Hbp Htop. destruct (coordinate_split key Hk Hbk) as (E & Hr & Hl).
  destruct (coordinate_split point Hp Hbp) as (E' & Hr' & Hl').
  assert (Hb : is_byte (nth 31 point 0)) by (eapply Forall_forall; [exact Hbp |]; apply list_elem_of_In, nth_In; lia). unfold is_byte in Hb.
  assert (Hland : Z.land (nth 31 point 0) 0x7f = nth 31 point 0).
  { change 0x7f with (Z.ones 7). rewrite Z.land_ones by done. apply Z.mod_small. change (2 ^ 7) with 128. lia. }
  assert (Ep : coordinate point = from_le_bytes point).
  { unfold coordinate. apply Z.mod_small. pose proof (key_split point Hp) as Es. rewrite Es, from_le_app, length_take, Hp. cbn [from_le_bytes].
    change (256 ^ Z.of_nat (31 `min` 32)) with (256 ^ 31). change (2 ^ 255) with (256 ^ 31 * 128). lia. }
  rewrite <- Ep, E, E', Hland. unfold same_point. rewrite andb_true_iff, bool_decide_eq_true, Z.eqb_eq. rewrite Hland in E', Hl'. split; [by intros [-> ->] |].
  intros Heq. assert (from_le_bytes (take 31 key) = from_le_bytes (take 31 point) ∧ Z.land (nth 31 key 0) 0x7f = nth 31 point 0) as [H1 H2] by nia.
  split; [| done]. apply from_le_inj; [by apply Forall_take | by apply Forall_take | rewrite !length_take; lia | done].
Qed.

(** A key is refused exactly if its coordinate, however it is encoded, is one of those,
    and they are of points of small order. *)
Lemma small_order_exact key : length key = 32%nat → Forall is_byte key →
  (has_small_order key = true ↔ coordinate key mod FIELD ∈ small_coordinates) ∧
  Forall (λ y, eight_torsion y = 0) small_coordinates.
Proof.
  intros Hn Hb. split; [| by repeat constructor].
  assert (Hany : has_small_order key = true ↔ coordinate key ∈ from_le_bytes <$> SMALL_ORDER).
  { unfold has_small_order. rewrite Hn. cbn [negb Nat.eqb]. rewrite existsb_exists, list_elem_of_fmap.
    assert (Hall : Forall (λ q, length q = 32%nat ∧ Forall is_byte q ∧ nth 31 q 0 < 128) SMALL_ORDER).
    { repeat (constructor; [split; [reflexivity |]; split; [| reflexivity]; cbn; repeat (constructor; [unfold is_byte; lia |]); constructor |]). constructor. }
    rewrite Forall_forall in Hall. split.
    - intros (q & Hq%list_elem_of_In & Hs). destruct (Hall _ Hq) as (? & ? & ?). exists q. split; [by apply same_point_iff | done].
    - intros (q & Hs & Hq). destruct (Hall _ Hq) as (? & ? & ?). exists q. split; [by apply list_elem_of_In | by apply same_point_iff]. }
  rewrite Hany. assert (0 ≤ coordinate key < 2 ^ 255) as Hr by (unfold coordinate; by apply Z.mod_pos_bound).
  revert Hr. generalize (coordinate key). intros v Hr.
  change (from_le_bytes <$> SMALL_ORDER) with [0; 1; ORDER_EIGHT; FIELD - ORDER_EIGHT; FIELD - 1; FIELD; FIELD + 1].
  unfold small_coordinates. rewrite !elem_of_cons, !elem_of_nil.
  assert (v mod FIELD = v ∧ v < FIELD ∨ v mod FIELD = v - FIELD ∧ FIELD ≤ v) as [[-> ?] | [-> ?]].
  { unfold FIELD in *. destruct (decide (v < 2 ^ 255 - 19)); [left; split; [apply Z.mod_small; lia | done] |].
    right. split; [| lia]. symmetry. apply Z.mod_unique with 1; lia. }
  all: unfold FIELD, ORDER_EIGHT in *; lia.
Qed.

(** * A proof counts in one session *)

(** What [ring] documents of keys and signatures: their lengths, and that a signature of
    a key's holder verifies. *)
Class RingLaws (G : Ring) : Prop := {
  public_bytes : ∀ k, Forall is_byte (public_key G k);
  signature_bytes : ∀ k m, length (sign G k m) = 64%nat ∧ Forall is_byte (sign G k m);
  signature_verifies : ∀ k m, verify G (public_key G k) m (sign G k m) = true;
}.

(** A signature the holder of [k] made of one message, and that passes for one of a
    message it never signed. *)
Definition forges (G : Ring) (k : KeyPair G) (signed forged : list Z) : Prop :=
  forged ≠ signed ∧ verify G (public_key G k) forged (sign G k signed) = true.

Lemma player_bytes G {GL : RingLaws G} pkcs8 id : from_pkcs8 G pkcs8 = Ok id →
  fixed_bytes 32 (player id) = public_key G (key_pair id).
Proof.
  unfold from_pkcs8. destruct (pair_of_pkcs8 G pkcs8) as [k |]; cbn; [| done].
  destruct (length (public_key G k) =? 32)%nat eqn:E; cbn; [| done]. intros [= <-]. cbn.
  apply (fixed_made 32); [by apply Nat.eqb_eq | apply public_bytes].
Qed.

(** What it takes for anything that is presented as a proof to be accepted. *)
Lemma verify_proof_iff (G : Ring) {Connection : Type} (export_keying_material : Connection → list Z → list Z → option (list Z))
    (checked : Connection) (who : PlayerId) (proof : Z) :
  verify_proof G export_keying_material checked who proof = true ↔
  coordinate (fixed_bytes 32 who) mod FIELD ∉ small_coordinates ∧
  ∃ material, export_keying_material checked AUTH_EXPORTER_LABEL [] = Some material ∧
    verify G (fixed_bytes 32 who) (AUTH_DOMAIN ++ material) (fixed_bytes 64 proof) = true.
Proof.
  destruct (small_order_exact (fixed_bytes 32 who) (fixed_length _ _) (fixed_bytes_bytes _ _)) as [<- _].
  unfold verify_proof, auth_message. destruct (has_small_order _); [by split; [| intros [? _]] |].
  destruct (export_keying_material checked AUTH_EXPORTER_LABEL []) as [e |]; cbn [ok_or result_bind].
  - split; [by eauto | by intros (_ & material & [= <-] & ?)].
  - by split; [| intros (_ & material & ? & _)].
Qed.

(** C27: whatever is presented as a proof of an identity, by whomever it was made, is
    accepted only if it is a signature, under the key the identity is, of the domain and
    of the keying material of the very session it is presented in; and never if the key
    is of small order, so that a signature could be made up without a private key: the
    coordinates refused, in every encoding, are roots of the polynomial that vanishes on
    the points whose order divides eight.  The proof an agent makes for a session is
    accepted at the other end of that session.  In a session with other keying material
    it is accepted only if the signature is at the same time a forged one, of a message
    its holder never signed: a server that relays the proof to another server, or
    anybody who has seen it, gains nothing without breaking the signature scheme. *)
Theorem proof_bound (G : Ring) {GL : RingLaws G} {Connection : Type}
    (export_keying_material : Connection → list Z → list Z → option (list Z)) :
  (∀ checked who proof,
    verify_proof G export_keying_material checked who proof = true ↔
    coordinate (fixed_bytes 32 who) mod FIELD ∉ small_coordinates ∧
    ∃ material, export_keying_material checked AUTH_EXPORTER_LABEL [] = Some material ∧
      verify G (fixed_bytes 32 who) (AUTH_DOMAIN ++ material) (fixed_bytes 64 proof) = true) ∧
  (∀ y, y ∈ small_coordinates → eight_torsion y = 0) ∧
  (∀ checked who proof, coordinate (fixed_bytes 32 who) mod FIELD ∈ small_coordinates →
    verify_proof G export_keying_material checked who proof = false) ∧
  (∀ pkcs8 identity made material proof,
    from_pkcs8 G pkcs8 = Ok identity →
    export_keying_material made AUTH_EXPORTER_LABEL [] = Some material →
    prove G export_keying_material identity made = Ok proof →
    (∀ checked, coordinate (fixed_bytes 32 (player identity)) mod FIELD ∉ small_coordinates →
      export_keying_material checked AUTH_EXPORTER_LABEL [] = Some material →
      verify_proof G export_keying_material checked (player identity) proof = true) ∧
    (∀ checked, verify_proof G export_keying_material checked (player identity) proof = true →
      export_keying_material checked AUTH_EXPORTER_LABEL [] = Some material ∨
      ∃ other, export_keying_material checked AUTH_EXPORTER_LABEL [] = Some other ∧
        forges G (key_pair identity) (AUTH_DOMAIN ++ material) (AUTH_DOMAIN ++ other))).
Proof.
  split; [intros; apply verify_proof_iff |]. split.
  { apply (proj1 (Forall_forall _ _)), (small_order_exact (fixed_bytes 32 0) (fixed_length _ _) (fixed_bytes_bytes _ _)). }
  split.
  { intros checked who proof Hs. apply not_true_iff_false. by intros [? _]%verify_proof_iff. }
  intros pkcs8 identity made material proof Hid Hm Hp.
  assert (fixed_bytes 64 proof = sign G (key_pair identity) (AUTH_DOMAIN ++ material)) as Hs.
  { destruct (signature_bytes (key_pair identity) (AUTH_DOMAIN ++ material)) as [Hl Hb].
    unfold prove, auth_message in Hp. rewrite Hm in Hp. cbn [ok_or result_bind] in Hp. rewrite Hl in Hp.
    injection Hp as <-. by apply fixed_made. }
  split.
  - intros checked Hy Hc. apply verify_proof_iff. split; [done |]. exists material. split; [done |].
    rewrite Hs, (player_bytes G pkcs8 identity Hid). apply signature_verifies.
  - intros checked (_ & other & Hc & Hv)%verify_proof_iff. rewrite Hs, (player_bytes G pkcs8 identity Hid) in Hv.
    destruct (decide (other = material)) as [-> | Hne]; [by left |]. right. exists other. split; [done |].
    split; [| done]. by intros ?%app_inv_head.
Qed.

(** * Two agents *)

Module IdentityExamples.
(** Keys that are their public halves, and signatures that show what they sign. *)
Definition signature (k m : list Z) : list Z := take 64 ((m ++ take 18 k) ++ replicate 64 0).

Definition low_bytes (l : list Z) : list Z := (λ z, z mod 256) <$> l.

Definition toy : Ring := {|
  KeyPair := list Z;
  pair_of_pkcs8 l := if (length l =? 32)%nat then Some l else None;
  public_key k := low_bytes k;
  sign k m := low_bytes (signature (low_bytes k) m);
  verify p m s := bool_decide (s = low_bytes (signature p m));
|}.

Definition key_file : Name := (chars "identity", Some (chars "key")).
Definition key1 : list Z := replicate 32 5.
Definition key2 : list Z := replicate 32 6.
Definition agents : list (Process toy) := [
  MkProcess (Some key1) (Some (replicate 8 1)) Reading; MkProcess (Some key2) (Some (replicate 8 2)) Reading].
Definition empty : Disk := MkDisk ∅ ∅.

(** Both find no key; the second links first, the first after it, and reads it. *)
Definition race : list (nat * Call) := (λ i, (i, Works)) <$>
  [0; 1; 0; 1; 0; 1; 0; 1; 0; 1; 1; 0; 1; 0; 0; 0; 0; 0]%nat.
Definition later : list (nat * Call) := (λ i, (i, Works)) <$> [1; 1; 0]%nat.

Definition loaded (w : World toy) (i : nat) : option PlayerId :=
  match stage <$> processes w !! i with Some (Finished (Ok id)) => Some (player id) | _ => None end.

(** A file system without hard links: both look, and then both rename. *)
Definition no_links : list (nat * Call) :=
  ((λ i, (i, Works)) <$> [0; 1; 0; 1; 0; 1; 0; 1; 0; 1]%nat) ++ [(0, Fails 0); (1, Fails 0)]%nat ++
  ((λ i, (i, Works)) <$> [0; 1; 0; 1; 0; 1]%nat).
End IdentityExamples.

Lemma low_bytes_bytes l : Forall is_byte (IdentityExamples.low_bytes l).
Proof. apply Forall_fmap, Forall_true. intros z. apply Z.mod_pos_bound. lia. Qed.

Lemma low_bytes_id l : Forall is_byte l → IdentityExamples.low_bytes l = l.
Proof. induction 1 as [| b l Hb _ IH]; cbn; [done |]. f_equal; [by apply Z.mod_small | exact IH]. Qed.

#[export] Instance toy_laws : RingLaws IdentityExamples.toy.
Proof.
  split; cbn.
  - intros k. apply low_bytes_bytes.
  - intros k m. split; [| apply low_bytes_bytes]. unfold IdentityExamples.low_bytes, IdentityExamples.signature.
    rewrite length_fmap, length_take, !length_app, length_replicate. lia.
  - intros k m. by apply bool_decide_eq_true.
Qed.

Lemma identities_agree_witness :
  let w := run IdentityExamples.toy IdentityExamples.key_file true (MkWorld IdentityExamples.empty IdentityExamples.agents) IdentityExamples.race in
  ∃ id key, stage <$> processes w !! 0%nat = Some (Finished (Ok id)) ∧ stage <$> processes w !! 1%nat = Some (Finished (Ok id)) ∧
    player id = from_fixed IdentityExamples.key2 ∧
    file_at (disk (run IdentityExamples.toy IdentityExamples.key_file true
      (MkWorld IdentityExamples.empty IdentityExamples.agents) (IdentityExamples.race ++ IdentityExamples.later))) IdentityExamples.key_file = Some key ∧
    from_pkcs8 IdentityExamples.toy key = Ok id.
Proof.
  intros w.
  destruct (identities_agree IdentityExamples.toy IdentityExamples.key_file true IdentityExamples.empty IdentityExamples.agents
    IdentityExamples.race IdentityExamples.later) as (_ & Hown & _).
  - by repeat constructor.
  - vm_compute. reflexivity.
  - fold w in Hown. set (id := @MkIdentity IdentityExamples.toy IdentityExamples.key2 (from_fixed IdentityExamples.key2)).
    assert (E0 : stage <$> processes w !! 0%nat = Some (Finished (Ok id))) by (vm_compute; reflexivity).
    assert (E1 : stage <$> processes w !! 1%nat = Some (Finished (Ok id))) by (vm_compute; reflexivity).
    clearbody w. pose proof E0 as (p & Ep & Es)%fmap_Some.
    destruct (Hown p id) as (key & Hk & Hid); [by eapply list_elem_of_lookup_2 | by symmetry |].
    exists id, key. split; [exact E0 |]. split; [exact E1 |]. split; [reflexivity |]. split; [exact Hk | exact Hid].
Defined.

(** Without hard links, two agents that start at once may each believe in a key of its
    own, and only one of them is stored. *)
Lemma renames_race :
  let w := run IdentityExamples.toy IdentityExamples.key_file true (MkWorld IdentityExamples.empty IdentityExamples.agents)
    IdentityExamples.no_links in
  IdentityExamples.loaded w 0 = Some (from_fixed IdentityExamples.key1) ∧
  IdentityExamples.loaded w 1 = Some (from_fixed IdentityExamples.key2) ∧
  file_at (disk w) IdentityExamples.key_file = Some IdentityExamples.key2.
Proof. vm_compute. auto. Qed.

Lemma proof_bound_witness :
  let export (c : bool) (_ _ : list Z) := Some (replicate 32 (if c then 1 else 2)) in
  let id := @MkIdentity IdentityExamples.toy IdentityExamples.key1 (from_fixed IdentityExamples.key1) in
  ∃ proof, prove IdentityExamples.toy export id true = Ok proof ∧
    verify_proof IdentityExamples.toy export true (player id) proof = true ∧
    ¬ (verify_proof IdentityExamples.toy export false (player id) proof = true).
Proof.
  intros export id. destruct (prove IdentityExamples.toy export id true) as [proof |] eqn:Ep; [| vm_compute in Ep; discriminate].
  exists proof. split; [reflexivity |].
  destruct (proof_bound IdentityExamples.toy export) as (_ & _ & _ & H).
  destruct (H IdentityExamples.key1 id true (replicate 32 1) proof) as [Hown Hother]; [reflexivity | reflexivity | exact Ep |].
  split.
  - apply Hown; [| reflexivity]. apply (bool_decide_unpack _). vm_compute. exact I.
  - intros [E | (other & [= <-] & _ & E)]%Hother; [discriminate |]. vm_compute in E. discriminate.
Defined.
