(* ===== verification/Codec.v ===== *)
(** A concrete message encoding: combinators for encoders with their decoders,
    each with the round-trip law, and the encoding of turn messages they give.
    It stands in for postcard where a theorem about encoded turns is applied to
    a concrete game; its laws show that those [Proto] asks of postcard can
    hold. *)
From S2P Require Import Prelude Proto.
Local Open Scope Z_scope.

Class Codec (A : Type) := {
  encode : A → list Z;
  decode : list Z → option (A * list Z);
  codec_law (a : A) (rest : list Z) : decode (encode a ++ rest) = Some (a, rest);
}.

#[export, refine] Instance codec_Z : Codec Z := {
  encode z := [z];
  decode l := match l with [] => None | z :: rest => Some (z, rest) end;
}.
Proof. done. Defined.

#[export, refine] Instance codec_pair {A B} `{Codec A, Codec B} : Codec (A * B) := {
  encode p := encode p.1 ++ encode p.2;
  decode l := a ← decode l; b ← decode a.2; Some ((a.1, b.1), b.2);
}.
Proof.
  intros [a b] rest. simpl. rewrite <- app_assoc, codec_law. simpl. by rewrite codec_law.
Defined.

(** A list: its length, then its elements. *)
Fixpoint decode_n {A} `{Codec A} (n : nat) (l : list Z) : option (list A * list Z) :=
  match n with
  | O => Some ([], l)
  | S n => a ← decode l; r ← decode_n n a.2; Some (a.1 :: r.1, r.2)
  end.

Lemma decode_n_law {A} `{Codec A} (l : list A) rest :
  decode_n (length l) ((l ≫= encode) ++ rest) = Some (l, rest).
Proof.
  induction l as [| a l IH]; csimpl; [done |]. rewrite <- app_assoc, codec_law. simpl. by rewrite IH.
Qed.

#[export, refine] Instance codec_list {A} `{Codec A} : Codec (list A) := {
  encode l := Z.of_nat (length l) :: (l ≫= encode);
  decode l := match l with [] => None | n :: rest => decode_n (Z.to_nat n) rest end;
}.
Proof. intros l rest. simpl. rewrite Nat2Z.id. apply decode_n_law. Defined.

(** A type whose values are others in disguise. *)
Definition codec_iso {A B} `{Codec B} (to : A → B) (from : B → option A)
    (Hiso : ∀ a, from (to a) = Some a) : Codec A.
Proof.
  refine {| encode a := encode (to a);
            decode l := b ← decode l; a ← from b.1; Some (a, b.2) |}.
  intros a rest. rewrite codec_law. simpl. by rewrite Hiso.
Defined.

#[export] Instance codec_bool : Codec bool.
Proof.
  refine (codec_iso (λ b : bool, if b then 1 else 0) (λ z, Some (negb (z =? 0))) _).
  by intros [].
Defined.

#[export] Instance codec_nat : Codec nat.
Proof.
  refine (codec_iso Z.of_nat (λ z, Some (Z.to_nat z)) _). intros n. by rewrite Nat2Z.id.
Defined.

Lemma string_codes s :
  String.string_of_list_ascii (Ascii.ascii_of_nat <$> (Ascii.nat_of_ascii <$> String.list_ascii_of_string s)) = s.
Proof.
  rewrite <- list_fmap_compose. induction s as [| c s IH]; csimpl; [done |].
  rewrite Ascii.ascii_nat_embedding. f_equal. exact IH.
Qed.

#[export] Instance codec_string : Codec string.
Proof.
  refine (codec_iso (λ s, Ascii.nat_of_ascii <$> String.list_ascii_of_string s)
    (λ l, Some (String.string_of_list_ascii (Ascii.ascii_of_nat <$> l))) _).
  intros s. f_equal. apply string_codes.
Defined.

#[export] Instance codec_option {A} `{Codec A} : Codec (option A).
Proof.
  refine (codec_iso option_list (λ l, Some (head l)) _). by intros [].
Defined.

#[export] Instance codec_Platform : Codec Platform.
Proof.
  refine (codec_iso
    (λ p, (match os p with Windows => 0 | Linux => 1 | MacOs => 2 | OtherOs => 3 end,
           match arch p with X86_64 => 0 | Aarch64 => 1 | OtherArch => 2 end))
    (λ z, Some (MkPlatform (match z.1 with 0 => Windows | 1 => Linux | 2 => MacOs | _ => OtherOs end)
           (match z.2 with 0 => X86_64 | 1 => Aarch64 | _ => OtherArch end))) _).
  by intros [[] []].
Defined.

(** A body is its tag and the fields of its variant. *)
Definition body_fields (b : EventBody) : Z * (Z * Z * list Z) * (string * Platform * bool) :=
  let p0 := MkPlatform Windows X86_64 in
  match b with
  | Command player client_seq payload => (0, (player, client_seq, payload), ("", p0, false))
  | PlayerJoined player name platform => (1, (player, 0, []), (name, platform, false))
  | PlayerLeft player kicked => (2, (player, 0, []), ("", p0, kicked))
  | SaveWorld => (3, (0, 0, []), ("", p0, false))
  end.

Definition body_of (f : Z * (Z * Z * list Z) * (string * Platform * bool)) : option EventBody :=
  let '(tag, (player, client_seq, payload), (name, platform, kicked)) := f in
  match tag with
  | 0 => Some (Command player client_seq payload)
  | 1 => Some (PlayerJoined player name platform)
  | 2 => Some (PlayerLeft player kicked)
  | 3 => Some SaveWorld
  | _ => None
  end.

#[export] Instance codec_EventBody : Codec EventBody.
Proof. refine (codec_iso body_fields body_of _). by intros []. Defined.

#[export] Instance codec_Event : Codec Event.
Proof.
  refine (codec_iso (λ e, (seq e, step e, body e)) (λ f, Some (MkEvent f.1.1 f.1.2 f.2)) _).
  by intros [].
Defined.

#[export] Instance codec_Turn : Codec Turn.
Proof.
  refine (codec_iso (λ t, (number t, turn_sealed_through t, turn_speed t, events t))
    (λ f, Some (MkTurn f.1.1.1 f.1.1.2 f.1.2 f.2)) _).
  by intros [].
Defined.

#[export] Instance codec_WorldOffer : Codec WorldOffer.
Proof.
  refine (codec_iso (λ o, (offer_snapshot o, offer_size o)) (λ f, Some (MkWorldOffer f.1 f.2)) _).
  by intros [].
Defined.

#[export] Instance codec_TurnStart : Codec TurnStart.
Proof.
  refine (codec_iso
    (λ s, (start_room s, start_rules s, start_next_turn s, start_next_event s,
           (start_sealed_through s, start_steps_per_second s, start_checkpoint_interval s,
            start_history s, start_world s)))
    (λ f, let '(room, rules, turn, event, (sealed, steps, interval, history, world)) := f in
          Some (MkTurnStart room rules turn event sealed steps interval history world)) _).
  by intros [].
Defined.

#[export] Instance codec_TurnMessage : Codec TurnMessage.
Proof.
  refine (codec_iso
    (λ m, match m with
          | Start s => (0, Some s, None)
          | TurnOf t => (1, None, Some t)
          end)
    (λ f, match f with
          | (0, Some s, _) => Some (Start s)
          | (1, _, Some t) => Some (TurnOf t)
          | _ => None
          end) _).
  by intros [].
Defined.

(** ** The encoding as an instance of what [Proto] asks of postcard *)
Module Concrete.
#[export] Instance turn_postcard : Postcard TurnMessage := {
  to_stdvec m := Some (encode m);
  take_from_bytes := decode;
}.
#[export] Instance turn_postcard_laws : PostcardLaws TurnMessage.
Proof.
  split.
  - intros m bytes rest Hm. injection Hm as <-. exact (codec_law m rest).
  - intros [] bytes [= <-]; discriminate.
Qed.
End Concrete.
