(* ===== verification/Pacing.v ===== *)
(** The room clock ([crates/tpf3mp-server/src/pacing.rs]): how far the
    sequencer may seal.

    [steps_in] and [advance] compute in [u128]: with a [Duration] below 2^64
    seconds and 16-bit rates and speeds the products stay below 2^117, so the
    model's unbounded integers are the code's. *)
From S2P Require Import Prelude Proto.
Local Open Scope Z_scope.

(** One step, in units of microseconds times speed percent. *)
Definition UNITS_PER_STEP : Z := 1000000 * 100.

Record Pacer := MkPacer {
  pacer_steps_per_second : Z;
  input_delay : Duration;
  max_ahead : Duration;
  ideal : Z;
  remainder : Z;
}.
#[export] Instance eta_Pacer : Eta Pacer := fun p =>
  MkPacer (pacer_steps_per_second p) (input_delay p) (max_ahead p) (ideal p) (remainder p).

Definition Pacer_new (steps_per_second : Z) (input_delay max_ahead : Duration) : Pacer :=
  MkPacer steps_per_second input_delay max_ahead 0 0.

Definition resume_at (p : Pacer) (step : Z) : Pacer :=
  p <| ideal := step |> <| remainder := 0 |>.

(** [u64::try_from(..).unwrap_or(u64::MAX)]. *)
Definition to_u64_saturating (z : Z) : Z := if z <=? u64_max then z else u64_max.

Definition div_ceil (a b : Z) : Z := (a + b - 1) / b.

Definition steps_in (p : Pacer) (duration : Duration) (speed : Speed) : Z :=
  let units := as_micros duration * pacer_steps_per_second p * speed in
  to_u64_saturating (div_ceil units UNITS_PER_STEP).

Definition lead (p : Pacer) (speed : Speed) : Z :=
  if is_paused speed then 0 else Z.max (steps_in p (input_delay p) speed) 1.

Definition window (p : Pacer) (speed : Speed) : Z :=
  let pace := Z.max speed NORMAL in
  lead p pace + steps_in p (max_ahead p) pace.

(** The clock after [elapsed], before the slowest member is considered. *)
Definition tick_clock (p : Pacer) (elapsed : Duration) (speed : Speed) : Pacer :=
  if is_paused speed then p
  else
    let units := remainder p + as_micros elapsed * pacer_steps_per_second p * speed in
    let whole := to_u64_saturating (units / UNITS_PER_STEP) in
    p <| ideal := saturating_add_u64 (ideal p) whole |>
      <| remainder := units mod UNITS_PER_STEP |>.

Definition advance (p : Pacer) (elapsed : Duration) (speed : Speed)
    (slowest : option Z) (sealed : Z) : Pacer * Z :=
  match slowest with
  | None => (p, sealed)
  | Some slowest =>
      let p := tick_clock p elapsed speed in
      let lead := lead p speed in
      let cap := saturating_add_u64 slowest (window p speed) in
      let frontier := saturating_add_u64 (ideal p) lead in
      if cap <? frontier then
        (p <| ideal := Z.min (ideal p) (saturating_sub_u64 cap lead) |> <| remainder := 0 |>,
         Z.max cap sealed)
      else (p, Z.max frontier sealed)
  end.

(** * What the clock keeps *)

Record pacer_ok (p : Pacer) : Prop := {
  po_rate : 0 ≤ pacer_steps_per_second p;
  po_delay : 0 ≤ input_delay p;
  po_ahead : 0 ≤ max_ahead p;
  po_ideal : is_u64 (ideal p);
  po_rem : 0 ≤ remainder p < UNITS_PER_STEP;
}.

Lemma to_u64_saturating_min z : to_u64_saturating z = Z.min z u64_max.
Proof. unfold to_u64_saturating. destruct (Z.leb_spec z u64_max); lia. Qed.

Lemma units_pos : 0 < UNITS_PER_STEP.
Proof. done. Qed.

Lemma div_ceil_le_mono a b : a ≤ b → div_ceil a UNITS_PER_STEP ≤ div_ceil b UNITS_PER_STEP.
Proof. intros. unfold div_ceil. apply Z.div_le_mono; [done | lia]. Qed.

Lemma div_ceil_nonneg a : 0 ≤ a → 0 ≤ div_ceil a UNITS_PER_STEP.
Proof. intros. unfold div_ceil. apply Z.div_pos; [| done]. pose proof units_pos. lia. Qed.

Lemma steps_in_nonneg p d speed :
  0 ≤ pacer_steps_per_second p → 0 ≤ d → 0 ≤ speed → 0 ≤ steps_in p d speed.
Proof.
  intros. unfold steps_in. rewrite to_u64_saturating_min.
  pose proof (as_micros_nonneg d). apply Z.min_glb; [| done].
  apply div_ceil_nonneg. apply Z.mul_nonneg_nonneg; [nia | lia].
Qed.

Lemma steps_in_mono p d s s' :
  0 ≤ pacer_steps_per_second p → 0 ≤ d → s ≤ s' → steps_in p d s ≤ steps_in p d s'.
Proof.
  intros. unfold steps_in. rewrite !to_u64_saturating_min.
  apply Z.min_le_compat_r, div_ceil_le_mono. pose proof (as_micros_nonneg d).
  apply Z.mul_le_mono_nonneg_l; [nia | lia].
Qed.

Lemma lead_nonneg p speed : pacer_ok p → 0 ≤ speed → 0 ≤ lead p speed.
Proof. intros [] ?. unfold lead. destruct (is_paused speed); [done | lia]. Qed.

Lemma lead_le_window p speed : pacer_ok p → 0 ≤ speed → lead p speed ≤ window p speed.
Proof.
  intros [] Hs. unfold window.
  pose proof (steps_in_nonneg p (max_ahead p) (Z.max speed NORMAL)).
  assert (lead p speed ≤ lead p (Z.max speed NORMAL)); [| unfold NORMAL in *; lia].
  unfold lead, is_paused. destruct (Z.eqb_spec speed 0), (Z.eqb_spec (Z.max speed NORMAL) 0);
    unfold NORMAL in *; try lia.
  pose proof (steps_in_mono p (input_delay p) speed (Z.max speed 100)). lia.
Qed.

Lemma tick_clock_ok p elapsed speed :
  pacer_ok p → 0 ≤ elapsed → 0 ≤ speed → pacer_ok (tick_clock p elapsed speed).
Proof.
  intros Hp He Hs. unfold tick_clock. destruct (is_paused speed); [done |].
  destruct Hp as [Hr Hd Ha Hi Hrem]. pose proof (as_micros_nonneg _ He).
  pose proof units_pos as Hu.
  set (units := remainder p + as_micros elapsed * pacer_steps_per_second p * speed).
  assert (0 ≤ units) by (unfold units; nia).
  assert (0 ≤ units / UNITS_PER_STEP) by (by apply Z.div_pos).
  split; cbn; [done | done | done | | by apply Z.mod_pos_bound].
  unfold saturating_add_u64. rewrite to_u64_saturating_min. unfold is_u64 in *.
  unfold u64_max in *. lia.
Qed.

Lemma tick_clock_lead p elapsed speed s : lead (tick_clock p elapsed speed) s = lead p s.
Proof. unfold tick_clock. by destruct (is_paused speed). Qed.

Lemma tick_clock_window p elapsed speed s : window (tick_clock p elapsed speed) s = window p s.
Proof. unfold tick_clock. by destruct (is_paused speed). Qed.

(** The clock in full precision. *)
Definition clock (p : Pacer) : Z := ideal p * UNITS_PER_STEP + remainder p.

Definition tick_units (p : Pacer) (elapsed : Duration) (speed : Speed) : Z :=
  as_micros elapsed * pacer_steps_per_second p * speed.

Lemma tick_clock_exact p elapsed speed :
  pacer_ok p → 0 ≤ elapsed → 0 ≤ speed →
  (clock p + tick_units p elapsed speed) / UNITS_PER_STEP ≤ u64_max →
  clock (tick_clock p elapsed speed) = clock p + tick_units p elapsed speed ∧
  ideal (tick_clock p elapsed speed) = (clock p + tick_units p elapsed speed) / UNITS_PER_STEP.
Proof.
  intros [Hr Hd Ha Hi Hrem] He Hs Hfit. unfold tick_clock, is_paused.
  pose proof units_pos as Hu. pose proof (as_micros_nonneg _ He) as Hm.
  destruct (Z.eqb_spec speed 0) as [-> |].
  { unfold tick_units. rewrite Z.mul_0_r, Z.add_0_r. split; [done |]. unfold clock.
    symmetry. apply div_unique_floor; [done | lia]. }
  unfold clock, tick_units in *. cbn.
  set (t := as_micros elapsed * pacer_steps_per_second p * speed) in *.
  assert (0 ≤ t) by (unfold t; nia).
  rewrite <- Z.add_assoc, Z.div_add_l in Hfit by lia.
  assert (0 ≤ (remainder p + t) / UNITS_PER_STEP) by (apply Z.div_pos; lia).
  unfold saturating_add_u64. rewrite to_u64_saturating_min. unfold is_u64 in *.
  rewrite (Z.min_l ((remainder p + t) / UNITS_PER_STEP)) by lia. rewrite Z.min_l by lia.
  rewrite <- Z.add_assoc, Z.div_add_l by lia. split; [| done].
  pose proof (Z.div_mod (remainder p + t) UNITS_PER_STEP ltac:(lia)). nia.
Qed.

(** the frontier never moves back, never passes the slowest pacing
    member by more than the window, and the clock builds no debt: after every
    advance it stands within the window of the slowest member, so that the room
    cannot rush when that member catches up.  Without a pacing member, clock
    and frontier stand still. *)
Theorem advance_bounds (p : Pacer) (elapsed : Duration) (speed : Speed)
    (slowest : option Z) (sealed : Z) :
  pacer_ok p → 0 ≤ elapsed → 0 ≤ speed →
  (∀ s, slowest = Some s → 0 ≤ s ∧ s + window p speed < u64_max) →
  let '(p', frontier) := advance p elapsed speed slowest sealed in
  pacer_ok p' ∧ sealed ≤ frontier ∧
  match slowest with
  | None => p' = p ∧ frontier = sealed
  | Some s =>
      frontier ≤ Z.max sealed (s + window p speed) ∧
      ideal p' + lead p' speed ≤ s + window p speed
  end.
Proof.
  intros Hp He Hs Hslow. unfold advance.
  destruct slowest as [s |]; [| split; [done |]; split; [lia | done]].
  destruct (Hslow s eq_refl) as [Hs0 Hfit].
  pose proof (tick_clock_ok p elapsed speed Hp He Hs) as Hp'.
  pose proof (lead_le_window p speed Hp Hs) as Hlw.
  pose proof (lead_nonneg p speed Hp Hs) as Hl0.
  rewrite tick_clock_lead, tick_clock_window. set (q := tick_clock p elapsed speed) in *.
  destruct Hp' as [Hr Hd Ha Hi Hrem].
  assert (lead q speed = lead p speed) as Hlq by apply tick_clock_lead.
  unfold saturating_add_u64, saturating_sub_u64 in *.
  destruct (Z.ltb_spec (Z.min (s + window p speed) u64_max) (Z.min (ideal q + lead p speed) u64_max)).
  - split; [split; cbn; try done; unfold is_u64 in *; lia |]. split; [lia |]. split; [lia |].
    change (lead (q <| ideal := Z.min (ideal q)
      (Z.max (Z.min (s + window p speed) u64_max - lead p speed) 0) |> <| remainder := 0 |>) speed)
      with (lead q speed). cbn. rewrite Hlq. lia.
  - split; [done |]. split; [lia |]. split; [lia |]. rewrite Hlq. lia.
Qed.

Lemma advance_bounds_witness :
  let p := Pacer_new 5 (from_millis 250) (from_secs 2) in
  let '(p', frontier) := advance p (from_secs 60) NORMAL (Some 7) 3 in
  pacer_ok p' ∧ 3 ≤ frontier ∧
  frontier ≤ Z.max 3 (7 + window p NORMAL) ∧ ideal p' + lead p' NORMAL ≤ 7 + window p NORMAL.
Proof.
  apply (advance_bounds (Pacer_new 5 (from_millis 250) (from_secs 2)) (from_secs 60) NORMAL (Some 7) 3).
  - split; vm_compute; try split; congruence.
  - vm_compute; congruence.
  - vm_compute; congruence.
  - intros s [= <-]. vm_compute. split; congruence.
Defined.

(** * Real time *)

(** The clock over a series of ticks: each has its elapsed time, the slowest
    member and the frontier sealed before it. *)
Fixpoint advance_all (p : Pacer) (speed : Speed) (ticks : list (Duration * Z * Z)) : Pacer :=
  match ticks with
  | [] => p
  | (elapsed, slowest, sealed) :: ticks =>
      advance_all (advance p elapsed speed (Some slowest) sealed).1 speed ticks
  end.

Definition elapsed_of (tick : Duration * Z * Z) : Duration := tick.1.1.
Definition slowest_of (tick : Duration * Z * Z) : Z := tick.1.2.

Lemma advance_uncapped p elapsed speed s sealed :
  pacer_ok p → 0 ≤ elapsed → 0 ≤ speed → s + window p speed ≤ u64_max →
  (clock p + tick_units p elapsed speed) / UNITS_PER_STEP + lead p speed ≤ s + window p speed →
  (advance p elapsed speed (Some s) sealed).1 = tick_clock p elapsed speed.
Proof.
  intros Hp He Hs Hfit Hle. unfold advance. rewrite tick_clock_lead, tick_clock_window.
  pose proof (lead_nonneg p speed Hp Hs).
  destruct (tick_clock_exact p elapsed speed) as [_ Hi]; [done.. | lia |]. rewrite Hi.
  unfold saturating_add_u64.
  destruct (Z.ltb_spec (Z.min (s + window p speed) u64_max)
    (Z.min ((clock p + tick_units p elapsed speed) / UNITS_PER_STEP + lead p speed) u64_max));
    [lia | done].
Qed.

(** The clock does not drift.  While no member holds the room back, the
    clock after any series of ticks has advanced by exactly the real time that
    passed at the room's speed, to the microsecond, however the ticks fell. *)
Theorem clock_exact (p : Pacer) (speed : Speed) (ticks : list (Duration * Z * Z)) :
  pacer_ok p → 0 ≤ speed → Forall (λ t, 0 ≤ elapsed_of t) ticks →
  let units := sum_Z ((λ t, tick_units p (elapsed_of t) speed) <$> ticks) in
  Forall (λ t, slowest_of t + window p speed ≤ u64_max ∧
    (clock p + units) / UNITS_PER_STEP + lead p speed ≤ slowest_of t + window p speed) ticks →
  clock (advance_all p speed ticks) = clock p + units.
Proof.
  revert p. induction ticks as [| [[elapsed s] sealed] ticks IH]; intros p Hp Hs He units Hfree; subst units.
  { cbn [advance_all fmap list_fmap]. rewrite sum_Z_nil. lia. }
  apply Forall_cons in He as [He Hes]. cbn in He.
  rewrite fmap_cons, sum_Z_cons in *. cbn [advance_all]. change (elapsed_of (elapsed, s, sealed)) with elapsed in *.
  set (rest := sum_Z ((λ t, tick_units p (elapsed_of t) speed) <$> ticks)) in *.
  assert (0 ≤ rest) as Hrest.
  { apply sum_Z_nonneg, Forall_fmap. eapply Forall_impl; [exact Hes |].
    intros t Ht. cbn in Ht |- *. unfold tick_units. pose proof (as_micros_nonneg _ Ht).
    destruct Hp. apply Z.mul_nonneg_nonneg; [nia | done]. }
  apply Forall_cons in Hfree as [[Hfit Hfree] Hfrees].
  change (slowest_of (elapsed, s, sealed)) with s in *.
  assert ((clock p + tick_units p elapsed speed) / UNITS_PER_STEP
    ≤ (clock p + (tick_units p elapsed speed + rest)) / UNITS_PER_STEP) as Hmono
    by (apply Z.div_le_mono; [done | lia]).
  pose proof (lead_nonneg p speed Hp Hs) as Hl0.
  rewrite advance_uncapped by (done || lia).
  pose proof (tick_clock_ok p elapsed speed Hp He Hs) as Hp'.
  destruct (tick_clock_exact p elapsed speed) as [Hc _]; [done.. | lia |].
  assert (∀ d, tick_units (tick_clock p elapsed speed) d speed = tick_units p d speed) as Hunits
    by (intros d; unfold tick_clock; by destruct (is_paused speed)).
  assert (sum_Z ((λ t, tick_units (tick_clock p elapsed speed) (elapsed_of t) speed) <$> ticks) = rest)
    as Hsum by (unfold rest; f_equal; apply list_fmap_ext; intros; apply Hunits).
  rewrite IH; [rewrite Hsum; lia | done | done | done |].
  rewrite Hsum, Hc, tick_clock_lead, tick_clock_window, <- Z.add_assoc. done.
Qed.

Lemma clock_exact_witness :
  let p := Pacer_new 5 (from_millis 250) (from_secs 2) in
  clock (advance_all p NORMAL [(from_millis 33, 0, 0); (from_millis 50, 1, 2)])
  = clock p + sum_Z ((λ t, tick_units p (elapsed_of t) NORMAL)
      <$> [(from_millis 33, 0, 0); (from_millis 50, 1, 2)]).
Proof.
  apply (clock_exact (Pacer_new 5 (from_millis 250) (from_secs 2)) NORMAL
    [(from_millis 33, 0, 0); (from_millis 50, 1, 2)]).
  - split; vm_compute; try split; congruence.
  - vm_compute; congruence.
  - repeat constructor; vm_compute; congruence.
  - repeat constructor; vm_compute; congruence.
Defined.
