(* ===== verification/Limit.v ===== *)
(** Rate limits ([crates/tpf3mp-server/src/limit.rs]): the token bucket that
    bounds what a player may send, and what it grants over any series of
    requests. *)
From S2P Require Import Prelude.
Local Open Scope Z_scope.

Record TokenBucket := MkTokenBucket {
  per_second : Z;
  capacity_milli : Z;
  milli : Z;
  refilled : Instant;
}.
#[export] Instance eta_TokenBucket : Eta TokenBucket := fun b =>
  MkTokenBucket (per_second b) (capacity_milli b) (milli b) (refilled b).

(** A full bucket; [now] is [Instant::now()]. *)
Definition TokenBucket_new (per_second burst : Z) (now : Instant) : TokenBucket :=
  let capacity_milli := burst * 1000 in
  MkTokenBucket per_second capacity_milli capacity_milli now.

Definition elapsed_ms (b : TokenBucket) (now : Instant) : Z :=
  let ms := as_millis (saturating_duration_since now (refilled b)) in
  if ms <=? u64_max then ms else u64_max.

Definition TokenBucket_take (b : TokenBucket) (now : Instant) (cost : Z) : TokenBucket * bool :=
  let elapsed_ms := elapsed_ms b now in
  let b := b <| refilled := now |> in
  let b := b <| milli := Z.min
    (saturating_add_u64 (milli b) (saturating_mul_u64 elapsed_ms (per_second b)))
    (capacity_milli b) |> in
  let cost_milli := saturating_mul_u64 cost 1000 in
  if cost_milli <=? milli b then (b <| milli := milli b - cost_milli |>, true)
  else (b, false).

(** * What a bucket grants *)

Record bucket_ok (b : TokenBucket) : Prop := {
  bo_rate : is_u32 (per_second b);
  bo_cap : 0 ≤ capacity_milli b ≤ u32_max * 1000;
  bo_milli : 0 ≤ milli b ≤ capacity_milli b;
}.

Lemma TokenBucket_new_ok per_second burst now :
  is_u32 per_second → is_u32 burst → bucket_ok (TokenBucket_new per_second burst now).
Proof. intros. split; cbn; unfold is_u32, u32_max in *; lia. Qed.

Lemma elapsed_ms_bounds b now :
  0 ≤ elapsed_ms b now ∧ elapsed_ms b now * 1000000 ≤ Z.max (now - refilled b) 0.
Proof.
  unfold elapsed_ms, as_millis, saturating_duration_since.
  pose proof (Z.mul_div_le (Z.max (now - refilled b) 0) 1000000).
  pose proof (Z.div_pos (Z.max (now - refilled b) 0) 1000000).
  unfold u64_max. destruct (Z.leb_spec (Z.max (now - refilled b) 0 / 1000000) (2 ^ 64 - 1)); lia.
Qed.

(** One request: the bucket stays well formed, and what it then holds plus what
    it granted is at most what it held plus the refill. *)
Lemma take_ok b now cost :
  bucket_ok b → 0 ≤ cost →
  let '(b', granted) := TokenBucket_take b now cost in
  bucket_ok b' ∧ per_second b' = per_second b ∧ capacity_milli b' = capacity_milli b ∧
  refilled b' = now ∧
  milli b' + (if granted then 1000 * cost else 0) ≤ milli b + elapsed_ms b now * per_second b.
Proof.
  intros [Hr Hc Hm] Hcost. destruct (elapsed_ms_bounds b now) as [He _].
  unfold TokenBucket_take. cbn.
  set (m := Z.min (saturating_add_u64 (milli b) (saturating_mul_u64 (elapsed_ms b now) (per_second b)))
    (capacity_milli b)).
  assert (0 ≤ m ≤ capacity_milli b ∧ m ≤ milli b + elapsed_ms b now * per_second b).
  { unfold m, saturating_add_u64, saturating_mul_u64. unfold is_u32, u64_max in *.
    assert (0 ≤ elapsed_ms b now * per_second b) by nia. lia. }
  unfold saturating_mul_u64.
  destruct (Z.leb_spec (Z.min (cost * 1000) u64_max) m) as [Hle | Hgt]; cbn.
  - assert (m ≤ u64_max - 1) by (unfold u64_max, u32_max in *; lia).
    split; [split; cbn; [done | done | lia] |]. repeat split; lia.
  - split; [split; cbn; [done | done | lia] |]. repeat split; lia.
Qed.

(** Requests in order: the time and cost of each, and what was granted. *)
Fixpoint take_all (b : TokenBucket) (requests : list (Instant * Z)) : TokenBucket * Z :=
  match requests with
  | [] => (b, 0)
  | (now, cost) :: requests =>
      let '(b, granted) := TokenBucket_take b now cost in
      let '(b, total) := take_all b requests in
      (b, (if granted then cost else 0) + total)
  end.

(** The clock readings never go back. *)
Fixpoint times_from (t : Instant) (requests : list (Instant * Z)) : Prop :=
  match requests with
  | [] => True
  | (now, _) :: requests => t ≤ now ∧ times_from now requests
  end.

(** The last reading. *)
Definition ends_at (t : Instant) (requests : list (Instant * Z)) : Instant :=
  default t (last requests.*1).

Lemma ends_at_cons t now cost requests :
  ends_at t ((now, cost) :: requests) = ends_at now requests.
Proof.
  unfold ends_at. csimpl. rewrite last_cons.
  by destruct (last requests.*1).
Qed.

Lemma ends_at_ge t requests : times_from t requests → t ≤ ends_at t requests.
Proof.
  revert t. induction requests as [| [now cost] requests IH]; intros t Ht; [done |].
  destruct Ht as [Hle Ht]. rewrite ends_at_cons. specialize (IH _ Ht). lia.
Qed.

Lemma take_all_budget b requests :
  bucket_ok b → Forall (λ r, 0 ≤ r.2) requests → times_from (refilled b) requests →
  (1000 * (take_all b requests).2) * 1000000
  ≤ milli b * 1000000 + (ends_at (refilled b) requests - refilled b) * per_second b.
Proof.
  revert b. induction requests as [| [now cost] requests IH]; intros b Hb Hc Ht.
  { cbn. destruct Hb as [? ? ?]. unfold is_u32 in *. lia. }
  apply Forall_cons in Hc as [Hcost Hc]. destruct Ht as [Hle Ht]. cbn [take_all].
  rewrite ends_at_cons. pose proof (take_ok b now cost Hb Hcost) as Htake.
  destruct (TokenBucket_take b now cost) as [b' granted]. destruct Htake as (Hb' & Hr & Hcap & Hl & Hm).
  specialize (IH b' Hb' Hc). rewrite Hl in IH. specialize (IH Ht).
  destruct (take_all b' requests) as [b'' total]. cbn [snd] in *.
  destruct (elapsed_ms_bounds b now) as [He0 He]. rewrite Hr in IH.
  destruct Hb as [[Hr0 _] _ _].
  assert (elapsed_ms b now * per_second b * 1000000 ≤ (now - refilled b) * per_second b) by nia.
  pose proof (ends_at_ge now requests Ht). destruct granted; nia.
Qed.

(** a rate limit holds over any series of requests.  What a full bucket
    grants until the last of them is at most its burst plus its rate times the
    time passed; costs of every size, granted or refused, are covered. *)
Theorem rate_bound (rate burst : Z) (now : Instant) (requests : list (Instant * Z)) :
  is_u32 rate → is_u32 burst → Forall (λ r, 0 ≤ r.2) requests → times_from now requests →
  let granted := (take_all (TokenBucket_new rate burst now) requests).2 in
  granted * 1000000000 ≤ burst * 1000000000 + rate * (ends_at now requests - now).
Proof.
  intros Hr Hb Hc Ht. cbn zeta.
  pose proof (take_all_budget (TokenBucket_new rate burst now) requests
    (TokenBucket_new_ok _ _ _ Hr Hb) Hc Ht) as H. cbn in H. lia.
Qed.

Lemma rate_bound_witness :
  let requests := [(from_secs 1, 40); (from_secs 2, 25); (from_secs 3, 15)] in
  (take_all (TokenBucket_new 20 40 0) requests).2 * 1000000000
  ≤ 40 * 1000000000 + 20 * (ends_at 0 requests - 0).
Proof.
  apply (rate_bound 20 40 0 [(from_secs 1, 40); (from_secs 2, 25); (from_secs 3, 15)]).
  - by vm_compute.
  - by vm_compute.
  - repeat constructor; vm_compute; congruence.
  - vm_compute. repeat split; congruence.
Defined.

(** Whoever stays within the rate is served.  A request for no more than
    the burst is granted if the whole milliseconds since the last request
    refill it. *)
Theorem patient_served (b : TokenBucket) (now : Instant) (cost : Z) :
  bucket_ok b → 0 ≤ cost → 1000 * cost ≤ capacity_milli b →
  1000 * cost ≤ milli b + elapsed_ms b now * per_second b →
  (TokenBucket_take b now cost).2 = true.
Proof.
  intros [Hr Hc Hm] Hcost Hburst Hfill. destruct (elapsed_ms_bounds b now) as [He _].
  unfold TokenBucket_take. cbn. unfold saturating_add_u64, saturating_mul_u64.
  assert (0 ≤ elapsed_ms b now * per_second b) by (unfold is_u32 in *; nia).
  destruct (Z.leb_spec (Z.min (cost * 1000) u64_max) (Z.min (Z.min (milli b
    + Z.min (elapsed_ms b now * per_second b) u64_max) u64_max) (capacity_milli b))); [done |].
  unfold is_u32, u32_max, u64_max in *. lia.
Qed.

Lemma patient_served_witness :
  (TokenBucket_take (MkTokenBucket 20 40000 0 0) (from_millis 50) 1).2 = true.
Proof.
  apply (patient_served (MkTokenBucket 20 40000 0 0) (from_millis 50) 1).
  - split; vm_compute; split; congruence.
  - lia.
  - vm_compute; congruence.
  - vm_compute; congruence.
Defined.

(** The refill is not quite continuous.  Each request discards the part of
    a millisecond that passed since the one before, granted or not, so that
    requests less than a millisecond apart get no refill at all, however long
    they go on. *)
Theorem impatient_starved (b : TokenBucket) (requests : list (Instant * Z)) :
  bucket_ok b → Forall (λ r, 0 ≤ r.2) requests →
  (∀ i t t', (refilled b :: requests.*1) !! i = Some t → requests.*1 !! i = Some t' →
    t ≤ t' < t + from_millis 1) →
  1000 * (take_all b requests).2 ≤ milli b.
Proof.
  revert b. induction requests as [| [now cost] requests IH]; intros b Hb Hc Hgap.
  { cbn. destruct Hb. lia. }
  apply Forall_cons in Hc as [Hcost Hc]. cbn [take_all].
  assert (elapsed_ms b now = 0) as Hz.
  { destruct (Hgap 0%nat (refilled b) now) as [Hge Hlt]; [done | done |]. unfold from_millis in *.
    destruct (elapsed_ms_bounds b now). lia. }
  pose proof (take_ok b now cost Hb Hcost) as Htake. rewrite Hz in Htake.
  destruct (TokenBucket_take b now cost) as [b' granted]. destruct Htake as (Hb' & _ & _ & Hl & Hm).
  specialize (IH b' Hb' Hc). destruct (take_all b' requests) as [b'' total]. cbn [snd] in *.
  assert (1000 * total ≤ milli b'); [| destruct granted; lia].
  apply IH. intros i t t' Hi Hi'. rewrite Hl in Hi. by apply (Hgap (S i)).
Qed.

Lemma impatient_starved_witness :
  let b := MkTokenBucket 1000 5000 2000 0 in
  1000 * (take_all b [(900000, 1); (1800000, 1); (2700000, 1); (3600000, 1)]).2 ≤ milli b.
Proof.
  apply (impatient_starved (MkTokenBucket 1000 5000 2000 0)
    [(900000, 1); (1800000, 1); (2700000, 1); (3600000, 1)]).
  - split; vm_compute; split; congruence.
  - repeat constructor; vm_compute; congruence.
  - intros [| [| [| [| i]]]] t t'; cbn; intros ? ?; simplify_eq; unfold from_millis; lia.
Defined.
