(* ===== verification/Verdict.v ===== *)
(** Checkpoint verdicts ([crates/tpf3mp-server/src/verdict.rs]): which lane
    digests are right when members disagree. *)
From S2P Require Import Prelude Proto.
Local Open Scope Z_scope.

(** One member's digests at a checkpoint, sorted by lane, one entry per lane. *)
Record Report := MkReport {
  report_player : PlayerId;
  report_platform : Platform;
  order : Z;
  lanes : list LaneDigest;
}.

(** The agreed digest of every lane. *)
Abbreviation Verdict := (gmap Z Digest) (only parsing).

Definition digest_of (lanes : list LaneDigest) (id : Z) : option Digest :=
  digest <$> List.find (λ entry, lane entry =? id) lanes.

Definition count {T} `{EqDecision T} (values : list T) (candidate : T) : nat :=
  length (List.filter (λ value, bool_decide (value = candidate)) values).

Definition strict_majority {T} `{EqDecision T} (values : list T) : option T :=
  List.find (λ candidate, bool_decide (length values < count values candidate * 2)%nat) values.

(** [min_by_key]: the first of the smallest elements. *)
Definition min_by {A} (ltb : A → A → bool) (l : list A) : option A :=
  match l with
  | [] => None
  | x :: l => Some (foldl (λ best y, if ltb y best then y else best) x l)
  end.

Definition share (reports : list Report) (platform : Platform) : nat :=
  length (List.filter (λ report, bool_decide (report_platform report = platform)) reports).

(** [(Reverse(share), order)] of a report. *)
Definition anchor_key (reports : list Report) (report : Report) : nat * Z :=
  (share reports (report_platform report), order report).

Definition key_ltb (a b : nat * Z) : bool :=
  (b.1 <? a.1)%nat || ((a.1 =? b.1)%nat && (a.2 <? b.2)).

Definition index_key (reports : list Report) (index : nat) : nat * Z :=
  default (0%nat, 0) (anchor_key reports <$> reports !! index).

Definition anchor (reports : list Report) : option nat :=
  min_by (λ i j, key_ltb (index_key reports i) (index_key reports j)) (List.seq 0 (length reports)).

Definition diverging_lanes (lanes : list LaneDigest) (verdict : Verdict) : list Z :=
  let ids := btree_ints (btree_keys verdict ++ (lane <$> lanes)) in
  List.filter (λ id, negb (bool_decide (digest_of lanes id = verdict !! id))) ids.

(** The digest one lane is decided to have. *)
Definition lane_winner (reports : list Report) (anchor : nat) (id : Z) : option Digest :=
  let values := (λ report, digest_of (lanes report) id) <$> reports in
  default (default None (values !! anchor)) (strict_majority values).

Definition reported_lanes (reports : list Report) : list Z :=
  btree_ints (reports ≫= λ report, lane <$> lanes report).

Definition decide_verdict (reports : list Report) (anchor : nat) : Verdict :=
  foldl (λ verdict id, match lane_winner reports anchor id with
                       | Some digest => <[id := digest]> verdict
                       | None => verdict
                       end) ∅ (reported_lanes reports).

Definition diverged_from (verdict : Verdict) (reports : list Report) : list (PlayerId * list Z) :=
  omap (λ report,
    let lanes := diverging_lanes (lanes report) verdict in
    if bool_decide (lanes = []) then None else Some (report_player report, lanes)) reports.

Definition decide (reports : list Report) : Verdict * list (PlayerId * list Z) :=
  match anchor reports with
  | None => (∅, [])
  | Some anchor =>
      let verdict := decide_verdict reports anchor in
      (verdict, diverged_from verdict reports)
  end.

(** * Counting *)

Section counting.
Context {T : Type} `{EqDecision T}.

Lemma count_cons (v : T) values x :
  count (v :: values) x = ((if bool_decide (v = x) then 1 else 0) + count values x)%nat.
Proof. unfold count. simpl. by destruct (bool_decide (v = x)). Qed.

Lemma count_perm (values values' : list T) x : values ≡ₚ values' → count values x = count values' x.
Proof. induction 1; rewrite ?count_cons; lia. Qed.

Lemma count_disjoint (values : list T) x y :
  x ≠ y → (count values x + count values y ≤ length values)%nat.
Proof.
  intros Hne. induction values as [| v values IH]; [done |]. rewrite !count_cons. simpl.
  do 2 case_bool_decide; subst; try done; lia.
Qed.

Lemma count_pos (values : list T) x : (0 < count values x)%nat → x ∈ values.
Proof.
  induction values as [| v values IH]; [unfold count; simpl; lia |]. rewrite count_cons.
  case_bool_decide; subst; [left |]. intros. right. apply IH. lia.
Qed.

(** A strict majority is found, and it is the only one. *)
Lemma strict_majority_Some (values : list T) x :
  strict_majority values = Some x ↔ (length values < count values x * 2)%nat.
Proof.
  unfold strict_majority. split.
  - intros [_ H]%List.find_some. by apply bool_decide_eq_true in H.
  - intros Hx. destruct (List.find _ values) as [y |] eqn:E.
    + apply List.find_some in E as [_ Hy]. apply bool_decide_eq_true in Hy.
      destruct (base.decide (x = y)) as [-> | Hne]; [done |].
      pose proof (count_disjoint values x y Hne). lia.
    + assert (x ∈ values) as Hin by (apply count_pos; lia).
      apply list_elem_of_In in Hin. apply (List.find_none _ _ E) in Hin.
      by apply bool_decide_eq_false in Hin.
Qed.

Lemma strict_majority_perm (values values' : list T) :
  values ≡ₚ values' → strict_majority values = strict_majority values'.
Proof.
  intros Hp. apply option_eq. intros x.
  by rewrite !strict_majority_Some, (count_perm _ _ _ Hp), (Permutation_length Hp).
Qed.

End counting.

(** * The anchor *)

Lemma key_ltb_spec a b :
  key_ltb a b = true ↔ (b.1 < a.1)%nat ∨ (a.1 = b.1 ∧ a.2 < b.2).
Proof.
  unfold key_ltb. rewrite orb_true_iff, andb_true_iff, Nat.ltb_lt, Nat.eqb_eq, Z.ltb_lt. done.
Qed.

Lemma key_ltb_false a b :
  key_ltb a b = false ↔ (a.1 < b.1)%nat ∨ (a.1 = b.1 ∧ b.2 ≤ a.2).
Proof. rewrite <- not_true_iff_false, key_ltb_spec. lia. Qed.

Lemma min_by_fold {A} (ltb : A → A → bool) (x : A) l :
  (∀ a b c, ltb b a = false → ltb c b = false → ltb c a = false) →
  (∀ a b, ltb a b = true → ltb b a = false) → (∀ a, ltb a a = false) →
  let best := foldl (λ best y, if ltb y best then y else best) x l in
  best ∈ x :: l ∧ ∀ y, y ∈ x :: l → ltb y best = false.
Proof.
  intros Htr Has Hir. revert x. induction l as [| z l IH]; intros x; cbn [foldl].
  { split; [left |]. by intros y ->%list_elem_of_singleton. }
  destruct (IH (if ltb z x then z else x)) as [Hin Hmin].
  set (best := foldl _ _ l) in *. split.
  - destruct (ltb z x); rewrite !elem_of_cons in *; tauto.
  - intros y Hy. rewrite !elem_of_cons in Hy. destruct (ltb z x) eqn:E.
    + assert (ltb z best = false) by (apply Hmin; left).
      destruct Hy as [-> | [-> | Hy]]; [eauto | done |]. apply Hmin. by right.
    + assert (ltb x best = false) by (apply Hmin; left).
      destruct Hy as [-> | [-> | Hy]]; [done | eauto |]. apply Hmin. by right.
Qed.

(** The anchor is a report, and none is before it: none on a more common
    platform, and none earlier on an equally common one. *)
Lemma anchor_spec reports i :
  anchor reports = Some i →
  ∃ r, reports !! i = Some r ∧
    ∀ r', r' ∈ reports → key_ltb (anchor_key reports r') (anchor_key reports r) = false.
Proof.
  unfold anchor. destruct reports as [| r0 reports]; [done |].
  set (all := r0 :: reports). change (List.seq 0 (length all)) with (0%nat :: List.seq 1 (length reports)).
  cbn [min_by]. intros [= Hi].
  destruct (min_by_fold (λ i j, key_ltb (index_key all i) (index_key all j)) 0%nat
    (List.seq 1 (length reports))) as [Hin Hmin].
  { intros a b c. rewrite !key_ltb_false. lia. }
  { intros a b. rewrite key_ltb_false, key_ltb_spec. lia. }
  { intros a. rewrite key_ltb_false. lia. }
  rewrite Hi in Hin, Hmin. change (0%nat :: List.seq 1 (length reports)) with (List.seq 0 (length all)) in *.
  assert (Hseq : ∀ j, j ∈ List.seq 0 (length all) ↔ is_Some (all !! j)).
  { intros j. rewrite lookup_lt_is_Some, list_elem_of_In, in_seq. lia. }
  apply Hseq in Hin as [r Hr]. exists r. split; [done |].
  intros r' [j Hj]%list_elem_of_lookup. specialize (Hmin j). unfold index_key in Hmin.
  rewrite Hj, Hr in Hmin. apply Hmin, Hseq. eauto.
Qed.

Lemma anchor_exists reports : reports ≠ [] → is_Some (anchor reports).
Proof. unfold anchor. destruct reports; [done |]. intros _. by eexists. Qed.

Lemma anchor_unique reports r r' :
  NoDup (order <$> reports) → r ∈ reports → r' ∈ reports →
  key_ltb (anchor_key reports r') (anchor_key reports r) = false →
  key_ltb (anchor_key reports r) (anchor_key reports r') = false → r = r'.
Proof.
  intros Hnd Hr Hr' H1 H2. apply (NoDup_fmap_elem_inj order reports); [done.. |].
  apply key_ltb_false in H1, H2. simpl in *. lia.
Qed.

Lemma share_perm reports reports' p : reports ≡ₚ reports' → share reports p = share reports' p.
Proof.
  unfold share. induction 1; simpl; [done | | |]; repeat case_bool_decide; simpl; congruence.
Qed.

Lemma anchor_perm reports reports' i i' :
  reports ≡ₚ reports' → NoDup (order <$> reports) →
  anchor reports = Some i → anchor reports' = Some i' → reports !! i = reports' !! i'.
Proof.
  intros Hp Hnd (r & Hr & Hmin)%anchor_spec (r' & Hr' & Hmin')%anchor_spec.
  rewrite Hr, Hr'. f_equal.
  assert (Hk : ∀ x, anchor_key reports' x = anchor_key reports x)
    by (intros x; unfold anchor_key; by rewrite (share_perm _ _ _ Hp)).
  assert (r ∈ reports) as Hin by (by eapply list_elem_of_lookup_2).
  assert (r' ∈ reports) as Hin' by (rewrite Hp; by eapply list_elem_of_lookup_2).
  apply (anchor_unique reports); [done.. | by apply Hmin |].
  rewrite <- !Hk. apply Hmin'. by rewrite <- Hp.
Qed.

(** * The verdict *)

Lemma decide_verdict_lookup reports a id :
  decide_verdict reports a !! id
  = if bool_decide (id ∈ reported_lanes reports) then lane_winner reports a id else None.
Proof.
  unfold decide_verdict.
  assert (Hfold : ∀ ids (v : Verdict), NoDup ids → (∀ k, k ∈ ids → v !! k = None) →
    foldl (λ verdict id, match lane_winner reports a id with
                         | Some digest => <[id := digest]> verdict
                         | None => verdict end) v ids !! id
    = if bool_decide (id ∈ ids) then lane_winner reports a id else v !! id).
  { intros ids. induction ids as [| j ids IH]; intros v Hnd Hfree; [done |].
    apply NoDup_cons in Hnd as [Hj Hnd]. cbn [foldl].
    assert (Hjv : v !! j = None) by (apply Hfree; left).
    rewrite IH; [| done |].
    - destruct (base.decide (id = j)) as [-> | Hne].
      + rewrite (bool_decide_false (j ∈ ids)), (bool_decide_true (j ∈ j :: ids)) by (done || by left).
        destruct (lane_winner reports a j); [by rewrite lookup_insert_eq | done].
      + rewrite (bool_decide_ext (id ∈ j :: ids) (id ∈ ids))
          by (rewrite elem_of_cons; naive_solver).
        case_bool_decide; [done |]. destruct (lane_winner reports a j); [| done].
        by rewrite lookup_insert_ne.
    - intros k Hk. destruct (lane_winner reports a j).
      + rewrite lookup_insert_ne by (intros ->; done). apply Hfree. by right.
      + apply Hfree. by right. }
  rewrite Hfold; [by rewrite lookup_empty | apply NoDup_btree_ints | done].
Qed.

(** The lanes of a report that differ from the verdict, on either side. *)
Lemma elem_of_diverging_lanes lns v id :
  id ∈ diverging_lanes lns v ↔ digest_of lns id ≠ v !! id.
Proof.
  unfold diverging_lanes. rewrite list_elem_of_In, filter_In, <- list_elem_of_In.
  rewrite elem_of_btree_ints, elem_of_app, elem_of_btree_keys.
  rewrite negb_true_iff, bool_decide_eq_false. split; [tauto |]. intros Hne. split; [| done].
  destruct (v !! id) eqn:E; [left; by eexists |]. right. unfold digest_of in Hne.
  destruct (List.find _ lns) as [entry |] eqn:Ef; [| done].
  apply List.find_some in Ef as [Hin <-%Z.eqb_eq].
  apply list_elem_of_fmap_2. by apply list_elem_of_In.
Qed.

Lemma elem_of_diverged v reports p lns :
  (p, lns) ∈ diverged_from v reports ↔
  lns ≠ [] ∧ ∃ r, r ∈ reports ∧ p = report_player r ∧ lns = diverging_lanes (lanes r) v.
Proof.
  unfold diverged_from. rewrite list_elem_of_omap. split.
  - intros (r & Hr & H). case_bool_decide; simplify_eq. eauto.
  - intros (Hne & r & Hr & -> & ->). exists r. split; [done |]. by rewrite bool_decide_false.
Qed.

Lemma reported_lanes_perm reports reports' :
  reports ≡ₚ reports' → reported_lanes reports = reported_lanes reports'.
Proof.
  intros Hp. apply btree_ints_ext. intros x. rewrite !list_elem_of_bind.
  by setoid_rewrite Hp.
Qed.

Lemma lane_winner_perm reports reports' i i' id :
  reports ≡ₚ reports' → reports !! i = reports' !! i' →
  lane_winner reports i id = lane_winner reports' i' id.
Proof.
  intros Hp Hi. unfold lane_winner. rewrite !list_lookup_fmap, Hi.
  erewrite strict_majority_perm; [done |]. by rewrite Hp.
Qed.

(** A verdict does not depend on the order in which reports arrive.  For
    any two arrival orders of the same reports, the agreed digests are the same
    and the same players diverge in the same lanes. *)
Theorem decide_order_irrelevant (reports reports' : list Report) :
  reports ≡ₚ reports' → NoDup (order <$> reports) →
  (decide reports).1 = (decide reports').1 ∧ (decide reports).2 ≡ₚ (decide reports').2.
Proof.
  intros Hp Hnd. unfold decide.
  destruct (base.decide (reports = [])) as [-> | Hne].
  { apply Permutation_nil in Hp as ->. done. }
  assert (reports' ≠ []) as Hne' by (intros ->; by apply Hne, Permutation_nil).
  destruct (anchor_exists reports Hne) as [i Hi], (anchor_exists reports' Hne') as [i' Hi'].
  rewrite Hi, Hi'. cbn.
  assert (decide_verdict reports i = decide_verdict reports' i') as Hv.
  { apply map_eq. intros id. rewrite !decide_verdict_lookup, (reported_lanes_perm _ _ Hp).
    erewrite lane_winner_perm; [done | done |]. by eapply anchor_perm. }
  split; [done |]. rewrite Hv. unfold diverged_from. by rewrite Hp.
Qed.

Module VerdictExamples.
Definition win := MkPlatform Windows X86_64.
Definition mac := MkPlatform MacOs Aarch64.
Definition a := MkReport 1 win 0 [MkLaneDigest 0 7; MkLaneDigest 1 8].
Definition b := MkReport 2 mac 1 [MkLaneDigest 0 7; MkLaneDigest 1 9].
Definition c := MkReport 3 win 2 [MkLaneDigest 0 6; MkLaneDigest 1 8].
End VerdictExamples.

Lemma decide_order_irrelevant_witness :
  let reports := [VerdictExamples.a; VerdictExamples.b; VerdictExamples.c] in
  let reports' := [VerdictExamples.c; VerdictExamples.a; VerdictExamples.b] in
  (decide reports).1 = (decide reports').1 ∧ (decide reports).2 ≡ₚ (decide reports').2.
Proof.
  apply (decide_order_irrelevant [VerdictExamples.a; VerdictExamples.b; VerdictExamples.c] [VerdictExamples.c; VerdictExamples.a; VerdictExamples.b]).
  - symmetry. apply Permutation_cons_append.
  - apply (bool_decide_unpack _). vm_compute. exact I.
Defined.

(** Exactly the reports that differ from the verdict somewhere diverge. *)
Lemma decide_outcome reports :
  let '(verdict, diverged) := decide reports in
  ∀ p lns, (p, lns) ∈ diverged ↔
    ∃ r, r ∈ reports ∧ p = report_player r ∧ lns = diverging_lanes (lanes r) verdict ∧
      ∃ id, digest_of (lanes r) id ≠ verdict !! id.
Proof.
  unfold decide. destruct (anchor reports) as [i |] eqn:Ha.
  2: { destruct reports; [| by destruct (anchor_exists (r :: reports))]. intros p lns.
       split; [intros []%not_elem_of_nil | intros (r & []%not_elem_of_nil & _)]. }
  intros p lns. cbn. rewrite elem_of_diverged. split.
  - intros (Hne & r & Hr & -> & ->). exists r. repeat split; [done |].
    destruct (diverging_lanes _ _) as [| id l] eqn:E; [done |].
    exists id. apply elem_of_diverging_lanes. rewrite E. left.
  - intros (r & Hr & -> & -> & id & Hid%elem_of_diverging_lanes). split; [| by exists r].
    intros E. rewrite E in Hid. by apply not_elem_of_nil in Hid.
Qed.

(** Who diverges.  Where a strict majority of the reports has a digest (or
    has none) for a lane, the verdict is theirs; and a player is told exactly
    the lanes in which its report differs from the verdict, and told only if
    there is one. *)
Theorem decide_majority (reports : list Report) :
  let '(verdict, diverged) := decide reports in
  (∀ id d, (length reports
      < count ((λ r, digest_of (lanes r) id) <$> reports) d * 2)%nat → verdict !! id = d) ∧
  (∀ p lns, (p, lns) ∈ diverged ↔
     ∃ r, r ∈ reports ∧ p = report_player r ∧ lns = diverging_lanes (lanes r) verdict ∧
       ∃ id, digest_of (lanes r) id ≠ verdict !! id).
Proof.
  pose proof (decide_outcome reports) as Hout. unfold decide in *.
  destruct (anchor reports) as [i |] eqn:Ha.
  2: { destruct reports; [| by destruct (anchor_exists (r :: reports))].
       split; [intros id d H; by apply Nat.nlt_0_r in H | done]. }
  cbn in *. split; [| done].
  intros id d Hd. rewrite decide_verdict_lookup. unfold lane_winner.
  assert (strict_majority ((λ r, digest_of (lanes r) id) <$> reports) = Some d) as ->
    by (apply strict_majority_Some; by rewrite length_fmap).
  cbn. case_bool_decide as Hin; [done |]. destruct d as [d |]; [| done]. exfalso. apply Hin.
  assert (Some d ∈ (λ r, digest_of (lanes r) id) <$> reports) as Hsome by (apply count_pos; lia).
  apply list_elem_of_fmap in Hsome as (r & Hr & Hin').
  unfold reported_lanes. rewrite elem_of_btree_ints, list_elem_of_bind. exists r. split; [| done].
  unfold digest_of in Hr. destruct (List.find _ _) as [entry |] eqn:Ef; [| done].
  apply List.find_some in Ef as [He <-%Z.eqb_eq]. apply list_elem_of_fmap_2. by apply list_elem_of_In.
Qed.
