(* ===== verification/Snapshots.v ===== *)
(** World snapshots on the server ([crates/tpf3mp-server/src/snapshots.rs]):
    when a game saves, which save its room agrees on, and the holds that keep
    snapshots in the store.

    Of a manifest ([crates/tpf3mp-snapshot]) the server reads its digest, which
    names the snapshot, and the size of the save it describes. *)
From S2P Require Import Prelude Proto Verdict.
Local Open Scope Z_scope.

Definition SAVE_DEADLINE : Duration := from_secs 120.
Definition UPLOAD_START : Duration := from_secs 30.
Definition UPLOAD_RATE : Z := 128 * 1024.
Definition UPLOAD_LIMIT : Duration := from_secs (90 * 60).
Definition FAILED_KEPT : nat := 16.

Abbreviation ManifestId := Z (only parsing).
Record Manifest := MkManifest { manifest_id : ManifestId; total_size : Z }.

(** * A game's saves *)

(** Where a save stands in its game's log. *)
Record SavePoint := MkSavePoint {
  point_event : Z;
  point_after_turn : Z;
  point_history : Z;
  point_sealed_through : Z;
}.

Record Agreed := MkAgreed { manifest : Manifest; point : SavePoint }.

Definition agreed_id (a : Agreed) : SnapshotId := manifest_id (manifest a).
Definition offer (a : Agreed) : WorldOffer :=
  MkWorldOffer (agreed_id a) (total_size (manifest a)).

Record SaveReport := MkSaveReport { report : Report; world : option SavedWorld }.

Record SaveRound := MkSaveRound {
  round_point : SavePoint;
  round_opened : Instant;
  round_reports : list SaveReport;
}.
#[export] Instance eta_SaveRound : Eta SaveRound := fun r =>
  MkSaveRound (round_point r) (round_opened r) (round_reports r).

Abbreviation Candidates := (list (PlayerId * SavedWorld)) (only parsing).

Record Upload := MkUpload {
  upload_point : SavePoint;
  upload_from : PlayerId;
  upload_world : SavedWorld;
  rest : Candidates;
  asked : Instant;
  receiving : bool;
}.
#[export] Instance eta_Upload : Eta Upload := fun u =>
  MkUpload (upload_point u) (upload_from u) (upload_world u) (rest u) (asked u) (receiving u).

Record Saves := MkSaves {
  save_rounds : gmap Z SaveRound;
  upload : option Upload;
  current : option Agreed;
  previous : option Agreed;
  last_save : option Instant;
  last_point : option SavePoint;
  wanted : bool;
  failed : list PlayerId;
}.
#[export] Instance eta_Saves : Eta Saves := fun s =>
  MkSaves (save_rounds s) (upload s) (current s) (previous s) (last_save s) (last_point s)
    (wanted s) (failed s).

Definition Saves_default : Saves := MkSaves ∅ None None None None None false [].

(** [is_none_or]. *)
Definition is_none_or {A} (o : option A) (f : A → bool) : bool :=
  match o with None => true | Some a => f a end.

Definition due (s : Saves) (now : Instant) (every min_gap : Duration) (started : Instant)
    (sealed_through next_event : Z) : bool :=
  if negb (bool_decide (save_rounds s = ∅)) || bool_decide (is_Some (upload s)) then false
  else
    let changed := bool_decide (current s = None)
      || is_none_or (last_point s) (λ point,
           (point_sealed_through point <? sealed_through) || (point_event point + 1 <? next_event)) in
    if negb changed then false
    else
      let last := default started (last_save s) in
      let periodic := every <=? saturating_duration_since now last in
      let needed := wanted s
        && is_none_or (last_save s) (λ last, min_gap <=? saturating_duration_since now last) in
      periodic || needed.

Definition failed_uploader (s : Saves) (player : PlayerId) : Saves :=
  let s := s <| failed := List.filter (λ p, negb (p =? player)) (failed s) |> in
  let s := if bool_decide (length (failed s) = FAILED_KEPT) then s <| failed := tail (failed s) |> else s in
  s <| failed := failed s ++ [player] |>.

Definition kept (s : Saves) : list Agreed :=
  option_list (current s) ++ option_list (previous s).

Definition held (s : Saves) : list ManifestId := (λ a, manifest_id (manifest a)) <$> kept s.

Definition find_agreed (s : Saves) (snapshot : SnapshotId) : option Agreed :=
  List.find (λ a, agreed_id a =? snapshot) (kept s).

Definition upload_deadline (size : Z) : Duration :=
  Z.min (UPLOAD_START + from_secs (size / UPLOAD_RATE)) UPLOAD_LIMIT.

(** Which saves may be uploaded, best first, and who diverged. *)
Definition decide_saves (reports : list SaveReport) : Candidates * list (PlayerId * list Z) :=
  let judged := report <$> reports in
  let diverged := if (2 <=? length judged)%nat then (Verdict.decide judged).2 else [] in
  let agreeing := List.filter (λ save,
    negb (existsb (λ d, d.1 =? report_player (report save)) diverged)) reports in
  let agreeing := sort_by (λ a b, order (report a) <=? order (report b)) agreeing in
  let candidates := omap (λ save, pair (report_player (report save)) <$> world save) agreeing in
  (candidates, diverged).

(** ** What a round decides *)

Lemma elem_of_candidates reports p w :
  (p, w) ∈ (decide_saves reports).1 ↔
  ∃ s, s ∈ reports ∧ p = report_player (report s) ∧ world s = Some w ∧
    ∀ lns, (p, lns) ∉ (decide_saves reports).2.
Proof.
  unfold decide_saves. cbn [fst snd]. set (diverged := if (2 <=? _)%nat then _ else _).
  rewrite list_elem_of_omap. setoid_rewrite elem_of_sort_by.
  setoid_rewrite list_elem_of_In at 1. setoid_rewrite filter_In.
  setoid_rewrite <- list_elem_of_In. split.
  - intros (s & [Hs Hd] & Hw). exists s. destruct (world s) as [w' |]; [| done]. simplify_eq/=.
    repeat split; [done |]. intros lns Hin. apply negb_true_iff in Hd.
    enough (existsb (λ d, d.1 =? report_player (report s)) diverged = true) by congruence.
    apply existsb_exists. exists (report_player (report s), lns). split; [by apply list_elem_of_In | simpl; lia].
  - intros (s & Hs & -> & Hw & Hd). exists s. split; [| by rewrite Hw]. split; [done |].
    apply negb_true_iff, not_true_iff_false. intros ([q lns] & Hin%list_elem_of_In & Hq)%existsb_exists.
    cbn in Hq. apply Z.eqb_eq in Hq as ->. by apply (Hd lns).
Qed.

(** Whichever save is uploaded, it is the world the room agreed on.  Any
    two candidates of a save round reported the same digest for every lane, so handing any candidate's world on hands on the same
    world. *)
Theorem candidates_agree (reports : list SaveReport) (p p' : PlayerId) (w w' : SavedWorld) :
  (p, w) ∈ (decide_saves reports).1 → (p', w') ∈ (decide_saves reports).1 →
  ∃ s s', s ∈ reports ∧ s' ∈ reports ∧ report_player (report s) = p ∧ report_player (report s') = p' ∧
    world s = Some w ∧ world s' = Some w' ∧
    ∀ id, digest_of (lanes (report s)) id = digest_of (lanes (report s')) id.
Proof.
  intros (s & Hs & -> & Hw & Hd)%elem_of_candidates (s' & Hs' & -> & Hw' & Hd')%elem_of_candidates.
  exists s, s'. repeat split; [done.. |]. intros id.
  destruct (Nat.leb_spec 2 (length (report <$> reports))) as [H2 | H2].
  - assert (Hagree : ∀ x, x ∈ reports →
      (∀ lns, (report_player (report x), lns) ∉ (decide_saves reports).2) →
      digest_of (lanes (report x)) id = (Verdict.decide (report <$> reports)).1 !! id).
    { intros x Hx Hnot. pose proof (decide_outcome (report <$> reports)) as Hout.
      destruct (Verdict.decide (report <$> reports)) as [v d] eqn:Ed.
      destruct (base.decide (digest_of (lanes (report x)) id = v !! id)) as [| Hne]; [done |].
      exfalso. apply (Hnot (diverging_lanes (lanes (report x)) v)).
      unfold decide_saves. cbn [snd]. rewrite (proj2 (Nat.leb_le _ _)) by done. rewrite Ed. cbn [snd].
      apply Hout. exists (report x). split; [by apply list_elem_of_fmap_2 |]. split; [done |]. eauto. }
    by rewrite (Hagree s), (Hagree s').
  - destruct reports as [| x [| y reports]]; [by apply not_elem_of_nil in Hs | | simpl in H2; lia].
    apply list_elem_of_singleton in Hs as ->. by apply list_elem_of_singleton in Hs' as ->.
Qed.

Lemma candidates_agree_witness :
  let win := MkPlatform Windows X86_64 in
  let reports := [MkSaveReport (MkReport 1 win 0 [MkLaneDigest 0 7]) (Some (MkSavedWorld 70 100));
                  MkSaveReport (MkReport 2 win 1 [MkLaneDigest 0 5]) (Some (MkSavedWorld 50 100));
                  MkSaveReport (MkReport 3 win 2 [MkLaneDigest 0 7]) (Some (MkSavedWorld 71 100))] in
  ∃ s s', s ∈ reports ∧ s' ∈ reports ∧ report_player (report s) = 1 ∧ report_player (report s') = 3 ∧
    world s = Some (MkSavedWorld 70 100) ∧ world s' = Some (MkSavedWorld 71 100) ∧
    ∀ id, digest_of (lanes (report s)) id = digest_of (lanes (report s')) id.
Proof.
  apply (candidates_agree
    [MkSaveReport (MkReport 1 (MkPlatform Windows X86_64) 0 [MkLaneDigest 0 7]) (Some (MkSavedWorld 70 100));
     MkSaveReport (MkReport 2 (MkPlatform Windows X86_64) 1 [MkLaneDigest 0 5]) (Some (MkSavedWorld 50 100));
     MkSaveReport (MkReport 3 (MkPlatform Windows X86_64) 2 [MkLaneDigest 0 7]) (Some (MkSavedWorld 71 100))]).
  - vm_compute. left.
  - vm_compute. right. left.
Defined.

(** ** When a game saves *)

(** No player can make a room save more often than [min_gap]: whenever a
    save is due, the last one is at least [min_gap] old, nothing of an earlier
    save is still being decided or uploaded, and the world changed since or the
    room holds no snapshot. *)
Theorem due_paced (s : Saves) (now : Instant) (every min_gap : Duration) (started : Instant)
    (sealed_through next_event : Z) :
  min_gap ≤ every → due s now every min_gap started sealed_through next_event = true →
  save_rounds s = ∅ ∧ upload s = None ∧
  (∀ t, last_save s = Some t → min_gap ≤ saturating_duration_since now t) ∧
  (∀ p, current s ≠ None → last_point s = Some p →
     point_sealed_through p < sealed_through ∨ point_event p + 1 < next_event).
Proof.
  intros Hgap. unfold due. case_bool_decide as Hr; [| done]. case_bool_decide as Hu; [done |].
  cbn [negb orb]. destruct (_ || _) eqn:Hch; [| done]. cbn [negb]. intros Hdue.
  repeat split; [done | by apply eq_None_not_Some | |].
  - intros t Ht. rewrite Ht in Hdue. cbn in Hdue. destruct (wanted s); simpl in Hdue; lia.
  - intros p Hc Hp. rewrite bool_decide_false in Hch by done. rewrite Hp in Hch. cbn in Hch. lia.
Qed.

Lemma due_paced_witness :
  let s := MkSaves ∅ None None None (Some 0) None true [] in
  save_rounds s = ∅ ∧ upload s = None ∧
  (∀ t, last_save s = Some t → from_secs 60 ≤ saturating_duration_since (from_secs 61) t) ∧
  (∀ p, current s ≠ None → last_point s = Some p → point_sealed_through p < 9 ∨ point_event p + 1 < 4).
Proof.
  apply (due_paced (MkSaves ∅ None None None (Some 0) None true []) (from_secs 61)
    (from_secs 600) (from_secs 60) 0 9 4).
  - vm_compute. congruence.
  - vm_compute. reflexivity.
Defined.

(** The players whose uploads failed: distinct, and few. *)
Definition failed_ok (s : Saves) : Prop := NoDup (failed s) ∧ (length (failed s) ≤ FAILED_KEPT)%nat.

Lemma failed_uploader_ok s p : failed_ok s → failed_ok (failed_uploader s p).
Proof.
  intros [Hnd Hlen]. unfold failed_uploader, failed_ok. cbn.
  set (l := List.filter _ (failed s)).
  assert (l `sublist_of` failed s) as Hsub.
  { unfold l. clear. induction (failed s) as [| x l IH]; simpl; [constructor |].
    destruct (negb _); by constructor. }
  assert (p ∉ l) as Hp.
  { intros [_ H]%list_elem_of_In%filter_In. lia. }
  assert (NoDup l) as Hl by (by eapply sublist_NoDup).
  apply sublist_length in Hsub.
  assert (tail l `sublist_of` l) as Htail by (destruct l; simpl; [constructor | by constructor]).
  case_bool_decide as Hk; cbn; rewrite length_app; cbn.
  - split; [| destruct l; simpl in *; unfold FAILED_KEPT in *; lia].
    apply NoDup_app. split; [by eapply sublist_NoDup |]. split; [| apply NoDup_singleton].
    intros x Hx ->%list_elem_of_singleton. apply Hp. destruct l; [done |]. by right.
  - split; [| unfold FAILED_KEPT in *; lia]. apply NoDup_app. split; [done |].
    split; [| apply NoDup_singleton]. by intros x Hx ->%list_elem_of_singleton.
Qed.

(** * Holds on the store

    Rooms share the store, so each holds the snapshots it uses.  [release] works
    in two critical sections: it counts the holds down under the lock, then
    takes the lock again and stops keeping what nobody holds; other rooms may
    run in between. *)
Record Snapshots := MkSnapshots {
  holds : gmap ManifestId nat;
  retained : gset ManifestId;   (* what the chunk store keeps *)
  released : bool;
}.
#[export] Instance eta_Snapshots : Eta Snapshots := fun s =>
  MkSnapshots (holds s) (retained s) (released s).

Definition hold (s : Snapshots) (id : ManifestId) : Snapshots :=
  s <| holds := <[id := S (default 0%nat (holds s !! id))]> (holds s) |>.

(** The first critical section of [release]: the snapshots nobody holds. *)
Fixpoint release_counts (holds : gmap ManifestId nat) (ids : list ManifestId) :
    gmap ManifestId nat * list ManifestId :=
  match ids with
  | [] => (holds, [])
  | id :: ids =>
      match holds !! id with
      | Some (S (S n)) => release_counts (<[id := S n]> holds) ids
      | _ =>
          let '(holds, unheld) := release_counts (delete id holds) ids in
          (holds, id :: unheld)
      end
  end.

(** The second one.  [store_release] says whether the store's release of an id
    succeeds; a failure leaves it retained. *)
Fixpoint drop_unheld (store_release : ManifestId → bool) (s : Snapshots)
    (ids : list ManifestId) : Snapshots :=
  match ids with
  | [] => s
  | id :: ids =>
      if bool_decide (is_Some (holds s !! id)) then drop_unheld store_release s ids
      else
        let s := if store_release id then s <| retained := retained s ∖ {[id]} |> else s in
        drop_unheld store_release (s <| released := true |>) ids
  end.

(** The store and the releases between their two sections, and what any room
    or connection may do to them.  A hold may be taken before the snapshot is
    there: an upload takes its hold before the first chunk arrives. *)
Record HoldState := MkHoldState { shared : Snapshots; between : list (list ManifestId) }.

Inductive hold_step : HoldState → HoldState → Prop :=
  | step_retain s ps id :
      hold_step (MkHoldState s ps) (MkHoldState (s <| retained := {[id]} ∪ retained s |>) ps)
  | step_hold s ps id : hold_step (MkHoldState s ps) (MkHoldState (hold s id) ps)
  | step_release s ps ids :
      hold_step (MkHoldState s ps)
        (MkHoldState (s <| holds := (release_counts (holds s) ids).1 |>)
           ((release_counts (holds s) ids).2 :: ps))
  | step_drop s ps ps' unheld store_release :
      hold_step (MkHoldState s (ps ++ unheld :: ps'))
        (MkHoldState (drop_unheld store_release s unheld) (ps ++ ps')).

Definition is_held (s : Snapshots) (id : ManifestId) : Prop := is_Some (holds s !! id).

(** How many holds a snapshot has. *)
Definition hold_count (holds : gmap ManifestId nat) (id : ManifestId) : nat :=
  default 0%nat (holds !! id).

(** No entry says zero. *)
Definition counts_positive (holds : gmap ManifestId nat) : Prop :=
  ∀ id n, holds !! id = Some n → n ≠ 0%nat.

(** Releasing gives back one hold for each time an id is named. *)
Lemma release_counts_spec holds ids id :
  counts_positive holds →
  counts_positive (release_counts holds ids).1 ∧
  hold_count (release_counts holds ids).1 id
  = (hold_count holds id - length (List.filter (Z.eqb id) ids))%nat.
Proof.
  revert holds. induction ids as [| j ids IH]; intros holds Hpos; [split; [done | simpl; lia] |].
  assert (Hdel : counts_positive (delete j holds)).
  { intros k n Hk. apply lookup_delete_Some in Hk as [_ Hk]. by eapply Hpos. }
  assert (Hcase : ∀ n, holds !! j = Some (S (S n)) → counts_positive (<[j := S n]> holds)).
  { intros n _ k m Hk. apply lookup_insert_Some in Hk as [[<- <-] | [_ Hk]]; [done | by eapply Hpos]. }
  assert (Hc : ∀ m (h' : gmap ManifestId nat), (∀ k, h' !! k = if bool_decide (k = j) then m else holds !! k) →
    default 0%nat m = (hold_count holds j - 1)%nat →
    hold_count h' id = (hold_count holds id - (if Z.eqb id j then 1 else 0))%nat).
  { intros m h' Hh Hm. unfold hold_count in *. rewrite Hh.
    destruct (Z.eqb_spec id j) as [-> | Hne]; [by rewrite bool_decide_true |].
    rewrite bool_decide_false by done. lia. }
  assert (Hlk : ∀ k, delete j holds !! k = if bool_decide (k = j) then None else holds !! k).
  { intros k. case_bool_decide as E; [subst; apply lookup_delete_eq | by apply lookup_delete_ne]. }
  simpl. destruct (holds !! j) as [[| [| n]] |] eqn:Ej.
  - by destruct (Hpos j 0%nat Ej).
  - specialize (IH _ Hdel). destruct (release_counts (delete j holds) ids) as [h' u]. simpl in *.
    rewrite (proj2 IH), (Hc None (delete j holds) Hlk) by (unfold hold_count; by rewrite Ej).
    split; [apply IH |]. destruct (id =? j); simpl; lia.
  - specialize (IH _ (Hcase n eq_refl)). rewrite (proj2 IH), (Hc (Some (S n)) (<[j := S n]> holds)).
    + split; [apply IH |]. destruct (id =? j); simpl; lia.
    + intros k. case_bool_decide as E; [subst; apply lookup_insert_eq | by apply lookup_insert_ne].
    + unfold hold_count. by rewrite Ej.
  - specialize (IH _ Hdel). destruct (release_counts (delete j holds) ids) as [h' u]. simpl in *.
    rewrite (proj2 IH), (Hc None (delete j holds) Hlk) by (unfold hold_count; by rewrite Ej).
    split; [apply IH |]. destruct (id =? j); simpl; lia.
Qed.

Lemma drop_unheld_keeps store_release s ids id :
  is_held s id → id ∈ retained s →
  id ∈ retained (drop_unheld store_release s ids) ∧ holds (drop_unheld store_release s ids) = holds s.
Proof.
  revert s. induction ids as [| j ids IH]; intros s Hh Hr; [done |]. cbn [drop_unheld].
  case_bool_decide as Hj; [by apply IH |].
  destruct (IH ((if store_release j then s <| retained := retained s ∖ {[j]} |> else s)
    <| released := true |>)) as [Hin Hh'].
  - by destruct (store_release j).
  - destruct (store_release j); cbn; [| done]. apply elem_of_difference. split; [done |].
    by intros ->%elem_of_singleton.
  - split; [done |]. rewrite Hh'. by destruct (store_release j).
Qed.

(** The store keeps what is held.  Whatever the rooms and uploads of a
    server do, in whatever order their critical sections run, a snapshot the
    store has stays there for as long as someone holds it, and a release gives
    back exactly the holds it names: a snapshot held more often than it was
    released is still held. *)
Theorem held_snapshots_kept (id : ManifestId) (s s' : HoldState) :
  rtc (λ a b, hold_step a b ∧ is_held (shared a) id) s s' →
  counts_positive (holds (shared s)) → id ∈ retained (shared s) →
  id ∈ retained (shared s') ∧ counts_positive (holds (shared s')) ∧
  ∀ ids, (length (List.filter (Z.eqb id) ids) < hold_count (holds (shared s')) id)%nat →
    hold_count (release_counts (holds (shared s')) ids).1 id ≠ 0%nat.
Proof.
  induction 1 as [s | s1 s2 s3 [Hstep Hheld] _ IH]; intros Hpos Hin.
  { split; [done |]. split; [done |]. intros ids Hlt.
    destruct (release_counts_spec (holds (shared s)) ids id Hpos) as [_ ->]. lia. }
  apply IH; destruct Hstep as [s ps j | s ps j | s ps ids | s ps ps' unheld sr]; cbn in *.
  - done.
  - intros k n Hk. apply lookup_insert_Some in Hk as [[_ <-] | [_ Hk]]; [done | by eapply Hpos].
  - by apply release_counts_spec.
  - by rewrite (proj2 (drop_unheld_keeps sr s unheld id Hheld Hin)).
  - apply elem_of_union. by right.
  - done.
  - done.
  - by apply drop_unheld_keeps.
Qed.

(** Two rooms hold one snapshot; one lets it go, and the store keeps it. *)
Lemma held_snapshots_kept_witness :
  let s := MkSnapshots {[7 := 2%nat]} {[7]} false in
  let s' := MkSnapshots {[7 := 1%nat]} {[7]} false in
  7 ∈ retained s' ∧ counts_positive (holds s') ∧
  ∀ ids, (length (List.filter (Z.eqb 7) ids) < hold_count (holds s') 7)%nat →
    hold_count (release_counts (holds s') ids).1 7 ≠ 0%nat.
Proof.
  apply (held_snapshots_kept 7 (MkHoldState (MkSnapshots {[7 := 2%nat]} {[7]} false) [])
    (MkHoldState (MkSnapshots {[7 := 1%nat]} {[7]} false) [])).
  - eapply rtc_l; [split; [apply (step_release _ [] [7]) | by eexists] |].
    eapply rtc_l; [split; [apply (step_drop _ [] [] [] (λ _, true)) | by eexists] |].
    apply rtc_refl.
  - intros id n Hn. cbn in Hn. apply lookup_singleton_Some in Hn as [_ <-]. done.
  - vm_compute. reflexivity.
Defined.
