(* ===== verification/Ruleset.v ===== *)
(** The hook through which a room's canonical rules take part in sequencing
    ([crates/tpf3mp-server/src/ruleset.rs]): the interface the sequencer calls,
    what compaction relies on, the rules that accept everything, and the menu
    of rules a server offers. *)
From S2P Require Import Prelude Proto.
Local Open Scope Z_scope.

(** The trait. *)
Class Ruleset (R : Type) := {
  validate : R → PlayerId → Payload → result unit Z;
  apply_event : R → Event → R;
  save_rules : R → option (list Z);
  restore_rules : R → list Z → result R string;
}.

Definition apply_events {R} {RS : Ruleset R} (rules : R) (events : list Event) : R :=
  foldl apply_event rules events.

(** What the trait documents: a fresh ruleset that restores a saved state and
    then applies the events after it ends exactly where the saved one does. *)
Class RulesetLaws (R : Type) {RS : Ruleset R} (fresh : R) := {
  restore_saved (rules : R) (state : list Z) :
    save_rules rules = Some state →
    ∃ rules', restore_rules fresh state = Ok rules' ∧
      ∀ events, apply_events rules' events = apply_events rules events;
}.

(** Orders every intent without interpreting it. *)
Inductive AcceptAll := accept_all.

#[export] Instance AcceptAll_ruleset : Ruleset AcceptAll := {
  validate _ _ _ := Ok tt;
  apply_event rules _ := rules;
  save_rules _ := Some [];
  restore_rules rules state :=
    if bool_decide (state = []) then Ok rules
    else Err "accepting every intent keeps no state"%string;
}.

#[export] Instance AcceptAll_laws : RulesetLaws AcceptAll accept_all.
Proof. split. intros [] state [= <-]. by exists accept_all. Qed.

(** * The menu *)
Section menu.
Context {R : Type}.

Record RulesChoice := MkRulesChoice {
  rules_name : Text;
  description : Text;
  factory : unit → R;
}.

Definition NATIVE : string := "native".

Definition menu_single (choice : RulesChoice) : list RulesChoice := [choice].

(** Also offers [choice], replacing the first of the same name. *)
Fixpoint menu_with (choices : list RulesChoice) (choice : RulesChoice) : list RulesChoice :=
  match choices with
  | [] => [choice]
  | c :: choices =>
      if String.eqb (rules_name c) (rules_name choice) then choice :: choices
      else c :: menu_with choices choice
  end.

Definition menu_find (choices : list RulesChoice) (name : option string) : option RulesChoice :=
  match name with
  | None => head choices
  | Some name => List.find (λ c, String.eqb (rules_name c) name) choices
  end.

Definition menu_offers (choices : list RulesChoice) : list (Text * Text) :=
  (λ c, (rules_name c, description c)) <$> choices.

(** A choice just offered is found under its name; the others are as before,
    and the default does not change unless it was the one replaced. *)
Lemma menu_with_find choices choice name :
  menu_find (menu_with choices choice) (Some name)
  = if String.eqb (rules_name choice) name then Some choice else menu_find choices (Some name).
Proof.
  unfold menu_find. induction choices as [| c choices IH]; simpl; [done |].
  destruct (String.eqb_spec (rules_name c) (rules_name choice)) as [E | E]; simpl.
  - rewrite E. by destruct (String.eqb (rules_name choice) name).
  - rewrite IH. destruct (String.eqb_spec (rules_name c) name), (String.eqb_spec (rules_name choice) name);
      congruence.
Qed.

Lemma menu_with_names choices choice :
  NoDup (rules_name <$> choices) → NoDup (rules_name <$> menu_with choices choice).
Proof.
  assert (Hsub : ∀ cs n, n ∈ rules_name <$> menu_with cs choice →
    n = rules_name choice ∨ n ∈ rules_name <$> cs).
  { induction cs as [| c cs IH]; csimpl; intros n; [rewrite list_elem_of_singleton; tauto |].
    destruct (String.eqb_spec (rules_name c) (rules_name choice)); csimpl; rewrite !elem_of_cons;
      naive_solver. }
  induction choices as [| c choices IH]; csimpl; [intros _; apply NoDup_singleton |].
  intros [Hc Hnd]%NoDup_cons.
  destruct (String.eqb_spec (rules_name c) (rules_name choice)) as [E | E]; csimpl; apply NoDup_cons.
  - by rewrite <- E.
  - split; [| by apply IH]. intros [| ]%Hsub; done.
Qed.

End menu.
