(* ===== verification/TurnLog.v ===== *)
(** The turn invariants of [docs/PROTOCOL.md], as a specification both halves
    of the protocol are proved against: what a log of turns is, and what a
    replica does with it.  The server's side is in [Game], the client's in
    [Follower], and [Lockstep] joins the two. *)
From S2P Require Import Prelude Proto.
Local Open Scope Z_scope.

(** Where a log stands: the next turn, the next event, and the last sealed
    step. *)
Record Position := MkPosition { pos_turn : Z; pos_event : Z; pos_sealed : Z }.

(** Consecutive sequence numbers, all for the first step not yet sealed. *)
Definition ordered (next step_of : Z) (evs : list Event) : Prop :=
  seq <$> evs = seqZ next (Z.of_nat (length evs)) ∧ Forall (λ e, step e = step_of) evs.

(** Turn [t] continues a log that stands at [p]. *)
Record turn_follows (p : Position) (t : Turn) : Prop := {
  tf_number : number t = pos_turn p;
  tf_events : ordered (pos_event p) (pos_sealed p + 1) (events t);
  tf_sealed : pos_sealed p ≤ turn_sealed_through t;
}.

Definition after (p : Position) (t : Turn) : Position :=
  MkPosition (pos_turn p + 1) (pos_event p + Z.of_nat (length (events t))) (turn_sealed_through t).

(** A run of turns from one position to another, without gaps. *)
Inductive chain : Position → list Turn → Position → Prop :=
  | chain_nil p : chain p [] p
  | chain_cons p t ts q : turn_follows p t → chain (after p t) ts q → chain p (t :: ts) q.

Create HintDb turns.
#[export] Hint Constructors chain : turns.

Lemma ordered_nil n s : ordered n s [].
Proof. by split. Qed.

Lemma ordered_cons n s e evs :
  ordered n s (e :: evs) ↔ seq e = n ∧ step e = s ∧ ordered (n + 1) s evs.
Proof.
  unfold ordered. csimpl. rewrite Nat2Z.inj_succ, seqZ_cons, Forall_cons by lia.
  replace (Z.pred (Z.succ (Z.of_nat (length evs)))) with (Z.of_nat (length evs)) by lia.
  replace (Z.succ n) with (n + 1) by lia.
  split; [intros [[= -> ->] []]; done | intros (-> & ? & -> & ?); done].
Qed.

Lemma ordered_app n s evs evs' :
  ordered n s (evs ++ evs') ↔ ordered n s evs ∧ ordered (n + Z.of_nat (length evs)) s evs'.
Proof.
  revert n. induction evs as [| e evs IH]; intros n; simpl.
  { rewrite Z.add_0_r. split; [| tauto]. intros. split; [apply ordered_nil | done]. }
  rewrite !ordered_cons, IH.
  replace (n + 1 + Z.of_nat (length evs)) with (n + Z.of_nat (S (length evs))) by lia. tauto.
Qed.

Lemma chain_app p ts q ts' r : chain p ts q → chain q ts' r → chain p (ts ++ ts') r.
Proof. induction 1; simpl; auto with turns. Qed.

Lemma chain_app_inv p ts ts' r :
  chain p (ts ++ ts') r → ∃ q, chain p ts q ∧ chain q ts' r.
Proof.
  revert p. induction ts as [| t ts IH]; simpl; intros p Hc; [eauto with turns |].
  inversion Hc as [| ? ? ? ? Ht Hrest]; subst. destruct (IH _ Hrest) as (q & ? & ?).
  eauto with turns.
Qed.

Lemma chain_fun p ts q q' : chain p ts q → chain p ts q' → q = q'.
Proof. intros H. revert q'. induction H; intros q' H'; inversion H'; subst; auto. Qed.

Lemma chain_snoc p ts q t : chain p ts q → turn_follows q t → chain p (ts ++ [t]) (after q t).
Proof. intros. eapply chain_app; eauto with turns. Qed.

Lemma chain_turns p ts q : chain p ts q → pos_turn q = pos_turn p + Z.of_nat (length ts).
Proof. induction 1; simpl in *; lia. Qed.

Lemma chain_events p ts q :
  chain p ts q → pos_event q = pos_event p + Z.of_nat (length (ts ≫= events)).
Proof. induction 1; csimpl; rewrite ?length_app; simpl in *; lia. Qed.

Lemma chain_sealed p ts q : chain p ts q → pos_sealed p ≤ pos_sealed q.
Proof. induction 1 as [| p t ts q [_ _ Hs] _ IH]; simpl in *; lia. Qed.

(** Invariant 3, a sealed step is closed: every event of a continuation is for
    a step past the frontier it starts from. *)
Lemma chain_closed p ts q :
  chain p ts q → Forall (λ e, pos_sealed p < step e) (ts ≫= events).
Proof.
  induction 1 as [| p t ts q [_ [_ Hst] Hs] _ IH]; csimpl; [constructor |].
  apply Forall_app. split; eapply Forall_impl; try done; simpl; intros; lia.
Qed.

(** Event numbers have no gaps across turns. *)
Lemma chain_seqs p ts q :
  chain p ts q →
  seq <$> (ts ≫= events) = seqZ (pos_event p) (Z.of_nat (length (ts ≫= events))).
Proof.
  induction 1 as [| p t ts q [_ [Hseq _] _] _ IH]; csimpl; [done |].
  rewrite fmap_app, Hseq, IH, length_app, Nat2Z.inj_add, seqZ_app by lia. done.
Qed.

(** * What a replica does with a log *)

Inductive Action :=
  | Apply (event : Event)
  | Execute (at_step : Z).

(** The events of a turn, then the steps it seals. *)
Definition turn_actions (sealed : Z) (t : Turn) : list Action :=
  (Apply <$> events t) ++ (Execute <$> seqZ (sealed + 1) (turn_sealed_through t - sealed)).

Fixpoint log_actions (sealed : Z) (ts : list Turn) : list Action :=
  match ts with
  | [] => []
  | t :: ts => turn_actions sealed t ++ log_actions (turn_sealed_through t) ts
  end.

Definition frontier_of (sealed : Z) (ts : list Turn) : Z :=
  default sealed (turn_sealed_through <$> last ts).

Lemma frontier_of_cons sealed t ts :
  frontier_of sealed (t :: ts) = frontier_of (turn_sealed_through t) ts.
Proof. unfold frontier_of. rewrite last_cons. by destruct (last ts). Qed.

Lemma chain_frontier p ts q : chain p ts q → pos_sealed q = frontier_of (pos_sealed p) ts.
Proof. induction 1; [done |]. by rewrite frontier_of_cons. Qed.

Lemma log_actions_app sealed ts ts' :
  log_actions sealed (ts ++ ts')
  = log_actions sealed ts ++ log_actions (frontier_of sealed ts) ts'.
Proof.
  revert sealed. induction ts as [| t ts IH]; intros sealed; simpl; [done |].
  by rewrite IH, frontier_of_cons, app_assoc.
Qed.
