(* ===== verification/Game.v ===== *)
(** A running game ([impl Game] of [crates/tpf3mp-server/src/room.rs]): the
    sequencer that orders events, seals turns and keeps recent turns for
    members who resume.

    Turn and event numbers and steps are [u64] in the code; recovery refuses
    logs beyond [MAX_COUNT] and [MAX_FRONTIER], so that counting on never
    overflows, and the model counts in [Z]. *)
From S2P Require Import Prelude Proto TurnLog Codec Pacing Verdict Snapshots Ruleset.
Local Open Scope Z_scope.

Definition TURN_PAYLOAD_BUDGET : Z := TURN_MAX_FRAME / 2.
Definition MAX_AHEAD : Duration := from_secs 2.
Definition DECIDED_ROUNDS_KEPT : nat := 64.
Definition RESUME_WINDOW : Z := 36000.
Definition RESUME_WINDOW_BYTES : Z := 64 * 2 ^ 20.
Definition MAX_FRONTIER : Z := 2 ^ 48.
Definition MAX_COUNT : Z := 2 ^ 56.

(** An encoded turn: header and payload. *)
Abbreviation Frame := (list Z) (only parsing).

(** A player at the game's table. *)
Abbreviation Seat := (PlayerId * Text * Platform)%type (only parsing).
Definition seat_player (s : Seat) : PlayerId := s.1.1.

Record History := MkHistory { hist_id : Z; hist_after_turn : Z }.

Record Round := MkRound {
  opened : Instant;
  reports : list Report;
  verdict : option (gmap Z Digest);
}.
#[export] Instance eta_Round : Eta Round := fun r => MkRound (opened r) (reports r) (verdict r).

Record LoggedTurn := MkLoggedTurn {
  first_event : Z;
  logged_sealed_through : Z;
  frame : Frame;
}.

(** Where a turn stream starts, and the sealed turns it starts with. *)
Record Stream := MkStream {
  stream_next_turn : Z;
  stream_next_event : Z;
  stream_sealed_through : Z;
  backlog : list Frame;
}.

(** What a connection's turn-stream writer receives. *)
Inductive TurnFeed :=
  | FeedOpen (start : TurnStart) (backlog : list Frame)
  | FeedFrame (frame : Frame)
  | FeedClose.

Record Game := MkGame {
  pacer : Pacer;
  speed : Speed;
  announced_speed : Speed;
  sealed_through : Z;
  next_turn : Z;
  next_event : Z;
  pending : list Event;
  log : list LoggedTurn;
  log_first_turn : Z;
  sealed_before_log : Z;
  log_bytes : Z;
  resume_window : Z;
  last_tick : Instant;
  started : Instant;
  rounds : gmap Z Round;
  rounds_closed_through : Z;
  histories : list History;
  saves : Saves;
  seated : list Seat;
}.
#[export] Instance eta_Game : Eta Game := fun g =>
  MkGame (pacer g) (speed g) (announced_speed g) (sealed_through g) (next_turn g) (next_event g)
    (pending g) (log g) (log_first_turn g) (sealed_before_log g) (log_bytes g) (resume_window g)
    (last_tick g) (started g) (rounds g) (rounds_closed_through g) (histories g) (saves g) (seated g).

(** [now] is [Instant::now()]. *)
Definition Game_new (settings : RoomSettings) (history : Z) (now : Instant) : Game :=
  {| pacer := Pacer_new (steps_per_second settings) (from_millis (input_delay_ms settings)) MAX_AHEAD;
     speed := NORMAL;
     announced_speed := NORMAL;
     sealed_through := 0;
     next_turn := 1;
     next_event := 1;
     pending := [];
     log := [];
     log_first_turn := 1;
     sealed_before_log := 0;
     log_bytes := 0;
     resume_window := RESUME_WINDOW;
     last_tick := now;
     started := now;
     rounds := ∅;
     rounds_closed_through := 0;
     histories := [MkHistory history 0];
     saves := Saves_default;
     seated := [] |}.

(** * Histories and the start of a stream *)

Definition history (g : Game) : Z := default 0 (hist_id <$> last (histories g)).

Definition begin_history (g : Game) (id : Z) : Game :=
  let after_turn := saturating_sub_u64 (next_turn g) 1 in
  g <| histories := histories g ++ [MkHistory id after_turn] |>.

Definition turn_start (g : Game) (room : RoomId) (settings : RoomSettings) (rules : Text)
    (stream : Stream) (world : option WorldOffer) : TurnStart :=
  {| start_room := room;
     start_rules := rules;
     start_next_turn := stream_next_turn stream;
     start_next_event := stream_next_event stream;
     start_sealed_through := stream_sealed_through stream;
     start_steps_per_second := steps_per_second settings;
     start_checkpoint_interval := checkpoint_interval settings;
     start_history := history g;
     start_world := world |}.

(** * Checkpoint rounds *)

Definition close_round (g : Game) (step : Z) : Game :=
  g <| rounds := delete step (rounds g) |>
    <| rounds_closed_through := Z.max (rounds_closed_through g) step |>.

Definition decided_steps (g : Game) : list Z :=
  List.filter (λ step, bool_decide (is_Some (r ← rounds g !! step; verdict r)))
    (btree_keys (rounds g)).

Definition prune_rounds (g : Game) : Game :=
  let decided := decided_steps g in
  let excess := (length decided - DECIDED_ROUNDS_KEPT)%nat in
  foldl close_round g (take excess decided).

(** * Ordering events *)

Definition seat (seated : list Seat) (event : Event) : list Seat :=
  match body event with
  | PlayerLeft player _ => List.filter (λ s, negb (seat_player s =? player)) seated
  | PlayerJoined player name platform =>
      List.filter (λ s, negb (seat_player s =? player)) seated ++ [(player, name, platform)]
  | Command _ _ _ | SaveWorld => seated
  end.

Definition append {R} {RS : Ruleset R} (g : Game) (body : EventBody) (ruleset : R) : Game * R :=
  let event := MkEvent (next_event g) (sealed_through g + 1) body in
  let g := g <| next_event := next_event g + 1 |> in
  let ruleset := apply_event ruleset event in
  let g := g <| seated := seat (seated g) event |> in
  (g <| pending := pending g ++ [event] |>, ruleset).

(** * Sealing turns *)

(** Drops the oldest turns beyond the window's turns or bytes. *)
Fixpoint trim_loop (window : Z) (log : list LoggedTurn) (bytes first_turn sealed_before : Z) :
    list LoggedTurn * Z * Z * Z :=
  match log with
  | [] => ([], bytes, first_turn, sealed_before)
  | oldest :: log' =>
      if (window <? Z.of_nat (length log)) || ((RESUME_WINDOW_BYTES <? bytes) && (1 <? length log)%nat)
      then trim_loop window log' (bytes - Z.of_nat (length (frame oldest))) (first_turn + 1)
             (logged_sealed_through oldest)
      else (log, bytes, first_turn, sealed_before)
  end.

Definition trim (g : Game) : Game :=
  let '(log', bytes, first_turn, sealed_before) :=
    trim_loop (resume_window g) (log g) (log_bytes g) (log_first_turn g) (sealed_before_log g) in
  g <| log := log' |> <| log_bytes := bytes |> <| log_first_turn := first_turn |>
    <| sealed_before_log := sealed_before |>.

Definition remember (g : Game) (turn : LoggedTurn) : Game :=
  let g := g <| log_bytes := log_bytes g + Z.of_nat (length (frame turn)) |> in
  let g := g <| log := log g ++ [turn] |> in
  trim g.

Definition payload_size (event : Event) : Z :=
  match body event with
  | Command _ _ payload => Z.of_nat (length payload)
  | _ => 0
  end.

(** The batches before the last one, the last one, and its payload bytes. *)
Definition batch_event (acc : list (list Event) * list Event * Z) (event : Event) :
    list (list Event) * list Event * Z :=
  let '(full, batch, budget) := acc in
  let size := payload_size event in
  let '(full, batch, budget) :=
    if (TURN_PAYLOAD_BUDGET <? budget + size) && negb (bool_decide (batch = []))
    then (full ++ [batch], [], 0) else (full, batch, budget) in
  (full, batch ++ [event], budget + size).

Definition batches_of (events : list Event) : list (list Event) :=
  let '(full, batch, _) := foldl batch_event ([], [], 0) events in
  full ++ [batch].

Section sealing.
Context {P : Postcard TurnMessage}.

(** Encodes the batches, one turn each; only the last moves the frontier. *)
Fixpoint seal_batches (g : Game) (frontier : Z) (batches : list (list Event)) :
    Game * result (list Frame) FrameError :=
  match batches with
  | [] => (g, Ok [])
  | events :: batches' =>
      let first_event := default (next_event g) (seq <$> head events) in
      let sealed := if bool_decide (batches' = []) then frontier else sealed_through g in
      let turn := MkTurn (next_turn g) sealed (speed g) events in
      match encode_frame (TurnOf turn) TURN_MAX_FRAME with
      | Err e => (g, Err e)
      | Ok frame =>
          let g := remember g (MkLoggedTurn first_event sealed frame) in
          let g := g <| next_turn := next_turn g + 1 |> in
          let '(g, frames) := seal_batches g frontier batches' in
          (g, let? frames := frames in Ok (frame :: frames))
      end
  end.

Definition seal (g : Game) (frontier : Z) : Game * result (list Frame) FrameError :=
  let batches := batches_of (pending g) in
  let g := g <| pending := [] |> in
  let '(g, frames) := seal_batches g frontier batches in
  match frames with
  | Err e => (g, Err e)
  | Ok frames => (g <| sealed_through := frontier |> <| announced_speed := speed g |>, Ok frames)
  end.

End sealing.

(** * Streams for members who resume *)

(** Where a stream after [resume] begins, if the game can serve it. *)
Definition resume_from (g : Game) (resume : option Resume) : result Z RequestError :=
  match resume with
  | None => Ok 1
  | Some resume =>
      match list_find (λ h, hist_id h = history_id resume) (histories g) with
      | None => Err ResumeUnavailable
      | Some (index, _) =>
          match histories g !! S index with
          | Some next =>
              if hist_after_turn next <? after_turn resume then Err ResumeUnavailable
              else Ok (saturating_add_u64 (after_turn resume) 1)
          | None => Ok (saturating_add_u64 (after_turn resume) 1)
          end
      end
  end.

Definition stream_after (g : Game) (resume : option Resume) : result Stream RequestError :=
  let? from := resume_from g resume in
  if (next_turn g <? from) || (from <? log_first_turn g) then Err ResumeUnavailable
  else
    let skip := Z.to_nat (from - log_first_turn g) in
    let backlog := drop skip (log g) in
    let next_event :=
      match head backlog with
      | None => default (next_event g) (seq <$> head (pending g))
      | Some turn => first_event turn
      end in
    let sealed_through :=
      match skip with
      | O => sealed_before_log g
      | S before =>
          default (sealed_through g) (logged_sealed_through <$> log g !! before)
      end in
    Ok (MkStream from next_event sealed_through (frame <$> backlog)).

Definition stream_from_save (g : Game) (p : SavePoint) : result Stream RequestError :=
  let? stream := stream_after g (Some (MkResume (point_after_turn p) (point_history p))) in
  if negb (stream_next_event stream =? saturating_add_u64 (point_event p) 1)
     || negb (stream_sealed_through stream =? point_sealed_through p)
  then Err ResumeUnavailable
  else Ok stream.

Definition resume_feed (g : Game) (room : RoomId) (settings : RoomSettings) (rules : Text)
    (resume : option Resume) : result TurnFeed RequestError :=
  let? stream := stream_after g resume in
  Ok (FeedOpen (turn_start g room settings rules stream None) (backlog stream)).

Definition feed_from (g : Game) (room : RoomId) (settings : RoomSettings) (rules : Text)
    (agreed : Agreed) : result (TurnFeed * Z) RequestError :=
  let? stream := stream_from_save g (point agreed) in
  let next_event := stream_next_event stream in
  Ok (FeedOpen (turn_start g room settings rules stream (Some (offer agreed))) (backlog stream),
      next_event).

(** * The log a game keeps

    The game's state stands for a suffix of an unbroken log of turns: its kept
    frames encode consecutive turns, which end where the next turn will start.
    [chain] of [TurnLog] says what consecutive means. *)

Definition bytes_of (log : list LoggedTurn) : Z :=
  sum_Z ((λ l, Z.of_nat (length (frame l))) <$> log).

(** Where the next turn will continue the log. *)
Definition head_pos (g : Game) : Position :=
  MkPosition (next_turn g) (next_event g - Z.of_nat (length (pending g))) (sealed_through g).

Section invariant.
Context {P : Postcard TurnMessage}.

Definition encodes (t : Turn) (f : Frame) : Prop :=
  encode_frame (TurnOf t) TURN_MAX_FRAME = Ok f.

Inductive logged : Position → list LoggedTurn → list Turn → Position → Prop :=
  | logged_nil p : logged p [] [] p
  | logged_cons p l ls t ts q :
      turn_follows p t → encodes t (frame l) → first_event l = pos_event p →
      logged_sealed_through l = turn_sealed_through t →
      logged (after p t) ls ts q → logged p (l :: ls) (t :: ts) q.
#[local] Hint Constructors logged : turns.

(** The log of a game is [all], from position [p0] on, and ends at [q]; the
    game keeps the last of its turns. *)
Record log_ends (g : Game) (p0 : Position) (all : list Turn) (q : Position) : Prop := {
  le_log : ∃ gone kept p, all = gone ++ kept ∧ chain p0 gone p ∧ logged p (log g) kept q ∧
    pos_turn p = log_first_turn g ∧ pos_sealed p = sealed_before_log g;
  le_bytes : log_bytes g = bytes_of (log g);
  le_first : 1 ≤ pos_turn p0;
}.

(** The invariant: all the turns sealed so far, and the events ordered but not
    yet sealed. *)
Record game_ok (g : Game) (p0 : Position) (all : list Turn) : Prop := {
  go_ends : log_ends g p0 all (head_pos g);
  go_pending : ordered (next_event g - Z.of_nat (length (pending g))) (sealed_through g + 1) (pending g);
}.

Lemma logged_chain p ls ts q : logged p ls ts q → chain p ts q ∧ Forall2 encodes ts (frame <$> ls).
Proof. induction 1 as [| p l ls t ts q ? ? ? ? ? []]; csimpl; auto with turns. Qed.

Lemma logged_length p ls ts q : logged p ls ts q → pos_turn q = pos_turn p + Z.of_nat (length ls).
Proof. induction 1; simpl in *; lia. Qed.

Lemma logged_app p ls ts q ls' ts' r :
  logged p ls ts q → logged q ls' ts' r → logged p (ls ++ ls') (ts ++ ts') r.
Proof. induction 1; simpl; auto with turns. Qed.

(** Dropping the oldest turns leaves a log, which starts where the last one
    dropped ended. *)
Lemma logged_drop n p ls ts q :
  logged p ls ts q →
  ∃ p', chain p (take n ts) p' ∧ logged p' (drop n ls) (drop n ts) q ∧
    pos_turn p' = pos_turn p + Z.of_nat (min n (length ls)) ∧
    pos_sealed p' = match n with
                    | O => pos_sealed p
                    | S m => default (pos_sealed q) (logged_sealed_through <$> ls !! m)
                    end.
Proof.
  intros H. revert n. induction H as [p | p l ls t ts q Hf He Hev Hs Hl IH]; intros n.
  { exists p. rewrite !drop_nil, take_nil, Nat.min_0_r. split; [constructor |]. split; [constructor |].
    split; [simpl; lia |]. by destruct n. }
  destruct n as [| n]; [exists p; split; [constructor |]; split; [by econstructor |]; split; [simpl; lia | done] |].
  destruct (IH n) as (p' & Hpre & Hp' & Ht & Hsl). exists p'. split; [by constructor |]. split; [done |].
  split; [simpl in *; lia |]. destruct n as [| n]; [| done]. simpl in *. by rewrite Hsl, Hs.
Qed.

Lemma trim_loop_spec w ls bytes first sb :
  bytes = bytes_of ls →
  let '(ls', bytes', first', sb') := trim_loop w ls bytes first sb in
  (∃ n, (n ≤ length ls)%nat ∧ ls' = drop n ls ∧ first' = first + Z.of_nat n ∧
     sb' = match n with O => sb | S m => default sb (logged_sealed_through <$> ls !! m) end) ∧
  bytes' = bytes_of ls' ∧ (ls' = [] ∨ Z.of_nat (length ls') ≤ w) ∧
  (bytes' ≤ RESUME_WINDOW_BYTES ∨ (length ls' ≤ 1)%nat).
Proof.
  revert bytes first sb. induction ls as [| l ls IH]; intros bytes first sb Hb.
  { simpl. split; [by exists 0%nat; repeat split; simpl; try done; lia |].
    repeat split; simpl; try done; try lia. by left. }
  cbn [trim_loop]. destruct (_ || _) eqn:Hc.
  - specialize (IH (bytes - Z.of_nat (length (frame l))) (first + 1) (logged_sealed_through l)).
    destruct (trim_loop w ls _ _ _) as [[[ls' bytes'] first'] sb'].
    destruct IH as ((n & Hn & -> & -> & ->) & Hlen).
    { subst bytes. unfold bytes_of. sum_lia. }
    split; [| done]. exists (S n). repeat split; [simpl; lia | lia |].
    destruct n as [| n]; [done |]. simpl. destruct (lookup_lt_is_Some_2 ls n) as [x Hx]; [lia |].
    by rewrite Hx.
  - apply orb_false_iff in Hc as [Hw Hby].
    split; [exists 0%nat; repeat split; [lia | lia] |].
    split; [done |]. split; [right; lia |].
    apply andb_false_iff in Hby as [Hby | Hby]; [left; lia | right; by apply Nat.ltb_ge].
Qed.

(** A game whose log ends at [q] keeps a log when it remembers a turn that
    continues [q]. *)
Lemma remember_ends g p0 all q t l :
  log_ends g p0 all q → turn_follows q t → encodes t (frame l) → first_event l = pos_event q →
  logged_sealed_through l = turn_sealed_through t →
  log_ends (remember g l) p0 (all ++ [t]) (after q t).
Proof.
  intros [(gone & kept & p & -> & Hc & Hl & Hp & Hsb) Hb Hfirst] Hf He Hev Hs.
  unfold remember, trim. cbn.
  assert (Hl' : logged p (log g ++ [l]) (kept ++ [t]) (after q t))
    by (eapply logged_app; eauto with turns).
  pose proof (trim_loop_spec (resume_window g) (log g ++ [l])
    (log_bytes g + Z.of_nat (length (frame l))) (log_first_turn g) (sealed_before_log g)) as Htrim.
  destruct (trim_loop _ _ _ _ _) as [[[ls' bytes'] first'] sb'].
  destruct Htrim as ((n & Hn & -> & -> & ->) & Hb' & _).
  { rewrite Hb. unfold bytes_of. sum_lia. }
  destruct (logged_drop n _ _ _ _ Hl') as (p' & Hpre & Hlog & Hp' & Hsb').
  split; cbn; [| done | done]. exists (gone ++ take n (kept ++ [t])), (drop n (kept ++ [t])), p'.
  split; [by rewrite <- !app_assoc, take_drop |]. split; [by eapply chain_app |]. split; [done |].
  split; [rewrite Nat.min_l in Hp' by done; lia |]. rewrite Hsb'. destruct n as [| n]; [done |].
  destruct (lookup_lt_is_Some_2 (log g ++ [l]) n) as [x Hx]; [lia |]. by rewrite Hx.
Qed.

Lemma remember_fields g l :
  let g' := remember g l in
  next_turn g' = next_turn g ∧ next_event g' = next_event g ∧ sealed_through g' = sealed_through g ∧
  speed g' = speed g ∧ pending g' = pending g ∧ seated g' = seated g ∧ histories g' = histories g.
Proof.
  unfold remember, trim. by destruct (trim_loop _ _ _ _ _) as [[[ls' bytes'] first'] sb'].
Qed.

(** ** Batches *)

Lemma batches_acc evs full batch budget :
  let '(full', batch', budget') := foldl batch_event (full, batch, budget) evs in
  concat full' ++ batch' = concat full ++ batch ++ evs.
Proof.
  revert full batch budget. induction evs as [| e evs IH]; intros full batch budget; simpl.
  { by rewrite app_nil_r. }
  destruct (_ && _).
  - specialize (IH (full ++ [batch]) ([] ++ [e]) (0 + payload_size e)).
    destruct (foldl _ _ evs) as [[full' batch'] budget']. rewrite IH, concat_app. simpl.
    by rewrite app_nil_r, <- !app_assoc.
  - specialize (IH full (batch ++ [e]) (budget + payload_size e)).
    destruct (foldl _ _ evs) as [[full' batch'] budget']. rewrite IH. by rewrite <- !app_assoc.
Qed.

Lemma batches_concat evs : concat (batches_of evs) = evs.
Proof.
  unfold batches_of. pose proof (batches_acc evs [] [] 0) as H.
  destruct (foldl _ _ evs) as [[full batch] budget]. rewrite concat_app. simpl in *.
  by rewrite app_nil_r, H.
Qed.

Lemma batches_nonempty evs : batches_of evs ≠ [].
Proof.
  unfold batches_of. destruct (foldl _ _ evs) as [[full batch] budget]. by destruct full.
Qed.

(** A batch keeps to the payload budget unless a single event exceeds it. *)
Definition within_budget (batch : list Event) : Prop :=
  sum_Z (payload_size <$> batch) ≤ TURN_PAYLOAD_BUDGET ∨ (length batch ≤ 1)%nat.

Lemma batches_budget evs : Forall within_budget (batches_of evs).
Proof.
  assert (Hfold : ∀ evs full batch budget,
    Forall within_budget full → within_budget batch → budget = sum_Z (payload_size <$> batch) →
    let '(full', batch', budget') := foldl batch_event (full, batch, budget) evs in
    Forall within_budget full' ∧ within_budget batch').
  { clear evs. induction evs as [| e evs IH]; intros full batch budget Hf Hb Hbud; [done |].
    cbn [foldl batch_event].
    destruct ((TURN_PAYLOAD_BUDGET <? budget + payload_size e) && negb (bool_decide (batch = []))) eqn:E.
    - apply IH; [apply Forall_app_2; [done | by apply Forall_singleton] | right; simpl; lia |].
      sum_lia.
    - apply IH; [done | | sum_lia].
      apply andb_false_iff in E as [E | E].
      + left. sum_lia.
      + apply negb_false_iff, bool_decide_eq_true in E as ->. right. simpl. lia. }
  unfold batches_of. specialize (Hfold evs [] [] 0).
  destruct (foldl _ _ evs) as [[full batch] budget].
  destruct Hfold as [Hf Hb]; [constructor | right; simpl; lia | done |].
  apply Forall_app_2; [done | by apply Forall_singleton].
Qed.

(** ** Sealing *)

(** What the turns of one [seal] are: the batches in order, at the game's
    speed, only the last of them moving the frontier. *)
Fixpoint sealed_turns (turn sealed frontier : Z) (sp : Speed) (batches : list (list Event)) :
    list Turn :=
  match batches with
  | [] => []
  | evs :: batches' =>
      MkTurn turn (if bool_decide (batches' = []) then frontier else sealed) sp evs
      :: sealed_turns (turn + 1) sealed frontier sp batches'
  end.

Lemma sealed_turns_events turn sealed frontier sp batches :
  sealed_turns turn sealed frontier sp batches ≫= events = concat batches.
Proof.
  revert turn. induction batches as [| evs batches IH]; intros turn; csimpl; [done |]. by rewrite IH.
Qed.

(** The turn a batch becomes, and the game that remembers it. *)
Lemma remember_batch g p0 all q evs sealed f :
  log_ends g p0 all q → pos_turn q = next_turn g → pos_sealed q = sealed_through g →
  sealed_through g ≤ sealed →
  ordered (pos_event q) (sealed_through g + 1) evs →
  (evs = [] → pos_event q = next_event g) →
  encodes (MkTurn (next_turn g) sealed (speed g) evs) f →
  let t := MkTurn (next_turn g) sealed (speed g) evs in
  let first := default (next_event g) (seq <$> head evs) in
  let g1 := remember g (MkLoggedTurn first sealed f) in
  turn_follows q t ∧ log_ends (g1 <| next_turn := next_turn g1 + 1 |>) p0 (all ++ [t]) (after q t).
Proof.
  intros Hends Ht Hs Hfr Hevs Hempty Henc t first g1.
  assert (turn_follows q t) as Hfollow by (split; simpl; [done | by rewrite Hs | lia]).
  split; [done |].
  assert (first = pos_event q) as Hfirst.
  { unfold first. destruct evs as [| ev evs]; simpl; [| by apply ordered_cons in Hevs as (-> & _)].
    symmetry. by apply Hempty. }
  destruct (remember_ends g p0 all q t (MkLoggedTurn first sealed f) Hends Hfollow Henc Hfirst eq_refl).
  by split.
Qed.

(** What [seal_batches] leaves alone. *)
Lemma seal_batches_frame batches g frontier g' frames :
  seal_batches g frontier batches = (g', frames) →
  next_event g' = next_event g ∧ speed g' = speed g ∧ pending g' = pending g ∧
  seated g' = seated g ∧ histories g' = histories g ∧ sealed_through g' = sealed_through g.
Proof.
  revert g frames. induction batches as [| evs batches IH]; intros g frames; cbn [seal_batches].
  { by intros [= <- <-]. }
  destruct (encode_frame _ _) as [f | e]; [| by intros [= <- <-]].
  set (l := MkLoggedTurn _ _ f). pose proof (remember_fields g l) as Hr. cbn in Hr.
  destruct (seal_batches _ frontier batches) as [g2 frames2] eqn:Hrec. intros [= <- <-].
  apply IH in Hrec. cbn in Hrec. destruct Hr as (_ & -> & -> & -> & -> & -> & ->) in Hrec. done.
Qed.

(** Only a seal of nothing makes an empty batch. *)
Definition batches_full (batches : list (list Event)) : Prop :=
  batches = [[]] ∨ Forall (λ b, b ≠ []) batches.

Lemma batches_of_full evs : batches_full (batches_of evs).
Proof.
  assert (Hfold : ∀ evs full batch budget, Forall (λ b, b ≠ []) full → evs ≠ [] ∨ batch ≠ [] →
    let '(full', batch', _) := foldl batch_event (full, batch, budget) evs in
    Forall (λ b, b ≠ []) full' ∧ batch' ≠ []).
  { clear evs. induction evs as [| e evs IH]; intros full batch budget Hf Hne.
    { destruct Hne; [done |]. by split. }
    cbn [foldl batch_event]. destruct (_ && _) eqn:E.
    - apply andb_true_iff in E as [_ E]. apply negb_true_iff, bool_decide_eq_false in E.
      apply IH; [apply Forall_app_2; [done | by apply Forall_singleton] | by right].
    - apply IH; [done |]. right. by destruct batch. }
  destruct evs as [| e evs]; [by left |]. right. unfold batches_of.
  specialize (Hfold (e :: evs) [] [] 0 ltac:(constructor) ltac:(by left)).
  destruct (foldl _ _ (e :: evs)) as [[full batch] budget]. destruct Hfold.
  apply Forall_app_2; [done | by apply Forall_singleton].
Qed.

Lemma seal_batches_spec batches g p0 all q frontier g' frames :
  batches ≠ [] → batches_full batches →
  log_ends g p0 all q → pos_turn q = next_turn g → pos_sealed q = sealed_through g →
  sealed_through g ≤ frontier →
  ordered (pos_event q) (sealed_through g + 1) (concat batches) →
  pos_event q + Z.of_nat (length (concat batches)) = next_event g →
  seal_batches g frontier batches = (g', Ok frames) →
  let ts := sealed_turns (next_turn g) (sealed_through g) frontier (speed g) batches in
  Forall2 encodes ts frames ∧
  ∃ q', chain q ts q' ∧ log_ends g' p0 (all ++ ts) q' ∧
    q' = MkPosition (next_turn g') (next_event g) frontier.
Proof.
  revert g all q frames. induction batches as [| evs batches IH]; [done |].
  intros g all q frames _ Hfull Hends Ht Hs Hfr Hord Hcount. cbn [seal_batches sealed_turns].
  apply ordered_app in Hord as [Hevs Hrest].
  set (sealed := if bool_decide (batches = []) then frontier else sealed_through g) in *.
  assert (sealed_through g ≤ sealed) by (unfold sealed; case_bool_decide; lia).
  destruct (encode_frame (TurnOf (MkTurn (next_turn g) sealed (speed g) evs)) TURN_MAX_FRAME)
    as [f | e] eqn:Henc; [| done].
  destruct (remember_batch g p0 all q evs sealed f) as [Hfollow Hends']; [done.. | | done |].
  { intros ->. simpl in Hcount. destruct Hfull as [[= ->] | Hf]; [simpl in Hcount; lia |].
    by apply Forall_cons in Hf as [? _]. }
  set (l := MkLoggedTurn (default (next_event g) (seq <$> head evs)) sealed f) in *.
  destruct (remember_fields g l) as (Ent & Ene & Est & Esp & _).
  set (g1 := (remember g l) <| next_turn := next_turn (remember g l) + 1 |>) in *.
  destruct (seal_batches g1 frontier batches) as [g2 [frames2 | e2]] eqn:Hrec; cbn; [| done].
  intros [= -> <-]. destruct batches as [| evs' batches].
  { cbn in Hrec. injection Hrec as <- <-. cbn. split; [by repeat constructor |]. exists (after q (MkTurn (next_turn g) sealed (speed g) evs)).
    split; [eauto with turns |]. split; [done |]. simpl in *. rewrite app_nil_r in Hcount.
    unfold after. simpl. rewrite Ent, Ht. f_equal; try done; lia. }
  assert (sealed = sealed_through g) as Hsl by done.
  destruct (IH g1 (all ++ [MkTurn (next_turn g) sealed (speed g) evs]) (after q (MkTurn (next_turn g) sealed (speed g) evs)) frames2)
    as (Hf2 & q' & Hc & He' & Hq'); [done | | done | | | | | | done |].
  - destruct Hfull as [| Hf]; [done |]. right. by apply Forall_cons in Hf as [_ ?].
  - cbn. by rewrite Ent, Ht.
  - cbn. by rewrite Est.
  - cbn. by rewrite Est.
  - cbn. by rewrite Est.
  - cbn [concat] in Hcount |- *. rewrite length_app in Hcount. cbn [after pos_event events].
    change (next_event g1) with (next_event (remember g l)). rewrite Ene. lia.
  - cbn [sealed_turns] in *. cbn in Hf2, Hc, He', Hq'. rewrite Ent, Est, Esp in *. rewrite Ene in Hq'.
    split; [by constructor |]. exists q'. split; [eauto with turns |].
    split; [by rewrite <- app_assoc in He' | done].
Qed.

(** What one [seal] does, when the turns encode. *)
Lemma seal_spec g p0 all frontier g' frames :
  game_ok g p0 all → sealed_through g ≤ frontier → seal g frontier = (g', Ok frames) →
  let ts := sealed_turns (next_turn g) (sealed_through g) frontier (speed g) (batches_of (pending g)) in
  Forall2 encodes ts frames ∧ chain (head_pos g) ts (head_pos g') ∧ game_ok g' p0 (all ++ ts) ∧
  pending g' = [] ∧ sealed_through g' = frontier ∧ announced_speed g' = speed g ∧ speed g' = speed g ∧
  next_event g' = next_event g ∧ seated g' = seated g ∧ histories g' = histories g.
Proof.
  intros [Hends Hord] Hfr. unfold seal.
  destruct (seal_batches _ frontier _) as [g1 [fs | e]] eqn:Hseal; [| done]. intros [= <- <-].
  pose proof (seal_batches_frame _ _ _ _ _ Hseal) as (Ene & Esp & Epe & Ese & Ehi & Est).
  cbn in Ene, Esp, Epe, Ese, Ehi, Est.
  destruct (seal_batches_spec (batches_of (pending g)) (g <| pending := [] |>) p0 all (head_pos g) frontier g1 fs)
    as (Hf & q' & Hc & He & ->); [apply batches_nonempty | apply batches_of_full | | done | done | done | | | done |].
  - destruct Hends. by split.
  - by rewrite batches_concat.
  - rewrite batches_concat. simpl. lia.
  - cbn zeta. split; [exact Hf |]. unfold head_pos at 2. cbn. rewrite Epe, Ene, Z.sub_0_r.
    split; [exact Hc |]. split; [| done]. split; cbn; rewrite ?Epe; [| apply ordered_nil].
    unfold head_pos. cbn. rewrite ?Epe, ?Ene, ?Z.sub_0_r. destruct He. by split.
Qed.

Lemma append_ok {R} {RS : Ruleset R} g p0 all b (rules : R) :
  game_ok g p0 all → game_ok (append g b rules).1 p0 all.
Proof.
  intros [Hends Hord]. unfold append. split; cbn.
  - unfold head_pos. cbn. rewrite length_app. simpl.
    replace (next_event g + 1 - Z.of_nat (length (pending g) + 1))
      with (next_event g - Z.of_nat (length (pending g))) by lia.
    destruct Hends. by split.
  - rewrite length_app. cbn [length].
    replace (next_event g + 1 - Z.of_nat (length (pending g) + 1))
      with (next_event g - Z.of_nat (length (pending g))) by lia.
    apply ordered_app. split; [done |]. apply ordered_cons. cbn. split; [lia |].
    split; [done | apply ordered_nil].
Qed.

Lemma Game_new_ok settings h now : game_ok (Game_new settings h now) (MkPosition 1 1 0) [].
Proof.
  split; [| apply ordered_nil]. split; [| done | simpl; lia].
  exists [], [], (MkPosition 1 1 0). repeat split; constructor.
Qed.

(** ** Streams *)

(** The frames a resumed stream starts with encode the log's last turns, from
    where the start message says to where the next turn will continue. *)
Lemma stream_after_spec g p0 all resume st :
  game_ok g p0 all → stream_after g resume = Ok st →
  ∃ before ts, all = before ++ ts ∧ Forall2 encodes ts (backlog st) ∧
    let p := MkPosition (stream_next_turn st) (stream_next_event st) (stream_sealed_through st) in
    chain p0 before p ∧ chain p ts (head_pos g).
Proof.
  intros [[(gone & kept & p & -> & Hc & Hl & Hp & Hsb) _ _] Hord]. unfold stream_after.
  destruct (resume_from g resume) as [from |] eqn:Hfrom; cbn [result_bind]; [| done].
  destruct (_ || _) eqn:Hrange; [done |]. intros [= <-]. cbn.
  assert (log_first_turn g ≤ from ≤ next_turn g) as Hr by lia.
  set (skip := Z.to_nat (from - log_first_turn g)).
  pose proof (logged_length _ _ _ _ Hl) as Hlen. cbn in Hlen.
  destruct (logged_drop skip _ _ _ _ Hl) as (p' & Hpre & Hlog & Ht & Hs).
  destruct (logged_chain _ _ _ _ Hlog) as [Hchain Henc].
  exists (gone ++ take skip kept), (drop skip kept).
  split; [by rewrite <- app_assoc, take_drop |]. split; [done |].
  assert (p' = MkPosition from (match head (drop skip (log g)) with
                | None => default (next_event g) (seq <$> head (pending g))
                | Some turn => first_event turn end)
              (match skip with O => sealed_before_log g
               | S before => default (sealed_through g) (logged_sealed_through <$> log g !! before) end))
    as <-; [| split; [by eapply chain_app | done]].
  destruct p' as [pt pe ps]. cbn in Ht, Hs. f_equal.
  - unfold skip in Ht. lia.
  - destruct (drop skip (log g)) as [| l ls] eqn:Ed; inversion Hlog; subst; cbn; [| done].
    destruct (pending g) as [| e evs]; cbn in *; [lia |].
    apply ordered_cons in Hord as (-> & _). lia.
  - rewrite Hs. by destruct skip.
Qed.

(** Sealing succeeds when every turn it makes fits a frame. *)
Lemma seal_batches_total batches g frontier :
  Forall (λ t, ∃ f, encodes t f)
    (sealed_turns (next_turn g) (sealed_through g) frontier (speed g) batches) →
  ∃ g' frames, seal_batches g frontier batches = (g', Ok frames).
Proof.
  revert g. induction batches as [| evs batches IH]; intros g; cbn [seal_batches sealed_turns];
    [by eexists _, _ |].
  intros [[f Hf] Hrest]%Forall_cons. unfold encodes in Hf. rewrite Hf.
  set (l := MkLoggedTurn _ _ f). destruct (remember_fields g l) as (Ent & _ & Est & Esp & _).
  destruct (IH ((remember g l) <| next_turn := next_turn (remember g l) + 1 |>)) as (g' & fs & Hrec).
  { cbn. by rewrite Ent, Est, Esp. }
  rewrite Hrec. cbn. by eexists _, _.
Qed.

Lemma seal_total g frontier :
  Forall (λ t, ∃ f, encodes t f)
    (sealed_turns (next_turn g) (sealed_through g) frontier (speed g) (batches_of (pending g))) →
  ∃ g' frames, seal g frontier = (g', Ok frames).
Proof.
  intros Hall. unfold seal.
  destruct (seal_batches_total (batches_of (pending g)) (g <| pending := [] |>) frontier)
    as (g' & fs & E); [exact Hall |].
  rewrite E. by eexists _, _.
Qed.

Lemma sealed_turns_shape turn sealed frontier sp batches :
  batches ≠ [] →
  ∃ pre t, sealed_turns turn sealed frontier sp batches = pre ++ [t] ∧
    turn_sealed_through t = frontier ∧ Forall (λ t, turn_sealed_through t = sealed) pre.
Proof.
  revert turn. induction batches as [| evs [| evs' batches] IH]; intros turn Hne; [done | |].
  - by eexists [], _.
  - destruct (IH (turn + 1) ltac:(done)) as (pre & t & E & Ht & Hpre).
    exists (MkTurn turn sealed sp evs :: pre), t. split; [| split; [done | by constructor]].
    change (sealed_turns turn sealed frontier sp (evs :: evs' :: batches)) with
      (MkTurn turn sealed sp evs :: sealed_turns (turn + 1) sealed frontier sp (evs' :: batches)).
    by rewrite E.
Qed.

Lemma sealed_turns_forall (Q : list Event → Prop) turn sealed frontier sp batches :
  Forall Q batches →
  Forall (λ t, Q (events t) ∧ turn_speed t = sp) (sealed_turns turn sealed frontier sp batches).
Proof. intros H. revert turn. induction H; intros turn; simpl; by constructor. Qed.
End invariant.

(** sealing refines the turn log.  When every turn fits a frame, sealing
    up to a frontier that is not behind succeeds; the frames it returns encode
    turns that continue the log without gaps and carry exactly the events that
    were waiting, in order, at the announced speed; only the last turn moves the
    frontier, so that every prefix is a valid log; a turn keeps to the payload
    budget unless one event alone exceeds it; and nothing is left waiting. *)
Theorem seal_refines_log {P : Postcard TurnMessage} (g : Game) (p0 : Position) (all : list Turn)
    (frontier : Z) :
  game_ok g p0 all → sealed_through g ≤ frontier →
  Forall (λ t, ∃ f, encodes t f)
    (sealed_turns (next_turn g) (sealed_through g) frontier (speed g) (batches_of (pending g))) →
  ∃ g' frames ts, seal g frontier = (g', Ok frames) ∧ Forall2 encodes ts frames ∧
    chain (head_pos g) ts (head_pos g') ∧ game_ok g' p0 (all ++ ts) ∧
    ts ≫= events = pending g ∧ pending g' = [] ∧ sealed_through g' = frontier ∧
    Forall (λ t, within_budget (events t) ∧ turn_speed t = speed g) ts ∧
    ∃ pre t, ts = pre ++ [t] ∧ turn_sealed_through t = frontier ∧
      Forall (λ t, turn_sealed_through t = sealed_through g) pre.
Proof.
  intros Hok Hfr Hfit. destruct (seal_total g frontier Hfit) as (g' & frames & Hs).
  destruct (seal_spec g p0 all frontier g' frames Hok Hfr Hs) as (Henc & Hc & Hok' & Hp & Hst & _).
  eexists g', frames, _. split; [done |]. split; [exact Henc |]. split; [exact Hc |].
  split; [exact Hok' |]. split; [by rewrite sealed_turns_events, batches_concat |].
  split; [done |]. split; [done |]. split; [apply sealed_turns_forall, batches_budget |].
  apply sealed_turns_shape, batches_nonempty.
Qed.

(** A game with two players and two commands waiting. *)
Module GameExamples.
Export Concrete.
Definition linux := MkPlatform Linux X86_64.
Definition g0 := Game_new DEFAULT_SETTINGS 77 0.
Definition g1 := (append g0 (PlayerJoined 5 "ada" linux) accept_all).1.
Definition g2 := (append g1 (Command 5 1 [10; 20]) accept_all).1.
Definition p0 := MkPosition 1 1 0.

Lemma g2_ok : game_ok g2 p0 [].
Proof. apply append_ok, append_ok, Game_new_ok. Qed.
End GameExamples.

Lemma seal_refines_log_witness :
  ∃ g' frames ts, seal (P := Concrete.turn_postcard) GameExamples.g2 3 = (g', Ok frames) ∧
    Forall2 (encodes (P := Concrete.turn_postcard)) ts frames ∧
    chain (head_pos GameExamples.g2) ts (head_pos g') ∧
    game_ok (P := Concrete.turn_postcard) g' GameExamples.p0 ([] ++ ts) ∧
    ts ≫= events = pending GameExamples.g2 ∧ pending g' = [] ∧ sealed_through g' = 3 ∧
    Forall (λ t, within_budget (events t) ∧ turn_speed t = speed GameExamples.g2) ts ∧
    ∃ pre t, ts = pre ++ [t] ∧ turn_sealed_through t = 3 ∧
      Forall (λ t, turn_sealed_through t = sealed_through GameExamples.g2) pre.
Proof.
  apply (seal_refines_log GameExamples.g2 GameExamples.p0 [] 3).
  - apply GameExamples.g2_ok.
  - vm_compute. congruence.
  - constructor; [| constructor]. eexists. vm_compute. reflexivity.
Defined.

(** * Histories *)

(** The histories of a game: distinct, in order, none past the last turn. *)
Record histories_ok (g : Game) : Prop := {
  ho_ids : NoDup (hist_id <$> histories g);
  ho_sorted : StronglySorted Z.le (hist_after_turn <$> histories g);
  ho_last : Forall (λ h, hist_after_turn h < next_turn g) (histories g);
}.

Lemma resume_from_later g r from :
  histories_ok g → resume_from g (Some r) = Ok from →
  ∃ i h, histories g !! i = Some h ∧ hist_id h = history_id r ∧
    ∀ j h', (i < j)%nat → histories g !! j = Some h' → after_turn r ≤ hist_after_turn h'.
Proof.
  intros [_ Hsort _]. cbn. destruct (list_find _ _) as [[i h] |] eqn:Hfind; [| done].
  apply list_find_Some in Hfind as (Hi & Hid & _). intros Hok. exists i, h. split; [done |].
  split; [done |]. intros j h' Hij Hj.
  destruct (lookup_lt_is_Some_2 (histories g) (S i)) as [next Hnext].
  { apply lookup_lt_Some in Hj. lia. }
  rewrite Hnext in Hok. destruct (Z.ltb_spec (hist_after_turn next) (after_turn r)); [done |].
  destruct (base.decide (j = S i)) as [-> | Hne]; [by simplify_eq |].
  assert (hist_after_turn next ≤ hist_after_turn h'); [| lia].
  apply (StronglySorted_lookup_lt Z.le (hist_after_turn <$> histories g) (S i) j); [done | | | lia];
    rewrite list_lookup_fmap; by rewrite ?Hnext, ?Hj.
Qed.

Lemma NoDup_lookup_inj {A B} (f : A → B) (l : list A) i j x y :
  NoDup (f <$> l) → l !! i = Some x → l !! j = Some y → f x = f y → i = j.
Proof.
  intros Hnd Hi Hj E. apply (NoDup_lookup (f <$> l) i j (f x) Hnd); rewrite list_lookup_fmap;
    rewrite ?Hi, ?Hj; simpl; congruence.
Qed.

Lemma begin_history_ok g id :
  histories_ok g → 1 ≤ next_turn g → id ∉ hist_id <$> histories g → histories_ok (begin_history g id).
Proof.
  intros [Hnd Hs Hl] Ht Hid. unfold begin_history, saturating_sub_u64. split; cbn.
  - rewrite fmap_app. apply NoDup_app. split; [done |]. split; [| apply NoDup_singleton].
    by intros x Hx ->%list_elem_of_singleton.
  - rewrite fmap_app. apply StronglySorted_app_2; [| done | repeat constructor].
    intros a b (h & -> & Hh)%list_elem_of_fmap ->%list_elem_of_singleton. cbn.
    rewrite Forall_forall in Hl. specialize (Hl h Hh). lia.
  - apply Forall_app_2; [done |]. apply Forall_singleton. cbn. lia.
Qed.

(** C13: nobody is resumed onto turns that differ from the ones they saw.  Once
    a recovery begins a new history after the last turn it found, a client that
    applied a later turn of any earlier history, one the crash lost, is refused,
    however far the recovered game has gone on and however often it recovered
    again. *)
Theorem lost_turns_refused (g later : Game) (id : Z) (more : list History) (r : Resume) :
  histories_ok later → 1 ≤ next_turn g →
  histories later = histories (begin_history g id) ++ more →
  history_id r ∈ hist_id <$> histories g → next_turn g ≤ after_turn r →
  stream_after later (Some r) = Err ResumeUnavailable.
Proof.
  intros Hok Ht Hmore Hid Hlost. unfold stream_after.
  destruct (resume_from later (Some r)) as [from | e] eqn:Hfrom; cbn [result_bind].
  - exfalso. destruct (resume_from_later _ _ _ Hok Hfrom) as (i & h & Hi & Hh & Hafter).
    apply list_elem_of_fmap in Hid as (h0 & Hh0 & [i0 Hi0]%list_elem_of_lookup).
    unfold begin_history, saturating_sub_u64 in Hmore. cbn in Hmore.
    assert (histories later !! i0 = Some h0) as Hi0'.
    { rewrite Hmore, <- app_assoc. by apply lookup_app_l_Some. }
    assert (i = i0) as -> by (apply (NoDup_lookup_inj hist_id (histories later) i i0 h h0);
      [apply Hok | done | done | congruence]).
    apply lookup_lt_Some in Hi0 as Hlt.
    specialize (Hafter (length (histories g)) (MkHistory id (Z.max (next_turn g - 1) 0)) Hlt).
    cbn in Hafter. rewrite Hmore, <- app_assoc in Hafter.
    specialize (Hafter (list_lookup_middle _ _ _ _ eq_refl)). lia.
  - cbn in Hfrom. repeat case_match; by simplify_eq.
Qed.

Lemma lost_turns_refused_witness :
  let g := Game_new DEFAULT_SETTINGS 77 0 in
  stream_after (begin_history g 78) (Some (MkResume 4 77)) = Err ResumeUnavailable.
Proof.
  apply (lost_turns_refused (Game_new DEFAULT_SETTINGS 77 0)
    (begin_history (Game_new DEFAULT_SETTINGS 77 0) 78) 78 [] (MkResume 4 77)).
  - split; cbn.
    + apply (bool_decide_unpack _). vm_compute. exact I.
    + repeat constructor; vm_compute; congruence.
    + repeat constructor; vm_compute; congruence.
  - vm_compute. congruence.
  - by rewrite app_nil_r.
  - cbn. left.
  - vm_compute. congruence.
Defined.

(** * Saves *)

Section save_point.
Context {P : Postcard TurnMessage} {R : Type} {RS : Ruleset R}.

(** How a room seals a save: the save event last, and no new step. *)
Definition seal_save (g : Game) (rules : R) : Game * result (list Frame * SavePoint) FrameError :=
  let g := (append g SaveWorld rules).1 in
  let event := next_event g - 1 in
  let frontier := sealed_through g in
  let '(g, frames) := seal g frontier in
  match frames with
  | Err e => (g, Err e)
  | Ok frames =>
      (g, Ok (frames, MkSavePoint event (next_turn g - 1) (history g) frontier))
  end.

Lemma seal_save_spec g rules p0 all g' frames point :
  game_ok g p0 all → seal_save g rules = (g', Ok (frames, point)) →
  ∃ ts, game_ok g' p0 (all ++ ts) ∧
    head_pos g' = MkPosition (point_after_turn point + 1) (point_event point + 1) (point_sealed_through point) ∧
    point_history point = history g' ∧ pending g' = [] ∧ sealed_through g' = sealed_through g ∧
    histories g' = histories g.
Proof.
  intros Hok. unfold seal_save.
  destruct (seal (append g SaveWorld rules).1 _) as [g1 [fs | e]] eqn:Hs; [| done].
  intros [= <- <- <-].
  destruct (seal_spec _ p0 all _ _ _ (append_ok g p0 all SaveWorld rules Hok) (Z.le_refl _) Hs)
    as (_ & _ & Hok' & Hp & Hst & _ & _ & Hne & _ & Hh).
  eexists. split; [exact Hok' |]. split; [| done].
  unfold head_pos. rewrite Hp, Hst, Hne. cbn. f_equal; lia.
Qed.

(** A log has one position after so many turns. *)
Lemma log_position p0 all1 all2 q1 q2 :
  chain p0 all1 q1 → (∃ more1, all1 ++ more1 = all2) →
  ∀ before more2, before ++ more2 = all2 → chain p0 before q2 → pos_turn q1 = pos_turn q2 →
  before = all1 ∧ q1 = q2.
Proof.
  intros H1 (more1 & Hm1) before more2 Hm2 H2 Ht.
  pose proof (chain_turns _ _ _ H1). pose proof (chain_turns _ _ _ H2).
  assert (before = all1) as ->.
  { apply (app_inj_1 _ _ more2 more1); [lia | congruence]. }
  split; [done | by eapply chain_fun].
Qed.

End save_point.

Lemma log_chain {P : Postcard TurnMessage} g p0 all :
  game_ok g p0 all → chain p0 all (head_pos g).
Proof.
  intros [[(gone & kept & p & -> & Hc & Hl & _) _ _] _]. eapply chain_app; [exact Hc |].
  by destruct (logged_chain _ _ _ _ Hl).
Qed.

Lemma log_window {P : Postcard TurnMessage} g p0 all :
  game_ok g p0 all → log_first_turn g + Z.of_nat (length (log g)) = next_turn g.
Proof.
  intros [[(gone & kept & p & -> & Hc & Hl & Ht & _) _ _] _].
  apply logged_length in Hl. simpl in Hl. lia.
Qed.

(** A client on the latest history of [g1] resumes on any later game that
    shares its turns. *)
Lemma resume_from_current g1 g2 n newer :
  histories g1 ≠ [] → histories g2 = histories g1 ++ newer → NoDup (hist_id <$> histories g2) →
  Forall (λ h, n ≤ hist_after_turn h) newer →
  resume_from g2 (Some (MkResume n (history g1))) = Ok (saturating_add_u64 n 1).
Proof.
  intros Hne Hh Hnd Hnew. destruct (exists_last Hne) as (hs & h & E).
  assert (history g1 = hist_id h) as -> by (unfold history; by rewrite E, last_snoc).
  cbn. assert (histories g2 !! length hs = Some h) as Hlk.
  { rewrite Hh, E, <- app_assoc. by apply list_lookup_middle. }
  destruct (list_find_elem_of (λ x, hist_id x = hist_id h) (histories g2) h) as [[i y] Hf];
    [by eapply list_elem_of_lookup_2 | done |].
  rewrite Hf. apply list_find_Some in Hf as (Hi & Hy & _).
  assert (i = length hs) as -> by (by eapply (NoDup_lookup_inj hist_id (histories g2))).
  destruct (histories g2 !! S (length hs)) as [next |] eqn:Hnext; [| done].
  rewrite Hh, E, <- app_assoc, lookup_app_r in Hnext by lia.
  replace (S (length hs) - length hs)%nat with 1%nat in Hnext by lia. cbn in Hnext.
  destruct newer as [| x newer]; [done |]. cbn in Hnext. injection Hnext as ->.
  apply Forall_cons in Hnew as [Hx _]. by destruct (Z.ltb_spec (hist_after_turn next) n); [lia |].
Qed.

(** A save's world can be handed on as long as its turn is in the resume
    window.  However the game went on since, recoveries included, the stream
    from the save point is served, with exactly the turns sealed after the save,
    and its start message says that every event up to the save is applied and
    every step sealed by then has run. *)
Theorem save_point_served {P : Postcard TurnMessage} {R} {RS : Ruleset R}
    (g g1 g2 : Game) (rules : R) (p0 : Position) (all all1 more : list Turn)
    (frames : list Frame) (point : SavePoint) (newer : list History) :
  game_ok g p0 all → seal_save g rules = (g1, Ok (frames, point)) →
  histories g1 ≠ [] → next_turn g1 ≤ u64_max → next_event g1 ≤ u64_max →
  game_ok g1 p0 all1 → game_ok g2 p0 (all1 ++ more) →
  histories g2 = histories g1 ++ newer → NoDup (hist_id <$> histories g2) →
  Forall (λ h, point_after_turn point ≤ hist_after_turn h) newer →
  log_first_turn g2 ≤ next_turn g1 →
  ∃ st, stream_from_save g2 point = Ok st ∧ Forall2 encodes more (backlog st) ∧
    stream_next_turn st = point_after_turn point + 1 ∧
    stream_next_event st = point_event point + 1 ∧
    stream_sealed_through st = point_sealed_through point.
Proof.
  intros Hok Hsave Hne Hmt Hme Hok1 Hok2 Hh Hnd Hnew Hwin.
  destruct (seal_save_spec _ _ _ _ _ _ _ Hok Hsave) as (_ & _ & Hhead & Hhist & Hpend & _).
  pose proof Hhead as Hhead'. unfold head_pos in Hhead'. rewrite Hpend in Hhead'. cbn in Hhead'.
  rewrite Z.sub_0_r in Hhead'. injection Hhead' as Ent Ene Est.
  assert (Hfrom : resume_from g2 (Some (MkResume (point_after_turn point) (point_history point)))
    = Ok (next_turn g1)).
  { rewrite Hhist, (resume_from_current g1 g2 _ newer) by done.
    unfold saturating_add_u64. f_equal. lia. }
  pose proof (log_chain _ _ _ Hok1) as Hc1. pose proof (log_chain _ _ _ Hok2) as Hc2.
  assert (next_turn g1 ≤ next_turn g2) as Hle.
  { pose proof (chain_turns _ _ _ Hc1). pose proof (chain_turns _ _ _ Hc2) as H2.
    rewrite length_app in H2. simpl in *. lia. }
  assert (∃ st, stream_after g2 (Some (MkResume (point_after_turn point) (point_history point))) = Ok st
    ∧ stream_next_turn st = next_turn g1) as (st & Hst & Htn).
  { unfold stream_after. rewrite Hfrom. cbn [result_bind].
    destruct (Z.ltb_spec (next_turn g2) (next_turn g1)); [lia |].
    destruct (Z.ltb_spec (next_turn g1) (log_first_turn g2)); [lia |]. cbn [orb].
    eexists. split; [done | done]. }
  destruct (stream_after_spec _ _ _ _ _ Hok2 Hst) as (before & ts & Hsplit & Henc & Hb & _).
  destruct (log_position p0 all1 (all1 ++ more) (head_pos g1) _ Hc1 ltac:(by exists more)
    before ts ltac:(done) Hb) as [-> Hq]; [simpl; lia |].
  apply app_inv_head in Hsplit as <-. rewrite Hhead in Hq. injection Hq as Eq1 Eq2 Eq3.
  exists st. unfold stream_from_save. rewrite Hst. cbn [result_bind].
  rewrite <- Eq2, <- Eq3. unfold saturating_add_u64. rewrite Z.min_l by lia.
  rewrite !Z.eqb_refl. cbn. repeat split; [done | lia].
Qed.

(** A game saves, a player builds, and the next turn is sealed. *)
Module SaveExamples.
Import GameExamples.
Definition gs := (seal_save g2 accept_all).1.
Definition point := MkSavePoint 3 1 77 0.
Definition g3 := (append gs (Command 5 2 [30]) accept_all).1.
Definition g4 := (seal g3 4).1.
Definition all1 := sealed_turns 1 0 0 NORMAL (batches_of (pending (append g2 SaveWorld accept_all).1)).
Definition more := sealed_turns 2 0 4 NORMAL (batches_of (pending g3)).

Lemma gs_ok : game_ok gs p0 all1.
Proof.
  eapply (seal_spec (append g2 SaveWorld accept_all).1 p0 [] 0);
    [apply append_ok, g2_ok | vm_compute; congruence | vm_compute; reflexivity].
Qed.

Lemma g4_ok : game_ok g4 p0 (all1 ++ more).
Proof.
  eapply (seal_spec g3 p0 all1 4);
    [apply append_ok, gs_ok | vm_compute; congruence | vm_compute; reflexivity].
Qed.
End SaveExamples.

Lemma save_point_served_witness :
  ∃ st, stream_from_save SaveExamples.g4 SaveExamples.point = Ok st ∧
    Forall2 (encodes (P := Concrete.turn_postcard)) SaveExamples.more (backlog st) ∧
    stream_next_turn st = 2 ∧ stream_next_event st = 4 ∧ stream_sealed_through st = 0.
Proof.
  eapply (save_point_served (P := Concrete.turn_postcard) GameExamples.g2 SaveExamples.gs
    SaveExamples.g4 accept_all GameExamples.p0 [] SaveExamples.all1 SaveExamples.more _
    SaveExamples.point []).
  - apply GameExamples.g2_ok.
  - vm_compute. reflexivity.
  - vm_compute. congruence.
  - vm_compute. congruence.
  - vm_compute. congruence.
  - apply SaveExamples.gs_ok.
  - apply SaveExamples.g4_ok.
  - vm_compute. reflexivity.
  - apply (bool_decide_unpack _). vm_compute. exact I.
  - constructor.
  - vm_compute. congruence.
Defined.

(** * What a game keeps in memory *)

Lemma trim_keeps_last w ls l bytes first sb :
  1 ≤ w →
  let '(ls', _, _, _) := trim_loop w (ls ++ [l]) bytes first sb in last ls' = Some l.
Proof.
  intros Hw. revert bytes first sb. induction ls as [| x ls IH]; intros bytes first sb.
  - cbn [trim_loop app length]. destruct (Z.ltb_spec w (Z.of_nat 1)); [lia |]. cbn [orb].
    change (1 <? 1)%nat with false. by rewrite andb_false_r.
  - change ((x :: ls) ++ [l]) with (x :: (ls ++ [l])). cbn [trim_loop].
    destruct (_ || _); [apply IH |]. change (x :: (ls ++ [l])) with ((x :: ls) ++ [l]).
    apply last_snoc.
Qed.

(** The turns kept for resuming are bounded.  After every turn remembered,
    the game keeps at most the window's turns and, unless a single turn is
    larger, at most 64 MiB; the newest turn always stays; and the byte count is
    exact. *)
Theorem resume_window_bounded (g : Game) (l : LoggedTurn) :
  log_bytes g = bytes_of (log g) → 1 ≤ resume_window g →
  let g' := remember g l in
  Z.of_nat (length (log g')) ≤ resume_window g ∧
  (log_bytes g' ≤ RESUME_WINDOW_BYTES ∨ length (log g') = 1%nat) ∧
  log_bytes g' = bytes_of (log g') ∧ last (log g') = Some l.
Proof.
  intros Hb Hw. unfold remember, trim. cbn.
  pose proof (trim_loop_spec (resume_window g) (log g ++ [l])
    (log_bytes g + Z.of_nat (length (frame l))) (log_first_turn g) (sealed_before_log g)) as Htrim.
  pose proof (trim_keeps_last (resume_window g) (log g) l
    (log_bytes g + Z.of_nat (length (frame l))) (log_first_turn g) (sealed_before_log g) Hw) as Hlast.
  destruct (trim_loop _ _ _ _ _) as [[[ls' bytes'] first'] sb'].
  destruct Htrim as (_ & Hb' & Hlen & Hbytes).
  { rewrite Hb. unfold bytes_of. sum_lia. }
  cbn. split; [destruct Hlen as [-> |]; [simpl; lia | lia] |].
  split; [| split; [exact Hb' | exact Hlast]].
  destruct Hbytes as [| H1]; [by left | right]. destruct ls' as [| x [| y ls']]; simpl in *; [done | done | lia].
Qed.

Lemma resume_window_bounded_witness :
  let g' := remember GameExamples.g2 (MkLoggedTurn 1 3 [7; 8]) in
  Z.of_nat (length (log g')) ≤ resume_window GameExamples.g2 ∧
  (log_bytes g' ≤ RESUME_WINDOW_BYTES ∨ length (log g') = 1%nat) ∧
  log_bytes g' = bytes_of (log g') ∧ last (log g') = Some (MkLoggedTurn 1 3 [7; 8]).
Proof.
  apply (resume_window_bounded GameExamples.g2 (MkLoggedTurn 1 3 [7; 8])).
  - reflexivity.
  - cbn. unfold RESUME_WINDOW. lia.
Defined.

(** ** Rounds *)

Lemma close_rounds_spec steps g :
  let g' := foldl close_round g steps in
  (∀ k, rounds g' !! k = if bool_decide (k ∈ steps) then None else rounds g !! k) ∧
  rounds_closed_through g ≤ rounds_closed_through g' ∧
  Forall (λ k, k ≤ rounds_closed_through g') steps.
Proof.
  revert g. induction steps as [| s steps IH]; intros g; cbn [foldl].
  { split; [done |]. split; [lia | constructor]. }
  destruct (IH (close_round g s)) as (Hk & Hc & Hall).
  change (rounds_closed_through (close_round g s)) with (Z.max (rounds_closed_through g) s) in Hc.
  set (g' := foldl close_round (close_round g s) steps) in *. cbn zeta in *.
  split; [| split; [lia | constructor; [lia | done]]].
  intros k. rewrite Hk. destruct (base.decide (k ∈ steps)) as [Hin | Hin].
  - rewrite !bool_decide_true; [done | by right | done].
  - rewrite (bool_decide_false (k ∈ steps)) by done. cbn.
    destruct (base.decide (k = s)) as [-> | Hne].
    + rewrite bool_decide_true by left. by rewrite lookup_delete_eq.
    + rewrite bool_decide_false by (rewrite elem_of_cons; naive_solver). by rewrite lookup_delete_ne.
Qed.

Lemma elem_of_decided g k :
  k ∈ decided_steps g ↔ ∃ r, rounds g !! k = Some r ∧ is_Some (verdict r).
Proof.
  unfold decided_steps. rewrite list_elem_of_In, filter_In, <- list_elem_of_In.
  rewrite elem_of_btree_keys, bool_decide_eq_true. split.
  - intros [[r Hr] Hv]. rewrite Hr in Hv. by exists r.
  - intros (r & Hr & Hv). rewrite Hr. split; [by eexists | done].
Qed.

Lemma decided_sublist g : decided_steps g `sublist_of` btree_keys (rounds g).
Proof.
  unfold decided_steps. induction (btree_keys (rounds g)) as [| k ks IH]; simpl; [constructor |].
  destruct (bool_decide _); by constructor.
Qed.

Lemma NoDup_decided g : NoDup (decided_steps g).
Proof. eapply sublist_NoDup; [apply (NoDup_btree_keys (rounds g)) | apply decided_sublist]. Qed.

Lemma elem_of_take_sub {A} n (l : list A) x : x ∈ take n l → x ∈ l.
Proof. intros. eapply elem_of_sublist; [done | apply sublist_take]. Qed.

(** The rounds pruned are older than the ones kept. *)
Lemma decided_lt g n k k' :
  k ∈ take n (decided_steps g) → k' ∈ drop n (decided_steps g) → k < k'.
Proof.
  intros Hk Hk'. pose proof (NoDup_decided g) as Hnd.
  assert (StronglySorted Z.le (decided_steps g)) as Hs.
  { eapply StronglySorted_sublist; [apply decided_sublist | apply btree_keys_sorted]. }
  rewrite <- (take_drop n (decided_steps g)) in Hnd, Hs.
  apply NoDup_app in Hnd as (_ & Hdis & _).
  assert (k ≤ k') by (by eapply (StronglySorted_app_1_elem_of _ _ _ _ _ Hs)).
  assert (k ≠ k'); [| lia]. intros ->. by destruct (Hdis k').
Qed.

(** Late reports are judged for the newest decided rounds.  Pruning keeps
    at most 64 decided rounds, the newest ones; it drops no round without a
    verdict; and every round it drops counts as closed, so that no report can
    open it again. *)
Theorem prune_keeps_newest (g : Game) :
  let g' := prune_rounds g in
  (length (decided_steps g') ≤ DECIDED_ROUNDS_KEPT)%nat ∧
  (∀ k r, rounds g !! k = Some r → verdict r = None → rounds g' !! k = Some r) ∧
  (∀ k r, rounds g' !! k = Some r → rounds g !! k = Some r) ∧
  (∀ k, is_Some (rounds g !! k) → rounds g' !! k = None →
     k ≤ rounds_closed_through g' ∧ ∀ k', k' ∈ decided_steps g' → k < k').
Proof.
  unfold prune_rounds. set (decided := decided_steps g).
  set (excess := (length decided - DECIDED_ROUNDS_KEPT)%nat).
  destruct (close_rounds_spec (take excess decided) g) as (Hk & Hc & Hall).
  set (g' := foldl close_round g (take excess decided)) in *.
  assert (Hdec : ∀ k, k ∈ decided ↔ ∃ r, rounds g !! k = Some r ∧ is_Some (verdict r))
    by apply elem_of_decided.
  assert (Hdec' : ∀ k, k ∈ decided_steps g' ↔ k ∈ drop excess decided).
  { intros k. rewrite elem_of_decided. setoid_rewrite Hk.
    assert (Hsplit : k ∈ decided ↔ k ∈ take excess decided ∨ k ∈ drop excess decided)
      by (rewrite <- elem_of_app, take_drop; done).
    pose proof (NoDup_decided g) as Hnd. fold decided in Hnd.
    rewrite <- (take_drop excess decided) in Hnd. apply NoDup_app in Hnd as (_ & Hdis & _).
    case_bool_decide as Hin.
    - split; [intros (r & [=] & _) | intros Hd; by destruct (Hdis k Hin)].
    - rewrite <- (Hdec k), Hsplit. naive_solver. }
  split; [| split; [| split]].
  - assert (decided_steps g' ≡ₚ drop excess decided) as ->.
    { apply NoDup_Permutation; [apply NoDup_decided | | done].
      eapply sublist_NoDup; [apply NoDup_decided | apply sublist_drop]. }
    rewrite length_drop. unfold excess. lia.
  - intros k r Hr Hv. rewrite Hk. rewrite bool_decide_false; [done |].
    intros Hin. apply (elem_of_take_sub excess) in Hin. apply Hdec in Hin as (r' & Hr' & [? ?]). simplify_eq.
  - intros k r. rewrite Hk. by case_bool_decide.
  - intros k [r Hr] Hnone. rewrite Hk in Hnone. case_bool_decide as Hin; [| congruence].
    rewrite Forall_forall in Hall. split; [by apply Hall |]. intros k' Hk'%Hdec'.
    by apply (decided_lt g excess k k').
Qed.
