(* ===== verification/Follower.v ===== *)
(** The client half of the turn invariants
    ([crates/tpf3mp-agent/src/follower.rs]): checks every turn the server sends
    and tells the game what it may do next. *)
From S2P Require Import Prelude Proto TurnLog.
Local Open Scope Z_scope.

Definition MAX_QUEUED_BYTES : Z := 256 * 2 ^ 20.
Definition EVENT_OVERHEAD : Z := 64.

Inductive FollowError :=
  | TurnGap (expected got : Z)
  | EventGap (expected got : Z)
  | EventStep (seq step expected : Z)
  | FrontierRegressed (from to : Z)
  | RestartMismatch (expected got : Z)
  | RestartFrontier (expected got : Z)
  | Overflow
  | Backlog.

Record TurnFollower := MkTurnFollower {
  f_next_turn : Z;
  f_next_event : Z;
  f_sealed_through : Z;
  f_speed : Speed;
  executed : Z;
  queue : list Event;
  queued_bytes : Z;
  f_history : Z;
}.
#[export] Instance eta_TurnFollower : Eta TurnFollower := fun f =>
  MkTurnFollower (f_next_turn f) (f_next_event f) (f_sealed_through f) (f_speed f) (executed f)
    (queue f) (queued_bytes f) (f_history f).

Definition TurnFollower_new (start : TurnStart) : TurnFollower :=
  {| f_next_turn := start_next_turn start;
     f_next_event := start_next_event start;
     f_sealed_through := start_sealed_through start;
     f_speed := NORMAL;
     executed := start_sealed_through start;
     queue := [];
     queued_bytes := 0;
     f_history := start_history start |}.

Definition restart (f : TurnFollower) (start : TurnStart) : result TurnFollower FollowError :=
  if negb (start_next_turn start =? f_next_turn f) then
    Err (RestartMismatch (f_next_turn f) (start_next_turn start))
  else if negb (start_next_event start =? f_next_event f) then
    Err (EventGap (f_next_event f) (start_next_event start))
  else if negb (start_sealed_through start =? f_sealed_through f) then
    Err (RestartFrontier (f_sealed_through f) (start_sealed_through start))
  else Ok (f <| f_history := start_history start |>).

Definition resume_point (f : TurnFollower) : Resume :=
  MkResume (saturating_sub_u64 (f_next_turn f) 1) (f_history f).

Definition event_size (event : Event) : Z :=
  EVENT_OVERHEAD + match body event with
                   | Command _ _ payload => Z.of_nat (length payload)
                   | _ => 0
                   end.

Definition turn_weight (turn : Turn) : Z :=
  EVENT_OVERHEAD + sum_Z (event_size <$> events turn).

(** The loop of [accept]: the next event number and the bytes seen. *)
Fixpoint check_events (step_due expected bytes : Z) (evs : list Event) :
    result (Z * Z) FollowError :=
  match evs with
  | [] => Ok (expected, bytes)
  | event :: evs =>
      if negb (seq event =? expected) then Err (EventGap expected (seq event))
      else if negb (step event =? step_due) then Err (EventStep (seq event) (step event) step_due)
      else
        let? expected := ok_or (checked_add_u64 expected 1) Overflow in
        check_events step_due expected (bytes + event_size event) evs
  end.

Definition accept (f : TurnFollower) (turn : Turn) : result TurnFollower FollowError :=
  if negb (number turn =? f_next_turn f) then Err (TurnGap (f_next_turn f) (number turn))
  else if turn_sealed_through turn <? f_sealed_through f then
    Err (FrontierRegressed (f_sealed_through f) (turn_sealed_through turn))
  else
    let? next_turn := ok_or (checked_add_u64 (f_next_turn f) 1) Overflow in
    let? step_due := ok_or (checked_add_u64 (f_sealed_through f) 1) Overflow in
    let? (expected, bytes) := check_events step_due (f_next_event f) 0 (events turn) in
    if MAX_QUEUED_BYTES <? queued_bytes f + bytes then Err Backlog
    else Ok (f <| f_next_turn := next_turn |> <| f_next_event := expected |>
               <| f_sealed_through := turn_sealed_through turn |> <| f_speed := turn_speed turn |>
               <| queued_bytes := queued_bytes f + bytes |>
               <| queue := queue f ++ events turn |>).

Definition event_first (f : TurnFollower) : bool :=
  match queue f with
  | event :: _ => step event =? executed f + 1
  | [] => false
  end.

Definition next_action (f : TurnFollower) : TurnFollower * option Action :=
  let step_due := executed f + 1 in
  match queue f with
  | event :: rest =>
      if step event =? step_due then
        (f <| queue := rest |>
           <| queued_bytes := saturating_sub_u64 (queued_bytes f) (event_size event) |>,
         Some (Apply event))
      else if step_due <=? f_sealed_through f then
        (f <| executed := step_due |>, Some (Execute step_due))
      else (f, None)
  | [] =>
      if step_due <=? f_sealed_through f then
        (f <| executed := step_due |>, Some (Execute step_due))
      else (f, None)
  end.

Definition next_step (f : TurnFollower) : option Z :=
  let step_due := executed f + 1 in
  if negb (event_first f) && (step_due <=? f_sealed_through f) then Some step_due else None.

Definition last_turn (f : TurnFollower) : option Z :=
  if (1 <=? f_next_turn f) && (0 <? f_next_turn f - 1) then Some (f_next_turn f - 1) else None.

(** * What a follower accepts *)

Definition follower_pos (f : TurnFollower) : Position :=
  MkPosition (f_next_turn f) (f_next_event f) (f_sealed_through f).

Lemma check_events_Ok s n bytes evs n' bytes' :
  check_events s n bytes evs = Ok (n', bytes') ↔
  ordered n s evs ∧ n' = n + Z.of_nat (length evs) ∧ (evs = [] ∨ n' ≤ u64_max) ∧
  bytes' = bytes + sum_Z (event_size <$> evs).
Proof.
  revert n bytes. induction evs as [| e evs IH]; intros n bytes; csimpl.
  { rewrite sum_Z_nil. split.
    - intros [= -> ->]. split; [apply ordered_nil |]. repeat split; [lia | by left | lia].
    - intros (_ & -> & _ & ->). do 2 f_equal; lia. }
  rewrite ordered_cons, sum_Z_cons.
  destruct (Z.eqb_spec (seq e) n) as [<- | Hs]; cbn [negb]; [| naive_solver].
  destruct (Z.eqb_spec (step e) s) as [<- | Hst]; cbn [negb]; [| naive_solver].
  unfold checked_add_u64. destruct (Z.leb_spec (seq e + 1) u64_max) as [Hle | Hgt]; cbn [ok_or result_bind].
  - rewrite IH. split.
    + intros (Ho & -> & Hm & ->). repeat split; [apply Ho.. | lia | | lia].
      right. destruct Hm as [-> |]; simpl; lia.
    + intros ((_ & _ & Ho) & -> & Hm & ->). repeat split; [apply Ho.. | lia | | lia].
      destruct Hm as [|]; [done |]. right. lia.
  - split; [done |]. intros (_ & -> & [|] & _); [done | lia].
Qed.

(** What one turn needs besides continuing the log: its counters in range and
    room for its events. *)
Definition accept_limits (f : TurnFollower) (t : Turn) : Prop :=
  f_next_turn f + 1 ≤ u64_max ∧ f_sealed_through f + 1 ≤ u64_max ∧
  (events t = [] ∨ f_next_event f + Z.of_nat (length (events t)) ≤ u64_max) ∧
  queued_bytes f + sum_Z (event_size <$> events t) ≤ MAX_QUEUED_BYTES.

Lemma accept_Ok f t f' :
  accept f t = Ok f' ↔
  turn_follows (follower_pos f) t ∧ accept_limits f t ∧
  f' = f <| f_next_turn := f_next_turn f + 1 |>
         <| f_next_event := f_next_event f + Z.of_nat (length (events t)) |>
         <| f_sealed_through := turn_sealed_through t |> <| f_speed := turn_speed t |>
         <| queued_bytes := queued_bytes f + sum_Z (event_size <$> events t) |>
         <| queue := queue f ++ events t |>.
Proof.
  unfold accept, accept_limits, checked_add_u64.
  destruct (Z.eqb_spec (number t) (f_next_turn f)) as [Hn | Hn]; cbn [negb];
    [| split; [done | by intros ([] & _)]].
  destruct (Z.ltb_spec (turn_sealed_through t) (f_sealed_through f)) as [Hs | Hs];
    [split; [done | intros ([] & _); cbn in *; lia] |].
  destruct (Z.leb_spec (f_next_turn f + 1) u64_max); cbn [ok_or result_bind];
    [| split; [done | intros (_ & ? & _); lia]].
  destruct (Z.leb_spec (f_sealed_through f + 1) u64_max); cbn [ok_or result_bind];
    [| split; [done | intros (_ & ? & _); lia]].
  destruct (check_events _ _ _ _) as [[n bytes] | e] eqn:Hc; cbn [result_bind].
  - apply check_events_Ok in Hc as (Ho & -> & Hm & ->).
    destruct (Z.ltb_spec MAX_QUEUED_BYTES (queued_bytes f + (0 + sum_Z (event_size <$> events t)))).
    + split; [done | intros (_ & ? & _); lia].
    + split.
      * intros [= <-]. split; [by split |]. split; [repeat split; try done; lia | done].
      * intros (_ & _ & ->). done.
  - split; [done |]. intros ([_ Ho _] & (_ & _ & Hm & _) & _).
    enough (check_events (f_sealed_through f + 1) (f_next_event f) 0 (events t)
      = Ok (f_next_event f + Z.of_nat (length (events t)), 0 + sum_Z (event_size <$> events t)))
      by congruence.
    apply check_events_Ok. by repeat split; try apply Ho.
Qed.

(** C7: a client enforces exactly the turn invariants.  A follower accepts a turn if and
    only if it continues the log the follower stands at (the next turn number, events
    numbered on without a gap and all for the step after the sealed ones, a frontier that
    does not move back), its counters stay within 64 bits and there is room for its events;
    it then stands right after that turn, with the turn's events behind those already
    queued, their bytes counted, the turn's speed, and the executed steps and the history as
    they were.  Any other turn is refused. *)
Theorem accept_iff_follows (f : TurnFollower) (t : Turn) (f' : TurnFollower) :
  accept f t = Ok f' ↔
  (number t = f_next_turn f ∧ seq <$> events t = seqZ (f_next_event f) (Z.of_nat (length (events t))) ∧
   Forall (λ e, step e = f_sealed_through f + 1) (events t) ∧ f_sealed_through f ≤ turn_sealed_through t) ∧
  accept_limits f t ∧
  f_next_turn f' = f_next_turn f + 1 ∧ f_next_event f' = f_next_event f + Z.of_nat (length (events t)) ∧
  f_sealed_through f' = turn_sealed_through t ∧ queue f' = queue f ++ events t ∧
  queued_bytes f' = queued_bytes f + sum_Z (event_size <$> events t) ∧
  f_speed f' = turn_speed t ∧ executed f' = executed f ∧ f_history f' = f_history f.
Proof.
  rewrite accept_Ok. split.
  - intros ([Hn [Ho1 Ho2] Hs] & Hl & ->). done.
  - intros ((Hn & Ho1 & Ho2 & Hs) & Hl & E). split; [by split |]. split; [done |]. destruct f, f'. cbn in *.
    destruct E as (-> & -> & -> & -> & -> & -> & -> & ->). done.
Qed.

(** A turn with one event, accepted. *)
Lemma accept_iff_follows_witness :
  let f := TurnFollower_new (MkTurnStart 9 "native" 1 1 0 5 50 77 None) in
  let t := MkTurn 1 2 NORMAL [MkEvent 1 1 (PlayerLeft 5 false)] in
  ∃ f', accept f t = Ok f' ∧ queue f' = events t ∧ f_next_turn f' = 2.
Proof.
  intros f t. destruct (accept f t) as [f' | e] eqn:E; [| vm_compute in E; discriminate].
  destruct (proj1 (accept_iff_follows f t f') E) as (_ & _ & Hn & _ & _ & Hq & _).
  exists f'. split; [reflexivity |]. split; [exact Hq | exact Hn].
Defined.

(** * What a follower does *)

(** What is left to do: the events queued and the steps sealed, each event
    right before its step. *)
Inductive left_to_do : Z → Z → list Event → list Action → Prop :=
  | left_nothing s : left_to_do s s [] []
  | left_apply e s ev evs acts :
      step ev = e + 1 → left_to_do e s evs acts → left_to_do e s (ev :: evs) (Apply ev :: acts)
  | left_execute e s evs acts :
      e + 1 ≤ s → left_to_do (e + 1) s evs acts → left_to_do e s evs (Execute (e + 1) :: acts).

Lemma left_range e s evs acts :
  left_to_do e s evs acts → e ≤ s ∧ Forall (λ ev, e + 1 ≤ step ev) evs.
Proof.
  induction 1 as [s | e s ev evs acts Hst _ [IH1 IH2] | e s evs acts Hle _ [IH1 IH2]].
  - split; [lia | constructor].
  - split; [done |]. constructor; [lia | done].
  - split; [lia |]. eapply Forall_impl; [exact IH2 |]. simpl. lia.
Qed.

Lemma left_executes e s s' :
  e ≤ s → s ≤ s' →
  left_to_do s s' [] (Execute <$> seqZ (s + 1) (s' - s)).
Proof.
  intros _ Hle. remember (Z.to_nat (s' - s)) as n eqn:Hn. revert s Hle Hn.
  induction n as [| n IH]; intros s Hle Hn.
  - replace s' with s by lia. rewrite Z.sub_diag. constructor.
  - rewrite seqZ_cons by lia. csimpl. constructor; [lia |].
    replace (Z.succ (s + 1)) with (s + 1 + 1) by lia.
    replace (Z.pred (s' - s)) with (s' - (s + 1)) by lia. apply IH; lia.
Qed.

Lemma left_events s s' evs :
  s ≤ s' → Forall (λ ev, step ev = s + 1) evs →
  left_to_do s s' evs ((Apply <$> evs) ++ (Execute <$> seqZ (s + 1) (s' - s))).
Proof.
  intros Hle. induction 1 as [| ev evs Hev _ IH]; csimpl; [by apply (left_executes s) |].
  by constructor.
Qed.

(** A turn accepted adds its actions at the end. *)
Lemma left_accept e s evs acts t :
  left_to_do e s evs acts → s ≤ turn_sealed_through t →
  Forall (λ ev, step ev = s + 1) (events t) →
  left_to_do e (turn_sealed_through t) (evs ++ events t) (acts ++ turn_actions s t).
Proof.
  induction 1 as [s | e s ev evs acts Hst _ IH | e s evs acts He _ IH]; intros Hle Hev; simpl.
  - by apply left_events.
  - constructor; auto.
  - constructor; [lia | auto].
Qed.

(** The next action is the first thing left. *)
Lemma left_next f acts :
  left_to_do (executed f) (f_sealed_through f) (queue f) acts →
  match acts with
  | [] => next_action f = (f, None)
  | act :: acts =>
      ∃ f', next_action f = (f', Some act) ∧
        left_to_do (executed f') (f_sealed_through f') (queue f') acts ∧
        follower_pos f' = follower_pos f
  end.
Proof.
  unfold next_action. remember (executed f) as e eqn:He. remember (f_sealed_through f) as s eqn:Hs.
  remember (queue f) as q eqn:Hq. intros Hleft.
  destruct Hleft as [s | e s ev evs acts Hst Hl | e s evs acts Hle Hl].
  - destruct (Z.leb_spec (s + 1) s); [lia | done].
  - rewrite (proj2 (Z.eqb_eq _ _) Hst). eexists. split; [done |]. cbn. by subst.
  - apply left_range in Hl as Hr. destruct Hr as [_ Hr].
    destruct evs as [| ev evs].
    + rewrite (proj2 (Z.leb_le _ _) Hle). eexists. split; [done |]. cbn. subst s. by rewrite <- Hq.
    + apply Forall_cons in Hr as [Hev _]. destruct (Z.eqb_spec (step ev) (e + 1)); [lia |].
      rewrite (proj2 (Z.leb_le _ _) Hle). eexists. split; [done |]. cbn. subst s. by rewrite <- Hq.
Qed.

(** Taking an action frees memory and does not move the follower's position. *)
Lemma next_action_queue f :
  let '(f', _) := next_action f in
  follower_pos f' = follower_pos f ∧
  (0 ≤ queued_bytes f → 0 ≤ queued_bytes f' ≤ queued_bytes f).
Proof.
  unfold next_action, saturating_sub_u64.
  assert (Hsize : ∀ ev, 0 ≤ event_size ev)
    by (intros ev; unfold event_size, EVENT_OVERHEAD; destruct (body ev); lia).
  destruct (queue f) as [| ev q]; [| destruct (step ev =? executed f + 1)];
    try destruct (executed f + 1 <=? f_sealed_through f); cbn; (split; [done |]);
    try specialize (Hsize ev); lia.
Qed.

(** * A client at work

    Turns arrive and the game takes actions, in any order. *)
Inductive ClientOp :=
  | Arrive (turn : Turn)
  | Act.

Fixpoint play (f : TurnFollower) (ops : list ClientOp) :
    result (TurnFollower * list Action) FollowError :=
  match ops with
  | [] => Ok (f, [])
  | Arrive turn :: ops => let? f := accept f turn in play f ops
  | Act :: ops =>
      let '(f, act) := next_action f in
      let? (f, acts) := play f ops in
      Ok (f, option_list act ++ acts)
  end.

Definition arrivals (ops : list ClientOp) : list Turn :=
  omap (λ op, match op with Arrive turn => Some turn | Act => None end) ops.

Lemma play_spec ops f left f' acts :
  left_to_do (executed f) (f_sealed_through f) (queue f) left →
  play f ops = Ok (f', acts) →
  ∃ left', left_to_do (executed f') (f_sealed_through f') (queue f') left' ∧
    acts ++ left' = left ++ log_actions (f_sealed_through f) (arrivals ops) ∧
    chain (follower_pos f) (arrivals ops) (follower_pos f').
Proof.
  revert f left acts. induction ops as [| [turn |] ops IH]; intros f left acts Hleft; cbn [play].
  - intros [= <- <-]. exists left. split; [done |]. rewrite app_nil_r. split; [done | constructor].
  - intros Hp. inv_option. apply accept_Ok in H as (Hf & _ & Hv). pose proof Hf as [_ [_ Hst] Hs].
    cbn in Hst, Hs.
    destruct (IH v (left ++ turn_actions (f_sealed_through f) turn) acts) as (left' & Hl & Ha & Hc).
    + rewrite Hv. cbn. by apply left_accept.
    + done.
    + exists left'. split; [done |]. rewrite Hv in Hc, Ha. cbn in Ha.
      split; [by rewrite Ha, <- app_assoc |]. by econstructor.
  - pose proof (left_next f left Hleft) as Hnext. destruct left as [| act left].
    + rewrite Hnext. intros Hp. inv_option. destruct v as [f1 acts1]. simplify_eq.
      destruct (IH f [] _ Hleft H) as (left' & Hl & Ha & Hc). by exists left'.
    + destruct Hnext as (f1 & -> & Hl1 & Hpos). intros Hp. revert Hpos. inv_option.
      destruct v as [f2 acts2]. simplify_eq. intros Hpos. destruct (IH f1 left _ Hl1 H) as (left' & Hl & Ha & Hc).
      exists left'. split; [done |]. rewrite Hpos in Hc. injection Hpos as _ _ Hsl. rewrite Hsl in Ha.
      split; [simpl; by rewrite Ha | done].
Qed.

Lemma play_prefix ops start f acts :
  play (TurnFollower_new start) ops = Ok (f, acts) →
  ∃ left, acts ++ left = log_actions (start_sealed_through start) (arrivals ops) ∧
    (left = [] ↔ (next_action f).2 = None) ∧
    chain (follower_pos (TurnFollower_new start)) (arrivals ops) (follower_pos f) ∧
    left_to_do (executed f) (f_sealed_through f) (queue f) left.
Proof.
  intros Hp. destruct (play_spec ops (TurnFollower_new start) [] f acts (left_nothing _) Hp)
    as (left & Hl & Ha & Hc).
  exists left. split; [done |]. split; [| done].
  pose proof (left_next f left Hl) as Hn. destruct left as [| act left]; [by rewrite Hn |].
  destruct Hn as (f' & Hn & _). by rewrite Hn.
Qed.

(** Every replica does the same things in the same order.  Whatever the
    latency, however arrivals and actions interleave, what a client's game has
    done is a prefix of the one sequence of actions the turns it received stand
    for: each turn's events, then the steps it seals.  It has nothing more to do
    exactly when it has done all of it.  So two clients that took the same turns
    and have nothing left to do applied the same events at the same points of
    simulated time, and deterministic worlds are equal. *)
Theorem replicas_agree (World : Type) (run : World → Action → World) (w : World)
    (start : TurnStart) (ops ops' : list ClientOp) (f f' : TurnFollower) (acts acts' : list Action) :
  play (TurnFollower_new start) ops = Ok (f, acts) →
  play (TurnFollower_new start) ops' = Ok (f', acts') →
  arrivals ops = arrivals ops' →
  (acts `prefix_of` log_actions (start_sealed_through start) (arrivals ops)) ∧
  ((next_action f).2 = None → acts = log_actions (start_sealed_through start) (arrivals ops)) ∧
  ((next_action f).2 = None → (next_action f').2 = None → foldl run w acts = foldl run w acts').
Proof.
  intros (left & Ha & Hn & _)%play_prefix (left' & Ha' & Hn' & _)%play_prefix Harr.
  assert (Hdone : (next_action f).2 = None →
    acts = log_actions (start_sealed_through start) (arrivals ops)).
  { intros Hnone. apply Hn in Hnone as ->. by rewrite app_nil_r in Ha. }
  split; [by exists left |]. split; [done |]. intros Hnone Hnone'. rewrite (Hdone Hnone).
  apply Hn' in Hnone' as ->. rewrite app_nil_r in Ha'. by rewrite Ha', Harr.
Qed.

Module FollowerExamples.
Definition start := MkTurnStart 9 "native" 1 1 0 5 50 77 None.
Definition linux := MkPlatform Linux X86_64.
Definition t1 := MkTurn 1 2 NORMAL [MkEvent 1 1 (PlayerJoined 5 "ada" linux)].
Definition t2 := MkTurn 2 3 NORMAL [MkEvent 2 3 (Command 5 1 [4])].
Definition ops := [Arrive t1; Act; Act; Arrive t2; Act; Act; Act; Act].
Definition ops' := [Act; Arrive t1; Arrive t2; Act; Act; Act; Act; Act].
Definition stay {A} (r : result (TurnFollower * A) FollowError) : TurnFollower :=
  match r with Ok (f, _) => f | Err _ => TurnFollower_new start end.
Definition f := stay (play (TurnFollower_new start) ops).
Definition f' := stay (play (TurnFollower_new start) ops').
Definition acts := log_actions 0 [t1; t2].
End FollowerExamples.

Lemma replicas_agree_witness :
  let w := ([] : list Action) in
  let run w a := w ++ [a] in
  (FollowerExamples.acts `prefix_of` log_actions 0 (arrivals FollowerExamples.ops)) ∧
  ((next_action FollowerExamples.f).2 = None →
     FollowerExamples.acts = log_actions 0 (arrivals FollowerExamples.ops)) ∧
  ((next_action FollowerExamples.f).2 = None → (next_action FollowerExamples.f').2 = None →
     foldl run w FollowerExamples.acts = foldl run w FollowerExamples.acts).
Proof.
  apply (replicas_agree (list Action) (λ w a, w ++ [a]) [] FollowerExamples.start
    FollowerExamples.ops FollowerExamples.ops' FollowerExamples.f FollowerExamples.f'
    FollowerExamples.acts FollowerExamples.acts).
  - vm_compute. reflexivity.
  - vm_compute. reflexivity.
  - reflexivity.
Defined.

(** The actions of a log are in order from its frontier to its last one. *)
Lemma left_log p ts q :
  chain p ts q → left_to_do (pos_sealed p) (pos_sealed q) (ts ≫= events) (log_actions (pos_sealed p) ts).
Proof.
  assert (Hgen : ∀ e evs acts, left_to_do e (pos_sealed p) evs acts → chain p ts q →
    left_to_do e (pos_sealed q) (evs ++ (ts ≫= events)) (acts ++ log_actions (pos_sealed p) ts)).
  { intros e evs acts Hl Hc. revert e evs acts Hl.
    induction Hc as [p | p t ts q [_ [_ Hst] Hs] Hc IH]; intros e evs acts Hl; csimpl.
    - by rewrite !app_nil_r.
    - rewrite !app_assoc. apply IH. by apply left_accept. }
  intros Hc. apply (Hgen (pos_sealed p) [] []); [constructor | done].
Qed.

Definition is_execute (a : Action) : bool := match a with Execute _ => true | Apply _ => false end.

Lemma left_at e s evs before act rest :
  left_to_do e s evs (before ++ act :: rest) →
  let at_step := e + Z.of_nat (length (List.filter is_execute before)) in
  match act with
  | Execute k => k = at_step + 1 ∧ k ≤ s
  | Apply ev => step ev = at_step + 1
  end.
Proof.
  revert e evs. induction before as [| a before IH]; intros e evs Hl; cbn [app] in Hl.
  - inversion Hl; subst; cbn; lia.
  - inversion Hl as [| ? ? ev evs' ? Hst Hl' | ? ? ? ? Hle Hl']; subst; cbn [List.filter is_execute length].
    + by eapply IH.
    + specialize (IH _ _ Hl'). cbn zeta in *. rewrite Nat2Z.inj_succ.
      destruct act; [rewrite IH | destruct IH as [-> ?]]; try split; lia.
Qed.

(** The game is never told to do something the protocol forbids.  A step
    is executed only once a received turn sealed it, steps are executed one
    after another without skipping any, and an event is applied only after the
    step before its own and before its own step. *)
Theorem actions_in_order (start : TurnStart) (ops : list ClientOp) (f : TurnFollower)
    (acts before : list Action) (act : Action) (rest : list Action) :
  play (TurnFollower_new start) ops = Ok (f, acts) → acts = before ++ act :: rest →
  let at_step := start_sealed_through start
    + Z.of_nat (length (List.filter is_execute before)) in
  match act with
  | Execute s => s = at_step + 1 ∧ s ≤ f_sealed_through f
  | Apply e => step e = at_step + 1
  end.
Proof.
  intros Hp ->. destruct (play_prefix _ _ _ _ Hp) as (left & Ha & _ & Hc & _).
  pose proof (left_log _ _ _ Hc) as Hlog. cbn [follower_pos TurnFollower_new pos_sealed f_sealed_through] in Hlog.
  rewrite <- Ha, <- app_assoc in Hlog. cbn [app] in Hlog.
  apply (left_at _ _ _ _ _ _ Hlog).
Qed.

Lemma actions_in_order_witness :
  let e2 := MkEvent 2 3 (Command 5 1 [4]) in
  step e2 = 0 + Z.of_nat (length (List.filter is_execute
    [Apply (MkEvent 1 1 (PlayerJoined 5 "ada" FollowerExamples.linux)); Execute 1; Execute 2])) + 1.
Proof.
  apply (actions_in_order FollowerExamples.start FollowerExamples.ops FollowerExamples.f
    FollowerExamples.acts
    [Apply (MkEvent 1 1 (PlayerJoined 5 "ada" FollowerExamples.linux)); Execute 1; Execute 2]
    (Apply (MkEvent 2 3 (Command 5 1 [4]))) [Execute 3]).
  - vm_compute. reflexivity.
  - vm_compute. reflexivity.
Defined.
