(* ===== verification/Lockstep.v ===== *)
(** Server and client together: the turns a [Game] seals and streams are turns
    a [TurnFollower] accepts, so that every client follows the server's log and
    can resume it after a disconnect. *)
From S2P Require Import Prelude Proto TurnLog Codec Pacing Verdict Snapshots Ruleset Game Follower.
Local Open Scope Z_scope.

(** * The sequencer at work *)

Inductive ServerOp :=
  | Order (b : EventBody)     (* [append] *)
  | SealTo (frontier : Z).    (* [seal] *)

Section sequencer.
Context {P : Postcard TurnMessage} {R : Type} {RS : Ruleset R}.

Fixpoint sequence (g : Game) (rules : R) (ops : list ServerOp) :
    result (Game * R * list Frame) FrameError :=
  match ops with
  | [] => Ok (g, rules, [])
  | Order b :: ops => let '(g, rules) := append g b rules in sequence g rules ops
  | SealTo frontier :: ops =>
      let '(g, frames) := seal g frontier in
      let? frames := frames in
      let? (g, rules, more) := sequence g rules ops in
      Ok (g, rules, frames ++ more)
  end.

(** The frontiers a room seals to never move back ([advance_bounds] of
    [Pacing]). *)
Fixpoint forward (sealed : Z) (ops : list ServerOp) : Prop :=
  match ops with
  | [] => True
  | Order _ :: ops => forward sealed ops
  | SealTo frontier :: ops => sealed ≤ frontier ∧ forward frontier ops
  end.

Lemma sequence_spec ops g rules p0 all g' rules' frames :
  game_ok g p0 all → forward (sealed_through g) ops →
  sequence g rules ops = Ok (g', rules', frames) →
  ∃ ts, Forall2 encodes ts frames ∧ game_ok g' p0 (all ++ ts) ∧
    chain (head_pos g) ts (head_pos g') ∧ histories g' = histories g.
Proof.
  revert g rules all frames. induction ops as [| [b | frontier] ops IH];
    intros g rules all frames Hok Hf; cbn [sequence].
  - intros [= <- <- <-]. exists []. rewrite app_nil_r. split; [constructor |]. split; [done |].
    split; [constructor | done].
  - pose proof (append_ok g p0 all b rules Hok) as Hok1.
    destruct (append g b rules) as [g1 r1] eqn:Ha. cbn [fst] in Hok1. intros Hseq.
    assert (head_pos g1 = head_pos g ∧ sealed_through g1 = sealed_through g ∧ histories g1 = histories g)
      as (Eh & Es & Ehi).
    { unfold append in Ha. injection Ha as <- <-. unfold head_pos. cbn. rewrite length_app. simpl.
      split; [f_equal; lia | done]. }
    destruct (IH g1 r1 all frames Hok1 ltac:(by rewrite Es) Hseq) as (ts & Henc & Hg & Hc & Hh).
    exists ts. rewrite <- Eh, <- Ehi. done.
  - destruct Hf as [Hle Hf]. destruct (seal g frontier) as [g1 [fs | e]] eqn:Hs; cbn [result_bind]; [| done].
    intros Hseq. inv_option. destruct v as [[g2 r2] more]. simplify_eq.
    destruct (seal_spec g p0 all frontier g1 fs Hok Hle Hs)
      as (Henc & Hc & Hok1 & _ & Hst & _ & _ & _ & _ & Hh1).
    destruct (IH g1 rules _ _ Hok1 ltac:(by rewrite Hst) H) as (ts & Henc' & Hg & Hc' & Hh).
    eexists. split; [by apply Forall2_app |]. split; [by rewrite app_assoc |].
    split; [by eapply chain_app | congruence].
Qed.

End sequencer.

(** * A client that receives everything *)

Lemma event_size_nonneg e : 0 ≤ event_size e.
Proof. unfold event_size, EVENT_OVERHEAD. destruct (body e); lia. Qed.

(** What a follower counts is what it queues. *)
Definition counts (f : TurnFollower) : Prop := queued_bytes f = sum_Z (event_size <$> queue f).

Lemma accept_counts f t f' : counts f → accept f t = Ok f' → counts f'.
Proof. unfold counts. intros Hf (_ & _ & ->)%accept_Ok. cbn. rewrite fmap_app, sum_Z_app. lia. Qed.

Lemma next_action_counts f : counts f → counts (next_action f).1.
Proof.
  unfold counts, next_action, saturating_sub_u64. intros Hf.
  assert (Hpos : ∀ evs, 0 ≤ sum_Z (event_size <$> evs))
    by (intros evs; apply sum_Z_nonneg, Forall_fmap, Forall_true; intros e; apply event_size_nonneg).
  destruct (queue f) as [| ev q] eqn:Eq.
  - destruct (_ <=? _); cbn; by rewrite Eq.
  - destruct (step ev =? executed f + 1); [| destruct (executed f + 1 <=? f_sealed_through f); cbn; by rewrite Eq].
    cbn. rewrite fmap_cons, sum_Z_cons in Hf. specialize (Hpos q). lia.
Qed.

(** The counters of a log that has come this far fit in 64 bits. *)
Definition counters_fit (q : Position) : Prop := pos_turn q ≤ u64_max ∧ pos_event q ≤ u64_max ∧ pos_sealed q < u64_max.

(** Among what a client does, a turn arrives whose events, with those that still wait
    for their step, are more than a follower queues. *)
Definition overfull (f : TurnFollower) (client : list ClientOp) : Prop :=
  ∃ before t after f1 acts, client = before ++ Arrive t :: after ∧ play f before = Ok (f1, acts) ∧
    MAX_QUEUED_BYTES < sum_Z (event_size <$> (queue f1 ++ events t)).

Lemma play_follows ops f q :
  chain (follower_pos f) (arrivals ops) q → counters_fit q → counts f →
  match play f ops with
  | Ok (f', _) => follower_pos f' = q
  | Err e => e = Backlog ∧ overfull f ops
  end.
Proof.
  intros Hc (Ht & He & Hs). revert f Hc. induction ops as [| [t |] ops IH]; intros f Hc Hq; cbn [play].
  - by inversion Hc.
  - change (arrivals (Arrive t :: ops)) with (t :: arrivals ops) in *.
    inversion Hc as [| p t' ts q' Hf Hc']; subst.
    pose proof (chain_turns _ _ _ Hc') as Ht'. pose proof (chain_events _ _ _ Hc') as He'.
    pose proof (chain_sealed _ _ _ Hc') as Hs'. pose proof (tf_sealed _ _ Hf) as Hsl.
    cbn [after follower_pos pos_turn pos_event pos_sealed] in Ht', He', Hs', Hsl.
    destruct (Z.ltb_spec MAX_QUEUED_BYTES (queued_bytes f + sum_Z (event_size <$> events t))) as [Hover | Hfits].
    + assert (accept f t = Err Backlog) as ->.
      { unfold accept, checked_add_u64. destruct Hf as [Hn Ho _]. cbn in Hn.
        rewrite Hn, Z.eqb_refl. cbn [negb]. replace (turn_sealed_through t <? f_sealed_through f) with false by lia.
        replace (f_next_turn f + 1 <=? u64_max) with true by lia. cbn [ok_or result_bind].
        replace (f_sealed_through f + 1 <=? u64_max) with true by lia. cbn [ok_or result_bind].
        assert (f_next_event f + Z.of_nat (length (events t)) ≤ u64_max) as Hev by lia.
        rewrite (proj2 (check_events_Ok (f_sealed_through f + 1) (f_next_event f) 0 (events t) _ _)
          (conj Ho (conj eq_refl (conj (or_intror Hev) eq_refl)))).
        cbn [result_bind]. by replace (MAX_QUEUED_BYTES <? _) with true by lia. }
      cbn [result_bind]. split; [done |]. exists [], t, ops, f, []. split; [done |]. split; [done |].
      rewrite fmap_app, sum_Z_app. rewrite Hq in Hover. lia.
    + destruct (accept f t) as [f1 | e] eqn:Ha; cbn [result_bind].
      2:{ assert (accept_limits f t) as Hl by (unfold accept_limits; repeat split; [lia | lia | right; lia | lia]).
          pose proof (proj2 (accept_Ok f t _) (conj Hf (conj Hl eq_refl))). congruence. }
      pose proof (accept_counts _ _ _ Hq Ha) as Hq1. pose proof Ha as (_ & _ & E1)%accept_Ok.
      assert (follower_pos f1 = after (follower_pos f) t) as Ep by (subst f1; done).
      specialize (IH f1 ltac:(by rewrite Ep) Hq1). destruct (play f1 ops) as [[f2 acts] | e]; [done |].
      destruct IH as [-> (before & u & later & f3 & acts & -> & Hp & Ho)]. split; [done |].
      exists (Arrive t :: before), u, later, f3, acts. split; [done |]. split; [| done]. cbn [play]. by rewrite Ha.
  - change (arrivals (Act :: ops)) with (arrivals ops) in *. pose proof (next_action_queue f) as Hnq.
    pose proof (next_action_counts f Hq) as Hq1. destruct (next_action f) as [f1 act] eqn:En. destruct Hnq as [Hp _].
    specialize (IH f1 ltac:(by rewrite Hp) Hq1). destruct (play f1 ops) as [[f2 acts] | e]; cbn [result_bind]; [done |].
    destruct IH as [-> (before & u & later & f3 & acts & -> & Hpl & Ho)]. split; [done |].
    exists (Act :: before), u, later, f3, (option_list act ++ acts). split; [done |]. split; [| done].
    cbn [play]. by rewrite En, Hpl.
Qed.

(** The frames a stream carries, as the client decodes them. *)
Definition decodes {P : Postcard TurnMessage} (f : Frame) (t : Turn) : Prop :=
  decode_frame (drop FRAME_HEADER_LEN f) = Ok (TurnOf t).

Lemma encodes_decodes {P : Postcard TurnMessage} {L : PostcardLaws TurnMessage} ts frames :
  Forall2 encodes ts frames → Forall2 decodes frames ts.
Proof.
  induction 1 as [| t f ts fs Henc _ IH]; constructor; [| done].
  by eapply decode_frame_drop.
Qed.

(** C3: server and client stay in lockstep.  Take a game in any state a room can bring it
    to, and a stream the game opens for a member: from the beginning, from where the member
    resumes, or from a world it loads.  Then the game orders and seals on, to frontiers that
    do not move back, for as long as its turns can be encoded (a room closes when one
    cannot) and its counters fit in 64 bits.  The frames of the stream, the backlog and then
    every frame sealed since, decode to turns.  A follower started from the stream's start
    message, whose own actions interleave with the turns in any way, accepts them all and
    ends standing exactly where the server's log stands, and what its game did is a prefix
    of what the server's turns say; or it lags so far behind that the events it has queued
    and those of the next turn exceed its 256 MiB, and it refuses that turn with
    [Backlog].  It refuses for no other reason. *)
Theorem lockstep {P : Postcard TurnMessage} (L : PostcardLaws TurnMessage)
    {R} {RS : Ruleset R}
    (g g' : Game) (rules rules' : R) (p0 : Position) (all : list Turn)
    (room : RoomId) (settings : RoomSettings) (name : Text) (resume : option Resume) (agreed : Agreed) (next_event : Z)
    (start : TurnStart) (old new : list Frame) (ops : list ServerOp) :
  game_ok g p0 all →
  resume_feed g room settings name resume = Ok (FeedOpen start old) ∨
    feed_from g room settings name agreed = Ok (FeedOpen start old, next_event) →
  forward (sealed_through g) ops → sequence g rules ops = Ok (g', rules', new) → counters_fit (head_pos g') →
  ∃ ts, Forall2 decodes (old ++ new) ts ∧
    ∀ client, arrivals client = ts →
    match play (TurnFollower_new start) client with
    | Ok (f, acts) => follower_pos f = head_pos g' ∧ acts `prefix_of` log_actions (start_sealed_through start) ts
    | Err e => e = Backlog ∧ overfull (TurnFollower_new start) client
    end.
Proof.
  intros Hok Hfeed Hfw Hseq Hfit.
  assert (∃ resume st world, stream_after g resume = Ok st ∧ start = turn_start g room settings name st world ∧ old = backlog st)
    as (resume' & st & world & Hst & -> & ->).
  { destruct Hfeed as [Hfeed | Hfeed]; [unfold resume_feed in Hfeed | unfold feed_from, stream_from_save in Hfeed];
      inv_option; [| destruct (_ || _); simplify_eq]; by eexists _, _, _. }
  destruct (stream_after_spec g p0 all resume' st Hok Hst) as (before & ts & -> & Henc & _ & Hc).
  destruct (sequence_spec ops g rules p0 _ g' rules' new Hok Hfw Hseq) as (ts' & Henc' & _ & Hc' & _).
  exists (ts ++ ts'). split; [apply encodes_decodes; by apply Forall2_app |].
  intros client Harr. set (start := turn_start g room settings name st world) in *.
  assert (Hchain : chain (follower_pos (TurnFollower_new start)) (arrivals client) (head_pos g'))
    by (rewrite Harr; by eapply chain_app).
  pose proof (play_follows client (TurnFollower_new start) (head_pos g') Hchain Hfit eq_refl) as Hp.
  destruct (play (TurnFollower_new start) client) as [[f acts] | e] eqn:Ep; [| done]. split; [done |].
  destruct (play_prefix _ _ _ _ Ep) as (left & Ha & _). rewrite Harr in Ha. by exists left.
Qed.

(** A member follows the game of [SaveExamples] from its first turn; then a
    player leaves and the server seals on. *)
Module LockstepExamples.
Import GameExamples SaveExamples.
Definition start := MkTurnStart 9 "native" 1 1 0 5 50 77 None.
Definition old := frame <$> log g4.
Definition ops := [Order (PlayerLeft 5 false); SealTo 6].
Definition g5 := (seal (append g4 (PlayerLeft 5 false) accept_all).1 6).1.
Definition new := frame <$> drop 2 (log g5).
End LockstepExamples.

Lemma lockstep_witness :
  ∃ ts, Forall2 (decodes (P := Concrete.turn_postcard)) (LockstepExamples.old ++ LockstepExamples.new) ts ∧
    ∀ client, arrivals client = ts →
    match play (TurnFollower_new LockstepExamples.start) client with
    | Ok (f, acts) => follower_pos f = head_pos LockstepExamples.g5 ∧ acts `prefix_of` log_actions 0 ts
    | Err e => e = Backlog ∧ overfull (TurnFollower_new LockstepExamples.start) client
    end.
Proof.
  apply (lockstep Concrete.turn_postcard_laws SaveExamples.g4 LockstepExamples.g5 accept_all accept_all
    GameExamples.p0 (SaveExamples.all1 ++ SaveExamples.more) 9 DEFAULT_SETTINGS "native" None
    (MkAgreed (MkManifest 3 1000) SaveExamples.point) 0
    LockstepExamples.start LockstepExamples.old LockstepExamples.new LockstepExamples.ops).
  - apply SaveExamples.g4_ok.
  - left. vm_compute. reflexivity.
  - vm_compute. split; [congruence | exact I].
  - vm_compute. reflexivity.
  - vm_compute. split; [discriminate |]. split; [discriminate | reflexivity].
Defined.

(** C11: a client that loses its connection continues where it was.  If it
    accepted any prefix of the server's log that the game still has the rest of,
    on a history whose turns are all still current, then its resume point is
    served with exactly the turns it lacks, and the follower accepts the stream's
    start message as its own position. *)
Theorem reconnect_resumes {P : Postcard TurnMessage} (g : Game) (p0 : Position)
    (seen missed : list Turn) (f : TurnFollower) (i : nat) (h : History)
    (room : RoomId) (settings : RoomSettings) (name : Text) :
  game_ok g p0 (seen ++ missed) → chain p0 seen (follower_pos f) →
  1 ≤ f_next_turn f ≤ u64_max → log_first_turn g ≤ f_next_turn f →
  histories_ok g → histories g !! i = Some h → hist_id h = f_history f →
  (∀ next, histories g !! S i = Some next → f_next_turn f - 1 ≤ hist_after_turn next) →
  ∃ start backlog,
    resume_feed g room settings name (Some (resume_point f)) = Ok (FeedOpen start backlog) ∧
    restart f start = Ok (f <| f_history := history g |>) ∧ Forall2 encodes missed backlog.
Proof.
  intros Hok Hseen [Hf1 Hf2] Hwin Hh Hi Hid Hnext.
  assert (Hsub : saturating_sub_u64 (f_next_turn f) 1 = f_next_turn f - 1)
    by (unfold saturating_sub_u64; lia).
  assert (Hfrom : resume_from g (Some (resume_point f)) = Ok (f_next_turn f)).
  { cbn. rewrite Hsub.
    destruct (list_find_elem_of (λ x, hist_id x = f_history f) (histories g) h) as [[j y] Hf];
      [by eapply list_elem_of_lookup_2 | done |].
    rewrite Hf. apply list_find_Some in Hf as (Hj & Hy & _).
    assert (j = i) as -> by (eapply (NoDup_lookup_inj hist_id (histories g)); [apply Hh | done | done | congruence]).
    assert (saturating_add_u64 (f_next_turn f - 1) 1 = f_next_turn f) as ->
      by (unfold saturating_add_u64; lia).
    destruct (histories g !! S i) as [next |]; [| done].
    destruct (Z.ltb_spec (hist_after_turn next) (f_next_turn f - 1)); [| done].
    specialize (Hnext next eq_refl). lia. }
  pose proof (log_chain _ _ _ Hok) as Hall.
  assert (f_next_turn f ≤ next_turn g) as Hle.
  { apply chain_turns in Hall, Hseen. rewrite length_app in Hall. simpl in *. lia. }
  assert (∃ st, stream_after g (Some (resume_point f)) = Ok st ∧ stream_next_turn st = f_next_turn f)
    as (st & Hst & Htn).
  { unfold stream_after. rewrite Hfrom. cbn [result_bind].
    destruct (Z.ltb_spec (next_turn g) (f_next_turn f)); [lia |].
    destruct (Z.ltb_spec (f_next_turn f) (log_first_turn g)); [lia |]. by eexists. }
  destruct (stream_after_spec _ _ _ _ _ Hok Hst) as (before & ts & Hsplit & Henc & Hb & _).
  destruct (log_position p0 seen (seen ++ missed) (follower_pos f) _ Hseen ltac:(by exists missed)
    before ts ltac:(done) Hb) as [-> Hq]; [simpl; lia |].
  apply app_inv_head in Hsplit as <-. injection Hq as E1 E2 E3.
  eexists _, _. unfold resume_feed. rewrite Hst. cbn [result_bind]. split; [done |].
  split; [| done]. unfold restart. cbn. by rewrite <- E1, <- E2, <- E3, !Z.eqb_refl.
Qed.

(** The client saw the first turn, then lost its connection. *)
Lemma reconnect_resumes_witness :
  let f := MkTurnFollower 2 4 0 NORMAL 0 [] 0 77 in
  ∃ start backlog,
    resume_feed SaveExamples.g4 9 DEFAULT_SETTINGS "native" (Some (resume_point f))
      = Ok (FeedOpen start backlog) ∧
    restart f start = Ok (f <| f_history := history SaveExamples.g4 |>) ∧
    Forall2 (encodes (P := Concrete.turn_postcard)) SaveExamples.more backlog.
Proof.
  apply (reconnect_resumes (P := Concrete.turn_postcard) SaveExamples.g4 GameExamples.p0
    SaveExamples.all1 SaveExamples.more (MkTurnFollower 2 4 0 NORMAL 0 [] 0 77) 0 (MkHistory 77 0)).
  - apply SaveExamples.g4_ok.
  - pose proof (log_chain _ _ _ SaveExamples.gs_ok) as Hc. exact Hc.
  - vm_compute. split; congruence.
  - vm_compute. congruence.
  - split; vm_compute.
    + repeat constructor. intros []%not_elem_of_nil.
    + repeat constructor.
    + repeat constructor.
  - vm_compute. reflexivity.
  - vm_compute. reflexivity.
  - vm_compute. discriminate.
Defined.
