(* ===== verification/Persist.v ===== *)
(** Persistence for running rooms ([crates/tpf3mp-server/src/persist.rs]): one
    append-only log per room, of length- and checksum-framed records, and what
    reading it back finds after a crash.

    A file is the bytes it holds.  What the operating system does with a write
    is an argument: the whole record arrives, or the write fails after some of
    its bytes.  The checksum ([crc32fast], outside this repository) is a
    parameter of which only its 32-bit range is used. *)
From S2P Require Import Prelude Proto Codec.
Local Open Scope Z_scope.

Definition FORMAT_VERSION : Z := 5.
Definition MAX_START_RECORD : Z := 16 * 2 ^ 20.
Definition MAX_RECORD : Z := TURN_MAX_FRAME + 64.
Definition HEADER : nat := 8.
Definition LOG_LIMIT : Z := 2 ^ 30.

(** * What a log starts with *)

Record Base := MkBase {
  base_first_turn : Z;
  base_first_event : Z;
  base_sealed_before : Z;
  base_after_turn : Z;
  base_next_event : Z;
  base_sealed_through : Z;
  base_speed : Speed;
  base_histories : list (Z * Z);
  base_content : option ContentFingerprint;
  base_seated : list (PlayerId * Text * Platform);
  base_banned : list PlayerId;
  base_rules : list Z;
}.

Record StartMember := MkStartMember {
  sm_player : PlayerId;
  sm_name : Text;
  sm_platform : Platform;
  sm_content : option ContentFingerprint;
}.

Record StartRecord := MkStartRecord {
  sr_version : Z;
  sr_history : Z;
  sr_id : RoomId;
  sr_name : Text;
  sr_rules : Text;
  sr_owner : PlayerId;
  sr_max_players : Z;
  sr_settings : RoomSettings;
  sr_invite_tag : list Z;
  sr_password_tag : option (list Z);
  sr_members : list StartMember;
  sr_base : option Base;
}.

(** * Appending *)

Inductive IoError := InvalidInput | FileTooLarge | IoFailed.

(** What becomes of a write: all of it, or the first bytes only. *)
Inductive WriteOutcome := Written | WriteFailed (reached : nat).

Record RoomLog := MkRoomLog {
  file : list Z;          (* what is on disk *)
  written : Z;
  replaces : bool;        (* compacted and not yet installed *)
}.
#[export] Instance eta_RoomLog : Eta RoomLog := fun l =>
  MkRoomLog (file l) (written l) (replaces l).

Section log.
Context (crc : list Z → Z).

Definition record_bytes (payload : list Z) : list Z :=
  to_le_bytes 4 (Z.of_nat (length payload)) ++ to_le_bytes 4 (crc payload) ++ payload.

Definition record_limit (at_start : bool) : Z :=
  if at_start then MAX_START_RECORD else MAX_RECORD.

Definition append_record (outcome : WriteOutcome) (l : RoomLog) (payload : list Z) :
    RoomLog * result unit IoError :=
  let len := Z.of_nat (length payload) in
  if record_limit (written l =? 0) <? len then (l, Err InvalidInput)
  else
    let size := Z.of_nat HEADER + len in
    if LOG_LIMIT <? written l + size then (l, Err FileTooLarge)
    else
      match outcome with
      | WriteFailed n => (l <| file := file l ++ take n (record_bytes payload) |>, Err IoFailed)
      | Written =>
          (l <| file := file l ++ record_bytes payload |> <| written := written l + size |>, Ok tt)
      end.

(** [try_for_each]: stops at the first record that cannot be written. *)
Fixpoint append_all (outcomes : nat → WriteOutcome) (l : RoomLog) (payloads : list (list Z)) :
    RoomLog * result unit IoError :=
  match payloads with
  | [] => (l, Ok tt)
  | payload :: payloads =>
      match append_record (outcomes 0%nat) l payload with
      | (l, Err e) => (l, Err e)
      | (l, Ok _) => append_all (λ n, outcomes (S n)) l payloads
      end
  end.

Definition empty_log (replaces : bool) : RoomLog := MkRoomLog [] 0 replaces.

(** [RoomLog::create] and [RoomLog::compacted] write the start record, then
    frames, into a new file.  A file that cannot be made, or not be flushed, is a write
    that fails before its first byte, or after its last: the room gets an error, and
    lets go of the file either way. *)
Definition create_log {PS : Postcard StartRecord} (outcome : WriteOutcome) (start : StartRecord) :
    result RoomLog IoError :=
  let? payload := ok_or (to_stdvec start) IoFailed in
  let '(l, done) := append_record outcome (empty_log false) payload in
  let? _ := done in Ok l.

Definition compacted_log {PS : Postcard StartRecord} (outcomes : nat → WriteOutcome)
    (start : StartRecord) (frames : list (list Z)) : result RoomLog IoError :=
  let? payload := ok_or (to_stdvec start) IoFailed in
  let '(l, done) := append_all outcomes (empty_log true) (payload :: frames) in
  let? _ := done in Ok l.

(** [renamed]: whether the file system's rename succeeds. *)
Definition install (renamed : bool) (l : RoomLog) : RoomLog * result unit IoError :=
  if negb (replaces l) then (l, Ok tt)
  else if renamed then (l <| replaces := false |>, Ok tt)
  else (l, Err IoFailed).

(** * Reading back *)

Inductive LogError := LogIo | NotAFile | LogTooLarge (len : Z) | Damaged (offset : Z).

(** How far [into_log] gets. *)
Inductive IntoOutcome := IntoWorks | ReopenFails | SetLenFails | SyncFails | SeekFails.

(** How the calls that read a log end: looking at its metadata, what that says, opening
    it, reading the record at an offset, and opening it again to go on. *)
Record LogCalls := MkLogCalls {
  lc_stat : bool;
  lc_is_file : bool;
  lc_open : bool;
  lc_reads : nat → bool;
  lc_into : IntoOutcome;
}.
Definition works (at_ : nat) : bool := true.
Definition log_works : LogCalls := MkLogCalls true true true works IntoWorks.

Record LogReader := MkLogReader {
  reader_file : list Z;
  offset : nat;
  torn_at : option nat;
}.
#[export] Instance eta_LogReader : Eta LogReader := fun r =>
  MkLogReader (reader_file r) (offset r) (torn_at r).

Definition read_log (c : LogCalls) (bytes : list Z) : result LogReader LogError :=
  if negb (lc_stat c) then Err LogIo
  else if negb (lc_is_file c) then Err NotAFile
  else if LOG_LIMIT + (Z.of_nat HEADER + MAX_START_RECORD) <? Z.of_nat (length bytes)
  then Err (LogTooLarge (Z.of_nat (length bytes)))
  else if negb (lc_open c) then Err LogIo
  else Ok (MkLogReader bytes 0 None).

Definition torn (r : LogReader) : result (LogReader * option (list Z)) LogError :=
  if (offset r =? 0)%nat then Err (Damaged 0)
  else Ok (r <| torn_at := Some (offset r) |>, None).

(** [reads]: whether the record at an offset can be read; its header and its payload
    failing give the same error. *)
Definition next_record (reads : nat → bool) (r : LogReader) : result (LogReader * option (list Z)) LogError :=
  let len_file := length (reader_file r) in
  if bool_decide (is_Some (torn_at r)) || (offset r =? len_file)%nat then Ok (r, None)
  else if (len_file - offset r <? HEADER)%nat then torn r
  else if negb (reads (offset r)) then Err LogIo
  else
    let rest := drop (offset r) (reader_file r) in
    let len := from_le_bytes (take 4 rest) in
    let crc_stored := from_le_bytes (take 4 (drop 4 rest)) in
    if record_limit (offset r =? 0)%nat <? len then Err (Damaged (Z.of_nat (offset r)))
    else
      let fin := (offset r + (HEADER + Z.to_nat len))%nat in
      if (len_file <? fin)%nat then torn r
      else
        let payload := take (Z.to_nat len) (drop HEADER rest) in
        if negb (crc payload =? crc_stored) then
          if (fin =? len_file)%nat then torn r else Err (Damaged (Z.of_nat (offset r)))
        else Ok (r <| offset := fin |>, Some payload).

(** Every record up to the end of the log, as recovery reads them. *)
Fixpoint read_records (fuel : nat) (r : LogReader) : result (LogReader * list (list Z)) LogError :=
  match fuel with
  | O => Ok (r, [])
  | S fuel =>
      let? (r, record) := next_record works r in
      match record with
      | None => Ok (r, [])
      | Some payload =>
          let? (r, records) := read_records fuel r in
          Ok (r, payload :: records)
      end
  end.

(** Continues the log after its last intact record: what is then on disk, and the log. *)
Definition into_log (outcome : IntoOutcome) (r : LogReader) : list Z * result RoomLog IoError :=
  if bool_decide (torn_at r = None) && negb (offset r =? length (reader_file r))%nat
  then (reader_file r, Err IoFailed)
  else
    match torn_at r, outcome with
    | _, ReopenFails | Some _, SetLenFails => (reader_file r, Err IoFailed)
    | Some _, (SyncFails | SeekFails) => (take (offset r) (reader_file r), Err IoFailed)
    | Some _, IntoWorks =>
        let bytes := take (offset r) (reader_file r) in
        (bytes, Ok (MkRoomLog bytes (Z.of_nat (offset r)) false))
    | None, SeekFails => (reader_file r, Err IoFailed)
    | None, _ => (reader_file r, Ok (MkRoomLog (reader_file r) (Z.of_nat (offset r)) false))
    end.

(** What is read where some reads fail is what is read where none does. *)
Lemma next_record_works reads r x : next_record reads r = Ok x → next_record works r = Ok x.
Proof. unfold next_record. destruct (_ || _); [done |]. destruct (_ <? _)%nat; [done |]. by destruct (reads (offset r)). Qed.

(** * What survives a crash *)

Hypothesis crc_range : ∀ payload, is_u32 (crc payload).

(** Payloads a log accepts: the start record, then turns. *)
Definition fits (at_start : bool) (payload : list Z) : Prop :=
  Z.of_nat (length payload) ≤ record_limit at_start.

Lemma record_limit_u32 b : record_limit b ≤ u32_max.
Proof. by destruct b; vm_compute. Qed.

Lemma record_bytes_length payload : length (record_bytes payload) = (HEADER + length payload)%nat.
Proof. unfold record_bytes. rewrite !length_app, !to_le_bytes_length. unfold HEADER. lia. Qed.

(** The fields of an intact record. *)
Lemma record_fields b payload rest :
  fits b payload →
  from_le_bytes (take 4 (record_bytes payload ++ rest)) = Z.of_nat (length payload) ∧
  from_le_bytes (take 4 (drop 4 (record_bytes payload ++ rest))) = crc payload ∧
  take (length payload) (drop HEADER (record_bytes payload ++ rest)) = payload.
Proof.
  intros Hfit. unfold fits in Hfit. pose proof (record_limit_u32 b). unfold record_bytes.
  rewrite <- !app_assoc.
  rewrite take_app_length' by (by rewrite to_le_bytes_length).
  rewrite drop_app_length' by (by rewrite to_le_bytes_length).
  rewrite take_app_length' by (by rewrite to_le_bytes_length).
  split; [apply le_bytes_roundtrip; range_lia |].
  split; [apply le_bytes_roundtrip; specialize (crc_range payload); range_lia |].
  rewrite app_assoc, drop_app_length' by (by rewrite length_app, !to_le_bytes_length).
  by rewrite take_app_length.
Qed.

Lemma next_record_intact done payload rest :
  fits (length done =? 0)%nat payload →
  next_record works (MkLogReader (done ++ record_bytes payload ++ rest) (length done) None)
  = Ok (MkLogReader (done ++ record_bytes payload ++ rest)
          (length (done ++ record_bytes payload)) None, Some payload).
Proof.
  intros Hfit. unfold next_record. cbn [torn_at offset reader_file].
  rewrite bool_decide_false by (by intros []).
  rewrite !length_app, record_bytes_length, drop_app_length.
  destruct (record_fields _ payload rest Hfit) as (-> & -> & Hp).
  destruct (Nat.eqb_spec (length done) (length done + (HEADER + length payload + length rest)));
    [unfold HEADER in *; lia |].
  cbn [orb].
  destruct (Nat.ltb_spec (length done + (HEADER + length payload + length rest) - length done) HEADER);
    [unfold HEADER in *; lia |].
  destruct (Z.ltb_spec (record_limit (length done =? 0)%nat) (Z.of_nat (length payload)));
    [unfold fits in Hfit; lia |].
  rewrite Nat2Z.id.
  destruct (Nat.ltb_spec (length done + (HEADER + length payload + length rest))
    (length done + (HEADER + length payload))); [lia |].
  rewrite Hp, Z.eqb_refl. done.
Qed.

(** A record cut short by a crash is recognised as torn. *)
Lemma next_record_torn done payload n :
  done ≠ [] → fits false payload → (n < length (record_bytes payload))%nat →
  let r := MkLogReader (done ++ take n (record_bytes payload)) (length done) None in
  ∃ r', next_record works r = Ok (r', None) ∧ offset r' = length done ∧
    reader_file r' = reader_file r ∧ (n = 0%nat ∨ is_Some (torn_at r')).
Proof.
  intros Hne Hfit Hn r. rewrite record_bytes_length in Hn.
  assert (0 < length done)%nat by (destruct done; [done | simpl; lia]).
  assert (Htorn : torn r = Ok (r <| torn_at := Some (length done) |>, None)).
  { unfold torn. cbn. by destruct (Nat.eqb_spec (length done) 0); [lia |]. }
  unfold next_record. cbn [torn_at offset reader_file r].
  rewrite bool_decide_false by (by intros []).
  rewrite length_app, length_take, record_bytes_length, drop_app_length, Nat.min_l by lia.
  destruct (Nat.eqb_spec (length done) (length done + n)).
  { cbn. exists r. repeat split; left; lia. }
  cbn [orb]. destruct (Nat.ltb_spec (length done + n - length done) HEADER) as [Hh | Hh].
  { exists (r <| torn_at := Some (length done) |>). rewrite Htorn. cbn. eauto. }
  assert (from_le_bytes (take 4 (take n (record_bytes payload))) = Z.of_nat (length payload)) as ->.
  { rewrite take_take, Nat.min_l by (unfold HEADER in *; lia).
    destruct (record_fields false payload [] Hfit) as (Hl & _). by rewrite app_nil_r in Hl. }
  destruct (Nat.eqb_spec (length done) 0); [lia |].
  destruct (Z.ltb_spec (record_limit false) (Z.of_nat (length payload))); [unfold fits in Hfit; lia |].
  rewrite Nat2Z.id.
  destruct (Nat.ltb_spec (length done + n) (length done + (HEADER + length payload))); [| lia].
  exists (r <| torn_at := Some (length done) |>). rewrite Htorn. cbn. eauto.
Qed.

Definition file_of (payloads : list (list Z)) : list Z := payloads ≫= record_bytes.

(** What an undisturbed series of appends leaves on disk. *)
Lemma append_all_file l payloads l' :
  append_all (λ _, Written) l payloads = (l', Ok tt) → 0 ≤ written l →
  file l' = file l ++ file_of payloads ∧
  match payloads with
  | [] => True
  | p :: ps => fits (written l =? 0) p ∧ Forall (fits false) ps
  end.
Proof.
  revert l. induction payloads as [| p ps IH]; intros l; cbn [append_all].
  { intros [= <-]. intros _. split; [by rewrite app_nil_r | done]. }
  unfold append_record. destruct (Z.ltb_spec (record_limit (written l =? 0)) (Z.of_nat (length p)));
    [done |]. destruct (LOG_LIMIT <? _); [done |]. intros Hrun Hw.
  apply IH in Hrun as [Hf Hps]; [| cbn; lia]. cbn in Hf, Hps. split.
  - rewrite Hf, <- app_assoc. done.
  - split; [done |]. destruct ps as [| q ps]; [constructor |].
    destruct (Z.eqb_spec (written l + (Z.of_nat HEADER + Z.of_nat (length p))) 0) as [E |];
      [unfold HEADER in E; lia |]. destruct Hps. by constructor.
Qed.

(** Reading on from the end of the intact records. *)
Lemma read_records_spec turns done next n fuel :
  done ≠ [] → Forall (fits false) turns → fits false next →
  (n < length (record_bytes next))%nat → (length turns < fuel)%nat →
  let bytes := done ++ file_of turns ++ take n (record_bytes next) in
  ∃ r, read_records fuel (MkLogReader bytes (length done) None) = Ok (r, turns) ∧
    reader_file r = bytes ∧ offset r = length (done ++ file_of turns) ∧
    (n = 0%nat ∨ is_Some (torn_at r)).
Proof.
  intros Hne Hall Hnext Hn. revert done fuel Hne.
  induction Hall as [| p turns Hp _ IH]; intros done fuel Hne Hfuel bytes.
  - destruct fuel as [| fuel]; [lia |]. cbn [read_records].
    destruct (next_record_torn done next n Hne Hnext Hn) as (r & Hr & Ho & Hf & Ht).
    exists r. subst bytes. cbn [file_of mbind list_bind app]. rewrite Hr. cbn. rewrite app_nil_r. done.
  - destruct fuel as [| fuel]; [lia |]. cbn [read_records length] in *.
    assert (bytes = done ++ record_bytes p ++ file_of turns ++ take n (record_bytes next)) as ->.
    { subst bytes. unfold file_of. csimpl. by rewrite <- app_assoc. }
    rewrite next_record_intact.
    2: { destruct (Nat.eqb_spec (length done) 0) as [E |]; [by apply length_zero_iff_nil in E | done]. }
    cbn [result_bind]. destruct (IH (done ++ record_bytes p) fuel) as (r & Hr & Hf & Ho & Ht);
      [by destruct done | lia |].
    rewrite <- app_assoc in Hr. rewrite Hr. cbn. exists r. split; [done |].
    rewrite <- app_assoc in Hf, Ho. done.
Qed.

(** A log continued after its intact records. *)
Lemma into_log_intact r intact next n :
  reader_file r = intact ++ take n (record_bytes next) → offset r = length intact →
  n = 0%nat ∨ is_Some (torn_at r) →
  into_log IntoWorks r = (intact, Ok (MkRoomLog intact (Z.of_nat (length intact)) false)).
Proof.
  intros Hf Ho Ht. unfold into_log. rewrite Hf, Ho. destruct Ht as [-> | [k Ht]].
  - rewrite take_0, app_nil_r, Nat.eqb_refl, andb_false_r, firstn_all. by destruct (torn_at r).
  - rewrite Ht. cbn [bool_decide]. rewrite bool_decide_false by done. cbn [andb]. by rewrite take_app_length.
Qed.
End log.

(** C17: a crash costs at most the record being written.  A log that holds a
    start record and turns, followed by any part of one more record, reads back from
    a disk that works as exactly that start record and those turns, for every checksum function;
    continuing it cuts the torn record off, so that what is appended next
    follows the intact ones. *)
Theorem crash_loses_only_torn (crc : list Z → Z) (start : list Z) (turns : list (list Z))
    (next : list Z) (n : nat) :
  (∀ payload, is_u32 (crc payload)) →
  fits true start → Forall (fits false) turns → fits false next →
  (n < length (record_bytes crc next))%nat →
  let intact := file_of crc (start :: turns) in
  let r0 := MkLogReader (intact ++ take n (record_bytes crc next)) 0 None in
  ∃ r, read_records crc (length turns + 2) r0 = Ok (r, start :: turns) ∧
    into_log IntoWorks r = (intact, Ok (MkRoomLog intact (Z.of_nat (length intact)) false)).
Proof.
  intros Hcrc Hstart Hturns Hnext Hn intact r0.
  assert (intact = record_bytes crc start ++ file_of crc turns) as Ei by done.
  rewrite Nat.add_succ_r. cbn [read_records]. unfold r0. rewrite Ei, <- app_assoc.
  pose proof (next_record_intact crc Hcrc [] start
    (file_of crc turns ++ take n (record_bytes crc next)) Hstart) as Hfirst.
  cbn [app length] in Hfirst. rewrite Hfirst. cbn [result_bind].
  destruct (read_records_spec crc Hcrc turns (record_bytes crc start) next n (length turns + 1))
    as (r & Hr & Hf & Ho & Ht); [| done | done | done | lia |].
  { intros E. apply (f_equal length) in E. rewrite record_bytes_length in E. done. }
  rewrite Hr. cbn [result_bind]. exists r. split; [done |].
  apply (into_log_intact crc r intact next n); [| by rewrite Ho, <- Ei | done].
  by rewrite Hf, app_assoc, <- Ei.
Qed.

(** A crash while the third record was being written, with a checksum that is
    the sum of the bytes. *)
Lemma crash_loses_only_torn_witness :
  let crc l := sum_Z l mod 2 ^ 32 in
  let intact := file_of crc [[1; 2; 3]; [4; 5]] in
  let r0 := MkLogReader (intact ++ take 9 (record_bytes crc [6; 7])) 0 None in
  ∃ r, read_records crc 3 r0 = Ok (r, [[1; 2; 3]; [4; 5]]) ∧
    into_log IntoWorks r = (intact, Ok (MkRoomLog intact (Z.of_nat (length intact)) false)).
Proof.
  apply (crash_loses_only_torn (λ l, sum_Z l mod 2 ^ 32) [1; 2; 3] [[4; 5]] [6; 7] 9).
  - intros payload. pose proof (Z.mod_pos_bound (sum_Z payload) (2 ^ 32)). range_lia.
  - vm_compute. congruence.
  - constructor; [vm_compute; congruence | constructor].
  - vm_compute. congruence.
  - vm_compute. lia.
Defined.

(** * An encoding of the start record

    A concrete instance of what the log asks of postcard, so that a room can be
    run whole. *)
Module ConcreteStart.
#[export] Instance codec_settings : Codec RoomSettings.
Proof.
  refine (codec_iso (λ s, (steps_per_second s, input_delay_ms s, checkpoint_interval s))
    (λ f, Some (MkRoomSettings f.1.1 f.1.2 f.2)) _).
  by intros [].
Defined.

#[export] Instance codec_StartMember : Codec StartMember.
Proof.
  refine (codec_iso (λ m, (sm_player m, sm_name m, sm_platform m, sm_content m))
    (λ f, Some (MkStartMember f.1.1.1 f.1.1.2 f.1.2 f.2)) _).
  by intros [].
Defined.

#[export] Instance codec_Base : Codec Base.
Proof.
  refine (codec_iso
    (λ b, (base_first_turn b, base_first_event b, base_sealed_before b, base_after_turn b,
           (base_next_event b, base_sealed_through b, base_speed b, base_histories b),
           (base_content b, base_seated b, base_banned b, base_rules b)))
    (λ f, let '(b1, b2, b3, b4, (b5, b6, b7, b8), (b9, b10, b11, b12)) := f in
          Some (MkBase b1 b2 b3 b4 b5 b6 b7 b8 b9 b10 b11 b12)) _).
  by intros [].
Defined.

#[export] Instance codec_StartRecord : Codec StartRecord.
Proof.
  refine (codec_iso
    (λ r, (sr_version r, sr_history r, sr_id r, sr_name r,
           (sr_rules r, sr_owner r, sr_max_players r, sr_settings r),
           (sr_invite_tag r, sr_password_tag r, sr_members r, sr_base r)))
    (λ f, let '(s1, s2, s3, s4, (s5, s6, s7, s8), (s9, s10, s11, s12)) := f in
          Some (MkStartRecord s1 s2 s3 s4 s5 s6 s7 s8 s9 s10 s11 s12)) _).
  by intros [].
Defined.

#[export] Instance start_postcard : Postcard StartRecord := {
  to_stdvec m := Some (encode m);
  take_from_bytes := decode;
}.

#[export] Instance start_postcard_laws : PostcardLaws StartRecord.
Proof.
  split.
  - intros m bytes rest Hm. injection Hm as <-. exact (codec_law m rest).
  - intros m bytes [= <-]. discriminate.
Qed.
End ConcreteStart.
