(* ===== verification/Room.v ===== *)
(** A room ([impl Room] of [crates/tpf3mp-server/src/room.rs]): its lobby, its
    members and, once running, its game.

    Each room is one task that owns its state, so that its handlers run one at
    a time; they are functions from a room to a room here.  What a room does to
    the outside (messages to members, closed connections, holds on snapshots,
    files) is the trace [out] it appends to.  What the outside answers is not
    the room's choice: [outcome] says of every attempt to queue a message
    whether it was taken, and [disk] what became of every write; theorems hold
    for all of them.  The clock is read once per command. *)
From S2P Require Import Prelude Proto TurnLog Codec Pacing Limit Verdict Snapshots Ruleset Game Persist.
Local Open Scope Z_scope.

Definition INTENTS_PER_SECOND : Z := 20.
Definition INTENT_BURST : Z := 40.
Definition CHATS_PER_SECOND : Z := 1.
Definition CHAT_BURST : Z := 5.
Definition PAYLOAD_BYTES_PER_SECOND : Z := 32 * 1024.
Definition PAYLOAD_BURST : Z := 256 * 1024.
Definition CHECKPOINT_DEADLINE : Duration := from_secs 30.
Definition MIN_VERDICT_REPORTS : nat := 2.
Definition MAX_OPEN_ROUNDS : nat := 64.
Definition REBASE_GAP : Duration := from_secs 300.
Definition MAX_BANNED : Z := 1024.
Definition PASSWORD_FAILURES_PER_MINUTE : Z := 10.

(** * Admission *)

Definition text_bytes (s : Text) : list Z :=
  Z.of_nat ∘ Ascii.nat_of_ascii <$> String.list_ascii_of_string s.

Record RoomSecrets := MkRoomSecrets {
  key : list Z;
  invite_tag : list Z;
  password_tag : option (list Z);
}.

Inductive Admittance := Admits | WrongPassword | WrongInvite.

Definition invite_input (room : RoomId) (token : Z) : list Z :=
  text_bytes "invite" ++ fixed_bytes 16 room ++ fixed_bytes 32 token.

Definition password_input (room : RoomId) (password : Text) : list Z :=
  text_bytes "password" ++ fixed_bytes 16 room ++ text_bytes password.

Definition check_secrets (hmac_verify : list Z → list Z → list Z → bool) (s : RoomSecrets)
    (room : RoomId) (token : Z) (password : option Text) : Admittance :=
  let invite_ok := hmac_verify (key s) (invite_input room token) (invite_tag s) in
  let password_ok :=
    match password_tag s, password with
    | None, _ => true
    | Some tag, Some password => hmac_verify (key s) (password_input room password) tag
    | Some _, None => false
    end in
  match invite_ok, password_ok with
  | true, true => Admits
  | true, false => WrongPassword
  | false, _ => WrongInvite
  end.

Record PasswordGuard := MkPasswordGuard { window_start : Instant; failures : Z }.
#[export] Instance eta_PasswordGuard : Eta PasswordGuard := fun g =>
  MkPasswordGuard (window_start g) (failures g).

Definition PasswordGuard_new (now : Instant) : PasswordGuard := MkPasswordGuard now 0.

Definition roll (g : PasswordGuard) (now : Instant) : PasswordGuard :=
  if from_secs 60 <=? saturating_duration_since now (window_start g)
  then g <| window_start := now |> <| failures := 0 |> else g.

Definition guard_open (g : PasswordGuard) (now : Instant) : PasswordGuard * bool :=
  let g := roll g now in (g, failures g <? PASSWORD_FAILURES_PER_MINUTE).

Definition guard_failed (g : PasswordGuard) (now : Instant) : PasswordGuard :=
  let g := roll g now in g <| failures := Z.min (failures g + 1) u32_max |>.

(** * Members *)

Abbreviation LinkId := Z (only parsing).

Inductive Needs := NeedsNothing | NeedsWorld | NeedsRebase (after_step : Z).
Inductive Pace := Loading | Following (at_step : Z) | CatchingUp (at_step : option Z).

#[export] Instance Needs_eq_dec : EqDecision Needs.
Proof. solve_decision. Defined.
#[export] Instance Pace_eq_dec : EqDecision Pace.
Proof. solve_decision. Defined.

Record NewMember := MkNewMember {
  new_player : PlayerId;
  new_name : Text;
  new_platform : Platform;
  new_link : LinkId;
}.

Record Member := MkMember {
  player : PlayerId;
  name : Text;
  platform : Platform;
  ready : bool;
  m_content : option ContentFingerprint;
  link : option LinkId;
  streaming : bool;
  pace : Pace;
  advanced : Instant;
  intents : TokenBucket;
  payload_bytes : TokenBucket;
  chats : TokenBucket;
  needs : Needs;
  offered : option SnapshotId;
  rebased : option Instant;
  stream_from : Z;
}.
#[export] Instance eta_Member : Eta Member := fun m =>
  MkMember (player m) (name m) (platform m) (ready m) (m_content m) (link m) (streaming m) (pace m)
    (advanced m) (intents m) (payload_bytes m) (chats m) (needs m) (offered m) (rebased m)
    (stream_from m).

Definition Member_new (new : NewMember) (now : Instant) : Member :=
  {| player := new_player new;
     name := new_name new;
     platform := new_platform new;
     ready := false;
     m_content := None;
     link := Some (new_link new);
     streaming := false;
     pace := CatchingUp None;
     advanced := now;
     intents := TokenBucket_new INTENTS_PER_SECOND INTENT_BURST now;
     payload_bytes := TokenBucket_new PAYLOAD_BYTES_PER_SECOND PAYLOAD_BURST now;
     chats := TokenBucket_new CHATS_PER_SECOND CHAT_BURST now;
     needs := NeedsNothing;
     offered := None;
     rebased := None;
     stream_from := 0 |}.

(** Whether a member can hold the room's clock. *)
Definition holds_clock (m : Member) : bool :=
  streaming m || (bool_decide (pace m = Loading) && bool_decide (is_Some (link m))).

Definition is_pacing (p : Pace) : bool :=
  match p with Loading | Following _ => true | CatchingUp _ => false end.

Definition round_complete (members : list Member) (round : Round) : bool :=
  forallb (λ m, existsb (λ report, report_player report =? player m) (reports round))
    (List.filter (λ m, streaming m && is_pacing (pace m)) members).

Definition save_complete (members : list Member) (round : SaveRound) : bool :=
  forallb (λ m, existsb (λ save, report_player (report save) =? player m) (round_reports round))
    (List.filter (λ m, streaming m && (stream_from m <=? point_event (round_point round))
       && is_pacing (pace m)) members).

(** The lowest progress among members who pace the room. *)
Fixpoint slowest_of_pacers (slowest : option Z) (members : list Member) : option Z :=
  match members with
  | [] => slowest
  | m :: members =>
      match pace m with
      | Loading => None
      | Following s => slowest_of_pacers (Some (match slowest with None => s | Some c => Z.min c s end)) members
      | CatchingUp _ => slowest_of_pacers slowest members
      end
  end.

Definition slowest_pacer (members : list Member) : option Z :=
  slowest_of_pacers None (List.filter holds_clock members).

Definition decide_round (round : Round) : Round * list (PlayerId * list Z) :=
  let '(v, diverged) := Verdict.decide (reports round) in
  (round <| verdict := Some v |>, diverged).

Definition next_compaction (size every : Z) : Z := saturating_add_u64 size (Z.max every size).

(** * The room *)

Record Timeouts := MkTimeouts { stall : Duration; load : Duration; abandoned : Duration }.

(** What a room reads of the server's snapshots. *)
Record SnapshotsConfig := MkSnapshotsConfig { every : Duration; min_gap : Duration }.

Inductive Phase := Lobby | Running (g : Game).

(** A compaction under way: what it writes, and the turns sealed since. *)
Record Compaction := MkCompaction {
  comp_start : StartRecord;
  comp_frames : list Frame;
  comp_tail : list Frame;
}.
#[export] Instance eta_Compaction : Eta Compaction := fun c =>
  MkCompaction (comp_start c) (comp_frames c) (comp_tail c).

Inductive CloseCode :=
  | NORMAL_END | PROTOCOL_VIOLATION | VERSION_MISMATCH | REJECTED | HANDSHAKE_TIMEOUT
  | SHUTTING_DOWN | SLOW_CONSUMER | REPLACED | IDLE.

(** What a room does to the outside. *)
Inductive Output :=
  | OControl (to : LinkId) (message : ServerMessage)
  | OTurns (to : LinkId) (feed : TurnFeed)
  | OClose (connection : LinkId) (code : CloseCode)
  | OHold (id : ManifestId)
  | ORelease (ids : list ManifestId)
  | OWritePointer (snapshot : SnapshotId) (point : SavePoint)
  | ORemovePointer
  | ODeleteLog
  | ODiscardCompaction.

(** What becomes of a message a room tries to queue. *)
Inductive SendOutcome := Sent | QueueFull | QueueClosed.

Record Room (R : Type) := MkRoom {
  room_id : RoomId;
  room_name : Text;
  room_rules : Text;
  owner : PlayerId;
  max_players : Z;
  settings : RoomSettings;
  secrets : RoomSecrets;
  members : list Member;
  phase : Phase;
  ruleset : R;
  data_dir : bool;                     (* whether games are logged *)
  timeouts : Timeouts;
  room_log : option RoomLog;
  compaction : option Compaction;
  compact_at : Z;
  compact_log_at : Z;
  unattended_since : option Instant;
  password_guard : PasswordGuard;
  banned : gset PlayerId;
  room_content : option ContentFingerprint;
  snapshots : option SnapshotsConfig;
  closed : bool;
  out : list Output;
  calls : nat;                         (* outcomes asked for so far *)
}.
Arguments MkRoom {R}.
Arguments room_id {R}. Arguments room_name {R}. Arguments room_rules {R}. Arguments owner {R}.
Arguments max_players {R}. Arguments settings {R}. Arguments secrets {R}. Arguments members {R}.
Arguments phase {R}. Arguments ruleset {R}. Arguments data_dir {R}. Arguments timeouts {R}.
Arguments room_log {R}. Arguments compaction {R}. Arguments compact_at {R}.
Arguments compact_log_at {R}. Arguments unattended_since {R}. Arguments password_guard {R}.
Arguments banned {R}. Arguments room_content {R}. Arguments snapshots {R}. Arguments closed {R}.
Arguments out {R}. Arguments calls {R}.
#[export] Instance eta_Room {R} : Eta (Room R) := fun r =>
  MkRoom (room_id r) (room_name r) (room_rules r) (owner r) (max_players r) (settings r) (secrets r)
    (members r) (phase r) (ruleset r) (data_dir r) (timeouts r) (room_log r) (compaction r)
    (compact_at r) (compact_log_at r) (unattended_since r) (password_guard r) (banned r)
    (room_content r) (snapshots r) (closed r) (out r) (calls r).

(** [position]. *)
Definition position {A} (f : A → bool) (l : list A) : option nat :=
  fst <$> list_find (λ a, f a = true) l.

Section room.
Context {R : Type} {RS : Ruleset R} {P : Postcard TurnMessage} {PS : Postcard StartRecord}.
Context (hmac_verify : list Z → list Z → list Z → bool).
Context (crc : list Z → Z).
Context (outcome : nat → SendOutcome) (disk : nat → WriteOutcome).
Abbreviation room := (Room R).

Definition emit (r : room) (o : Output) : room := r <| out := out r ++ [o] |>.

(** [try_send]: a message that is not taken never leaves. *)
Definition try_send (r : room) (o : Output) : room * SendOutcome :=
  let result := outcome (calls r) in
  let r := r <| calls := S (calls r) |> in
  (match result with Sent => emit r o | _ => r end, result).

Definition update_member (r : room) (index : nat) (f : Member → Member) : room :=
  r <| members := alter f index (members r) |>.

Definition is_sent (s : SendOutcome) : bool := match s with Sent => true | _ => false end.

Definition view (r : room) : RoomView :=
  {| view_id := room_id r;
     view_room_name := room_name r;
     view_rules := room_rules r;
     view_owner := owner r;
     view_max_players := max_players r;
     view_has_password := bool_decide (is_Some (password_tag (secrets r)));
     view_phase := match phase r with Lobby => PhaseLobby | Running _ => PhaseRunning end;
     view_settings := settings r;
     view_members := (λ m, {| view_player := player m;
                              view_name := name m;
                              view_platform := platform m;
                              view_ready := ready m;
                              view_content := m_content m;
                              view_connected := bool_decide (is_Some (link m)) |}) <$> members r |}.

(** ** Sending *)

Definition drop_link (r : room) (index : nat) (slow : bool) : room :=
  match members r !! index ≫= link with
  | None => r
  | Some l =>
      let r := if slow then emit r (OClose l SLOW_CONSUMER) else r in
      update_member r index (λ m, m <| link := None |> <| streaming := false |>
                                    <| pace := CatchingUp None |>)
  end.

Definition push (r : room) (index : nat) (message : ServerMessage) : room :=
  match members r !! index ≫= link with
  | None => r
  | Some l =>
      match try_send r (OControl l message) with
      | (r, Sent) => r
      | (r, QueueFull) => drop_link r index true
      | (r, QueueClosed) => drop_link r index false
      end
  end.

Definition send_turn (r : room) (index : nat) (feed : TurnFeed) : room :=
  match members r !! index ≫= link with
  | None => r
  | Some l =>
      match try_send r (OTurns l feed) with
      | (r, Sent) => r
      | (r, QueueFull) => drop_link r index true
      | (r, QueueClosed) => drop_link r index false
      end
  end.

(** [for index in 0..self.members.len()]. *)
Definition for_members (r : room) (f : room → nat → room) : room :=
  foldl f r (List.seq 0 (length (members r))).

Definition broadcast_view (r : room) : room :=
  let v := view r in for_members r (λ r index, push r index (RoomUpdate v)).

Definition close_all (r : room) (code : CloseCode) : room :=
  let r := for_members r (λ r index,
    let r := match members r !! index ≫= link with
             | Some l => emit r (OClose l code)
             | None => r
             end in
    update_member r index (λ m, m <| link := None |> <| streaming := false |>)) in
  r <| closed := true |>.

(** ** Worlds for members who need one *)

(** Whether the current snapshot serves a member. *)
Definition serves (needs : Needs) (agreed : Agreed) : bool :=
  match needs with
  | NeedsNothing => false
  | NeedsWorld => true
  | NeedsRebase after => after <=? point_sealed_through (point agreed)
  end.

(** The feed for one member, [None] if it must wait. *)
Definition world_feed (r : room) (g : Game) (m : Member) : option (TurnFeed * Z) :=
  agreed ← current (saves g);
  if serves (needs m) agreed then
    match feed_from g (room_id r) (settings r) (room_rules r) agreed with
    | Ok feed => Some feed
    | Err _ => None
    end
  else None.

Definition needs_feed (m : Member) : bool :=
  negb (bool_decide (needs m = NeedsNothing)) && bool_decide (is_Some (link m)).

(** Sends one member its feed. *)
Definition offer_world (offer_id : option SnapshotId) (now : Instant) (r : room)
    (entry : nat * (TurnFeed * Z)) : room :=
  let '(index, (feed, from)) := entry in
  match members r !! index ≫= link with
  | None => r
  | Some l =>
      let '(r, sent) := try_send r (OTurns l feed) in
      let r := update_member r index (λ m, m <| streaming := is_sent sent |>) in
      if negb (is_sent sent) then r
      else
        update_member r index (λ m,
          let m := match needs m with
                   | NeedsRebase _ => m <| rebased := Some now |>
                   | _ => m
                   end in
          let m := m <| needs := NeedsNothing |> <| offered := offer_id |> in
          let m := if bool_decide (pace m = Loading) then m else m <| pace := CatchingUp None |> in
          m <| stream_from := from |>)
  end.

Definition offer_worlds (r : room) (now : Instant) : room :=
  match phase r with
  | Lobby => r
  | Running g =>
      let entries := imap (λ index m, (index, (m, world_feed r g m))) (members r) in
      let needing := List.filter (λ e, needs_feed e.2.1) entries in
      let feeds := omap (λ e : nat * (Member * option (TurnFeed * Z)), pair e.1 <$> e.2.2) needing in
      let waiting := existsb (λ e, bool_decide (e.2.2 = None)) needing in
      let g := g <| saves ::= λ s, s <| wanted := waiting |> |> in
      let offer_id := agreed_id <$> current (saves g) in
      foldl (offer_world offer_id now) (r <| phase := Running g |>) feeds
  end.

(** ** Divergence *)

Definition announce_one (r : room) (now : Instant) (step : Z) (notice : PlayerId * list Z) : room :=
  let '(p, lns) := notice in
  match position (λ m, player m =? p) (members r) with
  | None => r
  | Some index =>
      let r := push r index (Diverged step lns) in
      update_member r index (λ m,
        let rested := is_none_or (rebased m) (λ at_, REBASE_GAP <=? saturating_duration_since now at_) in
        if bool_decide (is_Some (snapshots r)) && bool_decide (needs m = NeedsNothing) && rested
        then m <| needs := NeedsRebase step |> else m)
  end.

Definition announce_divergence (r : room) (now : Instant) (step : Z)
    (notices : list (PlayerId * list Z)) : room :=
  if bool_decide (notices = []) then r
  else offer_worlds (foldl (λ r notice, announce_one r now step notice) r notices) now.

(** ** Checkpoints *)

Definition linked (p : PlayerId) (l : LinkId) (m : Member) : bool :=
  (player m =? p) && bool_decide (link m = Some l).

(** Sorted by lane, the first entry of each. *)
Definition normal_lanes (lns : list LaneDigest) : list LaneDigest :=
  dedup_by_key lane (sort_by (λ a b, lane a <=? lane b) lns).

Definition open_rounds (g : Game) : nat :=
  length (List.filter (λ kr, bool_decide (verdict kr.2 = None)) (map_to_list (rounds g))).

(** What one report does to its round. *)
Definition add_report (members : list Member) (round : Round) (rep : Report) :
    Round * list (PlayerId * list Z) :=
  match verdict round with
  | Some v =>
      let diverged := diverging_lanes (lanes rep) v in
      (round <| reports := reports round ++ [rep] |>,
       if bool_decide (diverged = []) then [] else [(report_player rep, diverged)])
  | None =>
      let round := round <| reports := reports round ++ [rep] |> in
      if (MIN_VERDICT_REPORTS <=? length (reports round))%nat && round_complete members round
      then decide_round round else (round, [])
  end.

Definition checkpoint (r : room) (p : PlayerId) (l : LinkId) (step : Z) (lns : list LaneDigest)
    (now : Instant) : room :=
  match phase r with
  | Lobby => r
  | Running g =>
      match position (linked p l) (members r) with
      | None => r
      | Some index =>
          if (step =? 0) || negb (step mod checkpoint_interval (settings r) =? 0)
             || (sealed_through g <? step) then r
          else if (step <=? rounds_closed_through g) && bool_decide (rounds g !! step = None) then r
          else if bool_decide (rounds g !! step = None) && (MAX_OPEN_ROUNDS <=? open_rounds g)%nat then r
          else
            let round := default (MkRound now [] None) (rounds g !! step) in
            let g := g <| rounds := <[step := round]> (rounds g) |> in
            if existsb (λ rep, report_player rep =? p) (reports round)
            then r <| phase := Running g |>
            else
              match members r !! index with
              | None => r
              | Some m =>
                  let rep := MkReport p (platform m) (Z.of_nat index) (normal_lanes lns) in
                  let '(round, notices) := add_report (members r) round rep in
                  let g := prune_rounds (g <| rounds := <[step := round]> (rounds g) |>) in
                  announce_divergence (r <| phase := Running g |>) now step notices
              end
      end
  end.

(** One waiting round: decided, expired or neither. *)
Definition judge_round (members : list Member) (now : Instant)
    (acc : Game * list (Z * list (PlayerId * list Z)) * list Z) (step : Z) :
    Game * list (Z * list (PlayerId * list Z)) * list Z :=
  let '(g, decided, expired) := acc in
  match rounds g !! step with
  | None => acc
  | Some round =>
      if bool_decide (is_Some (verdict round)) then acc
      else
        let overdue := CHECKPOINT_DEADLINE <=? saturating_duration_since now (opened round) in
        let enough := (MIN_VERDICT_REPORTS <=? length (reports round))%nat in
        if enough && (overdue || round_complete members round) then
          let '(round, notices) := decide_round round in
          (g <| rounds := <[step := round]> (rounds g) |>, decided ++ [(step, notices)], expired)
        else if overdue then (g, decided, expired ++ [step])
        else acc
  end.

Definition decide_waiting_rounds (r : room) (now : Instant) : room :=
  match phase r with
  | Lobby => r
  | Running g =>
      let '(g, decided, expired) :=
        foldl (judge_round (members r) now) (g, [], []) (btree_keys (rounds g)) in
      let g := foldl close_round g expired in
      if bool_decide (decided = []) then r <| phase := Running g |>
      else
        let r := r <| phase := Running (prune_rounds g) |> in
        foldl (λ r d, announce_divergence r now d.1 d.2) r decided
  end.

(** ** Pacing *)

Definition set_speed (r : room) (p : PlayerId) (sp : Speed) : room * result unit RequestError :=
  if negb (p =? owner r) then (r, Err NotOwner)
  else
    match phase r with
    | Lobby => (r, Err GameNotRunning)
    | Running g =>
        if MAX_SPEED <? sp then (r, Err InvalidSettings)
        else (r <| phase := Running (g <| speed := sp |>) |>, Ok tt)
    end.

(** A member's pace after it reports [step]. *)
Definition new_pace (p : Pace) (window sealed step : Z) : Pace :=
  match p with
  | Loading => Following step
  | Following previous => Following (Z.max previous step)
  | CatchingUp _ =>
      if sealed <=? saturating_add_u64 step window then Following step else CatchingUp (Some step)
  end.

Definition progress (r : room) (p : PlayerId) (l : LinkId) (step : Z) (now : Instant) : room :=
  match phase r with
  | Lobby => r
  | Running g =>
      let sealed := sealed_through g in
      let w := window (pacer g) (speed g) in
      match position (linked p l) (members r) with
      | None => r
      | Some index =>
          if sealed <? step then
            let r := emit r (OClose l PROTOCOL_VIOLATION) in
            update_member r index (λ m, m <| link := None |> <| streaming := false |>
                                          <| pace := CatchingUp None |>)
          else
            update_member r index (λ m,
              let p' := new_pace (pace m) w sealed step in
              let moved := match pace m, p' with
                           | Following before, Following after => before <? after
                           | _, Following _ => true
                           | _, _ => false
                           end in
              let m := if moved then m <| advanced := now |> else m in
              m <| pace := p' |>)
      end
  end.

Definition demote (now : Instant) (t : Timeouts) (sealed : Z) (paused : bool) (started : Instant)
    (m : Member) : Member :=
  if negb (holds_clock m) then m
  else if paused then m <| advanced := now |>
  else
    let stalled := match pace m with
                   | Loading => load t <=? saturating_duration_since now started
                   | Following step =>
                       (step <? sealed) && (stall t <=? saturating_duration_since now (advanced m))
                   | CatchingUp _ => false
                   end in
    if stalled then
      m <| pace := match pace m with
                   | Following step => CatchingUp (Some step)
                   | _ => CatchingUp None
                   end |>
    else m.

Definition demote_stalled (r : room) (now : Instant) : room :=
  match phase r with
  | Lobby => r
  | Running g =>
      r <| members := demote now (timeouts r) (sealed_through g) (is_paused (speed g)) (started g)
           <$> members r |>
  end.

(** ** The log and its compaction *)

Definition start_record (r : room) (history : Z) (base : option Base) : StartRecord :=
  {| sr_version := FORMAT_VERSION;
     sr_history := history;
     sr_id := room_id r;
     sr_name := room_name r;
     sr_rules := room_rules r;
     sr_owner := owner r;
     sr_max_players := max_players r;
     sr_settings := settings r;
     sr_invite_tag := invite_tag (secrets r);
     sr_password_tag := password_tag (secrets r);
     sr_members := (λ m, MkStartMember (player m) (name m) (platform m) (m_content m)) <$> members r;
     sr_base := base |}.

Definition open_log (r : room) (history : Z) : room :=
  if negb (data_dir r) then r
  else
    let created := create_log crc (disk (calls r)) (start_record r history None) in
    let r := r <| calls := S (calls r) |> in
    match created with
    | Ok l => r <| room_log := Some l |>
    | Err _ => r
    end.

(** Where the game stands, for a compacted log. *)
Definition base_of (g : Game) (rules : list Z) (content : option ContentFingerprint)
    (banned : gset PlayerId) : Base :=
  {| base_first_turn := log_first_turn g;
     base_first_event := default (next_event g) (first_event <$> head (log g));
     base_sealed_before := sealed_before_log g;
     base_after_turn := next_turn g - 1;
     base_next_event := next_event g;
     base_sealed_through := sealed_through g;
     base_speed := speed g;
     base_histories := (λ h, (hist_id h, hist_after_turn h)) <$> histories g;
     base_content := content;
     base_seated := seated g;
     base_banned := sort_by Z.leb (elements banned);
     base_rules := rules |}.

Definition start_compaction (r : room) : room :=
  if bool_decide (is_Some (compaction r)) then r
  else
    match data_dir r, room_log r, phase r with
    | true, Some l, Running g =>
        if (written l <? compact_at r) || negb (bool_decide (pending g = [])) then r
        else
          match save_rules (ruleset r) with
          | None => r <| compact_at := u64_max |>
          | Some rules =>
              let base := base_of g rules (room_content r) (banned r) in
              let first_history := default 0 (hist_id <$> head (histories g)) in
              let start := start_record r first_history (Some base) in
              r <| compaction := Some (MkCompaction start (frame <$> log g) []) |>
          end
    | _, _, _ => r
    end.

(** [done]: the compacted log, once its task has written it; [renamed]: whether
    installing it succeeds. *)
Definition finish_compaction (r : room) (done : result RoomLog IoError) (renamed : bool) : room :=
  match compaction r with
  | None => r
  | Some c =>
      let r := r <| compaction := None |> in
      let before := default 0 (written <$> room_log r) in
      let failed r := r <| compact_at := next_compaction before (compact_log_at r) |> in
      match done with
      | Err _ => failed r
      | Ok l =>
          let '(l, appended) := append_all crc (λ n, disk (calls r + n)%nat) l (comp_tail c) in
          let r := r <| calls := (calls r + length (comp_tail c))%nat |> in
          match appended with
          | Err _ => failed (emit r ODiscardCompaction)
          | Ok _ =>
              let '(l, installed) := install renamed l in
              match installed with
              | Err _ => failed (emit r ODiscardCompaction)
              | Ok _ =>
                  r <| compact_at := next_compaction (written l) (compact_log_at r) |>
                    <| room_log := Some l |>
              end
          end
      end
  end.

Definition cancel_compaction (r : room) : room :=
  match compaction r with
  | None => r
  | Some _ => emit (r <| compaction := None |>) ODiscardCompaction
  end.

(** Logs sealed turns and sends them to every member with a stream. *)
Definition publish (r : room) (frames : list Frame) : room :=
  let r := match room_log r with
           | None => r
           | Some l =>
               let '(l, done) := append_all crc (λ n, disk (calls r + n)%nat) l frames in
               let r := r <| calls := (calls r + length frames)%nat |> in
               r <| room_log := match done with Ok _ => Some l | Err _ => None end |>
           end in
  let r := match compaction r with
           | None => r
           | Some c => r <| compaction := Some (c <| comp_tail := comp_tail c ++ frames |>) |>
           end in
  let r := foldl (λ r f, for_members r (λ r index,
             if default false (streaming <$> members r !! index)
             then send_turn r index (FeedFrame f) else r)) r frames in
  start_compaction r.

(** ** Saves *)

Definition promote (r : room) (now : Instant) (agreed : Agreed) : room :=
  match phase r with
  | Lobby => r
  | Running g =>
      let dropped := previous (saves g) in
      let g := g <| saves ::= λ s, s <| previous := current s |> <| current := Some agreed |> |> in
      let r := r <| phase := Running g |> in
      let released := option_list ((λ a, manifest_id (manifest a)) <$> dropped) in
      let r := if bool_decide (is_Some (snapshots r)) then
                 let r := if data_dir r then emit r (OWritePointer (agreed_id agreed) (point agreed)) else r in
                 emit r (ORelease released)
               else r in
      offer_worlds r now
  end.

Fixpoint ask_for_upload (r : room) (pt : SavePoint) (candidates : Candidates) (now : Instant) : room :=
  match candidates with
  | [] => r
  | (p, w) :: candidates =>
      match phase r with
      | Lobby => r
      | Running g =>
          match manifest <$> find_agreed (saves g) (saved_snapshot w) with
          | Some mf =>
              let r := if bool_decide (is_Some (snapshots r)) then emit r (OHold (manifest_id mf)) else r in
              promote r now (MkAgreed mf pt)
          | None =>
              match position (λ m, (player m =? p) && bool_decide (is_Some (link m))) (members r) with
              | None => ask_for_upload r pt candidates now
              | Some index =>
                  let u := MkUpload pt p w candidates now false in
                  let g := g <| saves ::= λ s, s <| upload := Some u |> |> in
                  push (r <| phase := Running g |>) index
                    (UploadRequest (point_event pt) (saved_snapshot w))
              end
          end
      end
  end.

Definition decide_save (r : room) (event : Z) (now : Instant) : room :=
  match phase r with
  | Lobby => r
  | Running g =>
      match save_rounds (saves g) !! event with
      | None => r
      | Some round =>
          let g := g <| saves ::= λ s, s <| save_rounds ::= delete event |> |> in
          let '(candidates, diverged) := decide_saves (round_reports round) in
          let late c := existsb (Z.eqb c.1) (failed (saves g)) in
          let candidates := sort_by (λ a b, implb (late a) (late b)) candidates in
          let r := announce_divergence (r <| phase := Running g |>) now
                     (point_sealed_through (round_point round)) diverged in
          ask_for_upload r (round_point round) candidates now
      end
  end.

Definition saved (r : room) (p : PlayerId) (l : LinkId) (event : Z) (lns : list LaneDigest)
    (w : option SavedWorld) (now : Instant) : room :=
  match position (linked p l) (members r) with
  | None => r
  | Some index =>
      match members r !! index, phase r with
      | Some m, Running g =>
          if negb (streaming m) || (event <? stream_from m) then r
          else
            match save_rounds (saves g) !! event with
            | None => r
            | Some round =>
                if existsb (λ s, report_player (report s) =? p) (round_reports round) then r
                else
                  let rep := MkReport p (platform m) (Z.of_nat index) (normal_lanes lns) in
                  let round := round <| round_reports := round_reports round ++ [MkSaveReport rep w] |> in
                  let g := g <| saves ::= λ s, s <| save_rounds ::= <[event := round]> |> |> in
                  let r := r <| phase := Running g |> in
                  if save_complete (members r) round then decide_save r event now else r
            end
      | _, _ => r
      end
  end.

Definition fetchable (r : room) (p : PlayerId) (l : LinkId) (snapshot : SnapshotId) : option Manifest :=
  index ← position (linked p l) (members r);
  m ← members r !! index;
  if negb (bool_decide (offered m = Some snapshot)) then None
  else
    match phase r with
    | Lobby => None
    | Running g => manifest <$> find_agreed (saves g) snapshot
    end.

Definition upload_starts (r : room) (p : PlayerId) (l : LinkId) (snapshot : SnapshotId) : room * bool :=
  let is_linked := existsb (linked p l) (members r) in
  match phase r with
  | Lobby => (r, false)
  | Running g =>
      match upload (saves g) with
      | Some u =>
          if is_linked && (upload_from u =? p) && (saved_snapshot (upload_world u) =? snapshot)
             && negb (receiving u)
          then
            let g := g <| saves ::= λ s, s <| upload := Some (u <| receiving := true |>) |> |> in
            (r <| phase := Running g |>, true)
          else (r, false)
      | None => (r, false)
      end
  end.

Definition release_in_background (r : room) (ids : list ManifestId) : room :=
  if bool_decide (ids = []) then r else emit r (ORelease ids).

Definition uploaded (r : room) (p : PlayerId) (snapshot : SnapshotId)
    (result : result Manifest string) (now : Instant) : room :=
  match phase r with
  | Lobby => r
  | Running g =>
      match (u ← upload (saves g);
             if (upload_from u =? p) && (saved_snapshot (upload_world u) =? snapshot)
             then Some u else None) with
      | None =>
          match result, snapshots r with
          | Ok mf, Some _ => release_in_background r [manifest_id mf]
          | _, _ => r
          end
      | Some u =>
          let g := g <| saves ::= λ s, s <| upload := None |> |> in
          match result with
          | Ok mf => promote (r <| phase := Running g |>) now (MkAgreed mf (upload_point u))
          | Err _ =>
              let g := g <| saves ::= λ s, failed_uploader s p |> in
              ask_for_upload (r <| phase := Running g |>) (upload_point u) (rest u) now
          end
      end
  end.

(** Seals a save when one is due. *)
Definition save_if_due (r : room) (config : SnapshotsConfig) (now : Instant) : room :=
  let playing := existsb (λ m, streaming m
    && match pace m with Following _ => true | _ => false end) (members r) in
  match phase r with
  | Lobby => r
  | Running g =>
      if negb playing
         || negb (due (saves g) now (every config) (min_gap config) (started g)
                    (sealed_through g) (next_event g))
      then r
      else
        let '(g, rules) := append g SaveWorld (ruleset r) in
        let r := r <| ruleset := rules |> in
        let event := next_event g - 1 in
        let frontier := sealed_through g in
        let '(g, frames) := seal g frontier in
        match frames with
        | Err _ => close_all (r <| phase := Running g |>) SHUTTING_DOWN
        | Ok frames =>
            let pt := MkSavePoint event (next_turn g - 1) (history g) frontier in
            let g := g <| saves ::= λ s,
              s <| save_rounds ::= <[event := MkSaveRound pt now []]> |>
                <| last_save := Some now |> <| last_point := Some pt |> |> in
            publish (r <| phase := Running g |>) frames
        end
  end.

Definition upload_stalled (now : Instant) (u : Upload) : bool :=
  let waited := saturating_duration_since now (asked u) in
  if receiving u then upload_deadline (saved_size (upload_world u)) <=? waited
  else UPLOAD_START <=? waited.

Definition run_saves (r : room) (now : Instant) : room :=
  match snapshots r, phase r with
  | Some config, Running g =>
      let is_ready event :=
        match save_rounds (saves g) !! event with
        | Some round => (SAVE_DEADLINE <=? saturating_duration_since now (round_opened round))
                        || save_complete (members r) round
        | None => false
        end in
      let ready := List.filter is_ready (btree_keys (save_rounds (saves g))) in
      let stalled := (u ← upload (saves g); if upload_stalled now u then Some u else None) in
      let g := match stalled with
               | None => g
               | Some u => g <| saves ::= λ s, failed_uploader (s <| upload := None |>) (upload_from u) |>
               end in
      let r := foldl (λ r event, decide_save r event now) (r <| phase := Running g |>) ready in
      let r :=
        match stalled with
        | None => r
        | Some u =>
            let r :=
              if receiving u then
                match position (λ m, player m =? upload_from u) (members r) with
                | None => r
                | Some index =>
                    match members r !! index ≫= link with
                    | None => r
                    | Some l =>
                        update_member (emit r (OClose l SLOW_CONSUMER)) index
                          (λ m, m <| link := None |> <| streaming := false |> <| pace := CatchingUp None |>)
                    end
                end
              else r in
            ask_for_upload r (upload_point u) (rest u) now
        end in
      save_if_due r config now
  | _, _ => r
  end.

(** ** Departures *)

Definition discard_game (r : room) : room :=
  let r := cancel_compaction r in
  let r := match room_log r with
           | None => r
           | Some _ => emit (r <| room_log := None |>) ODeleteLog
           end in
  let r := if data_dir r then emit r ORemovePointer else r in
  match snapshots r, phase r with
  | Some _, Running g => release_in_background r (held (saves g))
  | _, _ => r
  end.

Definition after_departure (r : room) (p : PlayerId) : room :=
  match members r with
  | [] => (discard_game r) <| closed := true |>
  | first :: _ =>
      let r := if owner r =? p then r <| owner := player first |> else r in
      broadcast_view r
  end.

Definition leave (r : room) (p : PlayerId) (kicked : bool) : room * result unit RequestError :=
  match position (λ m, player m =? p) (members r) with
  | None => (r, Err NotInRoom)
  | Some index =>
      match members r !! index with
      | None => (r, Err NotInRoom)
      | Some m =>
          let r := r <| members := delete index (members r) |> in
          let r := match link m with
                   | Some l => if streaming m then (try_send r (OTurns l FeedClose)).1 else r
                   | None => r
                   end in
          let r := match phase r with
                   | Lobby => r
                   | Running g =>
                       let '(g, rules) := append g (PlayerLeft p kicked) (ruleset r) in
                       r <| phase := Running g |> <| ruleset := rules |>
                   end in
          (after_departure r p, Ok tt)
      end
  end.

Definition kick (r : room) (by_player target : PlayerId) : room * result unit RequestError :=
  if negb (by_player =? owner r) then (r, Err NotOwner)
  else if target =? by_player then (r, Err CannotKickSelf)
  else
    match position (λ m, player m =? target) (members r) with
    | None => (r, Err NoSuchPlayer)
    | Some index =>
        let r := push r index Kicked in
        let r := if Z.of_nat (size (banned r)) <? MAX_BANNED
                 then r <| banned := {[target]} ∪ banned r |> else r in
        leave r target true
    end.

Definition disconnected (r : room) (p : PlayerId) (l : LinkId) : room :=
  match position (λ m, (player m =? p) && is_none_or (link m) (λ x, x =? l)) (members r) with
  | None => r
  | Some index =>
      match phase r with
      | Lobby => after_departure (r <| members := delete index (members r) |>) p
      | Running _ =>
          broadcast_view (update_member r index (λ m,
            m <| link := None |> <| streaming := false |> <| pace := CatchingUp None |>))
      end
  end.

Definition chat (r : room) (p : PlayerId) (text : Text) (now : Instant) :
    room * result unit RequestError :=
  match position (λ m, player m =? p) (members r) with
  | None => (r, Err NotInRoom)
  | Some index =>
      match members r !! index with
      | None => (r, Err NotInRoom)
      | Some m =>
          let '(bucket, granted) := TokenBucket_take (chats m) now 1 in
          let r := update_member r index (λ m, m <| chats := bucket |>) in
          if negb granted then (r, Err RequestRateLimited)
          else (for_members r (λ r i, push r i (Chat p text)), Ok tt)
      end
  end.

(** ** Intents *)

Definition intent (r : room) (p : PlayerId) (client_seq : Z) (payload : Payload) (now : Instant) : room :=
  match position (λ m, player m =? p) (members r) with
  | None => r
  | Some index =>
      match members r !! index with
      | None => r
      | Some m =>
          let '(r, rejection) :=
            match phase r with
            | Lobby => (r, Some RejectedGameNotRunning)
            | Running g =>
                let '(bucket, granted) := TokenBucket_take (intents m) now 1 in
                let r := update_member r index (λ m, m <| intents := bucket |>) in
                if negb granted then (r, Some RejectedRateLimited)
                else
                  let '(bytes, granted) := TokenBucket_take (payload_bytes m) now (Z.of_nat (length payload)) in
                  let r := update_member r index (λ m, m <| payload_bytes := bytes |>) in
                  if negb granted then (r, Some RejectedRateLimited)
                  else
                    match validate (ruleset r) p payload with
                    | Err code => (r, Some (Refused code))
                    | Ok _ =>
                        let '(g, rules) := append g (Command p client_seq payload) (ruleset r) in
                        (r <| phase := Running g |> <| ruleset := rules |>, None)
                    end
            end in
          match rejection with
          | None => r
          | Some reason => push r index (IntentRejected client_seq reason)
          end
      end
  end.

(** ** Joining *)

(** Whether a player may come in, and the guard after the question. *)
Definition admit_player (r : room) (p : PlayerId) (seated : bool) (token : Z)
    (password : option Text) (now : Instant) : room * bool :=
  match check_secrets hmac_verify (secrets r) (room_id r) token password with
  | Admits =>
      if seated then (r, true)
      else
        let '(g, is_open) := guard_open (password_guard r) now in
        (r <| password_guard := g |>, is_open)
  | WrongPassword =>
      if seated then (r, false)
      else (r <| password_guard := guard_failed (password_guard r) now |>, false)
  | WrongInvite => (r, false)
  end.

(** How a seated member comes back. *)
Inductive Rejoin := RejoinLobby | RejoinStream (feed : TurnFeed) | RejoinWorld.

Definition rejoin_of (r : room) (resume : option Resume) (content : option ContentFingerprint) :
    result Rejoin RequestError :=
  match phase r with
  | Lobby => Ok RejoinLobby
  | Running g =>
      if bool_decide (is_Some content) && negb (bool_decide (content = room_content r))
      then Err ContentMismatch
      else if bool_decide (resume = None) && bool_decide (is_Some (snapshots r)) then Ok RejoinWorld
      else
        let? feed := resume_feed g (room_id r) (settings r) (room_rules r) resume in
        Ok (RejoinStream feed)
  end.

(** The new connection takes over the seat. *)
Definition take_seat (r : room) (index : nat) (new : NewMember) (rejoin : Rejoin) (now : Instant) : room :=
  let r := match members r !! index ≫= link with
           | Some old => if negb (old =? new_link new) then emit r (OClose old REPLACED) else r
           | None => r
           end in
  let r := update_member r index (λ m, m <| link := None |> <| name := new_name new |>
    <| platform := new_platform new |> <| streaming := false |> <| offered := None |>) in
  let r := match rejoin with
           | RejoinLobby => r
           | RejoinStream feed =>
               let r := update_member r index (λ m, m <| pace := CatchingUp None |>
                 <| needs := NeedsNothing |>
                 <| stream_from := match feed with
                                   | FeedOpen start _ => start_next_event start
                                   | _ => stream_from m
                                   end |>) in
               let '(r, sent) := try_send r (OTurns (new_link new) feed) in
               update_member r index (λ m, m <| streaming := is_sent sent |>)
           | RejoinWorld =>
               update_member r index (λ m, m <| pace := CatchingUp None |> <| needs := NeedsWorld |>)
           end in
  let r := update_member r index (λ m, m <| link := Some (new_link new) |>) in
  offer_worlds r now.

(** A newcomer, who is not seated yet. *)
Definition seat_newcomer (r : room) (new : NewMember) (content : option ContentFingerprint)
    (now : Instant) : room * result RoomView RequestError :=
  let full := max_players r <=? Z.of_nat (length (members r)) in
  match phase r with
  | Running g =>
      if bool_decide (snapshots r = None) then (r, Err GameRunning)
      else if full then (r, Err RoomFull)
      else if bool_decide (content = None) || negb (bool_decide (content = room_content r))
      then (r, Err ContentMismatch)
      else
        let '(g, rules) := append g (PlayerJoined (new_player new) (new_name new) (new_platform new)) (ruleset r) in
        let r := r <| phase := Running g |> <| ruleset := rules |> in
        let m := (Member_new new now) <| ready := true |> <| m_content := content |>
                   <| needs := NeedsWorld |> in
        let r := offer_worlds (r <| members := members r ++ [m] |>) now in
        (r, Ok (view r))
  | Lobby =>
      if full then (r, Err RoomFull)
      else
        let r := r <| members := members r ++ [Member_new new now] |> in
        (r, Ok (view r))
  end.

Definition join (r : room) (new : NewMember) (token : Z) (password : option Text)
    (resume : option Resume) (content : option ContentFingerprint) (now : Instant) :
    room * result RoomView RequestError :=
  if bool_decide (new_player new ∈ banned r) then (r, Err BadInvite)
  else
    let seat := position (λ m, player m =? new_player new) (members r) in
    let '(r, admitted) := admit_player r (new_player new) (bool_decide (is_Some seat)) token password now in
    if negb admitted then (r, Err BadInvite)
    else
      match seat with
      | Some index =>
          match rejoin_of r resume content with
          | Err e => (r, Err e)
          | Ok rejoin => let r := take_seat r index new rejoin now in (r, Ok (view r))
          end
      | None => seat_newcomer r new content now
      end.

(** ** The lobby *)

Definition in_lobby (r : room) (p : PlayerId) : result nat RequestError :=
  match phase r with
  | Running _ => Err GameRunning
  | Lobby => ok_or (position (λ m, player m =? p) (members r)) NotInRoom
  end.

(** Both return whether anything changed. *)
Definition set_ready (r : room) (p : PlayerId) (is_ready : bool) : room * result bool RequestError :=
  match in_lobby r p with
  | Err e => (r, Err e)
  | Ok index =>
      let was := default false (ready <$> members r !! index) in
      (update_member r index (λ m, m <| ready := is_ready |>), Ok (negb (Bool.eqb was is_ready)))
  end.

Definition declare_content (r : room) (p : PlayerId) (content : ContentFingerprint) :
    room * result bool RequestError :=
  match in_lobby r p with
  | Err e => (r, Err e)
  | Ok index =>
      let was := members r !! index ≫= m_content in
      (update_member r index (λ m, m <| m_content := Some content |>),
       Ok (negb (bool_decide (was = Some content))))
  end.

(** Everyone at the table joins the log, in join order. *)
Definition seat_all (members : list Member) (g : Game) (rules : R) : Game * R :=
  foldl (λ gr m, append gr.1 (PlayerJoined (player m) (name m) (platform m)) gr.2) (g, rules) members.

Definition start_member (open : TurnStart) (shared_world : bool) (r : room) (index : nat) : room :=
  match members r !! index with
  | None => r
  | Some m =>
      let r := update_member r index (λ m, m <| pace := Loading |> <| stream_from := 1 |>
                                             <| streaming := false |>) in
      if shared_world && negb (player m =? owner r) then
        update_member r index (λ m, m <| needs := NeedsWorld |>)
      else
        let r := update_member r index (λ m, m <| needs := NeedsNothing |>) in
        match link m with
        | None => r
        | Some l =>
            let '(r, sent) := try_send r (OTurns l (FeedOpen open [])) in
            update_member r index (λ m, m <| streaming := is_sent sent |>)
        end
  end.

(** [history_id] is the fresh random history. *)
Definition start (r : room) (p : PlayerId) (history_id : Z) (now : Instant) :
    room * result unit RequestError :=
  if negb (p =? owner r) then (r, Err NotOwner)
  else
    match phase r with
    | Running _ => (r, Err GameRunning)
    | Lobby =>
        if negb (forallb ready (members r)) then (r, Err NotAllReady)
        else
          let first_content := head (members r) ≫= m_content in
          if bool_decide (first_content = None)
             || existsb (λ m, negb (bool_decide (m_content m = first_content))) (members r)
          then (r, Err ContentMismatch)
          else
            let '(g, rules) := seat_all (members r) (Game_new (settings r) history_id now) (ruleset r) in
            let r := r <| ruleset := rules |> in
            let first := MkStream (next_turn g) 1 0 [] in
            let open := turn_start g (room_id r) (settings r) (room_rules r) first None in
            let r := r <| room_content := first_content |> in
            let shared_world := bool_decide (is_Some (snapshots r)) in
            let r := for_members r (start_member open shared_world) in
            let r := r <| phase := Running g |> in
            let r := if shared_world && (1 <? length (members r))%nat then offer_worlds r now else r in
            (open_log r (history g), Ok tt)
    end.

(** ** The clock *)

Definition expire_if_abandoned (r : room) (now : Instant) : room :=
  match phase r with
  | Lobby => r
  | Running _ =>
      if existsb (λ m, bool_decide (is_Some (link m))) (members r)
      then r <| unattended_since := None |>
      else
        let since := default now (unattended_since r) in
        let r := r <| unattended_since := Some since |> in
        if saturating_duration_since now since <? abandoned (timeouts r) then r
        else (discard_game r) <| closed := true |>
  end.

(** Every round frees a seat, so as many rounds as there are members end it. *)
Fixpoint sweep_seats (fuel : nat) (r : room) : room :=
  match fuel with
  | O => r
  | S fuel =>
      match position (λ m, bool_decide (link m = None)) (members r) with
      | None => r
      | Some index =>
          match members r !! index with
          | None => r
          | Some m =>
              let r := after_departure (r <| members := delete index (members r) |>) (player m) in
              if closed r then r else sweep_seats fuel r
          end
      end
  end.

Definition sweep_lobby (r : room) : room :=
  match phase r with
  | Lobby => sweep_seats (length (members r)) r
  | Running _ => r
  end.

(** Advances the clock and seals what is due. *)
Definition seal_tick (r : room) (now : Instant) : room :=
  match phase r with
  | Lobby => r
  | Running g =>
      let elapsed := saturating_duration_since now (last_tick g) in
      let g := g <| last_tick := now |> in
      let '(p, frontier) :=
        advance (pacer g) elapsed (speed g) (slowest_pacer (members r)) (sealed_through g) in
      let g := g <| pacer := p |> in
      if (frontier =? sealed_through g) && bool_decide (pending g = []) && (speed g =? announced_speed g)
      then r <| phase := Running g |>
      else
        let '(g, frames) := seal g frontier in
        match frames with
        | Err _ => close_all (r <| phase := Running g |>) SHUTTING_DOWN
        | Ok frames => publish (r <| phase := Running g |>) frames
        end
  end.

Definition on_tick (r : room) (now : Instant) : room :=
  let r := sweep_lobby r in
  let r := expire_if_abandoned r now in
  if closed r then r
  else
    let r := decide_waiting_rounds r now in
    let r := demote_stalled r now in
    let r := run_saves r now in
    if closed r then r else seal_tick r now.

(** ** Commands *)

Inductive RoomCommand :=
  | CmdJoin (member : NewMember) (token : Z) (password : option Text) (resume : option Resume)
      (content : option ContentFingerprint)
  | CmdLeave (player : PlayerId)
  | CmdDisconnected (player : PlayerId) (link : LinkId)
  | CmdSetReady (player : PlayerId) (ready : bool)
  | CmdDeclareContent (player : PlayerId) (content : ContentFingerprint)
  | CmdStart (player : PlayerId) (history : Z)
  | CmdSetSpeed (player : PlayerId) (speed : Speed)
  | CmdKick (player target : PlayerId)
  | CmdIsMember (player : PlayerId)
  | CmdChat (player : PlayerId) (text : Text)
  | CmdIntent (player : PlayerId) (client_seq : Z) (payload : Payload)
  | CmdProgress (player : PlayerId) (link : LinkId) (step : Z)
  | CmdCheckpoint (player : PlayerId) (link : LinkId) (step : Z) (lanes : list LaneDigest)
  | CmdSaved (player : PlayerId) (link : LinkId) (event : Z) (lanes : list LaneDigest)
      (world : option SavedWorld)
  | CmdFetch (player : PlayerId) (link : LinkId) (snapshot : SnapshotId)
  | CmdUpload (player : PlayerId) (link : LinkId) (snapshot : SnapshotId)
  | CmdUploaded (player : PlayerId) (snapshot : SnapshotId) (result : result Manifest string).

(** What the sender hears back. *)
Inductive Reply :=
  | NoReply
  | ReplyDone (result : result unit RequestError)
  | ReplyView (result : result RoomView RequestError)
  | ReplyManifest (manifest : option Manifest)
  | ReplyBool (answer : bool).

Definition answer_and_broadcast (rr : room * result unit RequestError) : room * Reply :=
  (if is_ok rr.2 then broadcast_view rr.1 else rr.1, ReplyDone rr.2).

Definition answer_and_broadcast_if_changed (rr : room * result bool RequestError) : room * Reply :=
  (match rr.2 with Ok true => broadcast_view rr.1 | _ => rr.1 end,
   ReplyDone (let? _ := rr.2 in Ok tt)).

Definition handle (r : room) (now : Instant) (command : RoomCommand) : room * Reply :=
  match command with
  | CmdJoin member token password resume content =>
      let '(r, result) := join r member token password resume content now in
      (if is_ok result then broadcast_view r else r, ReplyView result)
  | CmdLeave p => let '(r, result) := leave r p false in (r, ReplyDone result)
  | CmdDisconnected p l => (disconnected r p l, NoReply)
  | CmdSetReady p b => answer_and_broadcast_if_changed (set_ready r p b)
  | CmdDeclareContent p c => answer_and_broadcast_if_changed (declare_content r p c)
  | CmdStart p h => answer_and_broadcast (start r p h now)
  | CmdSetSpeed p s => let '(r, result) := set_speed r p s in (r, ReplyDone result)
  | CmdKick p t => let '(r, result) := kick r p t in (r, ReplyDone result)
  | CmdIsMember p =>
      (r, ReplyDone (if existsb (λ m, player m =? p) (members r) then Ok tt else Err NotInRoom))
  | CmdChat p t => let '(r, result) := chat r p t now in (r, ReplyDone result)
  | CmdIntent p s b => (intent r p s b now, NoReply)
  | CmdProgress p l s => (progress r p l s now, NoReply)
  | CmdCheckpoint p l s lns => (checkpoint r p l s lns now, NoReply)
  | CmdSaved p l e lns w => (saved r p l e lns w now, NoReply)
  | CmdFetch p l s => (r, ReplyManifest (fetchable r p l s))
  | CmdUpload p l s => let '(r, answer) := upload_starts r p l s in (r, ReplyBool answer)
  | CmdUploaded p s result => (uploaded r p s result now, NoReply)
  end.

(** One turn of the room's loop. *)
Inductive RoomStep :=
  | StepCommand (command : RoomCommand)
  | StepTick
  | StepCompacted (done : result RoomLog IoError) (renamed : bool).

Definition step_room (r : room) (now : Instant) (s : RoomStep) : room :=
  match s with
  | StepCommand c => (handle r now c).1
  | StepTick => on_tick r now
  | StepCompacted done renamed => finish_compaction r done renamed
  end.

(** The loop ends once the room has closed. *)
Fixpoint run_room (r : room) (steps : list (Instant * RoomStep)) : room :=
  match steps with
  | [] => r
  | (now, s) :: steps => if closed r then r else run_room (step_room r now s) steps
  end.

End room.

(** A room as its owner creates it. *)
Definition Room_new {R} (id : RoomId) (room_name rules : Text) (max_players : Z)
    (settings : RoomSettings) (secrets : RoomSecrets) (ruleset : R) (data_dir : bool)
    (timeouts : Timeouts) (snapshots : option SnapshotsConfig) (compact_log_at : Z)
    (creator : NewMember) (now : Instant) : Room R :=
  {| room_id := id;
     room_name := room_name;
     room_rules := rules;
     owner := new_player creator;
     max_players := max_players;
     settings := settings;
     secrets := secrets;
     members := [Member_new creator now];
     phase := Lobby;
     ruleset := ruleset;
     data_dir := data_dir;
     timeouts := timeouts;
     room_log := None;
     compaction := None;
     compact_at := compact_log_at;
     compact_log_at := compact_log_at;
     unattended_since := None;
     password_guard := PasswordGuard_new now;
     banned := ∅;
     room_content := None;
     snapshots := snapshots;
     closed := false;
     out := [];
     calls := 0%nat |}.

Definition held_snapshots {R} (r : Room R) : list ManifestId :=
  match phase r with Running g => held (saves g) | Lobby => [] end.
