(* ===== verification/RoomInv.v ===== *)
(** What holds of a room whatever its members do: the invariant of [Room] and
    that every step of the room's loop keeps it. *)
From S2P Require Import Prelude Proto TurnLog Codec Pacing Limit Verdict Snapshots Ruleset Game Persist Room.
Local Open Scope Z_scope.

(** * Quiet steps

    Most of what a room does touches neither who sits at the table nor the
    game's log: messages, pacing, checkpoint and save rounds, uploads.  Such a
    step is quiet. *)

(** Games with the same log and table. *)
Record same_game (g g' : Game) : Prop := {
  sg_sealed : sealed_through g' = sealed_through g;
  sg_turn : next_turn g' = next_turn g;
  sg_event : next_event g' = next_event g;
  sg_pending : pending g' = pending g;
  sg_log : log g' = log g;
  sg_first : log_first_turn g' = log_first_turn g;
  sg_before : sealed_before_log g' = sealed_before_log g;
  sg_bytes : log_bytes g' = log_bytes g;
  sg_window : resume_window g' = resume_window g;
  sg_histories : histories g' = histories g;
  sg_seated : seated g' = seated g;
}.

#[export] Instance same_game_preorder : PreOrder same_game.
Proof.
  split; [by intros g; split |]. intros g1 g2 g3 [] []. split; etransitivity; eassumption.
Qed.

Definition same_phase (p p' : Phase) : Prop :=
  match p, p' with
  | Lobby, Lobby => True
  | Running g, Running g' => same_game g g'
  | _, _ => False
  end.

#[export] Instance same_phase_preorder : PreOrder same_phase.
Proof.
  split; [by intros []; [| simpl; reflexivity] |].
  intros [| g1] [| g2] [| g3]; simpl; try done. apply transitivity.
Qed.

(** Who sits at the table, and on which connection. *)
Definition seats {R} (r : Room R) : list (PlayerId * option LinkId) :=
  (λ m, (player m, link m)) <$> members r.

(** Every connection in [r'] was in [r], in the same player's seat, or is the newcomer's. *)
Definition seated_from {R} (newcomers : list (PlayerId * LinkId)) (r r' : Room R) : Prop :=
  ∀ p l, (p, Some l) ∈ seats r' → (p, Some l) ∈ seats r ∨ (p, l) ∈ newcomers.

#[export] Instance seated_from_preorder {R} newcomers : PreOrder (@seated_from R newcomers).
Proof. split; [by intros r p l; left |]. intros r1 r2 r3 H1 H2 p l [H | H]%H2; [by apply H1 | by right]. Qed.

Record quiet_but {R} (newcomers : list (PlayerId * LinkId)) (r r' : Room R) : Prop := {
  q_players : player <$> members r' = player <$> members r;
  q_owner : owner r' = owner r;
  q_max : max_players r' = max_players r;
  q_banned : banned r' = banned r;
  q_ruleset : ruleset r' = ruleset r;
  q_phase : same_phase (phase r) (phase r');
  q_closed : closed r' = closed r;
  q_seats : seated_from newcomers r r';
  q_id : room_id r' = room_id r;
  q_unattended : unattended_since r' = unattended_since r;
  q_timeouts : timeouts r' = timeouts r;
}.
Arguments q_players {R newcomers} r r'.
Arguments q_owner {R newcomers} r r'.
Arguments q_max {R newcomers} r r'.
Arguments q_banned {R newcomers} r r'.
Arguments q_ruleset {R newcomers} r r'.
Arguments q_phase {R newcomers} r r'.
Arguments q_closed {R newcomers} r r'.
Arguments q_seats {R newcomers} r r'.
Arguments q_id {R newcomers} r r'.
Arguments q_unattended {R newcomers} r r'.
Arguments q_timeouts {R newcomers} r r'.
Abbreviation quiet := (quiet_but []).

#[export] Instance quiet_preorder {R} newcomers : PreOrder (@quiet_but R newcomers).
Proof.
  split; [intros r; split; done || reflexivity |].
  intros r1 r2 r3 [] []. split; try (etransitivity; eassumption).
Qed.

Create HintDb room.

(** Solves [quiet] goals between two concrete rooms. *)
Ltac quiet_fields := split; cbn; try reflexivity; try done; try (by intros ???; left).

Section quiet.
Context {R : Type} {RS : Ruleset R} {P : Postcard TurnMessage} {PS : Postcard StartRecord}.
Context (hmac_verify : list Z → list Z → list Z → bool) (crc : list Z → Z).
Context (outcome : nat → SendOutcome) (disk : nat → WriteOutcome).
Abbreviation room := (Room R).
Implicit Types r : room.

Lemma quiet_emit r o : quiet r (emit r o).
Proof. quiet_fields. Qed.

Lemma quiet_try_send r o : quiet r (try_send outcome r o).1.
Proof. unfold try_send. cbn. destruct (outcome (calls r)); quiet_fields. Qed.

Lemma fmap_alter {A B} (f : A → B) (g : A → A) (l : list A) i :
  (∀ a, f (g a) = f a) → f <$> alter g i l = f <$> l.
Proof.
  intros H. revert i. induction l as [| a l IH]; intros [| i]; csimpl; [done.. | by rewrite H |].
  f_equal. apply IH.
Qed.

Lemma alter_elem {A} (f : A → A) (l : list A) i x : x ∈ alter f i l → x ∈ l ∨ ∃ y, y ∈ l ∧ x = f y.
Proof.
  intros [j Hj]%list_elem_of_lookup. destruct (Nat.eq_dec j i) as [-> | Hi].
  - rewrite list_lookup_alter_eq in Hj. destruct (l !! i) as [y |] eqn:E; simplify_eq/=.
    right. exists y. split; [by eapply list_elem_of_lookup_2 | done].
  - rewrite list_lookup_alter_ne in Hj by done. left. by eapply list_elem_of_lookup_2.
Qed.

(** A seat may change its connection to none. *)
Lemma quiet_unlink r i f :
  (∀ m, player (f m) = player m) → (∀ m, link (f m) = link m ∨ link (f m) = None) → quiet r (update_member r i f).
Proof.
  intros Hp Hl. quiet_fields; [by apply fmap_alter |].
  intros p l (m & E & [Hm | (m' & Hm & ->)]%alter_elem)%list_elem_of_fmap; left; apply list_elem_of_fmap.
  - by exists m.
  - exists m'. split; [| done]. rewrite Hp in E. destruct (Hl m'); congruence.
Qed.

Lemma quiet_update r i f :
  (∀ m, (player (f m), link (f m)) = (player m, link m)) → quiet r (update_member r i f).
Proof. intros H. apply quiet_unlink; intros m; specialize (H m); [congruence |]. left. congruence. Qed.

Lemma quiet_phase r g g' :
  phase r = Running g → same_game g g' → quiet r (r <| phase := Running g' |>).
Proof. intros H Hg. quiet_fields. by rewrite H. Qed.

Lemma quiet_drop_link r i slow : quiet r (drop_link r i slow).
Proof.
  unfold drop_link. destruct (_ ≫= _); [| reflexivity].
  etransitivity; [| apply quiet_unlink; intros m; [done | by right]].
  destruct slow; [apply quiet_emit | reflexivity].
Qed.

Lemma quiet_push r i msg : quiet r (push outcome r i msg).
Proof.
  unfold push. destruct (_ ≫= _) as [l |]; [| reflexivity].
  pose proof (quiet_try_send r (OControl l msg)) as H.
  destruct (try_send outcome r (OControl l msg)) as [r' []]; [done | |];
    (etransitivity; [exact H | apply quiet_drop_link]).
Qed.

Lemma quiet_send_turn r i feed : quiet r (send_turn outcome r i feed).
Proof.
  unfold send_turn. destruct (_ ≫= _) as [l |]; [| reflexivity].
  pose proof (quiet_try_send r (OTurns l feed)) as H.
  destruct (try_send outcome r (OTurns l feed)) as [r' []]; [done | |];
    (etransitivity; [exact H | apply quiet_drop_link]).
Qed.

Lemma quiet_foldl {A} (f : room → A → room) (l : list A) r :
  (∀ r a, quiet r (f r a)) → quiet r (foldl f r l).
Proof.
  intros H. revert r. induction l as [| a l IH]; intros r; [reflexivity |].
  etransitivity; [apply H | apply IH].
Qed.

Lemma quiet_for_members r f : (∀ r i, quiet r (f r i)) → quiet r (for_members r f).
Proof. intros H. by apply quiet_foldl. Qed.

Lemma quiet_broadcast r : quiet r (broadcast_view outcome r).
Proof. apply quiet_for_members. intros. apply quiet_push. Qed.

Lemma quiet_offer_world o now r e : quiet r (offer_world outcome o now r e).
Proof.
  destruct e as [i [feed from]]. unfold offer_world. destruct (_ ≫= _) as [l |]; [| reflexivity].
  pose proof (quiet_try_send r (OTurns l feed)) as H.
  destruct (try_send outcome r (OTurns l feed)) as [r' s]. cbn [fst] in H.
  assert (H1 : quiet r (update_member r' i (λ m, m <| streaming := is_sent s |>)))
    by (etransitivity; [exact H | by apply quiet_update]).
  destruct (is_sent s); [| done]. etransitivity; [exact H1 |]. apply quiet_update.
  intros m. cbn. destruct (needs m); cbn; by destruct (bool_decide _).
Qed.

Lemma quiet_offer_worlds r now : quiet r (offer_worlds outcome r now).
Proof.
  unfold offer_worlds. destruct (phase r) as [| g] eqn:Hp; [reflexivity |].
  etransitivity; [| apply quiet_foldl; intros; apply quiet_offer_world].
  by apply (quiet_phase r g).
Qed.

Lemma quiet_announce_one r now step notice : quiet r (announce_one outcome r now step notice).
Proof.
  destruct notice as [p lns]. unfold announce_one. destruct (position _ _) as [i |]; [| reflexivity].
  etransitivity; [apply quiet_push |]. apply quiet_update. intros m. by destruct (_ && _).
Qed.

Lemma quiet_announce r now step notices : quiet r (announce_divergence outcome r now step notices).
Proof.
  unfold announce_divergence. case_bool_decide; [reflexivity |].
  etransitivity; [| apply quiet_offer_worlds]. apply quiet_foldl. intros. apply quiet_announce_one.
Qed.

Lemma same_game_close_rounds l g : same_game g (foldl close_round g l).
Proof.
  revert g. induction l as [| s l IH]; intros g; [reflexivity |].
  etransitivity; [| apply IH]. by split.
Qed.

Lemma same_game_prune g : same_game g (prune_rounds g).
Proof. apply same_game_close_rounds. Qed.

Lemma quiet_checkpoint r p l step lns now : quiet r (checkpoint outcome r p l step lns now).
Proof.
  unfold checkpoint. destruct (phase r) as [| g] eqn:Hp; [reflexivity |].
  destruct (position _ _) as [i |]; [| reflexivity].
  destruct (_ || _ || _); [reflexivity |]. destruct (_ && _); [reflexivity |].
  destruct (_ && _); [reflexivity |]. destruct (existsb _ _); [by apply (quiet_phase r g) |].
  destruct (members r !! i) as [m |]; [| reflexivity]. destruct (add_report _ _ _) as [round notices].
  etransitivity; [| apply quiet_announce]. apply (quiet_phase r g); [done |].
  etransitivity; [| apply same_game_prune]. by split.
Qed.

Lemma same_game_judge ms now acc step : same_game acc.1.1 (judge_round ms now acc step).1.1.
Proof.
  destruct acc as [[g decided] expired]. unfold judge_round.
  destruct (rounds g !! step) as [round |]; [| reflexivity].
  case_bool_decide; [reflexivity |]. destruct (_ && _).
  - destruct (decide_round round). by split.
  - by destruct (_ <=? _).
Qed.

Lemma same_game_judged ms now l acc : same_game acc.1.1 (foldl (judge_round ms now) acc l).1.1.
Proof.
  revert acc. induction l as [| s l IH]; intros acc; [reflexivity |].
  etransitivity; [apply same_game_judge | apply IH].
Qed.

Lemma quiet_decide_waiting r now : quiet r (decide_waiting_rounds outcome r now).
Proof.
  unfold decide_waiting_rounds. destruct (phase r) as [| g] eqn:Hp; [reflexivity |].
  pose proof (same_game_judged (members r) now (btree_keys (rounds g)) (g, [], [])) as Hj.
  destruct (foldl _ (g, [], []) _) as [[g1 decided] expired]. cbn [fst] in Hj.
  assert (Hg : same_game g (foldl close_round g1 expired))
    by (etransitivity; [exact Hj | apply same_game_close_rounds]).
  case_bool_decide; [by apply (quiet_phase r g) |].
  etransitivity; [| apply quiet_foldl; intros; apply quiet_announce].
  apply (quiet_phase r g); [done |]. etransitivity; [exact Hg | apply same_game_prune].
Qed.

Lemma quiet_set_speed r p sp : quiet r (set_speed r p sp).1.
Proof.
  unfold set_speed. destruct (negb _); [reflexivity |].
  destruct (phase r) as [| g] eqn:Hp; [reflexivity |]. destruct (_ <? _); [reflexivity |].
  by apply (quiet_phase r g).
Qed.

Lemma quiet_progress r p l step now : quiet r (progress r p l step now).
Proof.
  unfold progress. destruct (phase r) as [| g] eqn:Hp; [reflexivity |].
  destruct (position _ _) as [i |]; [| reflexivity]. destruct (_ <? _).
  - etransitivity; [apply quiet_emit | apply quiet_unlink; intros m; [done | by right]].
  - apply quiet_update. intros m. cbn. by destruct (match pace m with Loading => _ | _ => _ end).
Qed.

Lemma quiet_demote r now : quiet r (demote_stalled r now).
Proof.
  unfold demote_stalled. destruct (phase r) as [| g] eqn:Hp; [reflexivity |].
  set (f := demote _ _ _ _ _).
  assert (∀ m, (player (f m), link (f m)) = (player m, link m)) as Hf.
  { intros m. subst f. unfold demote. destruct (negb _); [done |]. destruct (is_paused _); [done |].
    by destruct (match pace m with Loading => _ | _ => _ end). }
  quiet_fields.
  - rewrite <- list_fmap_compose. apply list_fmap_ext. intros i m _. cbn. specialize (Hf m). congruence.
  - intros p l. unfold seats. cbn. rewrite <- list_fmap_compose.
    rewrite (list_fmap_ext _ (λ m, (player m, link m)) (members r)); [by left |]. intros i m _. apply Hf.
Qed.

Lemma quiet_start_compaction r : quiet r (start_compaction r).
Proof.
  unfold start_compaction. case_bool_decide; [reflexivity |].
  destruct (data_dir r), (room_log r) as [l |], (phase r) as [| g] eqn:Hp; try reflexivity.
  destruct (_ || _); [reflexivity |]. destruct (save_rules _); quiet_fields.
Qed.

Lemma quiet_finish_compaction r done renamed : quiet r (finish_compaction crc disk r done renamed).
Proof.
  unfold finish_compaction. destruct (compaction r) as [c |]; [| reflexivity].
  destruct done as [l | e]; [| quiet_fields].
  destruct (append_all _ _ _ _) as [l' [] ]; [| quiet_fields].
  destruct (install renamed l') as [l'' []]; quiet_fields.
Qed.

Lemma quiet_publish r frames : quiet r (publish crc outcome disk r frames).
Proof.
  unfold publish. etransitivity; [| apply quiet_start_compaction].
  etransitivity; [| apply quiet_foldl; intros r' f; apply quiet_for_members; intros r'' i;
    destruct (default _ _); [apply quiet_send_turn | reflexivity]].
  destruct (room_log r) as [l |].
  - destruct (append_all _ _ _ _) as [l' done]. cbn. destruct (compaction r); quiet_fields.
  - destruct (compaction r); quiet_fields.
Qed.

Lemma quiet_promote r now a : quiet r (promote outcome r now a).
Proof.
  unfold promote. destruct (phase r) as [| g] eqn:Hp; [reflexivity |].
  etransitivity; [| apply quiet_offer_worlds].
  set (g' := g <| saves ::= _ |>). assert (H : quiet r (r <| phase := Running g' |>))
    by (by apply (quiet_phase r g)).
  etransitivity; [exact H |]. case_bool_decide; [| reflexivity].
  etransitivity; [| apply quiet_emit]. destruct (data_dir _); [apply quiet_emit | reflexivity].
Qed.

Lemma quiet_ask_for_upload r pt cs now : quiet r (ask_for_upload outcome r pt cs now).
Proof.
  induction cs as [| [p w] cs IH]; cbn [ask_for_upload]; [reflexivity |].
  destruct (phase r) as [| g] eqn:Hp; [reflexivity |].
  destruct (manifest <$> _) as [mf |].
  - etransitivity; [| apply quiet_promote]. case_bool_decide; [apply quiet_emit | reflexivity].
  - destruct (position _ _) as [i |]; [| exact IH].
    etransitivity; [| apply quiet_push]. by apply (quiet_phase r g).
Qed.

Lemma quiet_decide_save r event now : quiet r (decide_save outcome r event now).
Proof.
  unfold decide_save. destruct (phase r) as [| g] eqn:Hp; [reflexivity |].
  destruct (save_rounds _ !! event) as [round |]; [| reflexivity].
  destruct (decide_saves _) as [cs diverged].
  etransitivity; [| apply quiet_ask_for_upload]. etransitivity; [| apply quiet_announce].
  by apply (quiet_phase r g).
Qed.

Lemma quiet_saved r p l event lns w now : quiet r (saved outcome r p l event lns w now).
Proof.
  unfold saved. destruct (position _ _) as [i |]; [| reflexivity].
  destruct (members r !! i) as [m |]; [| reflexivity].
  destruct (phase r) as [| g] eqn:Hp; [reflexivity |]. destruct (_ || _); [reflexivity |].
  destruct (save_rounds _ !! event) as [round |]; [| reflexivity].
  destruct (existsb _ _); [reflexivity |].
  destruct (save_complete _ _); [etransitivity; [| apply quiet_decide_save] |];
    by apply (quiet_phase r g).
Qed.

Lemma quiet_chat r p t now : quiet r (chat outcome r p t now).1.
Proof.
  unfold chat. destruct (position _ _) as [i |]; [| reflexivity].
  destruct (members r !! i) as [m |]; [| reflexivity].
  destruct (TokenBucket_take (chats m) now 1) as [b granted].
  assert (H : quiet r (update_member r i (λ m, m <| chats := b |>)))
    by (apply quiet_update; intros x; reflexivity).
  destruct granted; cbn; [| done]. etransitivity; [exact H |].
  apply quiet_for_members. intros. apply quiet_push.
Qed.

Lemma quiet_upload_starts r p l s : quiet r (upload_starts r p l s).1.
Proof.
  unfold upload_starts. destruct (phase r) as [| g] eqn:Hp; [reflexivity |].
  destruct (upload _) as [u |]; [| reflexivity]. destruct (_ && _); [| reflexivity].
  by apply (quiet_phase r g).
Qed.

Lemma quiet_release r ids : quiet r (release_in_background r ids).
Proof. unfold release_in_background. case_bool_decide; [reflexivity | apply quiet_emit]. Qed.

Lemma quiet_uploaded r p s res now : quiet r (uploaded outcome r p s res now).
Proof.
  unfold uploaded. destruct (phase r) as [| g] eqn:Hp; [reflexivity |].
  destruct (_ ≫= _) as [u |].
  - destruct res as [mf | e].
    + etransitivity; [| apply quiet_promote]. by apply (quiet_phase r g).
    + etransitivity; [| apply quiet_ask_for_upload]. by apply (quiet_phase r g).
  - destruct res, (snapshots r); try reflexivity. apply quiet_release.
Qed.

Lemma quiet_discard r : quiet r (discard_game r).
Proof.
  unfold discard_game.
  assert (H1 : quiet r (cancel_compaction r))
    by (unfold cancel_compaction; destruct (compaction r); [quiet_fields | reflexivity]).
  set (r1 := cancel_compaction r) in *.
  assert (H2 : quiet r1 (match room_log r1 with None => r1
    | Some _ => emit (r1 <| room_log := None |>) ODeleteLog end))
    by (destruct (room_log r1); [quiet_fields | reflexivity]).
  set (r2 := match room_log r1 with None => r1 | Some _ => _ end) in *.
  assert (H3 : quiet r2 (if data_dir r2 then emit r2 ORemovePointer else r2))
    by (destruct (data_dir r2); [apply quiet_emit | reflexivity]).
  set (r3 := if data_dir r2 then _ else _) in *.
  etransitivity; [exact H1 |]. etransitivity; [exact H2 |]. etransitivity; [exact H3 |].
  destruct (snapshots r3), (phase r3); try reflexivity. apply quiet_release.
Qed.
End quiet.

(** * The invariant *)

Definition players {R} (r : Room R) : list PlayerId := player <$> members r.

(** The game's whole story: every turn it sealed since it started, with the
    table and the rules as its events made them. *)
Definition game_run {R} {RS : Ruleset R} {P : Postcard TurnMessage} (fresh : R) (g : Game) (rules : R) : Prop :=
  ∃ all, game_ok g (MkPosition 1 1 0) all ∧
    let evs := (all ≫= events) ++ pending g in
    rules = apply_events fresh evs ∧ seated g = foldl seat [] evs.

(** The table: distinct players, no more than fit, and in a running game the
    players its events seated, in the same order. *)
Record table_ok {R} {RS : Ruleset R} {P : Postcard TurnMessage} (fresh : R) (r : Room R) : Prop := {
  ok_distinct : NoDup (players r);
  ok_count : Z.of_nat (length (members r)) ≤ max_players r;
  ok_phase : match phase r with
             | Lobby => ruleset r = fresh
             | Running g => game_run fresh g (ruleset r) ∧ seat_player <$> seated g = players r
             end;
}.

(** Nobody at the table is barred from it. *)
Definition banned_ok {R} (r : Room R) : Prop := ∀ p, p ∈ players r → p ∉ banned r.

(** A room is closed, or its table is in order, nobody at it is barred, and one
    of its members owns it. *)
Definition room_ok {R} {RS : Ruleset R} {P : Postcard TurnMessage} (fresh : R) (r : Room R) : Prop :=
  closed r = true ∨ (table_ok fresh r ∧ banned_ok r ∧ owner r ∈ players r).

Section invariant.
Context {R : Type} {RS : Ruleset R} {P : Postcard TurnMessage} {PS : Postcard StartRecord}.
Context (hmac_verify : list Z → list Z → list Z → bool) (crc : list Z → Z).
Context (outcome : nat → SendOutcome) (disk : nat → WriteOutcome).
Context (fresh : R).
Abbreviation room := (Room R).
Implicit Types r : room.

Lemma game_ok_same g g' p0 all : same_game g g' → game_ok g p0 all → game_ok g' p0 all.
Proof.
  intros [] [[Hl Hb Hf] Hp]. split.
  - unfold head_pos. split; [| congruence | done].
    destruct Hl as (gone & kept & p & E & Hc & Hlog & Ht & Hs).
    exists gone, kept, p. unfold head_pos in Hlog. repeat split; try done; congruence.
  - congruence.
Qed.

Lemma game_run_same g g' rules : same_game g g' → game_run fresh g rules → game_run fresh g' rules.
Proof.
  intros Hs (all & Hok & Hr & Hseat). exists all. split; [by eapply game_ok_same |].
  destruct Hs. cbn. rewrite sg_pending0, sg_seated0. done.
Qed.

Lemma table_ok_quiet {newcomers} r r' : quiet_but newcomers r r' → table_ok fresh r → table_ok fresh r'.
Proof.
  intros [Hpl Ho Hm Hb Hr Hp Hc] [Hd Hn Hph]. unfold players in *. split; unfold players.
  - by rewrite Hpl.
  - apply (f_equal length) in Hpl. rewrite !length_fmap in Hpl. rewrite Hpl. lia.
  - rewrite Hr. destruct (phase r) as [| g], (phase r') as [| g']; simpl in Hp; try done.
    destruct Hph as [Hg Hs]. split; [by eapply game_run_same |].
    rewrite Hpl, <- Hs. destruct Hp. congruence.
Qed.

Lemma room_ok_quiet {newcomers} r r' : quiet_but newcomers r r' → room_ok fresh r → room_ok fresh r'.
Proof.
  intros Hq [Hc | (Ht & Hb & Ho)]; [left; by rewrite (q_closed _ _ Hq) |].
  right. split; [by eapply table_ok_quiet |]. unfold banned_ok, players in *.
  rewrite (q_owner _ _ Hq), (q_players _ _ Hq), (q_banned _ _ Hq). done.
Qed.

(** ** The game's story goes on *)

Lemma game_run_append g rules b :
  game_run fresh g rules →
  let '(g', rules') := append g b rules in
  game_run fresh g' rules' ∧
  seated g' = seat (seated g) (MkEvent (next_event g) (sealed_through g + 1) b).
Proof.
  intros (all & Hok & Hr & Hs). pose proof (append_ok g _ all b rules Hok) as Hok'.
  unfold append in *. cbn in *. split; [| done]. exists all. split; [exact Hok' |]. cbn.
  unfold apply_events in *. rewrite app_assoc.
  split; [by rewrite foldl_app, <- Hr | by rewrite foldl_app, <- Hs].
Qed.

Lemma game_run_seal g rules frontier g' frames :
  game_run fresh g rules → sealed_through g ≤ frontier → seal g frontier = (g', Ok frames) →
  game_run fresh g' rules ∧ seated g' = seated g.
Proof.
  intros (all & Hok & Hr & Hs) Hle Hseal.
  destruct (seal_spec g _ all frontier g' frames Hok Hle Hseal)
    as (_ & _ & Hok' & Hp & _ & _ & _ & _ & Hse & _).
  split; [| done]. eexists. split; [exact Hok' |]. cbn.
  rewrite Hp, app_nil_r, bind_app, sealed_turns_events, batches_concat. rewrite Hse. done.
Qed.

(** ** Seats *)

Lemma position_spec {A} (f : A → bool) l i :
  position f l = Some i → ∃ a, l !! i = Some a ∧ f a = true.
Proof.
  unfold position. intros ([j a] & Hf & Hi)%fmap_Some. cbn in Hi. subst j.
  apply list_find_Some in Hf as (? & ? & _). eauto.
Qed.

Lemma position_None {A} (f : A → bool) l : position f l = None → ∀ a, a ∈ l → f a = false.
Proof.
  unfold position. intros H a Ha. apply fmap_None, list_find_None in H.
  rewrite Forall_forall in H. apply H in Ha. by destruct (f a).
Qed.

Lemma not_seated r p : position (λ m, player m =? p) (members r) = None → p ∉ players r.
Proof.
  intros H (m & -> & Hm)%list_elem_of_fmap. apply (position_None _ _ H) in Hm. lia.
Qed.

Lemma delete_players (l : list Member) i m :
  NoDup (player <$> l) → l !! i = Some m →
  player <$> delete i l = List.filter (λ p, negb (p =? player m)) (player <$> l).
Proof.
  revert i. induction l as [| x l IH]; intros i Hnd Hi; [done |]. csimpl in Hnd.
  apply NoDup_cons in Hnd as [Hx Hnd]. destruct i as [| i]; csimpl in *.
  - injection Hi as ->. rewrite Z.eqb_refl. cbn. clear IH.
    induction l as [| y l IH]; csimpl in *; [done |].
    apply not_elem_of_cons in Hx as [Hne Hx]. apply NoDup_cons in Hnd as [_ Hnd].
    destruct (Z.eqb_spec (player y) (player m)); [congruence |]. cbn. f_equal. by apply IH.
  - assert (player m ∈ player <$> l) by (apply list_elem_of_fmap_2; by eapply list_elem_of_lookup_2).
    destruct (Z.eqb_spec (player x) (player m)) as [E |]; [by rewrite E in Hx |]. cbn. f_equal.
    by apply IH.
Qed.

Lemma seat_left_players seated p k s e :
  seat_player <$> seat seated (MkEvent e s (PlayerLeft p k))
  = List.filter (λ x, negb (x =? p)) (seat_player <$> seated).
Proof.
  cbn. induction seated as [| x seated IH]; csimpl; [done |].
  destruct (negb _); csimpl; by rewrite ?IH.
Qed.

Lemma seat_joined_players seated p n pl s e :
  p ∉ seat_player <$> seated →
  seat_player <$> seat seated (MkEvent e s (PlayerJoined p n pl)) = (seat_player <$> seated) ++ [p].
Proof.
  intros Hp. cbn. rewrite fmap_app. cbn. f_equal.
  induction seated as [| x seated IH]; csimpl in *; [done |].
  apply not_elem_of_cons in Hp as [Hne Hp].
  destruct (Z.eqb_spec (seat_player x) p); [congruence |]. csimpl. by rewrite IH.
Qed.

(** ** Departures *)

Lemma after_departure_ok r p :
  table_ok fresh r → banned_ok r → owner r = p ∨ owner r ∈ players r →
  room_ok fresh (after_departure outcome r p).
Proof.
  intros Ht Hb Ho. unfold after_departure. destruct (members r) as [| first ms] eqn:Hm.
  { by left. }
  assert (player first ∈ players r) as Hfirst by (unfold players; rewrite Hm; left).
  eapply room_ok_quiet; [apply quiet_broadcast |]. right.
  destruct (Z.eqb_spec (owner r) p) as [E | Hne]; [| by destruct Ho].
  split; [by destruct Ht |]. by split.
Qed.

Lemma after_departure_phase r p : same_phase (phase r) (phase (after_departure outcome r p)).
Proof.
  unfold after_departure. destruct (members r) as [| first ms].
  - apply (q_phase _ _ (quiet_discard r)).
  - etransitivity; [| apply (q_phase _ _ (quiet_broadcast outcome _))]. by destruct (_ =? _).
Qed.

(** A seat is freed. *)
Lemma free_seat_ok r i m :
  NoDup (players r) → members r !! i = Some m →
  let r' := r <| members := delete i (members r) |> in
  players r' = List.filter (λ p, negb (p =? player m)) (players r) ∧
  NoDup (players r') ∧ (∀ p, p ∈ players r' ↔ p ∈ players r ∧ p ≠ player m) ∧
  (length (members r') ≤ length (members r))%nat.
Proof.
  intros Hnd Hi r'. assert (E : players r' = List.filter (λ p, negb (p =? player m)) (players r))
    by (by apply delete_players).
  split; [done |].
  assert (Hin : ∀ p, p ∈ players r' ↔ p ∈ players r ∧ p ≠ player m).
  { intros p. rewrite E, list_elem_of_In, filter_In, <- list_elem_of_In, negb_true_iff, Z.eqb_neq. done. }
  split; [| split; [done |]].
  - rewrite E. eapply sublist_NoDup; [exact Hnd |]. clear.
    induction (players r) as [| x l IH]; simpl; [constructor |]. destruct (negb _); by constructor.
  - cbn. rewrite length_delete by eauto. lia.
Qed.

Lemma free_lobby_seat_ok r i m :
  table_ok fresh r → phase r = Lobby → members r !! i = Some m →
  table_ok fresh (r <| members := delete i (members r) |>).
Proof.
  intros [Hd Hn Hp] Hl Hi. destruct (free_seat_ok r i m Hd Hi) as (_ & Hnd & _ & Hlen).
  split; [done | cbn in *; lia |]. cbn. rewrite Hl in *. done.
Qed.

Lemma lobby_departure_ok r i m :
  table_ok fresh r → banned_ok r → owner r ∈ players r → phase r = Lobby → members r !! i = Some m →
  room_ok fresh (after_departure outcome (r <| members := delete i (members r) |>) (player m)).
Proof.
  intros Ht Hb Ho Hl Hi. pose proof (ok_distinct _ _ Ht) as Hd.
  destruct (free_seat_ok r i m Hd Hi) as (_ & _ & Hin & _).
  apply after_departure_ok; [by eapply free_lobby_seat_ok | |].
  - intros p [Hp _]%Hin. by apply Hb.
  - destruct (base.decide (owner r = player m)) as [| Hne]; [by left | right]. by apply Hin.
Qed.

(** A departure in a running game is an event of it. *)
Lemma append_room_ok r g b p' :
  table_ok fresh r → phase r = Running g →
  (∀ e s, seat_player <$> seat (seated g) (MkEvent e s b) = p') →
  let '(g', rules') := append g b (ruleset r) in
  game_run fresh g' rules' ∧ seat_player <$> seated g' = p'.
Proof.
  intros [_ _ Hp] Hph Hseat. rewrite Hph in Hp. destruct Hp as [Hg _].
  pose proof (game_run_append g (ruleset r) b Hg) as Ha.
  destruct (append g b (ruleset r)) as [g' rules']. destruct Ha as [Hg' Hs].
  split; [done |]. by rewrite Hs, Hseat.
Qed.

Lemma try_send_same r o :
  let r' := (try_send outcome r o).1 in
  members r' = members r ∧ phase r' = phase r ∧ ruleset r' = ruleset r ∧ owner r' = owner r ∧
  banned r' = banned r ∧ max_players r' = max_players r ∧ closed r' = closed r.
Proof. unfold try_send. cbn. by destruct (outcome (calls r)). Qed.

(** [leave], also for a player just barred. *)
Lemma leave_ok r p k :
  table_ok fresh r → (∀ q, q ∈ players r → q ≠ p → q ∉ banned r) → owner r ∈ players r →
  p ∈ players r → room_ok fresh (leave outcome r p k).1.
Proof.
  intros Ht Hb Ho Hin. unfold leave.
  destruct (position _ _) as [i |] eqn:Hpos; [| by apply not_seated in Hpos].
  destruct (position_spec _ _ _ Hpos) as (m & Hi & Hm). apply Z.eqb_eq in Hm as <-. rewrite Hi.
  destruct (free_seat_ok r i m (ok_distinct _ _ Ht) Hi) as (Epl & Hnd & Hmem & Hlen).
  set (r1 := r <| members := delete i (members r) |>) in *.
  set (r2 := match link m with Some l => _ | None => r1 end).
  assert (Hr2 : members r2 = members r1 ∧ phase r2 = phase r ∧ ruleset r2 = ruleset r ∧
    owner r2 = owner r ∧ banned r2 = banned r ∧ max_players r2 = max_players r).
  { subst r2. destruct (link m) as [l |]; [| done]. destruct (streaming m); [| done].
    pose proof (try_send_same r1 (OTurns l FeedClose)) as H. cbn in H. tauto. }
  destruct Hr2 as (E1 & E2 & E3 & E4 & E5 & E6).
  assert (Hseats : ∀ r3 : room, members r3 = members r1 → owner r3 = owner r → banned r3 = banned r →
    table_ok fresh r3 → room_ok fresh (after_departure outcome r3 (player m))).
  { intros r3 Em Eo Eb Ht3. assert (players r3 = players r1) as Ep by (unfold players; by rewrite Em).
    apply after_departure_ok; [done | |].
    - intros q Hq. rewrite Ep in Hq. rewrite Eb. apply Hmem in Hq as [? ?]. by apply Hb.
    - rewrite Eo, Ep, Hmem. destruct (base.decide (owner r = player m)); tauto. }
  cbn [fst]. destruct (phase r2) as [| g] eqn:Hph.
  - apply Hseats; [done.. |]. destruct Ht as [_ Hn Hp]. rewrite <- E2 in Hp.
    split; [unfold players; by rewrite E1 | rewrite E1, E6; lia | by rewrite Hph, E3].
  - pose proof (append_room_ok r g (PlayerLeft (player m) k) (players r1) Ht ltac:(congruence)) as Ha.
    rewrite E3. destruct (append g (PlayerLeft (player m) k) (ruleset r)) as [g' rules'].
    destruct Ha as [Hg' Hs'].
    { intros e s. rewrite seat_left_players. destruct Ht as [_ _ Hp]. rewrite <- E2 in Hp.
      rewrite (proj2 Hp). by rewrite Epl. }
    apply Hseats; [done.. |]. destruct Ht as [_ Hn _].
    split; [unfold players; cbn; by rewrite E1 | cbn; rewrite E1, E6; lia |].
    cbn. split; [done |]. rewrite Hs'. unfold players. cbn. by rewrite E1.
Qed.

Lemma kick_ok r p t :
  table_ok fresh r → banned_ok r → owner r ∈ players r → room_ok fresh (kick outcome r p t).1.
Proof.
  intros Ht Hb Ho. unfold kick. destruct (negb _); [by right |]. destruct (_ =? _); [by right |].
  destruct (position _ _) as [i |] eqn:Hpos; [| by right].
  destruct (position_spec _ _ _ Hpos) as (m & Hi & Hm). apply Z.eqb_eq in Hm as <-.
  assert (Hq : quiet r (push outcome r i Kicked)) by apply quiet_push.
  set (r1 := push outcome r i Kicked) in *.
  assert (Hpl : players r1 = players r) by apply Hq.
  apply leave_ok.
  - pose proof (table_ok_quiet _ _ Hq Ht) as Ht1. by destruct (_ <? _); [destruct Ht1 |].
  - intros q Hqin Hne. assert (q ∉ banned r) as Hnb.
    { apply Hb. rewrite <- Hpl. by destruct (_ <? _). }
    destruct (_ <? _); cbn; rewrite (q_banned _ _ Hq); set_solver.
  - assert (owner r1 ∈ players r1) as H by (rewrite Hpl, (q_owner _ _ Hq); done).
    by destruct (_ <? _).
  - assert (player m ∈ players r1) as H.
    { rewrite Hpl. apply list_elem_of_fmap_2. by eapply list_elem_of_lookup_2. }
    by destruct (_ <? _).
Qed.

Lemma disconnected_ok r p l :
  table_ok fresh r → banned_ok r → owner r ∈ players r → room_ok fresh (disconnected outcome r p l).
Proof.
  intros Ht Hb Ho. unfold disconnected. destruct (position _ _) as [i |] eqn:Hpos; [| by right].
  destruct (position_spec _ _ _ Hpos) as (m & Hi & Hm).
  apply andb_true_iff in Hm as [Hm _]. apply Z.eqb_eq in Hm as <-.
  destruct (phase r) as [| g] eqn:Hph; [by apply lobby_departure_ok |].
  eapply room_ok_quiet; [apply quiet_broadcast |].
  eapply room_ok_quiet; [apply quiet_unlink; intros x; [reflexivity | by right] |]. by right.
Qed.

(** ** Joining *)

Lemma quiet_weaken newcomers r r' : quiet r r' → quiet_but newcomers r r'.
Proof. intros []. split; try done. intros p l [? | ?%not_elem_of_nil]%q_seats0; [by left | done]. Qed.

(** A connection takes a seat. *)
Lemma quiet_link r i f p l :
  (player <$> members r) !! i = Some p →
  (∀ m, player (f m) = player m) → (∀ m, link (f m) = Some l) → quiet_but [(p, l)] r (update_member r i f).
Proof.
  intros Hi Hp Hl. quiet_fields; [by apply fmap_alter |].
  intros q k [j Hj]%list_elem_of_lookup. unfold seats in Hj. cbn in Hj. rewrite list_lookup_fmap in Hj.
  rewrite list_lookup_fmap in Hi. destruct (Nat.eq_dec j i) as [-> | Hji].
  - rewrite list_lookup_alter_eq in Hj. destruct (members r !! i) as [m |]; simplify_eq/=.
    right. rewrite Hp, list_elem_of_singleton. specialize (Hl m). congruence.
  - rewrite list_lookup_alter_ne in Hj by done. left. eapply (list_elem_of_lookup_2 _ j).
    unfold seats. by rewrite list_lookup_fmap.
Qed.

Lemma quiet_take_seat r i new rj now p :
  (player <$> members r) !! i = Some p →
  quiet_but [(p, new_link new)] r (take_seat outcome r i new rj now).
Proof.
  intros Hi. unfold take_seat. etransitivity; [| apply quiet_weaken, quiet_offer_worlds].
  set (r1 := match _ ≫= _ with Some old => _ | None => r end).
  assert (H1 : quiet r r1).
  { subst r1. destruct (_ ≫= _) as [old |]; [| reflexivity]. destruct (negb _); [apply quiet_emit | reflexivity]. }
  set (r2 := update_member r1 i _).
  assert (H2 : quiet r r2)
    by (etransitivity; [exact H1 | apply quiet_unlink; intros m; [reflexivity | by right]]).
  set (r3 := match rj with RejoinLobby => _ | RejoinStream _ => _ | RejoinWorld => _ end).
  assert (H3 : quiet r r3).
  { subst r3. destruct rj as [| feed |]; [done | | etransitivity; [exact H2 | apply quiet_update; intros m; reflexivity]].
    set (r4 := update_member r2 i _).
    assert (H4 : quiet r r4) by (etransitivity; [exact H2 | apply quiet_update; intros m; reflexivity]).
    pose proof (quiet_try_send outcome r4 (OTurns (new_link new) feed)) as H5.
    destruct (try_send outcome r4 (OTurns (new_link new) feed)) as [r5 sent]. cbn [fst] in H5.
    etransitivity; [exact H4 |]. etransitivity; [exact H5 |]. apply quiet_update. intros m. reflexivity. }
  etransitivity; [apply quiet_weaken, H3 |].
  apply quiet_link; [by rewrite (q_players _ _ H3) | done | done].
Qed.

Lemma admit_same r p b token pw now :
  let r' := (admit_player hmac_verify r p b token pw now).1 in
  quiet r r' ∧ members r' = members r ∧ banned r' = banned r.
Proof.
  unfold admit_player. destruct (check_secrets _ _ _ _ _), b; cbn; (split; [| done]); try reflexivity;
    quiet_fields.
Qed.

(** The player of the seat that [position] found. *)
Lemma seat_player_at r r1 p i :
  quiet r r1 → position (λ m, player m =? p) (members r) = Some i → (player <$> members r1) !! i = Some p.
Proof.
  intros Hq (m & Hi & Hm%Z.eqb_eq)%position_spec. rewrite (q_players _ _ Hq), list_lookup_fmap, Hi.
  cbn. by rewrite Hm.
Qed.

(** A player is added at the end of the table. *)
Lemma add_member_ok r m :
  table_ok fresh r → player m ∉ players r → Z.of_nat (length (members r)) < max_players r →
  phase r = Lobby → table_ok fresh (r <| members := members r ++ [m] |>).
Proof.
  intros [Hd Hn Hp] Hm Hlt Hl. split; cbn.
  - unfold players in *. cbn. rewrite fmap_app. apply NoDup_app. split; [done |].
    split; [| apply NoDup_singleton]. by intros x Hx ->%list_elem_of_singleton.
  - rewrite length_app. simpl. lia.
  - by rewrite Hl in *.
Qed.

Lemma seat_newcomer_ok r new content now :
  table_ok fresh r → banned_ok r → owner r ∈ players r → new_player new ∉ players r →
  new_player new ∉ banned r → room_ok fresh (seat_newcomer outcome r new content now).1.
Proof.
  intros Ht Hb Ho Hnew Hnb. unfold seat_newcomer.
  assert (Hfin : ∀ r' : room, players r' = players r ++ [new_player new] → banned r' = banned r →
    owner r' = owner r → table_ok fresh r' → room_ok fresh r').
  { intros r' Ep Eb Eo Ht'. right. split; [done |]. split.
    - intros q. rewrite Ep, Eb, elem_of_app, list_elem_of_singleton. intros [Hq | ->]; [by apply Hb | done].
    - rewrite Eo, Ep, elem_of_app. by left. }
  destruct (phase r) as [| g] eqn:Hph.
  - destruct (Z.leb_spec (max_players r) (Z.of_nat (length (members r)))); [by right |]. cbn [fst].
    apply Hfin; [unfold players; cbn; by rewrite fmap_app | done | done |]. by apply add_member_ok.
  - case_bool_decide; [by right |].
    destruct (Z.leb_spec (max_players r) (Z.of_nat (length (members r)))); [by right |].
    destruct (_ || _); [by right |].
    pose proof (append_room_ok r g (PlayerJoined (new_player new) (new_name new) (new_platform new))
      (players r ++ [new_player new]) Ht Hph) as Ha.
    destruct (append g _ (ruleset r)) as [g' rules']. destruct Ha as [Hg' Hs'].
    { intros e s. destruct Ht as [_ _ Hp]. rewrite Hph in Hp.
      rewrite seat_joined_players; rewrite (proj2 Hp); done. }
    cbn [fst]. eapply room_ok_quiet; [apply quiet_offer_worlds |]. destruct Ht as [Hd Hn _].
    apply Hfin; [unfold players; cbn; by rewrite fmap_app | done | done |].
    split; cbn; [| rewrite length_app; simpl; lia |].
    + unfold players in *. cbn. rewrite fmap_app. apply NoDup_app. split; [done |].
      split; [| apply NoDup_singleton]. by intros x Hx ->%list_elem_of_singleton.
    + split; [done |]. rewrite Hs'. unfold players. cbn. by rewrite fmap_app.
Qed.

Lemma join_ok r new token pw resume content now :
  table_ok fresh r → banned_ok r → owner r ∈ players r →
  room_ok fresh (join hmac_verify outcome r new token pw resume content now).1.
Proof.
  intros Ht Hb Ho. unfold join. case_bool_decide as Hban; [by right |].
  set (seat := position _ (members r)).
  pose proof (admit_same r (new_player new) (bool_decide (is_Some seat)) token pw now) as Ha.
  destruct (admit_player _ _ _ _ _ _ _) as [r1 ok]. cbn in Ha. destruct Ha as (Hq & Em & Eb).
  assert (Hr1 : room_ok fresh r1) by (eapply room_ok_quiet; [exact Hq | by right]).
  destruct ok; cbn; [| done]. destruct seat as [i |] eqn:Hseat.
  - destruct (rejoin_of r1 resume content) as [rj | e]; [| done]. cbn.
    eapply room_ok_quiet; [| done]. apply (quiet_take_seat _ _ _ _ _ (new_player new)).
    by eapply seat_player_at.
  - assert (players r1 = players r) as Ep by apply Hq.
    apply seat_newcomer_ok.
    + by eapply table_ok_quiet.
    + intros q. rewrite Ep, Eb. apply Hb.
    + by rewrite (q_owner _ _ Hq), Ep.
    + rewrite Ep. by apply not_seated.
    + by rewrite Eb.
Qed.

(** ** Starting a game *)

Lemma in_lobby_phase r p i : in_lobby r p = Ok i → phase r = Lobby.
Proof. unfold in_lobby. by destruct (phase r). Qed.

Lemma quiet_set_ready r p b : quiet r (set_ready r p b).1.
Proof.
  unfold set_ready. destruct (in_lobby r p); [apply quiet_update; intros m; reflexivity | reflexivity].
Qed.

Lemma quiet_declare r p c : quiet r (declare_content r p c).1.
Proof.
  unfold declare_content. destruct (in_lobby r p); [apply quiet_update; intros m; reflexivity | reflexivity].
Qed.

Lemma seat_all_run ms g rules :
  game_run fresh g rules → NoDup ((seat_player <$> seated g) ++ (player <$> ms)) →
  let '(g', rules') := seat_all ms g rules in
  game_run fresh g' rules' ∧ seat_player <$> seated g' = (seat_player <$> seated g) ++ (player <$> ms).
Proof.
  unfold seat_all. revert g rules. induction ms as [| m ms IH]; intros g rules Hg Hnd; cbn [foldl fst snd].
  { split; [done |]. by rewrite app_nil_r. }
  pose proof (game_run_append g rules (PlayerJoined (player m) (name m) (platform m)) Hg) as Ha.
  destruct (append g _ rules) as [g1 rules1] eqn:E. destruct Ha as [Hg1 Hs1]. rewrite fmap_cons in Hnd.
  assert (seat_player <$> seated g1 = (seat_player <$> seated g) ++ [player m]) as Hs1'.
  { rewrite Hs1. apply seat_joined_players. apply NoDup_app in Hnd as (_ & Hdis & _).
    intros Hin. apply (Hdis _ Hin). left. }
  specialize (IH g1 rules1 Hg1). rewrite Hs1', <- app_assoc in IH. specialize (IH Hnd).
  destruct (foldl _ (g1, rules1) ms) as [g2 rules2]. destruct IH as [Hg2 Hs2]. split; [done |].
  by rewrite Hs2.
Qed.

Lemma quiet_start_member open sw r i : quiet r (start_member outcome open sw r i).
Proof.
  unfold start_member. destruct (members r !! i) as [m |]; [| reflexivity].
  set (r1 := update_member r i _).
  assert (H1 : quiet r r1) by (apply quiet_update; intros x; reflexivity).
  destruct (_ && _); [etransitivity; [exact H1 | apply quiet_update; intros x; reflexivity] |].
  set (r2 := update_member r1 i _).
  assert (H2 : quiet r r2) by (etransitivity; [exact H1 | apply quiet_update; intros x; reflexivity]).
  destruct (link m) as [l |]; [| done].
  pose proof (quiet_try_send outcome r2 (OTurns l (FeedOpen open []))) as H3.
  destruct (try_send outcome r2 _) as [r3 sent]. cbn [fst] in H3.
  etransitivity; [exact H2 |]. etransitivity; [exact H3 |]. apply quiet_update. intros x. reflexivity.
Qed.

Lemma quiet_open_log r h : quiet r (open_log crc disk r h).
Proof.
  unfold open_log. destruct (negb _); [reflexivity |]. destruct (create_log _ _ _); quiet_fields.
Qed.

Lemma Game_new_run st h now : game_run fresh (Game_new st h now) fresh.
Proof. exists []. split; [apply Game_new_ok | done]. Qed.

Lemma start_ok r p h now :
  table_ok fresh r → banned_ok r → owner r ∈ players r →
  room_ok fresh (start crc outcome disk r p h now).1.
Proof.
  intros Ht Hb Ho. assert (Hr : room_ok fresh r) by (by right). unfold start.
  destruct (negb _); [done |]. destruct (phase r) as [| g0] eqn:Hph; [| done].
  destruct (negb _); [done |]. destruct (_ || _); [done |].
  pose proof (ok_phase _ _ Ht) as Hrules. rewrite Hph in Hrules.
  pose proof (seat_all_run (members r) (Game_new (settings r) h now) (ruleset r)) as Hrun.
  rewrite Hrules in Hrun at 1. specialize (Hrun (Game_new_run _ _ _) (ok_distinct _ _ Ht)).
  destruct (seat_all _ _ _) as [g rules]. destruct Hrun as [Hg Hs]. cbn [fst].
  eapply room_ok_quiet; [apply quiet_open_log |].
  set (r1 := r <| ruleset := rules |> <| room_content := _ |>).
  set (open := turn_start _ _ _ _ _ _).
  pose proof (quiet_for_members r1 (start_member outcome open (bool_decide (is_Some (snapshots r1))))
    (quiet_start_member open _)) as Hq.
  set (r2 := for_members r1 _) in *. clearbody r2.
  assert (H3 : room_ok fresh (r2 <| phase := Running g |>)).
  { destruct Hq as [Q1 Q2 Q3 Q4 Q5 _ _]. unfold players in *. right.
    assert (players (r2 <| phase := Running g |>) = players r) as Ep by exact Q1.
    split; [| split].
    - destruct Ht as [Hd Hn _]. split; [by rewrite Ep | |].
      + apply (f_equal length) in Q1. rewrite !length_fmap in Q1. cbn in *. rewrite Q1, Q3. exact Hn.
      + cbn. rewrite Q5. split; [exact Hg |]. unfold players in Ep. cbn in Ep. rewrite Hs.
        symmetry. exact Ep.
    - intros q. rewrite Ep. cbn. rewrite Q4. apply Hb.
    - rewrite Ep. cbn. by rewrite Q2. }
  destruct (_ && _); [eapply room_ok_quiet; [apply quiet_offer_worlds | exact H3] | exact H3].
Qed.

(** ** Ordering and sealing *)

(** The game of a room is replaced by one with the same table. *)
Lemma set_game_ok r g g' rules' :
  room_ok fresh r → phase r = Running g → game_run fresh g' rules' →
  seat_player <$> seated g' = seat_player <$> seated g →
  room_ok fresh (r <| phase := Running g' |> <| ruleset := rules' |>).
Proof.
  intros [Hc | (Ht & Hb & Ho)] Hph Hg Hs; [by left |]. right. split; [| by split].
  destruct Ht as [Hd Hn Hp]. rewrite Hph in Hp. split; [done | done |]. cbn. split; [done |].
  rewrite Hs. apply Hp.
Qed.

Lemma intent_ok r p c payload now :
  room_ok fresh r → room_ok fresh (intent outcome r p c payload now).
Proof.
  intros Hr. unfold intent. destruct (position _ _) as [i |]; [| done].
  destruct (members r !! i) as [m |]; [| done].
  destruct (phase r) as [| g] eqn:Hph; [by eapply room_ok_quiet; [apply quiet_push |] |].
  destruct (TokenBucket_take (intents m) now 1) as [b1 granted1].
  assert (H1 : quiet r (update_member r i (λ m, m <| intents := b1 |>)))
    by (apply quiet_update; intros x; reflexivity).
  destruct granted1; cbn [negb].
  2: { eapply room_ok_quiet; [apply quiet_push |]. by eapply room_ok_quiet. }
  destruct (TokenBucket_take (payload_bytes m) now _) as [b2 granted2].
  set (r1 := update_member r i _) in *.
  assert (H2 : quiet r (update_member r1 i (λ m, m <| payload_bytes := b2 |>)))
    by (etransitivity; [exact H1 | apply quiet_update; intros x; reflexivity]).
  set (r2 := update_member r1 i _) in *.
  assert (Hr2 : room_ok fresh r2) by (by eapply room_ok_quiet).
  destruct granted2; cbn [negb]; [| by eapply room_ok_quiet; [apply quiet_push |]].
  destruct (validate _ _ _) as [u | code]; [| by eapply room_ok_quiet; [apply quiet_push |]].
  destruct Hr as [Hc | (Ht & Hb & Ho)].
  { left. by destruct (append _ _ _). }
  destruct Ht as [Hd Hn Hp]. rewrite Hph in Hp. destruct Hp as [Hg Hs].
  pose proof (game_run_append g (ruleset r) (Command p c payload) Hg) as Ha.
  change (ruleset r2) with (ruleset r).
  destruct (append g _ (ruleset r)) as [g' rules']. destruct Ha as [Hg' Hs'].
  apply (set_game_ok r2 g); [done | done | done |]. by rewrite Hs'.
Qed.

Lemma close_all_ok r code : room_ok fresh (close_all r code).
Proof. by left. Qed.

Lemma advance_ge p e sp slowest sealed : sealed ≤ (advance p e sp slowest sealed).2.
Proof.
  unfold advance. destruct slowest; cbn; [| lia]. destruct (_ <? _); cbn; lia.
Qed.

(** A seal of a game with the same table keeps the room in order. *)
Lemma seal_room_ok r g g1 frontier rules :
  room_ok fresh r → phase r = Running g → game_run fresh g1 rules →
  seat_player <$> seated g1 = seat_player <$> seated g →
  sealed_through g1 ≤ frontier →
  let '(g2, frames) := seal g1 frontier in
  match frames with
  | Ok _ => game_run fresh g2 rules ∧ seat_player <$> seated g2 = seat_player <$> seated g
  | Err _ => True
  end.
Proof.
  intros Hr Hph Hg Hs Hle. destruct (seal g1 frontier) as [g2 [frames | e]] eqn:E; [| done].
  destruct (game_run_seal g1 rules frontier g2 frames Hg Hle E) as [Hg2 Hs2].
  split; [done |]. by rewrite Hs2.
Qed.

Lemma room_ok_game r g :
  room_ok fresh r → closed r = false → phase r = Running g →
  game_run fresh g (ruleset r) ∧ seat_player <$> seated g = players r.
Proof.
  intros [Hc | ([_ _ Hp] & _)] Hcl Hph; [congruence |]. by rewrite Hph in Hp.
Qed.

Lemma seal_tick_ok r now :
  room_ok fresh r → closed r = false → room_ok fresh (seal_tick crc outcome disk r now).
Proof.
  intros Hr Hc. unfold seal_tick. destruct (phase r) as [| g] eqn:Hph; [done |].
  destruct (room_ok_game r g Hr Hc Hph) as [Hg Hs].
  pose proof (advance_ge (pacer g) (saturating_duration_since now (last_tick g)) (speed g)
    (slowest_pacer (members r)) (sealed_through g)) as Hadv.
  cbn [pacer speed sealed_through] in *.
  set (g0 := g <| last_tick := now |>).
  destruct (advance (pacer g0) _ (speed g0) _ (sealed_through g0)) as [p frontier] eqn:Ea.
  change (pacer g0) with (pacer g) in Ea. change (speed g0) with (speed g) in Ea.
  change (sealed_through g0) with (sealed_through g) in Ea. rewrite Ea in Hadv. cbn in Hadv.
  set (g1 := g0 <| pacer := p |>).
  assert (Hsame : same_game g g1) by (by split).
  destruct (_ && _ && _).
  { eapply room_ok_quiet; [| exact Hr]. by apply (quiet_phase r g). }
  pose proof (seal_room_ok r g g1 frontier (ruleset r) Hr Hph (game_run_same _ _ _ Hsame Hg)
    eq_refl Hadv) as Hseal.
  destruct (seal g1 frontier) as [g2 [frames | e]]; [| apply close_all_ok].
  destruct Hseal as [Hg2 Hs2]. eapply room_ok_quiet; [apply quiet_publish |].
  change (r <| phase := Running g2 |>) with (r <| phase := Running g2 |> <| ruleset := ruleset r |>).
  by apply (set_game_ok r g).
Qed.

Lemma save_if_due_ok r config now :
  room_ok fresh r → closed r = false → room_ok fresh (save_if_due crc outcome disk r config now).
Proof.
  intros Hr Hc. unfold save_if_due. destruct (phase r) as [| g] eqn:Hph; [done |].
  destruct (_ || _); [done |]. destruct (room_ok_game r g Hr Hc Hph) as [Hg Hs].
  pose proof (game_run_append g (ruleset r) SaveWorld Hg) as Ha.
  destruct (append g SaveWorld (ruleset r)) as [g1 rules]. destruct Ha as [Hg1 Hs1].
  pose proof (seal_room_ok r g g1 (sealed_through g1) rules Hr Hph Hg1
    ltac:(by rewrite Hs1) (Z.le_refl _)) as Hseal.
  destruct (seal g1 (sealed_through g1)) as [g2 [frames | e]]; [| apply close_all_ok].
  destruct Hseal as [Hg2 Hs2]. eapply room_ok_quiet; [apply quiet_publish |].
  set (g3 := g2 <| saves ::= _ |>).
  change (room_ok fresh (r <| phase := Running g3 |> <| ruleset := rules |>)).
  apply (set_game_ok r g); [done | done | | done].
  eapply game_run_same; [| exact Hg2]. by split.
Qed.

(** The rounds and the stalled upload are quiet; then a save may be due. *)
Lemma run_saves_split r now :
  quiet r (run_saves crc outcome disk r now) ∨
  ∃ r' config, quiet r r' ∧ run_saves crc outcome disk r now = save_if_due crc outcome disk r' config now.
Proof.
  unfold run_saves. destruct (snapshots r) as [config |]; [| left; reflexivity].
  destruct (phase r) as [| g] eqn:Hph; [left; reflexivity | right].
  set (stalled := (u ← upload (saves g); _)).
  set (g1 := match stalled with None => g | Some u => _ end).
  assert (H1 : quiet r (r <| phase := Running g1 |>)).
  { apply (quiet_phase r g); [done |]. subst g1. destruct stalled; [by split | reflexivity]. }
  set (ready := List.filter _ _). set (r1 := foldl _ _ ready).
  assert (H2 : quiet r r1)
    by (etransitivity; [exact H1 |]; apply quiet_foldl; intros; apply quiet_decide_save).
  clearbody r1. eexists _, config. split; [| reflexivity].
  destruct stalled as [u |]; [| done].
  etransitivity; [| apply quiet_ask_for_upload]. etransitivity; [exact H2 |].
  destruct (receiving u); [| reflexivity]. destruct (position _ _) as [i |]; [| reflexivity].
  destruct (_ ≫= _) as [l |]; [| reflexivity].
  etransitivity; [apply quiet_emit | apply quiet_unlink; intros x; [reflexivity | by right]].
Qed.

Lemma run_saves_ok r now :
  room_ok fresh r → closed r = false → room_ok fresh (run_saves crc outcome disk r now).
Proof.
  intros Hr Hc. destruct (run_saves_split r now) as [Hq | (r' & config & Hq & ->)].
  - by eapply room_ok_quiet.
  - apply save_if_due_ok; [by eapply room_ok_quiet |]. by rewrite (q_closed _ _ Hq).
Qed.

(** ** The clock *)

Lemma sweep_seats_ok fuel r :
  room_ok fresh r → closed r = false → phase r = Lobby → room_ok fresh (sweep_seats outcome fuel r).
Proof.
  revert r. induction fuel as [| fuel IH]; intros r Hr Hc Hl; cbn [sweep_seats]; [done |].
  destruct (position _ _) as [i |] eqn:Hpos; [| done].
  destruct (members r !! i) as [m |] eqn:Hi; [| done].
  destruct Hr as [| (Ht & Hb & Ho)]; [congruence |].
  pose proof (lobby_departure_ok r i m Ht Hb Ho Hl Hi) as Hd.
  set (r1 := after_departure outcome _ _) in *. destruct (closed r1) eqn:Hc1; [done |].
  apply IH; [done | done |].
  assert (Hp : same_phase (phase r) (phase r1))
    by exact (after_departure_phase (r <| members := delete i (members r) |>) (player m)).
  clearbody r1. rewrite Hl in Hp. unfold same_phase in Hp. by destruct (phase r1).
Qed.

(** The fuel is enough: every round frees a seat, also when a broadcast drops
    more links on the way.  The sweep leaves a closed room or one whose members
    are all connected. *)
Lemma sweep_seats_done fuel r :
  (length (members r) ≤ fuel)%nat →
  let r' := sweep_seats outcome fuel r in
  closed r' = true ∨ Forall (λ m, is_Some (link m)) (members r').
Proof.
  revert r. induction fuel as [| fuel IH]; intros r Hlen r'; subst r'; cbn [sweep_seats].
  { right. destruct (members r); [constructor | cbn in Hlen; lia]. }
  destruct (position _ _) as [i |] eqn:Hpos.
  - destruct (position_spec _ _ _ Hpos) as (m & Hi & _). rewrite Hi.
    set (r1 := after_departure outcome _ _). destruct (closed r1) eqn:Hc1; [by left |].
    apply IH. assert (length (members r1) = length (delete i (members r))) as ->.
    { subst r1. unfold after_departure in *. cbn in *. destruct (delete i (members r)) as [| m1 ms] eqn:E.
      - done.
      - rewrite <- (length_fmap player (members _)), (q_players _ _ (quiet_broadcast outcome _)).
        rewrite length_fmap. destruct (_ =? _); cbn; by rewrite ?E. }
    rewrite length_delete by eauto. lia.
  - right. apply Forall_forall. intros m Hm. pose proof (position_None _ _ Hpos m Hm) as Hl.
    by apply bool_decide_eq_false, not_eq_None_Some in Hl.
Qed.

Lemma room_ok_unattended r since : room_ok fresh r → room_ok fresh (r <| unattended_since := since |>).
Proof. intros [Hc | ([H1 H2 H3] & Hb & Ho)]; [by left |]. right. split; [by split | by split]. Qed.

Lemma expire_ok r now : room_ok fresh r → room_ok fresh (expire_if_abandoned r now).
Proof.
  intros Hr. unfold expire_if_abandoned. destruct (phase r); [done |].
  destruct (existsb _ _); [by apply room_ok_unattended |].
  destruct (_ <? _); [by apply room_ok_unattended | by left].
Qed.

Lemma on_tick_ok r now :
  room_ok fresh r → closed r = false → room_ok fresh (on_tick crc outcome disk r now).
Proof.
  intros Hr Hc. unfold on_tick.
  assert (H1 : room_ok fresh (sweep_lobby outcome r)).
  { unfold sweep_lobby. destruct (phase r) eqn:Hl; [by apply sweep_seats_ok | done]. }
  pose proof (expire_ok _ now H1) as H2. set (r2 := expire_if_abandoned _ now) in *.
  destruct (closed r2) eqn:Hc2; [done |].
  assert (Hq : quiet r2 (demote_stalled (decide_waiting_rounds outcome r2 now) now))
    by (etransitivity; [apply quiet_decide_waiting | apply quiet_demote]).
  set (r3 := demote_stalled _ now) in *.
  assert (H3 : room_ok fresh r3) by (by eapply room_ok_quiet).
  assert (H4 : room_ok fresh (run_saves crc outcome disk r3 now))
    by (apply run_saves_ok; [done | by rewrite (q_closed _ _ Hq)]).
  destruct (closed (run_saves crc outcome disk r3 now)) eqn:Hc4; [done |]. by apply seal_tick_ok.
Qed.

(** ** Every step of the loop *)

Lemma leave_command_ok r p :
  table_ok fresh r → banned_ok r → owner r ∈ players r → room_ok fresh (leave outcome r p false).1.
Proof.
  intros Ht Hb Ho. destruct (base.decide (p ∈ players r)) as [Hin | Hin].
  - apply leave_ok; [done | | done | done]. intros q Hq _. by apply Hb.
  - unfold leave. destruct (position _ _) as [i |] eqn:Hpos; [| by right].
    exfalso. apply Hin. destruct (position_spec _ _ _ Hpos) as (m & Hi & <-%Z.eqb_eq).
    apply list_elem_of_fmap_2. by eapply list_elem_of_lookup_2.
Qed.

Lemma announce_change_ok r' (res : result bool RequestError) :
  room_ok fresh r' → room_ok fresh (answer_and_broadcast_if_changed outcome (r', res)).1.
Proof.
  intros H. unfold answer_and_broadcast_if_changed. cbn [fst snd].
  destruct res as [[] |]; [by eapply room_ok_quiet; [apply quiet_broadcast |] | done | done].
Qed.

Lemma handle_ok r now c :
  room_ok fresh r → closed r = false → room_ok fresh (handle hmac_verify crc outcome disk r now c).1.
Proof.
  intros Hr Hc. pose proof Hr as [| (Ht & Hb & Ho)]; [congruence |].
  destruct c as [new tok pw res ct | p | p l | p b | p ct | p h | p s | p t | p | p t | p s b
                | p l s | p l s lns | p l e lns w | p l s | p l s | p s res]; cbn [handle];
    try (eapply (room_ok_quiet (newcomers := [])); [| exact Hr];
         first [ apply quiet_progress | apply quiet_checkpoint | apply quiet_saved
               | apply quiet_uploaded | reflexivity ]).
  - pose proof (join_ok r new tok pw res ct now Ht Hb Ho) as H.
    destruct (join _ _ _ _ _ _ _ _ _) as [r' result]. cbn in *.
    destruct (is_ok result); [by eapply room_ok_quiet; [apply quiet_broadcast |] | done].
  - pose proof (leave_command_ok r p Ht Hb Ho) as H. by destruct (leave _ _ _ _).
  - by apply disconnected_ok.
  - pose proof (quiet_set_ready r p b) as H. destruct (set_ready r p b) as [r' result].
    apply announce_change_ok. by eapply room_ok_quiet.
  - pose proof (quiet_declare r p ct) as H. destruct (declare_content r p ct) as [r' result].
    apply announce_change_ok. by eapply room_ok_quiet.
  - pose proof (start_ok r p h now Ht Hb Ho) as H. unfold answer_and_broadcast.
    destruct (start _ _ _ _ _ _ _) as [r' result]. cbn in *.
    destruct (is_ok result); [by eapply room_ok_quiet; [apply quiet_broadcast |] | done].
  - pose proof (quiet_set_speed r p s) as H. destruct (set_speed r p s).
    by eapply room_ok_quiet.
  - pose proof (kick_ok r p t Ht Hb Ho) as H. by destruct (kick _ _ _ _).
  - pose proof (quiet_chat outcome r p t now) as H. destruct (chat _ _ _ _ _).
    by eapply room_ok_quiet.
  - by apply intent_ok.
  - pose proof (quiet_upload_starts r p l s) as H.
    destruct (upload_starts _ _ _ _). by eapply room_ok_quiet.
Qed.

Lemma step_room_ok r now s :
  room_ok fresh r → closed r = false → room_ok fresh (step_room hmac_verify crc outcome disk r now s).
Proof.
  intros Hr Hc. destruct s as [c | | d renamed]; cbn [step_room].
  - by apply handle_ok.
  - by apply on_tick_ok.
  - eapply room_ok_quiet; [apply quiet_finish_compaction | done].
Qed.

Lemma run_room_ok r steps :
  room_ok fresh r → room_ok fresh (run_room hmac_verify crc outcome disk r steps).
Proof.
  revert r. induction steps as [| [now s] steps IH]; intros r Hr; cbn [run_room]; [done |].
  destruct (closed r) eqn:Hc; [done |]. by apply IH, step_room_ok.
Qed.
End invariant.

(** * What a step leaves alone

    A player the owner removed stays barred: no step takes anyone off the list,
    nor changes how many players fit.  And a seat changes hands only when a player
    joins: no step gives a connection a seat but a newcomer's. *)

Definition steady {R} (newcomers : list (PlayerId * LinkId)) (r r' : Room R) : Prop :=
  banned r ⊆ banned r' ∧ max_players r' = max_players r ∧ room_id r' = room_id r ∧ seated_from newcomers r r'.

#[export] Instance steady_preorder {R} newcomers : PreOrder (@steady R newcomers).
Proof.
  unfold steady. split; [by intros r; split_and!; [| | | reflexivity] |].
  intros r1 r2 r3 (? & ? & ? & ?) (? & ? & ? & ?). split_and!; [set_solver | congruence.. | by etransitivity].
Qed.

Lemma quiet_steady {R newcomers} (r r' : Room R) : quiet_but newcomers r r' → steady newcomers r r'.
Proof. intros Hq. unfold steady. rewrite (q_banned _ _ Hq), (q_max _ _ Hq), (q_id _ _ Hq). split_and!; [done.. | apply Hq]. Qed.

Lemma steady_weaken {R} newcomers (r r' : Room R) : steady [] r r' → steady newcomers r r'.
Proof. intros (? & ? & ? & Hs). split_and!; [done.. |]. intros p l [? | []%not_elem_of_nil]%Hs. by left. Qed.

#[export] Hint Resolve quiet_steady quiet_broadcast quiet_push quiet_offer_worlds quiet_publish
  quiet_progress quiet_checkpoint quiet_saved quiet_uploaded quiet_chat quiet_set_speed
  quiet_set_ready quiet_declare quiet_upload_starts quiet_finish_compaction quiet_take_seat
  quiet_open_log quiet_decide_waiting quiet_demote quiet_discard quiet_try_send : room.

Section steady.
Context {R : Type} {RS : Ruleset R} {P : Postcard TurnMessage} {PS : Postcard StartRecord}.
Context (hmac_verify : list Z → list Z → list Z → bool) (crc : list Z → Z).
Context (outcome : nat → SendOutcome) (disk : nat → WriteOutcome).
Abbreviation room := (Room R).
Implicit Types r : room.

(** The fields the relation is about: the list, the size, and a table that only shrank. *)
Definition alike (r r1 : room) : Prop :=
  banned r1 = banned r ∧ max_players r1 = max_players r ∧ room_id r1 = room_id r ∧ members r1 ⊆ members r.

Lemma alike_seated newcomers r r1 r' : members r1 ⊆ members r → seated_from newcomers r1 r' → seated_from newcomers r r'.
Proof.
  intros Hm H p l [(m & ? & ?)%list_elem_of_fmap | ?]%H; [| by right].
  left. apply list_elem_of_fmap. exists m. split; [done | by apply Hm].
Qed.

Lemma steady_from newcomers r r1 r' : alike r r1 → steady newcomers r1 r' → steady newcomers r r'.
Proof. unfold alike, steady. intros (-> & -> & -> & Hm) (? & ? & ? & ?). split_and!; [done.. |]. by eapply alike_seated. Qed.

Lemma steady_same newcomers r r' : alike r r' → steady newcomers r r'.
Proof. intros H. by apply (steady_from _ _ r'). Qed.

Lemma alike_refl r : alike r r.
Proof. done. Qed.

Lemma alike_delete r i : alike r (r <| members := delete i (members r) |>).
Proof. split_and!; [done.. |]. cbn. intros m. apply list_elem_of_delete_inv. Qed.

Lemma steady_after_departure r p : steady [] r (after_departure outcome r p).
Proof.
  unfold after_departure. destruct (members r) as [| first ms] eqn:Hm.
  - eapply steady_from; [apply alike_refl |]. etransitivity; [apply quiet_steady, quiet_discard |]. by apply steady_same.
  - eapply steady_from; [| apply quiet_steady, quiet_broadcast]. by destruct (_ =? _).
Qed.

(** Leaving is giving up the seat, and then nothing more changes at the table. *)
Lemma leave_split r p k i :
  position (λ m, player m =? p) (members r) = Some i →
  steady [] (r <| members := delete i (members r) |>) (leave outcome r p k).1.
Proof.
  intros Hi. unfold leave. rewrite Hi. destruct (position_spec _ _ _ Hi) as (m & -> & _). cbn [fst].
  set (r1 := r <| members := _ |>). set (r2 := match link m with Some l => _ | None => _ end).
  assert (steady [] r1 r2) as H2.
  { subst r2. destruct (link m) as [l |]; [| done]. destruct (streaming m); [| done].
    apply quiet_steady, quiet_try_send. }
  etransitivity; [exact H2 |]. eapply steady_from; [| apply steady_after_departure].
  destruct (phase r2); [done |]. by destruct (append _ _ _).
Qed.

Lemma steady_leave r p k : steady [] r (leave outcome r p k).1.
Proof.
  destruct (position (λ m, player m =? p) (members r)) as [i |] eqn:Hi; [| unfold leave; by rewrite Hi].
  eapply steady_from; [apply (alike_delete r i) | by apply leave_split].
Qed.

Lemma steady_kick r p t : steady [] r (kick outcome r p t).1.
Proof.
  unfold kick. destruct (negb _); [done |]. destruct (_ =? _); [done |].
  destruct (position _ _) as [i |]; [| done]. etransitivity; [| apply steady_leave].
  etransitivity; [apply quiet_steady, quiet_push |].
  destruct (_ <? _); [| by apply steady_same]. split_and!; [cbn; set_solver | done | done |].
  eapply (alike_seated _ _ (push outcome r i Kicked)); [done |]. intros q l Hl. by left.
Qed.

Lemma steady_disconnected r p l : steady [] r (disconnected outcome r p l).
Proof.
  unfold disconnected. destruct (position _ _) as [i |]; [| done]. destruct (phase r).
  - eapply steady_from; [apply (alike_delete r i) | apply steady_after_departure].
  - etransitivity; [| apply quiet_steady, quiet_broadcast].
    apply quiet_steady, quiet_unlink; intros m; [done | by right].
Qed.

(** Whoever joins is the newcomer; a refusal seats nobody. *)
Lemma steady_add r m r' :
  banned r' = banned r → max_players r' = max_players r → room_id r' = room_id r → members r' = members r ++ [m] →
  steady (match link m with Some l => [(player m, l)] | None => [] end) r r'.
Proof.
  intros Eb Em Ei Ems. unfold steady. rewrite Eb, Em. split_and!; [done.. |].
  intros p l. unfold seats. rewrite Ems, fmap_app, elem_of_app. intros [? | H]; [by left |].
  apply list_elem_of_singleton in H. simplify_eq/=. rewrite <- H0. right. by apply list_elem_of_singleton.
Qed.

Lemma steady_join r new token pw resume content now :
  let '(r', result) := join hmac_verify outcome r new token pw resume content now in
  steady (if is_ok result then [(new_player new, new_link new)] else []) r r'.
Proof.
  unfold join. case_bool_decide; [done |]. set (seat := position _ (members r)).
  pose proof (admit_same hmac_verify r (new_player new) (bool_decide (is_Some seat)) token pw now) as Ha.
  destruct (admit_player _ _ _ _ _ _ _) as [r1 ok]. cbn in Ha. destruct Ha as (Hq & _ & _).
  pose proof (quiet_steady _ _ Hq) as Hs. destruct ok; cbn; [| done]. destruct seat as [i |] eqn:Hseat.
  - destruct (rejoin_of r1 resume content); [| done]. cbn. etransitivity; [by apply steady_weaken |].
    eapply quiet_steady, quiet_take_seat. by eapply seat_player_at.
  - unfold seat_newcomer. destruct (phase r1) as [| g].
    + destruct (_ <=? _); [done |]. cbn. etransitivity; [by apply steady_weaken |].
      by apply (steady_add r1 (Member_new new now)).
    + case_bool_decide; [done |]. destruct (_ <=? _); [done |]. destruct (_ || _); [done |].
      destruct (append _ _ _) as [g' rules]. cbn [is_ok]. etransitivity; [by apply steady_weaken |].
      etransitivity; [| apply steady_weaken, quiet_steady, quiet_offer_worlds].
      set (m := _ <| needs := NeedsWorld |>). by apply (steady_add r1 m).
Qed.

Lemma steady_start r p h now : steady [] r (start crc outcome disk r p h now).1.
Proof.
  unfold start. destruct (negb _); [done |]. destruct (phase r); [| done].
  destruct (negb _); [done |]. destruct (_ || _); [done |].
  destruct (seat_all _ _ _) as [g rules]. cbn [fst].
  set (r1 := r <| ruleset := rules |> <| room_content := _ |>).
  set (open := turn_start _ _ _ _ _ _).
  pose proof (quiet_for_members r1 (start_member outcome open (bool_decide (is_Some (snapshots r1))))
    (quiet_start_member outcome open _)) as Hq.
  set (r2 := for_members r1 _) in *. clearbody r2.
  etransitivity; [| apply quiet_steady, quiet_open_log].
  etransitivity; [apply (steady_same _ _ r1); done |]. etransitivity; [apply quiet_steady, Hq |].
  etransitivity; [apply (steady_same _ _ (r2 <| phase := Running g |>)); done |].
  destruct (_ && _); [apply quiet_steady, quiet_offer_worlds | reflexivity].
Qed.

Lemma steady_intent r p c payload now : steady [] r (intent outcome r p c payload now).
Proof.
  unfold intent. destruct (position _ _) as [i |]; [| done].
  destruct (members r !! i) as [m |]; [| done].
  destruct (phase r) as [| g]; [apply quiet_steady, quiet_push |].
  destruct (TokenBucket_take (intents m) now 1) as [b1 granted].
  set (r1 := update_member r i _).
  assert (quiet r r1) as H1 by (apply quiet_update; done).
  destruct granted; cbn [negb]; [| apply quiet_steady; by etransitivity; [exact H1 | apply quiet_push]].
  destruct (TokenBucket_take (payload_bytes m) now _) as [b2 granted].
  set (r2 := update_member r1 i _).
  assert (quiet r r2) as H2 by (etransitivity; [exact H1 | apply quiet_update; done]).
  destruct granted; cbn [negb]; [| apply quiet_steady; by etransitivity; [exact H2 | apply quiet_push]].
  etransitivity; [apply quiet_steady, H2 |].
  destruct (validate _ _ _) as [u | code]; [| apply quiet_steady, quiet_push].
  destruct (append _ _ _). by apply steady_same.
Qed.

Lemma steady_close_all r code : steady [] r (close_all r code).
Proof.
  unfold close_all. set (f := λ (r : room) (index : nat), _).
  assert (Hf : ∀ r0 i, quiet r0 (f r0 i)).
  { intros r0 i. subst f. cbn beta. etransitivity; [| apply quiet_unlink; intros m; [reflexivity | by right]].
    destruct (_ ≫= _) as [l |]; [apply quiet_emit | reflexivity]. }
  etransitivity; [apply quiet_steady, (quiet_for_members r f Hf) |]. by apply steady_same.
Qed.

Lemma steady_save_if_due r config now : steady [] r (save_if_due crc outcome disk r config now).
Proof.
  unfold save_if_due. destruct (phase r); [done |]. destruct (_ || _); [done |].
  destruct (append _ _ _) as [g1 rules]. destruct (seal _ _) as [g2 [frames | e]].
  - eapply steady_from; [| apply quiet_steady, quiet_publish]. done.
  - eapply steady_from; [| apply steady_close_all]. done.
Qed.

Lemma steady_seal_tick r now : steady [] r (seal_tick crc outcome disk r now).
Proof.
  unfold seal_tick. destruct (phase r) as [| g]; [done |].
  destruct (advance _ _ _ _ _) as [p frontier]. destruct (_ && _ && _); [by apply steady_same |].
  destruct (seal _ _) as [g2 [frames | e]].
  - eapply steady_from; [| apply quiet_steady, quiet_publish]. done.
  - eapply steady_from; [| apply steady_close_all]. done.
Qed.

Lemma steady_sweep fuel r : steady [] r (sweep_seats outcome fuel r).
Proof.
  revert r. induction fuel as [| fuel IH]; intros r; cbn [sweep_seats]; [done |].
  destruct (position _ _) as [i |]; [| done]. destruct (members r !! i) as [m |]; [| done].
  set (r1 := after_departure outcome _ _).
  assert (H : steady [] r r1) by (eapply steady_from; [apply (alike_delete r i) | apply steady_after_departure]).
  clearbody r1. destruct (closed r1); [done |]. etransitivity; [exact H | apply IH].
Qed.

Lemma steady_on_tick r now : steady [] r (on_tick crc outcome disk r now).
Proof.
  unfold on_tick. set (r1 := sweep_lobby outcome r).
  assert (H1 : steady [] r r1) by (subst r1; unfold sweep_lobby; destruct (phase r); [apply steady_sweep | done]).
  clearbody r1. set (r2 := expire_if_abandoned r1 now).
  assert (H2 : steady [] r r2).
  { etransitivity; [exact H1 |]. subst r2. unfold expire_if_abandoned. destruct (phase r1); [done |].
    destruct (existsb _ _); [by apply steady_same |]. destruct (_ <? _); [by apply steady_same |].
    set (r2 := r1 <| unattended_since := _ |>). etransitivity; [by apply (steady_same _ _ r2) |].
    etransitivity; [apply quiet_steady, (quiet_discard r2) | by apply steady_same]. }
  clearbody r2. destruct (closed r2); [done |]. set (r3 := demote_stalled _ now).
  assert (H3 : steady [] r r3).
  { etransitivity; [exact H2 |]. etransitivity; [| apply quiet_steady, quiet_demote]. eauto with room. }
  clearbody r3. set (r4 := run_saves crc outcome disk r3 now).
  assert (H4 : steady [] r r4).
  { etransitivity; [exact H3 |]. subst r4.
    destruct (run_saves_split crc outcome disk r3 now) as [Hq | (r' & config & Hq & ->)];
      [by apply quiet_steady |].
    etransitivity; [by apply quiet_steady | apply steady_save_if_due]. }
  clearbody r4. destruct (closed r4); [done |]. etransitivity; [exact H4 | apply steady_seal_tick].
Qed.

(** Whom a command may seat. *)
Definition newcomers (c : RoomCommand) (reply : Reply) : list (PlayerId * LinkId) :=
  match c, reply with CmdJoin m _ _ _ _, ReplyView (Ok _) => [(new_player m, new_link m)] | _, _ => [] end.

Lemma steady_handle r now c :
  let '(r', reply) := handle hmac_verify crc outcome disk r now c in steady (newcomers c reply) r r'.
Proof.
  destruct c as [new tok pw res ct | p | p l | p b | p ct | p h | p s | p t | p | p t | p s b
                | p l s | p l s lns | p l e lns w | p l s | p l s | p s res]; cbn [handle newcomers];
    try (apply quiet_steady; solve [eauto with room]).
  - pose proof (steady_join r new tok pw res ct now) as H. destruct (join _ _ _ _ _ _ _ _ _) as [r' [v | e]];
      cbn in *; [| done]. etransitivity; [exact H |]. apply steady_weaken, quiet_steady, quiet_broadcast.
  - pose proof (steady_leave r p false) as H. by destruct (leave _ _ _ _).
  - apply steady_disconnected.
  - pose proof (quiet_steady _ _ (quiet_set_ready r p b)) as H. destruct (set_ready r p b) as [r' [[] | e]]; try done.
    cbn. etransitivity; [exact H |]. apply quiet_steady, quiet_broadcast.
  - pose proof (quiet_steady _ _ (quiet_declare r p ct)) as H. destruct (declare_content r p ct) as [r' [[] | e]]; try done.
    cbn. etransitivity; [exact H |]. apply quiet_steady, quiet_broadcast.
  - pose proof (steady_start r p h now) as H. destruct (start _ _ _ _ _ _ _) as [r' result].
    unfold answer_and_broadcast. cbn in *. destruct (is_ok result); [| done].
    etransitivity; [exact H | apply quiet_steady, quiet_broadcast].
  - pose proof (quiet_steady _ _ (quiet_set_speed r p s)) as H. by destruct (set_speed r p s).
  - pose proof (steady_kick r p t) as H. by destruct (kick _ _ _ _).
  - reflexivity.
  - pose proof (quiet_steady _ _ (quiet_chat outcome r p t now)) as H. by destruct (chat _ _ _ _ _).
  - apply steady_intent.
  - reflexivity.
  - pose proof (quiet_steady _ _ (quiet_upload_starts r p l s)) as H. by destruct (upload_starts _ _ _ _).
Qed.

(** A step that answers nobody: the clock, or a finished compaction. *)
Lemma steady_step r now s :
  match s with StepCommand _ => True | _ => steady [] r (step_room hmac_verify crc outcome disk r now s) end.
Proof.
  destruct s as [c | | d renamed]; cbn [step_room]; [done | apply steady_on_tick |].
  apply quiet_steady. eauto with room.
Qed.

Lemma barred_run r steps :
  let r' := run_room hmac_verify crc outcome disk r steps in
  banned r ⊆ banned r' ∧ max_players r' = max_players r.
Proof.
  cbn zeta. revert r. induction steps as [| [now s] steps IH]; intros r; cbn [run_room]; [done |].
  destruct (closed r); [done |]. set (r1 := step_room _ _ _ _ r now s).
  assert (banned r ⊆ banned r1 ∧ max_players r1 = max_players r) as [Hb Hm].
  { pose proof (steady_step r now s) as Hs. destruct s as [c | |]; [| by destruct Hs as (? & ? & _)..].
    subst r1. cbn. pose proof (steady_handle r now c) as H. destruct (handle _ _ _ _ _ _ _). by destruct H as (? & ? & _). }
  destruct (IH r1). split; [set_solver | congruence].
Qed.
End steady.

(** * What holds of every room *)

Lemma Room_new_ok {R} {RS : Ruleset R} {P : Postcard TurnMessage} id room_name rules max_players
    settings secrets (fresh : R) data_dir timeouts snapshots compact creator now :
  1 ≤ max_players →
  room_ok fresh (Room_new id room_name rules max_players settings secrets fresh data_dir timeouts
    snapshots compact creator now).
Proof.
  intros Hmax. right. split; [split; cbn; [apply NoDup_singleton | lia | done] |].
  split; [intros p _; cbn; set_solver | left].
Qed.

(** C4: whatever commands, ticks and finished compactions a room gets, in
    whatever order, and whichever sends and writes fail, a room that has not
    closed has distinct members, no more than the owner asked for and nobody the
    owner barred among them, one of whom owns it; its rules are fresh in the
    lobby, and in a running game its members are those the game's events seated,
    its rules are the fresh rules under those events, and its log is the game's
    own (turns numbered from 1, with the events in order). *)
Theorem room_invariant {R} {RS : Ruleset R} {P : Postcard TurnMessage} {PS : Postcard StartRecord}
    (hmac_verify : list Z → list Z → list Z → bool) (crc : list Z → Z)
    (outcome : nat → SendOutcome) (disk : nat → WriteOutcome)
    (id : RoomId) (room_name rules : Text) (most : Z) (st : RoomSettings) (sec : RoomSecrets)
    (fresh : R) (data_dir : bool) (ts : Timeouts) (sn : option SnapshotsConfig) (compact : Z)
    (creator : NewMember) (now : Instant) (steps : list (Instant * RoomStep)) :
  1 ≤ most →
  let r := run_room hmac_verify crc outcome disk
             (Room_new id room_name rules most st sec fresh data_dir ts sn compact creator now) steps in
  closed r = true ∨
  (NoDup (players r) ∧ Z.of_nat (length (members r)) ≤ most ∧
   (∀ p, p ∈ players r → p ∉ banned r) ∧ owner r ∈ players r ∧
   match phase r with
   | Lobby => ruleset r = fresh
   | Running g =>
       seat_player <$> seated g = players r ∧
       ∃ all, game_ok g (MkPosition 1 1 0) all ∧
         let evs := (all ≫= events) ++ pending g in
         ruleset r = apply_events fresh evs ∧ seated g = foldl seat [] evs
   end).
Proof.
  intros Hmax r. set (r0 := Room_new _ _ _ _ _ _ _ _ _ _ _ _ _) in r.
  pose proof (barred_run hmac_verify crc outcome disk r0 steps) as [_ Hm]. fold r in Hm.
  pose proof (run_room_ok hmac_verify crc outcome disk fresh r0 steps) as H. fold r in H.
  destruct H as [Hc | ([Hd Hn Hp] & Hb & Ho)]; [by apply Room_new_ok | by left | right].
  rewrite Hm in Hn. split; [done |]. split; [done |]. split; [done |]. split; [done |].
  destruct (phase r); [done |]. destruct Hp as [Hg Hs]. by split.
Qed.

(** C24: a player the owner removes while the list of the barred has room stays
    out: after any further run of the room, the room has closed or the player
    has no seat in it. *)
Theorem kicked_stays_out {R} {RS : Ruleset R} {P : Postcard TurnMessage} {PS : Postcard StartRecord}
    (hmac_verify : list Z → list Z → list Z → bool) (crc : list Z → Z)
    (outcome : nat → SendOutcome) (disk : nat → WriteOutcome) (fresh : R) (r : Room R)
    (p t : PlayerId) (steps : list (Instant * RoomStep)) :
  room_ok fresh r → closed r = false → Z.of_nat (size (banned r)) < MAX_BANNED →
  (kick outcome r p t).2 = Ok tt →
  let r' := run_room hmac_verify crc outcome disk (kick outcome r p t).1 steps in
  closed r' = true ∨ t ∉ players r'.
Proof.
  intros Hr Hc Hsize Hk r'. destruct Hr as [| (Ht & Hb & Ho)]; [congruence |].
  assert (Hban : t ∈ banned (kick outcome r p t).1).
  { unfold kick in *. destruct (negb _); [done |]. destruct (_ =? _); [done |].
    destruct (position _ _) as [i |]; [| done].
    rewrite (q_banned _ _ (quiet_push outcome r i Kicked)).
    apply (proj1 (steady_leave outcome _ t true)). rewrite (proj2 (Z.ltb_lt _ _) Hsize). cbn. set_solver. }
  pose proof (run_room_ok hmac_verify crc outcome disk fresh (kick outcome r p t).1 steps
    (kick_ok outcome disk fresh r p t Ht Hb Ho)) as [Hc' | (_ & Hb' & _)]; [by left | right].
  intros Hin. apply (Hb' t Hin). by apply (proj1 (barred_run hmac_verify crc outcome disk _ steps)).
Qed.

(** * A room of two

    The owner (player 1) and a guest (player 2) in the lobby, and the game they
    start; every send arrives and every write succeeds. *)
Module RoomExamples.
Export Concrete ConcreteStart.

Definition linux := MkPlatform Linux X86_64.
Definition any_tag (key input tag : list Z) : bool := true.
Definition no_crc (l : list Z) : Z := 0.
Definition sends (n : nat) : SendOutcome := Sent.
Definition writes (n : nat) : WriteOutcome := Written.

Definition lobby : Room AcceptAll :=
  Room_new 9 "table" "rules" 4 DEFAULT_SETTINGS (MkRoomSecrets [] [] None) accept_all true
    (MkTimeouts (from_secs 10) (from_secs 60) (from_secs 60)) None 1000000
    (MkNewMember 1 "ada" linux 11) 0.

Definition gathering : list (Instant * RoomStep) := [
  (10, StepCommand (CmdJoin (MkNewMember 2 "bob" linux 12) 0 None None None));
  (20, StepCommand (CmdSetReady 1 true)); (21, StepCommand (CmdSetReady 2 true));
  (30, StepCommand (CmdDeclareContent 1 7)); (31, StepCommand (CmdDeclareContent 2 7))].

Definition play : list (Instant * RoomStep) := gathering ++ [
  (40, StepCommand (CmdStart 1 77));
  (50, StepCommand (CmdIntent 2 1 [10; 20]));
  (60, StepTick);
  (70, StepCommand (CmdKick 1 2));
  (80, StepCommand (CmdJoin (MkNewMember 2 "bob" linux 13) 0 None None None));
  (90, StepTick)].

Definition run : Room AcceptAll → list (Instant * RoomStep) → Room AcceptAll :=
  run_room any_tag no_crc sends writes.
End RoomExamples.

Lemma room_invariant_witness :
  let r := RoomExamples.run RoomExamples.lobby RoomExamples.play in
  closed r = false ∧ players r = [1] ∧
  (closed r = true ∨
   (NoDup (players r) ∧ Z.of_nat (length (members r)) ≤ 4 ∧
    (∀ p, p ∈ players r → p ∉ banned r) ∧ owner r ∈ players r ∧
    match phase r with
    | Lobby => ruleset r = accept_all
    | Running g =>
        seat_player <$> seated g = players r ∧
        ∃ all, game_ok (P := Concrete.turn_postcard) g (MkPosition 1 1 0) all ∧
          let evs := (all ≫= events) ++ pending g in
          ruleset r = apply_events accept_all evs ∧ seated g = foldl seat [] evs
    end)).
Proof.
  split; [vm_compute; reflexivity |]. split; [vm_compute; reflexivity |].
  exact (room_invariant (P := Concrete.turn_postcard) (PS := ConcreteStart.start_postcard) RoomExamples.any_tag RoomExamples.no_crc
    RoomExamples.sends RoomExamples.writes 9 "table" "rules" 4
    DEFAULT_SETTINGS (MkRoomSecrets [] [] None) accept_all true
    (MkTimeouts (from_secs 10) (from_secs 60) (from_secs 60)) None 1000000
    (MkNewMember 1 "ada" RoomExamples.linux 11) 0 RoomExamples.play ltac:(lia)).
Defined.

Lemma kicked_stays_out_witness :
  let r := RoomExamples.run RoomExamples.lobby RoomExamples.gathering in
  let r' := RoomExamples.run (kick RoomExamples.sends r 1 2).1
              [(80, StepCommand (CmdJoin (MkNewMember 2 "bob" RoomExamples.linux 13) 0 None None None))] in
  players r = [1; 2] ∧ (closed r' = true ∨ 2 ∉ players r').
Proof.
  split; [vm_compute; reflexivity |].
  refine (kicked_stays_out (P := Concrete.turn_postcard) (PS := ConcreteStart.start_postcard)
    RoomExamples.any_tag RoomExamples.no_crc RoomExamples.sends RoomExamples.writes accept_all
    (RoomExamples.run RoomExamples.lobby RoomExamples.gathering) 1 2
    [(80, StepCommand (CmdJoin (MkNewMember 2 "bob" RoomExamples.linux 13) 0 None None None))] _ _ _ _).
  - apply run_room_ok, Room_new_ok. lia.
  - vm_compute. reflexivity.
  - vm_compute. reflexivity.
  - vm_compute. reflexivity.
Defined.
