(* ===== verification/Holds.v ===== *)
(** What a room owes the snapshot store ([crates/tpf3mp-server/src/room.rs],
    [snapshots.rs]): every hold a room takes over or takes itself is in one of its two
    slots, the current snapshot and the one before, or has been given back.

    The holds a room takes and gives back are in its trace ([OHold], [ORelease]); an
    upload that ended well brings one along ([CmdUploaded]).  [worth] is what the
    trace says less what the slots hold.  Almost every operation leaves it as it is
    ([even]). *)
From S2P Require Import Prelude Proto Codec Limit Verdict Snapshots Ruleset Game Persist Room RoomInv.
From S2P Require Pacing.
Local Open Scope Z_scope.

(** * Counting *)
Definition count (id : ManifestId) (ids : list ManifestId) : Z := Z.of_nat (length (List.filter (Z.eqb id) ids)).

(** What one output does to the number of holds on a snapshot. *)
Definition turnover (id : ManifestId) (o : Output) : Z :=
  match o with
  | OHold id' => if id =? id' then 1 else 0
  | ORelease ids => - count id ids
  | _ => 0
  end.

Definition net (os : list Output) (id : ManifestId) : Z := sum_Z (turnover id <$> os).
Definition slots {R} (r : Room R) (id : ManifestId) : Z := count id (held_snapshots r).
Definition worth {R} (r : Room R) (id : ManifestId) : Z := net (out r) id - slots r id.

Lemma count_app id l1 l2 : count id (l1 ++ l2) = count id l1 + count id l2.
Proof. unfold count. rewrite List.filter_app, length_app. lia. Qed.

Lemma count_id_cons id x l : count id (x :: l) = (if id =? x then 1 else 0) + count id l.
Proof. unfold count. cbn. destruct (id =? x); cbn [length]; lia. Qed.

Lemma count_nonneg id l : 0 ≤ count id l.
Proof. unfold count. lia. Qed.

Lemma count_id_pos id l : 0 < count id l ↔ id ∈ l.
Proof.
  unfold count. rewrite list_elem_of_In. split.
  - intros H. destruct (List.filter (Z.eqb id) l) as [|x k] eqn:E; [cbn in H; lia|].
    assert (In x (List.filter (Z.eqb id) l)) as Hx by (rewrite E; by left).
    apply filter_In in Hx as [Hx ->%Z.eqb_eq]. done.
  - intros H. destruct (List.filter (Z.eqb id) l) eqn:E; [|cbn; lia].
    assert (In id (List.filter (Z.eqb id) l)) as Hx by (apply filter_In; split; [done | apply Z.eqb_refl]).
    by rewrite E in Hx.
Qed.

Lemma net_app os1 os2 id : net (os1 ++ os2) id = net os1 id + net os2 id.
Proof. unfold net. by rewrite fmap_app, sum_Z_app. Qed.

Lemma net_one o id : net [o] id = turnover id o.
Proof. unfold net. cbn [fmap list_fmap]. rewrite sum_Z_cons, sum_Z_nil. lia. Qed.

(** * Operations that change nothing *)
Record even {R} (r r' : Room R) : Prop := {
  ev_snapshots : snapshots r' = snapshots r;
  ev_worth : ∀ id, worth r' id = worth r id;
  ev_slots : ∀ id, id ∈ held_snapshots r' → id ∈ held_snapshots r;
  ev_out : out r `prefix_of` out r';
  ev_closed : closed r' = closed r;
}.
Arguments ev_snapshots {R} r r'. Arguments ev_worth {R} r r'. Arguments ev_slots {R} r r'. Arguments ev_out {R} r r'.
Arguments ev_closed {R} r r'.

#[export] Instance even_preorder {R} : PreOrder (@even R).
Proof.
  split; [by intros r |]. intros r1 r2 r3 [A1 A2 A3 A4 A5] [B1 B2 B3 B4 B5]. split; [congruence | | auto | by etransitivity | congruence].
  intros id. by rewrite B2.
Qed.

(** The slots of two games are the same. *)
Definition same_slots (g g' : Game) : Prop := current (saves g') = current (saves g) ∧ previous (saves g') = previous (saves g).

#[export] Instance same_slots_preorder : PreOrder same_slots.
Proof. split; [by intros g |]. intros g1 g2 g3 [A1 A2] [B1 B2]. split; congruence. Qed.

Lemma held_same g g' : same_slots g g' → held (saves g') = held (saves g).
Proof. intros [E1 E2]. unfold held, kept. by rewrite E1, E2. Qed.

Section even.
Context {R : Type} {RS : Ruleset R} {P : Postcard TurnMessage} {PS : Postcard StartRecord}.
Context (hmac_verify : list Z → list Z → list Z → bool) (crc : list Z → Z).
Context (outcome : nat → SendOutcome) (disk : nat → WriteOutcome).
Abbreviation room := (Room R).
Implicit Types r : room.

Lemma even_same r r' : out r' = out r → held_snapshots r' = held_snapshots r → snapshots r' = snapshots r → closed r' = closed r → even r r'.
Proof. intros E1 E2 E3 E4. split; [done | | by rewrite E2 | by rewrite E1 | done]. intros id. unfold worth, slots. by rewrite E1, E2. Qed.

Lemma worth_emit r o id : worth (emit r o) id = worth r id + turnover id o.
Proof. unfold worth. change (out (emit r o)) with (out r ++ [o]). rewrite net_app, net_one. change (slots (emit r o) id) with (slots r id). lia. Qed.

Lemma even_emit r o : (∀ id, turnover id o = 0) → even r (emit r o).
Proof. intros Ho. split; [done | | done | by apply prefix_app_r | done]. intros id. rewrite worth_emit, Ho. lia. Qed.

Lemma even_phase r g g' : phase r = Running g → same_slots g g' → even r (r <| phase := Running g' |>).
Proof.
  intros Hp Hg. apply even_same; [done | | done | done]. unfold held_snapshots. rewrite Hp. cbn. by apply held_same.
Qed.

Lemma even_foldl {A} (f : room → A → room) (l : list A) r : (∀ r a, even r (f r a)) → even r (foldl f r l).
Proof. intros H. revert r. induction l as [|a l IH]; intros r; [reflexivity|]. etransitivity; [apply H | apply IH]. Qed.

Lemma even_for_members r f : (∀ r i, even r (f r i)) → even r (for_members r f).
Proof. intros H. by apply even_foldl. Qed.
End even.

(** Two rooms that differ in nothing that counts. *)
Ltac even_fields := apply even_same; reflexivity.

Create HintDb even.
#[export] Hint Extern 1 (even _ _) => reflexivity : even.
#[export] Hint Extern 2 (even _ (emit _ _)) => apply even_emit; reflexivity : even.
#[export] Hint Extern 3 (even _ (update_member _ _ _)) => even_fields : even.

(** One step at the end of an operation. *)
Ltac then_even H := etransitivity; [| apply H].

Section operations.
Context {R : Type} {RS : Ruleset R} {P : Postcard TurnMessage} {PS : Postcard StartRecord}.
Context (hmac_verify : list Z → list Z → list Z → bool) (crc : list Z → Z).
Context (outcome : nat → SendOutcome) (disk : nat → WriteOutcome).
Abbreviation room := (Room R).
Implicit Types r : room.

Lemma even_update r i f : even r (update_member r i f).
Proof. even_fields. Qed.

Lemma even_try_send r o : (∀ id, turnover id o = 0) → even r (try_send outcome r o).1.
Proof.
  intros Ho. unfold try_send. cbn [fst]. set (r1 := r <| calls := _ |>). assert (even r r1) as H1 by even_fields.
  destruct (outcome (calls r)); [|exact H1..]. etransitivity; [exact H1 | by apply even_emit].
Qed.

Lemma even_drop_link r i slow : even r (drop_link r i slow).
Proof.
  unfold drop_link. destruct (members r !! i ≫= link); [|reflexivity]. then_even even_update.
  destruct slow; [by apply even_emit | reflexivity].
Qed.

Lemma even_sent r o i : (∀ id, turnover id o = 0) →
  even r (match try_send outcome r o with
          | (r, Sent) => r
          | (r, QueueFull) => drop_link r i true
          | (r, QueueClosed) => drop_link r i false
          end).
Proof.
  intros Ho. pose proof (even_try_send r o Ho) as H. destruct (try_send outcome r o) as [r' []]; cbn [fst] in H; [done|..];
    (etransitivity; [exact H | apply even_drop_link]).
Qed.

Lemma even_push r i msg : even r (push outcome r i msg).
Proof. unfold push. destruct (members r !! i ≫= link); [by apply even_sent | reflexivity]. Qed.

Lemma even_send_turn r i feed : even r (send_turn outcome r i feed).
Proof. unfold send_turn. destruct (members r !! i ≫= link); [by apply even_sent | reflexivity]. Qed.

Lemma even_broadcast r : even r (broadcast_view outcome r).
Proof. apply even_for_members. intros. apply even_push. Qed.

(** What a room's end looks at stays: who is seated, and since when nobody is there. *)
Definition still r r' : Prop :=
  (members r' = [] → members r = []) ∧ unattended_since r' = unattended_since r ∧ timeouts r' = timeouts r ∧
  (phase r = Lobby → phase r' = Lobby).

#[export] Instance still_preorder : PreOrder still.
Proof. split; [by intros r |]. intros r1 r2 r3 (A1 & A2 & A3 & A4) (B1 & B2 & B3 & B4). repeat split; [auto | congruence | congruence | auto]. Qed.

Lemma quiet_still r r' : quiet r r' → still r r'.
Proof.
  intros H. split; [|split; [apply (q_unattended _ _ H) | split; [apply (q_timeouts _ _ H)|]]].
  - intros E. pose proof (q_players _ _ H) as Hp. rewrite E in Hp. by destruct (members r).
  - intros E. pose proof (q_phase _ _ H) as Hp. rewrite E in Hp. by destruct (phase r').
Qed.

(** Everyone is let go, and nothing is given back. *)
Definition shut r r' : Prop :=
  closed r' = true ∧ even r (r' <| closed := closed r |>) ∧ still r r'.

Lemma even_shut r1 r2 r3 : even r1 r2 → still r1 r2 → shut r2 r3 → shut r1 r3.
Proof.
  intros H1 S1 (Hc & H2 & S2). split; [done|]. split; [|by etransitivity]. rewrite <- (ev_closed _ _ H1). by etransitivity.
Qed.

Lemma shut_close_all r code : shut r (close_all r code).
Proof.
  unfold close_all. set (f := λ r index, _). set (r1 := for_members r f). split; [done|].
  assert (H1 : even r r1).
  { apply even_for_members. intros r' i. unfold f. then_even even_update. destruct (members r' !! i ≫= link); [by apply even_emit | reflexivity]. }
  split; [rewrite <- (ev_closed _ _ H1); change (closed r1) with (closed (r1 <| closed := true |> <| closed := closed r1 |>)) |].
  - etransitivity; [exact H1|]. even_fields.
  - assert (quiet r r1) as Hq; [|by apply (quiet_still r r1) in Hq].
    apply quiet_for_members. intros r' i. unfold f. etransitivity; [|apply quiet_unlink; [done | by right]].
    destruct (members r' !! i ≫= link); [apply quiet_emit | reflexivity].
Qed.

Lemma even_offer_world o now r e : even r (offer_world outcome o now r e).
Proof.
  unfold offer_world. destruct e as [i [feed from]]. destruct (members r !! i ≫= link) as [l|]; [|reflexivity].
  pose proof (even_try_send r (OTurns l feed) (λ _, eq_refl)) as H. destruct (try_send _ _ _) as [r' s]. cbn [fst] in H.
  destruct (negb _); repeat (then_even even_update); exact H.
Qed.

Lemma even_offer_worlds r now : even r (offer_worlds outcome r now).
Proof.
  unfold offer_worlds. destruct (phase r) as [|g] eqn:Hp; [reflexivity|].
  etransitivity; [|apply even_foldl; intros; apply even_offer_world]. by apply (even_phase r g).
Qed.

Lemma even_announce r now step notices : even r (announce_divergence outcome r now step notices).
Proof.
  unfold announce_divergence. case_bool_decide; [reflexivity|]. then_even even_offer_worlds.
  apply even_foldl. intros r' [p lns]. unfold announce_one. destruct (position _ _); [|reflexivity].
  then_even even_update. apply even_push.
Qed.

Lemma slots_close_rounds l g : same_slots g (foldl close_round g l).
Proof. revert g. induction l as [|s l IH]; intros g; [reflexivity|]. etransitivity; [|apply IH]. done. Qed.

Lemma slots_prune g : same_slots g (prune_rounds g).
Proof. apply slots_close_rounds. Qed.

Lemma slots_judged ms now l acc : same_slots acc.1.1 (foldl (judge_round ms now) acc l).1.1.
Proof.
  revert acc. induction l as [|s l IH]; intros acc; [reflexivity|]. etransitivity; [|apply IH].
  destruct acc as [[g decided] expired]. unfold judge_round. destruct (rounds g !! s) as [round|]; [|reflexivity].
  case_bool_decide; [reflexivity|]. destruct (_ && _); [by destruct (decide_round round) | by destruct (_ <=? _)].
Qed.

Lemma even_checkpoint r p l step lns now : even r (checkpoint outcome r p l step lns now).
Proof.
  unfold checkpoint. destruct (phase r) as [|g] eqn:Hp; [reflexivity|].
  destruct (position _ _) as [i|]; [|reflexivity].
  destruct (_ || _ || _); [reflexivity|]. destruct (_ && _); [reflexivity|].
  destruct (_ && _); [reflexivity|]. destruct (existsb _ _); [by apply (even_phase r g)|].
  destruct (members r !! i) as [m|]; [|reflexivity]. destruct (add_report _ _ _) as [round notices].
  then_even even_announce. apply (even_phase r g); [done|]. etransitivity; [|apply slots_prune]. done.
Qed.

Lemma even_decide_waiting r now : even r (decide_waiting_rounds outcome r now).
Proof.
  unfold decide_waiting_rounds. destruct (phase r) as [|g] eqn:Hp; [reflexivity|].
  pose proof (slots_judged (members r) now (btree_keys (rounds g)) (g, [], [])) as Hj.
  destruct (foldl _ (g, [], []) _) as [[g1 decided] expired]. cbn [fst] in Hj.
  assert (Hg : same_slots g (foldl close_round g1 expired)) by (etransitivity; [exact Hj | apply slots_close_rounds]).
  case_bool_decide; [by apply (even_phase r g)|].
  etransitivity; [|apply even_foldl; intros; apply even_announce].
  apply (even_phase r g); [done|]. etransitivity; [exact Hg | apply slots_prune].
Qed.

Lemma even_set_speed r p sp : even r (set_speed r p sp).1.
Proof.
  unfold set_speed. destruct (negb _); [reflexivity|]. destruct (phase r) as [|g] eqn:Hp; [reflexivity|].
  destruct (_ <? _); [reflexivity|]. by apply (even_phase r g).
Qed.

Lemma even_progress r p l step now : even r (progress r p l step now).
Proof.
  unfold progress. destruct (phase r) as [|g]; [reflexivity|]. destruct (position _ _) as [i|]; [|reflexivity].
  destruct (_ <? _); then_even even_update; [by apply even_emit | reflexivity].
Qed.

Lemma even_demote r now : even r (demote_stalled r now).
Proof. unfold demote_stalled. destruct (phase r); [reflexivity | even_fields]. Qed.

Lemma even_start_compaction r : even r (start_compaction r).
Proof.
  unfold start_compaction. case_bool_decide; [reflexivity|].
  destruct (data_dir r), (room_log r), (phase r); try reflexivity.
  destruct (_ || _); [reflexivity|]. destruct (save_rules _); even_fields.
Qed.

Lemma even_finish_compaction r done renamed : even r (finish_compaction crc disk r done renamed).
Proof.
  unfold finish_compaction. destruct (compaction r) as [c|]; [|reflexivity].
  destruct done as [l|e]; [|even_fields]. destruct (append_all _ _ _ _) as [l' appended].
  set (r1 := r <| compaction := None |> <| calls := _ |>). assert (even r r1) as H1 by even_fields.
  assert (even r (emit r1 ODiscardCompaction)) as H2 by (etransitivity; [exact H1 | by apply even_emit]).
  destruct appended; [destruct (install renamed l') as [l'' []] |]; etransitivity; [exact H1 | | exact H2 | | exact H2 |]; even_fields.
Qed.

Lemma even_cancel_compaction r : even r (cancel_compaction r).
Proof. unfold cancel_compaction. destruct (compaction r); [|reflexivity]. etransitivity; [|by apply even_emit]. even_fields. Qed.

Lemma even_publish r frames : even r (publish crc outcome disk r frames).
Proof.
  unfold publish. then_even even_start_compaction.
  etransitivity; [|apply even_foldl; intros r' f; apply even_for_members; intros r'' i;
    destruct (default _ _); [apply even_send_turn | reflexivity]].
  destruct (room_log r) as [l|]; [destruct (append_all _ _ _ _) as [l' done]; cbn|]; destruct (compaction r); even_fields.
Qed.

(** * Saves *)

(** A snapshot that is promoted takes a slot; the one that goes gives its hold back. *)
Lemma promote_moves r now a : is_Some (snapshots r) → (∃ g, phase r = Running g) →
  snapshots (promote outcome r now a) = snapshots r ∧
  (∀ id, worth (promote outcome r now a) id = worth r id - (if id =? manifest_id (manifest a) then 1 else 0)) ∧
  (∀ id, id ∈ held_snapshots (promote outcome r now a) → id ∈ held_snapshots r ∨ id = manifest_id (manifest a)) ∧
  out r `prefix_of` out (promote outcome r now a) ∧ closed (promote outcome r now a) = closed r.
Proof.
  intros Hs [g Hp]. unfold promote. rewrite Hp. set (g1 := g <| saves ::= _ |>). set (r1 := r <| phase := Running g1 |>).
  change (snapshots r1) with (snapshots r). rewrite bool_decide_eq_true_2 by done.
  set (r2 := if data_dir r1 then _ else _). set (released := option_list _).
  assert (H2 : even r1 r2) by (unfold r2; destruct (data_dir r1); [by apply even_emit | reflexivity]).
  pose proof (even_offer_worlds (emit r2 (ORelease released)) now) as H3.
  assert (Hheld : held_snapshots r1 = manifest_id (manifest a) :: option_list ((λ a, manifest_id (manifest a)) <$> current (saves g))).
  { unfold held_snapshots, r1, g1, held, kept. cbn. by destruct (current (saves g)). }
  assert (Hbefore : held_snapshots r = option_list ((λ a, manifest_id (manifest a)) <$> current (saves g)) ++ released).
  { unfold held_snapshots, released. rewrite Hp. unfold held, kept. by destruct (current (saves g)), (previous (saves g)). }
  split; [|split; [|split; [|split]]].
  - rewrite (ev_snapshots _ _ H3). cbn. by rewrite (ev_snapshots _ _ H2).
  - intros id. rewrite (ev_worth _ _ H3), worth_emit, (ev_worth _ _ H2). cbn [turnover].
    unfold worth, slots. change (out r1) with (out r). rewrite Hheld, count_id_cons, Hbefore, count_app. lia.
  - intros id Hid. apply (ev_slots _ _ H3) in Hid. change (held_snapshots (emit r2 _)) with (held_snapshots r2) in Hid.
    apply (ev_slots _ _ H2) in Hid. rewrite Hheld in Hid. apply elem_of_cons in Hid as [->|Hid]; [by right | left].
    rewrite Hbefore. apply elem_of_app. by left.
  - etransitivity; [exact (ev_out _ _ H2)|]. etransitivity; [|exact (ev_out _ _ H3)]. by apply prefix_app_r.
  - rewrite (ev_closed _ _ H3). exact (ev_closed _ _ H2).
Qed.

Lemma find_agreed_held s snapshot mf : manifest <$> find_agreed s snapshot = Some mf → manifest_id mf = snapshot ∧ manifest_id mf ∈ held s.
Proof.
  intros (a & Ha & ->)%fmap_Some. unfold find_agreed in Ha. apply find_some in Ha as [Hin E].
  apply Z.eqb_eq in E. split; [exact E|]. unfold held. apply list_elem_of_fmap. exists a. split; [done|]. by apply list_elem_of_In.
Qed.

Lemma even_ask_for_upload r pt cs now : is_Some (snapshots r) → even r (ask_for_upload outcome r pt cs now).
Proof.
  intros Hs. induction cs as [|[p w] cs IH]; cbn [ask_for_upload]; [reflexivity|].
  destruct (phase r) as [|g] eqn:Hp; [reflexivity|].
  destruct (manifest <$> _) as [mf|] eqn:Hf.
  - rewrite bool_decide_eq_true_2 by done. apply find_agreed_held in Hf as [_ Hf].
    destruct (promote_moves (emit r (OHold (manifest_id mf))) now (MkAgreed mf pt)) as (A1 & A2 & A3 & A4 & A5); [done | by exists g |].
    cbn [manifest] in *. split; [by rewrite A1 | | | etransitivity; [|exact A4]; by apply prefix_app_r | by rewrite A5].
    + intros id. rewrite A2, worth_emit. cbn [turnover]. lia.
    + intros id [Hid| ->]%A3; [exact Hid|]. unfold held_snapshots. by rewrite Hp.
  - destruct (position _ _) as [i|]; [|exact IH]. then_even even_push. by apply (even_phase r g).
Qed.

Lemma even_decide_save r event now : is_Some (snapshots r) → even r (decide_save outcome r event now).
Proof.
  intros Hs. unfold decide_save. destruct (phase r) as [|g] eqn:Hp; [reflexivity|].
  destruct (save_rounds _ !! event) as [round|]; [|reflexivity]. destruct (decide_saves _) as [cs diverged].
  set (r1 := announce_divergence _ _ _ _ _).
  assert (even r r1) as H1 by (unfold r1; then_even even_announce; by apply (even_phase r g)).
  etransitivity; [exact H1|]. apply even_ask_for_upload. by rewrite (ev_snapshots _ _ H1).
Qed.

Lemma even_saved r p l event lns w now : is_Some (snapshots r) → even r (saved outcome r p l event lns w now).
Proof.
  intros Hs. unfold saved. destruct (position _ _) as [i|]; [|reflexivity].
  destruct (members r !! i) as [m|]; [|reflexivity]. destruct (phase r) as [|g] eqn:Hp; [reflexivity|].
  destruct (_ || _); [reflexivity|]. destruct (save_rounds _ !! event) as [round|]; [|reflexivity].
  destruct (existsb _ _); [reflexivity|]. set (r1 := r <| phase := _ |>).
  assert (even r r1) as H1 by (by apply (even_phase r g)).
  destruct (save_complete _ _); [|exact H1]. etransitivity; [exact H1|]. by apply even_decide_save.
Qed.

Lemma even_upload_starts r p l snapshot : even r (upload_starts r p l snapshot).1.
Proof.
  unfold upload_starts. destruct (phase r) as [|g] eqn:Hp; [reflexivity|].
  destruct (upload (saves g)) as [u|]; [|reflexivity]. destruct (_ && _); [by apply (even_phase r g) | reflexivity].
Qed.

(** * The game's own steps *)
Lemma slots_append g body (rules : R) : same_slots g (append g body rules).1.
Proof. by unfold append. Qed.

Lemma slots_remember g t : same_slots g (remember g t).
Proof. unfold remember, trim. by destruct (trim_loop _ _ _ _ _) as [[[? ?] ?] ?]. Qed.

Lemma slots_seal_batches g frontier batches : same_slots g (seal_batches g frontier batches).1.
Proof.
  revert g. induction batches as [|b bs IH]; intros g; cbn [seal_batches]; [reflexivity|].
  destruct (encode_frame _ _) as [frame|]; [|reflexivity].
  set (g1 := remember g _). pose proof (slots_remember g (MkLoggedTurn (default (next_event g) (seq <$> head b))
    (if bool_decide (bs = []) then frontier else sealed_through g) frame)) as H1. fold g1 in H1.
  specialize (IH (g1 <| next_turn := next_turn g1 + 1 |>)). destruct (seal_batches _ _ bs) as [g2 frames]. cbn [fst] in *.
  etransitivity; [exact H1 | exact IH].
Qed.

Lemma slots_seal g frontier : same_slots g (seal g frontier).1.
Proof.
  unfold seal. pose proof (slots_seal_batches (g <| pending := [] |>) frontier (batches_of (pending g))) as H.
  destruct (seal_batches _ _ _) as [g1 [frames|e]]; exact H.
Qed.

Lemma slots_seat_all ms g (rules : R) : same_slots g (seat_all ms g rules).1.
Proof.
  unfold seat_all. revert g rules. induction ms as [|m ms IH]; intros g rules; [reflexivity|]. cbn [foldl fst snd].
  pose proof (slots_append g (PlayerJoined (player m) (name m) (platform m)) rules) as H.
  destruct (append g _ rules) as [g1 rules1]. etransitivity; [exact H | apply IH].
Qed.

Lemma failed_slots s p : current (failed_uploader s p) = current s ∧ previous (failed_uploader s p) = previous s.
Proof. unfold failed_uploader. by repeat case_match. Qed.

(** A game that goes on: published, or everyone is let go. *)
Definition goes_on r r' : Prop := even r r' ∧ still r r' ∨ shut r r' ∧ phase r ≠ Lobby.

Lemma goes_on_after r1 r2 r3 : even r1 r2 → still r1 r2 → goes_on r2 r3 → goes_on r1 r3.
Proof.
  intros H1 S1 [[H2 S2]|[H2 Hp]]; [left; split; by etransitivity | right]. split; [by eapply even_shut|].
  intros E. apply Hp. by apply S1.
Qed.

Lemma still_phase r g g' : phase r = Running g → still r (r <| phase := Running g' |>).
Proof. intros Hp. split; [done|]. split; [done|]. split; [done|]. by rewrite Hp. Qed.

Lemma sealed_goes_on r g g1 frontier : phase r = Running g → same_slots g g1 →
  goes_on r (let '(g, frames) := seal g1 frontier in
             match frames with
             | Err _ => close_all (r <| phase := Running g |>) SHUTTING_DOWN
             | Ok frames => publish crc outcome disk (r <| phase := Running g |>) frames
             end).
Proof.
  intros Hp Hg. pose proof (slots_seal g1 frontier) as Hs. destruct (seal g1 frontier) as [g2 [frames|e]]; cbn [fst] in Hs;
    (apply (goes_on_after r (r <| phase := Running g2 |>)); [apply (even_phase r g); [done | by etransitivity] | by apply (still_phase r g)|]).
  - left. split; [apply even_publish | apply quiet_still, quiet_publish].
  - right. split; [apply shut_close_all | done].
Qed.

Lemma save_if_due_goes_on r config now : goes_on r (save_if_due crc outcome disk r config now).
Proof.
  unfold save_if_due. destruct (phase r) as [|g] eqn:Hp; [by left|]. destruct (_ || _); [by left|].
  pose proof (slots_append g SaveWorld (ruleset r)) as Ha. destruct (append g SaveWorld (ruleset r)) as [g1 rules]. cbn [fst] in Ha.
  pose proof (slots_seal g1 (sealed_through g1)) as Hs. destruct (seal g1 (sealed_through g1)) as [g2 [frames|e]]; cbn [fst] in Hs;
    apply (goes_on_after r (r <| ruleset := rules |>)); [even_fields | done | | even_fields | done |].
  - set (g3 := g2 <| saves ::= _ |>). apply (goes_on_after _ (r <| ruleset := rules |> <| phase := Running g3 |>)).
    + apply (even_phase _ g); [exact Hp|]. etransitivity; [exact Ha|]. by etransitivity; [exact Hs|].
    + by apply (still_phase _ g).
    + left. split; [apply even_publish | apply quiet_still, quiet_publish].
  - apply (goes_on_after _ (r <| ruleset := rules |> <| phase := Running g2 |>)).
    + apply (even_phase _ g); [exact Hp|]. by etransitivity.
    + by apply (still_phase _ g).
    + right. split; [apply shut_close_all | done].
Qed.

Lemma run_saves_goes_on r now : goes_on r (run_saves crc outcome disk r now).
Proof.
  unfold run_saves. destruct (snapshots r) as [config|] eqn:Hs; [|by left]. destruct (phase r) as [|g] eqn:Hp; [by left|].
  set (ready := List.filter _ _). set (stalled := u ← _; _). set (g1 := match stalled with Some u => _ | None => g end).
  assert (H1 : even r (r <| phase := Running g1 |>) ∧ quiet r (r <| phase := Running g1 |>)).
  { split.
    - apply (even_phase r g); [done | unfold g1; destruct stalled as [u|]; [exact (failed_slots ((saves g) <| upload := None |>) (upload_from u)) | reflexivity]].
    - apply (quiet_phase r g); [done|]. unfold g1. destruct stalled; [by split | reflexivity]. }
  set (r2 := foldl _ (r <| phase := Running g1 |>) ready).
  assert (H2 : even r r2 ∧ quiet r r2).
  { unfold r2. clear -H1 Hs. revert H1. generalize (r <| phase := Running g1 |>) as r1. induction ready as [|e l IH]; intros r1 [H1 Q1]; [done|].
    cbn [foldl]. apply IH. split; [|etransitivity; [exact Q1 | apply quiet_decide_save]].
    etransitivity; [exact H1|]. apply even_decide_save. rewrite (ev_snapshots _ _ H1), Hs. by eexists. }
  clearbody r2. destruct H2 as [H2 Q2]. apply (goes_on_after r r2); [done | by apply quiet_still|].
  destruct stalled as [u|]; [|apply save_if_due_goes_on].
  set (r3 := if receiving u then _ else r2).
  assert (H3 : even r2 r3 ∧ quiet r2 r3).
  { unfold r3. destruct (receiving u); [|done]. destruct (position _ _) as [i|]; [|done].
    destruct (members r2 !! i ≫= link); [|done]. split.
    - then_even even_update. by apply even_emit.
    - etransitivity; [apply quiet_emit | apply quiet_unlink; intros x; [reflexivity | by right]]. }
  clearbody r3. destruct H3 as [H3 Q3]. apply (goes_on_after r2 r3); [done | by apply quiet_still|].
  eapply goes_on_after; [| |apply save_if_due_goes_on].
  - apply even_ask_for_upload. rewrite (ev_snapshots _ _ H3), (ev_snapshots _ _ H2), Hs. by eexists.
  - apply quiet_still, quiet_ask_for_upload.
Qed.

Lemma seal_tick_goes_on r now : goes_on r (seal_tick crc outcome disk r now).
Proof.
  unfold seal_tick. destruct (phase r) as [|g] eqn:Hp; [by left|]. destruct (Pacing.advance _ _ _ _ _) as [p frontier].
  destruct (_ && _); [left; split; [by apply (even_phase r g) | by apply (still_phase r g)]|].
  by apply (sealed_goes_on r g).
Qed.

(** * Leaving *)

(** The game is over: everyone has left, or nobody has been there for as long as a game
    is kept. *)
Definition left_alone (now : Instant) r : Prop :=
  ∃ since, unattended_since r = Some since ∧ abandoned (timeouts r) ≤ saturating_duration_since now since.
Definition over (now : Instant) r : Prop := members r = [] ∨ left_alone now r.

(** The room is over and has given back what its slots held. *)
Definition gone now r r' : Prop :=
  closed r' = true ∧ snapshots r' = snapshots r ∧ (∀ id, net (out r') id = worth r id) ∧
  (∀ id, id ∈ held_snapshots r' → id ∈ held_snapshots r) ∧ out r `prefix_of` out r' ∧ over now r'.

(** The room cannot go on, and has given back nothing. *)
Definition stuck now r r' : Prop :=
  closed r' = true ∧ even r (r' <| closed := closed r |>) ∧ ¬ left_alone now r' ∧ (members r' = [] → members r = []).

(** What a step does: nothing that counts, or the end. *)
Definition settles now r r' : Prop := even r r' ∨ gone now r r'.

Lemma even_settles now r1 r2 r3 : even r1 r2 → settles now r2 r3 → settles now r1 r3.
Proof.
  intros H1 [H2|(A1 & A2 & A3 & A4 & A5 & A6)]; [left; by etransitivity | right].
  destruct H1 as [B1 B2 B3 B4 B5]. split; [done|]. split; [congruence|]. split; [intros id; by rewrite A3 |]. split; [auto |].
  split; [by etransitivity | done].
Qed.

Lemma discarded now r : is_Some (snapshots r) → over now r → gone now r ((discard_game r) <| closed := true |>).
Proof.
  intros [config Hs] Hover. assert (Hover' : over now ((discard_game r) <| closed := true |>)).
  { pose proof (quiet_discard r) as Hq. unfold over in *. cbn. rewrite (q_unattended _ _ Hq), (q_timeouts _ _ Hq).
    destruct Hover as [E|H]; [left | by right]. pose proof (q_players _ _ Hq) as Hp. rewrite E in Hp. by destruct (members (discard_game r)). }
  revert Hover'. unfold discard_game.
  set (r1 := cancel_compaction r). pose proof (even_cancel_compaction r) as H1. fold r1 in H1.
  set (r2 := match room_log r1 with Some _ => _ | None => r1 end).
  assert (H2 : even r r2).
  { etransitivity; [exact H1|]. unfold r2. destruct (room_log r1); [|reflexivity]. etransitivity; [|by apply even_emit]. even_fields. }
  set (r3 := if data_dir r2 then _ else r2).
  assert (H3 : even r r3) by (etransitivity; [exact H2|]; unfold r3; destruct (data_dir r2); [by apply even_emit | reflexivity]).
  clearbody r3. clear H1 H2 r1 r2. destruct H3 as [A1 A2 A3 A4 _]. rewrite A1, Hs.
  assert (Hw : ∀ id, net (out r3) id = worth r id + slots r3 id) by (intros id; rewrite <- A2; unfold worth; lia).
  destruct (phase r3) as [|g] eqn:Hp.
  - intros Ho. split; [done|]. split; [cbn; congruence|]. split; [|split; [exact A3 | split; [exact A4 | exact Ho]]].
    intros id. change (out _) with (out r3).
    assert (slots r3 id = 0) as E by (unfold slots, held_snapshots; by rewrite Hp). rewrite Hw. lia.
  - unfold release_in_background. case_bool_decide as Hh; intros Ho; (split; [done|]); (split; [cbn; congruence|]);
      (split; [|split; [exact A3 | split; [first [exact A4 | etransitivity; [exact A4 | by apply prefix_app_r]] | exact Ho]]]); intros id.
    + change (out _) with (out r3). assert (slots r3 id = 0) as E by (unfold slots, held_snapshots; by rewrite Hp, Hh). rewrite Hw. lia.
    + change (out _) with (out r3 ++ [ORelease (held (saves g))]). rewrite net_app, net_one, Hw. cbn [turnover].
      assert (slots r3 id = count id (held (saves g))) as E by (unfold slots, held_snapshots; by rewrite Hp). lia.
Qed.

Lemma settles_after_departure now r p : is_Some (snapshots r) → settles now r (after_departure outcome r p).
Proof.
  intros Hs. unfold after_departure. destruct (members r) as [|first rest] eqn:Hm; [right; apply discarded; [done | by left] | left].
  then_even even_broadcast. destruct (owner r =? p); [even_fields | reflexivity].
Qed.

Lemma settles_leave now r p kicked : is_Some (snapshots r) → settles now r (leave outcome r p kicked).1.
Proof.
  intros Hs. unfold leave. destruct (position _ _) as [i|]; [|by left]. destruct (members r !! i) as [m|]; [|by left]. cbn [fst].
  set (r1 := r <| members := _ |>). assert (H1 : even r r1) by even_fields.
  set (r2 := match link m with Some l => _ | None => r1 end).
  assert (H2 : even r1 r2).
  { unfold r2. destruct (link m); [|reflexivity]. destruct (streaming m); [by apply even_try_send | reflexivity]. }
  set (r3 := match phase r2 with Lobby => r2 | Running g => _ end).
  assert (H3 : even r2 r3).
  { unfold r3. destruct (phase r2) as [|g] eqn:Hp; [reflexivity|]. pose proof (slots_append g (PlayerLeft p kicked) (ruleset r2)) as Ha.
    destruct (append g _ _) as [g1 rules]. etransitivity; [by apply (even_phase r2 g) | even_fields]. }
  apply (even_settles now r r3); [by do 2 (etransitivity; [eassumption|])|]. apply settles_after_departure.
  rewrite (ev_snapshots _ _ H3), (ev_snapshots _ _ H2). done.
Qed.

Lemma settles_kick now r by_player target : is_Some (snapshots r) → settles now r (kick outcome r by_player target).1.
Proof.
  intros Hs. unfold kick. destruct (negb _); [by left|]. destruct (_ =? _); [by left|]. destruct (position _ _) as [i|]; [|by left].
  set (r1 := push _ _ _ _). pose proof (even_push r i Kicked) as H1. fold r1 in H1.
  set (r2 := if _ <? _ then _ else r1). assert (H2 : even r r2) by (etransitivity; [exact H1|]; unfold r2; destruct (_ <? _); [even_fields | reflexivity]).
  apply (even_settles now r r2); [exact H2|]. apply settles_leave. by rewrite (ev_snapshots _ _ H2).
Qed.

Lemma settles_disconnected now r p l : is_Some (snapshots r) → settles now r (disconnected outcome r p l).
Proof.
  intros Hs. unfold disconnected. destruct (position _ _) as [i|]; [|by left]. destruct (phase r).
  - apply (even_settles now r (r <| members := delete i (members r) |>)); [even_fields | by apply settles_after_departure].
  - left. then_even even_broadcast. apply even_update.
Qed.

(** * Coming *)
Lemma even_chat r p text now : even r (chat outcome r p text now).1.
Proof.
  unfold chat. destruct (position _ _) as [i|]; [|reflexivity]. destruct (members r !! i) as [m|]; [|reflexivity].
  destruct (TokenBucket_take _ _ _) as [bucket granted]. destruct (negb granted); [apply even_update|]. cbn [fst].
  etransitivity; [|apply even_for_members; intros; apply even_push]. apply even_update.
Qed.

Lemma even_intent r p client_seq pl now : even r (intent outcome r p client_seq pl now).
Proof.
  unfold intent. destruct (position _ _) as [i|]; [|reflexivity]. destruct (members r !! i) as [m|]; [|reflexivity].
  destruct (phase r) as [|g] eqn:Hp; [apply even_push|]. destruct (TokenBucket_take _ _ _) as [bucket granted].
  destruct (negb granted); [then_even even_push; apply even_update|]. destruct (TokenBucket_take _ _ _) as [bytes granted2].
  set (r2 := update_member (update_member r i _) i _). assert (H2 : even r r2) by even_fields.
  destruct (negb granted2); [then_even even_push; exact H2|]. destruct (validate _ _ _); [|then_even even_push; exact H2].
  pose proof (slots_append g (Command p client_seq pl) (ruleset r2)) as Ha. destruct (append g _ _) as [g1 rules].
  etransitivity; [exact H2|]. etransitivity; [apply (even_phase r2 g); [exact Hp | exact Ha] | even_fields].
Qed.

Lemma even_admit r p seated token password now : even r (admit_player hmac_verify r p seated token password now).1.
Proof.
  unfold admit_player. destruct (check_secrets _ _ _ _ _), seated; try reflexivity; [|even_fields].
  destruct (guard_open _ _) as [g is_open]. even_fields.
Qed.

Lemma even_take_seat r i new rejoin now : even r (take_seat outcome r i new rejoin now).
Proof.
  unfold take_seat. then_even even_offer_worlds. then_even even_update.
  set (r1 := match members r !! i ≫= link with Some old => _ | None => r end).
  assert (H1 : even r r1) by (unfold r1; destruct (members r !! i ≫= link); [destruct (negb _); [by apply even_emit | reflexivity] | reflexivity]).
  etransitivity; [exact H1|]. set (r2 := update_member r1 i _). assert (H2 : even r1 r2) by apply even_update. etransitivity; [exact H2|].
  destruct rejoin as [|feed|]; [reflexivity | | apply even_update]. set (r3 := update_member r2 i _).
  pose proof (even_try_send r3 (OTurns (new_link new) feed) (λ _, eq_refl)) as H3. destruct (try_send _ _ _) as [r4 sent]. cbn [fst] in H3.
  then_even even_update. etransitivity; [apply even_update | exact H3].
Qed.

Lemma even_seat_newcomer r new content now : even r (seat_newcomer outcome r new content now).1.
Proof.
  unfold seat_newcomer. destruct (phase r) as [|g] eqn:Hp.
  { destruct (_ <=? _); [reflexivity | even_fields]. }
  case_bool_decide; [reflexivity|]. destruct (_ <=? _); [reflexivity|]. destruct (_ || _); [reflexivity|].
  pose proof (slots_append g (PlayerJoined (new_player new) (new_name new) (new_platform new)) (ruleset r)) as Ha.
  destruct (append g _ _) as [g1 rules]. cbn [fst]. then_even even_offer_worlds.
  etransitivity; [by apply (even_phase r g) | even_fields].
Qed.

Lemma even_join r new token password resume content now :
  even r (join hmac_verify outcome r new token password resume content now).1.
Proof.
  unfold join. case_bool_decide; [reflexivity|].
  pose proof (even_admit r (new_player new) (bool_decide (is_Some (position (λ m, player m =? new_player new) (members r)))) token password now) as H1.
  destruct (admit_player _ _ _ _ _ _ _) as [r1 admitted]. cbn [fst] in H1. destruct (negb admitted); [exact H1|].
  destruct (position _ _) as [i|]; [|etransitivity; [exact H1 | apply even_seat_newcomer]].
  destruct (rejoin_of _ _ _); [|exact H1]. etransitivity; [exact H1 | apply even_take_seat].
Qed.

Lemma even_set_ready r p b : even r (set_ready r p b).1.
Proof. unfold set_ready. destruct (in_lobby r p); [apply even_update | reflexivity]. Qed.

Lemma even_declare r p c : even r (declare_content r p c).1.
Proof. unfold declare_content. destruct (in_lobby r p); [apply even_update | reflexivity]. Qed.

Lemma even_start_member open shared r i : even r (start_member outcome open shared r i).
Proof.
  unfold start_member. destruct (members r !! i) as [m|]; [|reflexivity].
  destruct (_ && _); [even_fields|]. destruct (link m) as [l|]; [|even_fields].
  set (r1 := update_member (update_member r i _) i _). assert (H1 : even r r1) by even_fields.
  pose proof (even_try_send r1 (OTurns l (FeedOpen open [])) (λ _, eq_refl)) as H2. destruct (try_send _ _ _) as [r2 sent]. cbn [fst] in H2.
  then_even even_update. by etransitivity.
Qed.

Lemma even_open_log r history : even r (open_log crc disk r history).
Proof. unfold open_log. destruct (negb _); [reflexivity|]. destruct (create_log _ _ _); even_fields. Qed.

Lemma even_start r p history_id now : even r (start crc outcome disk r p history_id now).1.
Proof.
  unfold start. destruct (negb _); [reflexivity|]. destruct (phase r) as [|g0] eqn:Hp; [|reflexivity].
  destruct (negb _); [reflexivity|]. destruct (_ || _); [reflexivity|].
  pose proof (slots_seat_all (members r) (Game_new (settings r) history_id now) (ruleset r)) as Hg.
  destruct (seat_all _ _ _) as [g rules]. cbn [fst] in Hg |- *. then_even even_open_log.
  set (r1 := r <| ruleset := rules |> <| room_content := _ |>). assert (H1 : even r r1) by even_fields.
  set (r2 := for_members r1 _). assert (H2 : even r1 r2) by (apply even_for_members; intros; apply even_start_member).
  assert (H3 : even r (r2 <| phase := Running g |>)).
  { split; [exact (eq_trans (ev_snapshots _ _ H2) eq_refl) | | | | exact (ev_closed _ _ H2)].
    - intros id. rewrite <- (ev_worth _ _ H1), <- (ev_worth _ _ H2). unfold worth, slots. f_equal.
      assert (held_snapshots r2 = []) as E2.
      { destruct (held_snapshots r2) as [|x l] eqn:E; [done|]. exfalso. assert (x ∈ held_snapshots r1) as Hx by (apply (ev_slots _ _ H2); rewrite E; by left).
        unfold held_snapshots, r1 in Hx. cbn in Hx. rewrite Hp in Hx. by apply not_elem_of_nil in Hx. }
      rewrite E2. unfold held_snapshots. cbn. by rewrite (held_same _ _ Hg).
    - intros id Hid. unfold held_snapshots in Hid. cbn in Hid. rewrite (held_same _ _ Hg) in Hid. by apply not_elem_of_nil in Hid.
    - exact (ev_out _ _ H2). }
  destruct (_ && _); [then_even even_offer_worlds|]; exact H3.
Qed.

(** * The clock *)

(** A running game that goes on was attended, or not left alone for long enough. *)
Lemma settles_expire r now : is_Some (snapshots r) →
  let r' := expire_if_abandoned r now in
  settles now r r' ∧ (closed r' = true ∨ phase r = Lobby ∧ r' = r ∨ ¬ left_alone now r' ∧ members r' = members r).
Proof.
  intros Hs. unfold expire_if_abandoned. destruct (phase r) as [|g]; [split; [by left | right; by left]|]. cbv zeta.
  destruct (existsb _ _); [split; [left; even_fields|]; right; right; split; [by intros (since & E & _) | done]|].
  set (since := default now (unattended_since r)). set (r1 := r <| unattended_since := _ |>). assert (H1 : even r r1) by even_fields.
  destruct (Z.ltb_spec (saturating_duration_since now since) (abandoned (timeouts r1))) as [Hlt|Hge].
  - split; [by left|]. right. right. split; [|done]. intros (s & [= <-] & Hge). lia.
  - split; [|by left]. apply (even_settles now r r1); [exact H1|]. right. apply discarded; [done|]. right. by exists since.
Qed.

Lemma settles_sweep now fuel r : is_Some (snapshots r) → phase r = Lobby →
  let r' := sweep_seats outcome fuel r in settles now r r' ∧ phase r' = Lobby.
Proof.
  revert r. induction fuel as [|fuel IH]; intros r Hs Hl; cbn [sweep_seats]; [split; [by left | done]|].
  destruct (position _ _) as [i|]; [|split; [by left | done]]. destruct (members r !! i) as [m|]; [|split; [by left | done]].
  set (r1 := r <| members := delete i (members r) |>). assert (H1 : even r r1) by even_fields.
  assert (Hl2 : phase (after_departure outcome r1 (player m)) = Lobby).
  { pose proof (after_departure_phase outcome r1 (player m)) as Hp. change (phase r1) with (phase r) in Hp. rewrite Hl in Hp.
    by destruct (phase (after_departure outcome r1 (player m))). }
  pose proof (settles_after_departure now r1 (player m) Hs) as H2.
  set (r2 := after_departure outcome r1 (player m)) in *. clearbody r2. destruct H2 as [H2|H2].
  - assert (Hall : even r r2) by (by etransitivity). destruct (closed r2); [split; [by left | done]|].
    destruct (IH r2) as [H3 Hl3]; [by rewrite (ev_snapshots _ _ H2) | done |]. split; [by eapply even_settles | done].
  - rewrite (proj1 H2). split; [|done]. apply (even_settles now r r1); [exact H1 | by right].
Qed.

(** The rest of a tick. *)
Lemma tick_goes_on r now :
  let r' := demote_stalled (decide_waiting_rounds outcome r now) now in
  let r' := run_saves crc outcome disk r' now in
  goes_on r (if closed r' then r' else seal_tick crc outcome disk r' now).
Proof.
  set (r3 := demote_stalled (decide_waiting_rounds outcome r now) now). cbv zeta. apply (goes_on_after r r3).
  - etransitivity; [apply even_decide_waiting | apply even_demote].
  - apply quiet_still. etransitivity; [apply quiet_decide_waiting | apply quiet_demote].
  - destruct (run_saves_goes_on r3 now) as [[H4 S4]|[H4 Hp]].
    + destruct (closed (run_saves crc outcome disk r3 now)); [by left|]. eapply goes_on_after; [exact H4 | exact S4 | apply seal_tick_goes_on].
    + rewrite (proj1 H4). by right.
Qed.

Lemma settles_tick r now : is_Some (snapshots r) →
  let r' := on_tick crc outcome disk r now in settles now r r' ∨ stuck now r r'.
Proof.
  intros Hs. unfold on_tick, sweep_lobby. cbv zeta. destruct (phase r) as [|g] eqn:Hl.
  - destruct (settles_sweep now (length (members r)) r Hs Hl) as [H1 Hl1]. set (r1 := sweep_seats outcome _ r) in *. clearbody r1.
    unfold expire_if_abandoned. rewrite Hl1. destruct (closed r1) eqn:Hc; [by left|].
    destruct H1 as [H1|[? _]]; [|congruence]. left. left. destruct (tick_goes_on r1 now) as [[H2 _]|[_ H2]]; [by etransitivity | done].
  - destruct (settles_expire r now Hs) as [H2 Hcase]. set (r2 := expire_if_abandoned r now) in *. clearbody r2.
    destruct (closed r2) eqn:Hc2; [by left|]. destruct Hcase as [?|[[? _]|[Halone Hm]]]; [done | congruence|].
    destruct H2 as [H2|[? _]]; [|congruence]. destruct (tick_goes_on r2 now) as [[H3 _]|[(A1 & A2 & A3 & A4 & A5 & _) _]]; [left; left; by etransitivity|].
    right. split; [done|]. split; [rewrite <- (ev_closed _ _ H2); by etransitivity|]. split; [|by rewrite <- Hm].
    intros (since & E & Hge). apply Halone. exists since. by rewrite A4 in E; rewrite A5 in Hge.
Qed.

(** * Commands *)

(** The hold a room takes over with a command. *)
Definition taken r (s : RoomStep) (id : ManifestId) : Z :=
  match s, phase r with
  | StepCommand (CmdUploaded _ _ (Ok mf)), Running _ => if id =? manifest_id mf then 1 else 0
  | _, _ => 0
  end.

Definition is_received (s : RoomStep) : bool := match s with StepCommand (CmdUploaded _ _ (Ok _)) => true | _ => false end.

(** An upload that ended well: what it held is in a slot now, or was given back. *)
Lemma uploaded_moves r p snapshot mf now : is_Some (snapshots r) →
  let r' := uploaded outcome r p snapshot (Ok mf) now in
  snapshots r' = snapshots r ∧
  (∀ id, worth r' id = worth r id - taken r (StepCommand (CmdUploaded p snapshot (Ok mf))) id) ∧
  (∀ id, id ∈ held_snapshots r' → id ∈ held_snapshots r ∨ 0 < taken r (StepCommand (CmdUploaded p snapshot (Ok mf))) id) ∧
  out r `prefix_of` out r' ∧ closed r' = closed r.
Proof.
  intros Hs r'. unfold r', uploaded, taken. clear r'. destruct (phase r) as [|g] eqn:Hp.
  { split; [done|]. split; [intros; lia |]. split; [by left | done]. }
  destruct (u ← upload (saves g); _) as [u|].
  - set (g1 := g <| saves ::= _ |>). assert (H1 : even r (r <| phase := Running g1 |>)) by (by apply (even_phase r g)).
    destruct (promote_moves (r <| phase := Running g1 |>) now (MkAgreed mf (upload_point u))) as (A1 & A2 & A3 & A4 & A5); [done | by eexists |].
    cbn [manifest] in A2, A3. split; [by rewrite A1|]. split; [intros id; by rewrite A2, (ev_worth _ _ H1)|].
    split; [|split; [exact A4 | exact A5]]. intros id [Hid| ->]%A3; [left; by apply (ev_slots _ _ H1) | right]. rewrite Z.eqb_refl. lia.
  - destruct Hs as [config Hs]. rewrite Hs. unfold release_in_background. rewrite bool_decide_eq_false_2 by done.
    split; [done|]. split; [|split; [by left | split; [by apply prefix_app_r | done]]]. intros id. rewrite worth_emit. cbn [turnover]. rewrite count_id_cons. unfold count. cbn. lia.
Qed.

Lemma even_upload_failed r p snapshot e now : is_Some (snapshots r) → even r (uploaded outcome r p snapshot (Err e) now).
Proof.
  intros Hs. unfold uploaded. destruct (phase r) as [|g] eqn:Hp; [reflexivity|].
  destruct (u ← upload (saves g); _) as [u|]; [|reflexivity]. set (g2 := (g <| saves ::= _ |>) <| saves ::= _ |>).
  assert (H1 : even r (r <| phase := Running g2 |>)).
  { apply (even_phase r g); [done|]. exact (failed_slots ((saves g) <| upload := None |>) p). }
  etransitivity; [exact H1|]. by apply even_ask_for_upload.
Qed.

Lemma settles_step r now s : is_Some (snapshots r) → is_received s = false →
  let r' := step_room hmac_verify crc outcome disk r now s in settles now r r' ∨ stuck now r r'.
Proof.
  intros Hs Hr. destruct s as [c| |l renamed]; cbn [step_room]; [|by apply settles_tick | left; left; apply even_finish_compaction]. left.
  destruct c as [m t pw re ct|p|p l|p b|p ct|p h|p sp|p t|p|p t|p cs b|p l st|p l st lns|p l e lns w|p l sn|p l sn|p sn [mf|e]]; cbn [handle];
    try discriminate Hr.
  - left. pose proof (even_join r m t pw re ct now) as H. destruct (join _ _ _ _ _ _ _ _ _) as [r' [v|e]]; cbn [fst is_ok] in *;
      [etransitivity; [exact H | apply even_broadcast] | exact H].
  - pose proof (settles_leave now r p false Hs) as H. by destruct (leave _ _ _ _) as [r' res].
  - by apply settles_disconnected.
  - left. pose proof (even_set_ready r p b) as H. unfold answer_and_broadcast_if_changed. cbn [fst].
    destruct (set_ready r p b) as [r' [[]|e]]; cbn [fst snd] in *; [etransitivity; [exact H | apply even_broadcast] | exact H..].
  - left. pose proof (even_declare r p ct) as H. unfold answer_and_broadcast_if_changed. cbn [fst].
    destruct (declare_content r p ct) as [r' [[]|e]]; cbn [fst snd] in *; [etransitivity; [exact H | apply even_broadcast] | exact H..].
  - left. pose proof (even_start r p h now) as H. unfold answer_and_broadcast. cbn [fst].
    destruct (start _ _ _ _ _ _ _) as [r' [[]|e]]; cbn [fst snd is_ok] in *; [etransitivity; [exact H | apply even_broadcast] | exact H].
  - left. pose proof (even_set_speed r p sp) as H. by destruct (set_speed r p sp).
  - pose proof (settles_kick now r p t Hs) as H. by destruct (kick _ _ _ _).
  - by left.
  - left. pose proof (even_chat r p t now) as H. by destruct (chat _ _ _ _ _).
  - left. apply even_intent.
  - left. apply even_progress.
  - left. apply even_checkpoint.
  - left. by apply even_saved.
  - by left.
  - left. pose proof (even_upload_starts r p l sn) as H. by destruct (upload_starts r p l sn).
  - left. by apply even_upload_failed.
Qed.

(** * Runs *)

(** The holds a run of the room takes over with uploads. *)
Fixpoint received r (steps : list (Instant * RoomStep)) (id : ManifestId) : Z :=
  match steps with
  | [] => 0
  | (now, s) :: steps => if closed r then 0 else taken r s id + received (step_room hmac_verify crc outcome disk r now s) steps id
  end.

(** When a run closes the room. *)
Fixpoint closed_at r (steps : list (Instant * RoomStep)) : option Instant :=
  match steps with
  | [] => None
  | (now, s) :: steps =>
      let r := step_room hmac_verify crc outcome disk r now s in if closed r then Some now else closed_at r steps
  end.

(** A room's books: what came in and was not given back is in the slots, until the game is
    over; then there is nothing. *)
Definition books (r : room) (ended : option Instant) (holds in_slots : Z) : Prop :=
  match ended with
  | None => closed r = false ∧ holds = in_slots
  | Some now => closed r = true ∧ (over now r → holds = 0) ∧ (¬ over now r → holds = in_slots)
  end.

Lemma step_books fresh r now s id came : room_ok fresh r → is_Some (snapshots r) → closed r = false → net (out r) id + came = slots r id →
  let r' := step_room hmac_verify crc outcome disk r now s in
  is_Some (snapshots r') ∧
  books r' (if closed r' then Some now else None) (net (out r') id + (came + taken r s id)) (slots r' id).
Proof.
  intros Hok Hs Hc Hb r'. destruct (is_received s) eqn:Hr.
  - destruct s as [[| | | | | | | | | | | | | | | |p snapshot [mf|e]]| |]; try discriminate Hr.
    destruct (uploaded_moves r p snapshot mf now Hs) as (A1 & A2 & _ & _ & A5). unfold r'. cbn [step_room handle fst].
    split; [by rewrite A1|]. specialize (A2 id). unfold worth in A2. set (r1 := uploaded _ _ _ _ _ _) in *.
    rewrite A5, Hc. split; [by rewrite A5 | lia].
  - assert (taken r s id = 0) as Ht. { unfold taken. destruct s as [[| | | | | | | | | | | | | | | |p snapshot [mf|e]]| |]; done. }
    rewrite Ht, Z.add_0_r. pose proof (settles_step r now s Hs Hr) as [[[A1 A2 _ _ A5]|(A1 & A2 & A3 & _ & _ & A6)]|(A1 & [B1 B2 _ _ _] & A3 & A4)].
    + fold r' in A1, A2, A5. rewrite A5, Hc. split; [by rewrite A1|]. specialize (A2 id). unfold worth in A2. split; [by rewrite A5 | lia].
    + fold r' in A1, A2, A3, A6. rewrite A1. split; [by rewrite A2|]. split; [done|]. split; [|done]. intros _. rewrite A3. unfold worth. lia.
    + fold r' in A1, B1, B2, A3, A4. rewrite A1. split; [cbn in B1; by rewrite B1|]. split; [done|]. split.
      * intros [E|E]; [|done]. apply A4 in E. destruct Hok as [|(_ & _ & Ho)]; [congruence|]. unfold players in Ho. rewrite E in Ho. by apply elem_of_nil in Ho.
      * intros _. specialize (B2 id). unfold worth in B2. change (out (r' <| closed := closed r |>)) with (out r') in B2.
        change (slots (r' <| closed := closed r |>) id) with (slots r' id) in B2. lia.
Qed.

Lemma run_closed r steps : closed r = true → run_room hmac_verify crc outcome disk r steps = r.
Proof. intros Hc. destruct steps as [|[now s] steps]; cbn [run_room]; [done|]. by rewrite Hc. Qed.

Lemma received_closed r steps id : closed r = true → received r steps id = 0.
Proof. intros Hc. destruct steps as [|[now s] steps]; cbn [received]; [done|]. by rewrite Hc. Qed.

Lemma run_books fresh r steps id came : room_ok fresh r → is_Some (snapshots r) → closed r = false → net (out r) id + came = slots r id →
  let r' := run_room hmac_verify crc outcome disk r steps in
  books r' (closed_at r steps) (net (out r') id + (came + received r steps id)) (slots r' id).
Proof.
  revert r came. induction steps as [|[now s] steps IH]; intros r came Hok Hs Hc Hb; cbn [run_room received closed_at].
  { by rewrite Z.add_0_r. }
  rewrite Hc. destruct (step_books fresh r now s id came Hok Hs Hc Hb) as [Hs' Hb'].
  pose proof (step_room_ok hmac_verify crc outcome disk fresh r now s Hok Hc) as Hok'.
  set (r1 := step_room hmac_verify crc outcome disk r now s) in *. destruct (closed r1) eqn:Hc1.
  - by rewrite run_closed, received_closed, Z.add_0_r.
  - replace (came + (taken r s id + received r1 steps id)) with (came + taken r s id + received r1 steps id) by lia.
    apply IH; [done | done | done | apply Hb'].
Qed.
End operations.

(** C19: A room keeps its books.  Whatever a room is asked and whatever fails, as long as
    it lives, the snapshots in its two slots are exactly those it holds: what uploads
    brought and it took itself, less what it gave back, for every snapshot and counted
    as often as it is held.  So no hold is forgotten, and none is given back twice or
    while the room still uses the snapshot.  A room that has closed because the game is
    over (everyone has left, or nobody had been connected for as long as an abandoned
    game is kept) has given back everything.  A room that has closed although it is
    not, which happens when a turn cannot be sealed, has given back nothing that is in
    its slots. *)
Theorem room_keeps_books {R} {RS : Ruleset R} {P : Postcard TurnMessage} {PS : Postcard StartRecord}
    (hmac_verify : list Z → list Z → list Z → bool) (crc : list Z → Z) (outcome : nat → SendOutcome) (disk : nat → WriteOutcome)
    (id : RoomId) (room_name rules : Text) (max_players : Z) (settings : RoomSettings) (secrets : RoomSecrets) (ruleset : R)
    (data_dir : bool) (timeouts : Timeouts) (config : SnapshotsConfig) (compact_log_at : Z) (creator : NewMember) (now : Instant)
    (steps : list (Instant * RoomStep)) (snapshot : ManifestId) : 1 ≤ max_players →
  let r0 := Room_new id room_name rules max_players settings secrets ruleset data_dir timeouts (Some config) compact_log_at creator now in
  let r := run_room hmac_verify crc outcome disk r0 steps in
  let holds := net (out r) snapshot + received hmac_verify crc outcome disk r0 steps snapshot in
  match closed_at hmac_verify crc outcome disk r0 steps with
  | None => closed r = false ∧ holds = slots r snapshot
  | Some ended =>
      closed r = true ∧
      let game_over := members r = [] ∨
        ∃ since, unattended_since r = Some since ∧ abandoned (Room.timeouts r) ≤ saturating_duration_since ended since in
      (game_over → holds = 0) ∧ (¬ game_over → holds = slots r snapshot)
  end.
Proof.
  intros Hmax r0 r holds.
  pose proof (run_books hmac_verify crc outcome disk ruleset r0 steps snapshot 0 (Room_new_ok _ _ _ _ _ _ _ _ _ _ _ _ _ Hmax)
    ltac:(by eexists) eq_refl eq_refl) as H.
  rewrite Z.add_0_l in H. exact H.
Qed.

(** A player alone at a table starts a game, saves its world and uploads it, and leaves. *)
Module HoldExamples.
Import RoomExamples.
Definition snapshot : ManifestId := 5.
Definition play : list (Instant * RoomStep) := [
  (20, StepCommand (CmdSetReady 1 true)); (30, StepCommand (CmdDeclareContent 1 7)); (40, StepCommand (CmdStart 1 77));
  (from_secs 1, StepTick); (from_secs 1, StepCommand (CmdProgress 1 11 0)); (from_secs 3, StepTick);
  (from_secs 4, StepCommand (CmdSaved 1 11 2 [] (Some (MkSavedWorld snapshot 3)))); (from_secs 5, StepCommand (CmdUpload 1 11 snapshot));
  (from_secs 6, StepCommand (CmdUploaded 1 snapshot (Ok (MkManifest snapshot 3))))].
Definition leaves : list (Instant * RoomStep) := play ++ [(from_secs 7, StepCommand (CmdLeave 1))].

Definition table : Room AcceptAll :=
  Room_new 9 "table" "rules" 4 DEFAULT_SETTINGS (MkRoomSecrets [] [] None) accept_all true
    (MkTimeouts (from_secs 10) (from_secs 60) (from_secs 60)) (Some (MkSnapshotsConfig (from_secs 2) (from_secs 1))) 1000000
    (MkNewMember 1 "ada" linux 11) 0.
Definition holds (steps : list (Instant * RoomStep)) : Z :=
  net (out (run table steps)) snapshot + received any_tag no_crc sends writes table steps snapshot.
Definition ends (steps : list (Instant * RoomStep)) : option Instant := closed_at any_tag no_crc sends writes table steps.

(** What [room_keeps_books] says of this table. *)
Definition kept (steps : list (Instant * RoomStep)) (ended : option Instant) : Prop :=
  match ended with
  | None => closed (run table steps) = false ∧ holds steps = slots (run table steps) snapshot
  | Some ended =>
      closed (run table steps) = true ∧
      (over ended (run table steps) → holds steps = 0) ∧ (¬ over ended (run table steps) → holds steps = slots (run table steps) snapshot)
  end.
End HoldExamples.

Lemma room_keeps_books_witness :
  slots (RoomExamples.run HoldExamples.table HoldExamples.play) HoldExamples.snapshot = 1 ∧ HoldExamples.holds HoldExamples.play = 1 ∧
  closed (RoomExamples.run HoldExamples.table HoldExamples.leaves) = true ∧ HoldExamples.holds HoldExamples.leaves = 0.
Proof.
  assert (E : slots (RoomExamples.run HoldExamples.table HoldExamples.play) HoldExamples.snapshot = 1) by (vm_compute; reflexivity).
  assert (H : ∀ steps, HoldExamples.kept steps (HoldExamples.ends steps)).
  { intros steps. unfold HoldExamples.kept, HoldExamples.ends, HoldExamples.holds, RoomExamples.run, HoldExamples.table.
    exact (room_keeps_books (P := Concrete.turn_postcard) (PS := ConcreteStart.start_postcard)
    RoomExamples.any_tag RoomExamples.no_crc RoomExamples.sends RoomExamples.writes 9 "table" "rules" 4
    DEFAULT_SETTINGS (MkRoomSecrets [] [] None) accept_all true (MkTimeouts (from_secs 10) (from_secs 60) (from_secs 60))
    (MkSnapshotsConfig (from_secs 2) (from_secs 1)) 1000000 (MkNewMember 1 "ada" RoomExamples.linux 11) 0 steps HoldExamples.snapshot ltac:(lia)). }
  assert (E1 : HoldExamples.ends HoldExamples.play = None) by (vm_compute; reflexivity).
  assert (E2 : HoldExamples.ends HoldExamples.leaves = Some (from_secs 7)) by (vm_compute; reflexivity).
  pose proof (H HoldExamples.play) as H1. pose proof (H HoldExamples.leaves) as H2. rewrite E1 in H1. rewrite E2 in H2.
  split; [exact E|]. split; [exact (eq_trans (proj2 H1) E)|]. split; [exact (proj1 H2)|].
  apply (proj1 (proj2 H2)). left. vm_compute. reflexivity.
Defined.
