(* ===== verification/Streams.v ===== *)
(** What a room puts on its members' turn streams: every stream of every
    connection is a piece of the one log of the game, from where its start
    message says, without a gap, up to where the game stands. *)
From S2P Require Import Prelude Proto TurnLog Codec Pacing Limit Verdict Snapshots Ruleset Game Follower Lockstep Persist Room RoomInv.
Local Open Scope Z_scope.

(** * The turn stream of a connection *)

Definition feed_to (l : LinkId) (o : Output) : option TurnFeed :=
  match o with
  | OTurns l' feed => if l' =? l then Some feed else None
  | _ => None
  end.

Definition feeds (l : LinkId) (out : list Output) : list TurnFeed := omap (feed_to l) out.

Definition start_pos (start : TurnStart) : Position :=
  MkPosition (start_next_turn start) (start_next_event start) (start_sealed_through start).

(** Where every log of a room begins. *)
Definition first_pos : Position := MkPosition 1 1 0.

Section fed.
Context {P : Postcard TurnMessage}.

(** [fed all fs st]: the messages [fs] open streams at positions of the log
    [all] and carry its turns from there, one after another; the last of them
    has come to [st] ([None]: no stream is open). *)
Inductive fed (all : list Turn) : list TurnFeed → option Position → Prop :=
  | fed_nil : fed all [] None
  | fed_open fs st start backlog before ts rest q :
      fed all fs st → all = before ++ ts ++ rest → chain first_pos before (start_pos start) →
      chain (start_pos start) ts q → Forall2 encodes ts backlog →
      fed all (fs ++ [FeedOpen start backlog]) (Some q)
  | fed_frame fs p f before t rest :
      fed all fs (Some p) → all = before ++ t :: rest → chain first_pos before p →
      turn_follows p t → encodes t f →
      fed all (fs ++ [FeedFrame f]) (Some (after p t))
  | fed_close fs st : fed all fs st → fed all (fs ++ [FeedClose]) None.
#[local] Hint Constructors fed : turns.

(** A longer log has the same pieces. *)
Lemma fed_extend all more fs st : fed all fs st → fed (all ++ more) fs st.
Proof.
  induction 1 as [| fs st start backlog before ts rest q _ IH E | fs p f before t rest _ IH E |].
  - constructor.
  - apply (fed_open _ _ st _ _ before ts (rest ++ more)); [done | | done..].
    by rewrite E, <- !app_assoc.
  - apply (fed_frame _ _ _ _ before t (rest ++ more)); [done | | done..].
    by rewrite E, <- app_assoc.
  - by eapply fed_close.
Qed.
End fed.

Lemma feeds_app l o1 o2 : feeds l (o1 ++ o2) = feeds l o1 ++ feeds l o2.
Proof. apply omap_app. Qed.

Lemma feeds_quiet l o : feed_to l o = None → ∀ out, feeds l (out ++ [o]) = feeds l out.
Proof. intros H out. rewrite feeds_app. cbn. by rewrite H, app_nil_r. Qed.

Lemma feeds_sent l feed out : feeds l (out ++ [OTurns l feed]) = feeds l out ++ [feed].
Proof. rewrite feeds_app. cbn. by rewrite Z.eqb_refl. Qed.

Lemma feeds_other l l' feed out : l' ≠ l → feeds l (out ++ [OTurns l' feed]) = feeds l out.
Proof. intros H. apply feeds_quiet. cbn. by rewrite (proj2 (Z.eqb_neq l' l) H). Qed.

(** * Streams and members *)

(** Everyone who streams on a connection has been brought to [hd]. *)
Definition up_to {P : Postcard TurnMessage} (all : list Turn) (hd : option Position)
    (out : list Output) (ms : list Member) : Prop :=
  ∀ l, ∃ st, fed all (feeds l out) st ∧
    ∀ m, m ∈ ms → link m = Some l → streaming m = true → st = hd.

(** A connection belongs to one player, and carries no other player's seat. *)
Definition owned (who : LinkId → PlayerId) (ms : list Member) : Prop :=
  ∀ m l, m ∈ ms → link m = Some l → who l = player m.

Definition head_of {R} (r : Room R) : option Position :=
  match phase r with Running g => Some (head_pos g) | Lobby => None end.

Record streams_ok {R} {P : Postcard TurnMessage} (who : LinkId → PlayerId) (all : list Turn)
    (r : Room R) : Prop := {
  so_fed : up_to all (head_of r) (out r) (members r);
  so_owned : owned who (members r);
  so_distinct : NoDup (players r);
  so_game : match phase r with
            | Lobby => all = [] ∧ Forall (λ m, streaming m = false) (members r)
            | Running g => closed r = false → game_ok g first_pos all
            end;
}.

(** A member that only lost its connection or its stream, if anything. *)
Record tame (m m' : Member) : Prop := {
  tame_player : player m' = player m;
  tame_link : link m' = None ∨ link m' = link m;
  tame_stream : streaming m' = true → streaming m = true ∧ link m' = link m;
}.

Lemma tame_refl m : tame m m.
Proof. split; auto. Qed.

Lemma tame_elem ms ms' m' : Forall2 tame ms ms' → m' ∈ ms' → ∃ m, m ∈ ms ∧ tame m m'.
Proof.
  intros H (i & Hi)%list_elem_of_lookup. destruct (Forall2_lookup_r _ _ _ _ _ H Hi) as (m & Hm & ?).
  exists m. split; [by eapply list_elem_of_lookup_2 | done].
Qed.

Lemma tame_players ms ms' : Forall2 tame ms ms' → player <$> ms' = player <$> ms.
Proof. induction 1 as [| m m' ms ms' [Hp _ _] _ IH]; csimpl; [done |]. by rewrite Hp, IH. Qed.

Lemma up_to_tame {P : Postcard TurnMessage} all hd out ms ms' :
  Forall2 tame ms ms' → up_to all hd out ms → up_to all hd out ms'.
Proof.
  intros Ht H l. destruct (H l) as (st & Hf & Hst). exists st. split; [done |].
  intros m' Hm' Hl Hs. destruct (tame_elem _ _ _ Ht Hm') as (m & Hm & [_ _ Htl]).
  destruct (Htl Hs) as [Hs1 Hl1]. apply (Hst m); [done | congruence | done].
Qed.

Lemma owned_tame who ms ms' : Forall2 tame ms ms' → owned who ms → owned who ms'.
Proof.
  intros Ht H m' l Hm' Hl. destruct (tame_elem _ _ _ Ht Hm') as (m & Hm & [Hp Hlk _]).
  rewrite Hp. apply (H m); [done |]. destruct Hlk; congruence.
Qed.

Lemma tame_all ms : Forall2 tame ms ms.
Proof. induction ms; constructor; auto using tame_refl. Qed.

Lemma alter_tame f i ms : (∀ m, tame m (f m)) → Forall2 tame ms (alter f i ms).
Proof.
  intros H. revert i. induction ms as [| m ms IH]; intros [| i]; simpl; constructor;
    auto using tame_refl, tame_all. apply IH.
Qed.

Lemma not_streaming_tame ms ms' :
  Forall2 tame ms ms' → Forall (λ m, streaming m = false) ms → Forall (λ m, streaming m = false) ms'.
Proof.
  induction 1 as [| m m' ms ms' [_ _ Hs] _ IH]; intros Hall; inversion Hall; subst; constructor; auto.
  destruct (streaming m'); [| done]. destruct Hs; congruence.
Qed.

Section keeps.
Context {R : Type} {RS : Ruleset R} {P : Postcard TurnMessage} {PS : Postcard StartRecord}.
Context (hmac_verify : list Z → list Z → list Z → bool) (crc : list Z → Z).
Context (outcome : nat → SendOutcome) (disk : nat → WriteOutcome).
Context (who : LinkId → PlayerId).
Abbreviation room := (Room R).
Implicit Types r : room.

(** A step of an open room that keeps the streams in order for the same log. *)
Definition keeps r r' : Prop :=
  ∀ all, closed r = false → streams_ok who all r → streams_ok who all r' ∧ closed r' = false.

#[local] Instance keeps_preorder : PreOrder keeps.
Proof.
  unfold keeps. split; [by intros r all |].
  intros r1 r2 r3 H1 H2 all Hc H. destruct (H1 all Hc H). auto.
Qed.

Lemma keeps_same r r' :
  members r' = members r → out r' = out r → phase r' = phase r → closed r' = closed r →
  keeps r r'.
Proof.
  intros Em Eo Ep Ec all Hc [H1 H2 H3 H4]. split; [| congruence]. unfold head_of, players in *.
  split; unfold head_of, players; rewrite ?Em, ?Eo, ?Ep, ?Ec; done.
Qed.

Lemma keeps_members r ms : Forall2 tame (members r) ms → keeps r (r <| members := ms |>).
Proof.
  intros Ht all Hcl [H1 H2 H3 H4]. split; [| done]. split; cbn in *.
  - by eapply up_to_tame.
  - by eapply owned_tame.
  - unfold players in *. cbn. by rewrite (tame_players _ _ Ht).
  - destruct (phase r); [| done]. destruct H4. split; [done |]. by eapply not_streaming_tame.
Qed.

Lemma keeps_update r i f : (∀ m, tame m (f m)) → keeps r (update_member r i f).
Proof. intros H. apply keeps_members. by apply alter_tame. Qed.

Lemma keeps_emit r o : (∀ l, feed_to l o = None) → keeps r (emit r o).
Proof.
  intros Ho all Hcl [H1 H2 H3 H4]. split; [| done]. split; try done. intros l.
  change (out (emit r o)) with (out r ++ [o]). rewrite (feeds_quiet l o (Ho l)). apply H1.
Qed.

Lemma head_pos_same g g' : same_game g g' → head_pos g' = head_pos g.
Proof. intros []. unfold head_pos. congruence. Qed.

Lemma keeps_phase r g g' :
  phase r = Running g → same_game g g' → keeps r (r <| phase := Running g' |>).
Proof.
  intros Hph Hg all Hcl [H1 H2 H3 H4]. split; [| done]. unfold head_of in H1. rewrite Hph in H1, H4.
  split; try done; cbn.
  - unfold head_of. cbn. by rewrite (head_pos_same _ _ Hg).
  - intros Hc. eapply game_ok_same; [exact Hg | auto].
Qed.

Lemma keeps_control r l msg : keeps r (try_send outcome r (OControl l msg)).1.
Proof.
  unfold try_send. destruct (outcome (calls r)); cbn [fst].
  - etransitivity; [| by apply keeps_emit]. by apply keeps_same.
  - by apply keeps_same.
  - by apply keeps_same.
Qed.

Lemma keeps_drop_link r i slow : keeps r (drop_link r i slow).
Proof.
  unfold drop_link. destruct (_ ≫= _); [| reflexivity].
  etransitivity; [| apply keeps_update; intros m; split; auto; done].
  destruct slow; [by apply keeps_emit | reflexivity].
Qed.

Lemma keeps_push r i msg : keeps r (push outcome r i msg).
Proof.
  unfold push. destruct (_ ≫= _) as [l |]; [| reflexivity].
  pose proof (keeps_control r l msg) as H.
  destruct (try_send outcome r (OControl l msg)) as [r' []]; [done | |];
    (etransitivity; [exact H | apply keeps_drop_link]).
Qed.

Lemma keeps_foldl {A} (f : room → A → room) (l : list A) r :
  (∀ r a, keeps r (f r a)) → keeps r (foldl f r l).
Proof.
  intros H. revert r. induction l as [| a l IH]; intros r; [reflexivity |].
  etransitivity; [apply H | apply IH].
Qed.

Lemma keeps_for_members r f : (∀ r i, keeps r (f r i)) → keeps r (for_members r f).
Proof. intros H. by apply keeps_foldl. Qed.

Lemma keeps_broadcast r : keeps r (broadcast_view outcome r).
Proof. apply keeps_for_members. intros. apply keeps_push. Qed.

(** ** Opening a stream *)

(** A feed that brings a member from some position of the log to its end. *)
Definition opens (all : list Turn) (q : Position) (feed : TurnFeed) : Prop :=
  ∃ start backlog before ts, feed = FeedOpen start backlog ∧ all = before ++ ts ∧
    chain first_pos before (start_pos start) ∧ chain (start_pos start) ts q ∧ Forall2 encodes ts backlog.

Lemma opens_fed all q feed fs st : opens all q feed → fed all fs st → fed all (fs ++ [feed]) (Some q).
Proof.
  intros (start & backlog & before & ts & -> & E & Hb & Hc & He) Hf.
  apply (fed_open _ _ st _ _ before ts []); rewrite ?app_nil_r; done.
Qed.

(** Member [i] gets a stream on [l] that has come to [q], where everyone is. *)
Lemma up_to_open all q out ms i f l feed :
  up_to all (Some q) out ms → opens all q feed → (∀ m, ms !! i = Some m → link (f m) = Some l) →
  up_to all (Some q) (out ++ [OTurns l feed]) (alter f i ms).
Proof.
  intros H Ho Hl l'. destruct (H l') as (st & Hf & Hst). destruct (base.decide (l = l')) as [<- | Hne].
  - exists (Some q). split; [| done]. rewrite feeds_sent. by eapply opens_fed.
  - exists st. split; [by rewrite feeds_other |]. intros m (j & Hj)%list_elem_of_lookup Hlm Hsm.
    destruct (base.decide (i = j)) as [<- | Hij].
    + rewrite list_lookup_alter_eq in Hj. apply fmap_Some in Hj as (m0 & Hm0 & ->).
      rewrite (Hl m0 Hm0) in Hlm. congruence.
    + rewrite list_lookup_alter_ne in Hj by done. apply (Hst m); [by eapply list_elem_of_lookup_2 | done..].
Qed.

(** Member [i] has no stream afterwards. *)
Lemma up_to_silent all hd out ms i f :
  up_to all hd out ms → (∀ m, ms !! i = Some m → streaming (f m) = false) →
  up_to all hd out (alter f i ms).
Proof.
  intros H Hs l. destruct (H l) as (st & Hf & Hst). exists st. split; [done |].
  intros m (j & Hj)%list_elem_of_lookup Hlm Hsm. destruct (base.decide (i = j)) as [<- | Hij].
  - rewrite list_lookup_alter_eq in Hj. apply fmap_Some in Hj as (m0 & Hm0 & ->). by rewrite (Hs m0) in Hsm.
  - rewrite list_lookup_alter_ne in Hj by done. apply (Hst m); [by eapply list_elem_of_lookup_2 | done..].
Qed.

Lemma owned_alter ms i f :
  owned who ms → (∀ m l, ms !! i = Some m → link (f m) = Some l → who l = player (f m)) →
  owned who (alter f i ms).
Proof.
  intros H Hf m l (j & Hj)%list_elem_of_lookup Hl. destruct (base.decide (i = j)) as [<- | Hij].
  - rewrite list_lookup_alter_eq in Hj. apply fmap_Some in Hj as (m0 & Hm0 & ->). eauto.
  - rewrite list_lookup_alter_ne in Hj by done. eapply H; [by eapply list_elem_of_lookup_2 | done].
Qed.

Lemma alter_players (ms : list Member) i f :
  (∀ m, ms !! i = Some m → player (f m) = player m) → player <$> alter f i ms = player <$> ms.
Proof.
  intros H. apply list_eq. intros j. rewrite !list_lookup_fmap.
  destruct (base.decide (i = j)) as [<- | Hne]; [| by rewrite list_lookup_alter_ne].
  rewrite list_lookup_alter_eq. destruct (ms !! i) as [m |] eqn:Hm; [| done]. cbn. by rewrite (H m).
Qed.

(** Member [i] changes and has no stream afterwards. *)
Lemma silent_member_ok all r i f :
  streams_ok who all r →
  (∀ m, members r !! i = Some m →
    streaming (f m) = false ∧ player (f m) = player m ∧ (∀ l, link (f m) = Some l → who l = player m)) →
  streams_ok who all (update_member r i f).
Proof.
  intros [H1 H2 H3 H4] Hf. split; cbn.
  - apply up_to_silent; [done |]. intros m Hm. apply (Hf m Hm).
  - apply owned_alter; [done |]. intros m l Hm Hl. destruct (Hf m Hm) as (_ & -> & Ho). auto.
  - unfold players in *. cbn. rewrite alter_players; [done |]. intros m Hm. apply (Hf m Hm).
  - destruct (phase r); [| done]. destruct H4 as [? H4]. split; [done |]. apply Forall_alter; [done |].
    intros m Hm _. apply (Hf m Hm).
Qed.

(** Member [i] gets a stream that has come to where the game stands. *)
Lemma stream_member_ok all r g i f l feed :
  streams_ok who all r → phase r = Running g → opens all (head_pos g) feed →
  (∀ m, members r !! i = Some m → link (f m) = Some l ∧ player (f m) = player m ∧ who l = player m) →
  streams_ok who all (update_member (emit r (OTurns l feed)) i f).
Proof.
  intros [H1 H2 H3 H4] Hph Ho Hf. unfold head_of in H1. rewrite Hph in *. split; cbn [emit].
  - unfold head_of. cbn. rewrite Hph. eapply up_to_open; [done | done |]. intros m Hm. apply (Hf m Hm).
  - apply owned_alter; [done |]. intros m l' Hm Hl. destruct (Hf m Hm) as (Hl2 & -> & Hw). congruence.
  - unfold players in *. cbn. rewrite alter_players; [done |]. intros m Hm. apply (Hf m Hm).
  - cbn. by rewrite Hph.
Qed.

(** The streams a game opens. *)
Lemma stream_opens all g resume st room settings rules world :
  game_ok g first_pos all → stream_after g resume = Ok st →
  opens all (head_pos g) (FeedOpen (turn_start g room settings rules st world) (backlog st)).
Proof.
  intros Hg Hs. destruct (stream_after_spec g first_pos all resume st Hg Hs)
    as (before & ts & E & Henc & Hb & Hc).
  by exists (turn_start g room settings rules st world), (backlog st), before, ts.
Qed.

Lemma resume_feed_opens all g room settings rules resume feed :
  game_ok g first_pos all → resume_feed g room settings rules resume = Ok feed →
  opens all (head_pos g) feed.
Proof. unfold resume_feed. intros Hg H. inv_option. by eapply stream_opens. Qed.

Lemma feed_from_opens all g room settings rules agreed feed from :
  game_ok g first_pos all → feed_from g room settings rules agreed = Ok (feed, from) →
  opens all (head_pos g) feed.
Proof.
  unfold feed_from, stream_from_save. intros Hg H. inv_option. destruct (_ || _); simplify_eq.
  by eapply stream_opens.
Qed.

(** ** Offering worlds *)

Lemma offer_world_ok all r g o now e :
  phase r = Running g → opens all (head_pos g) e.2.1 → streams_ok who all r →
  let r' := offer_world outcome o now r e in
  streams_ok who all r' ∧ phase r' = phase r ∧ closed r' = closed r.
Proof.
  destruct e as [i [feed from]]. cbn [fst snd]. intros Hph Ho Hr. unfold offer_world.
  destruct (members r !! i) as [m |] eqn:Hm; cbn [mbind option_bind]; [| done].
  destruct (link m) as [l |] eqn:Hl; [| done].
  assert (Hw : who l = player m)
    by (apply (so_owned _ _ _ Hr m); [by eapply list_elem_of_lookup_2 | done]).
  assert (Hn : streams_ok who all (r <| calls := S (calls r) |>))
    by (destruct Hr; by split).
  unfold try_send. destruct (outcome (calls r)); cbn [is_sent negb];
    [| split; [apply silent_member_ok; [done |] | done]..].
  - split; [| done]. unfold update_member at 1. cbn [update_member members].
    set (r1 := r <| calls := S (calls r) |>) in *. set (f1 := λ m : Member, m <| streaming := true |>).
    set (f2 := λ m : Member, _).
    change (streams_ok who all (update_member (update_member (emit r1 (OTurns l feed)) i f1) i f2)).
    assert (update_member (update_member (emit r1 (OTurns l feed)) i f1) i f2
            = update_member (emit r1 (OTurns l feed)) i (f2 ∘ f1)) as ->.
    { unfold update_member. cbn. by rewrite list_alter_alter_eq. }
    eapply stream_member_ok; [done | done | done |]. cbn. intros m' Hm'. rewrite Hm in Hm'.
    injection Hm' as <-. subst f2. cbn.
    destruct (needs m); cbn; destruct (bool_decide _); done.
  - cbn. intros m' Hm'. rewrite Hm in Hm'. injection Hm' as <-. split; [done |]. split; [done |].
    intros l'. rewrite Hl. congruence.
  - cbn. intros m' Hm'. rewrite Hm in Hm'. injection Hm' as <-. split; [done |]. split; [done |].
    intros l'. rewrite Hl. congruence.
Qed.

Lemma keeps_offer_worlds r now : keeps r (offer_worlds outcome r now).
Proof.
  unfold offer_worlds. destruct (phase r) as [| g] eqn:Hph; [reflexivity |].
  set (entries := imap _ (members r)). set (feeds := omap _ _). set (waiting := existsb _ _).
  set (g' := g <| saves ::= _ |>). intros all Hc Hr.
  destruct (keeps_phase r g g' Hph ltac:(by split) all Hc Hr) as [Hr1 Hc1].
  assert (Hg : game_ok g first_pos all) by (destruct Hr as [_ _ _ H]; rewrite Hph in H; auto).
  assert (Hfeeds : Forall (λ e, opens all (head_pos g') e.2.1) feeds).
  { apply Forall_forall. intros [i [feed from]]. subst feeds entries. cbn [fst snd].
    intros ([i' [m f]] & He & Hf)%list_elem_of_omap. cbn [fst snd] in Hf.
    apply fmap_Some in Hf as ([feed' from'] & -> & [= <- <- <-]).
    apply list_elem_of_In, filter_In in He as [He _]. apply list_elem_of_In, elem_of_lookup_imap in He.
    destruct He as (j & m' & [= -> -> Hw] & _). unfold world_feed in Hw. symmetry in Hw.
    inv_option. destruct (serves _ _); [| done]. destruct (feed_from _ _ _ _ _) as [p |] eqn:Hff; [| done].
    injection Hw as ->. change (head_pos g') with (head_pos g). by eapply feed_from_opens. }
  set (r1 := r <| phase := Running g' |>) in *. assert (Hp1 : phase r1 = Running g') by done.
  clearbody r1 feeds. clear Hr. revert r1 Hr1 Hc1 Hp1.
  induction Hfeeds as [| e feeds He _ IH]; intros r1 Hr1 Hc1 Hp1; [done |]. cbn [foldl].
  destruct (offer_world_ok all r1 g' (agreed_id <$> current (saves g')) now e Hp1 He Hr1) as (H1 & H2 & H3).
  apply IH; [done | congruence | congruence].
Qed.

(** ** The quiet steps *)

Ltac tame_fields := intros ?; split; cbn; auto; try done.

Lemma keeps_announce r now step notices : keeps r (announce_divergence outcome r now step notices).
Proof.
  unfold announce_divergence. case_bool_decide; [reflexivity |].
  etransitivity; [| apply keeps_offer_worlds]. apply keeps_foldl. intros r0 [p lns]. unfold announce_one.
  destruct (position _ _) as [i |]; [| reflexivity].
  etransitivity; [apply keeps_push |]. apply keeps_update. intros m.
  destruct (_ && _); [by split; auto | apply tame_refl].
Qed.

Lemma keeps_checkpoint r p l step lns now : keeps r (checkpoint outcome r p l step lns now).
Proof.
  unfold checkpoint. destruct (phase r) as [| g] eqn:Hp; [reflexivity |].
  destruct (position _ _) as [i |]; [| reflexivity].
  destruct (_ || _ || _); [reflexivity |]. destruct (_ && _); [reflexivity |].
  destruct (_ && _); [reflexivity |]. destruct (existsb _ _); [by apply (keeps_phase r g) |].
  destruct (members r !! i) as [m |]; [| reflexivity]. destruct (add_report _ _ _) as [round notices].
  etransitivity; [| apply keeps_announce]. apply (keeps_phase r g); [done |].
  etransitivity; [| apply same_game_prune]. by split.
Qed.

Lemma keeps_decide_waiting r now : keeps r (decide_waiting_rounds outcome r now).
Proof.
  unfold decide_waiting_rounds. destruct (phase r) as [| g] eqn:Hp; [reflexivity |].
  pose proof (same_game_judged (members r) now (btree_keys (rounds g)) (g, [], [])) as Hj.
  destruct (foldl _ (g, [], []) _) as [[g1 decided] expired]. cbn [fst] in Hj.
  assert (Hg : same_game g (foldl close_round g1 expired))
    by (etransitivity; [exact Hj | apply same_game_close_rounds]).
  case_bool_decide; [by apply (keeps_phase r g) |].
  etransitivity; [| apply keeps_foldl; intros; apply keeps_announce].
  apply (keeps_phase r g); [done |]. etransitivity; [exact Hg | apply same_game_prune].
Qed.

Lemma keeps_set_speed r p sp : keeps r (set_speed r p sp).1.
Proof.
  unfold set_speed. destruct (negb _); [reflexivity |].
  destruct (phase r) as [| g] eqn:Hp; [reflexivity |]. destruct (_ <? _); [reflexivity |].
  by apply (keeps_phase r g).
Qed.

Lemma keeps_progress r p l step now : keeps r (progress r p l step now).
Proof.
  unfold progress. destruct (phase r) as [| g] eqn:Hp; [reflexivity |].
  destruct (position _ _) as [i |]; [| reflexivity]. destruct (_ <? _).
  - etransitivity; [by apply (keeps_emit _ (OClose l PROTOCOL_VIOLATION)) | apply keeps_update; tame_fields].
  - apply keeps_update. intros m. cbn.
    destruct (match pace m with Loading => _ | _ => _ end); split; cbn; auto.
Qed.

Lemma demote_tame now t sealed paused started m : tame m (demote now t sealed paused started m).
Proof.
  unfold demote. destruct (negb _); [apply tame_refl |]. destruct paused; [by split; auto |].
  destruct (match pace m with Loading => _ | _ => _ end); [by split; auto | apply tame_refl].
Qed.

Lemma keeps_demote r now : keeps r (demote_stalled r now).
Proof.
  unfold demote_stalled. destruct (phase r) as [| g] eqn:Hp; [reflexivity |]. apply keeps_members.
  apply Forall2_fmap_r, Forall_Forall2_diag, Forall_forall. intros m _. apply demote_tame.
Qed.

Lemma keeps_start_compaction r : keeps r (start_compaction r).
Proof.
  unfold start_compaction. case_bool_decide; [reflexivity |].
  destruct (data_dir r), (room_log r) as [l |], (phase r) as [| g] eqn:Hp; try reflexivity.
  destruct (_ || _); [reflexivity |]. by destruct (save_rules _); apply keeps_same.
Qed.

Lemma keeps_finish_compaction r done renamed : keeps r (finish_compaction crc disk r done renamed).
Proof.
  unfold finish_compaction. destruct (compaction r) as [c |]; [| reflexivity].
  destruct done as [l | e]; [| by apply keeps_same].
  assert (Hd : ∀ r1 : room, keeps r r1 → keeps r ((emit r1 ODiscardCompaction) <| compact_at :=
    next_compaction (default 0 (written <$> room_log r)) (compact_log_at r) |>)).
  { intros r1 H1. etransitivity; [exact H1 |]. etransitivity; [by apply (keeps_emit r1 ODiscardCompaction) |].
    by apply keeps_same. }
  destruct (append_all _ _ _ _) as [l' [] ].
  - destruct (install renamed l') as [l'' []]; [by apply keeps_same |]. apply Hd. by apply keeps_same.
  - apply Hd. by apply keeps_same.
Qed.

Lemma keeps_promote r now a : keeps r (promote outcome r now a).
Proof.
  unfold promote. destruct (phase r) as [| g] eqn:Hp; [reflexivity |].
  etransitivity; [| apply keeps_offer_worlds].
  set (g' := g <| saves ::= _ |>). assert (H : keeps r (r <| phase := Running g' |>))
    by (by apply (keeps_phase r g)).
  etransitivity; [exact H |]. case_bool_decide; [| reflexivity].
  etransitivity; [| by apply keeps_emit]. destruct (data_dir _); [by apply keeps_emit | reflexivity].
Qed.

Lemma keeps_ask_for_upload r pt cs now : keeps r (ask_for_upload outcome r pt cs now).
Proof.
  induction cs as [| [p w] cs IH]; cbn [ask_for_upload]; [reflexivity |].
  destruct (phase r) as [| g] eqn:Hp; [reflexivity |].
  destruct (manifest <$> _) as [mf |].
  - etransitivity; [| apply keeps_promote]. case_bool_decide; [by apply keeps_emit | reflexivity].
  - destruct (position _ _) as [i |]; [| exact IH].
    etransitivity; [| apply keeps_push]. by apply (keeps_phase r g).
Qed.

Lemma keeps_decide_save r event now : keeps r (decide_save outcome r event now).
Proof.
  unfold decide_save. destruct (phase r) as [| g] eqn:Hp; [reflexivity |].
  destruct (save_rounds _ !! event) as [round |]; [| reflexivity].
  destruct (decide_saves _) as [cs diverged].
  etransitivity; [| apply keeps_ask_for_upload]. etransitivity; [| apply keeps_announce].
  by apply (keeps_phase r g).
Qed.

Lemma keeps_saved r p l event lns w now : keeps r (saved outcome r p l event lns w now).
Proof.
  unfold saved. destruct (position _ _) as [i |]; [| reflexivity].
  destruct (members r !! i) as [m |]; [| reflexivity].
  destruct (phase r) as [| g] eqn:Hp; [reflexivity |]. destruct (_ || _); [reflexivity |].
  destruct (save_rounds _ !! event) as [round |]; [| reflexivity].
  destruct (existsb _ _); [reflexivity |].
  destruct (save_complete _ _); [etransitivity; [| apply keeps_decide_save] |];
    by apply (keeps_phase r g).
Qed.

Lemma keeps_chat r p t now : keeps r (chat outcome r p t now).1.
Proof.
  unfold chat. destruct (position _ _) as [i |]; [| reflexivity].
  destruct (members r !! i) as [m |]; [| reflexivity].
  destruct (TokenBucket_take (chats m) now 1) as [b granted].
  assert (H : keeps r (update_member r i (λ m, m <| chats := b |>))) by (apply keeps_update; tame_fields).
  destruct granted; cbn; [| done]. etransitivity; [exact H |].
  apply keeps_for_members. intros. apply keeps_push.
Qed.

Lemma keeps_upload_starts r p l s : keeps r (upload_starts r p l s).1.
Proof.
  unfold upload_starts. destruct (phase r) as [| g] eqn:Hp; [reflexivity |].
  destruct (upload _) as [u |]; [| reflexivity]. destruct (_ && _); [| reflexivity].
  by apply (keeps_phase r g).
Qed.

Lemma keeps_release r ids : keeps r (release_in_background r ids).
Proof. unfold release_in_background. case_bool_decide; [reflexivity | by apply keeps_emit]. Qed.

Lemma keeps_uploaded r p s res now : keeps r (uploaded outcome r p s res now).
Proof.
  unfold uploaded. destruct (phase r) as [| g] eqn:Hp; [reflexivity |].
  destruct (_ ≫= _) as [u |].
  - destruct res as [mf | e].
    + etransitivity; [| apply keeps_promote]. by apply (keeps_phase r g).
    + etransitivity; [| apply keeps_ask_for_upload]. by apply (keeps_phase r g).
  - destruct res, (snapshots r); try reflexivity. apply keeps_release.
Qed.

Lemma keeps_discard r : keeps r (discard_game r).
Proof.
  unfold discard_game.
  set (r1 := cancel_compaction r). assert (H1 : keeps r r1).
  { subst r1. unfold cancel_compaction. destruct (compaction r); [| reflexivity].
    etransitivity; [| by apply keeps_emit]. by apply keeps_same. }
  set (r2 := match room_log r1 with None => r1 | Some _ => _ end). assert (H2 : keeps r r2).
  { etransitivity; [exact H1 |]. subst r2. destruct (room_log r1); [| reflexivity].
    etransitivity; [| by apply keeps_emit]. by apply keeps_same. }
  clearbody r2. set (r3 := if data_dir r2 then _ else _).
  assert (H3 : keeps r r3)
    by (etransitivity; [exact H2 |]; subst r3; destruct (data_dir r2); [by apply keeps_emit | reflexivity]).
  clearbody r3. etransitivity; [exact H3 |]. destruct (snapshots r3), (phase r3); try reflexivity.
  apply keeps_release.
Qed.

Lemma keeps_set_ready r p b : keeps r (set_ready r p b).1.
Proof.
  unfold set_ready. destruct (in_lobby r p); [apply keeps_update; tame_fields | reflexivity].
Qed.

Lemma keeps_declare r p c : keeps r (declare_content r p c).1.
Proof.
  unfold declare_content. destruct (in_lobby r p); [apply keeps_update; tame_fields | reflexivity].
Qed.

Lemma keeps_open_log r h : keeps r (open_log crc disk r h).
Proof.
  unfold open_log. destruct (negb _); [reflexivity |]. by destruct (create_log _ _ _); apply keeps_same.
Qed.

(** ** Publishing turns *)

(** Everyone before index [k] has come to [q], everyone from there on is still at [p]. *)
Record halfway (all : list Turn) (p q : Position) (k : nat) r : Prop := {
  hw_fed : ∀ l, ∃ st, fed all (feeds l (out r)) st ∧ ∀ j m, members r !! j = Some m →
    link m = Some l → streaming m = true → st = Some (if (j <? k)%nat then q else p);
  hw_owned : owned who (members r);
  hw_distinct : NoDup (players r);
}.

Lemma same_seat r i j m m' l :
  owned who (members r) → NoDup (players r) → members r !! i = Some m → members r !! j = Some m' →
  link m = Some l → link m' = Some l → i = j.
Proof.
  intros Ho Hnd Hi Hj Hl Hl'. apply (NoDup_lookup (players r) i j (player m)); [done | |];
    unfold players; rewrite list_lookup_fmap.
  - by rewrite Hi.
  - rewrite Hj. cbn. f_equal. rewrite <- (Ho m l), <- (Ho m' l); eauto using list_elem_of_lookup_2.
Qed.

(** Member [k] loses its connection, or has no stream. *)
Lemma halfway_skip all p q k r r' :
  halfway all p q k r → out r' = out r → Forall2 tame (members r) (members r') →
  (∀ m, members r' !! k = Some m → streaming m = true → link m = None) →
  halfway all p q (S k) r'.
Proof.
  intros [Hf Ho Hd] Eo Ht Hk. split.
  - intros l. destruct (Hf l) as (st & Hst & Hm). exists st. rewrite Eo. split; [done |].
    intros j m' Hj Hl Hs. destruct (Forall2_lookup_r _ _ _ _ _ Ht Hj) as (m & Hjm & [_ _ Htm]).
    destruct (Htm Hs) as [Hs0 Hl0]. rewrite (Hm j m Hjm ltac:(congruence) Hs0). do 2 f_equal.
    destruct (base.decide (j = k)) as [-> | Hne]; [by rewrite (Hk m' Hj Hs) in Hl |].
    destruct (Nat.ltb_spec j k), (Nat.ltb_spec j (S k)); lia || done.
  - by eapply owned_tame.
  - unfold players in *. by rewrite (tame_players _ _ Ht).
Qed.

(** A member whose channel does not take the turn is cut off. *)
Lemma halfway_drop all p t k r m l (r1 : room) slow :
  halfway all p (after p t) k r → members r !! k = Some m → link m = Some l →
  members r1 = members r → out r1 = out r → phase r1 = phase r → closed r1 = closed r →
  let r' := drop_link r1 k slow in
  halfway all p (after p t) (S k) r' ∧ phase r' = phase r ∧ closed r' = closed r ∧
  length (members r') = length (members r).
Proof.
  intros H Hk Hl Em Eo Ep Ec. unfold drop_link. rewrite Em, Hk. cbn [mbind option_bind]. rewrite Hl.
  set (r2 := if slow then emit r1 (OClose l SLOW_CONSUMER) else r1).
  assert (members r2 = members r ∧ phase r2 = phase r ∧ closed r2 = closed r ∧
    ∀ l', feeds l' (out r2) = feeds l' (out r)) as (Em2 & Ep2 & Ec2 & Ef2).
  { subst r2. destruct slow; [| by rewrite Em, Ep, Ec, Eo].
    split; [exact Em |]. split; [exact Ep |]. split; [exact Ec |]. intros l'.
    change (out (emit r1 (OClose l SLOW_CONSUMER))) with (out r1 ++ [OClose l SLOW_CONSUMER]).
    by rewrite feeds_quiet, Eo. }
  clearbody r2. cbn zeta. split; [| split; [exact Ep2 |]; split; [exact Ec2 |]].
  - destruct H as [Hf Ho Hd]. eapply (halfway_skip _ _ _ _ r2).
    + split; [| by rewrite Em2 | unfold players; by rewrite Em2]. intros l'. rewrite Ef2, Em2. apply Hf.
    + done.
    + apply alter_tame. tame_fields.
    + cbn. rewrite Em2. intros m'. rewrite list_lookup_alter_eq, Hk. by intros [= <-].
  - cbn. by rewrite length_alter, Em2.
Qed.

Lemma halfway_send all p t k r f before rest :
  halfway all p (after p t) k r → all = before ++ t :: rest → chain first_pos before p →
  turn_follows p t → encodes t f →
  let r' := if default false (streaming <$> members r !! k) then send_turn outcome r k (FeedFrame f) else r in
  halfway all p (after p t) (S k) r' ∧ phase r' = phase r ∧ closed r' = closed r ∧
  length (members r') = length (members r).
Proof.
  intros H Eall Hb Hft He.
  assert (Hskip : (∀ m, members r !! k = Some m → streaming m = true → link m = None) →
    halfway all p (after p t) (S k) r)
    by (intros Hn; eapply halfway_skip; [exact H | done | apply tame_all | exact Hn]).
  destruct (members r !! k) as [m |] eqn:Hk; [| split; [by apply Hskip | done]].
  change (default false (streaming <$> Some m)) with (streaming m).
  destruct (streaming m) eqn:Hs; [| split; [apply Hskip; intros; congruence | done]].
  unfold send_turn. rewrite Hk. cbn [mbind option_bind].
  destruct (link m) as [l |] eqn:Hl; [| split; [apply Hskip; intros; congruence | done]].
  unfold try_send. destruct (outcome (calls r)); [| by apply (halfway_drop all p t k r m l)..].
  split; [| done]. destruct H as [Hf Ho Hd]. split; [| done | done]. intros l'. cbn [members emit].
  change (out (emit _ ?o)) with (out r ++ [o]).
  destruct (Hf l') as (st & Hst & Hm). destruct (base.decide (l = l')) as [<- | Hne].
  - exists (Some (after p t)). pose proof (Hm k m Hk Hl Hs) as ->. rewrite Nat.ltb_irrefl in Hst.
    rewrite feeds_sent. split; [by eapply fed_frame |]. intros j m' Hj Hl' _.
    assert (j = k) as -> by (by eapply (same_seat r)).
    by rewrite (proj2 (Nat.ltb_lt k (S k))) by lia.
  - exists st. rewrite feeds_other by done. split; [done |]. intros j m' Hj Hl' Hs'.
    change (members r !! j = Some m') in Hj. rewrite (Hm j m' Hj Hl' Hs'). do 2 f_equal.
    assert (j ≠ k) by (intros ->; rewrite Hk in Hj; congruence).
    destruct (Nat.ltb_spec j k), (Nat.ltb_spec j (S k)); lia || done.
Qed.

Definition frame_to (f : Frame) r (index : nat) : room :=
  if default false (streaming <$> members r !! index) then send_turn outcome r index (FeedFrame f) else r.

(** Everyone who streams stands at [p], in a room otherwise like [r0]. *)
Record all_at (all : list Turn) (p : Position) (r0 r : room) : Prop := {
  aa_fed : up_to all (Some p) (out r) (members r);
  aa_owned : owned who (members r);
  aa_distinct : NoDup (players r);
  aa_phase : phase r = phase r0;
  aa_closed : closed r = closed r0;
}.

Lemma frame_to_members n k all p t r f before rest :
  halfway all p (after p t) k r → all = before ++ t :: rest → chain first_pos before p →
  turn_follows p t → encodes t f →
  let r' := foldl (frame_to f) r (List.seq k n) in
  halfway all p (after p t) (k + n) r' ∧ phase r' = phase r ∧ closed r' = closed r ∧
  length (members r') = length (members r).
Proof.
  revert k r. induction n as [| n IH]; intros k r Hh Eall Hb Hft He; cbn [List.seq foldl].
  { by rewrite Nat.add_0_r. }
  destruct (halfway_send all p t k r f before rest Hh Eall Hb Hft He) as (Hh' & E1 & E2 & E3).
  fold (frame_to f r k) in *.
  destruct (IH (S k) (frame_to f r k) Hh' Eall Hb Hft He) as (Hr & E1' & E2' & E3').
  rewrite Nat.add_succ_r. split; [exact Hr | split; [congruence | split; congruence]].
Qed.

Lemma publish_frame all p t r0 r f before rest :
  all_at all p r0 r → all = before ++ t :: rest → chain first_pos before p →
  turn_follows p t → encodes t f →
  all_at all (after p t) r0 (for_members r (frame_to f)).
Proof.
  intros [Hf Ho Hd Hp Hc] Eall Hb Hft He.
  destruct (frame_to_members (length (members r)) 0 all p t r f before rest)
    as ([Hf' Ho' Hd'] & E1 & E2 & E3); [| done..|].
  - split; [| done..]. intros l. destruct (Hf l) as (st & Hst & Hm). exists st. split; [done |].
    intros j m Hj. apply Hm. by eapply list_elem_of_lookup_2.
  - unfold for_members. split; [| done | done | congruence | congruence].
    intros l. destruct (Hf' l) as (st & Hst & Hm). exists st. split; [done |].
    intros m (j & Hj)%list_elem_of_lookup Hl Hs. rewrite (Hm j m Hj Hl Hs).
    pose proof (lookup_lt_Some _ _ _ Hj). by rewrite (proj2 (Nat.ltb_lt _ _)) by lia.
Qed.

Lemma publish_frames all p ts q frames r0 r before :
  chain p ts q → Forall2 encodes ts frames → all = before ++ ts → chain first_pos before p →
  all_at all p r0 r → all_at all q r0 (foldl (λ r f, for_members r (frame_to f)) r frames).
Proof.
  intros Hc. revert frames r before. induction Hc as [p | p t ts q Hft Hc IH];
    intros frames r before He Eall Hb Hr; inversion He as [| ? f ? frames' Hf Hfs]; subst; [done |].
  cbn [foldl]. apply (IH frames' _ (before ++ [t])); [done | by rewrite <- app_assoc | by apply chain_snoc |].
  by eapply publish_frame.
Qed.

(** A game that has just been sealed is published. *)
Lemma publish_ok all r g p ts frames before :
  phase r = Running g → closed r = false → game_ok g first_pos all →
  chain p ts (head_pos g) → Forall2 encodes ts frames → all = before ++ ts → chain first_pos before p →
  up_to all (Some p) (out r) (members r) → owned who (members r) → NoDup (players r) →
  streams_ok who all (publish crc outcome disk r frames) ∧
  closed (publish crc outcome disk r frames) = false.
Proof.
  intros Hph Hc Hg Hch He Eall Hb Hf Ho Hd. unfold publish.
  set (r1 := match room_log r with None => r | Some l => _ end).
  assert (members r1 = members r ∧ out r1 = out r ∧ phase r1 = phase r ∧ closed r1 = closed r)
    as (Em & Eo & Ep & Ec).
  { subst r1. destruct (room_log r); [| done]. by destruct (append_all _ _ _ _). }
  clearbody r1. set (r2 := match compaction r1 with None => r1 | Some c => _ end).
  assert (members r2 = members r ∧ out r2 = out r ∧ phase r2 = phase r ∧ closed r2 = closed r)
    as (Em2 & Eo2 & Ep2 & Ec2) by (subst r2; by destruct (compaction r1)).
  clearbody r2. clear r1 Em Eo Ep Ec.
  assert (Hr2 : all_at all p r r2)
    by (split; unfold players; rewrite ?Em2, ?Eo2; done).
  pose proof (publish_frames all p ts _ frames r r2 before Hch He Eall Hb Hr2) as [Hf' Ho' Hd' Hp' Hc'].
  set (r3 := foldl _ r2 frames) in *.
  change (foldl _ r2 frames) with r3. clearbody r3.
  assert (Hr3 : streams_ok who all r3).
  { split; [| done | done |]; unfold head_of; rewrite Hp', Hph; [done |]. by intros _. }
  apply keeps_start_compaction; [congruence | done].
Qed.

(** ** Ordering *)

Lemma append_head g b (rules : R) : head_pos (append g b rules).1 = head_pos g.
Proof. unfold append, head_pos. cbn. rewrite length_app. simpl. f_equal. lia. Qed.

Lemma keeps_append r g b :
  phase r = Running g →
  keeps r (r <| phase := Running (append g b (ruleset r)).1 |> <| ruleset := (append g b (ruleset r)).2 |>).
Proof.
  intros Hph all Hc [H1 H2 H3 H4]. unfold head_of in H1. rewrite Hph in *. split; [| done].
  split; [| done | done |].
  - change (up_to all (Some (head_pos (append g b (ruleset r)).1)) (out r) (members r)).
    rewrite append_head. exact H1.
  - intros _. apply append_ok. auto.
Qed.

Lemma keeps_intent r p c payload now : keeps r (intent outcome r p c payload now).
Proof.
  unfold intent. destruct (position _ _) as [i |]; [| reflexivity].
  destruct (members r !! i) as [m |]; [| reflexivity].
  destruct (phase r) as [| g] eqn:Hph; [apply keeps_push |].
  destruct (TokenBucket_take (intents m) now 1) as [b1 granted1].
  assert (H1 : keeps r (update_member r i (λ m, m <| intents := b1 |>)))
    by (apply keeps_update; tame_fields).
  destruct granted1; cbn [negb]; [| etransitivity; [exact H1 | apply keeps_push]].
  destruct (TokenBucket_take (payload_bytes m) now _) as [b2 granted2].
  set (r1 := update_member r i _) in *.
  assert (H2 : keeps r (update_member r1 i (λ m, m <| payload_bytes := b2 |>)))
    by (etransitivity; [exact H1 | apply keeps_update; tame_fields]).
  set (r2 := update_member r1 i _) in *.
  destruct granted2; cbn [negb]; [| etransitivity; [exact H2 | apply keeps_push]].
  destruct (validate _ _ _) as [u | code]; [| etransitivity; [exact H2 | apply keeps_push]].
  etransitivity; [exact H2 |]. pose proof (keeps_append r2 g (Command p c payload) Hph) as H3.
  by destruct (append g _ (ruleset r2)).
Qed.

(** ** Closing *)

Lemma close_all_streams all r g code :
  (∀ l, ∃ st, fed all (feeds l (out r)) st) → owned who (members r) → NoDup (players r) →
  phase r = Running g → streams_ok who all (close_all r code).
Proof.
  intros Hf Ho Hd Hph. unfold close_all. set (f := λ (r : room) (index : nat), _).
  assert (Hloop : ∀ n k r, (∀ l, ∃ st, fed all (feeds l (out r)) st) → owned who (members r) →
    NoDup (players r) → phase r = Running g → length (members r) = (k + n)%nat →
    (∀ j m, (j < k)%nat → members r !! j = Some m → link m = None) →
    let r' := foldl f r (List.seq k n) in
    (∀ l, ∃ st, fed all (feeds l (out r')) st) ∧ owned who (members r') ∧ NoDup (players r') ∧
    phase r' = Running g ∧ ∀ m, m ∈ members r' → link m = None).
  { clear. induction n as [| n IH]; intros k r Hf Ho Hd Hph Hlen Hk; cbn [List.seq foldl].
    - repeat split; try done. intros m (j & Hj)%list_elem_of_lookup. eapply (Hk j); [| done].
      pose proof (lookup_lt_Some _ _ _ Hj). lia.
    - apply IH.
      + intros l. destruct (Hf l) as (st & Hst). exists st. subst f. cbn beta.
        destruct (_ ≫= _) as [l' |]; [| exact Hst].
        change (fed all (feeds l (out r ++ [OClose l' code])) st). by rewrite feeds_quiet.
      + subst f. cbn. destruct (_ ≫= _); (eapply owned_tame; [apply alter_tame; tame_fields | done]).
      + unfold players in *. subst f. cbn. destruct (_ ≫= _); cbn; by rewrite fmap_alter.
      + subst f. cbn. by destruct (_ ≫= _).
      + subst f. cbn. rewrite length_alter. destruct (_ ≫= _); cbn; lia.
      + intros j m Hj. subst f. cbn.
        assert (∀ ms : list Member, (∀ m, (j < k)%nat → ms !! j = Some m → link m = None) →
          alter (λ m, m <| link := None |> <| streaming := false |>) k ms !! j = Some m → link m = None)
          as Halt.
        { intros ms Hms. destruct (base.decide (k = j)) as [-> | Hne].
          - rewrite list_lookup_alter_eq. by intros (m0 & _ & ->)%fmap_Some.
          - rewrite list_lookup_alter_ne by done. apply Hms. lia. }
        destruct (_ ≫= _); apply Halt; intros; by eapply Hk. }
  destruct (Hloop (length (members r)) 0%nat r Hf Ho Hd Hph eq_refl ltac:(intros; lia))
    as (Hf' & Ho' & Hd' & Hph' & Hn).
  unfold for_members. set (r1 := foldl f r _) in *. clearbody r1. split; try done; cbn.
  - intros l. destruct (Hf' l) as (st & Hst). exists st. split; [done |]. intros m Hm Hl.
    by rewrite (Hn m Hm) in Hl.
  - by rewrite Hph'.
Qed.

(** ** Sealing *)

(** A step of an open room that keeps the streams in order, of a log that may
    have grown. *)
Definition grows r r' : Prop :=
  ∀ all, closed r = false → streams_ok who all r → ∃ more, streams_ok who (all ++ more) r'.

Lemma keeps_grows r r' : keeps r r' → grows r r'.
Proof. intros H all Hc Hr. exists []. rewrite app_nil_r. by apply H. Qed.

Lemma keeps_then r1 r2 r3 : keeps r1 r2 → grows r2 r3 → grows r1 r3.
Proof. intros H1 H2 all Hc Hr. destruct (H1 all Hc Hr). by apply H2. Qed.

Lemma grows_refl r : grows r r.
Proof. apply keeps_grows. reflexivity. Qed.

Lemma up_to_extend all more hd o ms : up_to all hd o ms → up_to (all ++ more) hd o ms.
Proof.
  intros H l. destruct (H l) as (st & Hf & Hst). exists st. split; [by apply fed_extend | done].
Qed.

(** A game of the same log is sealed and published, or the room closes. *)
Lemma seal_grows r g g1 frontier rules (upd : Game → Game) :
  phase r = Running g → head_pos g1 = head_pos g → sealed_through g1 ≤ frontier →
  (∀ all, game_ok g first_pos all → game_ok g1 first_pos all) → (∀ g2, same_game g2 (upd g2)) →
  grows r (let '(g2, frames) := seal g1 frontier in
           match frames with
           | Err _ => close_all (r <| ruleset := rules |> <| phase := Running g2 |>) SHUTTING_DOWN
           | Ok frames =>
               publish crc outcome disk (r <| ruleset := rules |> <| phase := Running (upd g2) |>) frames
           end).
Proof.
  intros Hph Hhd Hle Hg Hupd all Hc [H1 H2 H3 H4]. unfold head_of in H1. rewrite Hph in H1, H4.
  specialize (H4 Hc). pose proof (Hg all H4) as Hg1.
  destruct (seal g1 frontier) as [g2 [frames | e]] eqn:Hs.
  - destruct (seal_spec g1 first_pos all frontier g2 frames Hg1 Hle Hs) as (He & Hch & Hg2 & _).
    set (ts := sealed_turns _ _ _ _ _) in *. exists ts. pose proof (Hupd g2) as Hu.
    apply (publish_ok (all ++ ts) (r <| ruleset := rules |> <| phase := Running (upd g2) |>) (upd g2)
      (head_pos g1) ts frames all).
    + done.
    + done.
    + by eapply game_ok_same.
    + by rewrite (head_pos_same _ _ Hu).
    + done.
    + done.
    + by apply (log_chain g1 first_pos all).
    + cbn. rewrite Hhd. by apply up_to_extend.
    + done.
    + done.
  - exists []. rewrite app_nil_r. eapply close_all_streams; [| exact H2 | exact H3 | done].
    intros l. cbn. destruct (H1 l) as (st & Hst & _). by exists st.
Qed.

Lemma grows_seal_tick r now : grows r (seal_tick crc outcome disk r now).
Proof.
  unfold seal_tick. destruct (phase r) as [| g] eqn:Hph; [apply grows_refl |].
  pose proof (advance_ge (pacer g) (saturating_duration_since now (last_tick g)) (speed g)
    (slowest_pacer (members r)) (sealed_through g)) as Hadv.
  set (g0 := g <| last_tick := now |>).
  destruct (advance (pacer g0) _ (speed g0) _ (sealed_through g0)) as [p frontier] eqn:Ea.
  change (pacer g0) with (pacer g) in Ea. change (speed g0) with (speed g) in Ea.
  change (sealed_through g0) with (sealed_through g) in Ea. rewrite Ea in Hadv. cbn in Hadv.
  set (g1 := g0 <| pacer := p |>). assert (Hsame : same_game g g1) by (by split).
  destruct (_ && _ && _); [apply keeps_grows; by apply (keeps_phase r g) |].
  pose proof (seal_grows r g g1 frontier (ruleset r) (λ g, g) Hph (head_pos_same _ _ Hsame) Hadv) as H.
  apply H; [| done]. intros all. by apply game_ok_same.
Qed.

Lemma grows_save_if_due r config now : grows r (save_if_due crc outcome disk r config now).
Proof.
  unfold save_if_due. destruct (phase r) as [| g] eqn:Hph; [apply grows_refl |].
  destruct (_ || _); [apply grows_refl |].
  pose proof (append_head g SaveWorld (ruleset r)) as Hh.
  pose proof (λ all H, append_ok g first_pos all SaveWorld (ruleset r) H) as Hok.
  destruct (append g SaveWorld (ruleset r)) as [g1 rules]. cbn [fst] in *.
  pose proof (seal_grows r g g1 (sealed_through g1) rules
    (λ g2, g2 <| saves ::= λ s,
       s <| save_rounds ::= <[next_event g1 - 1 := MkSaveRound (MkSavePoint (next_event g1 - 1)
              (next_turn g2 - 1) (history g2) (sealed_through g1)) now []]> |>
         <| last_save := Some now |> <| last_point := Some (MkSavePoint (next_event g1 - 1)
              (next_turn g2 - 1) (history g2) (sealed_through g1)) |> |>)
    Hph Hh ltac:(lia) Hok ltac:(by split)) as H.
  by destruct (seal g1 (sealed_through g1)) as [g2 [frames | e]].
Qed.

Lemma grows_run_saves r now : grows r (run_saves crc outcome disk r now).
Proof.
  unfold run_saves. destruct (snapshots r) as [config |]; [| apply grows_refl].
  destruct (phase r) as [| g] eqn:Hph; [apply grows_refl |].
  set (stalled := (u ← upload (saves g); _)).
  set (g1 := match stalled with None => g | Some u => _ end).
  assert (H1 : keeps r (r <| phase := Running g1 |>)).
  { apply (keeps_phase r g); [done |]. subst g1. destruct stalled; [by split | reflexivity]. }
  set (ready := List.filter _ _). set (r1 := foldl _ _ ready).
  assert (H2 : keeps r r1)
    by (etransitivity; [exact H1 |]; apply keeps_foldl; intros; apply keeps_decide_save).
  clearbody r1. eapply keeps_then; [| apply grows_save_if_due].
  destruct stalled as [u |]; [| done].
  etransitivity; [| apply keeps_ask_for_upload]. etransitivity; [exact H2 |].
  destruct (receiving u); [| reflexivity]. destruct (position _ _) as [i |]; [| reflexivity].
  destruct (_ ≫= _) as [l |]; [| reflexivity].
  etransitivity; [by apply (keeps_emit _ (OClose l SLOW_CONSUMER)) | apply keeps_update; tame_fields].
Qed.

(** ** Departures *)

Lemma streams_close all r : streams_ok who all r → streams_ok who all (r <| closed := true |>).
Proof. intros [H1 H2 H3 H4]. split; try done. cbn. by destruct (phase r). Qed.

Lemma keeps_delete r i : keeps r (r <| members := delete i (members r) |>).
Proof.
  intros all Hc [H1 H2 H3 H4]. split; [| done].
  assert (Hsub : ∀ m, m ∈ delete i (members r) → m ∈ members r).
  { intros m. apply list_elem_of_delete_inv. }
  split; cbn.
  - intros l. destruct (H1 l) as (st & Hf & Hst). exists st. split; [done |]. intros m Hm. by apply Hst, Hsub.
  - intros m l Hm. by apply H2, Hsub.
  - eapply sublist_NoDup; [exact H3 |]. apply fmap_sublist, sublist_delete.
  - destruct (phase r); [| done]. destruct H4 as [? H4]. split; [done |].
    apply Forall_forall. intros m Hm. rewrite Forall_forall in H4. auto.
Qed.

Lemma grows_after_departure r p : grows r (after_departure outcome r p).
Proof.
  unfold after_departure. destruct (members r) as [| first ms] eqn:Hm.
  - intros all Hc Hr. exists []. rewrite app_nil_r. apply streams_close. by apply keeps_discard.
  - apply keeps_grows. etransitivity; [| apply keeps_broadcast].
    destruct (_ =? _); [by apply keeps_same | reflexivity].
Qed.

(** A stream is closed that no member has any more. *)
Lemma keeps_close_stream r l :
  (∀ m, m ∈ members r → link m ≠ Some l) → keeps r (try_send outcome r (OTurns l FeedClose)).1.
Proof.
  intros Hno. unfold try_send. destruct (outcome (calls r)); [| by apply keeps_same..]. cbn [fst].
  intros all Hc [H1 H2 H3 H4]. split; [| done]. split; try done. intros l'.
  change (out (emit _ ?o)) with (out r ++ [o]). destruct (H1 l') as (st & Hf & Hst).
  destruct (base.decide (l = l')) as [<- | Hne].
  - exists None. rewrite feeds_sent. split; [by eapply fed_close |]. intros m Hm Hl. by destruct (Hno m Hm).
  - exists st. by rewrite feeds_other.
Qed.

Lemma other_links r i m l :
  owned who (members r) → NoDup (players r) → members r !! i = Some m → link m = Some l →
  ∀ m', m' ∈ delete i (members r) → link m' ≠ Some l.
Proof.
  intros Ho Hd Hi Hl m' (j & Hj)%list_elem_of_lookup Hl'.
  destruct (base.decide (j < i)%nat) as [Hlt | Hge].
  - rewrite list_lookup_delete_lt in Hj by done.
    pose proof (same_seat r i j m m' l Ho Hd Hi Hj Hl Hl'). lia.
  - rewrite list_lookup_delete_ge in Hj by lia.
    pose proof (same_seat r i (S j) m m' l Ho Hd Hi Hj Hl Hl'). lia.
Qed.

Lemma grows_leave r p k : grows r (leave outcome r p k).1.
Proof.
  unfold leave. destruct (position _ _) as [i |]; [| apply grows_refl].
  destruct (members r !! i) as [m |] eqn:Hi; [| apply grows_refl]. cbn [fst].
  set (r1 := r <| members := delete i (members r) |>).
  set (r2 := match link m with Some l => _ | None => r1 end).
  assert (H2 : keeps r r2).
  { intros all Hc Hr. destruct (keeps_delete r i all Hc Hr) as [Hr1 Hc1]. subst r2.
    destruct (link m) as [l |] eqn:Hl; [| done]. destruct (streaming m); [| done].
    apply keeps_close_stream; [| done | done]. destruct Hr. by eapply other_links. }
  clearbody r2. set (r3 := match phase r2 with Lobby => r2 | Running g => _ end).
  assert (H3 : keeps r2 r3).
  { subst r3. destruct (phase r2) as [| g] eqn:Hph; [reflexivity |].
    pose proof (keeps_append r2 g (PlayerLeft p k) Hph) as H. by destruct (append _ _ _). }
  eapply keeps_then; [exact H2 |]. eapply keeps_then; [exact H3 | apply grows_after_departure].
Qed.

Lemma grows_kick r p t : grows r (kick outcome r p t).1.
Proof.
  unfold kick. destruct (negb _); [apply grows_refl |]. destruct (_ =? _); [apply grows_refl |].
  destruct (position _ _) as [i |]; [| apply grows_refl].
  eapply keeps_then; [| apply grows_leave]. etransitivity; [apply (keeps_push r i Kicked) |].
  destruct (_ <? _); [by apply keeps_same | reflexivity].
Qed.

Lemma grows_disconnected r p l : grows r (disconnected outcome r p l).
Proof.
  unfold disconnected. destruct (position _ _) as [i |]; [| apply grows_refl]. destruct (phase r).
  - eapply keeps_then; [apply (keeps_delete r i) | apply grows_after_departure].
  - apply keeps_grows. etransitivity; [| apply keeps_broadcast]. apply keeps_update. tame_fields.
Qed.

Lemma grows_sweep fuel r : grows r (sweep_seats outcome fuel r).
Proof.
  revert r. induction fuel as [| fuel IH]; intros r; cbn [sweep_seats]; [apply grows_refl |].
  destruct (position _ _) as [i |]; [| apply grows_refl].
  destruct (members r !! i) as [m |]; [| apply grows_refl].
  eapply keeps_then; [apply (keeps_delete r i) |]. set (r1 := r <| members := _ |>).
  intros all Hc Hr. destruct (grows_after_departure r1 (player m) all Hc Hr) as (more & Hr2).
  destruct (closed (after_departure outcome r1 (player m))) eqn:Hc2; [by exists more |].
  destruct (IH _ _ Hc2 Hr2) as (more' & Hr3). exists (more ++ more'). by rewrite app_assoc.
Qed.

Lemma sweep_phase fuel r : phase r = Lobby → phase (sweep_seats outcome fuel r) = Lobby.
Proof.
  revert r. induction fuel as [| fuel IH]; intros r Hl; cbn [sweep_seats]; [done |].
  destruct (position _ _) as [i |]; [| done]. destruct (members r !! i) as [m |]; [| done].
  set (r1 := after_departure outcome _ _).
  assert (Hp : same_phase (phase r) (phase r1))
    by exact (after_departure_phase outcome (r <| members := delete i (members r) |>) (player m)).
  assert (phase r1 = Lobby) by (rewrite Hl in Hp; unfold same_phase in Hp; by destruct (phase r1)).
  destruct (closed r1); [done |]. by apply IH.
Qed.

(** The first half of a tick. *)
Lemma grows_housekeeping r now : grows r (expire_if_abandoned (sweep_lobby outcome r) now).
Proof.
  unfold sweep_lobby. destruct (phase r) as [| g] eqn:Hph.
  - unfold expire_if_abandoned. rewrite (sweep_phase _ _ Hph). apply grows_sweep.
  - unfold expire_if_abandoned. rewrite Hph.
    assert (Hu : ∀ s, keeps r (r <| unattended_since := s |>)) by (intros s; by apply keeps_same).
    destruct (existsb _ _); [apply keeps_grows, Hu |]. destruct (_ <? _); [apply keeps_grows, Hu |].
    eapply keeps_then; [apply Hu |]. intros all Hc Hr. exists []. rewrite app_nil_r.
    apply streams_close. by apply keeps_discard.
Qed.

Lemma grows_on_tick r now : grows r (on_tick crc outcome disk r now).
Proof.
  unfold on_tick. set (r2 := expire_if_abandoned (sweep_lobby outcome r) now). intros all Hc Hr.
  destruct (grows_housekeeping r now all Hc Hr) as (m1 & Hr2). fold r2 in Hr2. clearbody r2.
  destruct (closed r2) eqn:Hc2; [by exists m1 |].
  set (r3 := demote_stalled (decide_waiting_rounds outcome r2 now) now).
  assert (H3 : keeps r2 r3) by (etransitivity; [apply keeps_decide_waiting | apply keeps_demote]).
  destruct (H3 _ Hc2 Hr2) as [Hr3 Hc3]. clearbody r3.
  destruct (grows_run_saves r3 now _ Hc3 Hr3) as (m2 & Hr4).
  destruct (closed (run_saves crc outcome disk r3 now)) eqn:Hc4.
  { exists (m1 ++ m2). by rewrite app_assoc. }
  destruct (grows_seal_tick _ now _ Hc4 Hr4) as (m3 & Hr5). exists (m1 ++ m2 ++ m3).
  by rewrite !app_assoc.
Qed.

(** ** Arrivals *)

(** The seat at [i] is [new]'s, and receives no turns. *)
Definition resting (r : room) (i : nat) (new : NewMember) : Prop :=
  ∀ m, members r !! i = Some m → streaming m = false ∧ player m = new_player new.

Lemma resting_update (r : room) i new f :
  resting r i new → (∀ m, streaming (f m) = false ∨ streaming (f m) = streaming m) →
  (∀ m, player (f m) = player m) → resting (update_member r i f) i new.
Proof.
  intros Hi Hs Hp m. cbn. rewrite list_lookup_alter_eq. intros (m' & [Hm1 Hm2]%Hi & ->)%fmap_Some.
  rewrite Hp. split; [destruct (Hs m') as [-> | ->]; done | done].
Qed.

(** A resting seat takes a link. *)
Lemma relink_keeps r r3 i new :
  who (new_link new) = new_player new → keeps r r3 → resting r3 i new →
  keeps r (update_member r3 i (λ m, m <| link := Some (new_link new) |>)).
Proof.
  intros Hw H3 Hi3 all Hc Hr. destruct (H3 all Hc Hr) as [Hr3 Hc3]. split; [| done].
  apply silent_member_ok; [done |]. intros m2 Hm2. destruct (Hi3 m2 Hm2) as [Hs Hpl]. cbn.
  split; [done |]. split; [done |]. intros l [= <-]. congruence.
Qed.

(** A resting seat is sent a stream, and takes the link. *)
Lemma restream_keeps r r3 i new feed g :
  who (new_link new) = new_player new → keeps r r3 → resting r3 i new → phase r3 = Running g →
  (∀ all, game_ok g first_pos all → opens all (head_pos g) feed) →
  let '(r4, sent) := try_send outcome r3 (OTurns (new_link new) feed) in
  keeps r (update_member (update_member r4 i (λ m, m <| streaming := is_sent sent |>)) i
    (λ m, m <| link := Some (new_link new) |>)).
Proof.
  intros Hw H3 Hi3 Ep3 Hopens. unfold try_send. destruct (outcome (calls r3)); cbn [is_sent].
  2, 3: apply relink_keeps; [done | | apply resting_update; [exact Hi3 | by left | done]];
    (etransitivity; [exact H3 |]); (etransitivity; [| apply keeps_update; tame_fields]); by apply keeps_same.
  intros all Hc Hr. destruct (H3 all Hc Hr) as [Hr3 Hc3]. split; [| done].
  set (f1 := λ m : Member, m <| streaming := true |>).
  set (f2 := λ m : Member, m <| link := Some (new_link new) |>).
  set (r4 := r3 <| calls := S (calls r3) |>).
  assert (update_member (update_member (emit r4 (OTurns (new_link new) feed)) i f1) i f2
          = update_member (emit r4 (OTurns (new_link new) feed)) i (f2 ∘ f1)) as ->.
  { unfold update_member. cbn. by rewrite list_alter_alter_eq. }
  eapply (stream_member_ok _ _ g); [by destruct Hr3; split | done | |].
  - apply Hopens. destruct Hr3 as [_ _ _ H4]. rewrite Ep3 in H4. auto.
  - intros m2 Hm2. destruct (Hi3 m2 Hm2) as [_ Hpl]. cbn. split; [done |]. split; [done | congruence].
Qed.

Lemma take_seat_keeps r i new rj now m :
  members r !! i = Some m → player m = new_player new → who (new_link new) = new_player new →
  (∀ feed, rj = RejoinStream feed → ∃ g, phase r = Running g ∧
    ∀ all, game_ok g first_pos all → opens all (head_pos g) feed) →
  keeps r (take_seat outcome r i new rj now).
Proof.
  intros Hi Hp Hw Hfeed. unfold take_seat. etransitivity; [| apply keeps_offer_worlds].
  set (r1 := match _ ≫= _ with Some old => _ | None => r end).
  assert (H1 : keeps r r1 ∧ phase r1 = phase r ∧ members r1 = members r).
  { subst r1. destruct (_ ≫= _) as [old |]; [| by split; [reflexivity |]].
    destruct (negb _); [| by split; [reflexivity |]]. split; [by apply keeps_emit | done]. }
  destruct H1 as (H1 & Ep1 & Em1). clearbody r1. set (r2 := update_member r1 i _).
  assert (H2 : keeps r r2) by (etransitivity; [exact H1 | apply keeps_update; tame_fields]).
  assert (Hi2 : resting r2 i new).
  { intros m2. subst r2. cbn. rewrite list_lookup_alter_eq, Em1, Hi. by intros [= <-]. }
  assert (Ep2 : phase r2 = phase r) by exact Ep1. clearbody r2.
  assert (Htame : ∀ f, (∀ m, tame m (f m)) → keeps r (update_member r2 i f))
    by (intros f Hf; etransitivity; [exact H2 | by apply keeps_update]).
  destruct rj as [| feed |].
  - by apply relink_keeps.
  - destruct (Hfeed feed eq_refl) as (g & Hph & Hopens). set (r3 := update_member r2 i _).
    assert (H3 : keeps r r3) by (apply Htame; tame_fields).
    assert (Hi3 : resting r3 i new) by (apply resting_update; [exact Hi2 | by right | done]).
    assert (Ep3 : phase r3 = Running g) by (by rewrite <- Hph). clearbody r3.
    pose proof (restream_keeps r r3 i new feed g Hw H3 Hi3 Ep3 Hopens) as Hgo.
    by destruct (try_send outcome r3 _) as [r4 sent].
  - apply relink_keeps; [done | apply Htame; tame_fields |].
    apply resting_update; [exact Hi2 | by right | done].
Qed.

Lemma keeps_add r m :
  streaming m = false → (∀ l, link m = Some l → who l = player m) → player m ∉ players r →
  keeps r (r <| members := members r ++ [m] |>).
Proof.
  intros Hs Hw Hp all Hc [H1 H2 H3 H4]. split; [| done]. split; cbn.
  - intros l. destruct (H1 l) as (st & Hf & Hst). exists st. split; [done |].
    intros m' [Hm' | ->%list_elem_of_singleton]%elem_of_app; [by apply Hst | congruence].
  - intros m' l [Hm' | ->%list_elem_of_singleton]%elem_of_app; [by apply H2 | apply Hw].
  - unfold players in *. cbn. rewrite fmap_app. apply NoDup_app. split; [done |].
    split; [| apply NoDup_singleton]. by intros x Hx ->%list_elem_of_singleton.
  - destruct (phase r); [| done]. destruct H4. split; [done |]. apply Forall_app. split; [done |].
    by constructor.
Qed.

Lemma keeps_newcomer r new content now :
  who (new_link new) = new_player new → new_player new ∉ players r →
  keeps r (seat_newcomer outcome r new content now).1.
Proof.
  intros Hw Hp. unfold seat_newcomer. destruct (phase r) as [| g] eqn:Hph.
  - destruct (_ <=? _); [reflexivity |]. apply keeps_add; [done | | done]. by intros l [= <-].
  - case_bool_decide; [reflexivity |]. destruct (_ <=? _); [reflexivity |].
    destruct (_ || _); [reflexivity |].
    pose proof (keeps_append r g (PlayerJoined (new_player new) (new_name new) (new_platform new)) Hph) as Ha.
    destruct (append g _ (ruleset r)) as [g' rules]. cbn [fst snd] in *.
    etransitivity; [| apply keeps_offer_worlds]. etransitivity; [exact Ha |].
    apply keeps_add; [done | | done]. by intros l [= <-].
Qed.

Lemma keeps_join r new token pw resume content now :
  who (new_link new) = new_player new →
  keeps r (join hmac_verify outcome r new token pw resume content now).1.
Proof.
  intros Hw. unfold join. case_bool_decide; [reflexivity |]. set (seat := position _ (members r)).
  assert (Ha : let r1 := (admit_player hmac_verify r (new_player new) (bool_decide (is_Some seat)) token pw now).1 in
    keeps r r1 ∧ members r1 = members r ∧ phase r1 = phase r).
  { unfold admit_player. generalize (bool_decide (is_Some seat)) as b. intros b.
    destruct (check_secrets _ _ _ _ _), b; cbn; (split; [by apply keeps_same | done]). }
  destruct (admit_player _ _ _ _ _ _ _) as [r1 ok]. cbn in Ha. destruct Ha as (H1 & Em & Ep).
  destruct ok; cbn [negb fst]; [| exact H1]. etransitivity; [exact H1 |].
  destruct seat as [i |] eqn:Hseat; subst seat.
  - destruct (rejoin_of r1 resume content) as [rj | e] eqn:Hrj; [| reflexivity]. cbn [fst].
    destruct (position_spec _ _ _ Hseat) as (m & Hi & Hm). apply Z.eqb_eq in Hm.
    apply (take_seat_keeps r1 i new rj now m); [by rewrite Em | done | done |].
    intros feed ->. unfold rejoin_of in Hrj. destruct (phase r1) as [| g]; [done |]. exists g.
    split; [done |]. intros all Hg. destruct (_ && _); [done |]. destruct (_ && _); [done |].
    inv_option. by eapply resume_feed_opens.
  - apply keeps_newcomer; [done |]. unfold players. rewrite Em. by apply not_seated.
Qed.

(** ** The start of a game *)

Lemma seat_all_ok ms g (rules : R) all :
  game_ok g first_pos all →
  game_ok (seat_all ms g rules).1 first_pos all ∧ head_pos (seat_all ms g rules).1 = head_pos g ∧
  next_turn (seat_all ms g rules).1 = next_turn g.
Proof.
  unfold seat_all. revert g rules. induction ms as [| m ms IH]; intros g rules Hg; [done |].
  cbn [foldl fst snd]. set (b := PlayerJoined (player m) (name m) (platform m)).
  pose proof (append_ok g first_pos all b rules Hg) as Hg1. pose proof (append_head g b rules) as Hh.
  assert (Hn : next_turn (append g b rules).1 = next_turn g) by done.
  destruct (append g b rules) as [g1 rules1]. cbn [fst snd] in *.
  destruct (IH g1 rules1 Hg1) as (H1 & H2 & H3). split; [done |]. split; congruence.
Qed.

Lemma start_member_at open sw r0 r i :
  opens [] first_pos (FeedOpen open []) → all_at [] first_pos r0 r →
  all_at [] first_pos r0 (start_member outcome open sw r i).
Proof.
  intros Ho [Hf Hw Hd Hp Hc]. unfold start_member. destruct (members r !! i) as [m |] eqn:Hi; [| done].
  assert (Hsil : ∀ r1 : room, members r1 = members r → out r1 = out r → phase r1 = phase r →
    closed r1 = closed r → ∀ f, (∀ m, streaming (f m) = false ∧ player (f m) = player m ∧ link (f m) = link m) →
    all_at [] first_pos r0 (update_member r1 i f)).
  { intros r1 Em Eo Ep Ec f Hfm. split; cbn.
    - rewrite Eo, Em. apply up_to_silent; [done |]. intros. apply Hfm.
    - rewrite Em. apply owned_alter; [done |]. intros m0 l Hm0. destruct (Hfm m0) as (_ & -> & ->).
      apply Hw. by eapply list_elem_of_lookup_2.
    - unfold players in *. cbn. rewrite Em, alter_players; [done |]. intros m0 _. apply Hfm.
    - congruence.
    - congruence. }
  set (f1 := λ m : Member, m <| pace := Loading |> <| stream_from := 1 |> <| streaming := false |>).
  destruct (_ && _).
  { unfold update_member at 1. cbn. rewrite list_alter_alter_eq. by apply (Hsil r). }
  destruct (link m) as [l |] eqn:Hl.
  2: { unfold update_member at 1. cbn. rewrite list_alter_alter_eq. by apply (Hsil r). }
  set (f2 := λ m : Member, m <| needs := NeedsNothing |>).
  unfold try_send. cbn. destruct (outcome (calls r)); cbn [is_sent].
  - unfold update_member, emit. cbn. rewrite !list_alter_alter_eq. split; cbn.
    + eapply up_to_open; [done | done |]. intros m0 Hm0. cbn. congruence.
    + apply owned_alter; [done |]. cbn. intros m0 l0 Hm0. apply Hw. by eapply list_elem_of_lookup_2.
    + unfold players in *. cbn. by rewrite alter_players.
    + done.
    + done.
  - unfold update_member. cbn. rewrite !list_alter_alter_eq.
    exact (Hsil (r <| calls := S (calls r) |>) eq_refl eq_refl eq_refl eq_refl
      (λ m, (f2 (f1 m)) <| streaming := false |>) ltac:(done)).
  - unfold update_member. cbn. rewrite !list_alter_alter_eq.
    exact (Hsil (r <| calls := S (calls r) |>) eq_refl eq_refl eq_refl eq_refl
      (λ m, (f2 (f1 m)) <| streaming := false |>) ltac:(done)).
Qed.

Lemma start_members_at open sw r0 l r :
  opens [] first_pos (FeedOpen open []) → all_at [] first_pos r0 r →
  all_at [] first_pos r0 (foldl (start_member outcome open sw) r l).
Proof.
  intros Ho. revert r. induction l as [| i l IH]; intros r Hr; [done |]. cbn [foldl].
  by apply IH, start_member_at.
Qed.

Lemma start_closed r p h now : closed (start crc outcome disk r p h now).1 = closed r.
Proof.
  unfold start. destruct (negb _); [done |]. destruct (phase r); [| done].
  destruct (negb _); [done |]. destruct (_ || _); [done |]. destruct (seat_all _ _ _) as [g rules].
  cbn [fst]. rewrite (q_closed _ _ (quiet_open_log crc disk _ _)).
  set (r1 := r <| ruleset := rules |> <| room_content := _ |>). set (open := turn_start _ _ _ _ _ _).
  pose proof (quiet_for_members r1 (start_member outcome open (bool_decide (is_Some (snapshots r1))))
    (quiet_start_member outcome open _)) as Hq.
  set (r2 := for_members r1 _) in *. clearbody r2.
  destruct (_ && _); [rewrite (q_closed _ _ (quiet_offer_worlds outcome _ _)) |]; exact (q_closed _ _ Hq).
Qed.

Lemma grows_start r p h now : grows r (start crc outcome disk r p h now).1.
Proof.
  unfold start. destruct (negb _); [apply grows_refl |].
  destruct (phase r) as [| g0] eqn:Hph; [| apply grows_refl].
  destruct (negb _); [apply grows_refl |]. destruct (_ || _); [apply grows_refl |].
  intros all Hc [H1 H2 H3 H4]. rewrite Hph in H4. destruct H4 as [-> Hs]. exists []. cbn [app].
  pose proof (Game_new_ok (settings r) h now) as Hnew.
  destruct (seat_all_ok (members r) (Game_new (settings r) h now) (ruleset r) [] Hnew) as (Hg & Hh & Hn).
  change (head_pos (Game_new (settings r) h now)) with first_pos in Hh.
  change (next_turn (Game_new (settings r) h now)) with 1 in Hn.
  destruct (seat_all _ _ _) as [g rules]. cbn [fst snd] in *.
  set (r1 := r <| ruleset := rules |> <| room_content := _ |>).
  set (open := turn_start _ _ _ _ _ _).
  assert (Hop : opens [] first_pos (FeedOpen open [])).
  { exists open, [], [], []. assert (start_pos open = first_pos) as ->
      by (unfold open, start_pos; cbn; by rewrite Hn).
    split; [done |]. split; [done |]. split; [constructor |]. split; constructor. }
  assert (Hat : all_at [] first_pos r1 (for_members r1 (start_member outcome open (bool_decide (is_Some (snapshots r1)))))).
  { unfold for_members. assert (all_at [] first_pos r1 r1) as H0.
    { split; try done. intros l. destruct (H1 l) as (st & Hf & _). exists st. split; [done |].
      intros m Hm _ Hst. rewrite Forall_forall in Hs. by rewrite (Hs m Hm) in Hst. }
    by apply start_members_at. }
  set (r2 := for_members r1 _) in *. clearbody r2. destruct Hat as [A1 A2 A3 A4 A5].
  assert (Hr3 : streams_ok who [] (r2 <| phase := Running g |>)).
  { split; [| done | done | by intros _]. unfold head_of. cbn [phase]. cbn. by rewrite Hh. }
  assert (Hc3 : closed (r2 <| phase := Running g |>) = false) by (cbn; by rewrite A5).
  set (r3 := r2 <| phase := Running g |>) in *. clearbody r3.
  assert (Hof : streams_ok who [] (offer_worlds outcome r3 now) ∧ closed (offer_worlds outcome r3 now) = false)
    by (by apply keeps_offer_worlds).
  destruct (_ && _); apply keeps_open_log; by try apply Hof.
Qed.

(** ** Every step of the loop *)

(** The connection a command comes from belongs to the player it names. *)
Definition honest (s : RoomStep) : Prop :=
  match s with
  | StepCommand (CmdJoin new _ _ _ _) => who (new_link new) = new_player new
  | _ => True
  end.

Lemma grows_handle r now c :
  honest (StepCommand c) → grows r (handle hmac_verify crc outcome disk r now c).1.
Proof.
  intros Hh. destruct c as [new tok pw res ct | p | p l | p b | p ct | p h | p s | p t | p | p t | p s b
                | p l s | p l s lns | p l e lns w | p l s | p l s | p s res]; cbn [handle].
  - pose proof (keeps_join r new tok pw res ct now Hh) as H.
    destruct (join _ _ _ _ _ _ _ _ _) as [r' result]. cbn in *. apply keeps_grows.
    destruct (is_ok result); [etransitivity; [exact H | apply keeps_broadcast] | done].
  - pose proof (grows_leave r p false) as H. by destruct (leave _ _ _ _).
  - apply grows_disconnected.
  - pose proof (keeps_set_ready r p b) as H. destruct (set_ready r p b) as [r' [[] | e]]; apply keeps_grows; try done.
    etransitivity; [exact H | apply keeps_broadcast].
  - pose proof (keeps_declare r p ct) as H. destruct (declare_content r p ct) as [r' [[] | e]]; apply keeps_grows; try done.
    etransitivity; [exact H | apply keeps_broadcast].
  - pose proof (grows_start r p h now) as H.
    pose proof (start_closed r p h now) as Hcl. destruct (start _ _ _ _ _ _ _) as [r' result].
    unfold answer_and_broadcast. cbn in *. destruct (is_ok result); [| done].
    intros all Hc Hr. destruct (H all Hc Hr) as (more & Hr'). exists more.
    apply keeps_broadcast; [congruence | done].
  - pose proof (keeps_set_speed r p s) as H. apply keeps_grows. by destruct (set_speed r p s).
  - pose proof (grows_kick r p t) as H. by destruct (kick _ _ _ _).
  - apply grows_refl.
  - pose proof (keeps_chat r p t now) as H. apply keeps_grows. by destruct (chat _ _ _ _ _).
  - apply keeps_grows, keeps_intent.
  - apply keeps_grows, keeps_progress.
  - apply keeps_grows, keeps_checkpoint.
  - apply keeps_grows, keeps_saved.
  - apply grows_refl.
  - pose proof (keeps_upload_starts r p l s) as H. apply keeps_grows. by destruct (upload_starts _ _ _ _).
  - apply keeps_grows, keeps_uploaded.
Qed.

Lemma grows_run r steps :
  Forall (λ s, honest s.2) steps → ∀ all, streams_ok who all r →
  ∃ more, streams_ok who (all ++ more) (run_room hmac_verify crc outcome disk r steps).
Proof.
  revert r. induction steps as [| [now s] steps IH]; intros r Hh all Hr; cbn [run_room].
  { exists []. by rewrite app_nil_r. }
  inversion Hh as [| ? ? H1 H2]; subst. destruct (closed r) eqn:Hc.
  { exists []. by rewrite app_nil_r. }
  assert (Hs : grows r (step_room hmac_verify crc outcome disk r now s)).
  { destruct s as [c | | d renamed]; cbn [step_room].
    - by apply grows_handle.
    - apply grows_on_tick.
    - apply keeps_grows, keeps_finish_compaction. }
  destruct (Hs all Hc Hr) as (m1 & Hr1). destruct (IH _ H2 _ Hr1) as (m2 & Hr2).
  exists (m1 ++ m2). by rewrite app_assoc.
Qed.
End keeps.

(** * What a client sees of it *)

Section client.
Context {P : Postcard TurnMessage}.

Lemma chain_prefix_unique all before before' rest rest' p :
  all = before ++ rest → all = before' ++ rest' → chain first_pos before p → chain first_pos before' p →
  before = before' ∧ rest = rest'.
Proof.
  intros E E' Hc Hc'. pose proof (chain_turns _ _ _ Hc). pose proof (chain_turns _ _ _ Hc').
  apply app_inj_1; [lia | congruence].
Qed.

(** The stream that is open: one start message, and the turns that follow it in
    the log. *)
Lemma fed_last all fs q :
  fed all fs (Some q) →
  ∃ pre start backlog frames before ts rest,
    fs = pre ++ FeedOpen start backlog :: (FeedFrame <$> frames) ∧ all = before ++ ts ++ rest ∧
    chain first_pos before (start_pos start) ∧ chain (start_pos start) ts q ∧
    Forall2 encodes ts (backlog ++ frames).
Proof.
  remember (Some q) as st eqn:Est. intros H. revert q Est.
  induction H as [| fs st start backlog before ts rest q' _ _ E Hb Hc He
                 | fs p f before t rest _ IH E Hb Hf He |]; intros q Est;
    try discriminate Est; injection Est as <-.
  - exists fs, start, backlog, [], before, ts, rest. by rewrite app_nil_r.
  - destruct (IH p eq_refl) as (pre & start & backlog & frames & before1 & ts & rest1 & -> & E1 & Hb1 & Hc1 & He1).
    exists pre, start, backlog, (frames ++ [f]), before1, (ts ++ [t]), rest.
    rewrite fmap_app, <- app_assoc. split; [done |].
    rewrite app_assoc in E1.
    destruct (chain_prefix_unique all (before1 ++ ts) before rest1 (t :: rest) p E1 E) as [E2 ->];
      [by eapply chain_app | done |].
    split; [by rewrite E1, <- !app_assoc |]. split; [done |]. split; [by apply chain_snoc |].
    rewrite app_assoc. apply Forall2_app; [done |]. by constructor.
Qed.

(** What a member has been sent since its stream was opened is the log from
    there to its end. *)
Lemma fed_to_end all fs g :
  fed all fs (Some (head_pos g)) → game_ok g first_pos all →
  ∃ pre start backlog frames before ts,
    fs = pre ++ FeedOpen start backlog :: (FeedFrame <$> frames) ∧ all = before ++ ts ∧
    chain first_pos before (start_pos start) ∧ chain (start_pos start) ts (head_pos g) ∧
    Forall2 encodes ts (backlog ++ frames).
Proof.
  intros Hf Hg. destruct (fed_last _ _ _ Hf)
    as (pre & start & backlog & frames & before & ts & rest & Efs & E & Hb & Hc & He).
  exists pre, start, backlog, frames, before, ts. split; [done |].
  destruct (chain_prefix_unique all (before ++ ts) all rest [] (head_pos g)) as [-> _]; try done.
  - by rewrite <- app_assoc.
  - by rewrite app_nil_r.
  - by eapply chain_app.
  - by apply (log_chain g first_pos all).
Qed.
End client.

Lemma Room_new_streams {R} {RS : Ruleset R} {P : Postcard TurnMessage} who id room_name rules max_players
    settings secrets (fresh : R) data_dir timeouts snapshots compact creator now :
  who (new_link creator) = new_player creator →
  streams_ok who [] (Room_new id room_name rules max_players settings secrets fresh data_dir timeouts
    snapshots compact creator now).
Proof.
  intros Hw. split; cbn.
  - intros l. exists None. split; [constructor |]. by intros m ->%list_elem_of_singleton.
  - intros m l ->%list_elem_of_singleton. by intros [= <-].
  - apply NoDup_singleton.
  - split; [done |]. by repeat constructor.
Qed.

(** C2: every client of a room follows one log.  Take any run of a room in which
    a connection carries one player: any commands, ticks and finished
    compactions, in any order, with any sends refused and any writes failing.
    There is one log of turns such that whatever the room ever put on a turn
    stream, on any connection, is a start message at some position of that log
    and the log's own turns from there, without a gap, a repetition or a turn of
    anything else.  While the game runs it is the game's log, and a member whose
    stream is open has been sent all of it since its start message.  While the game's
    counters fit in 64 bits, a follower started there, whose own actions interleave with
    the turns in any way, accepts every turn and ends where the game stands; or it lags so
    far behind that the events it has queued and those of the next turn exceed its 256 MiB,
    which is the only reason it refuses one. *)
Theorem room_streams {R} {RS : Ruleset R} {P : Postcard TurnMessage} {PS : Postcard StartRecord}
    (hmac_verify : list Z → list Z → list Z → bool) (crc : list Z → Z)
    (outcome : nat → SendOutcome) (disk : nat → WriteOutcome) (who : LinkId → PlayerId)
    (id : RoomId) (room_name rules : Text) (most : Z) (st : RoomSettings) (sec : RoomSecrets)
    (fresh : R) (data_dir : bool) (ts : Timeouts) (sn : option SnapshotsConfig) (compact : Z)
    (creator : NewMember) (now : Instant) (steps : list (Instant * RoomStep)) :
  who (new_link creator) = new_player creator → Forall (λ s, honest who s.2) steps →
  let r := run_room hmac_verify crc outcome disk
             (Room_new id room_name rules most st sec fresh data_dir ts sn compact creator now) steps in
  ∃ all,
    (∀ l, ∃ at_, fed all (feeds l (out r)) at_) ∧
    (∀ g, phase r = Running g → closed r = false →
      game_ok g first_pos all ∧
      ∀ m l, m ∈ members r → link m = Some l → streaming m = true →
        ∃ earlier start backlog frames before turns,
          feeds l (out r) = earlier ++ FeedOpen start backlog :: (FeedFrame <$> frames) ∧
          all = before ++ turns ∧ chain first_pos before (start_pos start) ∧
          Forall2 encodes turns (backlog ++ frames) ∧
          (∀ client, arrivals client = turns → counters_fit (head_pos g) →
            match play (TurnFollower_new start) client with
            | Ok (f, _) => follower_pos f = head_pos g
            | Err e => e = Backlog ∧ overfull (TurnFollower_new start) client
            end)).
Proof.
  intros Hw Hh r. set (r0 := Room_new _ _ _ _ _ _ _ _ _ _ _ _ _) in r.
  destruct (grows_run hmac_verify crc outcome disk who r0 steps Hh [] (Room_new_streams _ _ _ _ _ _ _ _ _ _ _ _ _ _ Hw))
    as (all & [H1 H2 H3 H4]). fold r in H1, H2, H3, H4. cbn [app] in *. exists all. split.
  { intros l. destruct (H1 l) as (at_ & Hf & _). by exists at_. }
  intros g Hph Hc. unfold head_of in H1. rewrite Hph in *. specialize (H4 Hc). split; [done |].
  intros m l Hm Hl Hs. destruct (H1 l) as (at_ & Hf & Hat). rewrite (Hat m Hm Hl Hs) in Hf.
  destruct (fed_to_end _ _ _ Hf H4) as (pre & start & backlog & frames & before & turns & E1 & E2 & Hb & Hch & He).
  exists pre, start, backlog, frames, before, turns. split; [done |]. split; [done |]. split; [done |].
  split; [done |]. intros client Hops Hfit. apply play_follows; [by rewrite Hops | done | done].
Qed.

(** The game of two of [RoomExamples], in which the owner streams to the end. *)
Lemma room_streams_witness :
  let who l := if l =? 11 then 1 else 2 in
  let r := RoomExamples.run RoomExamples.lobby RoomExamples.play in
  existsb (λ m, streaming m && bool_decide (link m = Some 11)) (members r) = true ∧
  length (feeds 11 (out r)) = 3%nat ∧
  ∃ all,
    (∀ l, ∃ at_, fed (P := Concrete.turn_postcard) all (feeds l (out r)) at_) ∧
    (∀ g, phase r = Running g → closed r = false →
      game_ok (P := Concrete.turn_postcard) g first_pos all ∧
      ∀ m l, m ∈ members r → link m = Some l → streaming m = true →
        ∃ earlier start backlog frames before turns,
          feeds l (out r) = earlier ++ FeedOpen start backlog :: (FeedFrame <$> frames) ∧
          all = before ++ turns ∧ chain first_pos before (start_pos start) ∧
          Forall2 (encodes (P := Concrete.turn_postcard)) turns (backlog ++ frames) ∧
          (∀ client, arrivals client = turns → counters_fit (head_pos g) →
            match play (TurnFollower_new start) client with
            | Ok (f, _) => follower_pos f = head_pos g
            | Err e => e = Backlog ∧ overfull (TurnFollower_new start) client
            end)).
Proof.
  split; [vm_compute; reflexivity |]. split; [vm_compute; reflexivity |].
  refine (room_streams (P := Concrete.turn_postcard) (PS := ConcreteStart.start_postcard)
    RoomExamples.any_tag RoomExamples.no_crc RoomExamples.sends RoomExamples.writes
    (λ l, if l =? 11 then 1 else 2) 9 "table" "rules" 4
    DEFAULT_SETTINGS (MkRoomSecrets [] [] None) accept_all true
    (MkTimeouts (from_secs 10) (from_secs 60) (from_secs 60)) None 1000000
    (MkNewMember 1 "ada" RoomExamples.linux 11) 0 RoomExamples.play _ _).
  - reflexivity.
  - repeat constructor.
Defined.
