(* ===== verification/Recover.v ===== *)
(** A room after a restart ([Room::recover] of
    [crates/tpf3mp-server/src/room.rs]): the log is read back, every turn is
    checked and replayed through the rules, and the room is rebuilt with
    everyone seated who had not left.

    What the file system and the snapshot store answer are arguments: the bytes
    of the log, whether its file is a regular one named after the room, the
    pointer file as read, and the store's manifest for a snapshot. *)
From S2P Require Import Prelude Proto TurnLog Codec Pacing Limit Verdict Snapshots Ruleset Game Persist Room RoomInv.
Local Open Scope Z_scope.

Inductive RecoverError :=
  | RecoverIo (e : IoError)
  | RecoverLog (e : LogError)
  | RecoverEmpty
  | RecoverStart
  | RecoverVersion (version : Z)
  | RecoverSettings
  | RecoverUnknownRules (name : Text)
  | RecoverMisnamed
  | RecoverTurn (index : Z)
  | RecoverContinuity (index : Z)
  | RecoverFrontier (index : Z)
  | RecoverBase
  | RecoverRules (message : string).

(** * Bases *)

(** [windows(2).all(..)]: the turns the histories begin after never fall. *)
Fixpoint histories_rise (hs : list (Z * Z)) : bool :=
  match hs with
  | h1 :: (h2 :: _) as rest => (h1.2 <=? h2.2) && histories_rise rest
  | _ => true
  end.

Definition base_consistent (base : Base) : bool :=
  (base_after_turn base <? MAX_COUNT) && (base_next_event base <? MAX_COUNT)
  && (1 <=? base_first_turn base) && (base_first_turn base <=? saturating_add_u64 (base_after_turn base) 1)
  && (1 <=? base_first_event base) && (base_first_event base <=? base_next_event base)
  && (base_sealed_before base <=? base_sealed_through base)
  && (base_sealed_through base <=? MAX_FRONTIER)
  && match head (base_histories base) with Some h => h.2 =? 0 | None => false end
  && histories_rise (base_histories base)
  && match last (base_histories base) with Some h => h.2 <=? base_after_turn base | None => false end.

(** The game stood where a compacted log's kept turns begin; [None] if the base
    contradicts itself. *)
Definition rebase (g : Game) (base : Base) : option Game :=
  if negb (base_consistent base) then None
  else Some (g <| next_turn := base_first_turn base |> <| log_first_turn := base_first_turn base |>
               <| next_event := base_first_event base |> <| sealed_through := base_sealed_before base |>
               <| sealed_before_log := base_sealed_before base |> <| speed := base_speed base |>
               <| announced_speed := base_speed base |>
               <| histories := (λ h, MkHistory h.1 h.2) <$> base_histories base |>
               <| seated := base_seated base |>).

Definition meets (g : Game) (base : Base) : bool :=
  (next_turn g =? saturating_add_u64 (base_after_turn base) 1)
  && (next_event g =? base_next_event base)
  && (sealed_through g =? base_sealed_through base).

(** * Replaying *)

Section recover.
Context {R : Type} {RS : Ruleset R} {P : Postcard TurnMessage} {PS : Postcard StartRecord}.
Context (crc : list Z → Z).
Abbreviation room := (Room R).

(** What a replay builds up. *)
Record Replay := MkReplay {
  rp_game : Game;
  rp_rules : R;
  rp_owner : PlayerId;
  rp_banned : gset PlayerId;
}.
#[export] Instance eta_Replay : Eta Replay := fun s =>
  MkReplay (rp_game s) (rp_rules s) (rp_owner s) (rp_banned s).

(** Ownership and the list of the barred after an event that has been seated. *)
Definition replay_departure (seated : list Seat) (s : Replay) (event : Event) : Replay :=
  match body event with
  | PlayerLeft player kicked =>
      let s := if player =? rp_owner s then
                 match head seated with
                 | Some first => s <| rp_owner := seat_player first |>
                 | None => s
                 end
               else s in
      if kicked && (Z.of_nat (size (rp_banned s)) <? MAX_BANNED)
      then s <| rp_banned := {[player]} ∪ rp_banned s |> else s
  | _ => s
  end.

(** One event of a turn; [based]: past what the base covers. *)
Definition replay_event (based : bool) (s : Replay) (event : Event) : option Replay :=
  let g := rp_game s in
  if negb (seq event =? next_event g) then None
  else
    let g := g <| next_event := next_event g + 1 |> in
    if negb based then Some (s <| rp_game := g |>)
    else
      let s := s <| rp_rules := apply_event (rp_rules s) event |> in
      let g := g <| seated := seat (seated g) event |> in
      Some (replay_departure (seated g) (s <| rp_game := g |>) event).

Fixpoint replay_events (based : bool) (s : Replay) (evs : list Event) : option Replay :=
  match evs with
  | [] => Some s
  | event :: evs => s ← replay_event based s event; replay_events based s evs
  end.

Definition replay_turn (based : bool) (index : Z) (s : Replay) (turn : Turn) (frame : Frame) :
    result Replay RecoverError :=
  let g := rp_game s in
  if negb (number turn =? next_turn g) || (turn_sealed_through turn <? sealed_through g)
  then Err (RecoverContinuity index)
  else if MAX_FRONTIER <? turn_sealed_through turn then Err (RecoverFrontier index)
  else
    let first_event := default (next_event g) (seq <$> head (events turn)) in
    match replay_events based s (events turn) with
    | None => Err (RecoverContinuity index)
    | Some s =>
        let g := remember (rp_game s) (MkLoggedTurn first_event (turn_sealed_through turn) frame) in
        Ok (s <| rp_game := g <| next_turn := next_turn g + 1 |>
                 <| sealed_through := turn_sealed_through turn |>
                 <| speed := turn_speed turn |> <| announced_speed := turn_speed turn |> |>)
    end.

(** One record: a turn, or the mark of an earlier recovery. *)
Definition replay_record (based : bool) (index : Z) (s : Replay) (frame : Frame) :
    result Replay RecoverError :=
  let decoded := if (length frame <? FRAME_HEADER_LEN)%nat then None
                 else Some (decode_frame (drop FRAME_HEADER_LEN frame)) in
  match decoded with
  | Some (Ok (TurnOf turn)) => replay_turn based index s turn frame
  | Some (Ok (Start marker)) =>
      if negb based || negb (start_next_turn marker =? next_turn (rp_game s))
         || negb (start_next_event marker =? next_event (rp_game s))
      then Err (RecoverContinuity index)
      else Ok (s <| rp_game := begin_history (rp_game s) (start_history marker) |>)
  | _ => Err (RecoverTurn index)
  end.

(** Whether the replay is past the base, checked before every record. *)
Definition reach_base (base : option Base) (based : bool) (index : Z) (g : Game) :
    result bool RecoverError :=
  let base_turn := default 0 (base_after_turn <$> base) in
  if negb based && (base_turn <? next_turn g) then
    match base with
    | Some base => if meets g base then Ok true else Err (RecoverContinuity index)
    | None => Err (RecoverContinuity index)
    end
  else Ok based.

(** The loop.  Every record takes at least a header, so as many rounds as the
    file has bytes reach its end. *)
Fixpoint replay (reads : nat → bool) (fuel : nat) (base : option Base) (based : bool) (reader : LogReader) (s : Replay)
    (index : Z) : result (LogReader * Replay * bool * Z) RecoverError :=
  match fuel with
  | O => Ok (reader, s, based, index)
  | S fuel =>
      let? based := reach_base base based index (rp_game s) in
      let? (reader, record) := map_err RecoverLog (next_record crc reads reader) in
      match record with
      | None => Ok (reader, s, based, index)
      | Some frame =>
          let? s := replay_record based index s frame in
          replay reads fuel base based reader s (index + 1)
      end
  end.

(** * Rebuilding the room *)

(** The snapshot a restored room last agreed on, if its pointer is readable, the
    store still has it, and the recovered log can be followed from it. *)
Definition recover_snapshot (pointer : option (SnapshotId * SavePoint))
    (store_manifest : ManifestId → option Manifest) (g : Game) : option Agreed :=
  p ← pointer;
  mf ← store_manifest p.1;
  let agreed := MkAgreed mf p.2 in
  match stream_from_save g (point agreed) with
  | Ok _ => Some agreed
  | Err _ => None
  end.

Record RoomEnv := MkRoomEnv {
  env_data_dir : bool;
  env_timeouts : Timeouts;
  env_snapshots : option SnapshotsConfig;
  env_compact_log_at : Z;
}.

Definition restored_member (content : option ContentFingerprint) (now : Instant) (s : Seat) : Member :=
  {| player := seat_player s;
     name := s.1.2;
     platform := s.2;
     ready := true;
     m_content := content;
     link := None;
     streaming := false;
     pace := CatchingUp None;
     advanced := now;
     intents := TokenBucket_new INTENTS_PER_SECOND INTENT_BURST now;
     payload_bytes := TokenBucket_new PAYLOAD_BYTES_PER_SECOND PAYLOAD_BURST now;
     chats := TokenBucket_new CHATS_PER_SECOND CHAT_BURST now;
     needs := NeedsNothing;
     offered := None;
     rebased := None;
     stream_from := 0 |}.

(** The game and the rules before the first turn of the log. *)
Definition replay_start (start : StartRecord) (fresh : R) (now : Instant) : result Replay RecoverError :=
  let g := Game_new (sr_settings start) (sr_history start) now in
  match sr_base start with
  | None => Ok (MkReplay g fresh (sr_owner start) ∅)
  | Some base =>
      let seats := base_seated base in
      let distinct := length (btree_ints (seat_player <$> seats)) in
      match rebase g base with
      | None => Err RecoverBase
      | Some g =>
          if (MAX_BANNED <? Z.of_nat (length (base_banned base)))
             || negb (distinct =? length seats)%nat
             || (sr_max_players start <? Z.of_nat distinct)
          then Err RecoverBase
          else
            let? rules := map_err RecoverRules (restore_rules fresh (base_rules base)) in
            Ok (MkReplay g rules (sr_owner start) (list_to_set (base_banned base)))
      end
  end.

(** What [postcard::from_bytes] gives: bytes left over are not looked at. *)
Definition from_bytes {T} {PT : Postcard T} (bytes : list Z) : option T := fst <$> take_from_bytes bytes.

(** The room a finished replay rebuilds.  [pointer]: the pointer file of the room
    the log is of; [history_id]: the fresh random history; [deleted]: how deleting
    the log goes; [disk]: how the one write goes; [into]: how opening the log to go on
    goes. *)
Definition rebuild (start : StartRecord) (hmac_key : list Z) (env : RoomEnv)
    (pointer : RoomId → option (SnapshotId * SavePoint)) (store_manifest : ManifestId → option Manifest)
    (history_id : Z) (deleted : result unit IoError) (disk : nat → WriteOutcome) (now : Instant)
    (into : IntoOutcome) (reader : LogReader) (s : Replay) : result (option room) RecoverError :=
  let g := rp_game s in
  let g := g <| pacer := resume_at (pacer g) (sealed_through g) |> in
  let content := match sr_base start with
                 | Some base => base_content base
                 | None => head (sr_members start) ≫= sm_content
                 end in
  match restored_member content now <$> seated g with
  | [] => let? _ := map_err RecoverIo deleted in Ok None
  | (first :: _) as members =>
      let g := if env_data_dir env && bool_decide (is_Some (env_snapshots env)) then
                 let found := recover_snapshot (pointer (sr_id start)) store_manifest g in
                 g <| saves ::= λ sv, sv <| current := found |> <| last_point := point <$> found |> |>
               else g in
      let? l := map_err RecoverIo (into_log into reader).2 in
      let g := begin_history g history_id in
      let stream := MkStream (next_turn g) (next_event g) (sealed_through g) [] in
      let marker := Start (turn_start g (sr_id start) (sr_settings start) (sr_rules start) stream None) in
      let? frame := map_err (λ _, RecoverIo IoFailed) (encode_frame marker TURN_MAX_FRAME) in
      let '(l, appended) := append_record crc (disk 0%nat) l frame in
      let? _ := map_err RecoverIo appended in
      let owner := if existsb (λ m, player m =? rp_owner s) members then rp_owner s else player first in
      Ok (Some {| room_id := sr_id start;
                  room_name := sr_name start;
                  room_rules := sr_rules start;
                  Room.owner := owner;
                  max_players := sr_max_players start;
                  settings := sr_settings start;
                  secrets := MkRoomSecrets hmac_key (sr_invite_tag start) (sr_password_tag start);
                  members := members;
                  phase := Running g;
                  ruleset := rp_rules s;
                  data_dir := env_data_dir env;
                  timeouts := env_timeouts env;
                  room_log := Some l;
                  compaction := None;
                  compact_at := next_compaction (written l) (env_compact_log_at env);
                  compact_log_at := env_compact_log_at env;
                  unattended_since := None;
                  password_guard := PasswordGuard_new now;
                  banned := rp_banned s;
                  room_content := content;
                  snapshots := env_snapshots env;
                  closed := false;
                  out := [];
                  calls := 1%nat |})
  end.

(** The start record of a log, if the server can take the room on. *)
Definition read_start (c : LogCalls) (bytes : list Z) (stem_is : RoomId → bool)
    (menu : list (RulesChoice (R := R))) : result (LogReader * StartRecord * R) RecoverError :=
  let? reader := map_err RecoverLog (read_log c bytes) in
  let? (reader, first) := map_err RecoverLog (next_record crc (lc_reads c) reader) in
  let? first := ok_or first RecoverEmpty in
  let? start := ok_or (from_bytes first) RecoverStart in
  if negb (sr_version start =? FORMAT_VERSION) then Err (RecoverVersion (sr_version start))
  else if negb (settings_valid (sr_settings start)) then Err RecoverSettings
  else
    let? choice := ok_or (menu_find menu (Some (sr_rules start))) (RecoverUnknownRules (sr_rules start)) in
    if negb (stem_is (sr_id start)) then Err RecoverMisnamed
    else Ok (reader, start, factory choice tt).

(** [stem_is]: whether the file is named after a room. *)
Definition recover (c : LogCalls) (bytes : list Z) (stem_is : RoomId → bool) (hmac_key : list Z)
    (menu : list (RulesChoice (R := R))) (env : RoomEnv)
    (pointer : RoomId → option (SnapshotId * SavePoint)) (store_manifest : ManifestId → option Manifest)
    (history_id : Z) (deleted : result unit IoError) (disk : nat → WriteOutcome) (now : Instant) :
    result (option room) RecoverError :=
  let? (reader, start, fresh) := read_start c bytes stem_is menu in
  let? s := replay_start start fresh now in
  let base := sr_base start in
  let? (reader, s, based, index) :=
    replay (lc_reads c) (S (length bytes)) base (bool_decide (base = None)) reader s 0 in
  if negb based then Err (RecoverContinuity index)
  else rebuild start hmac_key env pointer store_manifest history_id deleted disk now (lc_into c) reader s.
End recover.

(** * What a replay does *)

(** The players the owner removed, in a run of events. *)
Definition kicked_of (evs : list Event) : list PlayerId :=
  omap (λ e, match body e with PlayerLeft p true => Some p | _ => None end) evs.

(** One more player is barred, while the list has room. *)
Definition bar (banned : gset PlayerId) (p : PlayerId) : gset PlayerId :=
  if Z.of_nat (size banned) <? MAX_BANNED then {[p]} ∪ banned else banned.

Lemma kicked_cons e evs : kicked_of (e :: evs) = kicked_of [e] ++ kicked_of evs.
Proof. exact (omap_app _ [e] evs). Qed.

Section replay.
Context {R : Type} {RS : Ruleset R} {P : Postcard TurnMessage} {PS : Postcard StartRecord}.
Context (crc : list Z → Z).
Implicit Types s : Replay (R := R).

(** A replay over the records of an intact log. *)
Fixpoint replay_frames (based : bool) (index : Z) s (frames : list Frame) : result Replay RecoverError :=
  match frames with
  | [] => Ok s
  | frame :: frames =>
      let? s := replay_record based index s frame in
      replay_frames based (index + 1) s frames
  end.

Lemma replay_frames_app based index s fs1 fs2 :
  replay_frames based index s (fs1 ++ fs2)
  = result_bind (replay_frames based index s fs1)
      (λ s', replay_frames based (index + Z.of_nat (length fs1)) s' fs2).
Proof.
  revert index s. induction fs1 as [| f fs1 IH]; intros index s; cbn [app replay_frames length].
  { by rewrite Z.add_0_r. }
  destruct (replay_record based index s f) as [s1 | e]; cbn [result_bind]; [| done].
  rewrite IH. by replace (index + 1 + Z.of_nat (length fs1)) with (index + Z.of_nat (S (length fs1))) by lia.
Qed.

Lemma departure_game seated s e :
  rp_game (replay_departure seated s e) = rp_game s ∧
  rp_rules (replay_departure seated s e) = rp_rules s ∧
  rp_banned (replay_departure seated s e) = foldl bar (rp_banned s) (kicked_of [e]).
Proof.
  unfold replay_departure, kicked_of. csimpl. destruct (body e) as [| | p k |]; try done.
  set (s1 := if _ =? _ then _ else _).
  assert (rp_game s1 = rp_game s ∧ rp_rules s1 = rp_rules s ∧ rp_banned s1 = rp_banned s) as (E1 & E2 & E3).
  { subst s1. destruct (_ =? _); [| done]. by destruct (head _). }
  clearbody s1. destruct k; [| by rewrite E1, E2, E3]. cbn [andb omap list_omap foldl]. unfold bar.
  rewrite <- E3. by destruct (_ <? _).
Qed.

(** Events past the base: the rules apply them, and the table follows. *)
Lemma replay_events_told evs s :
  seq <$> evs = seqZ (next_event (rp_game s)) (Z.of_nat (length evs)) →
  ∃ s', replay_events true s evs = Some s' ∧
    rp_game s' = (rp_game s) <| next_event := next_event (rp_game s) + Z.of_nat (length evs) |>
                   <| seated := foldl seat (seated (rp_game s)) evs |> ∧
    rp_rules s' = apply_events (rp_rules s) evs ∧
    rp_banned s' = foldl bar (rp_banned s) (kicked_of evs).
Proof.
  revert s. induction evs as [| e evs IH]; intros s Hseq; cbn [replay_events].
  { exists s. split; [done |]. split; [| done]. cbn. destruct s as [g rules o b]. cbn. rewrite Z.add_0_r.
    by destruct g. }
  csimpl in Hseq. rewrite Nat2Z.inj_succ, seqZ_cons in Hseq by lia. injection Hseq as He Hseq.
  unfold replay_event. rewrite He, Z.eqb_refl. cbn [negb mbind option_bind].
  set (s1 := replay_departure _ _ e).
  assert (rp_game s1 = (rp_game s) <| next_event := next_event (rp_game s) + 1 |>
                         <| seated := seat (seated (rp_game s)) e |> ∧
    rp_rules s1 = apply_event (rp_rules s) e ∧
    rp_banned s1 = foldl bar (rp_banned s) (kicked_of [e])) as (E1 & E2 & E3)
    by exact (departure_game _ _ e).
  clearbody s1.
  destruct (IH s1) as (s' & Hs' & G1 & G2 & G3).
  { rewrite E1. cbn. rewrite Hseq. f_equal; lia. }
  exists s'. split; [done |]. split; [rewrite G1, E1; cbn; f_equal; lia |].
  split; [by rewrite G2, E2 |]. by rewrite G3, E3, (kicked_cons e evs), foldl_app.
Qed.

Lemma encoded_length (m : TurnMessage) f :
  encode_frame m TURN_MAX_FRAME = Ok f →
  (FRAME_HEADER_LEN ≤ length f)%nat ∧ Z.of_nat (length f) ≤ TURN_MAX_FRAME + 4.
Proof.
  intros (payload & _ & Hlen & ->)%encode_frame_Ok. rewrite length_app, to_le_bytes_length.
  unfold FRAME_HEADER_LEN, TURN_MAX_FRAME, u32_max in *. lia.
Qed.

(** What a replayed turn makes of the game, with the table then. *)
Definition told_with (seats : list Seat) (g : Game) (t : Turn) (f : Frame) : Game :=
  let g := g <| next_event := next_event g + Z.of_nat (length (events t)) |> <| seated := seats |> in
  let g := remember g (MkLoggedTurn (next_event g - Z.of_nat (length (events t))) (turn_sealed_through t) f) in
  g <| next_turn := next_turn g + 1 |> <| sealed_through := turn_sealed_through t |>
    <| speed := turn_speed t |> <| announced_speed := turn_speed t |>.

Definition told (g : Game) (t : Turn) (f : Frame) : Game := told_with (foldl seat (seated g) (events t)) g t f.

Lemma first_seq (evs : list Event) n :
  seq <$> evs = seqZ n (Z.of_nat (length evs)) → default n (seq <$> head evs) = n.
Proof.
  destruct evs as [| e evs]; [done |]. csimpl. rewrite Nat2Z.inj_succ, seqZ_cons by lia. by intros [= -> _].
Qed.

Lemma replay_turn_told s t f index :
  number t = next_turn (rp_game s) → sealed_through (rp_game s) ≤ turn_sealed_through t ≤ MAX_FRONTIER →
  seq <$> events t = seqZ (next_event (rp_game s)) (Z.of_nat (length (events t))) →
  ∃ s', replay_turn true index s t f = Ok s' ∧ rp_game s' = told (rp_game s) t f ∧
    rp_rules s' = apply_events (rp_rules s) (events t) ∧
    rp_banned s' = foldl bar (rp_banned s) (kicked_of (events t)).
Proof.
  intros Hn [Hs Hm] Hseq. unfold replay_turn. rewrite Hn, Z.eqb_refl.
  destruct (Z.ltb_spec (turn_sealed_through t) (sealed_through (rp_game s))); [lia |].
  destruct (Z.ltb_spec MAX_FRONTIER (turn_sealed_through t)); [lia |]. cbn [negb orb].
  destruct (replay_events_told (events t) s Hseq) as (s' & -> & G1 & G2 & G3).
  rewrite (first_seq _ _ Hseq). eexists. split; [done |]. cbn [rp_game rp_rules rp_banned].
  split; [| done]. unfold told, told_with. cbn. rewrite G1. cbn.
  by replace (next_event (rp_game s) + Z.of_nat (length (events t)) - Z.of_nat (length (events t)))
    with (next_event (rp_game s)) by lia.
Qed.

(** A game between turns whose log is [all]. *)
Record stands (g : Game) (all : list Turn) (p : Position) : Prop := {
  st_log : log_ends g (MkPosition 1 1 0) all p;
  st_head : head_pos g = p;
  st_pending : pending g = [];
}.

Lemma stands_game_ok g all p : stands g all p → game_ok g (MkPosition 1 1 0) all.
Proof.
  intros [Hl Hh Hp]. split; [by rewrite Hh |]. rewrite Hp. apply ordered_nil.
Qed.

Lemma told_stands seats g all p t f :
  stands g all p → turn_follows p t → encodes t f →
  stands (told_with seats g t f) (all ++ [t]) (after p t) ∧
  seated (told_with seats g t f) = seats ∧ histories (told_with seats g t f) = histories g ∧
  pacer (told_with seats g t f) = pacer g.
Proof.
  intros [Hl Hh Hp] Hf He. unfold told_with.
  set (g1 := g <| next_event := _ |> <| seated := _ |>).
  set (l := MkLoggedTurn _ _ f).
  assert (Hl1 : log_ends g1 (MkPosition 1 1 0) all p) by (destruct Hl; by split).
  assert (Hpos : next_event g = pos_event p).
  { rewrite <- Hh. unfold head_pos. rewrite Hp. cbn. lia. }
  assert (Hl2 : log_ends (remember g1 l) (MkPosition 1 1 0) (all ++ [t]) (after p t)).
  { apply remember_ends; [done | done | done | | done]. subst l g1. cbn. lia. }
  destruct (remember_fields g1 l) as (E1 & E2 & E3 & E4 & E5 & E6 & E7).
  assert (E8 : pacer (remember g1 l) = pacer g)
    by (unfold remember, trim; by destruct (trim_loop _ _ _ _ _) as [[[? ?] ?] ?]).
  split; [split |].
  - destruct Hl2. by split.
  - change (MkPosition (next_turn (remember g1 l) + 1)
      (next_event (remember g1 l) - Z.of_nat (length (pending (remember g1 l)))) (turn_sealed_through t)
      = after p t).
    rewrite E1, E2, E5, <- Hh. subst g1. unfold head_pos, after. cbn. rewrite Hp. cbn. f_equal; lia.
  - change (pending (remember g1 l) = []). by rewrite E5.
  - split; [exact E6 |]. split; [exact E7 | exact E8].
Qed.

(** A whole run of turns. *)
Lemma replay_chain {L : PostcardLaws TurnMessage} ts q frames s all p index :
  stands (rp_game s) all p → chain p ts q → Forall2 encodes ts frames → pos_sealed q ≤ MAX_FRONTIER →
  ∃ s', replay_frames true index s frames = Ok s' ∧ stands (rp_game s') (all ++ ts) q ∧
    seated (rp_game s') = foldl seat (seated (rp_game s)) (ts ≫= events) ∧
    histories (rp_game s') = histories (rp_game s) ∧ pacer (rp_game s') = pacer (rp_game s) ∧
    rp_rules s' = apply_events (rp_rules s) (ts ≫= events) ∧
    rp_banned s' = foldl bar (rp_banned s) (kicked_of (ts ≫= events)).
Proof.
  intros Hst Hc. revert frames s all index Hst.
  induction Hc as [p | p t ts q Hf Hc IH]; intros frames s all index Hst He Hq;
    inversion He as [| ? f ? frames' Hef Hefs]; subst; cbn [replay_frames].
  { exists s. by rewrite app_nil_r. }
  assert (Hdec : replay_record true index s f = replay_turn true index s t f).
  { unfold replay_record. rewrite (decode_frame_drop _ _ _ Hef).
    by rewrite (proj2 (Nat.ltb_ge _ _) (proj1 (encoded_length _ _ Hef))). }
  rewrite Hdec. pose proof Hst as [_ Hh Hp]. pose proof Hf as [Hn [Hseq _] Hsl].
  pose proof (chain_sealed _ _ _ Hc) as Hsq. cbn in Hsq.
  assert (Hpos : next_turn (rp_game s) = pos_turn p ∧ next_event (rp_game s) = pos_event p ∧
    sealed_through (rp_game s) = pos_sealed p).
  { rewrite <- Hh. unfold head_pos. rewrite Hp. cbn. lia. }
  destruct Hpos as (Pt & Pe & Ps).
  destruct (replay_turn_told s t f index) as (s1 & -> & G1 & G2 & G3);
    [congruence | lia | by rewrite Pe |].
  destruct (told_stands (foldl seat (seated (rp_game s)) (events t)) (rp_game s) all p t f Hst Hf Hef) as (Hst1 & T1 & T2 & T3).
  fold (told (rp_game s) t f) in Hst1, T1, T2, T3. rewrite <- G1 in Hst1, T1, T2, T3. cbn [result_bind].
  destruct (IH frames' s1 (all ++ [t]) (index + 1) Hst1 Hefs Hq) as (s' & Hr & A1 & A2 & A3 & A4 & A5 & A6).
  exists s'. split; [done |]. rewrite <- app_assoc in A1. split; [done |]. csimpl.
  rewrite foldl_app, A2, A3, A4, A5, A6, T1, T2, T3, G2, G3. split; [done |]. split; [done |].
  split; [done |]. split; [unfold apply_events; by rewrite foldl_app |].
  unfold kicked_of. by rewrite omap_app, foldl_app.
Qed.

(** A record that is read takes the reader on, and never past the file. *)
Lemma next_record_moves r r' payload :
  next_record crc works r = Ok (r', Some payload) →
  reader_file r' = reader_file r ∧ (offset r < offset r' ≤ length (reader_file r))%nat.
Proof.
  unfold next_record, torn, HEADER. intros H.
  repeat case_match; simplify_eq; cbn; repeat match goal with
    | H : (_ <? _)%nat = _ |- _ => first [apply Nat.ltb_ge in H | apply Nat.ltb_lt in H]
    end; (split; [done | lia]).
Qed.

(** The fuel of [recover] never runs out: a replay with as many rounds as there
    are bytes left, and one more, ends as it does with any greater number. *)
Lemma replay_fuel fuel fuel' base based reader s index :
  (length (reader_file reader) - offset reader < fuel ≤ fuel')%nat →
  replay crc works fuel' base based reader s index = replay crc works fuel base based reader s index.
Proof.
  revert fuel' based reader s index.
  induction fuel as [| fuel IH]; intros [| fuel'] based reader s index Hf; try lia.
  cbn [replay]. destruct (reach_base base based index (rp_game s)) as [based' |]; [| done]. cbn [result_bind].
  destruct (next_record crc works reader) as [[reader' [frame |]] |] eqn:E; cbn [map_err result_bind]; [| done..].
  destruct (replay_record based' index s frame); [| done]. cbn [result_bind].
  apply next_record_moves in E as [E ?]. apply IH. rewrite E. lia.
Qed.

(** Reading the records and replaying them. *)
Lemma replay_reads frames next n base done s index fuel s' :
  (∀ payload, is_u32 (crc payload)) → done ≠ [] → Forall (fits false) frames → fits false next →
  (n < length (record_bytes crc next))%nat → (length frames < fuel)%nat →
  replay_frames true index s frames = Ok s' →
  let bytes := done ++ file_of crc frames ++ take n (record_bytes crc next) in
  ∃ r, replay crc works fuel base true (MkLogReader bytes (length done) None) s index
       = Ok (r, s', true, index + Z.of_nat (length frames)) ∧
    reader_file r = bytes ∧ offset r = length (done ++ file_of crc frames) ∧
    (n = 0%nat ∨ is_Some (torn_at r)).
Proof.
  intros Hcrc Hne Hall Hnext Hn. revert done s index fuel Hne.
  induction Hall as [| f frames Hf _ IH]; intros done s index fuel Hne Hfuel Hrun bytes;
    (destruct fuel as [| fuel]; [lia |]); cbn [replay reach_base negb andb result_bind].
  - injection Hrun as <-.
    destruct (next_record_torn crc Hcrc done next n Hne Hnext Hn) as (r & Hr & Ho & Hfl & Ht).
    exists r. subst bytes. cbn [file_of mbind list_bind app]. rewrite Hr. cbn.
    rewrite app_nil_r, Z.add_0_r. done.
  - cbn [replay_frames length] in *.
    assert (bytes = done ++ record_bytes crc f ++ file_of crc frames ++ take n (record_bytes crc next)) as ->.
    { subst bytes. unfold file_of. csimpl. by rewrite <- app_assoc. }
    rewrite (next_record_intact crc Hcrc).
    2: { destruct (Nat.eqb_spec (length done) 0) as [E |]; [by apply length_zero_iff_nil in E | done]. }
    cbn [map_err result_bind]. destruct (replay_record true index s f) as [s1 | e]; [| done].
    cbn [result_bind] in *.
    destruct (IH (done ++ record_bytes crc f) s1 (index + 1) fuel) as (r & Hr & Hfl & Ho & Ht);
      [by destruct done | lia | done |].
    rewrite <- app_assoc in Hr. rewrite Hr. exists r.
    split; [by replace (index + Z.of_nat (S (length frames))) with (index + 1 + Z.of_nat (length frames)) by lia |].
    rewrite <- app_assoc in Hfl, Ho. done.
Qed.

(** ** Who is barred *)

Lemma bar_sub b ps p : p ∈ foldl bar b ps → p ∈ b ∨ p ∈ ps.
Proof.
  revert b. induction ps as [| x ps IH]; intros b; cbn [foldl]; [by left |]. intros [H | H]%IH.
  - unfold bar in H. destruct (_ <? _); [| by left]. apply elem_of_union in H as [->%elem_of_singleton | H];
      [right; left | by left].
  - right. by right.
Qed.

Lemma bar_size b ps : (size (foldl bar b ps) ≤ size b + length ps)%nat.
Proof.
  revert b. induction ps as [| x ps IH]; intros b; cbn [foldl length]; [lia |].
  pose proof (IH (bar b x)). assert (size (bar b x) ≤ S (size b))%nat; [| lia].
  unfold bar. destruct (_ <? _); [| lia]. rewrite size_union_alt, size_singleton.
  pose proof (subseteq_size (b ∖ {[x]}) b ltac:(set_solver)). lia.
Qed.

Lemma bar_mono b ps : b ⊆ foldl bar b ps.
Proof.
  revert b. induction ps as [| x ps IH]; intros b; cbn [foldl]; [done |].
  etransitivity; [| apply IH]. unfold bar. destruct (_ <? _); set_solver.
Qed.

Lemma bar_all b ps :
  Z.of_nat (size b) + Z.of_nat (length ps) ≤ MAX_BANNED → ∀ p, p ∈ ps → p ∈ foldl bar b ps.
Proof.
  revert b. induction ps as [| x ps IH]; intros b Hlen p Hp; cbn [foldl]; [by apply not_elem_of_nil in Hp |].
  cbn [length] in Hlen.
  assert (Hbar : bar b x = {[x]} ∪ b) by (unfold bar; by destruct (Z.ltb_spec (Z.of_nat (size b)) MAX_BANNED); [| lia]).
  apply elem_of_cons in Hp as [-> | Hp].
  - apply (bar_mono _ ps). rewrite Hbar. set_solver.
  - apply IH; [| done]. pose proof (bar_size b [x]) as Hs. cbn in Hs. lia.
Qed.
End replay.

Lemma seat_distinct seats e : NoDup (seat_player <$> seats) → NoDup (seat_player <$> seat seats e).
Proof.
  intros Hnd.
  assert (Hf : ∀ p, NoDup (seat_player <$> List.filter (λ s, negb (seat_player s =? p)) seats) ∧
    p ∉ seat_player <$> List.filter (λ s, negb (seat_player s =? p)) seats).
  { intros p. split.
    - eapply sublist_NoDup; [exact Hnd |]. apply fmap_sublist. clear.
      induction seats as [| x l IH]; simpl; [constructor |]. destruct (negb _); by constructor.
    - intros (s & -> & Hs)%list_elem_of_fmap. apply list_elem_of_In, filter_In in Hs as [_ Hs].
      by rewrite Z.eqb_refl in Hs. }
  unfold seat. destruct (body e) as [p c b | p n pl | p k |]; try done.
  - rewrite fmap_app. destruct (Hf p) as [H1 H2]. apply NoDup_app. split; [done |].
    split; [| apply NoDup_singleton]. by intros x Hx ->%list_elem_of_singleton.
  - apply Hf.
Qed.

Lemma seats_distinct evs seats :
  NoDup (seat_player <$> seats) → NoDup (seat_player <$> foldl seat seats evs).
Proof.
  revert seats. induction evs as [| e evs IH]; intros seats H; [done |]. by apply IH, seat_distinct.
Qed.

Lemma file_of_length crc frames : (length frames ≤ length (file_of crc frames))%nat.
Proof.
  unfold file_of. induction frames as [| f frames IH]; [done |].
  rewrite bind_cons, length_app, record_bytes_length. cbn [length]. unfold HEADER. lia.
Qed.

Lemma read_start_opens {R} {P : Postcard TurnMessage} {PS : Postcard StartRecord} {LS : PostcardLaws StartRecord}
    crc (Hcrc : ∀ payload, is_u32 (crc payload)) start first (choice : RulesChoice (R := R)) rest stem_is menu :
  to_stdvec start = Some first → fits true first → sr_version start = FORMAT_VERSION →
  settings_valid (sr_settings start) = true → stem_is (sr_id start) = true →
  menu_find menu (Some (sr_rules start)) = Some choice →
  Z.of_nat (length (record_bytes crc first ++ rest)) ≤ LOG_LIMIT + (Z.of_nat HEADER + MAX_START_RECORD) →
  read_start crc log_works (record_bytes crc first ++ rest) stem_is menu
  = Ok (MkLogReader (record_bytes crc first ++ rest) (length (record_bytes crc first)) None, start,
        factory choice tt).
Proof.
  intros Hfirst Hfit Hver Hset Hstem Hmenu Hlen. unfold read_start, read_log. cbn [negb log_works lc_stat lc_is_file lc_open lc_reads].
  rewrite (proj2 (Z.ltb_ge _ _) Hlen). cbn [map_err result_bind].
  pose proof (next_record_intact crc Hcrc [] first rest Hfit) as Hnr. cbn [app length] in Hnr.
  rewrite Hnr. cbn [map_err result_bind ok_or]. unfold from_bytes.
  pose proof (postcard_roundtrip start first [] Hfirst) as Hrt. rewrite app_nil_r in Hrt. rewrite Hrt.
  cbn [fmap option_fmap option_map ok_or result_bind fst]. rewrite Hver, Z.eqb_refl, Hset, Hmenu.
  cbn [negb ok_or result_bind]. by rewrite Hstem.
Qed.

Lemma begin_history_marks g id : history (begin_history g id) = id.
Proof. unfold history, begin_history. cbn. by rewrite last_snoc. Qed.

Lemma stands_same {P : Postcard TurnMessage} g g' all p : same_game g g' → stands g all p → stands g' all p.
Proof.
  intros [Es Et Ee Ep El Ef Eb Ey _ _ _] [Hl Hh Hp]. split; [| | congruence].
  - destruct Hl as [(gone & kept & p1 & Hl) Hb Hf]. split; [| congruence | done].
    exists gone, kept, p1. by rewrite El, Ef, Eb.
  - unfold head_pos in *. congruence.
Qed.

Lemma owner_seated m ms o :
  (if existsb (λ m, player m =? o) (m :: ms) then o else player m) ∈ player <$> (m :: ms).
Proof.
  destruct (existsb _ (m :: ms)) eqn:Hex; [| left].
  apply existsb_exists in Hex as (m' & Hm & <-%Z.eqb_eq). apply list_elem_of_fmap_2.
  by apply list_elem_of_In.
Qed.

(** A record that fits is appended to a log that has one. *)
Lemma append_fits (crc : list Z → Z) intact payload :
  intact ≠ [] → fits false payload →
  Z.of_nat (length intact) + Z.of_nat HEADER + Z.of_nat (length payload) ≤ LOG_LIMIT →
  append_record crc Written (MkRoomLog intact (Z.of_nat (length intact)) false) payload
  = (MkRoomLog (intact ++ record_bytes crc payload)
       (Z.of_nat (length intact) + (Z.of_nat HEADER + Z.of_nat (length payload))) false, Ok tt).
Proof.
  intros Hne Hfit Hroom. unfold append_record. cbn [written file].
  destruct (Z.eqb_spec (Z.of_nat (length intact)) 0) as [E0 |]; [destruct intact; [done | simpl in E0; lia] |].
  rewrite (proj2 (Z.ltb_ge _ _)) by exact Hfit. rewrite (proj2 (Z.ltb_ge _ _)) by lia. done.
Qed.

Lemma frame_fits {P : Postcard TurnMessage} (m : TurnMessage) f :
  encode_frame m TURN_MAX_FRAME = Ok f → fits false f.
Proof. intros Hf. pose proof (proj2 (encoded_length _ _ Hf)). unfold fits, record_limit, MAX_RECORD. lia. Qed.

(** What a replay that ended rebuilds. *)
Lemma rebuild_restores {R} {P : Postcard TurnMessage} (crc : list Z → Z) (start : StartRecord) key env
    pointer store_manifest history_id deleted disk now rd (s : Replay (R := R)) all q intact next n mark :
  stands (rp_game s) all q → 1 ≤ pos_turn q → seated (rp_game s) ≠ [] →
  reader_file rd = intact ++ take n (record_bytes crc next) → offset rd = length intact → intact ≠ [] →
  n = 0%nat ∨ is_Some (torn_at rd) →
  encode_frame (Start (MkTurnStart (sr_id start) (sr_rules start) (pos_turn q) (pos_event q) (pos_sealed q)
    (steps_per_second (sr_settings start)) (checkpoint_interval (sr_settings start)) history_id None))
    TURN_MAX_FRAME = Ok mark →
  Z.of_nat (length intact) + Z.of_nat HEADER + Z.of_nat (length mark) ≤ LOG_LIMIT → disk 0%nat = Written →
  ∃ r g l,
    rebuild crc start key env pointer store_manifest history_id deleted disk now IntoWorks rd s = Ok (Some r) ∧
    phase r = Running g ∧ closed r = false ∧ stands g all q ∧ ruleset r = rp_rules s ∧
    seated g = seated (rp_game s) ∧ players r = seat_player <$> seated g ∧ owner r ∈ players r ∧
    banned r = rp_banned s ∧
    histories g = histories (rp_game s) ++ [MkHistory history_id (pos_turn q - 1)] ∧
    room_log r = Some l ∧ file l = intact ++ record_bytes crc mark.
Proof.
  intros Hst Hturn Hseats Hfl Hoff Hne Htorn Hmark Hroom Hdisk. unfold rebuild.
  set (g0 := (rp_game s) <| pacer := _ |>). set (content := match sr_base start with Some b => _ | None => _ end).
  clearbody content. change (seated g0) with (seated (rp_game s)).
  destruct (seated (rp_game s)) as [| seat1 seats] eqn:Hseated; [done |]. cbn [fmap list_fmap].
  set (g1 := if _ && _ then _ else g0).
  assert (Hsame : same_game (rp_game s) g1 ∧ seated g1 = seated (rp_game s)).
  { subst g1. destruct (_ && _); (split; [by split | done]). }
  destruct Hsame as [Hsame Hs1]. clearbody g1. pose proof (stands_same _ _ _ _ Hsame Hst) as Hst1.
  rewrite (into_log_intact crc rd intact next n) by done. cbn [map_err result_bind snd].
  set (g2 := begin_history g1 history_id).
  assert (Hst2 : stands g2 all q) by (destruct Hst1 as [[] ? ?]; by split).
  assert (Hmk : turn_start g2 (sr_id start) (sr_settings start) (sr_rules start)
      (MkStream (next_turn g2) (next_event g2) (sealed_through g2) []) None
    = MkTurnStart (sr_id start) (sr_rules start) (pos_turn q) (pos_event q) (pos_sealed q)
        (steps_per_second (sr_settings start)) (checkpoint_interval (sr_settings start)) history_id None).
  { unfold turn_start. subst g2. rewrite begin_history_marks. destruct Hst1 as [_ Hh Hp]. rewrite <- Hh.
    unfold head_pos. rewrite Hp. cbn. by rewrite Z.sub_0_r. }
  rewrite Hmk, Hmark. cbn [map_err result_bind]. rewrite Hdisk.
  rewrite append_fits by (done || by eapply frame_fits).
  cbn [map_err result_bind]. eexists _, g2, _. split; [reflexivity |]. cbn [phase closed ruleset banned room_log].
  assert (Hh2 : histories g2 = histories (rp_game s) ++ [MkHistory history_id (pos_turn q - 1)]).
  { subst g2. unfold begin_history. cbn. destruct Hsame as [_ Et _ _ _ _ _ _ _ Eh _].
    destruct Hst as [_ Hh _]. rewrite Eh, Et. do 3 f_equal.
    assert (next_turn (rp_game s) = pos_turn q) as -> by (by rewrite <- Hh).
    unfold saturating_sub_u64. lia. }
  assert (Epl : seat_player <$> seated g2 = seat_player seat1 :: (seat_player <$> seats))
    by (change (seated g2) with (seated g1); by rewrite Hs1, Hseated).
  assert (Epm : ∀ l, player <$> (restored_member content now <$> l) = seat_player <$> l)
    by (intros l; rewrite <- list_fmap_compose; by apply list_fmap_ext).
  split; [done |]. split; [done |]. split; [exact Hst2 |]. split; [done |].
  split; [change (seated g2) with (seated g1); by rewrite Hs1 |].
  split; [rewrite Epl; unfold players; cbn [members]; csimpl; by rewrite Epm |].
  split; [| split; [done |]; split; [exact Hh2 |]; split; [done | done]].
  exact (owner_seated (restored_member content now seat1) (restored_member content now <$> seats) (rp_owner s)).
Qed.

(** C14: a restart restores the room the log describes.  Take a log that holds a
    start record and the turns of a game, in order, and ends in any part of one
    more record, as a crash leaves it, of rules the server still has and with somebody
    at the table.  If the calls of the file system succeed and the mark of the new
    history fits into the log, recovery succeeds: the rebuilt game stands
    exactly after the last intact turn, with that log to resume from and nothing
    pending; the rules are fresh rules under the logged events; the table is the
    one those events seated, and the owner sits at it; a player is barred only if
    the log says the owner removed it, and always then while the list has room;
    the game is on a new history; and the log on disk goes on after the intact
    records, with the mark of the new history. *)
Theorem recovery_restores {R} {RS : Ruleset R} {P : Postcard TurnMessage} {L : PostcardLaws TurnMessage}
    {PS : Postcard StartRecord} {LS : PostcardLaws StartRecord}
    (crc : list Z → Z) (start : StartRecord) (first : list Z) (choice : RulesChoice (R := R))
    (all : list Turn) (frames : list Frame) (q : Position) (next : list Z) (n : nat)
    (stem_is : RoomId → bool) (key : list Z) (menu : list (RulesChoice (R := R))) (env : RoomEnv)
    (pointer : RoomId → option (SnapshotId * SavePoint)) (store_manifest : ManifestId → option Manifest)
    (history_id : Z) (deleted : result unit IoError) (disk : nat → WriteOutcome) (now : Instant)
    (mark : Frame) :
  (∀ payload, is_u32 (crc payload)) →
  to_stdvec start = Some first → fits true first → sr_version start = FORMAT_VERSION →
  settings_valid (sr_settings start) = true → sr_base start = None → stem_is (sr_id start) = true →
  menu_find menu (Some (sr_rules start)) = Some choice →
  chain (MkPosition 1 1 0) all q → Forall2 encodes all frames → pos_sealed q ≤ MAX_FRONTIER →
  foldl seat [] (all ≫= events) ≠ [] →
  fits false next → (n < length (record_bytes crc next))%nat →
  let intact := file_of crc (first :: frames) in
  let evs := all ≫= events in
  encode_frame (Start (MkTurnStart (sr_id start) (sr_rules start) (pos_turn q) (pos_event q) (pos_sealed q)
    (steps_per_second (sr_settings start)) (checkpoint_interval (sr_settings start)) history_id None))
    TURN_MAX_FRAME = Ok mark →
  Z.of_nat (length intact) + Z.of_nat HEADER + Z.of_nat (length mark) ≤ LOG_LIMIT → disk 0%nat = Written →
  Z.of_nat (length (intact ++ take n (record_bytes crc next))) ≤ LOG_LIMIT + (Z.of_nat HEADER + MAX_START_RECORD) →
  ∃ r g l,
    recover crc log_works (intact ++ take n (record_bytes crc next)) stem_is key menu env pointer
      store_manifest history_id deleted disk now = Ok (Some r) ∧
    phase r = Running g ∧ closed r = false ∧
    game_ok g (MkPosition 1 1 0) all ∧ head_pos g = q ∧ pending g = [] ∧
    ruleset r = apply_events (factory choice tt) evs ∧ seated g = foldl seat [] evs ∧
    players r = seat_player <$> seated g ∧ NoDup (players r) ∧ owner r ∈ players r ∧
    (∀ p, p ∈ banned r → p ∈ kicked_of evs) ∧
    (Z.of_nat (length (kicked_of evs)) ≤ MAX_BANNED → ∀ p, p ∈ kicked_of evs → p ∈ banned r) ∧
    histories g = [MkHistory (sr_history start) 0; MkHistory history_id (Z.of_nat (length all))] ∧
    room_log r = Some l ∧ file l = intact ++ record_bytes crc mark.
Proof.
  intros Hcrc Hfirst Hfit Hver Hset Hbase Hstem Hmenu Hc He Hq Hseats Hnext Hn intact evs Hmark Hroom Hdisk Hlen.
  assert (Hframes : Forall (fits false) frames).
  { eapply Forall2_Forall_r; [exact He |]. apply Forall_forall. intros t _ f. apply frame_fits. }
  set (s0 := MkReplay (Game_new (sr_settings start) (sr_history start) now) (factory choice tt) (sr_owner start) ∅).
  assert (Hst0 : stands (rp_game s0) [] (MkPosition 1 1 0)).
  { pose proof (Game_new_ok (sr_settings start) (sr_history start) now) as [Hl _]. by split. }
  destruct (replay_chain all q frames s0 [] _ 0 Hst0 Hc He Hq) as (s & Hrun & Hst & A2 & A3 & A4 & A5 & A6).
  cbn [app] in Hst. pose proof (chain_turns _ _ _ Hc) as Hturns. cbn in Hturns.
  destruct (replay_reads crc frames next n None (record_bytes crc first) s0 0
    (S (length (intact ++ take n (record_bytes crc next)))) s Hcrc) as (rd & Hrd & Hfl & Hoff & Htorn).
  { intros E. apply (f_equal length) in E. rewrite record_bytes_length in E. done. }
  1, 2, 3: done.
  { pose proof (file_of_length crc frames). unfold intact. rewrite length_app. unfold file_of in *. csimpl.
    rewrite length_app. lia. }
  { done. }
  assert (Eb : intact ++ take n (record_bytes crc next)
    = record_bytes crc first ++ file_of crc frames ++ take n (record_bytes crc next)).
  { unfold intact, file_of. csimpl. by rewrite <- app_assoc. }
  rewrite Eb in Hrd, Hlen |- *. unfold recover.
  rewrite (read_start_opens crc Hcrc start first choice); [| done..]. cbn [result_bind].
  unfold replay_start. rewrite Hbase. cbn [result_bind].
  rewrite (bool_decide_true (@None Base = None)) by done. fold s0. cbn [log_works lc_reads lc_into]. rewrite Hrd. cbn [result_bind negb].
  destruct (rebuild_restores crc start key env pointer store_manifest history_id deleted disk now rd s all q
    intact next n mark) as (r & g & l & -> & B1 & B2 & B3 & B4 & B5 & B6 & B7 & B8 & B9 & B10 & B11).
  { done. }
  { lia. }
  { by rewrite A2. }
  { by rewrite Hfl, Eb. }
  { rewrite Hoff. unfold intact, file_of. by rewrite bind_cons. }
  { unfold intact, file_of. intros E. apply (f_equal length) in E.
    rewrite bind_cons, length_app, record_bytes_length in E. done. }
  1, 2, 3, 4: done.
  exists r, g, l. rewrite A2 in B5. rewrite A5 in B4. rewrite A6 in B8. rewrite A3 in B9. cbn in B4, B5, B8, B9.
  split; [done |]. split; [done |]. split; [done |]. split; [by eapply stands_game_ok |].
  split; [apply (st_head _ _ _ B3) |]. split; [apply (st_pending _ _ _ B3) |].
  split; [done |]. split; [done |]. split; [done |].
  split; [rewrite B6, B5; apply seats_distinct; constructor |]. split; [done |].
  split. { intros p. rewrite B8. intros [Hin | Hin]%bar_sub; [by apply elem_of_empty in Hin | done]. }
  split. { intros Hk p Hp. rewrite B8. apply bar_all; try done; rewrite size_empty; lia. }
  split; [| by split]. rewrite B9. do 3 f_equal. lia.
Qed.

(** * A recovered table *)

(** Two players start at a table of four; the owner removes the second; the
    server dies while writing the third turn. *)
Module RecoverExamples.
Import RoomExamples.

Definition checksum (payload : list Z) : Z := sum_Z payload mod 2 ^ 32.

Definition choice : RulesChoice := MkRulesChoice "rules" "" (λ _, accept_all).

Definition start : StartRecord :=
  MkStartRecord FORMAT_VERSION 77 9 "table" "rules" 1 4 DEFAULT_SETTINGS [] None
    [MkStartMember 1 "ada" linux (Some 7); MkStartMember 2 "bob" linux (Some 7)] None.

Definition turns : list Turn := [
  MkTurn 1 2 NORMAL [MkEvent 1 1 (PlayerJoined 1 "ada" linux); MkEvent 2 1 (PlayerJoined 2 "bob" linux)];
  MkTurn 2 3 NORMAL [MkEvent 3 3 (PlayerLeft 2 true)]].

Definition last_turn : Turn := MkTurn 3 4 NORMAL [].

Definition payload (m : TurnMessage) : list Z :=
  match encode_frame m TURN_MAX_FRAME with Ok f => f | Err _ => [] end.

Definition env : RoomEnv :=
  MkRoomEnv true (MkTimeouts (from_secs 10) (from_secs 60) (from_secs 60))
    (Some (MkSnapshotsConfig (from_secs 60) (from_secs 60))) 1000000.

Definition first : list Z := encode start.
Definition frames : list Frame := payload ∘ TurnOf <$> turns.
Definition torn : list Z :=
  file_of checksum (first :: frames) ++ take 11 (record_bytes checksum (payload (TurnOf last_turn))).

Definition restart (bytes : list Z) : result (option (Room AcceptAll)) RecoverError :=
  recover checksum log_works bytes (Z.eqb 9) [] (menu_single choice) env (λ _, None) (λ _, None) 78 (Ok tt) writes 1000.
End RecoverExamples.

Lemma recovery_restores_witness :
  ∃ r g l,
    RecoverExamples.restart RecoverExamples.torn = Ok (Some r) ∧
    phase r = Running g ∧ head_pos g = MkPosition 3 4 3 ∧ pending g = [] ∧
    seated g = [(1, "ada", RoomExamples.linux)] ∧ owner r ∈ players r ∧ 2 ∈ banned r ∧
    room_log r = Some l.
Proof.
  destruct (recovery_restores (P := Concrete.turn_postcard) (L := Concrete.turn_postcard_laws)
      (PS := ConcreteStart.start_postcard) (LS := ConcreteStart.start_postcard_laws)
      RecoverExamples.checksum RecoverExamples.start RecoverExamples.first RecoverExamples.choice
      RecoverExamples.turns RecoverExamples.frames (MkPosition 3 4 3)
      (RecoverExamples.payload (TurnOf RecoverExamples.last_turn)) 11 (Z.eqb 9) []
      (menu_single RecoverExamples.choice) RecoverExamples.env (λ _, None) (λ _, None) 78 (Ok tt)
      RoomExamples.writes 1000
      (RecoverExamples.payload (Start (MkTurnStart 9 "rules" 3 4 3 5 50 78 None))))
    as (r & g & l & H1 & H2 & _ & _ & H3 & H4 & _ & H5 & _ & _ & H6 & _ & H7 & _ & H8 & _).
  - intros payload. unfold RecoverExamples.checksum, is_u32. unfold_ranges.
    pose proof (Z.mod_pos_bound (sum_Z payload) (2 ^ 32)). lia.
  - reflexivity.
  - vm_compute. discriminate.
  - reflexivity.
  - reflexivity.
  - reflexivity.
  - reflexivity.
  - reflexivity.
  - repeat constructor; discriminate.
  - repeat constructor.
  - vm_compute. discriminate.
  - discriminate.
  - vm_compute. discriminate.
  - apply Nat.ltb_lt. vm_compute. reflexivity.
  - vm_compute. reflexivity.
  - vm_compute. discriminate.
  - reflexivity.
  - vm_compute. discriminate.
  - exists r, g, l. split; [exact H1 |]. split; [exact H2 |]. split; [exact H3 |]. split; [exact H4 |].
    split; [rewrite H5; vm_compute; reflexivity |]. split; [exact H6 |]. split; [| exact H8].
    apply H7; [vm_compute; discriminate |]. vm_compute. constructor.
Defined.

Module LobbyBan.
Import RecoverExamples RoomExamples.

(** A player who joined and was removed in the lobby, before the game began. *)
Definition carl : NewMember := MkNewMember 3 "carl" linux 13.

Definition evening : list (Instant * RoomStep) := gathering ++ [
  (32, StepCommand (CmdJoin carl 0 None None None)); (33, StepCommand (CmdKick 1 3));
  (40, StepCommand (CmdStart 1 77)); (60, StepTick); (300, StepTick)].

Definition live : Room AcceptAll :=
  run_room any_tag checksum sends writes (lobby <| snapshots := env_snapshots env |>) evening.

Definition recovered : option (Room AcceptAll) :=
  match room_log live with
  | Some l => match restart (file l) with Ok r => r | Err _ => None end
  | None => None
  end.

Definition joins (r : Room AcceptAll) : result RoomView RequestError :=
  (join any_tag sends r carl 0 None None (Some 7) 400).2.
End LobbyBan.

(** a ban made in the lobby does not survive a restart.  The owner removes a
    player in the lobby and starts the game; nothing in the log says so, since a
    start record without a base has no list of the barred and no turn tells of
    the lobby.  The live room turns the player away; the room a restart rebuilds
    from that log lets the player in. *)
Example lobby_ban_lost :
  LobbyBan.joins LobbyBan.live = Err BadInvite ∧
  is_ok <$> (LobbyBan.joins <$> LobbyBan.recovered) = Some true.
Proof. split; vm_compute; reflexivity. Qed.
