(* ===== verification/Compact.v ===== *)
(** A compacted log ([start_compaction] and [Room::recover] of
    [crates/tpf3mp-server/src/room.rs]): the turns the room keeps, after a base that says
    where the game stands, restore the room that the whole log would restore. *)
From S2P Require Import Prelude Proto TurnLog Codec Pacing Limit Verdict Snapshots Ruleset Game Persist Room RoomInv Recover.
Local Open Scope Z_scope.

Section kept.
Context {R : Type} {RS : Ruleset R} {P : Postcard TurnMessage} {L : PostcardLaws TurnMessage} {PS : Postcard StartRecord}.
Context (crc : list Z → Z).
Implicit Types s : Replay (R := R).

(** * The turns the base covers *)

(** Their events are counted, and neither the rules nor the table see them. *)
Lemma replay_events_kept evs s :
  seq <$> evs = seqZ (next_event (rp_game s)) (Z.of_nat (length evs)) →
  replay_events false s evs =
    Some (s <| rp_game := (rp_game s) <| next_event := next_event (rp_game s) + Z.of_nat (length evs) |> |>).
Proof.
  revert s. induction evs as [| e evs IH]; intros s Hseq; cbn [replay_events].
  { f_equal. destruct s as [g rules o b]. cbn. rewrite Z.add_0_r. by destruct g. }
  csimpl in Hseq. rewrite Nat2Z.inj_succ, seqZ_cons in Hseq by lia. injection Hseq as He Hseq.
  unfold replay_event. rewrite He, Z.eqb_refl. cbn [negb mbind option_bind]. rewrite IH by (cbn; rewrite Hseq; f_equal; lia).
  f_equal. cbn. do 2 f_equal. lia.
Qed.

Lemma replay_turn_kept s t f index :
  number t = next_turn (rp_game s) → sealed_through (rp_game s) ≤ turn_sealed_through t ≤ MAX_FRONTIER →
  seq <$> events t = seqZ (next_event (rp_game s)) (Z.of_nat (length (events t))) →
  replay_turn false index s t f = Ok (s <| rp_game := told_with (seated (rp_game s)) (rp_game s) t f |>).
Proof.
  intros Hn [Hs Hm] Hseq. unfold replay_turn. rewrite Hn, Z.eqb_refl.
  destruct (Z.ltb_spec (turn_sealed_through t) (sealed_through (rp_game s))); [lia |].
  destruct (Z.ltb_spec MAX_FRONTIER (turn_sealed_through t)); [lia |]. cbn [negb orb].
  rewrite (replay_events_kept (events t) s Hseq), (first_seq _ _ Hseq). f_equal. unfold told_with. cbn.
  replace (next_event (rp_game s) + Z.of_nat (length (events t)) - Z.of_nat (length (events t))) with (next_event (rp_game s)) by lia.
  destruct s as [g rules o b]. cbn. by destruct g.
Qed.

Lemma stands_at (g : Game) all p : stands g all p →
  next_turn g = pos_turn p ∧ next_event g = pos_event p ∧ sealed_through g = pos_sealed p.
Proof. intros [_ <- Hp]. unfold head_pos. rewrite Hp. cbn. lia. Qed.

(** What the base says of the end of these turns. *)
Definition ends_at (base : Base) (q : Position) : Prop :=
  base_after_turn base + 1 = pos_turn q ∧ base_next_event base = pos_event q ∧ base_sealed_through base = pos_sealed q ∧
  base_after_turn base < MAX_COUNT.

(** The replay reads them, and is past the base then. *)
Lemma replay_base base ts q frames s all p index done rest fuel :
  (∀ payload, is_u32 (crc payload)) → done ≠ [] →
  stands (rp_game s) all p → chain p ts q → Forall2 encodes ts frames → pos_sealed q ≤ MAX_FRONTIER → ends_at base q →
  let bytes := done ++ file_of crc frames ++ rest in
  ∃ g, stands g (all ++ ts) q ∧ seated g = seated (rp_game s) ∧ histories g = histories (rp_game s) ∧ pacer g = pacer (rp_game s) ∧
    replay crc works (length frames + S fuel) (Some base) false (MkLogReader bytes (length done) None) s index =
    replay crc works (S fuel) (Some base) true (MkLogReader bytes (length (done ++ file_of crc frames)) None)
      (s <| rp_game := g |>) (index + Z.of_nat (length frames)).
Proof.
  intros Hcrc Hne Hst Hc. revert frames s all index done Hne Hst.
  induction Hc as [p | p t ts q Hf Hc IH]; intros frames s all index done Hne Hst He Hq (B1 & B2 & B3 & B4) bytes;
    inversion He as [| ? f ? frames' Hef Hefs]; subst frames; subst.
  - exists (rp_game s). rewrite app_nil_r. split; [done |]. split; [done |]. split; [done |]. split; [done |].
    cbn [length Nat.add]. rewrite Z.add_0_r. unfold file_of. cbn [mbind list_bind]. rewrite app_nil_r.
    assert (s <| rp_game := rp_game s |> = s) as -> by (by destruct s).
    destruct (stands_at _ _ _ Hst) as (E1 & E2 & E3). cbn [replay]. unfold reach_base at 1. cbn [negb andb default from_option fmap option_fmap option_map id].
    rewrite (proj2 (Z.ltb_lt _ _)) by lia. unfold meets. rewrite E1, E2, E3, B2, B3, !Z.eqb_refl.
    unfold saturating_add_u64. rewrite Z.min_l by (unfold MAX_COUNT, u64_max in *; lia). rewrite B1, Z.eqb_refl. cbn [andb result_bind]. reflexivity.
  - destruct (stands_at _ _ _ Hst) as (E1 & E2 & E3). pose proof Hf as [Hn [Hseq _] Hsl].
    pose proof (chain_sealed _ _ _ Hc) as Hsq. pose proof (chain_turns _ _ _ Hc) as Htq. cbn in Hsq, Htq.
    assert (bytes = done ++ record_bytes crc f ++ file_of crc frames' ++ rest) as Eb.
    { subst bytes. unfold file_of. csimpl. by rewrite <- app_assoc. }
    assert (Hdec : replay_record false index s f = replay_turn false index s t f).
    { unfold replay_record. rewrite (decode_frame_drop _ _ _ Hef).
      by rewrite (proj2 (Nat.ltb_ge _ _) (proj1 (encoded_length _ _ Hef))). }
    destruct (told_stands (seated (rp_game s)) (rp_game s) all p t f Hst Hf Hef) as (Hst1 & T1 & T2 & T3).
    set (s1 := s <| rp_game := told_with (seated (rp_game s)) (rp_game s) t f |>).
    destruct (IH frames' s1 (all ++ [t]) (index + 1) (done ++ record_bytes crc f)) as (g & A1 & A2 & A3 & A4 & A5); [by destruct done | done.. |].
    exists g. rewrite <- app_assoc in A1. split; [exact A1 |]. split; [by rewrite A2 |]. split; [by rewrite A3 |]. split; [by rewrite A4 |].
    assert ((done ++ record_bytes crc f) ++ file_of crc frames' = done ++ file_of crc (f :: frames')) as Ed
      by (unfold file_of; csimpl; by rewrite <- app_assoc).
    rewrite Ed in A5. rewrite <- (app_assoc done (record_bytes crc f)), <- Eb in A5.
    replace (index + Z.of_nat (length (f :: frames'))) with (index + 1 + Z.of_nat (length frames')) by (cbn [length]; lia).
    change (s <| rp_game := g |>) with (s1 <| rp_game := g |>). rewrite <- A5. clear A5. cbn [length Nat.add replay].
    unfold reach_base at 1. cbn [negb andb default from_option fmap option_fmap option_map id].
    rewrite (proj2 (Z.ltb_ge _ _)) by lia. cbn [result_bind]. rewrite Eb, (next_record_intact crc Hcrc).
    2: { destruct (Nat.eqb_spec (length done) 0) as [E |]; [by apply length_zero_iff_nil in E |]. by eapply frame_fits. }
    cbn [map_err result_bind]. rewrite Hdec, replay_turn_kept; [done | congruence | lia | by rewrite E2].
Qed.
End kept.

(** * What a compaction writes *)
Lemma histories_rise_sorted (hs : list History) :
  StronglySorted Z.le (hist_after_turn <$> hs) → histories_rise ((λ h, (hist_id h, hist_after_turn h)) <$> hs) = true.
Proof.
  induction hs as [| h1 hs IH]; [done |]. csimpl. intros H. inversion H as [| ? ? Hs Hall]; subst.
  destruct hs as [| h2 hs]; [done |]. cbn [fmap list_fmap histories_rise]. apply andb_true_iff. split; [| by apply IH].
  apply Z.leb_le. csimpl in Hall. by inversion Hall.
Qed.

Lemma btree_ints_distinct (l : list Z) : NoDup l → length (btree_ints l) = length l.
Proof.
  intros H. unfold btree_ints. rewrite sort_by_perm. assert (remove_dups l ≡ₚ l) as ->; [| done].
  apply NoDup_Permutation; [apply NoDup_remove_dups | done |]. intros x. apply elem_of_remove_dups.
Qed.

Section compact.
Context {R : Type} {RS : Ruleset R} {P : Postcard TurnMessage} {L : PostcardLaws TurnMessage}.

(** A game's base describes where its kept turns begin and end. *)
Lemma base_stands (g : Game) all rules content bans now settings h :
  game_ok g (MkPosition 1 1 0) all → pending g = [] → histories_ok g → hist_after_turn <$> head (histories g) = Some 0 →
  next_turn g ≤ MAX_COUNT → next_event g < MAX_COUNT → sealed_through g ≤ MAX_FRONTIER →
  let base := base_of g rules content bans in
  ∃ gb gone kept p, rebase (Game_new settings h now) base = Some gb ∧ all = gone ++ kept ∧
    stands gb gone p ∧ chain p kept (head_pos g) ∧ Forall2 encodes kept (frame <$> log g) ∧
    ends_at base (head_pos g) ∧ seated gb = seated g ∧ histories gb = histories g.
Proof.
  intros [[(gone & kept & p & -> & Hc & Hl & Hp & Hsb) _ _] _] Hpend Hh Hfirst Hmt Hme Hms base.
  destruct (logged_chain _ _ _ _ Hl) as [Hck Hek].
  assert (Hq : pos_turn (head_pos g) = next_turn g ∧ pos_event (head_pos g) = next_event g ∧ pos_sealed (head_pos g) = sealed_through g)
    by (unfold head_pos; rewrite Hpend; cbn; lia).
  destruct Hq as (Q1 & Q2 & Q3).
  assert (Hfe : default (next_event g) (first_event <$> head (log g)) = pos_event p).
  { revert Hl Q2. clear. intros Hl Q2. destruct Hl as [|]; cbn; [by rewrite Q2 | done]. }
  pose proof (chain_turns _ _ _ Hc) as T1. pose proof (chain_turns _ _ _ Hck) as T2.
  pose proof (chain_events _ _ _ Hc) as V1. pose proof (chain_events _ _ _ Hck) as V2.
  pose proof (chain_sealed _ _ _ Hck) as S2. cbn in T1, V1.
  assert (Hcons : base_consistent base = true).
  { unfold base_consistent, base. cbn [base_after_turn base_next_event base_first_turn base_first_event base_sealed_before base_sealed_through base_histories base_of].
    rewrite Hfe. unfold saturating_add_u64. rewrite Z.min_l by (unfold MAX_COUNT, u64_max in *; lia).
    assert (match head ((λ h, (hist_id h, hist_after_turn h)) <$> histories g) with Some h => h.2 =? 0 | None => false end = true) as E1.
    { destruct (histories g) as [| h0 hs]; [done |]. cbn in *. injection Hfirst as ->. done. }
    assert (match last ((λ h, (hist_id h, hist_after_turn h)) <$> histories g) with Some h => h.2 <=? next_turn g - 1 | None => false end = true) as E2.
    { rewrite fmap_last. destruct (last (histories g)) as [h0 |] eqn:El; [| by apply last_None in El; rewrite El in Hfirst]. cbn.
      apply Z.leb_le. pose proof (ho_last _ Hh) as Hall. rewrite Forall_forall in Hall. apply last_Some in El as [l0 El].
      specialize (Hall h0). rewrite El in Hall. specialize (Hall ltac:(set_solver)). lia. }
    rewrite E1, E2, (histories_rise_sorted _ (ho_sorted _ Hh)), !andb_true_r. rewrite !andb_true_iff, !Z.ltb_lt, !Z.leb_le. lia. }
  unfold rebase. rewrite Hcons. cbn [negb]. eexists _, gone, kept, p. split; [reflexivity |]. split; [done |]. split.
  { split; [split | |]; cbn.
    - exists gone, [], p. rewrite app_nil_r. split; [done |]. split; [done |]. split; [constructor |]. by split.
    - done.
    - done.
    - change (MkPosition (log_first_turn g) (default (next_event g) (first_event <$> head (log g)) - 0) (sealed_before_log g) = p).
      rewrite Hfe, <- Hp, <- Hsb, Z.sub_0_r. by destruct p.
    - done. }
  split; [done |]. split; [done |]. split; [unfold ends_at; rewrite Q1, Q2, Q3; unfold base; cbn; lia |]. split; [done |]. cbn.
  rewrite <- list_fmap_compose. rewrite <- (list_fmap_id (histories g)) at 2. apply list_fmap_ext. intros _ [] _. done.
Qed.
End compact.

(** The start of a compacted log is replayed to its base. *)
Lemma base_replayed {R} {RS : Ruleset R} (fresh : R) (r : Room R) g h rules rules' gb now :
  NoDup (players r) → Z.of_nat (length (members r)) ≤ max_players r → seat_player <$> seated g = players r →
  Z.of_nat (size (banned r)) ≤ MAX_BANNED → restore_rules fresh rules = Ok rules' →
  let base := base_of g rules (room_content r) (banned r) in
  rebase (Game_new (sr_settings (start_record r h (Some base))) (sr_history (start_record r h (Some base))) now) base = Some gb →
  replay_start (start_record r h (Some base)) fresh now =
    Ok (MkReplay gb rules' (sr_owner (start_record r h (Some base))) (list_to_set (base_banned base))).
Proof.
  intros Hd Hcount Hsp Hbans Hrest base Hrb. unfold replay_start.
  cbn [sr_base start_record sr_max_players sr_settings sr_history sr_owner] in *. rewrite Hrb.
  change (base_seated base) with (seated g). rewrite btree_ints_distinct by (rewrite Hsp; exact Hd).
  rewrite length_fmap, Nat.eqb_refl. cbn [negb orb].
  assert (length (base_banned base) = size (banned r)) as -> by (unfold base; cbn; by rewrite sort_by_perm).
  rewrite (proj2 (Z.ltb_ge _ _) Hbans). cbn [orb].
  assert (length (seated g) = length (members r)) as -> by (rewrite <- (length_fmap seat_player), Hsp; unfold players; by rewrite length_fmap).
  rewrite (proj2 (Z.ltb_ge _ _) Hcount). change (base_rules base) with rules. rewrite Hrest. done.
Qed.

(** Both parts of a compacted log are read: the turns of the base, and those after. *)
Lemma replay_compacted {R} {RS : Ruleset R} {P : Postcard TurnMessage} {L : PostcardLaws TurnMessage} {PS : Postcard StartRecord}
    (crc : list Z → Z) base first kept h kf ts q frames next n (s0 : Replay (R := R)) gone p :
  (∀ payload, is_u32 (crc payload)) → stands (rp_game s0) gone p → chain p kept h → chain h ts q →
  Forall2 encodes kept kf → Forall2 encodes ts frames → pos_sealed q ≤ MAX_FRONTIER → ends_at base h →
  fits false next → (n < length (record_bytes crc next))%nat →
  let bytes := record_bytes crc first ++ file_of crc kf ++ file_of crc frames ++ take n (record_bytes crc next) in
  ∃ s rd index,
    replay crc works (S (length bytes)) (Some base) false (MkLogReader bytes (length (record_bytes crc first)) None) s0 0 = Ok (rd, s, true, index) ∧
    stands (rp_game s) ((gone ++ kept) ++ ts) q ∧ reader_file rd = bytes ∧
    offset rd = length ((record_bytes crc first ++ file_of crc kf) ++ file_of crc frames) ∧ (n = 0%nat ∨ is_Some (torn_at rd)) ∧
    seated (rp_game s) = foldl seat (seated (rp_game s0)) (ts ≫= events) ∧ histories (rp_game s) = histories (rp_game s0) ∧
    rp_rules s = apply_events (rp_rules s0) (ts ≫= events) ∧ rp_banned s = foldl bar (rp_banned s0) (kicked_of (ts ≫= events)).
Proof.
  intros Hcrc Hst0 Hck Hc Hek He Hq Hends Hnext Hn bytes. pose proof (chain_sealed _ _ _ Hc) as Hsq.
  assert (Hframes : Forall (fits false) frames).
  { eapply Forall2_Forall_r; [exact He |]. apply Forall_forall. intros t _ f. apply frame_fits. }
  assert (Hne : record_bytes crc first ≠ []).
  { intros E. apply (f_equal length) in E. rewrite record_bytes_length in E. done. }
  pose proof (file_of_length crc kf) as Hl1. pose proof (file_of_length crc frames) as Hl2.
  set (fuel := (length bytes - length kf)%nat).
  assert (S (length bytes) = (length kf + S fuel)%nat) as -> by (unfold fuel, bytes; rewrite !length_app; lia).
  destruct (replay_base crc base kept h kf s0 gone p 0 (record_bytes crc first) (file_of crc frames ++ take n (record_bytes crc next)) fuel)
    as (g1 & Hst1 & Es1 & Eh1 & Ep1 & Hrun1); [done.. | lia | done |].
  set (s1 := s0 <| rp_game := g1 |>) in Hrun1.
  destruct (replay_chain ts q frames s1 (gone ++ kept) h (0 + Z.of_nat (length kf)) Hst1 Hc He Hq) as (s & Hrun & Hst & A2 & A3 & A4 & A5 & A6).
  destruct (replay_reads crc frames next n (Some base) (record_bytes crc first ++ file_of crc kf) s1 (0 + Z.of_nat (length kf)) (S fuel) s Hcrc)
    as (rd & Hrd & Hfl & Hoff & Htorn); [by intros [E _]%app_nil | done.. | | done |].
  { unfold fuel, bytes. rewrite !length_app, record_bytes_length. lia. }
  rewrite <- app_assoc in Hrd, Hfl. fold bytes in Hrun1, Hrd, Hfl. exists s, rd, (0 + Z.of_nat (length kf) + Z.of_nat (length frames)).
  rewrite Hrun1. split; [exact Hrd |]. split; [done |]. split; [done |]. split; [done |]. split; [done |].
  cbn in A2, A3, A5, A6. by rewrite A2, A3, Es1, Eh1.
Qed.

(** What starting a compaction sets down. *)
Lemma compaction_sets {R} {RS : Ruleset R} (r : Room R) g c :
  phase r = Running g → compaction r = None → compaction (start_compaction r) = Some c →
  ∃ rules, save_rules (ruleset r) = Some rules ∧ pending g = [] ∧ comp_frames c = frame <$> log g ∧
    comp_start c = start_record r (default 0 (hist_id <$> head (histories g))) (Some (base_of g rules (room_content r) (banned r))).
Proof.
  intros Hp Hn. unfold start_compaction. rewrite Hn, Hp. rewrite bool_decide_false by (by intros []).
  destruct (data_dir r); [| by rewrite Hn]. destruct (room_log r); [| by rewrite Hn].
  destruct (_ || _) eqn:E; [by rewrite Hn |]. apply orb_false_iff in E as [_ E%negb_false_iff%bool_decide_eq_true].
  destruct (save_rules (ruleset r)) as [rules |] eqn:Es; cbn; [| by rewrite Hn]. intros [= <-]. by exists rules.
Qed.

(** C15: a compacted log restores the room.  Take any room of the invariant as it starts
    to compact its log: a base that says where its game stands, after it the turns it
    keeps, and then every turn it goes on to seal, to a record cut short by a crash.
    Recovery from that succeeds, and the room is what the live one had become: the game
    stands after the last intact turn, its log the whole game's; the rules are the live
    rules under the events since; the table, the barred and the histories are the live
    ones under those events; and the game can be resumed as before. *)
Theorem compaction_restores {R} {RS : Ruleset R} {P : Postcard TurnMessage} {L : PostcardLaws TurnMessage}
    {PS : Postcard StartRecord} {LS : PostcardLaws StartRecord} (fresh : R) {RL : RulesetLaws R fresh}
    (crc : list Z → Z) (r : Room R) (g : Game) (c : Compaction) (first : list Z) (choice : RulesChoice (R := R))
    (ts : list Turn) (frames : list Frame) (q : Position) (next : list Z) (n : nat)
    (stem_is : RoomId → bool) (key : list Z) (menu : list (RulesChoice (R := R))) (env : RoomEnv)
    (pointer : RoomId → option (SnapshotId * SavePoint)) (store_manifest : ManifestId → option Manifest)
    (history_id : Z) (deleted : result unit IoError) (disk : nat → WriteOutcome) (now : Instant) (mark : Frame) :
  (∀ payload, is_u32 (crc payload)) →
  room_ok fresh r → closed r = false → phase r = Running g → compaction r = None → compaction (start_compaction r) = Some c →
  histories_ok g → hist_after_turn <$> head (histories g) = Some 0 → Z.of_nat (size (banned r)) ≤ MAX_BANNED →
  next_turn g ≤ MAX_COUNT → next_event g < MAX_COUNT →
  to_stdvec (comp_start c) = Some first → fits true first → settings_valid (settings r) = true → stem_is (room_id r) = true →
  menu_find menu (Some (room_rules r)) = Some choice → factory choice tt = fresh →
  chain (head_pos g) ts q → Forall2 encodes ts frames → pos_sealed q ≤ MAX_FRONTIER →
  let evs := ts ≫= events in
  foldl seat (seated g) evs ≠ [] → fits false next → (n < length (record_bytes crc next))%nat →
  let intact := file_of crc (first :: comp_frames c ++ frames) in
  encode_frame (Start (MkTurnStart (room_id r) (room_rules r) (pos_turn q) (pos_event q) (pos_sealed q)
    (steps_per_second (settings r)) (checkpoint_interval (settings r)) history_id None)) TURN_MAX_FRAME = Ok mark →
  Z.of_nat (length intact) + Z.of_nat HEADER + Z.of_nat (length mark) ≤ LOG_LIMIT → disk 0%nat = Written →
  Z.of_nat (length (intact ++ take n (record_bytes crc next))) ≤ LOG_LIMIT + (Z.of_nat HEADER + MAX_START_RECORD) →
  ∃ r' g' l all,
    recover crc log_works (intact ++ take n (record_bytes crc next)) stem_is key menu env pointer
      store_manifest history_id deleted disk now = Ok (Some r') ∧
    phase r' = Running g' ∧ closed r' = false ∧
    game_ok g (MkPosition 1 1 0) all ∧ game_ok g' (MkPosition 1 1 0) (all ++ ts) ∧ head_pos g' = q ∧ pending g' = [] ∧
    ruleset r' = apply_events (ruleset r) evs ∧ seated g' = foldl seat (seated g) evs ∧
    players r' = seat_player <$> seated g' ∧ owner r' ∈ players r' ∧
    banned r' = foldl bar (banned r) (kicked_of evs) ∧
    histories g' = histories g ++ [MkHistory history_id (pos_turn q - 1)] ∧
    room_log r' = Some l ∧ file l = intact ++ record_bytes crc mark.
Proof.
  intros Hcrc Hok Hcl Hph Hnc Hstart Hhist Hfirst0 Hbans Hmt Hme Hfirst Hfit Hset Hstem Hmenu Hfresh Hc He Hq evs Hseats Hnext Hn intact Hmark Hroom Hdisk Hlen.
  destruct (compaction_sets r g c Hph Hnc Hstart) as (rules & Hsave & Hpend & Ekept & Estart).
  destruct Hok as [Hx | ([Hd Hcount Hp] & _ & _)]; [congruence |]. rewrite Hph in Hp.
  destruct Hp as [(all & Hg & _) Hsp]. set (base := base_of g rules (room_content r) (banned r)) in *.
  pose proof (chain_sealed _ _ _ Hc) as Hsq.
  assert (Hms : sealed_through g ≤ MAX_FRONTIER) by (unfold head_pos in Hsq; cbn in Hsq; lia).
  destruct (restore_saved (fresh := fresh) (ruleset r) rules Hsave) as (rules' & Hrest & Hlaw).
  set (start := comp_start c) in *.
  destruct (base_stands g all rules (room_content r) (banned r) now (sr_settings start) (sr_history start) Hg Hpend Hhist Hfirst0 Hmt Hme Hms)
    as (gb & gone & kept & p & Hrb & Hall & Hstb & Hck & Hek & Hends & Esb & Ehb). fold base in Hrb, Hends.
  set (s0 := MkReplay gb rules' (sr_owner start) (list_to_set (base_banned base))).
  assert (Hreplay : replay_start start fresh now = Ok s0).
  { rewrite Estart in Hrb. subst s0. rewrite Estart. by eapply base_replayed. }
  set (torn := take n (record_bytes crc next)) in *. set (kf := comp_frames c) in *.
  assert (Eb : intact ++ torn = record_bytes crc first ++ file_of crc kf ++ file_of crc frames ++ torn).
  { unfold intact, file_of. csimpl. by rewrite bind_app, <- !app_assoc. }
  destruct (replay_compacted crc base first kept (head_pos g) kf ts q frames next n s0 gone p)
    as (s & rd & index & Hrd & Hst & Hfl & Hoff & Htorn & A2 & A3 & A5 & A6); [done | done | done | done | by rewrite Ekept | done.. |].
  rewrite <- Hall in Hst. fold torn in Hrd, Hfl. rewrite <- Eb in Hrd, Hfl.
  assert (Hintact : intact = (record_bytes crc first ++ file_of crc kf) ++ file_of crc frames).
  { unfold intact, file_of. csimpl. by rewrite bind_app, <- app_assoc. }
  unfold recover. rewrite Eb in Hlen |- *.
  rewrite (read_start_opens crc Hcrc start first choice); [| done | done | by rewrite Estart | by rewrite Estart | by rewrite Estart | by rewrite Estart | done].
  cbn [result_bind]. rewrite Hfresh, Hreplay. cbn [result_bind].
  assert (sr_base start = Some base) as -> by (by rewrite Estart). rewrite bool_decide_false by done.
  cbn [log_works lc_reads lc_into]. rewrite <- Eb, Hrd. cbn [result_bind negb].
  destruct (rebuild_restores crc start key env pointer store_manifest history_id deleted disk now rd s (all ++ ts) q
    intact next n mark) as (r' & g' & l & -> & B1 & B2 & B3 & B4 & B5 & B6 & B7 & B8 & B9 & B10 & B11).
  { done. }
  { pose proof (chain_turns _ _ _ Hc) as T1. pose proof Hg as [[(? & ? & p1 & -> & C1 & L1 & _) _ _] _].
    apply logged_chain in L1 as [C2 _]. apply chain_turns in C1, C2. cbn in C1. lia. }
  { rewrite A2. cbn. by rewrite Esb. }
  { done. }
  { by rewrite Hoff, Hintact. }
  { rewrite Hintact. intros E. by apply app_nil in E as [[E _]%app_nil _]. }
  { done. }
  { rewrite Estart. done. }
  1, 2: done.
  exists r', g', l, all. rewrite A2 in B5. rewrite A5 in B4. rewrite A6 in B8. rewrite A3 in B9. cbn in B4, B5, B8, B9.
  rewrite Esb in B5. rewrite Ehb in B9.
  split; [done |]. split; [done |]. split; [done |]. split; [done |]. split; [by eapply stands_game_ok |].
  split; [apply (st_head _ _ _ B3) |]. split; [apply (st_pending _ _ _ B3) |].
  split; [by rewrite B4, Hlaw |]. split; [done |]. split; [done |]. split; [done |].
  split; [| split; [done | by split]]. rewrite B8. f_equal. cbn. apply set_eq. intros x. rewrite elem_of_list_to_set, sort_by_perm. apply elem_of_elements.
Qed.

(** * A compacted table *)

(** Two players play, the owner removes the second, and the log is compacted; one more
    turn is sealed, and the server dies while writing the next. *)

(** * A compacted table *)

(** A table of one, the other player removed, starts to compact its log of two
    turns; it seals one more turn, and the server dies while writing the next. *)
Module CompactExamples.
Import RoomExamples RecoverExamples.

Definition table : Room AcceptAll := (run lobby play) <| compact_at := 0 |>.

Definition game : option Game := match phase table with Running g => Some g | Lobby => None end.

Definition later : Turn := MkTurn 3 1 NORMAL [].
Definition lost : list Z := payload (TurnOf (MkTurn 4 2 NORMAL [])).

Definition first (c : Compaction) : list Z := encode (comp_start c).

(** The log the compaction writes, the turn sealed since, and the torn one. *)
Definition torn (c : Compaction) : list Z :=
  file_of checksum (first c :: comp_frames c ++ [payload (TurnOf later)]) ++ take 11 (record_bytes checksum lost).

Lemma table_ok_now : room_ok (P := turn_postcard) accept_all table.
Proof.
  assert (Hr : room_ok (P := turn_postcard) accept_all (run lobby play)).
  { unfold run. apply run_room_ok. unfold lobby. apply Room_new_ok. lia. }
  unfold table. generalize dependent (run lobby play). intros r [H | ([H0 H1 H2] & H3 & H4)]; [by left |].
  right. split; [by split |]. by split.
Qed.
End CompactExamples.

Lemma compaction_restores_witness :
  ∃ c r' g' l,
    compaction (start_compaction CompactExamples.table) = Some c ∧ length (comp_frames c) = 2%nat ∧
    RecoverExamples.restart (CompactExamples.torn c) = Ok (Some r') ∧
    phase r' = Running g' ∧ head_pos g' = MkPosition 4 5 1 ∧
    seated g' = [(1, "ada", RoomExamples.linux)] ∧ owner r' ∈ players r' ∧ 2 ∈ banned r' ∧
    histories g' = [MkHistory 77 0; MkHistory 78 3] ∧ room_log r' = Some l.
Proof.
  destruct CompactExamples.game as [g |] eqn:Eg; [| vm_compute in Eg; discriminate].
  destruct (compaction (start_compaction CompactExamples.table)) as [c |] eqn:Ec; [| vm_compute in Ec; discriminate].
  assert (Hp : phase CompactExamples.table = Running g).
  { revert Eg. unfold CompactExamples.game. destruct (phase CompactExamples.table); congruence. }
  pose proof Ec as Ec'. vm_compute in Eg, Ec'.
  injection Eg as Eg. injection Ec' as Ec'.
  destruct (compaction_restores (P := Concrete.turn_postcard) (L := Concrete.turn_postcard_laws)
      (PS := ConcreteStart.start_postcard) (LS := ConcreteStart.start_postcard_laws) accept_all
      RecoverExamples.checksum CompactExamples.table g c (CompactExamples.first c) RecoverExamples.choice
      [CompactExamples.later] [RecoverExamples.payload (TurnOf CompactExamples.later)] (MkPosition 4 5 1)
      CompactExamples.lost 11 (Z.eqb 9) []
      (menu_single RecoverExamples.choice) RecoverExamples.env (λ _, None) (λ _, None) 78 (Ok tt)
      RoomExamples.writes 1000
      (RecoverExamples.payload (Start (MkTurnStart 9 "rules" 4 5 1 5 50 78 None))))
    as (r & g' & l & all & H1 & H2 & _ & _ & _ & H3 & _ & _ & H4 & _ & H5 & H6 & H7 & H8 & _).
  - intros payload. unfold RecoverExamples.checksum, is_u32. unfold_ranges.
    pose proof (Z.mod_pos_bound (sum_Z payload) (2 ^ 32)). lia.
  - exact CompactExamples.table_ok_now.
  - vm_compute. reflexivity.
  - exact Hp.
  - vm_compute. reflexivity.
  - exact Ec.
  - subst g. split; [apply NoDup_singleton | repeat constructor | by apply Forall_singleton].
  - subst g. reflexivity.
  - vm_compute. discriminate.
  - subst g. vm_compute. discriminate.
  - subst g. vm_compute. reflexivity.
  - reflexivity.
  - subst c. vm_compute. discriminate.
  - vm_compute. reflexivity.
  - vm_compute. reflexivity.
  - vm_compute. reflexivity.
  - reflexivity.
  - subst g. repeat constructor; discriminate.
  - repeat constructor.
  - vm_compute. discriminate.
  - subst g. vm_compute. discriminate.
  - vm_compute. discriminate.
  - apply Nat.ltb_lt. vm_compute. reflexivity.
  - vm_compute. reflexivity.
  - subst c. vm_compute. discriminate.
  - reflexivity.
  - subst c. vm_compute. discriminate.
  - exists c, r, g', l. split; [reflexivity |]. split; [subst c; reflexivity |]. split; [exact H1 |].
    split; [exact H2 |]. split; [exact H3 |].
    split; [rewrite H4; subst g; vm_compute; reflexivity |]. split; [exact H5 |].
    split; [rewrite H6; vm_compute; constructor |].
    split; [rewrite H7; subst g; reflexivity | exact H8].
Defined.
