(* ===== verification/Ring.v ===== *)
(** The shared-memory ring ([crates/tpf3mp-ipc/src/ring.rs]): one producer, one
    consumer, in different processes.

    [push], [peek_len] and [pop_into] are the operations run alone.  What the two
    sides do to each other is in [Sched]: there every load, every store and every
    byte copied is a step of its own, and the steps of the two sides interleave in
    any order.  The steps are taken one at a time: the release and acquire
    orderings on the two counters rule out every other execution, because no byte
    is ever read while it may be written, which is what is proved. *)
From S2P Require Import Prelude Proto.
Local Open Scope Z_scope.

Definition LENGTH_PREFIX : nat := 4.

Inductive PushError :=
  | PushFull
  | PushTooLarge (len max : Z)
  | PushCorrupt.

Inductive PopError :=
  | PopCorrupt
  | BufferTooSmall (have needed : Z).

(** The bytes both sides see.  [capacity] and [max_message] never change; [data]
    has [capacity] bytes. *)
Record Ring := MkRing {
  data : list Z;
  capacity : Z;
  max_message : Z;
  ring_head : Z;
  ring_tail : Z;
}.
#[export] Instance eta_Ring : Eta Ring := fun r =>
  MkRing (data r) (capacity r) (max_message r) (ring_head r) (ring_tail r).

Definition wrapping_sub_u32 (a b : Z) : Z := (a - b) mod 2 ^ 32.
Definition wrapping_add_u32 (a b : Z) : Z := (a + b) mod 2 ^ 32.

(** The cells a copy of [n] bytes at counter [at_] touches, in order: up to the
    end of the buffer, then from its beginning. *)
Definition wrap_cells (cap : Z) (at_ : Z) (n : nat) : list nat :=
  let start := Z.to_nat (Z.land at_ (cap - 1)) in
  let first := Nat.min n (Z.to_nat cap - start) in
  List.seq start first ++ List.seq 0 (n - first).

#[global] Arguments wrap_cells : simpl never.

Definition write_cells (data : list Z) (writes : list (nat * Z)) : list Z :=
  foldl (λ d w, <[w.1 := w.2]> d) data writes.

Definition read_cells (data : list Z) (cells : list nat) : list Z :=
  (λ c, default 0 (data !! c)) <$> cells.

Definition write_wrapping (r : Ring) (at_ : Z) (src : list Z) : Ring :=
  r <| data := write_cells (data r) (zip (wrap_cells (capacity r) at_ (length src)) src) |>.

Definition read_wrapping (r : Ring) (at_ : Z) (n : nat) : list Z :=
  read_cells (data r) (wrap_cells (capacity r) at_ n).

(** What the producer may do, given what it read of the two counters. *)
Definition push_check (cap tail head : Z) (payload : list Z) : result Z PushError :=
  let need := Z.of_nat LENGTH_PREFIX + Z.of_nat (length payload) in
  let used := wrapping_sub_u32 tail head in
  if cap <? used then Err PushCorrupt
  else if cap - used <? need then Err PushFull
  else Ok need.

Definition too_large (max : Z) (payload : list Z) : bool := max <? Z.of_nat (length payload).

Definition push (r : Ring) (payload : list Z) : Ring * result unit PushError :=
  if too_large (max_message r) payload
  then (r, Err (PushTooLarge (Z.of_nat (length payload)) (max_message r)))
  else
    let tail := ring_tail r in
    let head := ring_head r in
    match push_check (capacity r) tail head payload with
    | Err e => (r, Err e)
    | Ok need =>
        let length_ := to_le_bytes 4 (Z.of_nat (length payload)) in
        let r := write_wrapping r tail length_ in
        let r := write_wrapping r (wrapping_add_u32 tail (Z.of_nat LENGTH_PREFIX)) payload in
        (r <| ring_tail := wrapping_add_u32 tail need |>, Ok tt)
    end.

Definition peek_len (r : Ring) : option Z :=
  let available := wrapping_sub_u32 (ring_tail r) (ring_head r) in
  if (available <? Z.of_nat LENGTH_PREFIX) || (capacity r <? available) then None
  else
    let len := from_le_bytes (read_wrapping r (ring_head r) LENGTH_PREFIX) in
    if len <=? max_message r then Some len else None.

(** Whether there is a length to read: [None] if the ring is empty. *)
Definition pop_check (cap available : Z) : result bool PopError :=
  if available =? 0 then Ok false
  else if (available <? Z.of_nat LENGTH_PREFIX) || (cap <? available) then Err PopCorrupt
  else Ok true.

(** Whether there is a message to read, given its length, and room for it. *)
Definition len_check (max available len have : Z) : result unit PopError :=
  if (max <? len) || (available <? Z.of_nat LENGTH_PREFIX + len) then Err PopCorrupt
  else if have <? len then Err (BufferTooSmall have len)
  else Ok tt.

(** [have] is the size of the caller's buffer; the message is what it then
    holds. *)
Definition pop_into (r : Ring) (have : Z) : Ring * result (option (list Z)) PopError :=
  let available := wrapping_sub_u32 (ring_tail r) (ring_head r) in
  match pop_check (capacity r) available with
  | Err e => (r, Err e)
  | Ok false => (r, Ok None)
  | Ok true =>
      let len := from_le_bytes (read_wrapping r (ring_head r) LENGTH_PREFIX) in
      match len_check (max_message r) available len have with
      | Err e => (r, Err e)
      | Ok tt =>
          let out := read_wrapping r (wrapping_add_u32 (ring_head r) (Z.of_nat LENGTH_PREFIX)) (Z.to_nat len) in
          (r <| ring_head := wrapping_add_u32 (ring_head r) (Z.of_nat LENGTH_PREFIX + len) |>, Ok (Some out))
      end
  end.

(** * Two processes *)
Module Sched.

(** Where the producer is in [push]: it has read the tail; or it is copying, the
    writes left, and then publishes the new tail. *)
Inductive Producer :=
  | Idle
  | Loaded (payload : list Z) (tail : Z)
  | Writing (payload : list Z) (todo : list (nat * Z)) (next : Z).

(** Where the consumer is in [pop_into], with a buffer of [have] bytes: reading
    the length, or reading the message, the cells left and the bytes so far. *)
Inductive Consumer :=
  | Resting
  | ReadingLen (have available head : Z) (todo : list nat) (got : list Z)
  | ReadingMsg (head len : Z) (todo : list nat) (got : list Z).

(** The shared ring, the two sides, and what their calls have returned. *)
Record World := MkWorld {
  ring : Ring;
  producer : Producer;
  consumer : Consumer;
  pushes : list (list Z * result unit PushError);
  pops : list (result (option (list Z)) PopError);
}.
#[export] Instance eta_World : Eta World := fun w =>
  MkWorld (ring w) (producer w) (consumer w) (pushes w) (pops w).

Inductive Op :=
  | CallPush (payload : list Z)
  | Produce
  | CallPop (have : Z)
  | Consume.

Definition end_push (w : World) (payload : list Z) (res : result unit PushError) : World :=
  w <| producer := Idle |> <| pushes ::= λ l, l ++ [(payload, res)] |>.

Definition end_pop (w : World) (res : result (option (list Z)) PopError) : World :=
  w <| consumer := Resting |> <| pops ::= λ l, l ++ [res] |>.

Definition frame_writes (cap tail : Z) (payload : list Z) : list (nat * Z) :=
  let length_ := to_le_bytes 4 (Z.of_nat (length payload)) in
  zip (wrap_cells cap tail (length length_)) length_
  ++ zip (wrap_cells cap (wrapping_add_u32 tail (Z.of_nat LENGTH_PREFIX)) (length payload)) payload.

(** One step of the producer: load the head and check, write one byte, or
    publish. *)
Definition produce (w : World) : World :=
  let r := ring w in
  match producer w with
  | Idle => w
  | Loaded payload tail =>
      match push_check (capacity r) tail (ring_head r) payload with
      | Err e => end_push w payload (Err e)
      | Ok need => w <| producer := Writing payload (frame_writes (capacity r) tail payload) (wrapping_add_u32 tail need) |>
      end
  | Writing payload ((c, b) :: todo) next =>
      w <| ring := r <| data := <[c := b]> (data r) |> |> <| producer := Writing payload todo next |>
  | Writing payload [] next =>
      end_push (w <| ring := r <| ring_tail := next |> |>) payload (Ok tt)
  end.

(** One step of the consumer: read one byte, or check what was read, or free
    the space of what was read. *)
Definition consume (w : World) : World :=
  let r := ring w in
  match consumer w with
  | Resting => w
  | ReadingLen have available head (c :: todo) got =>
      w <| consumer := ReadingLen have available head todo (got ++ [default 0 (data r !! c)]) |>
  | ReadingLen have available head [] got =>
      let len := from_le_bytes got in
      match len_check (max_message r) available len have with
      | Err e => end_pop w (Err e)
      | Ok _ =>
          w <| consumer := ReadingMsg head len
            (wrap_cells (capacity r) (wrapping_add_u32 head (Z.of_nat LENGTH_PREFIX)) (Z.to_nat len)) [] |>
      end
  | ReadingMsg head len (c :: todo) got =>
      w <| consumer := ReadingMsg head len todo (got ++ [default 0 (data r !! c)]) |>
  | ReadingMsg head len [] got =>
      end_pop (w <| ring := r <| ring_head := wrapping_add_u32 head (Z.of_nat LENGTH_PREFIX + len) |> |>)
        (Ok (Some got))
  end.

(** A call begins with the loads of the counter the side owns: no one else
    writes it.  [pop_into] loads the tail as it begins. *)
Definition sched_step (w : World) (op : Op) : World :=
  let r := ring w in
  match op with
  | CallPush payload =>
      match producer w with
      | Idle =>
          if too_large (max_message r) payload
          then end_push w payload (Err (PushTooLarge (Z.of_nat (length payload)) (max_message r)))
          else w <| producer := Loaded payload (ring_tail r) |>
      | _ => w
      end
  | Produce => produce w
  | CallPop have =>
      match consumer w with
      | Resting =>
          let available := wrapping_sub_u32 (ring_tail r) (ring_head r) in
          match pop_check (capacity r) available with
          | Err e => end_pop w (Err e)
          | Ok false => end_pop w (Ok None)
          | Ok true =>
              w <| consumer := ReadingLen have available (ring_head r)
                (wrap_cells (capacity r) (ring_head r) LENGTH_PREFIX) [] |>
          end
      | _ => w
      end
  | Consume => consume w
  end.

Definition run : World → list Op → World := foldl sched_step.

Definition fresh (cap max : Z) : World :=
  MkWorld (MkRing (replicate (Z.to_nat cap) 0) cap max 0 0) Idle Resting [] [].

(** The messages whose push returned, and the ones a pop has returned. *)
Definition sent (w : World) : list (list Z) :=
  omap (λ p, match p.2 with Ok _ => Some p.1 | Err _ => None end) (pushes w).
Definition received (w : World) : list (list Z) :=
  omap (λ p, match p with Ok o => o | Err _ => None end) (pops w).
#[global] Arguments frame_writes : simpl never.
End Sched.

(** * Cells and what they hold *)

(** The cell of the byte at the counter [i], which never wraps here. *)
Definition cell (cap i : Z) : nat := Z.to_nat (i mod cap).

Definition cells (cap i : Z) (n : nat) : list nat := (λ k, cell cap (i + Z.of_nat k)) <$> List.seq 0 n.

#[global] Arguments cell : simpl never.
#[global] Arguments cells : simpl never.

(** From counter [i] on, the ring holds [bytes]. *)
Definition holds (cap : Z) (d : list Z) (i : Z) (bytes : list Z) : Prop :=
  ∀ k b, bytes !! k = Some b → d !! cell cap (i + Z.of_nat k) = Some b.

Lemma cells_S cap i n : cells cap i (S n) = cell cap i :: cells cap (i + 1) n.
Proof.
  unfold cells. cbn [List.seq]. rewrite fmap_cons, Z.add_0_r. f_equal.
  rewrite <- seq_shift, <- list_fmap_compose. apply list_fmap_ext. intros k x _. cbn. f_equal. lia.
Qed.

Lemma length_cells cap i n : length (cells cap i n) = n.
Proof. unfold cells. by rewrite length_fmap, length_seq. Qed.

Lemma cells_app cap i n m : cells cap i (n + m) = cells cap i n ++ cells cap (i + Z.of_nat n) m.
Proof.
  revert i. induction n as [| n IH]; intros i; cbn [Nat.add]; [by rewrite Z.add_0_r |].
  rewrite !cells_S, IH. cbn. do 3 f_equal. lia.
Qed.

Section holds.
Context (cap : Z) (cap_pos : 0 < cap).

Lemma cell_lt i : (cell cap i < Z.to_nat cap)%nat.
Proof. unfold cell. pose proof (Z.mod_pos_bound i cap cap_pos). lia. Qed.

Lemma cell_ne i j : i < j < i + cap → cell cap i ≠ cell cap j.
Proof.
  intros Hij E. unfold cell in E. apply Z2Nat.inj in E; [| by apply Z.mod_pos_bound..].
  pose proof (Z.div_mod i cap). pose proof (Z.div_mod j cap).
  assert (cap * (j / cap - i / cap) = j - i) by lia.
  destruct (Z.lt_trichotomy (j / cap - i / cap) 0) as [| [|]]; nia.
Qed.

Lemma holds_nil d i : holds cap d i [].
Proof. intros k b. by rewrite lookup_nil. Qed.

Lemma holds_app d i xs ys :
  holds cap d i (xs ++ ys) ↔ holds cap d i xs ∧ holds cap d (i + Z.of_nat (length xs)) ys.
Proof.
  split.
  - intros H. split; intros k b Hk; [apply H; by apply lookup_app_l_Some |].
    rewrite <- (H (length xs + k)%nat b).
    + do 2 f_equal. lia.
    + by rewrite lookup_app_r, Nat.add_comm, Nat.add_sub by lia.
  - intros [Hx Hy] k b [Hk | [Hl Hk]]%lookup_app_Some; [by apply Hx |].
    rewrite <- (Hy _ _ Hk). do 2 f_equal. lia.
Qed.

Lemma holds_cons d i x xs :
  holds cap d i (x :: xs) ↔ d !! cell cap i = Some x ∧ holds cap d (i + 1) xs.
Proof.
  rewrite (holds_app d i [x] xs). cbn [length]. split; intros [H1 H2]; (split; [| done]).
  - rewrite <- (Z.add_0_r i). by apply (H1 0%nat).
  - intros [| k] b; [| by rewrite lookup_cons_ne_0 by done]. intros [= <-]. by rewrite Z.add_0_r.
Qed.

(** A write outside what is held, within one turn of the ring, leaves it. *)
Lemma holds_write d i bytes j b :
  holds cap d i bytes → i + Z.of_nat (length bytes) ≤ j < i + cap →
  holds cap (<[cell cap j := b]> d) i bytes.
Proof.
  intros H Hj k c Hk. rewrite list_lookup_insert_ne; [by apply H |].
  apply lookup_lt_Some in Hk. apply not_eq_sym, cell_ne. lia.
Qed.

Lemma holds_extend d i bytes b :
  length d = Z.to_nat cap → holds cap d i bytes → Z.of_nat (length bytes) < cap →
  holds cap (<[cell cap (i + Z.of_nat (length bytes)) := b]> d) i (bytes ++ [b]).
Proof.
  intros Hd H Hlt. apply holds_app. split; [apply holds_write; [done | lia] |].
  apply holds_cons. split; [| apply holds_nil]. rewrite list_lookup_insert_eq; [done |].
  rewrite Hd. apply cell_lt.
Qed.

Lemma read_holds d i bytes : holds cap d i bytes → read_cells d (cells cap i (length bytes)) = bytes.
Proof.
  revert i. induction bytes as [| b bytes IH]; intros i; [done |].
  intros [Hb H]%holds_cons. cbn [length]. rewrite cells_S. unfold read_cells. csimpl.
  rewrite Hb. cbn. f_equal. by apply IH.
Qed.
End holds.

(** * Rings as they are made *)

(** What [Link::create] and [Link::open] check of the sizes. *)
Record sizes_ok (cap max : Z) : Prop := {
  sz_pow : ∃ k, 0 ≤ k ≤ 31 ∧ cap = 2 ^ k;
  sz_max : 0 ≤ max;
  sz_fit : max + Z.of_nat LENGTH_PREFIX ≤ cap;
}.

Section ring.
Context (cap max : Z) (sizes : sizes_ok cap max).

Lemma cap_range : 0 < cap ≤ 2 ^ 31.
Proof.
  destruct sizes as [(k & Hk & ->) _ _]. split; [by apply Z.pow_pos_nonneg; lia |].
  apply Z.pow_le_mono_r; lia.
Qed.

Lemma cap_mod_u32 i : (i mod 2 ^ 32) mod cap = i mod cap.
Proof.
  destruct sizes as [(k & Hk & ->) _ _].
  replace (2 ^ 32) with (2 ^ k * 2 ^ (32 - k)) by (rewrite <- Z.pow_add_r by lia; f_equal; lia).
  pose proof (Z.pow_pos_nonneg 2 k). pose proof (Z.pow_pos_nonneg 2 (32 - k)).
  rewrite Z.rem_mul_r, Z.mul_comm, Z_mod_plus_full by lia. by rewrite Zmod_mod.
Qed.

Lemma land_mask i : Z.land i (cap - 1) = i mod cap.
Proof.
  destruct sizes as [(k & Hk & ->) _ _]. rewrite Z.sub_1_r, <- Z.ones_equiv. apply Z.land_ones; lia.
Qed.

(** The two parts of a copy are the cells of the counters it covers. *)
Lemma wrap_cells_eq i n :
  Z.of_nat n ≤ cap → wrap_cells cap (i mod 2 ^ 32) n = cells cap i n.
Proof.
  intros Hn. pose proof cap_range as Hcap. unfold wrap_cells. rewrite land_mask, cap_mod_u32.
  pose proof (Z.mod_pos_bound i cap ltac:(lia)) as Hi.
  remember (Z.to_nat (i mod cap)) as start eqn:Hstart.
  remember (Nat.min n (Z.to_nat cap - start)) as first eqn:Hfirst.
  replace n with (first + (n - first))%nat at 2 by lia. rewrite cells_app. f_equal.
  - unfold cells. apply list_eq. intros k. rewrite list_lookup_fmap.
    destruct (decide (k < first)%nat) as [Hk | Hk].
    + rewrite !lookup_seq_lt by lia. cbn. f_equal. unfold cell.
      rewrite <- Zplus_mod_idemp_l, Z.mod_small; lia.
    + by rewrite !lookup_seq_ge by lia.
  - unfold cells. apply list_eq. intros k. rewrite list_lookup_fmap.
    destruct (decide (k < n - first)%nat) as [Hk | Hk]; [| by rewrite !lookup_seq_ge by lia].
    rewrite !lookup_seq_lt by lia. cbn. f_equal. unfold cell.
    assert (Z.of_nat first = cap - i mod cap) as -> by lia.
    replace (i + (cap - i mod cap) + Z.of_nat k) with (Z.of_nat k + (1 + i / cap) * cap)
      by (pose proof (Z.div_mod i cap ltac:(lia)); lia).
    rewrite Z_mod_plus_full, Z.mod_small by lia. lia.
Qed.

Lemma add_u32 i n : wrapping_add_u32 (i mod 2 ^ 32) n = (i + n) mod 2 ^ 32.
Proof. unfold wrapping_add_u32. by rewrite Zplus_mod_idemp_l. Qed.

Lemma sub_u32 i j : 0 ≤ i - j < 2 ^ 32 → wrapping_sub_u32 (i mod 2 ^ 32) (j mod 2 ^ 32) = i - j.
Proof. intros. unfold wrapping_sub_u32. rewrite <- Zminus_mod. by apply Z.mod_small. Qed.

(** * Messages in the ring *)

Definition frame_bytes (m : list Z) : list Z := to_le_bytes 4 (Z.of_nat (length m)) ++ m.
#[global] Arguments frame_bytes : simpl never.
Definition fits_ring (m : list Z) : Prop := Z.of_nat (length m) ≤ max.
Definition stream (ms : list (list Z)) : list Z := ms ≫= frame_bytes.

Lemma length_frame m : length (frame_bytes m) = (4 + length m)%nat.
Proof. unfold frame_bytes. by rewrite length_app, to_le_bytes_length. Qed.

Lemma fits_u32 m : fits_ring m → 0 ≤ Z.of_nat (length m) < 256 ^ Z.of_nat 4.
Proof. intros H. unfold fits_ring in H. pose proof cap_range. destruct sizes. unfold LENGTH_PREFIX in *. lia. Qed.

(** The writes of a push are its frame's bytes, in the cells from the tail on. *)
Lemma frame_writes_eq i m :
  fits_ring m →
  Sched.frame_writes cap (i mod 2 ^ 32) m = zip (cells cap i (length (frame_bytes m))) (frame_bytes m).
Proof.
  intros Hm. unfold fits_ring in Hm. destruct sizes as [_ Hmax Hfit]. unfold LENGTH_PREFIX in Hfit.
  unfold Sched.frame_writes, LENGTH_PREFIX. rewrite add_u32, to_le_bytes_length, !wrap_cells_eq by lia.
  rewrite length_frame, cells_app. unfold frame_bytes.
  rewrite zip_with_app by (by rewrite length_cells, to_le_bytes_length). done.
Qed.

(** * The invariant *)
Import Sched.

Definition push_fine (p : list Z * result unit PushError) : Prop :=
  p.2 ≠ Err PushCorrupt ∧ (p.2 = Ok tt → fits_ring p.1).
Definition pop_fine (p : result (option (list Z)) PopError) : Prop := p ≠ Err PopCorrupt.

(** The producer copies a frame to the tail, into space that is free. *)
Definition producer_ok (r : Ring) (h t : Z) (p : Producer) : Prop :=
  match p with
  | Idle => True
  | Loaded m tail => fits_ring m ∧ tail = t mod 2 ^ 32
  | Writing m todo next =>
      fits_ring m ∧ t + Z.of_nat (length (frame_bytes m)) ≤ h + cap ∧
      next = (t + Z.of_nat (length (frame_bytes m))) mod 2 ^ 32 ∧
      ∃ done rest, frame_bytes m = done ++ rest ∧ holds cap (data r) t done ∧
        todo = zip (cells cap (t + Z.of_nat (length done)) (length rest)) rest
  end.

(** The consumer copies the first message, which is whole. *)
Definition consumer_ok (h : Z) (unread : list (list Z)) (c : Consumer) : Prop :=
  match c with
  | Resting => True
  | ReadingLen have available head todo got =>
      ∃ m ms rest, unread = m :: ms ∧ head = h mod 2 ^ 32 ∧
        Z.of_nat (length (frame_bytes m)) ≤ available ∧
        got ++ rest = to_le_bytes 4 (Z.of_nat (length m)) ∧
        todo = cells cap (h + Z.of_nat (length got)) (length rest)
  | ReadingMsg head len todo got =>
      ∃ m ms rest, unread = m :: ms ∧ head = h mod 2 ^ 32 ∧ len = Z.of_nat (length m) ∧
        got ++ rest = m ∧ todo = cells cap (h + 4 + Z.of_nat (length got)) (length rest)
  end.

(** [h] and [t] count all bytes ever read and written; [unread] is between. *)
Record ring_ok (w : World) (h t : Z) (unread : list (list Z)) : Prop := {
  ro_cap : capacity (ring w) = cap;
  ro_max : max_message (ring w) = max;
  ro_len : length (data (ring w)) = Z.to_nat cap;
  ro_head : ring_head (ring w) = h mod 2 ^ 32;
  ro_tail : ring_tail (ring w) = t mod 2 ^ 32;
  ro_size : t = h + Z.of_nat (length (stream unread));
  ro_room : t ≤ h + cap;
  ro_fits : Forall fits_ring unread;
  ro_holds : holds cap (data (ring w)) h (stream unread);
  ro_producer : producer_ok (ring w) h t (producer w);
  ro_consumer : consumer_ok h unread (consumer w);
  ro_sent : sent w = received w ++ unread;
  ro_pushes : Forall push_fine (pushes w);
  ro_pops : Forall pop_fine (pops w);
}.

Lemma fresh_ok : ring_ok (fresh cap max) 0 0 [].
Proof.
  pose proof cap_range.
  split; cbn; first [done | by rewrite length_replicate | lia | apply holds_nil | constructor].
Qed.

Lemma sent_end w m res : sent (end_push w m res) = sent w ++ match res with Ok _ => [m] | Err _ => [] end.
Proof. unfold sent. cbn. rewrite omap_app. by destruct res. Qed.

Lemma received_end w res :
  received (end_pop w res) = received w ++ match res with Ok (Some m) => [m] | _ => [] end.
Proof. unfold received. cbn. rewrite omap_app. by destruct res as [[] |]. Qed.

(** A call that fails, or finds the ring empty, changes nothing. *)
Lemma end_push_ok w h t unread m e :
  ring_ok w h t unread → e ≠ PushCorrupt → ring_ok (end_push w m (Err e)) h t unread.
Proof.
  intros [] He. split; try done.
  - by rewrite sent_end, app_nil_r.
  - cbn. apply Forall_app. split; [done |]. repeat constructor; cbn; congruence.
Qed.

Lemma end_pop_ok w h t unread res :
  ring_ok w h t unread → (∀ m, res ≠ Ok (Some m)) → res ≠ Err PopCorrupt → ring_ok (end_pop w res) h t unread.
Proof.
  intros [] Hm He. split; try done.
  - rewrite received_end. destruct res as [[m |] |]; [by destruct (Hm m) | by rewrite app_nil_r..].
  - cbn. apply Forall_app. split; [done |]. by repeat constructor.
Qed.

(** * Every step keeps it *)

Lemma call_push_ok w h t unread m :
  ring_ok w h t unread → ∃ h t unread, ring_ok (sched_step w (CallPush m)) h t unread.
Proof.
  intros H. exists h, t, unread. cbn. destruct (producer w) eqn:Ep; [| done..].
  destruct (too_large _ _) eqn:E; [by apply end_push_ok |]. destruct H. split; try done. cbn.
  unfold too_large in E. rewrite ro_max0 in E. unfold fits_ring. split; [lia | done].
Qed.

(** The producer finds exactly the space that is free. *)
Lemma push_check_ok w h t unread m :
  ring_ok w h t unread →
  push_check cap (t mod 2 ^ 32) (h mod 2 ^ 32) m
  = if cap - (t - h) <? Z.of_nat (length (frame_bytes m)) then Err PushFull
    else Ok (Z.of_nat (length (frame_bytes m))).
Proof.
  intros []. pose proof cap_range. unfold push_check. rewrite sub_u32 by lia.
  rewrite (proj2 (Z.ltb_ge cap _)) by lia. rewrite length_frame. unfold LENGTH_PREFIX.
  by rewrite Nat2Z.inj_add.
Qed.

Lemma produce_ok w h t unread :
  ring_ok w h t unread → ∃ h t unread, ring_ok (produce w) h t unread.
Proof.
  intros H. unfold produce. destruct (producer w) as [| m tail | m [| [c b] todo] next] eqn:Ep; [by eauto | | |].
  - exists h, t, unread. pose proof (ro_producer _ _ _ _ H) as Hp. rewrite Ep in Hp. destruct Hp as [Hm ->].
    rewrite (ro_cap _ _ _ _ H), (ro_head _ _ _ _ H), (push_check_ok w h t unread) by done.
    destruct (Z.ltb_spec (cap - (t - h)) (Z.of_nat (length (frame_bytes m)))); [by apply end_push_ok |].
    destruct H. split; try done. cbn. split; [done |]. split; [lia |]. split; [by rewrite add_u32 |].
    exists [], (frame_bytes m). split; [done |]. split; [apply holds_nil |].
    rewrite frame_writes_eq by done. by rewrite Z.add_0_r.
  - pose proof (ro_producer _ _ _ _ H) as Hp. rewrite Ep in Hp. destruct Hp as (Hm & Hroom & -> & done & rest & E & Hd & Ht).
    destruct rest; [| discriminate]. rewrite app_nil_r in E. subst done. pose proof cap_range.
    exists h, (t + Z.of_nat (length (frame_bytes m))), (unread ++ [m]). destruct H.
    assert (stream (unread ++ [m]) = stream unread ++ frame_bytes m) as Es
      by (unfold stream; rewrite bind_app; cbn; by rewrite app_nil_r).
    split; try done; cbn.
    + rewrite Es, length_app. lia.
    + apply Forall_app. by repeat constructor.
    + rewrite Es. apply holds_app. split; [done |]. by rewrite <- ro_size0.
    + destruct (consumer w); [done | |]; cbn in *.
      * destruct ro_consumer0 as (m' & ms & rest & -> & ?). by exists m', (ms ++ [m]), rest.
      * destruct ro_consumer0 as (m' & ms & rest & -> & ?). by exists m', (ms ++ [m]), rest.
    + transitivity (sent w ++ [m]); [exact (sent_end w m (Ok tt)) |]. rewrite ro_sent0. by rewrite app_assoc.
    + apply Forall_app. split; [done |]. repeat constructor; done.
  - pose proof (ro_producer _ _ _ _ H) as Hp. rewrite Ep in Hp. destruct Hp as (Hm & Hroom & -> & done & rest & E & Hd & Ht).
    pose proof cap_range as Hcap. destruct rest as [| b' rest]; [discriminate |]. cbn [length] in Ht. rewrite cells_S in Ht.
    cbn [zip zip_with] in Ht. injection Ht as -> -> ->.
    assert (length (frame_bytes m) = (length done + S (length rest))%nat) as El by (by rewrite E, length_app).
    exists h, t, unread. destruct H. split; try done; cbn.
    + by rewrite length_insert.
    + apply holds_write; [lia | done | lia].
    + split; [done |]. split; [done |]. split; [done |]. exists (done ++ [b']), rest.
      split; [by rewrite <- app_assoc |]. split.
      * apply holds_extend; [lia | done | done | lia].
      * do 2 f_equal. rewrite length_app. cbn. lia.
Qed.

Lemma pop_check_ok w h t unread :
  ring_ok w h t unread →
  wrapping_sub_u32 (ring_tail (ring w)) (ring_head (ring w)) = t - h ∧
  pop_check cap (t - h) = Ok (negb (bool_decide (unread = []))).
Proof.
  intros []. pose proof cap_range. rewrite ro_tail0, ro_head0, sub_u32 by lia. split; [done |].
  unfold pop_check, LENGTH_PREFIX. destruct unread as [| m ms]; cbn in ro_size0.
  - by rewrite (proj2 (Z.eqb_eq _ _)) by lia.
  - rewrite length_app, length_frame in ro_size0. rewrite (proj2 (Z.eqb_neq _ _)) by lia.
    by rewrite !(proj2 (Z.ltb_ge _ _)) by lia.
Qed.

Lemma call_pop_ok w h t unread have :
  ring_ok w h t unread → ∃ h t unread, ring_ok (sched_step w (CallPop have)) h t unread.
Proof.
  intros H. exists h, t, unread. cbn. destruct (consumer w) eqn:Ec; [| done..].
  destruct (pop_check_ok _ _ _ _ H) as [-> Hc]. rewrite (ro_cap _ _ _ _ H), Hc.
  destruct unread as [| m ms]; cbn [negb bool_decide]; [by apply end_pop_ok |].
  rewrite bool_decide_false by done. cbn [negb]. pose proof cap_range. destruct sizes as [_ Hmax Hfit].
  destruct H. split; try done. cbn. exists m, ms, (to_le_bytes 4 (Z.of_nat (length m))).
  split; [done |]. split; [done |]. cbn in ro_size0. rewrite length_app in ro_size0.
  split; [lia |]. split; [done |]. rewrite ro_head0, wrap_cells_eq by (unfold LENGTH_PREFIX in *; lia).
  by rewrite Z.add_0_r.
Qed.

(** The byte the consumer copies is the byte of the message. *)
Lemma consume_byte w h t m ms done b rest :
  ring_ok w h t (m :: ms) → frame_bytes m = done ++ b :: rest →
  default 0 (data (ring w) !! cell cap (h + Z.of_nat (length done))) = b.
Proof.
  intros [] E. cbn in ro_holds0. rewrite E, <- !app_assoc in ro_holds0.
  apply holds_app in ro_holds0 as [_ [-> _]%holds_cons]. done.
Qed.

Lemma len_check_ok m available have :
  fits_ring m → Z.of_nat (length (frame_bytes m)) ≤ available →
  len_check max available (Z.of_nat (length m)) have
  = if have <? Z.of_nat (length m) then Err (BufferTooSmall have (Z.of_nat (length m))) else Ok tt.
Proof.
  intros Hm Ha. unfold fits_ring in Hm. rewrite length_frame in Ha. unfold len_check, LENGTH_PREFIX.
  by rewrite (proj2 (Z.ltb_ge max _)), (proj2 (Z.ltb_ge available _)) by lia.
Qed.

Lemma consume_ok w h t unread :
  ring_ok w h t unread → ∃ h t unread, ring_ok (consume w) h t unread.
Proof.
  intros H. pose proof cap_range. pose proof (sz_fit _ _ sizes) as Hfit. unfold LENGTH_PREFIX in Hfit.
  unfold consume. pose proof (ro_consumer _ _ _ _ H) as Hc.
  destruct (consumer w) as [| have av hd [| c todo] got | hd len [| c todo] got]; [by eauto | | | |];
    destruct Hc as (m & ms & rest & -> & -> & Hc).
  - destruct Hc as (Ha & E & Ht). destruct rest; [| discriminate]. rewrite app_nil_r in E. subst got.
    exists h, t, (m :: ms). pose proof (ro_fits _ _ _ _ H) as [Hm _]%Forall_cons.
    rewrite le_bytes_roundtrip by (by apply fits_u32). rewrite (ro_max _ _ _ _ H), len_check_ok by done.
    destruct (have <? _); [by apply end_pop_ok |]. unfold fits_ring in Hm.
    destruct H. split; try done. cbn. exists m, ms, m. do 4 (split; [done |]).
    rewrite ro_cap0, add_u32, wrap_cells_eq by (unfold LENGTH_PREFIX; lia). rewrite Nat2Z.id. by rewrite Z.add_0_r.
  - destruct Hc as (Ha & E & Ht). destruct rest as [| b rest]; [discriminate |]. cbn [length] in Ht.
    rewrite cells_S in Ht. injection Ht as -> ->. exists h, t, (m :: ms).
    rewrite (consume_byte w h t m ms got b (rest ++ m) H) by (unfold frame_bytes; by rewrite <- E, <- app_assoc).
    destruct H. split; try done. cbn. exists m, ms, rest. do 3 (split; [done |]).
    split; [by rewrite <- app_assoc |]. f_equal. rewrite length_app. cbn. lia.
  - destruct Hc as (-> & E & Ht). destruct rest; [| discriminate]. rewrite app_nil_r in E. subst got.
    exists (h + Z.of_nat (length (frame_bytes m))), t, ms. destruct H.
    change (stream (m :: ms)) with (frame_bytes m ++ stream ms) in *. rewrite length_app in ro_size0.
    apply Forall_cons in ro_fits0 as [Hm Hms]. apply holds_app in ro_holds0 as [_ Hh].
    split; try done; cbn.
    + rewrite add_u32. f_equal. rewrite length_frame. unfold LENGTH_PREFIX. lia.
    + lia.
    + lia.
    + destruct (producer w); [done | done |]. cbn in *. destruct ro_producer0 as (? & ? & ?). split; [done |].
      split; [lia | done].
    + transitivity ((received w ++ [m]) ++ ms); [by rewrite <- app_assoc |]. f_equal.
      symmetry. exact (received_end w (Ok (Some m))).
    + apply Forall_app. split; [done |]. by repeat constructor.
  - destruct Hc as (-> & E & Ht). destruct rest as [| b rest]; [discriminate |]. cbn [length] in Ht.
    rewrite cells_S in Ht. injection Ht as -> ->. exists h, t, (m :: ms).
    replace (h + 4 + Z.of_nat (length got))
      with (h + Z.of_nat (length (to_le_bytes 4 (Z.of_nat (length m)) ++ got)))
      by (rewrite length_app, to_le_bytes_length; lia).
    rewrite (consume_byte w h t m ms _ b rest H) by (unfold frame_bytes; by rewrite <- E at 2; rewrite <- app_assoc).
    destruct H. split; try done. cbn. exists m, ms, rest. do 3 (split; [done |]).
    split; [by rewrite <- app_assoc |]. f_equal. rewrite !length_app, ?to_le_bytes_length. cbn. lia.
Qed.

Lemma run_ok ops w h t unread :
  ring_ok w h t unread → ∃ h t unread, ring_ok (run w ops) h t unread.
Proof.
  revert w h t unread. induction ops as [| op ops IH]; intros w h t unread H; cbn; [by eauto |].
  assert (∃ h t unread, ring_ok (sched_step w op) h t unread) as (h' & t' & u' & H').
  { destruct op; [by eapply call_push_ok | by eapply produce_ok | by eapply call_pop_ok | by eapply consume_ok]. }
  by eapply IH.
Qed.
End ring.

(** * Calls run alone *)
Import Sched.

Lemma run_app w ops ops' : run w (ops ++ ops') = run (run w ops) ops'.
Proof. apply foldl_app. Qed.

Lemma write_alone todo w m next :
  producer w = Writing m todo next →
  run w (replicate (S (length todo)) Produce)
  = end_push (w <| ring := (ring w) <| data := write_cells (data (ring w)) todo |> <| ring_tail := next |> |>) m (Ok tt).
Proof.
  revert w. induction todo as [| [c b] todo IH]; intros w Hw.
  - cbn. unfold produce. rewrite Hw. by destruct w as [[] ? ? ? ?].
  - change (run w (replicate (S (length ((c, b) :: todo))) Produce))
      with (run (produce w) (replicate (S (length todo)) Produce)).
    unfold produce. rewrite Hw. by rewrite IH.
Qed.

(** A push that is not interrupted does what [push] does, in finitely many
    steps. *)
Lemma push_alone w m :
  producer w = Idle →
  ∃ n, run w (CallPush m :: replicate n Produce)
       = end_push (w <| ring := (push (ring w) m).1 |>) m (push (ring w) m).2.
Proof.
  intros Hw. unfold push. unfold run. cbn [foldl sched_step]. rewrite Hw. fold run.
  destruct (too_large _ _); [exists 0%nat; by destruct w |].
  destruct (push_check (capacity (ring w)) (ring_tail (ring w)) (ring_head (ring w)) m) as [need | e] eqn:E.
  - exists (S (S (length (frame_writes (capacity (ring w)) (ring_tail (ring w)) m)))).
    rewrite replicate_S. unfold run. cbn [foldl sched_step]. fold run.
    unfold produce. cbn. rewrite E.
    etransitivity; [apply (write_alone (frame_writes (capacity (ring w)) (ring_tail (ring w)) m)); reflexivity |].
    destruct w as [[] ? ? ? ?]. cbn. unfold write_wrapping, frame_writes, write_cells. cbn. by rewrite foldl_app.
  - exists 1%nat. cbn. unfold produce. cbn. rewrite E. by destruct w.
Qed.

Lemma read_len_alone todo w have av hd got :
  consumer w = ReadingLen have av hd todo got →
  run w (replicate (length todo) Consume)
  = w <| consumer := ReadingLen have av hd [] (got ++ read_cells (data (ring w)) todo) |>.
Proof.
  revert w got. induction todo as [| c todo IH]; intros w got Hw.
  - cbn. rewrite app_nil_r, <- Hw. by destruct w.
  - change (run w (replicate (length (c :: todo)) Consume)) with (run (consume w) (replicate (length todo) Consume)).
    unfold consume. rewrite Hw. erewrite IH by reflexivity. cbn. by rewrite <- app_assoc.
Qed.

Lemma read_msg_alone todo w hd len got :
  consumer w = ReadingMsg hd len todo got →
  run w (replicate (S (length todo)) Consume)
  = end_pop (w <| ring := (ring w) <| ring_head := wrapping_add_u32 hd (Z.of_nat LENGTH_PREFIX + len) |> |>)
      (Ok (Some (got ++ read_cells (data (ring w)) todo))).
Proof.
  revert w got. induction todo as [| c todo IH]; intros w got Hw.
  - cbn. unfold consume. rewrite Hw. cbn. by rewrite app_nil_r.
  - change (run w (replicate (S (length (c :: todo))) Consume))
      with (run (consume w) (replicate (S (length todo)) Consume)).
    unfold consume. rewrite Hw. erewrite IH by reflexivity. cbn. by rewrite <- app_assoc.
Qed.

(** A pop that is not interrupted does what [pop_into] does. *)
Lemma pop_alone w have :
  consumer w = Resting →
  ∃ n, run w (CallPop have :: replicate n Consume)
       = end_pop (w <| ring := (pop_into (ring w) have).1 |>) (pop_into (ring w) have).2.
Proof.
  intros Hw. unfold pop_into, run. cbn [foldl sched_step]. rewrite Hw. fold run.
  destruct (pop_check _ _) as [[] | e]; [| exists 0%nat; by destruct w..].
  set (todo := wrap_cells _ _ LENGTH_PREFIX). set (w1 := w <| consumer := _ |>).
  pose proof (read_len_alone todo w1 have _ _ [] eq_refl) as H1. cbn [app] in H1.
  change (data (ring w1)) with (data (ring w)) in H1.
  change (read_wrapping (ring w) (ring_head (ring w)) LENGTH_PREFIX) with (read_cells (data (ring w)) todo).
  set (got := read_cells _ todo) in *. clearbody got.
  destruct (len_check (max_message (ring w)) (wrapping_sub_u32 (ring_tail (ring w)) (ring_head (ring w)))
    (from_le_bytes got) have) as [[] | e] eqn:E.
  - set (cs := wrap_cells (capacity (ring w)) (wrapping_add_u32 (ring_head (ring w)) (Z.of_nat LENGTH_PREFIX))
      (Z.to_nat (from_le_bytes got))).
    exists (length todo + S (S (length cs)))%nat. rewrite replicate_add, run_app, H1, replicate_S.
    unfold run. cbn [foldl sched_step]. fold run. unfold consume. subst w1. cbn. rewrite E.
    etransitivity; [apply (read_msg_alone cs); reflexivity |]. by destruct w as [[] ? ? ? ?].
  - exists (length todo + 1)%nat. rewrite replicate_add, run_app, H1. subst w1. cbn. unfold consume. cbn. rewrite E.
    by destruct w as [[] ? ? ? ?].
Qed.

(** What a bounded queue answers: [unread] are the messages in it. *)
Definition queue_push (cap max : Z) (unread : list (list Z)) (m : list Z) : result unit PushError :=
  if max <? Z.of_nat (length m) then Err (PushTooLarge (Z.of_nat (length m)) max)
  else if cap <? sum_Z ((λ m, 4 + Z.of_nat (length m)) <$> unread ++ [m]) then Err PushFull
  else Ok tt.

Definition queue_pop (unread : list (list Z)) (have : Z) : result (option (list Z)) PopError :=
  match unread with
  | [] => Ok None
  | m :: _ =>
      let len := Z.of_nat (length m) in
      if have <? len then Err (BufferTooSmall have len) else Ok (Some m)
  end.

Lemma length_stream ms : Z.of_nat (length (stream ms)) = sum_Z ((λ m, 4 + Z.of_nat (length m)) <$> ms).
Proof.
  induction ms as [| m ms IH]; [done |].
  change (stream (m :: ms)) with (frame_bytes m ++ stream ms). rewrite length_app, length_frame. csimpl.
  rewrite sum_Z_cons, <- IH. lia.
Qed.

(** [push] and [pop_into] answer what the queue answers. *)
Lemma push_answers cap max (sizes : sizes_ok cap max) w h t unread m :
  ring_ok cap max w h t unread → (push (ring w) m).2 = queue_push cap max unread m.
Proof.
  intros H. pose proof (cap_range cap max sizes). unfold push, queue_push, too_large.
  rewrite (ro_max _ _ _ _ _ _ H), (ro_cap _ _ _ _ _ _ H), (ro_tail _ _ _ _ _ _ H), (ro_head _ _ _ _ _ _ H).
  destruct (max <? _); [done |]. rewrite (push_check_ok cap max sizes w h t unread m H).
  rewrite fmap_app, sum_Z_app, <- length_stream, length_frame.
  replace (sum_Z ((λ m, 4 + Z.of_nat (length m)) <$> [m])) with (Z.of_nat (4 + length m))
    by (csimpl; rewrite sum_Z_cons, sum_Z_nil; lia).
  pose proof (ro_size _ _ _ _ _ _ H). generalize (Z.of_nat (4 + length m)). intros need.
  destruct (Z.ltb_spec (cap - (t - h)) need), (Z.ltb_spec cap (Z.of_nat (length (stream unread)) + need)); done || lia.
Qed.

Lemma read_at cap max (sizes : sizes_ok cap max) r i bytes :
  capacity r = cap → holds cap (data r) i bytes → Z.of_nat (length bytes) ≤ cap →
  read_wrapping r (i mod 2 ^ 32) (length bytes) = bytes.
Proof.
  intros <- Hh Hl. unfold read_wrapping. rewrite (wrap_cells_eq _ max sizes) by done. by apply read_holds.
Qed.

Lemma pop_answers cap max (sizes : sizes_ok cap max) w h t unread have :
  ring_ok cap max w h t unread → (pop_into (ring w) have).2 = queue_pop unread have.
Proof.
  intros H. pose proof (cap_range cap max sizes). destruct (sizes) as [_ _ Hfit]. unfold LENGTH_PREFIX in Hfit.
  unfold pop_into. destruct (pop_check_ok cap max sizes _ _ _ _ H) as [-> Hc].
  rewrite (ro_cap _ _ _ _ _ _ H), Hc. destruct unread as [| m ms]; [done |].
  rewrite bool_decide_false by done. cbn [negb queue_pop].
  pose proof (ro_fits _ _ _ _ _ _ H) as [Hm _]%Forall_cons. pose proof (ro_size _ _ _ _ _ _ H) as Hs.
  pose proof (ro_holds _ _ _ _ _ _ H) as Hh. change (stream (m :: ms)) with (frame_bytes m ++ stream ms) in Hh, Hs.
  rewrite length_app in Hs. apply holds_app in Hh as [Hh _]. unfold frame_bytes in Hh. apply holds_app in Hh as [H1 H2].
  rewrite to_le_bytes_length in H2. pose proof (fits_u32 cap max sizes m Hm) as Hu. unfold fits_ring in Hm.
  rewrite (ro_head _ _ _ _ _ _ H).
  assert (from_le_bytes (read_wrapping (ring w) (h mod 2 ^ 32) LENGTH_PREFIX) = Z.of_nat (length m)) as ->.
  { replace LENGTH_PREFIX with (length (to_le_bytes 4 (Z.of_nat (length m)))) by apply to_le_bytes_length.
    rewrite (read_at cap max sizes _ _ _ (ro_cap _ _ _ _ _ _ H) H1) by (rewrite to_le_bytes_length; lia).
    by apply le_bytes_roundtrip. }
  rewrite (ro_max _ _ _ _ _ _ H), (len_check_ok max) by (done || lia).
  destruct (have <? _); [done |]. cbn [snd]. unfold LENGTH_PREFIX. rewrite add_u32, Nat2Z.id.
  by rewrite (read_at cap max sizes _ _ _ (ro_cap _ _ _ _ _ _ H) H2) by lia.
Qed.

(** * Theorems *)

(** C9: the ring is a first-in first-out queue between two processes.  The
    producer and the consumer take turns in any order at the level of single
    loads, stores and copied bytes, with any messages and any buffers, however
    far the counters wrap.  The messages popped are the first ones pushed, whole
    and in order; neither side ever finds the ring corrupt; and a call that is
    left to finish returns what a queue of that capacity returns, [Full] and
    [BufferTooSmall] included. *)
Theorem ring_fifo (cap max : Z) (ops : list Op) :
  sizes_ok cap max →
  let w := run (fresh cap max) ops in
  (∃ unread, sent w = received w ++ unread ∧
    (∀ m, producer w = Idle → ∃ n,
      pushes (run w (CallPush m :: replicate n Produce)) = pushes w ++ [(m, queue_push cap max unread m)]) ∧
    (∀ have, consumer w = Resting → ∃ n,
      pops (run w (CallPop have :: replicate n Consume)) = pops w ++ [queue_pop unread have])) ∧
  Forall (λ p, p.2 ≠ Err PushCorrupt) (pushes w) ∧ Forall (λ p, p ≠ Err PopCorrupt) (pops w).
Proof.
  intros sizes w. destruct (run_ok cap max sizes ops _ _ _ _ (fresh_ok cap max sizes)) as (h & t & unread & H).
  fold w in H. split; [exists unread; split; [apply H | split] |].
  - intros m Hi. destruct (push_alone w m Hi) as [n Hn]. exists n. rewrite Hn. cbn. by rewrite (push_answers cap max sizes w h t unread).
  - intros have Hi. destruct (pop_alone w have Hi) as [n Hn]. exists n. rewrite Hn. cbn. by rewrite (pop_answers cap max sizes w h t unread).
  - split; [| apply H]. eapply Forall_impl; [apply (ro_pushes _ _ _ _ _ _ H) |]. by intros p [].
Qed.

(** A ring of 16 bytes: the second message does not fit until the first is
    popped, while the producer is interrupted half way through it. *)
Lemma ring_fifo_witness :
  let half := CallPush [7; 8; 9] :: replicate 5 Produce in
  let w := run (fresh 16 12) (half ++ CallPop 12 :: replicate 8 Produce ++ CallPop 12 :: replicate 12 Consume
    ++ CallPush [1; 2; 3; 4; 5; 6; 7; 8; 9; 10] :: replicate 20 Produce) in
  sizes_ok 16 12 ∧ pops w = [Ok None; Ok (Some [7; 8; 9])] ∧
  (∃ unread, sent w = received w ++ unread ∧
    (∀ m, producer w = Idle → ∃ n,
      pushes (run w (CallPush m :: replicate n Produce)) = pushes w ++ [(m, queue_push 16 12 unread m)]) ∧
    (∀ have, consumer w = Resting → ∃ n,
      pops (run w (CallPop have :: replicate n Consume)) = pops w ++ [queue_pop unread have])) ∧
  Forall (λ p, p.2 ≠ Err PushCorrupt) (pushes w) ∧ Forall (λ p, p ≠ Err PopCorrupt) (pops w).
Proof.
  intros half w.
  assert (sizes_ok 16 12) as Hs by (split; [exists 4; lia | lia | unfold LENGTH_PREFIX; lia]).
  split; [exact Hs |]. split; [vm_compute; reflexivity |]. exact (ring_fifo 16 12 _ Hs).
Defined.

(** Whatever a broken or hostile peer leaves in the counters and the bytes, no
    cell outside the ring is read or written, and nothing longer than
    [max_message] or the caller's buffer is popped. *)
Lemma wrap_cells_lt cap max (sizes : sizes_ok cap max) at_ n :
  Z.of_nat n ≤ cap → Forall (λ c, (c < Z.to_nat cap)%nat) (wrap_cells cap at_ n).
Proof.
  intros Hn. pose proof (cap_range cap max sizes). unfold wrap_cells. rewrite (land_mask cap max sizes).
  pose proof (Z.mod_pos_bound at_ cap ltac:(lia)). apply Forall_app. split.
  - apply Forall_forall. intros c [_ Hc]%elem_of_seq. lia.
  - apply Forall_forall. intros c [_ Hc]%elem_of_seq. lia.
Qed.

Lemma hostile_pop cap max (sizes : sizes_ok cap max) r have out :
  capacity r = cap → max_message r = max → (∀ i, 0 ≤ default 0 (data r !! i)) →
  (pop_into r have).2 = Ok (Some out) →
  Z.of_nat (length out) ≤ Z.min max have ∧
  Forall (λ c, (c < Z.to_nat cap)%nat)
    (wrap_cells cap (ring_head r) LENGTH_PREFIX
     ++ wrap_cells cap (wrapping_add_u32 (ring_head r) (Z.of_nat LENGTH_PREFIX)) (length out)).
Proof.
  intros <- <- Hbytes. unfold pop_into. destruct sizes as [Hp Hm Hf] eqn:Es. pose proof (cap_range _ _ sizes).
  destruct (pop_check _ _) as [[] |]; [| done..]. set (len := from_le_bytes _).
  unfold len_check. destruct (Z.ltb_spec (max_message r) len); [done |].
  destruct (_ <? _); [done |]. destruct (Z.ltb_spec have len); [done |]. intros [= <-].
  assert (0 ≤ len). { subst len. unfold read_wrapping, read_cells. generalize (wrap_cells (capacity r) (ring_head r) LENGTH_PREFIX).
    intros l. induction l as [| c l IH]; cbn; [lia |]. specialize (Hbytes c). lia. }
  assert (length (read_wrapping r (wrapping_add_u32 (ring_head r) (Z.of_nat LENGTH_PREFIX)) (Z.to_nat len)) = Z.to_nat len) as Hlen.
  { unfold read_wrapping, read_cells. rewrite length_fmap. unfold wrap_cells. rewrite length_app, !length_seq. lia. }
  rewrite Hlen. split; [lia |]. apply Forall_app. unfold LENGTH_PREFIX in *. split; apply (wrap_cells_lt _ _ sizes); lia.
Qed.
