(* ===== verification/Link.v ===== *)
(** The shared-memory link between agent and game ([crates/tpf3mp-ipc/src/header.rs],
    [lib.rs]): the header of the mapping, how its owner sets it up and the other side
    takes it up, and which ring is whose.  What goes on inside a ring is [Ring].

    The header is a map from the offsets of its cells to their values.  The owner's
    stores are a list, in program order; the magic is stored with release and loaded
    with acquire, so that a reader who sees it sees what was stored before. *)
From S2P Require Import Prelude Proto Ring.
Local Open Scope Z_scope.

Definition HEADER_SIZE : Z := 64.
Definition ABI_VERSION : Z := 1.
Definition LINK_MAGIC : Z := from_le_bytes [84; 51; 77; 80].
Definition DEFAULT_RING_CAPACITY : Z := Z.shiftl 1 20.
Definition DEFAULT_MAX_MESSAGE : Z := 60 * 1024.

Definition OFF_MAGIC : Z := 0.
Definition OFF_ABI : Z := 4.
Definition OFF_HEADER_SIZE : Z := 8.
Definition OFF_RING_CAPACITY : Z := 12.
Definition OFF_MAX_MESSAGE : Z := 16.
Definition OFF_SESSION : Z := 20.
Definition OFF_HOOK_PID : Z := 24.
Definition OFF_AGENT_PID : Z := 28.
Definition OFF_HOOK_HEARTBEAT : Z := 32.
Definition OFF_AGENT_HEARTBEAT : Z := 40.
Definition OFF_H2A_HEAD : Z := 48.
Definition OFF_H2A_TAIL : Z := 52.
Definition OFF_A2H_HEAD : Z := 56.
Definition OFF_A2H_TAIL : Z := 60.

Inductive Role := Hook | Agent.
Record Config := MkConfig { c_capacity : Z; c_max : Z }.

Inductive IpcError :=
  | Shm (found expected : Z)
  | InvalidConfig
  | NotReady
  | AbiMismatch (found : Z)
  | HeaderMismatch (found : Z)
  | BadRingCapacity (capacity : Z).

(** * The header *)
Abbreviation Cells := (gmap Z Z).
Definition cell (m : Cells) (offset : Z) : Z := default 0 (m !! offset).

(** A store, as a list of them: the offset of the cell and its new value. *)
Definition zero_header : list (Z * Z) :=
  (λ offset, (offset, 0)) <$>
    [OFF_MAGIC; OFF_ABI; OFF_HEADER_SIZE; OFF_RING_CAPACITY; OFF_MAX_MESSAGE; OFF_SESSION; OFF_HOOK_PID; OFF_AGENT_PID;
     OFF_HOOK_HEARTBEAT; OFF_AGENT_HEARTBEAT; OFF_H2A_HEAD; OFF_H2A_TAIL; OFF_A2H_HEAD; OFF_A2H_TAIL].

Definition write_fields (config : Config) (session : Z) : list (Z * Z) :=
  [(OFF_ABI, ABI_VERSION); (OFF_HEADER_SIZE, HEADER_SIZE); (OFF_RING_CAPACITY, c_capacity config);
   (OFF_MAX_MESSAGE, c_max config); (OFF_SESSION, session)].

Definition announce (role : Role) (pid : Z) : list (Z * Z) :=
  match role with
  | Hook => [(OFF_HOOK_PID, pid); (OFF_HOOK_HEARTBEAT, 1)]
  | Agent => [(OFF_AGENT_PID, pid); (OFF_AGENT_HEARTBEAT, 1)]
  end.

Definition publish_magic : list (Z * Z) := [(OFF_MAGIC, LINK_MAGIC)].

Definition store_all (m : Cells) (stores : list (Z * Z)) : Cells := foldl (λ m s, <[s.1 := s.2]> m) m stores.

(** * Setting up *)
Definition is_power_of_two (n : Z) : bool := (0 <? n) && (Z.land n (n - 1) =? 0).

Record Sizes := MkSizes { ring_capacity : Z; link_max : Z }.

Definition new_session (nanos pid : Z) : Z := Z.lor ((Z.lxor nanos pid * 2654435761) mod 2 ^ 32) 1.

(** [Link::create]: the stores it makes, in order.  [mapped] says how mapping the
    region ended. *)
Definition create (config : Config) (role : Role) (mapped : result unit IpcError) (nanos pid : Z) :
    result (Sizes * list (Z * Z)) IpcError :=
  if negb (is_power_of_two (c_capacity config)) then Err (BadRingCapacity (c_capacity config))
  else if Z.shiftl 1 31 <? c_capacity config then Err InvalidConfig
  else if c_capacity config <? c_max config + Z.of_nat LENGTH_PREFIX then Err InvalidConfig
  else
    let? _ := mapped in
    Ok (MkSizes (c_capacity config) (c_max config),
        zero_header ++ write_fields config (new_session nanos pid) ++ announce role pid ++ publish_magic).

(** [Link::open] of a region of [len] bytes: [load i offset] is what its [i]-th load
    finds. *)
Definition open (load : nat → Z → Z) (mapped : result Z IpcError) (role : Role) (pid : Z) : result (Sizes * list (Z * Z)) IpcError :=
  let? len := mapped in
  if negb (load 0%nat OFF_MAGIC =? LINK_MAGIC) then Err NotReady
  else if negb (load 1%nat OFF_ABI =? ABI_VERSION) then Err (AbiMismatch (load 2%nat OFF_ABI))
  else if negb (load 2%nat OFF_HEADER_SIZE =? HEADER_SIZE) then Err (HeaderMismatch (load 3%nat OFF_HEADER_SIZE))
  else
    let capacity := load 3%nat OFF_RING_CAPACITY in
    if negb (is_power_of_two capacity) || (Z.shiftl 1 31 <? capacity) then Err (BadRingCapacity capacity)
    else
      let max := load 4%nat OFF_MAX_MESSAGE in
      if capacity <? max + Z.of_nat LENGTH_PREFIX then Err InvalidConfig
      else
        let total := HEADER_SIZE + 2 * capacity in
        if len <? total then Err (Shm len total)
        else Ok (MkSizes capacity max, announce role pid).

(** * The two rings *)

(** The mapping: the header's cells and the two data areas behind it. *)
Record Region := MkRegion { cells : Cells; h2a_data : list Z; a2h_data : list Z }.
#[export] Instance eta_Region : Eta Region := fun r => MkRegion (cells r) (h2a_data r) (a2h_data r).

(** Where the data areas lie: the first byte and the one behind the last. *)
Definition h2a_range (s : Sizes) : Z * Z := (HEADER_SIZE, HEADER_SIZE + ring_capacity s).
Definition a2h_range (s : Sizes) : Z * Z := (HEADER_SIZE + ring_capacity s, HEADER_SIZE + ring_capacity s + ring_capacity s).

Definition h2a (r : Region) (s : Sizes) : Ring :=
  MkRing (h2a_data r) (ring_capacity s) (link_max s) (cell (cells r) OFF_H2A_HEAD) (cell (cells r) OFF_H2A_TAIL).
Definition a2h (r : Region) (s : Sizes) : Ring :=
  MkRing (a2h_data r) (ring_capacity s) (link_max s) (cell (cells r) OFF_A2H_HEAD) (cell (cells r) OFF_A2H_TAIL).

Definition put_h2a (r : Region) (q : Ring) : Region :=
  r <| cells := store_all (cells r) [(OFF_H2A_HEAD, ring_head q); (OFF_H2A_TAIL, ring_tail q)] |> <| h2a_data := data q |>.
Definition put_a2h (r : Region) (q : Ring) : Region :=
  r <| cells := store_all (cells r) [(OFF_A2H_HEAD, ring_head q); (OFF_A2H_TAIL, ring_tail q)] |> <| a2h_data := data q |>.

Definition send_on (r : Region) (s : Sizes) (role : Role) (payload : list Z) : Region * result unit PushError :=
  match role with
  | Hook => let '(q, e) := push (h2a r s) payload in (put_h2a r q, e)
  | Agent => let '(q, e) := push (a2h r s) payload in (put_a2h r q, e)
  end.

Definition recv_on (r : Region) (s : Sizes) (role : Role) (have : Z) : Region * result (option (list Z)) PopError :=
  match role with
  | Hook => let '(q, e) := pop_into (a2h r s) have in (put_a2h r q, e)
  | Agent => let '(q, e) := pop_into (h2a r s) have in (put_h2a r q, e)
  end.

Definition next_len (r : Region) (s : Sizes) (role : Role) : option Z :=
  match role with Hook => peek_len (a2h r s) | Agent => peek_len (h2a r s) end.

Definition own_heartbeat (role : Role) : Z := match role with Hook => OFF_HOOK_HEARTBEAT | Agent => OFF_AGENT_HEARTBEAT end.
Definition own_pid_cell (role : Role) : Z := match role with Hook => OFF_HOOK_PID | Agent => OFF_AGENT_PID end.
Definition peer (role : Role) : Role := match role with Hook => Agent | Agent => Hook end.

Definition heartbeat (r : Region) (role : Role) : Region :=
  r <| cells := <[own_heartbeat role := (cell (cells r) (own_heartbeat role) + 1) mod 2 ^ 64]> (cells r) |>.
Definition peer_heartbeat (r : Region) (role : Role) : Z := cell (cells r) (own_heartbeat (peer role)).
Definition own_pid (r : Region) (role : Role) : Z := cell (cells r) (own_pid_cell role).
Definition peer_pid (r : Region) (role : Role) : Z := cell (cells r) (own_pid_cell (peer role)).

(** * Sizes *)
Lemma power_of_two n : is_power_of_two n = true → n = 2 ^ Z.log2 n.
Proof.
  intros [H1%Z.ltb_lt H2%Z.eqb_eq]%andb_true_iff. destruct (Z.log2_spec n H1) as [Hlo Hhi]. rewrite Z.pow_succ_r in Hhi by apply Z.log2_nonneg.
  destruct (Z.eq_dec n (2 ^ Z.log2 n)) as [| Hne]; [done |]. exfalso.
  assert (Z.log2 (n - 1) = Z.log2 n) as El.
  { apply Z.log2_unique; [apply Z.log2_nonneg |]. rewrite Z.pow_succ_r by apply Z.log2_nonneg. lia. }
  assert (Z.testbit (Z.land n (n - 1)) (Z.log2 n) = true) as Hb; [| by rewrite H2, Z.bits_0 in Hb].
  pose proof (Z.log2_nonneg n). pose proof (Z.pow_pos_nonneg 2 (Z.log2 n) ltac:(lia) ltac:(lia)).
  rewrite Z.land_spec, (Z.bit_log2 n H1). rewrite <- El. apply Z.bit_log2. lia.
Qed.

Lemma good_sizes capacity max : 0 ≤ max → is_power_of_two capacity = true → (Z.shiftl 1 31 <? capacity) = false →
  (capacity <? max + Z.of_nat LENGTH_PREFIX) = false → sizes_ok capacity max.
Proof.
  intros Hm Hp H1%Z.ltb_ge H2%Z.ltb_ge. pose proof (power_of_two _ Hp) as E. split; [| done | lia].
  exists (Z.log2 capacity). split; [| done]. split; [apply Z.log2_nonneg |]. change (Z.shiftl 1 31) with (2 ^ 31) in H1.
  destruct (Z.le_gt_cases (Z.log2 capacity) 31) as [| Hgt]; [done |]. pose proof (Z.pow_lt_mono_r 2 31 (Z.log2 capacity) ltac:(lia) ltac:(lia) ltac:(lia)). lia.
Qed.

(** C10: A link stays inside its mapping.  Whatever the header of a mapping says, the
    other side being hostile, half done or of another build, and whatever it changes
    between two reads: a link that opens has rings of a size [Ring] is proved for, a
    power of two that holds a message of the greatest length with its prefix, and the
    header and the two rings lie one behind the other within the mapping. *)
Theorem link_sound (load : nat → Z → Z) (len : Z) (role : Role) (pid : Z) (s : Sizes) (stores : list (Z * Z)) :
  (∀ i offset, is_u32 (load i offset)) → open load (Ok len) role pid = Ok (s, stores) →
  sizes_ok (ring_capacity s) (link_max s) ∧
  HEADER_SIZE = (h2a_range s).1 ∧ (h2a_range s).1 < (h2a_range s).2 ∧ (h2a_range s).2 = (a2h_range s).1 ∧ (a2h_range s).1 < (a2h_range s).2 ∧
  (a2h_range s).2 ≤ len.
Proof.
  intros Hu. unfold open. cbn [result_bind]. destruct (negb (load 0%nat OFF_MAGIC =? LINK_MAGIC)); [done |].
  destruct (negb (load 1%nat OFF_ABI =? ABI_VERSION)); [done |]. destruct (negb (load 2%nat OFF_HEADER_SIZE =? HEADER_SIZE)); [done |].
  set (capacity := load 3%nat OFF_RING_CAPACITY). set (max := load 4%nat OFF_MAX_MESSAGE).
  destruct (is_power_of_two capacity) eqn:Hp; cbn [negb orb]; [| done]. destruct (Z.shiftl 1 31 <? capacity) eqn:H1; [done |].
  destruct (capacity <? max + Z.of_nat LENGTH_PREFIX) eqn:H2; [done |]. destruct (Z.ltb_spec len (HEADER_SIZE + 2 * capacity)) as [| H3]; [done |].
  intros [= <- <-]. assert (0 ≤ max) as Hm by apply (Hu 4%nat OFF_MAX_MESSAGE). pose proof (good_sizes capacity max Hm Hp H1 H2) as Hs.
  split; [exact Hs |]. pose proof (cap_range _ _ Hs). cbn. lia.
Qed.

(** * Setting up and taking up *)
Lemma cell_store_last m l o v r : o ∉ r.*1 → cell (store_all m (l ++ (o, v) :: r)) o = v.
Proof.
  intros Hr. unfold store_all. rewrite foldl_app. cbn [foldl]. set (m1 := <[(o, v).1 := (o, v).2]> (foldl _ m l)).
  assert (m1 !! o = Some v) as H1 by apply lookup_insert_eq. clearbody m1. revert m1 H1. induction r as [| [o' v'] r IH]; intros m1 H1; cbn.
  - unfold cell. by rewrite H1.
  - apply not_elem_of_cons in Hr as [Hne Hr]. apply IH; [done |]. by rewrite lookup_insert_ne.
Qed.

Lemma cell_kept m l o (Q : Z → Prop) : Q (cell m o) → Forall (λ s, s.1 = o → Q s.2) l → Q (cell (store_all m l) o).
Proof.
  intros H0 Hl. revert m H0. induction Hl as [| [o' v'] l H _ IH]; intros m H0; cbn; [done |]. apply IH. unfold cell.
  destruct (decide (o' = o)) as [-> | Hne]; [rewrite lookup_insert_eq; by apply H | by rewrite lookup_insert_ne].
Qed.

Definition before_magic (config : Config) (session : Z) (role : Role) (pid : Z) : list (Z * Z) :=
  zero_header ++ write_fields config session ++ announce role pid.

Lemma magic_not_yet m config session role pid k : cell m OFF_MAGIC ≠ LINK_MAGIC →
  cell (store_all m (take k (before_magic config session role pid))) OFF_MAGIC ≠ LINK_MAGIC.
Proof.
  intros Hm. apply (cell_kept m _ OFF_MAGIC (λ v, v ≠ LINK_MAGIC)); [done |]. apply Forall_take.
  destruct role; repeat (constructor; [cbn; by vm_compute |]); constructor.
Qed.

Lemma written_fields m config session role pid :
  let m' := store_all m (before_magic config session role pid ++ publish_magic) in
  cell m' OFF_MAGIC = LINK_MAGIC ∧ cell m' OFF_ABI = ABI_VERSION ∧ cell m' OFF_HEADER_SIZE = HEADER_SIZE ∧
  cell m' OFF_RING_CAPACITY = c_capacity config ∧ cell m' OFF_MAX_MESSAGE = c_max config.
Proof.
  cbv zeta. set (rest := announce role pid ++ publish_magic).
  assert (before_magic config session role pid ++ publish_magic = zero_header ++ write_fields config session ++ rest) as ->
    by (unfold before_magic, rest; by rewrite <- !app_assoc).
  assert (∀ o, o ∈ [OFF_ABI; OFF_HEADER_SIZE; OFF_RING_CAPACITY; OFF_MAX_MESSAGE] → o ∉ rest.*1) as Hrest.
  { intros o Ho Hr. destruct role; cbn in Ho, Hr; set_unfold in Ho; set_unfold in Hr; unfold OFF_ABI, OFF_HEADER_SIZE, OFF_RING_CAPACITY, OFF_MAX_MESSAGE,
      OFF_HOOK_PID, OFF_HOOK_HEARTBEAT, OFF_AGENT_PID, OFF_AGENT_HEARTBEAT, OFF_MAGIC in *; lia. }
  assert (∀ l o v r, o ∈ [OFF_ABI; OFF_HEADER_SIZE; OFF_RING_CAPACITY; OFF_MAX_MESSAGE] → write_fields config session = l ++ (o, v) :: r → o ∉ r.*1 →
    cell (store_all m (zero_header ++ write_fields config session ++ rest)) o = v) as Hfield.
  { intros l o v r Ho E Hr. rewrite E. replace (zero_header ++ (l ++ (o, v) :: r) ++ rest) with ((zero_header ++ l) ++ (o, v) :: (r ++ rest)) by (by rewrite <- !app_assoc).
    apply cell_store_last. rewrite fmap_app. apply not_elem_of_app. split; [done | by apply Hrest]. }
  split; [| split; [| split; [| split]]].
  - unfold rest, publish_magic. rewrite !app_assoc. apply cell_store_last. apply not_elem_of_nil.
  - apply (Hfield [] OFF_ABI ABI_VERSION _ ltac:(set_solver) eq_refl). cbn. set_unfold. vm_compute. naive_solver.
  - apply (Hfield [_] OFF_HEADER_SIZE HEADER_SIZE _ ltac:(set_solver) eq_refl). cbn. set_unfold. vm_compute. naive_solver.
  - apply (Hfield [_; _] OFF_RING_CAPACITY (c_capacity config) _ ltac:(set_solver) eq_refl). cbn. set_unfold. vm_compute. naive_solver.
  - apply (Hfield [_; _; _] OFF_MAX_MESSAGE (c_max config) _ ltac:(set_solver) eq_refl). cbn. set_unfold. vm_compute. naive_solver.
Qed.

(** A link is taken up whole or not at all.  Let the owner set up a link in a
    mapping that does not carry the magic yet, and the other side open it at any time,
    its loads falling anywhere between the owner's stores.  As long as the owner has
    not made its last store when the opener first looks, the link is not ready;
    otherwise it opens with exactly the owner's sizes, whatever the opener's later loads
    meet. *)
Theorem link_opens_whole (config : Config) (role role' : Role) (mapped : result unit IpcError) (nanos pid pid' len : Z)
    (s : Sizes) (stores : list (Z * Z)) (m : Cells) (k : nat → nat) :
  create config role mapped nanos pid = Ok (s, stores) → HEADER_SIZE + 2 * c_capacity config ≤ len →
  cell m OFF_MAGIC ≠ LINK_MAGIC → (∀ i, (k i ≤ k (S i))%nat) →
  open (λ i offset, cell (store_all m (take (k i) stores)) offset) (Ok len) role' pid' =
    if (length stores <=? k 0)%nat then Ok (s, announce role' pid') else Err NotReady.
Proof.
  intros Hc Hlen Hm Hk. unfold create in Hc. destruct (is_power_of_two (c_capacity config)) eqn:Hp; cbn [negb] in Hc; [| done].
  destruct (Z.shiftl 1 31 <? c_capacity config) eqn:H1; [done |]. destruct (c_capacity config <? c_max config + Z.of_nat LENGTH_PREFIX) eqn:H2; [done |].
  destruct mapped as [[] | e]; [| done]. cbn [result_bind] in Hc. injection Hc as <- Hst.
  set (front := before_magic config (new_session nanos pid) role pid).
  assert (stores = front ++ publish_magic) as -> by (rewrite <- Hst; unfold front, before_magic; by rewrite <- !app_assoc). clear Hst.
  unfold open. cbn [result_bind]. destruct (Nat.leb_spec (length (front ++ publish_magic)) (k 0%nat)) as [Hall | Hnot].
  - assert (∀ i, (k 0 ≤ k i)%nat) as Hmono by (induction i as [| i IH]; [lia | specialize (Hk i); lia]).
    assert (∀ i, take (k i) (front ++ publish_magic) = front ++ publish_magic) as Ht by (intros i; apply take_ge; specialize (Hmono i); lia).
    rewrite !Ht. pose proof (written_fields m config (new_session nanos pid) role pid) as (E1 & E2 & E3 & E4 & E5).
    fold front in E1, E2, E3, E4, E5. rewrite E1, E2, E3, E4, E5, !Z.eqb_refl, Hp, H1, H2. cbn [negb orb].
    by rewrite (proj2 (Z.ltb_ge _ _)).
  - rewrite length_app in Hnot. cbn [length publish_magic] in Hnot. rewrite take_app_le by lia.
    by rewrite (proj2 (Z.eqb_neq _ _) (magic_not_yet m config (new_session nanos pid) role pid _ Hm)).
Qed.

(** Not so when the mapping still carries the magic of an earlier link.  An opener that
    has read the old header up to the size of the rings, while the owner then clears
    it, finds a greatest message of nothing, and takes the link up like that: the check
    is only that it fits. *)
Theorem open_races_reset :
  ∃ m stores k, create (MkConfig DEFAULT_RING_CAPACITY DEFAULT_MAX_MESSAGE) Agent (Ok tt) 5 7 = Ok (MkSizes DEFAULT_RING_CAPACITY DEFAULT_MAX_MESSAGE, stores) ∧
    m = store_all ∅ stores ∧ (∀ i, (k i ≤ k (S i))%nat) ∧
    open (λ i offset, cell (store_all m (take (k i) stores)) offset) (Ok (HEADER_SIZE + 2 * DEFAULT_RING_CAPACITY)) Hook 9
      = Ok (MkSizes DEFAULT_RING_CAPACITY 0, announce Hook 9).
Proof.
  eexists _, _, (λ i, if (i <? 4)%nat then 0%nat else 5%nat). split; [reflexivity |]. split; [reflexivity |]. split; [| vm_compute; reflexivity].
  intros i. destruct (Nat.ltb_spec i 4), (Nat.ltb_spec (S i) 4); lia.
Qed.

(** * Witnesses *)
Module LinkExample.
Definition config : Config := MkConfig DEFAULT_RING_CAPACITY DEFAULT_MAX_MESSAGE.
Definition stores : list (Z * Z) :=
  match create config Agent (Ok tt) 5 7 with Ok (_, stores) => stores | Err _ => [] end.
Definition header : Cells := store_all ∅ stores.
Definition len : Z := HEADER_SIZE + 2 * DEFAULT_RING_CAPACITY.
End LinkExample.

Lemma link_sound_witness :
  open (λ _ offset, cell LinkExample.header offset) (Ok LinkExample.len) Hook 9 = Ok (MkSizes DEFAULT_RING_CAPACITY DEFAULT_MAX_MESSAGE, announce Hook 9) ∧
  sizes_ok DEFAULT_RING_CAPACITY DEFAULT_MAX_MESSAGE.
Proof.
  assert (open (λ _ offset, cell LinkExample.header offset) (Ok LinkExample.len) Hook 9 = Ok (MkSizes DEFAULT_RING_CAPACITY DEFAULT_MAX_MESSAGE, announce Hook 9))
    as E by (vm_compute; reflexivity).
  split; [exact E |]. refine (proj1 (link_sound _ _ _ _ _ _ _ E)). intros _ offset.
  apply (cell_kept ∅ LinkExample.stores offset is_u32); [by vm_compute |]. repeat (constructor; [cbn; intros _; by vm_compute |]). constructor.
Defined.

Lemma link_opens_whole_witness :
  open (λ i offset, cell (store_all ∅ (take (20 + i) LinkExample.stores)) offset) (Ok LinkExample.len) Hook 9 = Err NotReady ∧
  open (λ i offset, cell (store_all ∅ (take (22 + i) LinkExample.stores)) offset) (Ok LinkExample.len) Hook 9
    = Ok (MkSizes DEFAULT_RING_CAPACITY DEFAULT_MAX_MESSAGE, announce Hook 9).
Proof.
  assert (create LinkExample.config Agent (Ok tt) 5 7 = Ok (MkSizes DEFAULT_RING_CAPACITY DEFAULT_MAX_MESSAGE, LinkExample.stores)) as Hc by reflexivity.
  split; (rewrite (link_opens_whole LinkExample.config Agent Hook (Ok tt) 5 7 9 LinkExample.len _ LinkExample.stores ∅ _ Hc);
    [reflexivity | by vm_compute | by vm_compute | intros i; lia]).
Defined.
