(* ===== verification/Gate.v ===== *)
(** What the agent and the hook inside the game say to each other
    ([crates/tpf3mp-bridge/src/lib.rs]), and the step gate that stands before
    every step the game runs ([gate.rs]). *)
From S2P Require Import Prelude Proto TurnLog.
Local Open Scope Z_scope.

Definition BRIDGE_VERSION : Z := 3.
Definition MAX_MESSAGE : Z := 60 * 1024.
Definition MAX_PATH : Z := 1024.

(** * Messages *)
Inductive ToHook :=
  | HookHello (version : Z)
  | HookBegin (rules : Text) (steps_per_second checkpoint_interval : Z) (saves : Text)
  | HookApply (event : Event)
  | HookRelease (through : Z)
  | HookSpeed (speed : Speed)
  | HookDiverged (step : Z) (lanes : list Z)
  | HookRefused (command : Z) (reason : IntentRejection)
  | HookEnd (reason : Text)
  | HookLoad (file : option Text) (next_step : Z)
  | HookChat (from text : Text).

Inductive ToAgent :=
  | AgentHello (version : Z) (build : Text)
  | AgentLoaded (next_step : Z)
  | AgentCommand (payload : Payload)
  | AgentRan (step : Z)
  | AgentCheckpoint (step : Z) (lanes : list LaneDigest)
  | AgentLog (message : Text)
  | AgentSaved (event : Z) (lanes : list LaneDigest) (file : option Text)
  | AgentChat (text : Text).

Inductive BridgeError :=
  | BridgeTooLarge (len : Z)
  | BridgeMalformed
  | BridgeVersion (version : Z).

Section messages.
Context {T : Type} {P : Postcard T}.

Definition encode_message (message : T) : result (list Z) BridgeError :=
  let? bytes := ok_or (to_stdvec message) BridgeMalformed in
  let len := Z.of_nat (length bytes) in
  if MAX_MESSAGE <? len then Err (BridgeTooLarge len) else Ok bytes.

(** Trailing bytes are refused. *)
Definition decode_message (bytes : list Z) : result T BridgeError :=
  let len := Z.of_nat (length bytes) in
  if MAX_MESSAGE <? len then Err (BridgeTooLarge len)
  else
    let? (message, rest) := ok_or (take_from_bytes bytes) BridgeMalformed in
    if negb (bool_decide (rest = [])) then Err BridgeMalformed else Ok message.

Lemma message_roundtrip {L : PostcardLaws T} m bytes :
  encode_message m = Ok bytes → decode_message bytes = Ok m ∧ Z.of_nat (length bytes) ≤ MAX_MESSAGE.
Proof.
  unfold encode_message, decode_message. destruct (to_stdvec m) as [b |] eqn:E; cbn; [| done].
  destruct (Z.ltb_spec MAX_MESSAGE (Z.of_nat (length b))) as [| Hle]; [done |]. intros [= ->].
  rewrite (proj2 (Z.ltb_ge _ _)) by done.
  pose proof (postcard_roundtrip m bytes [] E) as Hr. rewrite app_nil_r in Hr. by rewrite Hr.
Qed.
End messages.

Definition check_version (version : Z) : result unit BridgeError :=
  if version =? BRIDGE_VERSION then Ok tt else Err (BridgeVersion version).

(** * The gate *)
Record Gate := MkGate {
  gate_next_step : Z;
  released : Z;
  ended : bool;
  loading : bool;
}.
#[export] Instance eta_Gate : Eta Gate := fun g =>
  MkGate (gate_next_step g) (released g) (ended g) (loading g).

Inductive Gated :=
  | GatedApply (event : Event)
  | GatedSpeed (speed : Speed)
  | GatedDiverged (step : Z) (lanes : list Z)
  | GatedRefused (command : Z) (reason : IntentRejection)
  | GatedEnded (reason : Text)
  | GatedLoad (file : option Text) (next_step : Z)
  | GatedChat (from text : Text)
  | GatedNothing.

Inductive GateError :=
  | GateEventStep (expected got : Z)
  | GateEventAfterRelease (step : Z)
  | GateReleaseBackwards (from to : Z)
  | GateUnexpected (what : string)
  | GateLoading
  | GateOverflow.

Definition Gate_new (next_step : Z) : Gate :=
  MkGate next_step (saturating_sub_u64 next_step 1) false false.

Definition gate_loaded (g : Gate) (next_step : Z) : Gate :=
  g <| gate_next_step := next_step |> <| released := saturating_sub_u64 next_step 1 |>
    <| loading := false |>.

Definition may_run (g : Gate) : bool :=
  negb (ended g) && negb (loading g) && (gate_next_step g <=? released g).

Definition is_end (message : ToHook) : bool := match message with HookEnd _ => true | _ => false end.

Definition on_message (g : Gate) (message : ToHook) : result (Gate * Gated) GateError :=
  if loading g && negb (is_end message) then Err GateLoading
  else
    match message with
    | HookApply event =>
        if negb (step event =? gate_next_step g) then Err (GateEventStep (gate_next_step g) (step event))
        else if gate_next_step g <=? released g then Err (GateEventAfterRelease (step event))
        else Ok (g, GatedApply event)
    | HookRelease through =>
        if through <? released g then Err (GateReleaseBackwards (released g) through)
        else Ok (g <| released := through |>, GatedNothing)
    | HookSpeed speed => Ok (g, GatedSpeed speed)
    | HookDiverged step lanes => Ok (g, GatedDiverged step lanes)
    | HookRefused command reason => Ok (g, GatedRefused command reason)
    | HookEnd reason => Ok (g <| ended := true |>, GatedEnded reason)
    | HookLoad file next_step => Ok (g <| loading := true |>, GatedLoad file next_step)
    | HookChat from text => Ok (g, GatedChat from text)
    | HookHello _ => Err (GateUnexpected "a hello")
    | HookBegin _ _ _ _ => Err (GateUnexpected "the start of a game")
    end.

Definition gate_ran (g : Gate) : result (Gate * Z) GateError :=
  let step := gate_next_step g in
  let? next := ok_or (checked_add_u64 step 1) GateOverflow in
  Ok (g <| gate_next_step := next |>, step).

(** * What messages instruct a game to do *)

(** Messages that say nothing about the world. *)
Definition inert (m : ToHook) : bool :=
  match m with
  | HookSpeed _ | HookDiverged _ _ | HookRefused _ _ | HookChat _ _ | HookEnd _ => true
  | _ => false
  end.

(** What a game does: it replaces its world, or takes an action on it. *)
Inductive Deed :=
  | Loads (next_step : Z)
  | Does (action : Action).

Definition runs (from to : Z) : list Deed := (Does ∘ Execute) <$> seqZ (from + 1) (to - from).

(** What [ms] instruct a game to do, after step [r] was released. *)
Fixpoint deeds (r : Z) (ms : list ToHook) : list Deed :=
  match ms with
  | [] => []
  | HookApply e :: ms => Does (Apply e) :: deeds r ms
  | HookRelease t :: ms => runs r t ++ deeds t ms
  | HookLoad _ n :: ms => Loads n :: deeds (n - 1) ms
  | _ :: ms => deeds r ms
  end.

(** The last step released for the current world; none before the first world. *)
Definition stand_one (c : option Z) (m : ToHook) : option Z :=
  match m with HookRelease t => Some t | HookLoad _ n => Some (n - 1) | _ => c end.
Definition stand : option Z → list ToHook → option Z := foldl stand_one.

(** What the agent owes the gate: an event only for the step after the last one
    released, releases that never go back, and nothing before a world. *)
Definition owed (c : option Z) (m : ToHook) : Prop :=
  match m with
  | HookApply e => ∃ r, c = Some r ∧ step e = r + 1
  | HookRelease t => ∃ r, c = Some r ∧ r ≤ t < u64_max
  | HookLoad _ n => 1 ≤ n ≤ u64_max
  | HookHello _ | HookBegin _ _ _ _ => False
  | _ => True
  end.

Fixpoint stream_ok (c : option Z) (ms : list ToHook) : Prop :=
  match ms with
  | [] => True
  | m :: ms => owed c m ∧ stream_ok (stand_one c m) ms
  end.

Lemma stand_app c ms ms' : stand c (ms ++ ms') = stand (stand c ms) ms'.
Proof. apply foldl_app. Qed.

Lemma stream_ok_app c ms ms' : stream_ok c (ms ++ ms') ↔ stream_ok c ms ∧ stream_ok (stand c ms) ms'.
Proof.
  revert c. induction ms as [| m ms IH]; intros c; cbn [app stream_ok]; [by cbn; tauto |].
  rewrite IH. cbn [stand foldl]. tauto.
Qed.

Lemma deeds_app c ms ms' :
  deeds (default 0 c) (ms ++ ms') = deeds (default 0 c) ms ++ deeds (default 0 (stand c ms)) ms'.
Proof.
  revert c. induction ms as [| m ms IH]; intros c; cbn [app stand foldl]; [done |].
  destruct m as [| | e | t | | | | | f n |]; cbn [deeds stand_one]; rewrite <- ?app_assoc; try apply (IH c).
  - cbn [app]. f_equal. apply (IH c).
  - f_equal. apply (IH (Some t)).
  - cbn [app]. f_equal. apply (IH (Some (n - 1))).
Qed.

Lemma deeds_app0 ms ms' : deeds 0 (ms ++ ms') = deeds 0 ms ++ deeds (default 0 (stand None ms)) ms'.
Proof. exact (deeds_app None ms ms'). Qed.

Lemma inert_stream c ms : Forall (λ m, inert m = true) ms → stream_ok c ms ∧ stand c ms = c ∧ deeds (default 0 c) ms = [].
Proof.
  induction 1 as [| m ms Hm _ (IH1 & IH2 & IH3)]; [done |]. cbn [stream_ok stand foldl deeds].
  destruct m; done.
Qed.

Lemma runs_nil r : runs r r = [].
Proof. unfold runs. by rewrite Z.sub_diag. Qed.

Lemma runs_cons r t : r < t → runs r t = Does (Execute (r + 1)) :: runs (r + 1) t.
Proof.
  intros Hlt. unfold runs. rewrite seqZ_cons by lia. csimpl. do 3 f_equal; lia.
Qed.

Lemma runs_app r s t : r ≤ s ≤ t → runs r t = runs r s ++ runs s t.
Proof.
  intros Hle. unfold runs. rewrite <- fmap_app. f_equal.
  replace (t - r) with ((s - r) + (t - s)) by lia. rewrite seqZ_app by lia. do 2 f_equal. lia.
Qed.
