(* ===== verification/BridgeCodec.v ===== *)
(** A concrete encoding of the messages between the agent and the hook, from the
    combinators of [Codec]: it stands in for postcard where a theorem about them
    is applied to a concrete session. *)
From S2P Require Import Prelude Proto Codec Gate.
Local Open Scope Z_scope.

#[export] Instance codec_IntentRejection : Codec IntentRejection.
Proof.
  refine (codec_iso
    (λ r, match r with RejectedGameNotRunning => (0, 0) | RejectedRateLimited => (1, 0) | Refused code => (2, code) end)
    (λ f, Some (match f with (0, _) => RejectedGameNotRunning | (1, _) => RejectedRateLimited | (_, code) => Refused code end))
    _).
  by intros [].
Defined.

#[export] Instance codec_LaneDigest : Codec LaneDigest.
Proof. refine (codec_iso (λ l, (lane l, digest l)) (λ f, Some (MkLaneDigest f.1 f.2)) _). by intros []. Defined.

(** A message is its tag, its numbers, its texts, and what else it carries. *)
Definition hook_fields (m : ToHook) :
    Z * list Z * list string * option Event * option IntentRejection * option string :=
  match m with
  | HookHello version => (0, [version], [], None, None, None)
  | HookBegin rules steps interval saves => (1, [steps; interval], [rules; saves], None, None, None)
  | HookApply event => (2, [], [], Some event, None, None)
  | HookRelease through => (3, [through], [], None, None, None)
  | HookSpeed speed => (4, [speed], [], None, None, None)
  | HookDiverged step lanes => (5, step :: lanes, [], None, None, None)
  | HookRefused command reason => (6, [command], [], None, Some reason, None)
  | HookEnd reason => (7, [], [reason], None, None, None)
  | HookLoad file next_step => (8, [next_step], [], None, None, file)
  | HookChat from text => (9, [], [from; text], None, None, None)
  end.

Definition hook_of (f : Z * list Z * list string * option Event * option IntentRejection * option string) :
    option ToHook :=
  match f with
  | (0, [version], _, _, _, _) => Some (HookHello version)
  | (1, [steps; interval], [rules; saves], _, _, _) => Some (HookBegin rules steps interval saves)
  | (2, _, _, Some event, _, _) => Some (HookApply event)
  | (3, [through], _, _, _, _) => Some (HookRelease through)
  | (4, [speed], _, _, _, _) => Some (HookSpeed speed)
  | (5, step :: lanes, _, _, _, _) => Some (HookDiverged step lanes)
  | (6, [command], _, _, Some reason, _) => Some (HookRefused command reason)
  | (7, _, [reason], _, _, _) => Some (HookEnd reason)
  | (8, [next_step], _, _, _, file) => Some (HookLoad file next_step)
  | (9, _, [from; text], _, _, _) => Some (HookChat from text)
  | _ => None
  end.

#[export] Instance codec_ToHook : Codec ToHook.
Proof. refine (codec_iso hook_fields hook_of _). by intros []. Defined.

Definition agent_fields (m : ToAgent) : Z * list Z * list string * list LaneDigest * option string :=
  match m with
  | AgentHello version build => (0, [version], [build], [], None)
  | AgentLoaded next_step => (1, [next_step], [], [], None)
  | AgentCommand payload => (2, payload, [], [], None)
  | AgentRan step => (3, [step], [], [], None)
  | AgentCheckpoint step lanes => (4, [step], [], lanes, None)
  | AgentLog message => (5, [], [message], [], None)
  | AgentSaved event lanes file => (6, [event], [], lanes, file)
  | AgentChat text => (7, [], [text], [], None)
  end.

Definition agent_of (f : Z * list Z * list string * list LaneDigest * option string) : option ToAgent :=
  match f with
  | (0, [version], [build], _, _) => Some (AgentHello version build)
  | (1, [next_step], _, _, _) => Some (AgentLoaded next_step)
  | (2, payload, _, _, _) => Some (AgentCommand payload)
  | (3, [step], _, _, _) => Some (AgentRan step)
  | (4, [step], _, lanes, _) => Some (AgentCheckpoint step lanes)
  | (5, _, [message], _, _) => Some (AgentLog message)
  | (6, [event], _, lanes, file) => Some (AgentSaved event lanes file)
  | (7, _, [text], _, _) => Some (AgentChat text)
  | _ => None
  end.

#[export] Instance codec_ToAgent : Codec ToAgent.
Proof. refine (codec_iso agent_fields agent_of _). by intros []. Defined.

Module ConcreteBridge.
#[export] Instance hook_postcard : Postcard ToHook := {
  to_stdvec m := Some (encode m);
  take_from_bytes := decode;
}.
#[export] Instance agent_postcard : Postcard ToAgent := {
  to_stdvec m := Some (encode m);
  take_from_bytes := decode;
}.
#[export] Instance hook_postcard_laws : PostcardLaws ToHook.
Proof.
  split.
  - intros m bytes rest Hm. injection Hm as <-. exact (codec_law m rest).
  - intros [] bytes [= <-]; discriminate.
Qed.
End ConcreteBridge.
