(* ===== verification/Hook.v ===== *)
(** The hook's side of a session with the agent
    ([crates/tpf3mp-bridge/src/session.rs]), which runs on the game's thread.

    The game is behind a trait ([Game]): the model records the calls the session
    makes of it, in order ([calls_made]), and takes the game's answers as
    arguments.  What the link does is an argument too: the bytes that wait to be
    received are in [inbox], and [send_ends] says how each send ends, after
    however many tries. *)
From stdpp Require Import pretty.
From S2P Require Import Prelude Proto Codec TurnLog Gate BridgeCodec.
Local Open Scope Z_scope.

Inductive Notice :=
  | NoticeSpeed (speed : Speed)
  | NoticeDiverged (step : Z) (lanes : list Z)
  | NoticeRefused (command : Z) (reason : IntentRejection)
  | NoticeEnded (reason : Text)
  | NoticeChat (from text : Text).

Record Load := MkLoad { load_file : option Text; load_next_step : Z }.

Inductive StepGate :=
  | StepRun
  | StepWait
  | StepEnded
  | StepLoad (load : Load).

Record Begin := MkBegin {
  begin_rules : Text;
  begin_steps_per_second : Z;
  begin_checkpoint_interval : Z;
  begin_saves : Text;
}.

Inductive SessionError :=
  | SessionTransfer
  | SessionMessage (e : BridgeError)
  | SessionGate (e : GateError)
  | SessionUnexpected (what : string)
  | AgentGone
  | LoadedElsewhere (expected got : Z)
  | NotLoading.

(** What the session asks of the game; [CallRun] and [CallLoad] are the game's
    own: the step it runs and the world it loads when the gate says so. *)
Inductive GameCall :=
  | CallApply (event : Event)
  | CallLanes
  | CallSave (event : Event) (file : Text)
  | CallNotice (notice : Notice)
  | CallRun (step : Z)
  | CallLoad (load : Load).

Record Session := MkSession {
  gate : Gate;
  pending_load : option Load;
  saves : Text;
  s_checkpoint_interval : Z;
  agent_beat : Z * Instant;
  s_commands : Z;
  inbox : list (list Z);
  told : list ToAgent;
  calls_made : list GameCall;
}.
#[export] Instance eta_Session : Eta Session := fun s =>
  MkSession (gate s) (pending_load s) (saves s) (s_checkpoint_interval s) (agent_beat s) (s_commands s)
    (inbox s) (told s) (calls_made s).

(** A step of the session. *)
Abbreviation HookM := (SE Session SessionError).

(** The path of a save in the directory of saves: [Path::join] and the name
    [save-<event>.sav]. *)
Definition save_path (dir : Text) (event : Z) : Text := dir +:+ "/save-" +:+ pretty event +:+ ".sav".

Section session.
Context {PA : Postcard ToAgent} {PH : Postcard ToHook}.

(** How the [n]-th send ends; the digests and the save the game answers with
    when it has been asked [n] times; whether a path fits a message; the clock
    and the agent's heartbeat. *)
Context (send_ends : nat → result unit SessionError).
Context (lanes_of : nat → list LaneDigest) (save_of : nat → result unit Text).
Context (max_path_ok : Text → bool).
Context (patience : Duration) (now : Instant) (beat : Z).

Definition call_game (c : GameCall) : HookM unit := se_mod (λ s, s <| calls_made ::= λ l, l ++ [c] |>).

Definition check_agent : HookM unit :=
  s ← se_get;
  if negb (beat =? (agent_beat s).1) then se_mod (λ s, s <| agent_beat := (beat, now) |>)
  else if patience <? saturating_duration_since now (agent_beat s).2 then se_err AgentGone
  else mret tt.

Definition send (message : ToAgent) : HookM unit :=
  _ ← se_lift SessionMessage (encode_message message);
  s ← se_get;
  match send_ends (length (told s)) with
  | Err e => se_err e
  | Ok _ => se_mod (λ s, s <| told ::= λ l, l ++ [message] |>)
  end.

Definition log_line (message : Text) : HookM unit := send (AgentLog message).

Definition game_lanes : HookM (list LaneDigest) :=
  s ← se_get;
  _ ← call_game CallLanes;
  mret (lanes_of (length (calls_made s))).

Definition save_world (event : Event) : HookM unit :=
  s ← se_get;
  let file := save_path (saves s) (seq event) in
  let saved := save_of (length (calls_made s)) in
  _ ← call_game (CallSave event file);
  lanes ← game_lanes;
  file ← match saved with
         | Ok _ =>
             if max_path_ok file then mret (Some file)
             else _ ← log_line ("cannot report the save " +:+ file); mret None
         | Err reason => _ ← log_line ("saving the world failed: " +:+ reason); mret None
         end;
  send (AgentSaved (seq event) lanes file).

(** What the session does with what the gate hands over. *)
Definition react_to (gated : Gated) : HookM unit :=
  match gated with
  | GatedApply event =>
      match body event with
      | SaveWorld => save_world event
      | _ => call_game (CallApply event)
      end
  | GatedLoad file next_step => se_mod (λ s, s <| pending_load := Some (MkLoad file next_step) |>)
  | GatedSpeed speed => call_game (CallNotice (NoticeSpeed speed))
  | GatedDiverged step lanes => call_game (CallNotice (NoticeDiverged step lanes))
  | GatedRefused command reason => call_game (CallNotice (NoticeRefused command reason))
  | GatedEnded reason => call_game (CallNotice (NoticeEnded reason))
  | GatedChat from text => call_game (CallNotice (NoticeChat from text))
  | GatedNothing => mret tt
  end.

Definition handle_message (message : ToHook) : HookM unit :=
  s ← se_get;
  '(g, gated) ← se_lift SessionGate (on_message (gate s) message);
  _ ← se_mod (λ s, s <| gate := g |>);
  react_to gated.

(** What the loop of [poll_step] finds before it reads. *)
Definition standing (s : Session) : option StepGate :=
  if ended (gate s) then Some StepEnded
  else
    match pending_load s with
    | Some load => Some (StepLoad load)
    | None => if may_run (gate s) then Some StepRun else None
    end.

(** The loop: every round takes a message off the inbox. *)
Fixpoint poll_loop (waiting : list (list Z)) : HookM StepGate :=
  s ← se_get;
  match standing s with
  | Some g => mret g
  | None =>
      match waiting with
      | [] => _ ← check_agent; mret StepWait
      | bytes :: waiting =>
          _ ← se_mod (λ s, s <| inbox := waiting |>);
          message ← se_lift SessionMessage (decode_message bytes);
          _ ← handle_message message;
          poll_loop waiting
      end
  end.

Definition poll_step : HookM StepGate := s ← se_get; poll_loop (inbox s).

(** The world the gate ordered is loaded. *)
Definition loaded (next_step : Z) : HookM unit :=
  s ← se_get;
  match pending_load s with
  | None => se_err NotLoading
  | Some load =>
      if negb (load_next_step load =? next_step) then se_err (LoadedElsewhere (load_next_step load) next_step)
      else
        _ ← se_mod (λ s, s <| pending_load := None |> <| gate ::= λ g, gate_loaded g next_step |>);
        send (AgentLoaded next_step)
  end.

(** After the game ran its next step. *)
Definition after_step : HookM Z :=
  s ← se_get;
  '(g, step) ← se_lift SessionGate (gate_ran (gate s));
  _ ← se_mod (λ s, s <| gate := g |>);
  _ ← send (AgentRan step);
  _ ← (if step mod s_checkpoint_interval s =? 0
       then lanes ← game_lanes; send (AgentCheckpoint step lanes)
       else mret tt);
  mret step.

Definition command (payload : Payload) : HookM Z :=
  s ← se_get;
  let number := s_commands s in
  _ ← send (AgentCommand payload);
  _ ← se_mod (λ s, s <| s_commands := s_commands s + 1 |>);
  mret number.

Definition chat (text : Text) : HookM unit := send (AgentChat text).

(** [attach], once the link is open: the hellos. [None]: nothing to read yet. *)
Definition attach (build : Text) : HookM (option unit) :=
  _ ← send (AgentHello BRIDGE_VERSION build);
  s ← se_get;
  match inbox s with
  | [] => mret None
  | bytes :: waiting =>
      _ ← se_mod (λ s, s <| inbox := waiting |>);
      message ← se_lift SessionMessage (decode_message bytes);
      match message with
      | HookHello version => _ ← se_lift SessionMessage (check_version version); mret (Some tt)
      | _ => se_err (SessionUnexpected "something before its hello")
      end
  end.

Fixpoint wait_for_begin (waiting : list (list Z)) : HookM (option Begin) :=
  match waiting with
  | [] => mret None
  | bytes :: waiting =>
      _ ← se_mod (λ s, s <| inbox := waiting |>);
      message ← se_lift SessionMessage (decode_message bytes);
      match message with
      | HookBegin rules steps interval dir =>
          _ ← se_mod (λ s, s <| s_checkpoint_interval := Z.max interval 1 |> <| saves := dir |>);
          mret (Some (MkBegin rules steps interval dir))
      | HookChat _ _ => wait_for_begin waiting
      | _ => se_err (SessionUnexpected "something before the game began")
      end
  end.
End session.

Definition Session_new (beat : Z) (now : Instant) : Session :=
  MkSession (Gate_new 1) None "" u64_max (beat, now) 0 [] [] [].

(** * A game that follows the session

    As the crate's documentation has it: the game runs its next step only after
    the session said [StepRun], and loads a world only when it said so.  Bytes
    arrive at any time. *)
Inductive HookOp :=
  | Deliver (bytes : list Z)
  | Poll (now : Instant) (beat : Z)
  | RunStep
  | LoadWorld
  | PlayerActs (payload : Payload).

Record HookRun := MkHookRun {
  session : Session;
  answer : option StepGate;
  failed : option SessionError;
}.
#[export] Instance eta_HookRun : Eta HookRun := fun h => MkHookRun (session h) (answer h) (failed h).

Section game.
Context {PA : Postcard ToAgent} {PH : Postcard ToHook}.
Context (send_ends : nat → result unit SessionError).
Context (lanes_of : nat → list LaneDigest) (save_of : nat → result unit Text).
Context (max_path_ok : Text → bool) (patience : Duration).

Definition take_up {A} (h : HookRun) (m : HookM A) (next : A → option StepGate) : HookRun :=
  match m (session h) with
  | (s, Ok a) => h <| session := s |> <| answer := next a |>
  | (s, Err e) => h <| session := s |> <| answer := None |> <| failed := Some e |>
  end.

Definition hook_op (h : HookRun) (op : HookOp) : HookRun :=
  if bool_decide (failed h = None) then
    match op with
    | Deliver bytes => h <| session ::= λ s, s <| inbox := inbox s ++ [bytes] |> |>
    | Poll now beat =>
        take_up h (poll_step send_ends lanes_of save_of max_path_ok patience now beat) Some
    | RunStep =>
        match answer h with
        | Some StepRun =>
            take_up h (s ← se_get; _ ← call_game (CallRun (gate_next_step (gate s)));
                       after_step send_ends lanes_of) (λ _, None)
        | _ => h
        end
    | LoadWorld =>
        match answer h with
        | Some (StepLoad load) =>
            take_up h (_ ← call_game (CallLoad load); loaded send_ends (load_next_step load)) (λ _, None)
        | _ => h
        end
    | PlayerActs payload => take_up h (command send_ends payload) (λ _, answer h)
    end
  else h.

Definition hook_run : HookRun → list HookOp → HookRun := foldl hook_op.

(** What the game has done. *)
Definition deed_of (c : GameCall) : list Deed :=
  match c with
  | CallApply e => [Does (Apply e)]
  | CallSave e _ => [Does (Apply e)]
  | CallRun n => [Does (Execute n)]
  | CallLoad load => [Loads (load_next_step load)]
  | _ => []
  end.
Definition done (s : Session) : list Deed := calls_made s ≫= deed_of.

(** * Steps that leave the gate alone *)

(** The errors a working link and agent can still give. *)
Definition link_error (e : SessionError) : Prop :=
  match e with SessionTransfer | AgentGone | SessionMessage _ => True | _ => False end.
Hypothesis sends_fail : ∀ n e, send_ends n = Err e → link_error e.

(** [m] has the game do [ds], and touches neither the gate nor what is unread. *)
Definition quietly {A} (ds : list Deed) (m : HookM A) : Prop :=
  ∀ s, gate (m s).1 = gate s ∧ pending_load (m s).1 = pending_load s ∧ inbox (m s).1 = inbox s ∧
    done (m s).1 = done s ++ ds ∧ ∀ e, (m s).2 = Err e → link_error e.

Lemma quietly_ret {A} (a : A) : quietly [] (mret a).
Proof. intros s. cbn. by rewrite app_nil_r. Qed.

Lemma quietly_get : quietly [] se_get.
Proof. intros s. cbn. by rewrite app_nil_r. Qed.

Lemma quietly_bind {A B} ds (m : HookM A) (k : A → HookM B) :
  quietly ds m → (∀ a, quietly [] (k a)) → quietly ds (m ≫= k).
Proof.
  intros Hm Hk s. unfold mbind, SE_bind. destruct (Hm s) as (H1 & H2 & H3 & H4 & H5).
  destruct (m s) as [s1 [a | e]]; cbn in *; [| do 4 (split; [done |]); intros e' [= <-]; by apply H5].
  destruct (Hk a s1) as (K1 & K2 & K3 & K4 & K5). destruct (k a s1) as [s2 r]; cbn in *.
  rewrite K1, K2, K3, K4, H4, app_nil_r. auto.
Qed.

Lemma quietly_call c : quietly (deed_of c) (call_game c).
Proof. intros s. cbn. unfold done. cbn. rewrite bind_app, bind_cons, app_nil_r. done. Qed.

Lemma quietly_send m : quietly [] (send send_ends m).
Proof.
  unfold send. apply quietly_bind.
  - intros s. unfold se_lift. cbn. rewrite app_nil_r. do 4 (split; [done |]).
    destruct (encode_message m); intros e'; [done |]. by intros [= <-].
  - intros _ s. unfold mbind, SE_bind, se_get. destruct (send_ends (length (told s))) as [[] | e] eqn:E;
      unfold se_mod, se_err; cbn [fst snd]; (split; [done |]); (split; [done |]); (split; [done |]).
    + split; [by rewrite app_nil_r | done].
    + split; [by rewrite app_nil_r |]. intros e' [= <-]. by eapply sends_fail.
Qed.

Lemma quietly_lanes : quietly [] (game_lanes lanes_of).
Proof.
  unfold game_lanes. apply quietly_bind; [apply quietly_get |]. intros s.
  apply quietly_bind; [exact (quietly_call CallLanes) |]. intros _. apply quietly_ret.
Qed.

Lemma quietly_with {A} ds (k : Session → HookM A) : (∀ s0, quietly ds (k s0)) → quietly ds (se_get ≫= k).
Proof. intros Hk s. apply (Hk s s). Qed.

Lemma quietly_save e : quietly [Does (Apply e)] (save_world send_ends lanes_of save_of max_path_ok e).
Proof.
  unfold save_world. apply quietly_with. intros s.
  apply quietly_bind; [exact (quietly_call (CallSave e _)) |]. intros _.
  apply quietly_bind; [apply quietly_lanes |]. intros lanes. apply quietly_bind.
  - destruct (save_of (length (calls_made s))); [case_match; [apply quietly_ret |] |];
      (apply quietly_bind; [apply quietly_send | intros; apply quietly_ret]).
  - intros file. apply quietly_send.
Qed.

(** * The session and the messages it has read *)

(** Either a world is being loaded, and all that was said before it is done; or
    the steps released and not yet run are all that is left of what was said. *)
Record follows (s : Session) (read : list ToHook) : Prop := {
  fo_ok : stream_ok None read;
  fo_gate :
    match pending_load s with
    | Some load =>
        loading (gate s) = true ∧ stand None read = Some (load_next_step load - 1) ∧
        1 ≤ load_next_step load ≤ u64_max ∧ done s ++ [Loads (load_next_step load)] = deeds 0 read
    | None =>
        let r := default 0 (stand None read) in
        loading (gate s) = false ∧ released (gate s) = r ∧ 1 ≤ gate_next_step (gate s) ≤ r + 1 ∧
        r < u64_max ∧ done s ++ runs (gate_next_step (gate s) - 1) r = deeds 0 read
    end;
}.

(** What a message changed, if the session is waiting for one. *)
Definition after_read (s' : Session) (r : result unit SessionError) (read : list ToHook) : Prop :=
  match r with
  | Ok _ => follows s' read
  | Err e => link_error e ∧ (done s' `prefix_of` deeds 0 read)
  end.

Lemma quiet_read {A} s read m ds (k : HookM A) g :
  follows s read → pending_load s = None → owed (stand None read) m →
  stand_one (stand None read) m = stand None read →
  deeds (default 0 (stand None read)) [m] = ds →
  gate_next_step (gate s) = default 0 (stand None read) + 1 →
  loading g = false → released g = released (gate s) → gate_next_step g = gate_next_step (gate s) →
  quietly ds k → let '(s', r) := k (s <| gate := g |>) in
  inbox s' = inbox s ∧ after_read s' (match r with Ok _ => Ok tt | Err e => Err e end) (read ++ [m]).
Proof.
  intros [Hok Hg] Hp Ho Hst Hd Hn Hlo Hre Hne Hk. rewrite Hp in Hg. destruct Hg as (Hl & Hr & Hb & Hmax & Hdone).
  destruct (Hk (s <| gate := g |>)) as (K1 & K2 & K3 & K4 & K5). destruct (k _) as [s' r]. cbn [fst snd] in *.
  change (done (s <| gate := g |>)) with (done s) in K4.
  rewrite Hn, Z.add_simpl_r, runs_nil, app_nil_r in Hdone.
  pose proof (deeds_app None read [m]) as Ed. cbn [from_option id] in Ed. rewrite Hd, <- Hdone, <- K4 in Ed.
  split; [exact K3 |]. destruct r as [a | e]; cbn [after_read].
  - split; [apply stream_ok_app; by repeat split |]. rewrite stand_app. cbn [stand foldl]. rewrite Hst, K2.
    change (pending_load (s <| gate := g |>)) with (pending_load s). rewrite Hp. cbn zeta.
    rewrite K1. change (gate (s <| gate := g |>)) with g. rewrite Hlo, Hre, Hne, Hn, Z.add_simpl_r, runs_nil, app_nil_r.
    split; [done |]. split; [done |]. split; [lia |]. split; [done |]. by rewrite Ed.
  - split; [by apply K5 |]. by rewrite Ed.
Qed.

Lemma handle_eq m s :
  handle_message send_ends lanes_of save_of max_path_ok m s
  = match on_message (gate s) m with
    | Ok (g, gated) => react_to send_ends lanes_of save_of max_path_ok gated (s <| gate := g |>)
    | Err e => (s, Err (SessionGate e))
    end.
Proof.
  unfold handle_message, mbind, SE_bind, se_get, se_lift, se_mod.
  by destruct (on_message (gate s) m) as [[] |].
Qed.

Lemma handle_follows s read m :
  follows s read → standing s = None → owed (stand None read) m →
  let '(s', r) := handle_message send_ends lanes_of save_of max_path_ok m s in
  inbox s' = inbox s ∧ after_read s' r (read ++ [m]).
Proof.
  intros Hfo Hst Ho. unfold standing in Hst. destruct (ended (gate s)) eqn:Hen; [done |].
  destruct (pending_load s) eqn:Hp; [done |]. pose proof Hfo as [Hok Hg]. rewrite Hp in Hg.
  destruct Hg as (Hl & Hr & Hb & Hmax & Hdone). unfold may_run in Hst. rewrite Hen, Hl in Hst. cbn [negb andb] in Hst.
  destruct (Z.leb_spec (gate_next_step (gate s)) (released (gate s))) as [| Hlt]; [done |].
  assert (Hn : gate_next_step (gate s) = default 0 (stand None read) + 1) by lia.
  assert (Hquiet : ∀ g ds (k : HookM unit),
    stand_one (stand None read) m = stand None read → deeds (default 0 (stand None read)) [m] = ds →
    loading g = false → released g = released (gate s) → gate_next_step g = gate_next_step (gate s) →
    quietly ds k → let '(s', r) := k (s <| gate := g |>) in inbox s' = inbox s ∧ after_read s' r (read ++ [m])).
  { intros g ds k H1 H2 H3 H4 H5 H6. pose proof (quiet_read s read m ds k g Hfo Hp Ho H1 H2 Hn H3 H4 H5 H6) as H.
    destruct (k (s <| gate := g |>)) as [s' [[] | e]]; exact H. }
  rewrite handle_eq. unfold on_message. rewrite Hl. cbn [andb].
  destruct m as [| | e | t | | | | | f n |]; cbn [owed stand_one] in Ho; try done.
  - destruct Ho as (r & Er & He). rewrite Er in *. cbn [from_option id] in *.
    rewrite (proj2 (Z.eqb_eq _ _)) by lia. rewrite (proj2 (Z.leb_gt _ _)) by lia. cbn [negb react_to].
    apply (Hquiet _ [Does (Apply e)]); try done. destruct (body e); [exact (quietly_call (CallApply e)).. | apply quietly_save].
  - destruct Ho as (r & Er & Ht). rewrite Er in *. cbn [from_option id] in *. rewrite (proj2 (Z.ltb_ge _ _)) by lia.
    cbn. split; [done |]. rewrite Hn, Z.add_simpl_r, runs_nil, app_nil_r in Hdone.
    pose proof (deeds_app None read [HookRelease t]) as Ed. cbn [from_option id] in Ed. rewrite Er, <- Hdone in Ed. cbn in Ed.
    rewrite app_nil_r in Ed. split; [apply stream_ok_app; split; [done |]; cbn; rewrite Er; split; [by exists r | done] |].
    rewrite stand_app, Er. cbn. rewrite Hp. split; [done |]. split; [done |]. rewrite Hn, Z.add_simpl_r.
    split; [lia |]. split; [lia |]. by rewrite Ed.
  - by apply (Hquiet (gate s) []); [.. | exact (quietly_call (CallNotice _))].
  - by apply (Hquiet (gate s) []); [.. | exact (quietly_call (CallNotice _))].
  - by apply (Hquiet (gate s) []); [.. | exact (quietly_call (CallNotice _))].
  - by apply (Hquiet _ []); [.. | exact (quietly_call (CallNotice _))].
  - cbn. split; [done |]. rewrite Hn, Z.add_simpl_r, runs_nil, app_nil_r in Hdone.
    pose proof (deeds_app None read [HookLoad f n]) as Ed. cbn in Ed. rewrite <- Hdone in Ed.
    split; [apply stream_ok_app; split; [done |]; split; [exact Ho | done] |]. cbn. rewrite stand_app. by rewrite Ed.
  - by apply (Hquiet (gate s) []); [.. | exact (quietly_call (CallNotice _))].
Qed.

Definition decodes_to (bytes : list Z) (m : ToHook) : Prop := decode_message bytes = Ok m.

(** The session stands between what it has read and what it has not. *)
Definition between (s : Session) (read unread ms : list ToHook) : Prop :=
  read ++ unread = ms ∧ Forall2 decodes_to (inbox s) unread.

Lemma follows_same s s' read :
  gate s' = gate s → pending_load s' = pending_load s → done s' = done s → follows s read → follows s' read.
Proof. intros E1 E2 E3 [H1 H2]. split; [done |]. by rewrite E1, E2, E3. Qed.

Lemma follows_prefix s read ms : follows s read → read `prefix_of` ms → done s `prefix_of` deeds 0 ms.
Proof.
  intros [_ Hg] [rest ->]. rewrite deeds_app0.
  apply prefix_app_r. destruct (pending_load s).
  - destruct Hg as (_ & _ & _ & <-). by eexists.
  - destruct Hg as (_ & _ & _ & _ & <-). by eexists.
Qed.

Lemma deeds_prefix read ms : read `prefix_of` ms → deeds 0 read `prefix_of` deeds 0 ms.
Proof. intros [rest ->]. rewrite deeds_app0. by eexists. Qed.

(** What a poll leaves. *)
Definition polled (s' : Session) (r : result StepGate SessionError) (ms : list ToHook) : Prop :=
  match r with
  | Ok g => ∃ read unread, between s' read unread ms ∧ follows s' read ∧
      (standing s' = Some g ∨ g = StepWait ∧ unread = [] ∧ standing s' = None)
  | Err e => link_error e ∧ (done s' `prefix_of` deeds 0 ms)
  end.

Lemma poll_follows now beat s read unread ms :
  follows s read → between s read unread ms → stream_ok None ms →
  let '(s', r) := poll_loop send_ends lanes_of save_of max_path_ok patience now beat (inbox s) s in
  polled s' r ms.
Proof.
  intros Hfo [Hms Hdec] Hok. remember (inbox s) as waiting eqn:Hw. revert s read Hfo Hw Hms.
  induction Hdec as [| bytes m waiting unread Hm Hdec IH]; intros s read Hfo Hw Hms.
  - cbn [poll_loop]. unfold mbind, SE_bind, se_get. destruct (standing s) as [g |] eqn:Hst.
    + cbn. exists read, []. split; [split; [done |]; by rewrite <- Hw |]. split; [done |]. by left.
    + unfold check_agent, mbind, SE_bind, se_get, se_mod, se_err. destruct (negb _).
      * cbn. exists read, []. split; [split; [done | cbn; by rewrite <- Hw] |].
        split; [by apply (follows_same s) |]. right. done.
      * destruct (_ <? _); cbn.
        -- split; [done |]. eapply follows_prefix; [done |]. rewrite <- Hms, app_nil_r. done.
        -- exists read, []. split; [split; [done |]; by rewrite <- Hw |]. split; [done |]. by right.
  - cbn [poll_loop]. unfold mbind, SE_bind, se_get. destruct (standing s) as [g |] eqn:Hst.
    + cbn. exists read, (m :: unread). split; [split; [done |]; rewrite <- Hw; by constructor |].
      split; [done |]. by left.
    + cbn [se_mod]. unfold se_mod, se_lift. rewrite Hm.
      set (s1 := s <| inbox := waiting |>).
      assert (Hf1 : follows s1 read) by (by apply (follows_same s)).
      assert (Ho : owed (stand None read) m).
      { rewrite <- Hms in Hok. by apply stream_ok_app in Hok as [_ [Ho _]]. }
      pose proof (handle_follows s1 read m Hf1 Hst Ho) as Hh.
      destruct (handle_message send_ends lanes_of save_of max_path_ok m s1) as [s2 [[] | e]]; destruct Hh as [Hi Hh].
      * apply (IH s2 (read ++ [m])); [done | done |]. rewrite <- app_assoc. done.
      * destruct Hh as [He Hp]. split; [done |]. etransitivity; [exact Hp |]. apply deeds_prefix.
        exists unread. by rewrite <- app_assoc.
Qed.

(** The game ran the step the gate let it run. *)
Lemma run_follows s read :
  follows s read → standing s = Some StepRun →
  let '(s', r) := (s ← se_get; _ ← call_game (CallRun (gate_next_step (gate s)));
                   after_step send_ends lanes_of) s in
  inbox s' = inbox s ∧
  match r with
  | Ok _ => follows s' read
  | Err e => link_error e ∧ (done s' `prefix_of` deeds 0 read)
  end.
Proof.
  intros [Hok Hg] Hst. unfold standing in Hst. destruct (ended (gate s)) eqn:Hen; [done |].
  destruct (pending_load s) eqn:Hp; [done |]. destruct Hg as (Hl & Hr & Hb & Hmax & Hdone).
  unfold may_run in Hst. rewrite Hen, Hl in Hst. cbn [negb andb] in Hst.
  destruct (Z.leb_spec (gate_next_step (gate s)) (released (gate s))) as [Hle |]; [| done].
  set (n := gate_next_step (gate s)) in *. set (r := default 0 (stand None read)) in *.
  set (g := (gate s) <| gate_next_step := n + 1 |>).
  set (k := (_ ← send send_ends (AgentRan n);
    _ ← (if n mod s_checkpoint_interval s =? 0
         then lanes ← game_lanes lanes_of; send send_ends (AgentCheckpoint n lanes) else mret tt);
    mret n) : HookM Z).
  assert (Hq : quietly [] k).
  { apply quietly_bind; [apply quietly_send |]. intros _. apply quietly_bind; [| intros; apply quietly_ret].
    destruct (_ =? 0); [| apply quietly_ret]. apply quietly_bind; [apply quietly_lanes | intros; apply quietly_send]. }
  set (s1 := s <| calls_made ::= λ l, l ++ [CallRun n] |> <| gate := g |>).
  assert (E : (s ← se_get; _ ← call_game (CallRun (gate_next_step (gate s))); after_step send_ends lanes_of) s = k s1).
  { unfold after_step at 1. unfold mbind, SE_bind, se_get, call_game, se_mod, se_lift. cbn [gate].
    unfold gate_ran. change (gate (s <| calls_made ::= _ |>)) with (gate s). fold n.
    unfold checked_add_u64. rewrite (proj2 (Z.leb_le _ _)) by lia. done. }
  rewrite E. destruct (Hq s1) as (Q1 & Q2 & Q3 & Q4 & Q5). destruct (k s1) as [s' res]. cbn [fst snd] in *.
  assert (Ed : done s1 = done s ++ [Does (Execute n)])
    by (unfold done; subst s1; cbn; rewrite bind_app; reflexivity).
  rewrite app_nil_r, Ed in Q4. split; [exact Q3 |].
  assert (Hruns : runs (n - 1) r = Does (Execute n) :: runs n r).
  { rewrite runs_cons by lia. do 3 f_equal; lia. }
  rewrite Hruns in Hdone. destruct res as [a | e].
  - split; [done |]. rewrite Q1, Q2. change (pending_load s1) with (pending_load s). rewrite Hp.
    change (gate s1) with g. cbn. fold r. split; [done |]. split; [done |]. split; [lia |]. split; [done |].
    rewrite Q4, Z.add_simpl_r, <- app_assoc. exact Hdone.
  - split; [by apply Q5 |]. rewrite Q4, <- Hdone. exists (runs n r). by rewrite <- app_assoc.
Qed.

(** The game loaded the world it was told to. *)
Lemma load_follows s read load :
  follows s read → pending_load s = Some load →
  let '(s', r) := (_ ← call_game (CallLoad load); loaded send_ends (load_next_step load)) s in
  inbox s' = inbox s ∧
  match r with
  | Ok _ => follows s' read
  | Err e => link_error e ∧ (done s' `prefix_of` deeds 0 read)
  end.
Proof.
  intros [Hok Hg] Hp. rewrite Hp in Hg. destruct Hg as (Hl & Hst & Hn & Hdone).
  set (n := load_next_step load) in *.
  set (s1 := s <| calls_made ::= λ l, l ++ [CallLoad load] |> <| pending_load := None |>
    <| gate ::= λ g, gate_loaded g n |>).
  assert (E : (_ ← call_game (CallLoad load); loaded send_ends n) s = send send_ends (AgentLoaded n) s1).
  { unfold loaded, mbind, SE_bind, se_get, call_game, se_mod, se_err.
    change (pending_load (s <| calls_made ::= _ |>)) with (pending_load s). rewrite Hp. fold n.
    rewrite Z.eqb_refl. done. }
  rewrite E. destruct (quietly_send (AgentLoaded n) s1) as (Q1 & Q2 & Q3 & Q4 & Q5).
  destruct (send send_ends (AgentLoaded n) s1) as [s' res]. cbn [fst snd] in *.
  assert (Ed : done s1 = done s ++ [Loads n]) by (unfold done; subst s1; cbn; rewrite bind_app; reflexivity).
  rewrite app_nil_r, Ed, Hdone in Q4. split; [exact Q3 |]. destruct res as [[] | e].
  - split; [done |]. rewrite Q1, Q2, Q4, Hst. cbn. unfold saturating_sub_u64. rewrite Z.max_l by lia.
    split; [done |]. split; [done |]. split; [lia |]. split; [lia |]. by rewrite runs_nil, app_nil_r.
  - split; [by apply Q5 |]. by rewrite Q4.
Qed.

Definition delivered (ops : list HookOp) : list (list Z) :=
  omap (λ op, match op with Deliver bytes => Some bytes | _ => None end) ops.

(** A run of the hook, all that it was sent being [ms]. *)
Definition run_ok (h : HookRun) (ms : list ToHook) : Prop :=
  match failed h with
  | Some e => link_error e ∧ (done (session h) `prefix_of` deeds 0 ms)
  | None => ∃ read unread, between (session h) read unread ms ∧ follows (session h) read ∧
      match answer h with
      | Some StepRun => standing (session h) = Some StepRun
      | Some (StepLoad load) => pending_load (session h) = Some load
      | _ => True
      end
  end.

Lemma take_up_ok {A} h (m : HookM A) next ms read unread :
  read ++ unread = ms → Forall2 decodes_to (inbox (session h)) unread → failed h = None →
  (let '(s', r) := m (session h) in
   inbox s' = inbox (session h) ∧
   match r with
   | Ok _ => follows s' read
   | Err e => link_error e ∧ (done s' `prefix_of` deeds 0 read)
   end) →
  (∀ a s', m (session h) = (s', Ok a) →
    match next a with
    | Some StepRun => standing s' = Some StepRun
    | Some (StepLoad load) => pending_load s' = Some load
    | _ => True
    end) →
  run_ok (take_up h m next) ms.
Proof.
  intros Hms Hdec Hfail Hm Hnext. unfold take_up. destruct (m (session h)) as [s' [a | e]]; destruct Hm as [Hi Hm].
  - unfold run_ok. cbn. rewrite Hfail. exists read, unread. split; [split; [done |]; cbn; by rewrite Hi |].
    split; [exact Hm |]. by apply Hnext.
  - unfold run_ok. cbn. destruct Hm as [He Hp]. split; [done |]. etransitivity; [exact Hp |].
    apply deeds_prefix. exists unread. done.
Qed.

Lemma command_quietly payload : quietly [] (command send_ends payload).
Proof.
  unfold command. apply quietly_with. intros s. apply quietly_bind; [apply quietly_send |]. intros _.
  apply quietly_bind; [| intros; apply quietly_ret]. intros s1. cbn. by rewrite app_nil_r.
Qed.

Lemma hook_op_ok h op ms ms' :
  run_ok h ms → Forall2 decodes_to (delivered [op]) ms' → stream_ok None (ms ++ ms') →
  run_ok (hook_op h op) (ms ++ ms').
Proof.
  intros Hr Hdec Hok. unfold hook_op. unfold run_ok in Hr.
  destruct (failed h) as [e |] eqn:Hf.
  { rewrite bool_decide_false by done. unfold run_ok. rewrite Hf. destruct Hr as [He Hp]. split; [done |].
    etransitivity; [exact Hp |]. apply deeds_prefix. by eexists. }
  rewrite bool_decide_true by done. destruct Hr as (read & unread & [Hms Hin] & Hfo & Hans).
  assert (Hno : (∀ bytes, op ≠ Deliver bytes) → ms' = []).
  { intros Hne. destruct op; [by destruct (Hne bytes) |..]; by inversion Hdec. }
  assert (Hsame : (∀ bytes, op ≠ Deliver bytes) → run_ok h (ms ++ ms')).
  { intros Hne. rewrite (Hno Hne), app_nil_r. unfold run_ok. rewrite Hf. by exists read, unread. }
  destruct op as [bytes | now beat | | | payload].
  - inversion Hdec as [| ? m ? ? Hm Hnil]; subst. inversion Hnil; subst. unfold run_ok. cbn. rewrite Hf.
    exists read, (unread ++ [m]). split; [split; [by rewrite app_assoc | cbn; by apply Forall2_app; [| constructor]] |].
    split; [by apply (follows_same (session h)) | exact Hans].
  - rewrite Hno, app_nil_r in Hok |- * by done. unfold take_up, poll_step, mbind, SE_bind, se_get.
    pose proof (poll_follows now beat (session h) read unread ms Hfo (conj Hms Hin) Hok) as Hp.
    destruct (poll_loop _ _ _ _ _ _ _ _ _) as [s' [g | e]]; unfold run_ok; cbn.
    + rewrite Hf. destruct Hp as (read' & unread' & Hb & Hfo' & Hg). exists read', unread'. split; [done |]. split; [done |].
      destruct Hg as [Hg | (-> & _)]; [| done]. destruct g; [done | done | done |].
      unfold standing in Hg. destruct (ended _); [done |]. destruct (pending_load s'); [by injection Hg as -> |].
      by destruct (may_run _).
    + exact Hp.
  - destruct (answer h) as [[] |] eqn:Ea; try by apply Hsame.
    rewrite Hno, app_nil_r by done. apply (take_up_ok _ _ _ _ read unread); [done | done | done | | done].
    by apply run_follows.
  - destruct (answer h) as [[| | | load] |] eqn:Ea; try by apply Hsame.
    rewrite Hno, app_nil_r by done. apply (take_up_ok _ _ _ _ read unread); [done | done | done | | done].
    by apply load_follows.
  - rewrite Hno, app_nil_r by done. destruct (command_quietly payload (session h)) as (Q1 & Q2 & Q3 & Q4 & Q5).
    rewrite app_nil_r in Q4. apply (take_up_ok _ _ _ _ read unread); [done | done | done | |].
    + destruct (command send_ends payload (session h)) as [s' [a | e]]; cbn in *; (split; [done |]).
      * by apply (follows_same (session h)).
      * split; [by apply Q5 |]. rewrite Q4. by eapply follows_prefix.
    + intros a s' E. rewrite E in *. cbn in *. destruct (answer h) as [[] |]; try done.
      * unfold standing. rewrite Q1, Q2. exact Hans.
      * by rewrite Q2.
Qed.

Lemma hook_run_ok ops h ms ms' :
  run_ok h ms → Forall2 decodes_to (delivered ops) ms' → stream_ok None (ms ++ ms') →
  run_ok (hook_run h ops) (ms ++ ms').
Proof.
  revert h ms ms'. induction ops as [| op ops IH]; intros h ms ms' Hr Hdec Hok.
  - inversion Hdec; subst. by rewrite app_nil_r.
  - change (op :: ops) with ([op] ++ ops) in Hdec. unfold delivered in Hdec. rewrite omap_app in Hdec.
    apply Forall2_app_inv_l in Hdec as (m1 & m2 & H1 & H2 & ->). rewrite app_assoc in Hok |- *.
    cbn [hook_run foldl]. apply IH; [| done | done]. apply hook_op_ok; [done | done |].
    by apply stream_ok_app in Hok as [? _].
Qed.

Lemma Session_new_ok beat now : run_ok (MkHookRun (Session_new beat now) None None) [].
Proof. cbn. exists [], []. repeat split; cbn; try done; constructor. Qed.

(** a game behind its gate does what the agent's messages say, in order.
    Whatever the agent sends that keeps its side of the gate's contract, however
    arrivals, polls, steps, loads and the player's own actions interleave, and
    whether or not the game manages to save: what the game has done is a prefix of
    what the messages instruct, every event between the two steps it belongs to
    and every world loaded where it stands among them; it has done all of it when
    a poll finds nothing to do; and the session never fails but for the link. *)
Theorem game_follows_agent (ops : list HookOp) (ms : list ToHook) (beat : Z) (now : Instant) :
  Forall2 decodes_to (delivered ops) ms → stream_ok None ms →
  let h := hook_run (MkHookRun (Session_new beat now) None None) ops in
  (done (session h) `prefix_of` deeds 0 ms) ∧
  (∀ e, failed h = Some e → link_error e) ∧
  (failed h = None → inbox (session h) = [] → standing (session h) = None → done (session h) = deeds 0 ms).
Proof.
  intros Hdec Hok h. pose proof (hook_run_ok ops _ [] ms (Session_new_ok beat now) Hdec Hok) as Hr.
  fold h in Hr. cbn [app] in Hr. unfold run_ok in Hr. destruct (failed h) as [e |].
  - destruct Hr as [He Hp]. split; [done |]. split; [by intros ? [= <-] | done].
  - destruct Hr as (read & unread & [<- Hin] & Hfo & _). split; [by eapply follows_prefix; [| eexists] |].
    split; [done |]. intros _ Hempty Hst. rewrite Hempty in Hin. inversion Hin; subst. rewrite app_nil_r.
    destruct Hfo as [_ Hg]. unfold standing in Hst. destruct (ended _) eqn:Hen; [done |].
    destruct (pending_load _); [done |]. destruct Hg as (Hl & Hrel & Hb & _ & <-).
    unfold may_run in Hst. rewrite Hen, Hl in Hst. cbn [negb andb] in Hst. rewrite Hrel in Hst.
    destruct (Z.leb_spec (gate_next_step (gate (session h))) (default 0 (stand None read))); [done |].
    replace (gate_next_step (gate (session h)) - 1) with (default 0 (stand None read)) by lia.
    by rewrite runs_nil, app_nil_r.
Qed.
End game.

Module HookExample.
Import ConcreteBridge.
Definition road : Event := MkEvent 1 3 (Command 5 0 [42]).
Definition messages : list ToHook := [HookLoad None 3; HookApply road; HookSpeed 200; HookRelease 4].
Definition ops : list HookOp :=
  [Deliver (Codec.encode (HookLoad None 3)); Poll 0 1; Deliver (Codec.encode (HookApply road)); LoadWorld; Poll 0 1;
   PlayerActs [1]; Deliver (Codec.encode (HookSpeed 200)); Deliver (Codec.encode (HookRelease 4)); Poll 0 1; RunStep;
   Poll 0 1; RunStep; Poll 0 1].
Definition ran : HookRun :=
  hook_run (λ _, Ok tt) (λ _, []) (λ _, Ok tt) (λ _, true) 1000 (MkHookRun (Session_new 0 0) None None) ops.
End HookExample.

(** A world at step 3, an event, and two steps. *)
Lemma game_follows_agent_witness :
  let h := HookExample.ran in
  done (session h) = [Loads 3; Does (Apply HookExample.road); Does (Execute 3); Does (Execute 4)] ∧
  (done (session h) `prefix_of` deeds 0 HookExample.messages) ∧
  (∀ e, failed h = Some e → link_error e) ∧
  (failed h = None → inbox (session h) = [] → standing (session h) = None →
   done (session h) = deeds 0 HookExample.messages).
Proof.
  intros h. split; [vm_compute; reflexivity |].
  apply (game_follows_agent (λ _, Ok tt) (λ _, []) (λ _, Ok tt) (λ _, true) 1000); [done | |].
  - cbn. repeat constructor.
  - cbn. unfold u64_max. repeat split; try lia; by eexists.
Defined.
