(* ===== verification/Playout.v ===== *)
(** When a client plays each sealed step ([crates/tpf3mp-agent/src/playout.rs]):
    a jitter buffer that stays as far behind the frontier as the latest arrival
    of the recent past.

    Which instants the platform's clock can represent is an argument, as
    [checked_add] and [checked_sub] depend on it; sums the code takes without a
    check are exact here. *)
From S2P Require Import Prelude Proto.
Local Open Scope Z_scope.

Definition CONVERGE_PERCENT : Z := 105.
Definition FAST_FORWARD : Duration := from_secs 1.

Record Playout := MkPlayout {
  po_steps_per_second : Z;
  margin : Duration;
  memory : Duration;
  po_pace : Speed;
  paused : bool;
  frontier : Z;
  po_base : option Z;
  recent : list (Instant * Instant);
  po_played : option (Z * Instant);
}.
#[export] Instance eta_Playout : Eta Playout := fun p =>
  MkPlayout (po_steps_per_second p) (margin p) (memory p) (po_pace p) (paused p) (frontier p) (po_base p)
    (recent p) (po_played p).

Definition Playout_new (steps_per_second : Z) (margin memory : Duration) : Playout :=
  MkPlayout (Z.max steps_per_second 1) margin memory NORMAL false 0 None [] None.

(** [remember]'s first loop: arrivals that are not later than this one go. *)
Fixpoint pop_back_while (implied : Instant) (l : list (Instant * Instant)) : list (Instant * Instant) :=
  match l with
  | [] => []
  | x :: l =>
      match pop_back_while implied l with
      | [] => if x.2 <=? implied then [] else [x]
      | l => x :: l
      end
  end.

(** The second: arrivals too long ago go, but the latest stays. *)
Fixpoint pop_front_while (memory : Duration) (now : Instant) (l : list (Instant * Instant)) :
    list (Instant * Instant) :=
  match l with
  | x :: (_ :: _) as rest =>
      if memory <? saturating_duration_since now x.1 then pop_front_while memory now rest else l
  | _ => l
  end.

Definition remember_arrival (p : Playout) (now implied : Instant) : Playout :=
  p <| recent := pop_front_while (memory p) now (pop_back_while implied (recent p) ++ [(now, implied)]) |>.

Definition from_micros (us : Z) : Duration := us * 1000.

(** The time [steps] take at the pace, sped up to [percent]. *)
Definition span (p : Playout) (steps percent : Z) : Duration :=
  let units := po_steps_per_second p * Z.max (po_pace p) 1 * percent in
  let micros := steps * 10000000000 / units in
  from_micros (Z.min micros u64_max).

Section clock.
Context (representable : Instant → bool).

Definition checked_at (at_ : Instant) : option Instant := if representable at_ then Some at_ else None.

Definition earlier (p : Playout) (at_ : Instant) (steps : Z) : Instant :=
  default at_ (checked_at (at_ - span p steps 100)).

(** A new schedule at the current pace. *)
Definition rebase_schedule (p : Playout) (now : Instant) : Playout :=
  let p := p <| recent := [] |> in
  match po_played p with
  | None => p <| po_base := None |>
  | Some (played, last) =>
      let next := Z.max (last + span p 1 100) now in
      remember_arrival (p <| po_base := Some (played + 1) |>) now (default next (checked_at (next - margin p)))
  end.

(** A turn was accepted. *)
Definition on_turn (p : Playout) (sealed_through : Z) (speed : Speed) (now : Instant) : Playout :=
  let p := if speed =? PAUSED then p <| paused := true |>
           else if paused p || negb (speed =? po_pace p)
           then rebase_schedule (p <| paused := false |> <| po_pace := speed |>) now
           else p in
  if sealed_through <=? frontier p then p
  else
    let p := p <| frontier := sealed_through |> in
    let base := default sealed_through (po_base p) in
    let p := p <| po_base := Some base |> in
    let implied := earlier p now (saturating_sub_u64 sealed_through base) in
    remember_arrival p now implied.

(** When the latest recent arrival, carried forward at pace, has [step] arrive,
    plus the margin. *)
Definition ideal (p : Playout) (step : Z) : option Instant :=
  base ← po_base p;
  x ← head (recent p);
  arrived ← (if base <=? step then checked_at (x.2 + span p (step - base) 100)
             else Some (earlier p x.2 (base - step)));
  checked_at (arrived + margin p).

Definition due (p : Playout) (step : Z) (now : Instant) : option Instant :=
  if frontier p <? step then None
  else
    match ideal p step with
    | None => Some now
    | Some ideal =>
        let converging := match checked_at (ideal + FAST_FORWARD) with Some by_ => now <? by_ | None => false end in
        Some (match po_played p with
              | Some (_, last) => if converging then Z.max ideal (last + span p 1 CONVERGE_PERCENT) else ideal
              | None => ideal
              end)
    end.

Definition played (p : Playout) (step : Z) (due : Instant) : Playout := p <| po_played := Some (step, due) |>.
End clock.

(** * The buffer is a sliding maximum *)

(** All arrivals of a schedule, oldest first. *)
Definition remember_all (p : Playout) (arrivals : list (Instant * Instant)) : Playout :=
  foldl (λ p a, remember_arrival p a.1 a.2) p arrivals.

(** The arrivals no more than [memory] ago. *)
Definition in_memory (memory : Duration) (now : Instant) (arrivals : list (Instant * Instant)) : list Instant :=
  snd <$> List.filter (λ a, saturating_duration_since now a.1 <=? memory) arrivals.

(** [m] is the latest of [l]. *)
Definition latest (l : list Instant) (m : Instant) : Prop := m ∈ l ∧ Forall (λ x, x ≤ m) l.

Definition age (now : Instant) (a : Instant * Instant) : Duration := saturating_duration_since now a.1.

(** Earlier arrivals in front, and each later than the ones behind it. *)
Definition falling (x y : Instant * Instant) : Prop := y.2 < x.2 ∧ x.1 ≤ y.1.

Lemma pop_back_spec implied l :
  ∃ dropped, l = pop_back_while implied l ++ dropped ∧ Forall (λ x, x.2 ≤ implied) dropped ∧
    (∀ x, last (pop_back_while implied l) = Some x → implied < x.2).
Proof.
  induction l as [| x l (dropped & IH1 & IH2 & IH3)]; [by exists [] |]. cbn [pop_back_while].
  destruct (pop_back_while implied l) as [| y k] eqn:E.
  - destruct (Z.leb_spec x.2 implied).
    + exists (x :: l). split; [done |]. cbn in IH1. subst dropped. split; [by constructor | done].
    + exists l. cbn in IH1. subst dropped. split; [done |]. split; [done |]. by intros ? [= <-].
  - exists dropped. split; [cbn; by rewrite IH1 at 1 |]. split; [done |]. intros z Hz. apply IH3.
    by rewrite last_cons_cons in Hz.
Qed.

Lemma falling_snoc l x : StronglySorted falling l → Forall (λ y, falling y x) l → StronglySorted falling (l ++ [x]).
Proof.
  induction 1 as [| y l Hl IH Hy]; intros Hx; cbn; [repeat constructor |].
  apply Forall_cons in Hx as [Hyx Hx]. constructor; [by apply IH |]. apply Forall_app. split; [done | constructor; [done | constructor]].
Qed.

Lemma falling_app l k : StronglySorted falling (l ++ k) → StronglySorted falling l ∧ StronglySorted falling k.
Proof.
  induction l as [| x l IH]; cbn; [by repeat constructor |]. intros [H1 H2]%StronglySorted_inv.
  apply IH in H1 as [? ?]. split; [| done]. constructor; [done |]. by apply Forall_app in H2 as [? _].
Qed.

Lemma falling_last l z : StronglySorted falling l → last l = Some z → Forall (λ x, z.2 ≤ x.2 ∧ x.1 ≤ z.1) l.
Proof.
  induction 1 as [| x l Hl IH Hx]; intros Hz; [constructor |]. destruct l as [| y l].
  - injection Hz as ->. repeat constructor; lia.
  - rewrite last_cons_cons in Hz. specialize (IH Hz). constructor; [| done].
    apply last_Some_elem_of in Hz. rewrite Forall_forall in Hx. specialize (Hx _ Hz). unfold falling in Hx. lia.
Qed.

Lemma pop_front_spec memory now l :
  0 ≤ memory → StronglySorted falling l → (∀ z, last l = Some z → z.1 = now) →
  let k := pop_front_while memory now l in
  ∃ dropped, l = dropped ++ k ∧ Forall (λ x, memory < age now x) dropped ∧ Forall (λ x, age now x ≤ memory) k ∧
    last k = last l.
Proof.
  intros Hm Hs. induction Hs as [| x l Hl IH Hx]; intros Hz k; [by exists [] |].
  destruct l as [| y l].
  - exists []. subst k. cbn. split; [done |]. split; [constructor |]. split; [| done].
    specialize (Hz x eq_refl). repeat constructor. unfold age, saturating_duration_since. lia.
  - subst k. cbn [pop_front_while]. fold (age now x). destruct (Z.ltb_spec memory (age now x)) as [Hold | Hyoung].
    + destruct IH as (dropped & E & Hd & Hk & Hlast); [intros z; rewrite <- (last_cons_cons x y l); apply Hz |].
      exists (x :: dropped). split; [cbn; by rewrite E at 1 |]. split; [by constructor |]. split; [done |].
      rewrite last_cons_cons. done.
    + exists []. split; [done |]. split; [constructor |]. split; [| done]. constructor; [done |].
      eapply Forall_impl; [exact Hx |]. intros z [_ Hz1]. unfold age, saturating_duration_since in *. lia.
Qed.

(** What the deque keeps of the arrivals so far, the last of them at [now]. *)
Record keeps_latest (memory : Duration) (now : Instant) (arrivals l : list (Instant * Instant)) : Prop := {
  kl_falling : StronglySorted falling l;
  kl_from : ∀ x, x ∈ l → x ∈ arrivals;
  kl_young : Forall (λ x, age now x ≤ memory) l;
  kl_past : Forall (λ a, a.1 ≤ now) arrivals;
  kl_covers : ∀ a, a ∈ arrivals → age now a ≤ memory → ∃ x, x ∈ l ∧ a.2 ≤ x.2 ∧ a.1 ≤ x.1;
}.

Lemma remember_keeps p now arrivals t implied :
  0 ≤ memory p → keeps_latest (memory p) now arrivals (recent p) → now ≤ t →
  keeps_latest (memory p) t (arrivals ++ [(t, implied)]) (recent (remember_arrival p t implied)).
Proof.
  intros Hm [Hf Hfrom Hy Hpast Hcov] Ht. cbn.
  destruct (pop_back_spec implied (recent p)) as (back & Eb & Hback & Hlast).
  set (kept := pop_back_while implied (recent p)) in *. rewrite Eb in Hf. apply falling_app in Hf as [Hf _].
  assert (Hpastk : ∀ x, x ∈ kept → x.1 ≤ now).
  { intros x Hx. rewrite Forall_forall in Hpast. apply Hpast, Hfrom. rewrite Eb. set_solver. }
  assert (Hs : StronglySorted falling (kept ++ [(t, implied)])).
  { apply falling_snoc; [done |]. destruct (last kept) as [z |] eqn:El.
    - specialize (Hlast z eq_refl). pose proof (falling_last _ _ Hf El) as Hall.
      rewrite Forall_forall in Hall |- *. intros x Hx. specialize (Hall x Hx). specialize (Hpastk x Hx).
      unfold falling. cbn. lia.
    - apply last_None in El. rewrite El. constructor. }
  destruct (pop_front_spec (memory p) t (kept ++ [(t, implied)]) Hm Hs) as (front & Ef & Hfront & Hyoung & _).
  { intros z. rewrite last_snoc. by intros [= <-]. }
  set (l := pop_front_while _ _ _) in *. split.
  - rewrite Ef in Hs. by apply falling_app in Hs as [_ ?].
  - intros x Hx. assert (x ∈ kept ++ [(t, implied)]) as Hin by (rewrite Ef; set_solver).
    apply elem_of_app in Hin as [Hin | Hin]; [| set_solver]. apply elem_of_app. left. apply Hfrom. rewrite Eb. set_solver.
  - done.
  - apply Forall_app. split; [eapply Forall_impl; [exact Hpast |]; cbn; lia | repeat constructor; cbn; lia].
  - intros a Ha Hage.
    assert (Hstay : ∀ x, x ∈ kept ++ [(t, implied)] → a.1 ≤ x.1 → a.2 ≤ x.2 → ∃ x, x ∈ l ∧ a.2 ≤ x.2 ∧ a.1 ≤ x.1).
    { intros x Hx H1 H2. rewrite Ef in Hx. apply elem_of_app in Hx as [Hx | Hx]; [| by exists x].
      rewrite Forall_forall in Hfront. specialize (Hfront x Hx). unfold age, saturating_duration_since in *. lia. }
    apply elem_of_app in Ha as [Ha | Ha].
    + destruct (Hcov a Ha) as (x & Hx & H2 & H1); [unfold age, saturating_duration_since in *; lia |].
      rewrite Eb in Hx. apply elem_of_app in Hx as [Hx | Hx].
      * apply (Hstay x); [set_solver | done | done].
      * rewrite Forall_forall in Hback, Hpast. specialize (Hback x Hx). specialize (Hpast a Ha).
        apply (Hstay (t, implied)); [set_solver | cbn; lia | cbn; lia].
    + apply list_elem_of_singleton in Ha as ->. apply (Hstay (t, implied)); [set_solver | done | done].
Qed.

(** The clock does not go back between arrivals. *)
Fixpoint in_time (now : Instant) (arrivals : list (Instant * Instant)) : Prop :=
  match arrivals with
  | [] => True
  | a :: arrivals => now ≤ a.1 ∧ in_time a.1 arrivals
  end.

Lemma remember_all_keeps arrivals p now past :
  0 ≤ memory p → keeps_latest (memory p) now past (recent p) → in_time now arrivals →
  keeps_latest (memory p) (default now (fst <$> last arrivals)) (past ++ arrivals) (recent (remember_all p arrivals)).
Proof.
  revert p now past. induction arrivals as [| [t implied] arrivals IH]; intros p now past Hm Hk Ht.
  - cbn. by rewrite app_nil_r.
  - destruct Ht as [Ht Hin]. cbn in Ht, Hin. cbn [remember_all foldl].
    pose proof (IH (remember_arrival p t implied) t (past ++ [(t, implied)]) Hm
      (remember_keeps p now past t implied Hm Hk Ht) Hin) as H.
    rewrite <- app_assoc in H. cbn [app] in H.
    replace (default now (fst <$> last ((t, implied) :: arrivals))) with (default t (fst <$> last arrivals)); [done |].
    rewrite last_cons. by destruct (last arrivals).
Qed.

(** C35: the jitter buffer holds back for the latest recent arrival and for
    nothing else.  After any arrivals on a clock that does not go back, the
    deque's front is the latest of all the arrivals no more than [memory] ago,
    which is what a search of the whole history finds: a late turn is forgotten
    exactly when it is that old, and never before. *)
Theorem playout_sliding_max (p : Playout) (arrivals : list (Instant * Instant)) (last_at : Instant) (implied : Instant) :
  0 ≤ memory p → recent p = [] → in_time 0 (arrivals ++ [(last_at, implied)]) →
  let history := arrivals ++ [(last_at, implied)] in
  ∃ x, head (recent (remember_all p history)) = Some x ∧
    latest (in_memory (memory p) last_at history) x.2.
Proof.
  intros Hm Hr Ht history.
  assert (keeps_latest (memory p) 0 [] (recent p)) as H0 by (rewrite Hr; split; try constructor; set_solver).
  pose proof (remember_all_keeps history p 0 [] Hm H0 Ht) as Hk.
  assert (default 0 (fst <$> last history) = last_at) as El by (unfold history; by rewrite last_snoc).
  rewrite El in Hk. destruct Hk as [Hf Hfrom Hy Hpast Hcov]. cbn [app] in *.
  set (l := recent (remember_all p history)) in *.
  assert (Hin : ∀ v, v ∈ in_memory (memory p) last_at history ↔ ∃ a, a ∈ history ∧ age last_at a ≤ memory p ∧ v = a.2).
  { intros v. unfold in_memory. rewrite list_elem_of_fmap. split.
    - intros (a & -> & Ha). apply list_elem_of_In, filter_In in Ha as [Ha Hle]. exists a.
      split; [by apply list_elem_of_In |]. split; [apply Z.leb_le, Hle | done].
    - intros (a & Ha & Hle & ->). exists a. split; [done |]. apply list_elem_of_In, filter_In.
      split; [by apply list_elem_of_In | by apply Z.leb_le]. }
  destruct (Hcov (last_at, implied)) as (x0 & Hx0 & _).
  { unfold history. set_solver. }
  { unfold age, saturating_duration_since. cbn. lia. }
  destruct l as [| x l]; [by apply not_elem_of_nil in Hx0 |]. exists x. split; [done |]. split.
  - apply Hin. exists x. split; [apply Hfrom; by left |]. apply Forall_cons in Hy as [? _]. done.
  - apply Forall_forall. intros v (a & Ha & Hle & ->)%Hin. destruct (Hcov a Ha Hle) as (y & Hyl & H2 & _).
    apply elem_of_cons in Hyl as [-> | Hyl]; [done |]. apply StronglySorted_inv in Hf as [_ Hx].
    rewrite Forall_forall in Hx. destruct (Hx y Hyl). lia.
Qed.

(** Three turns, the second one late: it is held back for until it is too old. *)
Lemma playout_sliding_max_witness :
  let p := Playout_new 10 0 100 in
  let history := [(10, 5); (20, 19); (60, 30)] ++ [(110, 90)] in
  head (recent (remember_all p history)) = Some (110, 90) ∧
  ∃ x, head (recent (remember_all p history)) = Some x ∧ latest (in_memory (memory p) 110 history) x.2.
Proof.
  intros p history. split; [vm_compute; reflexivity |].
  apply (playout_sliding_max p [(10, 5); (20, 19); (60, 30)] 110 90); [cbn; lia | done | cbn; lia].
Defined.
