(* ===== verification/Bridge.v ===== *)
(** The agent's bridge between a room and a game
    ([crates/tpf3mp-agent/src/bridge.rs]): turns become the messages the hook's
    gate expects, released at the pace of the playout, and what the hook reports
    becomes requests to the room.

    [Bridge] is the struct with the calls it makes of others recorded in order:
    the bytes the link took ([wire]) and what it asked of the client, the store and
    its own tasks ([asked]).  How each of those ends is an argument. *)
From stdpp Require Import pretty.
From S2P Require Import Prelude Proto TurnLog Follower Gate Playout.
Local Open Scope Z_scope.

(** * The outbox *)
Record Outbox := MkOutbox { messages : list ToHook; bytes : Z }.

Definition OUTBOX_BYTES : Z := 16 * 2 ^ 20.

Definition text_len (t : Text) : Z := Z.of_nat (String.length t).

Definition weight (message : ToHook) : Z :=
  match message with
  | HookApply (MkEvent _ _ (Command _ _ payload)) => Z.of_nat (length payload)
  | HookLoad file _ => from_option text_len 0 file
  | HookBegin rules _ _ saves => text_len rules + text_len saves
  | HookDiverged _ lanes => Z.of_nat (length lanes) * 2
  | HookChat from text => text_len from + text_len text
  | HookEnd reason => text_len reason
  | _ => 0
  end + 64.

Definition Outbox_default : Outbox := MkOutbox [] 0.
Definition push_back (o : Outbox) (m : ToHook) : Outbox := MkOutbox (messages o ++ [m]) (bytes o + weight m).
Definition push_front (o : Outbox) (m : ToHook) : Outbox := MkOutbox (m :: messages o) (bytes o + weight m).
Definition pop_front (o : Outbox) : Outbox * option ToHook :=
  match messages o with
  | [] => (o, None)
  | m :: ms => (MkOutbox ms (saturating_sub_u64 (bytes o) (weight m)), Some m)
  end.
Definition retain (keep : ToHook → bool) (o : Outbox) : Outbox :=
  let ms := List.filter keep (messages o) in MkOutbox ms (sum_Z (weight <$> ms)).
Definition is_full (o : Outbox) : bool := OUTBOX_BYTES <=? bytes o.

(** * The pump *)
Section pump.
Context (representable : Instant → bool).

Definition push_release (o : Outbox) (released : option Z) : Outbox :=
  match released with Some through => push_back o (HookRelease through) | None => o end.

(** The loop; every round but the last takes an action off the follower, so as
    many rounds as there are actions, and one more, end it. *)
Fixpoint pump_loop (fuel : nat) (f : TurnFollower) (p : Playout) (now : Instant) (o : Outbox)
    (released : option Z) : TurnFollower * Playout * Outbox * option Instant :=
  match fuel with
  | O => (f, p, push_release o released, None)
  | S fuel =>
      if is_full o then (f, p, push_release o released, None)
      else
        match next_step f with
        | Some step =>
            let due := default now (due representable p step now) in
            if now <? due then (f, p, push_release o released, Some due)
            else pump_loop fuel (next_action f).1 (played p step due) now o (Some step)
        | None =>
            match next_action f with
            | (f, Some (Apply event)) =>
                pump_loop fuel f p now (push_back (push_release o released) (HookApply event)) None
            | (f, Some (Execute step)) => pump_loop fuel f p now o (Some step)
            | (f, None) => (f, p, push_release o released, None)
            end
        end
  end.

Definition actions_left (f : TurnFollower) : nat :=
  length (queue f) + Z.to_nat (f_sealed_through f - executed f).

Definition pump (f : TurnFollower) (p : Playout) (now : Instant) (o : Outbox) :
    TurnFollower * Playout * Outbox * option Instant :=
  pump_loop (S (actions_left f)) f p now o None.
End pump.

(** * The bridge *)
Record BridgeOptions := MkBridgeOptions {
  playout_margin : Duration;
  playout_memory : Duration;
  hook_timeout : Duration;
  load_timeout : Duration;
  progress_every : Duration;
  worlds : bool;
  saves_dir : Text;
  has_status : bool;
}.

Inductive BridgeFault :=
  | FaultLink
  | FaultMessage (e : BridgeError)
  | FaultUnexpected (what : string)
  | HookGone
  | FaultClient
  | FaultFollow (e : FollowError)
  | FaultLoadedElsewhere (expected got : Z)
  | NoWorlds
  | PathTooLong (path : Text).

Inductive BridgeEnd := EndClosed | EndKicked | EventsEnded | WorldUnavailable | EndLeft.

Inductive BWorld :=
  | WorldReady
  | WorldFetching (offer : WorldOffer) (next_step attempt : Z)
  | WorldLoading (next_step : Z).

#[export] Instance WorldOffer_eq_dec : EqDecision WorldOffer.
Proof. solve_decision. Defined.
#[export] Instance BWorld_eq_dec : EqDecision BWorld.
Proof. solve_decision. Defined.

Definition is_fetching (w : BWorld) : bool := match w with WorldFetching _ _ _ => true | _ => false end.

Inductive WorldStatus :=
  | StatusNone
  | StatusFetching (bytes total : Z)
  | StatusLoading
  | StatusPlaying.

Definition STATUS_HISTORY : nat := 100.

Record Status := MkStatus {
  st_room : option RoomView;
  st_game : option Text;
  st_world : WorldStatus;
  st_step : option Z;
  st_speed : Speed;
  st_chat : list (PlayerId * Text);
  st_notices : list Text;
}.
#[export] Instance eta_Status : Eta Status := fun s =>
  MkStatus (st_room s) (st_game s) (st_world s) (st_step s) (st_speed s) (st_chat s) (st_notices s).

Definition Status_default : Status := MkStatus None None StatusNone None NORMAL [] [].

Definition push_bounded {A} (l : list A) (item : A) : list A :=
  (if (length l =? STATUS_HISTORY)%nat then tail l else l) ++ [item].

Definition notice (text : Text) (s : Status) : Status := s <| st_notices := push_bounded (st_notices s) text |>.

(** What a front end asks. *)
Inductive Control :=
  | ControlReady (ready : bool)
  | ControlStart
  | ControlSpeed (speed : Speed)
  | ControlKick (player : PlayerId)
  | ControlChat (text : Text)
  | ControlLeave.

(** What the bridge asks of the client, of the store, and of tasks of its own. *)
Inductive Asked :=
  | AskIntent (client_seq : Z) (payload : Payload)
  | AskProgress (step : Z)
  | AskCheckpoint (step : Z) (lanes : list LaneDigest)
  | AskSaved (event : Z) (lanes : list LaneDigest) (world : option SavedWorld)
  | AskRequest (control : Control)
  | AskLeave
  | AskIngest (event : Z) (lanes : list LaneDigest) (file : Text)
  | AskFetch (offer : WorldOffer) (attempt : Z)
  | AskUpload (snapshot : SnapshotId)
  | AskTidy (keep : list SnapshotId).

Definition SAVES_KEPT : nat := 2.

Record Bridge := MkBridge {
  b_follower : option TurnFollower;
  b_playout : option Playout;
  outbox : Outbox;
  hook_ready : bool;
  begun : bool;
  b_world : BWorld;
  b_loaded : bool;
  b_speed : Speed;
  b_commands : Z;
  b_progress : option Z;
  reported : option Z;
  last_report : Instant;
  wait_until : option Instant;
  hook_beat : Z * Instant;
  attempts : Z;
  fetch : bool;
  b_saved : list SnapshotId;
  b_received : option SnapshotId;
  status : Status;
  wire : list (list Z);
  asked : list Asked;
}.
#[export] Instance eta_Bridge : Eta Bridge := fun b =>
  MkBridge (b_follower b) (b_playout b) (outbox b) (hook_ready b) (begun b) (b_world b) (b_loaded b) (b_speed b)
    (b_commands b) (b_progress b) (reported b) (last_report b) (wait_until b) (hook_beat b) (attempts b) (fetch b)
    (b_saved b) (b_received b) (status b) (wire b) (asked b).

Definition Bridge_new (beat : Z) (now : Instant) : Bridge :=
  MkBridge None None Outbox_default false false WorldReady false NORMAL 0 None None now None (beat, now) 0 false
    [] None Status_default [] [].

Abbreviation BridgeM := (SE Bridge BridgeFault).

Inductive ClientEvent :=
  | EvTurnStream (start : TurnStart)
  | EvTurn (turn : Turn)
  | EvIntentRejected (client_seq : Z) (reason : IntentRejection)
  | EvDiverged (step : Z) (lanes : list Z)
  | EvUpload (event : Z) (snapshot : SnapshotId)
  | EvChat (from : PlayerId) (text : Text)
  | EvRoomUpdate (room : RoomView)
  | EvKicked
  | EvClosed.

(** Work that finished off the bridge's task. *)
Inductive Done :=
  | DoneIngested (event : Z) (lanes : list LaneDigest) (result : result (SnapshotId * SavedWorld) Text)
  | DoneFetched (attempt : Z) (result : result (Text * SnapshotId) Text)
  | DoneUploaded (snapshot : SnapshotId).

Section bridge.
Context {PA : Postcard ToAgent} {PH : Postcard ToHook}.
Context (representable : Instant → bool).
Context (options : BridgeOptions).
(** How the [n]-th thing the bridge asks ends; whether a path fits a message;
    how a player's id, a refusal and a reason print. *)
Context (client_ends : nat → result unit BridgeFault).
Context (path_ok : Text → bool) (player_text : PlayerId → Text) (reason_text : IntentRejection → Text).

Definition ask (a : Asked) : BridgeM unit := se_mod (λ b, b <| asked ::= λ l, l ++ [a] |>).

(** A call of the client, which may fail. *)
Definition call_client (a : Asked) : BridgeM unit :=
  b ← se_get;
  _ ← ask a;
  se_lift id (client_ends (length (asked b))).

Definition set_status (update : Status → Status) : BridgeM unit :=
  se_mod (λ b, if has_status options then b <| status ::= update |> else b).

Definition enqueue (m : ToHook) : BridgeM unit := se_mod (λ b, b <| outbox ::= λ o, push_back o m |>).

Definition path_text (path : Text) : BridgeM Text :=
  if path_ok path then mret path else se_err (PathTooLong path).

Definition check_hook (now : Instant) (beat : Z) : BridgeM unit :=
  b ← se_get;
  let limit := if b_loaded b then hook_timeout options else load_timeout options in
  if negb (beat =? (hook_beat b).1) then se_mod (λ b, b <| hook_beat := (beat, now) |>)
  else if hook_ready b && (limit <? saturating_duration_since now (hook_beat b).2) then se_err HookGone
  else mret tt.

Definition is_agent_hello (m : ToAgent) : bool := match m with AgentHello _ _ => true | _ => false end.

(** The game saved its world: it is cut into the store off this task. *)
Definition saved_world (event : Z) (lanes : list LaneDigest) (file : option Text) : BridgeM unit :=
  match file with
  | Some file => if worlds options then ask (AskIngest event lanes file) else call_client (AskSaved event lanes None)
  | None => call_client (AskSaved event lanes None)
  end.

(** One message of the hook. *)
Definition read_message (message : ToAgent) : BridgeM unit :=
  b ← se_get;
  if negb (hook_ready b) && negb (is_agent_hello message)
  then se_err (FaultUnexpected "a message before its hello")
  else
    let current := bool_decide (b_world b = WorldReady) in
    match message with
    | AgentHello version build =>
        if hook_ready b then se_err (FaultUnexpected "a second hello")
        else
          _ ← se_lift FaultMessage (check_version version);
          _ ← se_mod (λ b, b <| hook_ready := true |>);
          _ ← set_status (λ s, s <| st_game := Some build |>);
          se_mod (λ b, b <| outbox ::= λ o, push_front o (HookHello BRIDGE_VERSION) |>)
    | AgentLoaded next_step =>
        match b_world b with
        | WorldLoading expected =>
            if negb (next_step =? expected) then se_err (FaultLoadedElsewhere expected next_step)
            else
              let progress := saturating_sub_u64 next_step 1 in
              _ ← se_mod (λ b, b <| b_world := WorldReady |>);
              _ ← set_status (λ s, s <| st_world := StatusPlaying |>);
              _ ← call_client (AskProgress progress);
              se_mod (λ b, b <| b_progress := Some progress |> <| reported := Some progress |> <| b_loaded := true |>)
        | _ => se_err (FaultUnexpected "a world nobody ordered")
        end
    | AgentCommand payload =>
        _ ← call_client (AskIntent (b_commands b) payload);
        se_mod (λ b, b <| b_commands := b_commands b + 1 |>)
    | AgentRan step =>
        if current
        then _ ← se_mod (λ b, b <| b_progress := Some step |>); set_status (λ s, s <| st_step := Some step |>)
        else mret tt
    | AgentCheckpoint step lanes => if current then call_client (AskCheckpoint step lanes) else mret tt
    | AgentSaved event lanes file => if current then saved_world event lanes file else mret tt
    | AgentChat text => ask (AskRequest (ControlChat text))
    | AgentLog _ => mret tt
    end.

(** Everything the link has for the agent. *)
Fixpoint read_hook (incoming : list (list Z)) : BridgeM unit :=
  match incoming with
  | [] => mret tt
  | bytes :: incoming =>
      message ← se_lift FaultMessage (decode_message bytes);
      _ ← read_message message;
      read_hook incoming
  end.

Definition report_progress (now : Instant) : BridgeM unit :=
  b ← se_get;
  match b_progress b with
  | None => mret tt
  | Some progress =>
      let report := _ ← call_client (AskProgress progress);
                    se_mod (λ b, b <| reported := Some progress |> <| last_report := now |>) in
      match reported b with
      | None => report
      | Some done =>
          if (progress_every options <=? saturating_duration_since now (last_report b)) && (done <? progress)
          then report else mret tt
      end
  end.

(** What the game was sent for its world is void: a new one replaces it. *)
Definition keeps_message (m : ToHook) : bool :=
  match m with HookApply _ | HookRelease _ | HookLoad _ _ => false | _ => true end.

Definition void_world : BridgeM unit :=
  se_mod (λ b, b <| fetch := false |> <| outbox ::= retain keeps_message |> <| b_progress := None |>
                 <| b_loaded := false |>).

Definition order_load (file : option Text) (next_step : Z) : BridgeM unit :=
  file ← match file with
         | Some file => text ← path_text file; mret (Some text)
         | None => mret None
         end;
  _ ← void_world;
  _ ← enqueue (HookLoad file next_step);
  _ ← se_mod (λ b, b <| b_world := WorldLoading next_step |>);
  set_status (λ s, s <| st_world := StatusLoading |>).

Definition fetch_world (offer : WorldOffer) (next_step : Z) : BridgeM unit :=
  if negb (worlds options) then se_err NoWorlds
  else
    _ ← void_world;
    _ ← se_mod (λ b, b <| attempts := attempts b + 1 |>);
    b ← se_get;
    _ ← se_mod (λ b, b <| b_world := WorldFetching offer next_step (attempts b) |>);
    _ ← set_status (λ s, s <| st_world := StatusFetching 0 (offer_size offer) |>);
    _ ← ask (AskFetch offer (attempts b));
    se_mod (λ b, b <| fetch := true |>).

(** The stream of turns began, or began again. *)
Definition on_stream (start : TurnStart) : BridgeM unit :=
  b ← se_get;
  _ ← se_mod (λ b, b <| reported := None |>
    <| b_playout := Some (Playout_new (start_steps_per_second start) (playout_margin options) (playout_memory options)) |>);
  _ ← (if begun b then mret tt
       else
         _ ← se_mod (λ b, b <| begun := true |>);
         saves ← path_text (saves_dir options);
         enqueue (HookBegin (start_rules start) (start_steps_per_second start) (start_checkpoint_interval start) saves));
  let next_step := saturating_add_u64 (start_sealed_through start) 1 in
  let anew := se_mod (λ b, b <| b_follower := Some (TurnFollower_new start) |>) in
  match start_world start, b_follower b with
  | Some offer, _ => _ ← anew; fetch_world offer next_step
  | None, None => _ ← anew; order_load None next_step
  | None, Some f =>
      match restart f start with
      | Ok f => se_mod (λ b, b <| b_follower := Some f |>)
      | Err e =>
          if (start_next_event start =? 1) && (start_sealed_through start =? 0)
          then _ ← anew; order_load None next_step
          else se_err (FaultFollow e)
      end
  end.

Definition on_turn_event (turn : Turn) (now : Instant) : BridgeM unit :=
  b ← se_get;
  match b_follower b with
  | None => se_err (FaultUnexpected "a turn before its stream")
  | Some f =>
      f ← se_lift FaultFollow (accept f turn);
      _ ← se_mod (λ b, b <| b_follower := Some f |>
        <| b_playout ::= option_map (λ p, on_turn representable p (f_sealed_through f) (f_speed f) now) |>);
      if negb (f_speed f =? b_speed b)
      then
        _ ← se_mod (λ b, b <| b_speed := f_speed f |>);
        _ ← enqueue (HookSpeed (f_speed f));
        set_status (λ s, s <| st_speed := f_speed f |>)
      else mret tt
  end.

Definition name_of (b : Bridge) (p : PlayerId) : Text :=
  let known := if has_status options
               then room ← st_room (status b); m ← List.find (λ m, view_player m =? p) (view_members room); Some (view_name m)
               else None in
  default (player_text p) known.

Definition upload (snapshot : SnapshotId) : BridgeM unit :=
  if worlds options then ask (AskUpload snapshot) else mret tt.

Definition on_event (event : ClientEvent) (now : Instant) : BridgeM (option BridgeEnd) :=
  match event with
  | EvTurnStream start => _ ← on_stream start; mret None
  | EvTurn turn => _ ← on_turn_event turn now; mret None
  | EvIntentRejected client_seq reason =>
      _ ← enqueue (HookRefused client_seq reason);
      _ ← set_status (notice ("the room refused an action: " +:+ reason_text reason)); mret None
  | EvDiverged step lanes =>
      _ ← set_status (notice ("your world differed from the room's at step " +:+ pretty step
                              +:+ "; the room's replaces it"));
      _ ← enqueue (HookDiverged step lanes); mret None
  | EvUpload event snapshot => _ ← upload snapshot; mret None
  | EvChat from text =>
      b ← se_get;
      _ ← (if begun b then enqueue (HookChat (name_of b from) text) else mret tt);
      _ ← set_status (λ s, s <| st_chat := push_bounded (st_chat s) (from, text) |>); mret None
  | EvRoomUpdate room => _ ← set_status (λ s, s <| st_room := Some room |>); mret None
  | EvKicked => mret (Some EndKicked)
  | EvClosed => mret (Some EndClosed)
  end.

(** Keeps the newest saves and the world last received. *)
Definition tidy : BridgeM unit :=
  b ← se_get;
  if worlds options then ask (AskTidy (b_saved b ++ option_list (b_received b))) else mret tt.

Definition keep_newest {A} (l : list A) : list A := drop (length l - SAVES_KEPT) l.

Definition on_done (done : Done) : BridgeM (option BridgeEnd) :=
  match done with
  | DoneIngested event lanes result =>
      world ← match result with
              | Ok (id, world) =>
                  _ ← se_mod (λ b, b <| b_saved := keep_newest (b_saved b ++ [id]) |>);
                  _ ← tidy; mret (Some world)
              | Err _ => mret None
              end;
      _ ← call_client (AskSaved event lanes world); mret None
  | DoneFetched attempt result =>
      b ← se_get;
      match b_world b with
      | WorldFetching _ next_step current =>
          if negb (attempt =? current) then mret None
          else
            _ ← se_mod (λ b, b <| fetch := false |>);
            match result with
            | Ok (file, id) =>
                _ ← se_mod (λ b, b <| b_received := Some id |>);
                _ ← tidy;
                _ ← order_load (Some file) next_step; mret None
            | Err _ => mret (Some WorldUnavailable)
            end
      | _ => mret None
      end
  | DoneUploaded _ => mret None
  end.

Definition on_control (control : Control) : BridgeM (option BridgeEnd) :=
  match control with
  | ControlLeave => _ ← ask AskLeave; mret (Some EndLeft)
  | control => _ ← ask (AskRequest control); mret None
  end.

(** Sends what the hook takes now: [takes] messages, and then the link is full,
    or broken. *)
Fixpoint flush_loop (takes : nat) (broken : bool) (waiting : list ToHook) {struct waiting} : BridgeM unit :=
  match waiting with
  | [] => mret tt
  | m :: waiting =>
      bytes ← se_lift FaultMessage (encode_message m);
      match takes with
      | O => if broken then se_err FaultLink else mret tt
      | S takes =>
          _ ← se_mod (λ b, b <| wire ::= λ w, w ++ [bytes] |> <| outbox ::= λ o, (pop_front o).1 |>);
          flush_loop takes broken waiting
      end
  end.

Definition flush (takes : nat) (broken : bool) : BridgeM unit :=
  b ← se_get;
  if negb (hook_ready b) then mret tt else flush_loop takes broken (messages (outbox b)).

(** Tells the hook the session is over. *)
Definition end_session (reason : Text) (takes : nat) (broken : bool) : BridgeM unit :=
  _ ← se_mod (λ b, b <| fetch := false |>);
  _ ← enqueue (HookEnd reason);
  ((λ b, ((flush takes broken b).1, Ok tt)) : BridgeM unit).

Definition bridge_resume_point (b : Bridge) : option Resume :=
  if is_fetching (b_world b) then None else resume_point <$> b_follower b.

(** What [select!] picks: an event of the client, none if they ended; finished
    work; a front end's request; or the timer. *)
Inductive Choice :=
  | ChooseEvent (event : option ClientEvent)
  | ChooseDone (done : Done)
  | ChooseControl (control : Control)
  | ChooseTimer.

(** One round of [run]. *)
Record Round := MkRound {
  at_ : Instant;
  chosen_at : Instant;
  hook_beats : Z;
  incoming : list (list Z);
  link_takes : nat;
  link_broken : bool;
  choice : Choice;
}.

Definition pump_now (now : Instant) : BridgeM unit :=
  se_mod (λ b,
    match b_follower b, b_playout b with
    | Some f, Some p =>
        if is_fetching (b_world b) then b
        else
          let '(f, p, o, wait) := pump representable f p now (outbox b) in
          b <| b_follower := Some f |> <| b_playout := Some p |> <| outbox := o |> <| wait_until := wait |>
    | _, _ => b
    end).

Definition run_round (r : Round) : BridgeM (option BridgeEnd) :=
  let now := at_ r in
  _ ← check_hook now (hook_beats r);
  _ ← read_hook (incoming r);
  _ ← report_progress now;
  _ ← pump_now now;
  _ ← flush (link_takes r) (link_broken r);
  b ← se_get;
  match choice r with
  | ChooseEvent event =>
      if is_full (outbox b) then mret None
      else match event with None => mret (Some EventsEnded) | Some event => on_event event (chosen_at r) end
  | ChooseDone done => on_done done
  | ChooseControl control => on_control control
  | ChooseTimer => mret None
  end.

(** Rounds until one ends the session or fails. *)
Fixpoint run_bridge (b : Bridge) (rounds : list Round) : Bridge * result (option BridgeEnd) BridgeFault :=
  match rounds with
  | [] => (b, Ok None)
  | r :: rounds =>
      match run_round r b with
      | (b, Ok None) => run_bridge b rounds
      | other => other
      end
  end.
End bridge.

(** * What the pump sends *)

(** The follower's next action, as [next_step] sees it. *)
Lemma left_step f acts :
  left_to_do (executed f) (f_sealed_through f) (queue f) acts →
  executed f ≤ f_sealed_through f ∧
  match acts with
  | Execute k :: _ => k = executed f + 1 ∧ next_step f = Some k ∧ executed (next_action f).1 = k ∧ k ≤ f_sealed_through f
  | Apply e :: _ => step e = executed f + 1 ∧ next_step f = None ∧ executed (next_action f).1 = executed f
  | [] => next_step f = None
  end.
Proof.
  intros Hl. split; [by apply left_range in Hl as [? _] |].
  unfold next_step, event_first, next_action. remember (executed f) as e eqn:He.
  remember (f_sealed_through f) as sl eqn:Hs. remember (queue f) as q eqn:Hq.
  destruct Hl as [s' | e s' ev evs acts Hst Hl | e s' evs acts Hle Hl].
  - rewrite (proj2 (Z.leb_gt _ _)) by lia. done.
  - rewrite (proj2 (Z.eqb_eq _ _) Hst). cbn. by rewrite <- He.
  - apply left_range in Hl as [_ Hr]. rewrite (proj2 (Z.leb_le _ _) Hle). destruct evs as [| ev evs]; cbn; [done |].
    apply Forall_cons in Hr as [Hev _]. rewrite (proj2 (Z.eqb_neq _ _)) by lia. done.
Qed.

Lemma deeds_release r t : deeds r [HookRelease t] = runs r t.
Proof. cbn. by rewrite app_nil_r. Qed.

(** What the loop appends: messages that instruct the steps already taken from
    the follower and not yet released, and then what it takes. *)
Record pumped (r : Z) (f f' : TurnFollower) (o o' : Outbox) (left : list Action) : Prop := {
  pu_sent : ∃ ms acts left', messages o' = messages o ++ ms ∧ left = acts ++ left' ∧
    stream_ok (Some r) ms ∧ stand (Some r) ms = Some (executed f') ∧
    deeds r ms = runs r (executed f) ++ (Does <$> acts) ∧
    left_to_do (executed f') (f_sealed_through f') (queue f') left';
  pu_pos : follower_pos f' = follower_pos f;
}.

Section pumping.
Context (representable : Instant → bool).

Lemma release_sent r f o released :
  (released = Some (executed f) ∧ r ≤ executed f ∨ released = None ∧ r = executed f) → executed f < u64_max →
  ∃ ms, messages (push_release o released) = messages o ++ ms ∧ stream_ok (Some r) ms ∧
    stand (Some r) ms = Some (executed f) ∧ deeds r ms = runs r (executed f).
Proof.
  intros [[-> Hle] | [-> ->]] Hmax.
  - exists [HookRelease (executed f)]. split; [done |]. split; [cbn; split; [by exists r | done] |].
    split; [done | apply deeds_release].
  - exists []. cbn. by rewrite app_nil_r, runs_nil.
Qed.

Lemma release_pumped r f o released left :
  (released = Some (executed f) ∧ r ≤ executed f ∨ released = None ∧ r = executed f) →
  executed f < u64_max → left_to_do (executed f) (f_sealed_through f) (queue f) left →
  pumped r f f o (push_release o released) left.
Proof.
  intros Hr Hmax Hl. destruct (release_sent r f o released Hr Hmax) as (ms & E1 & E2 & E3 & E4).
  split; [| done]. exists ms, [], left. by rewrite E4, app_nil_r.
Qed.

Lemma pump_loop_pumped fuel r f p now o released left :
  (released = Some (executed f) ∧ r ≤ executed f ∨ released = None ∧ r = executed f) →
  f_sealed_through f < u64_max → left_to_do (executed f) (f_sealed_through f) (queue f) left →
  let '(f', p', o', wait) := pump_loop representable fuel f p now o released in pumped r f f' o o' left.
Proof.
  revert r f p o released left. induction fuel as [| fuel IH]; intros r f p o released left Hr Hmax Hl; cbn [pump_loop].
  { destruct (left_step f left Hl). apply release_pumped; [done | lia | done]. }
  destruct (left_step f left Hl) as [Hex Hst]. pose proof (left_next f left Hl) as Hn.
  assert (Hstop : pumped r f f o (push_release o released) left) by (apply release_pumped; [done | lia | done]).
  destruct (is_full o); [done |]. destruct left as [| [e | k] left].
  - by rewrite Hst, Hn.
  - destruct Hst as (Hstep & -> & He'). destruct Hn as (f1 & Hn & Hl1 & Hpos). rewrite Hn in He' |- *. cbn [fst] in He'.
    injection Hpos as Hp1 Hp2 Hp3.
    pose proof (IH (executed f) f1 p (push_back (push_release o released) (HookApply e)) None left
      ltac:(right; done) ltac:(by rewrite Hp3) Hl1) as H.
    destruct (pump_loop _ _ _ _ _ _ _) as [[[f' p'] o'] wait]. destruct H as [(ms & acts & left' & E1 & E2 & H1 & H2 & H3 & H4) H5].
    split; [| rewrite H5; unfold follower_pos; congruence].
    destruct (release_sent r f o released Hr ltac:(lia)) as (rs & R1 & R3 & R4 & R5).
    exists (rs ++ HookApply e :: ms), (Apply e :: acts), left'. cbn [push_back messages] in E1. rewrite R1 in E1.
    split; [by rewrite E1, <- !app_assoc |]. split; [by rewrite E2 |].
    split; [apply stream_ok_app; split; [done |]; rewrite R4; cbn; split; [by exists (executed f) | done] |].
    split; [rewrite stand_app, R4; exact H2 |].
    pose proof (deeds_app (Some r) rs (HookApply e :: ms)) as Ed. cbn [from_option id] in Ed. rewrite Ed, R4, R5.
    cbn [from_option id deeds]. rewrite H3, He', runs_nil. cbn [app]. csimpl.
    done.
  - destruct Hst as (-> & -> & He' & Hle). destruct Hn as (f1 & Hn & Hl1 & Hpos).
    destruct (now <? _); [done |]. rewrite Hn in He' |- *. cbn [fst] in He' |- *. injection Hpos as Hp1 Hp2 Hp3.
    pose proof (IH r f1 (played p (executed f + 1) (default now (due representable p (executed f + 1) now))) o
      (Some (executed f + 1)) left ltac:(left; rewrite He'; split; [done | destruct Hr as [[_ ?] | [_ ?]]; lia])
      ltac:(by rewrite Hp3) Hl1) as H.
    destruct (pump_loop _ _ _ _ _ _ _) as [[[f' p'] o'] wait]. destruct H as [(ms & acts & left' & E1 & E2 & H1 & H2 & H3 & H4) H5].
    split; [| rewrite H5; unfold follower_pos; congruence].
    exists ms, (Execute (executed f + 1) :: acts), left'. split; [done |]. split; [by rewrite E2 |]. split; [done |].
    split; [done |]. split; [| done]. rewrite H3, He', (runs_app r (executed f) (executed f + 1))
      by (destruct Hr as [[_ ?] | [_ ?]]; lia).
    rewrite <- app_assoc. f_equal. rewrite runs_cons, runs_nil by lia. done.
Qed.

(** The fuel of [pump] is enough. *)
Lemma pump_fuel fuel fuel' f p now o released left :
  left_to_do (executed f) (f_sealed_through f) (queue f) left → (length left < fuel ≤ fuel')%nat →
  pump_loop representable fuel' f p now o released = pump_loop representable fuel f p now o released.
Proof.
  revert fuel' f p o released left.
  induction fuel as [| fuel IH]; intros [| fuel'] f p o released left Hl Hf; try lia. cbn [pump_loop].
  destruct (left_step f left Hl) as [_ Hst]. pose proof (left_next f left Hl) as Hn.
  destruct (is_full o); [done |]. destruct left as [| [e | k] left].
  - by rewrite Hst, Hn.
  - destruct Hst as (_ & -> & _). destruct Hn as (f1 & -> & Hl1 & _). cbn in Hf. by apply (IH _ _ _ _ _ left); [| lia].
  - destruct Hst as (_ & -> & _). destruct Hn as (f1 & -> & Hl1 & _). destruct (now <? _); [done |].
    cbn in Hf. by apply (IH _ _ _ _ _ left); [| lia].
Qed.
End pumping.

(** * A world that replaces one being loaded *)
Section superseded.
Context {PA : Postcard ToAgent}.
Context (representable : Instant → bool) (options : BridgeOptions).
Context (client_ends : nat → result unit BridgeFault).
Context (path_ok : Text → bool) (player_text : PlayerId → Text) (reason_text : IntentRejection → Text).

(** a game that is still loading when the room offers it another world ends
    its own session.  The hook finishes the load it was ordered and reports it, as
    it must; the bridge, which by then fetches the world that replaces it, takes the
    report for a world nobody ordered and fails, although it ignores whatever else
    the game reports of a world that is being replaced. *)
Theorem superseded_load_fatal (b : Bridge) (start : TurnStart) (offer : WorldOffer) (n : Z) (now : Instant) :
  worlds options = true → hook_ready b = true → begun b = true →
  b_world b = WorldLoading n → start_world start = Some offer →
  ∃ b' b'', on_event representable options path_ok player_text reason_text (EvTurnStream start) now b = (b', Ok None) ∧
    read_message options client_ends (AgentLoaded n) b' = (b'', Err (FaultUnexpected "a world nobody ordered")) ∧
    (∀ k lanes, read_message options client_ends (AgentCheckpoint k lanes) b' = (b', Ok tt)).
Proof.
  intros Hw Hr Hb _ Hs. unfold on_event, on_stream. unfold mbind, SE_bind, se_get, se_mod. rewrite Hb, Hs.
  unfold fetch_world. rewrite Hw. unfold mbind, SE_bind, mret, SE_ret, void_world, set_status, ask, se_get, se_mod.
  cbn [negb]. set (b' := _ <| fetch := true |>). exists b', b'. split; [done |].
  assert (hook_ready b' = true ∧ is_fetching (b_world b') = true) as [Hr' Hf'].
  { subst b'. destruct (has_status options); cbn; by rewrite Hr. }
  destruct (b_world b') as [| o k a |] eqn:Ew; try done.
  split; [| intros k' lanes]; unfold read_message, mbind, SE_bind, se_get; rewrite Hr'; cbn [negb andb];
    rewrite ?Ew; done.
Qed.
End superseded.

(** A new world is offered while the first one is still being loaded. *)
Lemma superseded_load_fatal_witness :
  let options := MkBridgeOptions 0 0 0 0 0 true "saves" false in
  let b := (Bridge_new 0 0) <| hook_ready := true |> <| begun := true |> <| b_world := WorldLoading 1 |> in
  let start := MkTurnStart 1 "rules" 9 9 8 10 4 7 (Some (MkWorldOffer 3 100)) in
  ∃ b' b'', on_event (λ _, true) options (λ _, true) (λ _, ""%string) (λ _, ""%string) (EvTurnStream start) 0 b = (b', Ok None) ∧
    read_message options (λ _, Ok tt) (AgentLoaded 1) b' = (b'', Err (FaultUnexpected "a world nobody ordered")) ∧
    (∀ k lanes, read_message options (λ _, Ok tt) (AgentCheckpoint k lanes) b' = (b', Ok tt)).
Proof.
  intros options b start.
  exact (superseded_load_fatal (λ _, true) options (λ _, Ok tt) (λ _, true) (λ _, ""%string) (λ _, ""%string) b start
    (MkWorldOffer 3 100) 1 0 eq_refl eq_refl eq_refl eq_refl eq_refl).
Defined.
