(* ===== verification/BridgeInv.v ===== *)
(** What a bridge sends a game over the whole of a session: worlds to load, and
    for each of them a stretch of the room's one sequence of actions, as its
    gate wants it. *)
From S2P Require Import Prelude Proto TurnLog Follower Gate Playout Bridge.
Local Open Scope Z_scope.

(** * The messages after the game began *)
Definition is_begin (m : ToHook) : bool := match m with HookBegin _ _ _ _ => true | _ => false end.

Fixpoint after_begin (ms : list ToHook) : list ToHook :=
  match ms with
  | [] => []
  | m :: ms => if is_begin m then ms else after_begin ms
  end.

Lemma after_begin_app a b :
  after_begin (a ++ b) = if existsb is_begin a then after_begin a ++ b else after_begin b.
Proof. induction a as [| m a IH]; cbn; [done |]. by destruct (is_begin m). Qed.

Lemma after_begin_none a : existsb is_begin a = false → after_begin a = [].
Proof. induction a as [| m a IH]; cbn; [done |]. by destruct (is_begin m). Qed.

Lemma stream_ok_inert c ms :
  stream_ok c ms → Forall (λ m, inert m = true) (List.filter keeps_message ms).
Proof.
  revert c. induction ms as [| m ms IH]; intros c; cbn; [constructor |]. intros [Ho Hs]. apply IH in Hs.
  destruct m; cbn in *; try done; by constructor.
Qed.

Lemma prefix_app_cases {A} (l k k' : list A) :
  l `prefix_of` k ++ k' → l `prefix_of` k ∨ ∃ m, l = k ++ m ∧ m `prefix_of` k'.
Proof.
  intros [rest E]. apply app_eq_inv in E as [(m & -> & _) | (m & -> & ->)]; [left; by eexists |].
  right. exists m. split; [done | by eexists].
Qed.

(** * Stories *)
Section story.
Context (evs : list ClientEvent).

Definition first_at (st : TurnStart) : Position := follower_pos (TurnFollower_new st).

(** A stream of turns the room's events carried. *)
Definition streamed (st : TurnStart) (ts : list Turn) : Prop :=
  EvTurnStream st ∈ evs ∧ Forall (λ t, EvTurn t ∈ evs) ts ∧ ∃ q, chain (first_at st) ts q.

(** One world after the other, and on each the first actions of a stream that
    starts where the world stands. *)
Inductive story : list Deed → Prop :=
  | story_nothing : story []
  | story_world ds st ts acts :
      story ds → streamed st ts → acts `prefix_of` log_actions (start_sealed_through st) ts →
      story (ds ++ Loads (start_sealed_through st + 1) :: (Does <$> acts)).

Lemma story_prefix ds ds' : story ds → ds' `prefix_of` ds → story ds'.
Proof.
  intros Hs. revert ds'. induction Hs as [| ds st ts acts Hs IH Hst Hpre]; intros ds' Hp.
  { apply prefix_nil_inv in Hp as ->. constructor. }
  apply prefix_app_cases in Hp as [Hp | ([| l k] & -> & Hk)]; [by apply IH | |].
  { rewrite app_nil_r. apply Hs. }
  pose proof (prefix_cons_inv_1 _ _ _ _ Hk) as ->. apply prefix_cons_inv_2 in Hk as [rest Hk].
  apply fmap_app_inv in Hk as (a1 & a2 & -> & -> & ->).
  apply story_world with ts; [done | done |]. etransitivity; [| exact Hpre]. by eexists.
Qed.

(** * The invariant *)

Definition sane (ev : ClientEvent) : Prop :=
  match ev with
  | EvTurnStream st => 0 ≤ start_sealed_through st < u64_max - 1
  | EvTurn t => turn_sealed_through t < u64_max
  | _ => True
  end.

Definition all (b : Bridge) (sent : list ToHook) : list ToHook := sent ++ messages (outbox b).

(** What the follower stands for: the stream it follows, and what the game was
    told of it. *)
Definition tells (f : TurnFollower) (w : BWorld) (gate : list ToHook) : Prop :=
  ∃ st ts left, streamed st ts ∧ chain (first_at st) ts (follower_pos f) ∧ sane (EvTurnStream st) ∧
    f_sealed_through f < u64_max ∧ left_to_do (executed f) (f_sealed_through f) (queue f) left ∧
    match w with
    | WorldFetching _ n _ =>
        n = start_sealed_through st + 1 ∧ executed f = start_sealed_through st ∧
        left = log_actions (start_sealed_through st) ts ∧ story (deeds 0 gate)
    | _ =>
        ∃ acts ds, story ds ∧ acts ++ left = log_actions (start_sealed_through st) ts ∧
          deeds 0 gate = ds ++ Loads (start_sealed_through st + 1) :: (Does <$> acts) ∧
          stand None gate = Some (executed f)
    end.

Context {PH : Postcard ToHook}.

Definition encoded (m : ToHook) (bytes : list Z) : Prop := encode_message m = Ok bytes.

(** What [sent] and the outbox are, but for the follower. *)
Record sends_ok (b : Bridge) (sent : list ToHook) : Prop := {
  so_wire : Forall2 encoded sent (wire b);
  so_ready : hook_ready b = false → sent = [];
  so_open : existsb is_begin (all b sent) = begun b;
  so_stream : stream_ok None (after_begin (all b sent));
  so_story : story (deeds 0 (after_begin (all b sent)));
}.

Record bridge_ok (b : Bridge) (sent : list ToHook) : Prop := {
  bo_sends : sends_ok b sent;
  bo_follower :
    match b_follower b with
    | None => begun b = false ∧ b_world b = WorldReady
    | Some f => begun b = true ∧ tells f (b_world b) (after_begin (all b sent))
    end;
}.

(** What is on the wire, whatever becomes of the bridge. *)
Definition wire_ok (b : Bridge) : Prop :=
  ∃ sent, Forall2 encoded sent (wire b) ∧ stream_ok None (after_begin sent) ∧ story (deeds 0 (after_begin sent)).

(** What is sent and waits is a beginning of a story, whatever else. *)
Record stream_sound (b : Bridge) (sent : list ToHook) : Prop := {
  ss_wire : Forall2 encoded sent (wire b);
  ss_ready : hook_ready b = false → sent = [];
  ss_stream : stream_ok None (after_begin (all b sent));
  ss_story : story (deeds 0 (after_begin (all b sent)));
}.

Lemma sound_wire b sent : stream_sound b sent → wire_ok b.
Proof.
  intros [Hw _ Hs Hst]. exists sent. split; [done |]. unfold all in *. rewrite after_begin_app in *.
  destruct (existsb is_begin sent) eqn:E.
  - apply stream_ok_app in Hs as [Hs _]. split; [done |]. eapply story_prefix; [exact Hst |].
    rewrite deeds_app0. by eexists.
  - rewrite (after_begin_none sent E). split; [done | constructor].
Qed.

Lemma sends_sound b sent : sends_ok b sent → stream_sound b sent.
Proof. by intros [H1 H2 _ H4 H5]. Qed.

Lemma tells_story f w gate : tells f w gate → story (deeds 0 gate).
Proof.
  intros (st & ts & left & Hst & _ & _ & _ & _ & Hw). destruct w; [| by destruct Hw as (_ & _ & _ & ?) |];
    destruct Hw as (acts & ds & Hds & Ha & -> & _); (apply story_world with ts; [done | done |]); by eexists.
Qed.

(** * Steps that leave the streams alone *)
Lemma bridge_same b b' sent :
  b_follower b' = b_follower b → outbox b' = outbox b → hook_ready b' = hook_ready b → begun b' = begun b →
  b_world b' = b_world b → wire b' = wire b → bridge_ok b sent → bridge_ok b' sent.
Proof.
  intros E1 E2 E3 E4 E5 E6 [[H1 H2 H3 H4 H5] H6].
  assert (all b' sent = all b sent) as Ea by (unfold all; by rewrite E2).
  split; [split; rewrite ?Ea, ?E3, ?E4, ?E6; done |]. by rewrite E1, E4, E5, Ea.
Qed.

(** What is left by a failure: a sound stream, and after one of the client, which may be for
    a lost connection, the invariant. *)
Definition failed_ok (e : BridgeFault) (b : Bridge) : Prop := (∃ sent, stream_sound b sent) ∧ (e = FaultClient → ∃ sent, bridge_ok b sent).

(** An operation that keeps the invariant, and the wire whatever happens. *)
Definition pres {A} (m : BridgeM A) : Prop :=
  ∀ b sent, bridge_ok b sent →
    match m b with
    | (b', Ok _) => ∃ sent', bridge_ok b' sent'
    | (b', Err e) => failed_ok e b'
    end.

Lemma pres_ret {A} (a : A) : pres (mret a).
Proof. intros b sent H. by exists sent. Qed.

Lemma bridge_sound b sent : bridge_ok b sent → stream_sound b sent.
Proof. intros H. apply sends_sound, H. Qed.

Lemma bridge_failed e b sent : bridge_ok b sent → failed_ok e b.
Proof. intros H. split; [exists sent; by apply bridge_sound | intros _; by exists sent]. Qed.

Lemma sends_failed e b sent : e ≠ FaultClient → sends_ok b sent → failed_ok e b.
Proof. intros He H. split; [exists sent; by apply sends_sound | done]. Qed.

Lemma pres_err {A} e : pres (se_err (A := A) e).
Proof. intros b sent H. by eapply bridge_failed. Qed.

Lemma pres_bind {A B} (m : BridgeM A) (k : A → BridgeM B) : pres m → (∀ a, pres (k a)) → pres (m ≫= k).
Proof.
  intros Hm Hk b sent H. specialize (Hm b sent H). unfold mbind, SE_bind. destruct (m b) as [b1 [a | e]]; [| done].
  destruct Hm as [sent1 H1]. by apply (Hk a b1 sent1).
Qed.

Lemma pres_get {A} (k : Bridge → BridgeM A) :
  (∀ b sent, bridge_ok b sent → match k b b with (b', Ok _) => ∃ sent', bridge_ok b' sent' | (b', Err e) => failed_ok e b' end) →
  pres (se_get ≫= k).
Proof. intros Hk b sent H. exact (Hk b sent H). Qed.

Lemma pres_with {A} (k : Bridge → BridgeM A) : (∀ b, pres (k b)) → pres (se_get ≫= k).
Proof. intros Hk. apply pres_get. intros b sent H. by apply (Hk b b sent). Qed.

Lemma pres_lift {A E} wrap (r : result A E) : pres (se_lift wrap r).
Proof. intros b sent H. unfold se_lift. destruct r; [by exists sent | by eapply bridge_failed]. Qed.

Definition idle_update (f : Bridge → Bridge) : Prop :=
  ∀ b, b_follower (f b) = b_follower b ∧ outbox (f b) = outbox b ∧ hook_ready (f b) = hook_ready b ∧
    begun (f b) = begun b ∧ b_world (f b) = b_world b ∧ wire (f b) = wire b.

Lemma pres_mod f : idle_update f → pres (se_mod f).
Proof. intros Hf b sent H. destruct (Hf b) as (?&?&?&?&?&?). exists sent. by eapply bridge_same. Qed.

Ltac idle := apply pres_mod; intros b'; try case_match; by repeat split.

(** A message about nothing in the world goes to the end of the outbox. *)
Lemma all_push b m sent : all (b <| outbox ::= λ o, push_back o m |>) sent = all b sent ++ [m].
Proof. unfold all. cbn. by rewrite app_assoc. Qed.

Lemma inert_more gate m : inert m = true →
  deeds 0 (gate ++ [m]) = deeds 0 gate ∧ stand None (gate ++ [m]) = stand None gate.
Proof.
  intros Hm. rewrite deeds_app0, stand_app.
  destruct (inert_stream (stand None gate) [m]) as (_ & -> & ->); [by repeat constructor |]. by rewrite app_nil_r.
Qed.

Lemma tells_same f w gate gate' :
  deeds 0 gate' = deeds 0 gate → stand None gate' = stand None gate → tells f w gate → tells f w gate'.
Proof. intros E1 E2 (st & ts & left & H). exists st, ts, left. by rewrite E1, E2. Qed.

Lemma enqueue_ok b sent m :
  inert m = true → bridge_ok b sent → bridge_ok (b <| outbox ::= λ o, push_back o m |>) sent.
Proof.
  intros Hm [[H1 H2 H3 H4 H5] H6]. set (b' := b <| outbox ::= _ |>).
  assert (existsb is_begin [m] = false) as Hb by (by destruct m).
  assert (begun b = true ∨ begun b = false) as [Hbg | Hbg] by (destruct (begun b); tauto).
  - assert (after_begin (all b' sent) = after_begin (all b sent) ++ [m]) as Ea
      by (subst b'; rewrite all_push, after_begin_app, H3, Hbg; done).
    destruct (inert_more (after_begin (all b sent)) m Hm) as [Ed Es].
    split; [split |].
    + exact H1.
    + exact H2.
    + subst b'. rewrite all_push, existsb_app, H3, Hb. cbn. by rewrite orb_false_r.
    + rewrite Ea. apply stream_ok_app. split; [done |]. split; [| done]. by destruct m.
    + by rewrite Ea, Ed.
    + change (b_follower b') with (b_follower b). destruct (b_follower b); [| done].
      destruct H6 as [? H6]. split; [done |]. rewrite Ea. by eapply tells_same.
  - assert (after_begin (all b' sent) = []) as Ea
      by (apply after_begin_none; subst b'; rewrite all_push, existsb_app, H3, Hbg, Hb; done).
    split; [split |].
    + exact H1.
    + exact H2.
    + subst b'. rewrite all_push, existsb_app, H3, Hb. cbn. by rewrite orb_false_r.
    + by rewrite Ea.
    + rewrite Ea. constructor.
    + change (b_follower b') with (b_follower b). destruct (b_follower b); [| done].
      destruct H6 as [? _]. congruence.
Qed.

Lemma pres_enqueue m : inert m = true → pres (enqueue m).
Proof. intros Hm b sent H. exists sent. by apply enqueue_ok. Qed.

(** * Pumping and flushing *)
Context {PA : Postcard ToAgent}.
Context (representable : Instant → bool).

Lemma pres_pump now : pres (pump_now representable now).
Proof.
  intros b sent H. unfold pump_now, se_mod. exists sent.
  destruct (b_follower b) as [f |] eqn:Ef; [| done]. destruct (b_playout b) as [p |]; [| done].
  destruct (is_fetching (b_world b)) eqn:Ew; [done |].
  pose proof (bo_follower _ _ H) as Hf. rewrite Ef in Hf.
  destruct Hf as [Hb (st & ts & left & Hst & Hc & Hsane & Hmax & Hl & Hw)].
  assert (∃ acts ds, story ds ∧ acts ++ left = log_actions (start_sealed_through st) ts ∧
    deeds 0 (after_begin (all b sent)) = ds ++ Loads (start_sealed_through st + 1) :: (Does <$> acts) ∧
    stand None (after_begin (all b sent)) = Some (executed f)) as (acts & ds & Hds & Ha & Hd & Hs)
    by (destruct (b_world b); done). clear Hw.
  pose proof (pump_loop_pumped representable (S (actions_left f)) (executed f) f p now (outbox b) None left
    ltac:(by right) Hmax Hl) as Hp. unfold pump.
  destruct (pump_loop _ _ _ _ _ _ _) as [[[f' p'] o'] wait].
  destruct Hp as [(ms & acts' & left' & E1 & -> & P1 & P2 & P3 & P4) P5]. rewrite runs_nil in P3. cbn [app] in P3.
  set (b' := b <| b_follower := Some f' |> <| b_playout := Some p' |> <| outbox := o' |> <| wait_until := wait |>).
  destruct (bo_sends _ _ H) as [H1 H2 H3 H4 H5]. set (gate := after_begin (all b sent)) in *.
  assert (all b' sent = all b sent ++ ms) as Eall by (unfold all; subst b'; cbn; rewrite E1; by rewrite app_assoc).
  assert (Eg : after_begin (all b' sent) = gate ++ ms) by (rewrite Eall, after_begin_app, H3, Hb; done).
  assert (Ed : deeds 0 (gate ++ ms) = ds ++ Loads (start_sealed_through st + 1) :: (Does <$> (acts ++ acts'))).
  { rewrite deeds_app0, Hs, Hd. cbn [from_option id]. rewrite P3, fmap_app, <- app_assoc. done. }
  assert (Htell : tells f' (b_world b') (gate ++ ms)).
  { injection P5 as Q1 Q2 Q3. exists st, ts, left'. split; [done |].
    split; [unfold follower_pos in *; by rewrite Q1, Q2, Q3 |]. split; [done |]. split; [by rewrite Q3 |]. split; [done |].
    change (b_world b') with (b_world b).
    assert (∃ acts0 ds0, story ds0 ∧ acts0 ++ left' = log_actions (start_sealed_through st) ts ∧
      deeds 0 (gate ++ ms) = ds0 ++ Loads (start_sealed_through st + 1) :: (Does <$> acts0) ∧
      stand None (gate ++ ms) = Some (executed f')) as Hx.
    { exists (acts ++ acts'), ds. split; [done |]. split; [by rewrite <- app_assoc |]. split; [done |].
      by rewrite stand_app, Hs. }
    destruct (b_world b); [exact Hx | done | exact Hx]. }
  split; [split |].
  - exact H1.
  - exact H2.
  - rewrite Eall, existsb_app, H3, Hb. done.
  - rewrite Eg. apply stream_ok_app. by rewrite Hs.
  - rewrite Eg. by eapply tells_story.
  - change (b_follower b') with (Some f'). split; [exact Hb |]. by rewrite Eg.
Qed.

Lemma flush_loop_ok takes broken waiting b sent :
  messages (outbox b) = waiting → hook_ready b = true → bridge_ok b sent →
  match flush_loop takes broken waiting b with
  | (b', Ok _) => ∃ sent', bridge_ok b' sent'
  | (b', Err e) => failed_ok e b'
  end.
Proof.
  revert takes b sent. induction waiting as [| m waiting IH]; intros takes b sent Hm Hr H; cbn [flush_loop].
  { exact (pres_ret tt b sent H). }
  unfold mbind at 1, SE_bind at 1, se_lift. destruct (encode_message m) as [bytes | e] eqn:Em; [| by eapply bridge_failed].
  destruct takes as [| takes].
  { destruct broken; [exact (pres_err (A := unit) FaultLink b sent H) | exact (pres_ret tt b sent H)]. }
  unfold mbind, SE_bind, se_mod. apply (IH takes _ (sent ++ [m])); [cbn; unfold pop_front; by rewrite Hm | done |].
  set (b' := b <| wire ::= λ w, w ++ [bytes] |> <| outbox ::= λ o, (pop_front o).1 |>).
  assert (all b' (sent ++ [m]) = all b sent) as Ea.
  { unfold all. subst b'. cbn. unfold pop_front. rewrite Hm. cbn. by rewrite <- app_assoc. }
  destruct H as [[H1 H2 H3 H4 H5] H6]. split; [split |]; rewrite ?Ea; try done.
  - cbn. apply Forall2_app; [done |]. by repeat constructor.
  - cbn. by rewrite Hr.
Qed.

Lemma pres_flush takes broken : pres (flush takes broken).
Proof.
  apply pres_get. intros b sent H. destruct (hook_ready b) eqn:Hr; cbn [negb]; [| by exists sent].
  by apply (flush_loop_ok _ _ _ b sent).
Qed.

(** * What the hook reports *)
Context (options : BridgeOptions) (client_ends : nat → result unit BridgeFault).
Context (path_ok : Text → bool) (player_text : PlayerId → Text) (reason_text : IntentRejection → Text).

Lemma pres_ask a : pres (ask a).
Proof. idle. Qed.

Lemma pres_call a : pres (call_client client_ends a).
Proof. apply pres_with. intros b. apply pres_bind; [apply pres_ask |]. intros _. apply pres_lift. Qed.

Lemma pres_status u : pres (set_status options u).
Proof. idle. Qed.

Lemma pres_check_hook now beat : pres (check_hook options now beat).
Proof.
  apply pres_with. intros b. cbn zeta. destruct (negb _); [idle |].
  destruct (hook_ready b && _); [apply pres_err | apply pres_ret].
Qed.

Lemma pres_report now : pres (report_progress options client_ends now).
Proof.
  apply pres_with. intros b. destruct (b_progress b) as [p |]; [| apply pres_ret].
  assert (pres (_ ← call_client client_ends (AskProgress p);
                se_mod (λ b, b <| reported := Some p |> <| last_report := now |>))) as Hr.
  { apply pres_bind; [apply pres_call |]. intros _. idle. }
  destruct (reported b) as [d |]; [| done]. destruct (_ && _); [done | apply pres_ret].
Qed.

(** The hook's hello is answered before anything else is sent. *)
Lemma hello_ok b b' sent :
  hook_ready b = false → bridge_ok b sent →
  outbox b' = push_front (outbox b) (HookHello BRIDGE_VERSION) → hook_ready b' = true →
  b_follower b' = b_follower b → begun b' = begun b → b_world b' = b_world b → wire b' = wire b →
  bridge_ok b' sent.
Proof.
  intros Hr [[H1 H2 H3 H4 H5] H6] E1 E2 E3 E4 E5 E6. pose proof (H2 Hr) as ->. unfold all in *. cbn [app] in *.
  assert (after_begin (messages (outbox b')) = after_begin (messages (outbox b))) as Ea by (by rewrite E1).
  split; [split |]; unfold all; cbn [app]; rewrite ?Ea, ?E1, ?E3, ?E4, ?E5, ?E6; try done.
Qed.

Lemma world_ready_ok b sent next :
  b_world b = WorldLoading next → bridge_ok b sent → bridge_ok (b <| b_world := WorldReady |>) sent.
Proof.
  intros Hw [[H1 H2 H3 H4 H5] H6]. rewrite Hw in H6. split; [by split |].
  change (b_follower (b <| b_world := WorldReady |>)) with (b_follower b).
  destruct (b_follower b); [exact H6 | by destruct H6].
Qed.

Lemma pres_read m : pres (read_message options client_ends m).
Proof.
  apply pres_get. intros b sent H. destruct (negb (hook_ready b) && _); [by apply (pres_err (A := unit) _ b sent) |].
  cbn zeta. destruct m as [version build | next | payload | k | k lanes | | k lanes file | text].
  - destruct (hook_ready b) eqn:Hr; [by apply (pres_err (A := unit) _ b sent) |].
    unfold mbind, SE_bind, se_lift. destruct (check_version version); [| by eapply bridge_failed].
    unfold set_status, se_mod. exists sent. eapply (hello_ok b); [done | done |..]; by destruct (has_status options).
  - destruct (b_world b) as [| | expected] eqn:Hw; try by apply (pres_err (A := unit) _ b sent).
    destruct (negb _); [by apply (pres_err (A := unit) _ b sent) |]. unfold mbind at 1, SE_bind at 1, se_mod at 1.
    apply (pres_bind (set_status options _) (λ _, call_client client_ends _ ≫= _)) with (sent := sent);
      [apply pres_status | | by eapply world_ready_ok].
    intros _. apply pres_bind; [apply pres_call | intros _; idle].
  - apply (pres_bind (call_client client_ends _)) with (sent := sent); [apply pres_call | intros _; idle | done].
  - destruct (bool_decide _); [| by apply (pres_ret tt b sent)].
    apply (pres_bind (se_mod _)) with (sent := sent); [idle | intros _; apply pres_status | done].
  - destruct (bool_decide _); [by apply (pres_call _ b sent) | by apply (pres_ret tt b sent)].
  - by apply (pres_ret tt b sent).
  - destruct (bool_decide _); [| by apply (pres_ret tt b sent)]. unfold saved_world.
    destruct file; [destruct (worlds options) |]; by (apply (pres_ask _ b sent) || apply (pres_call _ b sent)).
  - by apply (pres_ask _ b sent).
Qed.

Lemma pres_read_hook bs : pres (read_hook options client_ends bs).
Proof.
  induction bs as [| bytes bs IH]; cbn [read_hook]; [apply pres_ret |]. apply pres_bind; [apply pres_lift |]. intros m.
  apply pres_bind; [apply pres_read | done].
Qed.

(** * Streams and worlds *)

(** [m] run where [P] holds establishes [Q], or fails and leaves the wire. *)
Definition hoare {A} (P : Bridge → list ToHook → Prop) (m : BridgeM A) (Q : Bridge → list ToHook → Prop) : Prop :=
  ∀ b sent, P b sent →
    match m b with
    | (b', Ok _) => ∃ sent', Q b' sent'
    | (b', Err e) => failed_ok e b'
    end.

Lemma hoare_bind {A B} P Q R (m : BridgeM A) (k : A → BridgeM B) :
  hoare P m Q → (∀ a, hoare Q (k a) R) → hoare P (m ≫= k) R.
Proof.
  intros Hm Hk b sent H. specialize (Hm b sent H). unfold mbind, SE_bind. destruct (m b) as [b1 [a | e]]; [| done].
  destruct Hm as [sent1 H1]. by apply (Hk a b1 sent1).
Qed.

Lemma hoare_mod (P Q : Bridge → list ToHook → Prop) f : (∀ b sent, P b sent → Q (f b) sent) → hoare P (se_mod f) Q.
Proof. intros Hf b sent H. exists sent. by apply Hf. Qed.

(** A follower of stream [st] that has taken nothing yet. *)
Definition fresh (st : TurnStart) (f : TurnFollower) : Prop :=
  ∃ ts, streamed st ts ∧ chain (first_at st) ts (follower_pos f) ∧ sane (EvTurnStream st) ∧
    f_sealed_through f < u64_max ∧ executed f = start_sealed_through st ∧
    left_to_do (executed f) (f_sealed_through f) (queue f) (log_actions (start_sealed_through st) ts).

Lemma new_fresh st : EvTurnStream st ∈ evs → sane (EvTurnStream st) → fresh st (TurnFollower_new st).
Proof.
  intros Hin Hs. exists []. split; [split; [done |]; split; [constructor |]; eexists; constructor |].
  split; [constructor |]. split; [done |]. split; [cbn in *; lia |]. split; [done |]. constructor.
Qed.

(** Ready for a world at which [st] starts. *)
Record opens (st : TurnStart) (b : Bridge) (sent : list ToHook) : Prop := {
  op_sends : sends_ok b sent;
  op_begun : begun b = true;
  op_fresh : ∃ f, b_follower b = Some f ∧ fresh st f;
}.

Lemma opens_failed e st b sent : e ≠ FaultClient → opens st b sent → failed_ok e b.
Proof. intros He H. eapply sends_failed; [done | apply H]. Qed.

Lemma sends_same b b' sent :
  outbox b' = outbox b → hook_ready b' = hook_ready b → begun b' = begun b → wire b' = wire b →
  sends_ok b sent → sends_ok b' sent.
Proof.
  intros E1 E2 E3 E4 [H1 H2 H3 H4 H5]. assert (all b' sent = all b sent) as Ea by (unfold all; by rewrite E1).
  split; rewrite ?Ea, ?E2, ?E3, ?E4; done.
Qed.

Lemma opens_same st b b' sent :
  outbox b' = outbox b → hook_ready b' = hook_ready b → begun b' = begun b → wire b' = wire b →
  b_follower b' = b_follower b → opens st b sent → opens st b' sent.
Proof.
  intros E1 E2 E3 E4 E5 [H1 H2 H3]. split; [by eapply (sends_same b) | congruence | by rewrite E5].
Qed.

Lemma after_begin_filter ms : after_begin (List.filter keeps_message ms) = List.filter keeps_message (after_begin ms).
Proof. induction ms as [| m ms IH]; cbn; [done |]. by destruct m; cbn. Qed.

Lemma begin_filter ms : existsb is_begin (List.filter keeps_message ms) = existsb is_begin ms.
Proof. induction ms as [| m ms IH]; cbn; [done |]. by destruct m; cbn. Qed.

(** Dropping what waits for a world leaves what is already sent of it. *)
Lemma retain_ok b sent : sends_ok b sent → sends_ok (b <| outbox ::= retain keeps_message |>) sent.
Proof.
  intros [H1 H2 H3 H4 H5]. set (b' := b <| outbox ::= retain keeps_message |>).
  assert (∃ g1 g2, after_begin (all b sent) = g1 ++ g2 ∧
    after_begin (all b' sent) = g1 ++ List.filter keeps_message g2) as (g1 & g2 & E1 & E2).
  { unfold all. rewrite !after_begin_app. subst b'. cbn. rewrite after_begin_filter.
    destruct (existsb is_begin sent); [by eexists _, _ |]. by exists [], (after_begin (messages (outbox b))). }
  rewrite E1 in H4, H5. apply stream_ok_app in H4 as [H4 H4'].
  destruct (inert_stream (stand None g1) _ (stream_ok_inert _ _ H4')) as (K1 & K2 & K3).
  split; [exact H1 | exact H2 | | |].
  - change (begun b') with (begun b). rewrite <- H3. unfold all. rewrite !existsb_app. subst b'. cbn. by rewrite begin_filter.
  - rewrite E2. by apply stream_ok_app.
  - rewrite E2, deeds_app0, K3, app_nil_r. eapply story_prefix; [exact H5 |]. rewrite deeds_app0. by eexists.
Qed.

Lemma void_opens st : hoare (opens st) void_world (opens st).
Proof.
  apply hoare_mod. intros b sent H.
  eapply (opens_same st (b <| outbox ::= retain keeps_message |>)); try done.
  destruct H as [H1 H2 H3]. split; [by apply retain_ok | exact H2 | exact H3].
Qed.

(** The order to load a world at which the stream starts. *)
Lemma load_opens st b b' sent file :
  opens st b sent → outbox b' = push_back (outbox b) (HookLoad file (start_sealed_through st + 1)) →
  hook_ready b' = hook_ready b → begun b' = begun b → wire b' = wire b → b_follower b' = b_follower b →
  is_fetching (b_world b') = false → bridge_ok b' sent.
Proof.
  intros [[H1 H2 H3 H4 H5] Hb (f & Hf & ts & Hst & Hc & Hs & Hmax & He & Hl)] E1 E2 E3 E4 E5 E6.
  set (m := HookLoad file (start_sealed_through st + 1)) in *.
  assert (all b' sent = all b sent ++ [m]) as Ea by (unfold all; rewrite E1; cbn; by rewrite app_assoc).
  assert (after_begin (all b' sent) = after_begin (all b sent) ++ [m]) as Eg by (rewrite Ea, after_begin_app, H3, Hb; done).
  assert (deeds 0 (after_begin (all b' sent))
          = deeds 0 (after_begin (all b sent)) ++ Loads (start_sealed_through st + 1) :: (Does <$> [])) as Ed
    by (rewrite Eg, deeds_app0; done).
  assert (tells f (b_world b') (after_begin (all b' sent))) as Ht.
  { exists st, ts, (log_actions (start_sealed_through st) ts). do 5 (split; [done |]).
    assert (stand None (after_begin (all b' sent)) = Some (executed f)) as Estand.
    { rewrite Eg, stand_app. cbn. f_equal. lia. }
    destruct (b_world b'); [| done |]; by exists [], (deeds 0 (after_begin (all b sent))). }
  split; [split |].
  - by rewrite E4.
  - by rewrite E2.
  - by rewrite Ea, existsb_app, H3, E3, Hb.
  - rewrite Eg. apply stream_ok_app. split; [done |]. cbn in Hs |- *. split; [lia | done].
  - by eapply tells_story.
  - rewrite E5, Hf, E3. done.
Qed.

Lemma load_ok st file : hoare (opens st) (order_load options path_ok file (start_sealed_through st + 1)) bridge_ok.
Proof.
  unfold order_load. apply (hoare_bind _ (opens st)).
  { destruct file as [file |]; [| intros b sent H; by exists sent]. unfold path_text. intros b sent H.
    destruct (path_ok file); [by exists sent | by eapply opens_failed]. }
  intros file'. apply (hoare_bind _ (opens st)); [apply void_opens |]. intros _ b sent H.
  unfold mbind, SE_bind, enqueue, set_status, se_mod. exists sent. eapply load_opens; [exact H |..];
    by destruct (has_status options).
Qed.

Lemma fetch_ok st offer : hoare (opens st) (fetch_world options offer (start_sealed_through st + 1)) bridge_ok.
Proof.
  unfold fetch_world. destruct (negb _); [intros b sent H; by eapply opens_failed |].
  apply (hoare_bind _ (opens st)); [apply void_opens |]. intros _ b sent H.
  unfold mbind, SE_bind, ask, set_status, se_mod, se_get. exists sent.
  destruct H as [H1 Hb (f & Hf & ts & Hst & Hc & Hs & Hmax & He & Hl)].
  assert (∀ b', outbox b' = outbox b → hook_ready b' = hook_ready b → begun b' = begun b → wire b' = wire b →
    b_follower b' = b_follower b → (∃ o k, b_world b' = WorldFetching o (start_sealed_through st + 1) k) →
    bridge_ok b' sent) as Hgen.
  { intros b' E1 E2 E3 E4 E5 (o & k & E6). split; [by eapply (sends_same b) |]. rewrite E5, Hf, E3, E6. split; [done |].
    assert (all b' sent = all b sent) as -> by (unfold all; by rewrite E1).
    exists st, ts, (log_actions (start_sealed_through st) ts). do 5 (split; [done |]). do 3 (split; [done |]). apply H1. }
  apply Hgen; destruct (has_status options); try done; by eexists _, _.
Qed.

(** A bridge that has begun, or is about to say so. *)
Lemma begin_ok b b' sent m :
  sends_ok b sent → begun b = false → is_begin m = true → outbox b' = push_back (outbox b) m →
  hook_ready b' = hook_ready b → wire b' = wire b → begun b' = true → sends_ok b' sent.
Proof.
  intros [H1 H2 H3 H4 H5] Hb Hm E1 E2 E3 E4.
  assert (all b' sent = all b sent ++ [m]) as Ea by (unfold all; rewrite E1; cbn; by rewrite app_assoc).
  assert (after_begin (all b' sent) = []) as Eg by (rewrite Ea, after_begin_app, H3, Hb; cbn; by rewrite Hm).
  split; rewrite ?Eg, ?E2, ?E3, ?E4; try done.
  - rewrite Ea, existsb_app. cbn. rewrite Hm. by rewrite orb_true_r.
  - constructor.
Qed.

(** After the game was told to begin: the follower is still the one there was. *)
Record begins (b0 b : Bridge) (sent : list ToHook) : Prop := {
  bg_sends : sends_ok b sent;
  bg_begun : begun b = true;
  bg_follower : b_follower b = b_follower b0;
  bg_ok : b_follower b0 ≠ None → bridge_ok b sent;
}.

Lemma anew_opens b0 st :
  EvTurnStream st ∈ evs → sane (EvTurnStream st) →
  hoare (begins b0) (se_mod (λ b, b <| b_follower := Some (TurnFollower_new st) |>)) (opens st).
Proof.
  intros Hin Hs. apply hoare_mod. intros b sent [H1 H2 H3 _]. split; [by eapply (sends_same b) | exact H2 |].
  exists (TurnFollower_new st). split; [done |]. by apply new_fresh.
Qed.

Lemma restart_ok b0 st f f' :
  b_follower b0 = Some f → restart f st = Ok f' →
  hoare (begins b0) (se_mod (λ b, b <| b_follower := Some f' |>)) bridge_ok.
Proof.
  intros Hf Hr. apply hoare_mod. intros b sent [H1 H2 H3 H4]. assert (b_follower b0 ≠ None) as Hne by (by rewrite Hf). pose proof (H4 Hne) as H.
  pose proof (bo_follower _ _ H) as Ht. rewrite H3, Hf in Ht. destruct Ht as [_ Ht].
  split; [by eapply (sends_same b) |]. cbn. split; [done |].
  unfold restart in Hr. repeat case_match; try done. injection Hr as <-. exact Ht.
Qed.

Lemma pres_stream st :
  EvTurnStream st ∈ evs → sane (EvTurnStream st) → pres (on_stream options path_ok st).
Proof.
  intros Hin Hs. apply pres_get. intros b0 sent0 H0.
  assert (saturating_add_u64 (start_sealed_through st) 1 = start_sealed_through st + 1) as En.
  { cbn in Hs. unfold saturating_add_u64, u64_max in *. lia. }
  cbn zeta. rewrite En. unfold mbind at 1, SE_bind at 1, se_mod at 1. set (b1 := b0 <| reported := None |> <| b_playout := _ |>).
  assert (bridge_ok b1 sent0) as H1 by (by eapply (bridge_same b0)).
  apply (hoare_bind (λ b sent, b = b1 ∧ bridge_ok b sent) (begins b0)) with (sent := sent0); [| | done].
  { intros b sent [-> H]. destruct (begun b0) eqn:Hb.
    - exists sent. split; [apply H | done | done | done].
    - unfold mbind, SE_bind, se_mod, path_text, enqueue. destruct (path_ok _); [| split; [exists sent; destruct (bridge_sound _ _ H); by split | done]].
      exists sent. split; [| done | done |].
      + eapply (begin_ok b1); [apply H | done | | done..]. done.
      + pose proof (bo_follower _ _ H) as Hf. change (b_follower b1) with (b_follower b0) in Hf.
        destruct (b_follower b0); [| done]. destruct Hf as [Hf _]. change (begun b1) with (begun b0) in Hf. congruence. }
  intros _. destruct (start_world st) as [offer |].
  { apply (hoare_bind _ (opens st)); [by apply anew_opens |]. intros _. apply fetch_ok. }
  destruct (b_follower b0) as [f |] eqn:Hf.
  - destruct (restart f st) as [f' | e] eqn:Hr; [by eapply restart_ok |].
    destruct (_ && _); [| intros b sent H; eapply sends_failed; [done | apply H]].
    apply (hoare_bind _ (opens st)); [by apply anew_opens |]. intros _. apply load_ok.
  - apply (hoare_bind _ (opens st)); [by apply anew_opens |]. intros _. apply load_ok.
Qed.

(** A turn the follower accepts is more of its stream. *)
Lemma tells_accept f f' w gate t :
  EvTurn t ∈ evs → sane (EvTurn t) → accept f t = Ok f' → tells f w gate → tells f' w gate.
Proof.
  intros Hin Hs Ha (st & ts & left & [Hst1 [Hst2 _]] & Hc & Hsane & Hmax & Hl & Hw).
  apply accept_Ok in Ha as (Hf & _ & Hv). pose proof (chain_snoc _ _ _ _ Hc Hf) as Hc'.
  assert (follower_pos f' = after (follower_pos f) t ∧ executed f' = executed f ∧ queue f' = queue f ++ events t)
    as (Ep & Ee & Eq) by (by rewrite Hv). pose proof Ep as Es. injection Es as _ _ Es.
  pose proof (chain_frontier _ _ _ Hc) as Hfr. cbn in Hfr.
  assert (log_actions (start_sealed_through st) (ts ++ [t])
          = log_actions (start_sealed_through st) ts ++ turn_actions (f_sealed_through f) t) as El.
  { rewrite log_actions_app, <- Hfr. cbn. by rewrite app_nil_r. }
  exists st, (ts ++ [t]), (left ++ turn_actions (f_sealed_through f) t).
  split; [split; [done |]; split; [apply Forall_app; by repeat constructor | by eexists] |].
  split; [by rewrite Ep |]. split; [done |]. split; [by rewrite Es |].
  split; [rewrite Ee, Es, Eq; apply left_accept; [done |..]; apply Hf |].
  rewrite El, Ee. destruct w; [| destruct Hw as (? & ? & -> & ?); done |];
    destruct Hw as (acts & ds & H1 & <- & H2 & H3); exists acts, ds; by rewrite app_assoc.
Qed.

Lemma pres_turn t now : EvTurn t ∈ evs → sane (EvTurn t) → pres (on_turn_event representable options t now).
Proof.
  intros Hin Hs. apply pres_get. intros b sent H. destruct (b_follower b) as [f |] eqn:Hf; [| by eapply bridge_failed].
  unfold mbind at 1, SE_bind at 1, se_lift. destruct (accept f t) as [f' | e] eqn:Ha; [| by eapply bridge_failed].
  apply (hoare_bind (λ b' sent', b' = b ∧ sent' = sent) bridge_ok) with (sent := sent); [| | done].
  - apply hoare_mod. intros b' sent' [-> ->]. destruct H as [H1 H2]. rewrite Hf in H2. destruct H2 as [H2 H3].
    split; [by eapply (sends_same b) |]. cbn. split; [done |]. by eapply tells_accept.
  - intros _. change (pres (if negb (f_speed f' =? b_speed b) then
      _ ← se_mod (λ b, b <| b_speed := f_speed f' |>); _ ← enqueue (HookSpeed (f_speed f'));
      set_status options (λ s, s <| st_speed := f_speed f' |>) else mret tt)).
    destruct (negb _); [| apply pres_ret]. apply pres_bind; [idle |]. intros _.
    apply pres_bind; [by apply pres_enqueue | intros _; apply pres_status].
Qed.

Ltac steps :=
  repeat lazymatch goal with
  | |- pres (mret _) => apply pres_ret
  | |- pres (ask _) => apply pres_ask
  | |- pres (call_client _ _) => apply pres_call
  | |- pres (set_status _ _) => apply pres_status
  | |- pres (enqueue _) => by apply pres_enqueue
  | |- pres (se_get ≫= _) => fail
  | |- pres (_ ≫= _) => apply pres_bind; [| intros ?]
  end.

Lemma pres_event ev now :
  ev ∈ evs → sane ev →
  pres (on_event representable options path_ok player_text reason_text ev now).
Proof.
  intros Hin Hs. destruct ev; cbn [on_event]; steps.
  - by apply pres_stream.
  - by apply pres_turn.
  - unfold upload. destruct (worlds options); steps.
  - apply pres_with. intros b. steps. destruct (begun b); steps.
Qed.

Lemma pres_tidy : pres (tidy options).
Proof. apply pres_with. intros b. destruct (worlds options); steps. Qed.

Lemma tells_fresh f o n k gate :
  tells f (WorldFetching o n k) gate → ∃ st, n = start_sealed_through st + 1 ∧ fresh st f.
Proof.
  intros (st & ts & left & H1 & H2 & H3 & H4 & H5 & -> & He & -> & _). exists st. split; [done |]. by exists ts.
Qed.

Lemma fetched_opens b sent o n k :
  bridge_ok b sent → b_world b = WorldFetching o n k → ∃ st, n = start_sealed_through st + 1 ∧ opens st b sent.
Proof.
  intros [H1 H2] Hw. destruct (b_follower b) as [f |] eqn:Hf; [| destruct H2; congruence]. destruct H2 as [H2 H3].
  rewrite Hw in H3. apply tells_fresh in H3 as (st & -> & Hfr). exists st. split; [done |]. split; [done | done |]. by exists f.
Qed.

Lemma tidy_opens st : hoare (opens st) (tidy options) (opens st).
Proof.
  intros b sent H. unfold tidy, mbind, SE_bind, se_get. destruct (worlds options); exists sent; [| done]. by eapply (opens_same st b).
Qed.

Lemma pres_done d : pres (on_done options client_ends path_ok d).
Proof.
  destruct d as [event lanes [[id world] |] | attempt res |]; cbn [on_done]; steps; [idle | apply pres_tidy |].
  apply pres_get. intros b sent H. destruct (b_world b) as [| o n k |] eqn:Hw; [exact (pres_ret (A := option BridgeEnd) None b sent H) | | exact (pres_ret (A := option BridgeEnd) None b sent H)].
  destruct (negb _); [exact (pres_ret (A := option BridgeEnd) None b sent H) |]. destruct (fetched_opens _ _ _ _ _ H Hw) as (st & -> & Hop).
  destruct res as [[file id] | e].
  - apply (hoare_bind (opens st) (opens st)) with (sent := sent);
      [by apply hoare_mod; intros b1 ? ?; eapply (opens_same st b1) | intros _ | done].
    apply (hoare_bind _ (opens st)); [by apply hoare_mod; intros b1 ? ?; eapply (opens_same st b1) | intros _].
    apply (hoare_bind _ (opens st)); [apply tidy_opens | intros _].
    apply (hoare_bind _ bridge_ok); [apply load_ok | intros _]. exact (pres_ret (A := option BridgeEnd) None).
  - exists sent. by eapply (bridge_same b).
Qed.

Lemma pres_control c : pres (on_control c).
Proof. destruct c; cbn [on_control]; steps. Qed.

(** * Rounds *)
Definition offered (r : Round) : option ClientEvent := match choice r with ChooseEvent ev => ev | _ => None end.

Lemma pres_round r :
  (∀ ev, offered r = Some ev → ev ∈ evs) → Forall sane evs →
  pres (run_round representable options client_ends path_ok player_text reason_text r).
Proof.
  intros Hin Hs. unfold run_round. cbn zeta.
  apply pres_bind; [apply pres_check_hook | intros _]. apply pres_bind; [apply pres_read_hook | intros _].
  apply pres_bind; [apply pres_report | intros _]. apply pres_bind; [apply pres_pump | intros _].
  apply pres_bind; [apply pres_flush | intros _]. apply pres_with. intros b.
  unfold offered in Hin. destruct (choice r) as [ev | d | c |].
  - destruct (is_full (outbox b)); [apply pres_ret |]. destruct ev as [ev |]; [| apply pres_ret].
    specialize (Hin ev eq_refl). apply pres_event; [done |]. by eapply Forall_forall.
  - apply pres_done.
  - apply pres_control.
  - apply pres_ret.
Qed.

Lemma run_kept rounds b sent :
  bridge_ok b sent → Forall (λ r, ∀ ev, offered r = Some ev → ev ∈ evs) rounds → Forall sane evs →
  match run_bridge representable options client_ends path_ok player_text reason_text b rounds with
  | (b', Ok _) => ∃ sent', bridge_ok b' sent'
  | (b', Err e) => failed_ok e b'
  end.
Proof.
  revert b sent. induction rounds as [| r rounds IH]; intros b sent H Hr Hs; cbn [run_bridge]; [by exists sent |].
  apply Forall_cons in Hr as [Hr Hrs]. pose proof (pres_round r Hr Hs b sent H) as Hp.
  destruct (run_round _ _ _ _ _ _ r b) as [b' [[e |] | e]]; [exact Hp | | exact Hp].
  destruct Hp as [sent' H']. by eapply IH.
Qed.

(** ** The end of a session *)
Lemma sound_enqueue b sent m : inert m = true → stream_sound b sent → stream_sound (b <| outbox ::= λ o, push_back o m |>) sent.
Proof.
  intros Hm [H1 H2 H3 H4]. assert (existsb is_begin [m] = false) as Hb by (by destruct m). split; [done | done | |]; rewrite all_push, after_begin_app.
  - destruct (existsb is_begin (all b sent)); [|by rewrite (after_begin_none [m])]. apply stream_ok_app. split; [done |]. split; [| done]. by destruct m.
  - destruct (existsb is_begin (all b sent)); [|rewrite (after_begin_none [m]) by done; constructor]. by destruct (inert_more (after_begin (all b sent)) m Hm) as [-> _].
Qed.

Lemma sound_flush takes broken waiting b sent : messages (outbox b) = waiting → hook_ready b = true → stream_sound b sent →
  ∃ sent', stream_sound (flush_loop takes broken waiting b).1 sent'.
Proof.
  revert takes b sent. induction waiting as [| m waiting IH]; intros takes b sent Hm Hr H; cbn [flush_loop]; [by exists sent |].
  unfold mbind at 1, SE_bind at 1, se_lift. destruct (encode_message m) as [bytes | e] eqn:Em; [| by exists sent].
  destruct takes as [| takes]; [destruct broken; by exists sent |].
  unfold mbind, SE_bind, se_mod. apply (IH takes _ (sent ++ [m])); [cbn; unfold pop_front; by rewrite Hm | done |].
  set (b' := b <| wire ::= λ w, w ++ [bytes] |> <| outbox ::= λ o, (pop_front o).1 |>).
  assert (all b' (sent ++ [m]) = all b sent) as Ea.
  { unfold all. subst b'. cbn. unfold pop_front. rewrite Hm. cbn. by rewrite <- app_assoc. }
  destruct H as [H1 H2 H3 H4]. split; rewrite ?Ea; try done; cbn; [apply Forall2_app; [done |]; by repeat constructor | by rewrite Hr].
Qed.

Lemma end_sound reason takes broken b sent : stream_sound b sent → ∃ sent', stream_sound (end_session reason takes broken b).1 sent'.
Proof.
  intros H. set (b1 := (b <| fetch := false |>) <| outbox ::= λ o, push_back o (HookEnd reason) |>).
  assert (H1 : stream_sound b1 sent) by (apply sound_enqueue; [done |]; destruct H; by split).
  change ((end_session reason takes broken b).1) with ((flush takes broken b1).1).
  unfold flush, mbind, SE_bind, se_get. destruct (hook_ready b1) eqn:Hr; cbn [negb]; [| by exists sent]. by eapply sound_flush.
Qed.

Lemma Bridge_new_ok beat now : bridge_ok (Bridge_new beat now) [].
Proof. split; [split |]; try done; constructor. Qed.
End story.
