(* ===== verification/Rejoin.v ===== *)
(** Playing a room over connections that come and go ([play], [rejoin_room] and
    [worth_rejoining] of [crates/tpf3mp-agent/src/bridge.rs]): the bridge runs on one
    connection until it is lost, rejoins the room on another, asking to resume where the
    game stands, and runs on. *)
From S2P Require Import Prelude Proto TurnLog Follower Gate Playout Bridge BridgeInv.
From S2P Require Room.
Local Open Scope Z_scope.

(** * Rejoining *)

(** [quinn::ConnectionError]. *)
Inductive Closing := LocallyClosed | OtherVersion | ApplicationClosed (code : Room.CloseCode) | ConnectionLost.

Definition worth_rejoining (reason : Closing) : bool :=
  match reason with
  | LocallyClosed | OtherVersion => false
  | ApplicationClosed (Room.REPLACED | Room.PROTOCOL_VIOLATION | Room.VERSION_MISMATCH | Room.IDLE) => false
  | ApplicationClosed _ | ConnectionLost => true
  end.

(** An attempt to connect and join: how long it takes, and whether a failure is that the
    room cannot resume. *)
Record Attempt := MkAttempt { takes : Duration; ends : result unit bool }.

Definition FIRST_BACKOFF : Duration := from_millis 250.
Definition MAX_BACKOFF : Duration := from_secs 5.

Section rejoin.
Context (attempts : nat → option Resume → Attempt).

(** The loop, from its [n]th attempt: when it ends, and the attempt that succeeded with
    what it asked to resume. *)
Fixpoint rejoin_loop (fuel n : nat) (now deadline : Instant) (backoff : Duration) (resume : option Resume) :
    option (Instant * option (nat * option Resume)) :=
  match fuel with
  | O => None
  | S fuel =>
      let attempt := attempts n resume in
      let now := now + takes attempt in
      match ends attempt with
      | Ok _ => Some (now, Some (n, resume))
      | Err gone =>
          if gone && bool_decide (is_Some resume) then rejoin_loop fuel (S n) now deadline backoff None
          else if deadline <=? now + backoff then Some (now, None)
          else rejoin_loop fuel (S n) (now + backoff) deadline (Z.min (backoff * 2) MAX_BACKOFF) resume
      end
  end.

(** Enough for every attempt there is time for. *)
Definition rejoin_fuel (give_up_after : Duration) : nat := Z.to_nat (give_up_after / FIRST_BACKOFF) + 3.

Definition rejoin_room (now : Instant) (give_up_after : Duration) (resume : option Resume) : option (Instant * option (nat * option Resume)) :=
  rejoin_loop (rejoin_fuel give_up_after) 0 now (now + give_up_after) FIRST_BACKOFF resume.

Hypothesis attempts_take : ∀ n resume, 0 ≤ takes (attempts n resume).

Lemma rejoin_loop_ends fuel n now deadline backoff resume :
  FIRST_BACKOFF ≤ backoff ≤ MAX_BACKOFF →
  Z.max 0 (deadline - now) / FIRST_BACKOFF + 1 + (if bool_decide (is_Some resume) then 1 else 0) < Z.of_nat fuel →
  ∃ t r, rejoin_loop fuel n now deadline backoff resume = Some (t, r) ∧ now ≤ t ∧
    match r with
    | Some (k, asked) => (n ≤ k)%nat ∧ ends (attempts k asked) = Ok tt ∧
        (asked = resume ∨ asked = None ∧ ∃ j, (n ≤ j < k)%nat ∧ ends (attempts j resume) = Err true)
    | None => deadline ≤ t + MAX_BACKOFF
    end.
Proof.
  assert (HF : 0 < FIRST_BACKOFF) by (by vm_compute). assert (HM : FIRST_BACKOFF ≤ MAX_BACKOFF) by (by vm_compute).
  revert n now backoff resume. induction fuel as [|fuel IH]; intros n now backoff resume Hb Hfuel.
  { pose proof (Z.div_pos (Z.max 0 (deadline - now)) FIRST_BACKOFF ltac:(lia) HF). destruct (bool_decide _); lia. }
  cbn [rejoin_loop]. pose proof (attempts_take n resume) as Ht. destruct (ends (attempts n resume)) as [[]|gone] eqn:He.
  { exists (now + takes (attempts n resume)), (Some (n, resume)). split; [done|]. split; [lia|]. split; [lia|]. split; [done | by left]. }
  assert (Hmono : ∀ now', now ≤ now' → Z.max 0 (deadline - now') / FIRST_BACKOFF ≤ Z.max 0 (deadline - now) / FIRST_BACKOFF).
  { intros now' Hn. apply Z.div_le_mono; lia. }
  destruct (gone && bool_decide (is_Some resume)) eqn:Hgone.
  - apply andb_true_iff in Hgone as [-> Hsome]. rewrite Hsome in Hfuel.
    destruct (IH (S n) (now + takes (attempts n resume)) backoff None Hb) as (t & r & E & Hle & Hr).
    { rewrite bool_decide_eq_false_2 by (by intros []). specialize (Hmono (now + takes (attempts n resume)) ltac:(lia)). lia. }
    exists t, r. split; [exact E|]. split; [lia|]. destruct r as [[k asked]|]; [|done]. destruct Hr as (Hk & Hok & Hasked).
    split; [lia|]. split; [done|]. right. destruct Hasked as [-> | [-> _]]; (split; [done|]; exists n; split; [lia | done]).
  - destruct (Z.leb_spec deadline (now + takes (attempts n resume) + backoff)) as [Hd|Hd].
    { eexists _, None. split; [done|]. lia. }
    set (now' := now + takes (attempts n resume) + backoff) in *.
    destruct (IH (S n) now' (Z.min (backoff * 2) MAX_BACKOFF) resume) as (t & r & E & Hle & Hr); [lia | |].
    { assert (Z.max 0 (deadline - now') / FIRST_BACKOFF + 1 ≤ Z.max 0 (deadline - now) / FIRST_BACKOFF); [|lia].
      rewrite <- Z.div_add by lia. rewrite Z.mul_1_l. apply Z.div_le_mono; lia. }
    exists t, r. split; [exact E|]. split; [lia|]. destruct r as [[k asked]|]; [|done]. destruct Hr as (Hk & Hok & Hasked).
    split; [lia|]. split; [done|]. destruct Hasked as [-> | [-> (j & Hj & Hej)]]; [by left | right]. split; [done|]. exists j. split; [lia | done].
Qed.

(** C12: Rejoining ends: either with an attempt that succeeded, which asked to resume
    where the game stands, or joined afresh only after the room had said that it cannot
    resume; or it gives up, and not before what is left of the time is less than the
    longest pause between attempts. *)
Theorem rejoin_ends now give_up_after resume : 0 ≤ give_up_after →
  ∃ t r, rejoin_room now give_up_after resume = Some (t, r) ∧ now ≤ t ∧
    match r with
    | Some (k, asked) => ends (attempts k asked) = Ok tt ∧
        (asked = resume ∨ asked = None ∧ ∃ j, (j < k)%nat ∧ ends (attempts j resume) = Err true)
    | None => now + give_up_after ≤ t + MAX_BACKOFF
    end.
Proof.
  intros Hg. unfold rejoin_room, rejoin_fuel. assert (HF : 0 < FIRST_BACKOFF) by (by vm_compute).
  destruct (rejoin_loop_ends (Z.to_nat (give_up_after / FIRST_BACKOFF) + 3) 0 now (now + give_up_after) FIRST_BACKOFF resume) as (t & r & E & Hle & Hr).
  - split; [done | by vm_compute].
  - rewrite Z.max_r by lia. replace (now + give_up_after - now) with give_up_after by lia.
    pose proof (Z.div_pos give_up_after FIRST_BACKOFF Hg HF). destruct (bool_decide _); lia.
  - exists t, r. split; [exact E|]. split; [done|]. destruct r as [[k asked]|]; [|done]. destruct Hr as (_ & H1 & H2). split; [done|].
    destruct H2 as [-> | [-> (j & Hj & Hej)]]; [by left | right; split; [done|]; exists j; split; [lia | done]].
Qed.
End rejoin.

(** A server that restarts: two attempts find nobody, the third finds a room that lost
    the turns, and the fourth joins it afresh. *)
Definition flaky (n : nat) (resume : option Resume) : Attempt :=
  MkAttempt (from_millis 10) (match n with 0%nat | 1%nat => Err false | _ => if resume is Some _ then Err true else Ok tt end).

Lemma rejoin_ends_witness : ∃ t r, rejoin_room flaky 0 (from_secs 60) (Some (MkResume 7 3)) = Some (t, r) ∧ r = Some (3%nat, None) ∧ 0 ≤ t.
Proof.
  destruct (rejoin_ends flaky ltac:(intros n [|]; vm_compute; discriminate) 0 (from_secs 60) (Some (MkResume 7 3)) ltac:(by vm_compute)) as (t & r & E & Ht & _).
  exists t, r. split; [exact E|]. split; [|done]. vm_compute in E. congruence.
Defined.

(** * Playing *)

(** A connection, as the bridge fares on it: what it goes through; why the connection
    closed, if the events say so; and if a call of the client fails, whether that is a
    lost connection and says within [CLOSE_NOTICE] why.  Then the attempts to get
    another, and what the link still takes of a last message. *)
Record Leg := MkLeg {
  leg_rounds : list Round;
  leg_reason : Closing;
  leg_lost : option Closing;
  leg_at : Instant;
  leg_attempts : nat → option Resume → Attempt;
  leg_last : Text;
  leg_takes : nat;
  leg_broken : bool;
}.

Inductive PlayEnd := StillPlaying | PlayOver (e : BridgeEnd) | PlayFault (f : BridgeFault) | RejoinFailed.

Section play.
Context {PH : Postcard ToHook} {PA : Postcard ToAgent}.
Context (representable : Instant → bool) (options : BridgeOptions).
Context (client_ends : nat → result unit BridgeFault).
Context (path_ok : Text → bool) (player_text : PlayerId → Text) (reason_text : IntentRejection → Text).
Context (give_up_after : Duration).

Abbreviation run := (run_bridge representable options client_ends path_ok player_text reason_text).

(** How a connection ended, with why it closed. *)
Definition leg_ended (leg : Leg) (ran : result (option BridgeEnd) BridgeFault) : result (option (BridgeEnd * Closing)) BridgeFault :=
  match ran with
  | Ok None => Ok None
  | Ok (Some e) => Ok (Some (e, leg_reason leg))
  | Err FaultClient => match leg_lost leg with Some reason => Ok (Some (EndClosed, reason)) | None => Err FaultClient end
  | Err f => Err f
  end.

Definition rejoins (e : BridgeEnd) (reason : Closing) : bool :=
  match e with EndClosed => worth_rejoining reason | WorldUnavailable => true | _ => false end.

Definition note (text : Text) (b : Bridge) : Bridge := (set_status options (notice text) b).1.

Definition finish (leg : Leg) (b : Bridge) : Bridge := (end_session (leg_last leg) (leg_takes leg) (leg_broken leg) b).1.

Fixpoint play (b : Bridge) (legs : list Leg) : Bridge * PlayEnd :=
  match legs with
  | [] => (b, StillPlaying)
  | leg :: legs =>
      let '(b, ran) := run b (leg_rounds leg) in
      match leg_ended leg ran with
      | Ok None => (b, StillPlaying)
      | Err f => (finish leg b, PlayFault f)
      | Ok (Some (e, reason)) =>
          if negb (rejoins e reason) then (finish leg b, PlayOver e)
          else
            let b := match e with EndClosed => note "lost the server; rejoining the room" b | _ => b end in
            match rejoin_room (leg_attempts leg) (leg_at leg) give_up_after (bridge_resume_point b) with
            | Some (_, Some _) => play (note "rejoined the room" b) legs
            | _ => (finish leg b, RejoinFailed)
            end
      end
  end.

(** What every connection brought, as far as the bridge was given it. *)
Definition leg_events (legs : list Leg) : list ClientEvent := legs ≫= λ leg, omap offered (leg_rounds leg).

(** Across connections, what the hook is sent is one beginning of a story. *)
Lemma play_sound evs legs b sent :
  bridge_ok evs b sent → (∀ ev, ev ∈ leg_events legs → ev ∈ evs) → Forall sane evs → ∃ sent', stream_sound evs (play b legs).1 sent'.
Proof.
  revert b sent. induction legs as [|leg legs IH]; intros b sent H Hin Hs; cbn [play]; [exists sent; by apply bridge_sound|].
  assert (Hr : Forall (λ r, ∀ ev, offered r = Some ev → ev ∈ evs) (leg_rounds leg)).
  { apply Forall_forall. intros r Hr ev Hev. apply Hin. unfold leg_events. cbn. apply elem_of_app. left.
    apply list_elem_of_omap. by exists r. }
  assert (Hin' : ∀ ev, ev ∈ leg_events legs → ev ∈ evs) by (intros ev Hev; apply Hin; unfold leg_events; cbn; apply elem_of_app; by right).
  pose proof (run_kept evs representable options client_ends path_ok player_text reason_text (leg_rounds leg) b sent H Hr Hs) as Hk.
  destruct (run b (leg_rounds leg)) as [b1 ran].
  assert (Hnote : ∀ text b0 sent0, bridge_ok evs b0 sent0 → ∃ sent1, bridge_ok evs (note text b0) sent1).
  { intros text b0 sent0 H0. exact (pres_status evs options (notice text) b0 sent0 H0). }
  assert (Hfin : ∀ b0 sent0, stream_sound evs b0 sent0 → ∃ sent1, stream_sound evs (finish leg b0) sent1).
  { intros b0 sent0 H0. by eapply end_sound. }
  assert (Hgo : ∀ e reason, (∃ sent1, bridge_ok evs b1 sent1) →
    ∃ sent', stream_sound evs (if negb (rejoins e reason) then (finish leg b1, PlayOver e) else
      let b := match e with EndClosed => note "lost the server; rejoining the room" b1 | _ => b1 end in
      match rejoin_room (leg_attempts leg) (leg_at leg) give_up_after (bridge_resume_point b) with
      | Some (_, Some _) => play (note "rejoined the room" b) legs
      | _ => (finish leg b, RejoinFailed)
      end).1 sent').
  { intros e reason [sent1 H1]. destruct (negb (rejoins e reason)); [eapply Hfin; by apply bridge_sound|]. cbv zeta.
    set (b2 := match e with EndClosed => _ | _ => b1 end).
    assert (∃ sent2, bridge_ok evs b2 sent2) as [sent2 H2] by (destruct e; [by eapply Hnote | by exists sent1..]).
    destruct (rejoin_room _ _ _ _) as [[t [x|]]|]; [|eapply Hfin; by apply bridge_sound..].
    destruct (Hnote "rejoined the room"%string b2 sent2 H2) as [sent3 H3]. by eapply IH. }
  destruct ran as [[e|]|f]; cbn [leg_ended].
  - exact (Hgo e (leg_reason leg) Hk).
  - destruct Hk as [sent1 H1]. exists sent1. by apply bridge_sound.
  - destruct Hk as [[sent1 H1] H2]. destruct f; try (by eapply Hfin). destruct (leg_lost leg) as [reason|]; [|by eapply Hfin].
    exact (Hgo EndClosed reason (H2 eq_refl)).
Qed.

Lemma play_wire evs legs beat now :
  (∀ ev, ev ∈ leg_events legs → ev ∈ evs) → Forall sane evs → wire_ok evs (play (Bridge_new beat now) legs).1.
Proof. intros Hin Hs. destruct (play_sound evs legs (Bridge_new beat now) [] (Bridge_new_ok evs beat now) Hin Hs) as [sent H]. by eapply sound_wire. Qed.
End play.
