(* ===== verification/Seat.v ===== *)
(** A player's seat: the agent's bridge, the ring it shares with the game, and the
    hook inside the game, put together.  The three were proved apart, each against
    what it may rely on of the next: the bridge keeps the gate's contract
    ([Gate.stream_ok]), the ring is a queue, and the session does what a stream
    that keeps the contract says. *)
From S2P Require Import Prelude Proto Codec TurnLog Follower Gate Hook Ring Playout Bridge BridgeInv Rejoin BridgeCodec.
Local Open Scope Z_scope.

Section seat.
Context {PA : Postcard ToAgent} {PH : Postcard ToHook} {LH : PostcardLaws ToHook}.

(** * The hook's opening *)
Section opening.
Context (send_ends : nat → result unit SessionError).

(** [attach] and [wait_for_begin], [opening] being what the link had for the hook
    by then. *)
Definition open_session (build : Text) (opening : list (list Z)) (beat : Z) (now : Instant) : option Session :=
  match attach send_ends build ((Session_new beat now) <| inbox := opening |>) with
  | (s, Ok (Some _)) =>
      match wait_for_begin (inbox s) s with
      | (s, Ok (Some _)) => Some s
      | _ => None
      end
  | _ => None
  end.

(** What [wait_for_begin] reads ends with the first [HookBegin]. *)
Lemma wait_reads waiting s s' bg :
  inbox s = waiting → wait_for_begin waiting s = (s', Ok (Some bg)) →
  gate s' = gate s ∧ pending_load s' = pending_load s ∧ done s' = done s ∧
  ∃ used pre, waiting = used ++ inbox s' ∧ Forall2 decodes_to used pre ∧
    existsb is_begin pre = true ∧ after_begin pre = [].
Proof.
  revert s. induction waiting as [| bytes waiting IH]; intros s Hi; cbn [wait_for_begin]; [done |].
  unfold mbind, SE_bind, se_mod, se_lift. destruct (decode_message bytes) as [m | e] eqn:Em; [| done].
  set (s1 := s <| inbox := waiting |>). destruct m as [| rules steps interval dir | | | | | | | | from text]; try done.
  - intros [= <- _]. split; [done |]. split; [done |]. split; [done |].
    exists [bytes], [HookBegin rules steps interval dir]. cbn. split; [done |]. split; [by repeat constructor | done].
  - intros Hw. destruct (IH s1 eq_refl Hw) as (E1 & E2 & E3 & used & pre & -> & Hd & Hb & Ha).
    split; [done |]. split; [done |]. split; [done |]. exists (bytes :: used), (HookChat from text :: pre).
    split; [done |]. split; [by constructor | done].
Qed.

Lemma open_reads build opening beat now s :
  (∀ n e, send_ends n = Err e → link_error e) → open_session build opening beat now = Some s →
  gate s = Gate_new 1 ∧ pending_load s = None ∧ done s = [] ∧
  ∃ used pre, opening = used ++ inbox s ∧ Forall2 decodes_to used pre ∧
    existsb is_begin pre = true ∧ after_begin pre = [].
Proof.
  intros Hsends. unfold open_session, attach. set (s0 := (Session_new beat now) <| inbox := opening |>).
  unfold mbind at 1, SE_bind at 1. pose proof (quietly_send send_ends Hsends (AgentHello BRIDGE_VERSION build) s0) as (Q1 & Q2 & Q3 & Q4 & _).
  destruct (send send_ends (AgentHello BRIDGE_VERSION build) s0) as [s1 [[] | e]]; [| done]. cbn [fst] in *.
  unfold mbind at 1, SE_bind at 1, se_get. rewrite Q3. change (inbox s0) with opening.
  destruct opening as [| bytes opening]; [done |].
  unfold mbind, SE_bind, se_mod, se_lift. destruct (decode_message bytes) as [m | e] eqn:Em; [| done].
  destruct m as [version | | | | | | | | |]; try done. destruct (check_version version); [| done].
  unfold mret, SE_ret. set (s2 := s1 <| inbox := opening |>).
  destruct (wait_for_begin (inbox s2) s2) as [s3 [[bg |] | e]] eqn:Hw; try done. intros [= <-].
  destruct (wait_reads _ s2 s3 bg eq_refl Hw) as (E1 & E2 & E3 & used & pre & Eo & Hd & Hb & Ha).
  rewrite E1, E2, E3. split; [exact Q1 |]. split; [exact Q2 |].
  split; [change (done s2) with (done s1); by rewrite Q4 |].
  exists (bytes :: used), (HookHello version :: pre). change (inbox s2) with opening in Eo. rewrite Eo.
  split; [done |]. split; [by constructor | done].
Qed.
End opening.

(** * The whole seat *)
Lemma encoded_decodes ms wire : Forall2 encoded ms wire → Forall2 decodes_to wire ms.
Proof. induction 1 as [| m bytes ms wire Hm _ IH]; constructor; [by apply message_roundtrip | done]. Qed.

Lemma decodes_det bs ms ms' : Forall2 decodes_to bs ms → Forall2 decodes_to bs ms' → ms = ms'.
Proof.
  intros H. revert ms'. induction H as [| bytes m bs ms Hm _ IH]; intros ms' H'; inversion H' as [| ? ? ? ? Hm' H'']; subst;
    [done |]. unfold decodes_to in Hm, Hm'. f_equal; [congruence | by apply IH].
Qed.

(** A prefix of what a bridge sent, as its receiver reads it after the opening. *)
Lemma prefix_reads evs b used rest pre :
  wire_ok evs b → used ++ rest `prefix_of` wire b → Forall2 decodes_to used pre →
  existsb is_begin pre = true → after_begin pre = [] →
  ∃ ms, Forall2 decodes_to rest ms ∧ stream_ok None ms ∧ story evs (deeds 0 ms).
Proof.
  intros (sent & He & Hs & Hst) [more Hp] Hpre Hb Ha. apply encoded_decodes in He. rewrite Hp in He.
  apply Forall2_app_inv_l in He as (sent1 & sent2 & H1 & _ & ->).
  apply Forall2_app_inv_l in H1 as (pre' & ms & H1 & H2 & ->). rewrite (decodes_det _ _ _ Hpre H1) in *.
  exists ms. rewrite <- app_assoc, after_begin_app, Hb, Ha in Hs, Hst. cbn [app] in Hs, Hst.
  apply stream_ok_app in Hs as [Hs _]. split; [done |]. split; [done |].
  eapply story_prefix; [exact Hst |]. apply deeds_prefix. by eexists.
Qed.

Context (representable : Instant → bool) (options : BridgeOptions).
Context (client_ends : nat → result unit BridgeFault).
Context (path_ok : Text → bool) (player_text : PlayerId → Text) (reason_text : IntentRejection → Text).
Context (send_ends : nat → result unit SessionError).
Context (lanes_of : nat → list LaneDigest) (save_of : nat → result unit Text).
Context (max_path_ok : Text → bool) (patience give_up_after : Duration).

(** A player's game does only what the room decided.  Put the agent's bridge,
    the ring it shares with the game and the hook together: however many connections
    the agent loses and rejoins the room on, whatever order the room's events, the hook's reports, finished transfers and the front end's
    requests come to the bridge in, however the two processes interleave on the
    ring, however the game polls, saves, loads and runs steps, and whatever fails
    on the way.  All that the game has done is worlds loaded one after the other,
    and on each of them the first actions of a gapless run of turns the room sent,
    which starts exactly where that world stands; and nothing makes the hook fail
    but a link or an agent that is gone. *)
Theorem game_follows_room (legs : list Leg) (beat0 : Z) (now0 : Instant)
    (cap max : Z) (ring_ops : list Sched.Op)
    (build : Text) (opening : list (list Z)) (beat : Z) (now : Instant) (s : Session) (hook_ops : list HookOp) :
  let evs := leg_events legs in
  let b := (play representable options client_ends path_ok player_text reason_text give_up_after
    (Bridge_new beat0 now0) legs).1 in
  let w := Sched.run (Sched.fresh cap max) ring_ops in
  let h := hook_run send_ends lanes_of save_of max_path_ok patience (MkHookRun s None None) hook_ops in
  Forall sane evs → sizes_ok cap max → (∀ n e, send_ends n = Err e → link_error e) →
  Sched.sent w = wire b →
  open_session send_ends build opening beat now = Some s →
  opening ++ delivered hook_ops = Sched.received w →
  story evs (done (session h)) ∧ (∀ e, failed h = Some e → link_error e).
Proof.
  intros evs b w h Hsane Hsizes Hsends Hsent Hopen Hrec.
  assert (wire_ok evs b) as Hwire by (by apply play_wire).
  assert (∃ unread, Sched.sent w = Sched.received w ++ unread) as [unread Hfifo].
  { destruct (Ring.run_ok cap max Hsizes ring_ops _ _ _ _ (fresh_ok cap max Hsizes)) as (hd & tl & unread & H).
    exists unread. apply H. }
  destruct (open_reads _ _ _ _ _ _ Hsends Hopen) as (E1 & E2 & E3 & used & pre & Eo & Hd & Hb & Ha).
  rewrite Hsent, <- Hrec, Eo, <- app_assoc in Hfifo.
  assert (used ++ (inbox s ++ delivered hook_ops) `prefix_of` wire b) as Hpre by (exists unread; by rewrite Hfifo, <- !app_assoc).
  destruct (prefix_reads evs b used (inbox s ++ delivered hook_ops) pre Hwire Hpre Hd Hb Ha) as (ms & Hms & Hok & Hstory).
  apply Forall2_app_inv_l in Hms as (ms1 & ms2 & Hms1 & Hms2 & ->).
  assert (Hook.run_ok (MkHookRun s None None) ms1) as H0.
  { exists [], ms1. split; [split; [done | exact Hms1] |]. split; [| done]. split; [done |]. cbn. rewrite E2. cbn.
    rewrite E1, E3. cbn. repeat split; lia || done. }
  pose proof (hook_run_ok send_ends lanes_of save_of max_path_ok patience Hsends hook_ops _ ms1 ms2 H0 Hms2 Hok) as Hr.
  fold h in Hr. unfold Hook.run_ok in Hr. destruct (failed h) as [e |].
  - destruct Hr as [He Hp]. split; [by eapply story_prefix | by intros ? [= <-]].
  - destruct Hr as (read & unr & [Er _] & Hfo & _). split; [| done].
    eapply story_prefix; [exact Hstory |]. eapply follows_prefix; [exact Hfo |]. by exists unr.
Qed.
End seat.

(** * A concrete seat *)
Module SeatExample.
Import ConcreteBridge.

Definition start : TurnStart := MkTurnStart 1 "rules" 1 1 0 10 4 7 None.
Definition joined : Event := MkEvent 1 1 (PlayerJoined 5 "ann" (MkPlatform Linux X86_64)).
Definition build_road : Event := MkEvent 2 3 (Command 5 0 [42]).
Definition first_turn : Turn := MkTurn 1 2 100 [joined].
Definition second_turn : Turn := MkTurn 2 3 100 [build_road].

Definition options : BridgeOptions := MkBridgeOptions 0 1000 1000 1000 10 false "saves" false.
Definition round (at_ : Z) (incoming : list (list Z)) (choice : Choice) : Round :=
  MkRound at_ at_ at_ incoming 10 false choice.
Definition rounds : list Round := [
  round 1 [Codec.encode (AgentHello BRIDGE_VERSION "game")] (ChooseEvent (Some (EvTurnStream start)));
  round 2 [] (ChooseEvent (Some (EvTurn first_turn)));
  round 500 [] (ChooseEvent (Some (EvTurn second_turn)));
  round (10 ^ 9) [] ChooseTimer;
  round (2 * 10 ^ 9) [] ChooseTimer ].
Definition legs : list Leg :=
  [MkLeg rounds ConnectionLost None 0 (λ _ _, MkAttempt 0 (Ok tt)) "" 0 false].
Definition fine {E : Type} : nat → result unit E := λ _, Ok tt.

Definition sent_bytes : list (list Z) :=
  wire (play (λ _, true) options fine (λ _, true) (λ _, ""%string) (λ _, ""%string) 0 (Bridge_new 0 0) legs).1.
Definition ring_ops : list Sched.Op :=
  sent_bytes ≫= λ m, Sched.CallPush m :: replicate (length m + 8) Sched.Produce
                     ++ Sched.CallPop 1000 :: replicate (length m + 8) Sched.Consume.
Definition polls (n : nat) : list HookOp :=
  mjoin (replicate n [Poll 0 1; LoadWorld; RunStep]).
Definition hook_ops : list HookOp := (Deliver <$> drop 2 sent_bytes) ++ polls 6.
Definition session0 : Session :=
  default (Session_new 0 0) (open_session fine "game" (take 2 sent_bytes) 0 0).
Definition played : HookRun :=
  hook_run fine (λ _, []) (λ _, Ok tt) (λ _, true) 1000 (MkHookRun session0 None None) hook_ops.
End SeatExample.

(** The seat above: a world, two turns, and the game has done all of both. *)
Lemma game_follows_room_witness :
  let h := SeatExample.played in
  done (session h) = Loads 1 :: (Does <$> log_actions 0 [SeatExample.first_turn; SeatExample.second_turn]) ∧
  story (leg_events SeatExample.legs) (done (session h)) ∧ (∀ e, failed h = Some e → link_error e).
Proof.
  intros h. split; [vm_compute; reflexivity |].
  apply (game_follows_room (LH := ConcreteBridge.hook_postcard_laws) (λ _, true) SeatExample.options SeatExample.fine (λ _, true) (λ _, ""%string) (λ _, ""%string)
    SeatExample.fine (λ _, []) (λ _, Ok tt) (λ _, true) 1000 0 SeatExample.legs 0 0 1024 1000 SeatExample.ring_ops
    "game" (take 2 SeatExample.sent_bytes) 0 0).
  - repeat constructor; cbn; try done; unfold u64_max; lia.
  - split; [exists 10; lia | lia | unfold LENGTH_PREFIX; lia].
  - done.
  - vm_compute. reflexivity.
  - vm_compute. reflexivity.
  - vm_compute. reflexivity.
Defined.
