(* ===== verification/Client.v ===== *)
(** The client a player's agent keeps open to the server
    ([crates/tpf3mp-agent/src/lib.rs]).

    One connection is used by many tasks at once: any number of calls of
    [Requests::request], the task that writes the control stream, the one that reads
    it, the one that reads turn streams, the one that waits for the end, and the
    application that takes events.  The tasks share the map of requests that wait, the
    queue of messages to the server, the queue of events and the budget of bytes that
    turns in it may hold.  A step of the model ([client_step]) is what one task does
    between two points where another may come in; the steps come in any order. *)
From S2P Require Import Prelude Proto TurnLog Follower Bridge.
From S2P Require Room Codec.
Local Open Scope Z_scope.

Definition CONNECT_TIMEOUT : Duration := from_secs 20.
Definition REQUEST_TIMEOUT : Duration := from_secs 30.
Definition FALLBACK_AFTER : Duration := from_secs 3.
Definition OUTGOING_QUEUE : nat := 256.
Definition EVENT_QUEUE : nat := 1024.
Definition EVENT_BYTES : Z := Z.shiftl 64 20.

Inductive ClientError :=
  | Refused (e : RequestError)
  | Disconnected
  | TimedOut
  | UnexpectedResponse.

(** * State *)

(** The channel an answer comes through: its sender waits in the map (or is in the
    hands of the reader), is gone, or has sent. *)
Inductive Answer := Unanswered | Dropped | Answered (result : result Response RequestError).

(** How far a call of [request] has got: it has drawn its id; its sender is in the
    map; it found the reader running; its message is queued; it takes its sender out
    of the map again; it has returned, or was dropped where it waited. *)
Inductive Stage :=
  | Drawn
  | Registered
  | Sending
  | Awaiting
  | Removing (why : ClientError)
  | Returned (r : result Response ClientError)
  | Cancelled.

Record Call := MkCall { call_id : Z; call_request : Request; stage : Stage; answer : Answer }.
#[export] Instance eta_Call : Eta Call := fun c => MkCall (call_id c) (call_request c) (stage c) (answer c).

(** Where [read_control] stands: at a read, with the sender it took out of the map,
    with an event to queue, past its loop, past marking itself done, at its end. *)
Inductive ControlReader :=
  | ReadingControl
  | Replying (n : nat) (r : result Response RequestError)
  | Delivering (event : ClientEvent)
  | LoopOver
  | Marked
  | ControlEnded.

(** Where [read_turns] stands, with what is left to read of its stream. *)
Inductive TurnReader :=
  | Accepting
  | AtPreamble (recv : list Z)
  | AtStart (recv : list Z)
  | Announcing (start : TurnStart) (recv : list Z)
  | AtTurn (recv : list Z)
  | Weighing (turn : Turn) (recv : list Z)
  | Queueing (turn : Turn) (share : Z) (recv : list Z)
  | TurnsEnded.

Record Client := MkClient {
  next_request : Z;
  pending : gmap Z nat;                  (* whose sender waits under an id *)
  reader_done : bool;
  calls : list Call;
  outgoing : list ClientMessage;
  writing : bool;                        (* [write_control] runs *)
  written : list ClientMessage;
  control : ControlReader;
  heard : list ServerMessage;            (* what [read_control] has read *)
  turns : TurnReader;
  accepted : list (list Z);              (* the turn streams taken up *)
  events : list (ClientEvent * Z);       (* each with its share of the budget *)
  listening : bool;                      (* the application still has its [Events] *)
  received : list ClientEvent;
  budget : Z;
  farewell : bool;                       (* [Closed] is still to be queued *)
  closes : list Room.CloseCode;
}.
#[export] Instance eta_Client : Eta Client := fun c =>
  MkClient (next_request c) (pending c) (reader_done c) (calls c) (outgoing c) (writing c) (written c) (control c) (heard c)
    (turns c) (accepted c) (events c) (listening c) (received c) (budget c) (farewell c) (closes c).

(** [connect_within], once the handshake is done. *)
Definition Client_new : Client :=
  MkClient 1 ∅ false [] [] true [] ReadingControl [] Accepting [] [] true [] EVENT_BYTES true [].

(** * Requests *)
Definition set_call (c : Client) (n : nat) (f : Call → Call) : Client := c <| calls := alter f n (calls c) |>.

(** A sender that is dropped without having sent. *)
Definition drop_sender (k : Call) : Call :=
  match answer k with Unanswered => k <| answer := Dropped |> | _ => k end.

(** [HashMap::remove], and the sender it held dropped. *)
Definition remove_pending (c : Client) (id : Z) : Client :=
  match pending c !! id with
  | Some n => set_call (c <| pending := delete id (pending c) |>) n drop_sender
  | None => c
  end.

(** [HashMap::insert]: a sender it replaces is dropped. *)
Definition insert_pending (c : Client) (id : Z) (n : nat) : Client :=
  let c := remove_pending c id in c <| pending := <[id := n]> (pending c) |>.

Definition clear_pending (c : Client) : Client :=
  c <| calls := imap (λ n k, if bool_decide (n ∈ (map_to_list (pending c)).*2) then drop_sender k else k) (calls c) |>
    <| pending := ∅ |>.

(** [fetch_add] wraps. *)
Definition begin_call (c : Client) (request : Request) : Client :=
  c <| calls := calls c ++ [MkCall (next_request c) request Drawn Unanswered] |>
    <| next_request := (next_request c + 1) mod 2 ^ 32 |>.

Definition at_stage (c : Client) (n : nat) (s : Stage) : Client := set_call c n (λ k, k <| stage := s |>).

Definition advance_call (c : Client) (n : nat) (k : Call) : Client :=
  match stage k with
  | Drawn => at_stage (insert_pending c (call_id k) n) n Registered
  | Registered => at_stage c n (if reader_done c then Removing Disconnected else Sending)
  | Sending =>
      if negb (writing c) then at_stage c n (Removing Disconnected)
      else if (length (outgoing c) <? OUTGOING_QUEUE)%nat then
        at_stage (c <| outgoing := outgoing c ++ [ClientRequest (call_id k) (call_request k)] |>) n Awaiting
      else c
  | Awaiting =>
      match answer k with
      | Unanswered => c
      | Dropped => at_stage c n (Returned (Err Disconnected))
      | Answered (Ok response) => at_stage c n (Returned (Ok response))
      | Answered (Err e) => at_stage c n (Returned (Err (Refused e)))
      end
  | Removing why => at_stage (remove_pending c (call_id k)) n (Returned (Err why))
  | Returned _ | Cancelled => c
  end.

(** The time for the answer is up; an answer that is there is taken all the same. *)
Definition expire_call (c : Client) (n : nat) (k : Call) : Client :=
  match stage k, answer k with
  | Awaiting, Unanswered => at_stage c n (Removing TimedOut)
  | _, _ => c
  end.

(** A call can be dropped where it waits; its sender stays in the map. *)
Definition cancel_call (c : Client) (n : nat) (k : Call) : Client :=
  match stage k with Sending | Awaiting => at_stage c n Cancelled | _ => c end.

(** What the callers make of a response. *)
Definition done (r : result Response ClientError) : result unit ClientError :=
  let? response := r in match response with Proto.Done => Ok tt | _ => Err UnexpectedResponse end.
Definition create_room (r : result Response ClientError) : result (Invite * RoomView) ClientError :=
  let? response := r in match response with RoomCreated invite room => Ok (invite, room) | _ => Err UnexpectedResponse end.
Definition join_room (r : result Response ClientError) : result RoomView ClientError :=
  let? response := r in match response with RoomJoined room => Ok room | _ => Err UnexpectedResponse end.

(** [Client::send]: it waits while the queue is full. *)
Definition send (c : Client) (message : GameMessage) : Client * option (result unit ClientError) :=
  if negb (writing c) then (c, Some (Err Disconnected))
  else if (length (outgoing c) <? OUTGOING_QUEUE)%nat then
    (c <| outgoing := outgoing c ++ [ClientGame message] |>, Some (Ok tt))
  else (c, None).

(** * The writer *)
Definition write_control (c : Client) (sent : bool) : Client :=
  if writing c then
    match outgoing c with
    | [] => c
    | message :: rest =>
        if sent then c <| outgoing := rest |> <| written := written c ++ [message] |>
        else c <| outgoing := [] |> <| writing := false |>
    end
  else c.

(** * Events *)
Definition close_with (c : Client) (code : Room.CloseCode) : Client := c <| closes := closes c ++ [code] |>.

(** [events.send]: it waits while the queue is full, and fails once the application has
    let go of it. *)
Inductive Sent := SentIt | Waits | Nobody.
Definition send_event (c : Client) (event : ClientEvent) (share : Z) : Client * Sent :=
  if negb (listening c) then (c, Nobody)
  else if (length (events c) <? EVENT_QUEUE)%nat then (c <| events := events c ++ [(event, share)] |>, SentIt)
  else (c, Waits).

Definition recv (c : Client) : Client :=
  match events c with
  | [] => c
  | (event, share) :: rest =>
      c <| events := rest |> <| received := received c ++ [event] |> <| budget := budget c + share |>
  end.

Definition shares (l : list (ClientEvent * Z)) : Z := sum_Z (snd <$> l).

Definition drop_events (c : Client) : Client :=
  c <| listening := false |> <| budget := budget c + shares (events c) |> <| events := [] |>.

(** [connect_within]'s last task. *)
Definition say_closed (c : Client) : Client :=
  if farewell c then
    match send_event c EvClosed 0 with
    | (c, Waits) => c
    | (c, _) => c <| farewell := false |>
    end
  else c.

(** * Reading the control stream *)
Definition event_of (message : ServerMessage) : option ClientEvent :=
  match message with
  | RoomUpdate room => Some (EvRoomUpdate room)
  | IntentRejected client_seq reason => Some (EvIntentRejected client_seq reason)
  | Diverged step lanes => Some (EvDiverged step lanes)
  | Kicked => Some EvKicked
  | UploadRequest event snapshot => Some (EvUpload event snapshot)
  | Chat from text => Some (EvChat from text)
  | Welcome _ _ _ | Reject _ | ResponseTo _ _ => None
  end.

Definition hear (c : Client) (message : result ServerMessage NetError) : Client :=
  match message with
  | Err e =>
      let c := if is_disconnect e then c else close_with c Room.PROTOCOL_VIOLATION in
      c <| control := LoopOver |>
  | Ok message =>
      let c := c <| heard := heard c ++ [message] |> in
      match message with
      | ResponseTo id r =>
          match pending c !! id with
          | Some n => c <| pending := delete id (pending c) |> <| control := Replying n r |>
          | None => c
          end
      | _ =>
          match event_of message with
          | Some event => c <| control := Delivering event |>
          | None => (close_with c Room.PROTOCOL_VIOLATION) <| control := LoopOver |>
          end
      end
  end.

Definition reply_to (r : result Response RequestError) (k : Call) : Call :=
  match answer k with Unanswered => k <| answer := Answered r |> | _ => k end.

Definition read_control (c : Client) (message : result ServerMessage NetError) : Client :=
  match control c with
  | ReadingControl => hear c message
  | Replying n r => (set_call c n (reply_to r)) <| control := ReadingControl |>
  | Delivering event =>
      match send_event c event 0 with
      | (c, SentIt) => c <| control := ReadingControl |>
      | (c, Waits) => c
      | (c, Nobody) => c <| control := LoopOver |>
      end
  | LoopOver => c <| reader_done := true |> <| control := Marked |>
  | Marked => (clear_pending c) <| control := ControlEnded |>
  | ControlEnded => c
  end.

(** * Reading turn streams *)
Section turns.
Context {P : Postcard TurnMessage}.

Definition violation (c : Client) : Client := (close_with c Room.PROTOCOL_VIOLATION) <| turns := TurnsEnded |>.

Definition share_of (turn : Turn) : Z :=
  let weight := Z.min (turn_weight turn) EVENT_BYTES in
  if weight <=? u32_max then weight else u32_max.

(** [stream] is what [accept_uni] returns when the reader is at it. *)
Definition read_turns (c : Client) (stream : option (list Z)) : Client :=
  match turns c with
  | Accepting =>
      match stream with
      | Some recv => c <| accepted := accepted c ++ [recv] |> <| turns := AtPreamble recv |>
      | None => c <| turns := TurnsEnded |>
      end
  | AtPreamble recv =>
      match read_preamble recv with
      | Ok (version, recv) => if version =? PROTOCOL_VERSION then c <| turns := AtStart recv |> else violation c
      | Err e => if is_disconnect e then c <| turns := Accepting |> else violation c
      end
  | AtStart recv =>
      match Proto.read_message TURN_MAX_FRAME recv with
      | Ok (Start start, recv) => c <| turns := Announcing start recv |>
      | Ok (TurnOf _, _) => violation c
      | Err e => if is_disconnect e then c <| turns := Accepting |> else violation c
      end
  | Announcing start recv =>
      match send_event c (EvTurnStream start) 0 with
      | (c, SentIt) => c <| turns := AtTurn recv |>
      | (c, Waits) => c
      | (c, Nobody) => c <| turns := TurnsEnded |>
      end
  | AtTurn recv =>
      match Proto.read_message TURN_MAX_FRAME recv with
      | Ok (TurnOf turn, recv) => c <| turns := Weighing turn recv |>
      | Ok (Start _, _) => violation c
      | Err e => if is_disconnect e then c <| turns := Accepting |> else violation c
      end
  | Weighing turn recv =>
      let share := share_of turn in
      if share <=? budget c then c <| budget := budget c - share |> <| turns := Queueing turn share recv |> else c
  | Queueing turn share recv =>
      match send_event c (EvTurn turn) share with
      | (c, SentIt) => c <| turns := AtTurn recv |>
      | (c, Waits) => c
      | (c, Nobody) => c <| budget := budget c + share |> <| turns := TurnsEnded |>
      end
  | TurnsEnded => c
  end.

(** * Steps *)
Inductive Move :=
  | Begin (request : Request)
  | Advance (n : nat)
  | Expire (n : nat)
  | Cancel (n : nat)
  | SendGame (message : GameMessage)
  | Write (sent : bool)
  | Control (message : result ServerMessage NetError)
  | Turns (stream : option (list Z))
  | ConnectionOver
  | Recv
  | DropEvents.

Definition on_call (f : Client → nat → Call → Client) (c : Client) (n : nat) : Client :=
  match calls c !! n with Some k => f c n k | None => c end.

Definition client_step (c : Client) (m : Move) : Client :=
  match m with
  | Begin request => begin_call c request
  | Advance n => on_call advance_call c n
  | Expire n => on_call expire_call c n
  | Cancel n => on_call cancel_call c n
  | SendGame message => (send c message).1
  | Write sent => write_control c sent
  | Control message => read_control c message
  | Turns stream => read_turns c stream
  | ConnectionOver => say_closed c
  | Recv => recv c
  | DropEvents => drop_events c
  end.

Definition client_run : Client → list Move → Client := foldl client_step.
End turns.

(** * Calls *)
Section calls.
Context {P : Postcard TurnMessage}.

(** Who may still answer a call. *)
Definition awaited (c : Client) (n : nat) (k : Call) : Prop :=
  pending c !! call_id k = Some n ∨ ∃ r, control c = Replying n r.

Definition marked (r : ControlReader) : bool := match r with Marked | ControlEnded => true | _ => false end.

(** What a response that came says of the call it answered. *)
Definition answered_by (c : Client) (id : Z) (r : result Response RequestError) : Prop := ResponseTo id r ∈ heard c.

Definition call_told (c : Client) (k : Call) : Prop :=
  (∀ r, answer k = Answered r → answered_by c (call_id k) r) ∧
  match stage k with
  | Returned (Ok response) => answered_by c (call_id k) (Ok response)
  | Returned (Err (Refused e)) => answered_by c (call_id k) (Err e)
  | Returned (Err UnexpectedResponse) | Removing UnexpectedResponse | Removing (Refused _) => False
  | _ => True
  end.

Record calls_ok (c : Client) : Prop := {
  co_pending : ∀ id n, pending c !! id = Some n → ∃ k, calls c !! n = Some k ∧ call_id k = id ∧ stage k ≠ Drawn;
  co_replying : ∀ n r, control c = Replying n r → ∃ k, calls c !! n = Some k ∧ stage k ≠ Drawn ∧ answered_by c (call_id k) r;
  co_awaited : ∀ n k, calls c !! n = Some k → answer k = Unanswered → stage k ≠ Drawn → awaited c n k;
  co_done : reader_done c = marked (control c);
  co_ended : control c = ControlEnded → ∀ n k, calls c !! n = Some k → stage k = Sending ∨ stage k = Awaiting → answer k ≠ Unanswered;
  co_told : ∀ n k, calls c !! n = Some k → call_told c k;
}.

(** What a step that leaves the calls alone may change. *)
Lemma calls_ok_same c c' :
  calls c' = calls c → pending c' = pending c → reader_done c' = reader_done c → control c' = control c → heard c' = heard c →
  calls_ok c → calls_ok c'.
Proof.
  intros E1 E2 E3 E4 E5 [H1 H2 H3 H4 H5 H6].
  split; unfold awaited, call_told, answered_by in *; rewrite ?E1, ?E2, ?E3, ?E4, ?E5; done.
Qed.

Lemma lookup_set_call c n f m : calls (set_call c n f) !! m = (if decide (m = n) then f <$> calls c !! m else calls c !! m).
Proof. unfold set_call. cbn. case_decide as E; [by rewrite E, list_lookup_alter_eq | by rewrite list_lookup_alter_ne]. Qed.

(** A call that moves on by itself. *)
Lemma calls_ok_stage c n k s :
  calls_ok c → calls c !! n = Some k → stage k ≠ Drawn → s ≠ Drawn →
  (control c = ControlEnded → s = Sending ∨ s = Awaiting → answer k ≠ Unanswered) →
  call_told c (k <| stage := s |>) → calls_ok (at_stage c n s).
Proof.
  intros [H1 H2 H3 H4 H5 H6] Hk Hd Hs He Ht. unfold at_stage.
  assert (∀ m k', calls (set_call c n (λ k, k <| stage := s |>)) !! m = Some k' →
    calls c !! m = Some k' ∧ m ≠ n ∨ m = n ∧ k' = k <| stage := s |>) as Hin.
  { intros m k'. rewrite lookup_set_call. case_decide as E; [subst; rewrite Hk; cbn; intros [= <-]; by right | by left]. }
  assert (∀ m k', calls c !! m = Some k' → ∃ k2, calls (set_call c n (λ k, k <| stage := s |>)) !! m = Some k2 ∧ call_id k2 = call_id k' ∧
    (stage k' ≠ Drawn → stage k2 ≠ Drawn)) as Hto.
  { intros m k' Hm. rewrite lookup_set_call. case_decide as E; [subst; rewrite Hm; cbn; by eexists | by exists k']. }
  split; cbn [control pending reader_done set_call] in *.
  - intros id m Hp. destruct (H1 id m Hp) as (k' & Hk' & Hid & Hst). destruct (Hto m k' Hk') as (k2 & ? & ? & ?). exists k2. split; [done |]. split; [congruence | auto].
  - intros m r Hc. destruct (H2 m r Hc) as (k' & Hk' & Hst & Ha). destruct (Hto m k' Hk') as (k2 & ? & E2 & ?). exists k2. split; [done |].
    split; [auto |]. unfold answered_by in *. by rewrite E2.
  - intros m k' Hm Ha Hst. apply Hin in Hm as [[Hm _] | [-> ->]]; [by apply H3 | by apply (H3 n k)].
  - done.
  - intros Hc m k' Hm Hst. apply Hin in Hm as [[Hm _] | [-> ->]]; [by eapply H5 | by apply He].
  - intros m k' Hm. apply Hin in Hm as [[Hm _] | [-> ->]]; [by eapply H6 | exact Ht].
Qed.

Lemma lookup_remove c id m : calls (remove_pending c id) !! m =
  match pending c !! id with
  | Some n => if decide (m = n) then drop_sender <$> calls c !! m else calls c !! m
  | None => calls c !! m
  end.
Proof. unfold remove_pending. destruct (pending c !! id) as [n |]; [| done]. by rewrite lookup_set_call. Qed.

Lemma drop_sender_same k : call_id (drop_sender k) = call_id k ∧ stage (drop_sender k) = stage k ∧ answer (drop_sender k) ≠ Unanswered ∧
  (∀ r, answer (drop_sender k) = Answered r → answer k = Answered r).
Proof. destruct k as [id req s []]; cbn; by repeat split. Qed.

Lemma told_drop c k : call_told c k → call_told c (drop_sender k).
Proof.
  destruct (drop_sender_same k) as (E1 & E2 & _ & E3). intros [H1 H2]. split; [| by rewrite E2, E1].
  intros r Hr. rewrite E1. by apply H1, E3.
Qed.

(** Some calls lose their senders. *)
Lemma calls_ok_drop c c' (gone : nat → bool) :
  calls_ok c →
  (∀ m, calls c' !! m = if gone m then drop_sender <$> calls c !! m else calls c !! m) →
  (∀ id n, pending c' !! id = Some n ↔ pending c !! id = Some n ∧ gone n = false) →
  reader_done c' = marked (control c') → heard c' = heard c →
  (∀ n r, control c' = Replying n r ↔ control c = Replying n r) →
  (control c' = ControlEnded → control c = ControlEnded ∨ control c = Marked ∧ ∀ id n, pending c !! id = Some n → gone n = true) →
  calls_ok c'.
Proof.
  intros [H1 H2 H3 H4 H5 H6] Ec Ep Ed Eh Er Ee.
  assert (∀ m k', calls c' !! m = Some k' → ∃ k, calls c !! m = Some k ∧
    ((k' = drop_sender k ∧ gone m = true) ∨ (k' = k ∧ gone m = false))) as Hin.
  { intros m k'. rewrite Ec. destruct (gone m); [| intros ->; eauto]. destruct (calls c !! m) as [k |]; [| done]. cbn. intros [= <-]. eauto. }
  assert (∀ m k, calls c !! m = Some k → ∃ k', calls c' !! m = Some k' ∧ call_id k' = call_id k ∧ stage k' = stage k) as Hto.
  { intros m k Hk. rewrite Ec, Hk. destruct (drop_sender_same k) as (? & ? & _). destruct (gone m); cbn; eauto. }
  assert (∀ k, call_told c k → call_told c' k) as Htold by (intros k; unfold call_told, answered_by; by rewrite Eh).
  split.
  - intros id n Hp. apply Ep in Hp as [Hp _]. destruct (H1 id n Hp) as (k & Hk & Hid & Hs). destruct (Hto n k Hk) as (k' & ? & ? & E).
    exists k'. by rewrite E, <- Hid.
  - intros n r Hc. apply Er in Hc. destruct (H2 n r Hc) as (k & Hk & Hs & Ha). destruct (Hto n k Hk) as (k' & ? & E1 & E2).
    exists k'. unfold answered_by. by rewrite E1, E2, Eh.
  - intros n k' Hk' Ha Hs. destruct (Hin n k' Hk') as (k & Hk & [[-> _] | [-> Hg]]); [by destruct (drop_sender_same k) as (_ & _ & ? & _) |].
    destruct (H3 n k Hk Ha Hs) as [Hp | [r Hr]]; [left; by apply Ep | right; exists r; by apply Er].
  - done.
  - intros Hc n k' Hk' Hs. destruct (Hin n k' Hk') as (k & Hk & [[-> _] | [-> Hg]]); [by destruct (drop_sender_same k) as (_ & _ & ? & _) |].
    destruct (Ee Hc) as [Hc' | [Hc' Hall]]; [by eapply H5 |]. intros Ha. assert (stage k ≠ Drawn) as Hd by (destruct Hs as [-> | ->]; done).
    destruct (H3 n k Hk Ha Hd) as [Hp | [r Hr]]; [| congruence]. apply Hall in Hp. congruence.
  - intros n k' Hk'. apply Htold. destruct (Hin n k' Hk') as (k & Hk & [[-> _] | [-> _]]); [apply told_drop |]; by eapply H6.
Qed.

Lemma pending_inj c id id' n : calls_ok c → pending c !! id = Some n → pending c !! id' = Some n → id = id'.
Proof. intros [H1 _ _ _ _ _] Ha Hb. destruct (H1 _ _ Ha) as (k & Hk & <- & _). destruct (H1 _ _ Hb) as (k' & Hk' & <- & _). congruence. Qed.

Lemma remove_ok c id : calls_ok c → calls_ok (remove_pending c id).
Proof.
  intros Hc. destruct (pending c !! id) as [n |] eqn:E; [| unfold remove_pending; by rewrite E].
  apply (calls_ok_drop c _ (λ m, bool_decide (m = n))); [done | | | | | | ]; try (unfold remove_pending; rewrite E; cbn; apply Hc || done).
  - intros m. rewrite lookup_remove, E. by destruct (decide (m = n)); [rewrite bool_decide_true | rewrite bool_decide_false].
  - intros id' m. unfold remove_pending. rewrite E. cbn. rewrite lookup_delete_Some, bool_decide_eq_false. split.
    + intros [Hne Hm]. split; [done |]. intros ->. by pose proof (pending_inj c _ _ _ Hc E Hm).
    + intros [Hm Hne]. split; [| done]. intros <-. congruence.
  - unfold remove_pending. rewrite E. cbn. by left.
Qed.

Lemma register_ok c n k : calls_ok c → calls c !! n = Some k → stage k = Drawn →
  calls_ok (at_stage (insert_pending c (call_id k) n) n Registered).
Proof.
  intros Hc Hk Hd. unfold insert_pending. pose proof (remove_ok c (call_id k) Hc) as Hc1.
  assert (pending (remove_pending c (call_id k)) !! call_id k = None) as Hnone.
  { unfold remove_pending. destruct (pending c !! call_id k) eqn:E; cbn; [apply lookup_delete_eq | done]. }
  assert (calls (remove_pending c (call_id k)) !! n = Some k) as Hk1.
  { rewrite lookup_remove. destruct (pending c !! call_id k) as [m |] eqn:E; [| done]. rewrite decide_False; [done |]. intros <-.
    destruct (co_pending c Hc _ _ E) as (k' & Hk' & _ & Hs). congruence. }
  set (c1 := remove_pending c (call_id k)) in *. destruct Hc1 as [H1 H2 H3 H4 H5 H6]. unfold at_stage.
  assert (∀ m k', calls (set_call (c1 <| pending := <[call_id k := n]> (pending c1) |>) n (λ k, k <| stage := Registered |>)) !! m = Some k' →
    calls c1 !! m = Some k' ∧ m ≠ n ∨ m = n ∧ k' = k <| stage := Registered |>) as Hin.
  { intros m k'. rewrite lookup_set_call. cbn. case_decide as E; [subst; rewrite Hk1; cbn; intros [= <-]; by right | by left]. }
  assert (∀ m k', calls c1 !! m = Some k' → stage k' ≠ Drawn → m ≠ n) as Hother by (intros m k' Hm Hs ->; congruence).
  split; cbn [control pending reader_done set_call heard] in *.
  - intros id m Hp. cbn in Hp. apply lookup_insert_Some in Hp as [[<- <-] | [Hne Hp]].
    + exists (k <| stage := Registered |>). rewrite lookup_set_call. cbn. by rewrite decide_True, Hk1.
    + destruct (H1 id m Hp) as (k' & Hk' & Hid & Hst). exists k'. rewrite lookup_set_call, decide_False by (by eapply Hother). done.
  - intros m r Hr. destruct (H2 m r Hr) as (k' & Hk' & Hst & Ha). exists k'. rewrite lookup_set_call, decide_False by (by eapply Hother). done.
  - intros m k' Hm Ha Hs. unfold awaited. cbn. apply Hin in Hm as [[Hm Hne] | [-> ->]]; [| left; apply lookup_insert_eq].
    destruct (H3 m k' Hm Ha Hs) as [Hp | Hr]; [left | by right]. rewrite lookup_insert_ne; [done |]. intros E. rewrite <- E in Hp. congruence.
  - done.
  - intros Hend m k' Hm Hs. apply Hin in Hm as [[Hm Hne] | [-> ->]]; [by eapply H5 | by destruct Hs].
  - intros m k' Hm. apply Hin in Hm as [[Hm Hne] | [-> ->]]; [by apply (H6 m k') |]. destruct (H6 n k Hk1) as [Ht _]. by split.
Qed.

Lemma advance_ok c n k : calls_ok c → calls c !! n = Some k → calls_ok (advance_call c n k).
Proof.
  intros Hc Hk. pose proof (co_told c Hc n k Hk) as [Ht Ht2]. unfold advance_call.
  destruct (stage k) as [| | | | why | r |] eqn:Es; try done.
  - by apply register_ok.
  - apply calls_ok_stage with k; [done | done | by rewrite Es | by destruct (reader_done c) | | by destruct (reader_done c)].
    intros He. rewrite (co_done c Hc), He. cbn. by intros [|].
  - destruct (writing c); cbn [negb].
    + destruct (_ <? _)%nat; [| done]. apply calls_ok_stage with k; [by apply (calls_ok_same c) | done | by rewrite Es | done | | done].
      intros He _. apply (co_ended c Hc He n k Hk). by left.
    + by apply calls_ok_stage with k; [| | rewrite Es | | intros _ [|] |].
  - destruct (answer k) as [| | [response | e]] eqn:Ea; [done | | |];
      (apply calls_ok_stage with k; [done | done | by rewrite Es | done | by intros _ [|] | split; [intros r; cbn; rewrite Ea; apply Ht |]; cbn; try done; by apply Ht]).
  - assert (∃ k', calls (remove_pending c (call_id k)) !! n = Some k' ∧ stage k' = Removing why) as (k' & Hk' & Es').
    { rewrite lookup_remove. destruct (pending c !! call_id k) as [m |]; [| by exists k]. case_decide; [| by exists k].
      rewrite Hk. exists (drop_sender k). split; [done |]. by destruct (drop_sender_same k) as (_ & -> & _). }
    pose proof (remove_ok c (call_id k) Hc) as Hc1. pose proof (co_told _ Hc1 n k' Hk') as [Ht' Hw]. rewrite Es' in Hw.
    apply calls_ok_stage with k'; [done | done | by rewrite Es' | done | by intros _ [|] |]. split; [exact Ht' |]. cbn. by destruct why.
Qed.

Lemma clear_lookup c m : calls (clear_pending c) !! m =
  if bool_decide (m ∈ (map_to_list (pending c)).*2) then drop_sender <$> calls c !! m else calls c !! m.
Proof. unfold clear_pending. cbn. rewrite list_lookup_imap. case_bool_decide; [done |]. by destruct (calls c !! m). Qed.

Lemma in_pending c n : n ∈ (map_to_list (pending c)).*2 ↔ ∃ id, pending c !! id = Some n.
Proof.
  rewrite list_elem_of_fmap. split.
  - intros ([id m] & -> & H). apply elem_of_map_to_list in H. by exists id.
  - intros [id H]. exists (id, n). split; [done |]. by apply elem_of_map_to_list.
Qed.

(** ** The reader *)
Lemma told_more c c' k : heard c `prefix_of` heard c' → call_told c k → call_told c' k.
Proof.
  intros [l E] [H1 H2]. assert (∀ id r, answered_by c id r → answered_by c' id r) as Hm.
  { intros id r. unfold answered_by. rewrite E. intros ?. apply elem_of_app. by left. }
  split; [auto |]. destruct (stage k) as [| | | | | [|[]] |]; auto.
Qed.

(** The reader moves on, and no call does. *)
Lemma reader_moves c c' :
  calls_ok c → calls c' = calls c → pending c' = pending c → heard c `prefix_of` heard c' → reader_done c' = marked (control c') →
  (∀ n r, control c ≠ Replying n r) → (∀ n r, control c' ≠ Replying n r) → control c' ≠ ControlEnded → calls_ok c'.
Proof.
  intros [H1 H2 H3 H4 H5 H6] Ec Ep Eh Ed Hr Hr' He.
  split; rewrite ?Ec, ?Ep; [done | intros n r Hc; by destruct (Hr' n r) | | done | by intros ? |].
  - intros n k Hk Ha Hs. unfold awaited. rewrite Ep. left. destruct (H3 n k Hk Ha Hs) as [? | [r Hc]]; [done | by destruct (Hr n r)].
  - intros n k Hk. eapply told_more; [exact Eh | by eapply H6].
Qed.

Lemma hear_ok c message : calls_ok c → control c = ReadingControl → calls_ok (hear c message).
Proof.
  intros Hc Er. pose proof (co_done c Hc) as Hd. rewrite Er in Hd. cbn in Hd.
  assert (∀ n r, control c ≠ Replying n r) as Hr by (by rewrite Er).
  assert (∀ m, heard c `prefix_of` heard c ++ m) as Hh by (intros m; by eexists).
  destruct message as [message | e]; cbn [hear]; cycle 1.
  { destruct (is_disconnect e); (eapply reader_moves; [exact Hc | done | done | done | exact Hd | done | done | done]). }
  destruct message as [| | id r | | | | | |]; cbn [event_of];
    try (eapply reader_moves; [exact Hc | done | done | apply Hh | exact Hd | done | done | done]).
  cbn [pending]. destruct (pending c !! id) as [n |] eqn:Ep; cbn; rewrite Ep; cycle 1.
  { eapply reader_moves; [exact Hc | done | done | apply Hh | cbn; by rewrite Er | done | cbn; by rewrite Er | cbn; by rewrite Er]. }
  destruct Hc as [H1 H2 H3 H4 H5 H6]. split; cbn [control pending reader_done heard calls].
  - intros id' m Hp. apply lookup_delete_Some in Hp as [_ Hp]. by apply H1.
  - intros m r' [= <- <-]. destruct (H1 id n Ep) as (k & Hk & <- & Hs). exists k. split; [done |]. split; [done |].
    apply elem_of_app. right. by left.
  - intros m k Hk Ha Hs. unfold awaited. cbn. destruct (H3 m k Hk Ha Hs) as [Hp | [r' Hc]]; [| by destruct (Hr m r')].
    destruct (decide (call_id k = id)) as [E | Hne]; [right; exists r; rewrite E in Hp; congruence | left; by rewrite lookup_delete_ne].
  - done.
  - done.
  - intros m k Hk. eapply told_more; [apply Hh | by eapply H6].
Qed.

Lemma replied_ok c n r : calls_ok c → control c = Replying n r → calls_ok ((set_call c n (reply_to r)) <| control := ReadingControl |>).
Proof.
  intros Hc Er. pose proof (co_done c Hc) as Hd. rewrite Er in Hd. destruct (co_replying c Hc n r Er) as (k & Hk & Hs & Ha).
  destruct Hc as [H1 H2 H3 H4 H5 H6].
  assert (call_id (reply_to r k) = call_id k ∧ stage (reply_to r k) = stage k ∧ answer (reply_to r k) ≠ Unanswered ∧
    (∀ r', answer (reply_to r k) = Answered r' → answer k = Answered r' ∨ r' = r)) as (E1 & E2 & E3 & E4).
  { destruct k as [id req s []]; cbn; (do 2 (split; [done |])); (split; [done |]); intros r'; [right; congruence | by left | by left]. }
  assert (∀ m k', calls (set_call c n (reply_to r)) !! m = Some k' → calls c !! m = Some k' ∧ m ≠ n ∨ m = n ∧ k' = reply_to r k) as Hin.
  { intros m k'. rewrite lookup_set_call. case_decide as E; [subst; rewrite Hk; cbn; intros [= <-]; by right | by left]. }
  split; cbn [control pending reader_done heard calls] in *.
  - intros id m Hp. destruct (H1 id m Hp) as (k' & Hk' & Hid & Hst). change (calls _) with (calls (set_call c n (reply_to r))).
    rewrite lookup_set_call. case_decide as E; [subst m; rewrite Hk; exists (reply_to r k); rewrite E1, E2; cbn; split; [done | split; congruence] | by exists k'].
  - done.
  - intros m k' Hm Hu Hst. apply Hin in Hm as [[Hm Hne] | [-> ->]]; [| done].
    destruct (H3 m k' Hm Hu Hst) as [? | [r' Hc]]; [by left | congruence].
  - exact Hd.
  - done.
  - intros m k' Hm. apply Hin in Hm as [[Hm Hne] | [-> ->]]; [by apply (H6 m k') |]. destruct (H6 n k Hk) as [T1 T2].
    split; [| by rewrite E2, E1]. intros r' Hr'. rewrite E1. destruct (E4 r' Hr') as [? | ->]; [by apply T1 | exact Ha].
Qed.

Lemma send_event_same c event share : let c' := (send_event c event share).1 in
  calls c' = calls c ∧ pending c' = pending c ∧ reader_done c' = reader_done c ∧ control c' = control c ∧ heard c' = heard c.
Proof. unfold send_event. destruct (listening c); cbn [negb]; [| done]. by destruct (_ <? _)%nat. Qed.

Lemma read_control_ok c message : calls_ok c → calls_ok (read_control c message).
Proof.
  intros Hc. pose proof (co_done c Hc) as Hd. unfold read_control.
  destruct (control c) as [| n r | event | | |] eqn:Er; [by apply hear_ok | by apply replied_ok | | | | done].
  - pose proof (send_event_same c event 0) as (E1 & E2 & E3 & E4 & E5). destruct (send_event c event 0) as [c' s]. cbn [fst] in *.
    pose proof (calls_ok_same c c' E1 E2 E3 E4 E5 Hc) as Hc'. destruct s; [| done |];
      (eapply reader_moves; [exact Hc' | done | done | done | cbn; rewrite E3, Hd; done | by rewrite E4, Er | done | done]).
  - by eapply reader_moves; [exact Hc | done | done | done | done | rewrite Er | | ].
  - apply (calls_ok_drop c _ (λ m, bool_decide (m ∈ (map_to_list (pending c)).*2))); cbn [control heard reader_done pending]; try done.
    + intros m. apply clear_lookup.
    + intros id n. cbn. rewrite lookup_empty, bool_decide_eq_false, in_pending. split; [done |]. intros [Hp Hn]. destruct Hn. by exists id.
    + by rewrite Er.
    + right. split; [done |]. intros id n Hp. apply bool_decide_eq_true, in_pending. by exists id.
Qed.

Lemma read_turns_same c stream : let c' := read_turns c stream in
  calls c' = calls c ∧ pending c' = pending c ∧ reader_done c' = reader_done c ∧ control c' = control c ∧ heard c' = heard c.
Proof.
  unfold read_turns. destruct (turns c) as [| recv | recv | start recv | recv | turn recv | turn share recv |]; try done.
  - by destruct stream.
  - destruct (read_preamble recv) as [[v rest] | e]; [by destruct (v =? _) | by destruct (is_disconnect e)].
  - destruct (Proto.read_message _ recv) as [[[|] rest] | e]; [done | done | by destruct (is_disconnect e)].
  - pose proof (send_event_same c (EvTurnStream start) 0). by destruct (send_event c (EvTurnStream start) 0) as [c' []].
  - destruct (Proto.read_message _ recv) as [[[|] rest] | e]; [done | done | by destruct (is_disconnect e)].
  - cbv zeta. by destruct (share_of turn <=? budget c).
  - pose proof (send_event_same c (EvTurn turn) share). by destruct (send_event c (EvTurn turn) share) as [c' []].
Qed.

Lemma begin_calls_ok c request : calls_ok c → calls_ok (begin_call c request).
Proof.
  intros [H1 H2 H3 H4 H5 H6]. set (new := MkCall (next_request c) request Drawn Unanswered).
  assert (∀ m k, calls c !! m = Some k → calls (begin_call c request) !! m = Some k) as Hto by (intros m k Hk; cbn; by apply lookup_app_l_Some).
  assert (∀ m k, calls (begin_call c request) !! m = Some k → calls c !! m = Some k ∨ k = new) as Hin.
  { intros m k. cbn. intros [? | [_ H]]%lookup_app_Some; [by left | right]. by apply list_lookup_singleton_Some in H as [_ <-]. }
  split; cbn [control pending reader_done heard begin_call].
  - intros id n Hp. destruct (H1 id n Hp) as (k & Hk & ?). exists k. split; [by apply Hto | done].
  - intros n r Hr. destruct (H2 n r Hr) as (k & Hk & ?). exists k. split; [by apply Hto | done].
  - intros n k Hk Ha Hs. apply Hin in Hk as [Hk | ->]; [by apply H3 | done].
  - done.
  - intros He n k Hk Hs. apply Hin in Hk as [Hk | ->]; [by eapply H5 | by destruct Hs].
  - intros n k Hk. apply Hin in Hk as [Hk | ->]; [by apply (H6 n k) | done].
Qed.

Lemma step_calls_ok c m : calls_ok c → calls_ok (client_step c m).
Proof.
  intros Hc. destruct m as [request | n | n | n | message | sent | message | stream | | |]; cbn [client_step].
  - by apply begin_calls_ok.
  - unfold on_call. destruct (calls c !! n) as [k |] eqn:Hk; [by apply advance_ok | done].
  - unfold on_call. destruct (calls c !! n) as [k |] eqn:Hk; [| done]. unfold expire_call. destruct (stage k) eqn:Es, (answer k) eqn:Ea; try done.
    apply calls_ok_stage with k; [done | done | by rewrite Es | done | by intros _ [|] |]. split; [| done]. intros r. cbn. by rewrite Ea.
  - unfold on_call. destruct (calls c !! n) as [k |] eqn:Hk; [| done]. pose proof (co_told c Hc n k Hk) as [Ht _]. unfold cancel_call.
    destruct (stage k) eqn:Es; try done; (by apply calls_ok_stage with k; [| | rewrite Es | | intros _ [|] |]).
  - apply (calls_ok_same c); [| | | | | done]; unfold send; (destruct (writing c); [by destruct (_ <? _)%nat | done]).
  - apply (calls_ok_same c); [| | | | | done]; unfold write_control; (destruct (writing c); [| done]; destruct (outgoing c); [done | by destruct sent]).
  - by apply read_control_ok.
  - pose proof (read_turns_same c stream) as (?&?&?&?&?). by apply (calls_ok_same c).
  - pose proof (send_event_same c EvClosed 0) as (?&?&?&?&?). unfold say_closed. destruct (farewell c); [| done].
    destruct (send_event c EvClosed 0) as [c' []]; by apply (calls_ok_same c).
  - apply (calls_ok_same c); [| | | | | done]; unfold recv; by destruct (events c) as [| []].
  - by apply (calls_ok_same c).
Qed.

Lemma run_calls_ok moves : calls_ok (client_run Client_new moves).
Proof.
  assert (calls_ok Client_new) as H0 by (split; cbn; try done; intros; (by rewrite lookup_empty in * ) || (by rewrite lookup_nil in * )).
  revert H0. generalize Client_new. induction moves as [| m moves IH]; intros c Hc; cbn; [done |]. by apply IH, step_calls_ok.
Qed.

(** ** Numbers *)
Lemma set_call_ids c n f : (∀ k, call_id (f k) = call_id k) → call_id <$> calls (set_call c n f) = call_id <$> calls c.
Proof.
  intros Hf. apply list_eq. intros m. rewrite !list_lookup_fmap, lookup_set_call. case_decide; [| done].
  destruct (calls c !! m); cbn; [by rewrite Hf | done].
Qed.

Lemma remove_ids c id : call_id <$> calls (remove_pending c id) = call_id <$> calls c.
Proof. unfold remove_pending. destruct (pending c !! id); [| done]. rewrite set_call_ids; [done |]. intros k. apply drop_sender_same. Qed.

Lemma remove_next c id : next_request (remove_pending c id) = next_request c.
Proof. unfold remove_pending. by destruct (pending c !! id). Qed.

Lemma advance_ids c n k : call_id <$> calls (advance_call c n k) = call_id <$> calls c ∧ next_request (advance_call c n k) = next_request c.
Proof.
  assert (∀ c s, call_id <$> calls (at_stage c n s) = call_id <$> calls c) as Hst by (intros; by apply set_call_ids).
  unfold advance_call. destruct (stage k); try done; rewrite ?Hst.
  - unfold insert_pending. cbn. by rewrite remove_ids, remove_next.
  - destruct (negb (writing c)); [by rewrite Hst |]. destruct (_ <? _)%nat; [by rewrite Hst | done].
  - destruct (answer k) as [| | []]; by rewrite ?Hst.
  - by rewrite remove_ids; cbn; rewrite remove_next.
Qed.

Lemma imap_ids (p : nat → bool) l : call_id <$> imap (λ n k, if p n then drop_sender k else k) l = call_id <$> l.
Proof.
  apply list_eq. intros m. rewrite !list_lookup_fmap, list_lookup_imap. destruct (l !! m) as [k |]; [| done]. cbn.
  destruct (p m); [| done]. by destruct (drop_sender_same k) as (-> & _).
Qed.

Lemma read_control_ids c message :
  call_id <$> calls (read_control c message) = call_id <$> calls c ∧ next_request (read_control c message) = next_request c.
Proof.
  unfold read_control. destruct (control c) as [| n r | event | | |]; try done.
  - unfold hear. destruct message as [[] | e]; cbn; try done; [by destruct (pending c !! _) | by destruct (is_disconnect e)].
  - split; [| done]. apply (set_call_ids c n (reply_to r)). intros k. by destruct k as [? ? ? []].
  - unfold send_event. destruct (negb _); [done |]. by destruct (_ <? _)%nat.
  - split; [| done]. apply imap_ids.
Qed.

Lemma step_ids c m : let new := match m with Begin _ => 1 | _ => 0 end in
  (call_id <$> calls (client_step c m) = (call_id <$> calls c) ++ (if new =? 1 then [next_request c] else [])) ∧
  next_request (client_step c m) = (if new =? 1 then (next_request c + 1) mod 2 ^ 32 else next_request c).
Proof.
  assert (∀ n s, call_id <$> calls (at_stage c n s) = call_id <$> calls c) as Hst by (intros; by apply set_call_ids).
  destruct m as [request | n | n | n | message | sent | message | stream | | |]; cbn [client_step]; cbv zeta; cbn -[Z.pow]; rewrite ?app_nil_r.
  - by rewrite fmap_app.
  - unfold on_call. destruct (calls c !! n); [apply advance_ids | done].
  - unfold on_call. destruct (calls c !! n) as [k |]; [| done]. unfold expire_call. destruct (stage k), (answer k); by rewrite ?Hst.
  - unfold on_call. destruct (calls c !! n) as [k |]; [| done]. unfold cancel_call. destruct (stage k); by rewrite ?Hst.
  - unfold send. destruct (writing c); [by destruct (_ <? _)%nat | done].
  - unfold write_control. destruct (writing c); [| done]. destruct (outgoing c); [done | by destruct sent].
  - apply read_control_ids.
  - pose proof (read_turns_same c stream) as (-> & _). split; [done |]. unfold read_turns, send_event.
    repeat case_match; simplify_eq; cbn; try done; unfold violation, close_with; try done; by repeat case_match.
  - unfold say_closed, send_event. repeat case_match; by simplify_eq.
  - unfold recv. by destruct (events c) as [| []].
  - done.
Qed.

Lemma run_ids moves : let c := client_run Client_new moves in
  (∀ n k, calls c !! n = Some k → call_id k = (1 + Z.of_nat n) mod 2 ^ 32) ∧ next_request c = (1 + Z.of_nat (length (calls c))) mod 2 ^ 32.
Proof.
  assert (∀ c m, (∀ n k, calls c !! n = Some k → call_id k = (1 + Z.of_nat n) mod 2 ^ 32) ∧ next_request c = (1 + Z.of_nat (length (calls c))) mod 2 ^ 32 →
    let c := client_step c m in
    (∀ n k, calls c !! n = Some k → call_id k = (1 + Z.of_nat n) mod 2 ^ 32) ∧ next_request c = (1 + Z.of_nat (length (calls c))) mod 2 ^ 32) as Hstep.
  { intros c m [H1 H2]. cbv zeta. pose proof (step_ids c m) as [E1 E2]. cbv zeta in E1, E2. pose proof (f_equal length E1) as El.
    rewrite length_app, !length_fmap in El. split.
    - intros n k Hk. assert ((call_id <$> calls (client_step c m)) !! n = Some (call_id k)) as Hn by (by rewrite list_lookup_fmap, Hk).
      rewrite E1 in Hn. apply lookup_app_Some in Hn as [Hn | [Hle Hn]].
      + rewrite list_lookup_fmap in Hn. destruct (calls c !! n) as [k' |] eqn:Hk'; [| done]. cbn in Hn. injection Hn as <-. by apply H1.
      + rewrite length_fmap in Hle, Hn. destruct (_ =? 1); [| by rewrite lookup_nil in Hn]. apply list_lookup_singleton_Some in Hn as [Hz <-].
        rewrite H2. do 2 f_equal. lia.
    - rewrite E2, El. destruct (_ =? 1); cbn [length]; [rewrite H2, Z.add_mod_idemp_l by done; f_equal; lia | rewrite Nat.add_0_r; exact H2]. }
  unfold client_run. assert ((∀ n k, calls Client_new !! n = Some k → call_id k = (1 + Z.of_nat n) mod 2 ^ 32) ∧
    next_request Client_new = (1 + Z.of_nat (length (calls Client_new))) mod 2 ^ 32) as H0 by (split; [by intros n k | done]).
  revert H0. generalize Client_new. induction moves as [| m moves IH]; intros c Hc; cbn -[Z.pow]; [exact Hc |]. apply IH. by apply Hstep.
Qed.

(** ** Ends *)
Definition rank (s : Stage) : nat :=
  match s with Drawn => 3 | Registered | Sending => 2 | Awaiting | Removing _ => 1 | Returned _ | Cancelled => 0 end.

Lemma at_stage_lookup c n k s : calls c !! n = Some k → calls (at_stage c n s) !! n = Some (k <| stage := s |>).
Proof. intros Hk. unfold at_stage. by rewrite lookup_set_call, decide_True, Hk. Qed.

Lemma remove_lookup c n k id : calls c !! n = Some k → ∃ k', calls (remove_pending c id) !! n = Some k'.
Proof. intros Hk. rewrite lookup_remove. destruct (pending c !! id); [case_decide |]; rewrite Hk; by eexists. Qed.

(** A call whose reader has ended is a step nearer its end. *)
Lemma advance_nearer c n k :
  calls_ok c → control c = ControlEnded → calls c !! n = Some k → stage k ≠ Cancelled →
  (stage k = Sending → writing c = true → (length (outgoing c) < OUTGOING_QUEUE)%nat) →
  ∃ k', calls (advance_call c n k) !! n = Some k' ∧ control (advance_call c n k) = ControlEnded ∧
    stage k' ≠ Sending ∧ stage k' ≠ Cancelled ∧ (rank (stage k') ≤ pred (rank (stage k)))%nat.
Proof.
  intros Hc He Hk Hs Hroom. unfold advance_call. destruct (stage k) as [| | | | why | r |] eqn:Es; [| | | | | |done].
  - unfold insert_pending. destruct (remove_lookup c n k (call_id k) Hk) as [k' Hk'].
    eexists. split; [apply at_stage_lookup; exact Hk' |]. cbn. split; [| done]. unfold remove_pending. by destruct (pending c !! call_id k).
  - rewrite (co_done c Hc), He. eexists. split; [by apply at_stage_lookup |]. done.
  - destruct (writing c); cbn [negb]; [rewrite (proj2 (Nat.ltb_lt _ _)) by auto |];
      (eexists; split; [by apply at_stage_lookup |]; by cbn).
  - destruct (answer k) as [| | []] eqn:Ea; [by destruct (co_ended c Hc He n k Hk (or_intror Es)) | | |];
      (eexists; split; [by apply at_stage_lookup |]; by cbn).
  - destruct (remove_lookup c n k (call_id k) Hk) as [k' Hk']. eexists. split; [by apply at_stage_lookup |]. cbn. split; [| done].
    unfold remove_pending. by destruct (pending c !! call_id k).
  - exists k. by rewrite Es.
Qed.

Lemma advances_end j c n k :
  calls_ok c → control c = ControlEnded → calls c !! n = Some k → stage k ≠ Cancelled → stage k ≠ Sending → (rank (stage k) ≤ j)%nat →
  ∃ r k', calls (client_run c (repeat (Advance n) j)) !! n = Some k' ∧ stage k' = Returned r.
Proof.
  revert c k. induction j as [| j IH]; intros c k Hc He Hk Hs Hs' Hr.
  { destruct (stage k) eqn:Es; cbn in Hr; try lia; [| done]. exists r, k. by rewrite <- Es. }
  cbn. unfold on_call. rewrite Hk. destruct (advance_nearer c n k Hc He Hk Hs) as (k' & Hk' & He' & H1 & H2 & H3); [by intros ? |].
  eapply IH; [by apply advance_ok | done | exact Hk' | done | done | lia].
Qed.

(** C8: no request hangs.  However calls, the reader, the writer and the application
    interleave: once the task that reads the control stream has ended, every call of
    [request], one that starts only then or is half way included, returns within three
    steps of its own; nothing has to time out and nobody else has to do anything.  (A
    call that has still to queue its message needs room in the queue, or the writer
    gone.) *)
Theorem calls_return (moves : list Move) (n : nat) (k : Call) :
  let c := client_run Client_new moves in
  control c = ControlEnded → (writing c = true → (length (outgoing c) < OUTGOING_QUEUE)%nat) →
  calls c !! n = Some k → stage k ≠ Cancelled →
  ∃ r k', calls (client_run c (repeat (Advance n) 3)) !! n = Some k' ∧ stage k' = Returned r.
Proof.
  intros c He Hroom Hk Hs. pose proof (run_calls_ok moves) as Hc. fold c in Hc.
  destruct (advance_nearer c n k Hc He Hk Hs (λ _, Hroom)) as (k' & Hk' & He' & H1 & H2 & H3).
  change (repeat (Advance n) 3) with (Advance n :: repeat (Advance n) 2). cbn [client_run foldl client_step]. unfold on_call. rewrite Hk.
  eapply advances_end; [by apply advance_ok | done | exact Hk' | done | done |]. destruct (stage k); cbn in *; lia.
Qed.

(** C32: an answer is the answer to one's own question.  Over the first four billion
    requests of a session no two have the same number, and whatever a call returns as
    the server's answer, a response or a refusal, is what the server sent under that
    number; a call that was not answered returns an error of the client's own. *)
Theorem answers_own (moves : list Move) :
  let c := client_run Client_new moves in
  Z.of_nat (length (calls c)) ≤ 2 ^ 32 →
  (∀ n n' k k', calls c !! n = Some k → calls c !! n' = Some k' → call_id k = call_id k' → n = n') ∧
  ∀ n k r, calls c !! n = Some k → stage k = Returned r →
    match r with
    | Ok response => ResponseTo (call_id k) (Ok response) ∈ heard c
    | Err (Refused e) => ResponseTo (call_id k) (Err e) ∈ heard c
    | Err e => e = Disconnected ∨ e = TimedOut
    end.
Proof.
  intros c Hn. pose proof (run_ids moves) as [Hid _]. pose proof (run_calls_ok moves) as Hc. fold c in Hid, Hc. split.
  - intros n n' k k' Hk Hk' E. rewrite (Hid n k Hk), (Hid n' k' Hk') in E. pose proof (lookup_lt_Some _ _ _ Hk). pose proof (lookup_lt_Some _ _ _ Hk').
    destruct (Z.eq_dec (1 + Z.of_nat n) (2 ^ 32)) as [En | Hne], (Z.eq_dec (1 + Z.of_nat n') (2 ^ 32)) as [En' | Hne'];
      [lia | rewrite En, Z.mod_same, Z.mod_small in E by lia; lia | rewrite En', Z.mod_same, Z.mod_small in E by lia; lia
      | rewrite !Z.mod_small in E by lia; lia].
  - intros n k r Hk Hs. pose proof (co_told c Hc n k Hk) as [_ Ht]. rewrite Hs in Ht. destruct r as [response | []]; [done | done | by left | by right | done].
Qed.
End calls.

(** * Events *)
Section delivery.
Context {P : Postcard TurnMessage}.

(** What a turn stream says, read from its first byte to its end or to what breaks the
    protocol; each message takes at least a byte, so [length recv] of them are enough. *)
Fixpoint turn_events (fuel : nat) (recv : list Z) : list ClientEvent :=
  match fuel with
  | O => []
  | S fuel =>
      match Proto.read_message TURN_MAX_FRAME recv with
      | Ok (TurnOf turn, rest) => EvTurn turn :: turn_events fuel rest
      | _ => []
      end
  end.
Definition turns_story (recv : list Z) : list ClientEvent := turn_events (length recv) recv.
Definition start_story (recv : list Z) : list ClientEvent :=
  match Proto.read_message TURN_MAX_FRAME recv with
  | Ok (Start start, rest) => EvTurnStream start :: turns_story rest
  | _ => []
  end.
Definition stream_story (recv : list Z) : list ClientEvent :=
  match read_preamble recv with
  | Ok (version, rest) => if version =? PROTOCOL_VERSION then start_story rest else []
  | _ => []
  end.
Definition stories (streams : list (list Z)) : list ClientEvent := concat (stream_story <$> streams).

Lemma read_message_shorter {T} {Q : Postcard T} max recv (m : T) rest :
  Proto.read_message max recv = Ok (m, rest) → (length rest < length recv)%nat.
Proof.
  unfold Proto.read_message, read_exact. case_decide as H1; [| done]. cbn [result_bind].
  destruct (map_err FrameErr (frame_len _ max)) as [len | e]; [| done]. cbn [result_bind]. case_decide as H2; [| done]. cbn [result_bind].
  destruct (map_err FrameErr (decode_frame _)) as [x | e]; [| done]. intros [= _ <-]. rewrite !length_drop.
  unfold FRAME_HEADER_LEN in *. lia.
Qed.

Lemma turn_events_enough n1 n2 recv : (length recv ≤ n1)%nat → (length recv ≤ n2)%nat → turn_events n1 recv = turn_events n2 recv.
Proof.
  assert (Proto.read_message (T := TurnMessage) TURN_MAX_FRAME [] = Err Read) as Hnil by done.
  revert n2 recv. induction n1 as [| n1 IH]; intros [| n2] recv H1 H2; cbn; [done | | |].
  - destruct recv; [by rewrite Hnil | cbn in H1; lia].
  - destruct recv; [by rewrite Hnil | cbn in H2; lia].
  - destruct (Proto.read_message TURN_MAX_FRAME recv) as [[[start | turn] rest] | e] eqn:E; [done | | done].
    apply read_message_shorter in E. f_equal. apply IH; lia.
Qed.

Lemma turns_story_eq recv : turns_story recv =
  match Proto.read_message TURN_MAX_FRAME recv with Ok (TurnOf turn, rest) => EvTurn turn :: turns_story rest | _ => [] end.
Proof.
  unfold turns_story at 1. destruct recv as [| b recv]; [done |]. cbn [turn_events length].
  destruct (Proto.read_message TURN_MAX_FRAME (b :: recv)) as [[[start | turn] rest] | e] eqn:E; [done | | done].
  f_equal. apply read_message_shorter in E. apply turn_events_enough; cbn in E; lia.
Qed.

(** What is still to be read of the stream at hand. *)
Definition to_come (r : TurnReader) : list ClientEvent :=
  match r with
  | Accepting | TurnsEnded => []
  | AtPreamble recv => stream_story recv
  | AtStart recv => start_story recv
  | Announcing start recv => EvTurnStream start :: turns_story recv
  | AtTurn recv => turns_story recv
  | Weighing turn recv | Queueing turn _ recv => EvTurn turn :: turns_story recv
  end.

Definition in_hand (r : ControlReader) : list ClientEvent := match r with Delivering event => [event] | _ => [] end.
Definition share_held (r : TurnReader) : Z := match r with Queueing _ share _ => share | _ => 0 end.

Definition of_turns (event : ClientEvent) : bool := match event with EvTurnStream _ | EvTurn _ => true | _ => false end.
Definition of_control (event : ClientEvent) : bool := match event with EvTurnStream _ | EvTurn _ | EvClosed => false | _ => true end.
Definition turn_part : list ClientEvent → list ClientEvent := List.filter of_turns.
Definition control_part : list ClientEvent → list ClientEvent := List.filter of_control.

(** All the events there have been for the application. *)
Definition delivered (c : Client) : list ClientEvent := received c ++ (events c).*1.

Definition share_right (event : ClientEvent) (share : Z) : Prop :=
  share = match event with EvTurn turn => share_of turn | _ => 0 end.

Record events_ok (c : Client) : Prop := {
  eo_room : (length (events c) ≤ EVENT_QUEUE)%nat;
  eo_budget : 0 ≤ budget c ∧ budget c + shares (events c) + share_held (turns c) = EVENT_BYTES;
  eo_shares : Forall (λ e, share_right e.1 e.2) (events c);
  eo_held : ∀ turn share recv, turns c = Queueing turn share recv → share = share_of turn;
  eo_control : if listening c then control_part (delivered c) ++ in_hand (control c) = omap event_of (heard c)
               else control_part (delivered c) `prefix_of` omap event_of (heard c);
  eo_turns : if listening c then turn_part (delivered c) ++ to_come (turns c) = stories (accepted c)
             else turn_part (delivered c) `prefix_of` stories (accepted c);
  eo_gone : listening c = false → events c = [];
  eo_hand : ∀ event, event ∈ in_hand (control c) → of_control event = true;
}.

Definition untouched (c c' : Client) : Prop :=
  events c' = events c ∧ listening c' = listening c ∧ received c' = received c ∧ budget c' = budget c ∧
  turns c' = turns c ∧ accepted c' = accepted c ∧ heard c' = heard c ∧ in_hand (control c') = in_hand (control c).

Lemma untouched_ok c c' : untouched c c' → events_ok c → events_ok c'.
Proof.
  intros (E1 & E2 & E3 & E4 & E5 & E6 & E7 & E8) [H1 H2 H3 H4 H5 H6 H7 H8].
  split; unfold delivered in *; rewrite ?E1, ?E2, ?E3, ?E4, ?E5, ?E6, ?E7, ?E8; done.
Qed.

Lemma advance_untouched c n k : untouched c (advance_call c n k).
Proof.
  assert (∀ id, untouched c (remove_pending c id)) as Hrem by (intros id; unfold remove_pending; by destruct (pending c !! id)).
  unfold advance_call. destruct (stage k); try done.
  - apply (Hrem (call_id k)).
  - destruct (negb _); [done |]. by destruct (_ <? _)%nat.
  - by destruct (answer k) as [| | []].
  - apply (Hrem (call_id k)).
Qed.

Lemma send_event_cases c event share :
  match send_event c event share with
  | (c', SentIt) => listening c = true ∧ (length (events c) < EVENT_QUEUE)%nat ∧ c' = c <| events := events c ++ [(event, share)] |>
  | (c', Waits) => c' = c
  | (c', Nobody) => listening c = false ∧ c' = c
  end.
Proof.
  unfold send_event. destruct (listening c); cbn [negb]; [| done]. destruct (Nat.ltb_spec (length (events c)) EVENT_QUEUE); done.
Qed.

Lemma delivered_push c event share : delivered (c <| events := events c ++ [(event, share)] |>) = delivered c ++ [event].
Proof. unfold delivered. cbn. by rewrite fmap_app, app_assoc. Qed.

Lemma shares_push l event share : shares (l ++ [(event, share)]) = shares l + share.
Proof. unfold shares. rewrite fmap_app, sum_Z_app. cbn. rewrite sum_Z_cons, sum_Z_nil. lia. Qed.

Lemma parts_push l event :
  control_part (l ++ [event]) = control_part l ++ (if of_control event then [event] else []) ∧
  turn_part (l ++ [event]) = turn_part l ++ (if of_turns event then [event] else []).
Proof. unfold control_part, turn_part. rewrite !List.filter_app. cbn. by destruct (of_control event), (of_turns event). Qed.

Lemma share_of_eq turn : share_of turn = Z.min (turn_weight turn) EVENT_BYTES.
Proof. unfold share_of. destruct (Z.leb_spec (Z.min (turn_weight turn) EVENT_BYTES) u32_max) as [| H]; [done |].
  assert (EVENT_BYTES ≤ u32_max) by done. lia.
Qed.

Lemma share_of_nonneg turn : 0 ≤ share_of turn.
Proof.
  rewrite share_of_eq. apply Z.min_glb; [| done]. unfold turn_weight. assert (0 ≤ sum_Z (event_size <$> Proto.events turn)); [| unfold EVENT_OVERHEAD; lia].
  apply sum_Z_nonneg, Forall_fmap, Forall_forall. intros e _. cbn. unfold event_size, EVENT_OVERHEAD. destruct (body e); lia.
Qed.

(** An event is queued: it was in the hands of one of the readers, or is the last. *)
Lemma push_ok c c' event share :
  events_ok c → listening c = true → (length (events c) < EVENT_QUEUE)%nat → share_right event share →
  events c' = events c ++ [(event, share)] → listening c' = true → received c' = received c → budget c' = budget c →
  heard c' = heard c → accepted c' = accepted c →
  share_held (turns c) = share + share_held (turns c') → (∀ turn s recv, turns c' = Queueing turn s recv → s = share_of turn) →
  in_hand (control c) = (if of_control event then [event] else []) ++ in_hand (control c') →
  to_come (turns c) = (if of_turns event then [event] else []) ++ to_come (turns c') →
  events_ok c'.
Proof.
  intros [H1 H2 H3 H4 H5 H6 H7 H8] Hl Hlen Hs E1 E2 E3 E4 E5 E6 E7 E8 E9 E10. rewrite Hl in H5, H6.
  assert (delivered c' = delivered c ++ [event]) as Ed by (unfold delivered; by rewrite E1, E3, fmap_app, app_assoc).
  destruct (parts_push (delivered c) event) as [Pc Pt].
  split; rewrite ?E1, ?E2, ?E4, ?E5, ?E6, ?Ed, ?Pc, ?Pt, ?shares_push; try done.
  - rewrite length_app. cbn. lia.
  - lia.
  - apply Forall_app. split; [done |]. by constructor.
  - by rewrite <- app_assoc, <- E9.
  - by rewrite <- app_assoc, <- E10.
  - intros e Hin. apply H8. rewrite E9. apply elem_of_app. by right.
Qed.

(** A reader reads on, and nothing is queued. *)
Lemma read_ok c c' :
  events_ok c → events c' = events c → listening c' = listening c → received c' = received c → budget c' + share_held (turns c') = budget c + share_held (turns c) →
  0 ≤ budget c' → (∀ turn s recv, turns c' = Queueing turn s recv → s = share_of turn) →
  (if listening c then ∀ l, l ++ in_hand (control c) = omap event_of (heard c) → l ++ in_hand (control c') = omap event_of (heard c')
   else omap event_of (heard c) `prefix_of` omap event_of (heard c')) →
  (if listening c then ∀ l, l ++ to_come (turns c) = stories (accepted c) → l ++ to_come (turns c') = stories (accepted c')
   else stories (accepted c) `prefix_of` stories (accepted c')) →
  (∀ event, event ∈ in_hand (control c') → of_control event = true) →
  events_ok c'.
Proof.
  intros [H1 H2 H3 H4 H5 H6 H7 H8] E1 E2 E3 E4 Hb Hq Hc Ht Hh.
  assert (delivered c' = delivered c) as Ed by (unfold delivered; by rewrite E1, E3).
  split; rewrite ?E1, ?E2, ?Ed; try done; [lia | | ].
  - destruct (listening c); [by apply Hc | by etransitivity].
  - destruct (listening c); [by apply Ht | by etransitivity].
Qed.

Lemma omap_snoc (l : list ServerMessage) m : omap event_of (l ++ [m]) = omap event_of l ++ match event_of m with Some e => [e] | None => [] end.
Proof. rewrite omap_app. cbn. by destruct (event_of m). Qed.

Lemma control_events_ok c message : events_ok c → events_ok (read_control c message).
Proof.
  intros He. pose proof (eo_held c He) as Hq. pose proof (eo_budget c He) as [Hb _]. pose proof (eo_hand c He) as Hh. unfold read_control.
  assert (if listening c then ∀ l, l ++ to_come (turns c) = stories (accepted c) → l ++ to_come (turns c) = stories (accepted c)
          else stories (accepted c) `prefix_of` stories (accepted c)) as Ht by (by destruct (listening c)).
  destruct (control c) as [| n r | event | | |] eqn:Ec; [| by eapply untouched_ok; [| exact He]; unfold untouched; cbn; rewrite Ec | | | | done].
  - destruct message as [message | e]; cbn [hear]; cycle 1.
    { destruct (is_disconnect e); (eapply untouched_ok; [| exact He]; unfold untouched; cbn; by rewrite Ec). }
    destruct message as [| | id r | | | | | |]; cbn [event_of]; try destruct (pending _ !! _);
      (eapply read_ok; [exact He | done | done | done | done | done | exact Hq | | exact Ht |];
        [rewrite Ec; cbn; rewrite omap_snoc; cbn; destruct (listening c); [intros l; rewrite ?app_nil_r, ?Ec; cbn; rewrite ?app_nil_r; by intros <- | by eexists]
        | cbn; rewrite ?Ec; cbn; set_solver]).
  - pose proof (send_event_cases c event 0) as Hs. destruct (send_event c event 0) as [c' []].
    + destruct Hs as (Hl & Hlen & ->). pose proof (Hh event ltac:(by left)) as Hc. assert (of_turns event = false) as Hnt by (by destruct event).
      eapply (push_ok c _ event 0); [done | done | done | by destruct event | done | done | done | done | done | done | | | |];
        cbn; rewrite ?Ec, ?Hc, ?Hnt; done.
    + by subst.
    + destruct Hs as [Hl ->]. eapply read_ok; [exact He | done | done | done | done | done | exact Hq | | exact Ht |]; [by rewrite Hl | set_solver].
  - eapply untouched_ok; [| exact He]; unfold untouched; cbn; by rewrite Ec.
  - eapply untouched_ok; [| exact He]; unfold untouched; cbn; by rewrite Ec.
Qed.

Lemma turns_events_ok c stream : events_ok c → events_ok (read_turns c stream).
Proof.
  intros He. pose proof (eo_held c He) as Hq. pose proof (eo_budget c He) as [Hb Hsum]. pose proof (eo_hand c He) as Hh.
  assert (if listening c then ∀ l, l ++ in_hand (control c) = omap event_of (heard c) → l ++ in_hand (control c) = omap event_of (heard c)
          else omap event_of (heard c) `prefix_of` omap event_of (heard c)) as Hc by (by destruct (listening c)).
  assert (∀ r, (∀ turn s recv, r ≠ Queueing turn s recv) → share_held (turns c) = 0 → to_come (turns c) = to_come r → events_ok (c <| turns := r |>)) as Hon.
  { intros r Hr Hz Et. apply (read_ok c); [done | done | done | done | | done | | exact Hc | | exact Hh].
    - cbn. destruct r; cbn; try lia. by destruct (Hr turn share recv0).
    - intros turn s recv Eq. by destruct (Hr turn s recv).
    - cbn. rewrite Et. by destruct (listening c). }
  assert (∀ r, events_ok (c <| turns := r |>) → events_ok ((close_with c Room.PROTOCOL_VIOLATION) <| turns := r |>)) as Hclose
    by (intros r; by apply untouched_ok).
  unfold read_turns. destruct (turns c) as [| recv | recv | start recv | recv | turn recv | turn share recv |] eqn:Et; try done.
  - destruct stream as [recv |]; [| by apply Hon]. apply (read_ok c); [done | done | done | done | by cbn; rewrite Et | done | done | exact Hc | | exact Hh].
    cbn. rewrite Et. unfold stories. rewrite fmap_app, concat_app. cbn. rewrite app_nil_r.
    destruct (listening c); [intros l; rewrite app_nil_r; by intros -> | by eexists].
  - destruct (read_preamble recv) as [[v rest] | e] eqn:Er.
    + destruct (v =? PROTOCOL_VERSION) eqn:Ev; [apply Hon | apply Hclose, Hon]; try done; cbn; unfold stream_story; by rewrite Er, Ev.
    + destruct (is_disconnect e); [apply Hon | apply Hclose, Hon]; try done; cbn; unfold stream_story; by rewrite Er.
  - destruct (Proto.read_message TURN_MAX_FRAME recv) as [[[start | turn] rest] | e] eqn:Er; [apply Hon | apply Hclose, Hon | destruct (is_disconnect e); [apply Hon | apply Hclose, Hon]];
      try done; cbn; unfold start_story; by rewrite Er.
  - pose proof (send_event_cases c (EvTurnStream start) 0) as Hs. destruct (send_event c (EvTurnStream start) 0) as [c' []]; [| by subst |].
    + destruct Hs as (Hl & Hlen & ->). eapply (push_ok c _ (EvTurnStream start) 0); cbn; try done; by rewrite Et.
    + destruct Hs as [Hl ->]. apply (read_ok c); [done | done | done | done | by cbn; rewrite Et | done | done | exact Hc | cbn; by rewrite Hl | exact Hh].
  - destruct (Proto.read_message TURN_MAX_FRAME recv) as [[[start | turn] rest] | e] eqn:Er; [apply Hclose, Hon | apply Hon | destruct (is_disconnect e); [apply Hon | apply Hclose, Hon]];
      try done; cbn; rewrite turns_story_eq; by rewrite Er.
  - cbv zeta. destruct (Z.leb_spec (share_of turn) (budget c)); [| done].
    apply (read_ok c); [done | done | done | done | cbn; rewrite Et; cbn; lia | cbn; lia | cbn; congruence | exact Hc | | exact Hh].
    cbn. rewrite Et. by destruct (listening c).
  - pose proof (send_event_cases c (EvTurn turn) share) as Hs. destruct (send_event c (EvTurn turn) share) as [c' []]; [| by subst |].
    + destruct Hs as (Hl & Hlen & ->). eapply (push_ok c _ (EvTurn turn) share); cbn; try done; [by eapply Hq | rewrite Et; cbn; lia | by rewrite Et].
    + destruct Hs as [Hl ->]. rewrite (Hq _ _ _ eq_refl) in *. pose proof (share_of_nonneg turn).
      apply (read_ok c); [done | done | done | done | cbn; rewrite Et; cbn; lia | cbn; lia | done | exact Hc | cbn; by rewrite Hl | exact Hh].
Qed.

Lemma step_events_ok c m : events_ok c → events_ok (client_step c m).
Proof.
  intros He. destruct m as [request | n | n | n | message | sent | message | stream | | |]; cbn [client_step].
  - by apply (untouched_ok c).
  - unfold on_call. destruct (calls c !! n); [| done]. eapply untouched_ok; [apply advance_untouched | done].
  - unfold on_call. destruct (calls c !! n) as [k |]; [| done]. unfold expire_call. destruct (stage k), (answer k); by apply (untouched_ok c).
  - unfold on_call. destruct (calls c !! n) as [k |]; [| done]. unfold cancel_call. destruct (stage k); by apply (untouched_ok c).
  - apply (untouched_ok c); [| done]. unfold send. destruct (negb _); [done |]. by destruct (_ <? _)%nat.
  - apply (untouched_ok c); [| done]. unfold write_control. destruct (writing c); [| done]. destruct (outgoing c); [done | by destruct sent].
  - by apply control_events_ok.
  - by apply turns_events_ok.
  - unfold say_closed. destruct (farewell c); [| done]. pose proof (send_event_cases c EvClosed 0) as Hs.
    pose proof (eo_held c He). destruct (send_event c EvClosed 0) as [c' []]; [| by subst | by destruct Hs as [_ ->]; apply (untouched_ok c)].
    destruct Hs as (Hl & Hlen & ->). by eapply (push_ok c _ EvClosed 0).
  - unfold recv. destruct He as [H1 H2 H3 H4 H5 H6 H7 H8]. destruct (events c) as [| [event share] rest] eqn:Ee; [by split; rewrite ?Ee |].
    assert (delivered (c <| events := rest |> <| received := received c ++ [event] |> <| budget := budget c + share |>) = delivered c) as Ed.
    { unfold delivered. cbn. rewrite Ee. cbn. by rewrite <- app_assoc. }
    apply Forall_cons in H3 as [Hs H3]. cbn in Hs. unfold shares in H2. cbn in H2. rewrite sum_Z_cons in H2.
    assert (0 ≤ share) as Hpos by (rewrite Hs; destruct event; try done; apply share_of_nonneg).
    split; rewrite ?Ed; cbn; try done; [cbn in H1; lia | unfold shares; lia | by intros ?%H7].
  - destruct He as [H1 H2 H3 H4 H5 H6 H7 H8]. assert (control_part (received c) `prefix_of` control_part (delivered c) ∧
      turn_part (received c) `prefix_of` turn_part (delivered c)) as [P1 P2].
    { unfold delivered, control_part, turn_part. rewrite !List.filter_app. split; by eexists. }
    assert (0 ≤ shares (events c)) as Hpos.
    { apply sum_Z_nonneg, Forall_fmap. eapply Forall_impl; [exact H3 |]. intros [ev s] Hs. cbn in *. rewrite Hs. destruct ev; try done. apply share_of_nonneg. }
    assert (∀ X, delivered (drop_events c) = X → X = received c) as Ed by (intros X <-; unfold delivered; cbn; apply app_nil_r).
    split; rewrite ?(Ed _ eq_refl); cbn [events budget listening turns control heard accepted drop_events]; try done.
    + cbn. lia.
    + change (budget _) with (budget c + shares (events c)). cbn. rewrite Z.add_0_r. lia.
    + change (control_part (received c) `prefix_of` omap event_of (heard c)). etransitivity; [exact P1 |]. destruct (listening c); [eexists; by rewrite H5 | exact H5].
    + change (turn_part (received c) `prefix_of` stories (accepted c)). etransitivity; [exact P2 |]. destruct (listening c); [eexists; by rewrite H6 | exact H6].
Qed.

Lemma run_events_ok moves : events_ok (client_run Client_new moves).
Proof.
  assert (events_ok Client_new) as H0 by (split; cbn; try done; [lia | set_solver]).
  revert H0. generalize Client_new. induction moves as [| m moves IH]; intros c Hc; cbn; [done |]. by apply IH, step_events_ok.
Qed.

(** What a slow application holds is bounded.  However fast the server sends and
    however late the application takes events: the queue holds at most 1024 events,
    and the turns in it weigh at most 64 MiB as [TurnFollower] weighs its backlog, a
    turn heavier than that counting as one. *)
Theorem client_bounded (moves : list Move) :
  let c := client_run Client_new moves in
  (length (events c) ≤ EVENT_QUEUE)%nat ∧
  sum_Z ((λ e, match e.1 with EvTurn turn => Z.min (turn_weight turn) EVENT_BYTES | _ => 0 end) <$> events c) ≤ EVENT_BYTES.
Proof.
  intros c. destruct (run_events_ok moves) as [H1 [H2 H3] H4 H5 _ _ _ _]. fold c in H1, H2, H3, H4, H5. split; [done |].
  assert (0 ≤ share_held (turns c)) as Hp.
  { destruct (turns c) eqn:E; cbn; try done. rewrite (H5 _ _ _ eq_refl). apply share_of_nonneg. }
  assert ((λ e : ClientEvent * Z, match e.1 with EvTurn turn => Z.min (turn_weight turn) EVENT_BYTES | _ => 0 end) <$> events c = (events c).*2) as ->.
  { apply list_fmap_ext. intros i [ev s] Hi. apply (Forall_lookup_1 _ _ _ _ H4) in Hi. cbn in *. rewrite Hi. destruct ev; try done. by rewrite share_of_eq. }
  fold (shares (events c)). lia.
Qed.
End delivery.

(** * A session: one request answered, one caught by the end of the reader *)
Module ClientExample.
Export Codec.Concrete.
Definition quit : result ServerMessage NetError := Err Read.
Definition moves : list Move := [
  Begin RequestLeave; Advance 0; Advance 0; Advance 0; Write true;
  Control (Ok (ResponseTo 1 (Ok Proto.Done))); Control quit; Advance 0;
  Begin RequestStart; Advance 1; Control quit; Control quit; Control quit ].
Definition caught : Call := MkCall 2 RequestStart Registered Dropped.
End ClientExample.
Import Codec.Concrete.

Lemma calls_return_witness :
  let c := client_run Client_new ClientExample.moves in
  control c = ControlEnded ∧ calls c !! 1%nat = Some ClientExample.caught ∧
  ∃ r k', calls (client_run c (repeat (Advance 1) 3)) !! 1%nat = Some k' ∧ stage k' = Returned r.
Proof.
  intros c. split; [vm_compute; reflexivity |]. split; [vm_compute; reflexivity |].
  refine (calls_return ClientExample.moves 1 ClientExample.caught _ _ _ _).
  - vm_compute. reflexivity.
  - intros _. vm_compute. repeat constructor.
  - vm_compute. reflexivity.
  - discriminate.
Defined.

Lemma answers_own_witness :
  let c := client_run Client_new ClientExample.moves in
  option_map stage (calls c !! 0%nat) = Some (Returned (Ok Proto.Done)) ∧ ResponseTo 1 (Ok Proto.Done) ∈ heard c.
Proof.
  intros c. split; [vm_compute; reflexivity |].
  refine (proj2 (answers_own ClientExample.moves _) 0%nat (MkCall 1 RequestLeave (Returned (Ok Proto.Done)) (Answered (Ok Proto.Done))) (Ok Proto.Done) _ _).
  - vm_compute. discriminate.
  - vm_compute. reflexivity.
  - reflexivity.
Defined.
