(* ===== verification/Delivery.v ===== *)
(** Turns on their way: from what a room sends a connection, over the task that writes
    it ([crates/tpf3mp-server/src/connection.rs], [write_turns]) and the player's client
    that reads it ([Client]), to the bridge and the game ([Seat]). *)
From S2P Require Import Prelude Proto TurnLog Codec Ruleset Game Persist Room RoomInv Streams.
From S2P Require Import Follower Gate Hook Ring Playout Bridge BridgeInv Rejoin BridgeCodec Seat Client.
Local Open Scope Z_scope.

(** * The server's side *)
Section writer.
Context {P : Postcard TurnMessage}.

(** The bytes of each turn stream opened so far; whether the last one is still open;
    whether the task has ended. *)
Record TurnWriter := MkTurnWriter { streams : list (list Z); is_open : bool; stopped : bool }.
Definition TurnWriter_new : TurnWriter := MkTurnWriter [] false false.

(** How a write goes: through, through for some bytes only, or no stream opens. *)
Inductive Fate := Through | Cut (n : nat) | NoStream.

Definition through (fate : Fate) (bytes : list Z) : list Z :=
  match fate with Through => bytes | Cut n => take n bytes | NoStream => [] end.
Definition goes_through (fate : Fate) : bool := match fate with Through => true | _ => false end.

(** What [open_turn_stream] writes, and whether it can write it all. *)
Definition opening_bytes (start : TurnStart) (backlog : list Frame) : list Z * bool :=
  match encode_frame (Start start) TURN_MAX_FRAME with
  | Ok frame => (encode_preamble PROTOCOL_VERSION ++ frame ++ concat backlog, true)
  | Err _ => (encode_preamble PROTOCOL_VERSION, false)
  end.

Definition open_turn_stream (w : TurnWriter) (start : TurnStart) (backlog : list Frame) (fate : Fate) : TurnWriter :=
  match fate with
  | NoStream => MkTurnWriter (streams w) false true
  | _ =>
      let '(bytes, whole) := opening_bytes start backlog in
      let ok := whole && goes_through fate in
      MkTurnWriter (streams w ++ [through fate bytes]) ok (negb ok)
  end.

Definition write_frame (w : TurnWriter) (frame : Frame) (fate : Fate) : TurnWriter :=
  match is_open w, last (streams w) with
  | true, Some bytes =>
      MkTurnWriter (alter (λ bytes, bytes ++ through fate frame) (pred (length (streams w))) (streams w)) true (negb (goes_through fate))
  | _, _ => w
  end.

Definition write_turns (w : TurnWriter) (item : TurnFeed * Fate) : TurnWriter :=
  if stopped w then w
  else
    match item with
    | (FeedOpen start backlog, fate) => open_turn_stream w start backlog fate
    | (FeedFrame frame, fate) => write_frame w frame fate
    | (FeedClose, _) => MkTurnWriter (streams w) false false
    end.

(** The task has taken as many messages as there are fates. *)
Definition write_feed (fs : list TurnFeed) (fates : list Fate) : TurnWriter := foldl write_turns TurnWriter_new (zip fs fates).

(** * Streams cut short *)
Context {L : PostcardLaws TurnMessage}.

Lemma read_exact_prefix n a b : a `prefix_of` b →
  read_exact n a = Err Read ∨ ∃ x rest rest', read_exact n a = Ok (x, rest) ∧ read_exact n b = Ok (x, rest') ∧ rest `prefix_of` rest'.
Proof.
  intros [k ->]. unfold read_exact. case_decide as Hn; [right | by left]. rewrite decide_True by (rewrite length_app; lia).
  exists (take n a), (drop n a), (drop n a ++ k). split; [done |]. rewrite take_app_le, drop_app_le by lia. split; [done | by eexists].
Qed.

Lemma read_message_prefix {T} {Q : Postcard T} max a b : a `prefix_of` b →
  Proto.read_message (T := T) max a = Err Read ∨
  (∃ m rest rest', Proto.read_message max a = Ok (m, rest) ∧ Proto.read_message (T := T) max b = Ok (m, rest') ∧ rest `prefix_of` rest') ∨
  (∃ e, Proto.read_message (T := T) max a = Err e ∧ Proto.read_message (T := T) max b = Err e).
Proof.
  intros Hab. unfold Proto.read_message. destruct (read_exact_prefix FRAME_HEADER_LEN a b Hab) as [-> | (h & r & r' & -> & -> & Hr)]; [by left |].
  cbn [result_bind]. destruct (frame_len h max) as [len | e]; cbn [map_err result_bind]; [| right; right; by eexists].
  destruct (read_exact_prefix (Z.to_nat len) r r' Hr) as [-> | (p & q & q' & -> & -> & Hq)]; [by left |]. cbn [result_bind].
  destruct (decode_frame p) as [m | e]; cbn [map_err result_bind]; [right; left; by exists m, q, q' | right; right; by eexists].
Qed.

Lemma turns_story_prefix a b : a `prefix_of` b → turns_story a `prefix_of` turns_story b.
Proof.
  remember (length a) as n eqn:Hn. revert a b Hn. induction n as [n IH] using (well_founded_induction lt_wf). intros a b Hn Hab.
  rewrite (turns_story_eq a), (turns_story_eq b). destruct (read_message_prefix TURN_MAX_FRAME a b Hab) as [-> | [(m & r & r' & E & -> & Hr) | (e & -> & ->)]];
    [apply prefix_nil | | done].
  rewrite E. destruct m as [start | turn]; [done |]. apply prefix_cons. eapply IH; [| done | exact Hr]. subst n. by eapply read_message_shorter.
Qed.

Lemma stream_story_prefix a b : a `prefix_of` b → stream_story a `prefix_of` stream_story b.
Proof.
  intros Hab. unfold stream_story, read_preamble.
  destruct (read_exact_prefix PREAMBLE_LEN a b Hab) as [-> | (h & r & r' & -> & -> & Hr)]; [apply prefix_nil |]. cbn [result_bind].
  destruct (decode_preamble h) as [v | e]; cbn [map_err result_bind]; [| done]. destruct (v =? PROTOCOL_VERSION); [| done].
  unfold start_story. destruct (read_message_prefix TURN_MAX_FRAME r r' Hr) as [-> | [(m & q & q' & -> & -> & Hq) | (e & -> & ->)]];
    [apply prefix_nil | | done].
  destruct m as [start | turn]; [| done]. by apply prefix_cons, turns_story_prefix.
Qed.

Lemma turns_story_written ts frames : Forall2 encodes ts frames → turns_story (concat frames) = EvTurn <$> ts.
Proof.
  induction 1 as [| t f ts frames Ht _ IH]; [done |]. cbn [concat fmap list_fmap]. rewrite turns_story_eq.
  by rewrite (read_message_encoded _ _ _ _ Ht), IH.
Qed.

(** A stream that was written whole. *)
Definition stream_bytes (start : TurnStart) (frames : list Frame) (bytes : list Z) : Prop :=
  ∃ frame, encode_frame (Start start) TURN_MAX_FRAME = Ok frame ∧ bytes = encode_preamble PROTOCOL_VERSION ++ frame ++ concat frames.

Lemma stream_story_written start ts frames bytes : stream_bytes start frames bytes → Forall2 encodes ts frames →
  stream_story bytes = EvTurnStream start :: (EvTurn <$> ts).
Proof.
  intros (frame & Hs & ->) Hf. unfold stream_story. rewrite preamble_roundtrip by done. change (PROTOCOL_VERSION =? PROTOCOL_VERSION) with true.
  cbv iota. unfold start_story. rewrite (read_message_encoded _ _ _ _ Hs). by rewrite (turns_story_written ts frames).
Qed.

Lemma preamble_says_nothing bytes : bytes `prefix_of` encode_preamble PROTOCOL_VERSION → stream_story bytes = [].
Proof.
  intros Hp. apply stream_story_prefix in Hp. assert (stream_story (encode_preamble PROTOCOL_VERSION) = []) as E by done.
  rewrite E in Hp. by apply prefix_nil_inv in Hp.
Qed.

(** * What the room's log says of a stream *)
Definition in_log (all : list Turn) (event : ClientEvent) : Prop :=
  match event with
  | EvTurnStream start => ∃ before rest, all = before ++ rest ∧ chain first_pos before (start_pos start)
  | EvTurn turn => all !! Z.to_nat (number turn - 1) = Some turn
  | _ => True
  end.

(** A stream of the log, written whole. *)
Definition log_stream (all : list Turn) (bytes : list Z) : Prop :=
  ∃ start ts frames, stream_bytes start frames bytes ∧ Forall2 encodes ts frames ∧
    in_log all (EvTurnStream start) ∧ Forall (λ t, in_log all (EvTurn t)) ts.
Definition cut_stream (all : list Turn) (bytes : list Z) : Prop :=
  (∃ whole, log_stream all whole ∧ bytes `prefix_of` whole) ∨ bytes `prefix_of` encode_preamble PROTOCOL_VERSION.

Lemma cut_stream_says all bytes event : cut_stream all bytes → event ∈ stream_story bytes → in_log all event.
Proof.
  intros [(whole & (start & ts & frames & Hb & Hf & Hs & Ht) & Hp) | Hp] Hin; [| rewrite (preamble_says_nothing bytes Hp) in Hin; by apply not_elem_of_nil in Hin].
  apply stream_story_prefix in Hp as [k E]. rewrite (stream_story_written start ts frames) in E by done.
  assert (event ∈ EvTurnStream start :: (EvTurn <$> ts)) as Hin' by (rewrite E; apply elem_of_app; by left).
  apply elem_of_cons in Hin' as [-> | Hin']; [done |]. apply list_elem_of_fmap in Hin' as (t & -> & Hin'). rewrite Forall_forall in Ht. by apply Ht.
Qed.

Lemma number_at all before t rest p : all = before ++ t :: rest → chain first_pos before p → turn_follows p t → in_log all (EvTurn t).
Proof.
  intros -> Hc Ht. cbn. rewrite (tf_number _ _ Ht), (chain_turns _ _ _ Hc). cbn [pos_turn first_pos].
  replace (Z.to_nat (1 + Z.of_nat (length before) - 1)) with (length before) by lia. by rewrite list_lookup_middle.
Qed.

Lemma piece_in_log all before ts rest p q :
  all = before ++ ts ++ rest → chain first_pos before p → chain p ts q → Forall (λ t, in_log all (EvTurn t)) ts.
Proof.
  intros E Hb Hc. revert before E Hb. induction Hc as [| p t ts q Ht _ IH]; intros before E Hb; constructor.
  - by eapply number_at.
  - apply (IH (before ++ [t])); [by rewrite E, <- app_assoc | by eapply chain_snoc].
Qed.

(** The writer's streams are pieces of the log, cut short where a write failed. *)
Record writes_log (all : list Turn) (w : TurnWriter) : Prop := {
  wl_streams : Forall (cut_stream all) (streams w);
  wl_last : stopped w = false → is_open w = true → ∃ bytes, last (streams w) = Some bytes ∧ log_stream all bytes;
}.

Lemma open_writes all w start backlog fate ts :
  writes_log all w → in_log all (EvTurnStream start) → Forall (λ t, in_log all (EvTurn t)) ts → Forall2 encodes ts backlog →
  writes_log all (open_turn_stream w start backlog fate).
Proof.
  intros [H1 H2] Hs Ht He. unfold open_turn_stream, opening_bytes.
  destruct (encode_frame (Start start) TURN_MAX_FRAME) as [frame | e] eqn:E.
  - assert (log_stream all (encode_preamble PROTOCOL_VERSION ++ frame ++ concat backlog)) as Hw.
    { exists start, ts, backlog. split; [| done]. by exists frame. }
    destruct fate as [| n |]; [| | by split]; cbn [andb goes_through negb through].
    + split; cbn; [apply Forall_app; split; [done |]; constructor; [left; by eexists | done] |]. intros _ _. rewrite last_snoc. by eexists.
    + split; cbn; [| done]. apply Forall_app. split; [done |]. constructor; [| done]. left. eexists. split; [exact Hw | apply prefix_take].
  - destruct fate as [| n |]; [| | by split]; (split; cbn; [| done]); apply Forall_app; (split; [done |]); (constructor; [right | done]); [done | apply prefix_take].
Qed.

Lemma frame_writes all w frame fate t :
  writes_log all w → stopped w = false → in_log all (EvTurn t) → encodes t frame → writes_log all (write_frame w frame fate).
Proof.
  intros Hw Hst Ht He. unfold write_frame. destruct (is_open w) eqn:Eo; [| exact Hw]. destruct Hw as [H1 H2]. destruct (H2 Hst Eo) as (bytes & El & Hlog).
  rewrite El. apply last_Some in El as [front El]. rewrite El in *. apply Forall_app in H1 as [H1 _].
  assert (log_stream all (bytes ++ frame)) as Hlog'.
  { destruct Hlog as (start & ts & frames & (fs & Hs & ->) & Hf & Hin & Hts). exists start, (ts ++ [t]), (frames ++ [frame]).
    split; [exists fs; split; [done |]; rewrite concat_app; cbn; by rewrite app_nil_r, <- !app_assoc |].
    split; [by apply Forall2_app; [| constructor] |]. split; [done |]. apply Forall_app. split; [done | by constructor]. }
  assert (alter (λ bytes, bytes ++ through fate frame) (pred (length (front ++ [bytes]))) (front ++ [bytes]) = front ++ [bytes ++ through fate frame]) as ->.
  { replace (pred (length (front ++ [bytes]))) with (length front + 0)%nat by (rewrite length_app; cbn; lia). by rewrite alter_app_r. }
  split; cbn.
  - apply Forall_app. split; [done |]. constructor; [| done]. left. exists (bytes ++ frame). split; [done |]. apply prefix_app.
    destruct fate; cbn; [done | apply prefix_take | apply prefix_nil].
  - destruct fate; cbn; [| done | done]. intros _ _. exists (bytes ++ frame). by rewrite last_snoc.
Qed.

Lemma feed_writes all fs st fates : fed all fs st → writes_log all (write_feed fs fates).
Proof.
  unfold write_feed. intros Hf. revert fates. induction Hf as [| fs st start backlog before ts rest q Hf IH E Hb Hc He | fs p f before t rest Hf IH E Hb Ht He | fs st Hf IH];
    intros fates; [by split |..]; rewrite zip_with_app_l, foldl_app; specialize (IH (take (length fs) fates));
    destruct (drop (length fs) fates) as [| fate more]; try exact IH; cbn; unfold write_turns at 1; cbn; rewrite ?zip_with_nil_r; cbn.
  - destruct (stopped _); [done |]. eapply open_writes; [done | by exists before, (ts ++ rest) | by eapply piece_in_log | done].
  - destruct (stopped _) eqn:Es; [done |]. eapply frame_writes; [done | done | by eapply number_at | done].
  - destruct (stopped _); [done |]. destruct IH as [IH _]. by split.
Qed.

(** * What a feed says *)
Definition frame_event (frame : Frame) : option ClientEvent :=
  match decode_frame (drop FRAME_HEADER_LEN frame) with Ok (TurnOf turn) => Some (EvTurn turn) | _ => None end.

Definition feed_says (said : list ClientEvent * bool) (item : TurnFeed) : list ClientEvent * bool :=
  match item with
  | FeedOpen start backlog => (said.1 ++ EvTurnStream start :: omap frame_event backlog, true)
  | FeedFrame frame => if said.2 then (said.1 ++ omap frame_event [frame], true) else said
  | FeedClose => (said.1, false)
  end.
Definition feed_events (fs : list TurnFeed) : list ClientEvent := (foldl feed_says ([], false) fs).1.

(** What [Game] puts into a feed: encoded turns, and starts that fit a frame. *)
Definition feed_ok (item : TurnFeed) : Prop :=
  match item with
  | FeedOpen start backlog => (∃ frame, encode_frame (Start start) TURN_MAX_FRAME = Ok frame) ∧ ∃ ts, Forall2 encodes ts backlog
  | FeedFrame frame => ∃ t, encodes t frame
  | FeedClose => True
  end.

Lemma frame_event_encoded t frame : encodes t frame → frame_event frame = Some (EvTurn t).
Proof. intros He. unfold frame_event. by rewrite (decode_frame_drop _ _ _ He). Qed.

Lemma frames_say ts frames : Forall2 encodes ts frames → omap frame_event frames = EvTurn <$> ts.
Proof. induction 1 as [| t f ts frames He _ IH]; [done |]. cbn. by rewrite (frame_event_encoded _ _ He), IH. Qed.

(** A writer none of whose writes fails has said all of the feed. *)
Record says_all (w : TurnWriter) (said : list ClientEvent * bool) : Prop := {
  sa_said : stories (streams w) = said.1;
  sa_open : is_open w = said.2;
  sa_runs : stopped w = false;
  sa_last : is_open w = true → ∃ front start ts frames bytes,
    streams w = front ++ [bytes] ∧ stream_bytes start frames bytes ∧ Forall2 encodes ts frames;
}.

Lemma stories_snoc front bytes : stories (front ++ [bytes]) = stories front ++ stream_story bytes.
Proof. unfold stories. rewrite fmap_app, concat_app. cbn. by rewrite app_nil_r. Qed.

Lemma write_says_all w said item : feed_ok item → says_all w said → says_all (write_turns w (item, Through)) (feed_says said item).
Proof.
  intros Hok [H1 H2 H3 H4]. unfold write_turns. rewrite H3. destruct item as [start backlog | frame |]; cbn [feed_says].
  - destruct Hok as [[frame Hs] [ts Hts]]. unfold open_turn_stream, opening_bytes. rewrite Hs. cbn [andb goes_through negb through].
    assert (stream_bytes start backlog (encode_preamble PROTOCOL_VERSION ++ frame ++ concat backlog)) as Hb by (by exists frame).
    split; cbn [streams is_open stopped fst snd]; [| done | done | intros _; exists (streams w), start, ts, backlog; by eexists].
    by rewrite stories_snoc, H1, (stream_story_written start ts backlog), (frames_say ts backlog).
  - destruct Hok as [t He]. unfold write_frame. rewrite <- H2. destruct (is_open w) eqn:Eo; [| by split; rewrite ?Eo].
    destruct (H4 eq_refl) as (front & start & ts & frames & bytes & Es & Hb & Hf). rewrite Es, last_snoc. cbn [goes_through negb through].
    assert (alter (λ bytes, bytes ++ frame) (pred (length (front ++ [bytes]))) (front ++ [bytes]) = front ++ [bytes ++ frame]) as ->.
    { replace (pred (length (front ++ [bytes]))) with (length front + 0)%nat by (rewrite length_app; cbn; lia). by rewrite alter_app_r. }
    assert (stream_bytes start (frames ++ [frame]) (bytes ++ frame)) as Hb'.
    { destruct Hb as (fs & Hs & ->). exists fs. split; [done |]. rewrite concat_app. cbn. by rewrite app_nil_r, <- !app_assoc. }
    assert (Forall2 encodes (ts ++ [t]) (frames ++ [frame])) as Hf' by (by apply Forall2_app; [| constructor]).
    split; cbn [streams is_open stopped fst snd]; [| done | done | intros _; by exists front, start, (ts ++ [t]), (frames ++ [frame]), (bytes ++ frame)].
    rewrite stories_snoc, (stream_story_written start (ts ++ [t]) (frames ++ [frame])) by done. cbn [omap list_omap]. rewrite (frame_event_encoded t frame) by done.
    rewrite <- H1, Es, stories_snoc, (stream_story_written start ts frames) by done. cbn. by rewrite fmap_app, <- app_assoc.
  - by split.
Qed.

Lemma feed_says_all fs : Forall feed_ok fs → says_all (write_feed fs (replicate (length fs) Through)) (foldl feed_says ([], false) fs).
Proof.
  unfold write_feed. assert (says_all TurnWriter_new ([], false)) as H0 by (by split). revert H0. generalize TurnWriter_new, (@nil ClientEvent, false).
  induction fs as [| item fs IH]; intros w said Hw Hok; [done |]. apply Forall_cons in Hok as [H1 H2]. cbn. apply IH; [by apply write_says_all | done].
Qed.

(** a player's agent sees what the room sent.  Take all that a room sent on a
    connection's turn stream, the streams the server's task writes of it, and a client
    whose tasks interleave in any way.  What the application has taken of turns, over
    all streams the client has taken up so far, is a beginning of what the room sent: a
    start where a stream opened and then its turns, each once and in order.  When the
    client has read all streams to their ends, everything is there: nothing is lost at
    the seams where one stream replaces another. *)
Theorem feed_reaches_client (fs : list TurnFeed) (moves : list Move) :
  Forall feed_ok fs →
  let w := write_feed fs (replicate (length fs) Through) in
  let c := client_run Client_new moves in
  (accepted c `prefix_of` streams w → turn_part (received c) `prefix_of` feed_events fs) ∧
  (accepted c = streams w → turns c = Accepting → listening c = true → turn_part (Client.delivered c) = feed_events fs).
Proof.
  intros Hok w c. destruct (feed_says_all fs Hok) as [Hsaid _ _ _]. fold w in Hsaid. unfold feed_events. rewrite <- Hsaid.
  destruct (run_events_ok moves) as [_ _ _ _ _ Ht _ _]. fold c in Ht. split.
  - intros [more ->]. unfold stories. rewrite fmap_app, concat_app. fold (stories (accepted c)).
    assert (turn_part (received c) `prefix_of` turn_part (Client.delivered c)) as Hp.
    { unfold Client.delivered, turn_part. rewrite List.filter_app. by eexists. }
    assert (turn_part (Client.delivered c) `prefix_of` stories (accepted c)) as Hp2.
    { destruct (listening c); [rewrite <- Ht; by eexists | exact Ht]. }
    etransitivity; [exact Hp |]. etransitivity; [exact Hp2 | by eexists].
  - intros <- Hturns Hl. rewrite Hl, Hturns in Ht. cbn in Ht. by rewrite app_nil_r in Ht.
Qed.
End writer.

(** * From the room's log to the game *)
Section log.
Context {P : Postcard TurnMessage} {L : PostcardLaws TurnMessage}.

(** Worlds loaded one after the other, each standing where some beginning of the log
    [all] ends, and on each the first of the actions the rest of the log orders. *)
Inductive plays (all : list Turn) : list Deed → Prop :=
  | plays_nothing : plays all []
  | plays_world ds before rest p acts :
      plays all ds → all = before ++ rest → chain first_pos before p →
      acts `prefix_of` log_actions (pos_sealed p) rest →
      plays all (ds ++ Loads (pos_sealed p + 1) :: (Does <$> acts)).

Lemma run_in_log all before rest p ts q :
  all = before ++ rest → chain first_pos before p → chain p ts q → Forall (λ t, in_log all (EvTurn t)) ts → ts `prefix_of` rest.
Proof.
  intros E Hb Hc. revert before rest E Hb. induction Hc as [| p t ts q Ht Hc IH]; intros before rest E Hb Hin; [apply prefix_nil |].
  apply Forall_cons in Hin as [H1 H2]. cbn in H1. rewrite (tf_number _ _ Ht), (chain_turns _ _ _ Hb) in H1. cbn [pos_turn first_pos] in H1.
  replace (Z.to_nat (1 + Z.of_nat (length before) - 1)) with (length before) in H1 by lia.
  rewrite E, lookup_app_r, Nat.sub_diag in H1 by lia. destruct rest as [| t' rest]; [done |]. injection H1 as ->.
  apply prefix_cons, (IH (before ++ [t])); [by rewrite E, <- app_assoc | by eapply chain_snoc | done].
Qed.

Lemma story_plays all evs ds : (∀ ev, ev ∈ evs → in_log all ev) → story evs ds → plays all ds.
Proof.
  intros Hin. induction 1 as [| ds st ts acts _ IH (Hst & Hts & q & Hc) Hacts]; [constructor |].
  destruct (Hin _ Hst) as (before & rest & E & Hb).
  assert (ts `prefix_of` rest) as [more ->].
  { eapply run_in_log; [exact E | exact Hb | exact Hc |]. eapply Forall_impl; [exact Hts |]. intros t Ht. by apply Hin. }
  apply (plays_world all ds before (ts ++ more) (start_pos st)); [done | done | done |]. rewrite log_actions_app. by apply prefix_app_r.
Qed.

(** The streams a client took up are streams the server wrote, as far as they came. *)
Definition carried (w : TurnWriter) (c : Client) : Prop := Forall (λ a, ∃ b, b ∈ streams w ∧ a `prefix_of` b) (accepted c).

Lemma cut_stream_prefix all a b : a `prefix_of` b → cut_stream all b → cut_stream all a.
Proof. intros Ha [(whole & Hw & Hb) | Hb]; [left; exists whole; split; [done |] | right]; by etransitivity. Qed.

Lemma received_in_log all fs st fates moves ev :
  fed all fs st → carried (write_feed fs fates) (client_run Client_new moves) → ev ∈ received (client_run Client_new moves) → in_log all ev.
Proof.
  intros Hf Hcar Hev. destruct (of_turns ev) eqn:Et; [| by destruct ev].
  destruct (run_events_ok moves) as [_ _ _ _ _ Ht _ _]. set (c := client_run Client_new moves) in *.
  assert (turn_part (Client.delivered c) `prefix_of` stories (accepted c)) as [k Hp].
  { destruct (listening c); [rewrite <- Ht; by eexists | exact Ht]. }
  assert (ev ∈ stories (accepted c)) as Hin.
  { rewrite Hp. apply elem_of_app. left. apply list_elem_of_In, List.filter_In. split; [| done]. apply list_elem_of_In.
    unfold Client.delivered. apply elem_of_app. by left. }
  apply list_elem_of_In, in_concat in Hin as (story & Hs & Hin). apply list_elem_of_In, list_elem_of_fmap in Hs as (a & -> & Ha).
  unfold carried in Hcar. rewrite Forall_forall in Hcar. destruct (Hcar a Ha) as (b & Hb & Hab). destruct (feed_writes all fs st fates Hf) as [Hall _].
  rewrite Forall_forall in Hall. eapply cut_stream_says; [eapply cut_stream_prefix; [exact Hab | by apply Hall] | by apply list_elem_of_In].
Qed.

Context {R : Type} {RS : Ruleset R} {PS : Postcard StartRecord}.
Context {PA : Postcard ToAgent} {PH : Postcard ToHook} {LH : PostcardLaws ToHook}.

(** C1: every game plays the room's log.  Put everything on the way together: a room
    in which a connection carries one player, run in any way; the server's tasks that
    write turn streams, each write failing at any byte; any number of connections of a
    player, one after another, the clients' tasks interleaving in any way and reading
    whatever part of those streams came through; the agent's bridge, given events in
    any order along with all else that happens to it, losing connections and rejoining
    the room on others; the ring; and the hook in the game.  There is one log of turns, the game's log as long as the game runs, such
    that all the player's game has done is worlds loaded, each where a beginning of
    that log ends, and after each the first of exactly the actions the log orders from
    there. *)
Theorem game_plays_log
    (hmac_verify : list Z → list Z → list Z → bool) (crc : list Z → Z) (outcome : nat → SendOutcome) (disk : nat → WriteOutcome)
    (who : LinkId → PlayerId) (id : RoomId) (room_name rules : Text) (most : Z) (st : RoomSettings) (sec : RoomSecrets)
    (fresh : R) (data_dir : bool) (ts : Timeouts) (sn : option SnapshotsConfig) (compact : Z)
    (creator : NewMember) (now : Instant) (steps : list (Instant * RoomStep)) :
  who (new_link creator) = new_player creator → Forall (λ s, honest who s.2) steps →
  let r := run_room hmac_verify crc outcome disk
             (Room_new id room_name rules most st sec fresh data_dir ts sn compact creator now) steps in
  ∃ all,
    (∀ g, phase r = Running g → closed r = false → game_ok g first_pos all) ∧
    ∀ (sessions : list (LinkId * list Fate * list Move))
      representable options client_ends path_ok player_text reason_text give_up_after
      (legs : list Leg) (beat0 : Z) (now0 : Instant) (cap max : Z) (ring_ops : list Sched.Op)
      send_ends lanes_of save_of max_path_ok patience
      (build : Text) (opening : list (list Z)) (beat : Z) (now1 : Instant) (s : Session) (hook_ops : list HookOp),
    let b := (play representable options client_ends path_ok player_text reason_text give_up_after (Bridge_new beat0 now0) legs).1 in
    let w := Sched.run (Sched.fresh cap max) ring_ops in
    let h := hook_run send_ends lanes_of save_of max_path_ok patience (MkHookRun s None None) hook_ops in
    (∀ l fates moves, (l, fates, moves) ∈ sessions → carried (write_feed (feeds l (out r)) fates) (client_run Client_new moves)) →
    (∀ ev, ev ∈ leg_events legs → ∃ l fates moves, (l, fates, moves) ∈ sessions ∧ ev ∈ received (client_run Client_new moves)) →
    Forall sane (leg_events legs) → sizes_ok cap max → (∀ n e, send_ends n = Err e → link_error e) →
    Sched.sent w = wire b → open_session send_ends build opening beat now1 = Some s →
    opening ++ Hook.delivered hook_ops = Sched.received w →
    plays all (Hook.done (session h)).
Proof.
  intros Hw Hh r.
  destruct (grows_run hmac_verify crc outcome disk who _ steps Hh [] (Room_new_streams who id room_name rules most st sec fresh data_dir ts sn compact creator now Hw))
    as (all & [H1 _ _ H4]). fold r in H1, H4. cbn [app] in *. exists all. split.
  { intros g Hph Hc. rewrite Hph in H4. by apply H4. }
  intros. apply (story_plays all (leg_events legs)).
  - intros ev Hev. destruct (H0 ev Hev) as (l & fates & moves & Hses & Hrec). destruct (H1 l) as (at_ & Hf & _).
    eapply received_in_log; [exact Hf | by apply H | exact Hrec].
  - by eapply (game_follows_room representable options client_ends path_ok player_text reason_text send_ends lanes_of save_of max_path_ok patience give_up_after
      legs beat0 now0 cap max ring_ops build opening beat now1 s hook_ops).
Qed.
End log.

(** * The game of two of [RoomExamples], as its owner's agent and game see it *)
Module DeliveryExample.
Export Concrete.
Definition room := RoomExamples.run RoomExamples.lobby RoomExamples.play.
Definition feed : list TurnFeed := feeds 11 (out room).
Definition feed_value : list TurnFeed := Eval vm_compute in feed.
Definition fates : list Fate := replicate (length feed) Through.
Definition writer : TurnWriter := write_feed feed fates.
Definition moves : list Move :=
  (Turns ∘ Some <$> streams writer) ++ replicate 10 (Turns None) ++ replicate 3 Recv.
Definition client : Client := client_run Client_new moves.
Definition received_value : list ClientEvent := Eval vm_compute in received client.
Definition rounds : list Round :=
  SeatExample.round 1 [Codec.encode (AgentHello BRIDGE_VERSION "game")] ChooseTimer
  :: imap (λ n ev, SeatExample.round (Z.of_nat n + 2) [] (ChooseEvent (Some ev))) (received client)
  ++ [SeatExample.round (10 ^ 9) [] ChooseTimer; SeatExample.round (2 * 10 ^ 9) [] ChooseTimer].

Definition legs : list Leg := [MkLeg rounds ConnectionLost None 0 (λ _ _, MkAttempt 0 (Ok tt)) "" 0 false].

Import ConcreteBridge.
Definition sent_bytes : list (list Z) :=
  wire (play (λ _, true) SeatExample.options SeatExample.fine (λ _, true) (λ _, ""%string) (λ _, ""%string) 0 (Bridge_new 0 0) legs).1.
Definition ring_ops : list Sched.Op :=
  sent_bytes ≫= λ m, Sched.CallPush m :: replicate (length m + 8) Sched.Produce
                     ++ Sched.CallPop 1000 :: replicate (length m + 8) Sched.Consume.
Definition hook_ops : list HookOp := (Deliver <$> drop 2 sent_bytes) ++ SeatExample.polls 6.
Definition session0 : Session :=
  default (Session_new 0 0) (open_session SeatExample.fine "game" (take 2 sent_bytes) 0 0).
Definition played : HookRun :=
  hook_run SeatExample.fine (λ _, []) (λ _, Ok tt) (λ _, true) 1000 (MkHookRun session0 None None) hook_ops.

Lemma feed_is : feed = feed_value.
Proof. vm_compute. reflexivity. Qed.
Lemma feed_fine : Forall feed_ok feed_value.
Proof.
  repeat constructor.
  - eexists. vm_compute. reflexivity.
  - by exists [].
  - exists (MkTurn 1 0 100 [MkEvent 1 1 (PlayerJoined 1 "ada" RoomExamples.linux); MkEvent 2 1 (PlayerJoined 2 "bob" RoomExamples.linux);
      MkEvent 3 1 (Command 2 1 [10; 20])]). vm_compute. reflexivity.
  - exists (MkTurn 2 0 100 [MkEvent 4 1 (PlayerLeft 2 true)]). vm_compute. reflexivity.
Qed.
Lemma received_is : received client = received_value.
Proof. vm_compute. reflexivity. Qed.
Lemma offered_is : leg_events legs = received_value.
Proof. vm_compute. reflexivity. Qed.
Lemma received_sane : Forall sane received_value.
Proof. repeat constructor; cbn; unfold u64_max; lia. Qed.
Lemma all_accepted : accepted client = streams writer.
Proof. vm_compute. reflexivity. Qed.
Lemma all_carried : carried (write_feed (feeds 11 (out room)) fates) (client_run Client_new moves).
Proof.
  change (carried writer client). unfold carried. rewrite all_accepted. apply Forall_forall. intros a Ha. by exists a.
Qed.
Lemma all_received ev : ev ∈ leg_events legs → ev ∈ received (client_run Client_new moves).
Proof. change (client_run Client_new moves) with client. by rewrite offered_is, received_is. Qed.
End DeliveryExample.

Lemma only_one {A B C} (Q : A → B → C → Prop) a b c : Q a b c → ∀ a' b' c', (a', b', c') ∈ [(a, b, c)] → Q a' b' c'.
Proof. intros HQ a' b' c' Hi. by apply list_elem_of_singleton in Hi as [= -> -> ->]. Qed.

Import Concrete.

Lemma feed_reaches_client_witness :
  Client.delivered DeliveryExample.client = feed_events DeliveryExample.feed ∧
  turn_part (Client.delivered DeliveryExample.client) = feed_events DeliveryExample.feed.
Proof.
  split; [vm_compute; reflexivity |].
  refine (proj2 (feed_reaches_client (L := Concrete.turn_postcard_laws) DeliveryExample.feed DeliveryExample.moves _) _ _ _).
  - rewrite DeliveryExample.feed_is. exact DeliveryExample.feed_fine.
  - exact DeliveryExample.all_accepted.
  - vm_compute. reflexivity.
  - vm_compute. reflexivity.
Defined.

Lemma game_plays_log_witness :
  length (Hook.done (session DeliveryExample.played)) = 5%nat ∧ ∃ all, plays all (Hook.done (session DeliveryExample.played)).
Proof.
  split; [vm_compute; reflexivity |].
  destruct (game_plays_log (P := Concrete.turn_postcard) (L := Concrete.turn_postcard_laws) (PS := ConcreteStart.start_postcard)
    (PA := ConcreteBridge.agent_postcard) (PH := ConcreteBridge.hook_postcard) (LH := ConcreteBridge.hook_postcard_laws)
    RoomExamples.any_tag RoomExamples.no_crc RoomExamples.sends RoomExamples.writes
    (λ l, if l =? 11 then 1 else 2) 9 "table" "rules" 4 DEFAULT_SETTINGS (MkRoomSecrets [] [] None) accept_all true
    (MkTimeouts (from_secs 10) (from_secs 60) (from_secs 60)) None 1000000
    (MkNewMember 1 "ada" RoomExamples.linux 11) 0 RoomExamples.play eq_refl ltac:(repeat constructor)) as (all & _ & H).
  exists all.
  refine (H [(11, DeliveryExample.fates, DeliveryExample.moves)]
    (λ _, true) SeatExample.options SeatExample.fine (λ _, true) (λ _, ""%string) (λ _, ""%string) 0
    DeliveryExample.legs 0 0 1024 1000 DeliveryExample.ring_ops
    SeatExample.fine (λ _, []) (λ _, Ok tt) (λ _, true) 1000
    "game"%string (take 2 DeliveryExample.sent_bytes) 0 0 DeliveryExample.session0 DeliveryExample.hook_ops _ _ _ _ _ _ _ _).
  - refine (only_one (λ l fates moves, carried (write_feed (feeds l _) fates) (client_run Client_new moves)) _ _ _ _). exact DeliveryExample.all_carried.
  - intros ev Hev. exists 11, DeliveryExample.fates, DeliveryExample.moves. split; [apply list_elem_of_here |].
    exact (DeliveryExample.all_received ev Hev).
  - rewrite DeliveryExample.offered_is. exact DeliveryExample.received_sane.
  - split; [exists 10; lia | lia | unfold LENGTH_PREFIX; lia].
  - done.
  - vm_compute. reflexivity.
  - vm_compute. reflexivity.
  - vm_compute. reflexivity.
Defined.
