(* ===== verification/Manifest.v ===== *)
(** Snapshot manifests ([crates/tpf3mp-snapshot/src/params.rs], [chunker.rs],
    [manifest.rs]): the ordered chunk list of one file, how a stream becomes one,
    and its canonical encoding.

    Three libraries are parameters: BLAKE3 ([blake3], a digest of bytes), FastCDC
    ([cut], the pieces a stream is cut into) and postcard (a [Field] per type, the
    bytes of a value and what decoding the first bytes of an input gives).  What is
    relied on of them is named where it is used. *)
From S2P Require Import Prelude Proto.
Local Open Scope Z_scope.

Abbreviation ChunkId := Z (only parsing).
Abbreviation FileHash := Z (only parsing).
Abbreviation ManifestId := Z (only parsing).

(** * Parameters *)
Definition MIN_CHUNK_FLOOR : Z := 16 * 2 ^ 10.
Definition MAX_CHUNK_LEN : Z := 4 * 2 ^ 20.
Definition MAX_FILE_SIZE : Z := 4 * 2 ^ 30.
Definition MAX_CHUNKS : Z := MAX_FILE_SIZE / MIN_CHUNK_FLOOR.

Record ChunkParams := MkChunkParams { min : Z; avg : Z; max : Z }.

Inductive ParamsError :=
  | NotPowersOfTwo (min avg max : Z)
  | NotIncreasing (min avg max : Z)
  | MinTooSmall (min : Z)
  | MaxTooLarge (max : Z).

Definition DEFAULT : ChunkParams := MkChunkParams (32 * 2 ^ 10) (128 * 2 ^ 10) (512 * 2 ^ 10).

(** [u32::is_power_of_two]: exactly one bit. *)
Definition is_power_of_two (n : Z) : bool := (0 <? n) && (Z.land n (n - 1) =? 0).

Definition ChunkParams_new (min avg max : Z) : result ChunkParams ParamsError :=
  if negb (is_power_of_two min && is_power_of_two avg && is_power_of_two max)
  then Err (NotPowersOfTwo min avg max)
  else if negb ((min <? avg) && (avg <? max)) then Err (NotIncreasing min avg max)
  else if min <? MIN_CHUNK_FLOOR then Err (MinTooSmall min)
  else if MAX_CHUNK_LEN <? max then Err (MaxTooLarge max)
  else Ok (MkChunkParams min avg max).

(** [u64::div_ceil]. *)
Definition div_ceil (a b : Z) : Z := a / b + (if 0 <? a mod b then 1 else 0).

Definition max_chunks (p : ChunkParams) (len : Z) : Z := div_ceil len (min p).

(** * Manifests *)
Definition MAGIC : list Z := [84; 51; 83; 77].   (* b"T3SM" *)
Definition MANIFEST_VERSION : Z := 1.
Definition HEADER_MAX : Z := 4 + 1 + 3 * 5 + 10 + 32 + 10.
Definition ENTRY_MAX : Z := 32 + 5 + 4.
Definition ENTRY_MIN : Z := 32 + 1 + 1.
Definition MAX_MANIFEST_LEN : Z := HEADER_MAX + MAX_CHUNKS * ENTRY_MAX.

Record ChunkEntry := MkChunkEntry { entry_id : ChunkId; offset : Z; len : Z }.

Record Manifest := MkManifest {
  params : ChunkParams;
  total_size : Z;
  file_hash : FileHash;
  chunks : list ChunkEntry;
  id : ManifestId;
}.

Record WireParams := MkWireParams { wire_min : Z; wire_avg : Z; wire_max : Z }.

Inductive ManifestField :=
  | FieldMagic | FieldVersion | FieldParams | FieldTotalSize | FieldFileHash | FieldChunkCount
  | FieldChunk (index : nat).

Inductive ManifestError :=
  | ManifestTooLarge (len max : Z)
  | BadMagic
  | UnsupportedVersion (found : Z)
  | Truncated (field : ManifestField)
  | MalformedField (field : ManifestField)
  | ManifestTrailing (count : Z)
  | NonCanonical
  | BadParams (e : ParamsError)
  | FileTooLarge (size : Z)
  | TooManyChunks (count max : Z)
  | NonContiguous (index : nat) (expected found : Z)
  | EmptyChunk (index : nat)
  | ChunkTooShort (index : nat) (len min : Z)
  | ChunkTooLong (index : nat) (len max : Z)
  | PastEnd (index : nat) (end_ total : Z)
  | SizeMismatch (covered total : Z)
  | InconsistentDuplicate (index : nat) (id : ChunkId).

#[export] Instance ChunkEntry_eq_dec : EqDecision ChunkEntry.
Proof. solve_decision. Defined.
#[export] Instance ChunkParams_eq_dec : EqDecision ChunkParams.
Proof. solve_decision. Defined.
#[export] Instance Manifest_eq_dec : EqDecision Manifest.
Proof. solve_decision. Defined.

(** ** The layout rules, checked one entry at a time *)
Record Rules := MkRules {
  r_params : ChunkParams;
  r_total_size : Z;
  r_count : nat;
  next_offset : Z;
  lengths : gmap ChunkId Z;
}.
#[export] Instance eta_Rules : Eta Rules := fun r =>
  MkRules (r_params r) (r_total_size r) (r_count r) (next_offset r) (lengths r).

Definition Rules_new (p : ChunkParams) (total : Z) (count : nat) : Rules := MkRules p total count 0 ∅.

Definition rules_check (r : Rules) (index : nat) (entry : ChunkEntry) : result Rules ManifestError :=
  if negb (offset entry =? next_offset r) then Err (NonContiguous index (next_offset r) (offset entry))
  else if len entry =? 0 then Err (EmptyChunk index)
  else if max (r_params r) <? len entry then Err (ChunkTooLong index (len entry) (max (r_params r)))
  else if negb (S index =? r_count r)%nat && (len entry <? min (r_params r))
  then Err (ChunkTooShort index (len entry) (min (r_params r)))
  else
    let end_ := offset entry + len entry in
    if r_total_size r <? end_ then Err (PastEnd index end_ (r_total_size r))
    else if match lengths r !! entry_id entry with
            | Some previous => negb (previous =? len entry)
            | None => false
            end
    then Err (InconsistentDuplicate index (entry_id entry))
    else Ok (r <| lengths := <[entry_id entry := len entry]> (lengths r) |> <| next_offset := end_ |>).

Definition rules_finish (r : Rules) : result unit ManifestError :=
  if negb (next_offset r =? r_total_size r) then Err (SizeMismatch (next_offset r) (r_total_size r)) else Ok tt.

Fixpoint check_all (r : Rules) (index : nat) (entries : list ChunkEntry) : result Rules ManifestError :=
  match entries with
  | [] => Ok r
  | entry :: entries => let? r := rules_check r index entry in check_all r (S index) entries
  end.

Definition check (p : ChunkParams) (total : Z) (chunks : list ChunkEntry) : result unit ManifestError :=
  if MAX_FILE_SIZE <? total then Err (FileTooLarge total)
  else
    let count := Z.of_nat (length chunks) in
    if max_chunks p total <? count then Err (TooManyChunks count (max_chunks p total))
    else
      let? r := check_all (Rules_new p total (length chunks)) 0 chunks in
      rules_finish r.

(** The first entry of each distinct chunk, in file order. *)
Fixpoint first_entries (seen : gset ChunkId) (entries : list ChunkEntry) : list ChunkEntry :=
  match entries with
  | [] => []
  | entry :: entries =>
      if bool_decide (entry_id entry ∈ seen) then first_entries seen entries
      else entry :: first_entries ({[entry_id entry]} ∪ seen) entries
  end.
Definition unique_chunks (m : Manifest) : list ChunkEntry := first_entries ∅ (chunks m).

(** ** The encoding *)
Inductive TakeError := UnexpectedEnd | BadField.

Record Field (T : Type) := MkField {
  put : T → list Z;
  take_from : list Z → result (T * list Z) TakeError;
}.
#[global] Arguments put {T}.
#[global] Arguments take_from {T}.

Record Fields := MkFields {
  magic_field : Field (list Z);
  u8_field : Field Z;
  params_field : Field WireParams;
  u64_field : Field Z;
  hash_field : Field FileHash;
  entry_field : Field ChunkEntry;
}.

Section manifest.
Context (blake3 : list Z → Z) (F : Fields).

(** A struct is its fields in order, a slice its length and its items. *)
Definition encode (p : ChunkParams) (total : Z) (hash : FileHash) (chunks : list ChunkEntry) : list Z :=
  put (magic_field F) MAGIC ++ put (u8_field F) MANIFEST_VERSION
  ++ put (params_field F) (MkWireParams (min p) (avg p) (max p)) ++ put (u64_field F) total
  ++ put (hash_field F) hash ++ put (u64_field F) (Z.of_nat (length chunks)) ++ (chunks ≫= put (entry_field F)).

Definition to_bytes (m : Manifest) : list Z := encode (params m) (total_size m) (file_hash m) (chunks m).

Definition from_chunks (p : ChunkParams) (total : Z) (hash : FileHash) (chunks : list ChunkEntry) :
    result Manifest ManifestError :=
  let? _ := check p total chunks in
  Ok (MkManifest p total hash chunks (blake3 (encode p total hash chunks))).

Definition take {T} (f : Field T) (field : ManifestField) (input : list Z) : result (T * list Z) ManifestError :=
  match take_from f input with
  | Ok r => Ok r
  | Err UnexpectedEnd => Err (Truncated field)
  | Err BadField => Err (MalformedField field)
  end.

(** The entries left to read, each checked before the next is read. *)
Fixpoint take_entries (n index : nat) (r : Rules) (input : list Z) :
    result (list ChunkEntry * Rules * list Z) ManifestError :=
  match n with
  | O => Ok ([], r, input)
  | S n =>
      let? (entry, input) := take (entry_field F) (FieldChunk index) input in
      let? r := rules_check r index entry in
      let? (rest, input) := take_entries n (S index) r input in
      Ok (entry :: rest.1, rest.2, input)
  end.

Definition from_bytes (bytes : list Z) : result Manifest ManifestError :=
  let size := Z.of_nat (length bytes) in
  if MAX_MANIFEST_LEN <? size then Err (ManifestTooLarge size MAX_MANIFEST_LEN)
  else
    let? (magic, input) := take (magic_field F) FieldMagic bytes in
    if negb (bool_decide (magic = MAGIC)) then Err BadMagic
    else
      let? (version, input) := take (u8_field F) FieldVersion input in
      if negb (version =? MANIFEST_VERSION) then Err (UnsupportedVersion version)
      else
        let? (wire, input) := take (params_field F) FieldParams input in
        let? p := match ChunkParams_new (wire_min wire) (wire_avg wire) (wire_max wire) with
                  | Ok p => Ok p
                  | Err e => Err (BadParams e)
                  end in
        let? (total, input) := take (u64_field F) FieldTotalSize input in
        if MAX_FILE_SIZE <? total then Err (FileTooLarge total)
        else
          let? (hash, input) := take (hash_field F) FieldFileHash input in
          let? (count, input) := take (u64_field F) FieldChunkCount input in
          if max_chunks p total <? count then Err (TooManyChunks count (max_chunks p total))
          else
            let n := Z.to_nat count in
            let? (entries, input) := take_entries n 0 (Rules_new p total n) input in
            if negb (bool_decide (input = [])) then Err (ManifestTrailing (Z.of_nat (length input)))
            else
              let? _ := rules_finish entries.2 in
              if negb (bool_decide (encode p total hash entries.1 = bytes)) then Err NonCanonical
              else Ok (MkManifest p total hash entries.1 (blake3 bytes)).
End manifest.

(** * Cutting a stream *)
Inductive SourceError := SourceRead | SourceTooLarge (limit : Z).

Record Chunk := MkChunk { chunk_offset : Z; chunk_id : ChunkId; chunk_data : list Z }.

(** [RetryInterrupted]: the reads that were interrupted are made again; the rest
    are what the next ones give. *)
Fixpoint read_retried {A} (reads : list (option A)) : option (A * list (option A)) :=
  match reads with
  | [] => None
  | None :: reads => read_retried reads
  | Some r :: reads => Some (r, reads)
  end.

(** What FastCDC still has to give, piece by piece or a failed read; what was fed
    to the hasher. *)
Record Chunker := MkChunker {
  cdc : list (result (list Z) unit);
  hashed : list Z;
  c_len : Z;
  limit : Z;
}.
#[export] Instance eta_Chunker : Eta Chunker := fun c => MkChunker (cdc c) (hashed c) (c_len c) (limit c).

Section chunker.
Context (blake3 : list Z → Z).

Definition with_limit (source : list (result (list Z) unit)) (limit : Z) : Chunker := MkChunker source [] 0 limit.
Definition Chunker_new (source : list (result (list Z) unit)) : Chunker := with_limit source MAX_FILE_SIZE.

Definition next_chunk : SE Chunker SourceError (option Chunk) :=
  c ← se_get;
  match cdc c with
  | [] => mret None
  | Err _ :: rest => _ ← se_mod (λ c, c <| cdc := rest |>); se_err SourceRead
  | Ok data :: rest =>
      let offset := c_len c in
      let end_ := c_len c + Z.of_nat (length data) in
      _ ← se_mod (λ c, c <| cdc := rest |> <| c_len := end_ |>);
      if limit c <? end_ then se_err (SourceTooLarge (limit c))
      else
        _ ← se_mod (λ c, c <| hashed := hashed c ++ data |>);
        mret (Some (MkChunk offset (blake3 data) data))
  end.

(** Every call that finds a chunk takes one off what is left. *)
Fixpoint drain (fuel : nat) : SE Chunker SourceError (list Chunk) :=
  match fuel with
  | O => mret []
  | S fuel =>
      next ← next_chunk;
      match next with
      | None => mret []
      | Some chunk => rest ← drain fuel; mret (chunk :: rest)
      end
  end.

Definition finish (c : Chunker) : result (Z * FileHash) SourceError :=
  match drain (S (length (cdc c))) c with
  | (c, Ok _) => Ok (c_len c, blake3 (hashed c))
  | (_, Err e) => Err e
  end.

(** A chunk of the chunker's is never longer than [MAX_CHUNK_LEN]. *)
Definition chunk_len (data : list Z) : Z :=
  let n := Z.of_nat (length data) in if n <=? u32_max then n else u32_max.

Definition entry_of (c : Chunk) : ChunkEntry := MkChunkEntry (chunk_id c) (chunk_offset c) (chunk_len (chunk_data c)).

Inductive ChunkingError := ChunkingSource (e : SourceError) | ChunkingInvalid (e : ManifestError).

Definition compute (F : Fields) (source : list (result (list Z) unit)) (p : ChunkParams) :
    result Manifest ChunkingError :=
  match drain (S (length source)) (Chunker_new source) with
  | (_, Err e) => Err (ChunkingSource e)
  | (c, Ok found) =>
      match finish c with
      | Err e => Err (ChunkingSource e)
      | Ok (total, hash) =>
          match from_chunks blake3 F p total hash (entry_of <$> found) with
          | Ok m => Ok m
          | Err e => Err (ChunkingInvalid e)
          end
      end
  end.
End chunker.

(** * What a manifest promises *)

(** The sizes [ChunkParams::new] admits. *)
Record params_ok (p : ChunkParams) : Prop := {
  po_powers : (∃ k, 0 ≤ k ∧ min p = 2 ^ k) ∧ (∃ k, 0 ≤ k ∧ avg p = 2 ^ k) ∧ (∃ k, 0 ≤ k ∧ max p = 2 ^ k);
  po_increase : min p < avg p < max p;
  po_bounds : MIN_CHUNK_FLOOR ≤ min p ∧ max p ≤ MAX_CHUNK_LEN;
}.

Lemma power_of_two_iff n : is_power_of_two n = true ↔ ∃ k, 0 ≤ k ∧ n = 2 ^ k.
Proof.
  unfold is_power_of_two. rewrite andb_true_iff, Z.ltb_lt, Z.eqb_eq. split.
  - intros [Hn Hl]. exists (Z.log2 n). split; [apply Z.log2_nonneg |].
    destruct (Z.log2_spec n Hn) as [Hlow Hhigh]. destruct (Z.le_lteq (2 ^ Z.log2 n) n) as [[Hlt | ->] _]; [done | | done].
    exfalso. pose proof (Z.log2_nonneg n).
    assert (Z.testbit (Z.land n (n - 1)) (Z.log2 n) = true) as Hbit; [| by rewrite Hl, Z.bits_0 in Hbit].
    rewrite Z.land_spec, Z.bit_log2 by done. cbn [andb].
    replace (Z.log2 n) with (Z.log2 (n - 1)); [apply Z.bit_log2; lia |].
    apply Z.log2_unique; [lia |]. unfold Z.succ in *. lia.
  - intros (k & Hk & ->). pose proof (Z.pow_pos_nonneg 2 k ltac:(lia) Hk). split; [done |].
    replace (2 ^ k - 1) with (Z.ones k) by (rewrite Z.ones_equiv; lia).
    rewrite Z.land_ones by done. by rewrite Z.mod_same by lia.
Qed.

Lemma params_new_iff mn av mx p :
  ChunkParams_new mn av mx = Ok p ↔ p = MkChunkParams mn av mx ∧ params_ok p.
Proof.
  unfold ChunkParams_new. split.
  - destruct (is_power_of_two mn) eqn:E1, (is_power_of_two av) eqn:E2, (is_power_of_two mx) eqn:E3; try done.
    cbn [andb negb]. destruct (Z.ltb_spec mn av), (Z.ltb_spec av mx); try done. cbn [andb negb].
    destruct (Z.ltb_spec mn MIN_CHUNK_FLOOR), (Z.ltb_spec MAX_CHUNK_LEN mx); try done. intros [= <-].
    split; [done |]. apply power_of_two_iff in E1, E2, E3. by split.
  - intros [-> [(H1 & H2 & H3) [H4 H5] [H6 H7]]]. cbn in *. apply power_of_two_iff in H1, H2, H3. rewrite H1, H2, H3.
    cbn [andb negb]. rewrite !(proj2 (Z.ltb_lt _ _)) by done. cbn [andb negb]. by rewrite !(proj2 (Z.ltb_ge _ _)).
Qed.

(** Every entry starts where the one before it ended. *)
Fixpoint tiles (at_ : Z) (entries : list ChunkEntry) : Prop :=
  match entries with
  | [] => True
  | e :: entries => offset e = at_ ∧ tiles (at_ + len e) entries
  end.

Definition sized (p : ChunkParams) (count index : nat) (entries : list ChunkEntry) : Prop :=
  ∀ i e, entries !! i = Some e → 0 < len e ≤ max p ∧ (S (index + i) ≠ count → min p ≤ len e).

(** Equal ids, equal lengths. *)
Definition same_lengths (known : gmap ChunkId Z) (entries : list ChunkEntry) : Prop :=
  (∀ e l, e ∈ entries → known !! entry_id e = Some l → l = len e) ∧
  (∀ e e', e ∈ entries → e' ∈ entries → entry_id e = entry_id e' → len e = len e').

Definition lengths_after (known : gmap ChunkId Z) (entries : list ChunkEntry) : gmap ChunkId Z :=
  foldl (λ m e, <[entry_id e := len e]> m) known entries.

Definition covered (entries : list ChunkEntry) : Z := sum_Z (len <$> entries).
#[global] Arguments covered : simpl never.

(** The chunks of a file of [total] bytes: they cover it exactly, in order. *)
Record layout (p : ChunkParams) (total : Z) (entries : list ChunkEntry) : Prop := {
  lo_max : total ≤ MAX_FILE_SIZE;
  lo_tiles : tiles 0 entries;
  lo_total : covered entries = total;
  lo_sized : sized p (length entries) 0 entries;
  lo_same : same_lengths ∅ entries;
}.

Lemma sized_cons p count index e entries :
  sized p count index (e :: entries) ↔
  (0 < len e ≤ max p ∧ (S index ≠ count → min p ≤ len e)) ∧ sized p count (S index) entries.
Proof.
  unfold sized. split.
  - intros H. split; [specialize (H 0%nat e eq_refl); by rewrite Nat.add_0_r in H |].
    intros i e' Hi. specialize (H (S i) e' Hi). by rewrite Nat.add_succ_r in H.
  - intros [H1 H2] [| i] e' Hi; [injection Hi as <-; by rewrite Nat.add_0_r |].
    specialize (H2 i e' Hi). by rewrite Nat.add_succ_r.
Qed.

Lemma same_lengths_cons known e entries :
  same_lengths known (e :: entries) ↔
  (∀ l, known !! entry_id e = Some l → l = len e) ∧ same_lengths (<[entry_id e := len e]> known) entries.
Proof.
  unfold same_lengths. split.
  - intros [H1 H2]. split; [intros l; apply H1; by left |]. split.
    + intros e' l He'. destruct (decide (entry_id e = entry_id e')) as [Eq | Ne].
      * rewrite Eq, lookup_insert_eq. intros [= <-]. apply H2; [by left | by right | done].
      * rewrite lookup_insert_ne by done. apply H1. by right.
    + intros e1 e2 ? ?. apply H2; by right.
  - intros [H1 [H2 H3]].
    assert (Hhead : ∀ e', e' ∈ entries → entry_id e = entry_id e' → len e = len e').
    { intros e' He' Eq. apply (H2 e'); [done |]. by rewrite Eq, lookup_insert_eq. }
    split.
    + intros e' l [-> | He']%elem_of_cons Hl; [by apply H1 |].
      destruct (decide (entry_id e = entry_id e')) as [Eq | Ne].
      * rewrite <- Eq in Hl. rewrite (H1 l Hl). by apply Hhead.
      * apply H2; [done |]. by rewrite lookup_insert_ne.
    + intros e1 e2 [-> | H]%elem_of_cons [-> | H']%elem_of_cons Eq; [done | by apply Hhead | | by apply H3].
      symmetry. by apply Hhead.
Qed.

Lemma covered_cons e entries : covered (e :: entries) = len e + covered entries.
Proof. reflexivity. Qed.

Lemma sized_covered p count index entries : sized p count index entries → 0 ≤ covered entries.
Proof.
  revert index. induction entries as [| e entries IH]; intros index H; [done |].
  apply sized_cons in H as [[H _] Hs]. rewrite covered_cons. apply IH in Hs. lia.
Qed.

Lemma rules_check_Ok r index e r' :
  0 ≤ len e →
  rules_check r index e = Ok r' ↔
  offset e = next_offset r ∧ (0 < len e ≤ max (r_params r) ∧ (S index ≠ r_count r → min (r_params r) ≤ len e)) ∧
  next_offset r + len e ≤ r_total_size r ∧ (∀ l, lengths r !! entry_id e = Some l → l = len e) ∧
  r' = r <| lengths := <[entry_id e := len e]> (lengths r) |> <| next_offset := next_offset r + len e |>.
Proof.
  intros Hl. unfold rules_check.
  destruct (Z.eqb_spec (offset e) (next_offset r)) as [Eo | ?]; cbn [negb]; [| by split; [done | intros (? & _)]].
  rewrite Eo. destruct (Z.eqb_spec (len e) 0); [split; [done | intros (_ & [? _] & _); lia] |].
  destruct (Z.ltb_spec (max (r_params r)) (len e)); [split; [done | intros (_ & [? _] & _); lia] |].
  destruct (negb _ && _) eqn:Es.
  { apply andb_true_iff in Es as [Es1 Es2]. apply negb_true_iff, Nat.eqb_neq in Es1. apply Z.ltb_lt in Es2.
    split; [done |]. intros (_ & [_ Hm] & _). specialize (Hm Es1). lia. }
  assert (S index ≠ r_count r → min (r_params r) ≤ len e) as Hmin.
  { intros Hne. apply andb_false_iff in Es as [Es | Es]; [by apply negb_false_iff, Nat.eqb_eq in Es | by apply Z.ltb_ge in Es]. }
  destruct (Z.ltb_spec (r_total_size r) (next_offset r + len e)); [split; [done | intros (_ & _ & ? & _); lia] |].
  destruct (lengths r !! entry_id e) as [l |] eqn:Elk.
  - destruct (Z.eqb_spec l (len e)) as [-> | Hne]; cbn [negb].
    + split; [intros [= <-] | by intros (_ & _ & _ & _ & ->)].
      split; [done |]. split; [split; [lia | done] |]. split; [done |]. split; [by intros ? [= <-] | done].
    + split; [done |]. intros (_ & _ & _ & Hx & _). by specialize (Hx l eq_refl).
  - split; [intros [= <-] | by intros (_ & _ & _ & _ & ->)].
    split; [done |]. split; [split; [lia | done] |]. split; [done |]. split; [done | done].
Qed.

Lemma check_all_Ok r index entries r' :
  Forall (λ e, 0 ≤ len e) entries →
  check_all r index entries = Ok r' ↔
  tiles (next_offset r) entries ∧ sized (r_params r) (r_count r) index entries ∧
  (entries = [] ∨ next_offset r + covered entries ≤ r_total_size r) ∧ same_lengths (lengths r) entries ∧
  r' = r <| lengths := lengths_after (lengths r) entries |> <| next_offset := next_offset r + covered entries |>.
Proof.
  intros Hl. revert r index. induction Hl as [| e entries He Hl IH]; intros r index; cbn [check_all].
  - split.
    + intros [= <-]. split; [done |]. split; [by intros i e; rewrite lookup_nil |]. split; [by left |].
      split; [split; by intros ? ? ?%elem_of_nil |]. unfold covered. cbn. rewrite Z.add_0_r. by destruct r.
    + intros (_ & _ & _ & _ & ->). unfold covered. cbn. rewrite Z.add_0_r. by destruct r.
  - rewrite result_bind_Ok, sized_cons, same_lengths_cons, covered_cons. setoid_rewrite rules_check_Ok; [| done].
    setoid_rewrite IH. cbn [tiles]. split.
    + intros (r1 & (E1 & E2 & E3 & E4 & ->) & (T & S & C & L & ->)). cbn in *.
      split; [done |]. split; [done |]. split; [right |]. { destruct C as [-> | C]; [change (covered []) with 0; lia | lia]. }
      split; [done |]. by rewrite Z.add_assoc.
    + intros ([E1 T] & [E2 S] & C & [E4 L] & ->). destruct C as [? | C]; [done |].
      pose proof (sized_covered _ _ _ _ S). eexists. split; [repeat split; try done; try lia; apply E2 |]. cbn.
      split; [done |]. split; [done |]. split; [right; lia |]. split; [done |]. by rewrite Z.add_assoc.
Qed.

(** A file cut at [min] or more has no more chunks than [max_chunks]. *)
Lemma sized_count p index entries :
  0 < min p → sized p (index + length entries) index entries →
  (Z.of_nat (length entries) - 1) * min p < covered entries ∨ entries = [].
Proof.
  intros Hmin. revert index. induction entries as [| e entries IH]; intros index H; [by right |]. left.
  apply sized_cons in H as [[He Hm] Hs]. rewrite covered_cons.
  replace (index + length (e :: entries))%nat with (S index + length entries)%nat in * by (cbn; lia).
  destruct entries as [| e' entries]; [change (covered []) with 0; cbn; lia |].
  assert (min p ≤ len e) by (apply Hm; cbn; lia).
  destruct (IH (S index) Hs) as [Hc | ?]; [| done]. cbn [length] in *. lia.
Qed.

Lemma max_chunks_bound p n total : 0 < min p → 0 ≤ total → (n ≤ max_chunks p total ↔ (n - 1) * min p < total ∨ n ≤ 0).
Proof.
  intros Hmin Ht. unfold max_chunks, div_ceil. pose proof (Z.div_mod total (min p) ltac:(lia)) as Hdm.
  pose proof (Z.mod_pos_bound total (min p) Hmin). pose proof (Z.div_pos total (min p) Ht Hmin).
  destruct (Z.ltb_spec 0 (total mod min p)); nia.
Qed.

Lemma layout_count p total entries :
  params_ok p → layout p total entries → Z.of_nat (length entries) ≤ max_chunks p total.
Proof.
  intros [_ _ [Hmin _]] [_ _ <- Hs _]. unfold MIN_CHUNK_FLOOR in Hmin.
  apply max_chunks_bound; [lia | by eapply sized_covered |].
  destruct (sized_count p 0 entries ltac:(lia) Hs) as [H | ->]; [by left | right; cbn; lia].
Qed.

Lemma check_iff p total entries :
  params_ok p → 0 ≤ total → Forall (λ e, 0 ≤ len e) entries →
  check p total entries = Ok tt ↔ layout p total entries.
Proof.
  intros Hp Ht Hl. unfold check. split.
  - destruct (Z.ltb_spec MAX_FILE_SIZE total); [done |]. destruct (Z.ltb_spec (max_chunks p total) (Z.of_nat (length entries))); [done |].
    rewrite result_bind_Ok. intros (r & Hr & Hf). apply check_all_Ok in Hr as (T & S & C & L & ->); [| done].
    unfold rules_finish in Hf. cbn in Hf, S, L. rewrite Z.add_0_l in Hf.
    destruct (Z.eqb_spec (covered entries) total); [| done].
    split; [done | exact T | done | exact S | exact L].
  - intros Hlay. pose proof (layout_count _ _ _ Hp Hlay) as Hc. destruct Hlay as [Hm T C S L].
    rewrite !(proj2 (Z.ltb_ge _ _)) by done. apply result_bind_Ok. eexists. split.
    + apply check_all_Ok; [done |]. split; [exact T |]. split; [exact S |]. split; [right; cbn; lia |]. split; [exact L | done].
    + unfold rules_finish. cbn. by rewrite Z.add_0_l, C, Z.eqb_refl.
Qed.

(** * The encoding is canonical *)

Definition is_digest (z : Z) : Prop := 0 ≤ z < 2 ^ 256.
Definition is_entry (e : ChunkEntry) : Prop := is_digest (entry_id e) ∧ is_u64 (offset e) ∧ is_u32 (len e).
Definition is_params (w : WireParams) : Prop := is_u32 (wire_min w) ∧ is_u32 (wire_avg w) ∧ is_u32 (wire_max w).

(** What postcard promises of the fields: a value that was put is taken back and
    the rest left alone, a value taken is of its type, and how long a value can be
    ([u32] and [u64] as varints of seven bits a byte). *)
Definition field_law {T} (f : Field T) (ok : T → Prop) : Prop :=
  (∀ t rest, ok t → take_from f (put f t ++ rest) = Ok (t, rest)) ∧
  (∀ input t rest, take_from f input = Ok (t, rest) → ok t).

Record FieldsLaws (F : Fields) : Prop := {
  magic_law : field_law (magic_field F) (λ m, length m = 4%nat);
  u8_law : field_law (u8_field F) (λ v, 0 ≤ v < 256);
  params_law : field_law (params_field F) is_params;
  u64_law : field_law (u64_field F) is_u64;
  hash_law : field_law (hash_field F) is_digest;
  entry_law : field_law (entry_field F) is_entry;
  magic_len : ∀ m, length m = 4%nat → Z.of_nat (length (put (magic_field F) m)) ≤ 4;
  u8_len : ∀ v, 0 ≤ v < 256 → Z.of_nat (length (put (u8_field F) v)) ≤ 1;
  params_len : ∀ w, is_params w → Z.of_nat (length (put (params_field F) w)) ≤ 3 * 5;
  u64_len : ∀ v, is_u64 v → Z.of_nat (length (put (u64_field F) v)) ≤ 10;
  hash_len : ∀ h, is_digest h → Z.of_nat (length (put (hash_field F) h)) ≤ 32;
  entry_len : ∀ e, is_entry e → offset e < 2 ^ 35 → len e < 2 ^ 28 → Z.of_nat (length (put (entry_field F) e)) ≤ 32 + 5 + 4;
}.

Section canonical.
Context (blake3 : list Z → Z) (F : Fields) (L : FieldsLaws F).

(** A manifest that keeps every rule. *)
Record manifest_ok (m : Manifest) : Prop := {
  mo_params : params_ok (params m);
  mo_layout : layout (params m) (total_size m) (chunks m);
  mo_hash : is_digest (file_hash m);
  mo_ids : Forall (λ e, is_digest (entry_id e)) (chunks m);
  mo_id : id m = blake3 (to_bytes F m);
}.

Lemma tiles_offsets at_ p count index entries :
  tiles at_ entries → sized p count index entries → 0 ≤ at_ →
  Forall (λ e, 0 ≤ offset e < at_ + covered entries) entries.
Proof.
  revert at_ index. induction entries as [| e entries IH]; intros at_ index T S Hat; [constructor |].
  destruct T as [Ho T]. apply sized_cons in S as [[He _] S]. pose proof (sized_covered _ _ _ _ S). rewrite covered_cons.
  constructor; [lia |]. eapply Forall_impl; [apply (IH _ _ T S); lia |]. cbn. intros e' ?. lia.
Qed.

Lemma sized_lens p count index entries : sized p count index entries → Forall (λ e, 0 < len e ≤ max p) entries.
Proof. intros S. apply Forall_lookup. intros i e Hi. by apply S in Hi as [? _]. Qed.

Lemma layout_entries p total entries :
  params_ok p → layout p total entries → Forall (λ e, is_digest (entry_id e)) entries →
  Forall (λ e, is_entry e ∧ offset e < 2 ^ 35 ∧ len e < 2 ^ 28) entries.
Proof.
  intros [_ _ [_ Hmax]] [Hm T C S _] Hd. pose proof (tiles_offsets 0 p _ _ _ T S ltac:(lia)) as Ho. apply sized_lens in S.
  rewrite Forall_forall in *. intros e He. specialize (Ho e He). specialize (S e He). specialize (Hd e He).
  unfold MAX_FILE_SIZE, MAX_CHUNK_LEN in *. cbn in Ho. unfold is_entry. repeat split; try apply Hd; unfold u64_max, u32_max; lia.
Qed.

Lemma entries_len p total entries :
  params_ok p → layout p total entries → Forall (λ e, is_digest (entry_id e)) entries →
  Z.of_nat (length (entries ≫= put (entry_field F))) ≤ MAX_CHUNKS * ENTRY_MAX.
Proof.
  intros Hp Hlay Hd. pose proof (layout_entries _ _ _ Hp Hlay Hd) as He. pose proof (layout_count _ _ _ Hp Hlay) as Hc.
  assert (max_chunks p total ≤ MAX_CHUNKS) as Hmc.
  { destruct Hp as [_ _ [Hmin _]]. destruct Hlay as [Hm _ Ht Hs _]. apply sized_covered in Hs. unfold MAX_CHUNKS.
    destruct (Z.le_gt_cases (max_chunks p total) (MAX_FILE_SIZE / MIN_CHUNK_FLOOR)) as [| Hgt]; [done |].
    unfold MIN_CHUNK_FLOOR, MAX_FILE_SIZE in *. change (4 * 2 ^ 30 / (16 * 2 ^ 10)) with 262144 in *.
    destruct (proj1 (max_chunks_bound p (max_chunks p total) total ltac:(lia) ltac:(lia)) ltac:(lia)); nia. }
  assert (Z.of_nat (length (entries ≫= put (entry_field F))) ≤ Z.of_nat (length entries) * ENTRY_MAX).
  { clear -He L. induction He as [| e entries (H1 & H2 & H3) _ IH]; [done |]. rewrite bind_cons, length_app.
    pose proof (entry_len _ L e H1 H2 H3). unfold ENTRY_MAX in *. cbn [length]. lia. }
  unfold ENTRY_MAX in *. lia.
Qed.

Lemma take_entries_encoded entries index r input :
  Forall is_entry entries →
  take_entries F (length entries) index r ((entries ≫= put (entry_field F)) ++ input)
  = let? r' := check_all r index entries in Ok (entries, r', input).
Proof.
  intros He. revert index r. induction He as [| e entries He _ IH]; intros index r; [done |].
  cbn [length take_entries check_all]. rewrite bind_cons, <- app_assoc. unfold take at 1.
  rewrite (proj1 (entry_law _ L)) by done. cbn [result_bind]. destruct (rules_check r index e) as [r1 | err]; [| done].
  cbn [result_bind]. rewrite IH. by destruct (check_all r1 (S index) entries).
Qed.

Lemma take_entries_Ok n index r input entries r' rest :
  take_entries F n index r input = Ok (entries, r', rest) →
  Forall is_entry entries ∧ length entries = n ∧ check_all r index entries = Ok r'.
Proof.
  revert index r input entries r' rest. induction n as [| n IH]; intros index r input entries r' rest; cbn [take_entries].
  { intros [= <- <- _]. done. }
  rewrite result_bind_Ok. intros ([e input1] & Ht & H). apply result_bind_Ok in H as (r1 & Hr & H).
  apply result_bind_Ok in H as ([[es r2] input2] & Hes & [= <- <- <-]). apply IH in Hes as (H1 & H2 & H3).
  split; [| split; [by cbn; f_equal |]].
  - constructor; [| done]. unfold take in Ht. destruct (take_from (entry_field F) input) as [[e' i'] | []] eqn:E; try done.
    injection Ht as -> ->. by eapply (entry_law _ L).
  - cbn. by rewrite Hr.
Qed.

Lemma take_Ok {T} (f : Field T) ok field input t rest : field_law f ok → take f field input = Ok (t, rest) → ok t.
Proof.
  intros [_ Hf]. unfold take. destruct (take_from f input) as [[t' r'] | []] eqn:E; try done. intros [= -> ->]. by eapply Hf.
Qed.

Lemma take_put {T} (f : Field T) ok field t rest : field_law f ok → ok t → take f field (put f t ++ rest) = Ok (t, rest).
Proof. intros [Hf _] Ht. unfold take. by rewrite Hf. Qed.

Lemma header_len p total hash :
  params_ok p → 0 ≤ total ≤ MAX_FILE_SIZE → is_digest hash → ∀ n, is_u64 n →
  Z.of_nat (length (put (magic_field F) MAGIC ++ put (u8_field F) MANIFEST_VERSION
    ++ put (params_field F) (MkWireParams (min p) (avg p) (max p)) ++ put (u64_field F) total
    ++ put (hash_field F) hash ++ put (u64_field F) n)) ≤ HEADER_MAX.
Proof.
  intros [_ [Hi1 Hi2] [Hb1 Hb2]] Ht Hh n Hn. rewrite !length_app.
  assert (is_params (MkWireParams (min p) (avg p) (max p))) as Hw.
  { unfold is_params, is_u32, u32_max, MIN_CHUNK_FLOOR, MAX_CHUNK_LEN in *. cbn. lia. }
  pose proof (magic_len _ L MAGIC eq_refl). pose proof (u8_len _ L MANIFEST_VERSION ltac:(done)). pose proof (params_len _ L _ Hw).
  pose proof (u64_len _ L total ltac:(unfold is_u64, u64_max, MAX_FILE_SIZE in *; lia)). pose proof (hash_len _ L hash Hh).
  pose proof (u64_len _ L n Hn). unfold HEADER_MAX. lia.
Qed.

Lemma ok_bounds m : manifest_ok m →
  0 ≤ total_size m ≤ MAX_FILE_SIZE ∧ is_u64 (Z.of_nat (length (chunks m))) ∧ Forall is_entry (chunks m) ∧
  Z.of_nat (length (to_bytes F m)) ≤ MAX_MANIFEST_LEN.
Proof.
  intros [Hp Hlay Hh Hd _]. pose proof (layout_count _ _ _ Hp Hlay) as Hc. pose proof (layout_entries _ _ _ Hp Hlay Hd) as He.
  pose proof (entries_len _ _ _ Hp Hlay Hd) as Hel. pose proof (lo_max _ _ _ Hlay).
  assert (0 ≤ total_size m) as H0 by (rewrite <- (lo_total _ _ _ Hlay); by eapply sized_covered, (lo_sized _ _ _ Hlay)).
  assert (is_u64 (Z.of_nat (length (chunks m)))) as Hn.
  { split; [lia |]. destruct Hp as [_ _ [Hmin _]]. unfold MIN_CHUNK_FLOOR, MAX_FILE_SIZE, u64_max in *.
    apply max_chunks_bound in Hc; [| lia | lia]. destruct Hc; nia. }
  split; [done |]. split; [done |]. split; [eapply Forall_impl; [exact He |]; by intros e [? _] |].
  pose proof (header_len (params m) (total_size m) (file_hash m) Hp ltac:(done) Hh _ Hn) as Hhead.
  unfold to_bytes, encode, MAX_MANIFEST_LEN. rewrite !length_app in *. lia.
Qed.

Lemma from_bytes_ok bytes m : from_bytes blake3 F bytes = Ok m → manifest_ok m ∧ to_bytes F m = bytes.
Proof.
  unfold from_bytes. destruct (_ <? _); [done |]. rewrite result_bind_Ok. intros ([magic i1] & _ & H).
  destruct (negb _); [done |]. apply result_bind_Ok in H as ([version i2] & _ & H). destruct (negb _); [done |].
  apply result_bind_Ok in H as ([w i3] & _ & H). apply result_bind_Ok in H as (p & Hp & H).
  assert (params_ok p) as Hpo.
  { destruct (ChunkParams_new _ _ _) as [p' |] eqn:E; [| done]. injection Hp as ->. by apply params_new_iff in E as [_ ?]. }
  apply result_bind_Ok in H as ([total i4] & Ht & H). destruct (Z.ltb_spec MAX_FILE_SIZE total) as [| Hmax]; [done |].
  apply (take_Ok _ _ _ _ _ _ (u64_law _ L)) in Ht as [Ht0 _].
  apply result_bind_Ok in H as ([hash i5] & Hh & H). apply (take_Ok _ _ _ _ _ _ (hash_law _ L)) in Hh.
  apply result_bind_Ok in H as ([count i6] & _ & H). destruct (_ <? _); [done |].
  apply result_bind_Ok in H as ([[entries r] i7] & Hes & H). destruct (negb _); [done |].
  apply result_bind_Ok in H as ([] & Hf & H). cbn [fst snd] in *.
  destruct (bool_decide_reflect (encode F p total hash entries = bytes)) as [Eb |]; [| done]. injection H as <-.
  apply take_entries_Ok in Hes as (He & Hn & Hc).
  assert (Forall (λ e, 0 ≤ len e) entries) as Hl by (eapply Forall_impl; [exact He |]; by intros e (_ & _ & ? & _)).
  apply check_all_Ok in Hc as (T & S & C & Sa & ->); [| done]. unfold rules_finish in Hf. cbn in Hf, S, Sa. rewrite Z.add_0_l in Hf.
  destruct (Z.eqb_spec (covered entries) total) as [Ec |]; [| done]. split; [| exact Eb].
  split; [done | | done | by eapply Forall_impl; [exact He |]; intros e [? _] | by rewrite <- Eb].
  split; [done | exact T | done | cbn; by rewrite Hn | exact Sa].
Qed.

Lemma from_bytes_to_bytes m : manifest_ok m → from_bytes blake3 F (to_bytes F m) = Ok m.
Proof.
  intros Hm. pose proof (ok_bounds m Hm) as ([Ht0 Htm] & Hn & He & Hlen). destruct Hm as [Hp Hlay Hh Hd Hid].
  unfold from_bytes. rewrite (proj2 (Z.ltb_ge _ _)) by exact Hlen. unfold to_bytes at 1, encode at 1.
  rewrite (take_put _ _ _ _ _ (magic_law _ L)) by done. cbn [result_bind]. rewrite bool_decide_true by done. cbn [negb].
  rewrite (take_put _ _ _ _ _ (u8_law _ L)) by done. cbn [result_bind]. rewrite Z.eqb_refl. cbn [negb].
  rewrite (take_put _ _ _ _ _ (params_law _ L)); cbn [result_bind wire_min wire_avg wire_max].
  2: { destruct Hp as [_ [? ?] [? ?]]. unfold is_params, is_u32, u32_max, MIN_CHUNK_FLOOR, MAX_CHUNK_LEN in *. cbn. lia. }
  assert (params m = MkChunkParams (min (params m)) (avg (params m)) (max (params m))) as Ep by (clear; by destruct (params m)).
  rewrite (proj2 (params_new_iff _ _ _ (params m)) (conj Ep Hp)). cbn [result_bind].
  rewrite (take_put _ _ _ _ _ (u64_law _ L)) by (unfold is_u64, u64_max, MAX_FILE_SIZE in *; lia). cbn [result_bind].
  rewrite (proj2 (Z.ltb_ge _ _)) by done. rewrite (take_put _ _ _ _ _ (hash_law _ L)) by done. cbn [result_bind].
  rewrite (take_put _ _ _ _ _ (u64_law _ L)) by done. cbn [result_bind].
  rewrite (proj2 (Z.ltb_ge _ _) (layout_count _ _ _ Hp Hlay)). cbv zeta. rewrite Nat2Z.id.
  rewrite <- (app_nil_r (chunks m ≫= _)), take_entries_encoded by done.
  assert (Forall (λ e, 0 ≤ len e) (chunks m)) as Hl by (eapply Forall_impl; [exact He |]; by intros e (_ & _ & ? & _)).
  destruct Hlay as [_ T C S Sa].
  rewrite (proj2 (check_all_Ok (Rules_new (params m) (total_size m) (length (chunks m))) 0 (chunks m) _ Hl)
    (conj T (conj S (conj (or_intror (Z.eq_le_incl _ _ C)) (conj Sa eq_refl))))).
  cbn [result_bind fst snd]. rewrite bool_decide_true by done. cbn [negb]. unfold rules_finish. cbn.
  rewrite Z.add_0_l, C, Z.eqb_refl. cbn. rewrite bool_decide_true by done. cbn. f_equal. rewrite <- Hid. by destruct m.
Qed.

(** C23: a manifest has exactly one encoding, and only manifests that keep every
    rule have one.  Bytes from a peer decode to [m] if and only if [m] is valid
    (its parameters are admissible, and its chunks cover the file of the size it
    states exactly, in order, each within the bounds, equal ids with equal
    lengths, and its id is the hash of its encoding) and they are its encoding.
    No valid manifest is too long to be decoded: the encoding of every one of
    them is within the limit on what is read from a peer. *)
Theorem manifest_canonical (bytes : list Z) (m : Manifest) :
  (from_bytes blake3 F bytes = Ok m ↔ manifest_ok m ∧ to_bytes F m = bytes) ∧
  (manifest_ok m → Z.of_nat (length (to_bytes F m)) ≤ MAX_MANIFEST_LEN).
Proof.
  split; [split |].
  - by intros [Hm Hb]%from_bytes_ok.
  - intros (Hm & <-). by apply from_bytes_to_bytes.
  - apply ok_bounds.
Qed.
End canonical.

(** * The manifest of a stream *)
Section streams.
Context (blake3 : list Z → Z) (blake3_digest : ∀ bytes, is_digest (blake3 bytes)) (F : Fields) (L : FieldsLaws F).

(** What FastCDC promises of the pieces of a stream: they are the stream, and
    each is within the bounds, the last one from below excepted. *)
Definition cut_ok (p : ChunkParams) (data : list Z) (pieces : list (list Z)) : Prop :=
  concat pieces = data ∧
  ∀ i piece, pieces !! i = Some piece →
    0 < Z.of_nat (length piece) ≤ max p ∧ (S i ≠ length pieces → min p ≤ Z.of_nat (length piece)).

Definition no_collision (pieces : list (list Z)) : Prop :=
  ∀ a b, a ∈ pieces → b ∈ pieces → blake3 a = blake3 b → a = b.

Fixpoint chunks_at (at_ : Z) (pieces : list (list Z)) : list Chunk :=
  match pieces with
  | [] => []
  | piece :: pieces => MkChunk at_ (blake3 piece) piece :: chunks_at (at_ + Z.of_nat (length piece)) pieces
  end.

Definition next_ok (c : Chunker) (piece : list Z) (rest : list (result (list Z) unit)) : Chunker :=
  MkChunker rest (hashed c ++ piece) (c_len c + Z.of_nat (length piece)) (limit c).

Lemma next_chunk_Ok c piece rest :
  cdc c = Ok piece :: rest → c_len c + Z.of_nat (length piece) ≤ limit c →
  next_chunk blake3 c = (next_ok c piece rest, Ok (Some (MkChunk (c_len c) (blake3 piece) piece))).
Proof.
  intros E Hl. unfold next_chunk, mbind, SE_bind, se_get, se_mod. rewrite E. cbv zeta.
  by rewrite (proj2 (Z.ltb_ge _ _)).
Qed.

Lemma next_chunk_None c : cdc c = [] → next_chunk blake3 c = (c, Ok None).
Proof. intros E. unfold next_chunk, mbind, SE_bind, se_get. by rewrite E. Qed.

Lemma drain_pieces pieces c :
  cdc c = Ok <$> pieces → c_len c + Z.of_nat (length (concat pieces)) ≤ limit c →
  drain blake3 (S (length pieces)) c
  = (MkChunker [] (hashed c ++ concat pieces) (c_len c + Z.of_nat (length (concat pieces))) (limit c),
     Ok (chunks_at (c_len c) pieces)).
Proof.
  revert c. induction pieces as [| piece pieces IH]; intros c E Hl.
  - cbn. unfold mbind, SE_bind. rewrite next_chunk_None by done. rewrite app_nil_r, Z.add_0_r. destruct c. cbn in E. by subst.
  - cbn [concat length drain] in *. rewrite length_app in Hl. unfold mbind, SE_bind.
    rewrite (next_chunk_Ok c piece (Ok <$> pieces)) by (done || lia).
    pose proof (IH (next_ok c piece (Ok <$> pieces)) eq_refl) as H. cbn [next_ok c_len limit hashed] in H.
    cbn [drain] in H. unfold mbind, SE_bind in H. rewrite H by lia. cbn [chunks_at].
    rewrite app_assoc, length_app, Nat2Z.inj_add, Z.add_assoc. done.
Qed.

(** A stream that is too long is refused at the first piece past the limit. *)
Lemma drain_too_long pieces c :
  cdc c = Ok <$> pieces → c_len c ≤ limit c < c_len c + Z.of_nat (length (concat pieces)) →
  (drain blake3 (S (length pieces)) c).2 = Err (SourceTooLarge (limit c)).
Proof.
  revert c. induction pieces as [| piece pieces IH]; intros c E Hl; [cbn in Hl; lia |].
  cbn [concat] in Hl. rewrite length_app in Hl.
  destruct (Z.le_gt_cases (c_len c + Z.of_nat (length piece)) (limit c)) as [Hle | Hgt].
  - pose proof (IH (next_ok c piece (Ok <$> pieces)) eq_refl) as H. cbn [next_ok c_len limit hashed] in H.
    cbn [length]. remember (S (length pieces)) as fuel. cbn [drain]. unfold mbind, SE_bind.
    rewrite (next_chunk_Ok c piece (Ok <$> pieces)) by done. specialize (H ltac:(lia)).
    destruct (drain blake3 fuel _) as [c' [cs | e]]; [done | exact H].
  - cbn [length drain]. unfold mbind, SE_bind, next_chunk, mbind, SE_bind, se_get, se_mod, se_err. rewrite E. cbv zeta.
    change (Ok <$> piece :: pieces) with (Ok (E := unit) piece :: (Ok <$> pieces)). cbv iota.
    rewrite (proj2 (Z.ltb_lt _ _)) by done. done.
Qed.

Lemma chunk_len_eq p data : params_ok p → Z.of_nat (length data) ≤ max p → chunk_len data = Z.of_nat (length data).
Proof.
  intros [_ _ [_ Hm]] Hl. unfold chunk_len. unfold MAX_CHUNK_LEN in Hm. rewrite (proj2 (Z.leb_le _ _)); [done |].
  unfold u32_max. lia.
Qed.

Lemma entries_of_pieces p at_ pieces index count :
  params_ok p → 0 ≤ at_ →
  (∀ i piece, pieces !! i = Some piece →
    0 < Z.of_nat (length piece) ≤ max p ∧ (S (index + i) ≠ count → min p ≤ Z.of_nat (length piece))) →
  let entries := entry_of <$> chunks_at at_ pieces in
  tiles at_ entries ∧ covered entries = Z.of_nat (length (concat pieces)) ∧ sized p count index entries ∧
  (∀ e, e ∈ entries → ∃ piece, piece ∈ pieces ∧ entry_id e = blake3 piece ∧ len e = Z.of_nat (length piece)).
Proof.
  intros Hp. revert at_ index. induction pieces as [| piece pieces IH]; intros at_ index Hat H; cbn [chunks_at].
  { change (entry_of <$> []) with (@nil ChunkEntry).
    split; [done |]. split; [done |]. split; [by intros i e; rewrite lookup_nil | by intros e ?%elem_of_nil]. }
  pose proof (H 0%nat piece eq_refl) as [Hb Hmin]. rewrite Nat.add_0_r in Hmin.
  pose proof (chunk_len_eq p piece Hp ltac:(lia)) as Elen.
  destruct (IH (at_ + Z.of_nat (length piece)) (S index) ltac:(lia)) as (T & C & S & I).
  { intros i q Hi. specialize (H (Datatypes.S i) q Hi). by rewrite Nat.add_succ_r in H. }
  rewrite fmap_cons. split; [cbn; rewrite Elen; by split |].
  split; [rewrite covered_cons, C; cbn; rewrite Elen, length_app; lia |].
  split; [apply sized_cons; cbn; rewrite Elen; done |].
  intros e [-> | He]%elem_of_cons; [exists piece; cbn; rewrite Elen; split; [by left | done] |].
  destruct (I e He) as (q & Hq & ?). exists q. split; [by right | done].
Qed.

(** The manifest the chunker's pieces give is valid, and lists them. *)
Lemma pieces_manifest p data pieces :
  params_ok p → cut_ok p data pieces → Z.of_nat (length data) ≤ MAX_FILE_SIZE → no_collision pieces →
  ∃ m, from_chunks blake3 F p (Z.of_nat (length data)) (blake3 data) (entry_of <$> chunks_at 0 pieces) = Ok m ∧
    manifest_ok blake3 F m ∧ total_size m = Z.of_nat (length data) ∧ file_hash m = blake3 data ∧
    chunks m = entry_of <$> chunks_at 0 pieces.
Proof.
  intros Hp [Hcat Hb] Hmax Hcol. unfold from_chunks.
  destruct (entries_of_pieces p 0 pieces 0 (length pieces) Hp ltac:(lia) Hb) as (T & C & S & I).
  set (entries := entry_of <$> chunks_at 0 pieces) in *. rewrite Hcat in C.
  assert (length entries = length pieces) as Hlen.
  { unfold entries. rewrite length_fmap. generalize 0. clear. induction pieces as [| q qs IH]; intros z; cbn; [done |]. by rewrite IH. }
  assert (layout p (Z.of_nat (length data)) entries) as Hlay.
  { split; [done | done | done | by rewrite Hlen |]. split; [by intros e l _; rewrite lookup_empty |].
    intros e e' He He' Eq. destruct (I e He) as (q & Hq & E1 & ->), (I e' He') as (q' & Hq' & E1' & ->).
    rewrite E1, E1' in Eq. by rewrite (Hcol q q' Hq Hq' Eq). }
  assert (Forall (λ e, is_digest (entry_id e)) entries) as Hd.
  { apply Forall_forall. intros e He. destruct (I e He) as (q & _ & -> & _). apply blake3_digest. }
  assert (Forall (λ e, 0 ≤ len e) entries) as Hl by (eapply Forall_impl; [exact (sized_lens _ _ _ _ S) |]; cbn; intros e ?; lia).
  rewrite (proj2 (check_iff p (Z.of_nat (length data)) entries Hp (Nat2Z.is_nonneg _) Hl) Hlay). cbn [result_bind].
  eexists. split; [done |]. split; [| done]. by split; cbn.
Qed.

Lemma compute_ok p data pieces :
  params_ok p → cut_ok p data pieces → Z.of_nat (length data) ≤ MAX_FILE_SIZE → no_collision pieces →
  ∃ m, compute blake3 F (Ok <$> pieces) p = Ok m ∧ manifest_ok blake3 F m ∧
    total_size m = Z.of_nat (length data) ∧ file_hash m = blake3 data ∧ chunks m = entry_of <$> chunks_at 0 pieces.
Proof.
  intros Hp Hcut Hmax Hcol. destruct (pieces_manifest p data pieces Hp Hcut Hmax Hcol) as (m & Hm & Hok & E).
  exists m. split; [| done]. unfold compute. rewrite length_fmap.
  rewrite (drain_pieces pieces (Chunker_new (Ok <$> pieces)) eq_refl) by (cbn; destruct Hcut as [-> _]; lia).
  unfold finish. cbn. unfold mbind, SE_bind. rewrite next_chunk_None by done. cbn.
  destruct Hcut as [-> _]. by rewrite Z.add_0_l, Hm.
Qed.
End streams.

(** * A concrete encoding

    It stands in for postcard where a theorem is applied to a concrete manifest:
    a number is one item, refused out of its range. *)
Module ConcreteFields.
Definition number (bound : Z) : Field Z := MkField _
  (λ v, [v])
  (λ input, match input with
            | [] => Err UnexpectedEnd
            | v :: rest => if (0 <=? v) && (v <? bound) then Ok (v, rest) else Err BadField
            end).
Definition fields : Fields := {|
  magic_field := MkField _ (λ m, m)
    (λ input, match input with
              | a :: b :: c :: d :: rest => Ok ([a; b; c; d], rest)
              | _ => Err UnexpectedEnd
              end);
  u8_field := number 256;
  params_field := MkField _ (λ w, [wire_min w; wire_avg w; wire_max w])
    (λ input, let? (a, input) := take_from (number (2 ^ 32)) input in
              let? (b, input) := take_from (number (2 ^ 32)) input in
              let? (c, input) := take_from (number (2 ^ 32)) input in Ok (MkWireParams a b c, input));
  u64_field := number (2 ^ 64);
  hash_field := number (2 ^ 256);
  entry_field := MkField _ (λ e, [entry_id e; offset e; len e])
    (λ input, let? (a, input) := take_from (number (2 ^ 256)) input in
              let? (b, input) := take_from (number (2 ^ 64)) input in
              let? (c, input) := take_from (number (2 ^ 32)) input in Ok (MkChunkEntry a b c, input));
|}.

Lemma number_take bound v rest : 0 ≤ v < bound → take_from (number bound) (v :: rest) = Ok (v, rest).
Proof. intros [H1 H2]. cbn. by rewrite (proj2 (Z.leb_le _ _) H1), (proj2 (Z.ltb_lt _ _) H2). Qed.

Lemma number_taken bound input v rest : take_from (number bound) input = Ok (v, rest) → 0 ≤ v < bound.
Proof.
  destruct input as [| w input]; [done |]. cbn. destruct (Z.leb_spec 0 w), (Z.ltb_spec w bound); try done. by intros [= -> ->].
Qed.

Lemma number_law bound (ok : Z → Prop) : (∀ v, ok v ↔ 0 ≤ v < bound) → field_law (number bound) ok.
Proof.
  intros Hok. split.
  - intros v rest Hv. apply number_take. by apply Hok.
  - intros input v rest H. apply Hok. by eapply number_taken.
Qed.

Lemma laws : FieldsLaws fields.
Proof.
  split.
  - split; [intros [| a [| b [| c [| d []]]]] rest H; try done |].
    intros [| a [| b [| c [| d input]]]] m rest; try done. by intros [= <- _].
  - by apply number_law.
  - split.
    + intros [a b c] rest (H1 & H2 & H3). unfold is_u32, u32_max in *. cbn [wire_min wire_avg wire_max] in *.
      cbn [take_from fields params_field put app wire_min wire_avg wire_max].
      do 3 (rewrite number_take by lia; cbn [result_bind]). done.
    + intros input w rest H. cbn [take_from fields params_field] in H. apply result_bind_Ok in H as ([a i1] & Ha & H).
      apply result_bind_Ok in H as ([b i2] & Hb & H). apply result_bind_Ok in H as ([c i3] & Hc & [= <- _]).
      apply number_taken in Ha, Hb, Hc. unfold is_params, is_u32, u32_max. cbn. lia.
  - apply number_law. intros v. unfold is_u64, u64_max. lia.
  - apply number_law. intros v. unfold is_digest. lia.
  - split.
    + intros [a b c] rest (H1 & H2 & H3). unfold is_digest, is_u64, is_u32, u32_max, u64_max in *. cbn [entry_id offset len] in *.
      cbn [take_from fields entry_field put app entry_id offset len].
      do 3 (rewrite number_take by lia; cbn [result_bind]). done.
    + intros input w rest H. cbn [take_from fields entry_field] in H. apply result_bind_Ok in H as ([a i1] & Ha & H).
      apply result_bind_Ok in H as ([b i2] & Hb & H). apply result_bind_Ok in H as ([c i3] & Hc & [= <- _]).
      apply number_taken in Ha, Hb, Hc. unfold is_entry, is_digest, is_u64, is_u32, u32_max, u64_max. cbn. lia.
  - intros m H. cbn. rewrite H. done.
  - done.
  - intros. cbn. lia.
  - intros. cbn. lia.
  - intros. cbn. lia.
  - intros. cbn. lia.
Qed.

Definition example : Manifest :=
  let p := MkChunkParams (16 * 2 ^ 10) (32 * 2 ^ 10) (64 * 2 ^ 10) in
  let entries := [MkChunkEntry 7 0 16384; MkChunkEntry 9 16384 20000; MkChunkEntry 7 36384 16384] in
  MkManifest p 52768 5 entries (Z.of_nat (length (encode fields p 52768 5 entries))).
End ConcreteFields.

(** A file of three chunks, the first and last the same. *)
Lemma manifest_canonical_witness :
  from_bytes (λ bytes, Z.of_nat (length bytes)) ConcreteFields.fields (to_bytes ConcreteFields.fields ConcreteFields.example)
    = Ok ConcreteFields.example ∧
  manifest_ok (λ bytes, Z.of_nat (length bytes)) ConcreteFields.fields ConcreteFields.example.
Proof.
  assert (from_bytes (λ bytes, Z.of_nat (length bytes)) ConcreteFields.fields (to_bytes ConcreteFields.fields ConcreteFields.example)
    = Ok ConcreteFields.example) as E by (vm_compute; reflexivity).
  split; [exact E |]. exact (proj1 (proj1 (proj1 (manifest_canonical _ _ ConcreteFields.laws _ _)) E)).
Defined.
