(* ===== verification/Store.v ===== *)
(** The chunk store ([crates/tpf3mp-snapshot/src/codec.rs], [store.rs]): compressed
    chunks named by the hash of their bytes, the manifests that keep them alive,
    and the files assembled from them.

    [Store] is what is on disk and what the process keeps about it.  A chunk file is
    its bytes and when it was written; the records under [roots/] and [pending/] are
    theirs; file names are ids.  Temporary and partial files are never read, and are
    not part of it.  Every call of the file system or of zstd's set-up may fail:
    [fails n] says whether the [n]-th does, counted by [calls].  BLAKE3 and zstd are
    parameters. *)
From S2P Require Import Prelude Proto Manifest.
Local Open Scope Z_scope.

(** * One chunk *)
Inductive ChunkError :=
  | ChunkTooLarge (len max : Z)
  | NotOneFrame
  | Decompress
  | ChunkLengthMismatch (expected actual : Z)
  | HashMismatch
  | BadFile (what : string).

Definition compress_bound (len : Z) : Z :=
  let block := 128 * 2 ^ 10 in
  let margin := if len <? block then Z.shiftr (block - len) 11 else 0 in
  len + Z.shiftr len 8 + margin.

Definition MAX_COMPRESSED_CHUNK_LEN : Z := compress_bound MAX_CHUNK_LEN.

(** [zstd_safe::MAGICNUMBER]. *)
Definition MAGICNUMBER : Z := 4247762216.

Definition CHUNK_MAGIC : list Z := [84; 51; 83; 67].   (* b"T3SC" *)
Definition CHUNK_HEADER_LEN : nat := 8.
Definition MAX_CHUNK_FILE_LEN : Z := Z.of_nat CHUNK_HEADER_LEN + MAX_COMPRESSED_CHUNK_LEN.

(** What is used of zstd. *)
Record Zstd := MkZstd {
  compress : list Z → list Z;
  decompress_to_buffer : nat → list Z → option (list Z);   (* the room in the buffer, the frame *)
  frame_compressed_size : list Z → option Z;
}.

(** * The store *)
Record ChunkFile := MkChunkFile { content : list Z; modified : Z }.

Record Store := MkStore {
  chunk_files : gmap ChunkId ChunkFile;
  roots : gmap ManifestId (list Z);
  pending : gmap ManifestId (list Z);
  files : gmap string (list Z);
  used : Z;
  fans : gset Z;
  open_sinks : gset ManifestId;
  assembling : gset string;
  calls : nat;
}.
#[export] Instance eta_Store : Eta Store := fun s =>
  MkStore (chunk_files s) (roots s) (pending s) (files s) (used s) (fans s) (open_sinks s) (assembling s) (calls s).

Record StoreConfig := MkStoreConfig { max_bytes : Z; recompress_received : bool }.

Inductive StoreRecord := RecordRoot | RecordPending.

Inductive RecordDamage :=
  | RecordTooLong (size : Z)
  | RecordManifest (e : ManifestError)
  | OtherSnapshot (id : ManifestId).

Inductive StoreError :=
  | StoreIo
  | Locked
  | Full (used limit needed : Z)
  | NotFound (id : ChunkId)
  | Corrupt (id : ChunkId) (reason : ChunkError)
  | Incomplete (missing : nat)
  | StoreLengthMismatch (id : ChunkId) (expected actual : Z)
  | FileHashMismatch
  | InvalidDestination (dest : string)
  | Busy (dest : string)
  | UnknownSnapshot (id : ManifestId)
  | DamagedRecord (id : ManifestId) (reason : RecordDamage)
  | StoreCompression
  | StoreSource (e : SourceError)
  | StoreManifest (e : ManifestError).

Record GcStats := MkGcStats {
  kept_chunks : Z;
  kept_bytes : Z;
  removed_chunks : Z;
  freed_bytes : Z;
  failed_removals : Z;
  damaged_records : Z;
}.
#[export] Instance eta_GcStats : Eta GcStats := fun g =>
  MkGcStats (kept_chunks g) (kept_bytes g) (removed_chunks g) (freed_bytes g) (failed_removals g) (damaged_records g).
Definition GcStats_default : GcStats := MkGcStats 0 0 0 0 0 0.

Abbreviation StoreM := (SE Store StoreError).

Definition size_of (f : ChunkFile) : Z := Z.of_nat (length (content f)).

(** A chunk file holds at least its header and one byte of frame. *)
Definition holds_chunk (f : ChunkFile) : bool := Z.of_nat CHUNK_HEADER_LEN <? size_of f.

(** Enough of a file's metadata to tell whether it was replaced. *)
Definition identity (f : ChunkFile) : Z * Z := (size_of f, modified f).

Section store.
Context (blake3 : list Z → Z) (Fs : Fields) (Zs : Zstd).
Context (config : StoreConfig) (fails : nat → bool) (named : string → bool).

(** One call of the file system or of the compressor: [fails] says which fail. *)
Definition attempt : StoreM bool := λ s, (s <| calls := S (calls s) |>, Ok (negb (fails (calls s)))).
Definition io : StoreM unit := ok ← attempt; if ok : bool then mret tt else se_err StoreIo.
Definition zstd_ready : StoreM unit := ok ← attempt; if ok : bool then mret tt else se_err StoreCompression.

(** ** Chunks *)
Definition decode_chunk (id : ChunkId) (raw_len : Z) (frame : list Z) : result (list Z) ChunkError :=
  let max := compress_bound raw_len in
  let size := Z.of_nat (length frame) in
  if max <? size then Err (ChunkTooLarge size max)
  else
    let standard := (4 <=? length frame)%nat && (from_le_bytes (firstn 4 frame) =? MAGICNUMBER) in
    if negb standard || negb (bool_decide (frame_compressed_size Zs frame = Some size)) then Err NotOneFrame
    else
      let? raw := ok_or (decompress_to_buffer Zs (Z.to_nat raw_len) frame) Decompress in
      if negb (Z.of_nat (length raw) =? raw_len) then Err (ChunkLengthMismatch raw_len (Z.of_nat (length raw)))
      else if negb (blake3 raw =? id) then Err HashMismatch
      else Ok raw.

Definition chunk_file (raw_len : Z) (frame : list Z) : list Z := CHUNK_MAGIC ++ to_le_bytes 4 raw_len ++ frame.

Definition parse_chunk_file (bytes : list Z) : result (Z * list Z) ChunkError :=
  if MAX_CHUNK_FILE_LEN <? Z.of_nat (length bytes) then Err (BadFile "longer than any valid chunk")
  else if (length bytes <? CHUNK_HEADER_LEN)%nat then Err (BadFile "truncated header")
  else
    let header := firstn CHUNK_HEADER_LEN bytes in
    let frame := skipn CHUNK_HEADER_LEN bytes in
    if negb (bool_decide (firstn 4 header = CHUNK_MAGIC)) then Err (BadFile "not a chunk file")
    else
      let raw_len := from_le_bytes (skipn 4 header) in
      if (raw_len =? 0) || (MAX_CHUNK_LEN <? raw_len) then Err (BadFile "impossible chunk length")
      else Ok (raw_len, frame).

Definition has (id : ChunkId) : StoreM bool :=
  _ ← io;
  s ← se_get;
  mret (match chunk_files s !! id with Some f => holds_chunk f | None => false end).

Fixpoint missing_of (entries : list ChunkEntry) : StoreM (list ChunkEntry) :=
  match entries with
  | [] => mret []
  | entry :: entries =>
      there ← has (entry_id entry);
      rest ← missing_of entries;
      mret (if there : bool then rest else entry :: rest)
  end.
Definition missing (m : Manifest) : StoreM (list ChunkEntry) := missing_of (unique_chunks m).

Definition fan_of (id : ChunkId) : Z := id / 2 ^ 248.

(** Renames a finished chunk file into place unless the chunk is already stored,
    within the bound. *)
Definition commit (id : ChunkId) (bytes : list Z) : StoreM bool :=
  let size := Z.of_nat (length bytes) in
  _ ← io;
  s ← se_get;
  if match chunk_files s !! id with Some f => holds_chunk f | None => false end then mret false
  else
    let replaced := match chunk_files s !! id with Some f => size_of f | None => 0 end in
    let used_ := saturating_sub_u64 (used s) replaced in
    if max_bytes config <? saturating_add_u64 used_ size then se_err (Full used_ (max_bytes config) size)
    else
      _ ← (if bool_decide (fan_of id ∈ fans s) then mret tt
           else _ ← io; se_mod (λ s, s <| fans := {[fan_of id]} ∪ fans s |>));
      _ ← io;
      _ ← se_mod (λ s, s <| chunk_files := <[id := MkChunkFile bytes (Z.of_nat (calls s))]> (chunk_files s) |>
                       <| used := used_ + size |>);
      mret true.

(** A temporary file is made and written, then moved into place. *)
Definition write_chunk (id : ChunkId) (raw_len : Z) (frame : list Z) : StoreM bool :=
  _ ← io;
  _ ← io;
  commit id (chunk_file raw_len frame).

Definition insert_frame (id : ChunkId) (raw_len : Z) (frame : list Z) : StoreM bool := write_chunk id raw_len frame.

(** Removes a damaged chunk file, unless it was replaced since it was read. *)
Definition discard (id : ChunkId) (read : Z * Z) : StoreM unit :=
  ok ← attempt;
  s ← se_get;
  match chunk_files s !! id with
  | None => mret tt
  | Some f =>
      if negb ok then se_err StoreIo
      else if negb (bool_decide (identity f = read)) then mret tt
      else
        _ ← io;
        se_mod (λ s, s <| chunk_files := delete id (chunk_files s) |> <| used := saturating_sub_u64 (used s) read.1 |>)
  end.

Record Loaded := MkLoaded { raw : list Z; loaded_file : list Z }.

(** Reads and verifies a chunk file, removing it if it is damaged. *)
Definition load (id : ChunkId) : StoreM Loaded :=
  s ← se_get;
  match chunk_files s !! id with
  | None => _ ← attempt; se_err (NotFound id)
  | Some f =>
      _ ← io;
      _ ← io;
      _ ← io;
      let bytes := firstn (Z.to_nat (MAX_CHUNK_FILE_LEN + 1)) (content f) in
      match (let? (raw_len, frame) := parse_chunk_file bytes in decode_chunk id raw_len frame) with
      | Ok raw => mret (MkLoaded raw bytes)
      | Err reason => _ ← discard id (identity f); se_err (Corrupt id reason)
      end
  end.

Definition read_chunk (id : ChunkId) : StoreM (list Z) := _ ← zstd_ready; l ← load id; mret (raw l).
Definition read_compressed (id : ChunkId) : StoreM (list Z) :=
  _ ← zstd_ready; l ← load id; mret (skipn CHUNK_HEADER_LEN (loaded_file l)).

(** ** Records *)
Definition records (record : StoreRecord) (s : Store) : gmap ManifestId (list Z) :=
  match record with RecordRoot => roots s | RecordPending => pending s end.
Definition set_records (record : StoreRecord) (m : gmap ManifestId (list Z)) (s : Store) : Store :=
  match record with RecordRoot => s <| roots := m |> | RecordPending => s <| pending := m |> end.

Definition write_record (record : StoreRecord) (m : Manifest) : StoreM unit :=
  _ ← io;
  _ ← io;
  _ ← io;
  se_mod (λ s, set_records record (<[Manifest.id m := to_bytes Fs m]> (records record s)) s).

Definition load_record (record : StoreRecord) (id : ManifestId) : StoreM Manifest :=
  s ← se_get;
  match records record s !! id with
  | None => _ ← attempt; se_err (UnknownSnapshot id)
  | Some bytes =>
      _ ← io;
      _ ← io;
      let bytes := firstn (Z.to_nat (MAX_MANIFEST_LEN + 1)) bytes in
      if MAX_MANIFEST_LEN <? Z.of_nat (length bytes)
      then se_err (DamagedRecord id (RecordTooLong (Z.of_nat (length bytes))))
      else
        match from_bytes blake3 Fs bytes with
        | Err e => se_err (DamagedRecord id (RecordManifest e))
        | Ok m =>
            if negb (Manifest.id m =? id) then se_err (DamagedRecord id (OtherSnapshot (Manifest.id m))) else mret m
        end
  end.

Definition remove_record (record : StoreRecord) (id : ManifestId) : StoreM unit :=
  s ← se_get;
  match records record s !! id with
  | None => _ ← attempt; mret tt
  | Some _ => _ ← io; se_mod (λ s, set_records record (delete id (records record s)) s)
  end.

Definition list_records (record : StoreRecord) : StoreM (list ManifestId) :=
  _ ← io; s ← se_get; mret (btree_keys (records record s)).

Definition manifest (id : ManifestId) : StoreM Manifest := λ s,
  match load_record RecordRoot id s with
  | (s, Err (UnknownSnapshot _)) => load_record RecordPending id s
  | other => other
  end.

Definition release : ManifestId → StoreM unit := remove_record RecordRoot.
Definition save_pending : Manifest → StoreM unit := write_record RecordPending.

(** Turns a finished transfer into a retained snapshot. *)
Definition promote (m : Manifest) : StoreM unit :=
  s ← se_get;
  match pending s !! Manifest.id m with
  | Some bytes =>
      _ ← io;
      se_mod (λ s, s <| pending := delete (Manifest.id m) (pending s) |> <| roots := <[Manifest.id m := bytes]> (roots s) |>)
  | None => _ ← attempt; write_record RecordRoot m
  end.

(** ** Opening, ingesting, assembling *)
Definition disk_bytes (s : Store) : Z := map_sum (size_of <$> chunk_files s).

(** Opens what another process left: the lock, the directories, the temporary
    files and the count of what is there. *)
Definition open_store (locked : bool) : StoreM unit :=
  _ ← io; _ ← io;
  if locked then se_err Locked
  else
    _ ← io; _ ← io; _ ← io; _ ← io;
    _ ← se_mod (λ s, s <| used := 0 |> <| fans := ∅ |> <| open_sinks := ∅ |> <| assembling := ∅ |>);
    _ ← io; _ ← io;
    se_mod (λ s, s <| used := disk_bytes s |>).

(** The chunks of a stream, one after the other; only those that are not there are
    compressed and written. *)
Fixpoint ingest_chunks (fuel : nat) (c : Chunker) : StoreM (Chunker * list ChunkEntry) :=
  match fuel with
  | O => mret (c, [])
  | S fuel =>
      match next_chunk blake3 c with
      | (_, Err e) => se_err (StoreSource e)
      | (c, Ok None) => mret (c, [])
      | (c, Ok (Some chunk)) =>
          let n := chunk_len (chunk_data chunk) in
          there ← has (chunk_id chunk);
          _ ← (if there : bool then mret true
               else
                 ok ← attempt;
                 if ok : bool then write_chunk (chunk_id chunk) n (compress Zs (chunk_data chunk))
                 else se_err StoreCompression);
          rest ← ingest_chunks fuel c;
          mret (rest.1, MkChunkEntry (chunk_id chunk) (chunk_offset chunk) n :: rest.2)
      end
  end.

Definition ingest (source : list (result (list Z) unit)) (p : ChunkParams) : StoreM Manifest :=
  _ ← zstd_ready;
  found ← ingest_chunks (S (length source)) (Chunker_new source);
  '(total, hash) ← se_lift StoreSource (finish blake3 found.1);
  m ← se_lift StoreManifest (from_chunks blake3 Fs p total hash found.2);
  _ ← write_record RecordRoot m;
  mret m.

Definition is_corrupt (e : StoreError) : bool := match e with Corrupt _ _ => true | _ => false end.

(** Reads every chunk, which removes the damaged ones. *)
Fixpoint discard_damaged (entries : list ChunkEntry) : StoreM unit := λ s,
  match entries with
  | [] => (s, Ok tt)
  | entry :: entries =>
      match load (entry_id entry) s with
      | (s, Ok _) | (s, Err (Corrupt _ _)) | (s, Err (NotFound _)) => discard_damaged entries s
      | (s, Err e) => (s, Err e)
      end
  end.

(** Writes chunk after chunk, checking each: to a file, which may fail, or
    nowhere. *)
Fixpoint stream_chunks (to_file : bool) (m : Manifest) (entries : list ChunkEntry) : StoreM (list Z) := λ s,
  match entries with
  | [] => (s, Ok [])
  | entry :: entries =>
      match load (entry_id entry) s with
      | (s, Err e) =>
          if is_corrupt e then (_ ← discard_damaged (unique_chunks m); se_err e) s else (s, Err e)
      | (s, Ok l) =>
          (if negb (Z.of_nat (length (raw l)) =? len entry)
           then se_err (StoreLengthMismatch (entry_id entry) (len entry) (Z.of_nat (length (raw l))))
           else
             _ ← (if to_file then io else mret tt);
             rest ← stream_chunks to_file m entries;
             mret (raw l ++ rest)) s
      end
  end.

Definition stream_file (to_file : bool) (m : Manifest) : StoreM (list Z) :=
  _ ← zstd_ready;
  bytes ← stream_chunks to_file m (chunks m);
  if negb (blake3 bytes =? file_hash m) then se_err FileHashMismatch else mret bytes.

Definition check_complete (m : Manifest) : StoreM unit :=
  lacking ← missing m;
  if negb (bool_decide (lacking = [])) then se_err (Incomplete (length lacking)) else mret tt.

(** The claim on a destination ends with the assembly, however it ends. *)
Definition claiming {A} (dest : string) (m : StoreM A) : StoreM A := λ s,
  if bool_decide (dest ∈ assembling s) then (s, Err (Busy dest))
  else
    let '(s, r) := m (s <| assembling := {[dest]} ∪ assembling s |>) in
    (s <| assembling := assembling s ∖ {[dest]} |>, r).

Definition assemble_then (m : Manifest) (dest : string) (before_publish : StoreM unit) : StoreM unit :=
  _ ← io;
  claiming dest (
    _ ← check_complete m;
    if negb (named dest) then se_err (InvalidDestination dest)
    else
      _ ← io;
      bytes ← stream_file true m;
      _ ← io;
      _ ← before_publish;
      _ ← io;
      se_mod (λ s, s <| files := <[dest := bytes]> (files s) |>)).

Definition assemble (m : Manifest) (dest : string) : StoreM unit := assemble_then m dest (mret tt).

Definition verify_then (m : Manifest) (then_ : StoreM unit) : StoreM unit :=
  _ ← check_complete m;
  _ ← stream_file false m;
  then_.

(** ** Garbage collection *)
Definition chunk_ids (m : Manifest) : gset ChunkId := list_to_set (entry_id <$> chunks m).

(** What the saved manifests keep alive; the damaged ones go. *)
Fixpoint keep_records (record : StoreRecord) (ids : list ManifestId) (keep : gset ChunkId) (stats : GcStats) :
    StoreM (gset ChunkId * GcStats) := λ s,
  match ids with
  | [] => (s, Ok (keep, stats))
  | id :: ids =>
      match load_record record id s with
      | (s, Ok m) => keep_records record ids (chunk_ids m ∪ keep) stats s
      | (s, Err (DamagedRecord _ _)) =>
          (_ ← remove_record record id;
           keep_records record ids keep (stats <| damaged_records := damaged_records stats + 1 |>)) s
      | (s, Err (UnknownSnapshot _)) => keep_records record ids keep stats s
      | (s, Err e) => (s, Err e)
      end
  end.

(** One chunk file of the scan. *)
Definition sweep_one (keep : gset ChunkId) (stats : GcStats) (id : ChunkId) (size : Z) : StoreM GcStats :=
  let kept := stats <| kept_chunks := kept_chunks stats + 1 |> <| kept_bytes := kept_bytes stats + size |> in
  if bool_decide (id ∈ keep) then mret kept
  else
    ok ← attempt;
    if ok : bool then
      _ ← se_mod (λ s, s <| chunk_files := delete id (chunk_files s) |>);
      mret (stats <| removed_chunks := removed_chunks stats + 1 |> <| freed_bytes := freed_bytes stats + size |>)
    else mret (kept <| failed_removals := failed_removals stats + 1 |>).

Fixpoint sweep (keep : gset ChunkId) (stats : GcStats) (found : list (ChunkId * ChunkFile)) : StoreM GcStats :=
  match found with
  | [] => mret stats
  | (id, f) :: found =>
      _ ← io;
      stats ← sweep_one keep stats id (size_of f);
      sweep keep stats found
  end.

Definition gc (live : list Manifest) : StoreM GcStats :=
  let keep := ⋃ (chunk_ids <$> live) in
  ids ← list_records RecordRoot;
  '(keep, stats) ← keep_records RecordRoot ids keep GcStats_default;
  ids ← list_records RecordPending;
  '(keep, stats) ← keep_records RecordPending ids keep stats;
  _ ← io;
  s ← se_get;
  stats ← sweep keep stats (map_to_list (chunk_files s));
  _ ← se_mod (λ s, s <| used := kept_bytes stats |>);
  _ ← io;
  mret stats.
End store.
