(* ===== verification/Sink.v ===== *)
(** Receiving a snapshot ([crates/tpf3mp-snapshot/src/sink.rs]): chunks in any
    order from a peer that is not trusted, each checked before it is stored, and
    the file once all are there. *)
From S2P Require Import Prelude Proto Manifest Store.
Local Open Scope Z_scope.

Record Progress := MkProgress {
  chunks_present : Z;
  chunks_total : Z;
  bytes_present : Z;
  bytes_total : Z;
}.
#[export] Instance eta_Progress : Eta Progress := fun p =>
  MkProgress (chunks_present p) (chunks_total p) (bytes_present p) (bytes_total p).

Definition is_complete (p : Progress) : bool := chunks_present p =? chunks_total p.

Inductive SinkError :=
  | NotInManifest (id : ChunkId)
  | Rejected (id : ChunkId) (reason : ChunkError)
  | SinkIncomplete (missing : nat)
  | AlreadyOpen (id : ManifestId)
  | Inconsistent (e : StoreError)
  | Finished
  | SinkStore (e : StoreError).

Record ChunkSink := MkChunkSink {
  sink_manifest : Manifest;
  unique : list ChunkEntry;
  sink_lengths : gmap ChunkId Z;
  sink_missing : gset ChunkId;
  progress : Progress;
  finished : bool;
  claim : bool;
}.
#[export] Instance eta_ChunkSink : Eta ChunkSink := fun k =>
  MkChunkSink (sink_manifest k) (unique k) (sink_lengths k) (sink_missing k) (progress k) (finished k) (claim k).

(** A sink and the store it writes to. *)
Record Transfer := MkTransfer { store : Store; sink : ChunkSink }.
#[export] Instance eta_Transfer : Eta Transfer := fun t => MkTransfer (store t) (sink t).

Abbreviation SinkM := (SE Transfer SinkError).

Section sink.
Context (blake3 : list Z → Z) (Fs : Fields) (Zs : Zstd).
Context (config : StoreConfig) (fails : nat → bool) (named : string → bool).

(** A call of the store, its error passed on. *)
Definition in_store {A} (m : StoreM A) : SinkM A := λ t,
  let '(s, r) := m (store t) in
  (t <| store := s |>, match r with Ok a => Ok a | Err e => Err (SinkStore e) end).

Definition set_sink (f : ChunkSink → ChunkSink) : SinkM unit := se_mod (λ t, t <| sink ::= f |>).

Definition claim_sink (id : ManifestId) (s : Store) : option Store :=
  if bool_decide (id ∈ open_sinks s) then None else Some (s <| open_sinks := {[id]} ∪ open_sinks s |>).

(** What dropping a sink's claim does. *)
Definition drop_claim (id : ManifestId) (s : Store) : Store := s <| open_sinks := open_sinks s ∖ {[id]} |>.

Definition sum_lens (entries : list ChunkEntry) : Z := sum_Z (len <$> entries).

(** Asks the store again which chunks it holds. *)
Definition refresh : SinkM Progress :=
  t ← se_get;
  lacking ← in_store (missing fails (sink_manifest (sink t)));
  let total := sum_lens (unique (sink t)) in
  let p := MkProgress (Z.of_nat (length (unique (sink t)) - length lacking)) (Z.of_nat (length (unique (sink t))))
             (total - sum_lens lacking) total in
  _ ← set_sink (λ k, k <| sink_missing := list_to_set (entry_id <$> lacking) |> <| progress := p |>);
  mret p.

(** A sink that has not yet asked the store. *)
Definition new_sink (m : Manifest) : ChunkSink :=
  let unique := unique_chunks m in
  MkChunkSink m unique (list_to_map ((λ e, (entry_id e, len e)) <$> unique)) ∅ (MkProgress 0 0 0 0) false true.

(** The claim is given back if the transfer cannot start. *)
Definition start (s : Store) (m : Manifest) : Store * result ChunkSink SinkError :=
  let started : SinkM unit :=
    _ ← in_store (zstd_ready fails);
    _ ← (if recompress_received config then in_store (zstd_ready fails) else mret tt);
    _ ← refresh; mret tt in
  match started (MkTransfer s (new_sink m)) with
  | (t, Ok _) => (store t, Ok (sink t))
  | (t, Err e) => (drop_claim (Manifest.id m) (store t), Err e)
  end.

Definition open_sink (s : Store) (m : Manifest) : Store * result ChunkSink SinkError :=
  match claim_sink (Manifest.id m) s with
  | None => (s, Err (AlreadyOpen (Manifest.id m)))
  | Some s =>
      match save_pending Fs fails m s with
      | (s, Ok _) => start s m
      | (s, Err e) => (drop_claim (Manifest.id m) s, Err (SinkStore e))
      end
  end.

Definition resume_sink (s : Store) (id : ManifestId) : Store * result ChunkSink SinkError :=
  match claim_sink id s with
  | None => (s, Err (AlreadyOpen id))
  | Some s =>
      match load_record blake3 Fs fails RecordPending id s with
      | (s, Ok m) => start s m
      | (s, Err e) => (drop_claim id s, Err (SinkStore e))
      end
  end.

(** The chunks still to fetch, in file order. *)
Definition still_missing (k : ChunkSink) : list ChunkEntry :=
  List.filter (λ e, bool_decide (entry_id e ∈ sink_missing k)) (unique k).

(** One chunk as received from a peer. *)
Definition put_chunk (id : ChunkId) (frame : list Z) : SinkM Progress :=
  t ← se_get;
  let k := sink t in
  if finished k then se_err Finished
  else
    match sink_lengths k !! id with
    | None => se_err (NotInManifest id)
    | Some raw_len =>
        if negb (bool_decide (id ∈ sink_missing k)) then mret (progress k)
        else
          raw ← se_lift (Rejected id) (decode_chunk blake3 Zs id raw_len frame);
          _ ← (if recompress_received config
               then
                 ok ← in_store (attempt fails);
                 if ok : bool then in_store (insert_frame config fails id raw_len (compress Zs raw))
                 else se_err (SinkStore StoreCompression)
               else in_store (insert_frame config fails id raw_len frame));
          let p := (progress k) <| chunks_present := chunks_present (progress k) + 1 |>
                     <| bytes_present := bytes_present (progress k) + raw_len |> in
          _ ← set_sink (λ k, k <| sink_missing := sink_missing k ∖ {[id]} |> <| progress := p |>);
          mret p
    end.

(** Marks the transfer as over and lets another sink take the snapshot. *)
Definition end_sink : SinkM unit :=
  se_mod (λ t, t <| store ::= drop_claim (Manifest.id (sink_manifest (sink t))) |>
                 <| sink ::= λ k, k <| finished := true |> <| claim := false |> |>).

Definition is_inconsistent (e : StoreError) : bool :=
  match e with FileHashMismatch | StoreLengthMismatch _ _ _ => true | _ => false end.

(** Ends the transfer after a final verification, however it went. *)
Definition settle (verified : result unit StoreError) : SinkM unit :=
  match verified with
  | Ok _ => end_sink
  | Err e =>
      if is_inconsistent e then
        t ← se_get;
        _ ← end_sink;
        _ ← in_store (remove_record fails RecordPending (Manifest.id (sink_manifest (sink t))));
        se_err (Inconsistent e)
      else λ t, ((refresh t).1, Err (SinkStore e))
  end.

Definition ending (final : Manifest → StoreM unit) : SinkM unit :=
  t ← se_get;
  if finished (sink t) then se_err Finished
  else if negb (bool_decide (sink_missing (sink t) = ∅)) then se_err (SinkIncomplete (size (sink_missing (sink t))))
  else λ t, let '(s, r) := final (sink_manifest (sink t)) (store t) in settle r (t <| store := s |>).

Definition finish_sink (dest : string) : SinkM unit :=
  ending (λ m, assemble_then blake3 Zs fails named m dest (promote Fs fails m)).

Definition retain_sink : SinkM unit :=
  ending (λ m, verify_then blake3 Zs fails m (promote Fs fails m)).

(** Gives up the transfer; the sink is dropped. *)
Definition abandon (t : Transfer) : Store * result unit SinkError :=
  let m := sink_manifest (sink t) in
  let dropped (s : Store) := if claim (sink t) then drop_claim (Manifest.id m) s else s in
  if finished (sink t) then (dropped (store t), Ok tt)
  else
    match remove_record fails RecordPending (Manifest.id m) (store t) with
    | (s, Ok _) => (dropped s, Ok tt)
    | (s, Err e) => (dropped s, Err (SinkStore e))
    end.

(** Every unfinished transfer no sink holds, and every one that cannot be read. *)
Fixpoint abandon_each (ids : list ManifestId) (dropped : nat) : StoreM nat := λ s,
  match ids with
  | [] => (s, Ok dropped)
  | id :: ids =>
      match resume_sink s id with
      | (s, Ok k) =>
          match abandon (MkTransfer s k) with
          | (s, Ok _) => abandon_each ids (S dropped) s
          | (s, Err (SinkStore e)) => (s, Err e)
          | (s, Err _) => abandon_each ids dropped s
          end
      | (s, Err (SinkStore (DamagedRecord _ _))) =>
          (_ ← remove_record fails RecordPending id; abandon_each ids (S dropped)) s
      | (s, Err (SinkStore (UnknownSnapshot _))) => abandon_each ids dropped s
      | (s, Err (SinkStore e)) => (s, Err e)
      | (s, Err _) => abandon_each ids dropped s
      end
  end.

Definition abandon_idle_transfers : StoreM nat :=
  ids ← list_records fails RecordPending;
  abandon_each ids 0.
End sink.
