(* ===== verification/StoreInv.v ===== *)
(** What a chunk store keeps true whatever peers send and whatever fails: a chunk
    file holds the chunk it is named after, and the store stays within its bound. *)
From S2P Require Import Prelude Proto Manifest Store Sink.
Local Open Scope Z_scope.

(** * Operations that keep a property of the store *)
Section keeps.
Context (P : Store → Prop).

Definition keeps {A} (m : StoreM A) : Prop := ∀ s, P s → P (m s).1.

Lemma keeps_ret {A} (a : A) : keeps (mret a).
Proof. by intros s H. Qed.
Lemma keeps_err {A} e : keeps (se_err (A := A) e).
Proof. by intros s H. Qed.
Lemma keeps_lift {A E} w (r : result A E) : keeps (se_lift w r).
Proof. by intros s H. Qed.
Lemma keeps_bind {A B} (m : StoreM A) (k : A → StoreM B) : keeps m → (∀ a, keeps (k a)) → keeps (m ≫= k).
Proof.
  intros Hm Hk s H. specialize (Hm s H). unfold mbind, SE_bind. destruct (m s) as [s1 [a | e]]; [by apply Hk | done].
Qed.
Lemma keeps_with {A} (k : Store → StoreM A) : (∀ s, P s → P (k s s).1) → keeps (se_get ≫= k).
Proof. intros Hk s H. by apply (Hk s H). Qed.
Lemma keeps_mod f : (∀ s, P s → P (f s)) → keeps (se_mod f).
Proof. intros Hf s H. by apply Hf. Qed.
End keeps.

(** [P] does not look at how many calls were made. *)
Class IgnoresCalls (P : Store → Prop) : Prop := ignores_calls s n : P s → P (s <| calls := n |>).

Section io.
Context (P : Store → Prop) {HP : IgnoresCalls P} (fails : nat → bool).

Lemma keeps_attempt : keeps P (attempt fails).
Proof. intros s H. by apply HP. Qed.
Lemma keeps_io : keeps P (io fails).
Proof. apply keeps_bind; [apply keeps_attempt |]. intros []; [apply keeps_ret | apply keeps_err]. Qed.
Lemma keeps_zstd : keeps P (zstd_ready fails).
Proof. apply keeps_bind; [apply keeps_attempt |]. intros []; [apply keeps_ret | apply keeps_err]. Qed.
End io.

(** * What holds of a chunk file *)
Section sound.
Context (blake3 : list Z → Z) (Zs : Zstd).

(** [frame] is one standard zstd frame, no longer than it may be, that decompresses
    to the [raw_len] bytes [raw]. *)
Definition one_frame (raw_len : Z) (frame raw : list Z) : Prop :=
  Z.of_nat (length frame) ≤ compress_bound raw_len ∧
  (4 ≤ length frame)%nat ∧ from_le_bytes (firstn 4 frame) = MAGICNUMBER ∧
  frame_compressed_size Zs frame = Some (Z.of_nat (length frame)) ∧
  decompress_to_buffer Zs (Z.to_nat raw_len) frame = Some raw ∧ Z.of_nat (length raw) = raw_len.

(** It is a header, which says how long the chunk is, and one frame of exactly
    the bytes its name is the hash of. *)
Definition sound_file (id : ChunkId) (f : ChunkFile) : Prop :=
  ∃ raw_len frame raw, content f = CHUNK_MAGIC ++ to_le_bytes 4 raw_len ++ frame ∧
    0 < raw_len ≤ MAX_CHUNK_LEN ∧ one_frame raw_len frame raw ∧ blake3 raw = id.

Lemma decode_iff id raw_len frame raw :
  decode_chunk blake3 Zs id raw_len frame = Ok raw ↔ one_frame raw_len frame raw ∧ blake3 raw = id.
Proof.
  unfold decode_chunk, one_frame. split.
  - destruct (Z.ltb_spec (compress_bound raw_len) (Z.of_nat (length frame))) as [| Hle]; [done |].
    destruct (Nat.leb_spec 4 (length frame)) as [H4 |]; [| done]. cbn [andb].
    destruct (Z.eqb_spec (from_le_bytes (firstn 4 frame)) MAGICNUMBER) as [Em |]; [| done].
    case_bool_decide as Ef; [| done]. cbn [negb orb].
    destruct (decompress_to_buffer Zs (Z.to_nat raw_len) frame) as [r |] eqn:Ed; [| done]. cbn [ok_or result_bind].
    destruct (Z.eqb_spec (Z.of_nat (length r)) raw_len) as [El |]; [| done].
    destruct (Z.eqb_spec (blake3 r) id) as [Eh |]; [| done]. by intros [= <-].
  - intros ((H1 & H2 & H3 & H4 & H5 & H6) & H7). rewrite (proj2 (Z.ltb_ge _ _) H1), (proj2 (Nat.leb_le _ _) H2), H3, Z.eqb_refl.
    cbn [andb negb orb]. rewrite bool_decide_true by done. cbn [negb]. rewrite H5. cbn [ok_or result_bind].
    by rewrite H6, H7, !Z.eqb_refl.
Qed.

Lemma sound_file_iff id f :
  sound_file id f ↔ ∃ raw_len frame raw, content f = chunk_file raw_len frame ∧ 0 < raw_len ≤ MAX_CHUNK_LEN ∧
    decode_chunk blake3 Zs id raw_len frame = Ok raw.
Proof. by setoid_rewrite decode_iff. Qed.

Lemma decode_Ok id raw_len frame raw :
  decode_chunk blake3 Zs id raw_len frame = Ok raw →
  Z.of_nat (length frame) ≤ compress_bound raw_len ∧ Z.of_nat (length raw) = raw_len ∧ blake3 raw = id ∧ (4 ≤ length frame)%nat.
Proof. by intros [(H1 & H2 & _ & _ & _ & H3) Hh]%decode_iff. Qed.

Lemma compress_bound_max n : 0 ≤ n ≤ MAX_CHUNK_LEN → compress_bound n ≤ MAX_COMPRESSED_CHUNK_LEN.
Proof.
  intros Hn. unfold MAX_COMPRESSED_CHUNK_LEN. replace (compress_bound MAX_CHUNK_LEN) with 4210688 by reflexivity.
  unfold compress_bound. change MAX_CHUNK_LEN with 4194304 in Hn. change (128 * 2 ^ 10) with 131072.
  rewrite (Z.shiftr_div_pow2 n 8) by done. change (2 ^ 8) with 256.
  rewrite (Z.shiftr_div_pow2 (131072 - n) 11) by done. change (2 ^ 11) with 2048. cbv zeta.
  pose proof (Z.div_le_mono n 4194304 256 ltac:(lia) ltac:(lia)) as H1. change (4194304 / 256) with 16384 in H1.
  destruct (Z.ltb_spec n 131072); [| lia].
  pose proof (Z.div_le_mono (131072 - n) 131072 2048 ltac:(lia) ltac:(lia)) as H2. change (131072 / 2048) with 64 in H2. lia.
Qed.

Lemma chunk_file_length raw_len frame : length (chunk_file raw_len frame) = (8 + length frame)%nat.
Proof. unfold chunk_file. by rewrite !length_app, to_le_bytes_length. Qed.

Lemma parse_chunk_file_made raw_len frame :
  0 < raw_len ≤ MAX_CHUNK_LEN → Z.of_nat (length frame) ≤ compress_bound raw_len →
  parse_chunk_file (chunk_file raw_len frame) = Ok (raw_len, frame) ∧
  Z.of_nat (length (chunk_file raw_len frame)) ≤ MAX_CHUNK_FILE_LEN.
Proof.
  intros Hr Hf. pose proof (compress_bound_max raw_len ltac:(lia)) as Hmax.
  assert (Z.of_nat (length (chunk_file raw_len frame)) ≤ MAX_CHUNK_FILE_LEN) as Hlen.
  { rewrite chunk_file_length. unfold MAX_CHUNK_FILE_LEN, CHUNK_HEADER_LEN. lia. }
  split; [| done]. unfold parse_chunk_file. rewrite (proj2 (Z.ltb_ge _ _) Hlen).
  rewrite (proj2 (Nat.ltb_ge _ _)) by (rewrite chunk_file_length; unfold CHUNK_HEADER_LEN; lia).
  assert (firstn CHUNK_HEADER_LEN (chunk_file raw_len frame) = CHUNK_MAGIC ++ to_le_bytes 4 raw_len) as ->.
  { unfold chunk_file, CHUNK_HEADER_LEN. rewrite app_assoc, firstn_app, length_app, to_le_bytes_length. cbn [length CHUNK_MAGIC Nat.add Nat.sub].
    rewrite firstn_0, app_nil_r. apply firstn_all2. by rewrite length_app, to_le_bytes_length. }
  assert (skipn CHUNK_HEADER_LEN (chunk_file raw_len frame) = frame) as ->.
  { unfold chunk_file, CHUNK_HEADER_LEN. rewrite app_assoc, skipn_app, length_app, to_le_bytes_length.
    rewrite skipn_all2 by (by rewrite length_app, to_le_bytes_length). done. }
  rewrite bool_decide_true by done. cbn [negb].
  assert (skipn 4 (CHUNK_MAGIC ++ to_le_bytes 4 raw_len) = to_le_bytes 4 raw_len) as -> by done.
  rewrite le_bytes_roundtrip by (unfold MAX_CHUNK_LEN in Hr; lia).
  rewrite (proj2 (Z.eqb_neq _ _)), (proj2 (Z.ltb_ge _ _)) by lia. done.
Qed.

Lemma sound_file_parses id f :
  sound_file id f → ∃ raw_len frame raw,
    (let? (raw_len, frame) := parse_chunk_file (firstn (Z.to_nat (MAX_CHUNK_FILE_LEN + 1)) (content f)) in
     decode_chunk blake3 Zs id raw_len frame) = Ok raw ∧
    Z.of_nat (length raw) = raw_len ∧ blake3 raw = id ∧ content f = chunk_file raw_len frame ∧
    decode_chunk blake3 Zs id raw_len frame = Ok raw ∧ holds_chunk f = true.
Proof.
  intros (raw_len & frame & r & Ec & Hr & Hd)%sound_file_iff. pose proof (decode_Ok _ _ _ _ Hd) as (Hf & Hlen & Hh & H4).
  destruct (parse_chunk_file_made raw_len frame Hr Hf) as [Hp Hl]. exists raw_len, frame, r.
  rewrite Ec, firstn_all2 by lia. rewrite Hp. cbn [result_bind]. split; [done |]. split; [done |]. split; [done |].
  split; [done |]. split; [done |]. unfold holds_chunk, size_of, CHUNK_HEADER_LEN. rewrite Ec, chunk_file_length.
  apply Z.ltb_lt. lia.
Qed.

(** What zstd promises of a frame it made: one standard frame within the bound
    that decompresses to what was compressed. *)
Definition zstd_law : Prop := ∀ data,
  0 < Z.of_nat (length data) ≤ MAX_CHUNK_LEN →
  Z.of_nat (length (compress Zs data)) ≤ compress_bound (Z.of_nat (length data)) ∧ (4 ≤ length (compress Zs data))%nat ∧
  from_le_bytes (firstn 4 (compress Zs data)) = MAGICNUMBER ∧
  frame_compressed_size Zs (compress Zs data) = Some (Z.of_nat (length (compress Zs data))) ∧
  decompress_to_buffer Zs (length data) (compress Zs data) = Some data.

Lemma decode_compressed (Hz : zstd_law) data :
  0 < Z.of_nat (length data) ≤ MAX_CHUNK_LEN →
  decode_chunk blake3 Zs (blake3 data) (Z.of_nat (length data)) (compress Zs data) = Ok data.
Proof.
  intros Hd. destruct (Hz data Hd) as (H1 & H2 & H3 & H4 & H5). apply decode_iff. unfold one_frame. by rewrite Nat2Z.id.
Qed.
End sound.

(** * The invariant *)
Section good.
Context (blake3 : list Z → Z) (Fs : Fields) (Zs : Zstd).
Context (config : StoreConfig) (fails : nat → bool) (named : string → bool).
Hypothesis bound_range : max_bytes config < u64_max.

Record good (s : Store) : Prop := {
  go_sound : ∀ id f, chunk_files s !! id = Some f → sound_file blake3 Zs id f;
  go_count : disk_bytes s ≤ used s;
  go_bound : used s ≤ max_bytes config;
}.

Lemma good_same s s' : chunk_files s' = chunk_files s → used s' = used s → good s → good s'.
Proof. intros E1 E2 [H1 H2 H3]. split; unfold disk_bytes; by rewrite ?E1, ?E2. Qed.

#[local] Instance good_ignores : IgnoresCalls good.
Proof. intros s n. by apply good_same. Qed.

Lemma size_lookup (s : Store) k : 0 ≤ default 0 ((size_of <$> chunk_files s) !! k).
Proof. rewrite lookup_fmap. destruct (chunk_files s !! k); cbn; [unfold size_of; lia | done]. Qed.

Lemma disk_ge s id : default 0 (size_of <$> chunk_files s !! id) ≤ disk_bytes s.
Proof. rewrite <- lookup_fmap. apply (map_sum_ge id). apply size_lookup. Qed.

Lemma disk_nonneg s : 0 ≤ disk_bytes s.
Proof. apply map_sum_nonneg, size_lookup. Qed.

Lemma disk_insert s s' id f :
  chunk_files s' = <[id := f]> (chunk_files s) →
  disk_bytes s' = disk_bytes s - default 0 (size_of <$> chunk_files s !! id) + size_of f.
Proof. intros E. unfold disk_bytes. by rewrite E, fmap_insert, map_sum_insert, lookup_fmap. Qed.

Lemma disk_delete s s' id :
  chunk_files s' = delete id (chunk_files s) →
  disk_bytes s' = disk_bytes s - default 0 (size_of <$> chunk_files s !! id).
Proof. intros E. unfold disk_bytes. by rewrite E, fmap_delete, map_sum_delete, lookup_fmap. Qed.

Lemma insert_good s s' id f used' :
  good s → sound_file blake3 Zs id f → chunk_files s' = <[id := f]> (chunk_files s) → used s' = used' + size_of f →
  used' = saturating_sub_u64 (used s) (default 0 (size_of <$> chunk_files s !! id)) → used' + size_of f ≤ max_bytes config →
  good s'.
Proof.
  intros [H1 H2 H3] Hf E1 E2 E3 E4. pose proof (disk_ge s id) as Hge. unfold saturating_sub_u64 in E3. split.
  - intros id' f'. rewrite E1. destruct (decide (id' = id)) as [-> | ?].
    + rewrite lookup_insert_eq. by intros [= <-].
    + rewrite lookup_insert_ne by done. apply H1.
  - rewrite (disk_insert s s' id f E1), E2, E3. lia.
  - lia.
Qed.

Lemma delete_good s s' id n :
  good s → chunk_files s' = delete id (chunk_files s) → used s' = saturating_sub_u64 (used s) n →
  0 ≤ n ≤ default 0 (size_of <$> chunk_files s !! id) → good s'.
Proof.
  intros [H1 H2 H3] E1 E2 Hn. pose proof (disk_ge s id). unfold saturating_sub_u64 in E2. split.
  - intros id' f'. rewrite E1. intros [_ ?]%lookup_delete_Some. by apply H1.
  - rewrite (disk_delete s s' id E1), E2. lia.
  - pose proof (disk_nonneg s). lia.
Qed.

Lemma commit_good id bytes :
  (∀ n, sound_file blake3 Zs id (MkChunkFile bytes n)) → keeps good (commit config fails id bytes).
Proof.
  intros Hf. unfold commit. cbv zeta. apply keeps_bind; [apply keeps_io, _ |]. intros _. apply keeps_with. intros s H.
  destruct (match chunk_files s !! id with Some f => holds_chunk f | None => false end); [done |].
  set (replaced := match chunk_files s !! id with Some f => size_of f | None => 0 end).
  set (used_ := saturating_sub_u64 (used s) replaced). set (size := Z.of_nat (length bytes)).
  destruct (Z.ltb_spec (max_bytes config) (saturating_add_u64 used_ size)) as [| Hle]; [done |].
  unfold saturating_add_u64 in Hle. assert (used_ + size ≤ max_bytes config) as Hfit by lia.
  assert (replaced = default 0 (size_of <$> chunk_files s !! id)) as Er by (unfold replaced; by destruct (chunk_files s !! id)).
  (* Only the count of calls and the directories change before the rename. *)
  set (Q := λ s', good s' ∧ chunk_files s' = chunk_files s ∧ used s' = used s).
  assert (IgnoresCalls Q) as HQ by (intros s' n (? & ? & ?); by split; [apply (good_same s') |]).
  assert (keeps Q (if bool_decide (fan_of id ∈ fans s) then mret tt
           else _ ← io fails; se_mod (λ s, s <| fans := {[fan_of id]} ∪ fans s |>))) as Hfan.
  { destruct (bool_decide _); [apply keeps_ret |]. apply keeps_bind; [apply keeps_io, _ |]. intros _.
    apply keeps_mod. intros s' (? & ? & ?). split; [by apply (good_same s') | done]. }
  match type of Hfan with keeps _ ?m => set (make := m) in * end.
  pose proof (Hfan s (conj H (conj eq_refl eq_refl))) as H1. unfold mbind at 1, SE_bind at 1.
  destruct (make s) as [s1 [[] | e]]; cbn [fst] in H1; [| apply H1].
  pose proof (keeps_io Q fails s1 H1) as H2. unfold mbind, SE_bind. destruct (io fails s1) as [s2 [[] | e]]; cbn [fst] in H2; [| apply H2].
  destruct H2 as (H2 & E1 & E2). unfold se_mod. cbn.
  eapply (insert_good s2 _ id (MkChunkFile bytes (Z.of_nat (calls s2))) used_); [done | apply Hf | done | done | |].
  - by rewrite E1, E2, <- Er.
  - exact Hfit.
Qed.

Lemma write_chunk_good id raw_len frame raw :
  0 < raw_len ≤ MAX_CHUNK_LEN → decode_chunk blake3 Zs id raw_len frame = Ok raw →
  keeps good (write_chunk config fails id raw_len frame).
Proof.
  intros Hr Hd. unfold write_chunk. do 2 (apply keeps_bind; [apply keeps_io, _ | intros _]). apply commit_good.
  intros n. apply sound_file_iff. by exists raw_len, frame, raw.
Qed.

Lemma discard_good id f :
  ∀ s, good s → chunk_files s !! id = Some f → good (discard fails id (identity f) s).1.
Proof.
  intros s H Hf. unfold discard, mbind, SE_bind, attempt, se_get. cbn. rewrite Hf.
  destruct (fails (calls s)); cbn [negb]; [by apply good_ignores |]. rewrite bool_decide_true by done. cbn [negb].
  unfold io, mbind, SE_bind, attempt. cbn. destruct (fails (S (calls s))); cbn; [by apply (good_same s) |].
  eapply (delete_good s _ id (size_of f)); [done | done | done |]. rewrite Hf. cbn. unfold size_of. lia.
Qed.

Lemma load_good id : keeps good (load blake3 Zs fails id).
Proof.
  apply keeps_with. intros s H. destruct (chunk_files s !! id) as [f |] eqn:Hf.
  2: { apply (keeps_bind good); [by apply keeps_attempt, _ | intros; apply keeps_err | done]. }
  set (Q := λ s', good s' ∧ chunk_files s' !! id = Some f).
  assert (IgnoresCalls Q) as HQ by (intros s' n (? & ?); split; [by apply (good_same s') | done]).
  enough (keeps Q (_ ← io fails; _ ← io fails; _ ← io fails; mret tt)) as Hk.
  { pose proof (Hk s (conj H Hf)) as H1. unfold mbind, SE_bind in H1 |- *.
    destruct (io fails s) as [s1 [[] | e]]; [| apply H1]. destruct (io fails s1) as [s2 [[] | e]]; [| apply H1].
    destruct (io fails s2) as [s3 [[] | e]]; [| apply H1]. destruct H1 as [H1 Hf1]. cbn [fst mret SE_ret] in H1, Hf1.
    cbv zeta. destruct (result_bind _ _); [done |]. pose proof (discard_good id f s3 H1 Hf1) as Hd.
    destruct (discard fails id (identity f) s3) as [s4 [[] | e']]; exact Hd. }
  do 3 (apply keeps_bind; [apply keeps_io, _ | intros _]). apply keeps_ret.
Qed.

Ltac keep :=
  repeat lazymatch goal with
  | |- keeps _ (mret _) => apply keeps_ret
  | |- keeps _ (se_err _) => apply keeps_err
  | |- keeps _ (se_lift _ _) => apply keeps_lift
  | |- keeps _ (io _) => apply keeps_io, _
  | |- keeps _ (attempt _) => apply keeps_attempt, _
  | |- keeps _ (zstd_ready _) => apply keeps_zstd, _
  | |- keeps _ (load _ _ _ _) => apply load_good
  | |- keeps _ (se_mod _) => apply keeps_mod; intros; try by eapply good_same
  | |- keeps _ (se_get ≫= _) => apply keeps_with; intros ? ?
  | |- keeps _ (_ ≫= _) => apply keeps_bind; [| intros]
  end.

(** Lets [keep] go on after the state was read. *)
Lemma keeps_at {A} (m : StoreM A) s : keeps good m → good s → good (m s).1.
Proof. intros Hm. apply Hm. Qed.

Lemma has_good id : keeps good (has fails id).
Proof. unfold has. keep. done. Qed.

Lemma missing_good entries : keeps good (missing_of fails entries).
Proof.
  induction entries as [| e entries IH]; cbn [missing_of]; [keep |]. apply keeps_bind; [apply has_good |]. intros.
  apply keeps_bind; [done |]. intros. keep.
Qed.

Lemma set_records_good record m s : good s → good (set_records record m s).
Proof. intros H. destruct record; by apply (good_same s). Qed.

Lemma write_record_good record m : keeps good (write_record Fs fails record m).
Proof. unfold write_record. do 3 (apply keeps_bind; [keep | intros _]). apply keeps_mod. intros. by apply set_records_good. Qed.

Lemma load_record_good record id : keeps good (load_record blake3 Fs fails record id).
Proof.
  unfold load_record. apply keeps_with. intros s H. apply keeps_at; [| done]. destruct (records record s !! id); [| keep].
  do 2 (apply keeps_bind; [keep | intros _]). cbv zeta. repeat (case_match || keep).
Qed.

Lemma remove_record_good record id : keeps good (remove_record fails record id).
Proof.
  unfold remove_record. apply keeps_with. intros s H. apply keeps_at; [| done]. destruct (records record s !! id); [| keep].
  apply keeps_bind; [keep | intros _]. apply keeps_mod. intros. by apply set_records_good.
Qed.

Lemma list_records_good record : keeps good (list_records fails record).
Proof. unfold list_records. keep. done. Qed.

Lemma promote_good m : keeps good (promote Fs fails m).
Proof.
  unfold promote. apply keeps_with. intros s H. apply keeps_at; [| done]. destruct (pending s !! Manifest.id m).
  - keep. by apply (good_same s0).
  - apply keeps_bind; [keep | intros _; apply write_record_good].
Qed.

Lemma discard_damaged_good entries : keeps good (discard_damaged blake3 Zs fails entries).
Proof.
  induction entries as [| e entries IH]; intros s H; cbn [discard_damaged]; [done |].
  pose proof (load_good (entry_id e) s H) as Hl. destruct (load blake3 Zs fails (entry_id e) s) as [s' [l | err]]; [by apply IH |].
  destruct err; try done; by apply IH.
Qed.

Lemma stream_chunks_good to_file m entries : keeps good (stream_chunks blake3 Zs fails to_file m entries).
Proof.
  induction entries as [| e entries IH]; intros s H; cbn [stream_chunks]; [done |].
  pose proof (load_good (entry_id e) s H) as Hl. destruct (load blake3 Zs fails (entry_id e) s) as [s' [l | err]]; cbn [fst] in Hl.
  - apply keeps_at; [| done]. destruct (negb _); [keep |]. apply keeps_bind; [destruct to_file; keep | intros _].
    apply keeps_bind; [done |]. intros. keep.
  - destruct (is_corrupt err); [| done]. apply keeps_at; [| done].
    apply keeps_bind; [apply discard_damaged_good | intros; keep].
Qed.

Lemma stream_file_good to_file m : keeps good (stream_file blake3 Zs fails to_file m).
Proof.
  unfold stream_file. apply keeps_bind; [keep | intros _]. apply keeps_bind; [apply stream_chunks_good | intros].
  destruct (negb _); keep.
Qed.

Lemma check_complete_good m : keeps good (check_complete fails m).
Proof. unfold check_complete. apply keeps_bind; [apply missing_good | intros]. destruct (negb _); keep. Qed.

Lemma claiming_good {A} dest (m : StoreM A) : keeps good m → keeps good (claiming dest m).
Proof.
  intros Hm s H. unfold claiming. destruct (bool_decide _); [done |].
  pose proof (Hm (s <| assembling := {[dest]} ∪ assembling s |>) ltac:(by apply (good_same s))) as H1.
  destruct (m _) as [s1 r]. by apply (good_same s1).
Qed.

Lemma assemble_good m dest before : keeps good before → keeps good (assemble_then blake3 Zs fails named m dest before).
Proof.
  intros Hb. unfold assemble_then. apply keeps_bind; [keep | intros _]. apply claiming_good.
  apply keeps_bind; [apply check_complete_good | intros _]. destruct (negb _); [keep |]. apply keeps_bind; [keep | intros _].
  apply keeps_bind; [apply stream_file_good | intros]. apply keeps_bind; [keep | intros _].
  apply keeps_bind; [done | intros _]. apply keeps_bind; [keep | intros _]. keep. by apply (good_same s).
Qed.

Lemma verify_good m then_ : keeps good then_ → keeps good (verify_then blake3 Zs fails m then_).
Proof.
  intros Hb. unfold verify_then. apply keeps_bind; [apply check_complete_good | intros _].
  apply keeps_bind; [apply stream_file_good | done].
Qed.

(** ** Collecting *)
Lemma keep_records_good record ids kept stats : keeps good (keep_records blake3 Fs fails record ids kept stats).
Proof.
  revert kept stats. induction ids as [| id ids IH]; intros kept stats s H; cbn [keep_records]; [done |].
  pose proof (load_record_good record id s H) as Hl.
  destruct (load_record blake3 Fs fails record id s) as [s' [m | e]]; [by apply IH |]. destruct e; try done; [by apply IH |].
  apply keeps_at; [| done]. apply keeps_bind; [apply remove_record_good | intros _; apply IH].
Qed.

(** What a sweep does to a store: it takes out files that are not kept, and
    counts what stays. *)
Record swept (keep : gset ChunkId) (s s' : Store) : Prop := {
  sw_files : ∀ id f, chunk_files s' !! id = Some f → chunk_files s !! id = Some f;
  sw_kept : ∀ id, id ∈ keep → chunk_files s' !! id = chunk_files s !! id;
  sw_same : used s' = used s ∧ roots s' = roots s ∧ pending s' = pending s ∧ files s' = files s;
}.

Lemma swept_refl keep s : swept keep s s.
Proof. by split. Qed.

Lemma swept_trans keep s1 s2 s3 : swept keep s1 s2 → swept keep s2 s3 → swept keep s1 s3.
Proof.
  intros [A1 A2 (A3 & A4 & A5 & A6)] [B1 B2 (B3 & B4 & B5 & B6)]. split.
  - intros id f Hf. by apply A1, B1.
  - intros id Hid. by rewrite B2, A2.
  - rewrite B3, B4, B5, B6. done.
Qed.

Lemma sweep_one_ok keep stats s id f :
  chunk_files s !! id = Some f →
  ∃ s' stats', sweep_one fails keep stats id (size_of f) s = (s', Ok stats') ∧ swept keep s s' ∧
    (∀ id', id' ≠ id → chunk_files s' !! id' = chunk_files s !! id') ∧
    disk_bytes s' - disk_bytes s = kept_bytes stats' - kept_bytes stats - size_of f ∧
    (chunk_files s' !! id = None ∨ id ∈ keep ∨ failed_removals stats' = failed_removals stats + 1) ∧
    failed_removals stats ≤ failed_removals stats' ∧ disk_bytes s' ≤ disk_bytes s.
Proof.
  intros Hf. unfold sweep_one. destruct (bool_decide_reflect (id ∈ keep)) as [Hk | Hk].
  - eexists _, _. split; [done |]. cbn [fst kept_bytes failed_removals].
    split; [apply swept_refl |]. split; [done |]. split; [clear Hk; cbn -[size_of]; lia |]. split; [by right; left | clear Hk; cbn; lia].
  - unfold mbind, SE_bind, attempt. cbn -[size_of].
    assert (∀ id', id' ∈ keep → id' ≠ id) as Hne by (by intros id' ? ->). clear Hk. destruct (fails (calls s)); cbn -[size_of].
    + eexists _, _. split; [done |]. cbn -[size_of]. split; [by split |]. split; [done |]. split; [unfold disk_bytes; cbn -[size_of]; lia |].
      split; [by right; right | unfold disk_bytes; cbn; lia].
    + eexists _, _. split; [done |]. cbn -[size_of]. split; [split; cbn |]; [| | done |].
      * by intros id' f' [_ ?]%lookup_delete_Some.
      * intros id' Hid'. rewrite lookup_delete_ne; [done |]. by apply not_eq_sym, Hne.
      * clear Hne. assert (∀ s', chunk_files s' = delete id (chunk_files s) → disk_bytes s' = disk_bytes s - size_of f) as Hd.
        { intros s' E. rewrite (disk_delete s s' id E), Hf. done. }
        split; [intros id' ?; by rewrite lookup_delete_ne |]. rewrite !Hd by done.
        split; [lia |]. split; [left; apply lookup_delete_eq |]. unfold size_of. lia.
Qed.

(** A sweep, over files that are all there. *)
Lemma sweep_ok keep found stats s :
  NoDup found.*1 → (∀ id f, (id, f) ∈ found → chunk_files s !! id = Some f) →
  let '(s', r) := sweep fails keep stats found s in
  swept keep s s' ∧ (∀ id, id ∉ found.*1 → chunk_files s' !! id = chunk_files s !! id) ∧
  disk_bytes s' ≤ disk_bytes s ∧
  match r with
  | Ok stats' =>
      disk_bytes s' - disk_bytes s = kept_bytes stats' - kept_bytes stats - sum_Z (size_of <$> found.*2) ∧
      failed_removals stats ≤ failed_removals stats' ∧
      (failed_removals stats' = failed_removals stats → ∀ id f, (id, f) ∈ found → id ∈ keep ∨ chunk_files s' !! id = None)
  | Err _ => True
  end.
Proof.
  revert stats s. induction found as [| [id f] found IH]; intros stats s Hnd Hin; cbn [sweep].
  { cbn. split; [apply swept_refl |]. split; [done |]. split; [done |]. split; [change (sum_Z _) with 0; lia |]. split; [lia |]. intros _ id f Hx. by apply not_elem_of_nil in Hx. }
  unfold mbind at 1, SE_bind at 1, io, mbind at 1, SE_bind at 1, attempt. set (s0 := s <| calls := S (calls s) |>).
  assert (swept keep s s0) as Hs0 by (by split). destruct (fails (calls s)); cbn [negb].
  { split; [done |]. split; [done |]. by split. }
  unfold mret at 1, SE_ret at 1. cbv iota.
  apply NoDup_cons in Hnd as [Hnot Hnd]. cbn [fmap list_fmap fst] in Hnot.
  assert (chunk_files s !! id = Some f) as Hf by (apply Hin; by left).
  destruct (sweep_one_ok keep stats s0 id f Hf) as (s1 & stats1 & E1 & Hs1 & Hother & Hdisk & Hgone & Hmono & Hless).
  unfold mbind at 1, SE_bind at 1. rewrite E1.
  assert (∀ id' f', (id', f') ∈ found → chunk_files s1 !! id' = Some f') as Hin1.
  { intros id' f' Hx. rewrite Hother; [apply Hin; by right |]. intros ->. destruct Hnot. apply list_elem_of_fmap. by exists (id, f'). }
  specialize (IH stats1 s1 Hnd Hin1). destruct (sweep fails keep stats1 found s1) as [s' r].
  destruct IH as (Hs' & Hout & Hle & Hr). change (disk_bytes s0) with (disk_bytes s) in Hdisk, Hless.
  split; [by eapply swept_trans; [eapply swept_trans |] |].
  split. { intros id' Hx. cbn in Hx. rewrite not_elem_of_cons in Hx. destruct Hx. by rewrite Hout, Hother. }
  split; [lia |]. destruct r as [stats' | e]; [| done].
  destruct Hr as (Hd & Hm & Hz). cbn [fmap list_fmap snd]. rewrite sum_Z_cons. split; [lia |]. split; [lia |].
  intros Hz0 id' f' [[= -> ->] | Hx]%elem_of_cons; [| apply (Hz ltac:(lia) id' f' Hx)].
  destruct Hgone as [Hg | [Hg | Hg]]; [right; by rewrite Hout | by left | lia].
Qed.
(** A saved manifest that can be read back. *)
Definition reads_to (id : ManifestId) (bytes : list Z) (m : Manifest) : Prop :=
  Z.of_nat (length bytes) ≤ MAX_MANIFEST_LEN ∧ from_bytes blake3 Fs bytes = Ok m ∧ Manifest.id m = id.
Definition saved (record : StoreRecord) (s : Store) (m : Manifest) : Prop :=
  ∃ bytes, records record s !! Manifest.id m = Some bytes ∧ reads_to (Manifest.id m) bytes m.

Lemma reads_to_det id bytes m m' : reads_to id bytes m → reads_to id bytes m' → m = m'.
Proof. intros (_ & E & _) (_ & E' & _). congruence. Qed.

Lemma io_cases s : ∃ r, io fails s = (s <| calls := S (calls s) |>, r) ∧ (r = Ok tt ∨ r = Err StoreIo).
Proof. unfold io, mbind, SE_bind, attempt. destruct (fails (calls s)); cbn; eexists; split; try done; [by right | by left]. Qed.

Lemma load_record_cases record id s :
  let '(s', r) := load_record blake3 Fs fails record id s in
  (∃ n, s' = s <| calls := n |>) ∧
  match r with
  | Ok m => ∃ bytes, records record s !! id = Some bytes ∧ reads_to id bytes m
  | Err (DamagedRecord _ _) => ∀ bytes m, records record s !! id = Some bytes → reads_to id bytes m → False
  | Err (UnknownSnapshot _) => records record s !! id = None
  | Err _ => True
  end.
Proof.
  unfold load_record. unfold mbind at 1, SE_bind at 1, se_get. destruct (records record s !! id) as [bytes |] eqn:Hr.
  2: { unfold mbind, SE_bind, attempt, se_err. split; [by eexists | done]. }
  unfold mbind at 1, SE_bind at 1. destruct (io_cases s) as (r1 & -> & [-> | ->]); [| by split; [eexists |]].
  unfold mbind at 1, SE_bind at 1. destruct (io_cases (s <| calls := S (calls s) |>)) as (r2 & -> & [-> | ->]); [| by split; [eexists |]].
  cbv zeta. destruct (Z.ltb_spec MAX_MANIFEST_LEN (Z.of_nat (length (firstn (Z.to_nat (MAX_MANIFEST_LEN + 1)) bytes)))) as [Hlong | Hshort].
  { unfold se_err. split; [by eexists |]. intros b m [= <-] (Hl & _). rewrite firstn_all2 in Hlong by lia. lia. }
  assert (firstn (Z.to_nat (MAX_MANIFEST_LEN + 1)) bytes = bytes) as Ef.
  { apply firstn_all2. rewrite length_firstn in Hshort. unfold MAX_MANIFEST_LEN, HEADER_MAX, ENTRY_MAX, MAX_CHUNKS in *. lia. }
  rewrite Ef in *. destruct (from_bytes blake3 Fs bytes) as [m | e] eqn:Em.
  - destruct (Z.eqb_spec (Manifest.id m) id) as [Eid | Hne]; cbn [negb].
    + split; [by eexists |]. by exists bytes.
    + split; [by eexists |]. intros b m' [= <-] (_ & E & Ei). congruence.
  - split; [by eexists |]. intros b m' [= <-] (_ & E & _). congruence.
Qed.

(** Only records change, and only those that cannot be read. *)
Record tidied (s s' : Store) : Prop := {
  td_files : chunk_files s' = chunk_files s ∧ used s' = used s ∧ files s' = files s;
  td_saved : ∀ record m, saved record s m ↔ saved record s' m;
}.

Lemma tidied_refl s : tidied s s.
Proof. by split. Qed.
Lemma tidied_trans s1 s2 s3 : tidied s1 s2 → tidied s2 s3 → tidied s1 s3.
Proof.
  intros [(A1 & A2 & A3) A4] [(B1 & B2 & B3) B4]. split; [by rewrite B1, B2, B3 |]. intros r m. by rewrite A4.
Qed.
Lemma tidied_calls s n : tidied s (s <| calls := n |>).
Proof. by split. Qed.

Lemma remove_damaged_tidied record id s :
  (∀ bytes m, records record s !! id = Some bytes → reads_to id bytes m → False) →
  tidied s (remove_record fails record id s).1.
Proof.
  intros Hbad. unfold remove_record. unfold mbind at 1, SE_bind at 1, se_get. destruct (records record s !! id) as [bytes |] eqn:Hr.
  2: { apply tidied_calls. }
  unfold mbind, SE_bind. destruct (io_cases s) as (r1 & -> & [-> | ->]); [| apply tidied_calls]. unfold se_mod. cbn [fst].
  split; [by destruct record |]. intros record' m. unfold saved.
  assert (records record' (s <| calls := S (calls s) |>) = records record' s) as Ec by (by destruct record').
  destruct (decide (Manifest.id m = id)) as [<- | Hne].
  - destruct record, record'; cbn in *; rewrite ?lookup_delete_eq; try done.
    all: split; [intros (b & Hb & Hm); rewrite Hr in Hb; destruct (Hbad b m Hb Hm) | by intros (b & ? & _)].
  - destruct record, record'; cbn in *; rewrite ?lookup_delete_ne by done; done.
Qed.

Lemma keep_records_ok record ids kept stats s s' kept' stats' :
  keep_records blake3 Fs fails record ids kept stats s = (s', Ok (kept', stats')) →
  tidied s s' ∧ kept_bytes stats' = kept_bytes stats ∧ failed_removals stats' = failed_removals stats ∧
  (∀ x, x ∈ kept' ↔ x ∈ kept ∨ ∃ m, Manifest.id m ∈ ids ∧ saved record s m ∧ x ∈ chunk_ids m).
Proof.
  revert kept stats s. induction ids as [| id ids IH]; intros kept stats s; cbn [keep_records].
  { intros [= <- <- <-]. split; [apply tidied_refl |]. split; [done |]. split; [done |]. intros x. split; [by left |].
    intros [? | (m & Hm & _)]; [done |]. by apply not_elem_of_nil in Hm. }
  pose proof (load_record_cases record id s) as Hl. destruct (load_record blake3 Fs fails record id s) as [s1 r].
  destruct Hl as [[n ->] Hl]. set (s1 := s <| calls := n |>).
  assert (∀ r m, saved r s1 m ↔ saved r s m) as Hsaved by done.
  destruct r as [m | e].
  - destruct Hl as (bytes & Hb & Hm). intros H. apply IH in H as (Ht & E1 & E2 & Hx).
    split; [eapply tidied_trans; [apply tidied_calls | exact Ht] |]. split; [done |]. split; [done |]. intros x. rewrite Hx, elem_of_union.
    split.
    + intros [[Hk | Hk] | (m' & Hi & Hs & Hk)]; [right | by left | right].
      * exists m. destruct Hm as (H1 & H2 & H3). split; [rewrite H3; by left |]. split; [| done]. exists bytes. by rewrite H3.
      * exists m'. split; [by right |]. done.
    + intros [Hk | (m' & Hi & Hs & Hk)]; [left; by right |]. apply elem_of_cons in Hi as [Hi | Hi]; [| right; by exists m'].
      left. left. destruct Hs as (b' & Hb' & Hm'). rewrite Hi in Hb', Hm'. rewrite Hb in Hb'. injection Hb' as <-.
      by rewrite (reads_to_det _ _ _ _ Hm Hm').
  - destruct e as [| | | | | | | | | | i | i reason | | |]; try done.
    + intros H. apply IH in H as (Ht & E1 & E2 & Hx). split; [eapply tidied_trans; [apply tidied_calls | exact Ht] |].
      split; [done |]. split; [done |]. intros x. rewrite Hx. split; [intros [? | (m' & Hi & Hs & Hk)]; [by left | right] |].
      * exists m'. split; [by right | done].
      * intros [? | (m' & Hi & Hs & Hk)]; [by left | right]. exists m'. split; [| done].
        apply elem_of_cons in Hi as [Hi | Hi]; [| done]. destruct Hs as (b & Hb & _). rewrite Hi, Hl in Hb. done.
    + unfold mbind, SE_bind. pose proof (remove_damaged_tidied record id s1 Hl) as Hrm.
      destruct (remove_record fails record id s1) as [s2 [[] | e]]; [| done]. cbn [fst] in Hrm.
      intros H. apply IH in H as (Ht & E1 & E2 & Hx).
      split; [eapply tidied_trans; [apply (tidied_calls s n) | eapply tidied_trans; [exact Hrm | exact Ht]] |].
      split; [done |]. split; [done |]. intros x. rewrite Hx. split; [intros [? | (m' & Hi & Hs & Hk)]; [by left | right] |].
      * exists m'. split; [by right |]. split; [| done]. apply Hsaved. by apply (td_saved _ _ Hrm).
      * intros [? | (m' & Hi & Hs & Hk)]; [by left | right]. exists m'. apply elem_of_cons in Hi as [Hi | Hi].
        { destruct Hs as (b & Hb & Hm). exfalso. rewrite Hi in Hb, Hm. by eapply Hl. }
        split; [done |]. split; [| done]. apply (td_saved _ _ Hrm). by apply Hsaved.
Qed.

(** Something still refers to the chunk. *)
Definition referenced (live : list Manifest) (s : Store) (id : ChunkId) : Prop :=
  (∃ m, m ∈ live ∧ id ∈ chunk_ids m) ∨ ∃ record m, saved record s m ∧ id ∈ chunk_ids m.

Lemma saved_listed record s m : saved record s m → Manifest.id m ∈ btree_keys (records record s).
Proof. intros (bytes & Hb & _). apply elem_of_btree_keys. by eexists. Qed.

Lemma map_to_list_found (files : gmap ChunkId ChunkFile) :
  NoDup (map_to_list files).*1 ∧ (∀ id f, (id, f) ∈ map_to_list files ↔ files !! id = Some f) ∧
  sum_Z (size_of <$> (map_to_list files).*2) = map_sum (size_of <$> files).
Proof.
  split; [apply NoDup_fst_map_to_list |]. split; [intros; apply elem_of_map_to_list |].
  rewrite map_sum_to_list, map_to_list_fmap. f_equal. rewrite <- !list_fmap_compose. by apply list_fmap_ext.
Qed.

(** The steps of [gc] up to the sweep, and then the sweep. *)
Lemma gc_steps live s s' stats :
  gc blake3 Fs fails live s = (s', Ok stats) →
  ∃ s1 keep stats1 s2, tidied s s1 ∧ kept_bytes stats1 = 0 ∧ failed_removals stats1 = 0 ∧
    (∀ id, id ∈ keep ↔ referenced live s id) ∧
    sweep fails keep stats1 (map_to_list (chunk_files s1)) s1 = (s2, Ok stats) ∧
    chunk_files s' = chunk_files s2 ∧ used s' = kept_bytes stats ∧ roots s' = roots s2 ∧ pending s' = pending s2.
Proof.
  unfold gc, list_records. unfold mbind at 1, SE_bind at 1, mbind at 1, SE_bind at 1. cbv zeta.
  destruct (io_cases s) as (r1 & -> & [-> | ->]); [| done]. unfold mbind at 1, SE_bind at 1, se_get, mret at 1, SE_ret at 1.
  set (s1 := s <| calls := S (calls s) |>). unfold mbind at 1, SE_bind at 1.
  destruct (keep_records blake3 Fs fails RecordRoot _ _ _ s1) as [s2 [[kept2 stats2] | e]] eqn:E2; [| done].
  apply keep_records_ok in E2 as (Ht2 & Ek2 & Ef2 & Hk2). unfold mbind at 1, SE_bind at 1, mbind at 1, SE_bind at 1.
  destruct (io_cases s2) as (r3 & -> & [-> | ->]); [| done]. unfold mbind at 1, SE_bind at 1, mret at 1, SE_ret at 1.
  set (s3 := s2 <| calls := S (calls s2) |>). unfold mbind at 1, SE_bind at 1.
  destruct (keep_records blake3 Fs fails RecordPending _ _ _ s3) as [s4 [[kept4 stats4] | e]] eqn:E4; [| done].
  apply keep_records_ok in E4 as (Ht4 & Ek4 & Ef4 & Hk4). unfold mbind at 1, SE_bind at 1.
  destruct (io_cases s4) as (r5 & -> & [-> | ->]); [| done]. unfold mbind at 1, SE_bind at 1.
  set (s5 := s4 <| calls := S (calls s4) |>). unfold mbind at 1, SE_bind at 1.
  destruct (sweep fails kept4 stats4 (map_to_list (chunk_files s5)) s5) as [s6 [stats6 | e]] eqn:E6; [| done].
  unfold mbind, SE_bind, se_mod, mret, SE_ret.
  destruct (io_cases (s6 <| used := kept_bytes stats6 |>)) as (r7 & -> & [-> | ->]); [| done]. intros [= <- <-].
  assert (tidied s s5) as Ht.
  { eapply tidied_trans; [apply (tidied_calls s) |]. eapply tidied_trans; [exact Ht2 |].
    eapply tidied_trans; [apply tidied_calls |]. eapply tidied_trans; [exact Ht4 | apply tidied_calls]. }
  exists s5, kept4, stats4, s6. split; [done |]. split; [by rewrite Ek4, Ek2 |]. split; [by rewrite Ef4, Ef2 |].
  split; [| done]. intros id. rewrite Hk4, Hk2. unfold referenced. split.
  - intros [[Hl | (m & _ & Hs & Hi)] | (m & _ & Hs & Hi)].
    + left. apply elem_of_union_list in Hl as (X & HX & Hi). apply list_elem_of_fmap in HX as (m & -> & Hm). by exists m.
    + right. by exists RecordRoot, m.
    + right. exists RecordPending, m. split; [| done]. change (saved RecordPending s1 m). by apply (td_saved _ _ Ht2).
  - intros [(m & Hm & Hi) | (record & m & Hs & Hi)].
    + left. left. apply elem_of_union_list. exists (chunk_ids m). split; [| done]. apply list_elem_of_fmap. by exists m.
    + destruct record; [left; right | right]; exists m.
      * split; [by apply saved_listed |]. done.
      * assert (saved RecordPending s3 m) as Hs3 by (change (saved RecordPending s2 m); by apply (td_saved _ _ Ht2)). split; [by apply saved_listed | done].
Qed.

(** What a collection that succeeds leaves. *)
Lemma gc_exact (live : list Manifest) (s s' : Store) (stats : GcStats) :
  gc blake3 Fs fails live s = (s', Ok stats) →
  (∀ id, referenced live s id → chunk_files s' !! id = chunk_files s !! id) ∧
  (failed_removals stats = 0 → ∀ id, is_Some (chunk_files s' !! id) → referenced live s id) ∧
  (∀ id f, chunk_files s' !! id = Some f → chunk_files s !! id = Some f) ∧
  (∀ record m, saved record s m ↔ saved record s' m) ∧
  used s' = disk_bytes s'.
Proof.
  intros H. apply gc_steps in H as (s1 & kept & stats1 & s2 & Ht & Hk0 & Hf0 & Hkept & Hsweep & E1 & E2 & E3 & E4).
  pose proof (map_to_list_found (chunk_files s1)) as (Hnd & Hin & Hsum).
  pose proof (sweep_ok kept _ stats1 s1 Hnd (λ id f, proj1 (Hin id f))) as Hs. rewrite Hsweep in Hs.
  destruct Hs as ([W1 W2 (W3 & W4 & W5 & W6)] & Hout & _ & Hd & Hmono & Hz). destruct (td_files _ _ Ht) as (T1 & T2 & T3).
  assert (∀ record m, saved record s' m ↔ saved record s1 m) as Hsv.
  { intros [] m; unfold saved; cbn; by rewrite ?E3, ?E4, ?W4, ?W5. }
  split; [intros id Hr; apply Hkept in Hr; by rewrite E1, W2, T1 |].
  split; [| split; [intros id f; rewrite E1, <- T1; apply W1 | split]].
  - rewrite E1. intros Hzero id [f Hf]. apply Hkept. destruct (Hz ltac:(lia) id f) as [Hi | Hn]; [| done | congruence].
    apply Hin. by apply W1.
  - intros record m. rewrite Hsv. apply (td_saved _ _ Ht).
  - rewrite E2. unfold disk_bytes at 1. rewrite E1. change (map_sum (size_of <$> chunk_files s2)) with (disk_bytes s2).
    unfold disk_bytes in Hd at 2. rewrite Hsum in Hd. lia.
Qed.

(** garbage collection takes exactly what nothing refers to.  Whatever is in
    the store: after a collection every chunk of a live, retained or unfinished
    snapshot whose manifest can be read is there as it was, and so are all these
    manifests; if every removal worked, nothing else is left; the bytes counted
    are the bytes on disk; and no file appeared. *)
Theorem gc_keeps_referenced (live : list Manifest) (s s' : Store) (stats : GcStats) :
  gc blake3 Fs fails live s = (s', Ok stats) →
  (∀ id, referenced live s id → chunk_files s' !! id = chunk_files s !! id) ∧
  (failed_removals stats = 0 → ∀ id, is_Some (chunk_files s' !! id) → referenced live s id) ∧
  (∀ id f, chunk_files s' !! id = Some f → chunk_files s !! id = Some f) ∧
  (∀ record m, saved record s m ↔ saved record s' m) ∧
  used s' = disk_bytes s'.
Proof. apply gc_exact. Qed.

Lemma swept_good keep s s' : swept keep s s' → disk_bytes s' ≤ disk_bytes s → good s → good s'.
Proof.
  intros [W1 _ (W3 & _)] Hd [H1 H2 H3]. split; [intros id f Hf; by apply H1, W1 | |]; rewrite W3; lia.
Qed.

Lemma sweep_good keep stats s :
  kept_bytes stats = 0 → good s →
  good ((stats ← sweep fails keep stats (map_to_list (chunk_files s));
         _ ← se_mod (λ s, s <| used := kept_bytes stats |>); _ ← io fails; mret stats) s).1.
Proof.
  intros Hk H. pose proof (map_to_list_found (chunk_files s)) as (Hnd & Hin & Hsum).
  pose proof (sweep_ok keep _ stats s Hnd (λ id f, proj1 (Hin id f))) as Hs. unfold mbind at 1, SE_bind at 1.
  destruct (sweep fails keep stats _ s) as [s1 [stats1 | e]]; destruct Hs as (Hw & _ & Hle & Hd); [| by eapply swept_good].
  destruct Hd as (Hd & _). rewrite Hsum in Hd. change (map_sum (size_of <$> chunk_files s)) with (disk_bytes s) in Hd.
  unfold mbind, SE_bind, se_mod. set (s2 := s1 <| used := kept_bytes stats1 |>).
  assert (good s2) as H2.
  { destruct H as [H1 H2 H3]. destruct Hw as [W1 _ _]. split; [intros id f Hf; by apply H1, W1 | |];
      change (disk_bytes s2) with (disk_bytes s1); cbn; lia. }
  destruct (io_cases s2) as (r & -> & [-> | ->]); by apply (good_same s2).
Qed.

Lemma gc_good live : keeps good (gc blake3 Fs fails live).
Proof.
  intros s H. unfold gc, list_records. unfold mbind at 1, SE_bind at 1, mbind at 1, SE_bind at 1. cbv zeta.
  destruct (io_cases s) as (r1 & -> & [-> | ->]); [| by apply (good_same s)]. unfold mbind at 1, SE_bind at 1, se_get, mret at 1, SE_ret at 1.
  set (s1 := s <| calls := S (calls s) |>). assert (good s1) as H1 by (by apply (good_same s)). unfold mbind at 1, SE_bind at 1.
  match goal with |- context [keep_records blake3 Fs fails RecordRoot ?i ?k ?g s1] =>
    pose proof (keep_records_good RecordRoot i k g s1 H1) as H2; destruct (keep_records blake3 Fs fails RecordRoot i k g s1) as [s2 [[kept2 stats2] | e]] eqn:E2 end; [| done].
  apply keep_records_ok in E2 as (_ & Ek2 & _). unfold mbind at 1, SE_bind at 1, mbind at 1, SE_bind at 1. cbn [fst] in H2.
  destruct (io_cases s2) as (r3 & -> & [-> | ->]); [| by apply (good_same s2)]. unfold mbind at 1, SE_bind at 1, mret at 1, SE_ret at 1.
  set (s3 := s2 <| calls := S (calls s2) |>). assert (good s3) as H3 by (by apply (good_same s2)). unfold mbind at 1, SE_bind at 1.
  match goal with |- context [keep_records blake3 Fs fails RecordPending ?i ?k ?g s3] =>
    pose proof (keep_records_good RecordPending i k g s3 H3) as H4; destruct (keep_records blake3 Fs fails RecordPending i k g s3) as [s4 [[kept4 stats4] | e]] eqn:E4 end; [| done].
  apply keep_records_ok in E4 as (_ & Ek4 & _). cbn [fst] in H4. unfold mbind at 1, SE_bind at 1.
  destruct (io_cases s4) as (r5 & -> & [-> | ->]); [| by apply (good_same s4)]. unfold mbind at 1, SE_bind at 1.
  set (s5 := s4 <| calls := S (calls s4) |>). apply sweep_good; [by rewrite Ek4, Ek2 | by apply (good_same s4)].
Qed.


(** ** Ingesting *)
Hypothesis zstd : zstd_law Zs.

(** FastCDC cuts no empty piece, and none longer than any manifest may have. *)
Definition cuts_ok (source : list (result (list Z) unit)) : Prop :=
  ∀ piece, Ok piece ∈ source → 0 < Z.of_nat (length piece) ≤ MAX_CHUNK_LEN.

Lemma next_chunk_cases c :
  match next_chunk blake3 c with
  | (c', Ok (Some chunk)) => ∃ rest, cdc c = Ok (chunk_data chunk) :: rest ∧ cdc c' = rest ∧ chunk_id chunk = blake3 (chunk_data chunk)
  | _ => True
  end.
Proof.
  unfold next_chunk, mbind, SE_bind, se_get, se_mod. destruct (cdc c) as [| [piece | e] rest]; [done | | done]. cbv zeta.
  destruct (_ <? _); [done |]. cbn. by exists rest.
Qed.

Lemma ingest_chunks_good fuel c : cuts_ok (cdc c) → keeps good (ingest_chunks blake3 Zs config fails fuel c).
Proof.
  revert c. induction fuel as [| fuel IH]; intros c Hc; cbn [ingest_chunks]; [keep |].
  pose proof (next_chunk_cases c) as Hn. destruct (next_chunk blake3 c) as [c' [[chunk |] | e]]; [| keep | keep].
  destruct Hn as (rest & E1 & E2 & E3). cbv zeta.
  assert (0 < Z.of_nat (length (chunk_data chunk)) ≤ MAX_CHUNK_LEN) as Hb by (apply Hc; rewrite E1; by left).
  assert (chunk_len (chunk_data chunk) = Z.of_nat (length (chunk_data chunk))) as El.
  { unfold chunk_len. rewrite (proj2 (Z.leb_le _ _)); [done |]. unfold MAX_CHUNK_LEN, u32_max in *. lia. }
  apply keeps_bind; [apply has_good |]. intros there. apply keeps_bind.
  - destruct there; [keep |]. apply keeps_bind; [keep |]. intros [|]; [| keep]. rewrite El, E3.
    eapply write_chunk_good; [done | by apply decode_compressed].
  - intros _. apply keeps_bind; [| intros; keep]. apply IH. intros piece Hp. apply Hc. rewrite E1, <- E2. by right.
Qed.

Lemma ingest_good source p : cuts_ok source → keeps good (ingest blake3 Fs Zs config fails source p).
Proof.
  intros Hc. unfold ingest. apply keeps_bind; [keep | intros _]. apply keeps_bind; [by apply ingest_chunks_good | intros found].
  apply keeps_bind; [keep | intros [total hash]]. apply keeps_bind; [keep | intros m].
  apply keeps_bind; [apply write_record_good | intros _; keep].
Qed.


(** ** Sinks *)
Definition good_sink (k : ChunkSink) : Prop := ∀ id n, sink_lengths k !! id = Some n → 0 < n ≤ MAX_CHUNK_LEN.
Definition good_transfer (t : Transfer) : Prop := good (store t) ∧ good_sink (sink t).
Definition keeps_transfer {A} (m : SinkM A) : Prop := ∀ t, good_transfer t → good_transfer (m t).1.

Lemma kt_ret {A} (a : A) : keeps_transfer (mret a).
Proof. by intros t H. Qed.
Lemma kt_err {A} e : keeps_transfer (se_err (A := A) e).
Proof. by intros t H. Qed.
Lemma kt_lift {A E} w (r : result A E) : keeps_transfer (se_lift w r).
Proof. by intros t H. Qed.
Lemma kt_bind {A B} (m : SinkM A) (k : A → SinkM B) : keeps_transfer m → (∀ a, keeps_transfer (k a)) → keeps_transfer (m ≫= k).
Proof.
  intros Hm Hk t H. specialize (Hm t H). unfold mbind, SE_bind. destruct (m t) as [t1 [a | e]]; [by apply Hk | done].
Qed.
Lemma kt_with {A} (k : Transfer → SinkM A) : (∀ t, good_transfer t → good_transfer (k t t).1) → keeps_transfer (se_get ≫= k).
Proof. intros Hk t H. by apply (Hk t H). Qed.
Lemma kt_at {A} (m : SinkM A) t : keeps_transfer m → good_transfer t → good_transfer (m t).1.
Proof. intros Hm. apply Hm. Qed.
Lemma kt_store {A} (m : StoreM A) : keeps good m → keeps_transfer (in_store m).
Proof. intros Hm t [H1 H2]. unfold in_store. specialize (Hm _ H1). destruct (m (store t)) as [s r]. by split. Qed.
Lemma kt_sink f : (∀ k, sink_lengths (f k) = sink_lengths k) → keeps_transfer (set_sink f).
Proof. intros Hf t [H1 H2]. split; [exact H1 |]. unfold good_sink. cbn. by rewrite Hf. Qed.

Lemma refresh_keeps : keeps_transfer (refresh fails).
Proof.
  apply kt_with. intros t H. apply kt_at; [| done]. apply kt_bind; [apply kt_store, missing_good |]. intros lacking. cbv zeta.
  apply kt_bind; [by apply kt_sink | intros _; apply kt_ret].
Qed.

Lemma first_entries_sub seen entries e : e ∈ first_entries seen entries → e ∈ entries.
Proof.
  revert seen. induction entries as [| e' entries IH]; intros seen; cbn [first_entries]; [done |].
  destruct (bool_decide _); [intros H; right; by eapply IH |]. intros [-> | H]%elem_of_cons; [by left | right; by eapply IH].
Qed.

(** A manifest is always valid: no value of the type is made otherwise. *)
Definition valid (m : Manifest) : Prop := params_ok (params m) ∧ layout (params m) (total_size m) (chunks m).

Lemma valid_lens m e : valid m → e ∈ chunks m → 0 < len e ≤ MAX_CHUNK_LEN.
Proof.
  intros [[_ _ [_ Hmax]] [_ _ _ Hs _]] He. apply sized_lens in Hs. rewrite Forall_forall in Hs. specialize (Hs e He). lia.
Qed.

Lemma new_sink_good m : valid m → good_sink (new_sink m).
Proof.
  intros Hv id n Hn. cbn in Hn. apply elem_of_list_to_map_2, list_elem_of_fmap in Hn as (e & [= -> ->] & He).
  eapply valid_lens; [done |]. by eapply first_entries_sub.
Qed.

Definition start_ok (r : Store * result ChunkSink SinkError) : Prop :=
  good r.1 ∧ match r.2 with Ok k => good_sink k | Err _ => True end.

Lemma start_good s m : good s → valid m → start_ok (start config fails s m).
Proof.
  intros H Hv. unfold start.
  assert (keeps_transfer (_ ← in_store (zstd_ready fails);
    _ ← (if recompress_received config then in_store (zstd_ready fails) else mret tt); _ ← refresh fails; mret tt)) as Hk.
  { apply kt_bind; [apply kt_store; keep | intros _]. apply kt_bind; [destruct (recompress_received config); [apply kt_store; keep | apply kt_ret] |].
    intros _. apply kt_bind; [apply refresh_keeps | intros; apply kt_ret]. }
  pose proof (Hk (MkTransfer s (new_sink m)) (conj H (new_sink_good m Hv))) as [H1 H2].
  match type of H1 with good (store (?m0 _).1) => destruct (m0 (MkTransfer s (new_sink m))) as [t [[] | e]] end;
    split; cbn in *; [done | done | by apply (good_same (store t)) | done].
Qed.

Lemma open_good s m : good s → valid m → start_ok (open_sink Fs config fails s m).
Proof.
  intros H Hv. unfold open_sink, claim_sink. destruct (bool_decide _); [by split |].
  pose proof (write_record_good RecordPending m (s <| open_sinks := {[Manifest.id m]} ∪ open_sinks s |>) ltac:(by apply (good_same s))) as H1.
  unfold save_pending. destruct (write_record Fs fails RecordPending m _) as [s1 [[] | e]]; [by apply start_good |].
  split; [by apply (good_same s1) | done].
Qed.

Hypothesis fields : FieldsLaws Fs.

Lemma resume_good s id : good s → start_ok (resume_sink blake3 Fs config fails s id).
Proof.
  intros H. unfold resume_sink, claim_sink. destruct (bool_decide _); [by split |].
  set (s0 := s <| open_sinks := {[id]} ∪ open_sinks s |>). assert (good s0) as H0 by (by apply (good_same s)).
  pose proof (load_record_good RecordPending id s0 H0) as H1. pose proof (load_record_cases RecordPending id s0) as Hl.
  destruct (load_record blake3 Fs fails RecordPending id s0) as [s1 [m | e]].
  - apply start_good; [done |]. destruct Hl as (_ & bytes & _ & _ & Em & _).
    apply (from_bytes_ok blake3 Fs fields) in Em as [Hm _]. split; apply Hm.
  - split; [by apply (good_same s1) | done].
Qed.

Lemma put_good id frame : keeps_transfer (put_chunk blake3 Zs config fails id frame).
Proof.
  apply kt_with. intros t H. cbv zeta. destruct (finished (sink t)); [done |].
  destruct (sink_lengths (sink t) !! id) as [n |] eqn:En; [| done]. destruct (negb _); [done |].
  pose proof (proj2 H id n En) as Hn. apply kt_at; [| done]. unfold mbind at 1, SE_bind at 1, se_lift.
  intros t' H'. destruct (decode_chunk blake3 Zs id n frame) as [raw | e] eqn:Ed; [| done].
  pose proof (decode_Ok _ _ _ _ _ _ Ed) as (_ & Hlen & Hhash & _).
  apply kt_at; [| done]. apply kt_bind.
  - destruct (recompress_received config).
    + apply kt_bind; [apply kt_store; keep |]. intros [|]; [| apply kt_err]. apply kt_store.
      rewrite <- Hlen, <- Hhash. eapply write_chunk_good; [by rewrite Hlen |]. apply decode_compressed; [done |]. by rewrite Hlen.
    + apply kt_store. by eapply write_chunk_good.
  - intros _. apply kt_bind; [by apply kt_sink | intros _; apply kt_ret].
Qed.

Lemma end_good : keeps_transfer end_sink.
Proof. intros t [H1 H2]. split; [by apply (good_same (store t)) | exact H2]. Qed.

Lemma settle_good r : keeps_transfer (settle fails r).
Proof.
  destruct r as [[] | e]; cbn [settle]; [apply end_good |]. destruct (is_inconsistent e).
  - apply kt_with. intros t H. apply kt_at; [| done]. apply kt_bind; [apply end_good | intros _].
    apply kt_bind; [apply kt_store, remove_record_good | intros _; apply kt_err].
  - intros t H. by apply refresh_keeps.
Qed.

Lemma ending_good final : (∀ m, keeps good (final m)) → keeps_transfer (ending fails final).
Proof.
  intros Hf. apply kt_with. intros t H. destruct (finished (sink t)); [done |]. destruct (negb _); [done |].
  destruct H as [H1 H2]. pose proof (Hf (sink_manifest (sink t)) _ H1) as H3. destruct (final _ (store t)) as [s r].
  apply settle_good. by split.
Qed.

Lemma abandon_good t : good_transfer t → good (abandon fails t).1.
Proof.
  intros [H1 H2]. unfold abandon. destruct (finished (sink t)); [destruct (claim (sink t)); by try apply (good_same (store t)) |].
  pose proof (remove_record_good RecordPending (Manifest.id (sink_manifest (sink t))) _ H1) as H3.
  destruct (remove_record fails RecordPending _ (store t)) as [s [[] | e]]; destruct (claim (sink t)); by try apply (good_same s).
Qed.

Lemma abandon_each_good ids n : keeps good (abandon_each blake3 Fs config fails ids n).
Proof.
  revert n. induction ids as [| id ids IH]; intros n s H; cbn [abandon_each]; [done |].
  pose proof (resume_good s id H) as [H1 H2]. destruct (resume_sink blake3 Fs config fails s id) as [s1 [k | e]]; cbn [fst snd] in *.
  - pose proof (abandon_good (MkTransfer s1 k) (conj H1 H2)) as H3. destruct (abandon fails _) as [s2 [[] | []]]; try (by apply IH); done.
  - destruct e as [| | | | | | e]; try (by apply IH). destruct e; try done; [by apply IH |].
    apply keeps_at; [| done]. apply keeps_bind; [apply remove_record_good | intros _; apply IH].
Qed.

(** ** Any use of a store *)

(** A process, and what it does with its store and the sinks it has open. *)
Inductive StoreOp :=
  | OpIngest (source : list (result (list Z) unit)) (p : ChunkParams)
  | OpRead (id : ChunkId)
  | OpReadCompressed (id : ChunkId)
  | OpManifest (id : ManifestId)
  | OpAssemble (m : Manifest) (dest : string)
  | OpRelease (id : ManifestId)
  | OpGc (live : list Manifest)
  | OpAbandonIdle
  | OpOpen (n : nat) (m : Manifest)
  | OpResume (n : nat) (id : ManifestId)
  | OpPut (n : nat) (id : ChunkId) (frame : list Z)
  | OpRefresh (n : nat)
  | OpFinish (n : nat) (dest : string)
  | OpRetain (n : nat)
  | OpAbandon (n : nat).

Record Process := MkProcess { its_store : Store; sinks : gmap nat ChunkSink }.

Definition on_store {A} (m : StoreM A) (w : Process) : Process := MkProcess (m (its_store w)).1 (sinks w).
Definition on_sink {A} (n : nat) (m : SinkM A) (w : Process) : Process :=
  match sinks w !! n with
  | None => w
  | Some k => let t := (m (MkTransfer (its_store w) k)).1 in MkProcess (store t) (<[n := sink t]> (sinks w))
  end.
Definition on_start (n : nat) (start : Store → Store * result ChunkSink SinkError) (w : Process) : Process :=
  match sinks w !! n with
  | Some _ => w
  | None =>
      match start (its_store w) with
      | (s, Ok k) => MkProcess s (<[n := k]> (sinks w))
      | (s, Err _) => MkProcess s (sinks w)
      end
  end.

Definition use (w : Process) (op : StoreOp) : Process :=
  match op with
  | OpIngest source p => on_store (ingest blake3 Fs Zs config fails source p) w
  | OpRead id => on_store (read_chunk blake3 Zs fails id) w
  | OpReadCompressed id => on_store (read_compressed blake3 Zs fails id) w
  | OpManifest id => on_store (manifest blake3 Fs fails id) w
  | OpAssemble m dest => on_store (assemble blake3 Zs fails named m dest) w
  | OpRelease id => on_store (release fails id) w
  | OpGc live => on_store (gc blake3 Fs fails live) w
  | OpAbandonIdle => on_store (abandon_idle_transfers blake3 Fs config fails) w
  | OpOpen n m => on_start n (λ s, open_sink Fs config fails s m) w
  | OpResume n id => on_start n (λ s, resume_sink blake3 Fs config fails s id) w
  | OpPut n id frame => on_sink n (put_chunk blake3 Zs config fails id frame) w
  | OpRefresh n => on_sink n (refresh fails) w
  | OpFinish n dest => on_sink n (finish_sink blake3 Fs Zs fails named dest) w
  | OpRetain n => on_sink n (retain_sink blake3 Fs Zs fails) w
  | OpAbandon n =>
      match sinks w !! n with
      | None => w
      | Some k => MkProcess (abandon fails (MkTransfer (its_store w) k)).1 (delete n (sinks w))
      end
  end.

(** The types say that much: pieces are FastCDC's, a manifest is valid. *)
Definition op_ok (op : StoreOp) : Prop :=
  match op with
  | OpIngest source _ => cuts_ok source
  | OpOpen _ m => valid m
  | _ => True
  end.

Definition good_process (w : Process) : Prop := good (its_store w) ∧ ∀ n k, sinks w !! n = Some k → good_sink k.

Lemma on_store_good {A} (m : StoreM A) w : keeps good m → good_process w → good_process (on_store m w).
Proof. intros Hm [H1 H2]. split; [by apply Hm | exact H2]. Qed.

Lemma insert_sinks n k (ks : gmap nat ChunkSink) :
  good_sink k → (∀ n k, ks !! n = Some k → good_sink k) → ∀ n' k', <[n := k]> ks !! n' = Some k' → good_sink k'.
Proof.
  intros Hk Hks n' k'. destruct (decide (n' = n)) as [-> |]; [rewrite lookup_insert_eq; by intros [= <-] |].
  rewrite lookup_insert_ne by done. apply Hks.
Qed.

Lemma on_sink_good {A} n (m : SinkM A) w : keeps_transfer m → good_process w → good_process (on_sink n m w).
Proof.
  intros Hm [H1 H2]. unfold on_sink. destruct (sinks w !! n) as [k |] eqn:E; [| by split].
  destruct (Hm (MkTransfer (its_store w) k) (conj H1 (H2 n k E))) as [H3 H4]. split; [exact H3 |]. by apply insert_sinks.
Qed.

Lemma on_start_good n start w : (∀ s, good s → start_ok (start s)) → good_process w → good_process (on_start n start w).
Proof.
  intros Hs [H1 H2]. unfold on_start. destruct (sinks w !! n); [by split |]. destruct (Hs _ H1) as [H3 H4].
  destruct (start (its_store w)) as [s [k | e]]; split; try done. by apply insert_sinks.
Qed.

Lemma manifest_good id : keeps good (manifest blake3 Fs fails id).
Proof.
  intros s H. unfold manifest. pose proof (load_record_good RecordRoot id s H) as H1.
  destruct (load_record blake3 Fs fails RecordRoot id s) as [s1 [m | []]]; try done. by apply load_record_good.
Qed.

Lemma use_good w op : op_ok op → good_process w → good_process (use w op).
Proof.
  intros Hop Hw. destruct op; cbn [use].
  - apply on_store_good; [by apply ingest_good | done].
  - apply on_store_good; [unfold read_chunk; keep | done].
  - apply on_store_good; [unfold read_compressed; keep | done].
  - apply on_store_good; [apply manifest_good | done].
  - apply on_store_good; [apply assemble_good, keeps_ret | done].
  - apply on_store_good; [apply remove_record_good | done].
  - apply on_store_good; [apply gc_good | done].
  - apply on_store_good; [| done]. unfold abandon_idle_transfers.
    apply keeps_bind; [apply list_records_good | intros; apply abandon_each_good].
  - apply on_start_good; [intros s Hs; by apply open_good | done].
  - apply on_start_good; [intros s Hs; by apply resume_good | done].
  - apply on_sink_good; [apply put_good | done].
  - apply on_sink_good; [apply refresh_keeps | done].
  - apply on_sink_good; [apply ending_good; intros m; apply assemble_good, promote_good | done].
  - apply on_sink_good; [apply ending_good; intros m; apply verify_good, promote_good | done].
  - destruct (sinks w !! n) as [k |] eqn:E; [| done]. destruct Hw as [H1 H2].
    split; [apply abandon_good; split; [exact H1 | by eapply H2] |]. intros n' k' Hk. cbn in Hk. apply lookup_delete_Some in Hk as [_ Hk]. by eapply H2.
Qed.

Lemma uses_good ops w : Forall op_ok ops → good_process w → good_process (foldl use w ops).
Proof. intros Hops. revert w. induction Hops as [| op ops Hop _ IH]; intros w Hw; cbn; [done |]. by apply IH, use_good. Qed.

(** C21: a store never holds a chunk that is not what its name says, nor more than
    its bound.  Start from an empty store and use it in any way: ingest, read,
    assemble, collect, take any number of transfers from peers that send whatever
    they like, in any order and as often as they like, with any call of the file
    system failing at any time.  Then every chunk file is one frame that
    decompresses to bytes whose hash is its name, and the bytes on disk are at most
    the bytes counted, which are at most the configured bound. *)
Theorem store_sound (ops : list StoreOp) :
  0 ≤ max_bytes config → Forall op_ok ops →
  let w := foldl use (MkProcess (MkStore ∅ ∅ ∅ ∅ 0 ∅ ∅ ∅ 0) ∅) ops in
  (∀ id f, chunk_files (its_store w) !! id = Some f → sound_file blake3 Zs id f) ∧
  disk_bytes (its_store w) ≤ used (its_store w) ≤ max_bytes config.
Proof.
  intros Hmax Hops w.
  assert (good_process (MkProcess (MkStore ∅ ∅ ∅ ∅ 0 ∅ ∅ ∅ 0) ∅)) as H0.
  { split; [split; cbn; [by intros id f; rewrite lookup_empty | | done] | intros n k Hk; cbn in Hk; by rewrite lookup_empty in Hk].
    unfold disk_bytes. cbn. by rewrite fmap_empty, map_sum_empty. }
  destruct (uses_good ops _ Hops H0) as [[H1 H2 H3] _]. done.
Qed.
End good.

(** * A concrete store

    A hash that tells one file from everything else, and a compression that only
    puts the magic number before the bytes. *)
Module ToyStore.
Definition data : list Z := [1; 2; 3].
Definition entries : list ChunkEntry := [MkChunkEntry 7 0 3].
Definition listing : list Z := encode ConcreteFields.fields DEFAULT 3 7 entries.
Definition hash (bytes : list Z) : Z :=
  if bool_decide (bytes = data) then 7 else if bool_decide (bytes = listing) then 9 else 0.
Definition toy_zstd : Zstd := {|
  compress bytes := [40; 181; 47; 253] ++ bytes;
  decompress_to_buffer room frame :=
    if (length frame <=? room + 4)%nat then Some (skipn 4 frame) else None;
  frame_compressed_size frame := Some (Z.of_nat (length frame));
|}.
Definition config : StoreConfig := MkStoreConfig 1000 false.
Definition empty : Store := MkStore ∅ ∅ ∅ ∅ 0 ∅ ∅ ∅ 0.

(** The manifest of [data], in one chunk. *)
Definition manifest : Manifest := MkManifest DEFAULT 3 7 entries (hash listing).

Lemma toy_laws : zstd_law toy_zstd.
Proof.
  intros bytes Hb. cbn [compress toy_zstd]. split; [| split; [cbn; lia | split; [done | split; [done |]]]].
  - cbn [length app]. unfold compress_bound. rewrite (Z.shiftr_div_pow2 _ 8) by done.
    change (2 ^ 8) with 256. change (128 * 2 ^ 10) with 131072. cbv zeta. set (n := Z.of_nat (length bytes)) in *.
    replace (Z.of_nat (S (S (S (S (length bytes)))))) with (n + 4) by (unfold n; lia).
    pose proof (Z.div_pos n 256 ltac:(lia) ltac:(lia)). destruct (Z.ltb_spec n 131072).
    + rewrite Z.shiftr_div_pow2 by done. change (2 ^ 11) with 2048.
      pose proof (Z.div_pos (131072 - n) 2048 ltac:(lia) ltac:(lia)).
      destruct (Z.le_gt_cases n 122880).
      * pose proof (Z.div_le_lower_bound (131072 - n) 2048 4 ltac:(lia) ltac:(lia)). lia.
      * pose proof (Z.div_le_lower_bound n 256 4 ltac:(lia) ltac:(lia)). lia.
    + pose proof (Z.div_le_lower_bound n 256 4 ltac:(lia) ltac:(lia)). lia.
  - unfold decompress_to_buffer. cbn [toy_zstd]. rewrite (proj2 (Nat.leb_le _ _)); [done |]. rewrite length_app. cbn. lia.
Qed.

Lemma default_ok : params_ok DEFAULT.
Proof. exact (proj2 (proj1 (params_new_iff (32 * 2 ^ 10) (128 * 2 ^ 10) (512 * 2 ^ 10) DEFAULT) eq_refl)). Qed.

Lemma manifest_valid : valid manifest.
Proof.
  split; [exact default_ok |]. apply check_iff; [exact default_ok | done | constructor; [done | constructor] |]. by vm_compute.
Qed.

Definition ops : list StoreOp :=
  [OpIngest [Ok data] DEFAULT; OpOpen 0 manifest; OpPut 0 7 [1]; OpPut 0 7 (compress toy_zstd data); OpFinish 0 "save"; OpGc []].
Definition used_store : Process :=
  foldl (use hash ConcreteFields.fields toy_zstd config (λ _, false) (λ _, true)) (MkProcess empty ∅) ops.

(** Ingested, and then collected: [data] is retained and stays. *)
Definition ingested : Store := (ingest hash ConcreteFields.fields toy_zstd config (λ _, false) [Ok data] DEFAULT empty).1.
Definition collected : Store * result GcStats StoreError := gc hash ConcreteFields.fields (λ _, false) [] ingested.
End ToyStore.

Lemma store_sound_witness :
  (∀ id f, chunk_files (its_store ToyStore.used_store) !! id = Some f → sound_file ToyStore.hash ToyStore.toy_zstd id f) ∧
  disk_bytes (its_store ToyStore.used_store) ≤ used (its_store ToyStore.used_store) ≤ max_bytes ToyStore.config.
Proof.
  apply (store_sound ToyStore.hash ConcreteFields.fields ToyStore.toy_zstd ToyStore.config (λ _, false) (λ _, true));
    [done | apply ToyStore.toy_laws | apply ConcreteFields.laws | done |].
  constructor; [| constructor; [apply ToyStore.manifest_valid | by repeat constructor]].
  intros piece Hp. apply list_elem_of_singleton in Hp as [= ->]. by vm_compute.
Defined.

Lemma gc_keeps_referenced_witness :
  ∃ stats, ToyStore.collected.2 = Ok stats ∧ is_Some (chunk_files ToyStore.collected.1 !! 7) ∧
  (∀ id, referenced ToyStore.hash ConcreteFields.fields [] ToyStore.ingested id →
    chunk_files ToyStore.collected.1 !! id = chunk_files ToyStore.ingested !! id).
Proof.
  destruct ToyStore.collected as [s' r] eqn:E. assert (r = ToyStore.collected.2) as Er by (by rewrite E). vm_compute in Er.
  eexists. split; [exact Er |]. split.
  - replace s' with ToyStore.collected.1 by (by rewrite E). vm_compute. by eexists.
  - rewrite Er in E. exact (proj1 (gc_keeps_referenced _ _ _ _ _ _ _ E)).
Defined.
