(* ===== verification/StoreSpec.v ===== *)
(** What comes out of a chunk store: only files that were checked whole, and the
    file that went in.  A transfer completes in any order and through any
    garbage. *)
From S2P Require Import Prelude Proto Manifest Store Sink StoreInv.
Local Open Scope Z_scope.

(** * What the chunks and the records of a store have nothing to do with *)

(** [P] looks only at the published files and at who has which transfer open. *)
Class Aside (P : Store → Prop) : Prop :=
  aside s s' : files s' = files s → open_sinks s' = open_sinks s → P s → P s'.

#[export] Instance aside_ignores_calls P : Aside P → IgnoresCalls P.
Proof. intros HP s n. by apply aside. Qed.

Section aside.
Context (blake3 : list Z → Z) (Fs : Fields) (Zs : Zstd) (config : StoreConfig) (fails : nat → bool).
Context (P : Store → Prop) {HP : Aside P}.

(** A step that only makes calls, reads the store and changes what [P] ignores. *)
Ltac stays := match goal with H : ?Q ?s |- _ => refine (aside (P := Q) s _ _ _ H); reflexivity end.

Lemma discard_aside id r : keeps P (discard fails id r).
Proof.
  intros s H. unfold discard, mbind, SE_bind, attempt, se_get. cbn. destruct (chunk_files s !! id); [| stays].
  destruct (fails (calls s)); cbn; [stays |]. destruct (bool_decide _); cbn; [| stays].
  unfold io, mbind, SE_bind, attempt. cbn. destruct (fails _); cbn; stays.
Qed.

Lemma load_aside id : keeps P (load blake3 Zs fails id).
Proof.
  apply keeps_with. intros s H. destruct (chunk_files s !! id).
  - apply (keeps_bind P); [apply keeps_io, _ | intros _ | done].
    do 2 (apply keeps_bind; [apply keeps_io, _ | intros _]). cbv zeta. destruct (result_bind _ _); [apply keeps_ret |].
    apply keeps_bind; [apply discard_aside | intros; apply keeps_err].
  - apply (keeps_bind P); [apply keeps_attempt, _ | intros _; apply keeps_err | done].
Qed.

Lemma discard_damaged_aside entries : keeps P (discard_damaged blake3 Zs fails entries).
Proof.
  induction entries as [| e entries IH]; intros s H; cbn [discard_damaged]; [done |].
  pose proof (load_aside (entry_id e) s H) as Hl. destruct (load blake3 Zs fails (entry_id e) s) as [s1 [l | err]]; [by apply IH |].
  destruct err; try done; by apply IH.
Qed.

Lemma stream_chunks_aside to_file m entries : keeps P (stream_chunks blake3 Zs fails to_file m entries).
Proof.
  induction entries as [| e entries IH]; intros s H; cbn [stream_chunks]; [done |].
  pose proof (load_aside (entry_id e) s H) as Hl. destruct (load blake3 Zs fails (entry_id e) s) as [s1 [l | err]]; cbn [fst] in Hl.
  - destruct (negb _); [done |].
    apply (keeps_bind P); [destruct to_file; [apply keeps_io, _ | apply keeps_ret] | intros _ | done].
    apply keeps_bind; [done | intros; apply keeps_ret].
  - destruct (is_corrupt err); [| done].
    apply (keeps_bind P); [apply discard_damaged_aside | intros _; apply keeps_err | done].
Qed.

Lemma stream_file_aside to_file m : keeps P (stream_file blake3 Zs fails to_file m).
Proof.
  apply keeps_bind; [apply keeps_zstd, _ | intros _]. apply keeps_bind; [apply stream_chunks_aside | intros bytes].
  destruct (negb _); [apply keeps_err | apply keeps_ret].
Qed.

Lemma missing_aside entries : keeps P (missing_of fails entries).
Proof.
  induction entries as [| e entries IH]; cbn [missing_of]; [apply keeps_ret |].
  apply keeps_bind; [apply keeps_bind; [apply keeps_io, _ | intros _; apply keeps_with; by intros s1 H1] | intros b].
  apply keeps_bind; [done | intros; apply keeps_ret].
Qed.

Lemma check_complete_aside m : keeps P (check_complete fails m).
Proof.
  apply keeps_bind; [apply missing_aside | intros l]. destruct (negb _); [apply keeps_err | apply keeps_ret].
Qed.

Lemma write_record_aside record m : keeps P (write_record Fs fails record m).
Proof.
  do 3 (apply keeps_bind; [apply keeps_io, _ | intros _]). apply keeps_mod. intros s H. destruct record; stays.
Qed.

Lemma promote_aside m : keeps P (promote Fs fails m).
Proof.
  apply keeps_with. intros s H. destruct (pending s !! Manifest.id m).
  - apply (keeps_bind P); [apply keeps_io, _ | intros _; apply keeps_mod; intros s1 H1; stays | done].
  - apply (keeps_bind P); [apply keeps_attempt, _ | intros _; apply write_record_aside | done].
Qed.

Lemma load_record_aside record id : keeps P (load_record blake3 Fs fails record id).
Proof.
  apply keeps_with. intros s H. destruct (records record s !! id).
  - apply (keeps_bind P); [apply keeps_io, _ | intros _ | done]. apply keeps_bind; [apply keeps_io, _ | intros _]. cbv zeta.
    destruct (_ <? _); [apply keeps_err |]. destruct (from_bytes _ _ _); [| apply keeps_err].
    destruct (negb _); [apply keeps_err | apply keeps_ret].
  - apply (keeps_bind P); [apply keeps_attempt, _ | intros _; apply keeps_err | done].
Qed.

Lemma remove_record_aside record id : keeps P (remove_record fails record id).
Proof.
  apply keeps_with. intros s H. destruct (records record s !! id).
  - apply (keeps_bind P); [apply keeps_io, _ | intros _; apply keeps_mod; intros s1 H1; destruct record; stays | done].
  - apply (keeps_bind P); [apply keeps_attempt, _ | intros _; apply keeps_ret | done].
Qed.

Lemma list_records_aside record : keeps P (list_records fails record).
Proof. apply keeps_bind; [apply keeps_io, _ | intros _; apply keeps_with; by intros]. Qed.

Lemma write_chunk_aside id raw_len frame : keeps P (write_chunk config fails id raw_len frame).
Proof.
  do 2 (apply keeps_bind; [apply keeps_io, _ | intros _]). apply keeps_bind; [apply keeps_io, _ | intros _].
  apply keeps_with. intros s H. destruct (match chunk_files s !! id with Some f => holds_chunk f | None => false end); [done |]. cbv zeta.
  destruct (_ <? _); [done |]. apply (keeps_bind P); [| intros _ | done].
  - destruct (bool_decide _); [apply keeps_ret |]. apply keeps_bind; [apply keeps_io, _ | intros _; apply keeps_mod; intros s1 H1; stays].
  - apply keeps_bind; [apply keeps_io, _ | intros _]. apply keeps_bind; [apply keeps_mod; intros s1 H1; stays | intros _; apply keeps_ret].
Qed.

Lemma verify_aside m then_ : keeps P then_ → keeps P (verify_then blake3 Zs fails m then_).
Proof.
  intros Ht. apply keeps_bind; [apply check_complete_aside | intros _]. apply keeps_bind; [apply stream_file_aside | done].
Qed.
End aside.

(** * Assembling publishes only verified files *)
Section assemble.
Context (blake3 : list Z → Z) (Fs : Fields) (Zs : Zstd).
Context (fails : nat → bool) (named : string → bool).

(** The pieces of the file a manifest describes. *)
Definition pieces_of (entries : list ChunkEntry) (pieces : list (list Z)) : Prop :=
  Forall2 (λ e piece, blake3 piece = entry_id e ∧ Z.of_nat (length piece) = len e) entries pieces.

Lemma decode_verified id f r :
  (let? (raw_len, frame) := parse_chunk_file (firstn (Z.to_nat (MAX_CHUNK_FILE_LEN + 1)) (content f)) in
   decode_chunk blake3 Zs id raw_len frame) = Ok r → blake3 r = id.
Proof. rewrite result_bind_Ok. intros ([n frame] & _ & H). by apply decode_Ok in H as (_ & _ & ? & _). Qed.

Definition same_files (s s' : Store) : Prop := files s' = files s.

#[local] Instance same_files_aside s : Aside (same_files s).
Proof. intros s1 s2 E _ H. unfold same_files in *. congruence. Qed.

Lemma load_verified id s s' l : load blake3 Zs fails id s = (s', Ok l) → blake3 (raw l) = id.
Proof.
  unfold load, mbind at 1, SE_bind at 1, se_get. destruct (chunk_files s !! id) as [f |]; [| done].
  unfold mbind at 1, SE_bind at 1. destruct (io fails s) as [s1 [[] | e]]; [| done].
  unfold mbind at 1, SE_bind at 1. destruct (io fails s1) as [s2 [[] | e]]; [| done].
  unfold mbind at 1, SE_bind at 1. destruct (io fails s2) as [s3 [[] | e]]; [| done]. cbv zeta.
  match goal with |- context [result_bind ?m ?k] => destruct (result_bind m k) as [r | e] eqn:E end.
  - intros [= _ <-]. by apply decode_verified in E.
  - unfold mbind, SE_bind. by destruct (discard _ _ _ _) as [s4 [[] |]].
Qed.

Lemma stream_verified to_file m entries s s' r :
  stream_chunks blake3 Zs fails to_file m entries s = (s', r) →
  files s' = files s ∧ ∀ bytes, r = Ok bytes → ∃ pieces, pieces_of entries pieces ∧ bytes = concat pieces.
Proof.
  revert s s' r. induction entries as [| e entries IH]; intros s s' r; cbn [stream_chunks].
  { intros [= <- <-]. split; [done |]. intros ? [= <-]. exists []. by split; [constructor |]. }
  pose proof (load_aside blake3 Zs fails (same_files s) (entry_id e) s eq_refl) as Hf.
  destruct (load blake3 Zs fails (entry_id e) s) as [s1 [l | err]] eqn:El; cbn [fst] in Hf.
  - apply load_verified in El. destruct (Z.eqb_spec (Z.of_nat (length (raw l))) (len e)) as [Elen |]; cbn [negb].
    2: { intros [= <- <-]. by split. }
    set (s2m := (if to_file then io fails else mret tt) : StoreM unit). unfold mbind at 1, SE_bind at 1.
    assert (files (s2m s1).1 = files s) as Hf2.
    { unfold s2m. destruct to_file; [| exact Hf]. unfold io, mbind, SE_bind, attempt. by destruct (fails (calls s1)). }
    destruct (s2m s1) as [s2 [[] | e2]]; cbn [fst] in Hf2; [| intros [= <- <-]; by split].
    unfold mbind, SE_bind. destruct (stream_chunks blake3 Zs fails to_file m entries s2) as [s3 r3] eqn:Es.
    apply IH in Es as [Hf3 Hp]. destruct r3 as [bytes | e3]; intros [= <- <-]; (split; [congruence |]); [| done].
    intros ? [= <-]. destruct (Hp bytes eq_refl) as (pieces & Hps & ->). exists (raw l :: pieces). by split; [constructor |].
  - destruct (is_corrupt err); [| intros [= <- <-]; by split].
    unfold mbind, SE_bind. pose proof (discard_damaged_aside blake3 Zs fails (same_files s) (unique_chunks m) s1 Hf) as Hd.
    destruct (discard_damaged blake3 Zs fails _ s1) as [s2 [[] | e2]]; cbn [fst] in Hd; intros [= <- <-]; by split.
Qed.

Lemma io_files s s' r : io fails s = (s', r) → files s' = files s.
Proof. unfold io, mbind, SE_bind, attempt. destruct (fails (calls s)); by intros [= <- _]. Qed.

Lemma stream_file_verified to_file m s s' r :
  stream_file blake3 Zs fails to_file m s = (s', r) →
  files s' = files s ∧ ∀ bytes, r = Ok bytes →
    ∃ pieces, pieces_of (chunks m) pieces ∧ bytes = concat pieces ∧ blake3 bytes = file_hash m.
Proof.
  unfold stream_file, zstd_ready, mbind, SE_bind, attempt. destruct (fails (calls s)); cbn [negb]; [by intros [= <- <-] |].
  unfold mret, SE_ret. destruct (stream_chunks blake3 Zs fails to_file m (chunks m) _) as [s1 [bytes | e]] eqn:E;
    apply stream_verified in E as [Hf Hp]; [| intros [= <- <-]; by split].
  destruct (Z.eqb_spec (blake3 bytes) (file_hash m)) as [Eh |]; cbn [negb]; intros [= <- <-]; (split; [exact Hf |]); [| done].
  intros ? [= <-]. destruct (Hp bytes eq_refl) as (pieces & H1 & H2). by exists pieces.
Qed.

(** The steps under the claim on the destination. *)
Lemma publish_verified m dest (before : StoreM unit) s s' (r : result unit StoreError) :
  (∀ s, keeps (same_files s) before) →
  (_ ← check_complete fails m;
   if negb (named dest) then se_err (InvalidDestination dest)
   else
     _ ← io fails;
     bytes ← stream_file blake3 Zs fails true m;
     _ ← io fails; _ ← before; _ ← io fails;
     se_mod (λ s, s <| files := <[dest := bytes]> (files s) |>) : StoreM unit) s = (s', r) →
  match r with
  | Ok _ => ∃ pieces, files s' = <[dest := concat pieces]> (files s) ∧
      blake3 (concat pieces) = file_hash m ∧ pieces_of (chunks m) pieces
  | Err _ => files s' = files s
  end.
Proof.
  intros Hb. unfold mbind at 1, SE_bind at 1. pose proof (check_complete_aside fails (same_files s) m s eq_refl) as H1.
  destruct (check_complete fails m s) as [s1 [[] | e]]; cbn [fst] in H1; [| by intros [= <- <-]].
  destruct (negb (named dest)); [by intros [= <- <-] |]. unfold mbind at 1, SE_bind at 1.
  destruct (io fails s1) as [s2 [[] | e]] eqn:E2; apply io_files in E2; [| intros [= <- <-]; congruence].
  unfold mbind at 1, SE_bind at 1. destruct (stream_file blake3 Zs fails true m s2) as [s3 [bytes | e]] eqn:E3;
    apply stream_file_verified in E3 as [H3 Hp]; [| intros [= <- <-]; congruence].
  unfold mbind at 1, SE_bind at 1. destruct (io fails s3) as [s4 [[] | e]] eqn:E4; apply io_files in E4; [| intros [= <- <-]; congruence].
  unfold mbind at 1, SE_bind at 1. pose proof (Hb s4 s4 eq_refl) as H5.
  destruct (before s4) as [s5 [[] | e]]; cbn [fst] in H5; unfold same_files in *; [| intros [= <- <-]; congruence].
  unfold mbind, SE_bind. destruct (io fails s5) as [s6 [[] | e]] eqn:E6; apply io_files in E6; [| intros [= <- <-]; congruence].
  intros [= <- <-]. destruct (Hp bytes eq_refl) as (pieces & H7 & -> & H8). exists pieces. split; [| done]. cbn.
  f_equal. congruence.
Qed.

(** However an assembly ends. *)
Lemma publish_then (m : Manifest) (dest : string) (before : StoreM unit) (s : Store) :
  before = mret tt ∨ before = promote Fs fails m →
  let '(s', r) := assemble_then blake3 Zs fails named m dest before s in
  match r with
  | Ok _ => ∃ pieces, files s' = <[dest := concat pieces]> (files s) ∧
      blake3 (concat pieces) = file_hash m ∧ pieces_of (chunks m) pieces
  | Err _ => files s' = files s
  end.
Proof.
  intros Hb. assert (∀ s, keeps (same_files s) before) as Hk
    by (destruct Hb as [-> | ->]; intros s0; [apply keeps_ret | apply promote_aside, _]).
  unfold assemble_then. unfold mbind at 1, SE_bind at 1. destruct (io fails s) as [s1 [[] | e]] eqn:E1; apply io_files in E1; [| exact E1].
  unfold claiming. destruct (bool_decide (dest ∈ assembling s1)); [exact E1 |].
  match goal with |- context [?body (s1 <| assembling := _ |>)] => destruct (body (s1 <| assembling := {[dest]} ∪ assembling s1 |>)) as [s2 r] eqn:E2 end.
  apply publish_verified in E2; [| exact Hk]. destruct r; cbn in *; rewrite <- E1; exact E2.
Qed.

(** a published file is always complete and verified.  Whatever state the
    store is in and whatever fails: an assembly that succeeds leaves at its
    destination, and nowhere else, bytes that are the manifest's chunks in order,
    each with the hash and the length the manifest gives it, and that have the
    manifest's file hash; one that fails changes no published file at all. *)
Theorem published_verified (m : Manifest) (dest : string) (before : StoreM unit) (s : Store) :
  before = mret tt ∨ before = promote Fs fails m →
  let '(s', r) := assemble_then blake3 Zs fails named m dest before s in
  match r with
  | Ok _ => ∃ pieces, files s' = <[dest := concat pieces]> (files s) ∧
      blake3 (concat pieces) = file_hash m ∧ pieces_of (chunks m) pieces
  | Err _ => files s' = files s
  end.
Proof. apply publish_then. Qed.
End assemble.

(** * A store whose calls work *)

(** The entries [unique_chunks] lists have distinct ids, all there are. *)
Lemma first_entries_ids seen entries :
  NoDup (entry_id <$> first_entries seen entries) ∧
  (∀ e, e ∈ first_entries seen entries → entry_id e ∉ seen) ∧
  (∀ e, e ∈ entries → entry_id e ∈ seen ∨ ∃ e', e' ∈ first_entries seen entries ∧ entry_id e' = entry_id e).
Proof.
  revert seen. induction entries as [| e entries IH]; intros seen; cbn [first_entries].
  { split; [constructor |]. split; by intros ? ?%elem_of_nil. }
  destruct (bool_decide_reflect (entry_id e ∈ seen)) as [Hs | Hs].
  - destruct (IH seen) as (H1 & H2 & H3). split; [done |]. split; [done |]. intros e' [-> | He]%elem_of_cons; [by left | by apply H3].
  - destruct (IH ({[entry_id e]} ∪ seen)) as (H1 & H2 & H3). split; [| split].
    + rewrite fmap_cons. apply NoDup_cons. split; [| done]. intros (e' & E & He')%list_elem_of_fmap.
      apply (H2 e' He'). rewrite <- E. set_solver.
    + intros e' [-> | He']%elem_of_cons; [done |]. specialize (H2 e' He'). set_solver.
    + intros e' [-> | He']%elem_of_cons; [right; exists e; split; [by left | done] |].
      destruct (H3 e' He') as [Hin | (e2 & He2 & E)].
      * apply elem_of_union in Hin as [Hin | Hin]; [| by left]. apply elem_of_singleton in Hin.
        right. exists e. split; [by left | done].
      * right. exists e2. split; [by right | done].
Qed.

Lemma filter_none {A} (f : A → bool) l : (∀ x, x ∈ l → f x = false) → List.filter f l = [].
Proof.
  induction l as [| x l IH]; intros H; cbn; [done |]. rewrite (H x) by (by left). apply IH. intros y Hy. apply H. by right.
Qed.

(** One step of an operation that works. *)
Lemma bind_Ok {A B} (m : StoreM A) (k : A → StoreM B) s s1 a : m s = (s1, Ok a) → (m ≫= k) s = k a s1.
Proof. intros E. unfold mbind, SE_bind. by rewrite E. Qed.

Section works.
Context (blake3 : list Z → Z) (Fs : Fields) (Zs : Zstd) (config : StoreConfig) (named : string → bool).
Context (bound_range : max_bytes config < u64_max) (zstd : zstd_law Zs).

Definition never : nat → bool := λ _, false.

(** Nothing else has the hash of one of these pieces. *)
Definition unforgeable (pieces : list (list Z)) : Prop :=
  ∀ piece r, piece ∈ pieces → blake3 r = blake3 piece → r = piece.

Lemma io_works s : io never s = (s <| calls := S (calls s) |>, Ok tt).
Proof. reflexivity. Qed.
Lemma zstd_works s : zstd_ready never s = (s <| calls := S (calls s) |>, Ok tt).
Proof. reflexivity. Qed.

Definition there (s : Store) (id : ChunkId) : bool :=
  match chunk_files s !! id with Some f => holds_chunk f | None => false end.

Lemma has_works id s : ∃ n, has never id s = (s <| calls := n |>, Ok (there s id)).
Proof. eexists. unfold has, io, mbind, SE_bind, attempt, se_get. cbn. reflexivity. Qed.

Lemma missing_works entries s :
  ∃ n, missing_of never entries s = (s <| calls := n |>, Ok (List.filter (λ e, negb (there s (entry_id e))) entries)).
Proof.
  revert s. induction entries as [| e entries IH]; intros s; cbn [missing_of].
  - exists (calls s). by destruct s.
  - unfold mbind at 1, SE_bind at 1. destruct (has_works (entry_id e) s) as [n ->]. unfold mbind, SE_bind.
    destruct (IH (s <| calls := n |>)) as [n' ->]. exists n'. cbn. by destruct (there s (entry_id e)).
Qed.

Lemma there_sound s id : (∀ id f, chunk_files s !! id = Some f → sound_file blake3 Zs id f) →
  there s id = bool_decide (is_Some (chunk_files s !! id)).
Proof.
  intros H. unfold there. destruct (chunk_files s !! id) as [f |] eqn:E.
  - destruct (sound_file_parses _ _ _ _ (H id f E)) as (? & ? & ? & _ & _ & _ & _ & _ & ->). by rewrite bool_decide_true.
  - rewrite bool_decide_false; [done |]. by intros [].
Qed.

Lemma load_works s id f :
  sound_file blake3 Zs id f → chunk_files s !! id = Some f →
  ∃ n l, load blake3 Zs never id s = (s <| calls := n |>, Ok l) ∧ blake3 (raw l) = id.
Proof.
  intros Hs Hf. destruct (sound_file_parses _ _ _ _ Hs) as (raw_len & frame & r & Hp & _ & Hh & _).
  unfold load, mbind, SE_bind, se_get. rewrite Hf. unfold io, mbind, SE_bind, attempt. cbn [negb never].
  unfold mret, SE_ret. cbv zeta. rewrite Hp. eexists _, _. split; [reflexivity | done].
Qed.

Lemma stream_works m entries pieces s :
  (∀ id f, chunk_files s !! id = Some f → sound_file blake3 Zs id f) →
  (∀ e, e ∈ entries → is_Some (chunk_files s !! entry_id e)) →
  pieces_of blake3 entries pieces → unforgeable pieces → ∀ to_file,
  ∃ n, stream_chunks blake3 Zs never to_file m entries s = (s <| calls := n |>, Ok (concat pieces)).
Proof.
  intros Hsound Hall Hp Hu to_file. revert s Hsound Hall. induction Hp as [| e piece entries pieces [He Hl] Hp IH]; intros s Hsound Hall.
  { exists (calls s). by destruct s. }
  cbn [stream_chunks concat]. destruct (Hall e ltac:(by left)) as [f Hf].
  destruct (load_works s (entry_id e) f (Hsound _ _ Hf) Hf) as (n & l & -> & Hh).
  assert (raw l = piece) as -> by (apply Hu; [by left | congruence]). rewrite Hl, Z.eqb_refl. cbn [negb].
  assert (unforgeable pieces) as Hu' by (intros q r Hq; apply Hu; by right).
  assert (∃ n1, ((if to_file then io never else mret tt) : StoreM unit) (s <| calls := n |>) = (s <| calls := n1 |>, Ok tt)) as [n1 E1]
    by (destruct to_file; by eexists).
  unfold mbind at 1, SE_bind at 1. rewrite E1. unfold mbind, SE_bind.
  destruct (IH Hu' (s <| calls := n1 |>)) as [n2 ->]; [done | intros e' He'; apply Hall; by right |]. by exists n2.
Qed.

(** The manifest describes the file made of these pieces. *)
Definition describes (m : Manifest) (pieces : list (list Z)) : Prop :=
  pieces_of blake3 (chunks m) pieces ∧ blake3 (concat pieces) = file_hash m.

Lemma complete_works m s :
  (∀ id f, chunk_files s !! id = Some f → sound_file blake3 Zs id f) →
  (∀ e, e ∈ chunks m → is_Some (chunk_files s !! entry_id e)) →
  ∃ n, check_complete never m s = (s <| calls := n |>, Ok tt).
Proof.
  intros Hsound Hall. unfold check_complete, missing, mbind, SE_bind. destruct (missing_works (unique_chunks m) s) as [n ->].
  rewrite filter_none by (intros e He; rewrite there_sound by done; rewrite bool_decide_true; [done |]; by eapply Hall, first_entries_sub).
  by exists n.
Qed.

Lemma promote_works m s :
  ∃ s', promote Fs never m s = (s', Ok tt) ∧ files s' = files s ∧ is_Some (roots s' !! Manifest.id m) ∧
    (pending s !! Manifest.id m = Some (to_bytes Fs m) ∨ pending s !! Manifest.id m = None → roots s' !! Manifest.id m = Some (to_bytes Fs m)).
Proof.
  unfold promote, mbind, SE_bind, se_get. destruct (pending s !! Manifest.id m) as [bytes |] eqn:E.
  - eexists. split; [reflexivity |]. cbn. rewrite lookup_insert_eq. split; [done |]. split; [by eexists |]. by intros [[= ->] | ?].
  - eexists. split; [reflexivity |]. cbn. rewrite lookup_insert_eq. split; [done |]. split; [by eexists |]. done.
Qed.

(** Every chunk file is sound, and every chunk of [m] is there. *)
Record ready (m : Manifest) (s : Store) : Prop := {
  re_sound : ∀ id f, chunk_files s !! id = Some f → sound_file blake3 Zs id f;
  re_all : ∀ e, e ∈ chunks m → is_Some (chunk_files s !! entry_id e);
}.

Lemma ready_same m s s' : chunk_files s' = chunk_files s → ready m s → ready m s'.
Proof. intros E [H1 H2]. split; by rewrite E. Qed.

Lemma file_works to_file m pieces s :
  ready m s → describes m pieces → unforgeable pieces →
  ∃ n, stream_file blake3 Zs never to_file m s = (s <| calls := n |>, Ok (concat pieces)).
Proof.
  intros [Hsound Hall] [Hp Hh] Hu. unfold stream_file. rewrite (bind_Ok _ _ _ _ _ (zstd_works s)).
  edestruct (stream_works m (chunks m) pieces (s <| calls := S (calls s) |>)) as [n E]; [done.. |].
  rewrite (bind_Ok _ _ _ _ _ E), Hh, Z.eqb_refl. by exists n.
Qed.

Lemma assemble_works m pieces dest (before : StoreM unit) s :
  ready m s → describes m pieces → unforgeable pieces → named dest = true → dest ∉ assembling s →
  (∀ s1, ∃ s2, before s1 = (s2, Ok tt)) →
  ∃ s1 s2 s', before s1 = (s2, Ok tt) ∧ pending s1 = pending s ∧ roots s1 = roots s ∧
    assemble_then blake3 Zs never named m dest before s = (s', Ok tt) ∧
    files s' !! dest = Some (concat pieces) ∧ roots s' = roots s2 ∧ pending s' = pending s2.
Proof.
  intros Hready Hdes Hu Hn Hd Hb. unfold assemble_then. rewrite (bind_Ok _ _ _ _ _ (io_works s)). unfold claiming.
  set (s1 := s <| calls := S (calls s) |>). rewrite bool_decide_false by done. set (s2 := s1 <| assembling := {[dest]} ∪ assembling s1 |>).
  destruct Hready as [Hsound Hall]. destruct (complete_works m s2) as [n3 E3]; [done.. |]. rewrite (bind_Ok _ _ _ _ _ E3), Hn. cbn [negb].
  set (s3 := s2 <| calls := n3 |>). rewrite (bind_Ok _ _ _ _ _ (io_works s3)). set (s4 := s3 <| calls := S (calls s3) |>).
  destruct (file_works true m pieces s4) as [n5 E5]; [by split | done.. |]. rewrite (bind_Ok _ _ _ _ _ E5).
  set (s5 := s4 <| calls := n5 |>). rewrite (bind_Ok _ _ _ _ _ (io_works s5)). set (s6 := s5 <| calls := S (calls s5) |>).
  destruct (Hb s6) as [s7 E7]. rewrite (bind_Ok _ _ _ _ _ E7), (bind_Ok _ _ _ _ _ (io_works s7)). unfold se_mod.
  exists s6, s7. eexists. split; [exact E7 |]. split; [done |]. split; [done |]. split; [reflexivity |]. cbn.
  by rewrite lookup_insert_eq.
Qed.

(** ** Storing a chunk *)
Lemma write_works id raw_len frame s :
  chunk_files s !! id = None → 0 ≤ used s → used s + Z.of_nat (length (chunk_file raw_len frame)) ≤ max_bytes config →
  ∃ s', write_chunk config never id raw_len frame s = (s', Ok true) ∧
    (∃ t, chunk_files s' = <[id := MkChunkFile (chunk_file raw_len frame) t]> (chunk_files s)) ∧
    used s' = used s + Z.of_nat (length (chunk_file raw_len frame)) ∧
    roots s' = roots s ∧ pending s' = pending s ∧ files s' = files s ∧ assembling s' = assembling s.
Proof.
  intros Hnone Hpos Hfit. unfold write_chunk. rewrite (bind_Ok _ _ _ _ _ (io_works s)).
  set (s1 := s <| calls := S (calls s) |>). rewrite (bind_Ok _ _ _ _ _ (io_works s1)). set (s2 := s1 <| calls := S (calls s1) |>).
  unfold commit. rewrite (bind_Ok _ _ _ _ _ (io_works s2)). set (s3 := s2 <| calls := S (calls s2) |>). cbv zeta.
  unfold mbind at 1, SE_bind at 1, se_get. change (chunk_files s3) with (chunk_files s). rewrite Hnone.
  change (used s3) with (used s). unfold saturating_sub_u64. rewrite Z.sub_0_r, Z.max_l by done.
  unfold saturating_add_u64. rewrite (proj2 (Z.ltb_ge _ _)) by lia. set (size := Z.of_nat (length (chunk_file raw_len frame))) in *.
  destruct (bool_decide _).
  - unfold mbind, SE_bind, mret, SE_ret, se_mod. rewrite io_works. eexists. split; [reflexivity |]. cbn. split; [by eexists | done].
  - unfold mbind, SE_bind, mret, SE_ret, se_mod. rewrite io_works. cbv iota beta. rewrite io_works. eexists. split; [reflexivity |]. cbn.
    split; [by eexists | done].
Qed.

(** ** A transfer under way *)
Definition room_for (e : ChunkEntry) : Z := Z.of_nat CHUNK_HEADER_LEN + compress_bound (len e).
Definition lacks (s : Store) (e : ChunkEntry) : bool := bool_decide (chunk_files s !! entry_id e = None).
Definition room_needed (s : Store) (entries : list ChunkEntry) : Z := sum_Z (room_for <$> List.filter (lacks s) entries).

Record going (m : Manifest) (t : Transfer) : Prop := {
  gn_good : good blake3 Zs config (store t);
  gn_manifest : sink_manifest (sink t) = m;
  gn_unique : unique (sink t) = unique_chunks m;
  gn_lengths : sink_lengths (sink t) = list_to_map ((λ e, (entry_id e, len e)) <$> unique_chunks m);
  gn_open : finished (sink t) = false;
  gn_missing : ∀ id, id ∈ sink_missing (sink t) ↔
    (∃ e, e ∈ unique_chunks m ∧ entry_id e = id) ∧ chunk_files (store t) !! id = None;
  gn_room : used (store t) + room_needed (store t) (unique_chunks m) ≤ max_bytes config;
  gn_pending : pending (store t) !! Manifest.id m = Some (to_bytes Fs m);
}.

Lemma unique_NoDup m : NoDup (entry_id <$> unique_chunks m).
Proof. apply first_entries_ids. Qed.

Lemma lengths_lookup m id n :
  list_to_map (M := gmap ChunkId Z) ((λ e, (entry_id e, len e)) <$> unique_chunks m) !! id = Some n ↔
  ∃ e, e ∈ unique_chunks m ∧ entry_id e = id ∧ len e = n.
Proof.
  rewrite <- elem_of_list_to_map.
  - rewrite list_elem_of_fmap. split.
    + intros (e & [= -> ->] & He). by exists e.
    + intros (e & He & <- & <-). by exists e.
  - rewrite <- list_fmap_compose. apply unique_NoDup.
Qed.

Lemma compress_bound_nonneg n : 0 ≤ n → 0 ≤ compress_bound n.
Proof.
  intros Hn. unfold compress_bound. rewrite (Z.shiftr_div_pow2 n 8) by done. pose proof (Z.div_pos n (2 ^ 8) Hn ltac:(done)).
  destruct (Z.ltb_spec n (128 * 2 ^ 10)); [| lia]. rewrite Z.shiftr_div_pow2 by done.
  pose proof (Z.div_pos (128 * 2 ^ 10 - n) (2 ^ 11) ltac:(lia) ltac:(done)). lia.
Qed.

(** Storing one of the chunks takes its share of the room. *)
Lemma room_taken s s' id f entries :
  chunk_files s' = <[id := f]> (chunk_files s) → chunk_files s !! id = None → NoDup (entry_id <$> entries) →
  ∀ e, e ∈ entries → entry_id e = id → room_needed s' entries = room_needed s entries - room_for e.
Proof.
  intros E Hnone Hnd e He <-. unfold room_needed. induction entries as [| e' entries IH]; [by apply elem_of_nil in He |].
  rewrite fmap_cons in Hnd. apply NoDup_cons in Hnd as [Hnot Hnd]. cbn [List.filter].
  assert (∀ e0, entry_id e0 ≠ entry_id e → lacks s' e0 = lacks s e0) as Hother.
  { intros e0 Hne. unfold lacks. by rewrite E, lookup_insert_ne. }
  apply elem_of_cons in He as [<- | He].
  - assert (lacks s e = true) as -> by (unfold lacks; by rewrite bool_decide_true).
    assert (lacks s' e = false) as -> by (unfold lacks; rewrite E, lookup_insert_eq; by rewrite bool_decide_false).
    rewrite fmap_cons, sum_Z_cons. rewrite (filter_ext_in (lacks s') (lacks s)); [lia |].
    intros e0 He0. apply Hother. intros Eq. apply Hnot. rewrite <- Eq. apply list_elem_of_fmap. exists e0. split; [done |]. by apply list_elem_of_In.
  - assert (entry_id e' ≠ entry_id e) as Hne.
    { intros Eq. apply Hnot. rewrite Eq. apply list_elem_of_fmap. by exists e. }
    rewrite Hother by done. destruct (lacks s e'); rewrite ?fmap_cons, ?sum_Z_cons, IH by done; lia.
Qed.

(** A frame the sink accepts takes no more than the room of its chunk, compressed
    again or not. *)
Lemma own_frame id n frame r :
  0 < n ≤ MAX_CHUNK_LEN → decode_chunk blake3 Zs id n frame = Ok r →
  ∃ r', decode_chunk blake3 Zs id n (if recompress_received config then compress Zs r else frame) = Ok r'.
Proof.
  intros Hn Hd. pose proof (decode_Ok _ _ _ _ _ _ Hd) as (_ & Hlen & Hh & _). destruct (recompress_received config); [| by eexists].
  exists r. rewrite <- Hlen, <- Hh. apply decode_compressed; [done |]. by rewrite Hlen.
Qed.

Lemma room_nonneg s entries : Forall (λ e, 0 ≤ len e) entries → 0 ≤ room_needed s entries.
Proof.
  intros Hl. unfold room_needed. apply sum_Z_nonneg, Forall_fmap, Forall_forall. intros e He%list_elem_of_In.
  apply filter_In in He as [He _]. apply list_elem_of_In in He. rewrite Forall_forall in Hl. specialize (Hl e He).
  unfold room_for. cbn. pose proof (compress_bound_nonneg (len e) Hl). unfold CHUNK_HEADER_LEN. lia.
Qed.

Lemma room_ge s e entries : Forall (λ e, 0 ≤ len e) entries → e ∈ entries → lacks s e = true → room_for e ≤ room_needed s entries.
Proof.
  intros Hl He Hlack. unfold room_needed. induction Hl as [| e' entries He' Hl IH]; [by apply elem_of_nil in He |]. cbn [List.filter].
  pose proof (room_nonneg s entries Hl) as H0. unfold room_needed in H0.
  assert (0 ≤ room_for e') by (unfold room_for, CHUNK_HEADER_LEN; pose proof (compress_bound_nonneg (len e') He'); lia).
  apply elem_of_cons in He as [<- | He].
  - rewrite Hlack, fmap_cons, sum_Z_cons. lia.
  - specialize (IH He). destruct (lacks s e'); rewrite ?fmap_cons, ?sum_Z_cons; lia.
Qed.

(** What a sink does with a frame it accepts. *)
Lemma put_stores m t id n frame r :
  valid m → going m t → (∃ e, e ∈ unique_chunks m ∧ entry_id e = id ∧ len e = n) → id ∈ sink_missing (sink t) →
  decode_chunk blake3 Zs id n frame = Ok r →
  ∃ s' p, put_chunk blake3 Zs config never id frame t
    = (MkTransfer s' ((sink t) <| sink_missing := sink_missing (sink t) ∖ {[id]} |> <| progress := p |>), Ok p) ∧
    going m (MkTransfer s' ((sink t) <| sink_missing := sink_missing (sink t) ∖ {[id]} |> <| progress := p |>)) ∧
    assembling s' = assembling (store t).
Proof.
  intros Hv Hg (e & He & Eid & Elen) Hmiss Hd. pose proof Hg as [Hgood Em Eu El Eo Emi Ero Epe].
  pose proof (first_entries_sub _ _ _ He) as Hec. pose proof (valid_lens m e Hv Hec) as Hn. rewrite Elen in Hn.
  destruct (own_frame id n frame r Hn Hd) as [r' Hd']. set (own := if recompress_received config then compress Zs r else frame) in *.
  pose proof (decode_Ok _ _ _ _ _ _ Hd') as (Hown & _). apply Emi in Hmiss as Hx. destruct Hx as [_ Hnone].
  assert (Forall (λ e, 0 ≤ len e) (unique_chunks m)) as Hlens.
  { apply Forall_forall. intros e0 He0%first_entries_sub. pose proof (valid_lens m e0 Hv He0). lia. }
  pose proof (room_ge (store t) e (unique_chunks m) Hlens He ltac:(unfold lacks; by rewrite Eid, bool_decide_true)) as Hroom.
  assert (Z.of_nat (length (chunk_file n own)) ≤ room_for e) as Hsize.
  { rewrite chunk_file_length. unfold room_for, CHUNK_HEADER_LEN. rewrite Elen. lia. }
  pose proof (go_count _ _ _ _ Hgood). pose proof (disk_nonneg (store t)).
  (* The calls made before the frame is stored. *)
  set (s0 := if recompress_received config then (store t) <| calls := S (calls (store t)) |> else store t).
  assert (chunk_files s0 = chunk_files (store t) ∧ used s0 = used (store t) ∧ pending s0 = pending (store t) ∧
    assembling s0 = assembling (store t)) as (S1 & S2 & S3 & S4) by (unfold s0; by destruct (recompress_received config)).
  destruct (write_works id n own s0) as (s' & Ew & [tm Ef] & Eus & _ & Ep & _ & Ea); [by rewrite S1 | lia | lia |].
  assert (sink_lengths (sink t) !! id = Some n) as Hlook by (rewrite El; apply lengths_lookup; by exists e).
  set (p := (progress (sink t)) <| chunks_present := chunks_present (progress (sink t)) + 1 |>
             <| bytes_present := bytes_present (progress (sink t)) + n |>).
  exists s', p. split; [| split; [| congruence]].
  - unfold put_chunk, mbind at 1, SE_bind at 1, se_get. cbv zeta. rewrite Eo, Hlook, bool_decide_true by done. cbn [negb].
    unfold mbind at 1, SE_bind at 1, se_lift. rewrite Hd. unfold mbind at 1, SE_bind at 1.
    assert ((if recompress_received config
             then ok ← in_store (attempt never); if ok : bool then in_store (insert_frame config never id n (compress Zs r))
                                                 else se_err (SinkStore StoreCompression)
             else in_store (insert_frame config never id n frame)) t = (t <| store := s' |>, Ok true)) as E.
    { unfold own, s0 in Ew. destruct (recompress_received config).
      - unfold mbind, SE_bind, in_store, attempt. cbn [negb never]. unfold insert_frame.
        change (store (t <| store := (store t) <| calls := S (calls (store t)) |> |>)) with ((store t) <| calls := S (calls (store t)) |>).
        rewrite Ew. done.
      - unfold in_store, insert_frame. by rewrite Ew. }
    rewrite E. done.
  - split; cbn [store sink]; try done.
    + pose proof (write_chunk_good blake3 Zs config never bound_range id n own r' Hn Hd' s0) as Hk. rewrite Ew in Hk. apply Hk.
      by apply (good_same blake3 Zs config (store t)).
    + intros id'. cbn. rewrite elem_of_difference, elem_of_singleton, Emi, Ef, S1. split.
      * intros [[Hex Hno] Hne]. split; [done |]. by rewrite lookup_insert_ne.
      * intros [Hex Hno]. destruct (decide (id' = id)) as [-> | Hne]; [by rewrite lookup_insert_eq in Hno |].
        rewrite lookup_insert_ne in Hno by done. done.
    + rewrite S1 in Ef. rewrite (room_taken (store t) s' id _ (unique_chunks m) Ef Hnone (unique_NoDup m) e He Eid). lia.
    + by rewrite Ep, S3.
Qed.

Lemma put_going m t id frame :
  valid m → going m t →
  let t' := (put_chunk blake3 Zs config never id frame t).1 in
  going m t' ∧ sink_missing (sink t') ⊆ sink_missing (sink t) ∧ assembling (store t') = assembling (store t) ∧
  (∀ e r, e ∈ unique_chunks m → entry_id e = id → decode_chunk blake3 Zs id (len e) frame = Ok r → id ∉ sink_missing (sink t')).
Proof.
  intros Hv Hg. pose proof Hg as [_ _ _ El Eo _ _ _].
  destruct (sink_lengths (sink t) !! id) as [n |] eqn:Hlook.
  - rewrite El in Hlook. apply lengths_lookup in Hlook as Hx. destruct Hx as (e & He & Eid & Elen).
    assert (∀ e', e' ∈ unique_chunks m → entry_id e' = id → len e' = n) as Huniq.
    { intros e' He' Eid'. assert (e' = e) as ->; [| done].
      apply (NoDup_fmap_elem_inj entry_id (unique_chunks m) e' e (unique_NoDup m) He' He). congruence. }
    rewrite <- El in Hlook.
    assert (∀ E, put_chunk blake3 Zs config never id frame t = (t, E) → id ∉ sink_missing (sink t) ∨
      (∀ r, decode_chunk blake3 Zs id n frame ≠ Ok r) → let t' := (put_chunk blake3 Zs config never id frame t).1 in
      going m t' ∧ sink_missing (sink t') ⊆ sink_missing (sink t) ∧ assembling (store t') = assembling (store t) ∧
      (∀ e r, e ∈ unique_chunks m → entry_id e = id → decode_chunk blake3 Zs id (len e) frame = Ok r → id ∉ sink_missing (sink t'))) as Hsame.
    { intros E -> Hor. cbn. split; [done |]. split; [done |]. split; [done |]. intros e' r He' Eid' Hd.
      destruct Hor as [? | Hno]; [done |]. rewrite (Huniq e' He' Eid') in Hd. by destruct (Hno r). }
    destruct (decide (id ∈ sink_missing (sink t))) as [Hmiss | Hmiss].
    + destruct (decode_chunk blake3 Zs id n frame) as [r | err] eqn:Hd.
      * destruct (put_stores m t id n frame r Hv Hg ltac:(by exists e) Hmiss Hd) as (s' & p & -> & Hg' & Ha). cbn [fst].
        split; [done |]. split; [cbn; set_solver |]. split; [done |]. intros. cbn. set_solver.
      * eapply Hsame; [| right; congruence]. unfold put_chunk, mbind, SE_bind, se_get. cbv zeta.
        rewrite Eo, Hlook, bool_decide_true by done. cbn [negb]. unfold se_lift. by rewrite Hd.
    + eapply Hsame; [| by left]. unfold put_chunk, mbind, SE_bind, se_get. cbv zeta. by rewrite Eo, Hlook, bool_decide_false.
  - assert (put_chunk blake3 Zs config never id frame t = (t, Err (NotInManifest id))) as ->.
    { unfold put_chunk, mbind, SE_bind, se_get. cbv zeta. by rewrite Eo, Hlook. }
    cbn. split; [done |]. split; [done |]. split; [done |]. intros e r He Eid _. exfalso.
    rewrite El in Hlook. assert (is_Some (list_to_map (M := gmap ChunkId Z) ((λ e, (entry_id e, len e)) <$> unique_chunks m) !! id)) as [n Hn].
    { exists (len e). apply lengths_lookup. by exists e. }
    congruence.
Qed.

Definition put_all (puts : list (ChunkId * list Z)) (t : Transfer) : Transfer :=
  foldl (λ t put, (put_chunk blake3 Zs config never put.1 put.2 t).1) t puts.

Lemma puts_going m puts t :
  valid m → going m t →
  going m (put_all puts t) ∧ sink_missing (sink (put_all puts t)) ⊆ sink_missing (sink t) ∧
  assembling (store (put_all puts t)) = assembling (store t) ∧
  (∀ e frame r, e ∈ unique_chunks m → (entry_id e, frame) ∈ puts → decode_chunk blake3 Zs (entry_id e) (len e) frame = Ok r →
    entry_id e ∉ sink_missing (sink (put_all puts t))).
Proof.
  intros Hv. revert t. induction puts as [| [id frame] puts IH]; intros t Hg.
  { cbn. split; [done |]. split; [done |]. split; [done |]. by intros e frame r _ ?%elem_of_nil. }
  cbn [put_all foldl fst snd]. destruct (put_going m t id frame Hv Hg) as (Hg' & Hsub & Ha & Hput).
  destruct (IH _ Hg') as (H1 & H2 & H3 & H4). unfold put_all in *. split; [done |]. split; [set_solver |]. split; [congruence |].
  intros e frame' r He [[= Eid ->] | Hin]%elem_of_cons Hd; [| by eapply H4].
  specialize (Hput e r He Eid ltac:(by rewrite <- Eid)). rewrite Eid. set_solver.
Qed.

Lemma refresh_works m s k :
  sink_manifest k = m → (∀ id f, chunk_files s !! id = Some f → sound_file blake3 Zs id f) →
  ∃ n p missing_ids, refresh never (MkTransfer s k)
    = (MkTransfer (s <| calls := n |>) (k <| sink_missing := missing_ids |> <| progress := p |>), Ok p) ∧
    ∀ id, id ∈ missing_ids ↔ (∃ e, e ∈ unique_chunks m ∧ entry_id e = id) ∧ chunk_files s !! id = None.
Proof.
  intros Em Hsound. unfold refresh, mbind, SE_bind, se_get. cbn [sink]. rewrite Em. unfold in_store, missing. cbn [store].
  destruct (missing_works (unique_chunks m) s) as [n ->]. unfold set_sink, se_mod, mret, SE_ret.
  eexists n, _, _. split; [reflexivity |]. intros id. rewrite elem_of_list_to_set, list_elem_of_fmap. split.
  - intros (e & -> & He). apply list_elem_of_In, filter_In in He as [He Hn]. apply list_elem_of_In in He.
    split; [by exists e |]. rewrite there_sound in Hn by done. apply negb_true_iff, bool_decide_eq_false in Hn. by apply eq_None_not_Some.
  - intros [(e & He & <-) Hnone]. exists e. split; [done |]. apply list_elem_of_In, filter_In. split; [by apply list_elem_of_In |].
    rewrite there_sound by done. apply negb_true_iff, bool_decide_eq_false. by apply eq_None_not_Some.
Qed.

(** A transfer that was claimed and recorded starts. *)
Lemma start_works m s :
  good blake3 Zs config s → pending s !! Manifest.id m = Some (to_bytes Fs m) →
  used s + room_needed s (unique_chunks m) ≤ max_bytes config →
  ∃ n k, start config never s m = (s <| calls := n |>, Ok k) ∧ going m (MkTransfer (s <| calls := n |>) k).
Proof.
  intros Hgood Hpend Hroom. unfold start.
  assert (∃ n, (_ ← in_store (zstd_ready never);
    _ ← (if recompress_received config then in_store (zstd_ready never) else mret tt); _ ← refresh never; mret tt)
    (MkTransfer s (new_sink m)) = (_ ← refresh never; mret tt) (MkTransfer (s <| calls := n |>) (new_sink m))) as [n ->].
  { destruct (recompress_received config); by eexists. }
  set (s2 := s <| calls := n |>). unfold mbind, SE_bind.
  destruct (refresh_works m s2 (new_sink m) eq_refl) as (n3 & p & ids & -> & Hids); [apply Hgood |].
  eexists n3, _. split; [reflexivity |]. split; try done; cbn. by apply (good_same blake3 Zs config s).
Qed.

Lemma open_works m s :
  good blake3 Zs config s → Manifest.id m ∉ open_sinks s →
  used s + room_needed s (unique_chunks m) ≤ max_bytes config →
  ∃ s1 k, open_sink Fs config never s m = (s1, Ok k) ∧ going m (MkTransfer s1 k) ∧ assembling s1 = assembling s ∧
    chunk_files s1 = chunk_files s.
Proof.
  intros Hgood Hfree Hroom. unfold open_sink, claim_sink. rewrite bool_decide_false by done.
  set (s0 := s <| open_sinks := {[Manifest.id m]} ∪ open_sinks s |>).
  assert (∃ n, save_pending Fs never m s0 = (s0 <| calls := n |> <| pending := <[Manifest.id m := to_bytes Fs m]> (pending s0) |>, Ok tt)) as [n ->]
    by (by eexists).
  set (s1 := s0 <| calls := n |> <| pending := <[Manifest.id m := to_bytes Fs m]> (pending s0) |>).
  destruct (start_works m s1) as (n2 & k & -> & Hg); [by apply (good_same blake3 Zs config s) | apply lookup_insert_eq | done |].
  by eexists _, _.
Qed.

(** A transfer begun before is picked up. *)
Lemma resume_works m s :
  manifest_ok blake3 Fs m → FieldsLaws Fs →
  good blake3 Zs config s → Manifest.id m ∉ open_sinks s → pending s !! Manifest.id m = Some (to_bytes Fs m) →
  used s + room_needed s (unique_chunks m) ≤ max_bytes config →
  ∃ s1 k, resume_sink blake3 Fs config never s (Manifest.id m) = (s1, Ok k) ∧ going m (MkTransfer s1 k) ∧
    assembling s1 = assembling s ∧ chunk_files s1 = chunk_files s.
Proof.
  intros Hm Hfields Hgood Hfree Hpend Hroom. unfold resume_sink, claim_sink. rewrite bool_decide_false by done.
  set (s0 := s <| open_sinks := {[Manifest.id m]} ∪ open_sinks s |>).
  assert (∃ n, load_record blake3 Fs never RecordPending (Manifest.id m) s0 = (s0 <| calls := n |>, Ok m)) as [n ->].
  { destruct (ok_bounds blake3 Fs Hfields m Hm) as (_ & _ & _ & Hlen).
    unfold load_record, mbind, SE_bind, se_get. change (records RecordPending s0) with (pending s). rewrite Hpend. cbv iota.
    rewrite !io_works. cbv zeta iota. rewrite firstn_all2 by lia. rewrite (proj2 (Z.ltb_ge _ _)) by lia.
    rewrite (from_bytes_to_bytes blake3 Fs Hfields m Hm), Z.eqb_refl. cbn [negb]. by eexists. }
  destruct (start_works m (s0 <| calls := n |>)) as (n2 & k & -> & Hg); [by apply (good_same blake3 Zs config s) | done | done |].
  by eexists _, _.
Qed.

(** Nothing missing: every chunk is there. *)
Lemma going_ready m t : going m t → sink_missing (sink t) = ∅ → ready m (store t).
Proof.
  intros Hg Hempty. split; [apply (gn_good _ _ Hg) |]. intros e He.
  destruct (chunk_files (store t) !! entry_id e) eqn:E; [by eexists |]. exfalso.
  destruct (proj2 (proj2 (first_entries_ids ∅ (chunks m))) e He) as [? | (e' & He' & E')]; [set_solver |].
  assert (entry_id e ∈ sink_missing (sink t)) as Hx; [| by rewrite Hempty in Hx; apply not_elem_of_empty in Hx].
  apply (gn_missing _ _ Hg). split; [by exists e' | done].
Qed.

Lemma finish_works m pieces dest t :
  going m t → sink_missing (sink t) = ∅ → describes m pieces → unforgeable pieces →
  named dest = true → dest ∉ assembling (store t) →
  ∃ t', finish_sink blake3 Fs Zs never named dest t = (t', Ok tt) ∧
    files (store t') !! dest = Some (concat pieces) ∧ roots (store t') !! Manifest.id m = Some (to_bytes Fs m).
Proof.
  intros Hg Hempty Hdes Hu Hnamed Hdest. pose proof (going_ready m t Hg Hempty) as Hready.
  destruct (assemble_works m pieces dest (promote Fs never m) (store t) Hready Hdes Hu Hnamed Hdest) as
    (s2 & s3 & s4 & Eb & Ep & Er & Eas & Ef & Er' & Ep'); [intros s2; by destruct (promote_works m s2) as (s3 & ? & _); exists s3 |].
  destruct (promote_works m s2) as (s3' & Eb' & _ & _ & Hroot). rewrite Eb in Eb'. injection Eb' as <-.
  eexists. split.
  - unfold finish_sink, ending, mbind, SE_bind, se_get. rewrite (gn_open _ _ Hg), bool_decide_true by done. cbn [negb].
    rewrite (gn_manifest _ _ Hg), Eas. reflexivity.
  - cbn. split; [done |]. rewrite Er'. apply Hroot. left. rewrite Ep. apply (gn_pending _ _ Hg).
Qed.

(** a transfer completes whatever order its chunks come in and whatever else
    a peer sends.  Let the store have room for the snapshot, let no two different
    pieces have the hash of one of its chunks, and let the frames received, in any
    order and mixed with any number of frames that are garbage, repeated or of other
    files, hold a valid frame of every chunk the store lacked.  Then the transfer
    opens, nothing is missing afterwards, and finishing it publishes exactly the
    file the manifest describes and retains the snapshot. *)
Theorem transfer_completes (m : Manifest) (pieces : list (list Z)) (s : Store) (puts : list (ChunkId * list Z)) (dest : string) :
  valid m → describes m pieces → unforgeable pieces → good blake3 Zs config s →
  Manifest.id m ∉ open_sinks s → dest ∉ assembling s → named dest = true →
  used s + room_needed s (unique_chunks m) ≤ max_bytes config →
  (∀ e, e ∈ unique_chunks m → chunk_files s !! entry_id e = None →
    ∃ frame r, (entry_id e, frame) ∈ puts ∧ decode_chunk blake3 Zs (entry_id e) (len e) frame = Ok r) →
  ∃ s1 k t, open_sink Fs config never s m = (s1, Ok k) ∧
    finish_sink blake3 Fs Zs never named dest (put_all puts (MkTransfer s1 k)) = (t, Ok tt) ∧
    sink_missing (sink (put_all puts (MkTransfer s1 k))) = ∅ ∧
    files (store t) !! dest = Some (concat pieces) ∧ roots (store t) !! Manifest.id m = Some (to_bytes Fs m).
Proof.
  intros Hv Hdes Hu Hgood Hfree Hdest Hnamed Hroom Hframes.
  destruct (open_works m s Hgood Hfree Hroom) as (s1 & k & Hopen & Hg & Ha & Hc).
  destruct (puts_going m puts _ Hv Hg) as (Hg' & Hsub & Ha' & Hdone). set (t := put_all puts (MkTransfer s1 k)) in *.
  assert (sink_missing (sink t) = ∅) as Hempty.
  { apply set_eq. intros id. split; [| set_solver]. intros Hid. exfalso.
    pose proof (Hsub id Hid) as Hid0. apply (gn_missing _ _ Hg) in Hid0 as [(e & He & <-) Hnone]. cbn [store] in Hnone. rewrite Hc in Hnone.
    destruct (Hframes e He Hnone) as (frame & r & Hin & Hd). by apply (Hdone e frame r He Hin Hd). }
  destruct (finish_works m pieces dest t Hg' Hempty Hdes Hu Hnamed) as (t' & Ef & Efile & Eroot);
    [rewrite Ha'; cbn; by rewrite Ha |].
  by exists s1, k, t'.
Qed.

(** ** Ingesting a stream *)
Definition piece_room (piece : list Z) : Z := Z.of_nat CHUNK_HEADER_LEN + compress_bound (Z.of_nat (length piece)).

Lemma ingest_chunks_works pieces c s :
  good blake3 Zs config s → cdc c = Ok <$> pieces → c_len c + Z.of_nat (length (concat pieces)) ≤ limit c →
  Forall (λ piece, 0 < Z.of_nat (length piece) ≤ MAX_CHUNK_LEN) pieces →
  used s + sum_Z (piece_room <$> pieces) ≤ max_bytes config →
  ∃ s', ingest_chunks blake3 Zs config never (S (length pieces)) c s
    = (s', Ok (MkChunker [] (hashed c ++ concat pieces) (c_len c + Z.of_nat (length (concat pieces))) (limit c),
               entry_of <$> chunks_at blake3 (c_len c) pieces)) ∧
    good blake3 Zs config s' ∧ chunk_files s ⊆ chunk_files s' ∧ assembling s' = assembling s ∧
    (∀ piece, piece ∈ pieces → is_Some (chunk_files s' !! blake3 piece)).
Proof.
  intros Hgood E Hl Hb Hroom. revert c s Hgood E Hl Hroom. induction Hb as [| piece pieces Hp Hb IH]; intros c s Hgood E Hl Hroom.
  { cbn. rewrite next_chunk_None by done. exists s. rewrite app_nil_r, Z.add_0_r. destruct c. cbn in E. subst. split; [done |].
    split; [done |]. split; [done |]. split; [done |]. by intros ? ?%elem_of_nil. }
  cbn [concat] in *. rewrite length_app in Hl. rewrite fmap_cons, sum_Z_cons in Hroom.
  set (fuel := S (length pieces)) in *. change (S (length (piece :: pieces))) with (S fuel). cbn [ingest_chunks].
  rewrite (next_chunk_Ok blake3 c piece (Ok <$> pieces)) by (done || lia). cbv zeta.
  cbn [chunk_data chunk_id chunk_offset]. set (c1 := next_ok c piece (Ok <$> pieces)).
  assert (chunk_len piece = Z.of_nat (length piece)) as El.
  { unfold chunk_len. rewrite (proj2 (Z.leb_le _ _)); [done |]. unfold MAX_CHUNK_LEN, u32_max in *. lia. }
  destruct (has_works (blake3 piece) s) as [n En]. rewrite (bind_Ok _ _ _ _ _ En). set (s1 := s <| calls := n |>).
  assert (0 ≤ piece_room piece) as Hpr.
  { unfold piece_room, CHUNK_HEADER_LEN. pose proof (compress_bound_nonneg (Z.of_nat (length piece)) ltac:(lia)). lia. }
  assert (∃ s2, ((if there s (blake3 piece) then mret true
      else ok ← attempt never; if ok : bool then write_chunk config never (blake3 piece) (chunk_len piece) (compress Zs piece)
                               else se_err StoreCompression) : StoreM bool) s1 = (s2, Ok true) ∧
    good blake3 Zs config s2 ∧ chunk_files s ⊆ chunk_files s2 ∧ assembling s2 = assembling s ∧
    is_Some (chunk_files s2 !! blake3 piece) ∧ used s2 ≤ used s + piece_room piece) as (s2 & E2 & Hg2 & Hsub2 & Ha2 & Hin2 & Hu2).
  { rewrite there_sound by apply Hgood. destruct (bool_decide_reflect (is_Some (chunk_files s !! blake3 piece))) as [Hin | Hno].
    - exists s1. split; [done |]. split; [by apply (good_same blake3 Zs config s) |]. split; [done |]. split; [done |]. split; [done |]. cbn. lia.
    - apply eq_None_not_Some in Hno. pose proof (decode_compressed blake3 Zs zstd piece Hp) as Hd.
      pose proof (decode_Ok _ _ _ _ _ _ Hd) as (Hf & _). pose proof (go_count _ _ _ _ Hgood). pose proof (disk_nonneg s).
      set (s1' := s1 <| calls := S (calls s1) |>).
      assert (good blake3 Zs config s1') as Hg1 by (by apply (good_same blake3 Zs config s)).
      assert (Z.of_nat (length (chunk_file (chunk_len piece) (compress Zs piece))) ≤ piece_room piece) as Hsize.
      { rewrite chunk_file_length. unfold piece_room, CHUNK_HEADER_LEN. lia. }
      assert (0 ≤ sum_Z (piece_room <$> pieces)) as Hrest.
      { apply sum_Z_nonneg, Forall_fmap. eapply Forall_impl; [exact Hb |]. intros q Hq. unfold piece_room, CHUNK_HEADER_LEN. cbn.
        pose proof (compress_bound_nonneg (Z.of_nat (length q)) ltac:(lia)). lia. }
      destruct (write_works (blake3 piece) (chunk_len piece) (compress Zs piece) s1') as (s2 & Ew & [tm Ef] & Eus & _ & _ & _ & Ea);
        [done | cbn; lia | change (used s1') with (used s); lia |].
      exists s2. split; [exact Ew |].
      split; [pose proof (write_chunk_good blake3 Zs config never bound_range (blake3 piece) (chunk_len piece) (compress Zs piece) piece) as Hk;
        rewrite El in Hk, Ew; specialize (Hk Hp Hd s1' Hg1); by rewrite Ew in Hk |].
      rewrite Ef. split; [by apply insert_subseteq |]. split; [done |]. split; [rewrite lookup_insert_eq; by eexists |].
      rewrite Eus. change (used s1') with (used s). lia. }
  rewrite (bind_Ok _ _ _ _ _ E2).
  destruct (IH c1 s2 Hg2 eq_refl) as (s3 & E3 & Hg3 & Hsub3 & Ha3 & Hin3); [cbn; lia | lia |].
  rewrite (bind_Ok _ _ _ _ _ E3). exists s3. cbn [fst snd]. split; [| split; [done |]; split; [by etransitivity |]; split; [congruence |]].
  - cbn [chunks_at]. rewrite fmap_cons. cbn [c1 next_ok c_len hashed limit]. unfold entry_of at 2. cbn.
    rewrite app_assoc, length_app, Nat2Z.inj_add, Z.add_assoc. done.
  - intros q [-> | Hq]%elem_of_cons; [| by apply Hin3]. destruct Hin2 as [f Hf]. exists f. by eapply lookup_weaken.
Qed.

Context (blake3_digest : ∀ bytes, is_digest (blake3 bytes)).

Lemma entries_pieces p at_ pieces :
  params_ok p → Forall (λ piece, Z.of_nat (length piece) ≤ max p) pieces →
  pieces_of blake3 (entry_of <$> chunks_at blake3 at_ pieces) pieces.
Proof.
  intros Hp Hb. revert at_. induction Hb as [| piece pieces Hq _ IH]; intros at_; cbn [chunks_at]; [constructor |].
  rewrite fmap_cons. constructor; [| apply IH]. cbn. split; [done |]. by rewrite (chunk_len_eq p).
Qed.

Lemma ingest_works p data pieces s :
  params_ok p → cut_ok p data pieces → Z.of_nat (length data) ≤ MAX_FILE_SIZE → unforgeable pieces →
  good blake3 Zs config s → used s + sum_Z (piece_room <$> pieces) ≤ max_bytes config →
  ∃ s1 m, ingest blake3 Fs Zs config never (Ok <$> pieces) p s = (s1, Ok m) ∧
    manifest_ok blake3 Fs m ∧ describes m pieces ∧ ready m s1 ∧ assembling s1 = assembling s ∧
    roots s1 !! Manifest.id m = Some (to_bytes Fs m).
Proof.
  intros Hp Hcut Hmax Hu Hgood Hroom. pose proof Hcut as [Hcat Hb].
  assert (Forall (λ piece, 0 < Z.of_nat (length piece) ≤ max p) pieces) as Hbounds.
  { apply Forall_lookup. intros i piece Hi. by apply Hb in Hi as [? _]. }
  destruct (pieces_manifest blake3 blake3_digest Fs p data pieces Hp Hcut Hmax) as (m & Em & Hok & Et & Eh & Ec).
  { intros a b Ha Hb' E. by apply Hu. }
  unfold ingest. rewrite (bind_Ok _ _ _ _ _ (zstd_works s)). set (s0 := s <| calls := S (calls s) |>).
  destruct (ingest_chunks_works pieces (Chunker_new (Ok <$> pieces)) s0) as (s1 & E1 & Hg1 & _ & Ha1 & Hin1).
  { by apply (good_same blake3 Zs config s). } { done. } { cbn. rewrite Hcat. lia. }
  { eapply Forall_impl; [exact Hbounds |]. cbn. intros piece ?. destruct Hp as [_ _ [_ ?]]. lia. } { exact Hroom. }
  rewrite length_fmap, (bind_Ok _ _ _ _ _ E1). cbn [fst snd Chunker_new with_limit hashed c_len limit app]. rewrite Hcat.
  assert (finish blake3 (MkChunker [] data (0 + Z.of_nat (length data)) MAX_FILE_SIZE) = Ok (Z.of_nat (length data), blake3 data)) as Ef.
  { unfold finish. cbn. unfold mbind, SE_bind. rewrite next_chunk_None by done. cbn. done. }
  unfold mbind at 1, SE_bind at 1, se_lift. rewrite Ef. unfold mbind at 1, SE_bind at 1. rewrite Em.
  eexists _, m. split; [reflexivity |]. split; [done |].
  assert (pieces_of blake3 (chunks m) pieces) as Hpo.
  { rewrite Ec. apply (entries_pieces p); [done |]. eapply Forall_impl; [exact Hbounds |]. cbn. intros ? ?. lia. }
  split; [split; [done | by rewrite Hcat] |]. split; [| split; [exact Ha1 | cbn; apply lookup_insert_eq]].
  split; [apply Hg1 |]. intros e He. cbn. pose proof (Forall2_length _ _ _ Hpo) as Hlen.
  apply list_elem_of_lookup in He as [i Hi]. destruct (pieces !! i) as [piece |] eqn:Hpi.
  - destruct (Forall2_lookup_lr _ _ _ _ _ _ Hpo Hi Hpi) as [<- _]. apply Hin1. by eapply list_elem_of_lookup_2.
  - apply lookup_ge_None in Hpi. apply lookup_lt_Some in Hi. lia.
Qed.

(** C22: what goes in comes out.  Cut a file of any bytes, at most 4 GiB, into a store
    that has room for it, whatever the store holds already, and assemble what the store
    says it is.  If the calls of the file system succeed, and no other bytes have the
    hash of one of the chunks: the same bytes are at the destination, and the store retains the
    snapshot under the hash of its manifest. *)
Theorem ingest_assemble (p : ChunkParams) (data : list Z) (pieces : list (list Z)) (s : Store) (dest : string) :
  params_ok p → cut_ok p data pieces → Z.of_nat (length data) ≤ MAX_FILE_SIZE → unforgeable pieces →
  good blake3 Zs config s → used s + sum_Z (piece_room <$> pieces) ≤ max_bytes config →
  named dest = true → dest ∉ assembling s →
  ∃ s1 m s2, ingest blake3 Fs Zs config never (Ok <$> pieces) p s = (s1, Ok m) ∧
    manifest_ok blake3 Fs m ∧ roots s1 !! Manifest.id m = Some (to_bytes Fs m) ∧
    assemble blake3 Zs never named m dest s1 = (s2, Ok tt) ∧ files s2 !! dest = Some data.
Proof.
  intros Hp Hcut Hmax Hu Hgood Hroom Hn Hd.
  destruct (ingest_works p data pieces s Hp Hcut Hmax Hu Hgood Hroom) as (s1 & m & E1 & Hok & Hdes & Hready & Ha & Hr).
  destruct (assemble_works m pieces dest (mret tt) s1 Hready Hdes Hu Hn ltac:(by rewrite Ha)) as (s2 & s3 & s4 & _ & _ & _ & E4 & Ef & _);
    [intros s2; by exists s2 |].
  exists s1, m, s4. split; [done |]. split; [done |]. split; [done |]. split; [exact E4 |]. by rewrite Ef, (proj1 Hcut).
Qed.
End works.

(** * The theorems on a concrete store *)
Module ToySpec.
Import ToyStore.
Lemma digest bytes : is_digest (hash bytes).
Proof. unfold hash, is_digest. destruct (bool_decide _); [|destruct (bool_decide _)]; lia. Qed.

Lemma both : unforgeable hash [listing; data].
Proof.
  assert (hash listing = 9 ∧ hash data = 7) as [El Ed] by (split; vm_compute; reflexivity).
  intros piece r Hp. assert (piece = listing ∨ piece = data) as [-> | ->] by set_solver.
  - rewrite El. unfold hash. destruct (bool_decide_reflect (r = data)), (bool_decide_reflect (r = listing)); done.
  - rewrite Ed. unfold hash. destruct (bool_decide_reflect (r = data)), (bool_decide_reflect (r = listing)); done.
Qed.

Lemma only_data : unforgeable hash [data].
Proof. intros piece r Hp. apply both. by right. Qed.

Lemma empty_good : good hash toy_zstd config empty.
Proof.
  split; cbn; [by intros id f; rewrite lookup_empty | | done]. unfold disk_bytes. cbn. by rewrite fmap_empty, map_sum_empty.
Qed.

Lemma data_cut : cut_ok DEFAULT data [data].
Proof.
  split; [done |]. intros [| i] piece; [| by rewrite lookup_cons_ne_0 by done]. intros [= <-]. cbn. split; [lia | done].
Qed.

Definition assembled : Store * result unit StoreError :=
  assemble_then hash toy_zstd never (λ _, true) manifest "save" (mret tt) ingested.

(** Garbage, a frame of nothing this snapshot has, and the chunk, twice. *)
Definition puts : list (ChunkId * list Z) :=
  [(7, [1; 2]); (9, compress toy_zstd data); (7, compress toy_zstd data); (7, compress toy_zstd data)].
End ToySpec.

Lemma published_verified_witness :
  ToySpec.assembled.2 = Ok tt ∧
  ∃ pieces, files ToySpec.assembled.1 = <["save" := concat pieces]> (files ToyStore.ingested) ∧
    ToyStore.hash (concat pieces) = 7 ∧ pieces_of ToyStore.hash (chunks ToyStore.manifest) pieces.
Proof.
  split; [vm_compute; reflexivity |].
  pose proof (published_verified ToyStore.hash ConcreteFields.fields ToyStore.toy_zstd never (λ _, true) ToyStore.manifest "save"
    (mret tt) ToyStore.ingested (or_introl eq_refl)) as H.
  change (assemble_then ToyStore.hash ToyStore.toy_zstd never (λ _, true) ToyStore.manifest "save" (mret tt) ToyStore.ingested)
    with ToySpec.assembled in H.
  assert (ToySpec.assembled.2 = Ok tt) as E by (vm_compute; reflexivity).
  destruct ToySpec.assembled as [s' r]. cbn [fst snd] in *. by rewrite E in H.
Defined.

Lemma transfer_completes_witness :
  ∃ s1 k t, open_sink ConcreteFields.fields ToyStore.config never ToyStore.empty ToyStore.manifest = (s1, Ok k) ∧
    finish_sink ToyStore.hash ConcreteFields.fields ToyStore.toy_zstd never (λ _, true) "save"
      (put_all ToyStore.hash ToyStore.toy_zstd ToyStore.config ToySpec.puts (MkTransfer s1 k)) = (t, Ok tt) ∧
    sink_missing (sink (put_all ToyStore.hash ToyStore.toy_zstd ToyStore.config ToySpec.puts (MkTransfer s1 k))) = ∅ ∧
    files (store t) !! "save" = Some ToyStore.data ∧
    roots (store t) !! Manifest.id ToyStore.manifest = Some (to_bytes ConcreteFields.fields ToyStore.manifest).
Proof.
  apply (transfer_completes ToyStore.hash ConcreteFields.fields ToyStore.toy_zstd ToyStore.config (λ _, true) ltac:(done) ToyStore.toy_laws
    ToyStore.manifest [ToyStore.data] ToyStore.empty ToySpec.puts "save").
  - exact ToyStore.manifest_valid.
  - split; [constructor; [done | constructor] | done].
  - exact ToySpec.only_data.
  - exact ToySpec.empty_good.
  - set_solver.
  - set_solver.
  - done.
  - by vm_compute.
  - intros e He _. exists (compress ToyStore.toy_zstd ToyStore.data), ToyStore.data.
    assert (unique_chunks ToyStore.manifest = [MkChunkEntry 7 0 3]) as Eu by (vm_compute; reflexivity).
    rewrite Eu in He. apply list_elem_of_singleton in He as ->. split; [right; right; left | vm_compute; reflexivity].
Defined.

Lemma ingest_assemble_witness :
  ∃ s1 m s2, ingest ToyStore.hash ConcreteFields.fields ToyStore.toy_zstd ToyStore.config never (Ok <$> [ToyStore.data]) DEFAULT ToyStore.empty
      = (s1, Ok m) ∧
    manifest_ok ToyStore.hash ConcreteFields.fields m ∧ roots s1 !! Manifest.id m = Some (to_bytes ConcreteFields.fields m) ∧
    assemble ToyStore.hash ToyStore.toy_zstd never (λ _, true) m "save" s1 = (s2, Ok tt) ∧ files s2 !! "save" = Some ToyStore.data.
Proof.
  apply (ingest_assemble ToyStore.hash ConcreteFields.fields ToyStore.toy_zstd ToyStore.config (λ _, true) ltac:(done) ToyStore.toy_laws
    ToySpec.digest DEFAULT ToyStore.data [ToyStore.data] ToyStore.empty "save").
  - exact ToyStore.default_ok.
  - exact ToySpec.data_cut.
  - done.
  - exact ToySpec.only_data.
  - exact ToySpec.empty_good.
  - by vm_compute.
  - done.
  - set_solver.
Defined.
