(* ===== verification/Whole.v ===== *)
(** A chunk store keeps its snapshots whole ([crates/tpf3mp-snapshot/src/store.rs],
    [sink.rs]): whatever is done with the store, every snapshot it retains has all its
    chunks, and stays until it is released.

    [kept] is a snapshot that is retained and can be read, [complete] says that all of
    them have their chunks, and [calm] is what every operation that neither retains
    nor starts or ends a transfer does to a store. *)
From S2P Require Import Prelude Proto Manifest Store Sink StoreInv StoreSpec.
Local Open Scope Z_scope.

Section whole.
Context (blake3 : list Z → Z) (Fs : Fields) (Zs : Zstd).
Context (config : StoreConfig) (fails : nat → bool) (named : string → bool).
Hypothesis bound_range : max_bytes config < u64_max.
Hypothesis zstd : zstd_law Zs.
Hypothesis fields : FieldsLaws Fs.
Hypothesis blake3_digest : ∀ bytes, is_digest (blake3 bytes).

Abbreviation good := (good blake3 Zs config).
Abbreviation saved := (saved blake3 Fs).
Abbreviation reads_to := (reads_to blake3 Fs).
Abbreviation ready := (ready blake3 Zs).

Definition present (s : Store) (id : ChunkId) : Prop := is_Some (chunk_files s !! id).
Definition complete (s : Store) : Prop := ∀ m e, saved RecordRoot s m → e ∈ chunks m → present s (entry_id e).
Definition kept (s : Store) (id : ManifestId) : Prop := ∃ m, Manifest.id m = id ∧ saved RecordRoot s m.

(** * Steps that take no chunk *)
Record mild (s s' : Store) : Prop := {
  mi_chunks : ∀ id, present s id → present s' id;
  mi_records : roots s' = roots s ∧ pending s' = pending s;
  mi_open : open_sinks s' = open_sinks s;
  mi_files : files s' = files s;
}.

#[local] Instance mild_preorder : PreOrder mild.
Proof.
  split; [by intros s; split |]. intros s1 s2 s3 [A1 (A2 & A3) A4 A5] [B1 (B2 & B3) B4 B5].
  split; [auto | by rewrite B2, B3 | by rewrite B4 | by rewrite B5].
Qed.

Lemma mild_same s s' :
  chunk_files s' = chunk_files s → roots s' = roots s → pending s' = pending s → open_sinks s' = open_sinks s →
  files s' = files s → mild s s'.
Proof. intros E1 E2 E3 E4 E5. split; [intros id; unfold present; by rewrite E1 | done | done | done]. Qed.

(** [mildly P m Q]: on a good store with [P], [m] keeps the store good and is mild;
    if it returns, then [Q]. *)
Definition mildly {A} (P : Store → Prop) (m : StoreM A) (Q : A → Store → Prop) : Prop :=
  ∀ s, good s → P s → let '(s', r) := m s in good s' ∧ mild s s' ∧ ∀ a, r = Ok a → Q a s'.

Lemma mildly_bind {A B} P (m : StoreM A) (k : A → StoreM B) Q R :
  mildly P m Q → (∀ a, mildly (Q a) (k a) R) → mildly P (m ≫= k) R.
Proof.
  intros Hm Hk s Hg HP. specialize (Hm s Hg HP). unfold mbind, SE_bind. destruct (m s) as [s1 [a | e]].
  - destruct Hm as (Hg1 & Hi1 & Hq). specialize (Hk a s1 Hg1 (Hq a eq_refl)). destruct (k a s1) as [s2 r].
    destruct Hk as (? & ? & ?). split; [done |]. split; [by etransitivity | done].
  - by destruct Hm as (? & ? & _).
Qed.

Lemma mildly_frame {A} P (m : StoreM A) Q (F : Store → Prop) :
  (∀ s s', mild s s' → F s → F s') → mildly P m Q → mildly (λ s, P s ∧ F s) m (λ a s, Q a s ∧ F s).
Proof.
  intros HF Hm s Hg [HP HFs]. specialize (Hm s Hg HP). destruct (m s) as [s' r]. destruct Hm as (? & ? & HQ).
  split; [done |]. split; [done |]. intros a Ha. split; [by apply HQ | by eapply HF].
Qed.

Lemma mildly_weaken {A} (P P' : Store → Prop) (m : StoreM A) (Q Q' : A → Store → Prop) :
  (∀ s, P' s → P s) → (∀ a s, Q a s → Q' a s) → mildly P m Q → mildly P' m Q'.
Proof.
  intros HP HQ Hm s Hg H. specialize (Hm s Hg (HP s H)). destruct (m s) as [s' r]. destruct Hm as (? & ? & ?). auto.
Qed.

Definition always : Store → Prop := λ _, True.
Definition whatever {A} : A → Store → Prop := λ _ _, True.

Lemma mildly_pure {A} P (r : result A StoreError) (Q : A → Store → Prop) :
  (∀ a s, r = Ok a → P s → Q a s) → mildly P (λ s, (s, r)) Q.
Proof. intros H s Hg HP. split; [done |]. split; [reflexivity |]. intros a Ha. by apply H. Qed.

Lemma good_calls s n : good s → good (s <| calls := n |>).
Proof. by apply good_same. Qed.

Lemma mildly_attempt P : (∀ s n, P s → P (s <| calls := n |>)) → mildly P (attempt fails) (λ _, P).
Proof. intros HP s Hg H. split; [by apply good_calls |]. split; [by apply mild_same |]. intros a _. by apply HP. Qed.

Lemma mildly_io P : (∀ s n, P s → P (s <| calls := n |>)) → mildly P (io fails) (λ _, P).
Proof.
  intros HP s Hg H. destruct (io_cases fails s) as (r & -> & Hr).
  split; [by apply good_calls |]. split; [by apply mild_same |]. intros a _. by apply HP.
Qed.

Lemma mildly_zstd P : (∀ s n, P s → P (s <| calls := n |>)) → mildly P (zstd_ready fails) (λ _, P).
Proof.
  intros HP. eapply mildly_bind; [by apply mildly_attempt |]. intros []; (apply mildly_pure; by intros).
Qed.

(** ** Chunks *)
Lemma mildly_has id : mildly always (has fails id) (λ b s, b = true → present s id).
Proof.
  unfold has. eapply mildly_bind; [by apply (mildly_io always) |]. intros ? s Hg _. split; [done |]. split; [reflexivity |].
  intros b [= <-]. unfold present. by destruct (chunk_files s !! id).
Qed.

Lemma mildly_missing entries : mildly always (missing_of fails entries) whatever.
Proof.
  induction entries as [| e entries IH]; cbn [missing_of]; [by apply mildly_pure |].
  eapply mildly_bind; [apply mildly_has |]. intros there. eapply mildly_bind; [| intros; by apply mildly_pure].
  eapply mildly_weaken; [| | exact IH]; [done | by intros].
Qed.

Lemma mildly_commit id bytes : (∀ n, sound_file blake3 Zs id (MkChunkFile bytes n)) →
  mildly always (commit config fails id bytes) (λ _ s, present s id).
Proof.
  intros Hf s Hg _. pose proof (commit_good blake3 Zs config fails bound_range id bytes Hf s Hg) as Hgood.
  destruct (commit config fails id bytes s) as [s' r] eqn:E. cbn [fst] in Hgood. split; [exact Hgood |]. clear Hgood.
  unfold commit in E. cbv zeta in E. unfold mbind at 1, SE_bind at 1 in E.
  destruct (io_cases fails s) as (r1 & Eio & [-> | ->]); rewrite Eio in E; [| injection E as <- <-; split; [by apply mild_same | done]].
  set (s1 := s <| calls := S (calls s) |>) in *. unfold mbind at 1, SE_bind at 1, se_get in E.
  destruct (match chunk_files s1 !! id with Some f => holds_chunk f | None => false end) eqn:Eh.
  { injection E as <- <-. split; [by apply mild_same |]. intros a _. unfold present. by destruct (chunk_files s1 !! id). }
  destruct (max_bytes config <? _); [injection E as <- <-; split; [by apply mild_same | done] |].
  assert (∃ s2 r2, (if bool_decide (fan_of id ∈ fans s1) then mret tt
           else _ ← io fails; se_mod (λ s, s <| fans := {[fan_of id]} ∪ fans s |>)) s1 = (s2, r2) ∧ mild s1 s2) as (s2 & r2 & E2 & M2).
  { destruct (bool_decide _); [by eexists _, _; split; [reflexivity |] |]. unfold mbind, SE_bind.
    destruct (io_cases fails s1) as (r2 & -> & [-> | ->]); eexists _, _; (split; [reflexivity | by apply mild_same]). }
  unfold mbind at 1, SE_bind at 1 in E. rewrite E2 in E. clear E2.
  assert (mild s s2) as M by (etransitivity; [by apply (mild_same s s1) | exact M2]).
  destruct r2 as [[] | e]; [| injection E as <- <-; by split]. unfold mbind at 1, SE_bind at 1 in E.
  destruct (io_cases fails s2) as (r3 & Eio3 & [-> | ->]); rewrite Eio3 in E.
  2: { injection E as <- <-. split; [etransitivity; [exact M | by apply mild_same] | done]. }
  unfold mbind, SE_bind, se_mod in E. injection E as <- <-. split.
  - etransitivity; [exact M |]. split; [| done | done | done]. intros id' H. unfold present in *. cbn.
    destruct (decide (id' = id)) as [-> |]; [rewrite lookup_insert_eq; by eexists | by rewrite lookup_insert_ne].
  - intros a _. unfold present. cbn. rewrite lookup_insert_eq. by eexists.
Qed.

Lemma mildly_write id raw_len frame raw :
  0 < raw_len ≤ MAX_CHUNK_LEN → decode_chunk blake3 Zs id raw_len frame = Ok raw →
  mildly always (write_chunk config fails id raw_len frame) (λ _ s, present s id).
Proof.
  intros Hr Hd. unfold write_chunk. do 2 (eapply mildly_bind; [by apply (mildly_io always) | intros ?]).
  apply mildly_commit. intros n. apply sound_file_iff. by exists raw_len, frame, raw.
Qed.

Lemma mildly_with {A} (P : Store → Prop) (m : StoreM A) Q :
  (∀ s s', mild s s' → P s → P s') → mildly always m Q → mildly P m (λ a s, Q a s ∧ P s).
Proof. intros HP Hm. eapply mildly_weaken; [| | by eapply (mildly_frame always m Q P)]; [by split | done]. Qed.

Lemma mildly_past {A} (P : Store → Prop) (m : StoreM A) Q :
  (∀ s s', mild s s' → P s → P s') → mildly always m Q → mildly P m (λ _, P).
Proof. intros HP Hm. eapply mildly_weaken; [| | by apply mildly_with]; [done |]. by intros a s [_ H]. Qed.

(** A sound chunk is read or the disk fails; nothing is discarded. *)
Lemma mildly_load id : mildly always (load blake3 Zs fails id) (λ _ s, present s id).
Proof.
  intros s Hg _. unfold load, mbind at 1, SE_bind at 1, se_get. destruct (chunk_files s !! id) as [f |] eqn:Hf.
  2: { unfold mbind, SE_bind, attempt, se_err. split; [by apply (good_same blake3 Zs config s) |]. split; [by apply (mild_same s) | done]. }
  destruct (sound_file_parses _ _ _ _ (go_sound _ _ _ _ Hg id f Hf)) as (raw_len & frame & r & Hp & _).
  unfold mbind at 1, SE_bind at 1. destruct (io_cases fails s) as (r1 & -> & [-> | ->]).
  2: { split; [by apply (good_same blake3 Zs config s) |]. split; [by apply (mild_same s) | done]. }
  unfold mbind at 1, SE_bind at 1. destruct (io_cases fails (s <| calls := S (calls s) |>)) as (r2 & -> & [-> | ->]).
  2: { split; [by apply (good_same blake3 Zs config s) |]. split; [by apply (mild_same s) | done]. }
  unfold mbind at 1, SE_bind at 1. match goal with |- context [io fails ?x] => destruct (io_cases fails x) as (r3 & -> & [-> | ->]) end.
  2: { split; [by apply (good_same blake3 Zs config s) |]. split; [by apply (mild_same s) | done]. }
  cbv zeta. rewrite Hp. split; [by apply (good_same blake3 Zs config s) |]. split; [by apply (mild_same s) |].
  intros a _. unfold present. cbn. rewrite Hf. by eexists.
Qed.

Lemma mildly_discard_damaged entries : mildly always (discard_damaged blake3 Zs fails entries) whatever.
Proof.
  induction entries as [| e entries IH]; intros s Hg _; cbn [discard_damaged]; [by split |].
  pose proof (mildly_load (entry_id e) s Hg I) as Hl. destruct (load blake3 Zs fails (entry_id e) s) as [s1 r].
  destruct Hl as (Hg1 & M1 & _).
  assert (let '(s', r') := discard_damaged blake3 Zs fails entries s1 in good s' ∧ mild s s' ∧ ∀ a, r' = Ok a → whatever a s') as Hrest.
  { specialize (IH s1 Hg1 I). destruct (discard_damaged blake3 Zs fails entries s1) as [s2 r2].
    destruct IH as (? & ? & ?). split; [done |]. split; [by etransitivity | done]. }
  destruct r as [l | []]; done || exact Hrest.
Qed.

Lemma mildly_stream to_file m entries :
  mildly always (stream_chunks blake3 Zs fails to_file m entries) (λ _ s, ∀ e, e ∈ entries → present s (entry_id e)).
Proof.
  induction entries as [| e entries IH]; cbn [stream_chunks].
  { apply mildly_pure. intros a s _ _ e He. by apply not_elem_of_nil in He. }
  intros s Hg _. pose proof (mildly_load (entry_id e) s Hg I) as Hl.
  destruct (load blake3 Zs fails (entry_id e) s) as [s1 [l | err]]; destruct Hl as (Hg1 & M1 & Hp).
  - specialize (Hp l eq_refl). destruct (negb _); [by split |].
    enough (mildly (λ s, present s (entry_id e)) (_ ← (if to_file then io fails else mret tt);
      rest ← stream_chunks blake3 Zs fails to_file m entries; mret (raw l ++ rest))
      (λ _ s, ∀ e', e' ∈ e :: entries → present s (entry_id e'))) as Hk.
    { specialize (Hk s1 Hg1 Hp). match type of Hk with let '(_, _) := ?x in _ => destruct x as [s2 r2] end. destruct Hk as (? & ? & ?).
      split; [done |]. split; [by etransitivity | done]. }
    apply (mildly_bind _ _ _ (λ _ s, always s ∧ present s (entry_id e))).
    { destruct to_file; [| by apply mildly_pure]. eapply mildly_weaken; [| | apply (mildly_io (λ s, present s (entry_id e)))]; by cbn. }
    intros _. eapply mildly_bind; [eapply (mildly_frame always _ _ (λ s, present s (entry_id e))); [intros s2 s3 M; apply M | exact IH] |].
    intros rest. apply mildly_pure. intros a s2 _ [H1 H2] e' [-> | He]%elem_of_cons; [done | by apply H1].
  - destruct (is_corrupt err); [| by split]. unfold mbind, SE_bind.
    pose proof (mildly_discard_damaged (unique_chunks m) s1 Hg1 I) as Hd.
    destruct (discard_damaged blake3 Zs fails (unique_chunks m) s1) as [s2 [[] | e2]]; destruct Hd as (? & ? & _);
      (split; [done |]; split; [by etransitivity | done]).
Qed.

Lemma mildly_file to_file m :
  mildly always (stream_file blake3 Zs fails to_file m) (λ _ s, ∀ e, e ∈ chunks m → present s (entry_id e)).
Proof.
  unfold stream_file. eapply mildly_bind; [by apply (mildly_zstd always) | intros ?].
  eapply mildly_bind; [apply mildly_stream |]. intros bytes. destruct (negb _); by apply mildly_pure.
Qed.

Lemma mildly_check m : mildly always (check_complete fails m) whatever.
Proof.
  unfold check_complete, missing. eapply mildly_bind; [apply mildly_missing |]. intros lacking. destruct (negb _); by apply mildly_pure.
Qed.

(** * Steps that keep what is retained *)
Record calm (gone : ManifestId → Prop) (s s' : Store) : Prop := {
  ca_complete : complete s → complete s';
  ca_kept : ∀ id, ¬ gone id → kept s id → kept s' id;
  ca_open : open_sinks s' = open_sinks s;
  ca_pending : ∀ id bytes, id ∈ open_sinks s → pending s' !! id = Some bytes → pending s !! id = Some bytes;
}.
Definition nobody : ManifestId → Prop := λ _, False.

Lemma calm_trans gone s1 s2 s3 : calm gone s1 s2 → calm gone s2 s3 → calm gone s1 s3.
Proof.
  intros [A1 A2 A3 A4] [B1 B2 B3 B4]. split; [auto | auto | by rewrite B3 |].
  intros id bytes Hid Hp. apply A4; [done |]. apply B4; [by rewrite A3 | done].
Qed.

Lemma calm_weaken (gone gone' : ManifestId → Prop) s s' : (∀ id, gone id → gone' id) → calm gone s s' → calm gone' s s'.
Proof. intros H [A1 A2 A3 A4]. split; [done | | done | done]. intros id Hid. apply A2. auto. Qed.

Lemma mild_calm gone s s' : mild s s' → calm gone s s'.
Proof.
  intros [M1 (M2 & M3) M4 _].
  assert (∀ m, saved RecordRoot s' m ↔ saved RecordRoot s m) as Hs by (intros m; unfold StoreInv.saved; cbn; by rewrite M2).
  split; [| | done | intros id bytes _; by rewrite M3].
  - intros Hc m e Hm He. apply M1. eapply Hc; [by apply Hs | done].
  - intros id _ (m & Hid & Hm). exists m. split; [done | by apply Hs].
Qed.

(** Fewer records that can be read are retained, and no more. *)
Lemma fewer_calm gone s s' :
  chunk_files s' = chunk_files s → open_sinks s' = open_sinks s →
  (∀ m, saved RecordRoot s' m → saved RecordRoot s m) → (∀ m, ¬ gone (Manifest.id m) → saved RecordRoot s m → saved RecordRoot s' m) →
  (∀ id bytes, id ∈ open_sinks s → pending s' !! id = Some bytes → pending s !! id = Some bytes) → calm gone s s'.
Proof.
  intros E1 E2 H1 H2 H3. split; [| | done | done].
  - intros Hc m e Hm He. unfold present. rewrite E1. by apply (Hc m e); [apply H1 |].
  - intros id Hid (m & <- & Hm). exists m. split; [done | by apply H2].
Qed.

Lemma remove_cases record id s : ∃ n,
  (remove_record fails record id s).1 = s <| calls := n |> ∨
  (remove_record fails record id s).1 = set_records record (delete id (records record s)) (s <| calls := n |>).
Proof.
  destruct (remove_record fails record id s) as [s' r] eqn:E. unfold remove_record, mbind at 1, SE_bind at 1, se_get in E.
  exists (S (calls s)). destruct (records record s !! id); [| injection E as <- <-; by left].
  unfold mbind, SE_bind in E. destruct (io_cases fails s) as (r0 & Eio & [-> | ->]); rewrite Eio in E; injection E as <- <-; [right | by left].
  by destruct record.
Qed.

Lemma remove_root_calm id s : calm (eq id) s (remove_record fails RecordRoot id s).1.
Proof.
  destruct (remove_cases RecordRoot id s) as [n [-> | ->]]; [by apply mild_calm, mild_same |].
  apply fewer_calm; [done | done | | | done]; intros m; unfold StoreInv.saved; cbn.
  - intros (bytes & Hb & Hr). apply lookup_delete_Some in Hb as [_ Hb]. by exists bytes.
  - intros Hne (bytes & Hb & Hr). exists bytes. by rewrite lookup_delete_ne.
Qed.

Lemma remove_pending_calm id s : calm nobody s (remove_record fails RecordPending id s).1.
Proof.
  destruct (remove_cases RecordPending id s) as [n [-> | ->]]; [by apply mild_calm, mild_same |].
  apply fewer_calm; [done | done | done | done |]. intros i bytes _ Hb. cbn in Hb. by apply lookup_delete_Some in Hb as [_ Hb].
Qed.

(** ** Collecting *)
Lemma remove_damaged_calm record id s :
  (∀ bytes m, records record s !! id = Some bytes → reads_to id bytes m → False) → calm nobody s (remove_record fails record id s).1.
Proof.
  intros Hbad. pose proof (remove_damaged_tidied blake3 Fs fails record id s Hbad) as [(T1 & _ & _) T2].
  destruct (remove_cases record id s) as [n [E | E]]; rewrite E in *; [by apply mild_calm, mild_same |].
  apply fewer_calm; [exact T1 | by destruct record | | |].
  - intros m. apply (proj2 (T2 RecordRoot m)).
  - intros m _. apply (proj1 (T2 RecordRoot m)).
  - intros i bytes _ Hb. destruct record; cbn in Hb; [done |]. by apply lookup_delete_Some in Hb as [_ Hb].
Qed.

Lemma keep_records_calm record ids keep stats s : calm nobody s (keep_records blake3 Fs fails record ids keep stats s).1.
Proof.
  revert keep stats s. induction ids as [| id ids IH]; intros keep stats s; cbn [keep_records]; [by apply mild_calm |].
  pose proof (load_record_cases blake3 Fs fails record id s) as Hl. destruct (load_record blake3 Fs fails record id s) as [s1 r].
  destruct Hl as [[n ->] Hl]. set (s1 := s <| calls := n |>). assert (calm nobody s s1) as C1 by (by apply mild_calm, mild_same).
  destruct r as [m | e]; [eapply calm_trans; [exact C1 | apply IH] |].
  destruct e; try exact C1; [eapply calm_trans; [exact C1 | apply IH] |].
  unfold mbind, SE_bind. pose proof (remove_damaged_calm record id s1 Hl) as C2.
  destruct (remove_record fails record id s1) as [s2 [[] | e]]; cbn [fst] in C2; (eapply calm_trans; [exact C1 |]); [| exact C2].
  eapply calm_trans; [exact C2 | apply IH].
Qed.

Lemma swept_calm keep s s' :
  swept keep s s' → open_sinks s' = open_sinks s → (∀ m e, saved RecordRoot s m → e ∈ chunks m → entry_id e ∈ keep) → calm nobody s s'.
Proof.
  intros [W1 W2 (W3 & W4 & W5 & W6)] Eo Hk.
  assert (∀ m, saved RecordRoot s' m ↔ saved RecordRoot s m) as Hs by (intros m; unfold StoreInv.saved; cbn; by rewrite W4).
  split; [| | done | intros id bytes _; by rewrite W5].
  - intros Hc m e Hm He. apply Hs in Hm. unfold present. rewrite W2 by (by eapply Hk). by apply (Hc m e).
  - intros id _ (m & Hid & Hm). exists m. split; [done | by apply Hs].
Qed.

Lemma sweep_open keep stats found s : open_sinks (sweep fails keep stats found s).1 = open_sinks s.
Proof.
  revert stats s. induction found as [| [id f] found IH]; intros stats s; cbn [sweep]; [done |].
  unfold mbind at 1, SE_bind at 1. destruct (io_cases fails s) as (r & -> & [-> | ->]); [| done].
  unfold mbind at 1, SE_bind at 1, sweep_one. destruct (bool_decide _); [exact (IH _ _) |].
  unfold mbind at 1, SE_bind at 1, attempt. cbv zeta. destruct (negb _); [| exact (IH _ _)].
  unfold mbind, SE_bind, se_mod, mret, SE_ret. exact (IH _ _).
Qed.

Lemma gc_calm live s : calm nobody s (gc blake3 Fs fails live s).1.
Proof.
  unfold gc, list_records. unfold mbind at 1, SE_bind at 1, mbind at 1, SE_bind at 1. cbv zeta.
  destruct (io_cases fails s) as (r1 & -> & [-> | ->]); [| by apply mild_calm, mild_same].
  unfold mbind at 1, SE_bind at 1, se_get, mret at 1, SE_ret at 1.
  set (s1 := s <| calls := S (calls s) |>). assert (calm nobody s s1) as C1 by (by apply mild_calm, mild_same). unfold mbind at 1, SE_bind at 1.
  match goal with |- context [keep_records blake3 Fs fails RecordRoot ?i ?k ?g s1] =>
    pose proof (keep_records_calm RecordRoot i k g s1) as C2; destruct (keep_records blake3 Fs fails RecordRoot i k g s1) as [s2 [[kept2 stats2] | e]] eqn:E2 end;
    cbn [fst] in C2; [| eapply calm_trans; done].
  apply keep_records_ok in E2 as (T2 & _ & _ & K2). unfold mbind at 1, SE_bind at 1, mbind at 1, SE_bind at 1.
  assert (calm nobody s s2) as C2' by (eapply calm_trans; done).
  destruct (io_cases fails s2) as (r3 & -> & [-> | ->]); [| eapply calm_trans; [exact C2' | by apply mild_calm, mild_same]].
  unfold mbind at 1, SE_bind at 1, mret at 1, SE_ret at 1.
  set (s3 := s2 <| calls := S (calls s2) |>). assert (calm nobody s s3) as C3 by (eapply calm_trans; [exact C2' | by apply mild_calm, mild_same]).
  unfold mbind at 1, SE_bind at 1.
  match goal with |- context [keep_records blake3 Fs fails RecordPending ?i ?k ?g s3] =>
    pose proof (keep_records_calm RecordPending i k g s3) as C4; destruct (keep_records blake3 Fs fails RecordPending i k g s3) as [s4 [[kept4 stats4] | e]] eqn:E4 end;
    cbn [fst] in C4; [| eapply calm_trans; done].
  apply keep_records_ok in E4 as (T4 & _ & _ & K4). unfold mbind at 1, SE_bind at 1.
  assert (calm nobody s s4) as C4' by (eapply calm_trans; done).
  destruct (io_cases fails s4) as (r5 & -> & [-> | ->]); [| eapply calm_trans; [exact C4' | by apply mild_calm, mild_same]].
  unfold mbind at 1, SE_bind at 1. set (s5 := s4 <| calls := S (calls s4) |>).
  assert (∀ m e, saved RecordRoot s5 m → e ∈ chunks m → entry_id e ∈ kept4) as Hkeep.
  { intros m e Hm He. apply K4. left. apply K2. right. exists m.
    assert (saved RecordRoot s1 m) as Hm1 .
    { apply (td_saved _ _ _ _ T2). change (saved RecordRoot s3 m). apply (td_saved _ _ _ _ T4). exact Hm. }
    split; [by apply (saved_listed blake3 Fs) in Hm1 |]. split; [exact Hm1 |]. apply elem_of_list_to_set, list_elem_of_fmap. by exists e. }
  pose proof (map_to_list_found (chunk_files s5)) as (Hnd & Hin & _).
  pose proof (sweep_ok fails kept4 _ stats4 s5 Hnd (λ id f, proj1 (Hin id f))) as Hs.
  pose proof (sweep_open kept4 stats4 (map_to_list (chunk_files s5)) s5) as Ho. unfold mbind at 1, SE_bind at 1.
  destruct (sweep fails kept4 stats4 _ s5) as [s6 r6]. destruct Hs as (Hw & _). cbn [fst] in Ho.
  assert (calm nobody s s6) as C6.
  { eapply calm_trans; [exact C4' |]. eapply calm_trans; [by apply mild_calm, (mild_same s4 s5) |]. by eapply swept_calm. }
  destruct r6 as [stats6 | e]; [| exact C6]. eapply calm_trans; [exact C6 |]. apply mild_calm.
  unfold mbind, SE_bind, se_mod. destruct (io_cases fails (s6 <| used := kept_bytes stats6 |>)) as (r7 & -> & [-> | ->]); by apply mild_same.
Qed.

(** * Operations on the store *)
Definition calmly {A} (P : Store → Prop) (m : StoreM A) : Prop :=
  ∀ s, good s → P s → good (m s).1 ∧ calm nobody s (m s).1.

Lemma mildly_calmly {A} P (m : StoreM A) Q : mildly P m Q → calmly P m.
Proof. intros Hm s Hg HP. specialize (Hm s Hg HP). destruct (m s) as [s' r]. destruct Hm as (? & ? & _). split; [done | by apply mild_calm]. Qed.

Lemma calmly_bind {A B} P (m : StoreM A) (k : A → StoreM B) Q : mildly P m Q → (∀ a, calmly (Q a) (k a)) → calmly P (m ≫= k).
Proof.
  intros Hm Hk s Hg HP. specialize (Hm s Hg HP). unfold mbind, SE_bind. destruct (m s) as [s1 [a | e]]; destruct Hm as (Hg1 & M1 & HQ).
  - destruct (Hk a s1 Hg1 (HQ a eq_refl)) as [? ?]. split; [done |]. eapply calm_trans; [by apply mild_calm | done].
  - split; [done | by apply mild_calm].
Qed.

Lemma calmly_then {A B} P (m : StoreM A) (k : A → StoreM B) : calmly P m → (∀ a, calmly always (k a)) → calmly P (m ≫= k).
Proof.
  intros Hm Hk s Hg HP. destruct (Hm s Hg HP) as [Hg1 C1]. unfold mbind, SE_bind. destruct (m s) as [s1 [a | e]]; [| by split].
  destruct (Hk a s1 Hg1 I) as [? ?]. split; [done | by eapply calm_trans].
Qed.

Lemma calmly_pure {A} P (r : result A StoreError) : calmly P (λ s, (s, r)).
Proof. intros s Hg _. split; [done | by apply mild_calm, mild_same]. Qed.

(** A manifest that can be read back from its own encoding. *)
Definition genuine (m : Manifest) : Prop := manifest_ok blake3 Fs m.

Lemma genuine_reads m : genuine m → reads_to (Manifest.id m) (to_bytes Fs m) m.
Proof. intros Hm. split; [by apply (ok_bounds blake3 Fs fields m Hm) |]. split; [by apply from_bytes_to_bytes | done]. Qed.

Lemma reads_genuine id bytes m : reads_to id bytes m → genuine m.
Proof. intros (_ & Hb & _). by apply (from_bytes_ok blake3 Fs fields) in Hb as [? _]. Qed.

(** Retaining a snapshot whose chunks are all there. *)
Lemma retain_calm s s' m bytes :
  reads_to (Manifest.id m) bytes m → (∀ e, e ∈ chunks m → present s (entry_id e)) →
  chunk_files s' = chunk_files s → roots s' = <[Manifest.id m := bytes]> (roots s) → open_sinks s' = open_sinks s →
  (∀ id b, pending s' !! id = Some b → pending s !! id = Some b) → calm nobody s s'.
Proof.
  intros Hm Hp E1 E2 E3 E4. split; [| | done | by intros id b _; apply E4].
  - intros Hc m' e (b & Hb & Hr) He. cbn in Hb. rewrite E2 in Hb. unfold present. rewrite E1.
    destruct (decide (Manifest.id m' = Manifest.id m)) as [Ei | Hne].
    + rewrite Ei, lookup_insert_eq in Hb. injection Hb as <-. rewrite Ei in Hr.
      rewrite (reads_to_det _ _ _ _ _ _ Hr Hm) in He. by apply Hp.
    + rewrite lookup_insert_ne in Hb by done. eapply (Hc m'); [by exists b | done].
  - intros id _ (m' & <- & b & Hb & Hr). destruct (decide (Manifest.id m' = Manifest.id m)) as [Ei | Hne].
    + exists m. split; [done |]. exists bytes. cbn. by rewrite E2, lookup_insert_eq.
    + exists m'. split; [done |]. exists b. cbn. by rewrite E2, lookup_insert_ne.
Qed.

Lemma write_root_calmly m : genuine m →
  calmly (λ s, ∀ e, e ∈ chunks m → present s (entry_id e)) (write_record Fs fails RecordRoot m).
Proof.
  intros Hm. unfold write_record.
  do 3 (eapply (calmly_bind _ _ _ (λ _ s, ∀ e, e ∈ chunks m → present s (entry_id e))); [by apply mildly_io | intros _]).
  intros s Hg Hp. split; [by apply (good_same blake3 Zs config s) |]. by apply (retain_calm s _ m _ (genuine_reads m Hm) Hp).
Qed.

(** What promoting a transfer relies on: its chunks are there, and what is pending for
    it is its manifest. *)
Definition promotable (m : Manifest) (s : Store) : Prop :=
  (∀ e, e ∈ chunks m → present s (entry_id e)) ∧
  ∀ bytes, pending s !! Manifest.id m = Some bytes → reads_to (Manifest.id m) bytes m.

Lemma promotable_mild m s s' : mild s s' → promotable m s → promotable m s'.
Proof. intros [M1 (M2 & M3) _ _] [H1 H2]. split; [intros e He; by apply M1, H1 | by rewrite M3]. Qed.

Lemma promote_calmly m : genuine m → calmly (promotable m) (promote Fs fails m).
Proof.
  intros Hm s Hg [Hp Hr]. split; [by apply promote_good |]. unfold promote, mbind at 1, SE_bind at 1, se_get.
  destruct (pending s !! Manifest.id m) as [bytes |] eqn:Eb.
  - unfold mbind, SE_bind. destruct (io_cases fails s) as (r & -> & [-> | ->]); [| by apply mild_calm, mild_same].
    apply (retain_calm s _ m bytes (Hr bytes eq_refl) Hp); try done.
    intros id b Hb. cbn in Hb. by apply lookup_delete_Some in Hb as [_ Hb].
  - apply (calmly_bind (λ s, ∀ e, e ∈ chunks m → present s (entry_id e)) _ _ (λ _ s, ∀ e, e ∈ chunks m → present s (entry_id e)));
      [by apply mildly_attempt | intros _; by apply write_root_calmly | done | done].
Qed.

Lemma calmly_claiming {A} dest (m : StoreM A) P :
  (∀ s d, P s → P (s <| assembling := d |>)) → calmly P m → calmly P (claiming dest m).
Proof.
  intros HP Hm s Hg H. unfold claiming. destruct (bool_decide _); [by split; [| apply mild_calm, mild_same] |].
  set (s0 := s <| assembling := {[dest]} ∪ assembling s |>).
  destruct (Hm s0) as [Hg1 C1]; [by apply (good_same blake3 Zs config s) | by apply HP |].
  destruct (m s0) as [s1 r]. cbn [fst] in *. split; [by apply (good_same blake3 Zs config s1) |].
  eapply calm_trans; [by apply mild_calm, (mild_same s s0) |]. eapply calm_trans; [exact C1 | by apply mild_calm, mild_same].
Qed.

(** What a transfer's manifest says of what is pending for it. *)
Definition owns (m : Manifest) (s : Store) : Prop :=
  ∀ bytes, pending s !! Manifest.id m = Some bytes → reads_to (Manifest.id m) bytes m.

Lemma owns_mild m s s' : mild s s' → owns m s → owns m s'.
Proof. intros [_ (_ & M3) _ _] H. unfold owns. by rewrite M3. Qed.

(** The two ways to end a transfer, up to the last step. *)
Lemma assemble_calmly m dest (before : StoreM unit) (P : Store → Prop) :
  (∀ s s', mild s s' → P s → P s') →
  calmly (λ s, (∀ e, e ∈ chunks m → present s (entry_id e)) ∧ P s) before →
  calmly P (assemble_then blake3 Zs fails named m dest before).
Proof.
  intros HP Hb. assert (∀ s n, P s → P (s <| calls := n |>)) as HPc by (intros s n; apply HP; by apply mild_same).
  unfold assemble_then. eapply calmly_bind; [by apply (mildly_io P) | intros ?].
  apply calmly_claiming; [intros s d; apply HP; by apply mild_same |].
  eapply calmly_bind; [eapply (mildly_past P), mildly_check; exact HP |].
  intros ?. destruct (negb (named dest)); [apply calmly_pure |]. eapply calmly_bind; [by apply (mildly_io P) | intros ?].
  eapply calmly_bind; [eapply (mildly_with P), mildly_file; exact HP |].
  intros bytes. eapply calmly_bind.
  { apply (mildly_io (λ s, (∀ e, e ∈ chunks m → present s (entry_id e)) ∧ P s)). intros s n [? ?]. split; [done | by apply HPc]. }
  intros ?. apply calmly_then; [exact Hb | intros _]. eapply calmly_bind; [by apply (mildly_io always) | intros ?].
  intros s Hg _. split; [by apply (good_same blake3 Zs config s) | by apply fewer_calm].
Qed.

Lemma verify_calmly m (then_ : StoreM unit) (P : Store → Prop) :
  (∀ s s', mild s s' → P s → P s') →
  calmly (λ s, (∀ e, e ∈ chunks m → present s (entry_id e)) ∧ P s) then_ → calmly P (verify_then blake3 Zs fails m then_).
Proof.
  intros HP Hb. unfold verify_then.
  eapply calmly_bind; [eapply (mildly_past P), mildly_check; exact HP |].
  intros ?. eapply calmly_bind; [eapply (mildly_with P), mildly_file; exact HP |].
  intros ?. exact Hb.
Qed.

(** ** Ingesting *)
Lemma from_chunks_genuine p total hash entries m :
  params_ok p → 0 ≤ total → is_digest hash → Forall (λ e, 0 ≤ len e ∧ is_digest (entry_id e)) entries →
  from_chunks blake3 Fs p total hash entries = Ok m → genuine m ∧ chunks m = entries.
Proof.
  intros Hp Ht Hh He. unfold from_chunks. rewrite result_bind_Ok. intros ([] & Hc & [= <-]).
  apply check_iff in Hc; [| done | done | eapply Forall_impl; [exact He |]; by intros e [? _]].
  split; [| done]. split; cbn; [done | done | done | eapply Forall_impl; [exact He |]; by intros e [_ ?] | done].
Qed.

Lemma next_chunk_len c c' o : next_chunk blake3 c = (c', Ok o) → 0 ≤ c_len c → 0 ≤ c_len c'.
Proof.
  unfold next_chunk, mbind, SE_bind, se_get, se_mod, mret, SE_ret. destruct (cdc c) as [| [data | e] rest]; [by intros [= <- _] | | done].
  cbv zeta. destruct (_ <? _); [done |]. intros [= <- _]. cbn. lia.
Qed.

Lemma drain_len fuel c c' o : drain blake3 fuel c = (c', Ok o) → 0 ≤ c_len c → 0 ≤ c_len c'.
Proof.
  revert c o. induction fuel as [| fuel IH]; intros c o; cbn [drain]; [by intros [= <- _] |]. unfold mbind at 1, SE_bind at 1.
  destruct (next_chunk blake3 c) as [c1 [[chunk |] | e]] eqn:E1; [| intros [= <- _]; by eapply next_chunk_len | done].
  unfold mbind, SE_bind. destruct (drain blake3 fuel c1) as [c2 [rest | e]] eqn:E2; [| done]. intros [= <- _] Hc.
  eapply IH; [done |]. by eapply next_chunk_len.
Qed.

Lemma finish_digest c total hash : finish blake3 c = Ok (total, hash) → 0 ≤ c_len c → 0 ≤ total ∧ is_digest hash.
Proof.
  unfold finish. destruct (drain blake3 _ c) as [c' [rest | e]] eqn:E; [| done]. intros [= <- <-] Hc.
  split; [by eapply drain_len | apply blake3_digest].
Qed.

Definition stored (s : Store) (e : ChunkEntry) : Prop := present s (entry_id e) ∧ 0 ≤ len e ∧ is_digest (entry_id e).

Lemma mildly_ingest_chunks fuel c : cuts_ok (cdc c) → 0 ≤ c_len c →
  mildly always (ingest_chunks blake3 Zs config fails fuel c) (λ found s, 0 ≤ c_len found.1 ∧ Forall (stored s) found.2).
Proof.
  revert c. induction fuel as [| fuel IH]; intros c Hc Hl; cbn [ingest_chunks].
  { apply mildly_pure. intros a s [= <-] _. by split. }
  pose proof (next_chunk_cases blake3 c) as Hn. pose proof (next_chunk_len c) as Hlen.
  destruct (next_chunk blake3 c) as [c' [[chunk |] | e]].
  2: { apply mildly_pure. intros a s [= <-] _. split; [by eapply Hlen | done]. } 2: { by apply mildly_pure. }
  destruct Hn as (rest & E1 & E2 & E3). cbv zeta.
  assert (0 < Z.of_nat (length (chunk_data chunk)) ≤ MAX_CHUNK_LEN) as Hb by (apply Hc; rewrite E1; by left).
  assert (chunk_len (chunk_data chunk) = Z.of_nat (length (chunk_data chunk))) as El.
  { unfold chunk_len. rewrite (proj2 (Z.leb_le _ _)); [done |]. unfold MAX_CHUNK_LEN, u32_max in *. lia. }
  eapply mildly_bind; [apply mildly_has |]. intros there.
  apply (mildly_bind _ _ _ (λ _ s, present s (chunk_id chunk))).
  { destruct there; [apply mildly_pure; intros a s _ H; by apply H |].
    eapply mildly_weaken; [| | apply (mildly_bind always _ _ (λ _, always)); [by apply mildly_attempt |]]; [done | intros a s H; exact H |].
    intros [|]; [| by apply mildly_pure]. rewrite El, E3. eapply mildly_write; [done | by apply decode_compressed]. }
  intros _. eapply mildly_bind; [eapply mildly_with; [| apply IH] |]; [intros s s' M; apply M | | by eapply Hlen |].
  { intros piece Hp. apply Hc. rewrite E1, <- E2. by right. }
  intros found. apply mildly_pure. intros a s [= <-] [[H1 H2] H3]. split; [exact H1 |]. cbn. constructor; [| exact H2].
  split; [exact H3 |]. cbn. rewrite El, E3. split; [lia | apply blake3_digest].
Qed.

Lemma stored_mild s s' e : mild s s' → stored s e → stored s' e.
Proof. intros M [H1 H2]. split; [by apply M | done]. Qed.

Lemma ingest_calmly source p : cuts_ok source → params_ok p → calmly always (ingest blake3 Fs Zs config fails source p).
Proof.
  intros Hc Hp. unfold ingest. eapply calmly_bind; [by apply (mildly_zstd always) | intros ?].
  eapply calmly_bind; [by apply mildly_ingest_chunks |]. intros found.
  apply (calmly_bind _ _ _ (λ th s, 0 ≤ th.1 ∧ is_digest th.2 ∧ Forall (stored s) found.2)).
  { apply mildly_pure. intros [total hash] s Hf [H1 H2]. destruct (finish blake3 found.1) as [th | e] eqn:Ef; [| done].
    injection Hf as ->. apply finish_digest in Ef as [? ?]; [| exact H1]. done. }
  intros [total hash].
  apply (calmly_bind _ _ _ (λ m s, genuine m ∧ ∀ e, e ∈ chunks m → present s (entry_id e))).
  { apply mildly_pure. intros m s Hm (H1 & H2 & H3). destruct (from_chunks _ _ _ _ _ _) as [m' | e] eqn:Em; [| done].
    injection Hm as ->. apply from_chunks_genuine in Em as [Hg Ec]; [| done | done | done | eapply Forall_impl; [exact H3 |]; by intros e (_ & ? & ?)].
    split; [exact Hg |]. rewrite Ec. intros e He. rewrite Forall_forall in H3. by apply H3. }
  intros m s Hg [Hm Hpr]. eapply (calmly_then (λ s, ∀ e, e ∈ chunks m → present s (entry_id e))); [by apply write_root_calmly | | done | done].
  intros _. apply calmly_pure.
Qed.

(** ** Sinks *)

(** An open sink has its claim, and what is pending for it is its manifest. *)
Definition open_ok (s : Store) (k : ChunkSink) : Prop :=
  claim k = negb (finished k) ∧ genuine (sink_manifest k) ∧
  (finished k = false → Manifest.id (sink_manifest k) ∈ open_sinks s ∧ owns (sink_manifest k) s).

Lemma open_ok_calm gone s s' k : calm gone s s' → open_ok s k → open_ok s' k.
Proof.
  intros [_ _ C3 C4] (H1 & H2 & H3). split; [done |]. split; [done |]. intros Hf. destruct (H3 Hf) as [Hi Ho].
  split; [by rewrite C3 |]. intros bytes Hb. by apply Ho, C4.
Qed.

Lemma open_ok_dropped id s k : (finished k = false → Manifest.id (sink_manifest k) ≠ id) → open_ok s k → open_ok (drop_claim id s) k.
Proof.
  intros Hne (H1 & H2 & H3). split; [done |]. split; [done |]. intros Hf. destruct (H3 Hf) as [Hi Ho].
  split; [cbn; specialize (Hne Hf); set_solver | exact Ho].
Qed.

(** A call on a sink that goes on: the store stays calm, and the sink is the same
    transfer. *)
Definition same_sink (k k' : ChunkSink) : Prop :=
  sink_manifest k' = sink_manifest k ∧ finished k' = finished k ∧ claim k' = claim k.
Definition still (s s' : Store) : Prop := roots s' = roots s ∧ files s' = files s.
Definition goes_on {A} (m : SinkM A) : Prop :=
  ∀ t, good_transfer blake3 Zs config t → let t' := (m t).1 in
    good_transfer blake3 Zs config t' ∧ calm nobody (store t) (store t') ∧ same_sink (sink t) (sink t') ∧ still (store t) (store t').

Lemma on_refl {A} (r : result A SinkError) : goes_on (λ t, (t, r)).
Proof. intros t Ht. split; [done |]. split; [by apply mild_calm, mild_same | done]. Qed.

Lemma on_bind {A B} (m : SinkM A) (k : A → SinkM B) : goes_on m → (∀ a, goes_on (k a)) → goes_on (m ≫= k).
Proof.
  intros Hm Hk t Ht. destruct (Hm t Ht) as (H1 & C1 & (S1 & S2 & S3) & W1 & W2). unfold mbind, SE_bind.
  destruct (m t) as [t1 [a | e]]; [| done]. destruct (Hk a t1 H1) as (H2 & C2 & (U1 & U2 & U3) & X1 & X2). cbn [fst] in *.
  split; [done |]. split; [by eapply calm_trans |]. unfold same_sink, still. by rewrite U1, U2, U3, X1, X2.
Qed.

Lemma on_get {A} (k : Transfer → SinkM A) :
  (∀ t, good_transfer blake3 Zs config t → goes_on (k t)) → goes_on (se_get ≫= k).
Proof. intros Hk t Ht. exact (Hk t Ht t Ht). Qed.

Lemma on_mild {A} (m : StoreM A) Q : mildly always m Q → goes_on (in_store m).
Proof.
  intros Hm t [H1 H2]. unfold in_store. specialize (Hm _ H1 I). destruct (m (store t)) as [s r]. destruct Hm as (? & M & _).
  split; [by split |]. split; [by apply mild_calm |]. split; [done |]. split; [apply M | apply (mi_files _ _ M)].
Qed.

Lemma on_set f : (∀ k, sink_lengths (f k) = sink_lengths k ∧ same_sink k (f k)) → goes_on (set_sink f).
Proof.
  intros Hf t [H1 H2]. split; [split; [exact H1 |] |].
  - intros id n. cbn. rewrite (proj1 (Hf _)). apply H2.
  - split; [by apply mild_calm, mild_same |]. split; [apply Hf | done].
Qed.

Lemma refresh_on : goes_on (refresh fails).
Proof.
  apply on_get. intros t _. eapply on_bind; [eapply on_mild, mildly_missing |]. intros lacking. cbv zeta.
  apply on_bind; [by apply on_set | intros _; apply on_refl].
Qed.

Lemma put_on id frame : goes_on (put_chunk blake3 Zs config fails id frame).
Proof.
  apply on_get. intros t Ht. cbv zeta. destruct (finished (sink t)); [apply on_refl |].
  destruct (sink_lengths (sink t) !! id) as [n |] eqn:En; [| apply on_refl]. destruct (negb _); [apply on_refl |].
  pose proof (proj2 Ht id n En) as Hn. unfold mbind at 1, SE_bind at 1, se_lift.
  destruct (decode_chunk blake3 Zs id n frame) as [raw | e] eqn:Ed; [| apply (on_refl (Err _))].
  pose proof (decode_Ok _ _ _ _ _ _ Ed) as (_ & Hlen & Hhash & _). apply on_bind.
  - destruct (recompress_received config).
    + apply on_bind; [eapply on_mild; by apply (mildly_attempt always) |]. intros [|]; [| apply (on_refl (Err _))].
      eapply on_mild. rewrite <- Hlen, <- Hhash. eapply mildly_write; [by rewrite Hlen | apply decode_compressed; [done | by rewrite Hlen]].
    + eapply on_mild. by eapply mildly_write.
  - intros _. apply on_bind; [by apply on_set | intros _; apply on_refl].
Qed.

(** *** Claims *)
Definition claimed (id : ManifestId) (s : Store) : Store := s <| open_sinks := {[id]} ∪ open_sinks s |>.

Lemma good_claimed id s : good s → good (claimed id s).
Proof. by apply good_same. Qed.
Lemma good_dropped id s : good s → good (drop_claim id s).
Proof. by apply good_same. Qed.

(** A claim taken and given back. *)
Lemma claimed_calm id s s' : id ∉ open_sinks s → calm nobody (claimed id s) s' → calm nobody s (drop_claim id s').
Proof.
  intros Hid [C1 C2 C3 C4]. split; [exact C1 | exact C2 | cbn; rewrite C3; cbn; set_solver |].
  intros i b Hi Hb. apply (C4 i b); [cbn; set_solver | exact Hb].
Qed.

Definition fresh (m : Manifest) (k : ChunkSink) : Prop := sink_manifest k = m ∧ finished k = false ∧ claim k = true.

Lemma start_cases s m : good s → valid m →
  match start config fails s m with
  | (s', Ok k) => calm nobody s s' ∧ fresh m k ∧ still s s'
  | (s', Err _) => ∃ s1, calm nobody s s1 ∧ s' = drop_claim (Manifest.id m) s1 ∧ still s s1
  end.
Proof.
  intros Hg Hv. unfold start.
  assert (goes_on (_ ← in_store (zstd_ready fails);
    _ ← (if recompress_received config then in_store (zstd_ready fails) else mret tt); _ ← refresh fails; mret tt)) as Hk.
  { apply on_bind; [eapply on_mild; by apply (mildly_zstd always) | intros ?].
    apply on_bind; [destruct (recompress_received config); [eapply on_mild; by apply (mildly_zstd always) | apply on_refl] | intros ?].
    apply on_bind; [apply refresh_on | intros; apply on_refl]. }
  destruct (Hk (MkTransfer s (new_sink m)) (conj Hg (new_sink_good m Hv))) as (_ & C & (S1 & S2 & S3) & W).
  match type of C with calm _ _ (store (?m0 _).1) => destruct (m0 (MkTransfer s (new_sink m))) as [t [[] | e]] end; cbn [fst store sink] in *.
  - split; [exact C |]. split; [| exact W]. split; [exact S1 |]. split; [exact S2 | exact S3].
  - by exists (store t).
Qed.

(** How a sink starts: it takes the claim nobody had, or nothing happens. *)
Definition starts (s : Store) (r : Store * result ChunkSink SinkError) : Prop :=
  match r with
  | (s', Ok k) => genuine (sink_manifest k) ∧ fresh (sink_manifest k) k ∧
      let id := Manifest.id (sink_manifest k) in
      id ∉ open_sinks s ∧ id ∈ open_sinks s' ∧ owns (sink_manifest k) s' ∧ calm nobody s (drop_claim id s') ∧
      open_sinks s' = {[id]} ∪ open_sinks s ∧ still s s'
  | (s', Err _) => calm nobody s s' ∧ still s s'
  end.

Lemma starts_from s s1 m : good s1 → genuine m → Manifest.id m ∉ open_sinks s →
  calm nobody s (drop_claim (Manifest.id m) s1) → open_sinks s1 = {[Manifest.id m]} ∪ open_sinks s → owns m s1 → still s s1 →
  starts s (start config fails s1 m).
Proof.
  intros Hg Hm Hid C1 Eo Ho [W1 W2]. pose proof (start_cases s1 m Hg (conj (mo_params _ _ _ Hm) (mo_layout _ _ _ Hm))) as Hs.
  assert (∀ s2, calm nobody s1 s2 → calm nobody s (drop_claim (Manifest.id m) s2)) as Hdrop.
  { intros s2 [A1 A2 A3 A4]. destruct C1 as [B1 B2 B3 B4]. split; [auto | intros i Hi Hk; apply A2; [done | by apply B2] | cbn; rewrite A3, Eo; set_solver |].
    intros i b Hi Hb. apply (B4 i b Hi). apply (A4 i b); [rewrite Eo; set_solver | exact Hb]. }
  destruct (start config fails s1 m) as [s' [k | e]].
  - destruct Hs as (C & (Ek & Hf) & X1 & X2). cbn. rewrite Ek. split; [done |]. split; [by split |]. split; [done |].
    pose proof C as [_ _ A3 A4]. split; [rewrite A3, Eo; set_solver |].
    split; [intros b Hb; apply Ho, A4; [rewrite Eo; set_solver | exact Hb] |]. split; [by apply Hdrop |].
    split; [by rewrite A3 | split; congruence].
  - destruct Hs as (s2 & C & -> & X1 & X2). split; [by apply Hdrop | split; cbn; congruence].
Qed.

Lemma open_starts s m : good s → genuine m → starts s (open_sink Fs config fails s m).
Proof.
  intros Hg Hm. unfold open_sink, claim_sink. destruct (bool_decide_reflect (Manifest.id m ∈ open_sinks s)) as [| Hid]; [split; [by apply mild_calm, mild_same | done] |].
  fold (claimed (Manifest.id m) s). unfold save_pending, write_record.
  pose proof (good_claimed (Manifest.id m) s Hg) as Hg1. set (s1 := claimed (Manifest.id m) s) in *.
  assert (∀ n, calm nobody s (drop_claim (Manifest.id m) (s1 <| calls := n |>)) ∧ still s (drop_claim (Manifest.id m) (s1 <| calls := n |>))) as Hfail.
  { intros n. split; [| done]. apply claimed_calm; [done |]. by apply mild_calm, mild_same. }
  unfold mbind at 1, SE_bind at 1. destruct (io_cases fails s1) as (r1 & -> & [-> | ->]); [| apply Hfail].
  unfold mbind at 1, SE_bind at 1. destruct (io_cases fails (s1 <| calls := S (calls s1) |>)) as (r2 & -> & [-> | ->]); [| apply Hfail].
  unfold mbind at 1, SE_bind at 1. match goal with |- context [io fails ?x] => destruct (io_cases fails x) as (r3 & -> & [-> | ->]) end; [| apply Hfail].
  unfold se_mod. apply starts_from; [by apply (good_same blake3 Zs config s1) | done | done | | done | | done].
  - split; [done | done | cbn; set_solver |]. intros i b Hi Hb. cbn in Hb. rewrite lookup_insert_ne in Hb by congruence. done.
  - intros b Hb. cbn in Hb. rewrite lookup_insert_eq in Hb. injection Hb as <-. by apply genuine_reads.
Qed.

Lemma resume_starts s id : good s → starts s (resume_sink blake3 Fs config fails s id).
Proof.
  intros Hg. unfold resume_sink, claim_sink. destruct (bool_decide_reflect (id ∈ open_sinks s)) as [| Hid]; [split; [by apply mild_calm, mild_same | done] |].
  fold (claimed id s). pose proof (load_record_cases blake3 Fs fails RecordPending id (claimed id s)) as Hl.
  destruct (load_record blake3 Fs fails RecordPending id (claimed id s)) as [s1 [m | e]]; destruct Hl as [[n ->] Hl].
  - destruct Hl as (bytes & Hb & Hr). pose proof (reads_genuine _ _ _ Hr) as Hm. pose proof Hr as (_ & _ & Ei).
    apply starts_from; rewrite ?Ei; [by apply (good_same blake3 Zs config s) | done | done | | done | | done].
    + apply claimed_calm; [done |]. by apply mild_calm, mild_same.
    + intros b Hb'. cbn in Hb, Hb'. rewrite Ei in *. assert (b = bytes) as -> by congruence. exact Hr.
  - split; [| done]. apply claimed_calm; [done |]. by apply mild_calm, mild_same.
Qed.

(** *** Giving up *)
Lemma abandon_calm s t : let id := Manifest.id (sink_manifest (sink t)) in
  finished (sink t) = false → claim (sink t) = true →
  calm nobody s (drop_claim id (store t)) → calm nobody s (abandon fails t).1.
Proof.
  intros id Hf Hc C. unfold abandon. rewrite Hf, Hc. fold id.
  destruct (remove_cases RecordPending id (store t)) as [n Hr].
  assert (calm nobody s (drop_claim id (remove_record fails RecordPending id (store t)).1)) as C'.
  { eapply calm_trans; [exact C |]. destruct Hr as [-> | ->]; [by apply mild_calm, mild_same |].
    apply fewer_calm; [done | done | done | done |]. intros i b _ Hb. cbn in Hb. by apply lookup_delete_Some in Hb as [_ Hb]. }
  destruct (remove_record fails RecordPending id (store t)) as [s' [[] | e]]; exact C'.
Qed.

Lemma abandon_each_calm ids n s : good s → calm nobody s (abandon_each blake3 Fs config fails ids n s).1.
Proof.
  revert n s. induction ids as [| id ids IH]; intros n s Hg; cbn [abandon_each]; [by apply mild_calm, mild_same |].
  pose proof (resume_starts s id Hg) as Hs. pose proof (resume_good blake3 Fs Zs config fails fields s id Hg) as [Hg1 Hk].
  destruct (resume_sink blake3 Fs config fails s id) as [s1 [k | e]]; cbn [fst snd] in *.
  - destruct Hs as (_ & (_ & Hf & Hc) & _ & _ & _ & C & _).
    pose proof (abandon_calm s (MkTransfer s1 k) Hf Hc C) as C2.
    pose proof (abandon_good blake3 Zs config fails (MkTransfer s1 k) (conj Hg1 Hk)) as Hg2.
    destruct (abandon fails (MkTransfer s1 k)) as [s2 [[] | e]]; cbn [fst] in *.
    + eapply calm_trans; [exact C2 | by apply IH].
    + destruct e; first [exact C2 | eapply calm_trans; [exact C2 | by apply IH]].
  - destruct Hs as [Hs _]. destruct e as [| | | | | | e]; try (eapply calm_trans; [exact Hs | by apply IH]).
    destruct e; first [exact Hs | eapply calm_trans; [exact Hs | by apply IH] | idtac].
    unfold mbind, SE_bind. pose proof (remove_pending_calm id s1) as C2.
    pose proof (remove_record_good blake3 Zs config fails RecordPending id s1 Hg1) as Hg2.
    destruct (remove_record fails RecordPending id s1) as [s2 [[] | e2]]; cbn [fst] in *;
      (eapply calm_trans; [exact Hs |]); [eapply calm_trans; [exact C2 | by apply IH] | exact C2].
Qed.

(** *** Ending a transfer *)

(** It goes on, or it is over and its claim is gone. *)
Definition ends (t t' : Transfer) : Prop :=
  sink_manifest (sink t') = sink_manifest (sink t) ∧
  ((calm nobody (store t) (store t') ∧ same_sink (sink t) (sink t')) ∨
   finished (sink t) = false ∧ finished (sink t') = true ∧ claim (sink t') = false ∧
   ∃ s1, calm nobody (store t) s1 ∧ calm nobody (drop_claim (Manifest.id (sink_manifest (sink t))) s1) (store t')).

Lemma ends_refl t : ends t t.
Proof. split; [done |]. left. split; [by apply mild_calm, mild_same | done]. Qed.

Lemma ending_ends (final : Manifest → StoreM unit) t :
  good_transfer blake3 Zs config t → open_ok (store t) (sink t) →
  (∀ m, genuine m → calmly (owns m) (final m)) → ends t (ending fails final t).1.
Proof.
  intros Ht (Hc & Hm & Ho) Hfinal. unfold ending, mbind, SE_bind, se_get. destruct (finished (sink t)) eqn:Ef; [apply ends_refl |].
  destruct (negb (bool_decide _)); [apply ends_refl |]. destruct (Ho eq_refl) as [Hid Hown]. set (m := sink_manifest (sink t)) in *.
  destruct (Hfinal m Hm (store t) (proj1 Ht) Hown) as [Hg C]. destruct (final m (store t)) as [s1 r]. cbn [fst] in *.
  destruct r as [[] | e]; cbn [settle].
  - split; [done |]. right. split; [done |]. split; [done |]. split; [done |]. exists s1. split; [exact C | by apply mild_calm, mild_same].
  - destruct (is_inconsistent e).
    + unfold mbind, SE_bind, se_get, end_sink, se_mod, in_store. cbn [sink store]. fold m.
      match goal with |- context [remove_record fails RecordPending ?i ?x] => pose proof (remove_pending_calm i x) as C2;
        destruct (remove_record fails RecordPending i x) as [s2 r2] end. cbn [fst] in C2.
      assert (ends t (MkTransfer s2 ((sink t) <| finished := true |> <| claim := false |>))) as He.
      { split; [done |]. right. split; [done |]. split; [done |]. split; [done |]. exists s1. by split. }
      destruct r2 as [[] | e2]; exact He.
    + destruct (refresh_on (t <| store := s1 |>)) as (_ & C2 & S & _); [split; [exact Hg | apply Ht] |].
      split; [apply S |]. left. cbn [fst]. split; [by eapply calm_trans | exact S].
Qed.

(** * Any use of a store *)
Record whole_process (w : Process) : Prop := {
  wp_good : good_process blake3 Zs config w;
  wp_complete : complete (its_store w);
  wp_sinks : ∀ n k, sinks w !! n = Some k → open_ok (its_store w) k;
  wp_one : ∀ n1 n2 k1 k2, sinks w !! n1 = Some k1 → sinks w !! n2 = Some k2 → finished k1 = false → finished k2 = false →
    Manifest.id (sink_manifest k1) = Manifest.id (sink_manifest k2) → n1 = n2;
}.

(** The types say that much of what an operation is given. *)
Definition op_fine (op : StoreOp) : Prop :=
  match op with
  | OpIngest source p => cuts_ok source ∧ params_ok p
  | OpOpen _ m => genuine m
  | _ => True
  end.
Definition releases (op : StoreOp) : ManifestId → Prop := match op with OpRelease id => eq id | _ => nobody end.

Lemma op_fine_ok op : op_fine op → op_ok op.
Proof. destruct op; try done; cbn; [by intros [? _] | intros Hm; split; apply Hm]. Qed.

(** The invariant, and what it keeps. *)
Definition moves (gone : ManifestId → Prop) (w w' : Process) : Prop :=
  whole_process w → good_process blake3 Zs config w' → whole_process w' ∧ ∀ id, ¬ gone id → kept (its_store w) id → kept (its_store w') id.

Lemma moves_store {A} gone (m : StoreM A) w :
  (good (its_store w) → calm gone (its_store w) (m (its_store w)).1) → moves gone w (on_store m w).
Proof.
  intros Hc [H1 H2 H3 H4] Hg. specialize (Hc (proj1 H1)). split; [| apply Hc]. split; [done | by apply Hc | | exact H4].
  intros n k Hk. by eapply open_ok_calm; [| apply (H3 n)].
Qed.

(** One sink changes; the others are of other snapshots. *)
Lemma moves_sink {A} n (m : SinkM A) w :
  (∀ t, good_transfer blake3 Zs config t → open_ok (store t) (sink t) → ends t (m t).1) → moves nobody w (on_sink n m w).
Proof.
  intros Hm [H1 H2 H3 H4] Hg. unfold on_sink in *. destruct (sinks w !! n) as [k |] eqn:Ek; [| by split].
  destruct (Hm (MkTransfer (its_store w) k)) as [Em He]; [split; [apply H1 | by eapply H1] | by eapply H3 |].
  set (t' := (m (MkTransfer (its_store w) k)).1) in *. cbn [store sink its_store sinks] in *.
  destruct He as [[C (S1 & S2 & S3)] | (F0 & F & F' & s1 & C1 & C2)].
  - split; [| apply C]. split; [done | by apply C | |].
    + intros n' k' Hk'. cbn in Hk'. destruct (decide (n' = n)) as [-> | Hne].
      * rewrite lookup_insert_eq in Hk'. injection Hk' as <-. pose proof (open_ok_calm _ _ _ _ C (H3 n k Ek)) as (O1 & O2 & O3).
        split; [by rewrite S2, S3 |]. split; [by rewrite S1 |]. rewrite S1, S2. exact O3.
      * rewrite lookup_insert_ne in Hk' by done. by eapply open_ok_calm; [| apply (H3 n')].
    + intros n1 n2 k1 k2 E1 E2 F1 F2 Ei. cbn in E1, E2.
      assert (∀ n' k', <[n := sink t']> (sinks w) !! n' = Some k' → finished k' = false →
        ∃ k0, sinks w !! n' = Some k0 ∧ finished k0 = false ∧ sink_manifest k0 = sink_manifest k') as Hback.
      { intros n' k' E F. destruct (decide (n' = n)) as [-> | ?]; [| rewrite lookup_insert_ne in E by done; by exists k'].
        rewrite lookup_insert_eq in E. injection E as <-. exists k. by rewrite <- S2. }
      destruct (Hback _ _ E1 F1) as (k1' & G1 & G2 & G3), (Hback _ _ E2 F2) as (k2' & G4 & G5 & G6).
      eapply (H4 n1 n2 k1' k2'); [done.. |]. by rewrite G3, G6.
  - set (id := Manifest.id (sink_manifest k)) in *.
    assert (∀ n' k', n' ≠ n → sinks w !! n' = Some k' → finished k' = false → Manifest.id (sink_manifest k') ≠ id) as Hother.
    { intros n' k' Hne E F1 Ei. destruct Hne. by eapply H4. }
    split; [| intros i Hi Hk; apply C2; [done | by apply C1]]. split; [done | by apply C2, C1 | |].
    + intros n' k' Hk'. cbn in Hk'. destruct (decide (n' = n)) as [-> | Hne].
      * rewrite lookup_insert_eq in Hk'. injection Hk' as <-. split; [by rewrite F, F' |]. split; [rewrite Em; by apply (H3 n k Ek) |].
        by rewrite F.
      * rewrite lookup_insert_ne in Hk' by done. eapply open_ok_calm; [exact C2 |]. apply open_ok_dropped; [intros Fk; by eapply Hother |].
        by eapply open_ok_calm; [| apply (H3 n')].
    + intros n1 n2 k1 k2 E1 E2 F1 F2. cbn in E1, E2.
      assert (∀ n' k', <[n := sink t']> (sinks w) !! n' = Some k' → finished k' = false → sinks w !! n' = Some k') as Hback.
      { intros n' k' E Fk. destruct (decide (n' = n)) as [-> | ?]; [| by rewrite lookup_insert_ne in E].
        rewrite lookup_insert_eq in E. injection E as <-. congruence. }
      eapply H4; [by apply Hback | by apply Hback | done | done].
Qed.

Lemma goes_on_ends {A} (m : SinkM A) t : goes_on m → good_transfer blake3 Zs config t → ends t (m t).1.
Proof. intros Hm Ht. destruct (Hm t Ht) as (_ & C & S & _). split; [apply S | by left]. Qed.

Lemma moves_start n start w :
  (∀ s, good s → starts s (start s)) → moves nobody w (on_start n start w).
Proof.
  intros Hs [H1 H2 H3 H4] Hg. unfold on_start in *. destruct (sinks w !! n) as [k0 |] eqn:En; [by split |].
  specialize (Hs _ (proj1 H1)). destruct (start (its_store w)) as [s' [k | e]]; cbn in *.
  - destruct Hs as (Hm & (_ & Hf & Hc) & Hnot & Hin & Hown & C & Eo & _). set (id := Manifest.id (sink_manifest k)) in *.
    split; [| apply C]. split; [done | by apply C | |]; cbn.
    + intros n' k' Hk'. cbn in Hk'. destruct (decide (n' = n)) as [-> | Hne].
      * rewrite lookup_insert_eq in Hk'. injection Hk' as <-. split; [by rewrite Hf, Hc |]. by split.
      * rewrite lookup_insert_ne in Hk' by done. pose proof (open_ok_calm _ _ _ _ C (H3 n' k' Hk')) as (O1 & O2 & O3).
        split; [done |]. split; [done |]. intros F. destruct (O3 F) as [I1 I2]. split; [| exact I2]. cbn in I1. set_solver.
    + intros n1 n2 k1 k2 E1 E2 F1 F2 Ei. cbn in E1, E2.
      assert (∀ n' k', n' ≠ n → sinks w !! n' = Some k' → finished k' = false → Manifest.id (sink_manifest k') ≠ id) as Hother.
      { intros n' k' Hne E F' Ek. destruct (H3 n' k' E) as (_ & _ & O3). destruct (O3 F') as [I1 _]. congruence. }
      destruct (decide (n1 = n)) as [-> | N1], (decide (n2 = n)) as [-> | N2]; [done | | |].
      * rewrite lookup_insert_eq in E1. injection E1 as <-. rewrite lookup_insert_ne in E2 by done. by destruct (Hother n2 k2 N2 E2 F2).
      * rewrite lookup_insert_eq in E2. injection E2 as <-. rewrite lookup_insert_ne in E1 by done. by destruct (Hother n1 k1 N1 E1 F1).
      * rewrite lookup_insert_ne in E1, E2 by done. by eapply H4.
  - destruct Hs as [Hs _]. split; [| apply Hs]. split; [done | by apply Hs | | exact H4]. intros n' k' Hk'. by eapply open_ok_calm; [| apply (H3 n')].
Qed.

Lemma moves_abandon n w : moves nobody w
  (match sinks w !! n with
   | None => w
   | Some k => MkProcess (abandon fails (MkTransfer (its_store w) k)).1 (delete n (sinks w))
   end).
Proof.
  intros [H1 H2 H3 H4] Hg. destruct (sinks w !! n) as [k |] eqn:Ek; [| by split]. set (t := MkTransfer (its_store w) k) in *.
  assert (∃ s1, calm nobody (its_store w) s1 ∧ (∀ k', (finished k = false → finished k' = false →
    Manifest.id (sink_manifest k') ≠ Manifest.id (sink_manifest k)) → open_ok (its_store w) k' → open_ok (abandon fails t).1 k') ∧
    chunk_files (abandon fails t).1 = chunk_files s1 ∧ roots (abandon fails t).1 = roots s1) as (s1 & C & Hok & E1 & E2).
  { destruct (H3 n k Ek) as (Oc & _ & _). unfold abandon. cbn [sink store t]. rewrite Oc. destruct (finished k) eqn:Ef; cbn [negb].
    - exists (its_store w). split; [by apply mild_calm, mild_same |]. by split.
    - pose proof (remove_pending_calm (Manifest.id (sink_manifest k)) (its_store w)) as C.
      destruct (remove_record fails RecordPending _ (its_store w)) as [s1 r]. exists s1. split; [exact C |].
      assert (∀ k', (false = false → finished k' = false → Manifest.id (sink_manifest k') ≠ Manifest.id (sink_manifest k)) →
        open_ok (its_store w) k' → open_ok (drop_claim (Manifest.id (sink_manifest k)) s1) k') as Hd.
      { intros k' Hne Ho. apply open_ok_dropped; [by apply Hne | by eapply open_ok_calm]. }
      by destruct r as [[] | e]. }
  assert (∀ m, saved RecordRoot (abandon fails t).1 m ↔ saved RecordRoot s1 m) as Hsv by (intros m; unfold StoreInv.saved; cbn; by rewrite E2).
  split; [split; [done | | |] |]; cbn [its_store sinks].
  - intros m e Hm He. unfold present. rewrite E1. apply (ca_complete _ _ _ C H2 m e); [by apply Hsv | done].
  - intros n' k' Hk'. apply lookup_delete_Some in Hk' as [Hne Hk']. apply Hok; [| by eapply H3].
    intros F F' Ei. apply Hne. by eapply (H4 n n' k k').
  - intros n1 n2 k1 k2 [_ G1]%lookup_delete_Some [_ G2]%lookup_delete_Some. by eapply H4.
  - intros id Hid Hk. destruct (ca_kept _ _ _ C id Hid Hk) as (m & Em & Hm). exists m. split; [done | by apply Hsv].
Qed.

Lemma use_moves w op : op_fine op → moves (releases op) w (use blake3 Fs Zs config fails named w op).
Proof.
  intros Hop. destruct op; cbn [use releases].
  - apply moves_store. intros Hg. by apply (ingest_calmly _ _ (proj1 Hop) (proj2 Hop)).
  - apply moves_store. intros Hg. eapply (mildly_calmly always); [| done | done]. unfold read_chunk.
    eapply mildly_bind; [by apply (mildly_zstd always) | intros ?]. eapply mildly_bind; [apply mildly_load |]. intros l. by apply (mildly_pure _ _ whatever).
  - apply moves_store. intros Hg. eapply (mildly_calmly always); [| done | done]. unfold read_compressed.
    eapply mildly_bind; [by apply (mildly_zstd always) | intros ?]. eapply mildly_bind; [apply mildly_load |]. intros l. by apply (mildly_pure _ _ whatever).
  - apply moves_store. intros _. unfold manifest. pose proof (load_record_cases blake3 Fs fails RecordRoot id (its_store w)) as H1.
    destruct (load_record blake3 Fs fails RecordRoot id (its_store w)) as [s1 r]. destruct H1 as [[n ->] _].
    assert (calm nobody (its_store w) ((its_store w) <| calls := n |>)) as C by (by apply mild_calm, mild_same).
    destruct r as [m | []]; try exact C. match goal with |- context [load_record _ _ _ RecordPending ?i ?x] =>
      pose proof (load_record_cases blake3 Fs fails RecordPending i x) as H2; destruct (load_record blake3 Fs fails RecordPending i x) as [s2 r2] end.
    destruct H2 as [[n2 ->] _]. by apply mild_calm, mild_same.
  - apply moves_store. intros Hg. apply (assemble_calmly m dest (mret tt) always); [done | apply calmly_pure | done | done].
  - apply moves_store. intros _. apply remove_root_calm.
  - apply moves_store. intros _. apply gc_calm.
  - apply moves_store. intros Hg. unfold abandon_idle_transfers, list_records, mbind, SE_bind.
    destruct (io_cases fails (its_store w)) as (r & -> & [-> | ->]); [| by apply mild_calm, mild_same]. unfold se_get, mret, SE_ret.
    eapply calm_trans; [by apply mild_calm, (mild_same (its_store w) ((its_store w) <| calls := S (calls (its_store w)) |>)) |].
    apply abandon_each_calm. by apply good_calls.
  - apply moves_start. intros s Hg. by apply open_starts.
  - apply moves_start. intros s Hg. by apply resume_starts.
  - apply moves_sink. intros t Ht _. apply goes_on_ends; [apply put_on | done].
  - apply moves_sink. intros t Ht _. apply goes_on_ends; [apply refresh_on | done].
  - apply moves_sink. intros t Ht Ho. apply ending_ends; [done | done |]. intros m Hm.
    apply assemble_calmly; [apply owns_mild |]. by apply promote_calmly.
  - apply moves_sink. intros t Ht Ho. apply ending_ends; [done | done |]. intros m Hm.
    apply verify_calmly; [apply owns_mild |]. by apply promote_calmly.
  - apply moves_abandon.
Qed.

Lemma use_whole w op : op_fine op → whole_process w →
  whole_process (use blake3 Fs Zs config fails named w op) ∧
  ∀ id, ¬ releases op id → kept (its_store w) id → kept (its_store (use blake3 Fs Zs config fails named w op)) id.
Proof.
  intros Hop Hw. apply (use_moves w op Hop Hw). apply use_good; [done | done | done | by apply op_fine_ok | apply Hw].
Qed.
End whole.
