(* ===== verification/Vault.v ===== *)
(** Snapshots in use: the server's ([crates/tpf3mp-server/src/snapshots.rs]), shared by
    its rooms and connections, and a player's ([crates/tpf3mp-agent/src/transfer.rs]).

    [Snapshots] counts holds over an abstract store; a [Vault] is the same counts over
    the chunk store itself, with whatever transfers are open.  Every operation of the
    store may fail; what the code logs and goes on from, goes on. *)
From S2P Require Import Prelude Proto Manifest Store Sink StoreInv StoreSpec Whole.
From S2P Require Snapshots.
Local Open Scope Z_scope.

(** * The server *)
Record SnapshotConfig := MkSnapshotConfig { snapshot_bytes : Z; every : Duration; min_gap : Duration }.

Definition SnapshotConfig_new : SnapshotConfig := MkSnapshotConfig (Z.shiftl 64 30) (from_secs 600) (from_secs 60).

(** What [Snapshots::open] makes of it: frames are compressed again, and no gap is
    longer than the time between saves. *)
Definition store_config (c : SnapshotConfig) : StoreConfig := MkStoreConfig (snapshot_bytes c) true.
Definition save_gap (c : SnapshotConfig) : Duration := Z.min (min_gap c) (every c).

Record Vault := MkVault {
  v_process : Process;
  v_holds : gmap ManifestId nat;
  v_released : bool;
}.
#[export] Instance eta_Vault : Eta Vault := fun v => MkVault (v_process v) (v_holds v) (v_released v).

Definition v_store (v : Vault) : Store := its_store (v_process v).

Section vault.
Context (blake3 : list Z → Z) (Fs : Fields) (Zs : Zstd).
Context (config : StoreConfig) (fails : nat → bool) (named : string → bool).

(** One use of the store. *)
Definition v_use (v : Vault) (op : StoreOp) : Vault :=
  v <| v_process := use blake3 Fs Zs config fails named (v_process v) op |>.

Definition v_hold (v : Vault) (id : ManifestId) : Vault :=
  v <| v_holds := <[id := S (default 0%nat (v_holds v !! id))]> (v_holds v) |>.

(** [Snapshots::drop_unheld], under the lock of the holds; a release that fails is
    logged. *)
Fixpoint v_drop_unheld (v : Vault) (ids : list ManifestId) : Vault :=
  match ids with
  | [] => v
  | id :: ids =>
      if bool_decide (is_Some (v_holds v !! id)) then v_drop_unheld v ids
      else v_drop_unheld ((v_use v (OpRelease id)) <| v_released := true |>) ids
  end.

(** [Snapshots::release], by one task alone: the counts, then what nobody holds. *)
Definition v_release (v : Vault) (ids : list ManifestId) : Vault :=
  let counted := Snapshots.release_counts (v_holds v) ids in
  v_drop_unheld (v <| v_holds := counted.1 |>) counted.2.

Definition v_collect (v : Vault) : Vault := v_use v (OpGc []).

Definition v_collect_released (v : Vault) : Vault :=
  let abandoned := match (abandon_idle_transfers blake3 Fs config fails (v_store v)).2 with Ok n => n | Err _ => 0%nat end in
  let v := v_use v OpAbandonIdle in
  let was := v_released v in
  let v := v <| v_released := false |> in
  if was || (0 <? abandoned)%nat then v_collect v else v.

(** [Snapshots::release_all_but], at the start of the server. *)
Definition v_release_all_but (v : Vault) (keep : list ManifestId) : Vault :=
  let v := foldl v_hold v keep in
  let v := v_use v OpAbandonIdle in
  let '(s, r) := list_records fails RecordRoot (v_store v) in
  let v := v <| v_process := MkProcess s (sinks (v_process v)) |> in
  let v := match r with
           | Ok retained => foldl (λ v id, v_use v (OpRelease id)) v (List.filter (λ id, negb (bool_decide (id ∈ keep))) retained)
           | Err _ => v
           end in
  v_collect v.

(** ** Steps

    Rooms and connections take turns at any of these; a release drops the lock
    between its two halves, so that others may come between them.  Connections serve
    and receive snapshots, but release none. *)
Record Shared := MkShared { vault : Vault; between : list (list ManifestId) }.

Inductive shared_step : Shared → Shared → Prop :=
  | shared_use v ps op : op_fine blake3 Fs op → (∀ id, ¬ releases op id) → shared_step (MkShared v ps) (MkShared (v_use v op) ps)
  | shared_hold v ps id : shared_step (MkShared v ps) (MkShared (v_hold v id) ps)
  | shared_release v ps ids :
      shared_step (MkShared v ps)
        (MkShared (v <| v_holds := (Snapshots.release_counts (v_holds v) ids).1 |>)
           ((Snapshots.release_counts (v_holds v) ids).2 :: ps))
  | shared_drop v ps ps' unheld : shared_step (MkShared v (ps ++ unheld :: ps')) (MkShared (v_drop_unheld v unheld) (ps ++ ps'))
  | shared_collect v ps : shared_step (MkShared v ps) (MkShared (v_collect_released v) ps).

Definition v_new : Vault := MkVault (MkProcess (MkStore ∅ ∅ ∅ ∅ 0 ∅ ∅ ∅ 0) ∅) ∅ false.
End vault.

(** * A player

    Where a player keeps worlds: the store, and the files received for the game to
    load, by their path.  [received] says which paths those are. *)
Section worlds.
Context (blake3 : list Z → Z) (Fs : Fields) (Zs : Zstd).
Context (config : StoreConfig) (fails : nat → bool).
Context (received : string → bool) (received_file : SnapshotId → string).

(** [Worlds::ingest]: the pieces the file is cut into are the argument; the file goes
    once the store has it. *)
Definition ingest_world (file : string) (source : list (result (list Z) unit)) : StoreM (Manifest * SavedWorld) :=
  _ ← io fails;
  m ← ingest blake3 Fs Zs config fails source DEFAULT;
  ok ← attempt fails;
  _ ← (if ok : bool then se_mod (λ s, s <| files := delete file (files s) |>) else mret tt);
  mret (m, MkSavedWorld (Manifest.id m) (total_size m)).

Fixpoint release_each (ids : list ManifestId) : StoreM unit :=
  match ids with
  | [] => mret tt
  | id :: ids => _ ← release fails id; release_each ids
  end.

Fixpoint remove_files (names : list string) : StoreM unit :=
  match names with
  | [] => mret tt
  | name :: names =>
      ok ← attempt fails;
      _ ← (if ok : bool then se_mod (λ s, s <| files := delete name (files s) |>) else mret tt);
      remove_files names
  end.

Definition keep_only (keep : list ManifestId) : StoreM unit :=
  _ ← abandon_idle_transfers blake3 Fs config fails;
  ids ← list_records fails RecordRoot;
  _ ← release_each (List.filter (λ id, negb (bool_decide (id ∈ keep))) ids);
  let wanted := received_file <$> keep in
  _ ← io fails;
  s ← se_get;
  _ ← remove_files (List.filter (λ f, received f && negb (bool_decide (f ∈ wanted))) (map_to_list (files s)).*1);
  _ ← gc blake3 Fs fails [];
  mret tt.
End worlds.

(** * What is held is served *)
Section held.
Context (blake3 : list Z → Z) (Fs : Fields) (Zs : Zstd).
Context (config : StoreConfig) (fails : nat → bool) (named : string → bool).
Hypothesis bound_range : max_bytes config < u64_max.
Hypothesis zstd : zstd_law Zs.
Hypothesis fields : FieldsLaws Fs.
Hypothesis blake3_digest : ∀ bytes, is_digest (blake3 bytes).

Abbreviation kept := (kept blake3 Fs).
Abbreviation whole := (whole_process blake3 Fs Zs config).
Abbreviation shared_step := (shared_step blake3 Fs Zs config fails named).

Definition v_held (v : Vault) (id : ManifestId) : Prop := is_Some (v_holds v !! id).

(** A retained snapshot's manifest, and a chunk, when the disk works. *)
Lemma manifest_read s m : saved blake3 Fs RecordRoot s m → (manifest blake3 Fs never (Manifest.id m) s).2 = Ok m.
Proof.
  intros (bytes & Hb & Hr). unfold manifest. pose proof (load_record_cases blake3 Fs never RecordRoot (Manifest.id m) s) as Hl.
  unfold load_record, mbind, SE_bind, se_get, io, attempt, never in *. cbn [records] in Hb, Hl |- *. rewrite Hb in Hl |- *. cbn in Hl |- *.
  destruct Hr as (Hlen & Hfrom & _). rewrite firstn_all2 in * by lia. rewrite (proj2 (Z.ltb_ge _ _)) in * by lia. rewrite Hfrom in *.
  by rewrite Z.eqb_refl.
Qed.

Lemma chunk_read s id f : (∀ id f, chunk_files s !! id = Some f → sound_file blake3 Zs id f) → chunk_files s !! id = Some f →
  ∃ frame raw_len raw, (read_compressed blake3 Zs never id s).2 = Ok frame ∧
    decode_chunk blake3 Zs id raw_len frame = Ok raw ∧ blake3 raw = id.
Proof.
  intros Hs Hf. destruct (proj1 (sound_file_iff _ _ _ _) (Hs id f Hf)) as (raw_len & frame & r & Ec & Hr & Hd).
  pose proof (decode_Ok _ _ _ _ _ _ Hd) as (Hlen & _ & Hh & _).
  destruct (parse_chunk_file_made raw_len frame Hr Hlen) as [Hp Hmax].
  exists frame, raw_len, r. split; [| done].
  assert (firstn (Z.to_nat (MAX_CHUNK_FILE_LEN + 1)) (content f) = chunk_file raw_len frame) as Ef by (rewrite Ec; apply firstn_all2; lia).
  unfold read_compressed, load, zstd_ready, io, attempt, never, mbind, SE_bind, se_get, mret, SE_ret.
  cbn -[parse_chunk_file decode_chunk MAX_CHUNK_FILE_LEN]. rewrite Hf. cbv beta iota zeta. rewrite Ef, Hp. cbn [result_bind]. by rewrite Hd.
Qed.

(** What one step does: the store stays whole, and keeps what is held. *)
Definition safe (v v' : Vault) : Prop :=
  whole (v_process v) → whole (v_process v') ∧ ∀ id, v_held v id → kept (v_store v) id → kept (v_store v') id.

Lemma safe_use v op : op_fine blake3 Fs op → (∀ id, v_held v id → ¬ releases op id) →
  safe v (v_use blake3 Fs Zs config fails named v op).
Proof.
  intros Hop Hr Hw. destruct (use_whole blake3 Fs Zs config fails named bound_range zstd fields blake3_digest (v_process v) op Hop Hw) as [Hw' Hk].
  split; [exact Hw' |]. intros id Hh. apply Hk. by apply Hr.
Qed.

Lemma safe_trans v1 v2 v3 : v_holds v2 = v_holds v1 → safe v1 v2 → safe v2 v3 → safe v1 v3.
Proof.
  intros E H1 H2 Hw. destruct (H1 Hw) as [W1 K1]. destruct (H2 W1) as [W2 K2]. split; [exact W2 |].
  intros id Hh Hk. apply K2; [unfold v_held; by rewrite E | by apply K1].
Qed.

Lemma safe_same v v' : v_process v' = v_process v → safe v v'.
Proof. intros E Hw. unfold v_store. by rewrite E. Qed.

Lemma safe_drop v ids : safe v (v_drop_unheld blake3 Fs Zs config fails named v ids).
Proof.
  revert v. induction ids as [| id ids IH]; intros v; cbn [v_drop_unheld]; [by apply safe_same |].
  case_bool_decide as Hh; [apply IH |]. eapply safe_trans; [| | apply IH]; [done |].
  apply (safe_trans v (v_use blake3 Fs Zs config fails named v (OpRelease id))); [done | | by apply safe_same].
  apply safe_use; [done |]. intros i Hi <-. by apply Hh.
Qed.

Lemma safe_step sh sh' : shared_step sh sh' → safe (vault sh) (vault sh').
Proof.
  destruct 1 as [v ps op Hop Hr | v ps id | v ps ids | v ps ps' unheld | v ps]; cbn [vault];
    [by apply safe_use; [| intros; apply Hr] | by apply safe_same | by apply safe_same | apply safe_drop |].
  unfold v_collect_released. set (v1 := v_use blake3 Fs Zs config fails named v OpAbandonIdle).
  assert (safe v v1) as H1 by (apply safe_use; [done | by intros ? ? []]).
  assert (safe v (v1 <| v_released := false |>)) as H2 by (by eapply (safe_trans v v1); [| | apply safe_same]).
  destruct (_ || _); [| exact H2]. eapply safe_trans; [| exact H2 |]; [done |]. apply safe_use; [done | by intros ? ? []].
Qed.

Lemma whole_new : 0 ≤ max_bytes config → whole (v_process v_new).
Proof.
  intros Hmax. split; cbn.
  - split; [split; cbn; [by intros id f; rewrite lookup_empty | unfold disk_bytes; cbn; by rewrite fmap_empty, map_sum_empty | done] |].
    intros n k Hk. cbn in Hk. by rewrite lookup_empty in Hk.
  - intros m e (b & Hb & _). cbn in Hb. by rewrite lookup_empty in Hb.
  - intros n k Hk. by rewrite lookup_empty in Hk.
  - intros n1 n2 k1 k2 Hk. by rewrite lookup_empty in Hk.
Qed.

Lemma whole_reached sh : 0 ≤ max_bytes config → rtc shared_step (MkShared v_new []) sh → whole (v_process (vault sh)).
Proof.
  intros Hmax Hr. pattern sh. revert sh Hr. apply rtc_ind_r; [by apply whole_new |]. intros y z _ Hs Hw. by apply (safe_step y z Hs).
Qed.

(** What a store that is whole retains, it serves. *)
Lemma whole_serves v id : whole (v_process v) → kept (v_store v) id →
  ∃ m, Manifest.id m = id ∧ (manifest blake3 Fs never id (v_store v)).2 = Ok m ∧
    ∀ e, e ∈ chunks m → ∃ frame raw_len raw,
      (read_compressed blake3 Zs never (entry_id e) (v_store v)).2 = Ok frame ∧
      decode_chunk blake3 Zs (entry_id e) raw_len frame = Ok raw ∧ blake3 raw = entry_id e.
Proof.
  intros [[Hg _] Hc _ _] (m & <- & Hm). exists m. split; [done |]. split; [by eapply manifest_read |]. intros e He.
  destruct (Hc m e Hm He) as [f Hf]. by eapply chunk_read; [apply Hg |].
Qed.

(** ** At the start of the server *)
Lemma safe_list v : safe v (v <| v_process := MkProcess (list_records fails RecordRoot (v_store v)).1 (sinks (v_process v)) |>).
Proof.
  intros Hw. destruct (moves_store blake3 Fs Zs config nobody (list_records fails RecordRoot) (v_process v)) as [Hw' Hk]; [| done | |].
  - intros _. apply mild_calm. unfold list_records, mbind, SE_bind. destruct (io_cases fails (its_store (v_process v))) as (r & -> & _).
    by destruct r; apply mild_same.
  - apply on_store_good; [apply list_records_good | apply Hw].
  - split; [exact Hw' |]. intros id _. apply Hk. by intros [].
Qed.

Abbreviation release_each_of := (foldl (λ v id, v_use blake3 Fs Zs config fails named v (OpRelease id))).

Lemma safe_releases ids v : (∀ id, v_held v id → id ∉ ids) → safe v (release_each_of v ids) ∧ v_holds (release_each_of v ids) = v_holds v.
Proof.
  revert v. induction ids as [| i ids IH]; intros v Hh; cbn [foldl]; [split; [by apply safe_same | done] |].
  destruct (IH (v_use blake3 Fs Zs config fails named v (OpRelease i))) as [H1 H2].
  { intros id Hid Hin. apply (Hh id Hid). by right. }
  split; [| done]. eapply safe_trans; [| | exact H1]; [done |]. apply safe_use; [done |]. intros id Hid <-. apply (Hh i Hid). by left.
Qed.

Lemma held_after keep v id : v_held (foldl v_hold v keep) id ↔ v_held v id ∨ id ∈ keep.
Proof.
  revert v. induction keep as [| i keep IH]; intros v; cbn [foldl]; [rewrite elem_of_nil; tauto |].
  rewrite IH, elem_of_cons. unfold v_held, v_hold. cbn. destruct (decide (i = id)) as [-> |].
  - rewrite lookup_insert_eq. naive_solver.
  - rewrite lookup_insert_ne by done. naive_solver.
Qed.

(** Of what the store retained, what is to be kept stays, and is held. *)
Lemma release_all_but_keeps v keep : v_holds v = ∅ → whole (v_process v) →
  let v' := v_release_all_but blake3 Fs Zs config fails named v keep in
  whole (v_process v') ∧ ∀ id, id ∈ keep → v_held v' id ∧ (kept (v_store v) id → kept (v_store v') id).
Proof.
  intros Hnone Hw v'. unfold v', v_release_all_but. clear v'.
  set (v1 := foldl v_hold v keep). set (v2 := v_use blake3 Fs Zs config fails named v1 OpAbandonIdle).
  assert (v_process v1 = v_process v) as E1 by (unfold v1; clear; revert v; induction keep as [| i keep IH]; intros v; cbn; [done | by rewrite IH]).
  assert (Hheld : ∀ id, v_held v1 id ↔ id ∈ keep).
  { intros id. unfold v1. rewrite held_after. unfold v_held. rewrite Hnone, lookup_empty. split; [intros [[? [=]] | ?]; done | by right]. }
  set (v3 := v2 <| v_process := MkProcess (list_records fails RecordRoot (v_store v2)).1 (sinks (v_process v2)) |>).
  assert (safe v1 v3) as H3.
  { eapply (safe_trans v1 v2); [done | | apply safe_list]. apply safe_use; [done | by intros ? ? []]. }
  assert (∃ v4, safe v1 v4 ∧ v_holds v4 = v_holds v1 ∧
    (let '(s, r) := list_records fails RecordRoot (v_store v2) in
     let v := v2 <| v_process := MkProcess s (sinks (v_process v2)) |> in
     match r with
     | Ok retained => release_each_of v (List.filter (λ id, negb (bool_decide (id ∈ keep))) retained)
     | Err _ => v
     end) = v4) as (v4 & H4 & Hh4 & E4).
  { unfold v3 in H3. destruct (list_records fails RecordRoot (v_store v2)) as [s [retained | e]]; cbn [fst] in H3; [| by eexists].
    destruct (safe_releases (List.filter (λ id, negb (bool_decide (id ∈ keep))) retained) (v2 <| v_process := MkProcess s (sinks (v_process v2)) |>)) as [H5 H6].
    - intros id Hid%Hheld Hin. apply list_elem_of_In, filter_In in Hin as [_ Hin]. by rewrite bool_decide_eq_true_2 in Hin.
    - eexists. split; [| split; [exact H6 | reflexivity]]. by eapply safe_trans; [| exact H3 | exact H5]. }
  destruct (list_records fails RecordRoot (v_store v2)) as [s r]. cbv zeta in E4 |- *. rewrite E4. unfold v_collect.
  assert (safe v1 (v_use blake3 Fs Zs config fails named v4 (OpGc []))) as H5.
  { eapply safe_trans; [exact Hh4 | exact H4 |]. apply safe_use; [done | by intros ? ? []]. }
  destruct H5 as [W K]; [by rewrite E1 |]. split; [exact W |]. intros id Hid. split.
  - unfold v_held. cbn. rewrite Hh4. by apply Hheld.
  - intros Hk. apply K; [by apply Hheld | unfold v_store; by rewrite E1].
Qed.

(** What a process that ended left is whole when it is opened again. *)
Lemma open_whole v locked s : whole (v_process v) → open_store fails locked (v_store v) = (s, Ok tt) →
  whole (MkProcess s ∅) ∧ roots s = roots (v_store v) ∧ ∀ id, kept (v_store v) id → kept s id.
Proof.
  intros [[Hg _] Hc _ _] Ho. unfold open_store, mbind, SE_bind, se_mod in Ho.
  repeat match type of Ho with context [io fails ?t] =>
    let r := fresh "r" in destruct (io_cases fails t) as (r & E & [-> | ->]); rewrite E in Ho; clear E; [| discriminate Ho] end.
  destruct locked; [discriminate Ho |].
  repeat match type of Ho with context [io fails ?t] =>
    let r := fresh "r" in destruct (io_cases fails t) as (r & E & [-> | ->]); rewrite E in Ho; clear E; [| discriminate Ho] end.
  injection Ho as <-. split; [| done]. split; [split |..]; cbn.
  - destruct Hg as [G1 G2 G3]. split; [exact G1 | done |]. cbn. unfold disk_bytes in *. unfold v_store in *. cbn. lia.
  - intros n k Hk. by rewrite lookup_empty in Hk.
  - exact Hc.
  - intros n k Hk. by rewrite lookup_empty in Hk.
  - intros n1 n2 k1 k2 Hk. by rewrite lookup_empty in Hk.
Qed.

(** a world that is held is served whole.  Start a server with an empty store
    and let rooms and connections use it in any way and in any order: take and release
    holds, receive, serve, abandon and collect, peers sending whatever they like and any
    call of the file system failing at any time.  A snapshot the store retains, for as
    long as it is held, can be read back with its manifest, all its chunks are there,
    and each is sent as one frame of exactly the bytes its name is the hash of. *)
Theorem held_world_served (id : ManifestId) (sh sh' : Shared) :
  0 ≤ max_bytes config →
  rtc shared_step (MkShared v_new []) sh → kept (v_store (vault sh)) id →
  rtc (λ a b, shared_step a b ∧ v_held (vault a) id) sh sh' →
  let s := v_store (vault sh') in
  ∃ m, Manifest.id m = id ∧ (manifest blake3 Fs never id s).2 = Ok m ∧
    ∀ e, e ∈ chunks m → ∃ frame raw_len raw,
      (read_compressed blake3 Zs never (entry_id e) s).2 = Ok frame ∧
      decode_chunk blake3 Zs (entry_id e) raw_len frame = Ok raw ∧ blake3 raw = entry_id e.
Proof.
  intros Hmax Hr Hk Hrun s. pose proof (whole_reached sh Hmax Hr) as Hw.
  assert (whole (v_process (vault sh')) ∧ kept s id) as [Hw' Hk'].
  { clear Hr. unfold s. clear s. revert Hw Hk. induction Hrun as [| a b c [Hs Hh] _ IH]; [done |]. intros Hw Hk.
    destruct (safe_step a b Hs Hw) as [Hw' Hk']. apply IH; [done | by apply Hk']. }
  by apply whole_serves.
Qed.

(** * Letting go of the rest *)

(** Nothing is retained that was not, and no file changes. *)
Definition less (s s' : Store) : Prop := (∀ id, is_Some (roots s' !! id) → is_Some (roots s !! id)) ∧ files s' = files s.
Definition sheds {A} (m : StoreM A) : Prop := ∀ s, less s (m s).1.

#[local] Instance less_preorder : PreOrder less.
Proof. split; [done |]. intros s1 s2 s3 [A1 A2] [B1 B2]. split; [auto | congruence]. Qed.

Lemma still_less s s' : still s s' → less s s'.
Proof. intros [E1 E2]. split; [by rewrite E1 | done]. Qed.

Lemma sheds_bind {A B} (m : StoreM A) (k : A → StoreM B) : sheds m → (∀ a, sheds (k a)) → sheds (m ≫= k).
Proof.
  intros Hm Hk s. unfold mbind, SE_bind. specialize (Hm s). destruct (m s) as [s1 [a | e]]; [| exact Hm].
  etransitivity; [exact Hm | apply (Hk a)].
Qed.

Lemma sheds_same {A} (m : StoreM A) : (∀ s, still s (m s).1) → sheds m.
Proof. intros E s. by apply still_less. Qed.

Lemma sheds_io f : sheds (io f).
Proof. intros s. destruct (io_cases f s) as (r & -> & _). done. Qed.

Lemma sheds_remove f record i : sheds (remove_record f record i).
Proof.
  intros s. destruct (remove_cases f record i s) as [n [-> | ->]]; [done |]. destruct record; cbn; [split; [| done] | done].
  intros id [b Hb]. cbn in Hb. apply lookup_delete_Some in Hb as [_ Hb]. by exists b.
Qed.

Lemma sheds_keep_records f record ids keep stats : sheds (keep_records blake3 Fs f record ids keep stats).
Proof.
  revert keep stats. induction ids as [| i ids IH]; intros keep stats s; cbn [keep_records]; [done |].
  pose proof (load_record_cases blake3 Fs f record i s) as Hl. destruct (load_record blake3 Fs f record i s) as [s1 r].
  destruct Hl as [[n ->] _]. change (less s) with (less (s <| calls := n |>)).
  destruct r as [m | []]; try done; [apply IH | apply IH |].
  apply (sheds_bind (remove_record f record i) (λ _, keep_records blake3 Fs f record ids keep (stats <| damaged_records := damaged_records stats + 1 |>))
    (sheds_remove _ _ _) (λ _, IH _ _) (s <| calls := n |>)).
Qed.

Lemma sheds_sweep f keep stats found : sheds (sweep f keep stats found).
Proof.
  revert stats. induction found as [| [i g] found IH]; intros stats; cbn [sweep]; [by apply sheds_same |].
  apply sheds_bind; [apply sheds_io | intros _]. apply sheds_bind; [| done]. apply sheds_same. intros s. unfold sweep_one.
  destruct (bool_decide _); [done |]. unfold mbind, SE_bind, attempt, se_mod. destruct (negb _); done.
Qed.

Lemma sheds_list f record : sheds (list_records f record).
Proof. apply sheds_bind; [apply sheds_io | intros _]. by apply sheds_same. Qed.

Lemma sheds_gc f live : sheds (gc blake3 Fs f live).
Proof.
  unfold gc. cbv zeta. apply sheds_bind; [apply sheds_list | intros ids]. apply sheds_bind; [apply sheds_keep_records | intros [keep stats]].
  apply sheds_bind; [apply sheds_list | intros ids2]. apply sheds_bind; [apply sheds_keep_records | intros [keep2 stats2]].
  apply sheds_bind; [apply sheds_io | intros _]. intros s.
  apply (sheds_bind (sweep f keep2 stats2 (map_to_list (chunk_files s))) _ (sheds_sweep _ _ _ _)). intros stats3.
  apply sheds_bind; [by apply sheds_same | intros _]. apply sheds_bind; [apply sheds_io | intros _; by apply sheds_same].
Qed.

Lemma abandon_less s t : still s (store t) → less s (abandon fails t).1.
Proof.
  intros W. unfold abandon. pose proof (sheds_remove fails RecordPending (Manifest.id (sink_manifest (sink t))) (store t)) as L.
  apply still_less in W. destruct (finished (sink t)), (claim (sink t)); try exact W;
    destruct (remove_record fails RecordPending _ (store t)) as [s' [[] | e]]; (etransitivity; [exact W | exact L]).
Qed.

Lemma abandon_each_less ids n s : good blake3 Zs config s → less s (abandon_each blake3 Fs config fails ids n s).1.
Proof.
  revert n s. induction ids as [| id ids IH]; intros n s Hg; cbn [abandon_each]; [done |].
  pose proof (resume_starts blake3 Fs Zs config fails bound_range zstd fields blake3_digest s id Hg) as Hs.
  pose proof (resume_good blake3 Fs Zs config fails fields s id Hg) as [Hg1 Hk].
  destruct (resume_sink blake3 Fs config fails s id) as [s1 [k | e]]; cbn [fst snd] in *.
  - destruct Hs as (_ & _ & _ & _ & _ & _ & _ & W). pose proof (abandon_less s (MkTransfer s1 k) W) as L.
    pose proof (abandon_good blake3 Zs config fails (MkTransfer s1 k) (conj Hg1 Hk)) as Hg2.
    destruct (abandon fails (MkTransfer s1 k)) as [s2 [[] | e]]; cbn [fst] in *; [by etransitivity; [| apply IH] |].
    destruct e; first [exact L | by etransitivity; [| apply IH]].
  - destruct Hs as [_ L%still_less]. destruct e as [| | | | | | e]; try (by etransitivity; [| apply IH]).
    destruct e; first [exact L | by etransitivity; [| apply IH] | idtac].
    unfold mbind, SE_bind. pose proof (sheds_remove fails RecordPending id s1) as L2.
    pose proof (remove_record_good blake3 Zs config fails RecordPending id s1 Hg1) as Hg2.
    destruct (remove_record fails RecordPending id s1) as [s2 [[] | e2]]; cbn [fst] in *;
      (etransitivity; [exact L |]); [by etransitivity; [| apply IH] | exact L2].
Qed.

(** A release that reports success. *)
Lemma release_gone f i s s' : release f i s = (s', Ok tt) → roots s' !! i = None.
Proof.
  unfold release, remove_record, mbind at 1, SE_bind at 1, se_get. cbn [records]. destruct (roots s !! i) eqn:E.
  - unfold mbind, SE_bind. destruct (io_cases f s) as (r & -> & [-> | ->]); [| done]. intros [= <-]. cbn. apply lookup_delete_eq.
  - intros [= <-]. exact E.
Qed.

Lemma sheds_releases f ids : sheds (release_each f ids).
Proof. induction ids as [| i ids IH]; cbn [release_each]; [by apply sheds_same |]. apply sheds_bind; [apply sheds_remove | intros; exact IH]. Qed.

Lemma releases_gone f ids s s' i : release_each f ids s = (s', Ok tt) → i ∈ ids → roots s' !! i = None.
Proof.
  revert s. induction ids as [| j ids IH]; intros s; cbn [release_each]; [intros _ Hi; by apply not_elem_of_nil in Hi |].
  unfold mbind, SE_bind. destruct (release f j s) as [s1 [[] | e]] eqn:E1; [| done]. intros H [-> | Hi]%elem_of_cons; [| by eapply IH].
  pose proof (sheds_releases f ids s1) as [L _]. rewrite H in L. cbn [fst] in L.
  destruct (roots s' !! j) eqn:Ej; [| done]. destruct (L j) as [b Hb]; [by rewrite Ej |]. by rewrite (release_gone _ _ _ _ E1) in Hb.
Qed.

Lemma releases_calm f ids s : good blake3 Zs config s →
  good blake3 Zs config (release_each f ids s).1 ∧ calm blake3 Fs (λ i, i ∈ ids) s (release_each f ids s).1.
Proof.
  revert s. induction ids as [| j ids IH]; intros s Hg; cbn [release_each]; [split; [done | by apply mild_calm, mild_same] |].
  unfold mbind, SE_bind. pose proof (remove_root_calm blake3 Fs f j s) as C.
  pose proof (remove_record_good blake3 Zs config f RecordRoot j s Hg) as Hg1. fold (release f j) in C, Hg1.
  assert (calm blake3 Fs (λ i, i ∈ j :: ids) s (release f j s).1) as C' by (eapply calm_weaken; [| exact C]; intros i <-; by left).
  destruct (release f j s) as [s1 [[] | e]]; cbn [fst] in *; [| done]. destruct (IH s1 Hg1) as (Hg2 & C2).
  split; [done |]. eapply calm_trans; [exact C' |]. eapply calm_weaken; [| exact C2]. intros i Hi. by right.
Qed.

(** * What a player keeps *)
Section tidy.
Context (received : string → bool) (received_file : SnapshotId → string) (keep : list ManifestId).

Definition spared (f : string) : Prop := received f = false ∨ f ∈ received_file <$> keep.

(** What every part of [keep_only] does. *)
Record tidied (s s' : Store) : Prop := {
  ti_good : good blake3 Zs config s';
  ti_calm : calm blake3 Fs (λ id, id ∉ keep) s s';
  ti_roots : ∀ id, is_Some (roots s' !! id) → is_Some (roots s !! id);
  ti_files : ∀ f, spared f → files s' !! f = files s !! f;
}.
Definition tidies {A} (m : StoreM A) : Prop := ∀ s, good blake3 Zs config s → tidied s (m s).1.

Lemma tidy_trans s1 s2 s3 : tidied s1 s2 → tidied s2 s3 → tidied s1 s3.
Proof.
  intros [A1 A2 A3 A4] [B1 B2 B3 B4]. split; [done | by eapply calm_trans | auto |]. intros f Hf. by rewrite B4, A4.
Qed.

Lemma tidied_less s s' : good blake3 Zs config s' → calm blake3 Fs (λ id, id ∉ keep) s s' → less s s' → tidied s s'.
Proof. intros Hg C [L1 L2]. split; [done | done | done | intros f _; by rewrite L2]. Qed.

Lemma tidies_bind {A B} (m : StoreM A) (k : A → StoreM B) : tidies m → (∀ a, tidies (k a)) → tidies (m ≫= k).
Proof.
  intros Hm Hk s Hg. unfold mbind, SE_bind. specialize (Hm s Hg). destruct (m s) as [s1 [a | e]]; [| exact Hm].
  eapply tidy_trans; [exact Hm |]. apply (Hk a). apply Hm.
Qed.

Lemma tidies_mild {A} (m : StoreM A) : keeps (good blake3 Zs config) m → (∀ s, calm blake3 Fs nobody s (m s).1) → sheds m → tidies m.
Proof.
  intros H1 H2 H3 s Hg. apply tidied_less; [by apply H1 | | apply H3]. by eapply calm_weaken; [| apply H2].
Qed.

Lemma tidies_io : tidies (io fails).
Proof.
  apply tidies_mild; [intros s Hg; destruct (io_cases fails s) as (r & -> & _); by apply (good_same blake3 Zs config s) | | apply sheds_io].
  intros s. destruct (io_cases fails s) as (r & -> & _). by apply mild_calm, mild_same.
Qed.

Lemma tidies_list record : tidies (list_records fails record).
Proof.
  apply tidies_bind; [apply tidies_io | intros _]. apply tidies_mild; [by intros s Hg | | by apply sheds_same].
  intros s. by apply mild_calm, mild_same.
Qed.

Lemma tidies_gc : tidies (gc blake3 Fs fails []).
Proof. apply tidies_mild; [by apply gc_good | by intros; apply gc_calm | apply sheds_gc]. Qed.

Lemma tidies_abandon : tidies (abandon_idle_transfers blake3 Fs config fails).
Proof.
  apply tidies_bind; [apply tidies_list | intros ids s Hg]. apply tidied_less; [by apply abandon_each_good | | by apply abandon_each_less].
  eapply calm_weaken; [| by eapply abandon_each_calm]. done.
Qed.

Lemma tidies_releases ids : (∀ id, id ∈ ids → id ∉ keep) → tidies (release_each fails ids).
Proof.
  intros Hids s Hg. destruct (releases_calm fails ids s Hg) as [Hg' C]. apply tidied_less; [done | | apply sheds_releases].
  eapply calm_weaken; [exact Hids | exact C].
Qed.

Lemma tidies_files names : (∀ f, f ∈ names → ¬ spared f) → tidies (remove_files fails names).
Proof.
  induction names as [| f names IH]; intros Hn; cbn [remove_files].
  { intros s Hg. apply tidied_less; [done | by apply mild_calm, mild_same | done]. }
  apply tidies_bind; [| intros ok; apply tidies_bind; [destruct ok | intros _; apply IH; set_solver]].
  - intros s Hg. apply tidied_less; [by apply (good_same blake3 Zs config s) | by apply mild_calm, mild_same | done].
  - intros s Hg. split; [by apply (good_same blake3 Zs config s) | by apply fewer_calm | done |].
    intros g Hgs. cbn. rewrite lookup_delete_ne; [done |]. intros ->. apply (Hn g); [by left | done].
  - intros s Hg. apply tidied_less; [done | by apply mild_calm, mild_same | done].
Qed.

(** What goes on after the releases. *)
Definition rest : StoreM unit :=
  _ ← io fails;
  s ← se_get;
  _ ← remove_files fails (List.filter (λ f, received f && negb (bool_decide (f ∈ received_file <$> keep))) (map_to_list (files s)).*1);
  _ ← gc blake3 Fs fails [];
  mret tt.

Lemma tidies_rest : tidies rest.
Proof.
  apply tidies_bind; [apply tidies_io | intros _]. intros s Hg.
  apply (tidies_bind (remove_files fails (List.filter (λ f, received f && negb (bool_decide (f ∈ received_file <$> keep))) (map_to_list (files s)).*1))
    (λ _, _ ← gc blake3 Fs fails []; mret tt)); [| | exact Hg].
  - apply tidies_files. intros f Hf. apply list_elem_of_In, List.filter_In in Hf as [_ [H1 H2]%andb_true_iff].
    apply negb_true_iff, bool_decide_eq_false in H2. intros [? | ?]; congruence.
  - intros _. apply tidies_bind; [apply tidies_gc | intros _ s1 Hg1]. apply tidied_less; [done | by apply mild_calm, mild_same | done].
Qed.

(** A player keeps the worlds it needs and nothing else.  When a player lets go of
    worlds, wherever a failure of the file system stops it: every world it wants to
    keep and had is still there, every snapshot retained has all its chunks, and
    neither a file it did not receive nor one received for a world it keeps is
    touched.  When it reports success, it retains no other world. *)
Theorem worlds_kept s :
  good blake3 Zs config s → complete blake3 Fs s →
  let '(s', r) := keep_only blake3 Fs config fails received received_file keep s in
  good blake3 Zs config s' ∧ complete blake3 Fs s' ∧
  (∀ id, id ∈ keep → kept s id → kept s' id) ∧
  (∀ f, spared f → files s' !! f = files s !! f) ∧
  (r = Ok tt → ∀ id, is_Some (roots s' !! id) → id ∈ keep).
Proof.
  intros Hg Hc.
  assert (∀ s1, tidied s s1 → good blake3 Zs config s1 ∧ complete blake3 Fs s1 ∧
    (∀ id, id ∈ keep → kept s id → kept s1 id) ∧ (∀ f, spared f → files s1 !! f = files s !! f)) as Hdone.
  { intros s1 [T1 [C1 C2 _ _] _ T3]. split; [done |]. split; [auto |]. split; [| done]. intros id Hid. apply C2. by intros ?. }
  unfold keep_only. unfold mbind at 1, SE_bind at 1. pose proof (tidies_abandon s Hg) as T1.
  destruct (abandon_idle_transfers blake3 Fs config fails s) as [s1 [n | e]]; cbn [fst] in T1; [| by destruct (Hdone s1 T1) as (? & ? & ? & ?)].
  unfold mbind at 1, SE_bind at 1. pose proof (tidies_list RecordRoot s1 (ti_good _ _ T1)) as T2.
  destruct (list_records fails RecordRoot s1) as [s2 [ids | e]] eqn:El; cbn [fst] in T2; pose proof (tidy_trans _ _ _ T1 T2) as T2';
    [| by destruct (Hdone s2 T2') as (? & ? & ? & ?)].
  assert (∀ id, is_Some (roots s2 !! id) → id ∈ ids) as Hall.
  { unfold list_records, mbind, SE_bind in El. destruct (io_cases fails s1) as (r & Eio & [-> | ->]); rewrite Eio in El; [| done].
    injection El as <- <-. intros id Hid. by apply elem_of_btree_keys. }
  set (gone := List.filter (λ id, negb (bool_decide (id ∈ keep))) ids).
  assert (∀ id, id ∈ gone ↔ id ∈ ids ∧ id ∉ keep) as Hgone.
  { intros id. unfold gone. by rewrite list_elem_of_In, List.filter_In, <- list_elem_of_In, negb_true_iff, bool_decide_eq_false. }
  unfold mbind at 1, SE_bind at 1. pose proof (tidies_releases gone (λ id H, proj2 (proj1 (Hgone id) H)) s2 (ti_good _ _ T2)) as T3.
  destruct (release_each fails gone s2) as [s3 [[] | e]] eqn:Er; cbn [fst] in T3; pose proof (tidy_trans _ _ _ T2' T3) as T3';
    [| by destruct (Hdone s3 T3') as (? & ? & ? & ?)].
  cbv zeta. fold rest. pose proof (tidies_rest s3 (ti_good _ _ T3)) as T4. pose proof (tidy_trans _ _ _ T3' T4) as T4'.
  destruct (rest s3) as [s4 r]; cbn [fst] in *. destruct (Hdone s4 T4') as (? & ? & ? & ?). do 4 (split; [done |]).
  intros _ id Hid. apply (ti_roots _ _ T4) in Hid. destruct (decide (id ∈ keep)) as [| Hn]; [done |].
  pose proof (ti_roots _ _ T3 id Hid) as Hi2. rewrite (releases_gone _ _ _ _ id Er) in Hid; [by destruct Hid |].
  apply Hgone. split; [by apply Hall | done].
Qed.
End tidy.
End held.

(** * Witnesses *)
Module ToyVault.
Import ToyStore.
Definition fields := ConcreteFields.fields.
Definition id : ManifestId := Manifest.id manifest.
Definition uses := v_use hash fields toy_zstd config never (λ _, true).
Definition at_first : Shared := MkShared v_new [].
Definition ingested : Shared := MkShared (uses v_new (OpIngest [Ok data] DEFAULT)) [].
Definition held : Shared := MkShared (v_hold (vault ingested) id) [].
Definition collected : Shared := MkShared (v_collect_released hash fields toy_zstd config never (λ _, true) (vault held)) [].

Lemma first : rtc (shared_step hash fields toy_zstd config never (λ _, true)) at_first held.
Proof.
  eapply rtc_l; [apply shared_use | eapply rtc_l; [apply shared_hold | apply rtc_refl]].
  - split; [| exact default_ok]. intros piece Hp. apply list_elem_of_singleton in Hp as [= ->]. by vm_compute.
  - by intros ? [].
Qed.

Lemma kept_held : kept hash fields (v_store (vault held)) id.
Proof.
  exists manifest. split; [done |]. exists (to_bytes fields manifest). split; [by vm_compute |].
  split; [by vm_compute |]. split; [by vm_compute | done].
Qed.
End ToyVault.

Lemma held_world_served_witness :
  ∃ m, Manifest.id m = ToyVault.id ∧
    (manifest ToyStore.hash ToyVault.fields never ToyVault.id (v_store (vault ToyVault.collected))).2 = Ok m ∧
    ∀ e, e ∈ chunks m → ∃ frame raw_len raw,
      (read_compressed ToyStore.hash ToyStore.toy_zstd never (entry_id e) (v_store (vault ToyVault.collected))).2 = Ok frame ∧
      decode_chunk ToyStore.hash ToyStore.toy_zstd (entry_id e) raw_len frame = Ok raw ∧ ToyStore.hash raw = entry_id e.
Proof.
  apply (held_world_served ToyStore.hash ToyVault.fields ToyStore.toy_zstd ToyStore.config never (λ _, true) ltac:(done) ToyStore.toy_laws
    ConcreteFields.laws ToySpec.digest ToyVault.id ToyVault.held ToyVault.collected).
  - done.
  - exact ToyVault.first.
  - exact ToyVault.kept_held.
  - eapply rtc_l; [| apply rtc_refl]. split; [apply shared_collect | by vm_compute; eexists].
Defined.

Lemma worlds_kept_witness :
  let s := v_store (vault ToyVault.held) in
  let '(s', r) := keep_only ToyStore.hash ToyVault.fields ToyStore.config never (λ _, true) (λ _, "world"%string) [ToyVault.id] s in
  r = Ok tt ∧ kept ToyStore.hash ToyVault.fields s' ToyVault.id ∧ ∀ id, is_Some (roots s' !! id) → id ∈ [ToyVault.id].
Proof.
  pose proof (whole_reached ToyStore.hash ToyVault.fields ToyStore.toy_zstd ToyStore.config never (λ _, true) ltac:(done) ToyStore.toy_laws
    ConcreteFields.laws ToySpec.digest ToyVault.held ltac:(done) ToyVault.first) as [[Hg _] Hc _ _].
  pose proof (worlds_kept ToyStore.hash ToyVault.fields ToyStore.toy_zstd ToyStore.config never (λ _, true) ltac:(done) ToyStore.toy_laws
    ConcreteFields.laws ToySpec.digest (λ _, true) (λ _, "world"%string) [ToyVault.id] (v_store (vault ToyVault.held)) Hg Hc) as H.
  cbv zeta. assert ((keep_only ToyStore.hash ToyVault.fields ToyStore.config never (λ _, true) (λ _, "world"%string) [ToyVault.id]
    (v_store (vault ToyVault.held))).2 = Ok tt) as E by (vm_compute; reflexivity).
  destruct (keep_only _ _ _ _ _ _ _ _) as [s' r]. cbn [snd] in E. destruct H as (_ & _ & H1 & _ & H2).
  split; [exact E |]. split; [apply H1; [by left | exact ToyVault.kept_held] | exact (H2 E)].
Defined.
