(* ===== verification/Restart.v ===== *)
(** The server's data directory, and starting the server on it ([Directory::recover] of
    [crates/tpf3mp-server/src/directory.rs], the pointer file of [snapshots.rs]): every
    log becomes a room again, or is set aside, and the worlds those rooms were playing
    are kept.

    The directory is a map from names to what is there.  A name is what [Path] splits
    it into: a stem, and the part behind the last dot.  How each call of the file system
    ends is an argument. *)
From stdpp Require Import pretty.
From S2P Require Import Prelude Proto Chars Ident Codec Limit Verdict Snapshots Ruleset Game Persist Room RoomInv Recover.
From S2P Require Manifest Store Sink StoreInv StoreSpec Whole Vault.
Local Open Scope Z_scope.

Abbreviation Name := (Chars * option Chars)%type (only parsing).

(** A regular file, or anything else: a directory, or a link, which may lead nowhere. *)
Inductive Entry := Regular (bytes : list Z) | Special (exists_ : bool).
Abbreviation Dir := (gmap Name Entry) (only parsing).

Definition ext_is (wanted : string) (n : Name) : bool := bool_decide (n.2 = Some (chars wanted)).

(** * The pointer file *)
Definition POINTER_VERSION : Z := 1.
Definition POINTER_MAX : Z := 4096.

Record Pointer := MkPointer { ptr_version : Z; ptr_snapshot : SnapshotId; ptr_point : SavePoint }.

Definition Pointer_new (snapshot : SnapshotId) (p : SavePoint) : Pointer := MkPointer POINTER_VERSION snapshot p.

Definition path_for (room : RoomId) : Name := (room_text room, Some (chars "snapshot")).
Definition partial_of (path : Name) : Name := (path.1 ++ chars ".snapshot", Some (chars "partial")).

(** How far writing a pointer gets. *)
Inductive PointerWrite :=
  | NotCreated
  | WroteSome (reached : nat)   (* a write or the flush failed, or the process ended *)
  | NotRenamed
  | Renamed.

Section pointer.
Context {PP : Postcard Pointer}.

Definition write_pointer (d : Dir) (room : RoomId) (p : Pointer) (outcome : PointerWrite) : Dir * result unit IoError :=
  let path := path_for room in
  let partial := partial_of path in
  match to_stdvec p with
  | None => (d, Err IoFailed)
  | Some bytes =>
      match outcome with
      | NotCreated => (d, Err IoFailed)
      | WroteSome n => (<[partial := Regular (firstn n bytes)]> d, Err IoFailed)
      | NotRenamed => (<[partial := Regular bytes]> d, Err IoFailed)
      | Renamed => (<[path := Regular bytes]> (delete partial d), Ok tt)
      end
  end.

Definition read_pointer (d : Dir) (room : RoomId) : option Pointer :=
  match d !! path_for room with
  | Some (Regular bytes) =>
      if POINTER_MAX <? Z.of_nat (length bytes) then None
      else
        p ← from_bytes bytes;
        if ptr_version p =? POINTER_VERSION then Some p else None
  | _ => None
  end.

(** [removed]: whether the file system removes it; a failure is logged. *)
Definition remove_pointer (d : Dir) (path : Name) (removed : bool) : Dir := if removed then delete path d else d.
End pointer.

(** * Setting a log aside *)
Definition aside_name (path : Name) (attempt : nat) : Name :=
  match attempt with
  | O => (path.1, Some (chars "broken"))
  | S _ => (path.1 ++ chars "." ++ chars (pretty attempt), Some (chars "broken"))
  end.

(** [Path::exists], which follows links. *)
Definition exists_at (d : Dir) (n : Name) : bool :=
  match d !! n with
  | Some (Regular _) => true
  | Some (Special e) => e
  | None => false
  end.

Definition ATTEMPTS : nat := 1000.

Fixpoint try_aside (fuel attempt : nat) (d : Dir) (path : Name) (renamed : bool) : Dir :=
  match fuel with
  | O => d
  | S fuel =>
      let aside := aside_name path attempt in
      if exists_at d aside then try_aside fuel (S attempt) d path renamed
      else if renamed then
        match d !! path with
        | Some e => <[aside := e]> (delete path d)
        | None => d
        end
      else d
  end.

Definition set_aside (d : Dir) (path : Name) (renamed : bool) : Dir := try_aside ATTEMPTS 0 d path renamed.

(** * Recovering *)

(** How the calls for one log end. *)
Record LogIo := MkLogIo {
  io_history : Z;                      (* the new history, drawn at random *)
  io_calls : LogCalls;                 (* reading the log, and opening it to go on *)
  io_pointer_read : bool;
  io_deleted : result unit IoError;
  io_disk : nat → WriteOutcome;
  io_now : Instant;
  io_pointer_removed : bool;
  io_renamed : bool;
}.

Section recover.
Context {R : Type} {RS : Ruleset R} {P : Postcard TurnMessage} {PS : Postcard StartRecord} {PP : Postcard Pointer}.
Context (crc : list Z → Z) (key : list Z) (menu : list (RulesChoice (R := R))) (env : RoomEnv).
Context (store_manifest : ManifestId → option Manifest) (io_of : Name → LogIo).
Abbreviation room := (Room R).

Definition stem_is (path : Name) (id : RoomId) : bool := bool_decide (path.1 = room_text id).

(** The pointer of a room, as recovering its log reads it. *)
Definition pointer_of (d : Dir) (path : Name) (id : RoomId) : option (SnapshotId * SavePoint) :=
  if io_pointer_read (io_of path) then (λ p, (ptr_snapshot p, ptr_point p)) <$> read_pointer d id else None.

(** [Room::recover] of a log in the directory. *)
Definition recover_log (d : Dir) (path : Name) (bytes : list Z) : result (option room) RecoverError :=
  recover crc (io_calls (io_of path)) bytes (stem_is path) key menu env (pointer_of d path)
    store_manifest (io_history (io_of path)) (io_deleted (io_of path)) (io_disk (io_of path)) (io_now (io_of path)).

(** What an attempt leaves of the log: [into_log] may have cut the torn record, and the
    mark of the new history may be there, in part if the write of it failed. *)
Definition log_left (path : Name) (bytes : list Z) : list Z :=
  let c := io_calls (io_of path) in
  let attempt :=
    let? (reader, start, fresh) := read_start crc c bytes (stem_is path) menu in
    let? s := replay_start start fresh (io_now (io_of path)) in
    let? (reader, s, based, index) :=
      replay crc (lc_reads c) (S (length bytes)) (sr_base start) (bool_decide (sr_base start = None)) reader s 0 in
    if negb based then Err (RecoverContinuity index)
    else if bool_decide (seated (rp_game s) = []) then Err RecoverEmpty
    else
      match into_log (lc_into c) reader with
      | (rest, Err _) => Ok rest
      | (_, Ok l) =>
          let g := begin_history (rp_game s) (io_history (io_of path)) in
          let stream := MkStream (next_turn g) (next_event g) (sealed_through g) [] in
          let marker := Start (turn_start g (sr_id start) (sr_settings start) (sr_rules start) stream None) in
          match encode_frame marker TURN_MAX_FRAME with
          | Err _ => Ok (file l)
          | Ok frame => Ok (file (append_record crc (io_disk (io_of path) 0%nat) l frame).1)
          end
      end in
  match attempt with Ok rest => rest | Err _ => bytes end.

Record Restored := MkRestored { rs_dir : Dir; rs_rooms : list room; rs_held : list ManifestId }.

(** One log: [Directory::recover_rooms], the body of its loop. *)
Definition recover_one (s : Restored) (path : Name) : Restored :=
  let d := rs_dir s in
  match d !! path with
  | Some (Regular bytes) =>
      match recover_log d path bytes with
      | Ok (Some r) =>
          let bytes := match room_log r with Some l => file l | None => bytes end in
          MkRestored (<[path := Regular bytes]> d) (rs_rooms s ++ [r]) (rs_held s ++ held_snapshots r)
      | Ok None =>
          let d := delete path d in
          let d := if env_data_dir env
                   then remove_pointer d (path.1, Some (chars "snapshot")) (io_pointer_removed (io_of path)) else d in
          MkRestored d (rs_rooms s) (rs_held s)
      | Err _ =>
          let d := <[path := Regular (log_left path bytes)]> d in
          MkRestored (set_aside d path (io_renamed (io_of path))) (rs_rooms s) (rs_held s)
      end
  | _ => s
  end.

Fixpoint lex_le (a b : list Z) : bool :=
  match a, b with
  | [], _ => true
  | _ :: _, [] => false
  | x :: a, y :: b => if x <? y then true else if y <? x then false else lex_le a b
  end.

Definition name_bytes (n : Name) : list Z := n.1 ++ match n.2 with Some e => chars "." ++ e | None => [] end.

(** [listed]: the entries that can be read; [swept]: the unfinished compactions that can
    be removed. *)
Definition regular_files (d : Dir) (listed : Name → bool) : list Name :=
  omap (λ e, match e.2 with Regular _ => if listed e.1 then Some e.1 else None | Special _ => None end) (map_to_list d).

Definition log_paths (d : Dir) (listed : Name → bool) : list Name :=
  sort_by (λ a b, lex_le (name_bytes a) (name_bytes b)) (List.filter (ext_is "log") (regular_files d listed)).

Definition sweep_compacting (d : Dir) (listed swept : Name → bool) : Dir :=
  foldl (λ d n, if swept n then delete n d else d) d (List.filter (ext_is "compacting") (regular_files d listed)).

Definition recover_rooms (d : Dir) (opened : bool) (listed swept : Name → bool) : Restored :=
  if env_data_dir env && opened
  then foldl recover_one (MkRestored (sweep_compacting d listed swept) [] []) (log_paths d listed)
  else MkRestored d [] [].
End recover.
Arguments MkRestored {R}. Arguments rs_dir {R}. Arguments rs_rooms {R}. Arguments rs_held {R}.

Lemma omap_ext_elem {A B} (f g : A → option B) (l : list A) : (∀ x, x ∈ l → f x = g x) → omap f l = omap g l.
Proof.
  induction l as [|x l IH]; intros H; [done|]. cbn. rewrite (H x) by apply list_elem_of_here.
  rewrite IH; [done|]. intros y Hy. apply H. by apply list_elem_of_further.
Qed.

(** * The directory *)
Lemma elem_of_regular d listed n : n ∈ regular_files d listed ↔ listed n = true ∧ ∃ bytes, d !! n = Some (Regular bytes).
Proof.
  unfold regular_files. rewrite list_elem_of_omap. split.
  - intros ([k e] & Hin%elem_of_map_to_list & He). cbn in He. destruct e as [bytes|]; [|done].
    destruct (listed k) eqn:Hl; [|done]. injection He as <-. eauto.
  - intros (Hl & bytes & Hd). exists (n, Regular bytes). split; [by apply elem_of_map_to_list|]. cbn. by rewrite Hl.
Qed.

Lemma NoDup_regular d listed : NoDup (regular_files d listed).
Proof.
  unfold regular_files. pose proof (NoDup_fst_map_to_list d) as Hnd. induction (map_to_list d) as [|[k e] l IH]; [constructor|].
  cbn in Hnd. apply NoDup_cons in Hnd as [Hk Hnd]. specialize (IH Hnd). cbn.
  destruct e as [bytes|]; [|done]. destruct (listed k); [|done]. constructor; [|done].
  rewrite list_elem_of_omap. intros ([k' e'] & Hin & He). cbn in He.
  destruct e'; [|done]. destruct (listed k'); [|done]. injection He as ->.
  apply Hk. apply list_elem_of_fmap. by exists (k, Regular bytes0).
Qed.

Lemma elem_of_logs d listed n : n ∈ log_paths d listed ↔ n.2 = Some (chars "log") ∧ listed n = true ∧ ∃ bytes, d !! n = Some (Regular bytes).
Proof.
  unfold log_paths. rewrite elem_of_sort_by, list_elem_of_In, filter_In, <- list_elem_of_In, elem_of_regular.
  unfold ext_is. rewrite bool_decide_eq_true. naive_solver.
Qed.

Lemma NoDup_logs d listed : NoDup (log_paths d listed).
Proof. unfold log_paths. rewrite sort_by_perm. apply NoDup_ListNoDup, List.NoDup_filter, NoDup_ListNoDup, NoDup_regular. Qed.


(** * What recovering a log gives *)
Section facts.
Context {R : Type} {RS : Ruleset R} {P : Postcard TurnMessage} {PS : Postcard StartRecord} {PP : Postcard Pointer}.
Context (crc : list Z → Z) (key : list Z) (menu : list (RulesChoice (R := R))) (env : RoomEnv).
Context (store_manifest : ManifestId → option Manifest) (io_of : Name → LogIo).
Abbreviation recover_log := (recover_log crc key menu env store_manifest io_of).
Abbreviation log_left := (log_left crc menu io_of).
Abbreviation recover_one := (recover_one crc key menu env store_manifest io_of).
Abbreviation replay := (replay crc).

(** A replay does not touch the saves. *)
Lemma remember_saves g t : saves (remember g t) = saves g.
Proof. unfold remember, trim. by destruct (trim_loop _ _ _ _ _) as [[[? ?] ?] ?]. Qed.

Lemma replay_events_saves based (s s' : Replay (R := R)) evs :
  replay_events based s evs = Some s' → saves (rp_game s') = saves (rp_game s).
Proof.
  revert s. induction evs as [|e evs IH]; intros s; cbn; [by intros [= ->]|].
  intros (s1 & H1 & H2)%bind_Some. rewrite (IH _ H2). clear H2 IH. unfold replay_event in H1.
  destruct (negb (seq e =? _)); [done|]. destruct (negb based); [by injection H1 as <-|].
  injection H1 as <-. unfold replay_departure. repeat case_match; done.
Qed.

Lemma replay_record_saves based index (s s' : Replay (R := R)) frame :
  replay_record based index s frame = Ok s' → saves (rp_game s') = saves (rp_game s).
Proof.
  unfold replay_record. destruct (length frame <? FRAME_HEADER_LEN)%nat; [done|].
  destruct (decode_frame _) as [[marker|turn]|]; [| |done].
  - destruct (_ || _); [done|]. by intros [= <-].
  - unfold replay_turn. destruct (_ || _); [done|]. destruct (_ <? _); [done|].
    destruct (replay_events based s (events turn)) as [s1|] eqn:He; [|done].
    intros [= <-]. cbn. rewrite remember_saves. by eapply replay_events_saves.
Qed.

Lemma replay_saves reads fuel base based reader (s : Replay (R := R)) index reader' s' based' index' :
  replay reads fuel base based reader s index = Ok (reader', s', based', index') → saves (rp_game s') = saves (rp_game s).
Proof.
  revert based reader s index. induction fuel as [|fuel IH]; intros based reader s index; cbn.
  { by intros [= _ <- _ _]. }
  destruct (reach_base _ _ _ _) as [b|]; cbn; [|done].
  destruct (map_err _ _) as [[rd [frame|]]|]; cbn; [| |done]; [|by intros [= _ <- _ _]].
  destruct (replay_record b index s frame) as [s1|] eqn:Hr; cbn; [|done].
  intros H. rewrite (IH _ _ _ _ H). by eapply replay_record_saves.
Qed.

Lemma replay_start_saves start (fresh : R) now s :
  replay_start start fresh now = Ok s → saves (rp_game s) = Saves_default.
Proof.
  unfold replay_start. destruct (sr_base start) as [base|]; [|by intros [= <-]].
  unfold rebase. destruct (negb (base_consistent base)); [done|]. cbn zeta. destruct (_ || _); [done|].
  destruct (map_err _ _); [|done]. by intros [= <-].
Qed.

(** What [read_start] checked. *)
Lemma read_start_stem bytes path reader start (fresh : R) :
  read_start crc (io_calls (io_of path)) bytes (stem_is path) menu = Ok (reader, start, fresh) → path.1 = room_text (sr_id start).
Proof.
  unfold read_start. destruct (map_err RecoverLog (read_log _ bytes)) as [rd|]; cbn [result_bind]; [|done].
  destruct (map_err RecoverLog (next_record crc _ rd)) as [[rd' first]|]; cbn [result_bind]; [|done].
  destruct (ok_or first RecoverEmpty) as [f|]; cbn [result_bind]; [|done].
  destruct (ok_or (from_bytes f) RecoverStart) as [st|]; cbn [result_bind]; [|done].
  destruct (negb (sr_version st =? _)); [done|]. destruct (negb (settings_valid _)); [done|].
  destruct (ok_or (menu_find _ _) _) as [choice|]; cbn [result_bind]; [|done].
  destruct (stem_is path (sr_id st)) eqn:Hs; cbn [negb]; [|done]. intros [= _ <- _].
  by apply bool_decide_eq_true in Hs.
Qed.

Lemma recovered d path bytes r : recover_log d path bytes = Ok (Some r) →
  path.1 = room_text (room_id r) ∧ (∃ l, room_log r = Some l ∧ file l = log_left path bytes) ∧
  ∀ id, id ∈ held_snapshots r →
    ∃ p mf, read_pointer d (room_id r) = Some p ∧ store_manifest (ptr_snapshot p) = Some mf ∧ manifest_id mf = id.
Proof.
  unfold recover_log, recover, log_left.
  destruct (read_start crc (io_calls (io_of path)) bytes (stem_is path) menu) as [[[reader start] fresh]|] eqn:Hread; cbn [result_bind]; [|done].
  destruct (replay_start start fresh _) as [s0|] eqn:H0; cbn [result_bind]; [|done].
  destruct (replay _ _ _ _ _ _ _) as [[[[rd s] based] index]|] eqn:Hrep; cbn [result_bind]; [|done].
  destruct (negb based); [done|]. unfold rebuild.
  assert (Hsaves : saves (rp_game s) = Saves_default).
  { rewrite (replay_saves _ _ _ _ _ _ _ _ _ _ _ Hrep). by eapply replay_start_saves. }
  change (seated ((rp_game s) <| pacer := _ |>)) with (seated (rp_game s)).
  destruct (seated (rp_game s)) as [|first rest] eqn:Hseated; cbn [fmap list_fmap].
  { by destruct (map_err _ _). }
  rewrite (bool_decide_eq_false_2 (first :: rest = [])) by done.
  set (g := if _ && _ then _ else _).
  destruct (into_log (lc_into _) rd) as [kept_bytes [l|]]; cbn [map_err snd result_bind]; [|done].
  assert (Hg : next_turn g = next_turn (rp_game s) ∧ next_event g = next_event (rp_game s) ∧
    sealed_through g = sealed_through (rp_game s) ∧ histories g = histories (rp_game s)) by (unfold g; by destruct (_ && _)).
  set (m1 := Start _). set (m2 := Start _).
  assert (m1 = m2) as <-.
  { destruct Hg as (E1 & E2 & E3 & E4). unfold m1, m2, turn_start, begin_history. cbn. by rewrite E1, E2, E3, E4. }
  destruct (encode_frame m1 TURN_MAX_FRAME) as [frame|]; cbn [map_err result_bind]; [|done].
  destruct (append_record crc _ l frame) as [l' appended]. destruct (map_err RecoverIo appended); cbn [result_bind]; [|done].
  intros [= <-]. cbn [room_id room_log fst]. split; [by eapply read_start_stem|]. split; [by eexists|].
  intros id Hid. unfold held_snapshots in Hid. cbn [phase] in Hid.
  change (saves (begin_history g _)) with (saves g) in Hid. unfold g in Hid. clear -Hid Hsaves.
  destruct (_ && _); cbn in Hid; rewrite Hsaves in Hid; cbn in Hid; [|by apply not_elem_of_nil in Hid].
  unfold held, kept in Hid. cbn in Hid. unfold recover_snapshot, pointer_of in Hid.
  destruct (io_pointer_read _); cbn in Hid; [|by apply not_elem_of_nil in Hid].
  destruct (read_pointer d (sr_id start)) as [p|] eqn:Hp; cbn in Hid; [|by apply not_elem_of_nil in Hid].
  destruct (store_manifest (ptr_snapshot p)) as [mf|] eqn:Hm; cbn in Hid; [|by apply not_elem_of_nil in Hid].
  destruct (stream_from_save _ _); cbn in Hid; [|by apply not_elem_of_nil in Hid].
  apply list_elem_of_singleton in Hid as ->. by exists p, mf.
Qed.

(** Of the directory, a recovery reads the room's pointer only. *)
Lemma recover_log_pointer d d' path bytes : d !! (path.1, Some (chars "snapshot")) = d' !! (path.1, Some (chars "snapshot")) →
  recover_log d path bytes = recover_log d' path bytes.
Proof.
  intros Hd. unfold recover_log, recover.
  destruct (read_start crc (io_calls (io_of path)) bytes (stem_is path) menu) as [[[reader start] fresh]|] eqn:Hread; cbn [result_bind]; [|done].
  destruct (replay_start start fresh _) as [s0|]; cbn [result_bind]; [|done].
  destruct (replay _ _ _ _ _ _ _) as [[[[rd s] based] index]|]; cbn [result_bind]; [|done].
  destruct (negb based); [done|]. apply read_start_stem in Hread. unfold rebuild.
  assert (pointer_of io_of d path (sr_id start) = pointer_of io_of d' path (sr_id start)) as ->; [|done].
  unfold pointer_of, read_pointer, path_for. by rewrite <- Hread, Hd.
Qed.

(** ** What is left of a log *)







(** ** One log *)
Abbreviation LOG := (Some (chars "log")).
Abbreviation BROKEN := (Some (chars "broken")).
Abbreviation SNAPSHOT := (Some (chars "snapshot")).

Lemma not_pointer (path n : Name) : path.2 = LOG → (n.1, SNAPSHOT) ≠ path.
Proof. intros Hl <-. discriminate Hl. Qed.


Lemma aside_ext path attempt : (aside_name path attempt).2 = BROKEN.
Proof. by destruct attempt. Qed.

Lemma exists_not d n : exists_at d n = false → ∀ bytes, d !! n ≠ Some (Regular bytes).
Proof. unfold exists_at. intros H bytes E. by rewrite E in H. Qed.

Lemma try_aside_cases fuel attempt d path renamed e : d !! path = Some e →
  try_aside fuel attempt d path renamed = d ∨
  ∃ aside, aside.2 = BROKEN ∧ exists_at d aside = false ∧ try_aside fuel attempt d path renamed = <[aside := e]> (delete path d).
Proof.
  intros He. revert attempt. induction fuel as [|fuel IH]; intros attempt; cbn [try_aside]; [by left|].
  destruct (exists_at d (aside_name path attempt)) eqn:Hex; [apply IH|].
  destruct renamed; [|by left]. rewrite He. right. exists (aside_name path attempt). by rewrite aside_ext.
Qed.

(** What one log's recovery leaves alone. *)
Lemma recover_one_frame s path n : path.2 = LOG → n ≠ path →
  (n = (path.1, SNAPSHOT) → ∀ bytes, rs_dir s !! path = Some (Regular bytes) → recover_log (rs_dir s) path bytes ≠ Ok None) →
  (n.2 ≠ BROKEN ∨ exists_at (rs_dir s) n = true) → rs_dir (recover_one s path) !! n = rs_dir s !! n.
Proof.
  intros Hlog Hn Hp Hb. unfold recover_one.
  destruct (rs_dir s !! path) as [[bytes|]|] eqn:Hd; [|done..].
  destruct (recover_log (rs_dir s) path bytes) as [[r|]|e] eqn:Hr; cbn [rs_dir].
  - by rewrite lookup_insert_ne.
  - assert (n ≠ (path.1, SNAPSHOT)) as Hns by (intros E; by apply (Hp E bytes)).
    unfold remove_pointer. destruct (env_data_dir env); [destruct (io_pointer_removed _)|];
      rewrite ?lookup_delete_ne; done.
  - unfold set_aside. set (d1 := <[path := _]> (rs_dir s)).
    assert (d1 !! n = rs_dir s !! n) as Hd1 by (unfold d1; by rewrite lookup_insert_ne).
    destruct (try_aside_cases ATTEMPTS 0 d1 path (io_renamed (io_of path)) (Regular (log_left path bytes)))
      as [->|(aside & Ha & Hex & ->)]; [by apply lookup_insert_eq | done |].
    rewrite lookup_insert_ne, lookup_delete_ne; [done | done |]. intros ->.
    destruct Hb as [Hb|Hb]; [done|]. unfold exists_at in Hex, Hb. rewrite Hd1 in Hex. congruence.
Qed.

(** What becomes of it. *)
Definition outcome (d d' : Dir) (path : Name) (bytes : list Z) : Prop :=
  match recover_log d path bytes with
  | Ok (Some r) => d' !! path = Some (Regular (log_left path bytes))
  | Ok None => d' !! path = None
  | Err _ => ∃ n, (n = path ∨ n.2 = BROKEN ∧ exists_at d n = false) ∧ d' !! n = Some (Regular (log_left path bytes))
  end.

Definition restored_room (d : Dir) (path : Name) : option (Room R) :=
  match d !! path with
  | Some (Regular bytes) => match recover_log d path bytes with Ok found => found | Err _ => None end
  | _ => None
  end.


Lemma recover_one_rooms s path :
  rs_rooms (recover_one s path) = rs_rooms s ++ option_list (restored_room (rs_dir s) path) ∧
  rs_held (recover_one s path) = rs_held s ++ concat (held_snapshots <$> option_list (restored_room (rs_dir s) path)).
Proof.
  unfold recover_one, restored_room.
  destruct (rs_dir s !! path) as [[bytes|]|]; [destruct (recover_log (rs_dir s) path bytes) as [[r|]|e] | |];
    cbn [rs_rooms rs_held]; rewrite ?app_nil_r; (split; [reflexivity|]); cbn -[held_snapshots]; by rewrite ?app_nil_r.
Qed.

(** ** All logs *)
Abbreviation run := (foldl recover_one).


Section paths.
Context (s : Restored (R := R)) (path : Name) (Hlog : path.2 = LOG).

(** Another log and its pointer, after a step. *)
Lemma other_log q : q.2 = LOG → q ≠ path →
  rs_dir (recover_one s path) !! q = rs_dir s !! q ∧
  rs_dir (recover_one s path) !! (q.1, SNAPSHOT) = rs_dir s !! (q.1, SNAPSHOT).
Proof.
  intros Hq Hne. split; apply recover_one_frame; try done.
  - intros E. exfalso. by eapply (not_pointer q path).
  - left. intros E. rewrite Hq in E. discriminate E.
  - by apply not_pointer.
  - intros E bytes. exfalso. apply Hne. destruct q, path. cbn in *. congruence.
  - left. discriminate.
Qed.

Lemma other_recovers q bytes : q.2 = LOG → q ≠ path →
  recover_log (rs_dir (recover_one s path)) q bytes = recover_log (rs_dir s) q bytes.
Proof. intros Hq Hne. apply recover_log_pointer. by apply other_log. Qed.

Lemma other_restored q : q.2 = LOG → q ≠ path → restored_room (rs_dir (recover_one s path)) q = restored_room (rs_dir s) q.
Proof.
  intros Hq Hne. unfold restored_room. rewrite (proj1 (other_log q Hq Hne)).
  destruct (rs_dir s !! q) as [[bytes|]|]; [|done..]. by rewrite other_recovers.
Qed.
End paths.



Lemma run_rooms paths s : Forall (λ p, p.2 = LOG) paths → NoDup paths →
  rs_rooms (run s paths) = rs_rooms s ++ omap (restored_room (rs_dir s)) paths ∧
  rs_held (run s paths) = rs_held s ++ concat (held_snapshots <$> omap (restored_room (rs_dir s)) paths).
Proof.
  revert s. induction paths as [|path paths IH]; intros s Hlogs Hnd; [by cbn; rewrite !app_nil_r|]. cbn [foldl].
  apply Forall_cons in Hlogs as [Hlog Hlogs]. apply NoDup_cons in Hnd as [Hnot Hnd].
  destruct (IH (recover_one s path) Hlogs Hnd) as [-> ->]. destruct (recover_one_rooms s path) as [-> ->].
  assert (omap (restored_room (rs_dir (recover_one s path))) paths = omap (restored_room (rs_dir s)) paths) as ->.
  { rewrite Forall_forall in Hlogs. apply omap_ext_elem. intros q Hq. apply other_restored; [done | auto | congruence]. }
  cbn [omap list_omap]. destruct (restored_room (rs_dir s) path) as [r|]; rewrite <- ?app_assoc; [|done].
  split; [done|]. by cbn -[held_snapshots]; rewrite app_nil_r.
Qed.


End facts.

(** * The worlds of restored rooms *)
Section worlds.
Context {R : Type} {RS : Ruleset R} {P : Postcard TurnMessage} {PS : Postcard StartRecord} {PP : Postcard Pointer}.
Context (crc : list Z → Z) (key : list Z) (menu : list (RulesChoice (R := R))) (env : RoomEnv) (io_of : Name → LogIo).
Context (blake3 : list Z → Z) (Fs : Manifest.Fields) (Zs : Store.Zstd).
Context (config : Store.StoreConfig) (fails : nat → bool) (named : string → bool) (unreadable : ManifestId → bool).

(** What the store says of a snapshot when a room asks for it; [unreadable]: that it
    fails to. *)
Definition store_says (s : Store.Store) (id : ManifestId) : option Manifest :=
  if unreadable id then None
  else match (Store.manifest blake3 Fs StoreSpec.never id s).2 with
       | Ok m => Some (MkManifest (Manifest.id m) (Manifest.total_size m))
       | Err _ => None
       end.

(** [Snapshots::open] on a store another process left. *)
Definition open_vault (left : Store.Store) (locked : bool) : result Vault.Vault Store.StoreError :=
  let '(s, r) := Store.open_store fails locked left in
  let? _ := r in Ok (Vault.MkVault (StoreInv.MkProcess s ∅) ∅ false).

(** [Directory::recover], where the server keeps snapshots. *)
Definition recover_directory (d : Dir) (v : Vault.Vault) (opened : bool) (listed swept : Name → bool) :
    Restored (R := R) * Vault.Vault :=
  let st := recover_rooms crc key menu env (store_says (Vault.v_store v)) io_of d opened listed swept in
  (st, if bool_decide (is_Some (env_snapshots env))
       then Vault.v_release_all_but blake3 Fs Zs config fails named v (rs_held st) else v).

Hypothesis bound_range : Store.max_bytes config < u64_max.
Hypothesis zstd : StoreInv.zstd_law Zs.
Hypothesis fields : Manifest.FieldsLaws Fs.
Hypothesis blake3_digest : ∀ bytes, Manifest.is_digest (blake3 bytes).

Lemma store_says_retained s id mf : store_says s id = Some mf →
  manifest_id mf = id ∧ (is_Some (Store.roots s !! id) → Whole.kept blake3 Fs s id).
Proof.
  unfold store_says. destruct (unreadable id); [done|]. unfold Store.manifest.
  pose proof (StoreInv.load_record_cases blake3 Fs StoreSpec.never Store.RecordRoot id s) as Hr.
  destruct (Store.load_record blake3 Fs StoreSpec.never Store.RecordRoot id s) as [s1 r] eqn:El.
  assert (Hok : ∀ m bytes, StoreInv.reads_to blake3 Fs id bytes m → Manifest.id m = id) by (intros m bytes H; apply H).
  destruct r as [m|e]; cbn [snd].
  - intros [= <-]. cbn [manifest_id]. destruct Hr as (_ & bytes & Hb & Hm). split; [by eapply Hok|].
    intros _. exists m. pose proof (Hok _ _ Hm) as E. split; [done|]. exists bytes. by rewrite E.
  - destruct e; try done. destruct Hr as [_ Hr]. cbn [Store.records] in Hr.
    pose proof (StoreInv.load_record_cases blake3 Fs StoreSpec.never Store.RecordPending id s1) as Hp.
    destruct (Store.load_record blake3 Fs StoreSpec.never Store.RecordPending id s1) as [s2 [m|e]]; cbn [snd]; [|done].
    destruct Hp as (_ & bytes & Hb & Hm). intros [= <-]. cbn [manifest_id]. split; [by eapply Hok|].
    rewrite Hr. by intros [].
Qed.

(** C20: A restart keeps the worlds games go on from.  Let a server run, in any way and
    with any failures, and end at any point; let the next one open what it left and
    recover whatever is in the data directory.  Each snapshot a restored room goes on
    from that the store still retained is held for that room, and is served whole: its
    manifest can be read, all its chunks are there, and each is sent as a frame of
    exactly the bytes its name is the hash of; although the start of the server also
    drops every transfer, every snapshot and every chunk no room uses. *)
Theorem restored_worlds_served (sh : Vault.Shared) (locked : bool) (v : Vault.Vault) (d : Dir) (opened : bool)
    (listed swept : Name → bool) (r : Room R) (id : ManifestId) :
  0 ≤ Store.max_bytes config → is_Some (env_snapshots env) →
  rtc (Vault.shared_step blake3 Fs Zs config fails named) (Vault.MkShared Vault.v_new []) sh →
  open_vault (Vault.v_store (Vault.vault sh)) locked = Ok v →
  let '(st, v') := recover_directory d v opened listed swept in
  r ∈ rs_rooms st → id ∈ held_snapshots r → is_Some (Store.roots (Vault.v_store (Vault.vault sh)) !! id) →
  Vault.v_held v' id ∧
  ∃ m, Manifest.id m = id ∧ (Store.manifest blake3 Fs StoreSpec.never id (Vault.v_store v')).2 = Ok m ∧
    ∀ e, e ∈ Manifest.chunks m → ∃ frame raw_len raw,
      (Store.read_compressed blake3 Zs StoreSpec.never (Manifest.entry_id e) (Vault.v_store v')).2 = Ok frame ∧
      Store.decode_chunk blake3 Zs (Manifest.entry_id e) raw_len frame = Ok raw ∧ blake3 raw = Manifest.entry_id e.
Proof.
  intros Hmax Hsn Hreach Hopen. unfold open_vault in Hopen.
  destruct (Store.open_store fails locked _) as [s r0] eqn:Eo. destruct r0 as [[]|]; [|done]. injection Hopen as <-.
  pose proof (Vault.whole_reached _ _ _ _ _ _ bound_range zstd fields blake3_digest sh Hmax Hreach) as Hw.
  destruct (Vault.open_whole _ _ _ _ _ (Vault.vault sh) locked s Hw Eo) as (Hw' & Hroots & _).
  unfold recover_directory. rewrite bool_decide_eq_true_2 by done. set (v := Vault.MkVault _ _ _).
  set (st := recover_rooms _ _ _ _ _ _ _ _ _ _). intros Hr Hid Hroot.
  assert (Hheld : id ∈ rs_held st ∧ ∃ mf, store_says (Vault.v_store v) id = Some mf).
  { unfold st, recover_rooms in *. destruct (_ && _); [|by apply not_elem_of_nil in Hr].
    set (s0 := MkRestored _ [] []) in *. set (paths := log_paths d listed) in *.
    assert (Hlogs : Forall (λ p, p.2 = Some (chars "log")) paths) by (apply Forall_forall; intros n Hn; apply (elem_of_logs d listed) in Hn; exact (proj1 Hn)).
    destruct (run_rooms crc key menu env (store_says (Vault.v_store v)) io_of paths s0 Hlogs (NoDup_logs d listed)) as [E1 E2].
    rewrite E1 in Hr. cbn [rs_rooms s0 app] in Hr. rewrite E2. cbn [rs_held s0 app]. split.
    - apply list_elem_of_In, in_concat. exists (held_snapshots r). split; apply list_elem_of_In; [|done]. apply list_elem_of_fmap. by exists r.
    - apply list_elem_of_omap in Hr as (path & _ & Hr). unfold restored_room in Hr.
      destruct (rs_dir s0 !! path) as [[bytes|]|]; [|done..].
      destruct (recover_log crc key menu env (store_says (Vault.v_store v)) io_of (rs_dir s0) path bytes) as [[r'|]|] eqn:Hrec; [|done..].
      injection Hr as ->. apply recovered in Hrec as (_ & _ & Hrec). destruct (Hrec id Hid) as (p & mf & _ & Hm & E).
      pose proof (store_says_retained _ _ _ Hm) as [E' _]. rewrite E in E'. rewrite E'. by exists mf. }
  destruct Hheld as (Hin & mf & Hsays).
  destruct (Vault.release_all_but_keeps _ _ _ _ fails named bound_range zstd fields blake3_digest v (rs_held st) eq_refl Hw') as [Hwhole Hkeep].
  destruct (Hkeep id Hin) as [Hh Hk]. split; [exact Hh|].
  eapply Vault.whole_serves; [exact Hwhole|]. apply Hk. apply (store_says_retained _ _ _ Hsays).
  change (Vault.v_store v) with s. by rewrite Hroots.
Qed.
End worlds.

(** * The pointer survives *)
Lemma pointer_not_partial room : partial_of (path_for room) ≠ path_for room.
Proof. intros E. apply (f_equal snd) in E. discriminate E. Qed.

(** A pointer is written whole or not at all: wherever writing it ends, by an error or
    with the process, reading it back gives the pointer there was before, or, once the
    write has reported success, the new one; and no other file than the unfinished one
    is touched. *)
Theorem pointer_atomic {PP : Postcard Pointer} {LP : PostcardLaws Pointer} (d : Dir) (room : RoomId) (p : Pointer) (outcome : PointerWrite) :
  ptr_version p = POINTER_VERSION → (∀ bytes, to_stdvec p = Some bytes → Z.of_nat (length bytes) ≤ POINTER_MAX) →
  let '(d', r) := write_pointer d room p outcome in
  read_pointer d' room = (if is_ok r then Some p else read_pointer d room) ∧
  ∀ n, n ≠ path_for room → n ≠ partial_of (path_for room) → d' !! n = d !! n.
Proof.
  intros Hv Hmax. unfold write_pointer. destruct (to_stdvec p) as [bytes|] eqn:Hp; [|done]. specialize (Hmax bytes eq_refl).
  pose proof (pointer_not_partial room) as Hne.
  destruct outcome; cbn [is_ok].
  - done.
  - split; [unfold read_pointer; by rewrite lookup_insert_ne|]. intros n _ Hn. by rewrite lookup_insert_ne.
  - split; [unfold read_pointer; by rewrite lookup_insert_ne|]. intros n _ Hn. by rewrite lookup_insert_ne.
  - split.
    + unfold read_pointer. rewrite lookup_insert_eq, (proj2 (Z.ltb_ge _ _)) by done. unfold from_bytes.
      rewrite <- (app_nil_r bytes), (postcard_roundtrip p bytes []) by done. cbn. by rewrite Hv.
    + intros n Hn Hn'. by rewrite lookup_insert_ne, lookup_delete_ne.
Qed.

(** * Examples *)
Module ConcretePointer.
#[export] Instance codec_SavePoint : Codec SavePoint.
Proof.
  refine (codec_iso (λ p, (point_event p, point_after_turn p, point_history p, point_sealed_through p))
    (λ f, let '(a, b, c, e) := f in Some (MkSavePoint a b c e)) _). by intros [].
Defined.

#[export] Instance codec_Pointer : Codec Pointer.
Proof.
  refine (codec_iso (λ p, (ptr_version p, ptr_snapshot p, ptr_point p)) (λ f, let '(a, b, c) := f in Some (MkPointer a b c)) _).
  by intros [].
Defined.

#[export] Instance pointer_postcard : Postcard Pointer := {
  to_stdvec m := Some (encode m);
  take_from_bytes := decode;
}.
End ConcretePointer.

Module RestartExamples.
Import RecoverExamples RoomExamples ConcretePointer.

(** A game that was saved at its third event. *)
Definition saved_turns : list Turn := [
  MkTurn 1 2 NORMAL [MkEvent 1 1 (PlayerJoined 1 "ada" linux); MkEvent 2 1 (PlayerJoined 2 "bob" linux)];
  MkTurn 2 3 NORMAL [MkEvent 3 3 SaveWorld]].
Definition saved_log : list Z := file_of checksum (first :: (payload ∘ TurnOf <$> saved_turns)).
Definition save_point : SavePoint := MkSavePoint 3 2 77 3.

Definition game_log : Name := (room_text 9, Some (chars "log")).
Definition junk_log : Name := (chars "junk", Some (chars "log")).
Definition junk_broken : Name := (chars "junk", Some (chars "broken")).
Definition junk_one : Name := (chars "junk.1", Some (chars "broken")).

Definition pointer_to (id : SnapshotId) : list Z := encode (Pointer_new id save_point).

Definition directory (id : SnapshotId) : Dir :=
  {[ game_log := Regular (saved_log ++ [1; 2; 3]); path_for 9 := Regular (pointer_to id);
     junk_log := Regular [5; 5; 5]; junk_broken := Regular [4] ]}.

Definition io_fine : Name → LogIo := λ _, MkLogIo 78 log_works true (Ok tt) writes 1000 true true.
Definition always : Name → bool := λ _, true.

End RestartExamples.

Section witness.
Import RestartExamples RecoverExamples RoomExamples ConcretePointer Concrete ConcreteStart.

Abbreviation says := (λ id, Some (MkManifest id 10)).




(** The toy store's snapshot, and a game that goes on from it. *)
Abbreviation left_store := (Vault.v_store (Vault.vault Vault.ToyVault.held)).
Definition reopened : Vault.Vault :=
  match open_vault StoreSpec.never left_store false with Ok v => v | Err _ => Vault.v_new end.

Abbreviation starts v := (recover_directory (R := AcceptAll) checksum [] (menu_single choice) env io_fine
  StoreInv.ToyStore.hash Vault.ToyVault.fields StoreInv.ToyStore.toy_zstd StoreInv.ToyStore.config StoreSpec.never (λ _, true) (λ _, false)
  (directory Vault.ToyVault.id) v true always always).

Lemma reopens : open_vault StoreSpec.never left_store false = Ok reopened.
Proof. vm_compute. reflexivity. Qed.

Lemma room_holds : concat (held_snapshots <$> rs_rooms (starts reopened).1) = [Vault.ToyVault.id].
Proof. vm_compute. reflexivity. Qed.

Lemma restored_worlds_served_witness :
  ∃ r, r ∈ rs_rooms (starts reopened).1 ∧ Vault.ToyVault.id ∈ held_snapshots r ∧ Vault.v_held (starts reopened).2 Vault.ToyVault.id ∧
  ∃ m, Manifest.id m = Vault.ToyVault.id ∧
    (Store.manifest StoreInv.ToyStore.hash Vault.ToyVault.fields StoreSpec.never Vault.ToyVault.id (Vault.v_store (starts reopened).2)).2 = Ok m ∧
    ∀ e, e ∈ Manifest.chunks m → ∃ frame raw_len raw,
      (Store.read_compressed StoreInv.ToyStore.hash StoreInv.ToyStore.toy_zstd StoreSpec.never (Manifest.entry_id e) (Vault.v_store (starts reopened).2)).2 = Ok frame ∧
      Store.decode_chunk StoreInv.ToyStore.hash StoreInv.ToyStore.toy_zstd (Manifest.entry_id e) raw_len frame = Ok raw ∧
      StoreInv.ToyStore.hash raw = Manifest.entry_id e.
Proof.
  pose proof (λ r : Room AcceptAll, restored_worlds_served checksum [] (menu_single choice) env io_fine
    StoreInv.ToyStore.hash Vault.ToyVault.fields StoreInv.ToyStore.toy_zstd StoreInv.ToyStore.config StoreSpec.never (λ _, true) (λ _, false)
    ltac:(done) StoreInv.ToyStore.toy_laws Manifest.ConcreteFields.laws StoreSpec.ToySpec.digest
    Vault.ToyVault.held false reopened (directory Vault.ToyVault.id) true always always r Vault.ToyVault.id
    ltac:(done) ltac:(by eexists) Vault.ToyVault.first reopens) as Hs.
  pose proof room_holds as Hh. destruct (starts reopened) as [st v']. cbn [fst snd] in Hh |- *.
  assert (Hroot : is_Some (Store.roots left_store !! Vault.ToyVault.id)) by (vm_compute; by eexists).
  assert (Hin : Vault.ToyVault.id ∈ concat (held_snapshots <$> rs_rooms st)) by (rewrite Hh; by left).
  apply list_elem_of_In, in_concat in Hin as (l & Hl & Hid). apply list_elem_of_In in Hl, Hid.
  apply list_elem_of_fmap in Hl as (r & -> & Hr). exists r. split; [exact Hr|]. split; [exact Hid|].
  exact (Hs r Hr Hid Hroot).
Defined.

(** A snapshot that was only half received: a restored room takes it for one the store
    holds, although the start of the server drops it right after. *)
Definition half_received : Vault.Vault :=
  match open_vault StoreSpec.never (Vault.v_store (Vault.ToyVault.uses Vault.v_new (StoreInv.OpOpen 0 StoreInv.ToyStore.manifest))) false with
  | Ok v => v
  | Err _ => Vault.v_new
  end.

Example unfinished_world_adopted :
  Store.roots (Vault.v_store half_received) = ∅ ∧
  concat (held_snapshots <$> rs_rooms (starts half_received).1) = [Vault.ToyVault.id] ∧
  (Store.manifest StoreInv.ToyStore.hash Vault.ToyVault.fields StoreSpec.never Vault.ToyVault.id (Vault.v_store (starts half_received).2)).2 =
    Err (Store.UnknownSnapshot Vault.ToyVault.id).
Proof. split; [|split]; vm_compute; reflexivity. Qed.
End witness.
