(* ===== verification/Bulk.v ===== *)
(** Bulk streams ([crates/tpf3mp-net/src/bulk.rs], the messages of
    [crates/tpf3mp-proto/src/snapshot.rs], [crates/tpf3mp-agent/src/transfer.rs]):
    one side serves a snapshot from its store, the other fetches it into its own.

    Both sides are machines that run from one message they wait for to the next:
    [serve_request] is a round of [serve]'s loop, [on_response] what [fetch] does with
    one response.  How a write or a wait ended is an argument ([write_ends], and the
    error in place of a message); the calls of the two stores fail as [fails] says.
    A task of the blocking pool runs to its end. *)
From S2P Require Import Prelude Proto Manifest Store Sink StoreInv StoreSpec.
Local Open Scope Z_scope.

(** * Messages *)
Definition BULK_REQUEST_MAX_FRAME : Z := 16 * 1024.
Definition BULK_RESPONSE_MAX_FRAME : Z := 11 * 2 ^ 20.
Definition MAX_CHUNKS_PER_REQUEST : nat := 256.

Inductive BulkRequest := ReqManifest | ReqChunks (ids : list ChunkId).

Inductive BulkResponse :=
  | RespManifest (bytes : list Z)
  | RespChunk (id : ChunkId) (frame : list Z)
  | RespUnavailable.

(** * Limits and errors *)
Definition FETCH_WINDOW : Z := 16 * 2 ^ 20.
Definition REPAIR_ROUNDS : nat := 3.
Definition MIN_RATE : Z := 64 * 1024.
Definition FRAME_FLOOR : Duration := from_secs 5.

Inductive BulkError :=
  | BulkNet (e : NetError)
  | BulkConnection
  | Violation (what : string)
  | BulkIdle (after : Duration)
  | Unavailable
  | BulkManifest (e : ManifestError)
  | WrongManifest
  | BulkSink (e : SinkError)
  | BulkStore (e : StoreError).

Definition is_violation (e : BulkError) : bool :=
  match e with
  | Violation _ | BulkManifest _ | WrongManifest => true
  | BulkNet e => negb (is_disconnect e)
  | BulkSink (Rejected _ _) | BulkSink (NotInManifest _) => true
  | _ => false
  end.

Inductive Completion := CompleteFile (path : string) | CompleteRetain.

Record Served := MkServed { served_chunks : Z; served_bytes : Z }.

(** The time a frame of [len] bytes gets at [MIN_RATE], at least [FRAME_FLOOR] and
    at most [idle]. *)
Definition frame_time (len : Z) (idle : Duration) : Duration :=
  Z.min (Z.max (from_millis (saturating_mul_u64 len 1000 / MIN_RATE)) FRAME_FLOOR) (Z.max idle FRAME_FLOOR).

(** * Serving *)
Record Serve := MkServe {
  v_store : Store;
  served : Served;
  responses : list BulkResponse;      (* written so far *)
  v_writes : nat;
  v_ended : option (result Served BulkError);
}.
#[export] Instance eta_Serve : Eta Serve := fun v =>
  MkServe (v_store v) (served v) (responses v) (v_writes v) (v_ended v).

Abbreviation ServeM := (SE Serve BulkError).

Section serve.
Context (blake3 : list Z → Z) (Fs : Fields) (Zs : Zstd) (fails : nat → bool).
Context (write_ends : nat → result unit BulkError) (m : Manifest).

Definition Serve_new (s : Store) : Serve := MkServe s (MkServed 0 0) [] 0 None.

Definition write_response (r : BulkResponse) : ServeM unit := λ v,
  let v := v <| v_writes := S (v_writes v) |> in
  match write_ends (v_writes v) with
  | Ok _ => (v <| responses := responses v ++ [r] |>, Ok tt)
  | Err e => (v, Err e)
  end.

(** The chunks asked for, in the order asked; the first one the store cannot
    produce ends the stream. *)
Fixpoint serve_chunks (ids : list ChunkId) : ServeM unit := λ v,
  match ids with
  | [] => (v, Ok tt)
  | id :: ids =>
      let '(s, r) := read_compressed blake3 Zs fails id (v_store v) in
      let v := v <| v_store := s |> in
      match r with
      | Err e => ((write_response RespUnavailable v).1, Err (BulkStore e))
      | Ok frame =>
          (_ ← se_mod (λ v, v <| served := MkServed (served_chunks (served v) + 1)
                                              (served_bytes (served v) + Z.of_nat (length frame)) |>);
           _ ← write_response (RespChunk id frame);
           serve_chunks ids) v
      end
  end.

Definition answer (q : BulkRequest) : ServeM unit :=
  match q with
  | ReqManifest => write_response (RespManifest (to_bytes Fs m))
  | ReqChunks ids =>
      if bool_decide (ids = []) || (MAX_CHUNKS_PER_REQUEST <? length ids)%nat
      then se_err (Violation "a chunk request of the wrong size")
      else if negb (forallb (λ id, bool_decide (id ∈ chunk_ids m)) ids)
      then se_err (Violation "a request for a chunk not in the manifest")
      else serve_chunks ids
  end.

(** One round: a request, or how waiting for it ended. *)
Definition serve_request (request : result BulkRequest BulkError) (v : Serve) : Serve :=
  match v_ended v with
  | Some _ => v
  | None =>
      match request with
      | Err (BulkNet e) =>
          v <| v_ended := Some (if is_disconnect e then Ok (served v) else Err (BulkNet e)) |>
      | Err e => v <| v_ended := Some (Err e) |>
      | Ok q =>
          match answer q v with
          | (v, Ok _) => v
          | (v, Err e) => v <| v_ended := Some (Err e) |>
          end
      end
  end.
End serve.

(** * Fetching *)
Inductive Stage :=
  | AwaitManifest
  | AwaitChunk (m : Manifest) (k : ChunkSink) (rounds : nat) (wanted : list ChunkEntry)
      (due : ChunkId) (outstanding : list (ChunkId * Z)) (outstanding_bytes : Z)
  | Ended (r : result Manifest BulkError).

Record Fetch := MkFetch {
  f_store : Store;
  stage : Stage;
  requests : list BulkRequest;        (* written so far *)
  f_writes : nat;
}.
#[export] Instance eta_Fetch : Eta Fetch := fun f =>
  MkFetch (f_store f) (stage f) (requests f) (f_writes f).

Abbreviation FetchM := (SE Fetch BulkError).

Section fetch.
Context (blake3 : list Z → Z) (Fs : Fields) (Zs : Zstd) (config : StoreConfig).
Context (fails : nat → bool) (named : string → bool) (write_ends : nat → result unit BulkError).
Context (expected : ManifestId) (completion : Completion).

Definition write_request (q : BulkRequest) : FetchM unit := λ f,
  let f := f <| f_writes := S (f_writes f) |> in
  match write_ends (f_writes f) with
  | Ok _ => (f <| requests := requests f ++ [q] |>, Ok tt)
  | Err e => (f, Err e)
  end.

Definition end_fetch (r : result Manifest BulkError) (f : Fetch) : Fetch := f <| stage := Ended r |>.

(** The transfer of [m] opened, or picked up where an earlier one stopped. *)
Definition take_sink (s : Store) (m : Manifest) : Store * result ChunkSink SinkError :=
  match list_records fails RecordPending s with
  | (s, Err e) => (s, Err (SinkStore e))
  | (s, Ok pending) =>
      if bool_decide (Manifest.id m ∈ pending) then
        match resume_sink blake3 Fs config fails s (Manifest.id m) with
        | (s, Err (SinkStore (DamagedRecord _ _))) => open_sink Fs config fails s m
        | other => other
        end
      else open_sink Fs config fails s m
  end.

(** The chunks of the next request, and those that stay wanted. *)
Fixpoint next_ids (slots : nat) (bytes : Z) (wanted : list ChunkEntry) : list ChunkEntry * list ChunkEntry :=
  match slots, wanted with
  | S slots, e :: rest =>
      if bytes <? FETCH_WINDOW
      then let '(ids, rest) := next_ids slots (bytes + len e) rest in (e :: ids, rest)
      else ([], wanted)
  | _, _ => ([], wanted)
  end.

Definition due_entry (e : ChunkEntry) : ChunkId * Z := (entry_id e, len e).

(** Requests until the window is full or nothing is wanted. *)
Fixpoint fill (fuel : nat) (wanted : list ChunkEntry) (outstanding : list (ChunkId * Z)) (bytes : Z) :
    FetchM (list ChunkEntry * list (ChunkId * Z) * Z) :=
  match fuel with
  | O => mret (wanted, outstanding, bytes)
  | S fuel =>
      if (bytes <? FETCH_WINDOW) && negb (bool_decide (wanted = [])) then
        let '(ids, wanted) := next_ids MAX_CHUNKS_PER_REQUEST bytes wanted in
        _ ← write_request (ReqChunks (entry_id <$> ids));
        fill fuel wanted (outstanding ++ (due_entry <$> ids)) (bytes + sum_lens ids)
      else mret (wanted, outstanding, bytes)
  end.

(** A fetch that failed leaves nothing pinned. *)
Definition fail_fetch (k : ChunkSink) (e : BulkError) (f : Fetch) : Fetch :=
  end_fetch (Err e) (f <| f_store := (abandon fails (MkTransfer (f_store f) k)).1 |>).

Definition complete : SinkM unit :=
  match completion with
  | CompleteFile path => finish_sink blake3 Fs Zs fails named path
  | CompleteRetain => retain_sink blake3 Fs Zs fails
  end.

(** On to the next response, or to the end: [rounds] more may repair chunks
    found damaged at the end. *)
Fixpoint pursue (m : Manifest) (rounds : nat) (k : ChunkSink) (wanted : list ChunkEntry) (outstanding : list (ChunkId * Z))
    (bytes : Z) (f : Fetch) : Fetch :=
  match fill (length wanted) wanted outstanding bytes f with
  | (f, Err e) => fail_fetch k e f
  | (f, Ok (wanted, (due, n) :: outstanding, bytes)) =>
      f <| stage := AwaitChunk m k rounds wanted due outstanding (bytes - n) |>
  | (f, Ok (_, [], _)) =>
      let '(t, r) := complete (MkTransfer (f_store f) k) in
      let f := f <| f_store := store t |> in
      match r, rounds with
      | Ok _, _ => end_fetch (Ok m) f
      | Err (SinkStore (Corrupt _ _)), S rounds => pursue m rounds (sink t) (still_missing (sink t)) [] 0 f
      | Err e, _ => fail_fetch (sink t) (BulkSink e) f
      end
  end.

(** What the manifest that came leads to. *)
Definition on_manifest (bytes : list Z) (f : Fetch) : Fetch :=
  if MAX_MANIFEST_LEN <? Z.of_nat (length bytes) then end_fetch (Err (Violation "an oversized manifest")) f
  else
    match from_bytes blake3 Fs bytes with
    | Err e => end_fetch (Err (BulkManifest e)) f
    | Ok m =>
        if negb (Manifest.id m =? expected) then end_fetch (Err WrongManifest) f
        else
          match take_sink (f_store f) m with
          | (s, Err e) => end_fetch (Err (BulkSink e)) (f <| f_store := s |>)
          | (s, Ok k) => pursue m (REPAIR_ROUNDS - 1) k (still_missing k) [] 0 (f <| f_store := s |>)
          end
    end.

Definition on_chunk (m : Manifest) (k : ChunkSink) (rounds : nat) (wanted : list ChunkEntry) (due : ChunkId)
    (outstanding : list (ChunkId * Z)) (bytes : Z) (id : ChunkId) (frame : list Z) (f : Fetch) : Fetch :=
  if negb (id =? due) then fail_fetch k (Violation "a chunk out of order") f
  else
    let '(t, r) := put_chunk blake3 Zs config fails id frame (MkTransfer (f_store f) k) in
    let f := f <| f_store := store t |> in
    match r with
    | Err e => fail_fetch (sink t) (BulkSink e) f
    | Ok _ => pursue m rounds (sink t) wanted outstanding bytes f
    end.

(** One response, or how waiting for it ended. *)
Definition on_response (response : result BulkResponse BulkError) (f : Fetch) : Fetch :=
  match stage f with
  | Ended _ => f
  | AwaitManifest =>
      match response with
      | Ok (RespManifest bytes) => on_manifest bytes f
      | Ok RespUnavailable => end_fetch (Err Unavailable) f
      | Ok (RespChunk _ _) => end_fetch (Err (Violation "a chunk before the manifest")) f
      | Err e => end_fetch (Err e) f
      end
  | AwaitChunk m k rounds wanted due outstanding bytes =>
      match response with
      | Ok (RespChunk id frame) => on_chunk m k rounds wanted due outstanding bytes id frame f
      | Ok RespUnavailable => fail_fetch k Unavailable f
      | Ok (RespManifest _) => fail_fetch k (Violation "a manifest in place of a chunk") f
      | Err e => fail_fetch k e f
      end
  end.

(** The fetch begins by asking for the manifest. *)
Definition start_fetch (s : Store) : Fetch :=
  match write_request ReqManifest (MkFetch s AwaitManifest [] 0) with
  | (f, Ok _) => f
  | (f, Err e) => end_fetch (Err e) f
  end.
End fetch.

(** * Both ends of a stream *)

(** What each side has written is read by the other in order; [reads_up] and
    [reads_down] count how much of it was.  A side that ended ends the other. *)
Record Link := MkLink { fetcher : Fetch; server : Serve; reads_up : nat; reads_down : nat }.

Inductive LinkOp := ServerReads | FetcherReads.

Section link.
Context (blake3 : list Z → Z) (Fs : Fields) (Zs : Zstd) (config : StoreConfig).
Context (f_fails v_fails : nat → bool) (named : string → bool) (f_write_ends v_write_ends : nat → result unit BulkError).
Context (m : Manifest) (expected : ManifestId) (completion : Completion).

Definition link_step (l : Link) (op : LinkOp) : Link :=
  match op with
  | ServerReads =>
      match requests (fetcher l) !! reads_up l with
      | Some q => MkLink (fetcher l) (serve_request blake3 Fs Zs v_fails v_write_ends m (Ok q) (server l)) (S (reads_up l)) (reads_down l)
      | None =>
          match stage (fetcher l) with
          | Ended _ =>
              MkLink (fetcher l) (serve_request blake3 Fs Zs v_fails v_write_ends m (Err (BulkNet Read)) (server l))
                (reads_up l) (reads_down l)
          | _ => l
          end
      end
  | FetcherReads =>
      let fetcher_reads r := on_response blake3 Fs Zs config f_fails named f_write_ends expected completion r (fetcher l) in
      match responses (server l) !! reads_down l with
      | Some r => MkLink (fetcher_reads (Ok r)) (server l) (reads_up l) (S (reads_down l))
      | None =>
          match v_ended (server l) with
          | Some _ => MkLink (fetcher_reads (Err (BulkNet Read))) (server l) (reads_up l) (reads_down l)
          | None => l
          end
      end
  end.

Definition link_run : Link → list LinkOp → Link := foldl link_step.

Definition open_link (from to : Store) : Link := MkLink (start_fetch f_write_ends to) (Serve_new from) 0 0.
End link.

(** * What a fetch asks for *)
Definition ids_of (q : BulkRequest) : list ChunkId := match q with ReqManifest => [] | ReqChunks ids => ids end.

(** A request for chunks that a server of [m] answers. *)
Definition polite (m : Manifest) (q : BulkRequest) : Prop :=
  match q with
  | ReqManifest => False
  | ReqChunks ids => ids ≠ [] ∧ (length ids ≤ MAX_CHUNKS_PER_REQUEST)%nat ∧ Forall (λ id, id ∈ chunk_ids m) ids
  end.

Lemma sum_lens_app a b : sum_lens (a ++ b) = sum_lens a + sum_lens b.
Proof. unfold sum_lens. by rewrite fmap_app, sum_Z_app. Qed.

Lemma next_ids_spec slots bytes wanted :
  let '(ids, rest) := next_ids slots bytes wanted in
  wanted = ids ++ rest ∧ (length ids ≤ slots)%nat ∧
  ((0 < slots)%nat → bytes < FETCH_WINDOW → wanted ≠ [] → ids ≠ []) ∧
  (Forall (λ e, len e ≤ MAX_CHUNK_LEN) wanted → bytes < FETCH_WINDOW + MAX_CHUNK_LEN →
    bytes + sum_lens ids < FETCH_WINDOW + MAX_CHUNK_LEN).
Proof.
  revert bytes wanted. induction slots as [| slots IH]; intros bytes wanted; [repeat split; cbn; try lia; intros _ ?; change (sum_lens []) with 0; lia |].
  destruct wanted as [| e wanted]; [repeat split; cbn; try lia; try done; intros _ ?; change (sum_lens []) with 0; lia |].
  cbn [next_ids]. destruct (Z.ltb_spec bytes FETCH_WINDOW) as [Hlt | Hge].
  - specialize (IH (bytes + len e) wanted). destruct (next_ids slots (bytes + len e) wanted) as [ids rest].
    destruct IH as (-> & Hlen & _ & Hb). split; [done |]. split; [cbn; lia |]. split; [done |].
    intros [He Hrest]%Forall_cons _. specialize (Hb Hrest ltac:(lia)). unfold sum_lens in *. rewrite fmap_cons, sum_Z_cons. lia.
  - repeat split; cbn; try lia. intros _ ?. change (sum_lens []) with 0. lia.
Qed.

Section filling.
Context (write_ends : nat → result unit BulkError) (m : Manifest).

(** What asking leaves behind: whole requests that a server of [m] answers, in the
    order the chunks are then due, and a window that is full unless nothing is
    wanted. *)
Record filled (wanted : list ChunkEntry) (outstanding : list (ChunkId * Z)) (bytes : Z) (f : Fetch)
    (wanted' : list ChunkEntry) (outstanding' : list (ChunkId * Z)) (bytes' : Z) (f' : Fetch) (qs : list BulkRequest) : Prop := {
  fi_asked : ∃ asked, wanted = asked ++ wanted' ∧ outstanding' = outstanding ++ (due_entry <$> asked) ∧
    bytes' = bytes + sum_lens asked ∧ qs ≫= ids_of = entry_id <$> asked;
  fi_full : wanted' = [] ∨ FETCH_WINDOW ≤ bytes';
  fi_bound : Forall (λ e, len e ≤ MAX_CHUNK_LEN) wanted → bytes < FETCH_WINDOW + MAX_CHUNK_LEN →
    bytes' < FETCH_WINDOW + MAX_CHUNK_LEN;
}.

Lemma fill_spec fuel wanted outstanding bytes f :
  (length wanted ≤ fuel)%nat → (∀ e, e ∈ wanted → e ∈ chunks m) →
  let '(f', r) := fill write_ends fuel wanted outstanding bytes f in
  f_store f' = f_store f ∧ stage f' = stage f ∧
  ∃ qs, requests f' = requests f ++ qs ∧ Forall (polite m) qs ∧
  match r with
  | Ok (wanted', outstanding', bytes') => filled wanted outstanding bytes f wanted' outstanding' bytes' f' qs
  | Err e => ∃ n, write_ends n = Err e
  end.
Proof.
  revert wanted outstanding bytes f. induction fuel as [| fuel IH]; intros wanted outstanding bytes f Hfuel Hin; cbn [fill].
  { destruct wanted; [| cbn in Hfuel; lia]. split; [done |]. split; [done |]. exists []. rewrite app_nil_r. split; [done |]. split; [done |].
    split; [exists []; cbn; change (sum_lens []) with 0; rewrite app_nil_r, Z.add_0_r; done | by left | done]. }
  destruct (Z.ltb_spec bytes FETCH_WINDOW) as [Hlt | Hge]; cbn [andb].
  2: { split; [done |]. split; [done |]. exists []. rewrite app_nil_r. split; [done |]. split; [done |].
    split; [exists []; cbn; change (sum_lens []) with 0; rewrite app_nil_r, Z.add_0_r; done | by right | done]. }
  case_bool_decide as Hw; cbn [negb].
  { subst. split; [done |]. split; [done |]. exists []. rewrite app_nil_r. split; [done |]. split; [done |].
    split; [exists []; cbn; change (sum_lens []) with 0; rewrite app_nil_r, Z.add_0_r; done | by left | done]. }
  pose proof (next_ids_spec MAX_CHUNKS_PER_REQUEST bytes wanted) as Hn.
  destruct (next_ids MAX_CHUNKS_PER_REQUEST bytes wanted) as [ids rest]. destruct Hn as (-> & Hlen & Hne & Hb).
  specialize (Hne ltac:(unfold MAX_CHUNKS_PER_REQUEST; lia) Hlt Hw). unfold mbind, SE_bind, write_request.
  assert (polite m (ReqChunks (entry_id <$> ids))) as Hpol.
  { split; [by intros ?%fmap_nil_inv |]. split; [by rewrite length_fmap |]. apply Forall_fmap, Forall_forall. intros e He.
    apply elem_of_list_to_set, list_elem_of_fmap. exists e. split; [done |]. apply Hin, elem_of_app. by left. }
  destruct (write_ends _) as [[] | e] eqn:Ew.
  2: { split; [done |]. split; [done |]. exists []. rewrite app_nil_r. split; [done |]. split; [done |]. by eexists. }
  set (f1 := _ <| requests := _ |>). specialize (IH rest (outstanding ++ (due_entry <$> ids)) (bytes + sum_lens ids) f1).
  destruct (fill write_ends fuel rest _ _ f1) as [f' r]. destruct IH as (E1 & E2 & qs & E3 & Hqs & Hr).
  { rewrite length_app in Hfuel. destruct ids; [done | cbn in Hfuel; lia]. }
  { intros e He. apply Hin, elem_of_app. by right. }
  split; [done |]. split; [done |]. exists (ReqChunks (entry_id <$> ids) :: qs).
  split; [rewrite E3; cbn; by rewrite <- app_assoc |]. split; [by constructor |].
  destruct r as [[[wanted' outstanding'] bytes'] | e]; [| done]. destruct Hr as [(asked & -> & -> & -> & Hids) Hf Hbound]. split; [| done |].
  - exists (ids ++ asked). rewrite fmap_app, <- app_assoc, sum_lens_app, Z.add_assoc, fmap_app, <- app_assoc. split; [done |]. split; [done |].
    split; [done |]. rewrite bind_cons, Hids. done.
  - intros Hall Hlt'. apply Hbound; [by apply Forall_app in Hall as [_ ?] |]. by apply Hb.
Qed.
End filling.

(** * Any peer *)
Section any_peer.
Context (blake3 : list Z → Z) (Fs : Fields) (Zs : Zstd) (config : StoreConfig).
Context (fails : nat → bool) (named : string → bool) (write_ends : nat → result unit BulkError).
Context (expected : ManifestId) (completion : Completion).
Context (bound_range : max_bytes config < u64_max) (zstd : zstd_law Zs) (fields : FieldsLaws Fs).

(** A transfer of [m] that is open, beside the transfers [O] and the files [F]. *)
Record holding (O : gset ManifestId) (F : gmap string (list Z)) (m : Manifest) (t : Transfer) : Prop := {
  ho_open : open_sinks (store t) = {[Manifest.id m]} ∪ O;
  ho_free : Manifest.id m ∉ O;
  ho_files : files (store t) = F;
  ho_manifest : sink_manifest (sink t) = m;
  ho_unique : unique (sink t) = unique_chunks m;
  ho_finished : finished (sink t) = false;
  ho_claim : claim (sink t) = true;
}.

Definition beside (O : gset ManifestId) (F : gmap string (list Z)) (s : Store) : Prop := open_sinks s = O ∧ files s = F.

#[local] Instance beside_aside O F : Aside (beside O F).
Proof. intros s s' E1 E2 [H1 H2]. split; congruence. Qed.

Lemma holding_store {A} (op : StoreM A) O F m t :
  (∀ O F, keeps (beside O F) op) → holding O F m t → holding O F m (in_store op t).1.
Proof.
  intros Hop [H1 H2 H3 H4 H5 H6 H7]. unfold in_store. pose proof (Hop _ _ (store t) (conj H1 H3)) as [H8 H9].
  destruct (op (store t)) as [s r]. by split.
Qed.

Lemma refresh_holding O F m t : holding O F m t → holding O F m (refresh fails t).1.
Proof.
  intros H. unfold refresh, mbind, SE_bind, se_get.
  pose proof (holding_store (missing fails (sink_manifest (sink t))) O F m t (λ O F, missing_aside fails (beside O F) _) H) as H1.
  destruct (in_store _ t) as [t1 [lacking | e]]; cbn [fst] in H1; [| done]. destruct H1. by split.
Qed.

Lemma put_holding O F m t id frame : holding O F m t → holding O F m (put_chunk blake3 Zs config fails id frame t).1.
Proof.
  intros H. unfold put_chunk, mbind at 1, SE_bind at 1, se_get. cbv zeta. rewrite (ho_finished _ _ _ _ H).
  destruct (sink_lengths (sink t) !! id) as [n |]; [| done]. destruct (negb _); [done |].
  unfold mbind at 1, SE_bind at 1, se_lift. destruct (decode_chunk blake3 Zs id n frame) as [raw | e]; [| done].
  unfold mbind at 1, SE_bind at 1.
  match goal with |- context [match ?op t with _ => _ end] => set (stored := op) end.
  assert (holding O F m (stored t).1) as H1.
  { unfold stored. destruct (recompress_received config); [| apply holding_store; [intros; apply write_chunk_aside, _ | done]].
    unfold mbind, SE_bind. pose proof (holding_store (attempt fails) O F m t (λ O F, keeps_attempt (beside O F) fails) H) as H1.
    destruct (in_store (attempt fails) t) as [t1 [[] | e]]; [| done..]. apply holding_store; [intros; apply write_chunk_aside, _ | done]. }
  destruct (stored t) as [t1 [b | e]]; [| done]. destruct H1. by split.
Qed.

(** A transfer that ended, its claim given back. *)
Record over (O : gset ManifestId) (m : Manifest) (t : Transfer) : Prop := {
  ov_open : open_sinks (store t) = O;
  ov_manifest : sink_manifest (sink t) = m;
  ov_finished : finished (sink t) = true;
  ov_claim : claim (sink t) = false;
}.

(** What completing a fetch does to the published files. *)
Definition publishes (m : Manifest) (F F' : gmap string (list Z)) : Prop :=
  match completion with
  | CompleteFile path => ∃ pieces, F' = <[path := concat pieces]> F ∧
      blake3 (concat pieces) = file_hash m ∧ pieces_of blake3 (chunks m) pieces
  | CompleteRetain => F' = F
  end.

Lemma assemble_opens O m dest before :
  keeps (λ s, open_sinks s = O) before → keeps (λ s, open_sinks s = O) (assemble_then blake3 Zs fails named m dest before).
Proof.
  set (P := λ s, open_sinks s = O). intros Hb. assert (Aside P) as HP by (intros s s' _ E H; unfold P in *; congruence).
  apply keeps_bind; [apply keeps_io, _ | intros _]. intros s H. unfold claiming. destruct (bool_decide _); [done |].
  match goal with |- context [?body (s <| assembling := _ |>)] => assert (keeps P body) as Hbody end.
  { apply keeps_bind; [apply check_complete_aside, _ | intros _]. destruct (negb _); [apply keeps_err |].
    apply keeps_bind; [apply keeps_io, _ | intros _]. apply keeps_bind; [apply stream_file_aside, _ | intros bytes].
    apply keeps_bind; [apply keeps_io, _ | intros _]. apply keeps_bind; [done | intros _].
    apply keeps_bind; [apply keeps_io, _ | intros _]. by apply keeps_mod. }
  specialize (Hbody (s <| assembling := {[dest]} ∪ assembling s |>) H).
  match type of Hbody with P (?r).1 => by destruct r as [s' r'] end.
Qed.

(** The last verification of a transfer, whatever it finds. *)
Definition final (m : Manifest) : StoreM unit :=
  match completion with
  | CompleteFile path => assemble_then blake3 Zs fails named m path (promote Fs fails m)
  | CompleteRetain => verify_then blake3 Zs fails m (promote Fs fails m)
  end.

Lemma complete_final : complete blake3 Fs Zs fails named completion = ending fails final.
Proof. unfold complete, final. by destruct completion. Qed.

Lemma final_ok m s :
  let '(s', r) := final m s in
  open_sinks s' = open_sinks s ∧ match r with Ok _ => publishes m (files s) (files s') | Err _ => files s' = files s end.
Proof.
  unfold publishes, final. destruct completion as [path |].
  - pose proof (publish_then blake3 Fs Zs fails named m path (promote Fs fails m) s (or_intror eq_refl)) as H1.
    pose proof (assemble_opens (open_sinks s) m path (promote Fs fails m)) as H2.
    assert (Aside (λ s', open_sinks s' = open_sinks s)) as HP by (intros ? ? _ ? ?; congruence).
    specialize (H2 (promote_aside Fs fails _ m) s eq_refl). by destruct (assemble_then _ _ _ _ _ _ _ s) as [s' r].
  - pose proof (verify_aside blake3 Zs fails (beside (open_sinks s) (files s)) m (promote Fs fails m)
      (promote_aside Fs fails _ m) s (conj eq_refl eq_refl)) as [H1 H2].
    destruct (verify_then _ _ _ _ _ s) as [s' [[] | e]]; by split.
Qed.

Lemma over_end O F m t : holding O F m t → over O m (end_sink t).1.
Proof.
  intros [H1 H2 H3 H4 H5 H6 H7]. unfold end_sink, se_mod. split; cbn; [| done..]. rewrite H1, H4. set_solver.
Qed.

Lemma complete_holding O F m t : holding O F m t →
  let '(t', r) := complete blake3 Fs Zs fails named completion t in
  match r with
  | Ok _ => over O m t' ∧ publishes m F (files (store t'))
  | Err e => (holding O F m t' ∨ over O m t' ∧ files (store t') = F) ∧
      ∀ id x, e = SinkStore (Corrupt id x) → holding O F m t'
  end.
Proof.
  intros H. pose proof H as [H1 H2 H3 H4 H5 H6 H7]. rewrite complete_final. unfold ending, mbind, SE_bind, se_get. rewrite H6.
  destruct (bool_decide _); cbn [negb]; [| split; [by left | done]]. rewrite H4. pose proof (final_ok m (store t)) as Hf.
  destruct (final m (store t)) as [s r]. destruct Hf as [Ho Hf]. set (t1 := t <| store := s |>).
  assert (∀ F', files s = F' → holding O F' m t1) as Ht1 by (intros F' E; split; cbn; congruence || done).
  destruct r as [[] | e]; cbn [settle].
  - pose proof (over_end _ _ _ _ (Ht1 _ eq_refl)) as Hov. unfold end_sink, se_mod in *. split; [exact Hov |]. by rewrite <- H3.
  - specialize (Ht1 F ltac:(congruence)). destruct (is_inconsistent e) eqn:Ei.
    + pose proof (over_end _ _ _ _ Ht1) as Hov. unfold mbind at 1, SE_bind at 1, se_get. unfold mbind at 1, SE_bind at 1.
      set (t2 := (end_sink t1).1) in *. assert (end_sink t1 = (t2, Ok tt)) as -> by done. unfold mbind, SE_bind, in_store.
      pose proof (remove_record_aside fails (beside O F) RecordPending (Manifest.id (sink_manifest (sink t1))) (store t2)
        (conj (ov_open _ _ _ Hov) (ho_files _ _ _ _ Ht1))) as [H8 H9].
      destruct (remove_record fails RecordPending _ (store t2)) as [s3 [[] | e3]] eqn:E3; cbn [fst] in *.
      * split; [| by destruct e]. right. split; [| done]. destruct Hov. by split.
      * split; [right; split; [destruct Hov; by split | done] |]. intros id x [= ->].
        unfold remove_record, mbind, SE_bind, se_get in E3. destruct (records _ (store t2) !! _); [| done].
        unfold io, mbind, SE_bind, attempt in E3. by destruct (fails (calls (store t2))).
    + pose proof (refresh_holding _ _ _ _ Ht1) as Hr. split; [by left | done].
Qed.

Lemma abandon_ends O F m t : holding O F m t ∨ over O m t ∧ files (store t) = F → beside O F (abandon fails t).1.
Proof.
  intros H. unfold abandon. destruct H as [[H1 H2 H3 H4 H5 H6 H7] | [[H1 H2 H3 H4] H5]].
  - rewrite H6, H7, H4.
    pose proof (remove_record_aside fails (beside ({[Manifest.id m]} ∪ O) F) RecordPending (Manifest.id m) (store t) (conj H1 H3)) as [H8 H9].
    destruct (remove_record fails RecordPending _ (store t)) as [s [[] | e]]; cbn in *; (split; [cbn; rewrite H8; set_solver | done]).
  - rewrite H3, H4. by split.
Qed.

Definition started (O : gset ManifestId) (F : gmap string (list Z)) (i : ManifestId) (r : Store * result ChunkSink SinkError) : Prop :=
  match r.2 with
  | Ok k => ∃ m, manifest_ok blake3 Fs m ∧ Manifest.id m = i ∧ holding O F m (MkTransfer r.1 k)
  | Err _ => beside O F r.1
  end.

Lemma start_holding O F s m :
  manifest_ok blake3 Fs m → open_sinks s = {[Manifest.id m]} ∪ O → Manifest.id m ∉ O → files s = F →
  started O F (Manifest.id m) (start config fails s m).
Proof.
  intros Hm Ho Hfree Hf. unfold start, started.
  assert (holding O F m (MkTransfer s (new_sink m))) as H by (by split).
  set (op := (_ ← in_store (zstd_ready fails);
    _ ← (if recompress_received config then in_store (zstd_ready fails) else mret tt); _ ← refresh fails; mret tt) : SinkM unit).
  assert (holding O F m (op (MkTransfer s (new_sink m))).1) as H1.
  { unfold op, mbind, SE_bind. pose proof (λ t, holding_store (zstd_ready fails) O F m t (λ O F, keeps_zstd (beside O F) fails)) as Hz.
    pose proof (Hz _ H) as Hz1. destruct (in_store (zstd_ready fails) _) as [t1 [[] | e]]; [| exact Hz1]. cbn [fst] in Hz1.
    assert (holding O F m (((if recompress_received config then in_store (zstd_ready fails) else mret tt) : SinkM unit) t1).1) as Hz2
      by (destruct (recompress_received config); [by apply Hz | exact Hz1]).
    match type of Hz2 with holding _ _ _ (?r).1 => destruct r as [t2 [[] | e]] end; [| exact Hz2].
    cbn [fst] in Hz2. pose proof (refresh_holding _ _ _ _ Hz2) as Hr.
    destruct (refresh fails t2) as [t3 [p | e]]; exact Hr. }
  destruct (op (MkTransfer s (new_sink m))) as [t [[] | e]]; cbn [fst snd] in *.
  - exists m. split; [done |]. split; [done |]. by destruct t.
  - destruct H1 as [H1 _ H3 _ _ _ _]. split; cbn; [rewrite H1; set_solver | done].
Qed.

Lemma open_holding s m : manifest_ok blake3 Fs m →
  started (open_sinks s) (files s) (Manifest.id m) (open_sink Fs config fails s m).
Proof.
  intros Hm. unfold open_sink, claim_sink. case_bool_decide as Hin; [by split |].
  set (s0 := s <| open_sinks := {[Manifest.id m]} ∪ open_sinks s |>).
  pose proof (write_record_aside Fs fails (beside (open_sinks s0) (files s)) RecordPending m s0 (conj eq_refl eq_refl)) as [H1 H2].
  unfold save_pending. destruct (write_record Fs fails RecordPending m s0) as [s1 [[] | e]]; cbn [fst] in *.
  - by apply start_holding.
  - split; cbn; [rewrite H1; cbn; set_solver | done].
Qed.

Lemma resume_holding s i : started (open_sinks s) (files s) i (resume_sink blake3 Fs config fails s i).
Proof.
  unfold resume_sink, claim_sink. case_bool_decide as Hin; [by split |].
  set (s0 := s <| open_sinks := {[i]} ∪ open_sinks s |>).
  pose proof (load_record_aside blake3 Fs fails (beside (open_sinks s0) (files s)) RecordPending i s0 (conj eq_refl eq_refl)) as [H1 H2].
  pose proof (load_record_cases blake3 Fs fails RecordPending i s0) as Hl.
  destruct (load_record blake3 Fs fails RecordPending i s0) as [s1 [m | e]]; cbn [fst] in *.
  - destruct Hl as (_ & bytes & _ & _ & Em & <-). apply (from_bytes_ok blake3 Fs fields) in Em as [Hm _]. by apply start_holding.
  - split; cbn; [rewrite H1; cbn; set_solver | done].
Qed.

Lemma take_holding s m : manifest_ok blake3 Fs m →
  started (open_sinks s) (files s) (Manifest.id m) (take_sink blake3 Fs config fails s m).
Proof.
  intros Hm. unfold take_sink.
  pose proof (list_records_aside fails (beside (open_sinks s) (files s)) RecordPending s (conj eq_refl eq_refl)) as [H1 H2].
  destruct (list_records fails RecordPending s) as [s1 [ids | e]]; cbn [fst] in *; [| by split]. rewrite <- H1, <- H2.
  destruct (bool_decide _); [| by apply open_holding]. pose proof (resume_holding s1 (Manifest.id m)) as H3.
  destruct (resume_sink blake3 Fs config fails s1 (Manifest.id m)) as [s2 [k | e]]; [exact H3 |].
  destruct e as [| | | | | | e]; try exact H3. destruct e; try exact H3. destruct H3 as [H3 H4]. cbn [fst] in *.
  rewrite <- H3, <- H4. by apply open_holding.
Qed.

(** What holds of a fetch at every response it waits for. *)
Definition at_stage (O : gset ManifestId) (F : gmap string (list Z)) (f : Fetch) : Prop :=
  match stage f with
  | AwaitManifest | Ended (Err _) => beside O F (f_store f)
  | AwaitChunk m k _ wanted _ outstanding bytes =>
      Manifest.id m = expected ∧ good_sink k ∧ bytes < FETCH_WINDOW + MAX_CHUNK_LEN ∧
      Forall (λ d, 0 ≤ d.2) outstanding ∧
      ∃ m', manifest_ok blake3 Fs m' ∧ Manifest.id m' = expected ∧ holding O F m' (MkTransfer (f_store f) k) ∧
        ∀ e, e ∈ wanted → e ∈ chunks m'
  | Ended (Ok m) =>
      Manifest.id m = expected ∧ open_sinks (f_store f) = O ∧
      ∃ m', manifest_ok blake3 Fs m' ∧ Manifest.id m' = expected ∧ publishes m' F (files (f_store f))
  end.

Definition asks (q : BulkRequest) : Prop :=
  ∃ m, manifest_ok blake3 Fs m ∧ Manifest.id m = expected ∧ polite m q.

Record fetching (O : gset ManifestId) (F : gmap string (list Z)) (f : Fetch) : Prop := {
  fe_good : good blake3 Zs config (f_store f);
  fe_stage : at_stage O F f;
  fe_requests : ∀ q, q ∈ requests f → q = ReqManifest ∨ asks q;
}.

Lemma ok_valid m : manifest_ok blake3 Fs m → valid m.
Proof. intros H. split; apply H. Qed.

Lemma missing_chunks O F m t e : holding O F m t → e ∈ still_missing (sink t) → e ∈ chunks m.
Proof.
  intros H He. unfold still_missing in He. rewrite (ho_unique _ _ _ _ H) in He.
  apply list_elem_of_In, filter_In in He as [He _]. apply list_elem_of_In in He. by eapply first_entries_sub.
Qed.

Lemma final_good m : keeps (good blake3 Zs config) (final m).
Proof. unfold final. destruct completion; [apply assemble_good | apply verify_good]; apply promote_good. Qed.

Lemma give_up_ok O F m k e f :
  good_transfer blake3 Zs config (MkTransfer (f_store f) k) →
  holding O F m (MkTransfer (f_store f) k) ∨ over O m (MkTransfer (f_store f) k) ∧ files (f_store f) = F →
  (∀ q, q ∈ requests f → q = ReqManifest ∨ asks q) →
  fetching O F (fail_fetch fails k e f).
Proof.
  intros Hg H Hq. split; [by apply abandon_good | | done]. by apply (abandon_ends O F m).
Qed.

Lemma pursue_ok O F m m' rounds k wanted outstanding bytes f :
  Manifest.id m = expected → manifest_ok blake3 Fs m' → Manifest.id m' = expected →
  good_transfer blake3 Zs config (MkTransfer (f_store f) k) → holding O F m' (MkTransfer (f_store f) k) →
  (∀ e, e ∈ wanted → e ∈ chunks m') → bytes < FETCH_WINDOW + MAX_CHUNK_LEN → Forall (λ d, 0 ≤ d.2) outstanding →
  (∀ q, q ∈ requests f → q = ReqManifest ∨ asks q) →
  fetching O F (pursue blake3 Fs Zs fails named write_ends completion m rounds k wanted outstanding bytes f).
Proof.
  intros Em Hm' Em'. revert k wanted outstanding bytes f.
  induction rounds as [| rounds IH]; intros k wanted outstanding bytes f Hg Hh Hw Hb Hout Hq; cbn [pursue].
  all: pose proof (fill_spec write_ends m' (length wanted) wanted outstanding bytes f (le_n _) Hw) as Hf.
  all: destruct (fill write_ends (length wanted) wanted outstanding bytes f) as [f1 r]; destruct Hf as (E1 & E2 & qs & E3 & Hpol & Hr).
  all: rewrite <- E1 in Hg, Hh.
  all: assert (∀ q, q ∈ requests f1 → q = ReqManifest ∨ asks q) as Hq1 by (rewrite E3; intros q [Hin | Hin]%elem_of_app;
         [by apply Hq | right; exists m'; split; [done |]; split; [done |]; rewrite Forall_forall in Hpol; by apply Hpol]).
  all: destruct r as [[[wanted' outstanding'] bytes'] | e]; [| by apply (give_up_ok O F m'); [| left |]].
  all: destruct Hr as [(asked & -> & -> & -> & _) _ Hbound].
  all: assert (Forall (λ e, 0 < len e ≤ MAX_CHUNK_LEN) (asked ++ wanted')) as Hlens
         by (apply Forall_forall; intros e He; apply (valid_lens m'); [by apply ok_valid | by apply Hw]).
  all: assert (Forall (λ d, 0 ≤ d.2) (outstanding ++ (due_entry <$> asked))) as Hout'
         by (apply Forall_app; split; [done |]; apply Forall_fmap; apply Forall_app in Hlens as [Hl _]; eapply Forall_impl; [exact Hl |]; cbn; lia).
  all: specialize (Hbound ltac:(eapply Forall_impl; [exact Hlens |]; cbn; lia) Hb).
  all: destruct (outstanding ++ (due_entry <$> asked)) as [| [due n] rest] eqn:Eo.
  2, 4: split; [cbn; by rewrite E1; rewrite <- E1; apply Hg | | done].
  2, 3: cbn; split; [done |]; split; [apply Hg |]; split; [apply Forall_cons in Hout' as [? _]; cbn in *; lia |];
    split; [by apply Forall_cons in Hout' as [_ ?] |].
  2, 3: exists m'; split; [done |]; split; [done |]; split; [done |]; intros e He; apply Hw, elem_of_app; by right.
  all: pose proof (complete_holding O F m' _ Hh) as Hc.
  all: pose proof (ending_good blake3 Zs config fails final final_good _ Hg) as Hgc; rewrite <- complete_final in Hgc.
  all: destruct (complete blake3 Fs Zs fails named completion (MkTransfer (f_store f1) k)) as [t [[] | e]]; cbn [fst] in Hgc.
  1, 3: destruct Hc as [Hov Hp]; split; [apply Hgc | | done]; split; [done |]; split; [apply (ov_open _ _ _ Hov) |]; by exists m'.
  all: destruct Hc as [Hc Hcorrupt].
  all: assert (∀ e, fetching O F (fail_fetch fails (sink t) e (f1 <| f_store := store t |>))) as Hend
         by (intros e'; apply (give_up_ok O F m'); destruct t; done).
  - destruct e as [| | | | | | []]; apply Hend.
  - destruct e as [| | | | | | e]; try apply Hend. destruct e; try apply Hend.
    specialize (Hcorrupt _ _ eq_refl). apply IH; cbn [f_store requests]; [by destruct t | by destruct t | | | done | done].
    + intros e He. by apply (missing_chunks O F m' t).
    + unfold FETCH_WINDOW, MAX_CHUNK_LEN. lia.
Qed.

Lemma end_ok O F e f : fetching O F f → beside O F (f_store f) → fetching O F (end_fetch (Err e) f).
Proof. intros [H1 _ H3] Hb. by split. Qed.

Lemma on_manifest_ok O F bytes f :
  fetching O F f → beside O F (f_store f) →
  fetching O F (on_manifest blake3 Fs Zs config fails named write_ends expected completion bytes f).
Proof.
  intros H [Ho Hf]. unfold on_manifest. destruct (_ <? _); [by apply end_ok |].
  destruct (from_bytes blake3 Fs bytes) as [m | e] eqn:Em; [| by apply end_ok].
  apply (from_bytes_ok blake3 Fs fields) in Em as [Hm _].
  destruct (Z.eqb_spec (Manifest.id m) expected) as [Ei |]; cbn [negb]; [| by apply end_ok].
  pose proof (take_holding (f_store f) m Hm) as Ht. rewrite Ho, Hf, Ei in Ht.
  assert (start_ok blake3 Zs config (take_sink blake3 Fs config fails (f_store f) m)) as Hs.
  { unfold take_sink. pose proof (list_records_good blake3 Zs config fails RecordPending _ (fe_good _ _ _ H)) as H1.
    destruct (list_records fails RecordPending (f_store f)) as [s1 [ids | e]]; cbn [fst] in H1; [| by split].
    assert (start_ok blake3 Zs config (open_sink Fs config fails s1 m)) as Hopen by (apply open_good; [done.. | by apply ok_valid]).
    destruct (bool_decide _); [| done]. pose proof (resume_good blake3 Fs Zs config fails fields s1 (Manifest.id m) H1) as Hres.
    destruct (resume_sink blake3 Fs config fails s1 (Manifest.id m)) as [s2 [k | e]]; [done |].
    destruct e as [| | | | | | e]; try done. destruct e; try done. destruct Hres as [H2 _].
    apply open_good; [done.. | by apply ok_valid]. }
  destruct (take_sink blake3 Fs config fails (f_store f) m) as [s [k | e]]; destruct Hs as [Hs1 Hs2]; cbn [started fst snd] in *.
  - destruct Ht as (m' & Hm' & Em' & Hh). apply (pursue_ok O F m m'); [done | done | done | by split | done | | done | done |].
    + intros e He. by apply (missing_chunks O F m' (MkTransfer s k)).
    + apply (fe_requests _ _ _ H).
  - destruct H as [_ _ H3]. by split.
Qed.

Lemma on_response_ok O F response f :
  fetching O F f → fetching O F (on_response blake3 Fs Zs config fails named write_ends expected completion response f).
Proof.
  intros H. pose proof H as [Hg Hs Hq]. unfold on_response, at_stage in *. destruct (stage f) as [| m k rounds wanted due outstanding bytes |] eqn:Es.
  - destruct response as [[] | e]; try by apply end_ok. by apply on_manifest_ok.
  - destruct Hs as (Em & Hk & Hb & Hout & m' & Hm' & Em' & Hh & Hw).
    assert (∀ e, fetching O F (fail_fetch fails k e f)) as Hend by (intros e; apply (give_up_ok O F m'); [by split | by left | done]).
    destruct response as [[bytes' | id frame |] | e]; try apply Hend. unfold on_chunk. destruct (negb _); [apply Hend |].
    pose proof (put_holding O F m' _ id frame Hh) as Hh'.
    pose proof (put_good blake3 Zs config fails bound_range zstd id frame (MkTransfer (f_store f) k) (conj Hg Hk)) as Hg'.
    destruct (put_chunk blake3 Zs config fails id frame (MkTransfer (f_store f) k)) as [t [p | e]]; cbn [fst] in *.
    + eapply (pursue_ok O F m m'); try done; by destruct t.
    + apply (give_up_ok O F m'); [by destruct t | left; by destruct t | done].
  - done.
Qed.

Lemma start_fetch_ok s : good blake3 Zs config s → fetching (open_sinks s) (files s) (start_fetch write_ends s).
Proof.
  intros Hg. unfold start_fetch, write_request. cbn. destruct (write_ends 1) as [[] | e]; split; try done.
  - intros q [-> |]%elem_of_cons; [by left | by apply elem_of_nil in H].
  - by intros q ?%elem_of_nil.
Qed.

Lemma responses_fetching O F rs f :
  fetching O F f →
  fetching O F (foldl (λ f r, on_response blake3 Fs Zs config fails named write_ends expected completion r f) f rs).
Proof. revert f. induction rs as [| r rs IH]; intros f H; cbn; [done |]. by apply IH, on_response_ok. Qed.

(** no peer can place a wrong byte, pin a store or make a fetch ask for too
    much.  Let a peer answer with anything at all, in any order, or stop; let writes
    and calls of the store fail as they like.  The store stays sound and within its
    bound.  Requests name between 1 and 256 chunks, and never more than the window
    and one chunk are outstanding.  No file changes before the fetch has succeeded,
    and then only the one asked for, with bytes that were verified against a manifest
    whose hash is the one expected; however the fetch ends, its claim is given back. *)
Theorem fetch_any_peer (s : Store) (rs : list (result BulkResponse BulkError)) :
  good blake3 Zs config s →
  let f := foldl (λ f r, on_response blake3 Fs Zs config fails named write_ends expected completion r f)
             (start_fetch write_ends s) rs in
  (∀ id file, chunk_files (f_store f) !! id = Some file → sound_file blake3 Zs id file) ∧
  disk_bytes (f_store f) ≤ used (f_store f) ≤ max_bytes config ∧
  (∀ ids, ReqChunks ids ∈ requests f → (1 ≤ length ids ≤ 256)%nat) ∧
  match stage f with
  | AwaitManifest => files (f_store f) = files s
  | AwaitChunk _ _ _ _ _ _ outstanding_bytes =>
      files (f_store f) = files s ∧ outstanding_bytes < FETCH_WINDOW + MAX_CHUNK_LEN
  | Ended (Err _) => files (f_store f) = files s ∧ open_sinks (f_store f) = open_sinks s
  | Ended (Ok m) => Manifest.id m = expected ∧ open_sinks (f_store f) = open_sinks s ∧
      ∃ m', manifest_ok blake3 Fs m' ∧ Manifest.id m' = expected ∧ publishes m' (files s) (files (f_store f))
  end.
Proof.
  intros Hg f. destruct (responses_fetching _ _ rs _ (start_fetch_ok s Hg)) as [[H1 H2 H3] Hs Hq]. fold f in H1, H2, H3, Hs, Hq.
  split; [done |]. split; [done |]. split.
  - intros ids [? | (m & _ & _ & Hne & Hlen & _)]%Hq; [done |]. unfold MAX_CHUNKS_PER_REQUEST in Hlen.
    destruct ids; [done | cbn in *; lia].
  - unfold at_stage in Hs. destruct (stage f) as [| m k rounds wanted due outstanding bytes | [m | e]].
    + apply Hs.
    + destruct Hs as (_ & _ & Hb & _ & m' & _ & _ & Hh & _). split; [| done]. apply (ho_files _ _ _ _ Hh).
    + done.
    + by destruct Hs.
Qed.
End any_peer.

(** * An honest server *)
Section honest.
Context (blake3 : list Z → Z) (Fs : Fields) (Zs : Zstd) (config : StoreConfig) (named : string → bool).
Context (bound_range : max_bytes config < u64_max) (zstd : zstd_law Zs) (fields : FieldsLaws Fs).
Context (m : Manifest) (pieces : list (list Z)) (dest : string).
Context (m_ok : manifest_ok blake3 Fs m) (m_pieces : describes blake3 m pieces) (m_hash : unforgeable blake3 pieces).
Context (dest_named : named dest = true).

Definition sends : nat → result unit BulkError := λ _, Ok tt.

Let put := put_chunk blake3 Zs config never.
Let pursue_on := pursue blake3 Fs Zs never named sends (CompleteFile dest).
Let respond := on_response blake3 Fs Zs config never named sends (Manifest.id m) (CompleteFile dest).
Let serve_on := serve_request blake3 Fs Zs never sends m.
Let step := link_step blake3 Fs Zs config never never named sends sends m (Manifest.id m) (CompleteFile dest).

(** ** The server *)
Definition good_frame (id : ChunkId) (frame : list Z) : Prop :=
  ∀ e, e ∈ chunks m → entry_id e = id → ∃ r, decode_chunk blake3 Zs id (len e) frame = Ok r.

Definition answers : list ChunkId → list BulkResponse → Prop :=
  Forall2 (λ id r, ∃ frame, r = RespChunk id frame ∧ good_frame id frame).

Definition replies (q : BulkRequest) (rs : list BulkResponse) : Prop :=
  match q with
  | ReqManifest => rs = [RespManifest (to_bytes Fs m)]
  | ReqChunks ids => answers ids rs
  end.

Lemma piece_len e piece : e ∈ chunks m → blake3 piece = entry_id e → Z.of_nat (length piece) = len e.
Proof.
  intros He Hh. destruct m_pieces as [Hp _]. apply list_elem_of_lookup in He as [i Hi].
  destruct (Forall2_lookup_l _ _ _ _ _ Hp Hi) as (p & Hpi & Hid & <-).
  assert (piece = p) as ->; [| done]. apply m_hash; [by eapply list_elem_of_lookup_2 | congruence].
Qed.

Lemma read_works s id : ready blake3 Zs m s → id ∈ chunk_ids m →
  ∃ n frame, read_compressed blake3 Zs never id s = (s <| calls := n |>, Ok frame) ∧ good_frame id frame.
Proof.
  intros [Hsound Hall] Hin. apply elem_of_list_to_set, list_elem_of_fmap in Hin as (e & -> & He).
  destruct (Hall e He) as [f Hf]. destruct (sound_file_parses _ _ _ _ (Hsound _ _ Hf)) as (raw_len & frame & raw & Hp & Hlen & Hh & Hc & Hd & _).
  unfold read_compressed. rewrite (bind_Ok _ _ _ _ _ (zstd_works s)).
  unfold load, mbind, SE_bind, se_get. cbn [chunk_files]. change (chunk_files (s <| calls := S (calls s) |>)) with (chunk_files s). rewrite Hf.
  rewrite !io_works. cbv zeta iota. rewrite Hp. cbv iota. unfold mret, SE_ret. eexists _, _. split; [reflexivity |]. cbn [loaded_file].
  assert (0 < raw_len ≤ MAX_CHUNK_LEN) as Hr.
  { rewrite <- Hlen, (piece_len e raw He Hh). apply (valid_lens m); [by apply (ok_valid blake3 Fs) | done]. }
  destruct (parse_chunk_file_made raw_len frame Hr ltac:(by apply decode_Ok in Hd as [? _])) as [_ Hl].
  rewrite Hc, firstn_all2 by lia. unfold chunk_file. rewrite app_assoc, drop_app_length' by (by rewrite length_app, to_le_bytes_length).
  intros e' He' Eid. exists raw. rewrite <- (piece_len e' raw He' ltac:(congruence)), Hlen. exact Hd.
Qed.

Lemma serve_chunks_works ids v :
  ready blake3 Zs m (v_store v) → Forall (λ id, id ∈ chunk_ids m) ids →
  ∃ v' rs, serve_chunks blake3 Zs never sends ids v = (v', Ok tt) ∧ answers ids rs ∧
    responses v' = responses v ++ rs ∧ ready blake3 Zs m (v_store v') ∧ v_ended v' = v_ended v.
Proof.
  intros Hready Hids. revert v Hready. induction Hids as [| id ids Hid Hids IH]; intros v Hready; cbn [serve_chunks].
  { exists v, []. rewrite app_nil_r. split; [done |]. split; [constructor | done]. }
  destruct (read_works (v_store v) id Hready Hid) as (n & frame & -> & Hf).
  match goal with |- context [?op (v <| v_store := _ |>)] =>
    assert (∃ v1, op (v <| v_store := (v_store v) <| calls := n |> |>) = serve_chunks blake3 Zs never sends ids v1 ∧
      chunk_files (v_store v1) = chunk_files (v_store v) ∧ responses v1 = responses v ++ [RespChunk id frame] ∧ v_ended v1 = v_ended v)
      as (v1 & -> & E1 & E2 & E3) by (eexists; split; [reflexivity | done]) end.
  destruct (IH v1) as (v' & rs & -> & Ha & Hr & Hre & He); [by eapply ready_same |].
  exists v', (RespChunk id frame :: rs). split; [done |]. split; [constructor; [by exists frame | done] |].
  split; [rewrite Hr, E2; by rewrite <- app_assoc |]. split; [done | congruence].
Qed.

Lemma serve_works q v :
  ready blake3 Zs m (v_store v) → v_ended v = None → q = ReqManifest ∨ polite m q →
  ∃ rs, replies q rs ∧ responses (serve_on (Ok q) v) = responses v ++ rs ∧
    ready blake3 Zs m (v_store (serve_on (Ok q) v)) ∧ v_ended (serve_on (Ok q) v) = None.
Proof.
  intros Hready Hrun Hpol. unfold serve_on, serve_request. rewrite Hrun. destruct q as [| ids]; cbn [answer].
  - unfold write_response, sends. eexists. split; [reflexivity |]. done.
  - destruct Hpol as [| (Hne & Hlen & Hall)]; [done |]. rewrite bool_decide_false by done. rewrite (proj2 (Nat.ltb_ge _ _)) by done. cbn [orb].
    assert (forallb (λ id, bool_decide (id ∈ chunk_ids m)) ids = true) as ->.
    { apply forallb_forall. intros id Hid%list_elem_of_In. rewrite Forall_forall in Hall. apply bool_decide_eq_true. by apply Hall. }
    cbn [negb]. destruct (serve_chunks_works ids v Hready Hall) as (v' & rs & -> & Ha & Hr & Hre & He). exists rs. split; [done |].
    split; [done |]. split; [done |]. congruence.
Qed.

(** ** The client *)
Definition finished_fetch (f : Fetch) : Prop :=
  stage f = Ended (Ok m) ∧ files (f_store f) !! dest = Some (concat pieces) ∧
  roots (f_store f) !! Manifest.id m = Some (to_bytes Fs m).

(** What is still to come: the ids asked for, the first of which is due, and those
    still wanted. *)
Record to_come (k : ChunkSink) (wanted : list ChunkEntry) (asked : list (ChunkId * Z)) : Prop := {
  tc_wanted : ∀ e, e ∈ wanted → e ∈ chunks m;
  tc_nodup : NoDup (asked.*1 ++ (entry_id <$> wanted));
  tc_missing : ∀ id, id ∈ sink_missing k ↔ id ∈ asked.*1 ++ (entry_id <$> wanted);
}.

(** A client in the middle, that has read [n] responses. *)
Record underway (f : Fetch) (n : nat) (k : ChunkSink) (wanted : list ChunkEntry) (asked : list (ChunkId * Z)) (bytes : Z) : Prop := {
  un_going : going blake3 Fs Zs config m (MkTransfer (f_store f) k);
  un_dest : dest ∉ assembling (f_store f);
  un_come : to_come k wanted asked;
  un_bytes : bytes = sum_Z asked.*2;
  un_requests : ∃ qs got, requests f = ReqManifest :: qs ∧ Forall (polite m) qs ∧ qs ≫= ids_of = got ++ asked.*1 ∧ n = S (length got);
}.

Definition waiting (f : Fetch) (n : nat) (more : nat) (due : ChunkId) : Prop :=
  ∃ k rounds wanted len asked bytes,
    stage f = AwaitChunk m k rounds wanted due asked bytes ∧
    underway f n k wanted ((due, len) :: asked) (bytes + len) ∧ more = length ((due, len) :: asked ++ (due_entry <$> wanted)).

Lemma to_come_ask k wanted asked0 asked :
  to_come k (asked ++ wanted) asked0 → to_come k wanted (asked0 ++ (due_entry <$> asked)).
Proof.
  intros [H1 H2 H3].
  assert ((asked0 ++ (due_entry <$> asked)).*1 ++ (entry_id <$> wanted) = asked0.*1 ++ (entry_id <$> asked ++ wanted)) as E.
  { rewrite !fmap_app, <- list_fmap_compose, <- app_assoc. f_equal. }
  split; rewrite ?E; try done. intros e He. apply H1, elem_of_app. by right.
Qed.

(** Asking for more keeps a client underway. *)
Lemma fill_underway k wanted asked bytes f n f1 wanted' asked' bytes' :
  underway f n k wanted asked bytes →
  fill sends (length wanted) wanted asked bytes f = (f1, Ok (wanted', asked', bytes')) →
  underway f1 n k wanted' asked' bytes' ∧ (wanted' = [] ∨ FETCH_WINDOW ≤ bytes') ∧
  (∃ qs, requests f1 = requests f ++ qs) ∧
  (length asked' + length wanted' = length asked + length wanted)%nat.
Proof.
  intros [Hg Hd Hc Eb (qs & got & Er & Hpol & Hids & En)] Ef.
  pose proof (fill_spec sends m (length wanted) wanted asked bytes f (le_n _) (tc_wanted _ _ _ Hc)) as Hf. rewrite Ef in Hf.
  destruct Hf as (E1 & _ & qs' & Er' & Hpol' & [(new & -> & -> & -> & Hnew) Hfull _]).
  split; [| split; [done |]; split; [by eexists |]; rewrite !length_app, length_fmap; lia].
  split; [by rewrite E1 | by rewrite E1 | by apply to_come_ask | |].
  - rewrite Eb, fmap_app, sum_Z_app, <- list_fmap_compose. done.
  - exists (qs ++ qs'), got. rewrite Er', Er. split; [done |]. split; [by apply Forall_app |]. split; [| done].
    rewrite bind_app, Hids, Hnew, fmap_app, <- list_fmap_compose, <- app_assoc. done.
Qed.

Lemma fill_writes fuel wanted asked bytes f : ∃ f1 r, fill sends fuel wanted asked bytes f = (f1, Ok r).
Proof.
  revert wanted asked bytes f. induction fuel as [| fuel IH]; intros; cbn [fill]; [by eexists _, _ |].
  destruct (_ && _); [| by eexists _, _]. destruct (next_ids _ _ _) as [ids rest].
  unfold mbind, SE_bind, write_request. cbv [sends]. apply IH.
Qed.

(** Nothing due and nothing wanted: the fetch completes. *)
Lemma fetch_completes f n k bytes :
  underway f n k [] [] bytes →
  ∃ t, complete blake3 Fs Zs never named (CompleteFile dest) (MkTransfer (f_store f) k) = (t, Ok tt) ∧
    files (store t) !! dest = Some (concat pieces) ∧ roots (store t) !! Manifest.id m = Some (to_bytes Fs m).
Proof.
  intros [Hg Hd Hc _ _]. assert (sink_missing k = ∅) as Hempty.
  { apply set_eq. intros id. rewrite (tc_missing _ _ _ Hc). cbn. split; [by intros ?%elem_of_nil | set_solver]. }
  by eapply finish_works.
Qed.

Lemma pursue_works rounds k wanted asked bytes f n :
  underway f n k wanted asked bytes →
  let f' := pursue_on m rounds k wanted asked bytes f in
  (finished_fetch f' ∨ ∃ more due, waiting f' n more due ∧ (more ≤ length asked + length wanted)%nat) ∧
  ∃ qs, requests f' = requests f ++ qs.
Proof.
  intros Hu. destruct (fill_writes (length wanted) wanted asked bytes f) as (f1 & [[wanted' asked'] bytes'] & Ef).
  destruct (fill_underway _ _ _ _ _ _ _ _ _ _ Hu Ef) as (Hu1 & Hfull & Hqs & Hcount). destruct asked' as [| [due n'] asked'].
  - assert (wanted' = []) as ->.
    { destruct Hfull as [| Hfull]; [done |]. rewrite (un_bytes _ _ _ _ _ _ Hu1) in Hfull. by cbn in Hfull. }
    destruct (fetch_completes f1 n k bytes' Hu1) as (t & Et & Hfile & Hroot).
    assert (pursue_on m rounds k wanted asked bytes f = end_fetch (Ok m) (f1 <| f_store := store t |>)) as ->
      by (unfold pursue_on; destruct rounds; cbn [pursue]; by rewrite Ef, Et).
    split; [by left | exact Hqs].
  - assert (pursue_on m rounds k wanted asked bytes f = f1 <| stage := AwaitChunk m k rounds wanted' due asked' (bytes' - n') |>) as ->
      by (unfold pursue_on; destruct rounds; cbn [pursue]; by rewrite Ef).
    split; [| exact Hqs]. right. exists (length ((due, n') :: asked' ++ (due_entry <$> wanted'))), due. split.
    + exists k, rounds, wanted', n', asked', (bytes' - n'). split; [done |]. split; [| done].
      replace (bytes' - n' + n') with bytes' by lia. destruct Hu1. by split.
    + cbn in *. rewrite length_app, length_fmap. lia.
Qed.

(** One chunk fewer to come. *)
Lemma chunk_works f n more due frame :
  waiting f n more due → good_frame due frame →
  let f' := respond (Ok (RespChunk due frame)) f in
  (finished_fetch f' ∨ ∃ more' due', waiting f' (S n) more' due' ∧ (more' < more)%nat) ∧ ∃ qs, requests f' = requests f ++ qs.
Proof.
  intros (k & rounds & wanted & n' & asked & bytes & Es & [Hg Hd Hc Eb (qs & got & Er & Hpol & Hids & En)] & Em) Hf.
  unfold respond, on_response. rewrite Es. unfold on_chunk. rewrite Z.eqb_refl. cbn [negb].
  assert (due ∈ sink_missing k) as Hmiss by (apply (tc_missing _ _ _ Hc); left).
  pose proof Hmiss as Hx. apply (gn_missing _ _ _ _ _ _ Hg) in Hx as [(e & He & Eid) _].
  destruct (Hf e (first_entries_sub _ _ _ He) Eid) as [r Hr].
  destruct (put_stores blake3 Fs Zs config bound_range zstd m (MkTransfer (f_store f) k) due (len e) frame r) as (s' & p & -> & Hg' & Ha);
    [by apply (ok_valid blake3 Fs) | done | by exists e | done | done |]. cbn [store sink] in *.
  set (k' := k <| sink_missing := sink_missing k ∖ {[due]} |> <| progress := p |>) in *.
  destruct Hc as [Hc1 Hc2 Hc3]. cbn in Hc2. apply NoDup_cons in Hc2 as [Hnot Hc2].
  destruct (pursue_works rounds k' wanted asked bytes (f <| f_store := s' |>) (S n)) as [Hp Hqs].
  - split; [done | cbn; by rewrite Ha | | |].
    + split; [done | done |]. intros id. cbn. rewrite elem_of_difference, elem_of_singleton, Hc3. cbn. rewrite elem_of_cons. split.
      * by intros [[-> | ?] ?].
      * intros Hin. split; [by right |]. intros ->. done.
    + cbn in Eb. unfold sum_Z in *. cbn in Eb. lia.
    + exists qs, (got ++ [due]). split; [done |]. split; [done |]. rewrite <- app_assoc. split; [done |].
      rewrite length_app. cbn. lia.
  - split; [| exact Hqs]. destruct Hp as [| (more' & due' & Hw & Hle)]; [by left |]. right. exists more', due'. split; [done |].
    rewrite Em. cbn. rewrite length_app, length_fmap. lia.
Qed.

Lemma NoDup_fmap_filter {A B} (g : A → B) (p : A → bool) (l : list A) : NoDup (g <$> l) → NoDup (g <$> List.filter p l).
Proof.
  induction l as [| a l IH]; cbn; [done |]. intros [Hnot Hnd]%NoDup_cons. destruct (p a); [| by apply IH]. cbn. constructor; [| by apply IH].
  intros (b & Eb & Hb)%list_elem_of_fmap. apply list_elem_of_In, filter_In in Hb as [Hb _]. apply list_elem_of_In in Hb.
  apply Hnot, list_elem_of_fmap. by exists b.
Qed.

(** A store a fetch of [m] can start in. *)
Record receptive (s : Store) : Prop := {
  rc_good : good blake3 Zs config s;
  rc_free : Manifest.id m ∉ open_sinks s;
  rc_dest : dest ∉ assembling s;
  rc_pending : pending s !! Manifest.id m = None ∨ pending s !! Manifest.id m = Some (to_bytes Fs m);
  rc_room : used s + room_needed s (unique_chunks m) ≤ max_bytes config;
}.

Lemma take_works s : receptive s →
  ∃ s1 k, take_sink blake3 Fs config never s m = (s1, Ok k) ∧ going blake3 Fs Zs config m (MkTransfer s1 k) ∧ assembling s1 = assembling s.
Proof.
  intros [Hg Hfree Hd Hp Hroom]. unfold take_sink, list_records, mbind, SE_bind. rewrite io_works. unfold se_get, mret, SE_ret. cbv iota.
  set (s0 := s <| calls := S (calls s) |>). assert (good blake3 Zs config s0) as Hg0 by (by apply (good_same blake3 Zs config s)).
  case_bool_decide as Hin; rewrite elem_of_btree_keys in Hin; change (records RecordPending s0) with (pending s) in Hin.
  - destruct Hp as [Hp | Hp]; [rewrite Hp in Hin; by destruct Hin |].
    destruct (resume_works blake3 Fs Zs config m s0) as (s1 & k & -> & Hgo & Ha & _); try done. by exists s1, k.
  - destruct (open_works blake3 Fs Zs config m s0) as (s1 & k & -> & Hgo & Ha & _); try done. by exists s1, k.
Qed.

Lemma manifest_works f :
  stage f = AwaitManifest → requests f = [ReqManifest] → receptive (f_store f) →
  let f' := respond (Ok (RespManifest (to_bytes Fs m))) f in
  (finished_fetch f' ∨ ∃ more due, waiting f' 1 more due) ∧ ∃ qs, requests f' = requests f ++ qs.
Proof.
  intros Es Er Hrc. unfold respond, on_response. rewrite Es. unfold on_manifest.
  destruct (ok_bounds blake3 Fs fields m m_ok) as (_ & _ & _ & Hlen). rewrite (proj2 (Z.ltb_ge _ _)) by lia.
  rewrite (from_bytes_to_bytes blake3 Fs fields m m_ok), Z.eqb_refl. cbn [negb].
  destruct (take_works (f_store f) Hrc) as (s1 & k & -> & Hg & Ha).
  destruct (pursue_works (REPAIR_ROUNDS - 1) k (still_missing k) [] 0 (f <| f_store := s1 |>) 1) as [Hp Hqs].
  - split; [done | cbn; rewrite Ha; apply Hrc | | done |].
    + assert (∀ e, e ∈ still_missing k ↔ e ∈ unique_chunks m ∧ entry_id e ∈ sink_missing k) as Hstill.
      { intros e. unfold still_missing. rewrite list_elem_of_In, filter_In, <- list_elem_of_In.
        pose proof (gn_unique _ _ _ _ _ _ Hg) as Eu. cbn in Eu. by rewrite Eu, bool_decide_eq_true. }
      split.
      * intros e [He _]%Hstill. by eapply first_entries_sub.
      * cbn. unfold still_missing. pose proof (gn_unique _ _ _ _ _ _ Hg) as Eu. cbn in Eu. rewrite Eu.
        apply NoDup_fmap_filter, unique_NoDup.
      * intros id. cbn. rewrite list_elem_of_fmap. split.
        -- intros Hid. apply (gn_missing _ _ _ _ _ _ Hg) in Hid as Hx. destruct Hx as [(e & He & <-) _].
           exists e. split; [done |]. by apply Hstill.
        -- intros (e & -> & [_ ?]%Hstill). done.
    + exists [], []. by rewrite <- Er.
  - split; [| exact Hqs]. destruct Hp as [| (more & due & Hw & _)]; [by left |]. right. by exists more, due.
Qed.

(** ** Both *)

(** A server that has answered the first [n] of these requests. *)
Record serving (qs : list BulkRequest) (n : nat) (v : Serve) : Prop := {
  sv_ready : ready blake3 Zs m (v_store v);
  sv_runs : v_ended v = None;
  sv_read : (n ≤ length qs)%nat;
  sv_replies : ∃ rss, Forall2 replies (firstn n qs) rss ∧ responses v = concat rss;
}.

Lemma serving_more qs qs' n v : serving qs n v → serving (qs ++ qs') n v.
Proof.
  intros [H1 H2 H3 H4]. split; [done | done | rewrite length_app; lia |]. by rewrite take_app_le.
Qed.

Lemma serving_step qs n v q :
  serving qs n v → qs !! n = Some q → q = ReqManifest ∨ polite m q → serving qs (S n) (serve_on (Ok q) v).
Proof.
  intros [H1 H2 H3 (rss & H4 & H5)] Hq Hpol. destruct (serve_works q v H1 H2 Hpol) as (rs & Hrs & Er & Hre & He).
  split; [done | done | by apply lookup_lt_Some in Hq |]. exists (rss ++ [rs]). rewrite (take_S_r _ _ _ Hq). split.
  - apply Forall2_app; [done |]. by constructor.
  - by rewrite concat_app, Er, H5, concat_cons, app_nil_r.
Qed.

Lemma replies_flat qs rss : Forall2 replies qs rss → Forall (polite m) qs → answers (qs ≫= ids_of) (concat rss).
Proof.
  induction 1 as [| q rs qs rss Hq _ IH]; cbn; [constructor |]. intros [Hp Hps]%Forall_cons. apply Forall2_app; [| by apply IH].
  by destruct q.
Qed.

(** The responses a server has written so far, as the client will read them. *)
Lemma responses_ok qs n v :
  serving (ReqManifest :: qs) n v → Forall (polite m) qs →
  (n = 0%nat ∧ responses v = []) ∨ ∃ rs, responses v = RespManifest (to_bytes Fs m) :: rs ∧ answers (firstn (pred n) qs ≫= ids_of) rs.
Proof.
  intros [_ _ _ (rss & Hr & ->)] Hpol. destruct n as [| n]; cbn in Hr.
  - left. by inversion Hr.
  - right. inversion Hr as [| ? rs ? rss' H1 H2]; subst. cbn in H1. subst rs. exists (concat rss'). split; [done |].
    apply replies_flat; [done | by apply Forall_take].
Qed.

Lemma next_response qs n v got due asked :
  serving (ReqManifest :: qs) n v → Forall (polite m) qs → qs ≫= ids_of = got ++ due :: asked →
  ∀ r, responses v !! S (length got) = Some r → ∃ frame, r = RespChunk due frame ∧ good_frame due frame.
Proof.
  intros Hs Hpol Hids r Hr. destruct (responses_ok qs n v Hs Hpol) as [[_ E] | (rs & E & Ha)]; rewrite E in Hr; [done |].
  cbn in Hr. destruct (Forall2_lookup_r _ _ _ _ _ Ha Hr) as (id & Hid & frame & -> & Hf).
  assert ((qs ≫= ids_of) !! length got = Some id) as Hid'.
  { rewrite <- (take_drop (pred n) qs), bind_app. by apply lookup_app_l_Some. }
  rewrite Hids, list_lookup_middle in Hid' by done. injection Hid' as <-. by exists frame.
Qed.

Lemma all_answered qs v got due asked :
  serving (ReqManifest :: qs) (S (length qs)) v → Forall (polite m) qs → qs ≫= ids_of = got ++ due :: asked →
  is_Some (responses v !! S (length got)).
Proof.
  intros Hs Hpol Hids. destruct (responses_ok qs _ v Hs Hpol) as [[? _] | (rs & E & Ha)]; [done |]. rewrite E. cbn in *.
  rewrite take_ge in Ha by lia. apply Forall2_length in Ha. rewrite Hids, length_app in Ha. apply lookup_lt_is_Some. cbn in Ha. lia.
Qed.

(** Between the two at any time before the end. *)
Definition linked (l : Link) : Prop :=
  serving (requests (fetcher l)) (reads_up l) (server l) ∧
  (stage (fetcher l) = AwaitManifest ∧ requests (fetcher l) = [ReqManifest] ∧ receptive (f_store (fetcher l)) ∧ reads_down l = 0%nat ∨
   ∃ more due, waiting (fetcher l) (reads_down l) more due).

Lemma waiting_requests f n more due : waiting f n more due →
  ∃ qs got asked, requests f = ReqManifest :: qs ∧ Forall (polite m) qs ∧ qs ≫= ids_of = got ++ due :: asked ∧ n = S (length got).
Proof.
  intros (k & rounds & wanted & n' & asked & bytes & _ & [_ _ _ _ (qs & got & Er & Hpol & Hids & En)] & _).
  by exists qs, got, asked.*1.
Qed.

Lemma linked_requests l q i : linked l → requests (fetcher l) !! i = Some q → q = ReqManifest ∨ polite m q.
Proof.
  intros [_ [(_ & Er & _) | (more & due & Hw)]] Hq.
  - rewrite Er in Hq. destruct i; [injection Hq as <-; by left | done].
  - destruct (waiting_requests _ _ _ _ Hw) as (qs & _ & _ & Er & Hpol & _). rewrite Er in Hq.
    destruct i as [| i]; [injection Hq as <-; by left |]. right. cbn in Hq. rewrite Forall_forall in Hpol. by eapply Hpol, list_elem_of_lookup_2.
Qed.

Lemma server_step l : linked l → linked (step l ServerReads) ∧ fetcher (step l ServerReads) = fetcher l ∧
  (requests (fetcher l) !! reads_up l ≠ None → reads_up (step l ServerReads) = S (reads_up l)).
Proof.
  intros Hl. unfold step, link_step. destruct (requests (fetcher l) !! reads_up l) as [q |] eqn:Eq.
  - split; [| done]. destruct Hl as [Hs Hst]. split; [| exact Hst]. cbn.
    apply serving_step; [done | done |]. eapply linked_requests; [by split | done].
  - assert (∀ r, stage (fetcher l) ≠ Ended r) as Hne.
    { destruct Hl as [_ [(E & _) | (more & due & (k & rounds & wanted & n' & asked & bytes & E & _))]]; rewrite E; done. }
    destruct (stage (fetcher l)) as [| |r] eqn:Es; [done.. |]. by destruct (Hne r).
Qed.

(** A response is read: it is the one the client waits for. *)
Lemma client_step l r :
  linked l → responses (server l) !! reads_down l = Some r →
  finished_fetch (fetcher (step l FetcherReads)) ∨
  linked (step l FetcherReads) ∧ ∀ more due, waiting (fetcher l) (reads_down l) more due →
    ∃ more' due', waiting (fetcher (step l FetcherReads)) (reads_down (step l FetcherReads)) more' due' ∧ (more' < more)%nat.
Proof.
  intros [Hs Hst] Hr. unfold step, link_step. rewrite Hr. cbn [fetcher]. destruct Hst as [(Es & Er & Hrc & En) | (more & due & Hw)].
  - pose proof Hs as Hs0. rewrite Er in Hs0. rewrite En in Hr.
    destruct (responses_ok [] _ _ Hs0 (Forall_nil_2 _)) as [[_ E] | (rs & E & _)]; rewrite E in Hr; [done |]. injection Hr as <-.
    destruct (manifest_works (fetcher l) Es Er Hrc) as [[Hf | (more & due & Hw)] [qs Hqs]]; [by left |]. right. split.
    + split; cbn; [unfold respond in Hqs; rewrite Hqs; by apply serving_more |]. right. exists more, due. by rewrite En.
    + intros more' due' (k & rounds & wanted & n' & asked & bytes & E' & _). by rewrite Es in E'.
  - destruct (waiting_requests _ _ _ _ Hw) as (qs & got & asked & Er & Hpol & Hids & En). pose proof Hs as Hs0. rewrite Er in Hs0.
    rewrite En in Hr. destruct (next_response qs _ _ got due asked Hs0 Hpol Hids r Hr) as (frame & -> & Hf).
    destruct (chunk_works (fetcher l) _ more due frame Hw Hf) as [[Hfin | (more' & due' & Hw' & Hlt)] [qs' Hqs]]; [by left |].
    right. split.
    + split; cbn; [unfold respond in Hqs; rewrite Hqs; by apply serving_more |]. right. by exists more', due'.
    + intros more0 due0 Hw0. exists more', due'. split; [done |].
      destruct Hw as (k & ro & wa & n1 & as1 & by1 & E1 & _ & E2). destruct Hw0 as (k2 & ro2 & wa2 & n2 & as2 & by2 & E3 & _ & E4).
      rewrite E1 in E3. injection E3 as <- <- <- <- <- <-. cbn in E2, E4. lia.
Qed.

Definition fine (l : Link) : Prop := finished_fetch (fetcher l) ∨ linked l.

Lemma finished_stays l op : finished_fetch (fetcher l) → finished_fetch (fetcher (step l op)).
Proof.
  intros H. pose proof H as [Es _]. unfold step, link_step. destruct op.
  - destruct (_ !! _); [done |]. by rewrite Es.
  - cbn. unfold on_response. rewrite Es. destruct (_ !! _); [done |]. by destruct (v_ended _).
Qed.

Lemma step_fine l op : fine l → fine (step l op).
Proof.
  intros [H | H]; [left; by apply finished_stays |]. destruct op; [right; by apply server_step |].
  destruct (responses (server l) !! reads_down l) as [r |] eqn:Er.
  - destruct (client_step l r H Er) as [? | [? _]]; [by left | by right].
  - right. unfold step, link_step. rewrite Er. destruct H as [Hs Hst]. by rewrite (sv_runs _ _ _ Hs).
Qed.

Lemma run_fine ops l : fine l → fine (foldl step l ops).
Proof. revert l. induction ops as [| op ops IH]; intros l H; cbn; [done |]. by apply IH, step_fine. Qed.

(** The server catches up with what it was asked. *)
Lemma catch_up l : linked l → ∃ ops, let l' := foldl step l ops in
  linked l' ∧ fetcher l' = fetcher l ∧ reads_down l' = reads_down l ∧ reads_up l' = length (requests (fetcher l)).
Proof.
  remember (length (requests (fetcher l)) - reads_up l)%nat as left_ eqn:El. revert l El.
  induction left_ as [| left_ IH]; intros l El Hl; pose proof (sv_read _ _ _ (proj1 Hl)) as Hle.
  - exists []. cbn. split; [done |]. split; [done |]. split; [done |]. lia.
  - destruct (server_step l Hl) as (Hl1 & Ef & Eu). specialize (Eu ltac:(apply not_eq_None_Some, lookup_lt_is_Some; lia)).
    destruct (IH (step l ServerReads)) as (ops & H1 & H2 & H3 & H4); [rewrite Ef, Eu; lia | done |].
    exists (ServerReads :: ops). cbn [foldl]. split; [done |]. split; [congruence |]. split; [| by rewrite H4, Ef].
    rewrite H3. unfold step, link_step. destruct (_ !! _); [done |]. by destruct (stage (fetcher l)).
Qed.

Lemma goes_on l : linked l → ∃ ops, finished_fetch (fetcher (foldl step l ops)).
Proof.
  (* It suffices to finish once the client waits for a chunk. *)
  assert (∀ more l, linked l → (∃ more' due, waiting (fetcher l) (reads_down l) more' due ∧ (more' < more)%nat) →
    ∃ ops, finished_fetch (fetcher (foldl step l ops))) as Hchunks.
  { induction more as [| more IH]; intros l' Hl (more' & due & Hw & Hlt); [lia |].
    destruct (catch_up l' Hl) as (ops & Hl1 & Ef & Ed & Eu). set (l1 := foldl step l' ops) in *.
    destruct (waiting_requests _ _ _ _ Hw) as (qs & got & asked & Er & Hpol & Hids & En). pose proof (proj1 Hl1) as Hs.
    rewrite Ef, Er, Eu in Hs. rewrite Er in Hs. cbn [length] in Hs.
    destruct (all_answered qs _ got due asked Hs Hpol Hids) as [r Hr]. rewrite <- En, <- Ed in Hr. rewrite <- Ef, <- Ed in Hw.
    destruct (client_step l1 r Hl1 Hr) as [Hf | [Hl2 Hless]].
    - exists (ops ++ [FetcherReads]). by rewrite foldl_app.
    - destruct (Hless _ _ Hw) as (more2 & due2 & Hw2 & Hlt2). destruct (IH (step l1 FetcherReads) Hl2) as [ops2 Hf].
      { exists more2, due2. split; [done | lia]. }
      exists (ops ++ FetcherReads :: ops2). by rewrite foldl_app. }
  intros Hl. pose proof Hl as [_ [(Es & Er & Hrc & En) | (more & due & Hw)]].
  - destruct (catch_up l Hl) as (ops & Hl1 & Ef & Ed & Eu). set (l1 := foldl step l ops) in *. pose proof (proj1 Hl1) as Hs.
    rewrite Ef, Er, Eu, Er in Hs. destruct (responses_ok [] _ _ Hs (Forall_nil_2 _)) as [[? _] | (rs & E & _)]; [done |].
    destruct (client_step l1 _ Hl1 ltac:(rewrite Ed, En, E; reflexivity)) as [Hf | [Hl2 _]].
    + exists (ops ++ [FetcherReads]). by rewrite foldl_app.
    + pose proof Hl2 as [_ [(Es2 & _ & _ & En2) | (more & due & Hw)]].
      * exfalso. unfold step, link_step in En2. rewrite Ed, En, E in En2. done.
      * destruct (Hchunks (S more) (step l1 FetcherReads) Hl2) as [ops2 Hf]; [exists more, due; split; [done | lia] |].
        exists (ops ++ FetcherReads :: ops2). by rewrite foldl_app.
  - apply (Hchunks (S more) l Hl). exists more, due. split; [done | lia].
Qed.

(** a world moves from one store to another.  One side has every chunk of a
    snapshot; the other has room for it, whatever it holds already, with or without
    an earlier attempt at the same snapshot.  However the two sides' reads interleave,
    the fetch has not failed, and it can always go on to its end: the file is then
    published byte for byte as it was cut, and the snapshot is retained. *)
Theorem bulk_transfer (from to : Store) (ops : list LinkOp) :
  ready blake3 Zs m from → receptive to →
  let run := link_run blake3 Fs Zs config never never named sends sends m (Manifest.id m) (CompleteFile dest) in
  let l := run (open_link sends from to) ops in
  (∀ e, stage (fetcher l) ≠ Ended (Err e)) ∧
  ∃ ops', let l' := run l ops' in
    stage (fetcher l') = Ended (Ok m) ∧ files (f_store (fetcher l')) !! dest = Some (concat pieces) ∧
    roots (f_store (fetcher l')) !! Manifest.id m = Some (to_bytes Fs m).
Proof.
  intros Hfrom Hto run l.
  assert (fine l) as Hl.
  { apply run_fine. right. split; cbn; [| by left]. split; cbn; [done | done | lia |]. by exists []. }
  split.
  - intros e Es. destruct Hl as [[E _] | [_ [(E & _) | (more & due & (k & ro & wa & n & as_ & by_ & E & _))]]]; congruence.
  - destruct Hl as [Hl | Hl]; [by exists [] | by apply goes_on].
Qed.
End honest.

(** * A snapshot moved between two concrete stores *)
Module ToyBulk.
Import ToyStore.
Definition run := link_run hash ConcreteFields.fields toy_zstd config never never (λ _, true) sends sends manifest
  (Manifest.id manifest) (CompleteFile "save").

(** The server reads the request for the manifest, the client its answer. *)
Definition begun : Link := run (open_link sends ingested empty) [ServerReads; FetcherReads].

Lemma toy_ok : manifest_ok hash ConcreteFields.fields manifest.
Proof. split; [apply manifest_valid | apply manifest_valid | done | by constructor | done]. Qed.

Lemma ingested_ready : ready hash toy_zstd manifest ingested.
Proof.
  assert (chunk_files ingested = {[7 := MkChunkFile (chunk_file 3 (compress toy_zstd data)) 8]}) as E by (vm_compute; reflexivity).
  split.
  - rewrite E. intros id f [<- <-]%lookup_singleton_Some. apply sound_file_iff. exists 3, (compress toy_zstd data), data.
    split; [done |]. split; [done |]. vm_compute. reflexivity.
  - rewrite E. intros e ->%list_elem_of_singleton. cbn. rewrite lookup_singleton_eq. by eexists.
Qed.

(** A peer that sends the manifest, then a frame that is not the chunk. *)
Definition cheated : Fetch :=
  foldl (λ f r, on_response hash ConcreteFields.fields toy_zstd config never (λ _, true) sends (Manifest.id manifest)
                  (CompleteFile "save") r f)
    (start_fetch sends empty) [Ok (RespManifest (to_bytes ConcreteFields.fields manifest)); Ok (RespChunk 7 [1; 2; 3])].
End ToyBulk.

Lemma bulk_transfer_witness :
  (∃ k, stage (fetcher ToyBulk.begun) = AwaitChunk ToyStore.manifest k 2 [] 7 [] 0) ∧
  (∀ e, stage (fetcher ToyBulk.begun) ≠ Ended (Err e)) ∧
  ∃ ops, let l := ToyBulk.run ToyBulk.begun ops in
    stage (fetcher l) = Ended (Ok ToyStore.manifest) ∧ files (f_store (fetcher l)) !! "save" = Some ToyStore.data ∧
    roots (f_store (fetcher l)) !! Manifest.id ToyStore.manifest = Some (to_bytes ConcreteFields.fields ToyStore.manifest).
Proof.
  split; [vm_compute; by eexists |].
  apply (bulk_transfer ToyStore.hash ConcreteFields.fields ToyStore.toy_zstd ToyStore.config (λ _, true)) with
    (pieces := [ToyStore.data]) (from := ToyStore.ingested) (to := ToyStore.empty).
  - done.
  - exact ToyStore.toy_laws.
  - exact ConcreteFields.laws.
  - exact ToyBulk.toy_ok.
  - split; [constructor; [done | constructor] | done].
  - exact ToySpec.only_data.
  - done.
  - exact ToyBulk.ingested_ready.
  - split; [exact ToySpec.empty_good | set_solver | set_solver | by left | by vm_compute].
Defined.

Lemma fetch_any_peer_witness :
  stage ToyBulk.cheated = Ended (Err (BulkSink (Rejected 7 NotOneFrame))) ∧
  files (f_store ToyBulk.cheated) = ∅ ∧ open_sinks (f_store ToyBulk.cheated) = ∅.
Proof.
  assert (stage ToyBulk.cheated = Ended (Err (BulkSink (Rejected 7 NotOneFrame)))) as E by (vm_compute; reflexivity).
  split; [exact E |].
  destruct (fetch_any_peer ToyStore.hash ConcreteFields.fields ToyStore.toy_zstd ToyStore.config never (λ _, true) sends
    (Manifest.id ToyStore.manifest) (CompleteFile "save") ltac:(done) ToyStore.toy_laws ConcreteFields.laws ToyStore.empty
    [Ok (RespManifest (to_bytes ConcreteFields.fields ToyStore.manifest)); Ok (RespChunk 7 [1; 2; 3])] ToySpec.empty_good) as (_ & _ & _ & H).
  fold ToyBulk.cheated in H. rewrite E in H. exact H.
Defined.
