(* ===== verification/Worlds.v ===== *)
(** Worlds between the server's rooms, its snapshot store and its players: the task that
    serves a client's bulk streams ([accept_bulk], [bulk_stream] of
    [crates/tpf3mp-server/src/connection.rs]), with the rooms that let a player fetch a
    world or ask for one, and the background tasks that give holds back.

    What runs on a stream once it is open is [Bulk]; what a room does is [Room]; the
    store is [Vault].  Here they are together: rooms, streams, background tasks and the
    store take turns in any order ([world_step]). *)
From S2P Require Import Prelude Proto Codec Limit Verdict Snapshots Ruleset Game Persist Room RoomInv Holds.
From S2P Require Manifest Store Sink StoreInv StoreSpec Whole Vault Bulk.
Local Open Scope Z_scope.

(** * A bulk stream *)
Inductive BulkOpen := OpenFetch (snapshot : SnapshotId) | OpenServe (snapshot : SnapshotId).

(** The opening: what was read, and how writing the answer ended; [None] if time ran
    out. *)
Definition opening (version : result Z NetError) (wrote : result unit NetError) (message : result BulkOpen NetError) :
    result BulkOpen Bulk.BulkError :=
  let? version := map_err Bulk.BulkNet version in
  let? _ := map_err Bulk.BulkNet wrote in
  if negb (version =? PROTOCOL_VERSION) then Err (Bulk.Violation "a bulk stream of another version")
  else map_err Bulk.BulkNet message.

Definition BULK_OPEN_TIMEOUT : Duration := from_secs 10.

Definition opened_in_time (o : option (result BulkOpen Bulk.BulkError)) : result BulkOpen Bulk.BulkError :=
  match o with Some r => r | None => Err (Bulk.BulkIdle BULK_OPEN_TIMEOUT) end.

(** What a stream the server will not serve or receive is answered. *)
Definition refuse (open : BulkOpen) : list Bulk.BulkResponse :=
  match open with OpenFetch _ => [Bulk.RespUnavailable] | OpenServe _ => [] end.

(** The command a stream asks its room. *)
Definition ask_room (p : PlayerId) (l : LinkId) (open : BulkOpen) : RoomCommand :=
  match open with OpenFetch s => CmdFetch p l s | OpenServe s => CmdUpload p l s end.

Inductive StreamStart :=
  | Refused (answer : list Bulk.BulkResponse)
  | Serves (mf : Manifest)
  | Receives (id : ManifestId).

(** What it does with the answer; [None]: there is no store, no room, or the room is
    gone. *)
Definition start_stream (open : BulkOpen) (answer : option Reply) : StreamStart :=
  match open, answer with
  | OpenFetch _, Some (ReplyManifest (Some mf)) => Serves mf
  | OpenServe s, Some (ReplyBool true) => Receives s
  | _, _ => Refused (refuse open)
  end.

(** How a save that was received ends: what the room is told, and, with whether it could
    be told, whether the hold goes back, and how the stream ended.  [text] is how an
    error is displayed. *)
Definition upload_news (text : Bulk.BulkError → string) (p : PlayerId) (snapshot : SnapshotId)
    (fetched : result Manifest Bulk.BulkError) : RoomCommand :=
  CmdUploaded p snapshot (map_err text fetched).

Definition gives_back (fetched : result Manifest Bulk.BulkError) (told : bool) : bool := negb (is_ok fetched) || negb told.

Definition upload_result (fetched : result Manifest Bulk.BulkError) : result unit Bulk.BulkError :=
  match fetched with
  | Err e => if Bulk.is_violation e then Err (Bulk.Violation "a broken upload") else Ok tt
  | Ok _ => Ok tt
  end.

(** [accept_bulk]: whether the client is closed for how a stream ended. *)
Definition closes_client (ended : result unit Bulk.BulkError) : bool :=
  match ended with Err e => Bulk.is_violation e | Ok _ => false end.

(** * Together *)
Record World (R : Type) := MkWorld {
  w_vault : Vault.Vault;
  w_between : list (list ManifestId);                     (* releases between their two halves *)
  w_rooms : gmap nat (Room R);
  w_uploads : list (nat * PlayerId * SnapshotId);         (* streams that receive a save, holding it *)
  w_told : list (nat * PlayerId * SnapshotId * Manifest); (* news of uploads, queued for a room *)
  w_releases : list (list ManifestId);                    (* background tasks that will release *)
}.
Arguments MkWorld {R}. Arguments w_vault {R}. Arguments w_between {R}. Arguments w_rooms {R}.
Arguments w_uploads {R}. Arguments w_told {R}. Arguments w_releases {R}.
#[export] Instance eta_World {R} : Eta (World R) := fun w =>
  MkWorld (w_vault w) (w_between w) (w_rooms w) (w_uploads w) (w_told w) (w_releases w).

Section world.
Context {R : Type} {RS : Ruleset R} {P : Postcard TurnMessage} {PS : Postcard StartRecord}.
Context (hmac_verify : list Z → list Z → list Z → bool) (crc : list Z → Z).
Context (outcome : nat → SendOutcome) (disk : nat → WriteOutcome).
Context (blake3 : list Z → Z) (Fs : Manifest.Fields) (Zs : Store.Zstd).
Context (config : Store.StoreConfig) (fails : nat → bool) (named : string → bool).
Abbreviation world := (World R).

(** What a room's outputs do: a hold at once, a release in the background. *)
Definition take_holds (v : Vault.Vault) (os : list Output) : Vault.Vault :=
  foldl (λ v o, match o with OHold id => Vault.v_hold v id | _ => v end) v os.

Definition releases_of (os : list Output) : list (list ManifestId) :=
  omap (λ o, match o with ORelease ids => Some ids | _ => None end) os.

(** The first half of a release: the holds are counted down. *)
Definition release_counted (v : Vault.Vault) (ids : list ManifestId) : Vault.Vault :=
  Vault.MkVault (Vault.v_process v) (release_counts (Vault.v_holds v) ids).1 (Vault.v_released v).

(** A room has taken a step.  A room that has closed is gone from the directory. *)
Definition room_stepped (w : world) (h : nat) (r r' : Room R) : world :=
  let os := drop (length (out r)) (out r') in
  w <| w_vault := take_holds (w_vault w) os |> <| w_releases := w_releases w ++ releases_of os |>
    <| w_rooms := if closed r' then delete h (w_rooms w) else <[h := r']> (w_rooms w) |>.

Abbreviation step := (step_room hmac_verify crc outcome disk).

Inductive world_step : world → world → Prop :=
  (* connections serve and receive, the server collects *)
  | ws_use w op : Whole.op_fine blake3 Fs op → (∀ id, ¬ Whole.releases op id) →
      world_step w (w <| w_vault := Vault.v_use blake3 Fs Zs config fails named (w_vault w) op |>)
  | ws_collect w :
      world_step w (w <| w_vault := Vault.v_collect_released blake3 Fs Zs config fails named (w_vault w) |>)
  (* a release, in its two halves *)
  | ws_release w before ids after : w_releases w = before ++ ids :: after →
      world_step w (w <| w_releases := before ++ after |> <| w_vault := release_counted (w_vault w) ids |>
        <| w_between := (release_counts (Vault.v_holds (w_vault w)) ids).2 :: w_between w |>)
  | ws_drop w before unheld after : w_between w = before ++ unheld :: after →
      world_step w (w <| w_between := before ++ after |>
        <| w_vault := Vault.v_drop_unheld blake3 Fs Zs config fails named (w_vault w) unheld |>)
  (* rooms open and take steps *)
  | ws_open w h r : w_rooms w !! h = None → is_Some (snapshots r) → held_snapshots r = [] →
      world_step w (w <| w_rooms := <[h := r]> (w_rooms w) |>)
  | ws_room w h r now s : w_rooms w !! h = Some r → closed r = false → is_received s = false →
      world_step w (room_stepped w h r (step r now s))
  (* a stream receives a save the room asked for *)
  | ws_begin w h p snapshot :
      world_step w (w <| w_vault := Vault.v_hold (w_vault w) snapshot |> <| w_uploads := (h, p, snapshot) :: w_uploads w |>)
  | ws_failed w before h p snapshot after : w_uploads w = before ++ (h, p, snapshot) :: after →
      world_step w (w <| w_uploads := before ++ after |> <| w_releases := w_releases w ++ [[snapshot]] |>)
  | ws_received w before h p snapshot after mf : w_uploads w = before ++ (h, p, snapshot) :: after →
      manifest_id mf = snapshot → Whole.kept blake3 Fs (Vault.v_store (w_vault w)) snapshot → is_Some (w_rooms w !! h) →
      world_step w (w <| w_uploads := before ++ after |> <| w_told := w_told w ++ [(h, p, snapshot, mf)] |>)
  (* the room hears of it, or is gone before it does *)
  | ws_told w before h p snapshot mf after r now : w_told w = before ++ (h, p, snapshot, mf) :: after →
      w_rooms w !! h = Some r → closed r = false →
      world_step w (room_stepped (w <| w_told := before ++ after |>) h r (step r now (StepCommand (CmdUploaded p snapshot (Ok mf)))))
  | ws_lost w before h p snapshot mf after : w_told w = before ++ (h, p, snapshot, mf) :: after → w_rooms w !! h = None →
      world_step w (w <| w_told := before ++ after |>).

Definition world_new : world := MkWorld Vault.v_new [] ∅ [] [] [].

(** * The books *)
Definition in_rooms (w : world) (id : ManifestId) : Z := map_sum ((λ r, slots r id) <$> w_rooms w).

(** What the holds on a snapshot are for. *)
Definition owed (w : world) (id : ManifestId) : Z :=
  in_rooms w id + count id ((λ u, u.2) <$> w_uploads w) + count id ((λ t, manifest_id t.2) <$> w_told w) + count id (concat (w_releases w)).

Definition held_by (v : Vault.Vault) (id : ManifestId) : Z := Z.of_nat (hold_count (Vault.v_holds v) id).

Record sound (w : world) : Prop := {
  so_whole : Whole.whole_process blake3 Fs Zs config (Vault.v_process (w_vault w));
  so_counts : counts_positive (Vault.v_holds (w_vault w));
  so_books : ∀ id, owed w id ≤ held_by (w_vault w) id;
  so_rooms : ∀ h r, w_rooms w !! h = Some r → is_Some (snapshots r) ∧
    ∀ id, id ∈ held_snapshots r → Whole.kept blake3 Fs (Vault.v_store (w_vault w)) id;
  so_told : ∀ t, t ∈ w_told w → Whole.kept blake3 Fs (Vault.v_store (w_vault w)) (manifest_id t.2);
}.

Hypothesis bound_range : Store.max_bytes config < u64_max.
Hypothesis zstd : StoreInv.zstd_law Zs.
Hypothesis fields : Manifest.FieldsLaws Fs.
Hypothesis blake3_digest : ∀ bytes, Manifest.is_digest (blake3 bytes).

Lemma in_rooms_insert w h r id : map_sum ((λ r, slots r id) <$> <[h := r]> (w_rooms w)) =
  in_rooms w id - default 0 ((λ r, slots r id) <$> w_rooms w !! h) + slots r id.
Proof. unfold in_rooms. by rewrite fmap_insert, map_sum_insert, lookup_fmap. Qed.

Lemma in_rooms_delete w h id : map_sum ((λ r, slots r id) <$> delete h (w_rooms w)) =
  in_rooms w id - default 0 ((λ r, slots r id) <$> w_rooms w !! h).
Proof. unfold in_rooms. by rewrite fmap_delete, map_sum_delete, lookup_fmap. Qed.

Lemma in_rooms_nonneg w id : 0 ≤ in_rooms w id.
Proof.
  unfold in_rooms. apply map_sum_nonneg. intros h. rewrite lookup_fmap. destruct (w_rooms w !! h); cbn; [apply count_nonneg | lia].
Qed.

Lemma slots_nonneg (r : Room R) id : 0 ≤ slots r id.
Proof. apply count_nonneg. Qed.

Lemma slots_in_rooms w h r id : w_rooms w !! h = Some r → slots r id ≤ in_rooms w id.
Proof.
  intros Hr. pose proof (in_rooms_delete w h id) as E. rewrite Hr in E. cbn in E.
  pose proof (in_rooms_nonneg (w <| w_rooms := delete h (w_rooms w) |>) id) as Hn. unfold in_rooms at 1 in Hn. cbn in Hn. lia.
Qed.

Lemma count_middle {A} (f : A → ManifestId) id l1 x l2 :
  count id (f <$> l1 ++ x :: l2) = count id (f <$> l1 ++ l2) + (if id =? f x then 1 else 0).
Proof. rewrite !fmap_app. cbn. rewrite !count_app, count_id_cons. lia. Qed.

Lemma count_one id x : count id [x] = (if id =? x then 1 else 0).
Proof. rewrite count_id_cons. unfold count. cbn. lia. Qed.

Lemma count_concat_middle id l1 x l2 : count id (concat (l1 ++ x :: l2)) = count id (concat (l1 ++ l2)) + count id x.
Proof. rewrite !concat_app. cbn. rewrite !count_app. lia. Qed.

(** Whatever is owed is held. *)
Lemma owed_held w id : sound w → 0 < owed w id → Vault.v_held (w_vault w) id.
Proof.
  intros Hw Ho. pose proof (so_books w Hw id) as Hb. unfold held_by, hold_count in Hb. unfold Vault.v_held.
  destruct (Vault.v_holds (w_vault w) !! id); [by eexists | cbn in Hb; lia].
Qed.

Lemma owed_parts w id : 0 ≤ in_rooms w id ∧ 0 ≤ count id ((λ u, u.2) <$> w_uploads w) ∧
  0 ≤ count id ((λ t, manifest_id t.2) <$> w_told w) ∧ 0 ≤ count id (concat (w_releases w)).
Proof. split; [apply in_rooms_nonneg|]. repeat split; apply count_nonneg. Qed.

Lemma room_held w h r id : sound w → w_rooms w !! h = Some r → id ∈ held_snapshots r → Vault.v_held (w_vault w) id.
Proof.
  intros Hw Hr Hid. apply owed_held; [done|]. pose proof (slots_in_rooms w h r id Hr). apply count_id_pos in Hid. unfold slots in *.
  pose proof (owed_parts w id). unfold owed. lia.
Qed.

Lemma told_held w t : sound w → t ∈ w_told w → Vault.v_held (w_vault w) (manifest_id t.2).
Proof.
  intros Hw Ht. apply owed_held; [done|]. pose proof (owed_parts w (manifest_id t.2)). unfold owed.
  assert (0 < count (manifest_id t.2) ((λ t, manifest_id t.2) <$> w_told w)); [|lia].
  apply count_id_pos, list_elem_of_fmap. by exists t.
Qed.

(** A step of the store that keeps what is held and the holds. *)
Lemma sound_store w v : sound w → Vault.v_holds v = Vault.v_holds (w_vault w) → Vault.safe blake3 Fs Zs config (w_vault w) v →
  sound (w <| w_vault := v |>).
Proof.
  intros Hw Hh Hs. destruct (Hs (so_whole w Hw)) as [W K]. split; cbn.
  - exact W.
  - rewrite Hh. apply Hw.
  - intros id. unfold held_by. rewrite Hh. exact (so_books w Hw id).
  - intros h r Hr. split; [exact (proj1 (so_rooms w Hw h r Hr))|]. intros id Hid. apply K; [by eapply room_held | by eapply (proj2 (so_rooms w Hw h r Hr))].
  - intros t Ht. apply K; [by apply told_held | by apply (so_told w Hw)].
Qed.

(** ** Rooms *)
Lemma hold_counted v id i : held_by (Vault.v_hold v i) id = held_by v id + (if id =? i then 1 else 0).
Proof.
  unfold held_by, hold_count, Vault.v_hold. cbn. destruct (Z.eqb_spec id i) as [->|Hne].
  - rewrite lookup_insert_eq. cbn. lia.
  - rewrite lookup_insert_ne by congruence. lia.
Qed.

Lemma hold_positive v i : counts_positive (Vault.v_holds v) → counts_positive (Vault.v_holds (Vault.v_hold v i)).
Proof. intros Hp id n Hn. unfold Vault.v_hold in Hn. cbn in Hn. apply lookup_insert_Some in Hn as [[_ <-]|[_ Hn]]; [done | by eapply Hp]. Qed.

Lemma take_holds_same os v : Vault.v_process (take_holds v os) = Vault.v_process v ∧
  (counts_positive (Vault.v_holds v) → counts_positive (Vault.v_holds (take_holds v os))) ∧
  (∀ id, Vault.v_held v id → Vault.v_held (take_holds v os) id).
Proof.
  revert v. induction os as [|o os IH]; intros v; [done|]. cbn [take_holds foldl]. fold (take_holds (match o with OHold id => Vault.v_hold v id | _ => v end) os).
  destruct (IH (match o with OHold id => Vault.v_hold v id | _ => v end)) as (A1 & A2 & A3). rewrite A1.
  split; [by destruct o|]. split.
  - intros Hp. apply A2. destruct o; try done. by apply hold_positive.
  - intros id Hid. apply A3. destruct o as [| | |i| | | | |]; try done. unfold Vault.v_held, Vault.v_hold in *. cbn.
    destruct (Z.eq_dec i id) as [->|]; [rewrite lookup_insert_eq; by eexists | by rewrite lookup_insert_ne].
Qed.

(** The holds a room takes, less those it gives up for release. *)
Lemma outputs_balance os v id :
  held_by (take_holds v os) id - count id (concat (releases_of os)) = held_by v id + net os id.
Proof.
  revert v. induction os as [|o os IH]; intros v; [cbn; unfold net; cbn; unfold count; cbn; rewrite sum_Z_nil; lia|].
  cbn [take_holds foldl]. fold (take_holds (match o with OHold id => Vault.v_hold v id | _ => v end) os).
  change (o :: os) with ([o] ++ os). rewrite net_app, net_one. specialize (IH (match o with OHold id => Vault.v_hold v id | _ => v end)).
  destruct o; cbn [app releases_of omap list_omap turnover] in *; fold (releases_of os); try lia.
  - rewrite hold_counted in IH. lia.
  - cbn [concat]. rewrite count_app. lia.
Qed.

Lemma sound_stepped w h r r' (k : ManifestId → Z) : sound w → w_rooms w !! h = Some r →
  out r `prefix_of` out r' → is_Some (snapshots r') →
  (∀ id, owed w id + k id ≤ held_by (w_vault w) id) →
  (∀ id, 0 < k id → Whole.kept blake3 Fs (Vault.v_store (w_vault w)) id) →
  (∀ id, id ∈ held_snapshots r' → id ∈ held_snapshots r ∨ 0 < k id) →
  (∀ id, (if closed r' then 0 else slots r' id) - (net (out r') id - net (out r) id) ≤ slots r id + k id) →
  sound (room_stepped w h r r').
Proof.
  intros Hw Hr [os Ho] Hs Hk Hkept Hheld Hbal. unfold room_stepped. rewrite Ho, drop_app_length.
  destruct (take_holds_same os (w_vault w)) as (A1 & A2 & A3).
  assert (Hstore : Vault.v_store (take_holds (w_vault w) os) = Vault.v_store (w_vault w)) by (unfold Vault.v_store; by rewrite A1).
  split; cbn.
  - rewrite A1. apply Hw.
  - apply A2, Hw.
  - intros id. specialize (Hk id). specialize (Hbal id). rewrite Ho, net_app in Hbal. pose proof (outputs_balance os (w_vault w) id) as Eb.
    unfold owed in Hk |- *. cbn. rewrite concat_app, count_app. unfold in_rooms at 1. cbn.
    assert (map_sum ((λ r, slots r id) <$> (if closed r' then delete h (w_rooms w) else <[h := r']> (w_rooms w))) =
      in_rooms w id - slots r id + (if closed r' then 0 else slots r' id)) as ->.
    { destruct (closed r'); rewrite ?in_rooms_delete, ?in_rooms_insert, Hr; cbn; lia. }
    lia.
  - intros h' r'' Hr''.
    assert (Hcase : r'' = r' ∨ w_rooms w !! h' = Some r'').
    { destruct (closed r'); [by apply lookup_delete_Some in Hr'' as [_ ?]; right|].
      apply lookup_insert_Some in Hr'' as [[_ <-]|[_ ?]]; [by left | by right]. }
    rewrite Hstore. destruct Hcase as [->|Hr0]; [|by apply (so_rooms w Hw h')].
    split; [exact Hs|]. intros id [Hid|Hid]%Hheld; [by eapply (proj2 (so_rooms w Hw h r Hr)) | by apply Hkept].
  - intros t Ht. rewrite Hstore. by apply (so_told w Hw).
Qed.

(** A step that moves holds from one account to another, or takes new ones. *)
Lemma sound_moved w w' : sound w → Vault.v_process (w_vault w') = Vault.v_process (w_vault w) →
  counts_positive (Vault.v_holds (w_vault w')) → w_rooms w' = w_rooms w →
  (∀ id, owed w' id - held_by (w_vault w') id ≤ owed w id - held_by (w_vault w) id) →
  (∀ t, t ∈ w_told w' → t ∈ w_told w ∨ Whole.kept blake3 Fs (Vault.v_store (w_vault w)) (manifest_id t.2)) →
  sound w'.
Proof.
  intros Hw Ep Hp Er Hb Ht.
  assert (Hstore : Vault.v_store (w_vault w') = Vault.v_store (w_vault w)) by (unfold Vault.v_store; by rewrite Ep).
  split; [rewrite Ep; apply Hw | exact Hp | | |].
  - intros id. pose proof (so_books w Hw id). specialize (Hb id). lia.
  - rewrite Er, Hstore. apply Hw.
  - intros t [H|H]%Ht; rewrite Hstore; [by apply (so_told w Hw) | done].
Qed.

Lemma sound_new : 0 ≤ Store.max_bytes config → sound world_new.
Proof.
  intros Hmax. split; cbn.
  - by apply Vault.whole_new.
  - by intros id n; rewrite lookup_empty.
  - intros id. unfold owed. assert (in_rooms world_new id = 0) as -> by reflexivity. unfold held_by, count. cbn. lia.
  - by intros h r; rewrite lookup_empty.
  - by intros t ?%not_elem_of_nil.
Qed.

(** Counting down the holds of a release that is owed takes exactly those. *)
Lemma release_counted_by v ids id : counts_positive (Vault.v_holds v) → count id ids ≤ held_by v id →
  held_by (release_counted v ids) id = held_by v id - count id ids.
Proof.
  intros Hp Hle. unfold held_by, release_counted, count in *. cbn.
  destruct (release_counts_spec (Vault.v_holds v) ids id Hp) as [_ ->]. lia.
Qed.

Lemma drop_unheld_holds v ids : Vault.v_holds (Vault.v_drop_unheld blake3 Fs Zs config fails named v ids) = Vault.v_holds v.
Proof. revert v. induction ids as [|i ids IH]; intros v; cbn; [done|]. case_bool_decide; by rewrite IH. Qed.

Lemma collect_released_holds v : Vault.v_holds (Vault.v_collect_released blake3 Fs Zs config fails named v) = Vault.v_holds v.
Proof. unfold Vault.v_collect_released. by destruct (_ || _). Qed.

(** A room's step that brings nothing in. *)
Lemma sound_room w h r now s : sound w → w_rooms w !! h = Some r → closed r = false → is_received s = false →
  sound (room_stepped w h r (step r now s)).
Proof.
  intros Hw Hr Hc Hs. destruct (so_rooms w Hw h r Hr) as [Hsn _].
  assert (Heven : ∀ r', even r r' → ∀ c, sound (room_stepped w h r (r' <| closed := c |>))).
  { intros r' [A1 A2 A3 A4 _] c. apply (sound_stepped w h r _ (λ _, 0)); try done; [by rewrite <- A1 in Hsn | | by left; apply A3 |].
    - intros id. pose proof (so_books w Hw id). lia.
    - intros id. specialize (A2 id). unfold worth in A2. pose proof (slots_nonneg r' id).
      change (out (r' <| closed := c |>)) with (out r'). change (slots (r' <| closed := c |>) id) with (slots r' id).
      cbn [closed]. destruct c; cbn; lia. }
  destruct (settles_step hmac_verify crc outcome disk r now s Hsn Hs) as [[A|(A1 & A2 & A3 & A4 & A5 & _)]|(A1 & A2 & _)].
  - replace (step r now s) with ((step r now s) <| closed := closed (step r now s) |>) by (by destruct (step r now s)). by apply Heven.
  - apply (sound_stepped w h r _ (λ _, 0)); try done; [by rewrite A2 | | by left; apply A4 |].
    + intros id. pose proof (so_books w Hw id). lia.
    + intros id. rewrite A1, A3. unfold worth. lia.
  - apply (Heven _) with (c := true) in A2.
    replace ((step r now s) <| closed := closed r |> <| closed := true |>) with (step r now s) in A2; [done|].
    revert A1. by destruct (step r now s); cbn; intros ->.
Qed.

(** A room hears of an upload: the hold it brings is the room's now. *)
Lemma sound_uploaded w before h p snapshot mf after r now : sound w → w_told w = before ++ (h, p, snapshot, mf) :: after →
  w_rooms w !! h = Some r →
  sound (room_stepped (w <| w_told := before ++ after |>) h r (step r now (StepCommand (CmdUploaded p snapshot (Ok mf))))).
Proof.
  intros Hw Ht Hr. set (w1 := w <| w_told := before ++ after |>).
  assert (Hmid : ∀ id, owed w id = owed w1 id + (if id =? manifest_id mf then 1 else 0)).
  { intros id. unfold owed. rewrite Ht. change (w_told w1) with (before ++ after). rewrite (count_middle (λ t, manifest_id t.2)). cbn [snd].
    change (in_rooms w1 id) with (in_rooms w id). change (w_uploads w1) with (w_uploads w). change (w_releases w1) with (w_releases w). lia. }
  assert (Hw1 : sound w1).
  { apply (sound_moved w); try done; [apply Hw | |].
    - intros id. rewrite Hmid. change (w_vault w1) with (w_vault w). destruct (_ =? _); lia.
    - intros t Hin. left. rewrite Ht. change (t ∈ before ++ after) in Hin. set_solver. }
  destruct (so_rooms w Hw h r Hr) as [Hsn _].
  destruct (uploaded_moves outcome r p snapshot mf now Hsn) as (A1 & A2 & A3 & A4 & _). cbv zeta in *.
  change (step r now _) with (uploaded outcome r p snapshot (Ok mf) now). set (r' := uploaded _ _ _ _ _ _) in *.
  set (k := taken r (StepCommand (CmdUploaded p snapshot (Ok mf)))) in *.
  assert (Hk : ∀ id, k id = (if id =? manifest_id mf then 1 else 0) ∨ k id = 0).
  { intros id. unfold k, taken. destruct (phase r); [by right | by left]. }
  apply (sound_stepped w1 h r r' k); try done; [by rewrite A1 | | |].
  - intros id. pose proof (so_books w Hw id) as Hb. rewrite Hmid in Hb. change (w_vault w1) with (w_vault w).
    destruct (Hk id) as [-> | ->]; destruct (id =? manifest_id mf); lia.
  - intros id Hid. change (w_vault w1) with (w_vault w). assert (id = manifest_id mf) as ->.
    { destruct (Hk id) as [E|E]; [|lia]. destruct (Z.eqb_spec id (manifest_id mf)); [done | lia]. }
    apply (so_told w Hw (h, p, snapshot, mf)). rewrite Ht. set_solver.
  - intros id. specialize (A2 id). unfold worth in A2. pose proof (slots_nonneg r' id).
    destruct (closed r'); lia.
Qed.

Lemma sound_step w w' : sound w → world_step w w' → sound w'.
Proof.
  intros Hw Hs. destruct Hs as [w op Hop Hn|w|w before ids after Hl|w before unheld after Hl|w h r Hh Hsn Hnone|w h r now s Hr Hc Hs
    |w h p snapshot|w before h p snapshot after Hl|w before h p snapshot after mf Hl Hid Hk Hr
    |w before h p snapshot mf after r now Hl Hr Hc|w before h p snapshot mf after Hl Hr].
  - apply sound_store; [done | done |]. apply Vault.safe_use; done.
  - apply sound_store; [done | apply collect_released_holds |].
    exact (Vault.safe_step blake3 Fs Zs config fails named bound_range zstd fields blake3_digest
      (Vault.MkShared (w_vault w) []) _ (Vault.shared_collect _ _ _ _ _ _ _ _)).
  - apply (sound_moved w); try done.
    + by apply release_counts_spec; [exact 0 | apply Hw].
    + intros id. pose proof (so_books w Hw id) as Hb. pose proof (owed_parts w id) as Hparts. unfold owed in *. rewrite Hl in Hb, Hparts |- *.
      rewrite count_concat_middle in Hb, Hparts |- *. cbn.
      rewrite (release_counted_by (w_vault w) ids id) by (try apply Hw; pose proof (count_nonneg id (concat (before ++ after))); lia). change (in_rooms (MkWorld _ _ _ _ _ _) id) with (in_rooms w id). lia.
    + intros t Ht. by left.
  - assert (Hs2 : sound (w <| w_between := before ++ after |>)).
    { apply (sound_moved w); try done; [apply Hw | by left]. }
    apply (sound_store (w <| w_between := before ++ after |>)); [done | apply drop_unheld_holds | by apply Vault.safe_drop].
  - split; cbn; try apply Hw.
    + intros id. pose proof (so_books w Hw id) as Hb. unfold owed in *. cbn. unfold in_rooms at 1. cbn. rewrite in_rooms_insert, Hh. cbn.
      unfold slots at 1. rewrite Hnone. unfold count at 1. cbn. lia.
    + intros h' r' [[_ <-]|[_ Hr']]%lookup_insert_Some; [|by apply (so_rooms w Hw h')].
      split; [done|]. rewrite Hnone. by intros id ?%not_elem_of_nil.
  - by apply sound_room.
  - apply (sound_moved w); try done; [by apply hold_positive, Hw | | by left].
    intros id. cbn -[held_by Vault.v_hold]. rewrite hold_counted. unfold owed. cbn. rewrite count_id_cons. change (in_rooms (MkWorld _ _ _ _ _ _) id) with (in_rooms w id). lia.
  - apply (sound_moved w); try done; [apply Hw | | by left].
    intros id. cbn. unfold owed. rewrite Hl. cbn. rewrite (count_middle (λ u, u.2)), concat_app, count_app. cbn [concat app snd]. rewrite count_one.
    change (in_rooms (MkWorld _ _ _ _ _ _) id) with (in_rooms w id). lia.
  - apply (sound_moved w); try done; [apply Hw | |].
    + intros id. cbn. unfold owed. rewrite Hl. cbn. rewrite (count_middle (λ u, u.2)).
      rewrite (count_middle (λ t, manifest_id t.2) id (w_told w) _ []), app_nil_r. cbn [snd]. rewrite Hid. change (in_rooms (MkWorld _ _ _ _ _ _) id) with (in_rooms w id). lia.
    + intros t Ht. cbn in Ht. apply elem_of_app in Ht as [Ht|Ht]; [by left | right]. apply list_elem_of_singleton in Ht as ->. cbn. by rewrite Hid.
  - by apply sound_uploaded.
  - apply (sound_moved w); try done; [apply Hw | |].
    + intros id. cbn. unfold owed. rewrite Hl. cbn. rewrite (count_middle (λ t, manifest_id t.2)).
      change (in_rooms (MkWorld _ _ _ _ _ _) id) with (in_rooms w id). destruct (_ =? _); lia.
    + intros t Ht. cbn in Ht. left. rewrite Hl. set_solver.
Qed.

Lemma sound_reached w : 0 ≤ Store.max_bytes config → rtc world_step world_new w → sound w.
Proof.
  intros Hmax Hr. pattern w. revert w Hr. apply rtc_ind_r; [by apply sound_new|]. intros y z _ Hs Hw. by eapply sound_step.
Qed.

(** What a room in a sound world lets a player fetch is retained. *)
Lemma fetchable_kept w h r p l snapshot mf : sound w → w_rooms w !! h = Some r → fetchable r p l snapshot = Some mf →
  manifest_id mf = snapshot ∧ Whole.kept blake3 Fs (Vault.v_store (w_vault w)) snapshot.
Proof.
  intros Hw Hr Hf. unfold fetchable in Hf. apply bind_Some in Hf as (i & _ & Hf). apply bind_Some in Hf as (m & _ & Hf).
  destruct (negb _); [done|]. destruct (phase r) as [|g] eqn:Hp; [done|]. apply find_agreed_held in Hf as [Hid Hin].
  split; [done|]. rewrite <- Hid. apply (so_rooms w Hw h r Hr). unfold held_snapshots. by rewrite Hp.
Qed.

(** A world that is offered can be had.  Whatever rooms, uploads, releases, collections
    and failures of the disk came before, in whatever order: when a room lets a player
    fetch a snapshot, the store the stream reads from has its manifest under that name
    and every one of its chunks, and each reads back with the name it is asked for by.
    So a player that falls behind gets its world, however many games have ended and
    saves been replaced since it was uploaded. *)
Theorem offered_world_served w h r p l snapshot mf now :
  0 ≤ Store.max_bytes config → rtc world_step world_new w → w_rooms w !! h = Some r →
  (handle hmac_verify crc outcome disk r now (CmdFetch p l snapshot)).2 = ReplyManifest (Some mf) →
  start_stream (OpenFetch snapshot) (Some (ReplyManifest (Some mf))) = Serves mf ∧ manifest_id mf = snapshot ∧
  ∃ m, Manifest.id m = snapshot ∧ (Store.manifest blake3 Fs StoreSpec.never snapshot (Vault.v_store (w_vault w))).2 = Ok m ∧
    ∀ e, e ∈ Manifest.chunks m → ∃ frame raw_len raw,
      (Store.read_compressed blake3 Zs StoreSpec.never (Manifest.entry_id e) (Vault.v_store (w_vault w))).2 = Ok frame ∧
      Store.decode_chunk blake3 Zs (Manifest.entry_id e) raw_len frame = Ok raw ∧ blake3 raw = Manifest.entry_id e.
Proof.
  intros Hmax Hreach Hr Hf. pose proof (sound_reached w Hmax Hreach) as Hw. injection Hf as Hf.
  destruct (fetchable_kept w h r p l snapshot mf Hw Hr Hf) as [Hid Hk]. split; [done|]. split; [done|].
  eapply Vault.whole_serves; [exact (so_whole w Hw) | exact Hk].
Qed.

(** Several steps of one room. *)
Fixpoint room_runs (w : world) (h : nat) (r : Room R) (steps : list (Instant * RoomStep)) : world :=
  match steps with
  | [] => w
  | (now, s) :: steps => room_runs (room_stepped w h r (step r now s)) h (step r now s) steps
  end.

Fixpoint stays_open (r : Room R) (steps : list (Instant * RoomStep)) : bool :=
  negb (closed r) && match steps with
  | [] => true
  | (now, s) :: steps => negb (is_received s) && stays_open (step r now s) steps
  end.

Lemma room_runs_reached w h r steps : w_rooms w !! h = Some r → stays_open r steps = true →
  rtc world_step w (room_runs w h r steps) ∧ w_rooms (room_runs w h r steps) !! h = Some (run_room hmac_verify crc outcome disk r steps).
Proof.
  revert w r. induction steps as [|[now s] steps IH]; intros w r Hr Ho; cbn [room_runs run_room stays_open] in *; [done|].
  apply andb_true_iff in Ho as [Hc [Hs Ho]%andb_true_iff]. apply negb_true_iff in Hc, Hs. rewrite Hc.
  assert (Hc' : closed (step r now s) = false).
  { destruct steps as [|[] ?]; cbn in Ho; apply andb_true_iff in Ho as [Ho _]; by apply negb_true_iff. }
  destruct (IH (room_stepped w h r (step r now s)) (step r now s)) as [H1 H2].
  - unfold room_stepped. cbn. rewrite Hc'. apply lookup_insert_eq.
  - exact Ho.
  - split; [|exact H2]. eapply rtc_l; [by apply ws_room | exact H1].
Qed.
End world.

(** * Witness

    A table with one player saves its world and uploads it; another player joins then,
    and fetches it. *)
Module ToyWorld.
Import RoomExamples.
Definition id : ManifestId := Vault.ToyVault.id.
Definition mf : Manifest := MkManifest id 3.
Definition table : Room AcceptAll :=
  Room_new 9 "table" "rules" 4 DEFAULT_SETTINGS (MkRoomSecrets [] [] None) accept_all true
    (MkTimeouts (from_secs 10) (from_secs 60) (from_secs 60)) (Some (MkSnapshotsConfig (from_secs 2) (from_secs 1))) 1000000
    (MkNewMember 1 "ada" linux 11) 0.
Definition opening : list (Instant * RoomStep) := [
  (20, StepCommand (CmdSetReady 1 true)); (30, StepCommand (CmdDeclareContent 1 7)); (40, StepCommand (CmdStart 1 77));
  (from_secs 1, StepTick); (from_secs 1, StepCommand (CmdProgress 1 11 0)); (from_secs 3, StepTick);
  (from_secs 4, StepCommand (CmdSaved 1 11 2 [] (Some (MkSavedWorld id 3)))); (from_secs 5, StepCommand (CmdUpload 1 11 id))].
Definition joining : list (Instant * RoomStep) :=
  [(from_secs 7, StepCommand (CmdJoin (MkNewMember 2 "bob" linux 12) 0 None None (Some 7)))].

Abbreviation room_step := (step_room any_tag no_crc sends writes).
Abbreviation world_step := (world_step (R := AcceptAll) any_tag no_crc sends writes StoreInv.ToyStore.hash Vault.ToyVault.fields
  StoreInv.ToyStore.toy_zstd StoreInv.ToyStore.config StoreSpec.never (λ _, true)).
Abbreviation runs := (room_runs any_tag no_crc sends writes).

Definition saving : Room AcceptAll := run table opening.
Definition with_world : Room AcceptAll := room_step saving (from_secs 6) (StepCommand (CmdUploaded 1 id (Ok mf))).
Definition joined : Room AcceptAll := run with_world joining.

(** What uploading the toy store's world does, and what the room hears. *)
Definition ingests : StoreInv.StoreOp := StoreInv.OpIngest [Ok StoreInv.ToyStore.data] Manifest.DEFAULT.
Definition begun (w : World AcceptAll) : World AcceptAll :=
  w <| w_vault := Vault.v_hold (w_vault w) id |> <| w_uploads := (0%nat, 1, id) :: w_uploads w |>.
Definition stored (w : World AcceptAll) : World AcceptAll := w <| w_vault := Vault.ToyVault.uses (w_vault w) ingests |>.
Definition told (w : World AcceptAll) : World AcceptAll := w <| w_uploads := [] |> <| w_told := w_told w ++ [(0%nat, 1, id, mf)] |>.

Definition w1 : World AcceptAll := world_new <| w_rooms := <[0%nat := table]> ∅ |>.
Definition w2 : World AcceptAll := runs w1 0 table opening.
Definition w5 : World AcceptAll := told (stored (begun w2)).
Definition w6 : World AcceptAll := room_stepped (w5 <| w_told := [] |>) 0 saving with_world.
Definition w7 : World AcceptAll := runs w6 0 with_world joining.

Lemma opens : stays_open any_tag no_crc sends writes table opening = true.
Proof. vm_compute. reflexivity. Qed.

Lemma joins : stays_open any_tag no_crc sends writes with_world joining = true.
Proof. vm_compute. reflexivity. Qed.

Lemma untouched : Vault.v_process (w_vault w2) = Vault.v_process Vault.v_new ∧ w_uploads w2 = [] ∧ w_told w2 = [].
Proof. split; [|split]; vm_compute; reflexivity. Qed.

Lemma still_open : closed saving = false ∧ closed with_world = false.
Proof. split; vm_compute; reflexivity. Qed.

Lemma served : (handle any_tag no_crc sends writes joined 0 (CmdFetch 2 12 id)).2 = ReplyManifest (Some mf).
Proof. vm_compute. reflexivity. Qed.

Lemma reached2 : rtc world_step world_new w2 ∧ w_rooms w2 !! 0%nat = Some saving.
Proof.
  pose proof (room_runs_reached any_tag no_crc sends writes StoreInv.ToyStore.hash Vault.ToyVault.fields
    StoreInv.ToyStore.toy_zstd StoreInv.ToyStore.config StoreSpec.never (λ _, true) w1 0 table opening (lookup_insert_eq _ _ _) opens) as [H1 H2].
  split; [|exact H2]. eapply rtc_l; [|exact H1]. by apply ws_open; [| eexists |].
Qed.

Lemma uploaded_in (w : World AcceptAll) (r : Room AcceptAll) : w_rooms w !! 0%nat = Some r →
  Vault.v_process (w_vault w) = Vault.v_process Vault.v_new → w_uploads w = [] →
  rtc world_step w (told (stored (begun w))).
Proof.
  intros Hr Hv Hu. eapply rtc_l; [exact (ws_begin _ _ _ _ _ _ _ _ _ _ w 0 1 id)|].
  eapply rtc_l; [apply (ws_use _ _ _ _ _ _ _ _ _ _ (begun w) ingests)|].
  { split; [|exact StoreInv.ToyStore.default_ok]. intros piece Hp. apply list_elem_of_singleton in Hp as [= ->]. by vm_compute. }
  { by intros ? []. }
  eapply rtc_once, (ws_received _ _ _ _ _ _ _ _ _ _ (stored (begun w)) [] 0 1 id [] mf).
  - change (w_uploads (stored (begun w))) with ((0%nat, 1, id) :: w_uploads w). by rewrite Hu.
  - done.
  - change (Vault.v_store (w_vault (stored (begun w)))) with
      (StoreInv.its_store (StoreInv.use StoreInv.ToyStore.hash Vault.ToyVault.fields StoreInv.ToyStore.toy_zstd StoreInv.ToyStore.config
         StoreSpec.never (λ _, true) (Vault.v_process (w_vault w)) ingests)).
    rewrite Hv. exact Vault.ToyVault.kept_held.
  - by exists r.
Qed.

Lemma told_in (w : World AcceptAll) : w_rooms w !! 0%nat = Some saving → w_told w = [(0%nat, 1, id, mf)] →
  world_step w (room_stepped (w <| w_told := [] |>) 0 saving with_world) ∧
  w_rooms (room_stepped (w <| w_told := [] |>) 0 saving with_world) !! 0%nat = Some with_world.
Proof.
  intros Hr Ht. split.
  - exact (ws_told _ _ _ _ _ _ _ _ _ _ w [] 0 1 id mf [] saving (from_secs 6) Ht Hr (proj1 still_open)).
  - unfold room_stepped. cbn [w_rooms]. rewrite (proj2 still_open). apply lookup_insert_eq.
Qed.

Lemma news (w : World AcceptAll) : w_told w = [] → w_told (told (stored (begun w))) = [(0%nat, 1, id, mf)].
Proof. intros H. change (w_told w ++ [(0%nat, 1, id, mf)] = [(0%nat, 1, id, mf)]). by rewrite H. Qed.

Lemma same_rooms (w : World AcceptAll) : w_rooms (told (stored (begun w))) = w_rooms w.
Proof. reflexivity. Qed.

Lemma reached7 : rtc world_step world_new w7 ∧ w_rooms w7 !! 0%nat = Some joined.
Proof.
  destruct untouched as (Hv & Hu & Ht). destruct reached2 as [H2 L2].
  pose proof (uploaded_in w2 saving L2 Hv Hu) as H5. fold w5 in H5. pose proof (news w2 Ht) as T5. fold w5 in T5.
  pose proof (same_rooms w2) as S5. fold w5 in S5. rewrite <- S5 in L2. destruct (told_in w5 L2 T5) as [H6 L6]. fold w6 in H6, L6.
  pose proof (room_runs_reached any_tag no_crc sends writes StoreInv.ToyStore.hash Vault.ToyVault.fields
    StoreInv.ToyStore.toy_zstd StoreInv.ToyStore.config StoreSpec.never (λ _, true) w6 0 with_world joining L6 joins) as [H7 L7].
  split; [|exact L7]. etransitivity; [exact H2|]. etransitivity; [exact H5|]. eapply rtc_l; [exact H6 | exact H7].
Qed.
End ToyWorld.

Lemma offered_world_served_witness :
  ∃ m, Manifest.id m = ToyWorld.id ∧
    (Store.manifest StoreInv.ToyStore.hash Vault.ToyVault.fields StoreSpec.never ToyWorld.id (Vault.v_store (w_vault ToyWorld.w7))).2 = Ok m ∧
    ∀ e, e ∈ Manifest.chunks m → ∃ frame raw_len raw,
      (Store.read_compressed StoreInv.ToyStore.hash StoreInv.ToyStore.toy_zstd StoreSpec.never (Manifest.entry_id e) (Vault.v_store (w_vault ToyWorld.w7))).2 = Ok frame ∧
      Store.decode_chunk StoreInv.ToyStore.hash StoreInv.ToyStore.toy_zstd (Manifest.entry_id e) raw_len frame = Ok raw ∧
      StoreInv.ToyStore.hash raw = Manifest.entry_id e.
Proof.
  exact (proj2 (proj2 (offered_world_served (P := Concrete.turn_postcard) (PS := ConcreteStart.start_postcard) RoomExamples.any_tag RoomExamples.no_crc RoomExamples.sends RoomExamples.writes
    StoreInv.ToyStore.hash Vault.ToyVault.fields StoreInv.ToyStore.toy_zstd StoreInv.ToyStore.config StoreSpec.never (λ _, true)
    ltac:(done) StoreInv.ToyStore.toy_laws Manifest.ConcreteFields.laws StoreSpec.ToySpec.digest
    ToyWorld.w7 0 ToyWorld.joined 2 12 ToyWorld.id ToyWorld.mf 0 ltac:(done)
    (proj1 ToyWorld.reached7) (proj2 ToyWorld.reached7) ToyWorld.served))).
Defined.
