(* ===== verification/Transfer.v ===== *)
(** Worlds on their way to and from a player ([crates/tpf3mp-agent/src/transfer.rs]):
    opening a bulk stream, fetching the world a turn stream offered and uploading a save
    the room asked for, over [Bulk]; and with the server's side of it ([Worlds]), that a
    world one player saved reaches another. *)
From S2P Require Import Prelude Proto Codec Limit Verdict Snapshots Ruleset Game Persist Room RoomInv Holds Worlds.
From S2P Require Manifest Store Sink StoreInv StoreSpec Whole Vault Bulk.
Local Open Scope Z_scope.

(** * Opening a stream *)
Section open.
Context {PO : Postcard BulkOpen}.

(** [BulkOpener::open]: what is written, with how each call ended; what is left to read
    of what arrives. *)
Definition open_bulk (connected : result unit Bulk.BulkError) (wrote_preamble wrote_open : result unit NetError)
    (recv : list Z) (open : BulkOpen) : list Z * result (list Z) Bulk.BulkError :=
  match connected with
  | Err e => ([], Err e)
  | Ok _ =>
      match wrote_preamble with
      | Err e => ([], Err (Bulk.BulkNet e))
      | Ok _ =>
          let sent := encode_preamble PROTOCOL_VERSION in
          match encode_frame open Bulk.BULK_REQUEST_MAX_FRAME, wrote_open with
          | Err e, _ => (sent, Err (Bulk.BulkNet (FrameErr e)))
          | Ok _, Err e => (sent, Err (Bulk.BulkNet e))
          | Ok frame, Ok _ =>
              (sent ++ frame,
               let? (version, recv) := map_err Bulk.BulkNet (read_preamble recv) in
               if negb (version =? PROTOCOL_VERSION) then Err (Bulk.Violation "a bulk stream of another version")
               else Ok recv)
          end
      end
  end.

(** The server's reads of an opening, from the bytes that arrive. *)
Definition hear_open (recv : list Z) (wrote : result unit NetError) : result BulkOpen Bulk.BulkError :=
  opening (let? (version, _) := read_preamble recv in Ok version) wrote
    (let? (_, recv) := read_preamble recv in let? (open, _) := read_message Bulk.BULK_REQUEST_MAX_FRAME recv in Ok open).

(** A stream opens at both ends, and the server hears what the client asked. *)
Lemma bulk_stream_opens (L : PostcardLaws BulkOpen) open frame rest :
  encode_frame open Bulk.BULK_REQUEST_MAX_FRAME = Ok frame →
  open_bulk (Ok tt) (Ok tt) (Ok tt) (encode_preamble PROTOCOL_VERSION ++ rest) open =
    (encode_preamble PROTOCOL_VERSION ++ frame, Ok rest) ∧
  hear_open (encode_preamble PROTOCOL_VERSION ++ frame) (Ok tt) = Ok open.
Proof.
  intros E. assert (Hp : ∀ more, read_preamble (encode_preamble PROTOCOL_VERSION ++ more) = Ok (PROTOCOL_VERSION, more)) by done.
  unfold open_bulk, hear_open, opening. rewrite E, !Hp. cbn [map_err result_bind]. split; [by rewrite Z.eqb_refl|].
  rewrite Z.eqb_refl. cbn [negb]. rewrite <- (app_nil_r frame), (read_message_encoded open _ _ [] E). done.
Qed.
End open.

(** * Fetching and uploading *)
Section transfer.
Context (blake3 : list Z → Z) (Fs : Manifest.Fields) (Zs : Store.Zstd) (config : Store.StoreConfig).
Context (fails : nat → bool) (named : string → bool) (write_ends : nat → result unit Bulk.BulkError).
Context (received_file : SnapshotId → string).

(** What a fetch has come to: the file and the manifest, or the error; [None] while it
    runs. *)
Definition fetched_world (file : string) (at_ : Bulk.Stage) : option (result (string * Manifest.Manifest) Bulk.BulkError) :=
  match at_ with Bulk.Ended r => Some (let? m := r in Ok (file, m)) | _ => None end.

(** [fetch_world], as far as these responses take it. *)
Definition fetch_world (s : Store.Store) (opened : result (list Z) Bulk.BulkError) (snapshot : SnapshotId)
    (responses : list (result Bulk.BulkResponse Bulk.BulkError)) : Store.Store * option (result (string * Manifest.Manifest) Bulk.BulkError) :=
  let file := received_file snapshot in
  match opened with
  | Err e => (s, Some (Err e))
  | Ok _ =>
      let f := foldl (λ f r, Bulk.on_response blake3 Fs Zs config fails named write_ends snapshot (Bulk.CompleteFile file) r f)
                 (Bulk.start_fetch write_ends s) responses in
      (Bulk.f_store f, fetched_world file (Bulk.stage f))
  end.

(** [upload_world], as far as these requests take it. *)
Definition upload_world (s : Store.Store) (opened : result (list Z) Bulk.BulkError) (snapshot : SnapshotId)
    (requests : list (result Bulk.BulkRequest Bulk.BulkError)) : Store.Store * option (result Bulk.Served Bulk.BulkError) :=
  match Store.manifest blake3 Fs fails snapshot s with
  | (s, Err e) => (s, Some (Err (Bulk.BulkStore e)))
  | (s, Ok m) =>
      match opened with
      | Err e => (s, Some (Err e))
      | Ok _ =>
          let v := foldl (λ v q, Bulk.serve_request blake3 Fs Zs fails write_ends m q v) (Bulk.Serve_new s) requests in
          (Bulk.v_store v, Bulk.v_ended v)
      end
  end.

(** What a fetch returns is the file of the snapshot it was asked for. *)
Lemma fetched_is s opened snapshot responses s' file m :
  fetch_world s opened snapshot responses = (s', Some (Ok (file, m))) → file = received_file snapshot.
Proof.
  unfold fetch_world, fetched_world. destruct opened as [rest|e]; [|done]. intros [= _ E]. destruct (Bulk.stage _) as [| |[m'|]]; [done.. | | done].
  by injection E.
Qed.
End transfer.

(** * A stream while the server goes on *)

(** One end reads, or the server's store has meanwhile become another. *)
Inductive TransferOp := Reads (op : Bulk.LinkOp) | Meanwhile (s : Store.Store).

Section meanwhile.
Context (blake3 : list Z → Z) (Fs : Manifest.Fields) (Zs : Store.Zstd) (config : Store.StoreConfig) (named : string → bool).
Context (m : Manifest.Manifest) (file : string).
Abbreviation link_step := (Bulk.link_step blake3 Fs Zs config StoreSpec.never StoreSpec.never named Bulk.sends Bulk.sends m
  (Manifest.id m) (Bulk.CompleteFile file)).

Definition with_store (s : Store.Store) (l : Bulk.Link) : Bulk.Link :=
  let v := Bulk.server l in
  Bulk.MkLink (Bulk.fetcher l) (Bulk.MkServe s (Bulk.served v) (Bulk.responses v) (Bulk.v_writes v) (Bulk.v_ended v)) (Bulk.reads_up l) (Bulk.reads_down l).

Definition transfer_step (l : Bulk.Link) (op : TransferOp) : Bulk.Link :=
  match op with Reads op => link_step l op | Meanwhile s => with_store s l end.

Definition transfer_run : Bulk.Link → list TransferOp → Bulk.Link := foldl transfer_step.

Context (pieces : list (list Z)).
Context (bound_range : Store.max_bytes config < u64_max) (zstd : StoreInv.zstd_law Zs) (fields : Manifest.FieldsLaws Fs).
Context (m_ok : Manifest.manifest_ok blake3 Fs m) (m_pieces : StoreSpec.describes blake3 m pieces).
Context (m_hash : StoreSpec.unforgeable blake3 pieces) (file_named : named file = true).
Abbreviation fine := (Bulk.fine blake3 Fs Zs config m pieces file).

Lemma with_store_fine s l : StoreSpec.ready blake3 Zs m s → fine l → fine (with_store s l).
Proof. intros Hs [H | [[_ Hv Hr Hrs] Hst]]; [by left | right]. split; [by split | exact Hst]. Qed.

Lemma transfer_fine ops l : (∀ s, Meanwhile s ∈ ops → StoreSpec.ready blake3 Zs m s) → fine l → fine (transfer_run l ops).
Proof.
  revert l. induction ops as [|op ops IH]; intros l Hs Hl; [done|]. cbn. apply IH; [intros s Hin; apply Hs; by right|].
  destruct op as [op|s]; cbn; [by apply Bulk.step_fine | apply with_store_fine; [apply Hs; by left | done]].
Qed.

Lemma reads_run ops l : transfer_run l (Reads <$> ops) = foldl link_step l ops.
Proof. revert l. induction ops as [|op ops IH]; intros l; [done | apply IH]. Qed.
End meanwhile.

(** * From one player to another *)
Section reaches.
Context {R : Type} {RS : Ruleset R} {P : Postcard TurnMessage} {PS : Postcard StartRecord}.
Context (hmac_verify : list Z → list Z → list Z → bool) (crc : list Z → Z).
Context (outcome : nat → SendOutcome) (disk : nat → WriteOutcome).
Context (blake3 : list Z → Z) (Fs : Manifest.Fields) (Zs : Store.Zstd).
Context (config player_config : Store.StoreConfig) (fails : nat → bool) (named player_named : string → bool).
Context (received_file : SnapshotId → string).
Hypothesis bound_range : Store.max_bytes config < u64_max.
Hypothesis player_range : Store.max_bytes player_config < u64_max.
Hypothesis zstd : StoreInv.zstd_law Zs.
Hypothesis fields : Manifest.FieldsLaws Fs.
Hypothesis blake3_digest : ∀ bytes, Manifest.is_digest (blake3 bytes).
Abbreviation reached := (rtc (world_step (R := R) hmac_verify crc outcome disk blake3 Fs Zs config fails named) world_new).

(** In this world a room lets some player fetch the snapshot. *)
Definition offers (w : World R) (snapshot : SnapshotId) : Prop :=
  ∃ h r p l now mf, w_rooms w !! h = Some r ∧
    (handle hmac_verify crc outcome disk r now (CmdFetch p l snapshot)).2 = ReplyManifest (Some mf).

(** A store that some room offers a snapshot from has all of it. *)
Lemma offers_ready w m : 0 ≤ Store.max_bytes config → reached w → offers w (Manifest.id m) →
  Manifest.manifest_ok blake3 Fs m → StoreSpec.unforgeable blake3 [Manifest.to_bytes Fs m] →
  StoreSpec.ready blake3 Zs m (Vault.v_store (w_vault w)).
Proof.
  intros Hmax Hreach (h & r & p & l & now & mf & Hr & Hf) Hm Hu.
  pose proof (sound_reached hmac_verify crc outcome disk blake3 Fs Zs config fails named bound_range zstd fields blake3_digest w Hmax Hreach) as Hw.
  injection Hf as Hf. destruct (fetchable_kept blake3 Fs Zs config w h r p l _ mf Hw Hr Hf) as [_ (m' & Hid & Hs)].
  assert (m' = m) as ->.
  { pose proof Hs as (bytes & _ & _ & E & _). apply (Manifest.from_bytes_ok blake3 Fs fields) in E as [Hm' _].
    pose proof (Manifest.mo_id _ _ _ Hm) as E1. pose proof (Manifest.mo_id _ _ _ Hm') as E2.
    assert (Manifest.to_bytes Fs m' = Manifest.to_bytes Fs m) as Eb by (apply Hu; [by left | congruence]).
    pose proof (Manifest.from_bytes_to_bytes blake3 Fs fields m Hm) as F1. pose proof (Manifest.from_bytes_to_bytes blake3 Fs fields m' Hm') as F2.
    rewrite Eb in F2. congruence. }
  destruct (so_whole _ _ _ _ w Hw) as [[Hg _] Hc _ _]. split; [apply Hg|]. intros e He. by eapply Hc.
Qed.

(** C18: The world one player saved reaches another.  [m] is the manifest of a save cut
    into [pieces], and the room lets a player fetch it, whose store has room for it.
    While the stream runs, the server's rooms, uploads, releases and collections go on,
    with calls of its disk failing, as long as some room still offers the snapshot.
    However the reads of the two ends interleave with all that, the fetch has not failed,
    and it can always go on to its end: then the player has the file to load, which is
    the save byte for byte. *)
Theorem world_reaches_player w m pieces to ops :
  let file := received_file (Manifest.id m) in
  0 ≤ Store.max_bytes config → Manifest.manifest_ok blake3 Fs m → StoreSpec.describes blake3 m pieces →
  StoreSpec.unforgeable blake3 (Manifest.to_bytes Fs m :: pieces) → player_named file = true →
  reached w → offers w (Manifest.id m) →
  Bulk.receptive blake3 Fs Zs player_config m file to →
  (∀ s, Meanwhile s ∈ ops → ∃ w', reached w' ∧ offers w' (Manifest.id m) ∧ s = Vault.v_store (w_vault w')) →
  let run := transfer_run blake3 Fs Zs player_config player_named m file in
  let l := run (Bulk.open_link Bulk.sends (Vault.v_store (w_vault w)) to) ops in
  (∀ e, fetched_world file (Bulk.stage (Bulk.fetcher l)) ≠ Some (Err e)) ∧
  ∃ ops', let l' := run l (Reads <$> ops') in
    fetched_world file (Bulk.stage (Bulk.fetcher l')) = Some (Ok (file, m)) ∧
    Store.files (Bulk.f_store (Bulk.fetcher l')) !! file = Some (concat pieces) ∧
    Store.roots (Bulk.f_store (Bulk.fetcher l')) !! Manifest.id m = Some (Manifest.to_bytes Fs m).
Proof.
  intros file Hmax Hm Hp Hu Hn Hreach Hoff Hto Hops run l.
  assert (Hu1 : StoreSpec.unforgeable blake3 [Manifest.to_bytes Fs m]) by (intros x y Hx; apply Hu; apply list_elem_of_singleton in Hx as ->; by left).
  assert (Hu2 : StoreSpec.unforgeable blake3 pieces) by (intros x y Hx; apply Hu; by right).
  assert (Hl : Bulk.fine blake3 Fs Zs player_config m pieces file l).
  { apply transfer_fine; try done.
    - intros s Hs. destruct (Hops s Hs) as (w' & Hr' & Ho' & ->). by apply offers_ready.
    - right. split; cbn; [|by left]. split; cbn; [by apply offers_ready | done | lia |]. by exists []. }
  split.
  - intros e. unfold fetched_world. destruct Hl as [[E _] | [_ [(E & _) | (more & due & (k & ro & wa & n & as_ & by_ & E & _))]]]; rewrite E; done.
  - assert (Hend : ∃ ops', Bulk.finished_fetch Fs m pieces file (Bulk.fetcher (run l (Reads <$> ops')))).
    { destruct Hl as [Hl | Hl]; [by exists []|].
      edestruct (Bulk.goes_on blake3 Fs Zs player_config player_named) as [ops' H]; [done.. | exact Hl |]. exists ops'. unfold run. by rewrite reads_run. }
    destruct Hend as (ops' & E & H2 & H3). exists ops'. cbv zeta. unfold fetched_world. rewrite E. split; [done|]. split; [exact H2 | exact H3].
Qed.
End reaches.

(** * Witness

    The table of [ToyWorld]: a second player joins, and while it fetches the world the
    server hears of the first's progress. *)
Module ToyTransfer.
Import RoomExamples.
Definition manifest : Manifest.Manifest := StoreInv.ToyStore.manifest.
Definition later : list (Instant * RoomStep) := [(from_secs 7, StepCommand (CmdProgress 1 11 0))].
Definition w8 : World AcceptAll := room_runs any_tag no_crc sends writes ToyWorld.w7 0 ToyWorld.joined later.
Definition joined_later : Room AcceptAll := run ToyWorld.joined later.

Abbreviation world_step := (world_step (R := AcceptAll) any_tag no_crc sends writes StoreInv.ToyStore.hash Vault.ToyVault.fields
  StoreInv.ToyStore.toy_zstd StoreInv.ToyStore.config StoreSpec.never (λ _, true)).

Lemma stays_open8 : stays_open any_tag no_crc sends writes ToyWorld.joined later = true.
Proof. vm_compute. reflexivity. Qed.

Lemma still_served : (handle any_tag no_crc sends writes joined_later 0 (CmdFetch 2 12 ToyWorld.id)).2 = ReplyManifest (Some ToyWorld.mf).
Proof. vm_compute. reflexivity. Qed.

Lemma reached8 : rtc world_step world_new w8 ∧ w_rooms w8 !! 0%nat = Some joined_later.
Proof.
  destruct ToyWorld.reached7 as [H7 L7].
  pose proof (room_runs_reached any_tag no_crc sends writes StoreInv.ToyStore.hash Vault.ToyVault.fields
    StoreInv.ToyStore.toy_zstd StoreInv.ToyStore.config StoreSpec.never (λ _, true) ToyWorld.w7 0 ToyWorld.joined later L7 stays_open8) as [H8 L8].
  split; [|exact L8]. etransitivity; [exact H7 | exact H8].
Qed.

Lemma offered7 : offers any_tag no_crc sends writes ToyWorld.w7 (Manifest.id manifest).
Proof. exists 0%nat, ToyWorld.joined, 2, 12, 0, ToyWorld.mf. split; [exact (proj2 ToyWorld.reached7) | exact ToyWorld.served]. Qed.

Lemma offered8 : offers any_tag no_crc sends writes w8 (Manifest.id manifest).
Proof. exists 0%nat, joined_later, 2, 12, 0, ToyWorld.mf. split; [exact (proj2 reached8) | exact still_served]. Qed.

Lemma only_then a b s t : Meanwhile s ∈ [Reads a; Meanwhile t; Reads b] → s = t.
Proof. set_solver. Qed.

Definition ops : list TransferOp :=
  [Reads Bulk.ServerReads; Meanwhile (Vault.v_store (w_vault w8)); Reads Bulk.FetcherReads].
Abbreviation transfer := (transfer_run StoreInv.ToyStore.hash Vault.ToyVault.fields StoreInv.ToyStore.toy_zstd StoreInv.ToyStore.config
  (λ _, true) manifest "world").
Definition begun : Bulk.Link := transfer (Bulk.open_link Bulk.sends (Vault.v_store (w_vault ToyWorld.w7)) StoreInv.ToyStore.empty) ops.
End ToyTransfer.

Lemma world_reaches_player_witness :
  (∀ e, fetched_world "world" (Bulk.stage (Bulk.fetcher ToyTransfer.begun)) ≠ Some (Err e)) ∧
  ∃ ops', let l := transfer_run StoreInv.ToyStore.hash Vault.ToyVault.fields StoreInv.ToyStore.toy_zstd StoreInv.ToyStore.config
      (λ _, true) ToyTransfer.manifest "world" ToyTransfer.begun (Reads <$> ops') in
    fetched_world "world" (Bulk.stage (Bulk.fetcher l)) = Some (Ok ("world"%string, ToyTransfer.manifest)) ∧
    Store.files (Bulk.f_store (Bulk.fetcher l)) !! "world"%string = Some StoreInv.ToyStore.data ∧
    Store.roots (Bulk.f_store (Bulk.fetcher l)) !! Manifest.id ToyTransfer.manifest = Some (Manifest.to_bytes Vault.ToyVault.fields ToyTransfer.manifest).
Proof.
  apply (world_reaches_player (P := Concrete.turn_postcard) (PS := ConcreteStart.start_postcard) RoomExamples.any_tag RoomExamples.no_crc
    RoomExamples.sends RoomExamples.writes StoreInv.ToyStore.hash Vault.ToyVault.fields StoreInv.ToyStore.toy_zstd StoreInv.ToyStore.config
    StoreInv.ToyStore.config StoreSpec.never (λ _, true) (λ _, true) (λ _, "world"%string) ltac:(done) ltac:(done) StoreInv.ToyStore.toy_laws
    Manifest.ConcreteFields.laws StoreSpec.ToySpec.digest ToyWorld.w7 ToyTransfer.manifest [StoreInv.ToyStore.data] StoreInv.ToyStore.empty ToyTransfer.ops).
  - done.
  - exact Bulk.ToyBulk.toy_ok.
  - split; [constructor; [done | constructor] | done].
  - exact StoreSpec.ToySpec.both.
  - done.
  - exact (proj1 ToyWorld.reached7).
  - exact ToyTransfer.offered7.
  - split; [exact StoreSpec.ToySpec.empty_good | set_solver | set_solver | by left | by vm_compute].
  - intros s Hs. apply ToyTransfer.only_then in Hs as ->.
    exists ToyTransfer.w8. split; [exact (proj1 ToyTransfer.reached8)|]. split; [exact ToyTransfer.offered8 | done].
Defined.
