(* ===== verification/SaveCheck.v ===== *)
(** The check a received world's script data must pass before the game loads it
    ([crates/tpf3mp-agent/src/save_check.rs]): a lexer and a parser that let through one
    function returning one table of literals.

    A text is its bytes.  [Parser] is the code's: the position, where the current token
    starts and the token.  The loops over bytes recurse on what is left of the text; the
    parser takes fuel, and [parse_total] shows that what it is given is enough. *)
From S2P Require Import Prelude Chars.
Local Open Scope Z_scope.

Definition MAX_LUA_DATA : Z := 32 * 2 ^ 20.
Definition MAX_DEPTH : nat := 128.
Definition KEYWORDS : list Chars := chars <$> [
  "and"; "break"; "do"; "else"; "elseif"; "end"; "false"; "for"; "function"; "if"; "in"; "local";
  "nil"; "not"; "or"; "repeat"; "return"; "then"; "true"; "until"; "while"; "goto"]%string.

Inductive LuaDataError := LuaTooLarge | NotText | Syntax (line : nat) (reason : string).

(** [std::str::from_utf8]: whether these bytes are UTF-8. *)
Definition within (low high b : Z) : bool := (low <=? b) && (b <=? high).
Definition continues (b : Z) : bool := within 128 191 b.
Fixpoint from_utf8 (bytes : list Z) : bool :=
  match bytes with
  | [] => true
  | a :: rest =>
      if a <? 128 then from_utf8 rest
      else match rest with
      | b :: rest =>
          if within 194 223 a then continues b && from_utf8 rest
          else match rest with
          | c :: rest =>
              if within 224 239 a then
                within (if a =? 224 then 160 else 128) (if a =? 237 then 159 else 191) b && continues c && from_utf8 rest
              else match rest with
              | d :: rest =>
                  within 240 244 a && within (if a =? 240 then 144 else 128) (if a =? 244 then 143 else 191) b &&
                  continues c && continues d && from_utf8 rest
              | [] => false
              end
          | [] => false
          end
      | [] => false
      end
  end.

Inductive Token := TString | TNumber | TName (name : Chars) | TPunct (byte : Z) | TEnd.
#[export] Instance Token_eq_dec : EqDecision Token.
Proof. solve_decision. Defined.

Record Parser := MkParser { text : list Z; position : nat; start : nat; token : Token }.
#[export] Instance eta_Parser : Eta Parser := fun p => MkParser (text p) (position p) (start p) (token p).

Definition error {A} (p : Parser) (reason : string) : result A LuaDataError :=
  Err (Syntax (length (List.filter (λ b, b =? 10) (firstn (start p) (text p))) + 1) reason).

(** * The lexer *)
Definition is_ascii_digit (b : Z) : bool := within 48 57 b.
Definition is_ascii_hexdigit (b : Z) : bool := is_ascii_digit b || within 65 70 b || within 97 102 b.
Definition is_ascii_alphabetic (b : Z) : bool := within 65 90 b || within 97 122 b.
Definition is_word (b : Z) : bool := is_ascii_alphabetic b || is_ascii_digit b || (b =? 95).

Fixpoint count_while (f : Z → bool) (rest : list Z) : nat :=
  match rest with b :: rest => if f b then S (count_while f rest) else 0 | [] => 0 end.

Definition is_space (b : Z) : bool := (b =? 32) || within 9 13 b.
Definition ends_line (b : Z) : bool := (b =? 10) || (b =? 13).

(** The white space and comments ahead: a comment goes on to the end of its line. *)
Fixpoint blank (comment : bool) (rest : list Z) : nat :=
  match rest with
  | [] => 0
  | b :: rest =>
      if comment then S (blank (negb (ends_line b)) rest)
      else if is_space b then S (blank false rest)
      else if (b =? 45) && bool_decide (head rest = Some 45) then S (blank true rest)
      else 0
  end.

(** A quoted string, from behind its opening quote to behind its closing one. *)
Fixpoint string_end (quote : Z) (rest : list Z) : option nat :=
  match rest with
  | [] => None
  | b :: rest =>
      if b =? quote then Some 1%nat
      else if b =? 92 then
        match rest with
        | [] => None
        | c :: rest =>
            match rest with
            | d :: rest' => if (c =? 13) && (d =? 10) then Nat.add 3 <$> string_end quote rest' else Nat.add 2 <$> string_end quote rest
            | [] => None
            end
        end
      else if ends_line b then None
      else S <$> string_end quote rest
  end.

Definition starts_with (word rest : list Z) : bool := bool_decide (take (length word) rest = word).

(** A number at the head of [rest]: how long it is. *)
Definition digits (hex : bool) (rest : list Z) : nat := count_while (if hex then is_ascii_hexdigit else is_ascii_digit) rest.

Definition named_number (rest : list Z) : bool :=
  existsb (λ word, starts_with word rest && negb (default false (is_word <$> rest !! length word))) [chars "inf"; chars "nan"].

Definition exponent (rest : list Z) : nat :=
  match rest with
  | e :: rest =>
      if (e =? 101) || (e =? 69) then
        let sign := match rest with s :: _ => if (s =? 43) || (s =? 45) then 1%nat else 0%nat | [] => 0%nat end in
        let length := digits false (drop sign rest) in
        if (0 <? length)%nat then (1 + sign + length)%nat else 0%nat
      else 0%nat
  | [] => 0%nat
  end.

Definition decimal (rest : list Z) : option nat :=
  let whole := digits false rest in
  let fraction := drop whole rest in
  if (0 <? whole)%nat then
    Some (match fraction with
          | d :: more => if d =? 46 then (whole + 1 + digits false more)%nat else whole
          | [] => whole
          end)
  else match rest with
  | d :: more => if (d =? 46) && (0 <? digits false more)%nat then Some (1 + digits false more)%nat else None
  | [] => None
  end.

Definition hexadecimal (rest : list Z) : option nat :=
  match rest with
  | z :: x :: more =>
      if (z =? 48) && ((x =? 120) || (x =? 88)) && (0 <? digits true more)%nat then Some (2 + digits true more)%nat else None
  | _ => None
  end.

Definition number (rest : list Z) : option nat :=
  let sign := match rest with b :: _ => if b =? 45 then 1%nat else 0%nat | [] => 0%nat end in
  let rest := drop sign rest in
  if named_number rest then Some (sign + 3)%nat
  else match hexadecimal rest with
  | Some n => Some (sign + n)%nat
  | None => match decimal rest with Some n => Some (sign + n + exponent (drop n rest))%nat | None => None end
  end.

Definition is_punct (b : Z) : bool := bool_decide (b ∈ chars "{}[](),;=").

(** The token at the head of [rest], with its length; [None] if there is none. *)
Definition next_token (rest : list Z) : option (Token * nat) :=
  match rest with
  | [] => Some (TEnd, 0%nat)
  | b :: more =>
      if (b =? 34) || (b =? 39) then (λ n, (TString, S n)) <$> string_end b more
      else if is_punct b then Some (TPunct b, 1%nat)
      else match number rest with
      | Some n => Some (TNumber, n)
      | None =>
          if is_ascii_alphabetic b || (b =? 95)
          then let n := count_while is_word rest in Some (TName (take n rest), n)
          else None
      end
  end.

(** [Parser::advance]. *)
Definition advance (p : Parser) : result Parser LuaDataError :=
  let at_ := (position p + blank false (drop (position p) (text p)))%nat in
  let p := p <| position := at_ |> <| start := at_ |> in
  match next_token (drop at_ (text p)) with
  | Some (t, n) => Ok (p <| token := t |> <| position := (at_ + n)%nat |>)
  | None => error p "invalid or incomplete native Lua data"
  end.

Definition Parser_new (bytes : list Z) : result Parser LuaDataError := advance (MkParser bytes 0 0 TEnd).

(** * The parser *)
Definition expect_word (word : string) (p : Parser) : result Parser LuaDataError :=
  if negb (bool_decide (token p = TName (chars word))) then error p "expected the saved data function" else advance p.

Definition expect_punct (punct : Z) (reason : string) (p : Parser) : result Parser LuaDataError :=
  if negb (bool_decide (token p = TPunct punct)) then error p reason else advance p.

(** [None]: out of fuel. *)
Abbreviation Out := (option (result Parser LuaDataError)).
Definition out_bind (o : Out) (k : Parser → Out) : Out :=
  match o with Some (Ok p) => k p | _ => o end.
Notation "'let!' p := o 'in' k" := (out_bind o (λ p, k)) (at level 200, p name, o at level 100, k at level 200).

Definition is_key (t : Token) : bool :=
  match t with TString | TNumber => true | TName n => bool_decide (n = chars "true") || bool_decide (n = chars "false") | _ => false end.
Definition is_atom (t : Token) : bool := is_key t || bool_decide (t = TName (chars "nil")).
Definition is_field (t : Token) : bool := match t with TName n => negb (bool_decide (n ∈ KEYWORDS)) | _ => false end.
Definition is_separator (t : Token) : bool := bool_decide (t = TPunct 44) || bool_decide (t = TPunct 59).

Definition literal (table : nat → Parser → Out) (depth : nat) (p : Parser) : Out :=
  if bool_decide (token p = TPunct 123) then table (S depth) p
  else if is_atom (token p) then Some (advance p)
  else Some (error p "expected a serialized value (expressions are not accepted)").

Definition entry (table : nat → Parser → Out) (depth : nat) (p : Parser) : Out :=
  if bool_decide (token p = TPunct 91) then
    let! p := Some (advance p) in
    if negb (is_key (token p)) then Some (error p "expected a literal table key")
    else
      let! p := Some (advance p) in
      let! p := Some (expect_punct 93 "expected ]" p) in
      let! p := Some (expect_punct 61 "expected =" p) in
      literal table depth p
  else if is_field (token p) then
    let! p := Some (advance p) in
    let! p := Some (expect_punct 61 "expected =" p) in
    literal table depth p
  else literal table depth p.

Fixpoint table (fuel depth : nat) (p : Parser) {struct fuel} : Out :=
  match fuel with
  | O => None
  | S fuel =>
      if (MAX_DEPTH <? depth)%nat then Some (error p "native Lua data exceeds the nesting limit")
      else let! p := Some (expect_punct 123 "expected a table" p) in entries fuel depth p
  end
with entries (fuel depth : nat) (p : Parser) {struct fuel} : Out :=
  match fuel with
  | O => None
  | S fuel =>
      if bool_decide (token p = TPunct 125) then Some (advance p)
      else
        let! p := entry (table fuel) depth p in
        if is_separator (token p) then let! p := Some (advance p) in entries fuel depth p
        else if bool_decide (token p = TPunct 125) then entries fuel depth p
        else Some (error p "expected a table separator or closing brace")
  end.

Definition parse (p : Parser) : option (result unit LuaDataError) :=
  let fuel := (2 * length (text p) + 4)%nat in
  let done :=
    let! p := Some (expect_word "function" p) in
    let! p := Some (expect_word "data" p) in
    let! p := Some (expect_punct 40 "expected the saved data function" p) in
    let! p := Some (expect_punct 41 "expected the saved data function" p) in
    let! p := Some (expect_word "return" p) in
    let! p := table fuel 0 p in
    let! p := Some (expect_word "end" p) in
    let! p := if bool_decide (token p = TPunct 59) then Some (advance p) else Some (Ok p) in
    if bool_decide (token p = TEnd) then Some (Ok p) else Some (error p "unexpected content after the saved data function") in
  match done with Some (Ok _) => Some (Ok tt) | Some (Err e) => Some (Err e) | None => None end.

Definition BOM : list Z := [239; 187; 191].
Definition check_lua_data (bytes : list Z) : option (result unit LuaDataError) :=
  if MAX_LUA_DATA <? Z.of_nat (length bytes) then Some (Err LuaTooLarge)
  else
    let bytes := if starts_with BOM bytes then drop 3 bytes else bytes in
    if negb (from_utf8 bytes) then Some (Err NotText)
    else match Parser_new bytes with Err e => Some (Err e) | Ok p => parse p end.

Example data_admitted : check_lua_data (chars "function data() return { x=-2, y={1, [true]=1.2e-5, 'a\'b';}, z=inf } end -- kept") = Some (Ok tt).
Proof. vm_compute. reflexivity. Qed.
Example code_refused : check_lua_data (chars "function data() return { x=os.execute(1) } end") =
  Some (Err (Syntax 1 "expected a serialized value (expressions are not accepted)")).
Proof. vm_compute. reflexivity. Qed.

(** * What is admitted

    The grammar, on tokens: a table of literals, nested so deep. *)
Definition key_t (t : Token) : Prop := t = TString ∨ t = TNumber ∨ t = TName (chars "true") ∨ t = TName (chars "false").
Definition atom_t (t : Token) : Prop := key_t t ∨ t = TName (chars "nil").
Definition separator_t (t : Token) : Prop := t = TPunct 44 ∨ t = TPunct 59.

(** A name that is none of Lua's words. *)
Definition field_t (t : Token) : Prop := ∃ name, t = TName name ∧ name ∉ chars <$> [
  "and"; "break"; "do"; "else"; "elseif"; "end"; "false"; "for"; "function"; "if"; "in"; "local";
  "nil"; "not"; "or"; "repeat"; "return"; "then"; "true"; "until"; "while"; "goto"]%string.

Inductive table_g : nat → list Token → Prop :=
  | table_of d es : (d ≤ 128)%nat → entries_g d es → table_g d (TPunct 123 :: es ++ [TPunct 125])
with entries_g : nat → list Token → Prop :=
  | entries_none d : entries_g d []
  | entries_last d e : entry_g d e → entries_g d e
  | entries_more d e s es : entry_g d e → separator_t s → entries_g d es → entries_g d (e ++ s :: es)
with entry_g : nat → list Token → Prop :=
  | entry_value d v : value_g d v → entry_g d v
  | entry_key d k v : key_t k → value_g d v → entry_g d (TPunct 91 :: k :: TPunct 93 :: TPunct 61 :: v)
  | entry_field d n v : field_t n → value_g d v → entry_g d (n :: TPunct 61 :: v)
with value_g : nat → list Token → Prop :=
  | value_atom d t : atom_t t → value_g d [t]
  | value_table d ts : table_g (S d) ts → value_g d ts.

Definition opening : list Token := [TName (chars "function"); TName (chars "data"); TPunct 40; TPunct 41; TName (chars "return")].
Definition document (ts : list Token) : Prop :=
  ∃ tab, table_g 0 tab ∧ (ts = opening ++ tab ++ [TName (chars "end")] ∨ ts = opening ++ tab ++ [TName (chars "end"); TPunct 59]).

Lemma key_iff t : is_key t = true ↔ key_t t.
Proof.
  unfold key_t, is_key. destruct t as [| |n|b|]; [by split; [left |] | by split; [right; left |] | | by split; [| intros [?|[?|[?|?]]]]..].
  rewrite orb_true_iff, !bool_decide_eq_true. split; [intros [-> | ->]; auto | intros [?|[?|[[= ->]|[= ->]]]]; auto; done].
Qed.
Lemma atom_iff t : is_atom t = true ↔ atom_t t.
Proof. unfold is_atom, atom_t. by rewrite orb_true_iff, key_iff, bool_decide_eq_true. Qed.
Lemma separator_iff t : is_separator t = true ↔ separator_t t.
Proof. unfold is_separator, separator_t. by rewrite orb_true_iff, !bool_decide_eq_true. Qed.
Lemma field_iff t : is_field t = true ↔ field_t t.
Proof.
  unfold field_t. destruct t as [| |n|b|]; try (split; [done | by intros (? & ? & _)]).
  unfold is_field. rewrite negb_true_iff, bool_decide_eq_false. split; [intros H; by exists n | by intros (? & [= <-] & H)].
Qed.

(** The parser moves past these tokens. *)
Inductive moves : Parser → list Token → Parser → Prop :=
  | steps_none p : moves p [] p
  | steps_one p p1 t ts p' : token p = t → t ≠ TEnd → advance p = Ok p1 → moves p1 ts p' → moves p (t :: ts) p'.

(** These are the tokens of a text. *)
Definition reads (bytes : list Z) (ts : list Token) : Prop :=
  ∃ p e, Parser_new bytes = Ok p ∧ moves p ts e ∧ token e = TEnd.

Lemma steps_app p ts1 p1 ts2 p2 : moves p ts1 p1 → moves p1 ts2 p2 → moves p (ts1 ++ ts2) p2.
Proof. induction 1; [done|]. intros. cbn. by econstructor; [..| apply IHmoves]. Qed.

Lemma steps_app_inv p ts1 ts2 p2 : moves p (ts1 ++ ts2) p2 → ∃ p1, moves p ts1 p1 ∧ moves p1 ts2 p2.
Proof.
  revert p. induction ts1 as [|t ts1 IH]; intros p H; [exists p; split; [constructor | done]|].
  inversion H; subst. edestruct IH as (q & H1 & H2); [done|]. exists q. split; [by econstructor | done].
Qed.

Lemma advance_move p p' : token p ≠ TEnd → advance p = Ok p' → moves p [token p] p'.
Proof. intros. by econstructor; [.. | constructor]. Qed.

Lemma expect_punct_iff b reason p p' : expect_punct b reason p = Ok p' ↔ moves p [TPunct b] p'.
Proof.
  unfold expect_punct. case_bool_decide as E; cbn.
  - split; [intros H; rewrite <- E; apply advance_move; [by rewrite E | done] | intros H; inversion H as [|? ? ? ? ? ? ? A B]; subst; by inversion B; subst].
  - split; [done | intros H; inversion H; subst; by destruct E].
Qed.

Lemma expect_word_iff w p p' : expect_word w p = Ok p' ↔ moves p [TName (chars w)] p'.
Proof.
  unfold expect_word. case_bool_decide as E; cbn.
  - split; [intros H; rewrite <- E; apply advance_move; [by rewrite E | done] | intros H; inversion H as [|? ? ? ? ? ? ? A B]; subst; by inversion B; subst].
  - split; [done | intros H; inversion H; subst; by destruct E].
Qed.

Lemma out_bind_Ok o k p : out_bind o k = Some (Ok p) ↔ ∃ q, o = Some (Ok q) ∧ k q = Some (Ok p).
Proof. destruct o as [[q|e]|]; cbn; split; [intros H; by exists q | by intros (? & [= <-] & ?) | done | by intros (? & ? & _) | done | by intros (? & ? & _)]. Qed.

(** ** Everything admitted is in the grammar *)
Lemma key_not_end t : is_key t = true → t ≠ TEnd.
Proof. by destruct t. Qed.
Lemma atom_not_end t : is_atom t = true → t ≠ TEnd.
Proof. by intros H ->. Qed.
Lemma field_not_end t : is_field t = true → t ≠ TEnd.
Proof. by destruct t. Qed.
Lemma separator_not_end t : is_separator t = true → t ≠ TEnd.
Proof. by intros H ->. Qed.

Definition table_sound (tab : nat → Parser → Out) : Prop :=
  ∀ d p p', tab d p = Some (Ok p') → ∃ ts, moves p ts p' ∧ table_g d ts.

Lemma literal_sound tab d p p' : table_sound tab → literal tab d p = Some (Ok p') → ∃ ts, moves p ts p' ∧ value_g d ts.
Proof.
  intros Ht. unfold literal. case_bool_decide as E.
  - intros H. destruct (Ht _ _ _ H) as (ts & H1 & H2). exists ts. split; [done | by constructor].
  - destruct (is_atom (token p)) eqn:Ea; [|done]. intros [= H]. exists [token p]. split; [by apply advance_move; [apply atom_not_end|] | constructor; by apply atom_iff].
Qed.

Lemma entry_sound tab d p p' : table_sound tab → entry tab d p = Some (Ok p') → ∃ ts, moves p ts p' ∧ entry_g d ts.
Proof.
  intros Ht. unfold entry. case_bool_decide as E; [|destruct (is_field (token p)) eqn:Ef].
  - rewrite out_bind_Ok. intros (q & [= H1] & H). destruct (is_key (token q)) eqn:Ek; cbn [negb] in H; [|done].
    rewrite !out_bind_Ok in H. destruct H as (q2 & [= H2] & H). rewrite out_bind_Ok in H. destruct H as (q3 & [= H3] & H).
    rewrite out_bind_Ok in H. destruct H as (q4 & [= H4] & H). apply expect_punct_iff in H3, H4.
    destruct (literal_sound _ _ _ _ Ht H) as (v & Hv & Gv). exists (TPunct 91 :: token q :: TPunct 93 :: TPunct 61 :: v).
    split; [|constructor; [by apply key_iff | done]]. rewrite <- E. apply advance_move in H1; [|by rewrite E]. apply advance_move in H2; [|by apply key_not_end].
    exact (steps_app _ _ _ _ _ H1 (steps_app _ _ _ _ _ H2 (steps_app _ _ _ _ _ H3 (steps_app _ _ _ _ _ H4 Hv)))).
  - rewrite out_bind_Ok. intros (q & [= H1] & H). rewrite out_bind_Ok in H. destruct H as (q2 & [= H2] & H). apply expect_punct_iff in H2.
    destruct (literal_sound _ _ _ _ Ht H) as (v & Hv & Gv). exists (token p :: TPunct 61 :: v). split; [|constructor; [by apply field_iff | done]].
    apply advance_move in H1; [|by apply field_not_end]. exact (steps_app _ _ _ _ _ H1 (steps_app _ _ _ _ _ H2 Hv)).
  - intros H. destruct (literal_sound _ _ _ _ Ht H) as (v & Hv & Gv). exists v. split; [done | by constructor].
Qed.

Lemma parser_sound fuel : table_sound (table fuel) ∧
  ∀ d p p', entries fuel d p = Some (Ok p') → ∃ ts, moves p (ts ++ [TPunct 125]) p' ∧ entries_g d ts.
Proof.
  induction fuel as [|fuel [IHt IHe]]; [done|]. split.
  - intros d p p'. cbn [table]. destruct (Nat.ltb_spec MAX_DEPTH d) as [|Hd]; [done|]. rewrite out_bind_Ok. intros (q & [= H1] & H).
    apply expect_punct_iff in H1. destruct (IHe _ _ _ H) as (es & H2 & G). exists (TPunct 123 :: es ++ [TPunct 125]).
    split; [exact (steps_app _ _ _ _ _ H1 H2) | by constructor].
  - intros d p p'. cbn [entries]. case_bool_decide as E.
    { intros [= H]. exists []. split; [|constructor]. cbn. rewrite <- E. apply advance_move; [by rewrite E | done]. }
    rewrite out_bind_Ok. intros (q & He & H). destruct (entry_sound _ _ _ _ IHt He) as (e & H1 & G1).
    destruct (is_separator (token q)) eqn:Es.
    + rewrite out_bind_Ok in H. destruct H as (q2 & [= H2] & H). destruct (IHe _ _ _ H) as (es & H3 & G). exists (e ++ token q :: es).
      split; [|constructor; [done | by apply separator_iff | done]]. apply advance_move in H2; [|by apply separator_not_end].
      rewrite <- app_assoc. exact (steps_app _ _ _ _ _ H1 (steps_app _ _ _ _ _ H2 H3)).
    + case_bool_decide as Eb; [|done]. exists e. split; [|by constructor].
      destruct fuel as [|fuel]; [done|]. cbn [entries] in H. rewrite bool_decide_true in H by done. injection H as H.
      apply advance_move in H; [|by rewrite Eb]. rewrite Eb in H. by eapply steps_app.
Qed.

(** ** The fuel is enough *)

(** What is left to read, with the current token. *)
Definition to_read (p : Parser) : nat := match token p with TEnd => 0 | _ => S (length (text p) - position p) end.

Lemma count_while_pos f b rest : f b = true → (0 < count_while f (b :: rest))%nat.
Proof. intros H. cbn. rewrite H. lia. Qed.

Lemma number_pos rest n : number rest = Some n → (0 < n)%nat.
Proof.
  unfold number. set (sign := match rest with b :: _ => _ | [] => _ end). destruct (named_number _); [intros [= <-]; lia|].
  destruct (hexadecimal _) as [k|] eqn:Eh.
  - intros [= <-]. unfold hexadecimal in Eh. destruct (drop sign rest) as [|? [|? ?]]; try done. destruct (_ && _); [injection Eh; lia | done].
  - destruct (decimal _) as [k|] eqn:Ed; [|done]. intros [= <-]. unfold decimal in Ed. destruct (Nat.ltb_spec 0 (digits false (drop sign rest))) as [Hw|Hw].
    + injection Ed as <-. destruct (drop _ (drop sign rest)) as [|? ?]; [lia|]. destruct (_ =? _); lia.
    + destruct (drop sign rest); [done|]. destruct (_ && _); [injection Ed; lia | done].
Qed.

Lemma next_token_pos rest t n : next_token rest = Some (t, n) → t ≠ TEnd → (0 < n)%nat ∧ rest ≠ [].
Proof.
  unfold next_token. destruct rest as [|b more]; [by intros [= <- <-]|]. intros H _. split; [|done].
  destruct (_ || _); [destruct (string_end b more); [injection H; lia | done]|].
  destruct (is_punct b); [injection H; lia|]. destruct (number _) as [k|] eqn:En; [injection H as <- <-; by eapply number_pos|].
  destruct (is_ascii_alphabetic b || (b =? 95)) eqn:Ea; [|done]. injection H as <- <-. apply count_while_pos.
  unfold is_word. destruct (is_ascii_alphabetic b); [done|]. cbn in Ea. by rewrite Ea, orb_true_r.
Qed.

Lemma advance_text p p' : advance p = Ok p' → text p' = text p.
Proof. unfold advance. cbn. destruct (next_token _) as [[t n]|]; [by intros [= <-] | done]. Qed.

Lemma advance_less p p' : token p ≠ TEnd → advance p = Ok p' → (to_read p' < to_read p)%nat.
Proof.
  intros Hp. unfold advance. cbn. set (at_ := (position p + _)%nat). destruct (next_token _) as [[t n]|] eqn:E; [|done]. intros [= <-].
  unfold to_read. cbn. destruct (token p) eqn:Et; try done;
  (destruct (decide (t = TEnd)) as [->|Hne]; [lia|];
   destruct (next_token_pos _ _ _ E Hne) as [Hn Hr]; assert (at_ < length (text p))%nat;
   [destruct (Nat.lt_ge_cases at_ (length (text p))); [done | by rewrite drop_ge in Hr]|];
   destruct t; try done; lia).
Qed.

Lemma moves_less p ts p' : moves p ts p' → (to_read p' + length ts ≤ to_read p)%nat.
Proof. induction 1 as [|p p1 t ts p' E Hne H _ IH]; [cbn; lia|]. subst t. apply advance_less in H; [|done]. cbn. lia. Qed.

Lemma value_nonempty d ts : value_g d ts → (0 < length ts)%nat.
Proof. intros []; cbn; [lia|]. destruct H. cbn. lia. Qed.

Lemma entry_nonempty d ts : entry_g d ts → (0 < length ts)%nat.
Proof. intros []; cbn; try lia. by eapply value_nonempty. Qed.

Lemma out_bind_total o k : o ≠ None → (∀ q, o = Some (Ok q) → k q ≠ None) → out_bind o k ≠ None.
Proof. destruct o as [[q|e]|]; cbn; intros H Hk; [by apply Hk | done | done]. Qed.

Lemma punct_less b reason p q : expect_punct b reason p = Ok q → (to_read q < to_read p)%nat.
Proof. intros H%expect_punct_iff%moves_less. cbn in H. lia. Qed.

Lemma literal_total tab d p : (token p = TPunct 123 → tab (S d) p ≠ None) → literal tab d p ≠ None.
Proof. intros Ht. unfold literal. case_bool_decide; [by apply Ht | by destruct (is_atom _)]. Qed.

Lemma entry_total tab d p : (∀ q, (to_read q ≤ to_read p)%nat → tab (S d) q ≠ None) → entry tab d p ≠ None.
Proof.
  intros Ht. unfold entry. case_bool_decide as E; [|destruct (is_field (token p)) eqn:Ef].
  - apply out_bind_total; [done|]. intros q [= H1]. apply advance_less in H1; [|by rewrite E]. destruct (is_key (token q)) eqn:Ek; [|done]. cbn [negb].
    apply out_bind_total; [done|]. intros q2 [= H2]. apply advance_less in H2; [|by apply key_not_end].
    apply out_bind_total; [done|]. intros q3 [= H3]. apply punct_less in H3.
    apply out_bind_total; [done|]. intros q4 [= H4]. apply punct_less in H4. apply literal_total. intros _. apply Ht. lia.
  - apply out_bind_total; [done|]. intros q [= H1]. apply advance_less in H1; [|by apply field_not_end].
    apply out_bind_total; [done|]. intros q2 [= H2]. apply punct_less in H2. apply literal_total. intros _. apply Ht. lia.
  - apply literal_total. intros _. by apply Ht.
Qed.

Lemma parser_total fuel :
  (∀ d p, (2 * to_read p < fuel)%nat → table fuel d p ≠ None) ∧ (∀ d p, (2 * to_read p + 1 < fuel)%nat → entries fuel d p ≠ None).
Proof.
  induction fuel as [|fuel [IHt IHe]]; [split; intros; lia|]. split; intros d p Hf.
  - cbn [table]. destruct (_ <? _)%nat; [done|]. apply out_bind_total; [done|]. intros q [= H]. apply punct_less in H. apply IHe. lia.
  - cbn [entries]. case_bool_decide; [done|]. apply out_bind_total; [apply entry_total; intros q Hq; apply IHt; lia|].
    intros q Hq. destruct (entry_sound _ _ _ _ (proj1 (parser_sound fuel)) Hq) as (e & H1%moves_less & G1%entry_nonempty).
    destruct (is_separator (token q)) eqn:Es.
    + apply out_bind_total; [done|]. intros q2 [= H2]. apply advance_less in H2; [|by apply separator_not_end]. apply IHe. lia.
    + case_bool_decide; [apply IHe; lia | done].
Qed.

(** ** Everything in the grammar is admitted *)
Lemma moves_cons p t ts p' : moves p (t :: ts) p' → ∃ q, advance p = Ok q ∧ token p = t ∧ moves q ts p'.
Proof. inversion 1; subst. by eexists. Qed.

Lemma moves_punct p b reason ts p' : moves p (TPunct b :: ts) p' → ∃ q, expect_punct b reason p = Ok q ∧ moves q ts p'.
Proof. intros (q & H1 & E & H2)%moves_cons. exists q. unfold expect_punct. by rewrite bool_decide_true. Qed.

Lemma moves_word p w ts p' : moves p (TName (chars w) :: ts) p' → ∃ q, expect_word w p = Ok q ∧ moves q ts p'.
Proof. intros (q & H1 & E & H2)%moves_cons. exists q. unfold expect_word. by rewrite bool_decide_true. Qed.

Definition table_complete (tab : nat → Parser → Out) : Prop :=
  ∀ d p ts p', tab d p ≠ None → table_g d ts → moves p ts p' → tab d p = Some (Ok p').

Lemma moves_head p ts p' : moves p ts p' → (0 < length ts)%nat → token p = hd TEnd ts.
Proof. destruct 1; cbn; [lia | done]. Qed.

Lemma value_head d ts p p' : value_g d ts → moves p ts p' →
  (is_atom (token p) = true ∨ token p = TPunct 123) ∧ is_field (token p) = false ∧ token p ≠ TPunct 91 ∧ token p ≠ TPunct 125.
Proof.
  intros Hv Hm. pose proof (moves_head _ _ _ Hm (value_nonempty _ _ Hv)) as E.
  destruct Hv as [d t Ht%atom_iff|d ts0 [d' es _ _]]; cbn in E; rewrite E.
  - split; [by left|]. destruct t as [| |n|b|]; try done. split; [|done]. cbn. unfold is_atom in Ht. cbn in Ht.
    repeat (apply orb_true_iff in Ht as [Ht|Ht]); apply bool_decide_eq_true in Ht; try injection Ht as Ht; rewrite ?Ht; vm_compute; reflexivity.
  - split; [by right | done].
Qed.

Lemma literal_complete tab d p ts p' :
  table_complete tab → literal tab d p ≠ None → value_g d ts → moves p ts p' → literal tab d p = Some (Ok p').
Proof.
  intros Ht. unfold literal. intros Hn Hv Hm. destruct Hv as [d t Ha%atom_iff|d ts Hts].
  - apply moves_cons in Hm as (q & H1 & E & H2). inversion H2; subst. rewrite bool_decide_false by (intros E; by rewrite E in Ha). by rewrite Ha, H1.
  - assert (E : token p = TPunct 123) by (destruct Hts; by apply moves_cons in Hm as (? & _ & ? & _)).
    rewrite bool_decide_true in * by done. by eapply Ht.
Qed.

Lemma entry_complete tab d p ts p' :
  table_complete tab → entry tab d p ≠ None → entry_g d ts → moves p ts p' → entry tab d p = Some (Ok p').
Proof.
  intros Ht. unfold entry. intros Hn He Hm. destruct He as [d v Hv|d k v Hk%key_iff Hv|d n v Hf%field_iff Hv].
  - destruct (value_head _ _ _ _ Hv Hm) as (_ & Hf & Hb & _). rewrite bool_decide_false, Hf in * by done. by eapply literal_complete.
  - apply moves_cons in Hm as (q & H1 & E & Hm). rewrite bool_decide_true, H1 in * by done. cbn [out_bind] in *.
    apply moves_cons in Hm as (q2 & H2 & E2 & Hm). rewrite E2, Hk, H2 in *. cbn [negb out_bind] in *.
    apply (moves_punct _ _ "expected ]") in Hm as (q3 & H3 & Hm). rewrite H3 in *. cbn [out_bind] in *.
    apply (moves_punct _ _ "expected =") in Hm as (q4 & H4 & Hm). rewrite H4 in *. cbn [out_bind] in *. by eapply literal_complete.
  - apply moves_cons in Hm as (q & H1 & E & Hm). rewrite E, Hf, H1 in *. rewrite bool_decide_false in * by (intros ->; by cbn in Hf). cbn [out_bind] in *.
    apply (moves_punct _ _ "expected =") in Hm as (q2 & H2 & Hm). rewrite H2 in *. cbn [out_bind] in *. by eapply literal_complete.
Qed.

Lemma entry_head d ts p p' : entry_g d ts → moves p ts p' → token p ≠ TPunct 125.
Proof.
  intros He Hm. destruct He as [d v Hv|d k v Hk Hv|d n v Hf%field_iff Hv]; [by eapply value_head|..];
    apply moves_cons in Hm as (? & _ & E & _); rewrite E; [done | by intros ->].
Qed.

Lemma parser_complete fuel : table_complete (table fuel) ∧
  ∀ d p ts p', entries fuel d p ≠ None → entries_g d ts → moves p (ts ++ [TPunct 125]) p' → entries fuel d p = Some (Ok p').
Proof.
  induction fuel as [|fuel [IHt IHe]]; [split; intros ? ? ? ? Hn; by destruct Hn|]. split.
  - intros d p ts p' Hn Ht Hm. destruct Ht as [d es Hd He]. cbn [table] in *. rewrite (proj2 (Nat.ltb_ge MAX_DEPTH d) Hd) in *.
    apply (moves_punct _ _ "expected a table") in Hm as (q & H1 & Hm). rewrite H1 in *. cbn [out_bind] in *. eapply IHe; [exact Hn | exact He | exact Hm].
  - intros d p ts p' Hn He Hm. cbn [entries] in *.
    assert (Hentry : ∀ e rest, entry_g d e → moves p (e ++ rest) p' →
      ∃ q, bool_decide (token p = TPunct 125) = false ∧ entry (table fuel) d p = Some (Ok q) ∧ moves q rest p').
    { intros e rest Ge (q & H1 & H2)%steps_app_inv. pose proof (entry_head _ _ _ _ Ge H1) as Hh. exists q.
      rewrite bool_decide_false in * by done. split; [done|]. split; [|done]. eapply entry_complete; [exact IHt | | exact Ge | exact H1].
      intros E. by rewrite E in Hn. }
    destruct He as [d|d e Ge|d e s es Ge Hs%separator_iff Ges].
    + apply moves_cons in Hm as (q & H1 & E & H2). inversion H2; subst. by rewrite bool_decide_true, H1.
    + destruct (Hentry _ _ Ge Hm) as (q & E1 & E2 & Hq). rewrite E1, E2 in *. cbn [out_bind] in *.
      pose proof (moves_cons _ _ _ _ Hq) as (q' & H1 & E & H2). rewrite E in *. cbn [is_separator] in *.
      change (is_separator (TPunct 125)) with false in *. rewrite bool_decide_true in * by done.
      apply (IHe d q []); [done | constructor | exact Hq].
    + rewrite <- app_assoc in Hm. destruct (Hentry _ _ Ge Hm) as (q & E1 & E2 & Hq). rewrite E1, E2 in *. cbn [out_bind] in *.
      cbn [app] in Hq. apply moves_cons in Hq as (q2 & H1 & E & Hq). rewrite E, Hs, H1 in *. cbn [out_bind] in *. by eapply IHe.
Qed.

(** * The whole text *)
Lemma to_read_bound p : (to_read p ≤ S (length (text p)))%nat.
Proof. unfold to_read. destruct (token p); lia. Qed.

Lemma moves_text p ts p' : moves p ts p' → text p' = text p.
Proof. induction 1 as [|p p1 t ts p' _ _ H _ IH]; [done|]. apply advance_text in H. congruence. Qed.

Lemma table_enough p q ts d : moves p ts q → table (2 * length (text p) + 4) d q ≠ None.
Proof. intros H%moves_text. apply parser_total. pose proof (to_read_bound q). rewrite H in *. lia. Qed.

Lemma out_ok o : match o with Some (Ok _) => Some (Ok tt) | Some (Err e) => Some (Err e) | None => None end = Some (Ok tt : result unit LuaDataError) ↔
  ∃ p : Parser, o = Some (Ok p).
Proof. destruct o as [[p|e]|]; (split; [intros H | intros [q H]]); try discriminate; [by exists p | done]. Qed.

Lemma parse_total p : parse p ≠ None.
Proof.
  unfold parse. cbv zeta. match goal with |- match ?o with _ => _ end ≠ None => assert (o ≠ None) as H; [|by destruct o as [[]|]] end.
  do 5 (apply out_bind_total; [done|]; intros ? [= ?]).
  apply out_bind_total.
  - eapply (table_enough p). repeat match goal with H : expect_word _ _ = Ok _ |- _ => apply expect_word_iff in H | H : expect_punct _ _ _ = Ok _ |- _ => apply expect_punct_iff in H end.
    repeat (eapply steps_app; [eassumption|]). constructor.
  - intros ? _. apply out_bind_total; [done|]. intros ? _. apply out_bind_total; [by case_bool_decide|]. intros ? _. by case_bool_decide.
Qed.

Lemma parse_iff p : parse p = Some (Ok tt) ↔ ∃ ts e, moves p ts e ∧ token e = TEnd ∧ document ts.
Proof.
  unfold parse. cbv zeta. rewrite out_ok. split.
  - intros [e H]. repeat (apply out_bind_Ok in H as (? & ?H & H)).
    repeat match goal with H : Some _ = Some _ |- _ => injection H as H end.
    repeat match goal with H : expect_word _ _ = Ok _ |- _ => apply expect_word_iff in H | H : expect_punct _ _ _ = Ok _ |- _ => apply expect_punct_iff in H end.
    match goal with H : table _ _ _ = Some _ |- _ => apply (proj1 (parser_sound _)) in H as (tab & Htab & Gtab) end.
    assert (Hall : moves p (opening ++ tab ++ [TName (chars "end")]) x5).
    { eapply (steps_app _ opening); [|by eapply steps_app].
      exact (steps_app _ _ _ _ _ H0 (steps_app _ _ _ _ _ H1 (steps_app _ _ _ _ _ H2 (steps_app _ _ _ _ _ H3 H4)))). }
    destruct (bool_decide_reflect (token x6 = TEnd)) as [Ee|]; [|done]. injection H as <-.
    destruct (bool_decide_reflect (token x5 = TPunct 59)) as [Es|]; injection H7 as H7.
    + exists (opening ++ tab ++ [TName (chars "end"); TPunct 59]), x6. split; [|split; [done | exists tab; split; [done | by right]]].
      apply advance_move in H7; [|by rewrite Es]. rewrite Es in H7. pose proof (steps_app _ _ _ _ _ Hall H7) as Hx. by rewrite <- !app_assoc in Hx.
    + subst x6. exists (opening ++ tab ++ [TName (chars "end")]), x5. split; [done|]. split; [done|]. exists tab. split; [done | by left].
  - intros (ts & e & Hm & Ee & tab & Gtab & Hts).
    assert (∃ tail, moves p (opening ++ tab ++ TName (chars "end") :: tail) e ∧ (tail = [] ∨ tail = [TPunct 59])) as (tail & Hall & Htail)
      by (destruct Hts as [-> | ->]; eexists; (split; [exact Hm|]); [by left | by right]).
    apply steps_app_inv in Hall as (q & Hopen & Hall). apply steps_app_inv in Hall as (q6 & Htab & Hend).
    pose proof (table_enough p q opening 0 Hopen) as Hfuel.
    apply moves_word in Hopen as (q1 & H1 & Hopen). rewrite H1. cbn [out_bind].
    apply moves_word in Hopen as (q2 & H2 & Hopen). rewrite H2. cbn [out_bind].
    apply (moves_punct _ _ "expected the saved data function") in Hopen as (q3 & H3 & Hopen). rewrite H3. cbn [out_bind].
    apply (moves_punct _ _ "expected the saved data function") in Hopen as (q4 & H4 & Hopen). rewrite H4. cbn [out_bind].
    apply moves_word in Hopen as (q5 & H5 & Hopen). rewrite H5. cbn [out_bind]. inversion Hopen; subst q5.
    rewrite (proj1 (parser_complete _) _ _ _ _ Hfuel Gtab Htab). cbn [out_bind].
    apply moves_word in Hend as (q7 & H7 & Hend). rewrite H7. cbn [out_bind]. destruct Htail as [-> | ->].
    + inversion Hend; subst q7. rewrite bool_decide_false by (by rewrite Ee). cbn [out_bind]. rewrite bool_decide_true by done. by eexists.
    + apply moves_cons in Hend as (q8 & H8 & E8 & Hend). inversion Hend; subst. rewrite bool_decide_true, H8 by done. cbn [out_bind].
      rewrite bool_decide_true by done. by eexists.
Qed.


(** * What the text is

    The grammar, on bytes: a token is a string, a number, a name or a sign, and before
    and between them, and at the end, is white space and are comments, each to the end
    of its line. *)
Definition spaces : list Z := [32; 9; 10; 11; 12; 13].
Definition line_ends : list Z := [10; 13].
Definition digit (b : Z) : Prop := 48 ≤ b ≤ 57.
Definition hexdigit (b : Z) : Prop := 48 ≤ b ≤ 57 ∨ 65 ≤ b ≤ 70 ∨ 97 ≤ b ≤ 102.
Definition letter (b : Z) : Prop := 65 ≤ b ≤ 90 ∨ 97 ≤ b ≤ 122 ∨ b = 95.
Definition word_byte (b : Z) : Prop := letter b ∨ digit b.

Inductive blank_text : list Z → Prop :=
  | blank_none : blank_text []
  | blank_space b w : b ∈ spaces → blank_text w → blank_text (b :: w)
  | blank_comment body e w : Forall (.∉ line_ends) body → e ∈ line_ends → blank_text w → blank_text ([45; 45] ++ body ++ e :: w).

(** Inside a string: a backslash is of the byte behind it, or of the line end. *)
Inductive string_text (quote : Z) : list Z → Prop :=
  | string_none : string_text quote []
  | string_byte b body : b ≠ quote → b ≠ 92 → b ∉ line_ends → string_text quote body → string_text quote (b :: body)
  | string_escape c body : string_text quote body → string_text quote (92 :: c :: body)
  | string_line body : string_text quote body → string_text quote (92 :: 13 :: 10 :: body).

Definition mantissa_text (s : list Z) : Prop :=
  (∃ whole, whole ≠ [] ∧ Forall digit whole ∧ (s = whole ∨ ∃ fraction, Forall digit fraction ∧ s = whole ++ 46 :: fraction)) ∨
  ∃ fraction, fraction ≠ [] ∧ Forall digit fraction ∧ s = 46 :: fraction.

Definition exponent_text (s : list Z) : Prop :=
  s = [] ∨ ∃ e sign ds, s = e :: sign ++ ds ∧ (e = 101 ∨ e = 69) ∧ (sign = [] ∨ sign = [43] ∨ sign = [45]) ∧ ds ≠ [] ∧ Forall digit ds.

Definition unsigned_text (s : list Z) : Prop :=
  s = chars "inf" ∨ s = chars "nan" ∨
  (∃ x ds, s = 48 :: x :: ds ∧ (x = 120 ∨ x = 88) ∧ ds ≠ [] ∧ Forall hexdigit ds) ∨
  ∃ mantissa exponent, s = mantissa ++ exponent ∧ mantissa_text mantissa ∧ exponent_text exponent.

(** The text of a token. *)
Definition token_text (t : Token) (s : list Z) : Prop :=
  match t with
  | TString => ∃ quote body, (quote = 34 ∨ quote = 39) ∧ s = quote :: body ++ [quote] ∧ string_text quote body
  | TNumber => ∃ sign number, (sign = [] ∨ sign = [45]) ∧ s = sign ++ number ∧ unsigned_text number
  | TName name => s = name ∧ Forall word_byte name ∧ ∃ b more, name = b :: more ∧ letter b
  | TPunct b => s = [b] ∧ b ∈ chars "{}[](),;="
  | TEnd => False
  end.

(** A name is a whole word. *)
Definition whole_word (t : Token) (rest : list Z) : Prop :=
  match t, rest with TName _, b :: _ => ¬ word_byte b | _, _ => True end.

Inductive written : list Z → list Token → Prop :=
  | written_end w : blank_text w → written w []
  | written_comment w body : blank_text w → Forall (.∉ line_ends) body → written (w ++ [45; 45] ++ body) []
  | written_token w t s rest ts : blank_text w → token_text t s → whole_word t rest → written rest ts → written (w ++ s ++ rest) (t :: ts).

(** ** The lexer reads nothing else *)
Lemma within_iff low high b : within low high b = true ↔ low ≤ b ≤ high.
Proof. unfold within. lia. Qed.
Lemma digit_iff b : is_ascii_digit b = true ↔ digit b.
Proof. apply within_iff. Qed.
Lemma hexdigit_iff b : is_ascii_hexdigit b = true ↔ hexdigit b.
Proof. unfold is_ascii_hexdigit, is_ascii_digit, hexdigit. rewrite !orb_true_iff, !within_iff. tauto. Qed.
Lemma word_iff b : is_word b = true ↔ word_byte b.
Proof. unfold is_word, is_ascii_alphabetic, is_ascii_digit, word_byte, letter, digit. rewrite !orb_true_iff, !within_iff, Z.eqb_eq. tauto. Qed.
Lemma letter_iff b : is_ascii_alphabetic b || (b =? 95) = true ↔ letter b.
Proof. unfold is_ascii_alphabetic, letter. rewrite !orb_true_iff, !within_iff, Z.eqb_eq. tauto. Qed.
Lemma space_iff b : is_space b = true ↔ b ∈ spaces.
Proof. unfold is_space, spaces. rewrite orb_true_iff, within_iff, Z.eqb_eq, !elem_of_cons, elem_of_nil. lia. Qed.
Lemma line_end_iff b : ends_line b = true ↔ b ∈ line_ends.
Proof. unfold ends_line, line_ends. rewrite orb_true_iff, !Z.eqb_eq, !elem_of_cons, elem_of_nil. lia. Qed.

(** What is skipped: blank text, or blank text and a comment to the end of the text. *)
Definition skipped (n : nat) (rest : list Z) : Prop :=
  (∃ w, rest = w ++ drop n rest ∧ blank_text w) ∨
  (drop n rest = [] ∧ ∃ w body, rest = w ++ [45; 45] ++ body ∧ blank_text w ∧ Forall (.∉ line_ends) body).

(** The same from within a comment. *)
Definition skipped_comment (n : nat) (rest : list Z) : Prop :=
  (∃ body e w, rest = body ++ e :: w ++ drop n rest ∧ Forall (.∉ line_ends) body ∧ e ∈ line_ends ∧ blank_text w) ∨
  (drop n rest = [] ∧ (Forall (.∉ line_ends) rest ∨ ∃ body e w body', rest = body ++ e :: w ++ [45; 45] ++ body' ∧
    Forall (.∉ line_ends) body ∧ e ∈ line_ends ∧ blank_text w ∧ Forall (.∉ line_ends) body')).

Lemma blank_skips rest : skipped (blank false rest) rest ∧ skipped_comment (blank true rest) rest.
Proof.
  induction rest as [|b rest [IH1 IH2]].
  { split; [left; exists []; split; [done | constructor] | right; split; [done | left; constructor]]. }
  cbn [blank]. split.
  - destruct (is_space b) eqn:Es; [|destruct ((b =? 45) && bool_decide (head rest = Some 45)) eqn:Ec].
    + apply space_iff in Es. destruct IH1 as [(w & Hw & Hb) | (Hd & w & body & Hw & Hb & Hbody)].
      * left. exists (b :: w). cbn [drop app]. split; [by f_equal | by constructor].
      * right. cbn [drop]. split; [done|]. exists (b :: w), body. split; [cbn [app]; by f_equal | split; [by constructor | done]].
    + apply andb_true_iff in Ec as [->%Z.eqb_eq Eh%bool_decide_eq_true]. destruct rest as [|c rest]; [done|]. injection Eh as ->.
      cbn [drop]. unfold skipped_comment in IH2.
      destruct IH2 as [(body & e & w & Hr & Hbody & He & Hw) | (Hd & [Hbody | (body & e & w & body' & Hr & Hbody & He & Hw & Hbody')])].
      * destruct body as [|c body]; injection Hr as E Hr; [subst e; by apply elem_of_cons in He as [? | [? | []%elem_of_nil]%elem_of_cons] |].
        subst c. left. exists ([45; 45] ++ body ++ e :: w). apply Forall_cons in Hbody as [_ Hbody]. split; [|by constructor].
        cbn [app]. do 2 f_equal. rewrite <- app_assoc. exact Hr.
      * right. split; [done|]. apply Forall_cons in Hbody as [_ Hbody]. exists [], rest. split; [done|]. split; [constructor | done].
      * destruct body as [|c body]; injection Hr as E Hr; [subst e; by apply elem_of_cons in He as [? | [? | []%elem_of_nil]%elem_of_cons] |].
        subst c. right. split; [done|]. apply Forall_cons in Hbody as [_ Hbody]. exists ([45; 45] ++ body ++ e :: w), body'.
        split; [|by split; [constructor |]]. cbn [app]. do 2 f_equal. rewrite <- app_assoc. exact Hr.
    + left. exists []. split; [done | constructor].
  - cbn [drop]. destruct (ends_line b) eqn:Ee; cbn [negb].
    + apply line_end_iff in Ee. destruct IH1 as [(w & Hw & Hb) | (Hd & w & body & Hw & Hb & Hbody)].
      * left. exists [], b, w. cbn [app drop]. split; [by f_equal|]. by split; [constructor |].
      * right. split; [done|]. right. exists [], b, w, body. split; [by rewrite Hw at 1|]. by split; [constructor |].
    + assert (b ∉ line_ends) as Hb by (rewrite <- line_end_iff, Ee; done).
      destruct IH2 as [(body & e & w & Hr & Hbody & He & Hw) | (Hd & [Hbody | (body & e & w & body' & Hr & Hbody & He & Hw & Hbody')])].
      * left. exists (b :: body), e, w. cbn [app drop]. split; [by f_equal | by split; [constructor |]].
      * right. split; [done|]. left. by constructor.
      * right. split; [done|]. right. exists (b :: body), e, w, body'. cbn [app]. split; [by f_equal | by split; [constructor |]].
Qed.

Lemma count_while_take f rest : Forall (λ b, f b = true) (take (count_while f rest) rest).
Proof. induction rest as [|b rest IH]; cbn; [constructor|]. destruct (f b) eqn:E; cbn; by constructor. Qed.

Lemma count_while_stops f rest b more : drop (count_while f rest) rest = b :: more → f b = false.
Proof. induction rest as [|c rest IH]; cbn; [done|]. destruct (f c) eqn:E; cbn; [done | by intros [= <- _]]. Qed.

Lemma count_while_length f rest : (count_while f rest ≤ length rest)%nat.
Proof. induction rest as [|b rest IH]; cbn; [done|]. destruct (f b); lia. Qed.

Lemma digits_take hex rest : (count_while (if hex : bool then is_ascii_hexdigit else is_ascii_digit) rest ≤ length rest)%nat ∧
  Forall (if hex then hexdigit else digit) (take (digits hex rest) rest).
Proof.
  split; [apply count_while_length|]. unfold digits. destruct hex; (eapply Forall_impl; [apply count_while_take|]);
    intros b; [apply hexdigit_iff | apply digit_iff].
Qed.

Lemma digits_nonempty hex rest : (0 < digits hex rest)%nat → take (digits hex rest) rest ≠ [].
Proof. intros H E%(f_equal length). rewrite length_take in E. pose proof (proj1 (digits_take hex rest)). unfold digits in *. cbn in E. lia. Qed.

Lemma exponent_take rest : exponent_text (take (exponent rest) rest).
Proof.
  unfold exponent. destruct rest as [|e rest]; [by left|]. destruct ((e =? 101) || (e =? 69)) eqn:Ee; [|by left].
  set (sign := match rest with s :: _ => _ | [] => _ end).
  destruct (Nat.ltb_spec 0 (digits false (drop sign rest))) as [Hd|]; [|by left].
  assert ((sign = 0)%nat ∨ ∃ s more, rest = s :: more ∧ (s = 43 ∨ s = 45) ∧ (sign = 1)%nat) as Hsign.
  { unfold sign. destruct rest as [|s more]; [by left|]. destruct ((s =? 43) || (s =? 45)) eqn:E; [|by left]. right. exists s, more. split; [done|]. split; [lia | done]. }
  clearbody sign.
  right. exists e, (take sign rest), (take (digits false (drop sign rest)) (drop sign rest)).
  split; [cbn [take Nat.add]; f_equal; by rewrite take_take_drop|]. split; [lia|]. split; [|split; [by apply digits_nonempty | apply (digits_take false)]].
  destruct Hsign as [-> | (s & more & -> & [-> | ->] & ->)]; cbn; rewrite ?take_0; auto.
Qed.

Lemma decimal_take rest n : decimal rest = Some n → mantissa_text (take n rest).
Proof.
  unfold decimal. destruct (Nat.ltb_spec 0 (digits false rest)) as [Hw|_].
  - intros [= <-]. left. exists (take (digits false rest) rest). split; [by apply digits_nonempty|]. split; [apply (digits_take false)|].
    destruct (drop (digits false rest) rest) as [|d more] eqn:Ed; [by left|]. destruct (Z.eqb_spec d 46) as [->|]; [|by left].
    right. exists (take (digits false more) more). split; [apply (digits_take false)|].
    by rewrite <- Nat.add_assoc, <- take_take_drop, Ed.
  - destruct rest as [|d more]; [done|]. destruct (Z.eqb_spec d 46) as [->|]; cbn [andb]; [|done].
    destruct (Nat.ltb_spec 0 (digits false more)) as [Hm|]; [|done]. intros [= <-]. right. exists (take (digits false more) more).
    split; [by apply digits_nonempty|]. split; [apply (digits_take false) | done].
Qed.

Lemma hexadecimal_take rest n : hexadecimal rest = Some n → unsigned_text (take n rest).
Proof.
  unfold hexadecimal. destruct rest as [|z [|x more]]; [done..|]. destruct (Z.eqb_spec z 48) as [->|]; cbn [andb]; [|done].
  destruct ((x =? 120) || (x =? 88)) eqn:Ex; cbn [andb]; [|done]. destruct (Nat.ltb_spec 0 (digits true more)); [|done]. intros [= <-].
  right. right. left. exists x, (take (digits true more) more). split; [done|]. split; [lia|]. split; [by apply digits_nonempty | apply (digits_take true)].
Qed.

Lemma number_written rest n : number rest = Some n → token_text TNumber (take n rest).
Proof.
  unfold number. set (sign := match rest with b :: _ => _ | [] => _ end). intros H.
  assert (take sign rest = [] ∨ take sign rest = [45]) as Hsign.
  { unfold sign. destruct rest as [|b rest]; [by left|]. destruct (Z.eqb_spec b 45) as [->|]; [by right | by left]. }
  clearbody sign. assert (∃ k, n = (sign + k)%nat ∧ unsigned_text (take k (drop sign rest))) as (k & -> & Hk).
  { destruct (named_number (drop sign rest)) eqn:En; [|destruct (hexadecimal (drop sign rest)) as [k|] eqn:Eh;
      [|destruct (decimal (drop sign rest)) as [k|] eqn:Ed; [|done]]]; injection H as <-; eexists; (split; [try rewrite <- Nat.add_assoc; reflexivity|]).
    - unfold named_number in En. cbn [existsb] in En. rewrite orb_false_r in En.
      apply orb_true_iff in En as [En|En]; apply andb_true_iff in En as [En%bool_decide_eq_true _]; cbn [length chars] in En; [by left | right; by left].
    - by apply hexadecimal_take.
    - right. right. right. exists (take k (drop sign rest)), (take (exponent (drop k (drop sign rest))) (drop k (drop sign rest))).
      rewrite take_take_drop. split; [done|]. split; [by apply decimal_take | apply exponent_take]. }
  exists (take sign rest), (take k (drop sign rest)). split; [done|]. by rewrite take_take_drop.
Qed.

Lemma string_end_take quote rest n : string_end quote rest = Some n → ∃ body, take n rest = body ++ [quote] ∧ string_text quote body.
Proof.
  remember (length rest) as m eqn:Hm. revert rest n Hm. induction m as [m IH] using lt_wf_ind. intros [|b rest] n ->; [done|]. cbn [string_end].
  destruct (Z.eqb_spec b quote) as [->|Hq]; [intros [= <-]; exists []; split; [done | constructor]|].
  destruct (Z.eqb_spec b 92) as [->|Hb].
  - destruct rest as [|c [|d rest]]; [done..|]. destruct ((c =? 13) && (d =? 10)) eqn:Ecd.
    + assert (c = 13 ∧ d = 10) as [-> ->] by lia. intros (k & Hk & ->)%fmap_Some.
      destruct (IH (length rest) ltac:(cbn; lia) rest k eq_refl Hk) as (body & E & Hs). exists (92 :: 13 :: 10 :: body).
      cbn [take Nat.add app]. rewrite E. split; [done | by apply string_line].
    + intros (k & Hk & ->)%fmap_Some. destruct (IH (length (d :: rest)) ltac:(cbn; lia) (d :: rest) k eq_refl Hk) as (body & E & Hs).
      exists (92 :: c :: body). cbn [take Nat.add app]. rewrite E. split; [done | by apply string_escape].
  - destruct (ends_line b) eqn:Ee; [done|]. intros (k & Hk & ->)%fmap_Some.
    destruct (IH (length rest) ltac:(cbn; lia) rest k eq_refl Hk) as (body & E & Hs). exists (b :: body). cbn [take app]. rewrite E.
    split; [done|]. apply string_byte; [done | done | | done]. by rewrite <- line_end_iff, Ee.
Qed.

Lemma next_token_take rest t n : next_token rest = Some (t, n) →
  if decide (t = TEnd) then rest = [] else token_text t (take n rest) ∧ whole_word t (drop n rest).
Proof.
  unfold next_token. destruct rest as [|b more]; [by intros [= <- <-]|]. intros H.
  assert (t ≠ TEnd ∧ token_text t (take n (b :: more)) ∧ whole_word t (drop n (b :: more))) as [Hne Ht]; [|by rewrite decide_False].
  destruct ((b =? 34) || (b =? 39)) eqn:Eq.
  { apply fmap_Some in H as (k & Hk & [= -> ->]). split; [done|]. split; [|done]. apply string_end_take in Hk as (body & E & Hs).
    exists b, body. cbn [take]. rewrite E. split; [lia|]. by split. }
  destruct (is_punct b) eqn:Ep; [injection H as <- <-; apply bool_decide_eq_true in Ep; done|].
  destruct (number (b :: more)) as [k|] eqn:En; [injection H as <- <-; split; [done|]; split; [by apply number_written | done]|].
  destruct (is_ascii_alphabetic b || (b =? 95)) eqn:El; [|done]. apply letter_iff in El. remember (b :: more) as rest eqn:Er.
  injection H as <- <-. split; [done|]. split.
  - split; [done|]. split; [eapply Forall_impl; [apply count_while_take|]; intros x; apply word_iff|].
    exists b, (take (count_while is_word more) more). split; [|done]. rewrite Er. cbn [count_while].
    by rewrite (proj2 (word_iff b)) by (by left).
  - unfold whole_word. destruct (drop _ rest) as [|c rest'] eqn:Ed; [done|]. apply count_while_stops in Ed. by rewrite <- word_iff, Ed.
Qed.

Lemma token_nonempty t s : token_text t s → s ≠ [].
Proof.
  destruct t as [| |name|b|]; cbn; [by intros (q & body & _ & -> & _) | | by intros (-> & _ & b & more & -> & _) | by intros [-> _] | done].
  intros (sign & number & _ & -> & Hn) [_ E]%app_nil. subst number.
  destruct Hn as [?|[?|[(x & ds & ? & _)|(mantissa & exponent & [-> _]%symmetry%app_nil & Hm & _)]]]; try done.
  destruct Hm as [(whole & Hne & _ & [? | (f & _ & E)])|(f & _ & _ & ?)]; [by subst | by destruct whole | done].
Qed.

Lemma moves_written ts p0 p e : advance p0 = Ok p → moves p ts e → token e = TEnd → written (drop (position p0) (text p0)) ts.
Proof.
  revert p0 p. induction ts as [|t ts IH]; intros p0 p Ha Hm He; unfold advance in Ha; cbn in Ha;
    set (rest := drop (position p0) (text p0)) in *; pose proof (proj1 (blank_skips rest)) as Hs; unfold skipped in Hs; set (n := blank false rest) in *;
    assert (drop (position p0 + n) (text p0) = drop n rest) as Ed by (unfold rest; by rewrite drop_drop);
    rewrite Ed in Ha; destruct (next_token (drop n rest)) as [[t' k]|] eqn:En; try done; injection Ha as <-;
    apply next_token_take in En.
  - inversion Hm; subst e. cbn in He. subst t'. cbn in En. rewrite En in Hs. destruct Hs as [(w & Hw & Hb) | (_ & w & body & Hw & Hb & Hbody)].
    + rewrite app_nil_r in Hw. rewrite Hw. by constructor.
    + rewrite Hw. by constructor.
  - assert (t ≠ TEnd) as Hne by (by inversion Hm). apply moves_cons in Hm as (q & Hq & Et & Hm). cbn in Et. subst t'. rewrite decide_False in En by done. destruct En as [Ht Hw].
    apply (IH _ q) in Hq; [|done | done]. cbn in Hq. rewrite <- Nat.add_assoc, <- drop_drop in Hq. fold rest in Hq. rewrite <- drop_drop in Hq.
    destruct Hs as [(w & Hrest & Hb) | (Hd & _)].
    + rewrite Hrest, <- (take_drop k (drop n rest)). by constructor.
    + rewrite Hd, take_nil in Ht. by apply token_nonempty in Ht.
Qed.

(** C31: The check admits tables of literals, as far as its lexer's comments go.  It
    always answers.  It admits a text if and only if it is at most 32 MiB, is UTF-8 but
    for a byte order mark, and its tokens, as the lexer reads them, are those of a
    function [data] that returns one table: fields and values that are strings, numbers,
    booleans, [nil] and tables of the same, nested at most 128 deep.  And every text
    that is admitted is one in a grammar of bytes that does not mention the lexer: those
    tokens' texts one after the other, with nothing before, between and behind them but
    white space and comments.  A comment is two dashes and the rest of their line: so
    text that Lua would read behind a long comment's closing bracket, on the same line,
    is admitted with the comment. *)
Theorem admits_only_data (bytes : list Z) :
  let content := if starts_with BOM bytes then drop 3 bytes else bytes in
  (∃ r, check_lua_data bytes = Some r) ∧
  (check_lua_data bytes = Some (Ok tt) ↔
   Z.of_nat (length bytes) ≤ 2 ^ 25 ∧ from_utf8 content = true ∧ ∃ ts, reads content ts ∧ document ts) ∧
  (check_lua_data bytes = Some (Ok tt) → ∃ ts, written content ts ∧ document ts).
Proof.
  cbv zeta. unfold check_lua_data, reads. set (content := if starts_with BOM bytes then drop 3 bytes else bytes).
  change MAX_LUA_DATA with (2 ^ 25). destruct (Z.ltb_spec (2 ^ 25) (Z.of_nat (length bytes))) as [Hl|Hl].
  { split; [by eexists|]. split; [split; [done | lia] | done]. }
  destruct (from_utf8 content); cbn [negb]; [|split; [by eexists | split; [by split; [|intros (_ & ? & _)] | done]]].
  destruct (Parser_new content) as [p|e] eqn:Ep; [|split; [by eexists | split; [split; [done | by intros (_ & _ & ? & (? & ? & ? & _) & _)] | done]]].
  split; [pose proof (parse_total p); destruct (parse p); [by eexists | done]|]. rewrite parse_iff. split; [split|].
  - intros (ts & e & H1 & H2 & H3). split; [done|]. split; [done|]. exists ts. split; [|done]. by exists p, e.
  - intros (_ & _ & ts & (p' & e & [= <-] & H1 & H2) & H3). by exists ts, e.
  - intros (ts & e & H1 & H2 & H3). exists ts. split; [|done]. exact (moves_written ts _ p e Ep H1 H2).
Qed.

Lemma admits_only_data_witness :
  let bytes := BOM ++ chars "function data() return { x=-2, [true]={1.5e-3; 'a'} } end -- kept" in
  ∃ ts, written (drop 3 bytes) ts ∧ document ts.
Proof. intros bytes. apply (proj2 (proj2 (admits_only_data bytes))). vm_compute. reflexivity. Defined.

(** What follows a long comment's closing bracket is taken for the comment. *)
Example long_comment_admitted : check_lua_data (chars "function data() return {} end --[[]] evil()") = Some (Ok tt).
Proof. vm_compute. reflexivity. Qed.
