(* ===== verification/Admission.v ===== *)
(** What one address may hold ([crates/tpf3mp-server/src/admission.rs]): handshakes
    in progress, sessions, open rooms and tunnels.

    The code counts with guards: a value that counts while it lives and stops
    counting when it is dropped.  A [Gatehouse] is the admission state with the guards
    that are alive; [gate_step] is one call, or one guard dropped, each under the
    lock. *)
From S2P Require Import Prelude.
From stdpp Require Import countable.
Local Open Scope Z_scope.

Record Limits := MkLimits {
  max_handshakes : Z;
  handshakes_per_address : Z;
  sessions_per_address : Z;
  rooms_per_address : Z;
  tunnels_per_address : Z;
}.

(** * Where a connection comes from *)
Inductive IpAddr := IpV4 (bits : Z) | IpV6 (bits : Z).
Inductive Origin := V4 (bits : Z) | V6 (prefix : Z).

#[export] Instance Origin_eq_dec : EqDecision Origin.
Proof. solve_decision. Defined.
#[export] Instance Origin_countable : Countable Origin.
Proof.
  refine (inj_countable' (λ o, match o with V4 b => inl b | V6 p => inr p end)
                         (λ x, match x with inl b => V4 b | inr p => V6 p end) _).
  by intros [].
Defined.

(** [Ipv6Addr::to_ipv4_mapped]: [::ffff:a.b.c.d]. *)
Definition to_ipv4_mapped (v6 : Z) : option Z :=
  if Z.shiftr v6 32 =? 65535 then Some (v6 mod 2 ^ 32) else None.

Definition origin_of (ip : IpAddr) : Origin :=
  match ip with
  | IpV4 v4 => V4 v4
  | IpV6 v6 =>
      match to_ipv4_mapped v6 with
      | Some v4 => V4 v4
      | None => V6 (Z.shiftr v6 64 mod 2 ^ 64)
      end
  end.

(** * Counting *)
Record Held := MkHeld { handshakes : Z; sessions : Z; rooms : Z; tunnels : Z }.
#[export] Instance eta_Held : Eta Held := fun h => MkHeld (handshakes h) (sessions h) (rooms h) (tunnels h).

Definition Held_default : Held := MkHeld 0 0 0 0.

Definition held_empty (h : Held) : bool :=
  (handshakes h =? 0) && (sessions h =? 0) && (rooms h =? 0) && (tunnels h =? 0).

Record Admission := MkAdmission {
  permits : Z;                         (* of the semaphore, not taken *)
  held : gmap Origin Held;
}.
#[export] Instance eta_Admission : Eta Admission := fun a => MkAdmission (permits a) (held a).

Section admission.
Context (limits : Limits).

Definition Admission_new : Admission := MkAdmission (max_handshakes limits) ∅.

(** A guard: what it counts and for whom. *)
Inductive Share := AHandshake | ASession | ARoom | ATunnel.
#[local] Instance Share_eq_dec : EqDecision Share.
Proof. solve_decision. Defined.

Definition entry (o : Origin) (a : Admission) : Held := default Held_default (held a !! o).

Definition counted (k : Share) (h : Held) : Z :=
  match k with AHandshake => handshakes h | ASession => sessions h | ARoom => rooms h | ATunnel => tunnels h end.
Definition set_count (k : Share) (n : Z) (h : Held) : Held :=
  match k with
  | AHandshake => h <| handshakes := n |>
  | ASession => h <| sessions := n |>
  | ARoom => h <| rooms := n |>
  | ATunnel => h <| tunnels := n |>
  end.
Definition share_limit (k : Share) : Z :=
  match k with
  | AHandshake => handshakes_per_address limits
  | ASession => sessions_per_address limits
  | ARoom => rooms_per_address limits
  | ATunnel => tunnels_per_address limits
  end.

Inductive Decision_ := Accept | Retry | Refuse.

Definition on_attempt (a : Admission) (o : Origin) (address_validated may_retry : bool) : Admission * Decision_ :=
  let in_progress := max_handshakes limits - permits a in
  if negb address_validated && may_retry && (max_handshakes limits <=? in_progress * 2) then (a, Retry)
  else if permits a <=? 0 then (a, Refuse)
  else
    let h := entry o a in
    if handshakes_per_address limits <=? handshakes h then
      (a <| held := if held_empty h then delete o (held a) else <[o := h]> (held a) |>, Refuse)
    else
      (a <| permits := permits a - 1 |> <| held := <[o := h <| handshakes := handshakes h + 1 |>]> (held a) |>, Accept).

(** [Admission::room]: whether the address gets its share. *)
Definition room (a : Admission) (o : Origin) : Admission * bool :=
  let h := entry o a in
  if rooms_per_address limits <=? rooms h then
    (a <| held := if held_empty h then delete o (held a) else <[o := h]> (held a) |>, false)
  else (a <| held := <[o := h <| rooms := rooms h + 1 |>]> (held a) |>, true).

Definition tunnel (a : Admission) (o : Origin) : Admission * bool :=
  let h := entry o a in
  if tunnels_per_address limits <=? tunnels h then
    (a <| held := if held_empty h then delete o (held a) else <[o := h]> (held a) |>, false)
  else (a <| held := <[o := h <| tunnels := tunnels h + 1 |>]> (held a) |>, true).

Definition release_entry (a : Admission) (o : Origin) (update : Held → Held) : Admission :=
  match held a !! o with
  | None => a
  | Some h =>
      let h := update h in
      a <| held := if held_empty h then delete o (held a) else <[o := h]> (held a) |>
  end.

(** [Drop]: of a session, a room's share, a tunnel's slot; a handshake's permit goes
    back to the semaphore with it. *)
Definition drop_share (a : Admission) (k : Share) (o : Origin) : Admission :=
  let a := release_entry a o (λ h, set_count k (saturating_sub_u64 (counted k h) 1) h) in
  match k with AHandshake => a <| permits := permits a + 1 |> | _ => a end.

(** [Handshake::into_session], which takes the handshake: it is dropped either
    way. *)
Definition into_session (a : Admission) (o : Origin) : Admission * bool :=
  let h := entry o a in
  if sessions_per_address limits <=? sessions h then
    (drop_share (a <| held := <[o := h]> (held a) |>) AHandshake o, false)
  else (drop_share (a <| held := <[o := h <| sessions := sessions h + 1 |>]> (held a) |>) AHandshake o, true).

(** * Any use of it *)
Record Gatehouse := MkGatehouse { admission : Admission; guards : list (Share * Origin) }.

Inductive GateOp :=
  | Attempt (o : Origin) (address_validated may_retry : bool)
  | OpenRoom (o : Origin)
  | OpenTunnel (o : Origin)
  | IntoSession (i : nat)       (* the guard with this index, a handshake *)
  | DropGuard (i : nat).

Definition remove_at (i : nat) (l : list (Share * Origin)) : list (Share * Origin) := firstn i l ++ skipn (S i) l.

Definition gate_step (g : Gatehouse) (op : GateOp) : Gatehouse :=
  match op with
  | Attempt o v r =>
      let '(a, d) := on_attempt (admission g) o v r in
      MkGatehouse a (match d with Accept => (AHandshake, o) :: guards g | _ => guards g end)
  | OpenRoom o => let '(a, ok) := room (admission g) o in MkGatehouse a (if ok then (ARoom, o) :: guards g else guards g)
  | OpenTunnel o => let '(a, ok) := tunnel (admission g) o in MkGatehouse a (if ok then (ATunnel, o) :: guards g else guards g)
  | IntoSession i =>
      match guards g !! i with
      | Some (AHandshake, o) =>
          let '(a, ok) := into_session (admission g) o in
          MkGatehouse a (if ok then (ASession, o) :: remove_at i (guards g) else remove_at i (guards g))
      | _ => g
      end
  | DropGuard i =>
      match guards g !! i with
      | Some (k, o) => MkGatehouse (drop_share (admission g) k o) (remove_at i (guards g))
      | None => g
      end
  end.

Definition gate_run : list GateOp → Gatehouse := foldl gate_step (MkGatehouse Admission_new []).

(** How many guards of a kind an address holds, and of a kind in all. *)
Definition holds (k : Share) (o : Origin) (l : list (Share * Origin)) : Z :=
  Z.of_nat (length (List.filter (λ g, bool_decide (g = (k, o))) l)).
Definition holds_any (k : Share) (l : list (Share * Origin)) : Z :=
  Z.of_nat (length (List.filter (λ g, bool_decide (g.1 = k)) l)).

(** * Lemmas *)
Record gate_ok (g : Gatehouse) : Prop := {
  go_counts : ∀ k o, counted k (entry o (admission g)) = holds k o (guards g);
  go_forgets : ∀ o h, held (admission g) !! o = Some h → held_empty h = false;
  go_limits : ∀ k o, holds k o (guards g) ≤ Z.max 0 (share_limit k);
  go_permits : permits (admission g) = max_handshakes limits - holds_any AHandshake (guards g);
  go_within : holds_any AHandshake (guards g) ≤ Z.max 0 (max_handshakes limits);
}.

Lemma holds_nonneg k o l : 0 ≤ holds k o l.
Proof. unfold holds. lia. Qed.

Lemma guards_cons k o k' o' l :
  holds k o ((k', o') :: l) = (if bool_decide ((k', o') = (k, o)) then 1 else 0) + holds k o l.
Proof. unfold holds. cbn [List.filter]. destruct (bool_decide _); cbn [length]; lia. Qed.

Lemma holds_in k o l : 0 < holds k o l ↔ (k, o) ∈ l.
Proof.
  induction l as [| [k' o'] l IH]; [cbn; split; [unfold holds; cbn; lia | by intros ?%elem_of_nil] |].
  rewrite guards_cons, elem_of_cons, <- IH. pose proof (holds_nonneg k o l) as H0. case_bool_decide as E.
  - split; [by left | lia].
  - rewrite Z.add_0_l. split; [by right | intros [E' | H]; [congruence | done]].
Qed.

Lemma holds_any_cons k k' o' l : holds_any k ((k', o') :: l) = (if bool_decide (k' = k) then 1 else 0) + holds_any k l.
Proof. unfold holds_any. cbn [List.filter fst]. destruct (bool_decide _); cbn [length]; lia. Qed.

Lemma remove_perm i (l : list (Share * Origin)) x : l !! i = Some x → l ≡ₚ x :: remove_at i l.
Proof.
  intros H. unfold remove_at. rewrite <- (take_drop_middle l i x H) at 1. symmetry. apply Permutation_middle.
Qed.

Lemma filter_perm {A} (p : A → bool) l l' : l ≡ₚ l' → length (List.filter p l) = length (List.filter p l').
Proof.
  induction 1 as [| x l l' _ IH | x y l | l l1 l2 _ IH1 _ IH2]; cbn; [done | | | congruence].
  - destruct (p x); cbn; lia.
  - destruct (p x), (p y); done.
Qed.

Lemma holds_perm k o l l' : l ≡ₚ l' → holds k o l = holds k o l'.
Proof. intros H. unfold holds. by rewrite (filter_perm _ _ _ H). Qed.
Lemma holds_any_perm k l l' : l ≡ₚ l' → holds_any k l = holds_any k l'.
Proof. intros H. unfold holds_any. by rewrite (filter_perm _ _ _ H). Qed.

Lemma held_empty_counted h : held_empty h = true ↔ ∀ k, counted k h = 0.
Proof.
  unfold held_empty. rewrite !andb_true_iff, !Z.eqb_eq. split.
  - intros [[[H1 H2] H3] H4] []; done.
  - intros H. pose proof (H AHandshake). pose proof (H ASession). pose proof (H ARoom). pose proof (H ATunnel). done.
Qed.

Lemma counted_default k : counted k Held_default = 0.
Proof. by destruct k. Qed.

Lemma counted_set k k' n h : counted k (set_count k' n h) = if bool_decide (k' = k) then n else counted k h.
Proof. by destruct k, k'. Qed.

(** An entry written back as the code does: an empty one is forgotten. *)
Definition put_entry (o : Origin) (h : Held) (m : gmap Origin Held) : gmap Origin Held :=
  if held_empty h then delete o m else <[o := h]> m.

Lemma entry_put k o h a o' :
  counted k (entry o' (a <| held := put_entry o h (held a) |>)) = counted k (if decide (o' = o) then h else entry o' a).
Proof.
  unfold entry, put_entry. cbn. destruct (held_empty h) eqn:E; destruct (decide (o' = o)) as [-> | Hne].
  - rewrite lookup_delete_eq. cbn. rewrite counted_default. symmetry. by apply held_empty_counted.
  - by rewrite lookup_delete_ne.
  - by rewrite lookup_insert_eq.
  - by rewrite lookup_insert_ne.
Qed.

Lemma put_insert o h m : held_empty h = false → put_entry o h m = <[o := h]> m.
Proof. unfold put_entry. by intros ->. Qed.

Lemma count_not_empty k h : 0 < counted k h → held_empty h = false.
Proof.
  intros H. destruct (held_empty h) eqn:E; [| done]. rewrite (proj1 (held_empty_counted h) E k) in H. lia.
Qed.

(** One entry changes with the guards of its address. *)
Lemma put_ok g o h n l :
  gate_ok g → (∀ k, counted k h = holds k o l) → (∀ k o', o' ≠ o → holds k o' l = holds k o' (guards g)) →
  (∀ k, holds k o l ≤ Z.max 0 (share_limit k)) → n = max_handshakes limits - holds_any AHandshake l →
  holds_any AHandshake l ≤ Z.max 0 (max_handshakes limits) →
  gate_ok (MkGatehouse (MkAdmission n (put_entry o h (held (admission g)))) l).
Proof.
  intros [H1 H2 H3 H4 H5] Hh Ho Hl Hn Hw. split; cbn [admission guards permits held]; [| | | done | done].
  - intros k o'. pose proof (entry_put k o h (admission g) o') as E. unfold entry in *. cbn in E |- *. rewrite E.
    destruct (decide (o' = o)) as [-> | Hne]; [done |]. rewrite Ho by done. apply H1.
  - intros o' h'. unfold put_entry. destruct (held_empty h) eqn:E.
    + intros [_ ?]%lookup_delete_Some. by eapply H2.
    + intros [[<- <-] | [_ ?]]%lookup_insert_Some; [done | by eapply H2].
  - intros k o'. destruct (decide (o' = o)) as [-> | Hne]; [done |]. rewrite Ho by done. apply H3.
Qed.

(** A new guard within the share. *)
Lemma gate_take_ok g k o n :
  gate_ok g → counted k (entry o (admission g)) < share_limit k →
  n = permits (admission g) - (if bool_decide (k = AHandshake) then 1 else 0) →
  (k = AHandshake → 0 < permits (admission g)) →
  gate_ok (MkGatehouse (MkAdmission n (<[o := set_count k (counted k (entry o (admission g)) + 1) (entry o (admission g))]> (held (admission g))))
    ((k, o) :: guards g)).
Proof.
  intros Hg Hlt Hn Hp. pose proof Hg as [H1 H2 H3 H4 H5]. set (h := set_count k _ _).
  assert (∀ k', counted k' h = holds k' o ((k, o) :: guards g)) as Hh.
  { intros k'. unfold h. rewrite counted_set, guards_cons, <- H1. destruct (decide (k = k')) as [-> | Hne].
    - rewrite !bool_decide_true by done. lia.
    - rewrite !bool_decide_false by congruence. done. }
  rewrite <- (put_insert o h) by (apply (count_not_empty k); rewrite Hh, guards_cons, bool_decide_true by done;
    pose proof (holds_nonneg k o (guards g)); lia).
  apply (put_ok g); [done | done | | | |].
  - intros k' o' Hne. rewrite guards_cons, bool_decide_false by congruence. lia.
  - intros k'. rewrite guards_cons. pose proof (H3 k' o) as H. destruct (decide (k = k')) as [<- | Hne].
    + rewrite bool_decide_true by done. rewrite <- H1. lia.
    + rewrite bool_decide_false by congruence. rewrite Z.add_0_l. exact H.
  - rewrite holds_any_cons. destruct (bool_decide (k = AHandshake)); lia.
  - rewrite holds_any_cons. case_bool_decide as E; [| lia]. specialize (Hp E). lia.
Qed.

(** A request refused changes nothing that counts. *)
Lemma refuse_ok g o :
  gate_ok g → gate_ok (MkGatehouse ((admission g) <| held := put_entry o (entry o (admission g)) (held (admission g)) |>) (guards g)).
Proof.
  intros Hg. pose proof Hg as [H1 H2 H3 H4 H5]. apply (put_ok g o (entry o (admission g)) (permits (admission g))); try done.
Qed.

(** A guard dropped gives its share back. *)
Lemma drop_ok g i k o :
  gate_ok g → guards g !! i = Some (k, o) → gate_ok (MkGatehouse (drop_share (admission g) k o) (remove_at i (guards g))).
Proof.
  intros Hg Hi. pose proof Hg as [H1 H2 H3 H4 H5]. pose proof (remove_perm i _ _ Hi) as Hperm.
  assert (∀ k' o', holds k' o' (guards g) = (if bool_decide ((k, o) = (k', o')) then 1 else 0) + holds k' o' (remove_at i (guards g))) as Hh
    by (intros k' o'; by rewrite (holds_perm _ _ _ _ Hperm), guards_cons).
  assert (holds_any AHandshake (guards g) = (if bool_decide (k = AHandshake) then 1 else 0) + holds_any AHandshake (remove_at i (guards g))) as Ha
    by (by rewrite (holds_any_perm _ _ _ Hperm), holds_any_cons).
  pose proof (Hh k o) as Hko. rewrite bool_decide_true in Hko by done. pose proof (holds_nonneg k o (remove_at i (guards g))) as H0.
  destruct (held (admission g) !! o) as [h |] eqn:Eh.
  2: { pose proof (H1 k o) as E. unfold entry in E. rewrite Eh in E. cbn in E. rewrite counted_default in E. lia. }
  assert (entry o (admission g) = h) as Ee by (unfold entry; by rewrite Eh).
  assert (drop_share (admission g) k o = MkAdmission (permits (admission g) + (if bool_decide (k = AHandshake) then 1 else 0))
    (put_entry o (set_count k (saturating_sub_u64 (counted k h) 1) h) (held (admission g)))) as ->.
  { unfold drop_share, release_entry. rewrite Eh.
    destruct (admission g), k; cbn -[bool_decide]; f_equal; (rewrite bool_decide_true by done) || (rewrite bool_decide_false by done); lia. }
  apply (put_ok g); [done | | | | |].
  - intros k'. rewrite counted_set. pose proof (H1 k' o) as E. rewrite Ee, Hh in E. unfold saturating_sub_u64.
    destruct (decide (k = k')) as [-> | Hne]; [rewrite !bool_decide_true in * by done; lia |].
    rewrite !bool_decide_false in * by congruence. lia.
  - intros k' o' Hne. rewrite Hh, bool_decide_false by congruence. lia.
  - intros k'. pose proof (H3 k' o) as H. rewrite Hh in H. revert H. destruct (bool_decide ((k, o) = (k', o))); lia.
  - revert Ha. destruct (bool_decide (k = AHandshake)); lia.
  - revert Ha. destruct (bool_decide (k = AHandshake)); lia.
Qed.

Lemma step_ok g op : gate_ok g → gate_ok (gate_step g op).
Proof.
  intros Hg. destruct op as [o v r | o | o | i | i]; cbn [gate_step].
  - unfold on_attempt. destruct (_ && _ && _); [by destruct g |]. destruct (Z.leb_spec (permits (admission g)) 0) as [|Hp]; [by destruct g |].
    cbv zeta. destruct (Z.leb_spec (handshakes_per_address limits) (handshakes (entry o (admission g)))) as [| Hlt].
    + by apply refuse_ok.
    + by apply (gate_take_ok g AHandshake o (permits (admission g) - 1)).
  - unfold room. cbv zeta. destruct (Z.leb_spec (rooms_per_address limits) (rooms (entry o (admission g)))) as [| Hlt].
    + by apply refuse_ok.
    + apply (gate_take_ok g ARoom o (permits (admission g))); [done | done | rewrite bool_decide_false by done; lia | done].
  - unfold tunnel. cbv zeta. destruct (Z.leb_spec (tunnels_per_address limits) (tunnels (entry o (admission g)))) as [| Hlt].
    + by apply refuse_ok.
    + apply (gate_take_ok g ATunnel o (permits (admission g))); [done | done | rewrite bool_decide_false by done; lia | done].
  - destruct (guards g !! i) as [[[] o] |] eqn:Ei; try done. unfold into_session. cbv zeta.
    pose proof (remove_perm i _ _ Ei) as Hperm. pose proof Hg as [H1 _ _ _ _].
    assert (held_empty (entry o (admission g)) = false) as Hne.
    { apply (count_not_empty AHandshake). rewrite H1, (holds_perm _ _ _ _ Hperm), guards_cons, bool_decide_true by done.
      pose proof (holds_nonneg AHandshake o (remove_at i (guards g))). lia. }
    destruct (Z.leb_spec (sessions_per_address limits) (sessions (entry o (admission g)))) as [| Hlt].
    + rewrite <- (put_insert o) by done. by apply (drop_ok (MkGatehouse _ (guards g)) i AHandshake o (refuse_ok g o Hg)).
    + pose proof (gate_take_ok g ASession o (permits (admission g)) Hg Hlt ltac:(rewrite bool_decide_false by done; lia) ltac:(done)) as Ht.
      by apply (drop_ok _ (S i) AHandshake o Ht).
  - destruct (guards g !! i) as [[k o] |] eqn:Ei; [| done]. by apply drop_ok.
Qed.

(** The steps of the gatehouse for whoever keeps the guards themselves. *)
Lemma gate_perm a l l' : l ≡ₚ l' → gate_ok (MkGatehouse a l) → gate_ok (MkGatehouse a l').
Proof.
  intros Hp [H1 H2 H3 H4 H5]. cbn in *.
  split; cbn; try setoid_rewrite <- (holds_perm _ _ _ _ Hp); try rewrite <- (holds_any_perm _ _ _ Hp); done.
Qed.

Lemma gate_drop a k o l : gate_ok (MkGatehouse a ((k, o) :: l)) → gate_ok (MkGatehouse (drop_share a k o) l).
Proof. intros Hg. exact (step_ok _ (DropGuard 0) Hg). Qed.

Lemma gate_into a o l :
  gate_ok (MkGatehouse a ((AHandshake, o) :: l)) →
  let '(a', ok) := into_session a o in gate_ok (MkGatehouse a' (if ok then (ASession, o) :: l else l)).
Proof. intros Hg. pose proof (step_ok _ (IntoSession 0) Hg) as H. cbn in H. by destruct (into_session a o) as [a' []]. Qed.

Lemma gate_room a o l :
  gate_ok (MkGatehouse a l) → let '(a', ok) := room a o in gate_ok (MkGatehouse a' (if ok then (ARoom, o) :: l else l)).
Proof. intros Hg. pose proof (step_ok _ (OpenRoom o) Hg) as H. cbn in H. by destruct (room a o) as [a' []]. Qed.

Lemma gate_tunnel a o l :
  gate_ok (MkGatehouse a l) → let '(a', ok) := tunnel a o in gate_ok (MkGatehouse a' (if ok then (ATunnel, o) :: l else l)).
Proof. intros Hg. pose proof (step_ok _ (OpenTunnel o) Hg) as H. cbn in H. by destruct (tunnel a o) as [a' []]. Qed.

Lemma gate_attempt a o v r l :
  gate_ok (MkGatehouse a l) →
  let '(a', d) := on_attempt a o v r in
  gate_ok (MkGatehouse a' (match d with Accept => (AHandshake, o) :: l | _ => l end)).
Proof. intros Hg. pose proof (step_ok _ (Attempt o v r) Hg) as H. cbn in H. by destruct (on_attempt a o v r) as [a' []]. Qed.

Lemma gate_run_ok ops g : gate_ok g → gate_ok (foldl gate_step g ops).
Proof. revert g. induction ops as [| op ops IH]; intros g H; cbn; [done |]. by apply IH, step_ok. Qed.

Lemma new_ok : gate_ok (MkGatehouse Admission_new []).
Proof.
  split; cbn; [| by intros o h; rewrite lookup_empty | intros; unfold holds; cbn; lia | unfold holds_any; cbn; lia | unfold holds_any; cbn; lia].
  intros k o. unfold entry. cbn. rewrite lookup_empty. apply counted_default.
Qed.

(** Nobody holds more than a fair share, and nothing is counted that is not
    held.  After any sequence of attempts, rooms, tunnels, sessions and guards
    dropped: no address holds more handshakes, sessions, rooms or tunnels than its
    limit, nor all together more handshakes than the server's; an address is
    remembered exactly while it holds something; and the next attempt is accepted
    precisely if the server has a handshake to spare, the address too, and the address
    is proved or need not be. *)
Theorem admission_fair (ops : list GateOp) (o : Origin) (address_validated may_retry : bool) :
  let g := gate_run ops in
  let busy := holds_any AHandshake (guards g) in
  (∀ k o', holds k o' (guards g) ≤ Z.max 0 (share_limit k)) ∧
  busy ≤ Z.max 0 (max_handshakes limits) ∧
  (∀ o', is_Some (held (admission g) !! o') ↔ ∃ k, (k, o') ∈ guards g) ∧
  ((on_attempt (admission g) o address_validated may_retry).2 = Accept ↔
    busy < max_handshakes limits ∧ holds AHandshake o (guards g) < handshakes_per_address limits ∧
    (address_validated = true ∨ may_retry = false ∨ busy * 2 < max_handshakes limits)).
Proof.
  intros g busy. assert (gate_ok g) as [H1 H2 H3 H4 H5] by (apply gate_run_ok, new_ok). clearbody g.
  split; [done |]. split; [done |]. split.
  - intros o'. pose proof (λ k, holds_in k o' (guards g)) as Hin. split.
    + intros [h Hh]. specialize (H2 _ _ Hh). destruct (decide (Exists (λ k, 0 < counted k h) [AHandshake; ASession; ARoom; ATunnel])) as [Hex | Hno].
      * apply Exists_exists in Hex as (k & _ & Hk). exists k. apply Hin. rewrite <- H1.
        assert (entry o' (admission g) = h) as -> by (unfold entry; by rewrite Hh). done.
      * exfalso. apply not_Exists_Forall in Hno; [| apply _]. rewrite (proj2 (held_empty_counted h)) in H2; [done |].
        intros k. pose proof (holds_nonneg k o' (guards g)) as H0. rewrite <- H1 in H0.
        assert (entry o' (admission g) = h) as E by (unfold entry; by rewrite Hh). rewrite E in H0.
        rewrite Forall_forall in Hno. specialize (Hno k ltac:(destruct k; set_solver)). unfold compose in Hno. cbn in Hno. lia.
    + intros [k Hk%Hin]. rewrite <- H1 in Hk. unfold entry in Hk. destruct (held (admission g) !! o'); [by eexists |].
      cbn in Hk. rewrite counted_default in Hk. lia.
  - unfold on_attempt. rewrite H4. fold busy. replace (max_handshakes limits - (max_handshakes limits - busy)) with busy by lia.
    pose proof (H1 AHandshake o) as Ho. cbn in Ho.
    destruct (Z.leb_spec (max_handshakes limits) (busy * 2)), address_validated, may_retry; cbn [negb andb];
      destruct (Z.leb_spec (max_handshakes limits - busy) 0); cbv zeta; rewrite ?Ho;
      try (destruct (Z.leb_spec (handshakes_per_address limits) (holds AHandshake o (guards g))));
      cbn; (split; [intros E; try done; repeat split; try lia; tauto | intros (? & ? & [?|[?|?]]); done || lia]).
Qed.
End admission.

(** An IPv6 host counts as its /64, and an IPv4 address the same however it is
    written. *)
Lemma origin_v6 a b :
  0 ≤ a < 2 ^ 128 → 0 ≤ b < 2 ^ 128 → to_ipv4_mapped a = None → to_ipv4_mapped b = None →
  origin_of (IpV6 a) = origin_of (IpV6 b) ↔ a / 2 ^ 64 = b / 2 ^ 64.
Proof.
  intros Ha Hb Ea Eb. unfold origin_of. rewrite Ea, Eb, !Z.shiftr_div_pow2 by done.
  assert (∀ x, 0 ≤ x < 2 ^ 128 → (x / 2 ^ 64) mod 2 ^ 64 = x / 2 ^ 64) as Hm.
  { intros x Hx. apply Z.mod_small. split; [apply Z.div_pos; lia |]. apply Z.div_lt_upper_bound; lia. }
  rewrite !Hm by done. split; [by intros [= ->] | by intros ->].
Qed.

Lemma origin_mapped v4 : 0 ≤ v4 < 2 ^ 32 → origin_of (IpV6 (65535 * 2 ^ 32 + v4)) = origin_of (IpV4 v4).
Proof.
  intros H. unfold origin_of, to_ipv4_mapped. rewrite Z.shiftr_div_pow2 by done.
  assert ((65535 * 2 ^ 32 + v4) / 2 ^ 32 = 65535) as -> by (rewrite Z.div_add_l by lia; rewrite Z.div_small by lia; lia).
  rewrite Z.eqb_refl. f_equal. rewrite Z.add_comm, Z.mod_add by lia. by apply Z.mod_small.
Qed.
