(* ===== verification/Pattern.v ===== *)
(** Signatures and profiles ([crates/tpf3mp-hookcore/src/pattern.rs], [profile.rs]):
    finding the code to hook in one build of the game, or refusing it.

    Text is its characters, as code points.  A profile is what the TOML parser made
    of its file ([RawProfile]); a build's identity, its hash included, is an argument.
    An index into an image is a [nat]; an address wraps at 64 bits, as in a release
    build. *)
From S2P Require Import Prelude Chars.
From stdpp Require Import strings pretty.
Local Open Scope Z_scope.

Definition hex_digit (c : Z) : option Z :=
  if (48 <=? c) && (c <=? 57) then Some (c - 48)
  else if (65 <=? c) && (c <=? 70) then Some (c - 55)
  else if (97 <=? c) && (c <=? 102) then Some (c - 87)
  else None.

(** [u8::from_str_radix(text, 16)]: an optional plus sign, then at least one digit,
    and a value that fits. *)
Fixpoint hex_digits (acc : Z) (text : Chars) : option Z :=
  match text with
  | [] => Some acc
  | c :: text =>
      match hex_digit c with
      | Some d => let v := acc * 16 + d in if v <? 256 then hex_digits v text else None
      | None => None
      end
  end.
Definition u8_from_hex (text : Chars) : option Z :=
  match text with
  | [] => None
  | [_] => hex_digits 0 text
  | c :: rest => if c =? 43 then hex_digits 0 rest else hex_digits 0 text
  end.

(** * Patterns *)
Inductive Nibblet := Fixed (value : Z) | Any.

Record Pattern := MkPattern { bytes : list Nibblet; anchor : nat; anchor_byte : Z }.

Inductive PatternError := PatternEmpty | AllWildcards | BadToken (token : Chars).
Inductive ScanError := ScanNotFound | ScanAmbiguous (count : nat).

Definition parse_token (token : Chars) : result Nibblet PatternError :=
  if bool_decide (token = chars "?") || bool_decide (token = chars "??") then Ok Any
  else if (str_len token =? 2)%nat then
    match u8_from_hex token with Some v => Ok (Fixed v) | None => Err (BadToken token) end
  else Err (BadToken token).

Fixpoint parse_tokens (tokens : list Chars) : result (list Nibblet) PatternError :=
  match tokens with
  | [] => Ok []
  | token :: tokens =>
      let? n := parse_token token in
      let? ns := parse_tokens tokens in
      Ok (n :: ns)
  end.

(** [position] of the first fixed byte. *)
Fixpoint first_fixed (ns : list Nibblet) : option (nat * Z) :=
  match ns with
  | [] => None
  | Fixed v :: _ => Some (0%nat, v)
  | Any :: ns => match first_fixed ns with Some (i, v) => Some (S i, v) | None => None end
  end.

Definition parse (text : Chars) : result Pattern PatternError :=
  let? ns := parse_tokens (split_whitespace text) in
  if bool_decide (ns = []) then Err PatternEmpty
  else
    match first_fixed ns with
    | Some (i, v) => Ok (MkPattern ns i v)
    | None => Err AllWildcards
    end.

Definition nibblet_matches (n : Nibblet) (byte : Z) : bool :=
  match n with Fixed v => v =? byte | Any => true end.

(** [haystack.get(from..to)]. *)
Definition slice (from to : nat) (haystack : list Z) : option (list Z) :=
  if (to <=? length haystack)%nat then Some (firstn (to - from) (skipn from haystack)) else None.

Fixpoint all_match (ns : list Nibblet) (window : list Z) : bool :=
  match ns, window with
  | n :: ns, b :: window => nibblet_matches n b && all_match ns window
  | _, _ => true
  end.

Definition matches_at (p : Pattern) (haystack : list Z) (pos : nat) : bool :=
  match slice pos (pos + length (bytes p)) haystack with
  | Some window => all_match (bytes p) window
  | None => false
  end.

(** [memchr]: the index of the first such byte. *)
Fixpoint memchr (needle : Z) (haystack : list Z) : option nat :=
  match haystack with
  | [] => None
  | b :: haystack => if b =? needle then Some 0%nat else S <$> memchr needle haystack
  end.

(** The scan from [probe] on: to the next anchor byte, then the whole window. *)
Fixpoint scan_from (fuel : nat) (p : Pattern) (haystack : list Z) (probe last_probe : nat) : list nat :=
  match fuel with
  | O => []
  | S fuel =>
      if (probe <=? last_probe)%nat then
        match memchr (anchor_byte p) (firstn (last_probe + 1 - probe) (skipn probe haystack)) with
        | Some rel =>
            let found := (probe + rel)%nat in
            let start := (found - anchor p)%nat in
            let rest := scan_from fuel p haystack (found + 1) last_probe in
            if matches_at p haystack start then start :: rest else rest
        | None => []
        end
      else []
  end.

Definition find_all (p : Pattern) (haystack : list Z) : list nat :=
  let width := length (bytes p) in
  if (length haystack <? width)%nat then []
  else
    let last_start := (length haystack - width)%nat in
    scan_from (S (length haystack)) p haystack (anchor p) (last_start + anchor p).

Definition find_unique (p : Pattern) (haystack : list Z) : result nat ScanError :=
  match find_all p haystack with
  | [] => Err ScanNotFound
  | [only] => Ok only
  | many => Err (ScanAmbiguous (length many))
  end.

(** * Profiles *)
Record BuildIdentity := MkBuildIdentity { sha256 : Chars; b_size : option Z; pe_timestamp : option Z }.

Record TargetSpec := MkTargetSpec {
  t_name : Chars;
  signature : Chars;
  pattern : Pattern;
  t_offset : Z;
  prologue : list Z;
  required : bool;
}.

Record Profile := MkProfile {
  p_name : Chars;
  build : BuildIdentity;
  image_base : option Z;
  region : option Chars;
  targets : list TargetSpec;
}.

Record RawTarget := MkRawTarget {
  raw_name : Chars; raw_signature : Chars; raw_offset : Z; raw_prologue : Chars; raw_required : bool;
}.
Record RawProfile := MkRawProfile {
  rp_name : Chars; rp_image_base : option Z; rp_region : option Chars; rp_build : BuildIdentity; rp_targets : list RawTarget;
}.

Inductive HexError := HexBadToken (token : Chars) | HexEmpty.

Inductive ProfileError :=
  | BadToml
  | NoTargets
  | DuplicateTarget (name : Chars)
  | BadSignature (name : Chars) (source : PatternError)
  | BadPrologue (name : Chars) (source : HexError).

Fixpoint parse_hex_tokens (tokens : list Chars) : result (list Z) HexError :=
  match tokens with
  | [] => Ok []
  | token :: tokens =>
      if negb (str_len token =? 2)%nat then Err (HexBadToken token)
      else
        match u8_from_hex token with
        | None => Err (HexBadToken token)
        | Some v => let? vs := parse_hex_tokens tokens in Ok (v :: vs)
        end
  end.
Definition parse_hex_bytes (text : Chars) : result (list Z) HexError :=
  let? bytes := parse_hex_tokens (split_whitespace text) in
  if bool_decide (bytes = []) then Err HexEmpty else Ok bytes.

Definition to_ascii_lowercase (text : Chars) : Chars := (λ c, if (65 <=? c) && (c <=? 90) then c + 32 else c) <$> text.

Fixpoint read_targets (raw : list RawTarget) (done : list TargetSpec) : result (list TargetSpec) ProfileError :=
  match raw with
  | [] => Ok done
  | target :: raw =>
      if existsb (λ existing, bool_decide (t_name existing = raw_name target)) done
      then Err (DuplicateTarget (raw_name target))
      else
        let? p := match parse (raw_signature target) with Ok p => Ok p | Err e => Err (BadSignature (raw_name target) e) end in
        let? pro := match parse_hex_bytes (raw_prologue target) with Ok b => Ok b | Err e => Err (BadPrologue (raw_name target) e) end in
        read_targets raw (done ++ [MkTargetSpec (raw_name target) (raw_signature target) p (raw_offset target) pro (raw_required target)])
  end.

Definition from_raw (raw : RawProfile) : result Profile ProfileError :=
  if bool_decide (rp_targets raw = []) then Err NoTargets
  else
    let? ts := read_targets (rp_targets raw) [] in
    let b := rp_build raw in
    Ok (MkProfile (rp_name raw) (MkBuildIdentity (to_ascii_lowercase (sha256 b)) (b_size b) (pe_timestamp b))
          (rp_image_base raw) (rp_region raw) ts).

Inductive Refusal :=
  | UnknownBuild (expected actual : Chars)
  | Missing (target : Chars)
  | Ambiguous (target : Chars) (count : nat)
  | OutOfBounds (target : Chars)
  | PrologueMismatch (target : Chars) (image_index : nat) (expected found : Chars).

Fixpoint hex_spaced (bytes : list Z) : Chars :=
  match bytes with
  | [] => []
  | [b] => [hex_high (b / 16); hex_high (b mod 16)]
  | b :: bytes => hex_high (b / 16) :: hex_high (b mod 16) :: 32 :: hex_spaced bytes
  end.

(** ["size {actual_size}"] and ["timestamp {actual_ts:#010x}"]. *)
Definition size_text (n : Z) : Chars := chars "size " ++ chars (pretty n).
Definition timestamp_text (ts : Z) : Chars :=
  chars "timestamp 0x" ++ ((λ k, hex_low (ts / 16 ^ k mod 16)) <$> [7; 6; 5; 4; 3; 2; 1; 0]).

(** A pinned value that is known and differs. *)
Definition differs (expected actual : option Z) : option Z :=
  match expected, actual with
  | Some e, Some a => if e =? a then None else Some a
  | _, _ => None
  end.

Definition verify_identity (p : Profile) (actual : BuildIdentity) : result unit Refusal :=
  let expected := sha256 (build p) in
  if negb (bool_decide (expected = to_ascii_lowercase (sha256 actual)))
  then Err (UnknownBuild expected (to_ascii_lowercase (sha256 actual)))
  else
    match differs (b_size (build p)) (b_size actual) with
    | Some size => Err (UnknownBuild expected (size_text size))
    | None =>
        match differs (pe_timestamp (build p)) (pe_timestamp actual) with
        | Some ts => Err (UnknownBuild expected (timestamp_text ts))
        | None => Ok tt
        end
    end.

Record ResolvedTarget := MkResolvedTarget { r_name : Chars; address : Z; image_index : nat; r_required : bool }.
Record ResolvedProfile := MkResolvedProfile { rs_name : Chars; resolved : list ResolvedTarget; absent_optional : list Chars }.

(** One target: where it is, [None] if it is optional and absent, or why the
    profile is refused. *)
Definition resolve_target (spec : TargetSpec) (image : list Z) (region_base : Z) : result (option ResolvedTarget) Refusal :=
  match find_unique (pattern spec) image with
  | Err ScanNotFound => if required spec then Err (Missing (t_name spec)) else Ok None
  | Err (ScanAmbiguous count) => Err (Ambiguous (t_name spec) count)
  | Ok match_index =>
      match to_i64 (Z.of_nat match_index) ≫= λ base, checked_add_i64 base (t_offset spec) with
      | None => Err (OutOfBounds (t_name spec))
      | Some index =>
          if index <? 0 then Err (OutOfBounds (t_name spec))
          else
            let i := Z.to_nat index in
            match checked_add_u64 index (Z.of_nat (length (prologue spec))) with
            | None => Err (OutOfBounds (t_name spec))
            | Some end_ =>
                match slice i (Z.to_nat end_) image with
                | None => Err (OutOfBounds (t_name spec))
                | Some found =>
                    if negb (bool_decide (found = prologue spec))
                    then Err (PrologueMismatch (t_name spec) i (hex_spaced (prologue spec)) (hex_spaced found))
                    else Ok (Some (MkResolvedTarget (t_name spec) ((region_base + index) mod 2 ^ 64) i (required spec)))
                end
            end
      end
  end.

Fixpoint resolve_all (specs : list TargetSpec) (image : list Z) (region_base : Z) :
    result (list ResolvedTarget * list Chars) Refusal :=
  match specs with
  | [] => Ok ([], [])
  | spec :: specs =>
      let? t := resolve_target spec image region_base in
      let? (ts, absent) := resolve_all specs image region_base in
      Ok (match t with Some t => (t :: ts, absent) | None => (ts, t_name spec :: absent) end)
  end.

Definition resolve (p : Profile) (image : list Z) (region_base : Z) : result ResolvedProfile Refusal :=
  let? (ts, absent) := resolve_all (targets p) image region_base in
  Ok (MkResolvedProfile (p_name p) ts absent).

(** * The scan *)

(** What [parse] makes sure of: the anchor is a fixed byte of the pattern. *)
Definition anchored (p : Pattern) : Prop := bytes p !! anchor p = Some (Fixed (anchor_byte p)).

Lemma first_fixed_Some ns i v : first_fixed ns = Some (i, v) → ns !! i = Some (Fixed v).
Proof.
  revert i. induction ns as [|[w|] ns IH]; simpl; intros i H; [done| |].
  - by simplify_eq.
  - destruct (first_fixed ns) as [[j w]|]; simplify_eq. by apply IH.
Qed.

Lemma parse_anchored text p : parse text = Ok p → anchored p.
Proof.
  unfold parse. destruct (parse_tokens _) as [ns|]; simpl; [|done].
  case_match; [done|]. destruct (first_fixed ns) as [[i v]|] eqn:E; [|done].
  intros [= <-]. by apply first_fixed_Some.
Qed.

Lemma anchored_lt p : anchored p → (anchor p < length (bytes p))%nat.
Proof. apply lookup_lt_Some. Qed.

Lemma memchr_spec n l :
  match memchr n l with
  | Some r => l !! r = Some n ∧ ∀ j, (j < r)%nat → l !! j ≠ Some n
  | None => ∀ j, l !! j ≠ Some n
  end.
Proof.
  induction l as [|b l IH]; simpl; [done|].
  destruct (Z.eqb_spec b n) as [->|Hb].
  - split; [done|lia].
  - destruct (memchr n l) as [r|]; simpl.
    + destruct IH as [IH1 IH2]. split; [done|].
      intros [|j] Hj; simpl; [congruence|apply IH2; lia].
    + intros [|j]; simpl; [congruence|apply IH].
Qed.

Lemma all_match_lookup ns window i v b :
  all_match ns window = true → ns !! i = Some (Fixed v) → window !! i = Some b → b = v.
Proof.
  revert window i. induction ns as [|n ns IH]; intros [|c window] [|i]; simpl; try done.
  - intros [Hn _]%andb_true_iff ??. simplify_eq. simpl in Hn. lia.
  - intros [_ Hm]%andb_true_iff. by apply IH.
Qed.

Lemma slice_lookup from len haystack window i :
  slice from (from + len) haystack = Some window →
  (i < len)%nat → window !! i = haystack !! (from + i)%nat.
Proof.
  unfold slice. case_match; [|done]. intros [= <-] Hi.
  by rewrite lookup_take_lt, lookup_drop by lia.
Qed.

Lemma matches_at_bound p haystack pos :
  matches_at p haystack pos = true → (pos + length (bytes p) <= length haystack)%nat.
Proof. unfold matches_at, slice. destruct (Nat.leb_spec (pos + length (bytes p)) (length haystack)); [lia|done]. Qed.

(** A match has the anchor byte in its place. *)
Lemma matches_at_anchor p haystack pos :
  anchored p → matches_at p haystack pos = true →
  haystack !! (pos + anchor p)%nat = Some (anchor_byte p).
Proof.
  intros Ha Hm. pose proof (matches_at_bound _ _ _ Hm) as Hb. pose proof (anchored_lt _ Ha).
  unfold matches_at in Hm. destruct (slice _ _ _) as [w|] eqn:Hs; [|done].
  rewrite <- (slice_lookup _ _ _ _ _ Hs) by done.
  destruct (lookup_lt_is_Some_2 w (anchor p)) as [b Hb'].
  { unfold slice in Hs. case_match; simplify_eq. rewrite length_take, length_drop. lia. }
  by rewrite Hb', (all_match_lookup _ _ _ _ _ Hm Ha Hb').
Qed.

(** The positions of a range where the pattern matches. *)
Definition matching (p : Pattern) (haystack : list Z) (from count : nat) : list nat :=
  filter (λ pos, matches_at p haystack pos = true) (seq from count).

Lemma matching_none p haystack from count :
  (∀ j, (j < count)%nat → matches_at p haystack (from + j) = false) → matching p haystack from count = [].
Proof.
  intros H. unfold matching. destruct (filter _ _) as [|x l] eqn:E; [done|].
  assert (x ∈ x :: l) as Hx by left. rewrite <- E in Hx.
  apply list_elem_of_filter in Hx as [Hx [? ?]%elem_of_seq].
  specialize (H (x - from)%nat). replace (from + (x - from))%nat with x in H by lia.
  rewrite H in Hx by lia. done.
Qed.

Lemma matching_app p haystack from n m :
  matching p haystack from (n + m) = matching p haystack from n ++ matching p haystack (from + n) m.
Proof. unfold matching. by rewrite seq_app, filter_app. Qed.

Lemma scan_from_spec fuel p haystack probe last :
  anchored p → (anchor p <= probe)%nat → (last < length haystack)%nat → (last < probe + fuel)%nat →
  scan_from fuel p haystack probe last = matching p haystack (probe - anchor p) (last + 1 - probe).
Proof.
  intros Ha. revert probe. induction fuel as [|fuel IH]; intros probe Hp Hl Hf; simpl.
  { by replace (last + 1 - probe)%nat with 0%nat by lia. }
  destruct (Nat.leb_spec probe last); [|by replace (last + 1 - probe)%nat with 0%nat by lia].
  assert (∀ j, (j < last + 1 - probe)%nat →
    matches_at p haystack (probe - anchor p + j) = true →
    take (last + 1 - probe) (drop probe haystack) !! j = Some (anchor_byte p)) as Hhit.
  { intros j Hj Hm%matches_at_anchor; [|done]. rewrite lookup_take_lt, lookup_drop by done.
    rewrite <- Hm. f_equal. lia. }
  pose proof (memchr_spec (anchor_byte p) (take (last + 1 - probe) (drop probe haystack))) as Hmem.
  destruct (memchr _ _) as [rel|].
  - destruct Hmem as [Hrel Hbefore]. apply lookup_lt_Some in Hrel. rewrite length_take in Hrel.
    rewrite IH by lia. replace (last + 1 - probe)%nat with (rel + S (last - (probe + rel)))%nat by lia.
    rewrite matching_app, (matching_none _ _ (probe - anchor p) rel); [simpl|].
    { unfold matching. simpl. rewrite filter_cons.
      replace (probe + rel - anchor p)%nat with (probe - anchor p + rel)%nat by lia.
      replace (probe + rel + 1 - anchor p)%nat with (S (probe - anchor p + rel)) by lia.
      replace (last + 1 - (probe + rel + 1))%nat with (last - (probe + rel))%nat by lia.
      case_decide as Hd; [by rewrite Hd|]. by rewrite (not_true_is_false _ Hd). }
    intros j Hj. apply not_true_iff_false. intros Hm. apply (Hbefore j Hj), Hhit; [lia|done].
  - symmetry. apply matching_none. intros j Hj. apply not_true_iff_false. intros Hm.
    by apply (Hmem j), Hhit.
Qed.

Lemma find_all_anchored p haystack :
  anchored p → find_all p haystack = matching p haystack 0 (S (length haystack)).
Proof.
  intros Ha. pose proof (anchored_lt _ Ha). unfold find_all.
  destruct (Nat.ltb_spec (length haystack) (length (bytes p))).
  { symmetry. apply matching_none. intros j _. apply not_true_iff_false. intros ?%matches_at_bound. lia. }
  rewrite scan_from_spec by (done || lia). rewrite Nat.sub_diag.
  replace (S (length haystack)) with
    (length haystack - length (bytes p) + anchor p + 1 - anchor p + length (bytes p))%nat by lia.
  rewrite matching_app, (matching_none _ _ (0 + _)), app_nil_r; [done|].
  intros j _. apply not_true_iff_false. intros ?%matches_at_bound. lia.
Qed.

(** the anchored scan of [Pattern::find_all] finds what comparing the whole
    window at every offset of the image would: for every signature that parses and
    every image, the offsets at which the pattern matches, all of them, once each and in
    ascending order.  The fuel the loop is given is always enough. *)
Theorem find_all_exhaustive text p haystack :
  parse text = Ok p →
  find_all p haystack = filter (λ pos, matches_at p haystack pos = true) (seq 0 (S (length haystack))).
Proof. intros Hp. apply find_all_anchored. by eapply parse_anchored. Qed.

Lemma find_all_exhaustive_witness :
  ∃ p, parse (chars "?? 8b ? E8") = Ok p ∧
  find_all p [0x8B; 0x8B; 0x8B; 0xE8; 0xE8; 1; 0x8B; 2; 0xE8] =
    filter (λ pos, matches_at p [0x8B; 0x8B; 0x8B; 0xE8; 0xE8; 1; 0x8B; 2; 0xE8] pos = true) (seq 0 10).
Proof.
  eexists. split; [vm_compute; reflexivity|].
  apply (find_all_exhaustive (chars "?? 8b ? E8")). vm_compute. reflexivity.
Defined.

(** [u8::from_str_radix] takes a sign: a token that is not two hex digits is read
    as a byte, in signatures and in prologues. *)
Lemma signed_token_read :
  parse (chars "48 +5") = Ok (MkPattern [Fixed 0x48; Fixed 5] 0 0x48) ∧ parse_hex_bytes (chars "+5") = Ok [5].
Proof. by vm_compute. Qed.

(** * Resolution *)

(** Where the target of a profile is in an image: the signature matches at one
    offset only, and the prologue is there. *)
Definition located (image : list Z) (t : TargetSpec) (i : nat) : Prop :=
  ∃ pos, (∀ k, matches_at (pattern t) image k = true ↔ k = pos) ∧
    Z.of_nat i = Z.of_nat pos + t_offset t ∧
    ∀ k b, prologue t !! k = Some b → image !! (i + k)%nat = Some b.

(** What a profile may be resolved to: each target located, or optional and absent. *)
Definition accounted (image : list Z) (t : TargetSpec) (o : option nat) : Prop :=
  match o with
  | Some i => located image t i
  | None => required t = false ∧ ∀ k, matches_at (pattern t) image k = false
  end.

(** What reading a profile makes sure of, of each target. *)
Definition readable (t : TargetSpec) : Prop := anchored (pattern t) ∧ prologue t ≠ [].

Lemma parse_hex_bytes_nonempty text bs : parse_hex_bytes text = Ok bs → bs ≠ [].
Proof. unfold parse_hex_bytes. destruct (parse_hex_tokens _); simpl; [|done]. case_match; naive_solver. Qed.

Lemma read_targets_readable raw done ts :
  read_targets raw done = Ok ts →
  Forall readable done → NoDup (t_name <$> done) →
  Forall readable ts ∧ NoDup (t_name <$> ts) ∧ t_name <$> ts = (t_name <$> done) ++ (raw_name <$> raw).
Proof.
  revert done. induction raw as [|r raw IH]; intros done; simpl.
  { intros [= <-] ??. by rewrite app_nil_r. }
  destruct (existsb _ done) eqn:Hdup; [done|].
  destruct (parse _) as [p|] eqn:Hp; simpl; [|done].
  destruct (parse_hex_bytes _) as [pro|] eqn:Hh; simpl; [|done].
  intros H Hr Hn. destruct (IH _ H) as (? & ? & Hts).
  - apply Forall_app. split; [done|]. constructor; [|done].
    split; [by eapply parse_anchored|by eapply parse_hex_bytes_nonempty].
  - rewrite fmap_app. apply NoDup_app. split; [done|]. split; [|by apply NoDup_singleton].
    intros n (t & -> & Ht)%list_elem_of_fmap Hn'%list_elem_of_singleton. simpl in Hn'.
    apply not_true_iff_false in Hdup. apply Hdup, existsb_exists.
    exists t. split; [by apply list_elem_of_In|]. by apply bool_decide_eq_true.
  - split; [done|]. split; [done|]. by rewrite Hts, fmap_app, <- app_assoc.
Qed.

Lemma from_raw_readable raw p :
  from_raw raw = Ok p →
  Forall readable (targets p) ∧ NoDup (t_name <$> targets p) ∧ t_name <$> targets p = raw_name <$> rp_targets raw.
Proof.
  unfold from_raw. case_match; [done|]. destruct (read_targets _ _) as [ts|] eqn:E; simpl; [|done].
  intros [= <-]. simpl. by apply read_targets_readable in E; [|constructor|constructor].
Qed.

Lemma matching_elem p image k :
  k ∈ matching p image 0 (S (length image)) ↔ matches_at p image k = true.
Proof.
  unfold matching. rewrite list_elem_of_filter, elem_of_seq. split; [by intros [? _]|].
  intros H. pose proof (matches_at_bound _ _ _ H). split; [done|lia].
Qed.

Lemma find_unique_spec p image :
  anchored p →
  match find_unique p image with
  | Ok pos => ∀ k, matches_at p image k = true ↔ k = pos
  | Err ScanNotFound => ∀ k, matches_at p image k = false
  | Err (ScanAmbiguous n) => ∃ i j, i ≠ j ∧ matches_at p image i = true ∧ matches_at p image j = true
  end.
Proof.
  intros Ha. unfold find_unique. rewrite find_all_anchored by done.
  pose proof (matching_elem p image) as Hm.
  assert (NoDup (matching p image 0 (S (length image)))) as Hnd by apply NoDup_filter, NoDup_seq.
  destruct (matching _ _ _ _) as [|a [|b l]].
  - intros k. apply not_true_iff_false. rewrite <- Hm. apply not_elem_of_nil.
  - intros k. by rewrite <- Hm, list_elem_of_singleton.
  - exists a, b. rewrite <- !Hm. apply NoDup_cons in Hnd as [Hab _]. set_solver.
Qed.

Lemma slice_prologue image i pro :
  slice i (i + length pro) image = Some pro ↔
  (i + length pro <= length image)%nat ∧ ∀ k b, pro !! k = Some b → image !! (i + k)%nat = Some b.
Proof.
  split.
  - intros H. split; [unfold slice in H; destruct (Nat.leb_spec (i + length pro) (length image)); [done|done]|].
    intros k b Hk. by rewrite <- (slice_lookup _ _ _ _ _ H) by (by eapply lookup_lt_Some).
  - intros [Hl H]. unfold slice. rewrite (proj2 (Nat.leb_le _ _) Hl). f_equal.
    replace (i + length pro - i)%nat with (length pro) by lia.
    apply list_eq_same_length with (length pro); [done|rewrite length_take, length_drop; lia|].
    intros k x y _ Hx Hy. apply H in Hy. rewrite lookup_take_lt, lookup_drop in Hx by (apply lookup_lt_Some in Hx; rewrite length_take in Hx; lia).
    congruence.
Qed.

Lemma located_bound image t i :
  prologue t ≠ [] → located image t i → (i + length (prologue t) <= length image)%nat.
Proof.
  intros Hne (pos & _ & _ & H). destruct (last (prologue t)) as [b|] eqn:Hl; [|by apply last_None in Hl].
  rewrite last_lookup in Hl. pose proof (lookup_lt_Some _ _ _ Hl). apply H, lookup_lt_Some in Hl. lia.
Qed.

(** The entry of a target that was found at an index. *)
Definition entry (region_base : Z) (t : TargetSpec) (i : nat) : ResolvedTarget :=
  MkResolvedTarget (t_name t) ((region_base + Z.of_nat i) mod 2 ^ 64) i (required t).

(** [resolve_target] past the scan: the target is at the match and its offset, or nowhere. *)
Lemma resolve_match image base t pos :
  readable t → Z.of_nat (length image) ≤ i64_max → (pos <= length image)%nat →
  find_unique (pattern t) image = Ok pos →
  (∀ k, matches_at (pattern t) image k = true ↔ k = pos) →
  match resolve_target t image base with
  | Ok o => ∃ i, located image t i ∧ o = Some (entry base t i)
  | Err _ => ∀ i, ¬ located image t i
  end.
Proof.
  intros [_ Hne] Himg Hpos Hf Hu. unfold resolve_target. rewrite Hf.
  assert (∀ i, located image t i →
    Z.of_nat i = Z.of_nat pos + t_offset t ∧ (i + length (prologue t) <= length image)%nat ∧
    slice i (i + length (prologue t)) image = Some (prologue t)) as Hat.
  { intros i H. pose proof (located_bound _ _ _ Hne H). destruct H as (pos' & Hu' & Hi & Hp).
    replace pos' with pos in * by (by apply Hu', Hu). split_and!; [done..|]. by apply slice_prologue. }
  rewrite to_i64_in by range_lia. simpl. unfold checked_add_i64.
  destruct (to_i64 _) as [index|] eqn:Hi.
  2: { intros i Hl. apply Hat in Hl as (? & ? & _). rewrite to_i64_in in Hi by range_lia. done. }
  apply to_i64_Some in Hi as [-> Hr].
  destruct (Z.ltb_spec (Z.of_nat pos + t_offset t) 0).
  { intros i Hl. apply Hat in Hl as (? & ? & _). lia. }
  set (index := Z.of_nat pos + t_offset t) in *. unfold checked_add_u64.
  destruct (Z.leb_spec (index + Z.of_nat (length (prologue t))) u64_max).
  2: { intros i Hl. apply Hat in Hl as (? & ? & _). range_lia. }
  replace (Z.to_nat (index + Z.of_nat (length (prologue t)))) with (Z.to_nat index + length (prologue t))%nat by lia.
  destruct (slice _ _ _) as [found|] eqn:Hs.
  2: { intros i Hl. apply Hat in Hl as (? & ? & Hs'). replace i with (Z.to_nat index) in Hs' by lia. congruence. }
  destruct (bool_decide_reflect (found = prologue t)) as [->|Hd]; simpl.
  - exists (Z.to_nat index). split.
    + exists pos. split; [done|]. split; [lia|]. by apply slice_prologue.
    + unfold entry. by rewrite Z2Nat.id.
  - intros i Hl. apply Hat in Hl as (? & ? & Hs'). replace i with (Z.to_nat index) in Hs' by lia. congruence.
Qed.

Lemma resolve_target_spec image base t :
  readable t → Z.of_nat (length image) ≤ i64_max →
  match resolve_target t image base with
  | Ok o => ∃ found, accounted image t found ∧ o = entry base t <$> found
  | Err _ => ∀ found, ¬ accounted image t found
  end.
Proof.
  intros Ht Himg. pose proof (find_unique_spec (pattern t) image (proj1 Ht)) as Hf.
  destruct (find_unique _ _) as [pos|[|n]] eqn:E.
  - assert (pos <= length image)%nat as Hpos.
    { pose proof (matches_at_bound _ _ _ (proj2 (Hf pos) eq_refl)). lia. }
    pose proof (resolve_match image base t pos Ht Himg Hpos E Hf) as H.
    destruct (resolve_target _ _ _) as [o|].
    + destruct H as (i & ? & ->). by exists (Some i).
    + intros [i|]; [apply H|]. intros [_ Hn]. specialize (Hn pos). rewrite (proj2 (Hf pos)) in Hn; done.
  - unfold resolve_target. rewrite E. destruct (required t) eqn:Hr.
    + intros [i|] Ha; simpl in Ha; [|destruct Ha; congruence]. destruct Ha as (pos & Hu & _).
      specialize (Hf pos). rewrite (proj2 (Hu pos)) in Hf; done.
    + by exists None.
  - unfold resolve_target. rewrite E. destruct Hf as (i & j & Hij & Hi & Hj).
    intros [k|] Ha; simpl in Ha; [|destruct Ha; congruence]. destruct Ha as (pos & Hu & _). apply Hu in Hi, Hj. congruence.
Qed.

(** The entries of the targets that were found, and the names of those that were not. *)
Definition found_entries (region_base : Z) (ts : list TargetSpec) (found : list (option nat)) : list ResolvedTarget :=
  omap (λ '(t, o), entry region_base t <$> o) (zip ts found).
Definition absent_names (ts : list TargetSpec) (found : list (option nat)) : list Chars :=
  omap (λ '(t, o), match o with Some _ => None | None => Some (t_name t) end) (zip ts found).

Lemma resolve_all_spec image base ts :
  Forall readable ts → Z.of_nat (length image) ≤ i64_max →
  match resolve_all ts image base with
  | Ok r => ∃ found, Forall2 (accounted image) ts found ∧ r = (found_entries base ts found, absent_names ts found)
  | Err _ => ¬ Forall (λ t, ∃ o, accounted image t o) ts
  end.
Proof.
  intros Hts Himg. induction Hts as [|t ts Ht Hts IH]; simpl; [by exists []|].
  pose proof (resolve_target_spec image base t Ht Himg) as H.
  destruct (resolve_target t image base) as [o|e]; simpl.
  - destruct H as (f & Hf & ->). destruct (resolve_all ts image base) as [r|e]; simpl.
    + destruct IH as (fs & Hfs & ->). exists (f :: fs). split; [by constructor|]. by destruct f.
    + by intros [_ ?]%Forall_cons.
  - intros [[o Ho] _]%Forall_cons. by apply (H o).
Qed.

(** C36: resolution is fail-closed and exact.  Take a profile that was read, and an
    image a slice can hold.  If [resolve] succeeds, every target is accounted for, in
    order: its signature matches the image at exactly one offset and its exact prologue
    is there, at the index and address reported; or it is optional, matches nowhere and
    is listed as absent.  If it refuses, some target cannot be accounted for, so nothing
    that could be hooked safely is refused either. *)
Theorem resolve_fail_closed raw p image base :
  from_raw raw = Ok p → Z.of_nat (length image) ≤ i64_max →
  match resolve p image base with
  | Ok r => ∃ found, Forall2 (accounted image) (targets p) found ∧
      r = MkResolvedProfile (p_name p) (found_entries base (targets p) found) (absent_names (targets p) found)
  | Err _ => ¬ Forall (λ t, ∃ o, accounted image t o) (targets p)
  end.
Proof.
  intros (Hr & _)%from_raw_readable Himg. unfold resolve.
  pose proof (resolve_all_spec image base _ Hr Himg) as H. destruct (resolve_all _ _ _) as [r|]; simpl; [|done].
  destruct H as (found & ? & ->). by exists found.
Qed.

(** The sample profile of the crate's tests, and an image with its targets. *)
Definition sample_profile : RawProfile :=
  MkRawProfile (chars "Test build") (Some 0x140000000) (Some (chars ".text"))
    (MkBuildIdentity (chars "AABBCC") (Some 1024) (Some 0x675ABCC6))
    [MkRawTarget (chars "alpha") (chars "40 53 41 56") 0 (chars "40 53 41 56") true;
     MkRawTarget (chars "beta") (chars "E8 ?? ?? ?? ?? 8B 40 04") 5 (chars "8B 40 04") false].
Definition sample_image : list Z :=
  replicate 8 0x90 ++ [0x40; 0x53; 0x41; 0x56] ++ [0xE8; 0x11; 0x22; 0x33; 0x44; 0x8B; 0x40; 0x04] ++ replicate 8 0x90.

Lemma resolve_fail_closed_witness :
  ∃ p, from_raw sample_profile = Ok p ∧
  resolve p sample_image 0x1000 =
    Ok (MkResolvedProfile (chars "Test build")
          [MkResolvedTarget (chars "alpha") 0x1008 8 true; MkResolvedTarget (chars "beta") 0x1011 17 false] []) ∧
  ∃ found, Forall2 (accounted sample_image) (targets p) found.
Proof.
  eexists. split; [vm_compute; reflexivity|]. split; [vm_compute; reflexivity|].
  match goal with |- ∃ found, Forall2 _ (targets ?p) _ =>
    destruct (resolve_fail_closed sample_profile p sample_image 0x1000) as (found & H & _) end;
    [vm_compute; reflexivity|vm_compute; discriminate|by exists found].
Defined.
