(* ===== verification/Detour.v ===== *)
(** Patching a function of the game ([crates/tpf3mp-hookcore/src/detour/x86_64.rs], and
    [write_code] of [detour/sys.rs]): its first instructions are moved to a trampoline and
    replaced by a jump to the hook's function.

    Memory is a function from addresses to bytes.  Decoding and re-encoding of
    instructions is a library's (iced-x86), and what the system's calls return is an
    argument. *)
From S2P Require Import Prelude Proto.
Local Open Scope Z_scope.

Definition ABS_JMP_LEN : Z := 14.
Definition REL_JMP_LEN : Z := 5.
Definition PROLOGUE_SCAN : Z := 32.

Inductive DetourError :=
  | UnsupportedPrologue (at_ : Z)
  | EncodeFailed
  | Protect (os : Z)
  | Alloc (os : Z).

(** * Memory *)
Abbreviation Memory := (Z → Z).

Definition read_at (m : Memory) (address : Z) (n : nat) : list Z := (λ i, m (address + i)) <$> seqZ 0 (Z.of_nat n).

Definition write_at (m : Memory) (address : Z) (bytes : list Z) : Memory := λ a,
  if (address <=? a) && (a <? address + Z.of_nat (length bytes)) then default 0 (bytes !! Z.to_nat (a - address)) else m a.

(** [sys::write_code]: nothing is written if the protection cannot be changed. *)
Definition write_code (m : Memory) (dst : Z) (bytes : list Z) (protected : result unit DetourError) : Memory * result unit DetourError :=
  match protected with
  | Err e => (m, Err e)
  | Ok _ => (write_at m dst bytes, Ok tt)
  end.

(** * Instructions *)
Record Insn := MkInsn { insn_len : nat; is_invalid : bool; straight : bool; insn_code : list Z }.

(** What is used of iced-x86: the next instruction of [code], which is not empty, at
    an address, and a block of instructions encoded for another. *)
Record Iced := {
  decode_insn : list Z → Z → Insn;
  encode_insns : list Insn → Z → option (list Z);
}.

Definition fits_i32 (value : Z) : bool := (- 2 ^ 31 <=? value) && (value <=? 2 ^ 31 - 1).

Definition abs_jmp (to : Z) : list Z := [255; 37; 0; 0; 0; 0] ++ to_le_bytes 8 to.

(** [Vec::resize] with [0xCC]. *)
Definition resize (bytes : list Z) (n : nat) : list Z := firstn n bytes ++ replicate (n - length bytes) 204.

Definition abs_jmp_patch (to : Z) (steal_len : nat) : list Z := resize (abs_jmp to) steal_len.

Definition rel_jmp_patch (after to : Z) (steal_len : nat) : list Z :=
  let displacement := (to - after) mod 2 ^ 32 in
  resize ([233] ++ to_le_bytes 4 displacement) steal_len.

Section detour.
Context (I : Iced).

(** [decode_prologue]; an instruction is at least a byte, so that [length code]
    rounds are enough. *)
Fixpoint decode_from (fuel : nat) (code : list Z) (ip : Z) (min : Z) (instrs : list Insn) (covered : nat) :
    result (list Insn * nat) DetourError :=
  if min <=? Z.of_nat covered then Ok (instrs, covered)
  else
    match fuel, skipn covered code with
    | S fuel, (_ :: _) as rest =>
        let insn := decode_insn I rest (ip + Z.of_nat covered) in
        if is_invalid insn then Err (UnsupportedPrologue (Z.of_nat covered))
        else if negb (straight insn) then Err (UnsupportedPrologue (Z.of_nat covered))
        else decode_from fuel code ip min (instrs ++ [insn]) (covered + insn_len insn)
    | _, _ => Err (UnsupportedPrologue (Z.of_nat covered))
    end.

Definition decode_prologue (code : list Z) (ip : Z) (min : Z) : result (list Insn * nat) DetourError :=
  decode_from (length code) code ip min [] 0.

Definition encode_block (instrs : list Insn) (rip : Z) : result (list Z) DetourError := ok_or (encode_insns I instrs rip) EncodeFailed.

(** ** The detour *)
Record InlineDetour := MkInlineDetour {
  d_target : Z;
  steal_len : nat;
  original : list Z;
  trampoline : Z;
  d_active : bool;
}.

(** What the system's calls return: how many bytes can be read, where the trampoline
    is, whether it can be made executable, whether the code can be written. *)
Record Sys := MkSys {
  readable : nat;
  alloc_near : result Z DetourError;
  make_executable : result unit DetourError;
  protect : result unit DetourError;
}.

Definition install (m : Memory) (target detour : Z) (sys : Sys) : Memory * result InlineDetour DetourError :=
  let rel_ok := fits_i32 (detour - (target + REL_JMP_LEN)) in
  let min_patch := if rel_ok then REL_JMP_LEN else ABS_JMP_LEN in
  let scan := Nat.min (readable sys) (Z.to_nat PROLOGUE_SCAN) in
  let code := read_at m target scan in
  match decode_prologue code target min_patch with
  | Err e => (m, Err e)
  | Ok (instrs, steal) =>
      match alloc_near sys with
      | Err e => (m, Err e)
      | Ok tramp =>
          match encode_block instrs tramp with
          | Err e => (m, Err e)
          | Ok relocated =>
              let body := relocated ++ abs_jmp (target + Z.of_nat steal) in
              if Z.of_nat steal + ABS_JMP_LEN + 64 <? Z.of_nat (length body) then (m, Err EncodeFailed)
              else
                let m := write_at m tramp body in
                match make_executable sys with
                | Err e => (m, Err e)
                | Ok _ =>
                    let patch := if rel_ok then rel_jmp_patch (target + REL_JMP_LEN) detour steal else abs_jmp_patch detour steal in
                    match write_code m target patch (protect sys) with
                    | (m, Err e) => (m, Err e)
                    | (m, Ok _) => (m, Ok (MkInlineDetour target steal (firstn steal code) tramp true))
                    end
                end
          end
      end
  end.

Definition restore (m : Memory) (d : InlineDetour) (protected : result unit DetourError) : Memory * InlineDetour * result unit DetourError :=
  if d_active d then
    match write_code m (d_target d) (original d) protected with
    | (m, Err e) => (m, d, Err e)
    | (m, Ok _) => (m, MkInlineDetour (d_target d) (steal_len d) (original d) (trampoline d) false, Ok tt)
    end
  else (m, d, Ok tt).
End detour.

(** * What the processor makes of it

    Where a jump at an address goes: [jmp rel32], or [jmp \[rip+0\]] through the eight
    bytes behind it. *)
Definition signed32 (n : Z) : Z := if n <? 2 ^ 31 then n else n - 2 ^ 32.

Definition jump_at (m : Memory) (address : Z) : option Z :=
  if m address =? 233 then Some ((address + 5 + signed32 (from_le_bytes (read_at m (address + 1) 4))) mod 2 ^ 64)
  else if bool_decide (read_at m address 6 = [255; 37; 0; 0; 0; 0]) then Some (from_le_bytes (read_at m (address + 6) 8))
  else None.

(** * Lemmas on memory *)
Lemma read_at_length m a n : length (read_at m a n) = n.
Proof. unfold read_at. rewrite length_fmap, length_seqZ. lia. Qed.

Lemma read_at_lookup m a n i : (i < n)%nat → read_at m a n !! i = Some (m (a + Z.of_nat i)).
Proof.
  intros. unfold read_at. rewrite list_lookup_fmap, lookup_seqZ_lt by lia.
  cbn. do 2 f_equal.
Qed.

Lemma list_is_read m a l : (∀ i x, l !! i = Some x → m (a + Z.of_nat i) = x) → read_at m a (length l) = l.
Proof.
  intros Hl. apply list_eq_same_length with (n := length l); [done | by rewrite read_at_length |].
  intros i x y Hi Hx Hy. rewrite read_at_lookup in Hx by done. injection Hx as <-. by apply Hl.
Qed.

Lemma write_at_outside m a l b : ¬ (a ≤ b < a + Z.of_nat (length l)) → write_at m a l b = m b.
Proof. unfold write_at. intros ?. destruct (Z.leb_spec a b), (Z.ltb_spec b (a + Z.of_nat (length l))); cbn; [lia | done..]. Qed.

Lemma write_at_inside m a l i x : l !! i = Some x → write_at m a l (a + Z.of_nat i) = x.
Proof.
  intros Hi. pose proof (lookup_lt_Some _ _ _ Hi). unfold write_at.
  rewrite (proj2 (Z.leb_le _ _)), (proj2 (Z.ltb_lt _ _)) by lia. cbn.
  replace (Z.to_nat (a + Z.of_nat i - a)) with i by lia. by rewrite Hi.
Qed.

(** What a write of [l1 ++ l2 ++ l3] leaves where [l2] was put. *)
Lemma read_written m a l1 l2 l3 : read_at (write_at m a (l1 ++ l2 ++ l3)) (a + Z.of_nat (length l1)) (length l2) = l2.
Proof.
  apply list_is_read. intros i x Hi.
  rewrite <- Z.add_assoc, <- Nat2Z.inj_add. apply write_at_inside.
  rewrite lookup_app_r by lia. rewrite lookup_app_l by (apply lookup_lt_Some in Hi; lia).
  by replace (length l1 + i - length l1)%nat with i by lia.
Qed.

Lemma read_at_other m m' a n : (∀ b, a ≤ b < a + Z.of_nat n → m' b = m b) → read_at m' a n = read_at m a n.
Proof.
  intros Hm. unfold read_at. apply list_fmap_ext. intros i x Hx. apply lookup_seqZ in Hx.
  apply Hm. lia.
Qed.

Lemma read_at_take m a n k : (k ≤ n)%nat → firstn k (read_at m a n) = read_at m a k.
Proof.
  intros. apply list_eq_same_length with (n := k); [by rewrite read_at_length | rewrite length_take, read_at_length; lia |].
  intros i x y Hi Hx Hy. rewrite lookup_take_lt, read_at_lookup in Hx by lia. rewrite read_at_lookup in Hy by lia. congruence.
Qed.

(** Writing back what was read undoes every write inside the range. *)
Lemma read_at_skip m a n k : skipn k (read_at m a n) = read_at m (a + Z.of_nat k) (n - k).
Proof.
  apply list_eq. intros i. rewrite lookup_drop. destruct (decide (i < n - k)%nat).
  - rewrite !read_at_lookup by lia. do 2 f_equal. lia.
  - rewrite !lookup_ge_None_2; [done | rewrite read_at_length; lia..].
Qed.

Lemma write_back m m' a n b : (¬ (a ≤ b < a + Z.of_nat n) → m' b = m b) → write_at m' a (read_at m a n) b = m b.
Proof.
  intros Hm. destruct (decide (a ≤ b < a + Z.of_nat n)) as [Hb | Hb].
  - replace b with (a + Z.of_nat (Z.to_nat (b - a))) by lia.
    apply write_at_inside. rewrite read_at_lookup by lia. done.
  - rewrite write_at_outside; [auto | by rewrite read_at_length].
Qed.

(** * Lemmas on jumps *)
Lemma resize_long bytes n : (length bytes ≤ n)%nat → resize bytes n = bytes ++ replicate (n - length bytes) 204.
Proof. intros. unfold resize. by rewrite take_ge. Qed.

Lemma jump_abs m a to l1 l2 : 0 ≤ to < 2 ^ 64 → jump_at (write_at m a (l1 ++ abs_jmp to ++ l2)) (a + Z.of_nat (length l1)) = Some to.
Proof.
  intros Hto. unfold jump_at.
  set (m' := write_at _ _ _).
  assert (Hm' : read_at m' (a + Z.of_nat (length l1)) 6 = [255; 37; 0; 0; 0; 0]).
  { subst m'. unfold abs_jmp. rewrite <- app_assoc. apply (read_written m a l1 [255; 37; 0; 0; 0; 0]). }
  assert (Ha : m' (a + Z.of_nat (length l1)) = 255).
  { pose proof (read_at_lookup m' (a + Z.of_nat (length l1)) 6 0 ltac:(lia)) as H0. rewrite Hm' in H0.
    cbn in H0. rewrite Z.add_0_r in H0. congruence. }
  rewrite Ha, Hm'. cbn [Z.eqb Pos.eqb]. rewrite bool_decide_eq_true_2 by done. f_equal.
  replace (read_at m' (a + Z.of_nat (length l1) + 6) 8) with (to_le_bytes 8 to).
  { apply le_bytes_roundtrip. replace (256 ^ Z.of_nat 8) with (2 ^ 64) by reflexivity. done. }
  symmetry. subst m'. unfold abs_jmp.
  pose proof (read_written m a (l1 ++ [255; 37; 0; 0; 0; 0]) (to_le_bytes 8 to) l2) as Hr.
  rewrite to_le_bytes_length, length_app in Hr. rewrite <- !app_assoc in Hr. rewrite <- !app_assoc.
  rewrite <- Hr at 2. f_equal. cbn [length]. lia.
Qed.

Lemma signed_displacement n : fits_i32 n = true → signed32 (n mod 2 ^ 32) = n.
Proof.
  unfold fits_i32, signed32. intros [H1%Z.leb_le H2%Z.leb_le]%andb_prop.
  destruct (decide (0 ≤ n)).
  - rewrite Z.mod_small by lia. destruct (Z.ltb_spec n (2 ^ 31)); lia.
  - replace (n mod 2 ^ 32) with (n + 2 ^ 32).
    + destruct (Z.ltb_spec (n + 2 ^ 32) (2 ^ 31)); lia.
    + rewrite <- (Z.mod_small (n + 2 ^ 32) (2 ^ 32)) by lia.
      rewrite <- (Z.mul_1_l (2 ^ 32)) at 1. apply Z.mod_add. lia.
Qed.

Lemma jump_rel m a to l : 0 ≤ to < 2 ^ 64 → fits_i32 (to - (a + REL_JMP_LEN)) = true →
  jump_at (write_at m a ([233] ++ to_le_bytes 4 ((to - (a + REL_JMP_LEN)) mod 2 ^ 32) ++ l)) a = Some to.
Proof.
  intros Hto Hfit. set (n := to - (a + REL_JMP_LEN)) in *. unfold jump_at.
  replace (write_at _ _ _ a) with 233.
  2:{ symmetry. rewrite <- (Z.add_0_r a) at 2. by apply (write_at_inside m a _ 0). }
  cbn [Z.eqb Pos.eqb].
  replace (read_at _ _ 4) with (to_le_bytes 4 (n mod 2 ^ 32)).
  2:{ pose proof (read_written m a [233] (to_le_bytes 4 (n mod 2 ^ 32)) l) as Hr.
      rewrite to_le_bytes_length in Hr. symmetry. exact Hr. }
  rewrite le_bytes_roundtrip.
  2:{ replace (256 ^ Z.of_nat 4) with (2 ^ 32) by reflexivity. apply Z.mod_pos_bound. lia. }
  rewrite signed_displacement by done. f_equal.
  subst n. unfold REL_JMP_LEN. rewrite Z.mod_small by lia. lia.
Qed.

(** * The prologue *)
(** What the decoder promises: an instruction it decodes lies within the code it was
    given. *)
Definition decodes_within (I : Iced) : Prop := ∀ code ip,
  code ≠ [] → is_invalid (decode_insn I code ip) = false → (1 ≤ insn_len (decode_insn I code ip) ≤ length code)%nat.

Definition movable (insn : Insn) : Prop := is_invalid insn = false ∧ straight insn = true.

(** The instructions stand in memory one behind the other from [a] on, each as the
    decoder reads the bytes from its first one to [limit] at its own address, and can
    be moved. *)
Fixpoint stand (I : Iced) (m : Memory) (limit a : Z) (instrs : list Insn) : Prop :=
  match instrs with
  | [] => True
  | insn :: instrs =>
      a < limit ∧ decode_insn I (read_at m a (Z.to_nat (limit - a))) a = insn ∧ movable insn ∧
      stand I m limit (a + Z.of_nat (insn_len insn)) instrs
  end.

Section prologue.
Context (I : Iced) (Hwithin : decodes_within I).

Lemma decode_from_ok fuel code ip min instrs covered instrs' steal :
  decode_from I fuel code ip min instrs covered = Ok (instrs', steal) →
  (covered ≤ length code)%nat → covered = sum_list_with insn_len instrs → Forall movable instrs →
  min ≤ Z.of_nat steal ∧ (steal ≤ length code)%nat ∧ steal = sum_list_with insn_len instrs' ∧ Forall movable instrs'.
Proof.
  revert instrs covered. induction fuel as [|fuel IH]; intros instrs covered; cbn [decode_from];
    destruct (Z.leb_spec min (Z.of_nat covered)); [naive_solver | discriminate | naive_solver |].
  intros Hd Hc Hs Hm. destruct (skipn covered code) as [|b rest] eqn:Hrest; [discriminate|].
  pose proof (f_equal length Hrest) as Hl. rewrite length_drop in Hl. cbn [length] in Hl.
  destruct (is_invalid _) eqn:Hi in Hd; [discriminate|].
  destruct (straight _) eqn:Ht in Hd; [|discriminate]. cbn [negb] in Hd.
  apply (Hwithin (b :: rest)) in Hi as Hlen; [|done]. cbn [length] in Hlen.
  apply IH in Hd; [done | lia | |].
  - rewrite sum_list_with_app. cbn. lia.
  - apply Forall_app. by repeat constructor.
Qed.

(** The instructions found are those the code holds, each decoded where it stands, and
    no more of them than are needed. *)
Lemma decode_from_stand m target scan fuel min instrs covered instrs' steal :
  decode_from I fuel (read_at m target scan) target min instrs covered = Ok (instrs', steal) → (covered ≤ scan)%nat →
  ∃ more, instrs' = instrs ++ more ∧ stand I m (target + Z.of_nat scan) (target + Z.of_nat covered) more ∧
    steal = (covered + sum_list_with insn_len more)%nat ∧
    ∀ init last, more = init ++ [last] → Z.of_nat (covered + sum_list_with insn_len init) < min.
Proof.
  revert instrs covered. induction fuel as [|fuel IH]; intros instrs covered; cbn [decode_from];
    destruct (Z.leb_spec min (Z.of_nat covered)); [| discriminate | |].
  1,2: intros [= <- <-] _; exists []; rewrite app_nil_r; split; [done|]; split; [done|]; split; [cbn; lia | by intros []].
  intros Hd Hc. destruct (skipn covered (read_at m target scan)) as [|b rest] eqn:Hrest; [discriminate|].
  pose proof (f_equal length Hrest) as Hl. rewrite length_drop, read_at_length in Hl. cbn [length] in Hl.
  rewrite read_at_skip in Hrest. destruct (is_invalid _) eqn:Hi in Hd; [discriminate|].
  destruct (straight _) eqn:Ht in Hd; [|discriminate]. cbn [negb] in Hd.
  apply (Hwithin (b :: rest)) in Hi as Hlen; [|done]. cbn [length] in Hlen.
  set (insn := decode_insn I (b :: rest) (target + Z.of_nat covered)) in *.
  apply IH in Hd as (more & -> & Hs & -> & Hmin); [|lia]. exists (insn :: more). rewrite <- app_assoc. split; [done|].
  split; [|split; [cbn; lia|]].
  - cbn [stand]. split; [lia|]. split.
    + replace (Z.to_nat (target + Z.of_nat scan - (target + Z.of_nat covered))) with (scan - covered)%nat by lia. by rewrite Hrest.
    + split; [done|]. by rewrite <- Z.add_assoc, <- Nat2Z.inj_add.
  - intros [|i init] last' E; [cbn; lia|]. injection E as -> E. specialize (Hmin init last' E). cbn. lia.
Qed.

(** The fuel [decode_prologue] gives is enough: more changes nothing. *)
Lemma decode_from_enough fuel code ip min instrs covered : (length code ≤ fuel + covered)%nat →
  decode_from I (S fuel) code ip min instrs covered = decode_from I fuel code ip min instrs covered.
Proof.
  revert instrs covered. induction fuel as [|fuel IH]; intros instrs covered Hf.
  - cbn [decode_from]. destruct (min <=? _); [done|]. by rewrite skipn_all2 by lia.
  - set (f := S fuel) in *. cbn [decode_from]. subst f. cbn [decode_from]. destruct (min <=? _); [done|].
    destruct (skipn covered code) as [|b rest] eqn:Hrest; [done|].
    destruct (is_invalid _) eqn:Hi; [done|]. destruct (negb _); [done|].
    apply (Hwithin (b :: rest)) in Hi; [|done]. apply IH. lia.
Qed.
End prologue.

(** * Installing and removing *)
(** The addresses of a trampoline for as many bytes as are ever moved. *)
Definition in_buffer (tramp a : Z) : Prop := tramp ≤ a < tramp + PROLOGUE_SCAN + ABS_JMP_LEN + 64.

Lemma patch_jumps m target detour steal : 0 ≤ detour < 2 ^ 64 →
  let rel_ok := fits_i32 (detour - (target + REL_JMP_LEN)) in
  let patch := if rel_ok then rel_jmp_patch (target + REL_JMP_LEN) detour steal else abs_jmp_patch detour steal in
  (if rel_ok then REL_JMP_LEN else ABS_JMP_LEN) ≤ Z.of_nat steal →
  length patch = steal ∧ jump_at (write_at m target patch) target = Some detour.
Proof.
  intros Hdet rel_ok patch Hmin. subst patch rel_ok. destruct (fits_i32 _) eqn:Hfit; unfold REL_JMP_LEN, ABS_JMP_LEN in Hmin.
  - unfold rel_jmp_patch. rewrite resize_long by (rewrite length_app, to_le_bytes_length; cbn; lia). split.
    + rewrite !length_app, length_replicate, to_le_bytes_length. cbn [length]. lia.
    + rewrite <- app_assoc. by apply jump_rel.
  - unfold abs_jmp_patch. rewrite resize_long by (cbn; lia). split.
    + rewrite !length_app, length_replicate. cbn [length]. change (length (abs_jmp detour)) with 14%nat. lia.
    + pose proof (jump_abs m target detour [] (replicate (steal - length (abs_jmp detour)) 204) Hdet) as Hj.
      cbn [length app] in Hj. by rewrite Z.add_0_r in Hj.
Qed.

Lemma jump_at_other m m' a : (∀ b, a ≤ b < a + ABS_JMP_LEN → m' b = m b) → jump_at m' a = jump_at m a.
Proof.
  unfold ABS_JMP_LEN. intros Hm. unfold jump_at. rewrite (Hm a) by lia.
  by rewrite !(read_at_other m m') by (intros; apply Hm; lia).
Qed.

(** C37: Patching a function of the game is all or nothing and can be undone.  If
    [install] succeeds, the function begins with a jump to the hook's function.  The
    instructions moved are those the function began with, each decoded from the bytes
    at its own address, all of them straight-line, and only as many as have the bytes
    the jump needs: five if the hook's function is within its reach, and fourteen if it
    is not.  The trampoline holds them, encoded for their new place, and behind
    them a jump to the first instruction that was left.  No other byte of memory has
    changed, and removing the detour gives every byte outside the trampoline back.  If
    [install] is refused, for whatever reason, the code of the game is as it was.  The
    trampoline is memory of its own, and the decoder finds no instruction longer than
    the bytes it is given. *)
Theorem detour_patches (I : Iced) (m : Memory) (target detour : Z) (sys : Sys) :
  decodes_within I → 0 ≤ target → target + PROLOGUE_SCAN < 2 ^ 64 → 0 ≤ detour < 2 ^ 64 →
  (∀ tramp a, alloc_near sys = Ok tramp → target ≤ a < target + PROLOGUE_SCAN → ¬ in_buffer tramp a) →
  match install I m target detour sys with
  | (m', Err _) => ∀ a, (∀ tramp, alloc_near sys = Ok tramp → ¬ in_buffer tramp a) → m' a = m a
  | (m', Ok d) => ∃ instrs relocated,
      stand I m (target + Z.of_nat (Nat.min (readable sys) 32)) target instrs ∧
      sum_list_with insn_len instrs = steal_len d ∧
      (let needed := if decide (- 2 ^ 31 ≤ detour - (target + 5) < 2 ^ 31) then 5 else 14 in
       needed ≤ Z.of_nat (steal_len d) ∧ ∀ init last, instrs = init ++ [last] → Z.of_nat (sum_list_with insn_len init) < needed) ∧
      encode_insns I instrs (trampoline d) = Some relocated ∧
      jump_at m' target = Some detour ∧
      read_at m' (trampoline d) (length relocated) = relocated ∧
      jump_at m' (trampoline d + Z.of_nat (length relocated)) = Some (target + Z.of_nat (steal_len d)) ∧
      (∀ a, ¬ (target ≤ a < target + Z.of_nat (steal_len d)) → ¬ in_buffer (trampoline d) a → m' a = m a) ∧
      ∀ a, ¬ in_buffer (trampoline d) a → (restore m' d (Ok tt)).1.1 a = m a
  end.
Proof.
  intros Hwithin Ht0 Ht Hdet Hfresh. unfold install.
  set (min_patch := if fits_i32 _ then REL_JMP_LEN else ABS_JMP_LEN).
  set (code := read_at m target _).
  destruct (decode_prologue I code target min_patch) as [[instrs steal]|e] eqn:Hdec; [|done].
  destruct (alloc_near sys) as [tramp|e] eqn:Halloc; [|done].
  unfold encode_block. destruct (encode_insns I instrs tramp) as [relocated|] eqn:Henc; cbn [ok_or]; [|done].
  destruct (Z.ltb_spec (Z.of_nat steal + ABS_JMP_LEN + 64) (Z.of_nat (length (relocated ++ abs_jmp (target + Z.of_nat steal))))) as [|Hfits]; [done|].
  pose proof (decode_from_stand I Hwithin _ _ _ _ _ _ _ _ _ Hdec ltac:(lia)) as (more & -> & Hstand & Hsteal' & Hfew). cbn [app Nat.add] in *.
  rewrite Z.add_0_r in Hstand. assert (Hneeded : (if decide (- 2 ^ 31 ≤ detour - (target + 5) < 2 ^ 31) then 5 else 14) = min_patch).
  { unfold min_patch, fits_i32, REL_JMP_LEN. destruct (decide _), ((_ <=? _) && _) eqn:E; try done; lia. }
  apply decode_from_ok in Hdec as (Hmin & Hsteal & Hsum & Hmov); [|done | cbn; lia | done | constructor]. clear Hsteal'.
  assert (Z.of_nat steal ≤ PROLOGUE_SCAN) as Hscan.
  { unfold code in Hsteal. rewrite read_at_length in Hsteal. unfold PROLOGUE_SCAN in *. lia. }
  specialize (Hfresh tramp). unfold in_buffer in *.
  set (body := relocated ++ abs_jmp (target + Z.of_nat steal)) in *.
  destruct (make_executable sys) as [[]|e]; cycle 1.
  { intros a Ha. specialize (Ha tramp eq_refl). apply write_at_outside. lia. }
  destruct (patch_jumps (write_at m tramp body) target detour steal Hdet Hmin) as [Hlen Hjump].
  set (patch := if fits_i32 _ then rel_jmp_patch _ _ _ else _) in *.
  unfold write_code at 1. destruct (protect sys) as [[]|e]; cycle 1.
  { intros a Ha. specialize (Ha tramp eq_refl). apply write_at_outside. lia. }
  assert (Hkept : ∀ b, tramp ≤ b < tramp + Z.of_nat (length body) → write_at (write_at m tramp body) target patch b = write_at m tramp body b).
  { intros b Hb. apply write_at_outside. rewrite Hlen. intros Hb'. eapply (Hfresh b); [done | lia | lia]. }
  assert (Hbody : Z.of_nat (length body) = Z.of_nat (length relocated) + ABS_JMP_LEN).
  { unfold body. rewrite length_app, Nat2Z.inj_add. done. }
  exists more, relocated. cbn [steal_len trampoline]. rewrite Hneeded.
  split; [exact Hstand|]. split; [done|]. split; [done|]. split; [done|]. split; [exact Hjump|]. split; [|split; [|split]].
  - rewrite (read_at_other (write_at m tramp body)) by (intros; apply Hkept; unfold ABS_JMP_LEN in *; lia).
    pose proof (read_written m tramp [] relocated (abs_jmp (target + Z.of_nat steal))) as Hr.
    cbn [length app] in Hr. by rewrite Z.add_0_r in Hr.
  - rewrite (jump_at_other (write_at m tramp body)) by (intros; apply Hkept; unfold ABS_JMP_LEN in *; lia).
    pose proof (jump_abs m tramp (target + Z.of_nat steal) relocated []) as Hj. rewrite app_nil_r in Hj. apply Hj. lia.
  - intros a Ha1 Ha2. rewrite !write_at_outside by lia. done.
  - intros a Ha. unfold restore. cbn [d_active d_target original write_code fst].
    unfold code. rewrite read_at_take by (unfold code in Hsteal; by rewrite read_at_length in Hsteal).
    apply write_back. intros Hout. rewrite !write_at_outside by lia. done.
Qed.

(** A function of fourteen one-byte instructions at 4096, hooked from far away. *)
Definition nops : Iced := {|
  decode_insn code ip := MkInsn 1 (negb (default 0 (head code) =? 144)) true [144];
  encode_insns instrs rip := Some (instrs ≫= insn_code);
|}.

Definition nop_memory : Memory := λ _, 144.
Definition nop_sys : Sys := MkSys 32 (Ok 65536) (Ok tt) (Ok tt).

Lemma nops_installed : match (install nops nop_memory 4096 (2 ^ 40) nop_sys).2 with Ok d => steal_len d | Err _ => O end = 14%nat.
Proof. vm_compute. reflexivity. Qed.

Lemma nops_within : decodes_within nops.
Proof. intros [|b code] ip Hc _; [done|]. cbn. lia. Qed.

Lemma detour_patches_witness :
  match install nops nop_memory 4096 (2 ^ 40) nop_sys with
  | (m', Ok d) => steal_len d = 14%nat ∧ jump_at m' 4096 = Some (2 ^ 40) ∧
      ∀ a, ¬ in_buffer (trampoline d) a → (restore m' d (Ok tt)).1.1 a = 144
  | (_, Err _) => False
  end.
Proof.
  pose proof (detour_patches nops nop_memory 4096 (2 ^ 40) nop_sys nops_within ltac:(lia) ltac:(reflexivity) ltac:(lia)) as Hp.
  pose proof nops_installed as Hn.
  destruct (install nops nop_memory 4096 (2 ^ 40) nop_sys) as [m' [d|e]]; cbn [snd] in Hn; [|discriminate].
  destruct Hp as (instrs & relocated & _ & _ & _ & _ & Hjump & _ & _ & _ & Hback).
  { intros tramp a [= <-]. unfold in_buffer, PROLOGUE_SCAN, ABS_JMP_LEN. lia. }
  split; [exact Hn|]. split; [exact Hjump | exact Hback].
Defined.
