(* ===== verification/Server.v ===== *)
(** The server's connections and rooms together ([crates/tpf3mp-server/src/lib.rs],
    [connection.rs], [directory.rs]): how a connection is admitted and greeted, what a
    session does with each message, and the directory of rooms.

    Each session and each room is a task of its own.  A [Server] is what they share,
    with where every task waits: a handshake ([Handshaking]), a session between two
    messages or for a room's answer ([Waiting]), and a room with the commands queued
    for it ([RoomTask]).  [server_step] runs one task from where it waits to where it
    waits next; a run is any interleaving of such steps ([server_run]).

    The peer's bytes, the clock, the random numbers and the outcome of each write are
    arguments.  A room's handle is a number that is never used again, as a channel is. *)
From S2P Require Import Prelude Proto Codec Limit Verdict Snapshots Ruleset Game Persist Room Recover.
From S2P Require Admission.
Local Open Scope Z_scope.

Abbreviation Origin := Admission.Origin.

Definition ROOM_QUEUE : nat := 1024.
Definition REQUESTS_PER_SECOND : Z := 10.
Definition REQUEST_BURST : Z := 20.
Definition JOINS_PER_SECOND : Z := 1.
Definition JOIN_BURST : Z := 5.
Definition PROGRESS_PER_SECOND : Z := 200.
Definition PROGRESS_BURST : Z := 400.
Definition INTENTS_PER_SECOND : Z := 40.
Definition INTENT_BURST : Z := 80.

(** * State *)
Abbreviation Handle := nat (only parsing).
Abbreviation HandshakeId := nat (only parsing).

(** Why a handshake ended. *)
Inductive Refusal :=
  | RefusedVersion (version : Z)
  | RefusedFull
  | RefusedConnections
  | RefusedProof
  | RefusedViolation (e : NetError)
  | RefusedMessage
  | RefusedLost.

Definition refusal_close (r : Refusal) : option CloseCode :=
  match r with
  | RefusedVersion _ => Some VERSION_MISMATCH
  | RefusedFull | RefusedConnections | RefusedProof => Some REJECTED
  | RefusedViolation _ | RefusedMessage => Some PROTOCOL_VIOLATION
  | RefusedLost => None
  end.

(** A handshake under way: it holds its ticket; or it is being refused, and holds
    what it has not let go of yet; or it was admitted and is being welcomed, with a
    slot and the address's share. *)
Inductive Handshaking :=
  | Greeting (ticket : Origin)
  | Refusing (why : Refusal) (ticket : option Origin) (slot : bool)
  | Welcoming (hello : Hello) (share : Origin).

(** What a session waits for: its next message, or a room's answer to the request
    with an id. *)
Inductive Waiting :=
  | Reading
  | AskedMember (id : Z) (request : Request) (room : Handle)
  | AskedJoin (id : Z) (room : Handle)
  | AskedLeave (id : Z) (room : Handle)
  | AskedRoom (id : Z) (room : Handle).

(** [Answered None]: the room is gone, or went without answering. *)
Inductive Answer := Awaiting | Answered (reply : option Reply).

Record Client := MkClient {
  c_link : LinkId;
  c_player : PlayerId;
  c_name : Text;
  c_platform : Platform;
  c_share : Origin;               (* the address its session counts for *)
  c_origin : Origin;              (* the address its rooms count for *)
  c_room : option Handle;
  c_requests : TokenBucket;
  c_joins : TokenBucket;
  c_progress : TokenBucket;
  c_intents : TokenBucket;
  c_roomless_since : option Instant;
  c_waiting : Waiting;
  c_answer : Answer;
}.
#[export] Instance eta_Client : Eta Client := fun c =>
  MkClient (c_link c) (c_player c) (c_name c) (c_platform c) (c_share c) (c_origin c) (c_room c)
    (c_requests c) (c_joins c) (c_progress c) (c_intents c) (c_roomless_since c) (c_waiting c) (c_answer c).

(** A running room: the commands queued for it, each with the session that waits for
    its answer.  Those past the capacity are of sessions that wait to queue theirs. *)
Record RoomTask (R : Type) := MkRoomTask {
  t_room : Room R;
  t_queue : list (RoomCommand * option LinkId);
  t_share : option Origin;
}.
Arguments MkRoomTask {R}. Arguments t_room {R}. Arguments t_queue {R}. Arguments t_share {R}.
#[export] Instance eta_RoomTask {R} : Eta (RoomTask R) := fun t => MkRoomTask (t_room t) (t_queue t) (t_share t).

Inductive ServerOutput :=
  | ToPeer (h : HandshakeId) (message : ServerMessage)
  | ToClient (l : LinkId) (message : ServerMessage)
  | ClosePeer (h : HandshakeId) (code : CloseCode)
  | CloseClient (l : LinkId) (code : CloseCode).

Record Server (R : Type) := MkServer {
  s_slots : Z;                                   (* free session slots *)
  s_admission : Admission.Admission;
  s_handshakes : gmap HandshakeId Handshaking;
  s_clients : gmap LinkId Client;
  s_rooms : gmap RoomId Handle;                  (* [Directory::rooms] *)
  s_tasks : gmap Handle (RoomTask R);
  s_next_handshake : HandshakeId;
  s_next_link : LinkId;                          (* [NEXT_LINK] *)
  s_next_handle : Handle;
  s_started : list (LinkId * (HandshakeId * Hello)); (* the sessions ever started, by the connections they came over *)
  s_out : list ServerOutput;
}.
Arguments MkServer {R}. Arguments s_slots {R}. Arguments s_admission {R}. Arguments s_handshakes {R}.
Arguments s_clients {R}. Arguments s_rooms {R}. Arguments s_tasks {R}. Arguments s_next_handshake {R}.
Arguments s_next_link {R}. Arguments s_next_handle {R}. Arguments s_started {R}. Arguments s_out {R}.
#[export] Instance eta_Server {R} : Eta (Server R) := fun s =>
  MkServer (s_slots s) (s_admission s) (s_handshakes s) (s_clients s) (s_rooms s) (s_tasks s)
    (s_next_handshake s) (s_next_link s) (s_next_handle s) (s_started s) (s_out s).

(** What a server is set up with. *)
Record ServerConfig (R : Type) := MkServerConfig {
  g_limits : Admission.Limits;
  g_max_sessions : Z;
  g_max_rooms : nat;
  g_roomless_timeout : Duration;
  g_secret : list Z;
  g_rules : list (RulesChoice (R := R));
  g_env : RoomEnv;
  g_version : Text;
}.
Arguments g_limits {R}. Arguments g_max_sessions {R}. Arguments g_max_rooms {R}. Arguments g_roomless_timeout {R}.
Arguments g_secret {R}. Arguments g_rules {R}. Arguments g_env {R}. Arguments g_version {R}.

(** The random numbers a step may draw: room ids until one is free, an invite's token. *)
Record Draw := MkDraw { room_ids : list RoomId; token : Z }.

Section server.
Context {R : Type} {RS : Ruleset R} {P : Postcard TurnMessage} {PS : Postcard StartRecord}.
(** Whether a proof of an identity is good on a connection, by what the connection's
    keying material says ([Identity.verify_proof]). *)
Context (verify_proof : HandshakeId → PlayerId → Z → bool).
Context (hmac_sign : list Z → list Z → list Z) (hmac_verify : list Z → list Z → list Z → bool).
Context (crc : list Z → Z).
Context (outcome : Handle → nat → SendOutcome) (disk : Handle → nat → WriteOutcome).
Context (config : ServerConfig R).
Abbreviation server := (Server R).
Abbreviation limits := (g_limits config).

Definition say (s : server) (o : ServerOutput) : server := s <| s_out := s_out s ++ [o] |>.
Definition set_admission (s : server) (a : Admission.Admission) : server := s <| s_admission := a |>.
Definition put_client (s : server) (c : Client) : server := s <| s_clients := <[c_link c := c]> (s_clients s) |>.
Definition put_task (s : server) (h : Handle) (t : RoomTask R) : server := s <| s_tasks := <[h := t]> (s_tasks s) |>.
Definition drop_share (s : server) (k : Admission.Share) (o : Origin) : server :=
  set_admission s (Admission.drop_share (s_admission s) k o).

(** * Admission *)

(** [Server::admit]. *)
Definition admit_peer (s : server) (o : Origin) (validated may_retry : bool) : server :=
  match Admission.on_attempt limits (s_admission s) o validated may_retry with
  | (a, Admission.Accept) =>
      let h := s_next_handshake s in
      (set_admission s a) <| s_handshakes := <[h := Greeting o]> (s_handshakes s) |> <| s_next_handshake := S h |>
  | (a, _) => set_admission s a
  end.

(** The client's first words: the preamble, ours in return, and a [Hello]. *)
Definition greet (accepted : bool) (version : result Z NetError) (answered : result unit NetError)
    (message : result ClientMessage NetError) : result Hello Refusal :=
  if negb accepted then Err RefusedLost
  else
    match version with
    | Err e => Err (RefusedViolation e)
    | Ok version =>
        match answered with
        | Err e => Err (RefusedViolation e)
        | Ok _ =>
            if negb (version =? PROTOCOL_VERSION) then Err (RefusedVersion version)
            else
              match message with
              | Err e => Err (RefusedViolation e)
              | Ok (ClientHello hello) => Ok hello
              | Ok _ => Err RefusedMessage
              end
        end
    end.

Definition put_handshake (s : server) (h : HandshakeId) (hs : Handshaking) : server :=
  s <| s_handshakes := <[h := hs]> (s_handshakes s) |>.

(** [handshake], up to its last write. *)
Definition handshake (s : server) (h : HandshakeId) (ticket : Origin) (greeted : result Hello Refusal)
    (session : SessionId) : server :=
  match greeted with
  | Err why => put_handshake s h (Refusing why (Some ticket) false)
  | Ok hello =>
      if negb (verify_proof h (identity hello) (proof hello)) then
        say (put_handshake s h (Refusing RefusedProof (Some ticket) false)) (ToPeer h (Reject BadProof))
      else if s_slots s <=? 0 then
        say (put_handshake s h (Refusing RefusedFull (Some ticket) false)) (ToPeer h (Reject ServerFull))
      else
        let s := s <| s_slots := s_slots s - 1 |> in
        match Admission.into_session limits (s_admission s) ticket with
        | (a, false) =>
            say (put_handshake (set_admission s a) h (Refusing RefusedConnections None true))
              (ToPeer h (Reject TooManyConnections))
        | (a, true) =>
            say (put_handshake (set_admission s a) h (Welcoming hello ticket))
              (ToPeer h (Welcome (g_version config) session (menu_offers (g_rules config))))
        end
  end.

(** What a handshake that ends lets go of. *)
Definition drop_handshake (s : server) (h : HandshakeId) (hs : Handshaking) : server :=
  let s := s <| s_handshakes := delete h (s_handshakes s) |> in
  match hs with
  | Greeting o => drop_share s Admission.AHandshake o
  | Refusing _ ticket slot =>
      let s := match ticket with Some o => drop_share s Admission.AHandshake o | None => s end in
      if slot then s <| s_slots := s_slots s + 1 |> else s
  | Welcoming _ o => (drop_share s Admission.ASession o) <| s_slots := s_slots s + 1 |>
  end.

(** [Refusal::close]. *)
Definition close_refused (s : server) (h : HandshakeId) (why : Refusal) : server :=
  match refusal_close why with Some code => say s (ClosePeer h code) | None => s end.

(** [Client::new] and the first turn of its loop. *)
Definition Client_new (l : LinkId) (hello : Hello) (share origin : Origin) (now : Instant) : Client :=
  {| c_link := l;
     c_player := identity hello;
     c_name := hello_name hello;
     c_platform := hello_platform hello;
     c_share := share;
     c_origin := origin;
     c_room := None;
     c_requests := TokenBucket_new REQUESTS_PER_SECOND REQUEST_BURST now;
     c_joins := TokenBucket_new JOINS_PER_SECOND JOIN_BURST now;
     c_progress := TokenBucket_new PROGRESS_PER_SECOND PROGRESS_BURST now;
     c_intents := TokenBucket_new INTENTS_PER_SECOND INTENT_BURST now;
     c_roomless_since := Some now;
     c_waiting := Reading;
     c_answer := Awaiting |}.

Definition start_session (s : server) (h : HandshakeId) (hello : Hello) (share origin : Origin) (now : Instant) : server :=
  let l := s_next_link s in
  put_client
    (s <| s_handshakes := delete h (s_handshakes s) |> <| s_next_link := l + 1 |>
       <| s_started := s_started s ++ [(l, (h, hello))] |>)
    (Client_new l hello share origin now).

(** * Rooms *)

(** Queues a command; [None] when the room is gone. *)
Definition queue (s : server) (h : Handle) (command : RoomCommand) (asker : option LinkId) : option server :=
  match s_tasks s !! h with
  | None => None
  | Some t => Some (put_task s h (t <| t_queue := t_queue t ++ [(command, asker)] |>))
  end.

(** [RoomHandle::notify]: false when the room is gone or its queue is full. *)
Definition notify (s : server) (h : Handle) (command : RoomCommand) : server * bool :=
  match s_tasks s !! h with
  | None => (s, false)
  | Some t =>
      if (length (t_queue t) <? ROOM_QUEUE)%nat
      then (put_task s h (t <| t_queue := t_queue t ++ [(command, None)] |>), true)
      else (s, false)
  end.

(** [RoomHandle::request], up to the answer: the session waits for it. *)
Definition ask (s : server) (c : Client) (h : Handle) (command : RoomCommand) (waiting : Waiting) : server :=
  match queue s h command (Some (c_link c)) with
  | Some s => put_client s (c <| c_waiting := waiting |> <| c_answer := Awaiting |>)
  | None => put_client s (c <| c_waiting := waiting |> <| c_answer := Answered None |>)
  end.

(** A session hears a room's answer, if it still waits. *)
Definition deliver (s : server) (asker : option LinkId) (reply : option Reply) : server :=
  match asker with
  | None => s
  | Some l =>
      match s_clients s !! l with
      | None => s
      | Some c => put_client s (c <| c_answer := Answered reply |>)
      end
  end.

(** [loop] of [Directory::create]: the first id that is free; [None] while none of
    those drawn was. *)
Definition draw_id (s : server) (draw : Draw) : option RoomId :=
  List.find (λ id, bool_decide (s_rooms s !! id = None)) (room_ids draw).

Definition new_member (c : Client) : NewMember := MkNewMember (c_player c) (c_name c) (c_platform c) (c_link c).

Definition room_secrets (id : RoomId) (token : Z) (password : option Text) : RoomSecrets :=
  MkRoomSecrets (g_secret config) (hmac_sign (g_secret config) (invite_input id token))
    ((λ password, hmac_sign (g_secret config) (password_input id password)) <$> password).

(** [Directory::create], once the address has its share of rooms; [None] while it
    draws ids. *)
Definition create (s : server) (creator : NewMember) (request : CreateRoom) (share : Origin) (draw : Draw)
    (now : Instant) : option (server * result (Handle * Invite * RoomView) RequestError) :=
  if negb (settings_valid (create_settings request))
     || negb (contains_incl 1 MAX_ROOM_MEMBERS (create_max_players request))
  then Some (drop_share s Admission.ARoom share, Err InvalidSettings)
  else
    match menu_find (g_rules config) (create_rules request) with
    | None => Some (drop_share s Admission.ARoom share, Err UnknownRules)
    | Some rules =>
        if (g_max_rooms config <=? size (s_rooms s))%nat
        then Some (drop_share s Admission.ARoom share, Err TooManyRooms)
        else
          match draw_id s draw with
          | None => None
          | Some id =>
              let env := g_env config in
              let r := Room_new id (create_name request) (rules_name rules) (create_max_players request)
                (create_settings request) (room_secrets id (token draw) (create_password request))
                (factory rules tt) (env_data_dir env) (env_timeouts env) (env_snapshots env)
                (env_compact_log_at env) creator now in
              let h := s_next_handle s in
              Some (s <| s_tasks := <[h := MkRoomTask r [] (Some share)]> (s_tasks s) |>
                      <| s_rooms := <[id := h]> (s_rooms s) |> <| s_next_handle := S h |>,
                    Ok (h, MkInvite id (token draw), view r))
          end
    end.

(** * Sessions *)

(** The top of the session's loop: outside any room, its time runs. *)
Definition next_message (c : Client) (now : Instant) : Client :=
  c <| c_waiting := Reading |> <| c_answer := Awaiting |>
    <| c_roomless_since := match c_room c with Some _ => None | None => Some (default now (c_roomless_since c)) end |>.

(** The end of [Client::run] and of [serve]: the room hears of it, if its queue takes
    it, and the session lets go of its slot and its address's share. *)
Definition end_session (s : server) (c : Client) (code : option CloseCode) : server :=
  let s := match code with Some code => say s (CloseClient (c_link c) code) | None => s end in
  let s := match c_room c with
           | Some h => (notify s h (CmdDisconnected (c_player c) (c_link c))).1
           | None => s
           end in
  let s := say s (CloseClient (c_link c) NORMAL_END) in
  (drop_share s Admission.ASession (c_share c))
    <| s_clients := delete (c_link c) (s_clients s) |> <| s_slots := s_slots s + 1 |>.

(** The answer to a request; [sent]: the control stream still takes it. *)
Definition respond (s : server) (c : Client) (id : Z) (result : result Response RequestError) (sent : bool)
    (now : Instant) : server :=
  if sent then put_client (say s (ToClient (c_link c) (ResponseTo id result))) (next_message c now)
  else end_session s c None.

(** [Request::CreateRoom], outside any room. *)
Definition create_room (s : server) (c : Client) (id : Z) (request : CreateRoom) (draw : Draw) (sent : bool)
    (now : Instant) : server :=
  match Admission.room limits (s_admission s) (c_origin c) with
  | (a, false) => respond (set_admission s a) c id (Err TooManyRooms) sent now
  | (a, true) =>
      match create (set_admission s a) (new_member c) request (c_origin c) draw now with
      | None => s
      | Some (s, Err e) => respond s c id (Err e) sent now
      | Some (s, Ok (h, invite, v)) =>
          respond s (c <| c_room := Some h |>) id (Ok (RoomCreated invite v)) sent now
      end
  end.

(** [Request::JoinRoom], outside any room. *)
Definition join_room (s : server) (c : Client) (id : Z) (join : JoinRoom) (sent : bool) (now : Instant) : server :=
  match s_rooms s !! invite_room (join_invite join) with
  | None => respond s c id (Err BadInvite) sent now
  | Some h =>
      ask s c h (CmdJoin (new_member c) (invite_token (join_invite join)) (join_password join)
                   (join_resume join) (join_content join)) (AskedJoin id h)
  end.

(** A request to enter a room, by a session that is in none. *)
Definition enter (s : server) (c : Client) (id : Z) (request : Request) (draw : Draw) (sent : bool)
    (now : Instant) : server :=
  match request with
  | RequestCreate request => create_room s c id request draw sent now
  | RequestJoin join => join_room s c id join sent now
  | _ => s
  end.

(** The command of a request that only the room can answer. *)
Definition room_command (c : Client) (request : Request) (history : Z) : option RoomCommand :=
  match request with
  | RequestCreate _ | RequestJoin _ | RequestLeave => None
  | RequestReady ready => Some (CmdSetReady (c_player c) ready)
  | RequestContent content => Some (CmdDeclareContent (c_player c) content)
  | RequestStart => Some (CmdStart (c_player c) history)
  | RequestSpeed speed => Some (CmdSetSpeed (c_player c) speed)
  | RequestKick target => Some (CmdKick (c_player c) target)
  | RequestChat text => Some (CmdChat (c_player c) text)
  end.

(** [Client::request], up to the first answer it waits for. *)
Definition request (s : server) (c : Client) (id : Z) (req : Request) (draw : Draw) (history : Z) (sent : bool)
    (now : Instant) : server :=
  match req with
  | RequestCreate _ | RequestJoin _ =>
      match c_room c with
      | None => enter s c id req draw sent now
      | Some h => ask s c h (CmdIsMember (c_player c)) (AskedMember id req h)
      end
  | RequestLeave =>
      match c_room c with
      | None => respond s c id (Err NotInRoom) sent now
      | Some h => ask s (c <| c_room := None |>) h (CmdLeave (c_player c)) (AskedLeave id h)
      end
  | _ =>
      match c_room c, room_command c req history with
      | Some h, Some command => ask s c h command (AskedRoom id h)
      | _, _ => respond s c id (Err NotInRoom) sent now
      end
  end.

(** The session goes on with the answer it waited for. *)
Definition answered (s : server) (c : Client) (reply : option Reply) (draw : Draw) (sent : bool) (now : Instant) : server :=
  let result := match reply with Some (ReplyDone result) => result | _ => Err NotInRoom end in
  match c_waiting c with
  | Reading => s
  | AskedMember id req _ =>
      if is_ok result then respond s c id (Err AlreadyInRoom) sent now
      else enter s (c <| c_room := None |>) id req draw sent now
  | AskedJoin id h =>
      match reply with
      | Some (ReplyView (Ok v)) => respond s (c <| c_room := Some h |>) id (Ok (RoomJoined v)) sent now
      | Some (ReplyView (Err e)) => respond s c id (Err e) sent now
      | _ => respond s c id (Err NotInRoom) sent now
      end
  | AskedLeave id _ => respond s c id (let? _ := result in Ok Done) sent now
  | AskedRoom id _ =>
      let c := match result with Err NotInRoom => c <| c_room := None |> | _ => c end in
      respond s c id (let? _ := result in Ok Done) sent now
  end.

Definition reject_intent (s : server) (c : Client) (client_seq : Z) (reason : IntentRejection) (sent : bool) : server :=
  if sent then say s (ToClient (c_link c) (IntentRejected client_seq reason)) else s.

(** [Client::game]; [None] for a violation. *)
Definition game (s : server) (c : Client) (message : GameMessage) (sent : bool) : option server :=
  match c_room c with
  | None =>
      Some (match message with
            | GameIntent client_seq _ => reject_intent s c client_seq RejectedGameNotRunning sent
            | _ => s
            end)
  | Some h =>
      match message with
      | GameIntent client_seq payload =>
          let '(s, queued) := notify s h (CmdIntent (c_player c) client_seq payload) in
          Some (if queued then s else reject_intent s c client_seq RejectedRateLimited sent)
      | GameProgress step => Some (notify s h (CmdProgress (c_player c) (c_link c) step)).1
      | GameCheckpoint step lanes =>
          if MAX_CHECKPOINT_LANES <? Z.of_nat (length lanes) then None
          else Some (notify s h (CmdCheckpoint (c_player c) (c_link c) step lanes)).1
      | GameSaved event lanes world =>
          if MAX_CHECKPOINT_LANES <? Z.of_nat (length lanes) then None
          else Some (notify s h (CmdSaved (c_player c) (c_link c) event lanes world)).1
      end
  end.

(** Whether a game message is within its kind's rate. *)
Definition allowed (c : Client) (message : GameMessage) (now : Instant) : Client * bool :=
  match message with
  | GameIntent _ _ => let '(b, ok) := TokenBucket_take (c_intents c) now 1 in (c <| c_intents := b |>, ok)
  | GameProgress _ => let '(b, ok) := TokenBucket_take (c_progress c) now 1 in (c <| c_progress := b |>, ok)
  | _ => (c, true)
  end.

(** Whether a request is within the rates: all of them, and those to join. *)
Definition within_rate (c : Client) (req : Request) (now : Instant) : Client * bool :=
  let '(b, ok) := TokenBucket_take (c_requests c) now 1 in
  let c := c <| c_requests := b |> in
  if negb ok then (c, false)
  else
    match req with
    | RequestJoin _ => let '(b, ok) := TokenBucket_take (c_joins c) now 1 in (c <| c_joins := b |>, ok)
    | _ => (c, true)
    end.

(** What the control stream brings: a message, its end, or the roomless deadline. *)
Inductive Incoming := Message (message : ClientMessage) | Broken (e : NetError) | DeadlinePassed.

(** [Client::serve], one message. *)
Definition serve (s : server) (c : Client) (incoming : Incoming) (draw : Draw) (history : Z) (sent : bool)
    (now : Instant) : server :=
  match incoming with
  | DeadlinePassed =>
      match c_room c, c_roomless_since c with
      | None, Some since =>
          if since + g_roomless_timeout config <=? now then end_session s c (Some IDLE) else s
      | _, _ => s
      end
  | Broken e => end_session s c (if is_disconnect e then None else Some PROTOCOL_VIOLATION)
  | Message (ClientHello _) => end_session s c (Some PROTOCOL_VIOLATION)
  | Message (ClientRequest id req) =>
      match within_rate c req now with
      | (c, true) => request s c id req draw history sent now
      | (c, false) => respond s c id (Err RequestRateLimited) sent now
      end
  | Message (ClientGame message) =>
      match allowed c message now with
      | (c, true) =>
          match game s c message sent with
          | Some s => put_client s (next_message c now)
          | None => end_session s c (Some PROTOCOL_VIOLATION)
          end
      | (c, false) =>
          let s := match message with
                   | GameIntent client_seq _ => reject_intent s c client_seq RejectedRateLimited sent
                   | _ => s
                   end in
          put_client s (next_message c now)
      end
  end.

(** * Steps *)

(** What a client's bulk streams ask its room. *)
Definition bulk_command (command : RoomCommand) : bool :=
  match command with CmdFetch _ _ _ | CmdUpload _ _ _ | CmdUploaded _ _ _ => true | _ => false end.

Inductive ServerEvent :=
  | EvAttempt (o : Origin) (validated may_retry : bool)
  | EvGreeted (h : HandshakeId) (accepted : bool) (version : result Z NetError) (answered : result unit NetError)
      (message : result ClientMessage NetError) (session : SessionId)
  | EvRefused (h : HandshakeId) (written : result unit NetError)
  | EvWelcomed (h : HandshakeId) (written : result unit NetError) (origin : Origin) (now : Instant)
  | EvTimeout (h : HandshakeId)
  | EvIncoming (l : LinkId) (incoming : Incoming) (draw : Draw) (history : Z) (sent : bool) (now : Instant)
  | EvAnswered (l : LinkId) (draw : Draw) (sent : bool) (now : Instant)
  | EvBulk (h : Handle) (command : RoomCommand)
  | EvRoom (h : Handle) (now : Instant)
  | EvTick (h : Handle) (now : Instant)
  | EvCompacted (h : Handle) (done : result RoomLog IoError) (renamed : bool) (now : Instant)
  | EvClosed (h : Handle).

(** A room takes the next command from its queue, and answers it. *)
Definition room_takes (s : server) (h : Handle) (t : RoomTask R) (now : Instant) : server :=
  match t_queue t with
  | [] => s
  | (command, asker) :: rest =>
      let '(r, reply) := handle hmac_verify crc (outcome h) (disk h) (t_room t) now command in
      deliver (put_task s h (t <| t_room := r |> <| t_queue := rest |>)) asker (Some reply)
  end.

(** The end of [Room::run]: the room leaves the directory, and drops its queue and its
    share. *)
Definition room_ends (s : server) (h : Handle) (t : RoomTask R) : server :=
  let s := s <| s_rooms := delete (room_id (t_room t)) (s_rooms s) |> <| s_tasks := delete h (s_tasks s) |> in
  let s := foldl (λ s e, deliver s e.2 None) s (t_queue t) in
  match t_share t with Some o => drop_share s Admission.ARoom o | None => s end.

(** One task runs from where it waits to where it waits next; nothing happens if it
    does not wait for that. *)
Definition server_step (s : server) (e : ServerEvent) : server :=
  match e with
  | EvAttempt o validated may_retry => admit_peer s o validated may_retry
  | EvGreeted h accepted version answered message session =>
      match s_handshakes s !! h with
      | Some (Greeting o) => handshake s h o (greet accepted version answered message) session
      | _ => s
      end
  | EvRefused h written =>
      match s_handshakes s !! h with
      | Some (Refusing why t slot) =>
          close_refused (drop_handshake s h (Refusing why t slot)) h
            (match written with Ok _ => why | Err e => RefusedViolation e end)
      | _ => s
      end
  | EvWelcomed h written origin now =>
      match s_handshakes s !! h with
      | Some (Welcoming hello share) =>
          match written with
          | Ok _ => start_session s h hello share origin now
          | Err e => close_refused (drop_handshake s h (Welcoming hello share)) h (RefusedViolation e)
          end
      | _ => s
      end
  | EvTimeout h =>
      match s_handshakes s !! h with
      | Some hs => say (drop_handshake s h hs) (ClosePeer h HANDSHAKE_TIMEOUT)
      | None => s
      end
  | EvIncoming l incoming draw history sent now =>
      match s_clients s !! l with
      | Some c => match c_waiting c with Reading => serve s c incoming draw history sent now | _ => s end
      | None => s
      end
  | EvAnswered l draw sent now =>
      match s_clients s !! l with
      | Some c => match c_answer c with Answered reply => answered s c reply draw sent now | Awaiting => s end
      | None => s
      end
  | EvBulk h command => if bulk_command command then default s (queue s h command None) else s
  | EvRoom h now =>
      match s_tasks s !! h with
      | Some t => if closed (t_room t) then s else room_takes s h t now
      | None => s
      end
  | EvTick h now =>
      match s_tasks s !! h with
      | Some t =>
          if closed (t_room t) then s
          else put_task s h (t <| t_room := on_tick crc (outcome h) (disk h) (t_room t) now |>)
      | None => s
      end
  | EvCompacted h done renamed now =>
      match s_tasks s !! h with
      | Some t =>
          if closed (t_room t) then s
          else put_task s h (t <| t_room := finish_compaction crc (disk h) (t_room t) done renamed |>)
      | None => s
      end
  | EvClosed h =>
      match s_tasks s !! h with
      | Some t => if closed (t_room t) then room_ends s h t else s
      | None => s
      end
  end.

Definition server_run : server → list ServerEvent → server := foldl server_step.

(** [Server::bind]: the rooms restored from their logs are registered, in the order of
    their files. *)
Definition register (s : server) (r : Room R) : server :=
  let h := s_next_handle s in
  s <| s_tasks := <[h := MkRoomTask r [] None]> (s_tasks s) |> <| s_rooms := <[room_id r := h]> (s_rooms s) |>
    <| s_next_handle := S h |>.

Definition bind (restored : list (Room R)) : server :=
  foldl register
    {| s_slots := g_max_sessions config; s_admission := Admission.Admission_new limits; s_handshakes := ∅;
       s_clients := ∅; s_rooms := ∅; s_tasks := ∅; s_next_handshake := 0%nat; s_next_link := 1;
       s_next_handle := 0%nat; s_started := []; s_out := [] |} restored.
End server.
