(* ===== verification/Connect.v ===== *)
(** How a player's agent reaches a server ([crates/tpf3mp-agent/src/lib.rs], from
    [TunnelChoice] to [handshake]; the URL of a tunnel is
    [crates/tpf3mp-net/src/tunnel/mod.rs]): which way to go, over UDP or through a tunnel,
    the race of the two, and the handshake, whose other half is [Server.handshake]. *)
From S2P Require Import Prelude Proto Chars Ruleset Room Client.
From S2P Require Server Admission.
Local Open Scope Z_scope.

(** * The URL of a tunnel *)

(** What is used of [http::Uri]. *)
Record UriLib := {
  Uri : Type;
  parse_uri : Chars → option Uri;
  scheme_str : Uri → option Chars;
  authority : Uri → option Chars;
  authority_host : Chars → Chars;
  port_u16 : Uri → option Z;
}.

Definition PROTOCOL : Chars := chars "tpf3mp-quic-1".
Definition DEFAULT_PATH : Chars := chars "/tpf3mp".

Inductive UrlError := NotAUrl | WrongScheme | NoHost | Credentials.

Fixpoint trim_start_matches (c : Z) (text : Chars) : Chars :=
  match text with
  | [] => []
  | d :: rest => if d =? c then trim_start_matches c rest else text
  end.
Definition trim_end_matches (c : Z) (text : Chars) : Chars := rev (trim_start_matches c (rev text)).
Definition contains (c : Z) (text : Chars) : bool := existsb (Z.eqb c) text.

(** Brackets, an at sign, a colon. *)
Definition unbracketed (host : Chars) : Chars := trim_end_matches 93 (trim_start_matches 91 host).

Section url.
Context (U : UriLib).

Record TunnelUrl := MkTunnelUrl { uri : Uri U; secure : bool; host : Chars; port : Z }.

Definition url_from_str (url : Chars) : result TunnelUrl UrlError :=
  let? u := ok_or (parse_uri U url) NotAUrl in
  let? secure :=
    match scheme_str U u with
    | Some scheme => if bool_decide (scheme = chars "wss") then Ok true
                     else if bool_decide (scheme = chars "ws") then Ok false else Err WrongScheme
    | None => Err WrongScheme
    end in
  let? auth := ok_or (authority U u) NoHost in
  if contains 64 auth then Err Credentials
  else
    let host := unbracketed (authority_host U auth) in
    if bool_decide (host = []) then Err NoHost
    else Ok (MkTunnelUrl u secure host (default (if secure then 443 else 80) (port_u16 U u))).

Definition default_for (host : Chars) : result TunnelUrl UrlError :=
  let host := unbracketed host in
  url_from_str (if contains 58 host then chars "wss://[" ++ host ++ chars "]" ++ DEFAULT_PATH else chars "wss://" ++ host ++ DEFAULT_PATH).

(** * The route *)
Inductive Route := Udp | UdpOrTunnel (url : TunnelUrl) | ThroughTunnel (url : TunnelUrl).
Inductive TunnelChoice := DefaultTunnel | ChosenUrl (url : TunnelUrl) | Only (url : option TunnelUrl) | Off.

Definition route (choice : TunnelChoice) (host : Chars) : result Route UrlError :=
  match choice with
  | DefaultTunnel => Ok match default_for host with Ok url => UdpOrTunnel url | Err _ => Udp end
  | ChosenUrl url => Ok (UdpOrTunnel url)
  | Only (Some url) => Ok (ThroughTunnel url)
  | Only None => let? url := default_for host in Ok (ThroughTunnel url)
  | Off => Ok Udp
  end.

(** [ConnectOptions::again_after]: how long UDP has alone the next time. *)
Definition again_after (r : Route) (fallback_after : Duration) (tunneled : bool) : Duration :=
  match r with UdpOrTunnel _ => if tunneled then 0 else fallback_after | _ => fallback_after end.
End url.
Arguments uri {U}. Arguments secure {U}. Arguments host {U}. Arguments port {U}.
Arguments Udp {U}. Arguments UdpOrTunnel {U}. Arguments ThroughTunnel {U}.

(** [resolve]: an IPv4 address when the name has one. *)
Definition resolve_server {A} (is_ipv4 : A → bool) (addresses : list A) : option A :=
  match List.find is_ipv4 addresses with Some a => Some a | None => head addresses end.

(** * Errors *)
Inductive ConnectError :=
  | Failed (what : Z)                        (* TLS, identity, socket, tunnel, start of a connection *)
  | NoRoute (udp tunnel : ConnectError)
  | ConnectionLost (reason : CloseCode)
  | VersionMismatch (client server : Z)
  | Rejected (reason : RejectReason)
  | Protocol (e : NetError)
  | UnexpectedMessage
  | ConnectTimeout.

(** * The race

    An attempt to connect is how long it takes and how it ends, or nothing: some never
    end.  [udp_first] says which of two that are ready at once is looked at first. *)
Section race.
Context {U : UriLib} {Opened : Type}.
Abbreviation Attempt := (option (Duration * result Opened ConnectError)).

Definition ends_at (started : Instant) (a : Attempt) : option (Instant * result Opened ConnectError) :=
  match a with Some (d, r) => Some (started + d, r) | None => None end.

Definition by_deadline (deadline started : Instant) (a : Attempt) : Instant * result Opened ConnectError :=
  match ends_at started a with
  | Some (t, r) => if t <=? deadline then (t, r) else (deadline, Err ConnectTimeout)
  | None => (deadline, Err ConnectTimeout)
  end.

(** One way failed: the other has until the deadline; [through] says which it is. *)
Definition other_way (deadline started : Instant) (a : Attempt) (through : bool) (failed : ConnectError) :
    Instant * result (Opened * bool) ConnectError :=
  match by_deadline deadline started a with
  | (t, Ok o) => (t, Ok (o, through))
  | (t, Err e) => (t, Err (if through then NoRoute failed e else NoRoute e failed))
  end.

Definition comes_first (udp_first : bool) (t t' : Instant) : bool := (t <? t') || ((t =? t') && udp_first).

Definition open_connection (r : Route U) (udp tunnel : Attempt) (now : Instant) (fallback_after : Duration) (deadline : Instant)
    (udp_first : bool) : option (Instant * result (Opened * bool) ConnectError) :=
  match r with
  | Udp => match ends_at now udp with Some (t, Ok o) => Some (t, Ok (o, false)) | Some (t, Err e) => Some (t, Err e) | None => None end
  | ThroughTunnel _ =>
      match ends_at now tunnel with Some (t, Ok o) => Some (t, Ok (o, true)) | Some (t, Err e) => Some (t, Err e) | None => None end
  | UdpOrTunnel _ =>
      let fallback := now + fallback_after in
      let race :=
        let udp_wins t r := match r with Ok o => (t, Ok (o, false)) | Err e => other_way deadline fallback tunnel true e end in
        let tunnel_wins t r := match r with Ok o => (t, Ok (o, true)) | Err e => other_way deadline now udp false e end in
        match ends_at now udp, ends_at fallback tunnel with
        | Some (t, r), Some (t', r') => Some (if comes_first udp_first t t' then udp_wins t r else tunnel_wins t' r')
        | Some (t, r), None => Some (udp_wins t r)
        | None, Some (t', r') => Some (tunnel_wins t' r')
        | None, None => None
        end in
      match ends_at now udp with
      | Some (t, r) =>
          if comes_first udp_first t fallback then
            match r with Ok o => Some (t, Ok (o, false)) | Err e => Some (other_way deadline t tunnel true e) end
          else race
      | None => race
      end
  end.

(** [connect]: what is not ready by the deadline has timed out. *)
Definition connect (r : Route U) (udp tunnel : Attempt) (now : Instant) (fallback_after : Duration) (udp_first : bool) :
    result (Opened * bool) ConnectError :=
  let deadline := now + CONNECT_TIMEOUT in
  match open_connection r udp tunnel now fallback_after deadline udp_first with
  | Some (t, r) => if t <=? deadline then r else Err ConnectTimeout
  | None => Err ConnectTimeout
  end.
End race.

(** * The handshake *)
Section handshake.
Context (version : Z).

(** [stream_failure]: what the server closed the connection for says more. *)
Definition stream_failure (closed_for : option CloseCode) (e : NetError) : ConnectError :=
  match closed_for with Some reason => ConnectionLost reason | None => Protocol e end.

(** The arguments are how each call it makes ends, in their order. *)
Definition handshake (opened : result unit ConnectError) (closed_for : option CloseCode) (greeted : result unit NetError)
    (server_protocol : result Z NetError) (proved : result unit ConnectError) (told : result unit NetError)
    (answer : result ServerMessage NetError) : result (Text * SessionId * list (Text * Text)) ConnectError :=
  let failed {A} (r : result A NetError) := map_err (stream_failure closed_for) r in
  let? _ := opened in
  let? _ := failed greeted in
  let? server_protocol := failed server_protocol in
  if negb (server_protocol =? version) then Err (VersionMismatch version server_protocol)
  else
    let? _ := proved in
    let? _ := failed told in
    let? message := failed answer in
    match message with
    | Welcome server_version session rules => Ok (server_version, session, rules)
    | Reject reason => Err (Rejected reason)
    | _ => Err UnexpectedMessage
    end.

(** What [connect_within] closes the connection with when the handshake failed. *)
Definition failure_close (e : ConnectError) : CloseCode :=
  match e with
  | VersionMismatch _ _ => VERSION_MISMATCH
  | Rejected _ => NORMAL_END
  | _ => PROTOCOL_VIOLATION
  end.
End handshake.

(** * Either way is enough *)
Section found.
Context {U : UriLib} {Opened : Type}.
Abbreviation Attempt := (option (Duration * result Opened ConnectError)).

Lemma comes_first_cases b t t' : if comes_first b t t' then t ≤ t' else t' ≤ t.
Proof. unfold comes_first. destruct (Z.ltb_spec t t'), (Z.eqb_spec t t'), b; cbn; lia. Qed.

(** What is tried second, and how that ends. *)
Lemma other_way_cases deadline started (a : Attempt) through failed :
  let '(t, r) := other_way deadline started a through failed in
  (∃ d o, a = Some (d, Ok o) ∧ started + d ≤ deadline ∧ t = started + d ∧ r = Ok (o, through)) ∨
  (∃ e, (∀ d o, a = Some (d, Ok o) → deadline < started + d) ∧ t ≤ deadline ∧
    (e = ConnectTimeout ∨ ∃ d, a = Some (d, Err e)) ∧ r = Err (if through then NoRoute failed e else NoRoute e failed)).
Proof.
  unfold other_way, by_deadline, ends_at. destruct a as [[d [o | e]] |].
  - destruct (Z.leb_spec (started + d) deadline).
    + left. by exists d, o.
    + right. exists ConnectTimeout. split; [by intros ? ? [= <- <-] |]. split; [lia |]. split; [by left | done].
  - destruct (Z.leb_spec (started + d) deadline); right.
    + exists e. split; [done |]. split; [lia |]. split; [right; by exists d | done].
    + exists ConnectTimeout. split; [done |]. split; [lia |]. split; [by left | done].
  - right. exists ConnectTimeout. split; [done |]. split; [lia |]. split; [by left | done].
Qed.

(** What a failure to connect may blame one way for. *)
Definition blamed (a : Attempt) (e : ConnectError) : Prop := e = ConnectTimeout ∨ ∃ d, a = Some (d, Err e).

(** What [connect] promises, of any way it may end. *)
Definition connects_well (udp tunnel : Attempt) (fallback_after : Duration) (r : result (Opened * bool) ConnectError) : Prop :=
  ((∃ d o, udp = Some (d, Ok o) ∧ d ≤ CONNECT_TIMEOUT) ∨ (∃ d o, tunnel = Some (d, Ok o) ∧ fallback_after + d ≤ CONNECT_TIMEOUT) → ∃ way, r = Ok way) ∧
  match r with
  | Ok (o, false) => ∃ d, udp = Some (d, Ok o)
  | Ok (o, true) => (∃ d, tunnel = Some (d, Ok o)) ∧ ∀ d o', udp = Some (d, Ok o') → fallback_after ≤ d
  | Err e => e = ConnectTimeout ∨ ∃ eu et, e = NoRoute eu et ∧ blamed udp eu ∧ blamed tunnel et
  end.

(** UDP failed at [t], and the tunnel started no later than it may. *)
Lemma tunnel_second udp tunnel now fallback_after started (du : Duration) eu :
  udp = Some (du, Err eu) → started ≤ now + fallback_after →
  let '(t, r) := other_way (now + CONNECT_TIMEOUT) started tunnel true eu in
  connects_well udp tunnel fallback_after (if t <=? now + CONNECT_TIMEOUT then r else Err ConnectTimeout).
Proof.
  intros -> Hs. pose proof (other_way_cases (now + CONNECT_TIMEOUT) started tunnel true eu) as H.
  destruct (other_way _ _ _ _ _) as [t r]. destruct H as [(d & o & -> & Hd & -> & ->) | (e & Hno & Ht & He & ->)]; rewrite (proj2 (Z.leb_le _ _)) by lia.
  - split; [by eexists |]. split; [by eexists | done].
  - split; [| right; exists eu, e; split; [done | split; [right; by eexists | exact He]]].
    intros [(d & o & [=] & _) | (d & o & Et & Hd)]. specialize (Hno d o Et). lia.
Qed.

(** The tunnel failed, and UDP has been tried since the start. *)
Lemma udp_second udp tunnel now fallback_after (dt : Duration) et :
  tunnel = Some (dt, Err et) →
  let '(t, r) := other_way (now + CONNECT_TIMEOUT) now udp false et in
  connects_well udp tunnel fallback_after (if t <=? now + CONNECT_TIMEOUT then r else Err ConnectTimeout).
Proof.
  intros ->. pose proof (other_way_cases (now + CONNECT_TIMEOUT) now udp false et) as H.
  destruct (other_way _ _ _ _ _) as [t r]. destruct H as [(d & o & -> & Hd & -> & ->) | (e & Hno & Ht & He & ->)]; rewrite (proj2 (Z.leb_le _ _)) by lia.
  - split; [by eexists | by eexists].
  - split; [| right; exists e, et; split; [done | split; [exact He | right; by eexists]]].
    intros [(d & o & Eu & Hd) | (d & o & [=] & _)]. specialize (Hno d o Eu). lia.
Qed.

(** UDP connected first. *)
Lemma udp_connected udp tunnel now fallback_after du o :
  udp = Some (du, Ok o) → (∀ d o', tunnel = Some (d, Ok o') → du ≤ fallback_after + d) →
  connects_well udp tunnel fallback_after (if now + du <=? now + CONNECT_TIMEOUT then Ok (o, false) else Err ConnectTimeout).
Proof.
  intros -> Hfirst. destruct (Z.leb_spec (now + du) (now + CONNECT_TIMEOUT)); split; [by eexists | by eexists | | by left].
  intros [(d & o' & [= <- <-] & Hd) | (d & o' & Et & Hd)]; [lia |]. specialize (Hfirst d o' Et). lia.
Qed.

(** The tunnel did. *)
Lemma tunnel_connected udp tunnel now fallback_after dt o :
  tunnel = Some (dt, Ok o) → 0 ≤ dt → (∀ d o', udp = Some (d, Ok o') → fallback_after + dt ≤ d) →
  connects_well udp tunnel fallback_after (if now + fallback_after + dt <=? now + CONNECT_TIMEOUT then Ok (o, true) else Err ConnectTimeout).
Proof.
  intros -> Hdt Hfirst. destruct (Z.leb_spec (now + fallback_after + dt) (now + CONNECT_TIMEOUT)); split; [by eexists | | | by left].
  - split; [by eexists |]. intros d o' E. specialize (Hfirst d o' E). lia.
  - intros [(d & o' & Eu & Hd) | (d & o' & [= <- <-] & Hd)]; [specialize (Hfirst d o' Eu) |]; lia.
Qed.

(** either way is enough.  However long UDP and the tunnel take, whether they
    connect, fail or never answer, and whichever is looked at first when both are
    ready: if UDP connects within the twenty seconds, or the tunnel does counted from
    when it may start at the latest, then the client is connected.  It is over the
    tunnel only if UDP had not connected in the time it has alone.  When the client
    gives up, it has run out of time or says for both ways what each of them failed
    of. *)
Theorem some_route_found (url : TunnelUrl U) (udp tunnel : Attempt) (now : Instant) (fallback_after : Duration) (udp_first : bool) :
  0 ≤ fallback_after → (∀ d r, tunnel = Some (d, r) → 0 ≤ d) →
  let r := connect (UdpOrTunnel url) udp tunnel now fallback_after udp_first in
  ((∃ d o, udp = Some (d, Ok o) ∧ d ≤ CONNECT_TIMEOUT) ∨ (∃ d o, tunnel = Some (d, Ok o) ∧ fallback_after + d ≤ CONNECT_TIMEOUT) → ∃ way, r = Ok way) ∧
  match r with
  | Ok (o, false) => ∃ d, udp = Some (d, Ok o)
  | Ok (o, true) => (∃ d, tunnel = Some (d, Ok o)) ∧ ∀ d o', udp = Some (d, Ok o') → fallback_after ≤ d
  | Err e => e = ConnectTimeout ∨ ∃ eu et, e = NoRoute eu et ∧ blamed udp eu ∧ blamed tunnel et
  end.
Proof.
  intros Hf Ht r. change (connects_well udp tunnel fallback_after r). subst r.
  destruct udp as [[du ru] |] eqn:Eu, tunnel as [[dt rt] |] eqn:Et; unfold connect, open_connection; cbn [ends_at].
  - pose proof (Ht dt rt eq_refl) as Hdt. pose proof (comes_first_cases udp_first (now + du) (now + fallback_after)) as H1.
    destruct (comes_first udp_first (now + du) (now + fallback_after)).
    + destruct ru as [o | e]; [apply udp_connected; [done |]; intros d o' [= <- _]; lia |].
      pose proof (tunnel_second (Some (du, Err e)) (Some (dt, rt)) now fallback_after (now + du) du e eq_refl H1) as H.
      by destruct (other_way _ _ _ _ _).
    + pose proof (comes_first_cases udp_first (now + du) (now + fallback_after + dt)) as H2. destruct (comes_first udp_first (now + du) (now + fallback_after + dt)).
      * destruct ru as [o | e]; [apply udp_connected; [done |]; intros d o' [= <- _]; lia |].
        pose proof (tunnel_second (Some (du, Err e)) (Some (dt, rt)) now fallback_after (now + fallback_after) du e eq_refl ltac:(lia)) as H.
        by destruct (other_way _ _ _ _ _).
      * destruct rt as [o | e]; [apply tunnel_connected; [done | done |]; intros d o' [= <- _]; lia |].
        pose proof (udp_second (Some (du, ru)) (Some (dt, Err e)) now fallback_after dt e eq_refl) as H. by destruct (other_way _ _ _ _ _).
  - pose proof (comes_first_cases udp_first (now + du) (now + fallback_after)) as H1.
    destruct (comes_first udp_first (now + du) (now + fallback_after)), ru as [o | e]; try (by apply udp_connected);
      [pose proof (tunnel_second (Some (du, Err e)) None now fallback_after (now + du) du e eq_refl H1) as H
      |pose proof (tunnel_second (Some (du, Err e)) None now fallback_after (now + fallback_after) du e eq_refl ltac:(lia)) as H]; by destruct (other_way _ _ _ _ _).
  - pose proof (Ht dt rt eq_refl) as Hdt. destruct rt as [o | e]; [by apply tunnel_connected |].
    pose proof (udp_second None (Some (dt, Err e)) now fallback_after dt e eq_refl) as H. by destruct (other_way _ _ _ _ _).
  - split; [| by left]. by intros [(? & ? & [=] & _) | (? & ? & [=] & _)].
Qed.
End found.

(** * Both ends of a handshake *)

(** What the server's reasons are to the client. *)
Definition reject_reason (why : Server.Refusal) : option RejectReason :=
  match why with
  | Server.RefusedFull => Some ServerFull
  | Server.RefusedProof => Some BadProof
  | Server.RefusedConnections => Some TooManyConnections
  | _ => None
  end.

(** Both ends of a handshake agree on how it ended, when all they write comes through
    and the client speaks its version [v]: either both have a session, and the client
    knows its number and the rules the server offers; or the server has refused and the
    client says why, with another version as much as with a server that is full, and
    both close the connection for that reason. *)
Theorem handshake_agrees {R} {RS : Ruleset R} (verify_proof : Server.HandshakeId → PlayerId → Z → bool) (config : Server.ServerConfig R) (s : Server.Server R)
    (h : nat) (ticket : Server.Origin) (hello : Hello) (session : SessionId) (v : Z) :
  let s' := Server.handshake verify_proof config s h ticket (Server.greet true (Ok v) (Ok tt) (Ok (ClientHello hello))) session in
  let answer := match drop (length (Server.s_out s)) (Server.s_out s') with [Server.ToPeer _ m] => Ok m | _ => Err Read end in
  let r := handshake v (Ok tt) None (Ok tt) (Ok PROTOCOL_VERSION) (Ok tt) (Ok tt) answer in
  match Server.s_handshakes s' !! h with
  | Some (Server.Welcoming hello' _) =>
      v = PROTOCOL_VERSION ∧ hello' = hello ∧ r = Ok (Server.g_version config, session, menu_offers (Server.g_rules config))
  | Some (Server.Refusing (Server.RefusedVersion v') _ _) =>
      v ≠ PROTOCOL_VERSION ∧ v' = v ∧ r = Err (VersionMismatch v PROTOCOL_VERSION) ∧
      Server.refusal_close (Server.RefusedVersion v') = Some (failure_close (VersionMismatch v PROTOCOL_VERSION))
  | Some (Server.Refusing why _ _) => v = PROTOCOL_VERSION ∧ ∃ reason, reject_reason why = Some reason ∧ r = Err (Rejected reason)
  | _ => False
  end.
Proof.
  cbv zeta. unfold Server.greet. cbn [negb]. destruct (Z.eqb_spec v PROTOCOL_VERSION) as [-> | Hv]; cbn [negb].
  - unfold Server.handshake, Server.say, Server.put_handshake, Server.set_admission, handshake. cbn [map_err result_bind].
    change (PROTOCOL_VERSION =? PROTOCOL_VERSION) with true. cbn [negb].
    destruct (verify_proof h (identity hello) (proof hello)); cbn [negb]; [destruct (Server.s_slots s <=? 0); [| destruct (Admission.into_session _ _ _) as [a []]] |];
      cbn [Server.s_handshakes Server.s_out]; cbn; rewrite drop_app_length, lookup_insert_eq; cbn; eauto.
  - unfold Server.handshake, Server.put_handshake. cbn -[handshake]. rewrite drop_all, lookup_insert_eq. split; [exact Hv |]. split; [done |]. split; [| done].
    unfold handshake. cbn [map_err result_bind]. by rewrite (proj2 (Z.eqb_neq _ _) (not_eq_sym Hv)).
Qed.

(** * Witnesses *)
Module ConnectExample.
Definition no_uri : UriLib := {|
  Uri := Chars;
  parse_uri text := Some text;
  scheme_str _ := Some (chars "wss");
  authority text := Some text;
  authority_host text := text;
  port_u16 _ := None;
|}.
Definition url : TunnelUrl no_uri := MkTunnelUrl no_uri (chars "wss://host/tpf3mp") true (chars "host") 443.
(** UDP never answers; the tunnel takes a second. *)
Definition udp : option (Duration * result Z ConnectError) := None.
Definition tunnel : option (Duration * result Z ConnectError) := Some (from_secs 1, Ok 7).
End ConnectExample.

Lemma some_route_found_witness :
  connect (UdpOrTunnel ConnectExample.url) ConnectExample.udp ConnectExample.tunnel 0 FALLBACK_AFTER true = Ok (7, true) ∧
  ∃ way, connect (UdpOrTunnel ConnectExample.url) ConnectExample.udp ConnectExample.tunnel 0 FALLBACK_AFTER true = Ok way.
Proof.
  split; [vm_compute; reflexivity |].
  refine (proj1 (some_route_found ConnectExample.url ConnectExample.udp ConnectExample.tunnel 0 FALLBACK_AFTER true _ _) _).
  - vm_compute. discriminate.
  - intros d r [= <- <-]. vm_compute. discriminate.
  - right. exists (from_secs 1), 7. split; [reflexivity |]. vm_compute. discriminate.
Defined.
