(* ===== verification/Address.v ===== *)
(** Addresses as text ([std::net]'s parser) and ranges of them
    ([AddressRange] of [crates/tpf3mp-server/src/tunnel.rs]): who may speak for others
    when a proxy forwards players' tunnels. *)
From S2P Require Import Prelude Chars.
From S2P Require Import Admission.
Local Open Scope Z_scope.

(** * [std::net]'s parser

    A reader takes what it reads off the front of the text, or nothing. *)
Definition Reader (A : Type) : Type := Chars → option (A * Chars).

(** [char::to_digit]. *)
Definition to_digit (radix c : Z) : option Z :=
  let d := if (48 <=? c) && (c <=? 57) then Some (c - 48)
           else if (97 <=? c) && (c <=? 122) then Some (c - 87)
           else if (65 <=? c) && (c <=? 90) then Some (c - 55) else None in
  match d with Some d => if d <? radix then Some d else None | None => None end.

(** Digits while there are any; [None] above [max] or past [limit] digits. *)
Fixpoint read_digits (radix max : Z) (limit : option nat) (value : Z) (count : nat) (text : Chars) : option (Z * nat * Chars) :=
  match text with
  | [] => Some (value, count, text)
  | c :: rest =>
      match to_digit radix c with
      | None => Some (value, count, text)
      | Some d =>
          if max <? value * radix + d then None
          else if match limit with Some l => (l <? S count)%nat | None => false end then None
          else read_digits radix max limit (value * radix + d) (S count) rest
      end
  end.

Definition read_number (radix max : Z) (limit : option nat) (allow_zero_prefix : bool) : Reader Z := λ text,
  '(value, count, rest) ← read_digits radix max limit 0 0 text;
  if (count =? 0)%nat then None
  else if negb allow_zero_prefix && bool_decide (head text = Some 48) && (1 <? count)%nat then None
  else Some (value, rest).

Definition read_given_char (c : Z) : Reader unit := λ text,
  match text with d :: rest => if d =? c then Some ((), rest) else None | [] => None end.

Definition read_separator {A} (sep : Z) (index : nat) (inner : Reader A) : Reader A := λ text,
  if (index =? 0)%nat then inner text else '(_, rest) ← read_given_char sep text; inner rest.

Definition octet (index : nat) : Reader Z := read_separator 46 index (read_number 10 255 (Some 3%nat) false).

Definition read_ipv4 : Reader Z := λ text,
  '(a, text) ← octet 0 text; '(b, text) ← octet 1 text; '(c, text) ← octet 2 text; '(d, text) ← octet 3 text;
  Some (((a * 256 + b) * 256 + c) * 256 + d, text).

(** Up to [n] groups, of [limit] in all; whether they end in an IPv4 address. *)
Fixpoint read_groups (n index limit : nat) (text : Chars) : list Z * bool * Chars :=
  match n with
  | O => ([], false, text)
  | S n =>
      match (if (S index <? limit)%nat then read_separator 58 index read_ipv4 text else None) with
      | Some (v4, rest) => ([v4 / 65536; v4 mod 65536], true, rest)
      | None =>
          match read_separator 58 index (read_number 16 65535 (Some 4%nat) true) text with
          | Some (group, rest) =>
              let '(groups, embedded, rest) := read_groups n (S index) limit rest in (group :: groups, embedded, rest)
          | None => ([], false, text)
          end
      end
  end.

Definition from_groups (groups : list Z) : Z := foldl (λ bits g, bits * 65536 + g) 0 groups.

Definition read_ipv6 : Reader Z := λ text,
  let '(head, embedded, text) := read_groups 8 0 8 text in
  if (length head =? 8)%nat then Some (from_groups head, text)
  else if (embedded : bool) then None
  else
    '(_, text) ← read_given_char 58 text; '(_, text) ← read_given_char 58 text;
    let limit := (8 - (length head + 1))%nat in
    let '(tail, _, text) := read_groups limit 0 limit text in
    Some (from_groups (head ++ replicate (8 - length head - length tail) 0 ++ tail), text).

Definition read_ip : Reader IpAddr := λ text,
  match read_ipv4 text with
  | Some (v4, rest) => Some (IpV4 v4, rest)
  | None => '(v6, rest) ← read_ipv6 text; Some (IpV6 v6, rest)
  end.

Definition read_port : Reader Z := λ text, '(_, text) ← read_given_char 58 text; read_number 10 65535 None true text.

Definition read_scope : Reader Z := λ text, '(_, text) ← read_given_char 37 text; read_number 10 u32_max None true text.

Definition read_socket : Reader (IpAddr * Z) := λ text,
  match ('(v4, text) ← read_ipv4 text; '(port, text) ← read_port text; Some ((IpV4 v4, port), text)) with
  | Some r => Some r
  | None =>
      '(_, text) ← read_given_char 91 text; '(v6, text) ← read_ipv6 text;
      let text := match read_scope text with Some (_, rest) => rest | None => text end in
      '(_, text) ← read_given_char 93 text; '(port, text) ← read_port text;
      Some ((IpV6 v6, port), text)
  end.

(** All of the text ([FromStr]). *)
Definition parse_with {A} (read : Reader A) (text : Chars) : option A :=
  match read text with Some (a, []) => Some a | _ => None end.

Definition parse_ip : Chars → option IpAddr := parse_with read_ip.
Definition parse_socket : Chars → option (IpAddr * Z) := parse_with read_socket.

(** [u8::from_str]: digits, after a plus sign perhaps. *)
Definition parse_u8 (text : Chars) : option Z :=
  let digits := match text with 43 :: rest => rest | _ => text end in
  parse_with (read_number 10 255 None true) digits.

(** [str::split_once]. *)
Fixpoint split_once (sep : Z) (text : Chars) : option (Chars * Chars) :=
  match text with
  | [] => None
  | c :: rest => if c =? sep then Some ([], rest) else '(before, after) ← split_once sep rest; Some (c :: before, after)
  end.

(** [IpAddr::to_canonical]. *)
Definition to_canonical (ip : IpAddr) : IpAddr :=
  match ip with
  | IpV4 _ => ip
  | IpV6 v6 => match to_ipv4_mapped v6 with Some v4 => IpV4 v4 | None => ip end
  end.

(** * Ranges *)
Record AddressRange := MkRange { network : IpAddr; prefix : Z }.

Definition PRIVATE : list AddressRange := [
  MkRange (IpV4 (127 * 2 ^ 24)) 8; MkRange (IpV4 (10 * 2 ^ 24)) 8; MkRange (IpV4 (172 * 2 ^ 24 + 16 * 2 ^ 16)) 12;
  MkRange (IpV4 (192 * 2 ^ 24 + 168 * 2 ^ 16)) 16; MkRange (IpV6 1) 128; MkRange (IpV6 (64512 * 2 ^ 112)) 7].

(** [checked_shl] of the largest number of [width] bits. *)
Definition mask (width prefix : Z) : Z :=
  let shift := width - prefix in
  if shift <? width then Z.shiftl (2 ^ width - 1) shift mod 2 ^ width else 0.

Definition range_contains (r : AddressRange) (ip : IpAddr) : bool :=
  match network r, to_canonical ip with
  | IpV4 network, IpV4 ip => Z.land network (mask 32 (prefix r)) =? Z.land ip (mask 32 (prefix r))
  | IpV6 network, IpV6 ip => Z.land network (mask 128 (prefix r)) =? Z.land ip (mask 128 (prefix r))
  | _, _ => false
  end.

Inductive RangeError := NotAnAddress | NotAPrefix | PrefixTooLong.

Definition range_from_str (range : Chars) : result AddressRange RangeError :=
  let '(address, prefix) := match split_once 47 range with Some (address, prefix) => (address, Some prefix) | None => (range, None) end in
  let? network := ok_or (parse_ip address) NotAnAddress in
  let network := to_canonical network in
  let bits := match network with IpV4 _ => 32 | IpV6 _ => 128 end in
  let? prefix := match prefix with Some prefix => ok_or (parse_u8 prefix) NotAPrefix | None => Ok bits end in
  if bits <? prefix then Err PrefixTooLong else Ok (MkRange network prefix).

(** * Numbers stay in range *)
Definition ip_ok (ip : IpAddr) : Prop := match ip with IpV4 v => 0 ≤ v < 2 ^ 32 | IpV6 v => 0 ≤ v < 2 ^ 128 end.
Definition width (ip : IpAddr) : Z := match ip with IpV4 _ => 32 | IpV6 _ => 128 end.
Definition range_ok (r : AddressRange) : Prop := ip_ok (network r) ∧ 0 ≤ prefix r ≤ width (network r).

Lemma to_digit_range radix c d : to_digit radix c = Some d → 0 ≤ d < radix.
Proof.
  unfold to_digit. intros H.
  repeat match type of H with context [if ?b then _ else _] => let E := fresh in destruct b eqn:E end; try discriminate H;
    injection H as <-; lia.
Qed.

Lemma read_digits_range radix max limit value count text v n rest : 0 < radix → 0 ≤ value ≤ max →
  read_digits radix max limit value count text = Some (v, n, rest) → 0 ≤ v ≤ max.
Proof.
  intros Hr. revert value count. induction text as [|c text IH]; intros value count Hv H; cbn [read_digits] in H; [congruence|].
  destruct (to_digit radix c) as [d|] eqn:Hd; [|congruence]. apply to_digit_range in Hd.
  destruct (Z.ltb_spec max (value * radix + d)); [done|]. destruct (match limit with Some l => _ | None => _ end); [done|].
  eapply IH; [|exact H]. nia.
Qed.

Lemma read_number_range radix max limit zero text v rest : 0 < radix → 0 ≤ max → read_number radix max limit zero text = Some (v, rest) → 0 ≤ v ≤ max.
Proof.
  intros Hr Hm H. unfold read_number in H. destruct (read_digits _ _ _ _ _ _) as [[[v' n] rest']|] eqn:E; [|done]. cbn in H.
  apply read_digits_range in E; [|lia..]. destruct (n =? 0)%nat; [done|]. destruct (_ && _); [done|]. congruence.
Qed.

Lemma read_separator_inner {A} sep i (inner : Reader A) text a rest :
  read_separator sep i inner text = Some (a, rest) → ∃ text', inner text' = Some (a, rest).
Proof.
  unfold read_separator. destruct (i =? 0)%nat; [by eexists|]. destruct (read_given_char sep text) as [[u t]|]; [|done].
  cbn. by eexists.
Qed.

Lemma octet_range i text v rest : octet i text = Some (v, rest) → 0 ≤ v ≤ 255.
Proof. intros [t H]%read_separator_inner. by eapply read_number_range in H. Qed.

Lemma read_ipv4_range text v rest : read_ipv4 text = Some (v, rest) → 0 ≤ v < 2 ^ 32.
Proof.
  unfold read_ipv4. intros H. apply bind_Some in H as ([a t1] & Ea & H). apply bind_Some in H as ([b t2] & Eb & H).
  apply bind_Some in H as ([c t3] & Ec & H). apply bind_Some in H as ([d t4] & Ed & H).
  apply octet_range in Ea, Eb, Ec, Ed. injection H as <- <-. lia.
Qed.

Abbreviation group_ok := (λ g, 0 ≤ g < 65536).

Lemma read_groups_range n index limit text groups embedded rest :
  read_groups n index limit text = (groups, embedded, rest) → Forall group_ok groups ∧ (length groups ≤ S n)%nat ∧ (S index + n = S limit → length groups ≤ n)%nat.
Proof.
  revert index text groups embedded rest. induction n as [|n IH]; intros index text groups embedded rest H; cbn [read_groups] in H.
  { injection H as <- _ _. split; [constructor | cbn; lia]. }
  destruct (if (S index <? limit)%nat then _ else _) as [[v4 t]|] eqn:E4.
  - injection H as <- _ _. destruct (Nat.ltb_spec (S index) limit); [|done].
    apply read_separator_inner in E4 as [t' E4]. apply read_ipv4_range in E4.
    split; [|cbn; lia]. repeat constructor; [apply Z.div_pos; lia | apply Z.div_lt_upper_bound; lia | apply Z.mod_pos_bound; lia..].
  - destruct (read_separator 58 index (read_number 16 65535 (Some 4%nat) true) text) as [[g t]|] eqn:Eg; [|injection H as <- _ _; split; [constructor | cbn; lia]].
    apply read_separator_inner in Eg as [t' Eg]. apply read_number_range in Eg; [|lia..].
    destruct (read_groups n (S index) limit t) as [[gs b] r] eqn:Er. injection H as <- _ _.
    apply IH in Er as (H1 & H2 & H3). split; [constructor; [lia | done] | cbn; lia].
Qed.

Lemma from_groups_range groups : Forall group_ok groups → 0 ≤ from_groups groups < 2 ^ (16 * Z.of_nat (length groups)).
Proof.
  unfold from_groups. assert (Hg : ∀ bits k, 0 ≤ bits < 2 ^ (16 * k) → 0 ≤ k → Forall group_ok groups →
    0 ≤ foldl (λ bits g, bits * 65536 + g) bits groups < 2 ^ (16 * (k + Z.of_nat (length groups)))).
  { induction groups as [|g groups IH]; intros bits k Hb Hk Hf; cbn [foldl length]; [by rewrite Z.add_0_r|].
    apply Forall_cons in Hf as [Hg Hf]. replace (k + Z.of_nat (S (length groups))) with (k + 1 + Z.of_nat (length groups)) by lia.
    apply IH; [|lia | done]. replace (16 * (k + 1)) with (16 * k + 16) by lia. rewrite Z.pow_add_r by lia. lia. }
  intros Hf. apply (Hg 0 0); [lia | lia | done].
Qed.

Lemma read_ipv6_range text v rest : read_ipv6 text = Some (v, rest) → 0 ≤ v < 2 ^ 128.
Proof.
  unfold read_ipv6. destruct (read_groups 8 0 8 text) as [[head b] t] eqn:Eh. apply read_groups_range in Eh as (H1 & _ & H3). specialize (H3 eq_refl).
  destruct (Nat.eqb_spec (length head) 8) as [E8|].
  { intros [= <- _]. apply from_groups_range in H1. by rewrite E8 in H1. }
  destruct b; [done|]. intros H. destruct (read_given_char 58 t) as [[u t1]|]; [|done]. cbn in H.
  destruct (read_given_char 58 t1) as [[u' t2]|]; [|done]. cbn in H.
  destruct (read_groups _ 0 _ t2) as [[tl b'] t3] eqn:Et. apply read_groups_range in Et as (H1' & _ & H3').
  assert (length tl ≤ 8 - (length head + 1))%nat as Hl by (apply H3'; lia). injection H as <- _.
  assert (Forall group_ok (head ++ replicate (8 - length head - length tl) 0 ++ tl)) as Hall.
  { apply Forall_app. split; [done|]. apply Forall_app. split; [|done]. apply Forall_replicate. lia. }
  apply from_groups_range in Hall. rewrite !length_app, length_replicate in Hall.
  by replace (Z.of_nat (length head + (8 - length head - length tl + length tl))) with 8 in Hall by lia.
Qed.

Lemma parse_ip_ok text ip : parse_ip text = Some ip → ip_ok ip.
Proof.
  unfold parse_ip, parse_with, read_ip. intros H. destruct (read_ipv4 text) as [[v4 r]|] eqn:E4.
  - apply read_ipv4_range in E4. destruct r; [|done]. by injection H as <-.
  - destruct (read_ipv6 text) as [[v6 r]|] eqn:E6; [|done]. cbn in H. apply read_ipv6_range in E6. destruct r; [|done]. by injection H as <-.
Qed.

Lemma to_canonical_ok ip : ip_ok ip → ip_ok (to_canonical ip).
Proof.
  destruct ip as [v|v]; [done|]. cbn. unfold to_ipv4_mapped. intros H. destruct (_ =? _); [|done]. cbn. apply Z.mod_pos_bound. lia.
Qed.

Lemma parse_u8_range text p : parse_u8 text = Some p → 0 ≤ p ≤ 255.
Proof.
  unfold parse_u8, parse_with. generalize (match text with 43 :: rest => rest | _ => text end). intros digits H.
  destruct (read_number _ _ _ _ digits) as [[v r]|] eqn:E; [|done]. apply read_number_range in E; [|lia..]. destruct r; [|done]. congruence.
Qed.

Lemma parsed_range_ok text r : range_from_str text = Ok r → range_ok r.
Proof.
  unfold range_from_str. destruct (match split_once 47 text with Some _ => _ | None => _ end) as [address p].
  intros H. destruct (parse_ip address) as [ip|] eqn:Ei; [|done]. cbn in H. apply parse_ip_ok, to_canonical_ok in Ei.
  change (match to_canonical ip with IpV4 _ => 32 | IpV6 _ => 128 end) with (width (to_canonical ip)) in H.
  assert (0 ≤ width (to_canonical ip)) by (by destruct (to_canonical ip)).
  destruct p as [p|]; cbn in H.
  - destruct (parse_u8 p) as [n|] eqn:En; [|done]. cbn in H. apply parse_u8_range in En.
    destruct (Z.ltb_spec (width (to_canonical ip)) n); [done|]. injection H as <-. split; cbn; [done | lia].
  - rewrite Z.ltb_irrefl in H. injection H as <-. split; cbn; [done | lia].
Qed.

(** * What a range covers *)
Lemma mask_bits w p k : 0 ≤ p ≤ w → 0 ≤ k → Z.testbit (mask w p) k = (w - p <=? k) && (k <? w).
Proof.
  intros Hp Hk. unfold mask. destruct (Z.ltb_spec (w - p) w).
  - rewrite <- Z.land_ones by lia. rewrite Z.land_spec, Z.shiftl_spec by lia.
    replace (2 ^ w - 1) with (Z.ones w) by (rewrite Z.ones_equiv; lia).
    destruct (Z.leb_spec (w - p) k); [|rewrite Z.testbit_neg_r by lia; done].
    destruct (Z.ltb_spec k w).
    + rewrite !Z.ones_spec_low by lia. done.
    + rewrite (Z.ones_spec_high w k) by lia. by rewrite andb_false_r.
  - rewrite Z.bits_0. assert (p = 0) as -> by lia. symmetry. apply andb_false_iff. lia.
Qed.

Lemma land_prefix w p n i : 0 ≤ p ≤ w → 0 ≤ n < 2 ^ w → 0 ≤ i < 2 ^ w →
  Z.land n (mask w p) = Z.land i (mask w p) ↔ Z.shiftr n (w - p) = Z.shiftr i (w - p).
Proof.
  intros Hp Hn Hi.
  assert (Hhigh : ∀ x k, 0 ≤ x < 2 ^ w → w ≤ k → Z.testbit x k = false).
  { intros x k Hx Hk. destruct (Z.eq_dec x 0) as [->|]; [apply Z.bits_0|]. apply Z.bits_above_log2; [lia|].
    apply Z.log2_lt_pow2; [lia|]. eapply Z.lt_le_trans; [apply Hx | apply Z.pow_le_mono_r; lia]. }
  split; intros E; apply Z.bits_inj'; intros k Hk.
  - rewrite !Z.shiftr_spec by done. destruct (Z.lt_ge_cases (k + (w - p)) w); [|by rewrite !Hhigh by lia].
    assert (Ek := f_equal (λ x, Z.testbit x (k + (w - p))) E). cbn beta in Ek. rewrite !Z.land_spec, mask_bits in Ek by lia.
    rewrite (proj2 (Z.leb_le _ _)), (proj2 (Z.ltb_lt _ _)) in Ek by lia. by rewrite !andb_true_r in Ek.
  - rewrite !Z.land_spec, mask_bits by lia. destruct (Z.leb_spec (w - p) k); [|by rewrite !andb_false_r].
    assert (Ek := f_equal (λ x, Z.testbit x (k - (w - p))) E). cbn beta in Ek. rewrite !Z.shiftr_spec in Ek by lia.
    replace (k - (w - p) + (w - p)) with k in Ek by lia. by rewrite Ek.
Qed.

(** The addresses of a range: of its family, with its first bits.  An IPv4 address in
    IPv6's clothes counts as IPv4. *)
Definition covers (r : AddressRange) (ip : IpAddr) : Prop :=
  match network r, to_canonical ip with
  | IpV4 n, IpV4 i => Z.shiftr n (32 - prefix r) = Z.shiftr i (32 - prefix r)
  | IpV6 n, IpV6 i => Z.shiftr n (128 - prefix r) = Z.shiftr i (128 - prefix r)
  | _, _ => False
  end.

Lemma range_contains_iff r ip : range_ok r → ip_ok ip → range_contains r ip = true ↔ covers r ip.
Proof.
  intros [Hn Hp] Hi%to_canonical_ok. unfold range_contains, covers. destruct (network r), (to_canonical ip); try done;
    rewrite Z.eqb_eq; by apply land_prefix.
Qed.

Lemma private_ok : Forall range_ok PRIVATE.
Proof. repeat constructor; done. Qed.
