(* ===== verification/Tunnel.v ===== *)
(** QUIC over WebSocket ([crates/tpf3mp-net/src/tunnel/]): datagrams between a player's
    QUIC endpoint and the server's, through a tunnel where UDP does not get through.

    Each end of a tunnel has a task that reads the WebSocket into a queue and one that
    writes a queue to it.  A [Lane] is one direction: the queue, its writer, the stream,
    and its reader.  [Net] is a server's socket with every tunnel and the players' ends
    of them; [tn_step] is one call or one turn of a task.  The WebSocket library is what
    it documents: messages arrive in order, unless the stream breaks. *)
From S2P Require Import Prelude.
From S2P Require Admission.
From stdpp Require Import countable.
Local Open Scope Z_scope.

Abbreviation Datagram := (list Z).

Definition MAX_DATAGRAM : nat := Z.to_nat 2048.
Definition IDLE : Duration := from_secs 60.
Definition QUEUE : nat := Z.to_nat 256.
Definition INBOUND : nat := Z.to_nat 4096.

Inductive SocketAddr := AddrV4 (ip port : Z) | AddrV6 (ip port : Z).
#[export] Instance SocketAddr_eq_dec : EqDecision SocketAddr.
Proof. solve_decision. Defined.
#[export] Instance SocketAddr_countable : Countable SocketAddr.
Proof.
  refine (inj_countable' (λ a, match a with AddrV4 i p => inl (i, p) | AddrV6 i p => inr (i, p) end)
                         (λ x, match x with inl (i, p) => AddrV4 i p | inr (i, p) => AddrV6 i p end) _).
  by intros [].
Defined.

(** * Sending and receiving *)
Record Transmit := MkTransmit { destination : SocketAddr; contents : list Z; segment_size : option nat }.

(** [slice::chunks]. *)
Fixpoint chunks_from (fuel size : nat) (l : list Z) : list Datagram :=
  match fuel, l with
  | S fuel, _ :: _ => firstn size l :: chunks_from fuel size (skipn size l)
  | _, _ => []
  end.
Definition chunks (size : nat) (l : list Z) : list Datagram := chunks_from (length l) size l.

Definition segments (t : Transmit) : list Datagram :=
  chunks (Nat.max (default (length (contents t)) (segment_size t)) 1) (contents t).

(** A datagram QUIC is given, with where it came from. *)
Abbreviation Received := (SocketAddr * Datagram)%type.
Inductive Poll (A : Type) := Ready (a : A) | Pending.
Arguments Ready {A}. Arguments Pending {A}.

(** The queue's datagrams into buffers, one each; one larger than its buffer is
    dropped. *)
Fixpoint fill_loop {T} (open : T → Received) (queue : list T) (bufs : list nat) : list Received * list T :=
  match bufs, queue with
  | [], _ | _, [] => ([], queue)
  | buf :: bufs', item :: queue =>
      if (buf <? length (open item).2)%nat then fill_loop open queue bufs
      else let '(filled, queue) := fill_loop open queue bufs' in (open item :: filled, queue)
  end.

Definition fill {T} (open : T → Received) (queue : list T) (bufs : list nat) (metas : nat) : Poll (list Received) * list T :=
  let room := Nat.min (length bufs) metas in
  let '(filled, queue) := fill_loop open queue (firstn room bufs) in
  (if (room =? 0)%nat || negb (bool_decide (filled = [])) then Ready filled else Pending, queue).

(** * One direction of a tunnel *)
Inductive Message := MBinary (d : Datagram) | MPing | MPong | MText | MClose | MFrame.

Record Lane := MkLane {
  l_queue : list Datagram;
  l_writing : bool;
  l_wire : list Message;
  l_holding : option Datagram;        (* read, and waiting for room *)
  l_reading : bool;
  l_deadline : Instant;
  l_accepted : list Datagram;         (* whatever the queue took, for the record *)
}.
#[export] Instance eta_Lane : Eta Lane := fun l =>
  MkLane (l_queue l) (l_writing l) (l_wire l) (l_holding l) (l_reading l) (l_deadline l) (l_accepted l).

Definition Lane_new (now : Instant) : Lane := MkLane [] true [] None true (now + IDLE) [].

(** [try_send] of each datagram: a full queue, or one whose writer is gone, drops it. *)
Definition offer (l : Lane) (d : Datagram) : Lane :=
  if l_writing l && (length (l_queue l) <? QUEUE)%nat
  then l <| l_queue := l_queue l ++ [d] |> <| l_accepted := l_accepted l ++ [d] |> else l.
Definition lane_send (l : Lane) (ds : list Datagram) : Lane := foldl offer l ds.

(** A turn of [write_datagrams]; [ok]: the stream takes it. *)
Definition write_datagrams (l : Lane) (ok : bool) : Lane :=
  if negb (l_writing l) then l
  else match l_queue l with
       | [] => l
       | d :: queue => if ok then l <| l_queue := queue |> <| l_wire := l_wire l ++ [MBinary d] |> else l <| l_writing := false |>
       end.

(** A turn of [read_datagrams] that awaits a message: the next one, unless it is late;
    a message larger than the stream's limit breaks it. *)
Definition read_message (l : Lane) (now : Instant) : Lane :=
  match l_wire l with
  | m :: wire =>
      if negb (l_reading l) || bool_decide (is_Some (l_holding l)) then l
      else if l_deadline l <? now then l <| l_reading := false |>
      else
        let l := l <| l_wire := wire |> in
        match m with
        | MBinary d => if (MAX_DATAGRAM <? length d)%nat then l <| l_reading := false |>
                       else l <| l_deadline := now + IDLE |> <| l_holding := Some d |>
        | MPing | MPong => l
        | MText | MClose | MFrame => l <| l_reading := false |>
        end
  | [] => l
  end.

(** Silence until the deadline, the end of the stream, or a stream that broke. *)
Definition stop_reading (l : Lane) : Lane := l <| l_reading := false |>.

(** A turn that waits for room in the queue read into. *)
Definition deliver {T} (l : Lane) (wrap : Datagram → T) (queue : list T) (capacity : nat) : Lane * list T :=
  match l_holding l with
  | Some d => if l_reading l && (length queue <? capacity)%nat then (l <| l_holding := None |>, queue ++ [wrap d]) else (l, queue)
  | None => (l, queue)
  end.

(** * The server's socket *)
Definition PREFIX : Z := 18263345973145990261.

Definition is_tunnel (a : SocketAddr) : bool :=
  match a with AddrV6 ip _ => Z.shiftr ip 64 =? PREFIX | AddrV4 _ _ => false end.

Definition tunnel_addr (index : Z) : SocketAddr := AddrV6 (Z.lor (Z.shiftl PREFIX 64) index) 443.

Record Tunnel := MkTunnel {
  t_open : bool;                      (* in the table of peers *)
  t_origin : Admission.IpAddr;
  t_attached : Z;
  t_up : Lane;                        (* from the player *)
  t_down : Lane;                      (* to the player *)
  t_inbox : list Datagram;            (* the player's queue *)
  t_heard : list Datagram;            (* what the player's endpoint got, for the record *)
}.
#[export] Instance eta_Tunnel : Eta Tunnel := fun t =>
  MkTunnel (t_open t) (t_origin t) (t_attached t) (t_up t) (t_down t) (t_inbox t) (t_heard t).

Record Net := MkNet {
  n_next : Z;
  n_tunnels : gmap SocketAddr Tunnel; (* those that closed too, for the record *)
  n_inbound : list Received;
  n_first : bool;                     (* whether tunnels are asked first *)
  n_heard : list Received;            (* what the server's endpoint got, for the record *)
  n_udp : list Transmit;              (* what it sent over UDP *)
  n_opened : Z;                       (* tunnels ever opened *)
}.
#[export] Instance eta_Net : Eta Net := fun n =>
  MkNet (n_next n) (n_tunnels n) (n_inbound n) (n_first n) (n_heard n) (n_udp n) (n_opened n).

Definition Net_new : Net := MkNet 1 ∅ [] false [] [] 0.

Definition peer (n : Net) (a : SocketAddr) : option Tunnel :=
  t ← n_tunnels n !! a; if t_open t then Some t else None.

Definition open (n : Net) (origin : Admission.IpAddr) (now : Instant) : Net :=
  let index := n_next n in
  n <| n_next := (index + 1) mod 2 ^ 64 |> <| n_opened := n_opened n + 1 |>
    <| n_tunnels := <[tunnel_addr index := MkTunnel true origin 0 (Lane_new now) (Lane_new now) [] []]> (n_tunnels n) |>.

Definition close (n : Net) (a : SocketAddr) : Net :=
  match n_tunnels n !! a with Some t => n <| n_tunnels := <[a := t <| t_open := false |>]> (n_tunnels n) |> | None => n end.

Definition set_attached (n : Net) (a : SocketAddr) (f : Z → Z) : Net :=
  match n_tunnels n !! a with
  | Some t => n <| n_tunnels := <[a := t <| t_attached := f (t_attached t) |>]> (n_tunnels n) |>
  | None => n
  end.

(** [Tunnels::attach], whether there is such a tunnel; and the end of the connection. *)
Definition attach (n : Net) (a : SocketAddr) : Net * bool :=
  match peer n a with Some _ => (set_attached n a (λ c, c + 1), true) | None => (n, false) end.
Definition detach (n : Net) (a : SocketAddr) : Net := set_attached n a (λ c, saturating_sub_u64 c 1).

Definition origin (n : Net) (a : SocketAddr) : option Admission.IpAddr := t_origin <$> peer n a.

Definition send_down (n : Net) (t : Transmit) : Net :=
  match peer n (destination t) with
  | None => n
  | Some p => n <| n_tunnels := <[destination t := p <| t_down := lane_send (t_down p) (segments t) |>]> (n_tunnels n) |>
  end.

Definition try_send (n : Net) (t : Transmit) : Net :=
  if is_tunnel (destination t) then send_down n t else n <| n_udp := n_udp n ++ [t] |>.

(** A datagram over UDP that claims a tunnel's address is emptied. *)
Definition drop_spoofed (received : list Received) : list Received :=
  (λ r : Received, if is_tunnel r.1 then (r.1, []) else r) <$> received.

(** [MuxSocket::poll_recv]; [udp] is what the UDP socket would say. *)
Definition udp_says {E} (udp : Poll (result (list Received) E)) : Poll (result (list Received) E) :=
  match udp with Ready (Ok received) => Ready (Ok (drop_spoofed received)) | _ => udp end.

Definition poll_recv {E} (n : Net) (udp : Poll (result (list Received) E)) (bufs : list nat) (metas : nat) :
    Net * Poll (result (list Received) E) :=
  let from_tunnels := fill (λ r : Received, r) (n_inbound n) bufs metas in
  let drained := n <| n_inbound := from_tunnels.2 |> <| n_first := negb (n_first n) |> in
  let untouched := n <| n_first := negb (n_first n) |> in
  if n_first n then
    match from_tunnels.1 with Ready received => (drained, Ready (Ok received)) | Pending => (drained, udp_says udp) end
  else
    match udp with
    | Pending => (drained, match from_tunnels.1 with Ready received => Ready (Ok received) | Pending => Pending end)
    | _ => (untouched, udp_says udp)
    end.

Definition heard {E} (p : Poll (result (list Received) E)) : list Received := match p with Ready (Ok received) => received | _ => [] end.

(** [unused]: whether a tunnel has carried nothing for its grace, from what it sees of
    the count of connections. *)
Inductive Unused := InUse | Since (t : Instant) | UnusedOver.

Definition watch_unused (grace : Duration) (u : Unused) (now : Instant) (attached : Z) : Unused :=
  match u with
  | InUse => if attached =? 0 then Since now else InUse
  | Since t => if 0 <? attached then InUse else if t + grace <=? now then UnusedOver else u
  | UnusedOver => UnusedOver
  end.

(** ** The player's socket *)
Definition client_send (t : Tunnel) (tr : Transmit) : Tunnel := t <| t_up := lane_send (t_up t) (segments tr) |>.

Definition client_poll (t : Tunnel) (a : SocketAddr) (bufs : list nat) (metas : nat) : Tunnel * Poll (list Received) :=
  let '(p, inbox) := fill (λ d, (a, d)) (t_inbox t) bufs metas in
  (t <| t_inbox := inbox |> <| t_heard := t_heard t ++ (match p with Ready l => l.*2 | Pending => [] end) |>, p).

(** * Everything together

    [smallest]: no buffer QUIC offers is smaller. *)
Section net.
Context {E : Type} (smallest : nat).

Definition with_tunnel (n : Net) (a : SocketAddr) (t : Tunnel) : Net := n <| n_tunnels := <[a := t]> (n_tunnels n) |>.

(** A turn of a task of one tunnel: the server's while the tunnel is open, the player's
    at any time. *)
Inductive lane_step : Tunnel → Tunnel → Prop :=
  | up_send t tr : lane_step t (client_send t tr)
  | up_write t ok : lane_step t (t <| t_up := write_datagrams (t_up t) ok |>)
  | up_noise t m : m = MPing ∨ m = MPong ∨ m = MClose → lane_step t (t <| t_up := (t_up t) <| l_wire := l_wire (t_up t) ++ [m] |> |>)
  | up_read t now : t_open t = true → lane_step t (t <| t_up := read_message (t_up t) now |>)
  | up_stop t : t_open t = true → lane_step t (t <| t_up := stop_reading (t_up t) |>)
  | down_write t ok : t_open t = true → lane_step t (t <| t_down := write_datagrams (t_down t) ok |>)
  | down_noise t m : m = MPing ∨ m = MPong ∨ m = MClose → lane_step t (t <| t_down := (t_down t) <| l_wire := l_wire (t_down t) ++ [m] |> |>)
  | down_read t now : lane_step t (t <| t_down := read_message (t_down t) now |>)
  | down_stop t : lane_step t (t <| t_down := stop_reading (t_down t) |>)
  | down_deliver t : lane_step t (t <| t_down := (deliver (t_down t) (λ d, d) (t_inbox t) QUEUE).1 |>
                                    <| t_inbox := (deliver (t_down t) (λ d, d) (t_inbox t) QUEUE).2 |>)
  | down_poll t a bufs metas : Forall (λ buf, smallest ≤ buf)%nat bufs → lane_step t (client_poll t a bufs metas).1.

Inductive tn_step : Net → Net → Prop :=
  | tn_open n from now : tn_step n (open n from now)
  | tn_close n a : tn_step n (close n a)
  | tn_attach n a : tn_step n (attach n a).1
  | tn_detach n a : tn_step n (detach n a)
  | tn_lane n a t t' : n_tunnels n !! a = Some t → lane_step t t' → tn_step n (with_tunnel n a t')
  | tn_deliver n a t : peer n a = Some t →
      tn_step n ((with_tunnel n a (t <| t_up := (deliver (t_up t) (pair a) (n_inbound n) INBOUND).1 |>))
                   <| n_inbound := (deliver (t_up t) (pair a) (n_inbound n) INBOUND).2 |>)
  | tn_send n tr : tn_step n (try_send n tr)
  | tn_poll n (udp : Poll (result (list Received) E)) bufs metas : Forall (λ buf, smallest ≤ buf)%nat bufs →
      tn_step n ((poll_recv n udp bufs metas).1 <| n_heard := n_heard n ++ heard (poll_recv n udp bufs metas).2 |>).
End net.

(** What is under way in a lane, oldest first. *)
Definition binaries (wire : list Message) : list Datagram := omap (λ m, match m with MBinary d => Some d | _ => None end) wire.
Definition in_lane (l : Lane) : list Datagram := option_list (l_holding l) ++ binaries (l_wire l) ++ l_queue l.

(** What came, or waits, from one address. *)
Definition from_addr (a : SocketAddr) (rs : list Received) : list Datagram :=
  omap (λ r : Received, if bool_decide (r.1 = a) && negb (bool_decide (r.2 = [])) then Some r.2 else None) rs.

Arguments from_addr : simpl never.

(** * One direction keeps the order *)

(** Of what a lane accepted, a part was taken at its end, [waiting] is queued there, and
    the rest is under way, or lost when the lane broke; [got] is what was taken, except
    what no buffer held. *)
Definition passed (fits : nat) (got waiting : list Datagram) (l : Lane) : Prop :=
  Forall (λ d, d ≠ []) (l_accepted l) ∧
  ∃ taken rest, l_accepted l = taken ++ waiting ++ rest ∧ got `sublist_of` taken ∧
    (Forall (λ d, length d ≤ fits)%nat (l_accepted l) → got = taken) ∧ (l_reading l = true → rest = in_lane l).

Lemma binaries_app w1 w2 : binaries (w1 ++ w2) = binaries w1 ++ binaries w2.
Proof. apply omap_app. Qed.

Section lanes.
Context (fits : nat) (got waiting : list Datagram).

Lemma passed_new now : passed fits [] [] (Lane_new now).
Proof. split; [constructor|]. exists [], []. done. Qed.

(** A change of the lane that neither accepts nor delivers. *)
Lemma passed_same l l' : l_accepted l' = l_accepted l → (l_reading l' = true → l_reading l = true ∧ in_lane l' = in_lane l) →
  passed fits got waiting l → passed fits got waiting l'.
Proof.
  intros Ea Hr (Hn & taken & rest & H1 & H2 & H3 & H4). split; [by rewrite Ea|]. exists taken, rest. rewrite Ea.
  split; [done|]. split; [done|]. split; [done|]. intros [Hl ->]%Hr. auto.
Qed.

Lemma passed_offer l d : d ≠ [] → passed fits got waiting l → passed fits got waiting (offer l d).
Proof.
  intros Hd (Hn & taken & rest & H1 & H2 & H3 & H4). unfold offer. destruct (_ && _); [|by split; [|exists taken, rest]].
  split; [by apply Forall_app; split; [|constructor]|]. exists taken, (rest ++ [d]). cbn.
  split; [by rewrite H1, <- !app_assoc|]. split; [done|]. split; [intros Hf; apply H3; by apply Forall_app in Hf as [? _]|].
  intros Hr. rewrite (H4 Hr). unfold in_lane. cbn. by rewrite !app_assoc.
Qed.

Lemma passed_send l ds : Forall (λ d, d ≠ []) ds → passed fits got waiting l → passed fits got waiting (lane_send l ds).
Proof.
  revert l. induction ds as [|d ds IH]; intros l Hds H; [done|]. apply Forall_cons_1 in Hds as [Hd Hds]. by apply IH, passed_offer.
Qed.

Lemma passed_write l ok : passed fits got waiting l → passed fits got waiting (write_datagrams l ok).
Proof.
  unfold write_datagrams. destruct (negb (l_writing l)); [done|]. destruct (l_queue l) as [|d queue] eqn:Eq; [done|]. destruct ok.
  - apply passed_same; [done|]. cbn. intros Hr. split; [done|]. unfold in_lane. cbn. rewrite binaries_app, Eq. cbn. by rewrite <- !app_assoc.
  - apply passed_same; [done|]. cbn. done.
Qed.

Lemma passed_noise l m : m = MPing ∨ m = MPong ∨ m = MClose → passed fits got waiting l → passed fits got waiting (l <| l_wire := l_wire l ++ [m] |>).
Proof.
  intros Hm. apply passed_same; [done|]. intros Hr. split; [done|]. unfold in_lane. cbn. rewrite binaries_app.
  destruct Hm as [-> | [-> | ->]]; cbn; by rewrite app_nil_r.
Qed.

Lemma passed_read l now : passed fits got waiting l → passed fits got waiting (read_message l now).
Proof.
  unfold read_message. destruct (l_wire l) as [|m wire] eqn:Ew; [done|]. destruct (l_reading l) eqn:Er; cbn [negb orb]; [|done].
  case_bool_decide as Hh; [done|]. assert (l_holding l = None) as En by (destruct (l_holding l); [by destruct Hh; eexists | done]).
  destruct (_ <? _); [by apply passed_same|].
  destruct m as [d| | | | |]; try (apply passed_same; [done|]; cbn; intros Hr; (split; [done|]); unfold in_lane; cbn; by rewrite En, Ew);
    try by apply passed_same.
  destruct (_ <? _)%nat; [by apply passed_same|]. apply passed_same; [done|]. cbn. intros Hr. split; [done|].
  unfold in_lane. cbn. by rewrite En, Ew.
Qed.

Lemma passed_stop l : passed fits got waiting l → passed fits got waiting (stop_reading l).
Proof. by apply passed_same. Qed.

(** What is delivered waits at the end. *)
Lemma passed_deliver {T} l (wrap : Datagram → T) queue capacity : passed fits got waiting l →
  let '(l', queue') := deliver l wrap queue capacity in
  (queue' = queue ∧ passed fits got waiting l') ∨
  (∃ d, queue' = queue ++ [wrap d] ∧ d ≠ [] ∧ passed fits got (waiting ++ [d]) l').
Proof.
  intros (Hn & taken & rest & H1 & H2 & H3 & H4). unfold deliver. destruct (l_holding l) as [d|] eqn:Eh; [|left; by split; [|split; [|exists taken, rest]]].
  destruct (l_reading l) eqn:Er; cbn [andb]; [|left; by split; [|split; [|exists taken, rest; split; [|split; [|split; [|rewrite Er]]]]]].
  destruct (_ <? _)%nat; [right | left; by split; [|split; [|exists taken, rest; split; [|split; [|split; [|intros _; apply H4]]]]]].
  specialize (H4 eq_refl). unfold in_lane in H4. rewrite Eh in H4. cbn in H4. exists d. split; [done|].
  assert (d ≠ []) as Hd by (rewrite Forall_forall in Hn; apply Hn, list_elem_of_In; rewrite H1, H4; rewrite !elem_of_app, elem_of_cons; tauto).
  split; [done|]. split; [done|]. exists taken, (binaries (l_wire l) ++ l_queue l). cbn. rewrite H1, H4, <- !app_assoc.
  split; [done|]. split; [done|]. split; [intros Hf; apply H3; by rewrite H1, H4|]. done.
Qed.

(** What is taken from the end leaves its queue. *)
Lemma passed_take l more taken' waiting' : waiting = taken' ++ waiting' → more `sublist_of` taken' →
  (Forall (λ d, length d ≤ fits)%nat (l_accepted l) → more = taken') →
  passed fits got waiting l → passed fits (got ++ more) waiting' l.
Proof.
  intros Ew Hm Hf (Hn & taken & rest & H1 & H2 & H3 & H4). split; [done|]. exists (taken ++ taken'), rest.
  split; [by rewrite H1, Ew, <- !app_assoc|]. split; [by apply sublist_app|]. split; [|done].
  intros Hall. by rewrite (H3 Hall), (Hf Hall).
Qed.
End lanes.

(** * The queue into the buffers *)
Lemma fill_loop_spec {T} (open : T → Received) (smallest : nat) queue bufs :
  let '(filled, queue') := fill_loop open queue bufs in
  ∃ p, queue = p ++ queue' ∧ filled `sublist_of` (open <$> p) ∧
    ∀ (g : Received → option Datagram), (∀ i, i ∈ queue → is_Some (g (open i)) → length (open i).2 ≤ smallest)%nat →
      Forall (λ buf, smallest ≤ buf)%nat bufs → omap g filled = omap g (open <$> p).
Proof.
  revert bufs. induction queue as [|item queue IH]; intros [|buf bufs]; cbn [fill_loop]; [by exists []..|].
  destruct (Nat.ltb_spec buf (length (open item).2)) as [Hlt|Hge].
  - specialize (IH (buf :: bufs)). destruct (fill_loop open queue (buf :: bufs)) as [filled queue']. destruct IH as (p & -> & H2 & H3).
    exists (item :: p). split; [done|]. split; [by constructor|]. intros g Hg Hb. rewrite (H3 g (λ i Hi, Hg i (list_elem_of_further _ _ _ Hi)) Hb).
    cbn. destruct (g (open item)) eqn:Eg; [|done]. exfalso. assert (length (open item).2 ≤ smallest)%nat by (apply Hg; [by left | by eexists]).
    apply Forall_cons_1 in Hb as [Hb _]. lia.
  - specialize (IH bufs). destruct (fill_loop open queue bufs) as [filled queue']. destruct IH as (p & -> & H2 & H3).
    exists (item :: p). split; [done|]. split; [by constructor|]. intros g Hg Hb. apply Forall_cons_1 in Hb as [_ Hb]. cbn.
    by rewrite (H3 g (λ i Hi, Hg i (list_elem_of_further _ _ _ Hi)) Hb).
Qed.

(** What [fill] hands over, and what it leaves. *)
Definition given (p : Poll (list Received)) : list Received := match p with Ready l => l | Pending => [] end.

Lemma buffers_filled {T} (open : T → Received) (smallest : nat) queue bufs metas :
  let '(r, queue') := fill open queue bufs metas in
  ∃ p, queue = p ++ queue' ∧ given r `sublist_of` (open <$> p) ∧
    ∀ (g : Received → option Datagram), (∀ i, i ∈ queue → is_Some (g (open i)) → length (open i).2 ≤ smallest)%nat →
      Forall (λ buf, smallest ≤ buf)%nat bufs → omap g (given r) = omap g (open <$> p).
Proof.
  unfold fill. set (room := Nat.min (length bufs) metas). pose proof (fill_loop_spec open smallest queue (firstn room bufs)) as H.
  destruct (fill_loop open queue (firstn room bufs)) as [filled queue']. destruct H as (p & H1 & H2 & H3).
  assert (given (if (room =? 0)%nat || negb (bool_decide (filled = [])) then Ready filled else Pending) = filled) as ->.
  { case_bool_decide as Hf; [|by rewrite orb_true_r]. rewrite Hf. by destruct (room =? 0)%nat. }
  exists p. split; [done|]. split; [done|]. intros g Hg Hb. apply H3; [done|]. by apply Forall_take.
Qed.

(** * Addresses *)
Lemma tunnel_addr_high i : 0 ≤ i < 2 ^ 64 → is_tunnel (tunnel_addr i) = true.
Proof.
  intros Hi. unfold is_tunnel, tunnel_addr. apply Z.eqb_eq. rewrite Z.shiftr_lor, Z.shiftr_shiftl_l by lia. change (64 - 64) with 0.
  rewrite Z.shiftl_0_r, (Z.shiftr_div_pow2 i) by lia. rewrite Z.div_small by lia. apply Z.lor_0_r.
Qed.

Lemma tunnel_addr_low i : 0 ≤ i < 2 ^ 64 → Z.land (Z.lor (Z.shiftl PREFIX 64) i) (Z.ones 64) = i.
Proof.
  intros Hi. rewrite Z.land_lor_distr_l, !Z.land_ones by lia. rewrite Z.shiftl_mul_pow2, Z.mod_mul by lia. by rewrite Z.lor_0_l, Z.mod_small by lia.
Qed.

Lemma tunnel_addr_inj i j : 0 ≤ i < 2 ^ 64 → 0 ≤ j < 2 ^ 64 → tunnel_addr i = tunnel_addr j → i = j.
Proof. intros Hi Hj [= E]. rewrite <- (tunnel_addr_low i Hi), <- (tunnel_addr_low j Hj). by rewrite E. Qed.

Lemma from_addr_app a l1 l2 : from_addr a (l1 ++ l2) = from_addr a l1 ++ from_addr a l2.
Proof. apply omap_app. Qed.

Lemma omap_sublist {A B} (f : A → option B) l1 l2 : l1 `sublist_of` l2 → omap f l1 `sublist_of` omap f l2.
Proof.
  induction 1 as [|x l1 l2 H IH|x l1 l2 H IH]; cbn; [done | destruct (f x); [by constructor | done] | destruct (f x); [by constructor | done]].
Qed.

Lemma elem_of_sublist {A} (x : A) l1 l2 : l1 `sublist_of` l2 → x ∈ l1 → x ∈ l2.
Proof. induction 1 as [|y l1 l2 H IH|y l1 l2 H IH]; [done | |]; rewrite !elem_of_cons; tauto. Qed.

Lemma fmap_sublist {A B} (f : A → B) l1 l2 : l1 `sublist_of` l2 → f <$> l1 `sublist_of` f <$> l2.
Proof. induction 1; cbn; by constructor. Qed.

Lemma from_addr_one a b d : d ≠ [] → from_addr a [(b, d)] = if bool_decide (b = a) then [d] else [].
Proof. intros Hd. unfold from_addr. cbn. rewrite (bool_decide_eq_false_2 (d = [])) by done. by case_bool_decide. Qed.

Lemma from_addr_none a rs : (∀ r, r ∈ rs → r.1 = a → r.2 = []) → from_addr a rs = [].
Proof.
  induction rs as [|[b d] rs IH]; intros H; [done|]. change ((b, d) :: rs) with ([(b, d)] ++ rs). rewrite from_addr_app, IH by (intros; apply H; [by right | done]).
  unfold from_addr. cbn. case_bool_decide as Hb; [|done]. pose proof (H (b, d) ltac:(by left) Hb) as Ed. cbn in Ed. by subst d.
Qed.

Lemma segments_nonempty t : Forall (λ d, d ≠ []) (segments t).
Proof.
  unfold segments, chunks. set (size := Nat.max _ 1). assert (1 ≤ size)%nat as Hs by lia. clearbody size.
  generalize (length (contents t)) as fuel. generalize (contents t) as l. intros l fuel. revert l.
  induction fuel as [|fuel IH]; intros [|x l]; cbn [chunks_from]; [constructor..|]. constructor; [|apply IH]. by destruct size; [lia|].
Qed.

(** * The whole *)
Section net_ok.
Context {E : Type} (smallest : nat).
Abbreviation tn_step := (@tn_step E smallest).

Definition tunnel_ok (n : Net) (a : SocketAddr) (t : Tunnel) : Prop :=
  passed smallest (from_addr a (n_heard n)) (from_addr a (n_inbound n)) (t_up t) ∧ passed smallest (t_heard t) (t_inbox t) (t_down t) ∧
  Forall (λ d, d ≠ []) (t_inbox t).

Record net_ok (n : Net) : Prop := {
  ok_opened : 0 ≤ n_opened n;
  ok_next : n_opened n + 1 < 2 ^ 64 → n_next n = n_opened n + 1;
  ok_addr : ∀ a, is_Some (n_tunnels n !! a) → ∃ i, 1 ≤ i ≤ n_opened n ∧ a = tunnel_addr i;
  ok_inbound : ∀ r, r ∈ n_inbound n → r.2 ≠ [] ∧ is_Some (n_tunnels n !! r.1);
  ok_heard : ∀ r, r ∈ n_heard n → is_tunnel r.1 = true → r.2 ≠ [] → is_Some (n_tunnels n !! r.1);
  ok_tunnels : ∀ a t, n_tunnels n !! a = Some t → tunnel_ok n a t;
}.

Lemma net_new_ok : net_ok Net_new.
Proof.
  split; cbn; [done | done | by intros a []; rewrite lookup_empty in * | by intros r ?%not_elem_of_nil.. |].
  intros a t Ht. by rewrite lookup_empty in Ht.
Qed.

(** A step inside one tunnel. *)
Lemma with_tunnel_ok n a t t' : net_ok n → n_tunnels n !! a = Some t → tunnel_ok n a t' → net_ok (with_tunnel n a t').
Proof.
  intros [H1 H2 H3 H4 H5 H6] Ht Hok.
  assert (Hdom : ∀ b, is_Some (n_tunnels (with_tunnel n a t') !! b) ↔ is_Some (n_tunnels n !! b)).
  { intros b. cbn. destruct (decide (a = b)) as [<-|]; [rewrite lookup_insert_eq, Ht; split; by eexists | by rewrite lookup_insert_ne]. }
  split; try done.
  - intros b Hb%Hdom. by apply H3.
  - intros r Hr. destruct (H4 r Hr) as [? ?]. split; [done|]. by apply Hdom.
  - intros r Hr ? ?. by apply Hdom, H5.
  - intros b t0 Hb. cbn in Hb. apply lookup_insert_Some in Hb as [[<- <-]|[_ Hb]]; [exact Hok | by apply H6].
Qed.

Lemma lane_step_ok n a t t' : tunnel_ok n a t → lane_step smallest t t' → tunnel_ok n a t'.
Proof.
  intros (Hu & Hd & Hi) Hs. destruct Hs as [t tr|t ok|t m Hm|t now Ho|t Ho|t ok Ho|t m Hm|t now|t|t|t b bufs metas Hb]; unfold tunnel_ok; cbn.
  - split; [apply passed_send; [apply segments_nonempty | done] | done].
  - split; [by apply passed_write | done].
  - split; [by apply passed_noise | done].
  - split; [by apply passed_read | done].
  - split; [by apply passed_stop | done].
  - split; [done|]. split; [by apply passed_write | done].
  - split; [done|]. split; [by apply passed_noise | done].
  - split; [done|]. split; [by apply passed_read | done].
  - split; [done|]. split; [by apply passed_stop | done].
  - split; [done|]. pose proof (passed_deliver smallest (t_heard t) (t_inbox t) (t_down t) (λ d, d) (t_inbox t) QUEUE Hd) as H.
    destruct (deliver _ _ _ _) as [l' queue']. cbn. destruct H as [[-> H]|(d & -> & Hne & H)]; [done|].
    split; [exact H|]. apply Forall_app. split; [done|]. by constructor.
  - unfold client_poll. pose proof (buffers_filled (λ d, (b, d)) smallest (t_inbox t) bufs metas) as H.
    destruct (fill _ _ _ _) as [p inbox]. cbn. destruct H as (q & Eq & Hsub & Hex). rewrite Eq in Hi. apply Forall_app in Hi as [_ Hi].
    split; [done|]. split; [|done].
    change (match p with Ready l => l.*2 | Pending => [] end) with (match p with Ready l => snd <$> l | Pending => [] end).
    assert (match p with Ready l => snd <$> l | Pending => [] end = snd <$> given p) as -> by (by destruct p).
    assert (snd <$> ((λ d, (b, d)) <$> q) = q) as Eqq by (rewrite <- list_fmap_compose; apply list_fmap_id).
    eapply (passed_take _ _ (t_inbox t)); [exact Eq | rewrite <- Eqq; by apply fmap_sublist | | exact Hd].
    intros Hfit. specialize (Hex (λ r, Some r.2)).
    assert (∀ l : list Received, omap (λ r, Some r.2) l = snd <$> l) as Eo by (clear; induction l as [|? ? IH]; cbn; [done | by rewrite <- IH]).
    rewrite !Eo, Eqq in Hex. apply Hex; [|exact Hb]. intros d Hin _. cbn.
    destruct Hd as (_ & taken & rest & Hacc & _). rewrite Forall_forall in Hfit. apply Hfit, list_elem_of_In. rewrite Hacc, !elem_of_app. tauto.
Qed.

Lemma open_ok n from now : net_ok n → n_opened n + 1 < 2 ^ 64 → net_ok (open n from now).
Proof.
  intros [H1 H2 H3 H4 H5 H6] Hlt. pose proof (H2 Hlt) as Hnext. unfold open. rewrite Hnext. set (a := tunnel_addr (n_opened n + 1)).
  assert (Hnew : n_tunnels n !! a = None).
  { destruct (n_tunnels n !! a) eqn:Ea; [|done]. destruct (H3 a) as (i & Hi & E'); [by rewrite Ea|]. apply tunnel_addr_inj in E'; lia. }
  assert (Hold : ∀ b, is_Some (n_tunnels n !! b) → a ≠ b) by (intros b [t Hb] <-; congruence).
  split; cbn.
  - lia.
  - intros Hm. rewrite Z.mod_small by lia. lia.
  - intros b Hb. destruct (decide (a = b)) as [<-|Hne]; [exists (n_opened n + 1); split; [lia | done]|].
    rewrite lookup_insert_ne in Hb by done. destruct (H3 b Hb) as (i & Hi & ->). exists i. split; [lia | done].
  - intros r Hr. destruct (H4 r Hr) as [? Hin]. split; [done|]. rewrite lookup_insert_ne by (by apply Hold). done.
  - intros r Hr ? ?. rewrite lookup_insert_ne by (apply Hold; by apply H5). by apply H5.
  - intros b t [[<- <-]|[_ Hb]]%lookup_insert_Some; [|by apply H6]. unfold tunnel_ok. cbn.
    rewrite !from_addr_none; [split; [apply passed_new | split; [apply passed_new | constructor]] | |].
    + intros r Hr Er. destruct (H4 r Hr) as [_ Hin%Hold]. congruence.
    + intros r Hr Er. destruct (decide (r.2 = [])) as [|Hne]; [done|]. destruct (Hold r.1); [|done].
      apply H5; [done | rewrite Er; apply tunnel_addr_high; lia | done].
Qed.

Lemma deliver_ok n a t : net_ok n → n_tunnels n !! a = Some t →
  net_ok ((with_tunnel n a (t <| t_up := (deliver (t_up t) (pair a) (n_inbound n) INBOUND).1 |>))
            <| n_inbound := (deliver (t_up t) (pair a) (n_inbound n) INBOUND).2 |>).
Proof.
  intros Hn Ht. destruct (ok_tunnels n Hn a t Ht) as (Hu & Hd & Hi).
  pose proof (passed_deliver smallest (from_addr a (n_heard n)) (from_addr a (n_inbound n)) (t_up t) (pair a) (n_inbound n) INBOUND Hu) as H.
  destruct (deliver (t_up t) (pair a) (n_inbound n) INBOUND) as [l' queue']. cbn [fst snd] in *.
  destruct H as [[-> H]|(d & -> & Hne & H)].
  { exact (with_tunnel_ok n a t (t <| t_up := l' |>) Hn Ht (conj H (conj Hd Hi))). }
  destruct Hn as [H1 H2 H3 H4 H5 H6].
  assert (Hdom : ∀ b, is_Some (n_tunnels n !! b) ↔ is_Some (<[a := t <| t_up := l' |>]> (n_tunnels n) !! b)).
  { intros b. destruct (decide (a = b)) as [<-|]; [rewrite lookup_insert_eq, Ht; split; by eexists | by rewrite lookup_insert_ne]. }
  split; cbn; try done.
  - intros b Hb%Hdom. by apply H3.
  - intros r [Hr|Hr]%elem_of_app; [destruct (H4 r Hr); split; [done | by apply Hdom]|].
    apply list_elem_of_singleton in Hr as ->. split; [done|]. apply Hdom. by eexists.
  - intros r Hr ? ?. by apply Hdom, H5.
  - intros b t0 [[<- <-]|[Hb Ht0]]%lookup_insert_Some; unfold tunnel_ok; cbn; rewrite from_addr_app, from_addr_one by done.
    + rewrite bool_decide_eq_true_2 by done. done.
    + rewrite bool_decide_eq_false_2, app_nil_r by done. by apply H6.
Qed.

(** What a poll hears and leaves. *)
Lemma poll_spec n (udp : Poll (result (list Received) E)) bufs metas :
  ∃ inbound g u, (poll_recv n udp bufs metas).1 = (n <| n_inbound := inbound |> <| n_first := negb (n_first n) |>) ∧
    heard (poll_recv n udp bufs metas).2 = g ++ drop_spoofed u ∧
    (inbound = n_inbound n ∧ g = [] ∨ ∃ r, fill (λ r : Received, r) (n_inbound n) bufs metas = (r, inbound) ∧ g = given r).
Proof.
  unfold poll_recv. destruct (fill _ (n_inbound n) bufs metas) as [[r|] inbound]; cbn [fst snd].
  - destruct (n_first n); [exists inbound, r, []; split; [done|]; split; [by rewrite app_nil_r | by right; eexists]|].
    destruct udp as [[received|e]|]; cbn.
    + exists (n_inbound n), [], received. split; [by destruct n|]. by split; [|left].
    + exists (n_inbound n), [], []. split; [by destruct n|]. by split; [|left].
    + exists inbound, r, []. split; [done|]. split; [by rewrite app_nil_r | by right; eexists].
  - destruct (n_first n), udp as [[received|e]|]; cbn.
    + exists inbound, [], received. split; [done|]. split; [done | by right; eexists].
    + exists inbound, [], []. split; [done|]. split; [done | by right; eexists].
    + exists inbound, [], []. split; [done|]. split; [done | by right; eexists].
    + exists (n_inbound n), [], received. split; [by destruct n|]. by split; [|left].
    + exists (n_inbound n), [], []. split; [by destruct n|]. by split; [|left].
    + exists inbound, [], []. split; [done|]. split; [done | by right; eexists].
Qed.

Lemma spoofed_silent a u : is_tunnel a = true → from_addr a (drop_spoofed u) = [].
Proof.
  intros Ha. apply from_addr_none. unfold drop_spoofed. intros r (r0 & -> & _)%list_elem_of_fmap Er.
  destruct (is_tunnel r0.1) eqn:E0; cbn in *; [done | congruence].
Qed.

Lemma poll_ok n (udp : Poll (result (list Received) E)) bufs metas : net_ok n → n_opened n < 2 ^ 64 → Forall (λ buf, smallest ≤ buf)%nat bufs →
  net_ok ((poll_recv n udp bufs metas).1 <| n_heard := n_heard n ++ heard (poll_recv n udp bufs metas).2 |>).
Proof.
  intros [H1 H2 H3 H4 H5 H6] Hlt Hb. destruct (poll_spec n udp bufs metas) as (inbound & g & u & -> & -> & Hcase).
  assert (Hfill : ∃ p, n_inbound n = p ++ inbound ∧ g `sublist_of` p ∧
    ∀ a, (∀ r, r ∈ n_inbound n → r.1 = a → length r.2 ≤ smallest)%nat → from_addr a g = from_addr a p).
  { destruct Hcase as [[-> ->]|(r & Hf & ->)]; [by exists []|].
    pose proof (buffers_filled (λ r : Received, r) smallest (n_inbound n) bufs metas) as H. rewrite Hf in H. destruct H as (p & E1 & E2 & E3).
    rewrite list_fmap_id in E2. rewrite list_fmap_id in E3. exists p. split; [done|]. split; [done|]. intros a Ha. apply E3; [|done].
    intros i Hi [x Hx]. apply Ha; [done|]. case_bool_decide; [done | discriminate Hx]. }
  destruct Hfill as (p & Ep & Hsub & Hex).
  split; cbn; try done.
  - intros r Hr. apply H4. rewrite Ep. apply elem_of_app. by right.
  - intros r [Hr|[Hr|Hr]%elem_of_app]%elem_of_app Htu Hne; [by apply H5 | |].
    + apply H4. rewrite Ep. apply elem_of_app. left. by eapply elem_of_sublist.
    + unfold drop_spoofed in Hr. apply list_elem_of_fmap in Hr as (r0 & -> & _). destruct (is_tunnel r0.1) eqn:E0; [done | congruence].
  - intros a t Ht. destruct (H6 a t Ht) as (Hu & Hd). split; [|exact Hd]. cbn.
    destruct (H3 a) as (i & Hi & Ea); [by eexists|].
    rewrite !from_addr_app, spoofed_silent, app_nil_r by (rewrite Ea; apply tunnel_addr_high; lia).
    eapply (passed_take _ _ (from_addr a (n_inbound n))); [by rewrite Ep, from_addr_app | by apply omap_sublist | | exact Hu].
    intros Hfit. apply Hex. intros r Hr Er. destruct (H4 r Hr) as [Hne _].
    destruct Hu as (_ & taken & rest & Hacc & _). rewrite Forall_forall in Hfit. apply Hfit, list_elem_of_In. rewrite Hacc, !elem_of_app. right. left.
    apply list_elem_of_omap. exists r. split; [done|]. by rewrite bool_decide_eq_true_2, bool_decide_eq_false_2.
Qed.

Lemma peer_in n a t : peer n a = Some t → n_tunnels n !! a = Some t ∧ t_open t = true.
Proof. unfold peer. intros (t' & Ht & H)%bind_Some. destruct (t_open t') eqn:Eo; [|done]. by injection H as ->. Qed.

Lemma set_attached_ok n a f : net_ok n → net_ok (set_attached n a f).
Proof.
  intros Hn. unfold set_attached. destruct (n_tunnels n !! a) as [t|] eqn:Ht; [|done].
  exact (with_tunnel_ok n a t (t <| t_attached := f (t_attached t) |>) Hn Ht (ok_tunnels n Hn a t Ht)).
Qed.

Lemma tn_step_ok n n' : net_ok n → n_opened n' < 2 ^ 64 → tn_step n n' → net_ok n'.
Proof.
  intros Hn Hlt Hs. destruct Hs as [n from now|n a|n a|n a|n a t t' Ht Hl|n a t Ht|n tr|n udp bufs metas Hb].
  - apply open_ok; [done | exact Hlt].
  - unfold close. destruct (n_tunnels n !! a) as [t|] eqn:Ht; [|done].
    exact (with_tunnel_ok n a t (t <| t_open := false |>) Hn Ht (ok_tunnels n Hn a t Ht)).
  - unfold attach. destruct (peer n a); [by apply set_attached_ok | done].
  - by apply set_attached_ok.
  - eapply with_tunnel_ok; [done | exact Ht |]. eapply lane_step_ok; [|exact Hl]. by apply Hn.
  - apply peer_in in Ht as [Ht _]. by apply deliver_ok.
  - unfold try_send. destruct (is_tunnel (destination tr)).
    + unfold send_down. destruct (peer n (destination tr)) as [t|] eqn:Hp; [|done]. apply peer_in in Hp as [Ht _].
      destruct (ok_tunnels n Hn _ t Ht) as (Hu & Hd & Hi).
      exact (with_tunnel_ok n _ t (t <| t_down := lane_send (t_down t) (segments tr) |>) Hn Ht
        (conj Hu (conj (passed_send smallest _ _ (t_down t) (segments tr) (segments_nonempty tr) Hd) Hi))).
    + destruct Hn as [H1 H2 H3 H4 H5 H6]. by split.
  - apply poll_ok; [done | | done]. destruct (poll_spec n udp bufs metas) as (inbound & g & u & E' & _). rewrite E' in Hlt. exact Hlt.
Qed.

Lemma opened_grows n n' : tn_step n n' → n_opened n ≤ n_opened n'.
Proof.
  destruct 1 as [n from now|n a|n a|n a|n a t t' Ht Hl|n a t Ht|n tr|n udp bufs metas Hb]; cbn; try lia.
  - unfold close. by destruct (n_tunnels n !! a).
  - unfold attach, set_attached. destruct (peer n a); [|done]. by destruct (n_tunnels n !! a).
  - unfold detach, set_attached. by destruct (n_tunnels n !! a).
  - unfold try_send, send_down. destruct (is_tunnel _); [by destruct (peer n _) | done].
  - by destruct (poll_spec n udp bufs metas) as (inbound & g & u & -> & _).
Qed.

Lemma net_reached n : n_opened n < 2 ^ 64 → rtc tn_step Net_new n → net_ok n.
Proof.
  intros Hlt Hr. revert Hlt. pattern n. revert n Hr. apply rtc_ind_r; [intros; apply net_new_ok|].
  intros y z _ Hs IH Hlt. eapply tn_step_ok; [| exact Hlt | exact Hs]. apply IH. pose proof (opened_grows y z Hs). lia.
Qed.
End net_ok.

(** C29: A tunnel carries its player's datagrams, in order, and nobody else's.  Whatever
    tunnels open and close and whatever arrives over UDP: what the server's endpoint
    hears from a tunnel's address was sent through that tunnel by its player, each
    datagram at most once and in the order sent, and what the player hears was sent to
    that address by the server; a UDP peer that claims the address is not heard.  Where
    datagrams fit the buffers, none the queues took is left out before one that arrives,
    and when a direction has nothing under way all have arrived. *)
Theorem tunnel_faithful {E : Type} (smallest : nat) (n : Net) (a : SocketAddr) (t : Tunnel) :
  n_opened n < 2 ^ 64 → rtc (@tn_step E smallest) Net_new n → n_tunnels n !! a = Some t →
  let heard_from := from_addr a (n_heard n) in
  let fits l := Forall (λ d, length d ≤ smallest)%nat (l_accepted l) in
  heard_from `sublist_of` l_accepted (t_up t) ∧ t_heard t `sublist_of` l_accepted (t_down t) ∧
  (fits (t_up t) → heard_from `prefix_of` l_accepted (t_up t) ∧
     (l_reading (t_up t) = true → in_lane (t_up t) = [] → from_addr a (n_inbound n) = [] → heard_from = l_accepted (t_up t))) ∧
  (fits (t_down t) → t_heard t `prefix_of` l_accepted (t_down t) ∧
     (l_reading (t_down t) = true → in_lane (t_down t) = [] → t_inbox t = [] → t_heard t = l_accepted (t_down t))) ∧
  (∀ r, r ∈ n_heard n → is_tunnel r.1 = true → r.2 ≠ [] → is_Some (n_tunnels n !! r.1)).
Proof.
  intros Hlt Hr Ht heard_from fits. pose proof (net_reached smallest n Hlt Hr) as Hn. destruct (ok_tunnels _ n Hn a t Ht) as (Hu & Hd & _).
  assert (Hlane : ∀ got waiting l, passed smallest got waiting l → got `sublist_of` l_accepted l ∧
    (fits l → got `prefix_of` l_accepted l ∧ (l_reading l = true → in_lane l = [] → waiting = [] → got = l_accepted l))).
  { intros got waiting l (_ & taken & rest & H1 & H2 & H3 & H4). split; [rewrite H1; by apply sublist_inserts_r|].
    intros Hf. specialize (H3 Hf). subst got. split; [rewrite H1; by apply prefix_app_r|]. intros Hread Hin ->. rewrite H1, (H4 Hread), Hin.
    by rewrite !app_nil_r. }
  destruct (Hlane _ _ _ Hu) as [U1 U2]. destruct (Hlane _ _ _ Hd) as [D1 D2].
  split; [exact U1|]. split; [exact D1|]. split; [exact U2|]. split; [exact D2|]. exact (ok_heard _ n Hn).
Qed.

(** Neither UDP nor the tunnels starve: of two polls in a row, one hears the datagram at
    the head of the tunnels' queue, and one what UDP has ready. *)
Theorem sources_take_turns {E : Type} n r rest (udp1 udp2 : Poll (result (list Received) E)) buf bufs metas :
  n_inbound n = r :: rest → (length r.2 ≤ buf)%nat →
  let '(n1, p1) := poll_recv n udp1 (buf :: bufs) (S metas) in
  let '(n2, p2) := poll_recv n1 udp2 (buf :: bufs) (S metas) in
  (r ∈ heard p1 ∨ r ∈ heard p2) ∧
  (∀ u1 u2, udp1 = Ready (Ok u1) → udp2 = Ready (Ok u2) → heard p1 = drop_spoofed u1 ∨ heard p2 = drop_spoofed u2).
Proof.
  intros Hq Hfit.
  assert (Hfill : ∀ q, ∃ filled left, fill (λ r : Received, r) (r :: q) (buf :: bufs) (S metas) = (Ready (r :: filled), left)).
  { intros q. unfold fill. cbn [length Nat.min firstn fill_loop]. rewrite (proj2 (Nat.ltb_ge _ _)) by done.
    destruct (fill_loop _ q _) as [filled left]. exists filled, left. by rewrite bool_decide_eq_false_2. }
  destruct (Hfill rest) as (filled & left & Ef). unfold poll_recv at 1. rewrite Hq, Ef. cbn [fst snd].
  destruct (n_first n) eqn:Hf; cbn [negb].
  - unfold poll_recv. cbn [n_first]. cbn. destruct udp2 as [[u2|e]|] eqn:E2; cbn; (split; [left; by left|]); intros u u' _ [= <-] || intros ? ? _ [=].
    by right.
  - destruct udp1 as [[u1|e]|] eqn:E1; unfold poll_recv; cbn [n_first n_inbound]; cbn; rewrite ?Hq, ?Ef; cbn.
    + split; [right; by left|]. intros u u' [= <-] _. by left.
    + split; [right; by left|]. intros ? ? [=].
    + destruct (fill _ left _ _) as [[]]; cbn; (split; [left; by left|]; intros ? ? [=]).
Qed.

(** A tunnel is given up only after its grace without a connection. *)
Theorem unused_after_grace grace (samples : list (Instant * Z)) :
  foldl (λ u s, watch_unused grace u s.1 s.2) InUse samples = UnusedOver →
  ∃ s1 t s2 t' c s3, samples = s1 ++ (t, 0) :: s2 ++ (t', c) :: s3 ∧ t + grace ≤ t' ∧ Forall (λ s, s.2 ≤ 0) (s2 ++ [(t', c)]).
Proof.
  assert (∀ u, foldl (λ u s, watch_unused grace u s.1 s.2) InUse samples = u →
    match u with
    | InUse => True
    | Since t => ∃ s1 s2, samples = s1 ++ (t, 0) :: s2 ∧ Forall (λ s, s.2 ≤ 0) s2
    | UnusedOver => ∃ s1 t s2 t' c s3, samples = s1 ++ (t, 0) :: s2 ++ (t', c) :: s3 ∧ t + grace ≤ t' ∧ Forall (λ s, s.2 ≤ 0) (s2 ++ [(t', c)])
    end) as H; [|intros Hu; exact (H _ Hu)].
  induction samples as [|[now c] samples IH] using rev_ind; intros u Hu; [by subst u|].
  rewrite foldl_app in Hu. cbn in Hu. specialize (IH _ eq_refl). destruct (foldl _ InUse samples) as [|t|]; cbn in Hu.
  - destruct (Z.eqb_spec c 0) as [->|]; subst u; [|done]. exists samples, []. done.
  - destruct IH as (s1 & s2 & -> & Hz). destruct (Z.ltb_spec 0 c); [by subst u|].
    assert (Forall (λ s : Instant * Z, s.2 ≤ 0) (s2 ++ [(now, c)])) as Hz' by (apply Forall_app; split; [done | by repeat constructor]).
    destruct (Z.leb_spec (t + grace) now); subst u.
    + exists s1, t, s2, now, c, []. rewrite <- app_assoc. done.
    + exists s1, (s2 ++ [(now, c)]). by rewrite <- app_assoc.
  - destruct IH as (s1 & t & s2 & t' & c' & s3 & -> & ? & ?). subst u. exists s1, t, s2, t', c', (s3 ++ [(now, c)]). rewrite <- !app_assoc. cbn. by rewrite <- app_assoc.
Qed.

(** * Witness: one datagram from a player to the server. *)
Module ToyTunnel.
Definition a : SocketAddr := tunnel_addr 1.
Definition tr : Transmit := MkTransmit (AddrV4 1 443) [7; 8; 9] (Some 2%nat).
Definition n1 : Net := open Net_new (Admission.IpV4 5) 0.
Definition t1 : Tunnel := MkTunnel true (Admission.IpV4 5) 0 (Lane_new 0) (Lane_new 0) [] [].
Definition t2 : Tunnel := client_send t1 tr.
Definition t3 : Tunnel := t2 <| t_up := write_datagrams (t_up t2) true |>.
Definition t4 : Tunnel := t3 <| t_up := read_message (t_up t3) 10 |>.
Definition n4 : Net := with_tunnel (with_tunnel (with_tunnel n1 a t2) a t3) a t4.
Definition n5 : Net := (with_tunnel n4 a (t4 <| t_up := (deliver (t_up t4) (pair a) (n_inbound n4) INBOUND).1 |>))
  <| n_inbound := (deliver (t_up t4) (pair a) (n_inbound n4) INBOUND).2 |>.
Definition udp : Poll (result (list Received) unit) := Pending.
Definition n6 : Net := (poll_recv n5 udp [1500%nat] 1).1 <| n_heard := n_heard n5 ++ heard (poll_recv n5 udp [1500%nat] 1).2 |>.
Definition t6 : Tunnel := t4 <| t_up := (deliver (t_up t4) (pair a) (n_inbound n4) INBOUND).1 |>.

Lemma toy_tunnel_reached : rtc (@tn_step unit 1500) Net_new n6.
Proof.
  eapply rtc_l; [apply (tn_open _ Net_new (Admission.IpV4 5) 0)|]. fold n1.
  eapply rtc_l; [apply (tn_lane _ n1 a t1 t2); [by vm_compute | apply up_send]|].
  eapply rtc_l; [apply (tn_lane _ _ a t2 t3); [apply lookup_insert_eq | apply up_write]|].
  eapply rtc_l; [apply (tn_lane _ _ a t3 t4); [apply lookup_insert_eq | by apply up_read]|]. fold n4.
  eapply rtc_l; [apply (tn_deliver _ n4 a t4); by vm_compute|]. fold n5.
  eapply rtc_l; [apply (tn_poll _ n5 udp [1500%nat] 1); by repeat constructor | apply rtc_refl].
Qed.
End ToyTunnel.

Lemma tunnel_faithful_witness :
  from_addr ToyTunnel.a (n_heard ToyTunnel.n6) = [[7; 8]] ∧ l_accepted (t_up ToyTunnel.t6) = [[7; 8]; [9]] ∧
  from_addr ToyTunnel.a (n_heard ToyTunnel.n6) `prefix_of` l_accepted (t_up ToyTunnel.t6).
Proof.
  split; [by vm_compute|]. split; [by vm_compute|].
  assert (Ht : n_tunnels ToyTunnel.n6 !! ToyTunnel.a = Some ToyTunnel.t6) by (by vm_compute).
  pose proof (tunnel_faithful 1500 ToyTunnel.n6 ToyTunnel.a ToyTunnel.t6 ltac:(by vm_compute) ToyTunnel.toy_tunnel_reached Ht) as (_ & _ & H & _).
  apply H. vm_compute. repeat constructor; lia.
Defined.
