(* ===== verification/Listener.v ===== *)
(** The tunnel listener: a tunnel's handshake ([accept] of
    [crates/tpf3mp-net/src/tunnel/server.rs]) and the task that accepts tunnels
    ([crates/tpf3mp-server/src/tunnel.rs]).

    A tunnel counts against the address its player connects from.  Behind a proxy that
    is the last [X-Forwarded-For] entry, which only the proxy can have written. *)
From S2P Require Import Prelude Chars Admission Address.
From S2P Require Connect.
Local Open Scope Z_scope.

(** * Splitting text *)

(** [str::split] on a character; the last piece is what [rsplit] gives first. *)
Fixpoint split_on (sep : Z) (text : Chars) : list Chars :=
  match text with
  | [] => [[]]
  | c :: rest =>
      let pieces := split_on sep rest in
      if c =? sep then [] :: pieces
      else match pieces with piece :: pieces => (c :: piece) :: pieces | [] => [[c]] end
  end.

Definition rsplit_first (sep : Z) (text : Chars) : Chars := List.last (split_on sep text) [].

(** * The handshake

    What the HTTP library says of a header's value as text. *)
Section handshake.
Context {HeaderValue : Type} (to_str : HeaderValue → option Chars).

Record Request := MkRequest { req_path : Chars; req_headers : list (Chars * HeaderValue) }.

Definition get_all (name : Chars) (headers : list (Chars * HeaderValue)) : list HeaderValue :=
  snd <$> List.filter (λ h, bool_decide (h.1 = name)) headers.

Definition offers_protocol (headers : list (Chars * HeaderValue)) : bool :=
  existsb (λ offered, bool_decide (trim offered = Connect.PROTOCOL))
    (omap to_str (get_all (chars "sec-websocket-protocol") headers) ≫= split_on 44).

(** The address of one entry, with a port or without. *)
Definition entry_ip (entry : Chars) : option IpAddr :=
  match parse_ip entry with Some ip => Some ip | None => fst <$> parse_socket entry end.

Definition forwarded_client (headers : list (Chars * HeaderValue)) : option IpAddr :=
  value ← last (get_all (chars "x-forwarded-for") headers);
  text ← to_str value;
  entry_ip (trim (rsplit_first 44 text)).

Inductive TunnelRefusal := AnotherPath | BrowserPage | NoTunnelProtocol | NoForwardedFor | AddressShare.

Definition refusal_status (r : TunnelRefusal) : Z :=
  match r with AnotherPath => 404 | BrowserPage => 403 | NoTunnelProtocol | NoForwardedFor => 400 | AddressShare => 429 end.

(** The callback of [accept]: who the request says it is, and what [let_in] (the code says [admit]) gives. *)
Definition accept_request {T} (path : Chars) (forwarded : bool) (let_in : Admission → option IpAddr → Admission * option T)
    (a : Admission) (request : Request) : Admission * result (option IpAddr * T) TunnelRefusal :=
  if negb (bool_decide (req_path request = path)) then (a, Err AnotherPath)
  else if negb (bool_decide (get_all (chars "origin") (req_headers request) = [])) then (a, Err BrowserPage)
  else if negb (offers_protocol (req_headers request)) then (a, Err NoTunnelProtocol)
  else
    let client := if forwarded then forwarded_client (req_headers request) else None in
    if forwarded && bool_decide (client = None) then (a, Err NoForwardedFor)
    else
      match let_in a client with
      | (a, Some value) => (a, Ok (client, value))
      | (a, None) => (a, Err AddressShare)
      end.

(** * The listener *)
Record TunnelConfig := MkTunnelConfig { tc_path : Chars; trust_forwarded : bool; proxies : list AddressRange }.

(** [TunnelConfig::new] and [TunnelConfig::behind_proxy]. *)
Definition TunnelConfig_new : TunnelConfig := MkTunnelConfig Connect.DEFAULT_PATH false [].
Definition behind_proxy : TunnelConfig := MkTunnelConfig Connect.DEFAULT_PATH true PRIVATE.

Context (limits : Limits) (config : TunnelConfig) (capacity : Z).

(** A task that serves one tunnel, from its connection on.  What it holds: a permit, its
    own address's slot, or the forwarded address's slot once the request was read. *)
Inductive TunnelStage := Handshakes | Answered (client : option IpAddr) (slot : option Origin) | Carries (origin : IpAddr).
Record TunnelTask := MkTunnelTask { k_peer : IpAddr; k_slot : option Origin; k_stage : TunnelStage; k_request : option Request }.

Record Listening := MkListening {
  ls_permits : Z;
  ls_admission : Admission;
  ls_tasks : list TunnelTask;
  ls_refused : Z;
}.
#[export] Instance eta_Listening : Eta Listening := fun s => MkListening (ls_permits s) (ls_admission s) (ls_tasks s) (ls_refused s).

Definition Listening_new (a : Admission) : Listening := MkListening (Z.max capacity 1) a [] 0.

Definition is_proxy (peer : IpAddr) : bool :=
  negb (trust_forwarded config) || bool_decide (proxies config = []) || existsb (λ range, range_contains range peer) (proxies config).

(** [Listener::run], for one connection. *)
Definition accept_connection (s : Listening) (peer : IpAddr) : Listening :=
  if negb (is_proxy peer) then s <| ls_refused := ls_refused s + 1 |>
  else if ls_permits s <=? 0 then s <| ls_refused := ls_refused s + 1 |>
  else if trust_forwarded config then
    s <| ls_permits := ls_permits s - 1 |> <| ls_tasks := ls_tasks s ++ [MkTunnelTask peer None Handshakes None] |>
  else
    match tunnel limits (ls_admission s) (origin_of peer) with
    | (a, true) => s <| ls_admission := a |> <| ls_permits := ls_permits s - 1 |>
                     <| ls_tasks := ls_tasks s ++ [MkTunnelTask peer (Some (origin_of peer)) Handshakes None] |>
    | (a, false) => s <| ls_admission := a |> <| ls_refused := ls_refused s + 1 |>
    end.

(** What [serve_one] hands to [accept]. *)
Definition admit_forwarded (a : Admission) (client : option IpAddr) : Admission * option (option Origin) :=
  match client with
  | Some ip => let '(a, ok) := tunnel limits a (origin_of ip) in (a, if ok then Some (Some (origin_of ip)) else None)
  | None => (a, Some None)
  end.

Definition drop_slot (a : Admission) (slot : option Origin) : Admission :=
  match slot with Some o => drop_share a ATunnel o | None => a end.

(** The slots a task holds. *)
Definition task_slots (t : TunnelTask) : list Origin :=
  option_list (k_slot t) ++ match k_stage t with Answered _ slot => option_list slot | _ => [] end.

(** The end of a task, at any time: what it holds goes back. *)
Definition end_task (s : Listening) (before after : list TunnelTask) (t : TunnelTask) : Listening :=
  s <| ls_permits := ls_permits s + 1 |> <| ls_tasks := before ++ after |>
    <| ls_admission := foldl (λ a o, drop_share a ATunnel o) (ls_admission s) (task_slots t) |>.

(** The request of a task's handshake arrives. *)
Definition answer_request (s : Listening) (before after : list TunnelTask) (t : TunnelTask) (request : Request) : Listening :=
  match accept_request (tc_path config) (trust_forwarded config) admit_forwarded (ls_admission s) request with
  | (a, Ok (client, slot)) =>
      s <| ls_admission := a |> <| ls_tasks := before ++ MkTunnelTask (k_peer t) (k_slot t) (Answered client slot) (Some request) :: after |>
  | (a, Err r) =>
      end_task (s <| ls_admission := a |> <| ls_refused := ls_refused s + (if bool_decide (refusal_status r = 429) then 1 else 0) |>) before after t
  end.

(** The handshake is done, and the tunnel carries datagrams. *)
Definition carry (s : Listening) (before after : list TunnelTask) (t : TunnelTask) : Listening :=
  match k_stage t with
  | Answered client slot =>
      s <| ls_tasks := before ++ MkTunnelTask (k_peer t) (match slot with Some _ => slot | None => k_slot t end)
                                   (Carries (default (k_peer t) client)) (k_request t) :: after |>
        <| ls_admission := drop_slot (ls_admission s) (match slot with Some _ => k_slot t | None => None end) |>
  | _ => s
  end.

(** What else the server does with the same admission: [others] are the guards of its
    sessions, rooms and handshakes. *)
Record Front := MkFront { listening : Listening; others : list (Share * Origin) }.

Inductive listen_step : Front → Front → Prop :=
  | lt_accept s others peer : listen_step (MkFront s others) (MkFront (accept_connection s peer) others)
  | lt_request s others before t after request : ls_tasks s = before ++ t :: after → k_stage t = Handshakes →
      listen_step (MkFront s others) (MkFront (answer_request s before after t request) others)
  | lt_carry s others before t after : ls_tasks s = before ++ t :: after → listen_step (MkFront s others) (MkFront (carry s before after t) others)
  | lt_end s others before t after : ls_tasks s = before ++ t :: after → listen_step (MkFront s others) (MkFront (end_task s before after t) others)
  | lt_others s others op : listen_step (MkFront s others)
      (let g := gate_step limits (MkGatehouse (ls_admission s) others) op in MkFront (s <| ls_admission := admission g |>) (guards g)).

(** * What holds of every task *)
Definition slot_guards (tasks : list TunnelTask) : list (Share * Origin) := pair ATunnel <$> (tasks ≫= task_slots).
Arguments slot_guards : simpl never.

Definition task_ok (t : TunnelTask) : Prop :=
  is_proxy (k_peer t) = true ∧
  match k_stage t with
  | Handshakes => k_slot t = if trust_forwarded config then None else Some (origin_of (k_peer t))
  | Answered client slot =>
      k_slot t = (if trust_forwarded config then None else Some (origin_of (k_peer t))) ∧ slot = origin_of <$> client ∧
      ∃ request, k_request t = Some request ∧
        if trust_forwarded config then is_Some client ∧ forwarded_client (req_headers request) = client else client = None
  | Carries origin =>
      k_slot t = Some (origin_of origin) ∧
      ∃ request, k_request t = Some request ∧
        if trust_forwarded config then forwarded_client (req_headers request) = Some origin else origin = k_peer t
  end.

Record front_ok (f : Front) : Prop := {
  fr_gate : gate_ok limits (MkGatehouse (ls_admission (listening f)) (others f ++ slot_guards (ls_tasks (listening f))));
  fr_permits : ls_permits (listening f) + Z.of_nat (length (ls_tasks (listening f))) = Z.max capacity 1;
  fr_left : 0 ≤ ls_permits (listening f);
  fr_tasks : Forall task_ok (ls_tasks (listening f));
}.

Lemma slot_guards_app ts1 ts2 : slot_guards (ts1 ++ ts2) = slot_guards ts1 ++ slot_guards ts2.
Proof. unfold slot_guards. by rewrite bind_app, fmap_app. Qed.

Lemma slot_guards_cons t ts : slot_guards (t :: ts) = (pair ATunnel <$> task_slots t) ++ slot_guards ts.
Proof. unfold slot_guards. cbn. by rewrite fmap_app. Qed.

(** The guards of one task, taken out of the list of all. *)
Lemma guards_middle l before t after :
  l ++ slot_guards (before ++ t :: after) ≡ₚ (pair ATunnel <$> task_slots t) ++ l ++ slot_guards (before ++ after).
Proof. rewrite !slot_guards_app, slot_guards_cons. solve_Permutation. Qed.

Lemma drop_slots slots a l : gate_ok limits (MkGatehouse a ((pair ATunnel <$> slots) ++ l)) →
  gate_ok limits (MkGatehouse (foldl (λ a o, drop_share a ATunnel o) a slots) l).
Proof. revert a. induction slots as [|o slots IH]; intros a H; [done|]. cbn [foldl]. apply IH. by apply gate_drop. Qed.

Lemma accept_request_ok a l request : gate_ok limits (MkGatehouse a l) →
  let '(a', r) := accept_request (tc_path config) (trust_forwarded config) admit_forwarded a request in
  match r with
  | Ok (client, slot) =>
      gate_ok limits (MkGatehouse a' ((pair ATunnel <$> option_list slot) ++ l)) ∧ slot = origin_of <$> client ∧
      if trust_forwarded config then is_Some client ∧ forwarded_client (req_headers request) = client else client = None
  | Err _ => gate_ok limits (MkGatehouse a' l)
  end.
Proof.
  intros Hg. unfold accept_request. destruct (negb _); [done|]. destruct (negb _); [done|]. destruct (negb _); [done|].
  destruct (trust_forwarded config); cbn [andb].
  - case_bool_decide as Hc; [done|]. destruct (forwarded_client (req_headers request)) as [ip|] eqn:Ec; [|done].
    cbn [admit_forwarded]. pose proof (gate_tunnel limits a (origin_of ip) l Hg) as H. destruct (tunnel limits a (origin_of ip)) as [a' []]; [|done].
    split; [exact H|]. split; [done|]. split; [by eexists | done].
  - cbn. done.
Qed.

(** The rest of the server leaves the tunnels' guards alone. *)
Lemma gate_frame a l mine op : gate_ok limits (MkGatehouse a (l ++ mine)) →
  let g := gate_step limits (MkGatehouse a l) op in gate_ok limits (MkGatehouse (admission g) (guards g ++ mine)).
Proof.
  intros Hg. destruct op as [o v r|o|o|i|i]; cbn.
  - pose proof (gate_attempt limits a o v r (l ++ mine) Hg) as H. by destruct (on_attempt limits a o v r) as [a' []].
  - pose proof (gate_room limits a o (l ++ mine) Hg) as H. by destruct (room limits a o) as [a' []].
  - pose proof (gate_tunnel limits a o (l ++ mine) Hg) as H. by destruct (tunnel limits a o) as [a' []].
  - destruct (l !! i) as [[[] o]|] eqn:Ei; try done. pose proof (remove_perm i l _ Ei) as Hp.
    pose proof (gate_into limits a o (remove_at i l ++ mine)) as H. destruct (into_session limits a o) as [a' []]; cbn; apply H;
      (eapply gate_perm; [|exact Hg]; exact (Permutation_app_tail mine Hp)).
  - destruct (l !! i) as [[k o]|] eqn:Ei; [|done]. pose proof (remove_perm i l _ Ei) as Hp. cbn. apply gate_drop.
    eapply gate_perm; [|exact Hg]. exact (Permutation_app_tail mine Hp).
Qed.

Lemma accept_connection_ok s others peer : front_ok (MkFront s others) → front_ok (MkFront (accept_connection s peer) others).
Proof.
  intros [Hg Hp Hl Ht]. cbn in *. unfold accept_connection. destruct (is_proxy peer) eqn:Hpr; [|by split]. cbn [negb].
  destruct (Z.leb_spec (ls_permits s) 0); [by split|].
  destruct (trust_forwarded config) eqn:Htr.
  - split; cbn; [rewrite slot_guards_app, slot_guards_cons; by rewrite app_nil_r | rewrite length_app; cbn; lia | lia |].
    apply Forall_app. split; [done|]. constructor; [|constructor]. split; [done|]. cbn. by rewrite Htr.
  - pose proof (gate_tunnel limits _ (origin_of peer) _ Hg) as Hgt. destruct (tunnel limits (ls_admission s) (origin_of peer)) as [a []]; [|by split].
    split; cbn; [|rewrite length_app; cbn; lia | lia |].
    + eapply gate_perm; [|exact Hgt]. rewrite slot_guards_app, slot_guards_cons. cbn. change (slot_guards []) with (@nil (Share * Origin)). solve_Permutation.
    + apply Forall_app. split; [done|]. constructor; [|constructor]. split; [done|]. cbn. by rewrite Htr.
Qed.

Lemma end_task_ok s others before t after : ls_tasks s = before ++ t :: after → front_ok (MkFront s others) →
  front_ok (MkFront (end_task s before after t) others).
Proof.
  intros El [Hg Hp Hl Ht]. cbn in *. rewrite El in Hg, Hp, Ht. split; cbn.
  - apply drop_slots. eapply gate_perm; [|exact Hg]. apply guards_middle.
  - rewrite length_app in *. cbn in *. lia.
  - lia.
  - apply Forall_app in Ht as [H1 [_ H2]%Forall_cons_1]. by apply Forall_app.
Qed.

Lemma listen_step_ok f f' : front_ok f → listen_step f f' → front_ok f'.
Proof.
  intros Hf Hs. destruct Hs as [s others peer|s others before t after request El Hst|s others before t after El|s others before t after El|s others op].
  - by apply accept_connection_ok.
  - unfold answer_request. pose proof (accept_request_ok (ls_admission s) _ request (fr_gate _ Hf)) as H.
    destruct (accept_request _ _ _ _ request) as [a [[client slot]|r]].
    + destruct H as (Hg & Hslot & Hreq). destruct Hf as [_ Hp Hl Ht]. cbn in *. rewrite El in Hg, Hp, Ht.
      apply Forall_app in Ht as [H1 [[Htp Htk] H2]%Forall_cons_1]. rewrite Hst in Htk.
      split; cbn; [|rewrite length_app in *; cbn in *; lia | done |].
      * eapply gate_perm; [|exact Hg]. rewrite !slot_guards_app, !slot_guards_cons. unfold task_slots. cbn. rewrite Hst, app_nil_r, !fmap_app. solve_Permutation.
      * apply Forall_app. split; [done|]. constructor; [|done]. split; [done|]. cbn. split; [done|]. split; [done|]. by exists request.
    + apply end_task_ok; [done|]. destruct Hf as [_ Hp Hl Ht]. by split.
  - unfold carry. destruct (k_stage t) as [|client slot|] eqn:Hst; [done | | done]. destruct Hf as [Hg Hp Hl Ht]. cbn in *. rewrite El in Hg, Hp, Ht.
    pose proof Ht as [H1 [[Htp Htk] H2]%Forall_cons_1]%Forall_app. rewrite Hst in Htk. destruct Htk as (Hk & -> & request & Hr & Hc).
    assert (Hnone : drop_slot (ls_admission s) (match origin_of <$> client with Some _ => k_slot t | None => None end) = ls_admission s).
    { destruct (trust_forwarded config); [by destruct client; rewrite ?Hk | by rewrite Hc]. }
    split; cbn; rewrite ?Hnone; [|rewrite length_app in *; cbn in *; lia | done |].
    + eapply gate_perm; [|exact Hg]. rewrite !slot_guards_app, !slot_guards_cons. unfold task_slots. cbn. rewrite Hst.
      destruct (trust_forwarded config); [destruct Hc as [[ip ->] _]; rewrite Hk; cbn | rewrite Hc; cbn]; by rewrite ?app_nil_r.
    + apply Forall_app. split; [done|]. constructor; [|done]. split; [done|]. cbn.
      destruct (trust_forwarded config).
      * destruct Hc as [[ip ->] Hc]. cbn. split; [done|]. by exists request.
      * rewrite Hc. cbn. rewrite Hk. split; [done|]. by exists request.
  - by apply end_task_ok.
  - destruct Hf as [Hg Hp Hl Ht]. split; cbn; try done. by apply gate_frame.
Qed.

Lemma front_reached f : rtc listen_step (MkFront (Listening_new (Admission_new limits)) []) f → front_ok f.
Proof.
  intros Hr. pattern f. revert f Hr. apply rtc_ind_r.
  - split; cbn; [exact (new_ok limits) | lia | lia | constructor].
  - intros y z _ Hs Hy. by eapply listen_step_ok.
Qed.

(** The tunnels that carry datagrams for one address. *)
Definition carried_for (o : Origin) (t : TunnelTask) : bool :=
  match k_stage t with Carries origin => bool_decide (origin_of origin = o) | _ => false end.

Lemma carried_held o tasks : Forall task_ok tasks → Z.of_nat (length (List.filter (carried_for o) tasks)) ≤ holds ATunnel o (slot_guards tasks).
Proof.
  induction 1 as [|t tasks [_ Ht] _ IH]; [done|]. rewrite slot_guards_cons. unfold holds in *. rewrite List.filter_app, length_app. cbn [List.filter].
  unfold carried_for at 1. destruct (k_stage t) as [|client slot|origin] eqn:Hst; [lia.. |]. destruct Ht as (Hk & _).
  case_bool_decide as Ho; [|lia]. unfold task_slots. rewrite Hk, Ho, Hst. cbn. rewrite bool_decide_eq_true_2 by done. cbn. lia.
Qed.

Lemma shares_app k o l1 l2 : holds k o (l1 ++ l2) = holds k o l1 + holds k o l2.
Proof. unfold holds. rewrite List.filter_app, length_app. lia. Qed.

(** ** What the proxy says *)
Lemma split_on_none sep text : sep ∉ text → split_on sep text = [text].
Proof.
  induction text as [|c text IH]; intros H; [done|]. cbn. apply not_elem_of_cons in H as [Hc H]. rewrite (proj2 (Z.eqb_neq c sep)) by congruence.
  by rewrite IH.
Qed.

Lemma rsplit_after sep a b : sep ∉ b → rsplit_first sep (a ++ sep :: b) = b.
Proof.
  intros Hb. unfold rsplit_first. assert (∃ p ps, split_on sep (a ++ sep :: b) = p :: ps ∧ ps ≠ [] ∧ List.last ps [] = b) as (p & ps & -> & Hne & Hl).
  { induction a as [|c a (p & ps & E & Hne & Hl)]; cbn.
    - rewrite Z.eqb_refl, split_on_none by done. by exists [], [b].
    - rewrite E. destruct (c =? sep); [exists [], (p :: ps) | by exists (c :: p), ps]. split; [done|]. split; [done|]. by destruct ps. }
  by destruct ps.
Qed.

(** Text without the separator is all one piece, and [rsplit] gives what follows the last one. *)
Lemma rsplit_iff sep text piece : rsplit_first sep text = piece ↔ sep ∉ piece ∧ (text = piece ∨ ∃ before, text = before ++ sep :: piece).
Proof.
  split.
  - intros <-. destruct (decide (sep ∈ text)) as [Hin|Hout].
    + revert Hin. induction text as [|c text IH]; intros Hin; [set_solver|].
      destruct (decide (sep ∈ text)) as [Hin'|Hout].
      * destruct (IH Hin') as [Hn Ht]. assert (∃ before, text = before ++ sep :: rsplit_first sep text) as (before & E).
        { destruct Ht as [E|E]; [|done]. rewrite <- E in Hn. done. }
        assert (rsplit_first sep (c :: text) = rsplit_first sep text) as ->.
        { rewrite E at 1. change (c :: before ++ sep :: rsplit_first sep text) with ((c :: before) ++ sep :: rsplit_first sep text). by apply rsplit_after. }
        split; [done|]. right. exists (c :: before). cbn. by f_equal.
      * assert (c = sep) as -> by set_solver. change (sep :: text) with ([] ++ sep :: text). rewrite (rsplit_after sep [] text Hout). split; [done|]. right. by exists [].
    + unfold rsplit_first. rewrite split_on_none by done. cbn. split; [done | by left].
  - intros [Hn [-> | (before & ->)]]; [|by apply rsplit_after]. unfold rsplit_first. by rewrite split_on_none.
Qed.

(** The address the proxy appended: after the last comma of the last header it may have
    written to, read as an address with a port or without. *)
Definition proxy_named (headers : list (Chars * HeaderValue)) (ip : IpAddr) : Prop :=
  ∃ before value after text entry,
    headers = before ++ (chars "x-forwarded-for", value) :: after ∧ Forall (λ h, h.1 ≠ chars "x-forwarded-for") after ∧
    to_str value = Some text ∧ 44 ∉ entry ∧ (text = entry ∨ ∃ claims, text = claims ++ 44 :: entry) ∧
    (parse_ip (trim entry) = Some ip ∨ parse_ip (trim entry) = None ∧ ∃ port, parse_socket (trim entry) = Some (ip, port)).

Lemma get_all_app name (l k : list (Chars * HeaderValue)) : get_all name (l ++ k) = get_all name l ++ get_all name k.
Proof. unfold get_all. by rewrite List.filter_app, fmap_app. Qed.

Lemma get_all_none name (l : list (Chars * HeaderValue)) : get_all name l = [] ↔ Forall (λ h, h.1 ≠ name) l.
Proof.
  induction l as [|h l IH]; [by split|]. unfold get_all in *. cbn. rewrite Forall_cons.
  case_bool_decide as E; cbn; [by split; [|intros [? _]] |]. by rewrite IH; split; [|intros [_ ?]].
Qed.

Lemma last_of_all name (l : list (Chars * HeaderValue)) value : last (get_all name l) = Some value ↔
  ∃ before after, l = before ++ (name, value) :: after ∧ Forall (λ h, h.1 ≠ name) after.
Proof.
  split.
  - induction l as [|h l IH] using rev_ind; [done|]. rewrite get_all_app. unfold get_all at 2. cbn.
    case_bool_decide as E; cbn.
    + rewrite last_snoc. intros [= <-]. exists l, []. split; [|done]. destruct h as [n v]. cbn in *. by subst.
    + rewrite app_nil_r. intros (before & after & -> & Ha)%IH. exists before, (after ++ [h]). rewrite <- app_assoc. split; [done|].
      apply Forall_app. split; [done | by constructor].
  - intros (before & after & -> & Ha%get_all_none). rewrite get_all_app.
    change ((name, value) :: after) with ([(name, value)] ++ after). rewrite get_all_app, Ha, app_nil_r.
    unfold get_all at 2. cbn. rewrite bool_decide_eq_true_2 by done. cbn. by rewrite last_snoc.
Qed.

Lemma forwarded_iff headers ip : forwarded_client headers = Some ip ↔ proxy_named headers ip.
Proof.
  unfold forwarded_client, proxy_named.
  assert (Hip : ∀ entry, entry_ip entry = Some ip ↔ parse_ip entry = Some ip ∨ parse_ip entry = None ∧ ∃ port, parse_socket entry = Some (ip, port)).
  { intros entry. unfold entry_ip. destruct (parse_ip entry); [by split; [left | intros [?|[? _]]] |].
    rewrite fmap_Some. split; [intros ([? port] & ? & ->); eauto | intros [?|(_ & port & ->)]; [done | by eexists]]. }
  split.
  - intros (value & (before & after & -> & Ha)%last_of_all & H)%bind_Some. apply bind_Some in H as (text & Ht & H).
    destruct (proj1 (rsplit_iff 44 text _) eq_refl) as [Hn Hc]. apply Hip in H.
    exists before, value, after, text, (rsplit_first 44 text). by repeat split.
  - intros (before & value & after & text & entry & Hh & Ha & Ht & Hn & Hc & He).
    assert (last (get_all (chars "x-forwarded-for") headers) = Some value) as -> by (apply last_of_all; by exists before, after).
    cbn. rewrite Ht. cbn. rewrite (proj2 (rsplit_iff 44 text entry)) by done. by apply Hip.
Qed.

(** Where a trusted proxy connects from: anywhere, if no range is given, and otherwise
    from an address whose first bits are those of a range. *)
Definition proxy_address (peer : IpAddr) : Prop :=
  proxies config = [] ∨ ∃ range, range ∈ proxies config ∧ covers range peer.

Lemma is_proxy_iff (peer : IpAddr) :
  trust_forwarded config = true → ip_ok peer →
  (∀ range, range ∈ proxies config → range ∈ PRIVATE ∨ ∃ text, range_from_str text = Ok range) →
  is_proxy peer = true ↔ proxy_address peer.
Proof.
  intros Htr Hip Hranges. unfold is_proxy, proxy_address. rewrite Htr. cbn. rewrite orb_true_iff, bool_decide_eq_true, existsb_exists.
  assert (Hc : ∀ range, range ∈ proxies config → range_contains range peer = true ↔ covers range peer).
  { intros range Hin. apply range_contains_iff; [|done]. destruct (Hranges range Hin) as [Hp|[text Hp]]; [|by eapply parsed_range_ok].
    pose proof private_ok as Hall. rewrite Forall_forall in Hall. by apply Hall. }
  split; (intros [H|(range & Hin & H)]; [by left | right; exists range]).
  - apply list_elem_of_In in Hin. split; [done|]. by apply Hc.
  - split; [by apply list_elem_of_In | by apply Hc].
Qed.

(** C30: Every tunnel counts, and against the right address.  Whatever connections come,
    whatever requests they make and whatever else the server admits meanwhile: the
    listener never has more tunnels than its capacity, handshakes included, and no
    address more open tunnels than its share.  A tunnel that carries datagrams counts
    against the address its player came from.  Where forwarded addresses are not
    trusted, that is the address it connected from.  Where they are, it is the entry
    the proxy appended (what follows the last comma of the last [x-forwarded-for]
    header), whatever entries and headers the player put before it; and the connection
    came from where the proxy may: if ranges are given, from an address whose first bits
    are those of one of them, an IPv4 address written as IPv6 being one of IPv4.  The
    ranges are the private ones, or were read from text. *)
Theorem tunnels_fair (f : Front) :
  (∀ range, range ∈ proxies config → range ∈ PRIVATE ∨ ∃ text, range_from_str text = Ok range) →
  rtc listen_step (MkFront (Listening_new (Admission_new limits)) []) f →
  let tasks := ls_tasks (listening f) in
  Z.of_nat (length tasks) ≤ Z.max capacity 1 ∧
  (∀ o, Z.of_nat (length (List.filter (carried_for o) tasks)) ≤ Z.max 0 (tunnels_per_address limits)) ∧
  (∀ t origin, t ∈ tasks → k_stage t = Carries origin → ∃ request, k_request t = Some request ∧
     if trust_forwarded config
     then proxy_named (req_headers request) origin ∧ (ip_ok (k_peer t) → proxy_address (k_peer t))
     else origin = k_peer t).
Proof.
  intros Hranges Hr tasks. destruct (front_reached f Hr) as [Hg Hp Hl Ht]. split; [unfold tasks; lia|]. split.
  - intros o. pose proof (go_limits limits _ Hg ATunnel o) as Hlim. cbn in Hlim. rewrite shares_app in Hlim.
    pose proof (carried_held o _ Ht). pose proof (holds_nonneg ATunnel o (others f)). unfold tasks. lia.
  - intros t origin Hin Hst. rewrite Forall_forall in Ht. destruct (Ht t) as [H1 H2]; [done|]. rewrite Hst in H2.
    destruct H2 as (_ & request & H2 & H3). exists request. split; [done|].
    destruct (trust_forwarded config) eqn:Htr; [|done]. split; [by apply forwarded_iff|]. intros Hip. by apply is_proxy_iff.
Qed.
End handshake.

(** * Witnesses *)
Module ToyListener.
Definition limits : Limits := MkLimits 8 4 4 2 1.
Definition text_value (value : Chars) : option Chars := Some value.
Definition request (entry : string) : Request := MkRequest Connect.DEFAULT_PATH [
  (chars "sec-websocket-protocol", chars "chat, tpf3mp-quic-1");
  (chars "x-forwarded-for", chars "203.0.113.9, " ++ chars entry)].
Definition proxy : IpAddr := IpV4 (10 * 2 ^ 24 + 7).
Definition player : IpAddr := IpV4 (198 * 2 ^ 24 + 51 * 2 ^ 16 + 100 * 2 ^ 8 + 1).

Abbreviation front := (Front (HeaderValue := Chars)).
Definition f0 : front := MkFront (Listening_new 3 (Admission_new limits)) [].
Definition s1 := accept_connection (HeaderValue := Chars) limits behind_proxy (listening f0) proxy.
Definition waits : TunnelTask := MkTunnelTask (HeaderValue := Chars) proxy None Handshakes None.
Definition s2 := answer_request text_value limits behind_proxy s1 [] [] waits (request "198.51.100.1:443").
Definition answered : TunnelTask :=
  MkTunnelTask (HeaderValue := Chars) proxy None (Answered (Some player) (Some (origin_of player))) (Some (request "198.51.100.1:443")).
Definition s3 := carry s2 [] [] answered.

Lemma toy_listener_reached : rtc (listen_step text_value limits behind_proxy) f0 (MkFront s3 []).
Proof.
  eapply rtc_l; [apply lt_accept|]. fold s1.
  eapply rtc_l; [apply (lt_request _ _ _ s1 [] [] waits []); by vm_compute|]. fold s2.
  eapply rtc_l; [apply (lt_carry _ _ _ s2 [] [] answered []); by vm_compute | apply rtc_refl].
Qed.
End ToyListener.

Lemma tunnels_fair_witness :
  length (ls_tasks ToyListener.s3) = 1%nat ∧
  Z.of_nat (length (List.filter (carried_for (origin_of ToyListener.player)) (ls_tasks ToyListener.s3))) = 1 ∧
  1 ≤ Z.max 0 (tunnels_per_address ToyListener.limits) ∧
  proxy_named ToyListener.text_value (req_headers (ToyListener.request "198.51.100.1:443")) ToyListener.player ∧
  proxy_address behind_proxy ToyListener.proxy.
Proof.
  split; [by vm_compute|].
  destruct (tunnels_fair ToyListener.text_value ToyListener.limits behind_proxy 3 (MkFront ToyListener.s3 [])
    (λ range H, or_introl H) ToyListener.toy_listener_reached) as (_ & H & Hall).
  specialize (H (origin_of ToyListener.player)).
  assert (Z.of_nat (length (List.filter (carried_for (origin_of ToyListener.player)) (ls_tasks ToyListener.s3))) = 1) as E by (by vm_compute).
  cbn [listening] in H. rewrite E in H. split; [done|]. split; [done|].
  destruct (ls_tasks ToyListener.s3) as [|t ts] eqn:Et; [vm_compute in Et; discriminate|].
  destruct (Hall t ToyListener.player) as (request & Hq & Hn & Ha).
  - cbn [listening]. rewrite Et. left.
  - vm_compute in Et. injection Et as <- _. reflexivity.
  - vm_compute in Et. injection Et as <- _. cbn in Hq, Ha. injection Hq as <-. split; [exact Hn|]. apply Ha. done.
Defined.
