(* ===== verification/Http.v ===== *)
(** The launcher's HTTP server ([crates/tpf3mp-agent/src/launcher/http.rs]): one small
    request per connection, from whoever can reach the loopback interface, of whom only
    the launcher's own page knows the token.

    A stream is what each of its reads gives.  JSON is third-party code: reading an
    action and writing a body are arguments. *)
From S2P Require Import Prelude Chars Address.
From stdpp Require Import pretty.
Local Open Scope Z_scope.

Definition MAX_HEAD : nat := 8 * 1024.
Definition MAX_BODY : nat := 4 * 1024.
Definition TOKEN_HEADER : Chars := chars "x-launcher-token".

(** * Text from bytes *)
Definition within (low high b : Z) : bool := (low <=? b) && (b <=? high).
Definition rest_of (b : Z) : option Z := if within 128 191 b then Some (b - 128) else None.

(** [std::str::from_utf8], to the characters. *)
Fixpoint from_utf8 (bytes : list Z) : option Chars :=
  match bytes with
  | [] => Some []
  | a :: rest =>
      if a <? 128 then cons a <$> from_utf8 rest
      else match rest with
      | b :: rest =>
          if within 194 223 a then b ← rest_of b; cons ((a - 192) * 64 + b) <$> from_utf8 rest
          else match rest with
          | c :: rest =>
              if within 224 239 a then
                if within (if a =? 224 then 160 else 128) (if a =? 237 then 159 else 191) b then
                  b ← rest_of b; c ← rest_of c; cons (((a - 224) * 64 + b) * 64 + c) <$> from_utf8 rest
                else None
              else match rest with
              | d :: rest =>
                  if within 240 244 a && within (if a =? 240 then 144 else 128) (if a =? 244 then 143 else 191) b then
                    b ← rest_of b; c ← rest_of c; d ← rest_of d;
                    cons ((((a - 240) * 64 + b) * 64 + c) * 64 + d) <$> from_utf8 rest
                  else None
              | [] => None
              end
          | [] => None
          end
      | [] => None
      end
  end.

Definition starts_with (word text : list Z) : bool := bool_decide (take (length word) text = word).
Definition lower (c : Z) : Z := if within 65 90 c then c + 32 else c.
Definition eq_ignore_ascii_case (a b : Chars) : bool := bool_decide (lower <$> a = lower <$> b).

(** [str::split] at a line end, and at a character. *)
Fixpoint split_lines (text : Chars) : list Chars :=
  match text with
  | [] => [[]]
  | c :: rest =>
      match rest with
      | d :: rest' =>
          if (c =? 13) && (d =? 10) then [] :: split_lines rest'
          else match split_lines rest with line :: lines => (c :: line) :: lines | [] => [[c]] end
      | [] => [[c]]
      end
  end.

Fixpoint split_at (sep : Z) (text : Chars) : list Chars :=
  match text with
  | [] => [[]]
  | c :: rest =>
      if c =? sep then [] :: split_at sep rest
      else match split_at sep rest with piece :: pieces => (c :: piece) :: pieces | [] => [[c]] end
  end.

(** [usize::from_str]. *)
Definition parse_usize (text : Chars) : option Z :=
  let digits := match text with 43 :: rest => rest | _ => text end in
  parse_with (read_number 10 u64_max None true) digits.

(** * Requests *)
Record Request := MkRequest { method : Chars; path : Chars; headers : list (Chars * Chars); body : list Z }.
#[export] Instance eta_Request : Eta Request := fun r => MkRequest (method r) (path r) (headers r) (body r).

Definition header (r : Request) (name : Chars) : option Chars :=
  snd <$> List.find (λ h, eq_ignore_ascii_case h.1 name) (headers r).

(** Where the head ends. *)
Fixpoint find_end (buffer : list Z) : option nat :=
  match buffer with
  | [] => None
  | _ :: rest => if starts_with [13; 10; 13; 10] buffer then Some 0%nat else S <$> find_end rest
  end.

(** The request of a head, without its body. *)
Definition parse_header (line : Chars) : option (Chars * Chars) :=
  '(key, value) ← split_once 58 line; Some (trim key, trim value).

Definition parse_head (head : list Z) : option Request :=
  head ← from_utf8 head;
  match split_lines head with
  | [] => None
  | first :: lines =>
      match split_at 32 first with
      | method :: path :: version :: _ =>
          if negb (starts_with (chars "HTTP/1.") version) then None
          else hs ← mapM parse_header lines; Some (MkRequest method path hs [])
      | _ => None
      end
  end.

(** How much body it announces; [None] if that is too much. *)
Definition content_length (r : Request) : option nat :=
  match header r (chars "content-length") with
  | None => Some 0%nat
  | Some text => n ← parse_usize text; if n <=? Z.of_nat MAX_BODY then Some (Z.to_nat n) else None
  end.

Inductive Heard := Waiting | ReadFailed | NotARequest | Heard_ (r : Request).
Abbreviation Reads := (list (result (list Z) unit)).

(** [read_request]: its loops, over the reads still to come. *)
Fixpoint read_body (r : Request) (length_ : nat) (got : list Z) (reads : Reads) : Heard :=
  if (length_ <=? length got)%nat then Heard_ (r <| body := take length_ got |>)
  else match reads with
  | [] => Waiting
  | Err _ :: _ => ReadFailed
  | Ok [] :: _ => NotARequest
  | Ok chunk :: reads => read_body r length_ (got ++ chunk) reads
  end.

Definition on_head (buffer : list Z) (head_end : nat) (reads : Reads) : Heard :=
  match parse_head (take head_end buffer) with
  | None => NotARequest
  | Some r =>
      match content_length r with
      | None => NotARequest
      | Some n => read_body r n (drop (head_end + 4) buffer) reads
      end
  end.

Fixpoint read_head (buffer : list Z) (reads : Reads) : Heard :=
  match find_end buffer with
  | Some head_end => on_head buffer head_end reads
  | None =>
      match reads with
      | [] => Waiting
      | Err _ :: _ => ReadFailed
      | Ok chunk :: reads =>
          if bool_decide (chunk = []) || (MAX_HEAD + MAX_BODY <? length buffer + length chunk)%nat then NotARequest
          else
            let buffer := buffer ++ chunk in
            if (MAX_HEAD <? length buffer)%nat && bool_decide (find_end buffer = None) then NotARequest
            else read_head buffer reads
      end
  end.

Definition read_request (reads : Reads) : Heard := read_head [] reads.

(** * Answers *)
Record Response := MkResponse { status : string; content_type : string; response : Chars }.

Section respond.
Context {Action : Type} (from_slice : list Z → option Action) (json_error : Chars → Chars) (page : Chars).
Context (port : Z) (token : Chars).

Definition error (status : string) (message : Chars) : Response := MkResponse status "application/json" (json_error message).

Definition hosts : list Chars :=
  let port := chars (pretty port) in [chars "127.0.0.1:" ++ port; chars "localhost:" ++ port; chars "[::1]:" ++ port].
Definition host_ok (r : Request) : bool :=
  match header r (chars "host") with Some host => existsb (λ allowed, eq_ignore_ascii_case allowed host) hosts | None => false end.

(** Compared in constant time. *)
Definition authorized (r : Request) : bool :=
  match header r TOKEN_HEADER with
  | None => false
  | Some given =>
      let given := as_bytes given in
      let expected := as_bytes token in
      (length given =? length expected)%nat &&
      (foldl (λ difference ab, Z.lor difference (Z.lxor ab.1 ab.2)) 0 (zip given expected) =? 0)
  end.

(** What became of an action: the launcher stopped before it took it, or before it
    answered; or its answer. *)
Inductive Carried := Untaken | Unanswered | Answered (r : result unit Chars).

Definition stopping : Response := error "503 Service Unavailable" (chars "the launcher is stopping").
Definition unauthorized : Response := error "401 Unauthorized" (chars "missing or wrong token").

(** [respond]: the action handed to the launcher, and the answer; [state] is what the
    page would be shown. *)
Definition respond (r : Request) (state : Chars) (carried : Carried) : option Action * Response :=
  if negb (host_ok r) then (None, error "403 Forbidden" (chars "wrong host"))
  else
    let path := hd [] (split_at 63 (path r)) in
    if bool_decide (method r = chars "GET") && bool_decide (path = chars "/") then (None, MkResponse "200 OK" "text/html" page)
    else if bool_decide (method r = chars "GET") && bool_decide (path = chars "/api/state") then
      if negb (authorized r) then (None, unauthorized) else (None, MkResponse "200 OK" "application/json" state)
    else if bool_decide (method r = chars "POST") && bool_decide (path = chars "/api/action") then
      if negb (authorized r) then (None, unauthorized)
      else match from_slice (body r) with
      | None => (None, error "400 Bad Request" (chars "not an action"))
      | Some action =>
          (Some action,
           match carried with
           | Untaken | Unanswered => stopping
           | Answered (Ok _) => MkResponse "200 OK" "application/json" (chars "{" ++ [34] ++ chars "ok" ++ [34] ++ chars ":true}")
           | Answered (Err e) => error "409 Conflict" e
           end)
      end
    else (None, error "404 Not Found" (chars "not found")).
End respond.

(** * However it arrives *)

(** The request of a stream that has brought these bytes and no more so far. *)
Definition request_of (bytes : list Z) : Heard :=
  match find_end bytes with Some head_end => on_head bytes head_end [] | None => Waiting end.

Lemma starts_with_length word text : starts_with word text = true → (length word ≤ length text)%nat.
Proof. intros H%bool_decide_eq_true%(f_equal length). rewrite length_take in H. lia. Qed.

Lemma starts_with_app word a b : (length word ≤ length a)%nat → starts_with word (a ++ b) = starts_with word a.
Proof. intros H. unfold starts_with. by rewrite take_app_le. Qed.

Lemma find_end_some buffer e : find_end buffer = Some e → starts_with [13; 10; 13; 10] (drop e buffer) = true ∧ (e + 4 ≤ length buffer)%nat.
Proof.
  revert e. induction buffer as [|b rest IH]; intros e; cbn [find_end]; [done|].
  destruct (starts_with _ (b :: rest)) eqn:Es.
  - intros [= <-]. split; [done|]. by apply starts_with_length in Es.
  - intros (e' & He & ->)%fmap_Some. destruct (IH e' He) as [H1 H2]. split; [done | cbn; lia].
Qed.

(** What was found stays found, and nothing before it appears. *)
Lemma find_end_app buffer more e : find_end buffer = Some e → find_end (buffer ++ more) = Some e.
Proof.
  revert e. induction buffer as [|b rest IH]; intros e; cbn [find_end]; [done|]. destruct (starts_with _ (b :: rest)) eqn:Es.
  - intros [= <-]. cbn [app find_end]. assert (4 ≤ length (b :: rest))%nat.
    { by apply starts_with_length in Es. }
    change (b :: rest ++ more) with ((b :: rest) ++ more). by rewrite starts_with_app, Es.
  - intros (e' & He & ->)%fmap_Some. cbn [app find_end]. pose proof (proj2 (find_end_some _ _ He)) as Hl.
    change (b :: rest ++ more) with ((b :: rest) ++ more). rewrite starts_with_app, Es by (cbn; lia). by rewrite (IH e' He).
Qed.

Lemma find_end_prefix a b e : find_end a = None → find_end (a ++ b) = Some e → (length a < e + 4)%nat.
Proof.
  revert e. induction a as [|x a IH]; intros e; cbn [app find_end length]; [lia|].
  destruct (starts_with _ (x :: a)) eqn:Es; [done|]. intros Ha%fmap_None.
  destruct (starts_with _ (x :: a ++ b)) eqn:Es'.
  - intros [= <-]. destruct (Nat.le_gt_cases 4 (length (x :: a))) as [H|H]; [|cbn in H; lia].
    change (x :: a ++ b) with ((x :: a) ++ b) in Es'. by rewrite starts_with_app, Es in Es'.
  - intros (e' & He & ->)%fmap_Some. specialize (IH e' Ha He). lia.
Qed.

Lemma read_body_split r n chunks : Forall (λ c, c ≠ []) chunks → ∀ got,
  read_body r n got (Ok <$> chunks) = read_body r n (got ++ concat chunks) [].
Proof.
  induction 1 as [|c chunks Hc _ IH]; intros got; [by rewrite app_nil_r|]. cbn [fmap list_fmap read_body concat].
  destruct (Nat.leb_spec n (length got)) as [Hn|Hn].
  - rewrite (proj2 (Nat.leb_le _ _)) by (rewrite length_app; lia). do 2 f_equal. by rewrite take_app_le.
  - destruct c as [|b c]; [done|]. rewrite IH, <- app_assoc. done.
Qed.

Lemma on_head_split buffer e chunks : find_end buffer = Some e → Forall (λ c, c ≠ []) chunks →
  on_head buffer e (Ok <$> chunks) = on_head (buffer ++ concat chunks) e [].
Proof.
  intros He Hc. pose proof (proj2 (find_end_some _ _ He)) as Hl. unfold on_head. rewrite take_app_le by lia.
  destruct (parse_head _) as [r|]; [|done]. destruct (content_length r) as [n|]; [|done]. rewrite read_body_split by done. by rewrite drop_app_le by lia.
Qed.

(** A request is the same however the network cuts it up.  Its bytes, within the
    limits, are heard as the one request they are when they arrive at once: whatever
    pieces the reads give them in, the answer is that of [request_of]. *)
Theorem heard_however_split (chunks : list (list Z)) (head_end : nat) :
  Forall (λ c, c ≠ []) chunks → (length (concat chunks) ≤ MAX_HEAD + MAX_BODY)%nat →
  find_end (concat chunks) = Some head_end → (head_end + 4 ≤ MAX_HEAD)%nat →
  read_request (Ok <$> chunks) = request_of (concat chunks).
Proof.
  intros Hc Hlen He Hh. unfold read_request, request_of. rewrite He.
  assert (∀ buffer, (length (buffer ++ concat chunks) ≤ MAX_HEAD + MAX_BODY)%nat → find_end (buffer ++ concat chunks) = Some head_end →
    read_head buffer (Ok <$> chunks) = on_head (buffer ++ concat chunks) head_end []) as H; [|by apply (H [])].
  clear Hlen He. induction Hc as [|c chunks Hne Hc IH]; intros buffer Hlen He.
  - cbn [concat fmap list_fmap] in *. rewrite app_nil_r in *. cbn [read_head]. by rewrite He.
  - cbn [read_head fmap list_fmap]. destruct (find_end buffer) as [e|] eqn:Eb.
    + pose proof (find_end_app _ (concat (c :: chunks)) _ Eb) as E. rewrite He in E. injection E as <-. by apply (on_head_split _ _ (c :: chunks)); [|constructor].
    + cbn [concat] in *. rewrite app_assoc in *. rewrite bool_decide_false by done. cbn [orb].
      rewrite (proj2 (Nat.ltb_ge _ _)) by (rewrite !length_app in Hlen; lia).
      destruct (Nat.ltb_spec MAX_HEAD (length (buffer ++ c))) as [Hl|Hl]; cbn [andb]; [|by apply IH].
      rewrite bool_decide_false; [by apply IH|]. intros En.
      pose proof (find_end_prefix _ _ _ En He). lia.
Qed.

(** What is heard is small: its body is as long as it says, and no longer than that may
    be. *)
Lemma body_bounded r n got reads r' : read_body r n got reads = Heard_ r' → length (body r') = n ∧ headers r' = headers r.
Proof.
  revert got. induction reads as [|[[|b c]|] reads IH]; intros got; cbn [read_body];
    destruct (Nat.leb_spec n (length got)) as [Hn|Hn]; try done; try (by intros [= <-]; cbn; rewrite length_take; split; [lia|]).
  apply IH.
Qed.

Lemma heard_bounded reads r : read_request reads = Heard_ r →
  (length (body r) ≤ MAX_BODY)%nat ∧ content_length r = Some (length (body r)).
Proof.
  assert (Hhead : ∀ buffer e reads, on_head buffer e reads = Heard_ r → (length (body r) ≤ MAX_BODY)%nat ∧ content_length r = Some (length (body r))).
  { clear reads. intros buffer e reads. unfold on_head. destruct (parse_head _) as [r0|]; [|done].
    destruct (content_length r0) as [n|] eqn:En; [|done]. intros [Hl Hh]%body_bounded.
    assert (content_length r = Some n) as Ec by (unfold content_length, header in *; by rewrite Hh).
    rewrite Hl. split; [|done]. unfold content_length in En. destruct (header r0 _) as [t|]; [|injection En as <-; lia].
    apply bind_Some in En as (z & _ & En). destruct (Z.leb_spec z (Z.of_nat MAX_BODY)); [injection En as <-; lia | done]. }
  unfold read_request. generalize (@nil Z). induction reads as [|[c|] reads IH]; intros buffer; cbn [read_head];
    (destruct (find_end buffer) as [at_|]; [apply Hhead|]); try done.
  destruct (_ || _); [done|]. destruct (_ && _); [done|]. apply IH.
Qed.

(** * Who is answered *)
Lemma differences_zero pairs acc : foldl (λ difference ab, Z.lor difference (Z.lxor ab.1 ab.2)) acc pairs = 0 ↔
  acc = 0 ∧ Forall (λ ab : Z * Z, ab.1 = ab.2) pairs.
Proof.
  revert acc. induction pairs as [|[a b] pairs IH]; intros acc; cbn [foldl]; [split; [done | by intros [-> _]]|].
  rewrite IH, Z.lor_eq_0_iff, Z.lxor_eq_0_iff, Forall_cons. cbn. tauto.
Qed.

Lemma zip_equal {A} (l k : list A) : length l = length k → Forall (λ ab : A * A, ab.1 = ab.2) (zip l k) → l = k.
Proof.
  revert k. induction l as [|a l IH]; intros [|b k]; cbn; try done. intros [= Hl] [Hab H]%Forall_cons. cbn in Hab. f_equal; [done | by apply IH].
Qed.

Lemma authorized_iff token r : authorized token r = true ↔ ∃ given, header r TOKEN_HEADER = Some given ∧ as_bytes given = as_bytes token.
Proof.
  unfold authorized. destruct (header r TOKEN_HEADER) as [given|]; [|split; [done | by intros (? & ? & _)]].
  rewrite andb_true_iff, Nat.eqb_eq, Z.eqb_eq, differences_zero. split.
  - intros (Hl & _ & H). exists given. split; [done | by apply zip_equal].
  - intros (? & [= <-] & E). rewrite E. split; [done|]. split; [done|]. clear. induction (as_bytes token); cbn; by constructor.
Qed.

(** The request's first header of that name, in any case, has that value. *)
Definition says (r : Request) (name value : Chars) : Prop :=
  ∃ before n after, headers r = before ++ (n, value) :: after ∧ lower <$> n = lower <$> name ∧
    Forall (λ h : Chars * Chars, lower <$> h.1 ≠ lower <$> name) before.

Lemma find_first {A} (p : A → bool) l a :
  List.find p l = Some a ↔ ∃ before after, l = before ++ a :: after ∧ p a = true ∧ Forall (λ x, p x = false) before.
Proof.
  induction l as [|x l IH]; cbn; [split; [done | by intros ([] & ? & ? & _)]|].
  destruct (p x) eqn:E; [|rewrite IH]; split.
  - intros [= ->]. by exists [], l.
  - intros ([|y before] & after & Hl & Ha & Hb); injection Hl as -> ->; [done|]. apply Forall_cons in Hb as [? _]. congruence.
  - intros (before & after & -> & Ha & Hb). exists (x :: before), after. split; [done|]. split; [done|]. by constructor.
  - intros ([|y before] & after & Hl & Ha & Hb); injection Hl as -> ->; [congruence|]. apply Forall_cons in Hb as [_ Hb]. by eauto.
Qed.

Lemma header_says r name value : header r name = Some value ↔ says r name value.
Proof.
  unfold header, says, eq_ignore_ascii_case. rewrite fmap_Some. split.
  - intros ([n v] & (before & after & Hl & Hn%bool_decide_eq_true & Hb)%find_first & ->). exists before, n, after.
    split; [done|]. split; [done|]. eapply Forall_impl; [exact Hb|]. by intros h ?%bool_decide_eq_false.
  - intros (before & n & after & Hl & Hn & Hb). exists (n, value). split; [|done]. apply find_first. exists before, after.
    split; [done|]. split; [by apply bool_decide_eq_true|]. eapply Forall_impl; [exact Hb|]. intros h ?. by apply bool_decide_eq_false.
Qed.

(** It was sent to the loopback address and the launcher's port, by number or by name. *)
Definition to_loopback (port : Z) (r : Request) : Prop :=
  ∃ host allowed, says r (chars "host") host ∧ lower <$> host = lower <$> allowed ∧
    allowed ∈ [chars "127.0.0.1:" ++ chars (pretty port); chars "localhost:" ++ chars (pretty port); chars "[::1]:" ++ chars (pretty port)].

Definition knows_token (token : Chars) (r : Request) : Prop :=
  ∃ given, says r (chars "x-launcher-token") given ∧ as_bytes given = as_bytes token.

(** It is for the page, whatever its query says. *)
Definition asks_for (method_ path_ : string) (r : Request) : Prop :=
  method r = chars method_ ∧ (path r = chars path_ ∨ ∃ query, path r = chars path_ ++ 63 :: query).

Lemma host_ok_iff port r : host_ok port r = true ↔ to_loopback port r.
Proof.
  unfold host_ok, to_loopback. setoid_rewrite <- header_says. destruct (header r (chars "host")) as [host|].
  - rewrite existsb_exists. unfold eq_ignore_ascii_case. split.
    + intros (allowed & Ha%list_elem_of_In & E%bool_decide_eq_true). by exists host, allowed.
    + intros (? & allowed & [= <-] & E & Ha). exists allowed. split; [by apply list_elem_of_In | by apply bool_decide_eq_true].
  - split; [done | by intros (? & ? & ? & _)].
Qed.

Lemma knows_iff token r : authorized token r = true ↔ knows_token token r.
Proof. rewrite authorized_iff. unfold knows_token. by setoid_rewrite <- header_says. Qed.

Lemma split_first sep text word : sep ∉ word →
  hd [] (split_at sep text) = word ↔ text = word ∨ ∃ rest, text = word ++ sep :: rest.
Proof.
  revert word. induction text as [|c text IH]; intros word Hw; cbn [split_at].
  { cbn. split; [by left | by intros [-> | ([] & ?)]; destruct word]. }
  destruct (Z.eqb_spec c sep) as [->|Hc]; cbn [hd].
  - split; [intros <-; right; by exists text |]. intros [<- | (rest & E)]; [set_solver|].
    destruct word as [|w word]; [done|]. injection E as -> _. set_solver.
  - assert (hd [] (match split_at sep text with piece :: pieces => (c :: piece) :: pieces | [] => [[c]] end) = c :: hd [] (split_at sep text)) as ->
      by (by destruct (split_at sep text)).
    destruct word as [|w word].
    + split; [done | intros [? | (rest & [= ? _])]; [done | congruence]].
    + assert (sep ∉ word) as Hw' by set_solver. specialize (IH word Hw'). split.
      * intros [= -> [-> | (rest & ->)]%IH]; [by left | right; by exists rest].
      * intros [[= -> ->] | (rest & [= -> ->])]; f_equal; apply IH; [by left | right; by exists rest].
Qed.

(** C33: Only the launcher's own page acts.  The launcher is handed an action exactly if
    the request names the loopback address and the launcher's port as its host (as
    127.0.0.1, localhost or [::1]), carries the launcher's token, and posts to
    [/api/action] a body that reads as that action.  A request that names another host,
    or none, or that does not carry the token, hands the launcher nothing to do; and
    its answer is the same whatever the launcher's state is and whatever it would have
    answered, so that it tells nothing either. *)
Theorem only_the_page_acts {Action} (from_slice : list Z → option Action) json_error page port token r :
  (∀ action state carried,
    (respond from_slice json_error page port token r state carried).1 = Some action ↔
    to_loopback port r ∧ knows_token token r ∧ asks_for "POST" "/api/action" r ∧ from_slice (body r) = Some action) ∧
  (¬ to_loopback port r ∨ ¬ knows_token token r →
    ∀ state carried state' carried',
      (respond from_slice json_error page port token r state carried).1 = None ∧
      respond from_slice json_error page port token r state carried = respond from_slice json_error page port token r state' carried').
Proof.
  split.
  - intros action state carried. rewrite <- host_ok_iff, <- knows_iff. unfold asks_for.
    rewrite <- (split_first 63 (path r) (chars "/api/action")) by (apply (bool_decide_unpack _); vm_compute; exact I).
    unfold respond. destruct (host_ok port r); cbn [negb]; [|by split; [|intros (? & _)]].
    destruct (decide (method r = chars "POST")) as [->|Hm]; [|rewrite (bool_decide_false (method r = chars "POST")) by done].
    + change (bool_decide (chars "POST" = chars "GET")) with false. cbn [andb]. rewrite (bool_decide_true (chars "POST" = chars "POST")) by done.
      cbn [andb]. case_bool_decide as Hp; [|by split; [|intros (_ & _ & [_ ?] & _)]].
      destruct (authorized token r); cbn [negb]; [|by split; [|intros (_ & ? & _)]].
      destruct (from_slice (body r)); cbn; [by split; [intros [= ->] | intros (_ & _ & _ & [= ->])] |].
      by split; [|intros (_ & _ & _ & ?)].
    + cbn [andb]. split; [|by intros (_ & _ & [? _] & _)].
      destruct (_ && _); [done|]. destruct (_ && _); [by destruct (negb _)|]. done.
  - rewrite <- host_ok_iff, <- knows_iff, !not_true_iff_false. intros H state carried state' carried'.
    unfold respond. destruct H as [-> | ->]; cbn [negb]; [done|]. destruct (host_ok port r); cbn [negb]; [|done].
    by repeat (destruct (_ && _); [done|]).
Qed.

(** * Witnesses *)
Module ToyHttp.
Definition crlf : Chars := [13; 10].
Definition bytes : list Z :=
  chars "POST /api/action HTTP/1.1" ++ crlf ++ chars "Host: LocalHost:8080" ++ crlf ++ chars "content-length: 3" ++ crlf ++
  chars "X-Launcher-Token: beef" ++ crlf ++ crlf ++ chars "run".
Definition chunks : list (list Z) := (λ b, [b]) <$> bytes.
Definition wanted : Request := MkRequest (chars "POST") (chars "/api/action")
  [(chars "Host", chars "LocalHost:8080"); (chars "content-length", chars "3"); (chars "X-Launcher-Token", chars "beef")] (chars "run").
Abbreviation answers := (respond (λ b, if bool_decide (b = chars "run") then Some tt else None) id [] 8080 (chars "beef")).

Example acted : (answers wanted [] (Answered (Ok tt))).1 = Some tt.
Proof. vm_compute. reflexivity. Qed.
End ToyHttp.

Lemma heard_however_split_witness : read_request (Ok <$> ToyHttp.chunks) = Heard_ ToyHttp.wanted.
Proof.
  rewrite (heard_however_split ToyHttp.chunks 90); [vm_compute; reflexivity | | vm_compute; lia | vm_compute; reflexivity | vm_compute; lia].
  apply Forall_forall. intros c (b & -> & _)%list_elem_of_fmap. done.
Defined.

Lemma only_the_page_acts_witness :
  let forged := ToyHttp.wanted <| headers := [(chars "Host", chars "evil.example:8080"); (chars "X-Launcher-Token", chars "beef")] |> in
  to_loopback 8080 ToyHttp.wanted ∧ knows_token (chars "beef") ToyHttp.wanted ∧
  ¬ to_loopback 8080 forged ∧
  (ToyHttp.answers forged [1] Untaken).1 = None ∧
  ToyHttp.answers forged [1] Untaken = ToyHttp.answers forged [] Unanswered.
Proof.
  intros forged.
  destruct (only_the_page_acts (λ b, if bool_decide (b = chars "run") then Some tt else None) id [] 8080 (chars "beef") ToyHttp.wanted) as [H _].
  destruct (proj1 (H tt [] (Answered (Ok tt)))) as (H1 & H2 & _); [vm_compute; reflexivity|].
  split; [exact H1|]. split; [exact H2|].
  assert (Hf : ¬ to_loopback 8080 forged) by (rewrite <- host_ok_iff; vm_compute; discriminate).
  split; [exact Hf|]. exact (proj2 (only_the_page_acts _ id [] 8080 (chars "beef") forged) (or_introl Hf) _ _ _ _).
Defined.
