(* ===== verification/Launcher.v ===== *)
(** The launcher ([crates/tpf3mp-agent/src/launcher/mod.rs], [api.rs]): what it does with
    the actions of its page, the end of a session and the events of a connection, one at
    a time ([control]); and invites as players pass them on.

    A connection is the options it was made with.  How every call of the client, of the
    network and of the link ended is an argument ([Calls]).  The texts the bridge is
    given are strings; [shown] makes one of a text.  What is remembered for the next run
    is a file, which nothing here reads. *)
From S2P Require Import Prelude Proto Chars Ident Address.
From S2P Require Pattern Bridge.
Local Open Scope Z_scope.

(** * Text *)

(** [str::rsplit_once], [str::trim_matches] and [u16::from_str]. *)
Fixpoint rsplit_once (sep : Z) (text : Chars) : option (Chars * Chars) :=
  match text with
  | [] => None
  | c :: rest =>
      match rsplit_once sep rest with
      | Some (before, after) => Some (c :: before, after)
      | None => if c =? sep then Some ([], rest) else None
      end
  end.

Fixpoint drop_matching (f : Z → bool) (text : Chars) : Chars :=
  match text with c :: rest => if f c then drop_matching f rest else text | [] => [] end.
Definition trim_matches (f : Z → bool) (text : Chars) : Chars := rev (drop_matching f (rev (drop_matching f text))).

Definition parse_u16 (text : Chars) : option Z :=
  let digits := match text with 43 :: rest => rest | _ => text end in
  parse_with (read_number 10 u16_max None true) digits.

(** The marks around a word in a message. *)
Definition is_mark (c : Z) : bool := bool_decide (c ∈ 34 :: chars "'`<>(),;*").

(** * Invites as they are passed on *)
Definition names_a_server (token : Chars) : bool :=
  match rsplit_once 58 token with
  | None => false
  | Some (host, port) =>
      match parse_u16 port with
      | Some port => (0 <? port) && existsb (λ c, (c =? 46) || (c =? 91) || ((65 <=? c) && (c <=? 90)) || ((97 <=? c) && (c <=? 122))) host
      | None => false
      end
  end.

Record Passed := MkPassed { passed_server : option Chars; passed_room : Invite }.

Section passed.
Context (B : Base64).

(** The first invite of the words, with those before it, the last first. *)
Fixpoint find_invite (before words : list Chars) : option (list Chars * Invite) :=
  match words with
  | [] => None
  | word :: words =>
      match invite_from_str B word with
      | Ok invite => Some (before, invite)
      | Err _ => find_invite (word :: before) words
      end
  end.

Definition passed_invite (text : Chars) : option Passed :=
  '(before, invite) ← find_invite [] (trim_matches is_mark <$> split_whitespace text);
  Some (MkPassed (List.find names_a_server before) invite).

(** What "Copy invite" gives. *)
Definition copied (server : option Chars) (invite : Invite) : Chars :=
  match server with Some server => server ++ [32] ++ invite_text B invite | None => invite_text B invite end.
End passed.

(** * Players as the page names them *)
Definition player_hex (player : PlayerId) : Chars := write_hex (fixed_bytes 32 player).

Fixpoint trim_prefix (fuel : nat) (prefix text : Chars) : Chars :=
  match fuel, without_prefix prefix text with S fuel, Some rest => trim_prefix fuel prefix rest | _, _ => text end.

Fixpoint read_pairs (text : Chars) : option (list Z) :=
  match text with
  | a :: b :: rest => byte ← Pattern.u8_from_hex [a; b]; cons byte <$> read_pairs rest
  | _ => Some []
  end.

Definition parse_player (text : Chars) : option PlayerId :=
  let text := trim text in
  let text := trim_prefix (length text) (chars "p-") text in
  if negb (str_len text =? 64)%nat || negb (forallb (λ c, c <? 128) text) then None
  else from_fixed <$> read_pairs text.

(** * The launcher *)
Inductive LauncherAction :=
  | DoConnect (server name : Chars)
  | DoDisconnect
  | DoCreate (room : Chars) (max_players : Z) (password rules : option Chars)
  | DoJoin (invite : Chars) (password : option Chars)
  | DoReady (ready : bool)
  | DoStart
  | DoSpeed (percent : Z)
  | DoKick (player : Chars)
  | DoChat (text : Chars)
  | DoLeave.

Record Welcome := MkWelcome { tunneled : bool; server_version : Chars; offered_rules : list (Chars * Chars) }.

Record View := MkView {
  v_server : option Chars;
  v_name : Chars;
  v_connecting : bool;
  v_connected : bool;
  v_tunneled : bool;
  v_version : option Chars;
  v_rules : list (Chars * Chars);
  v_in_room : bool;
  v_invite : option Chars;
  v_error : option Chars;
}.
#[export] Instance eta_View : Eta View := fun v =>
  MkView (v_server v) (v_name v) (v_connecting v) (v_connected v) (v_tunneled v) (v_version v) (v_rules v) (v_in_room v)
    (v_invite v) (v_error v).

Section launcher.
Context (B : Base64) (shown : Chars → string).
Context {Options : Type} (name_of : Options → Chars) (again_after : Options → bool → Options).

(** How the calls of one action end. *)
Record Calls := MkCalls {
  resolves : result Options Chars;     (* the address and the route of a server *)
  connects : result Welcome Chars;
  creates : result Invite Chars;
  joins : result RoomView Chars;
  declares : result unit Chars;
  links : result unit Chars;           (* the link to the game *)
  takes : bool;                        (* whether the session takes a control *)
}.

Record Launcher := MkLauncher {
  l_view : View;
  l_status : Bridge.Status;
  l_connected : option Options;        (* a connection in no room *)
  l_session : option Options;          (* a room session *)
  l_sent : list Bridge.Control;        (* controls given to it *)
}.
#[local] Instance eta_Launcher : Eta Launcher := fun l =>
  MkLauncher (l_view l) (l_status l) (l_connected l) (l_session l) (l_sent l).
#[local] Existing Instance Bridge.eta_Status.

Abbreviation LauncherM := (SE Launcher Chars).
Definition lift {A} (r : result A Chars) : LauncherM A := λ l, (l, r).
Definition fail {A} (message : string) : LauncherM A := se_err (chars message).
Definition set_view (f : View → View) : LauncherM unit := se_mod (λ l, l <| l_view ::= f |>).

Definition text_of (max : nat) (text : Chars) (message : string) : LauncherM Chars :=
  lift (map_err (λ _, chars message) (Text_new max text)).

Definition password_text (password : option Chars) : LauncherM (option Chars) :=
  match password with
  | None | Some [] => mret None
  | Some password => text ← text_of 64 password "that password is too long"; mret (Some text)
  end.

Definition forward (calls : Calls) (control : Bridge.Control) : LauncherM unit :=
  l ← se_get;
  match l_session l with
  | None => fail "join a room first"
  | Some _ =>
      if negb (takes calls) then fail "the room session has ended"
      else se_mod (λ l, l <| l_sent ::= λ sent, sent ++ [control] |>)
  end.

Definition connect_options (calls : Calls) (server : Chars) : result Options Chars :=
  match rsplit_once 58 (trim server) with
  | None => Err (chars "the server address must be host:port")
  | Some _ => resolves calls
  end.

(** The new options carry the name given. *)
Definition connect_to (calls : Calls) (server : Chars) : LauncherM unit :=
  options ← lift (connect_options calls server);
  _ ← se_mod (λ l, l <| l_connected := None |>);
  _ ← set_view (λ v, v <| v_connecting := true |> <| v_server := Some server |>);
  _ ← set_view (λ v, v <| v_connecting := false |>);
  welcome ← lift (connects calls);
  _ ← set_view (λ v, v <| v_connected := true |> <| v_tunneled := tunneled welcome |> <| v_error := None |>
        <| v_name := name_of options |> <| v_version := Some (server_version welcome) |> <| v_rules := offered_rules welcome |>);
  se_mod (λ l, l <| l_connected := Some (again_after options (tunneled welcome)) |>).

Definition begin_session (calls : Calls) (invite : Invite) : LauncherM unit :=
  l ← se_get;
  match l_connected l with
  | None => fail "not connected"
  | Some options =>
      _ ← se_mod (λ l, l <| l_connected := None |>);
      _ ← lift (links calls);
      _ ← se_mod (λ l, l <| l_status := Bridge.Status_default <| Bridge.st_room := Bridge.st_room (l_status l) |> |>);
      _ ← set_view (λ v, v <| v_invite := Some (copied B (v_server v) invite) |> <| v_in_room := true |> <| v_error := None |>);
      se_mod (λ l, l <| l_session := Some options |>)
  end.

Definition need_connection : LauncherM Options :=
  l ← se_get; match l_connected l with None => fail "connect to a server first" | Some options => mret options end.

Definition join (calls : Calls) (invite : Invite) : LauncherM unit :=
  _ ← need_connection;
  room ← lift (joins calls);
  _ ← match view_phase room with PhaseLobby => lift (declares calls) | PhaseRunning => mret tt end;
  _ ← se_mod (λ l, l <| l_status ::= λ s, s <| Bridge.st_room := Some room |> |>);
  begin_session calls invite.

(** [act]. *)
Definition act (action : LauncherAction) (calls : Calls) : LauncherM unit :=
  match action with
  | DoConnect server name =>
      l ← se_get;
      if bool_decide (is_Some (l_session l)) then fail "leave the room first"
      else
        name ← text_of 32 (trim name) "that name is too long";
        if bool_decide (name = []) then fail "choose a name"
        else
          match passed_invite B server with
          | Some (MkPassed None _) => fail "that is an invite: put the server's address before it"
          | Some (MkPassed (Some server) invite) => _ ← connect_to calls server; join calls invite
          | None => connect_to calls (trim server)
          end
  | DoDisconnect =>
      _ ← se_mod (λ l, if bool_decide (is_Some (l_session l)) && takes calls then l <| l_sent ::= λ sent, sent ++ [Bridge.ControlLeave] |> else l);
      _ ← se_mod (λ l, l <| l_session := None |> <| l_connected := None |>);
      set_view (λ v, v <| v_connected := false |> <| v_in_room := false |> <| v_invite := None |>)
  | DoCreate room max_players password rules =>
      _ ← need_connection;
      _ ← match trim <$> rules with
          | None | Some [] => mret None
          | Some name => text ← text_of 32 name "no such rules"; mret (Some text)
          end;
      _ ← text_of 48 (trim room) "that room name is too long";
      _ ← password_text password;
      invite ← lift (creates calls);
      _ ← lift (declares calls);
      begin_session calls invite
  | DoJoin invite password =>
      options ← need_connection;
      match passed_invite B invite with
      | None => fail "that is not an invite"
      | Some passed =>
          _ ← password_text password;
          l ← se_get;
          _ ← match passed_server passed with
              | Some server =>
                  if match v_server (l_view l) with
                     | Some here => bool_decide (Pattern.to_ascii_lowercase here = Pattern.to_ascii_lowercase server)
                     | None => false
                     end
                  then mret tt else connect_to calls server
              | None => mret tt
              end;
          join calls (passed_room passed)
      end
  | DoReady ready => forward calls (Bridge.ControlReady ready)
  | DoStart => forward calls Bridge.ControlStart
  | DoSpeed percent => if MAX_SPEED <? percent then fail "that speed is too fast" else forward calls (Bridge.ControlSpeed percent)
  | DoKick player =>
      match parse_player player with
      | None => fail "that is not a player"
      | Some player => forward calls (Bridge.ControlKick player)
      end
  | DoChat text =>
      text ← text_of 280 (trim text) "that message is too long";
      if bool_decide (text = []) then mret tt else forward calls (Bridge.ControlChat (shown text))
  | DoLeave => forward calls Bridge.ControlLeave
  end.

(** [reconnect], with the connection it gives. *)
Definition reconnect (options : Options) (connects : result Welcome Chars) (l : Launcher) : Launcher :=
  match connects with
  | Ok welcome =>
      l <| l_view ::= λ v, v <| v_connected := true |> <| v_tunneled := tunneled welcome |> |> <| l_connected := Some options |>
  | Err e => l <| l_view ::= λ v, v <| v_connected := false |> <| v_error := Some e |> |> <| l_connected := None |>
  end.

(** What [control] waits for: an action, the end of the session, or an event of a
    connection in no room. *)
Inductive Happening :=
  | Acts (action : LauncherAction) (calls : Calls)
  | SessionEnds (message : string) (reconnects : result Welcome Chars)
  | Closes (reason : Chars)
  | HearsOther
  | EventsEnd.

(** One turn of [control], with the reply to an action. *)
Definition control (l : Launcher) (h : Happening) : Launcher * option (result unit Chars) :=
  match h with
  | Acts action calls =>
      let '(l, r) := act action calls l in
      (match r with Err e => l <| l_view ::= λ v, v <| v_error := Some e |> |> | Ok _ => l end, Some r)
  | SessionEnds message reconnects =>
      match l_session l with
      | None => (l, None)
      | Some options =>
          let l := l <| l_session := None |> <| l_status ::= Bridge.notice message |>
            <| l_view ::= λ v, v <| v_invite := None |> <| v_in_room := false |> |> in
          (reconnect options reconnects l, None)
      end
  | Closes reason =>
      match l_connected l with
      | None => (l, None)
      | Some _ => (l <| l_connected := None |> <| l_view ::= λ v, v <| v_connected := false |> <| v_error := Some reason |> |>, None)
      end
  | HearsOther => (l, None)
  | EventsEnd =>
      match l_connected l with
      | None => (l, None)
      | Some _ => (l <| l_connected := None |> <| l_view ::= λ v, v <| v_connected := false |> |>, None)
      end
  end.

Definition launch (server : option Chars) (name : Chars) : Launcher :=
  MkLauncher (MkView server name false false false None [] false None None) Bridge.Status_default None None [].

Definition run_control (l : Launcher) (hs : list Happening) : Launcher := foldl (λ l h, (control l h).1) l hs.

(** * What the page is shown is what there is *)
Record consistent (l : Launcher) : Prop := {
  co_one : l_connected l = None ∨ l_session l = None;
  co_room : v_in_room (l_view l) = true ↔ is_Some (l_session l);
  co_invite : is_Some (v_invite (l_view l)) ↔ v_in_room (l_view l) = true;
  co_connected : is_Some (l_connected l) ∨ is_Some (l_session l) → v_connected (l_view l) = true;
  co_connecting : v_connecting (l_view l) = false;
}.

Definition keeps {A} (m : LauncherM A) : Prop := ∀ l, consistent l → consistent (m l).1.

Lemma consistent_bind {A C} (m : LauncherM A) (k : A → LauncherM C) : keeps m → (∀ a, keeps (k a)) → keeps (m ≫= k).
Proof.
  intros Hm Hk l Hl. specialize (Hm l Hl). unfold mbind, SE_bind. destruct (m l) as [l1 [a|e]]; [by apply Hk | done].
Qed.
Lemma consistent_lift {A} (r : result A Chars) : keeps (lift r).
Proof. by intros l. Qed.
Lemma keeps_text max text message : keeps (text_of max text message).
Proof. apply consistent_lift. Qed.
Lemma keeps_password password : keeps (password_text password).
Proof. destruct password as [[|c t]|]; [by intros l | apply consistent_bind; [apply keeps_text | by intros ? l] | by intros l]. Qed.

Lemma keeps_forward calls c : keeps (forward calls c).
Proof.
  intros l Hl. unfold forward, mbind, SE_bind, se_get. destruct (l_session l) eqn:E; [|done]. destruct (takes calls); [|done]. cbn. by destruct Hl.
Qed.

Lemma connect_kept calls server l : consistent l → l_session l = None →
  consistent (connect_to calls server l).1 ∧ l_session (connect_to calls server l).1 = None.
Proof.
  intros [H1 H2 H3 H4 H5] Hs. unfold connect_to, lift, set_view, se_mod, mbind, SE_bind.
  destruct (connect_options calls server) as [options|e]; cbn; [|done]. destruct (connects calls) as [w|e]; cbn; (split; [|done]).
  - split; cbn; [by right | done | done | done | done].
  - split; cbn; [by left | done | done | rewrite Hs; by intros [[]|[]] | done].
Qed.

Lemma begin_kept calls invite : keeps (begin_session calls invite).
Proof.
  intros l Hl. unfold begin_session, lift, set_view, se_mod, mbind, SE_bind, se_get.
  destruct (l_connected l) as [options|] eqn:Ec; [|done]. destruct Hl as [H1 H2 H3 H4 H5]. rewrite Ec in *.
  assert (Hs : l_session l = None) by (by destruct H1).
  destruct (links calls) as [[]|e]; cbn.
  - split; cbn; [by left | done | done | intros _; apply H4; by left | done].
  - split; cbn; [by left | done | done | rewrite Hs; by intros [[]|[]] | done].
Qed.

Lemma need_kept : keeps need_connection.
Proof. intros l Hl. unfold need_connection, mbind, SE_bind, se_get. by destruct (l_connected l). Qed.

Lemma join_kept calls invite : keeps (join calls invite).
Proof.
  apply consistent_bind; [apply need_kept|]. intros _. apply consistent_bind; [apply consistent_lift|]. intros room.
  apply consistent_bind; [destruct (view_phase room); [apply consistent_lift | by intros l]|]. intros _.
  apply consistent_bind; [intros l Hl; cbn; by destruct Hl|]. intros _. apply begin_kept.
Qed.

Lemma then_join calls server invite l : consistent l → l_session l = None →
  consistent ((connect_to calls server ≫= λ _, join calls invite) l).1.
Proof.
  intros Hl Hs. destruct (connect_kept calls server l Hl Hs) as [H _]. unfold mbind, SE_bind.
  destruct (connect_to calls server l) as [l1 [[]|e]]; [by apply join_kept | done].
Qed.

Lemma act_kept action calls : keeps (act action calls).
Proof.
  destruct action as [server name| |room max_players password rules|invite password|ready| |percent|player|text|]; cbn [act].
  - intros l Hl. unfold mbind at 1, SE_bind at 1, se_get. case_bool_decide as Hs; [done|].
    assert (Hn : l_session l = None) by (by apply eq_None_not_Some). unfold mbind at 1, SE_bind at 1, text_of, lift.
    destruct (map_err _ _) as [nm|e]; [|done]. case_bool_decide; [done|]. destruct (passed_invite B server) as [[[at_|] invite]|].
    + by apply then_join.
    + done.
    + by apply connect_kept.
  - intros l [H1 H2 H3 H4 H5]. unfold mbind, SE_bind, se_mod, set_view. cbn. destruct (_ && _); (split; cbn;
      [by left | split; [done | by intros []] | split; [by intros [] | done] | by intros [[]|[]] | done]).
  - apply consistent_bind; [apply need_kept|]. intros _.
    apply consistent_bind; [destruct (trim <$> rules) as [[|c t]|]; [by intros l | apply consistent_bind; [apply keeps_text | by intros ? l] | by intros l]|]. intros _.
    apply consistent_bind; [apply keeps_text|]. intros _. apply consistent_bind; [apply keeps_password|]. intros _.
    apply consistent_bind; [apply consistent_lift|]. intros i. apply consistent_bind; [apply consistent_lift|]. intros _. apply begin_kept.
  - intros l Hl. unfold need_connection, mbind, SE_bind, se_get. destruct (l_connected l) as [options|] eqn:Ec; [|done]. cbn.
    assert (Hs : l_session l = None) by (by destruct (co_one l Hl); [congruence|]).
    destruct (passed_invite B invite) as [p|]; [|done]. pose proof (keeps_password password l Hl) as Hp.
    assert (Hsame : (password_text password l).1 = l).
    { destruct password as [[|c t]|]; [done | | done]. cbn. unfold mbind, SE_bind, text_of, lift. by destruct (map_err _ _). }
    destruct (password_text password l) as [l1 [w|e]]; cbn in Hsame; subst l1; [|done].
    destruct (passed_server p) as [server|]; [|by apply join_kept]. destruct (match v_server (l_view l) with Some _ => _ | None => _ end); [by apply join_kept|].
    exact (then_join calls server (passed_room p) l Hl Hs).
  - apply keeps_forward.
  - apply keeps_forward.
  - destruct (_ <? _); [by intros l | apply keeps_forward].
  - destruct (parse_player player); [apply keeps_forward | by intros l].
  - apply consistent_bind; [apply keeps_text|]. intros t. case_bool_decide; [by intros l | apply keeps_forward].
  - apply keeps_forward.
Qed.

Lemma control_kept l h : consistent l → consistent (control l h).1.
Proof.
  intros Hl. destruct h as [action calls|message reconnects|reason| |]; cbn [control].
  - pose proof (act_kept action calls l Hl) as H. destruct (act action calls l) as [l1 [[]|e]]; cbn; [done | by destruct H].
  - destruct (l_session l) as [options|] eqn:Es; [|done]. destruct Hl as [H1 H2 H3 H4 H5]. cbn. destruct reconnects as [w|e]; cbn.
    + split; cbn; [by right | split; [done | by intros []] | split; [by intros [] | done] | done | done].
    + split; cbn; [by left | split; [done | by intros []] | split; [by intros [] | done] | by intros [[]|[]] | done].
  - destruct (l_connected l) as [options|] eqn:Ec; [|done]. destruct Hl as [H1 H2 H3 H4 H5].
    assert (l_session l = None) as Hs by (by destruct H1; [congruence|]). split; cbn; [by left | done | done | rewrite Hs; by intros [[]|[]] | done].
  - done.
  - destruct (l_connected l) as [options|] eqn:Ec; [|done]. destruct Hl as [H1 H2 H3 H4 H5].
    assert (l_session l = None) as Hs by (by destruct H1; [congruence|]). split; cbn; [by left | done | done | rewrite Hs; by intros [[]|[]] | done].
Qed.

(** C34: The launcher is in one place at a time, and its page knows.  Whatever the page
    asks, in whatever order, and however connecting, joining, opening the link and
    sessions end: there is a connection or a room session, never both; the page shows a
    room and its invite exactly while there is a session; it shows that there is a
    connection whenever there is one; and between two actions it shows no attempt to
    connect. *)
Theorem launcher_consistent server name hs :
  let l := run_control (launch server name) hs in
  (l_connected l = None ∨ l_session l = None) ∧
  (v_in_room (l_view l) = true ↔ is_Some (l_session l)) ∧ (is_Some (v_invite (l_view l)) ↔ v_in_room (l_view l) = true) ∧
  (is_Some (l_connected l) ∨ is_Some (l_session l) → v_connected (l_view l) = true) ∧ v_connecting (l_view l) = false.
Proof.
  cbv zeta. assert (consistent (run_control (launch server name) hs)) as []; [|done].
  unfold run_control. assert (consistent (launch server name)) as Hl.
  { split; cbn; [by left | split; [done | by intros []] | split; [by intros [] | done] | by intros [[]|[]] | done]. }
  revert Hl. generalize (launch server name). induction hs as [|h hs IH]; intros l Hl; [done|]. cbn. by apply IH, control_kept.
Qed.
End launcher.

(** * Invites survive being copied *)
Lemma split_word word rest : Forall (λ c, is_whitespace c = false) word → ∀ front, front ++ word ≠ [] →
  split_from front (word ++ 32 :: rest) = (front ++ word) :: split_whitespace rest.
Proof.
  induction 1 as [|c word Hc _ IH]; intros front Hne; cbn [app split_from].
  - rewrite app_nil_r in *. by rewrite bool_decide_false.
  - rewrite Hc, IH by (intros [E _]%app_nil; by destruct front). by rewrite <- app_assoc.
Qed.

Lemma split_last word : Forall (λ c, is_whitespace c = false) word → ∀ front, front ++ word ≠ [] → split_from front word = [front ++ word].
Proof.
  induction 1 as [|c word Hc _ IH]; intros front Hne; cbn [split_from].
  - rewrite app_nil_r in *. by rewrite bool_decide_false.
  - rewrite Hc, IH by (intros [E _]%app_nil; by destruct front). by rewrite <- app_assoc.
Qed.

Lemma trim_matches_none f word : Forall (λ c, f c = false) word → trim_matches f word = word.
Proof.
  assert (∀ l, Forall (λ c, f c = false) l → drop_matching f l = l) as H by (intros l Hl; destruct Hl as [|c l Hc]; cbn; [done | by rewrite Hc]).
  intros Hw. unfold trim_matches. rewrite (H word Hw), (H (rev word)) by (by apply Forall_rev). apply rev_involutive.
Qed.

(** What "Copy invite" gives is read as it was meant: the server, and the room on it.
    The server's address is a word without marks that is not itself an invite; base64 has
    none of the marks in its alphabet. *)
Theorem copied_found (B : Base64) server i :
  base64_laws B → (∀ bytes, Forall is_byte bytes → Forall (λ c, is_mark c = false) (encode64 B bytes)) →
  invite_ok i → names_a_server server = true →
  Forall (λ c, is_whitespace c = false ∧ is_mark c = false) server → (∀ j, invite_from_str B server ≠ Ok j) →
  passed_invite B (copied B (Some server) i) = Some (MkPassed (Some server) i).
Proof.
  intros L Hmarks Hi Hn Hs Hno. apply Forall_and in Hs as [Hs1 Hs2].
  assert (Hne : server ≠ []) by (by intros ->). pose proof (invite_solid B L i) as Hsolid.
  assert (Hin : invite_text B i ≠ []) by done.
  unfold passed_invite, copied, split_whitespace. change ([32] ++ invite_text B i) with (32 :: invite_text B i).
  rewrite split_word by done. unfold split_whitespace. rewrite split_last by done. cbn [app fmap list_fmap].
  rewrite trim_matches_none by done. rewrite trim_matches_none.
  2:{ apply Forall_app. split; [by repeat constructor|]. apply Hmarks, Forall_app. split; apply fixed_bytes_bytes. }
  cbn [find_invite]. destruct (invite_from_str B server) as [j|] eqn:Ej; [by destruct (Hno j)|].
  pose proof (invite_pasted B L i [] [] Hi (Forall_nil_2 _) (Forall_nil_2 _)) as E. rewrite app_nil_r in E. cbn [app] in E. rewrite E.
  cbn [mbind option_bind List.find]. by rewrite Hn.
Qed.

(** * Players survive being named *)
Lemma hex_pair b : 0 ≤ b < 256 → Pattern.u8_from_hex [hex_low (b / 16); hex_low (b mod 16)] = Some b.
Proof.
  intros Hb. assert (forallb (λ b, bool_decide (Pattern.u8_from_hex [hex_low (b / 16); hex_low (b mod 16)] = Some b)) (seqZ 0 256) = true)
    as H by (vm_compute; reflexivity).
  rewrite forallb_forall in H. apply (bool_decide_eq_true (Pattern.u8_from_hex _ = _)), H, list_elem_of_In, elem_of_seqZ. lia.
Qed.

Lemma pairs_read bytes : Forall is_byte bytes → read_pairs (write_hex bytes) = Some bytes.
Proof.
  unfold write_hex. induction 1 as [|b bytes Hb _ IH]; [done|]. cbn [mbind list_bind app read_pairs]. rewrite hex_pair by done. cbn.
  rewrite IH. done.
Qed.

Lemma hex_all (P : Z → Prop) bytes : (∀ d, d ∈ seqZ 0 16 → P (hex_low d)) → Forall is_byte bytes → Forall P (write_hex bytes).
Proof.
  intros H. assert (Hd : ∀ d, 0 ≤ d < 16 → P (hex_low d)) by (intros d Hd; apply H, elem_of_seqZ; lia).
  unfold write_hex. induction 1 as [|b bytes Hb _ IH]; [constructor|]. unfold is_byte in Hb. cbn.
  constructor; [apply Hd; split; [apply Z.div_pos; lia | apply Z.div_lt_upper_bound; lia]|].
  constructor; [apply Hd, Z.mod_pos_bound; lia | exact IH].
Qed.

Lemma hex_chars bytes : Forall is_byte bytes → Forall (λ c, is_whitespace c = false ∧ (c <? 128) = true ∧ c ≠ 112) (write_hex bytes).
Proof. apply hex_all. apply Forall_forall. vm_compute. by repeat constructor. Qed.

Lemma hex_unmarked bytes : Forall is_byte bytes → Forall (λ c, is_mark c = false) (write_hex bytes).
Proof. apply hex_all. apply Forall_forall. vm_compute. by repeat constructor. Qed.

Lemma ascii_len text : Forall (λ c, (c <? 128) = true) text → str_len text = length text.
Proof. induction 1 as [|c text Hc _ IH]; [done|]. change (str_len (c :: text)) with (utf8_len c + str_len text)%nat. unfold utf8_len. by rewrite Hc, IH. Qed.

(** The page kicks whom it shows. *)
Lemma player_named player : 0 ≤ player < 256 ^ 32 → parse_player (player_hex player) = Some player.
Proof.
  intros Hp. unfold parse_player, player_hex. pose proof (fixed_bytes_bytes 32 player) as Hb. pose proof (hex_chars _ Hb) as Hc.
  apply Forall_and in Hc as [Hw Hc]. apply Forall_and in Hc as [Ha Hn].
  pose proof (trim_pasted [] (write_hex (fixed_bytes 32 player)) [] (Forall_nil_2 _) (Forall_nil_2 _) Hw) as Et.
  rewrite app_nil_r in Et. cbn [app] in Et. rewrite Et.
  assert (length (write_hex (fixed_bytes 32 player)) = 64%nat) as Hl by (by rewrite write_hex_length, fixed_length).
  assert (trim_prefix 64 (chars "p-") (write_hex (fixed_bytes 32 player)) = write_hex (fixed_bytes 32 player)) as Epre.
  { cbn [trim_prefix]. destruct (without_prefix _ _) as [rest|] eqn:E; [|done]. apply without_prefix_Some in E. rewrite E in Hn.
    by inversion Hn as [|? ? Hx]. }
  rewrite Hl, Epre, ascii_len, Hl by done. cbn [negb orb]. rewrite (proj2 (forallb_forall _ _)).
  2:{ intros c Hin. rewrite Forall_forall in Ha. apply Ha. by apply list_elem_of_In. }
  cbn [negb]. change (64 =? 64)%nat with true. cbn [negb orb]. rewrite pairs_read by done. change (from_fixed <$> Some (fixed_bytes 32 player)) with (Some (from_fixed (fixed_bytes 32 player))). by rewrite fixed_roundtrip.
Qed.

(** * A view that is out of date

    Connecting to another server closes the connection there is; where that fails, the
    page still shows a connection. *)
Module ToyLauncher.
Definition welcome : Welcome := MkWelcome false [] [].
Definition calls (r : result Welcome Chars) : Calls :=
  MkCalls (Options := Chars) (Ok (chars "ada")) r (Err []) (Err []) (Err []) (Err []) true.
Abbreviation run := (run_control hex64 (λ _, ""%string) id (λ o _, o)).
Definition after : Launcher := run (launch None []) [
  Acts (DoConnect (chars "a.example:1") (chars "ada")) (calls (Ok welcome));
  Acts (DoConnect (chars "b.example:1") (chars "ada")) (calls (Err (chars "timed out")))].

Example out_of_date : l_connected after = None ∧ l_session after = None ∧ v_connected (l_view after) = true.
Proof. by vm_compute. Qed.
End ToyLauncher.

Lemma copied_found_witness :
  passed_invite hex64 (copied hex64 (Some (chars "play.example.net:29470")) (MkInvite 171 92)) =
    Some (MkPassed (Some (chars "play.example.net:29470")) (MkInvite 171 92)).
Proof.
  apply copied_found.
  - exact hex64_laws.
  - exact hex_unmarked.
  - by split; cbn.
  - by vm_compute.
  - by repeat constructor.
  - intros j. by vm_compute.
Defined.
