(* ===== verification/Pe.v ===== *)
(** The hook's start ([crates/tpf3mp-hook/src/lib.rs]) and what it reads of the game's
    executable ([crates/tpf3mp-hookcore/src/pe.rs], [profile.rs]): the headers of a PE
    image, the identity of a build, and which profile is for it.

    An image is its bytes, and an offset a [usize] of 64 bits, which no sum here exceeds.
    The hash is third-party code: an argument.  Files are what reading them gives. *)
From S2P Require Import Prelude Proto Chars Ident Http Pattern.
Local Open Scope Z_scope.

(** * Reading an image *)

(** [bytes.get(at..at + n)]. *)
Definition get (bytes : list Z) (at_ n : Z) : option (list Z) :=
  if (0 <=? at_) && (0 <=? n) && (at_ + n <=? Z.of_nat (length bytes))
  then Some (take (Z.to_nat n) (drop (Z.to_nat at_) bytes)) else None.

Definition read_u16 (bytes : list Z) (at_ : Z) : option Z := from_le_bytes <$> get bytes at_ 2.
Definition read_u32 (bytes : list Z) (at_ : Z) : option Z := from_le_bytes <$> get bytes at_ 4.
Definition read_u64 (bytes : list Z) (at_ : Z) : option Z := from_le_bytes <$> get bytes at_ 8.

(** The bytes before the first zero. *)
Fixpoint until_zero (bytes : list Z) : list Z :=
  match bytes with
  | [] => []
  | b :: bytes => if b =? 0 then [] else b :: until_zero bytes
  end.

(** [String::from_utf8_lossy]: a replacement character for each run of bytes that begins
    a character and does not end it.  [sequence] is the first character and its length,
    or the length of such a run. *)
Definition REPLACEMENT : Z := 0xFFFD.

Definition second_range (a : Z) : option (Z * Z) :=
  if within 194 223 a then Some (128, 191)
  else if within 224 239 a then Some (if a =? 224 then 160 else 128, if a =? 237 then 159 else 191)
  else if within 240 244 a then Some (if a =? 240 then 144 else 128, if a =? 244 then 143 else 191)
  else None.

Definition sequence (a : Z) (rest : list Z) : Z * nat :=
  if a <? 128 then (a, 1%nat)
  else
    match second_range a, rest with
    | Some (low, high), b :: rest =>
        if negb (within low high b) then (REPLACEMENT, 1%nat)
        else if a <? 224 then ((a - 192) * 64 + (b - 128), 2%nat)
        else
          match rest with
          | c :: rest =>
              if negb (within 128 191 c) then (REPLACEMENT, 2%nat)
              else if a <? 240 then (((a - 224) * 64 + (b - 128)) * 64 + (c - 128), 3%nat)
              else
                match rest with
                | e :: _ =>
                    if negb (within 128 191 e) then (REPLACEMENT, 3%nat)
                    else ((((a - 240) * 64 + (b - 128)) * 64 + (c - 128)) * 64 + (e - 128), 4%nat)
                | [] => (REPLACEMENT, 3%nat)
                end
          | [] => (REPLACEMENT, 2%nat)
          end
    | _, _ => (REPLACEMENT, 1%nat)
    end.

(** [skip]: the bytes that belong to the character before. *)
Fixpoint lossy_from (skip : nat) (bytes : list Z) : Chars :=
  match bytes, skip with
  | [], _ => []
  | _ :: rest, S skip => lossy_from skip rest
  | a :: rest, O => let '(c, n) := sequence a rest in c :: lossy_from (n - 1) rest
  end.
Definition from_utf8_lossy (bytes : list Z) : Chars := lossy_from 0 bytes.

(** * Headers *)

Inductive PeError := TooSmall | BadDosMagic | BadPeMagic | NotPe32Plus | PeTruncated.

Record Section_ := MkSection {
  sec_name : Chars;
  virtual_address : Z;
  virtual_size : Z;
  pointer_to_raw_data : Z;
  size_of_raw_data : Z;
}.

(** [Section::raw]. *)
Definition raw (s : Section_) (image : list Z) : option (list Z) :=
  get image (pointer_to_raw_data s) (size_of_raw_data s).

Record PeHeaders := MkPeHeaders {
  machine : Z;
  timestamp : Z;
  pe_image_base : Z;
  size_of_image : Z;
  sections : list Section_;
}.

Fixpoint read_sections (image : list Z) (entry : Z) (count : nat) : result (list Section_) PeError :=
  match count with
  | O => Ok []
  | S count =>
      let? name_bytes := ok_or (get image entry 8) PeTruncated in
      let name := from_utf8_lossy (until_zero name_bytes) in
      let? virtual_size := ok_or (read_u32 image (entry + 8)) PeTruncated in
      let? virtual_address := ok_or (read_u32 image (entry + 12)) PeTruncated in
      let? size_of_raw_data := ok_or (read_u32 image (entry + 16)) PeTruncated in
      let? pointer_to_raw_data := ok_or (read_u32 image (entry + 20)) PeTruncated in
      let? rest := read_sections image (entry + 40) count in
      Ok (MkSection name virtual_address virtual_size pointer_to_raw_data size_of_raw_data :: rest)
  end.

Definition parse_pe (image : list Z) : result PeHeaders PeError :=
  if Z.of_nat (length image) <? 0x40 then Err TooSmall
  else if negb (bool_decide (get image 0 2 = Some (chars "MZ"))) then Err BadDosMagic
  else
    let? pe_off := ok_or (read_u32 image 0x3C) PeTruncated in
    if negb (bool_decide (get image pe_off 4 = Some (chars "PE" ++ [0; 0]))) then Err BadPeMagic
    else
      let coff := pe_off + 4 in
      let? machine := ok_or (read_u16 image coff) PeTruncated in
      let? section_count := ok_or (read_u16 image (coff + 2)) PeTruncated in
      let? timestamp := ok_or (read_u32 image (coff + 4)) PeTruncated in
      let? optional_size := ok_or (read_u16 image (coff + 16)) PeTruncated in
      let optional := coff + 20 in
      let? magic := ok_or (read_u16 image optional) PeTruncated in
      if negb (magic =? 0x20B) then Err NotPe32Plus
      else
        let? image_base := ok_or (read_u64 image (optional + 24)) PeTruncated in
        let? size_of_image := ok_or (read_u32 image (optional + 56)) PeTruncated in
        let table := optional + optional_size in
        let? sections := read_sections image table (Z.to_nat section_count) in
        Ok (MkPeHeaders machine timestamp image_base size_of_image sections).

(** [PeHeaders::section]. *)
Definition section (pe : PeHeaders) (name : Chars) : option Section_ :=
  head (filter (λ s, sec_name s = name) (sections pe)).

(** * The identity of a build *)

Section identity.
(** [Sha256]: a hasher, and the digest of what it was given. *)
Context {Hasher : Type} (hasher_new : Hasher) (update : Hasher → list Z → Hasher) (finalize : Hasher → list Z).
Context (digest : list Z → list Z).

Definition of_bytes (bytes : list Z) : BuildIdentity :=
  MkBuildIdentity (write_hex (digest bytes)) (Some (Z.of_nat (length bytes)))
    match parse_pe bytes with Ok pe => Some (timestamp pe) | Err _ => None end.

(** The first bytes of a file are kept while it is read. *)
Definition HEAD_KEPT : nat := 4096.

(** One chunk that was read. *)
Definition take_chunk (s : Hasher * Z * list Z) (chunk : list Z) : Hasher * Z * list Z :=
  let '(h, size, head) := s in
  (update h chunk, size + Z.of_nat (length chunk),
   if (length head <? HEAD_KEPT)%nat then head ++ take (Nat.min (length chunk) (HEAD_KEPT - length head)) chunk else head).

(** [reads]: what each read gives, an empty one at the end of the file. *)
Fixpoint read_loop (s : Hasher * Z * list Z) (reads : list (result (list Z) unit)) : result (Hasher * Z * list Z) unit :=
  match reads with
  | [] => Ok s
  | Err e :: _ => Err e
  | Ok [] :: _ => Ok s
  | Ok chunk :: reads => read_loop (take_chunk s chunk) reads
  end.

Definition of_file (opened : bool) (reads : list (result (list Z) unit)) : result BuildIdentity unit :=
  if negb opened then Err tt
  else
    let? (h, size, head) := read_loop (hasher_new, 0, []) reads in
    Ok (MkBuildIdentity (write_hex (finalize h)) (Some size)
          match parse_pe head with Ok pe => Some (timestamp pe) | Err _ => None end).
End identity.

(** * Which profile is for this build *)

(** A file as text: not readable, not TOML of a profile, or what that says. *)
Inductive FileText := Unreadable | NotToml | Toml (profile : RawProfile).

Inductive LoadError := LoadRead | LoadParse (error : ProfileError).
Record LoadedProfile := MkLoadedProfile { lp_path : Chars * option Chars; lp_profile : result Profile LoadError }.

(** What is in the directory of profiles, in the order it is listed: a name, and the
    text of the file.  A listing that fails is no listing;
    an entry that fails is left out. *)
Definition load_profiles (listing : option (list (option (Chars * option Chars * FileText)))) : list LoadedProfile :=
  match listing with
  | None => []
  | Some entries =>
      omap (λ entry : Chars * option Chars * FileText,
        let '(path, text) := entry in
        if negb (bool_decide (path.2 = Some (chars "toml"))) then None
        else Some (MkLoadedProfile path
          match text with
          | Unreadable => Err LoadRead
          | NotToml => Err (LoadParse BadToml)
          | Toml text => match from_raw text with Ok p => Ok p | Err e => Err (LoadParse e) end
          end)) (omap id entries)
  end.

Definition select_profile (profiles : list LoadedProfile) (identity : BuildIdentity) : option Profile :=
  head (filter (λ p, is_ok (verify_identity p identity) = true)
    (omap (λ loaded, match lp_profile loaded with Ok p => Some p | Err _ => None end) profiles)).

Inductive FailedClosed := NoExecutable | CannotHash | NoProfile.
Inductive BuildOutcome := Matched (name : Chars) (targets : nat) | FailedClosed_ (reason : FailedClosed).

(** [resolve_build]: [exe] whether the executable is found, [identity] what hashing it
    gives, [data_dir] whether there is a directory for the hook's data. *)
Definition resolve_build (exe : bool) (identity : result BuildIdentity unit) (data_dir : bool)
    (listing : option (list (option (Chars * option Chars * FileText)))) : BuildOutcome :=
  if negb exe then FailedClosed_ NoExecutable
  else
    match identity with
    | Err _ => FailedClosed_ CannotHash
    | Ok identity =>
        let profiles := if data_dir then load_profiles listing else [] in
        match select_profile profiles identity with
        | Some p => Matched (p_name p) (length (targets p))
        | None => FailedClosed_ NoProfile
        end
    end.

(** * What holds of them *)

(** ** Reading only the head of an image *)

Lemma get_Some bytes at_ n x : get bytes at_ n = Some x ↔
  0 ≤ at_ ∧ 0 ≤ n ∧ at_ + n ≤ Z.of_nat (length bytes) ∧ x = take (Z.to_nat n) (drop (Z.to_nat at_) bytes).
Proof.
  unfold get. destruct ((0 <=? at_) && (0 <=? n) && (at_ + n <=? Z.of_nat (length bytes))) eqn:E; [naive_solver lia |].
  split; [done |]. lia.
Qed.

Lemma get_head k bytes at_ n : at_ + n ≤ Z.of_nat k → get (take k bytes) at_ n = get bytes at_ n.
Proof.
  intros Hk. apply option_eq. intros x. rewrite !get_Some, length_take.
  assert (0 ≤ at_ → 0 ≤ n → take (Z.to_nat n) (drop (Z.to_nat at_) (take k bytes)) = take (Z.to_nat n) (drop (Z.to_nat at_) bytes)) as E.
  { intros Ha Hn. rewrite skipn_firstn_comm, take_take. f_equal. lia. }
  split; intros (Ha & Hn & Hl & ->); rewrite ?E by done; repeat split; try done; lia.
Qed.

Lemma get_more k bytes at_ n x : get (take k bytes) at_ n = Some x → get bytes at_ n = Some x.
Proof. intros H. pose proof H as (_ & _ & Hl & _)%get_Some. rewrite length_take in Hl. rewrite <- H. symmetry. apply get_head. lia. Qed.

(** Two runs of a reader, of which the second can read all that the first read. *)
Lemma bind_more {A B E} (o o' : option A) (e : E) (f f' : A → result B E) b :
  (∀ x, o = Some x → o' = Some x) → (∀ x, o = Some x → f x = Ok b → f' x = Ok b) →
  result_bind (ok_or o e) f = Ok b → result_bind (ok_or o' e) f' = Ok b.
Proof. intros Ho Hf. destruct o as [x |]; cbn; [| done]. rewrite (Ho x eq_refl). cbn. by apply Hf. Qed.

Section more.
Context (l l' : list Z) (end_ : Z).
Hypothesis (Hmore : ∀ at_ n x, at_ + n ≤ end_ → get l at_ n = Some x → get l' at_ n = Some x).

Lemma read_more at_ n x : at_ + n ≤ end_ → from_le_bytes <$> get l at_ n = Some x → from_le_bytes <$> get l' at_ n = Some x.
Proof. intros He (y & Hy & ->)%fmap_Some. by rewrite (Hmore _ _ _ He Hy). Qed.

Lemma read_sections_more count entry secs : (0 < Z.of_nat count → entry + 40 * Z.of_nat count - 16 ≤ end_) →
  read_sections l entry count = Ok secs → read_sections l' entry count = Ok secs.
Proof.
  revert entry secs. induction count as [| count IH]; intros entry secs He; cbn [read_sections]; [done |].
  apply bind_more; [intros x; apply Hmore; lia | intros name _].
  do 4 (apply bind_more; [intros ?; apply read_more; lia | intros ? _]).
  destruct (read_sections l _ _) as [rest |] eqn:Er; cbn [result_bind]; [| done].
  by rewrite (IH (entry + 40) rest); [| lia | done].
Qed.
End more.

(** Where the headers end that [parse_pe] reads; of the last section's entry, of 40
    bytes, it reads the first 24. *)
Definition headers_end (image : list Z) : Z :=
  match read_u32 image 0x3C with
  | None => 0x40
  | Some pe_off =>
      match read_u16 image (pe_off + 6), read_u16 image (pe_off + 20) with
      | Some count, Some optional_size => Z.max 0x40 (Z.max (pe_off + 84) (if 0 <? count then pe_off + 24 + optional_size + 40 * count - 16 else 0))
      | _, _ => Z.max 0x40 (pe_off + 84)
      end
  end.

Lemma parse_pe_more l l' h :
  (∀ at_ n x, at_ + n ≤ headers_end l → get l at_ n = Some x → get l' at_ n = Some x) →
  0x40 ≤ Z.of_nat (length l') → parse_pe l = Ok h → parse_pe l' = Ok h.
Proof.
  intros Hmore Hlen. unfold parse_pe. destruct (Z.of_nat (length l) <? 0x40) eqn:E0; [done |].
  replace (Z.of_nat (length l') <? 0x40) with false by lia.
  assert (0x40 ≤ headers_end l) as H40 by (unfold headers_end; repeat case_match; lia).
  destruct (bool_decide (get l 0 2 = _)) eqn:E1; cbn [negb]; [| done]. apply bool_decide_eq_true in E1.
  rewrite (bool_decide_true (get l' 0 2 = _)) by (apply Hmore; [lia | done]). cbn [negb].
  apply bind_more; [intros x; apply read_more with (headers_end l); [done | lia] | intros pe_off Eoff].
  destruct (bool_decide (get l pe_off 4 = _)) eqn:E2; cbn [negb]; [| done]. apply bool_decide_eq_true in E2.
  assert (pe_off + 84 ≤ headers_end l) as H84 by (unfold headers_end; rewrite Eoff; repeat case_match; lia).
  rewrite (bool_decide_true (get l' pe_off 4 = _)) by (apply Hmore; [lia | done]). cbn [negb].
  apply bind_more; [intros x; apply read_more with (headers_end l); [done | lia] | intros machine _].
  apply bind_more; [intros x; apply read_more with (headers_end l); [done | lia] | intros count Ecount].
  apply bind_more; [intros x; apply read_more with (headers_end l); [done | lia] | intros ts _].
  apply bind_more; [intros x; apply read_more with (headers_end l); [done | lia] | intros size Esize].
  apply bind_more; [intros x; apply read_more with (headers_end l); [done | lia] | intros magic _].
  destruct (negb (magic =? 0x20B)); [done |].
  apply bind_more; [intros x; apply read_more with (headers_end l); [done | lia] | intros base _].
  apply bind_more; [intros x; apply read_more with (headers_end l); [done | lia] | intros image_size _].
  destruct (read_sections l _ _) as [secs |] eqn:Es; cbn [result_bind]; [| done].
  rewrite (read_sections_more l l' (headers_end l) Hmore (Z.to_nat count) (pe_off + 4 + 20 + size) secs); [done | | done].
  unfold headers_end. rewrite Eoff. replace (pe_off + 6) with (pe_off + 4 + 2) by lia.
  replace (pe_off + 20) with (pe_off + 4 + 16) by lia. rewrite Ecount, Esize. intros Hpos.
  destruct (Z.ltb_spec 0 count); lia.
Qed.

(** The headers a head of an image has are the image's, and a head that holds the
    headers has them. *)
Lemma parse_pe_head k image h : parse_pe (take k image) = Ok h → parse_pe image = Ok h.
Proof.
  intros Hp. apply parse_pe_more with (take k image); [intros at_ n x _; apply get_more | | done].
  unfold parse_pe in Hp. rewrite length_take in Hp. destruct (Z.of_nat (k `min` length image) <? 0x40) eqn:E; [done |]. apply Z.ltb_ge in E. pose proof (Nat.le_min_r k (length image)). lia.
Qed.

Lemma parse_pe_fits k image h : parse_pe image = Ok h → headers_end image ≤ Z.of_nat k → parse_pe (take k image) = Ok h.
Proof.
  intros Hp Hk. apply parse_pe_more with image; [intros at_ n x Hn Hx; by rewrite get_head by lia | | done].
  assert (0x40 ≤ headers_end image) by (unfold headers_end; repeat case_match; lia).
  unfold parse_pe in Hp. destruct (Z.of_nat (length image) <? 0x40) eqn:E; [done |]. rewrite length_take. lia.
Qed.

(** What was read lies within the image. *)
Lemma field_Ok {B Er} (bytes : list Z) at_ n (e : Er) (f : Z → result B Er) b :
  result_bind (ok_or (from_le_bytes <$> get bytes at_ n) e) f = Ok b →
  ∃ x, from_le_bytes <$> get bytes at_ n = Some x ∧ at_ + n ≤ Z.of_nat (length bytes) ∧ f x = Ok b.
Proof.
  destruct (get bytes at_ n) as [y |] eqn:E; cbn; [| done]. intros H. apply get_Some in E as (_ & _ & Hl & _). by exists (from_le_bytes y).
Qed.

Lemma read_sections_end image count entry secs : read_sections image entry count = Ok secs →
  0 < Z.of_nat count → entry + 40 * Z.of_nat count - 16 ≤ Z.of_nat (length image).
Proof.
  revert entry secs. induction count as [| count IH]; intros entry secs; [lia |]. cbn [read_sections].
  destruct (get image entry 8) as [name |]; cbn [ok_or result_bind]; [| done].
  intros (? & _ & _ & H)%field_Ok _. apply field_Ok in H as (? & _ & _ & H). apply field_Ok in H as (? & _ & _ & H).
  apply field_Ok in H as (? & _ & Hl & H). apply result_bind_Ok in H as (rest & Hr & _). specialize (IH _ _ Hr). lia.
Qed.

Lemma parse_pe_reads image h : parse_pe image = Ok h →
  headers_end image ≤ Z.of_nat (length image) ∧
  ∃ pe_off count size, read_u32 image 0x3C = Some pe_off ∧ read_u32 image (pe_off + 8) = Some (timestamp h) ∧
    read_u16 image (pe_off + 6) = Some count ∧ read_u16 image (pe_off + 20) = Some size.
Proof.
  unfold parse_pe. destruct (Z.of_nat (length image) <? 0x40) eqn:E0; [done |]. apply Z.ltb_ge in E0.
  destruct (negb (bool_decide (get image 0 2 = _))); [done |].
  intros (pe_off & Eoff & _ & H)%field_Ok. destruct (negb (bool_decide (get image pe_off 4 = _))); [done |].
  apply field_Ok in H as (machine & _ & _ & H). apply field_Ok in H as (count & Ecount & _ & H).
  apply field_Ok in H as (stamp & Estamp & _ & H). apply field_Ok in H as (size & Esize & _ & H).
  apply field_Ok in H as (magic & _ & _ & H). destruct (negb (magic =? 0x20B)); [done |].
  apply field_Ok in H as (base & _ & _ & H). apply field_Ok in H as (image_size & _ & Hend & H).
  apply result_bind_Ok in H as (secs & Hsecs & H). injection H as <-.
  pose proof (read_sections_end _ _ _ _ Hsecs) as Hs. cbn [timestamp].
  replace (pe_off + 4 + 2) with (pe_off + 6) in Ecount by lia. replace (pe_off + 4 + 16) with (pe_off + 20) in Esize by lia.
  replace (pe_off + 4 + 4) with (pe_off + 8) in Estamp by lia. split.
  - unfold headers_end, read_u32, read_u16. rewrite Eoff, Ecount, Esize. destruct (Z.ltb_spec 0 count); lia.
  - by exists pe_off, count, size.
Qed.

(** A head has headers exactly if it holds all that is read of them. *)
Lemma parse_pe_take k image h : parse_pe (take k image) = Ok h ↔ parse_pe image = Ok h ∧ headers_end image ≤ Z.of_nat k.
Proof.
  split; [| intros [? ?]; by apply parse_pe_fits]. intros H. split; [by eapply parse_pe_head |].
  apply parse_pe_reads in H as [He (pe_off & count & size & H1 & _ & H2 & H3)]. rewrite length_take in He.
  assert (Hm : ∀ at_ n x, from_le_bytes <$> get (take k image) at_ n = Some x → from_le_bytes <$> get image at_ n = Some x).
  { intros at_ n x (y & Hy%get_more & ->)%fmap_Some. by rewrite Hy. }
  replace (headers_end image) with (headers_end (take k image)); [lia |].
  unfold headers_end. rewrite H1, H2, H3. unfold read_u32, read_u16 in *. by rewrite (Hm _ _ _ H1), (Hm _ _ _ H2), (Hm _ _ _ H3).
Qed.

(** ** A file is identified by all its bytes *)

(** What a file that can be read holds. *)
Fixpoint contents (reads : list (result (list Z) unit)) : option (list Z) :=
  match reads with
  | [] | Ok [] :: _ => Some []
  | Err _ :: _ => None
  | Ok chunk :: reads => app chunk <$> contents reads
  end.

(** What [sha2] documents: a hasher digests what it was given, however it was split. *)
Class HasherLaws {Hasher} (hasher_new : Hasher) update finalize (digest : list Z → list Z) : Prop := {
  digests_all : ∀ chunks, finalize (foldl update hasher_new chunks) = digest (concat chunks);
  digest_bytes : ∀ bytes, Forall is_byte (digest bytes);
}.

Section files.
Context {Hasher : Type} (hasher_new : Hasher) (update : Hasher → list Z → Hasher) (finalize : Hasher → list Z).
Context (digest : list Z → list Z) {HL : HasherLaws hasher_new update finalize digest}.

Lemma read_loop_all reads chunks :
  match read_loop update (foldl update hasher_new chunks, Z.of_nat (length (concat chunks)), take HEAD_KEPT (concat chunks)) reads, contents reads with
  | Ok (h, size, head), Some rest =>
      finalize h = digest (concat chunks ++ rest) ∧ size = Z.of_nat (length (concat chunks ++ rest)) ∧
      head = take HEAD_KEPT (concat chunks ++ rest)
  | Err _, None => True
  | _, _ => False
  end.
Proof.
  revert chunks. induction reads as [| [[| b chunk] |] reads IH]; intros chunks; cbn [read_loop contents]; [| | | done].
  1, 2: rewrite app_nil_r; split; [apply digests_all | done].
  specialize (IH (chunks ++ [b :: chunk])). rewrite foldl_app, concat_app in IH. cbn [foldl concat] in IH. rewrite app_nil_r in IH.
  set (c := b :: chunk) in *. set (old := concat chunks) in *. unfold take_chunk.
  replace (Z.of_nat (length old) + Z.of_nat (length c)) with (Z.of_nat (length (old ++ c))) by (rewrite length_app; lia).
  replace (if (length (take HEAD_KEPT old) <? HEAD_KEPT)%nat then _ else _) with (take HEAD_KEPT (old ++ c)).
  2:{ rewrite length_take, take_app. destruct (HEAD_KEPT `min` length old <? HEAD_KEPT)%nat eqn:E.
      - apply Nat.ltb_lt in E. f_equal. replace (HEAD_KEPT - HEAD_KEPT `min` length old)%nat with (HEAD_KEPT - length old)%nat by lia.
        destruct (le_lt_dec (length c) (HEAD_KEPT - length old)).
        + rewrite Nat.min_l by done. by rewrite !take_ge by lia.
        + by rewrite Nat.min_r by lia.
      - apply Nat.ltb_ge in E. replace (HEAD_KEPT - length old)%nat with 0%nat by lia. by rewrite take_0, app_nil_r. }
  destruct (read_loop _ _ reads) as [[[h size] head] |], (contents reads) as [rest |]; try done. by rewrite <- app_assoc in IH.
Qed.

Lemma of_file_whole opened reads i : of_file hasher_new update finalize opened reads = Ok i →
  ∃ bytes, contents reads = Some bytes ∧ sha256 i = write_hex (digest bytes) ∧ b_size i = Some (Z.of_nat (length bytes)) ∧
    pe_timestamp i = match parse_pe (take HEAD_KEPT bytes) with Ok pe => Some (timestamp pe) | Err _ => None end.
Proof.
  unfold of_file. destruct opened; cbn [negb]; [| done]. pose proof (read_loop_all reads []) as H.
  cbn [foldl concat length Z.of_nat] in H. rewrite take_nil in H. revert H.
  destruct (read_loop _ _ reads) as [[[h size] head] |], (contents reads) as [rest |]; try done; cbn.
  intros (-> & -> & ->) [= <-]. by exists rest.
Qed.

Lemma of_file_works reads bytes : contents reads = Some bytes → ∃ i, of_file hasher_new update finalize true reads = Ok i.
Proof.
  intros Hc. unfold of_file. cbn [negb]. pose proof (read_loop_all reads []) as H.
  cbn [foldl concat length Z.of_nat] in H. rewrite take_nil, Hc in H. revert H.
  destruct (read_loop _ _ reads) as [[[h size] head] |]; [| done]. cbn. by eexists.
Qed.

(** A file is what [of_bytes] says of its bytes, except for a timestamp past the head. *)
Lemma of_file_of_bytes opened reads i : of_file hasher_new update finalize opened reads = Ok i →
  ∃ bytes, contents reads = Some bytes ∧
    let j := of_bytes digest bytes in sha256 i = sha256 j ∧ b_size i = b_size j ∧
    pe_timestamp i = (if headers_end bytes <=? Z.of_nat HEAD_KEPT then pe_timestamp j else None).
Proof.
  intros (bytes & Hc & Hs & Hb & Ht)%of_file_whole. exists bytes. split; [done |]. cbn. split; [done |]. split; [done |].
  rewrite Ht. destruct (parse_pe (take HEAD_KEPT bytes)) as [pe |] eqn:Ep.
  - apply parse_pe_take in Ep as [-> He]. by rewrite (proj2 (Z.leb_le _ _) He).
  - destruct (Z.leb_spec (headers_end bytes) (Z.of_nat HEAD_KEPT)) as [He |]; [| done].
    destruct (parse_pe bytes) as [pe |] eqn:Ep'; [| done]. rewrite (proj2 (parse_pe_take _ _ _) (conj Ep' He)) in Ep. done.
Qed.

(** ** The profile that is chosen *)

Lemma lower_hex bytes : Forall is_byte bytes → to_ascii_lowercase (write_hex bytes) = write_hex bytes.
Proof.
  assert (∀ v, 0 ≤ v < 16 → (if (65 <=? hex_low v) && (hex_low v <=? 90) then hex_low v + 32 else hex_low v) = hex_low v) as Hv.
  { intros v Hv. unfold hex_low. destruct (v <? 10) eqn:E; case_match; lia. }
  unfold write_hex, to_ascii_lowercase. induction 1 as [| b bytes Hb _ IH]; [done |]. unfold is_byte in Hb.
  rewrite bind_cons, fmap_app, IH. cbn [fmap list_fmap app].
  rewrite (Hv (b / 16)) by (split; [apply Z.div_pos; lia | apply Z.div_lt_upper_bound; lia]).
  by rewrite (Hv (b mod 16)) by (apply Z.mod_pos_bound; lia).
Qed.

Lemma differs_None e a : differs e a = None ↔ ∀ x y, e = Some x → a = Some y → x = y.
Proof.
  unfold differs. destruct e as [x |], a as [y |]; try (split; [by intros ? | done]); [| naive_solver..].
  destruct (x =? y) eqn:E; naive_solver lia.
Qed.

Lemma verify_identity_Ok p i : is_ok (verify_identity p i) = true ↔
  sha256 (build p) = to_ascii_lowercase (sha256 i) ∧
  (∀ x y, b_size (build p) = Some x → b_size i = Some y → x = y) ∧
  (∀ x y, pe_timestamp (build p) = Some x → pe_timestamp i = Some y → x = y).
Proof.
  rewrite <- !differs_None. unfold verify_identity. destruct (bool_decide _) eqn:E; cbn [negb].
  - apply bool_decide_eq_true in E. destruct (differs (b_size _) _), (differs (pe_timestamp _) _); naive_solver.
  - apply bool_decide_eq_false in E. split; [done | by intros [? _]].
Qed.

(** What a profile names of the build that has these bytes: their digest, and, where it
    names them, their number, and the time stamp that a linked image has eight bytes
    after the offset at [0x3C], if the headers lie within the first 4096 bytes. *)
Definition names_build (p : Profile) (bytes : list Z) : Prop :=
  sha256 (build p) = write_hex (digest bytes) ∧
  (∀ size, b_size (build p) = Some size → size = Z.of_nat (length bytes)) ∧
  (∀ t, pe_timestamp (build p) = Some t → is_ok (parse_pe bytes) = true → headers_end bytes ≤ 4096 →
    ∃ pe_off, read_u32 bytes 0x3C = Some pe_off ∧ read_u32 bytes (pe_off + 8) = Some t).

Lemma verify_names opened reads i bytes p : of_file hasher_new update finalize opened reads = Ok i → contents reads = Some bytes →
  is_ok (verify_identity p i) = true ↔ names_build p bytes.
Proof.
  intros (bytes' & Hc & Es & Eb & Et)%of_file_of_bytes Hc'. rewrite Hc in Hc'. injection Hc' as ->. rewrite verify_identity_Ok. unfold names_build.
  rewrite Es, Eb, Et. cbn. rewrite lower_hex by apply (digest_bytes (HasherLaws := HL)).
  change (Z.of_nat HEAD_KEPT) with 4096. destruct (parse_pe bytes) as [h |] eqn:Ep.
  - destruct (parse_pe_reads _ _ Ep) as [_ (pe_off & _ & _ & E1 & E2 & _)].
    destruct (Z.leb_spec (headers_end bytes) 4096); cbn; naive_solver lia.
  - destruct (headers_end bytes <=? 4096); naive_solver.
Qed.
End files.

(** The profiles of a directory, in the order of its files. *)
Definition readable (listing : option (list (option (Chars * option Chars * FileText)))) : list Profile :=
  default [] listing ≫= λ entry,
    match entry with
    | Some (_, Some extension, Toml text) =>
        if decide (extension = chars "toml") then match from_raw text with Ok p => [p] | Err _ => [] end else []
    | _ => []
    end.

Lemma readable_load listing :
  omap (λ loaded, match lp_profile loaded with Ok p => Some p | Err _ => None end) (load_profiles listing) = readable listing.
Proof.
  unfold readable, load_profiles. destruct listing as [entries |]; [| done]. simpl.
  induction entries as [| [[[name [extension |]] text] |] entries IH]; simpl; [done | | exact IH..].
  destruct (decide (extension = chars "toml")) as [-> | Hne].
  - rewrite bool_decide_true by done. simpl. destruct text as [| | text]; simpl; [exact IH.. |].
    destruct (from_raw text); simpl; [by f_equal | exact IH].
  - rewrite bool_decide_false by congruence. simpl. by destruct text.
Qed.

Lemma head_filter {A} (P : A → Prop) `{∀ x, Decision (P x)} l x : head (filter P l) = Some x ↔
  ∃ before after, l = before ++ x :: after ∧ P x ∧ Forall (λ y, ¬ P y) before.
Proof.
  induction l as [| y l IH]; [split; [done | by intros ([] & ? & ? & _)] |]. rewrite filter_cons. destruct (decide (P y)) as [Hy | Hy]; [| rewrite IH]; split.
  - intros [= ->]. by exists [], l.
  - intros ([| z before] & after & [= -> ->] & Hx & Hb); [done |]. by apply Forall_cons in Hb as [? _].
  - intros (before & after & -> & Hx & Hb). exists (y :: before), after. split; [done |]. split; [done |]. by constructor.
  - intros ([| z before] & after & [= -> ->] & Hx & Hb); [done |]. apply Forall_cons in Hb as [_ Hb]. by eauto.
Qed.

(** C38: the hook stays out of a game it does not know, and knows every game it has a
    profile of.  It takes a build for known exactly if the executable is found and can
    be read to its end, and a file of the directory of profiles, with the extension
    [toml], was read without error and names the build: the digest of all the
    executable's bytes and, where it names them, their number and, if the headers are at
    the beginning as a linker puts them, their timestamp.  The profile chosen is the
    first of these, and the number of functions the hook will look for is that
    profile's. *)
Theorem unknown_build_untouched {Hasher : Type} (hasher_new : Hasher) (update : Hasher → list Z → Hasher)
    (finalize : Hasher → list Z) (digest : list Z → list Z) {HL : HasherLaws hasher_new update finalize digest}
    (exe opened data_dir : bool) (reads : list (result (list Z) unit))
    (listing : option (list (option (Chars * option Chars * FileText)))) (name : Chars) (count : nat) :
  resolve_build exe (of_file hasher_new update finalize opened reads) data_dir listing = Matched name count ↔
  exe = true ∧ opened = true ∧ data_dir = true ∧
  ∃ bytes p before after, contents reads = Some bytes ∧ readable listing = before ++ p :: after ∧
    names_build digest p bytes ∧ Forall (λ q, ¬ names_build digest q bytes) before ∧
    name = p_name p ∧ count = length (targets p).
Proof.
  unfold resolve_build, select_profile. destruct exe; cbn [negb]; [| by split; [| intros (? & _)]].
  destruct (of_file _ _ _ opened reads) as [i |] eqn:Ei.
  2:{ split; [done |]. intros (_ & -> & _ & bytes & _ & _ & _ & Hc & _).
      by destruct (of_file_works hasher_new update finalize digest reads bytes Hc) as [i Ei']; rewrite Ei in Ei'. }
  assert (opened = true) as Ho by (destruct opened; [done | by unfold of_file in Ei]). subst opened.
  destruct data_dir; cbn [omap list_omap]; [rewrite readable_load | by split; [| intros (_ & _ & ? & _)]].
  destruct (of_file_whole hasher_new update finalize digest true reads i Ei) as (bytes & Hc & _).
  assert (Hv : ∀ p, is_ok (verify_identity p i) = true ↔ names_build digest p bytes) by (intros p; by eapply verify_names).
  split.
  - destruct (head _) as [p |] eqn:Eh; [| done]. intros [= <- <-]. apply head_filter in Eh as (before & after & El & Hok & Hb).
    do 3 (split; [done |]). exists bytes, p, before, after. split; [done |]. split; [done |]. split; [by apply Hv |]. split; [| done].
    eapply Forall_impl; [exact Hb |]. intros q Hq. by rewrite <- Hv.
  - intros (_ & _ & _ & bytes' & p & before & after & Hc' & El & Hok & Hb & -> & ->). simplify_eq.
    rewrite (proj2 (head_filter _ _ p)); [done |]. exists before, after. split; [done |]. split; [by apply Hv |].
    eapply Forall_impl; [exact Hb |]. intros q Hq. by rewrite Hv.
Qed.

Module PeExamples.
(** Bytes put into an image, and the least image with one section. *)
Definition put (at_ : nat) (bytes image : list Z) : list Z := take at_ image ++ bytes ++ drop (at_ + length bytes) image.
Definition le (n : nat) (z : Z) : list Z := to_le_bytes n z.

Definition headers (count : Z) : list Z :=
  put 0 (chars "MZ") (put 0x3C (le 4 0x80) (put 0x80 (chars "PE" ++ [0; 0]) (put 0x84 (le 2 0x8664) (put 0x86 (le 2 count)
    (put 0x88 (le 4 0x675ABCC6) (put 0x94 (le 2 0xF0) (put 0x98 (le 2 0x20B) (put 0xB0 (le 8 0x140000000)
      (put 0xD0 (le 4 0x46CE00) (replicate 1024 0)))))))))).

Definition tiny_pe : list Z :=
  put 0x188 (chars ".text") (put 0x190 (le 4 0x2000) (put 0x194 (le 4 0x1000) (put 0x198 (le 4 0x2000) (put 0x19C (le 4 0x400) (headers 1))))).

Definition toy_digest (bytes : list Z) : list Z := [sum_Z bytes mod 256; Z.of_nat (length bytes) mod 256].

(** The file is read in three pieces. *)
Definition reads : list (result (list Z) unit) := [Ok (take 100 tiny_pe); Ok (take 500 (drop 100 tiny_pe)); Ok (drop 600 tiny_pe); Ok []].

Definition for_build (digits : Chars) : RawProfile :=
  MkRawProfile (chars "tiny") None (Some (chars ".text")) (MkBuildIdentity digits (Some 1024) (Some 0x675ABCC6))
    [MkRawTarget (chars "alpha") (chars "40 53 41 56") 0 (chars "40 53 41 56") true].

Definition listing : list (option (Chars * option Chars * FileText)) := [
  None; Some (chars "readme", Some (chars "txt"), Unreadable); Some (chars "broken", Some (chars "toml"), NotToml);
  Some (chars "other", Some (chars "toml"), Toml (for_build (chars "ABCD")));
  Some (chars "this", Some (chars "toml"), Toml (for_build (write_hex (toy_digest tiny_pe))))].

Lemma toy_hasher : HasherLaws [] (λ h chunk, h ++ chunk) toy_digest toy_digest.
Proof.
  split.
  - intros chunks. f_equal. assert (∀ acc, foldl (λ h chunk : list Z, h ++ chunk) acc chunks = acc ++ concat chunks) as H.
    { induction chunks as [| c chunks IH]; intros acc; cbn; [by rewrite app_nil_r |]. by rewrite IH, <- app_assoc. }
    apply H.
  - intros bytes. repeat constructor; apply Z.mod_pos_bound; lia.
Qed.
End PeExamples.

Lemma unknown_build_untouched_witness :
  parse_pe PeExamples.tiny_pe = Ok (MkPeHeaders 0x8664 0x675ABCC6 0x140000000 0x46CE00
    [MkSection (chars ".text") 0x1000 0x2000 0x400 0x2000]) ∧
  resolve_build true (of_file [] (λ h chunk, h ++ chunk) PeExamples.toy_digest true PeExamples.reads) true
    (Some PeExamples.listing) = Matched (chars "tiny") 1 ∧
  ∃ bytes p before after, contents PeExamples.reads = Some bytes ∧ readable (Some PeExamples.listing) = before ++ p :: after ∧
    names_build PeExamples.toy_digest p bytes.
Proof.
  split; [vm_compute; reflexivity |].
  assert (Hm : resolve_build true (of_file [] (λ h chunk, h ++ chunk) PeExamples.toy_digest true PeExamples.reads) true
    (Some PeExamples.listing) = Matched (chars "tiny") 1) by (vm_compute; reflexivity).
  split; [exact Hm |].
  destruct (proj1 (unknown_build_untouched (HL := PeExamples.toy_hasher) [] (λ h chunk, h ++ chunk) PeExamples.toy_digest PeExamples.toy_digest
    true true true PeExamples.reads (Some PeExamples.listing) _ _) Hm) as (_ & _ & _ & bytes & p & before & after & Hc & Hl & Hn & _).
  exists bytes, p, before, after. split; [exact Hc |]. split; [exact Hl |]. exact Hn.
Defined.
