(* ===== verification/Proxy.v ===== *)
(** The generator of proxy libraries ([crates/tpf3mp-proxygen/src/lib.rs]): it reads the
    exports of a DLL and writes a crate that forwards them to the renamed original.

    Sums of 32-bit numbers wrap around, as in a release build. *)
From stdpp Require Import pretty.
From S2P Require Import Prelude Proto Chars Ident Http Pattern Pe.
Local Open Scope Z_scope.

Inductive ProxyError := ProxyPe (error : PeError) | NoExports | ProxyTruncated | TooManyExports (count : Z).

Record Export := MkExport { ex_name : option Chars; ordinal : Z; forwarder : bool }.
Record Exports := MkExports { module_name : Chars; base : Z; entries : list Export }.

Definition MAX_EXPORTS : Z := Z.shiftl 1 18.

Definition add_u32 (a b : Z) : Z := (a + b) mod 2 ^ 32.

(** [Exports::named]. *)
Definition named (e : Exports) : list (Chars * Z) :=
  omap (λ x, (λ name, (name, ordinal x)) <$> ex_name x) (entries e).

(** * Reading the exports *)

(** The export data directory, from the optional header. *)
Definition export_directory (image : list Z) : option (Z * Z) :=
  pe_off ← read_u32 image 0x3C;
  let optional := pe_off + 4 + 20 in
  magic ← read_u16 image optional;
  if negb (magic =? 0x20B) then None
  else
    directories ← read_u32 image (optional + 108);
    if directories <? 1 then None
    else
      let entry := optional + 112 in
      rva ← read_u32 image entry;
      size ← read_u32 image (entry + 4);
      Some (rva, size).

Fixpoint offset_in (secs : list Section_) (rva : Z) : option Z :=
  match secs with
  | [] => None
  | s :: secs =>
      let start := virtual_address s in
      let virtual_end := start + Z.max (virtual_size s) (size_of_raw_data s) in
      if u32_max <? virtual_end then None
      else if (start <=? rva) && (rva <? virtual_end) then
        let delta := rva - start in
        if delta <? size_of_raw_data s then Some (add_u32 (pointer_to_raw_data s) delta) else None
      else offset_in secs rva
  end.

Definition rva_to_offset (pe : PeHeaders) (rva : Z) : option Z := offset_in (sections pe) rva.

(** To the first zero, or to the end. *)
Definition read_cstr (bytes : list Z) (at_ : Z) : Chars :=
  let slice := if at_ <=? Z.of_nat (length bytes) then drop (Z.to_nat at_) bytes else [] in
  from_utf8_lossy (until_zero slice).

Definition name_at (pe : PeHeaders) (image : list Z) (rva : Z) : Chars :=
  default [] (read_cstr image <$> rva_to_offset pe rva).

(** The name of each function slot, if any. *)
Fixpoint read_names (pe : PeHeaders) (image : list Z) (names_off ordinals_off i : Z) (count : nat)
    (name_of : list (option Chars)) : result (list (option Chars)) ProxyError :=
  match count with
  | O => Ok name_of
  | S count =>
      let? name_ptr := ok_or (read_u32 image (names_off + i * 4)) ProxyTruncated in
      let? slot := ok_or (read_u16 image (ordinals_off + i * 2)) ProxyTruncated in
      let name := name_at pe image name_ptr in
      (* out of range, the insertion does nothing *)
      read_names pe image names_off ordinals_off (i + 1) count (<[Z.to_nat slot := Some name]> name_of)
  end.

Fixpoint read_functions (image : list Z) (functions_off export_rva export_size base : Z) (name_of : list (option Chars))
    (index : nat) (count : nat) : result (list Export) ProxyError :=
  match count with
  | O => Ok []
  | S count =>
      let? function_rva := ok_or (read_u32 image (functions_off + Z.of_nat index * 4)) ProxyTruncated in
      let? rest := read_functions image functions_off export_rva export_size base name_of (S index) count in
      if function_rva =? 0 then Ok rest
      else
        let forwarder := (export_rva <=? function_rva) && (function_rva <? add_u32 export_rva export_size) in
        Ok (MkExport (mjoin (name_of !! index)) (add_u32 base (Z.of_nat index) mod 2 ^ 16) forwarder :: rest)
  end.

(** A field of the export directory. *)
Definition field (header : list Z) (at_ : Z) : Z := default 0 (read_u32 header at_).

Definition parse_exports (image : list Z) : result Exports ProxyError :=
  let? pe := match parse_pe image with Ok pe => Ok pe | Err e => Err (ProxyPe e) end in
  let? (export_rva, export_size) := ok_or (export_directory image) NoExports in
  if (export_rva =? 0) || (export_size =? 0) then Err NoExports
  else
    let? dir := ok_or (rva_to_offset pe export_rva) ProxyTruncated in
    let? header := ok_or (get image dir 40) ProxyTruncated in
    let name_rva := field header 12 in
    let base := field header 16 in
    let function_count := field header 20 in
    let name_count := field header 24 in
    let functions_rva := field header 28 in
    let names_rva := field header 32 in
    let ordinals_rva := field header 36 in
    if (MAX_EXPORTS <? function_count) || (MAX_EXPORTS <? name_count)
    then Err (TooManyExports (Z.max function_count name_count))
    else
      let module_name := name_at pe image name_rva in
      let? functions_off := ok_or (rva_to_offset pe functions_rva) ProxyTruncated in
      let name_of := replicate (Z.to_nat function_count) None in
      let? name_of :=
        match rva_to_offset pe names_rva, rva_to_offset pe ordinals_rva with
        | Some names_off, Some ordinals_off => read_names pe image names_off ordinals_off 0 (Z.to_nat name_count) name_of
        | _, _ => Ok name_of
        end in
      let? entries := read_functions image functions_off export_rva export_size base name_of 0 (Z.to_nat function_count) in
      Ok (MkExports module_name base entries).

(** * The proxy *)

Definition nl : Chars := [10].
Definition quoted (text : Chars) : Chars := [34] ++ text ++ [34].
Definition decimal (n : Z) : Chars := chars (pretty n).

Record ProxyFiles := MkProxyFiles { def : Chars; def_file_name : Chars; cargo_toml : Chars; lib_rs : Chars }.

Definition is_ascii_alphanumeric (c : Z) : bool := within 48 57 c || within 65 90 c || within 97 122 c.

Definition sanitize_ident (stem : Chars) : Chars :=
  let out := (λ c, if is_ascii_alphanumeric c then c else 95) <$> stem in
  if default false (within 48 57 <$> head out) then 95 :: out else out.

(** The line of an export in the [.def] file, and its linker directive. *)
Definition def_line (real_stem : Chars) (e : Export) : Chars :=
  match ex_name e with
  | Some name => chars "    " ++ name ++ chars "=" ++ real_stem ++ chars "." ++ name ++ nl
  | None =>
      let ord := decimal (ordinal e) in
      chars "    proxy_ordinal_" ++ ord ++ chars "=" ++ real_stem ++ chars ".#" ++ ord ++ chars " @" ++ ord ++ chars " NONAME" ++ nl
  end.

Definition directive (real_stem : Chars) (e : Export) : Chars :=
  match ex_name e with
  | Some name => chars " /EXPORT:" ++ name ++ chars "=" ++ real_stem ++ chars "." ++ name
  | None =>
      let ord := decimal (ordinal e) in
      chars " /EXPORT:proxy_ordinal_" ++ ord ++ chars "=" ++ real_stem ++ chars ".#" ++ ord ++ chars ",@" ++ ord ++ chars ",NONAME"
  end.

Definition def_head (real_stem : Chars) : Chars :=
  chars "; Generated by tpf3mp-proxygen. Every export forwards to the" ++ nl ++
  chars "; renamed original (" ++ real_stem ++ chars ".dll)." ++ nl ++ chars "EXPORTS" ++ nl.

(** The crate up to the directives. *)
Definition lib_head (proxy_stem real_stem def_file_name : Chars) : Chars :=
  chars "//! Generated proxy for `" ++ proxy_stem ++ chars ".dll`, forwarding every export to" ++ nl ++
  chars "//! `" ++ real_stem ++ chars ".dll`. Rename the stock `" ++ proxy_stem ++ chars ".dll` to" ++ nl ++
  chars "//! `" ++ real_stem ++ chars ".dll` and drop the built `" ++ proxy_stem ++ chars ".dll` beside it." ++ nl ++
  chars "//!" ++ nl ++
  chars "//! The export forwarders are emitted as `/EXPORT` linker directives in" ++ nl ++
  chars "//! the `.drectve` section (mirroring `" ++ def_file_name ++ chars "`). Add a `DllMain`" ++ nl ++
  chars "//! here if the proxy also needs to bootstrap the hook." ++ nl ++
  nl ++
  chars "#[used]" ++ nl ++
  chars "#[unsafe(link_section = " ++ quoted (chars ".drectve") ++ chars ")]" ++ nl.

Definition generate (exports : Exports) (proxy_stem real_stem : Chars) : ProxyFiles :=
  let lib_name := sanitize_ident proxy_stem in
  let def_file_name := proxy_stem ++ chars ".def" in
  let def := def_head real_stem ++ (entries exports ≫= def_line real_stem) in
  let directives := entries exports ≫= directive real_stem in
  let cargo_toml :=
    chars "[package]" ++ nl ++
    chars "name = " ++ quoted (proxy_stem ++ chars "-proxy") ++ nl ++
    chars "version = " ++ quoted (chars "0.0.0") ++ nl ++
    chars "edition = " ++ quoted (chars "2021") ++ nl ++
    chars "publish = false" ++ nl ++ nl ++
    chars "[lib]" ++ nl ++
    chars "name = " ++ quoted lib_name ++ nl ++
    chars "crate-type = [" ++ quoted (chars "cdylib") ++ chars "]" ++ nl in
  let directive_len := decimal (Z.of_nat (str_len directives)) in
  let lib_rs :=
    lib_head proxy_stem real_stem def_file_name ++
    (chars "static EXPORT_DIRECTIVES: [u8; " ++ directive_len ++ chars "] = *b") ++ quoted directives ++ chars ";" ++ nl in
  MkProxyFiles def def_file_name cargo_toml lib_rs.

(** [write_proxy]: the files in the order they are written, to the first that fails.
    [works]: whether making the directory and each write succeed. *)
Fixpoint write_files (files : list (Chars * Chars)) (works : list bool) (disk : gmap (list Z) Chars) :
    gmap (list Z) Chars * bool :=
  match files, works with
  | [], _ => (disk, true)
  | (path, text) :: files, true :: works => write_files files works (<[path := text]> disk)
  | _ :: _, _ => (disk, false)
  end.

Definition write_proxy (exports : Exports) (proxy_stem real_stem : Chars) (made : bool) (works : list bool)
    (disk : gmap (list Z) Chars) : gmap (list Z) Chars * bool :=
  let files := generate exports proxy_stem real_stem in
  if negb made then (disk, false)
  else write_files [(chars "Cargo.toml", cargo_toml files); (chars "src/lib.rs", lib_rs files); (def_file_name files, def files)]
         works disk.

(** * What an export table is

    As the PE format has it, by offsets in the file, and without the functions that
    read it. *)

(** The [n] bytes at an offset are a number, the low byte first. *)
Definition le_at (image : list Z) (at_ n v : Z) : Prop :=
  ∃ before bytes after, image = before ++ bytes ++ after ∧ Z.of_nat (length before) = at_ ∧ Z.of_nat (length bytes) = n ∧
    from_le_bytes bytes = v.

(** A text that ends before a zero, or with the file. *)
Definition cstr_at (image : list Z) (at_ : Z) (text : Chars) : Prop :=
  ∃ before bytes after, image = before ++ bytes ++ after ∧ Z.of_nat (length before) = at_ ∧ 0 ∉ bytes ∧
    (after = [] ∨ ∃ rest, after = 0 :: rest) ∧ text = from_utf8_lossy bytes.

(** The entries of 40 bytes that say where sections lie, in memory and in the file. *)
Definition sections_at (image : list Z) (pe_off : Z) (secs : list Section_) : Prop :=
  ∃ optional_size, le_at image (pe_off + 6) 2 (Z.of_nat (length secs)) ∧ le_at image (pe_off + 20) 2 optional_size ∧
    ∀ i s, secs !! i = Some s →
      let entry := pe_off + 24 + optional_size + 40 * Z.of_nat i in
      le_at image (entry + 8) 4 (virtual_size s) ∧ le_at image (entry + 12) 4 (virtual_address s) ∧
      le_at image (entry + 16) 4 (size_of_raw_data s) ∧ le_at image (entry + 20) 4 (pointer_to_raw_data s).

Definition end_of (s : Section_) : Z := virtual_address s + Z.max (virtual_size s) (size_of_raw_data s).

(** An address lies at an offset in the file: as far from the first byte of the first
    section that covers it in the file as in memory. *)
Definition lies_at (secs : list Section_) (rva off : Z) : Prop :=
  ∃ before s after, secs = before ++ s :: after ∧
    Forall (λ t, end_of t < 2 ^ 32 ∧ ¬ (virtual_address t ≤ rva < end_of t)) before ∧
    end_of s < 2 ^ 32 ∧ virtual_address s ≤ rva < virtual_address s + size_of_raw_data s ∧
    off = (pointer_to_raw_data s + (rva - virtual_address s)) mod 2 ^ 32.

(** The name an address is of; empty, if it is not in the file. *)
Definition name_lies (image : list Z) (secs : list Section_) (rva : Z) (name : Chars) : Prop :=
  (∃ off, lies_at secs rva off ∧ cstr_at image off name) ∨
  ((∀ off, lies_at secs rva off → Z.of_nat (length image) < off) ∧ name = []).

Record Directory := MkDirectory {
  d_base : Z;
  d_functions : Z;
  d_names : Z;
  d_functions_rva : Z;
  d_names_rva : Z;
  d_ordinals_rva : Z;
}.

(** The export directory of 40 bytes. *)
Definition directory_at (image : list Z) (dir : Z) (d : Directory) : Prop :=
  dir + 40 ≤ Z.of_nat (length image) ∧
  le_at image (dir + 16) 4 (d_base d) ∧ le_at image (dir + 20) 4 (d_functions d) ∧ le_at image (dir + 24) 4 (d_names d) ∧
  le_at image (dir + 28) 4 (d_functions_rva d) ∧ le_at image (dir + 32) 4 (d_names_rva d) ∧ le_at image (dir + 36) 4 (d_ordinals_rva d).

(** The names, each of a slot: none, if one of the two arrays is not in the file. *)
Definition names_lie (image : list Z) (secs : list Section_) (d : Directory) (names : list (Z * Chars)) : Prop :=
  (∃ names_off ordinals_off, lies_at secs (d_names_rva d) names_off ∧ lies_at secs (d_ordinals_rva d) ordinals_off ∧
    Z.of_nat (length names) = d_names d ∧
    ∀ i slot name, names !! i = Some (slot, name) →
      ∃ rva, le_at image (names_off + Z.of_nat i * 4) 4 rva ∧ le_at image (ordinals_off + Z.of_nat i * 2) 2 slot ∧ name_lies image secs rva name) ∨
  ((∀ names_off ordinals_off, lies_at secs (d_names_rva d) names_off → ¬ lies_at secs (d_ordinals_rva d) ordinals_off) ∧ names = []).

(** The export table: its base, the names and their slots, and the slots' addresses.
    The first data directory, 136 bytes into the headers, says where it is. *)
Definition export_table (image : list Z) (base : Z) (names : list (Z * Chars)) (addresses : list Z) : Prop :=
  ∃ pe pe_off directories rva size dir d functions_off,
    parse_pe image = Ok pe ∧ le_at image 0x3C 4 pe_off ∧ sections_at image pe_off (sections pe) ∧
    le_at image (pe_off + 24) 2 0x20B ∧
    (le_at image (pe_off + 132) 4 directories ∧ 1 ≤ directories) ∧
    (le_at image (pe_off + 136) 4 rva ∧ rva ≠ 0) ∧ (le_at image (pe_off + 140) 4 size ∧ size ≠ 0) ∧
    lies_at (sections pe) rva dir ∧ directory_at image dir d ∧
    d_functions d ≤ 2 ^ 18 ∧ d_names d ≤ 2 ^ 18 ∧ base = d_base d ∧
    lies_at (sections pe) (d_functions_rva d) functions_off ∧ Z.of_nat (length addresses) = d_functions d ∧
    (∀ i address, addresses !! i = Some address → le_at image (functions_off + Z.of_nat i * 4) 4 address) ∧
    names_lie image (sections pe) d names.

(** * What is forwarded *)

(** The last of the names of a slot. *)
Definition last_name (names : list (Z * Chars)) (index : nat) : option Chars :=
  last (filter (λ x, Z.to_nat x.1 = index) names).*2.

(** Every slot with an address, in order: the last of its names, and its number. *)
Definition slots (base : Z) (names : list (Z * Chars)) (addresses : list Z) : list (option Chars * Z) :=
  omap (λ x : nat * Z, if x.2 =? 0 then None else Some (last_name names x.1, (base + Z.of_nat x.1) mod 2 ^ 16))
    (zip (List.seq 0 (length addresses)) addresses).

(** What the linker is told of a slot: to forward its name, or else its number, to the
    same of the renamed library. *)
Definition forward_line (real_stem : Chars) (slot : option Chars * Z) : Chars :=
  match slot with
  | (Some name, _) => chars "    " ++ name ++ chars "=" ++ real_stem ++ chars "." ++ name ++ [10]
  | (None, n) =>
      chars "    proxy_ordinal_" ++ chars (pretty n) ++ chars "=" ++ real_stem ++ chars ".#" ++ chars (pretty n) ++
      chars " @" ++ chars (pretty n) ++ chars " NONAME" ++ [10]
  end.

Definition forward_option (real_stem : Chars) (slot : option Chars * Z) : Chars :=
  match slot with
  | (Some name, _) => chars " /EXPORT:" ++ name ++ chars "=" ++ real_stem ++ chars "." ++ name
  | (None, n) =>
      chars " /EXPORT:proxy_ordinal_" ++ chars (pretty n) ++ chars "=" ++ real_stem ++ chars ".#" ++ chars (pretty n) ++
      chars ",@" ++ chars (pretty n) ++ chars ",NONAME"
  end.

(** ** The readers read it *)

Lemma get_at image at_ n x : 0 ≤ n → get image at_ n = Some x ↔
  ∃ before after, image = before ++ x ++ after ∧ Z.of_nat (length before) = at_ ∧ Z.of_nat (length x) = n.
Proof.
  intros Hn. rewrite get_Some. split.
  - intros (Ha & _ & Hl & ->). exists (take (Z.to_nat at_) image), (drop (Z.to_nat n) (drop (Z.to_nat at_) image)).
    rewrite !take_drop, !length_take, length_drop. split; [done |]. lia.
  - intros (before & after & -> & <- & <-). rewrite !length_app, !Nat2Z.id, drop_app_length, take_app_length. split; [lia |]. split; [lia |].
    split; [lia | done].
Qed.

Lemma read_le_at image at_ n v : 0 ≤ n → from_le_bytes <$> get image at_ n = Some v ↔ le_at image at_ n v.
Proof.
  intros Hn. rewrite fmap_Some. unfold le_at. split.
  - intros (x & (before & after & H1 & H2 & H3)%get_at & ->); [| done]. by exists before, x, after.
  - intros (before & x & after & H1 & H2 & H3 & <-). exists x. split; [| done]. apply get_at; [done |]. by exists before, after.
Qed.

Lemma read_u32_at image at_ v : read_u32 image at_ = Some v ↔ le_at image at_ 4 v.
Proof. by apply read_le_at. Qed.
Lemma read_u16_at image at_ v : read_u16 image at_ = Some v ↔ le_at image at_ 2 v.
Proof. by apply read_le_at. Qed.

Lemma until_zero_spec l : ∃ after, l = until_zero l ++ after ∧ 0 ∉ until_zero l ∧ (after = [] ∨ ∃ rest, after = 0 :: rest).
Proof.
  induction l as [| b l (after & E & Hn & Ha)]; cbn; [exists []; set_solver |].
  destruct (Z.eqb_spec b 0) as [-> |]; [exists (0 :: l); set_solver |]. exists after. cbn. split; [by f_equal |]. set_solver.
Qed.

Lemma until_zero_unique bytes after : 0 ∉ bytes → (after = [] ∨ ∃ rest, after = 0 :: rest) → until_zero (bytes ++ after) = bytes.
Proof.
  intros Hn Ha. induction bytes as [| b bytes IH]; cbn; [by destruct Ha as [-> | (rest & ->)] |].
  apply not_elem_of_cons in Hn as [Hb Hn]. rewrite (proj2 (Z.eqb_neq b 0)) by done. by rewrite IH.
Qed.

Lemma read_cstr_at image at_ text : 0 ≤ at_ ≤ Z.of_nat (length image) → read_cstr image at_ = text ↔ cstr_at image at_ text.
Proof.
  intros Hr. unfold read_cstr. rewrite (proj2 (Z.leb_le _ _)) by lia. split.
  - intros <-. destruct (until_zero_spec (drop (Z.to_nat at_) image)) as (after & E & Hn & Ha).
    exists (take (Z.to_nat at_) image), (until_zero (drop (Z.to_nat at_) image)), after.
    rewrite <- E, take_drop, length_take. split; [done |]. split; [lia | done].
  - intros (before & bytes & after & -> & <- & Hn & Ha & ->). rewrite Nat2Z.id, drop_app_length. f_equal. by apply until_zero_unique.
Qed.

Lemma rva_to_offset_at pe rva off : rva_to_offset pe rva = Some off ↔ lies_at (sections pe) rva off.
Proof.
  unfold rva_to_offset, lies_at. induction (sections pe) as [| s secs IH]; cbn [offset_in].
  { split; [done | by intros ([] & ? & ? & ? & _)]. }
  fold (end_of s). change (2 ^ 32) with (u32_max + 1) in *.
  assert (Hraw : virtual_address s + size_of_raw_data s ≤ end_of s) by (unfold end_of; lia).
  destruct (Z.ltb_spec u32_max (end_of s)) as [Hbig | Hfit].
  { split; [done |]. intros ([| t before] & s' & after & [= -> ->] & Hb & He & _); [lia |]. apply Forall_cons in Hb as [[? _] _]. lia. }
  destruct ((virtual_address s <=? rva) && (rva <? end_of s)) eqn:Ec.
  - assert (virtual_address s ≤ rva < end_of s) as Hc by lia. unfold add_u32. change (2 ^ 32) with (u32_max + 1).
    destruct (Z.ltb_spec (rva - virtual_address s) (size_of_raw_data s)) as [Hd | Hd]; split.
    + intros [= <-]. exists [], s, secs. split; [done |]. split; [by constructor |]. split; [lia |]. split; [lia | done].
    + intros ([| t before] & s' & after & [= -> ->] & Hb & He & Hin & ->); [done |]. apply Forall_cons in Hb as [[_ ?] _]. done.
    + done.
    + intros ([| t before] & s' & after & [= -> ->] & Hb & He & Hin & ->); [lia |]. apply Forall_cons in Hb as [[_ ?] _]. done.
  - rewrite IH. split.
    + intros (before & s' & after & -> & Hb & H). exists (s :: before), s', after. split; [done |]. split; [| done]. constructor; [lia | done].
    + intros ([| t before] & s' & after & [= -> ->] & Hb & He & Hin & Hoff); [lia |]. apply Forall_cons in Hb as [_ Hb].
      by exists before, s', after.
Qed.

Lemma lies_at_unique pe rva a b : lies_at (sections pe) rva a → lies_at (sections pe) rva b → a = b.
Proof. rewrite <- !rva_to_offset_at. congruence. Qed.

Lemma lies_at_range pe rva off : lies_at (sections pe) rva off → 0 ≤ off.
Proof. intros (before & s & after & _ & _ & _ & _ & ->). by apply Z.mod_pos_bound. Qed.

Lemma name_at_lies pe image rva name : name_at pe image rva = name ↔ name_lies image (sections pe) rva name.
Proof.
  unfold name_at, name_lies. destruct (rva_to_offset pe rva) as [off |] eqn:E; cbn.
  - apply rva_to_offset_at in E. pose proof (lies_at_range _ _ _ E) as H0. destruct (Z.le_gt_cases off (Z.of_nat (length image))) as [Hle | Hgt].
    + rewrite read_cstr_at by done. split; [intros H; left; by exists off |]. intros [(off' & Ho & H) | [H _]].
      * by rewrite (lies_at_unique _ _ _ _ E Ho).
      * specialize (H _ E). lia.
    + unfold read_cstr. rewrite (proj2 (Z.leb_gt _ _)) by lia. cbn. split.
      * intros <-. right. split; [| done]. intros off' Ho. by rewrite <- (lies_at_unique _ _ _ _ E Ho).
      * intros [(off' & Ho & (before & bytes & after & -> & <- & _)) | [_ ->]]; [| done].
        rewrite (lies_at_unique _ _ _ _ E Ho), !length_app in Hgt. lia.
  - split; [intros <-; right; split; [| done]; intros off Ho%rva_to_offset_at; congruence |].
    intros [(off & Ho%rva_to_offset_at & _) | [_ ->]]; [congruence | done].
Qed.

Lemma read_sections_at image count entry secs : read_sections image entry count = Ok secs →
  length secs = count ∧ ∀ i s, secs !! i = Some s →
    let at_ := entry + 40 * Z.of_nat i in
    le_at image (at_ + 8) 4 (virtual_size s) ∧ le_at image (at_ + 12) 4 (virtual_address s) ∧
    le_at image (at_ + 16) 4 (size_of_raw_data s) ∧ le_at image (at_ + 20) 4 (pointer_to_raw_data s).
Proof.
  revert entry secs. induction count as [| count IH]; intros entry secs; cbn [read_sections]; [by intros [= <-] |].
  destruct (get image entry 8) as [name |]; cbn [ok_or result_bind]; [| done].
  intros (vs & H1 & _ & H)%field_Ok. apply field_Ok in H as (va & H2 & _ & H). apply field_Ok in H as (rs & H3 & _ & H).
  apply field_Ok in H as (rp & H4 & _ & H). apply result_bind_Ok in H as (rest & (Hl & Hr)%IH & H). injection H as <-.
  split; [cbn; by rewrite Hl |]. intros [| i] s; cbn [lookup list_lookup].
  - intros [= <-]. cbn. rewrite Z.add_0_r. by rewrite <- !read_le_at.
  - intros Hs. specialize (Hr i s Hs). cbn in Hr |- *. by replace (entry + 40 * Z.of_nat (S i)) with (entry + 40 + 40 * Z.of_nat i) by lia.
Qed.

Lemma le_at_nonneg image at_ n v : le_at image at_ n v → Forall is_byte image → 0 ≤ v.
Proof. intros (before & bytes & after & -> & _ & _ & <-) Hb. apply Forall_app in Hb as [_ [Hb _]%Forall_app]. by apply from_le_range. Qed.

Lemma parse_pe_sections image pe : Forall is_byte image → parse_pe image = Ok pe →
  ∃ pe_off, le_at image 0x3C 4 pe_off ∧ le_at image (pe_off + 24) 2 0x20B ∧ sections_at image pe_off (sections pe).
Proof.
  intros Hbytes. unfold parse_pe. destruct (Z.of_nat (length image) <? 0x40); [done |].
  destruct (negb (bool_decide (get image 0 2 = _))); [done |].
  intros (pe_off & Eoff & _ & H)%field_Ok. destruct (negb (bool_decide (get image pe_off 4 = _))); [done |].
  apply field_Ok in H as (machine & _ & _ & H). apply field_Ok in H as (count & Ecount & _ & H).
  apply field_Ok in H as (stamp & _ & _ & H). apply field_Ok in H as (size & Esize & _ & H).
  apply field_Ok in H as (magic & Emagic & _ & H). destruct (Z.eqb_spec magic 0x20B) as [-> |]; cbn [negb] in H; [| done].
  apply field_Ok in H as (base & _ & _ & H). apply field_Ok in H as (image_size & _ & _ & H).
  apply result_bind_Ok in H as (secs & Hsecs & H). injection H as <-. cbn [sections].
  rewrite read_le_at in Eoff, Ecount, Esize, Emagic by done.
  replace (pe_off + 4 + 2) with (pe_off + 6) in Ecount by lia. replace (pe_off + 4 + 16) with (pe_off + 20) in Esize by lia.
  replace (pe_off + 4 + 20) with (pe_off + 24) in Emagic, Hsecs by lia.
  apply read_sections_at in Hsecs as [Hl Hs]. exists pe_off. split; [done |]. split; [done |].
  exists size. rewrite Hl, Z2Nat.id by (by eapply le_at_nonneg). done.
Qed.

(** The names, as they are read from some index on. *)
Definition names_from (image : list Z) (secs : list Section_) (names_off ordinals_off from : Z) (names : list (Z * Chars)) : Prop :=
  ∀ i slot name, names !! i = Some (slot, name) →
    ∃ rva, le_at image (names_off + (from + Z.of_nat i) * 4) 4 rva ∧ le_at image (ordinals_off + (from + Z.of_nat i) * 2) 2 slot ∧
      name_lies image secs rva name.

Definition put_name (name_of : list (option Chars)) (x : Z * Chars) : list (option Chars) :=
  <[Z.to_nat x.1 := Some x.2]> name_of.

Lemma names_from_cons image secs names_off ordinals_off from slot name names :
  names_from image secs names_off ordinals_off from ((slot, name) :: names) ↔
  (∃ rva, le_at image (names_off + from * 4) 4 rva ∧ le_at image (ordinals_off + from * 2) 2 slot ∧ name_lies image secs rva name) ∧
  names_from image secs names_off ordinals_off (from + 1) names.
Proof.
  unfold names_from. split.
  - intros H. split; [specialize (H 0%nat slot name eq_refl); by rewrite Z.add_0_r in H |].
    intros i s n Hi. specialize (H (S i) s n Hi). by replace (from + Z.of_nat (S i)) with (from + 1 + Z.of_nat i) in H by lia.
  - intros [H1 H2] [| i] s n; cbn [lookup list_lookup]; [intros [= -> ->]; by rewrite Z.add_0_r |].
    intros Hi. specialize (H2 i s n Hi). by replace (from + Z.of_nat (S i)) with (from + 1 + Z.of_nat i) by lia.
Qed.

Lemma read_names_iff pe image names_off ordinals_off count from name_of name_of' :
  read_names pe image names_off ordinals_off from count name_of = Ok name_of' ↔
  ∃ names, length names = count ∧ names_from image (sections pe) names_off ordinals_off from names ∧ name_of' = foldl put_name name_of names.
Proof.
  revert from name_of. induction count as [| count IH]; intros from name_of; cbn [read_names].
  - split; [intros [= <-]; by exists [] | by intros ([] & ? & _ & ->)].
  - split.
    + intros H. apply field_Ok in H as (rva & H1 & _ & H). apply field_Ok in H as (slot & H2 & _ & H). rewrite read_le_at in H1, H2 by done.
      apply IH in H as (names & <- & Hn & ->). exists ((slot, name_at pe image rva) :: names). split; [done |]. split; [| done].
      apply names_from_cons. split; [| done]. exists rva. split; [done |]. split; [done |]. by apply name_at_lies.
    + intros ([| [slot name] names] & [= Hl] & Hn & ->). apply names_from_cons in Hn as [(rva & H1 & H2 & H3) Hn].
      unfold read_u32, read_u16. rewrite (proj2 (read_le_at _ _ 4 _ ltac:(done)) H1), (proj2 (read_le_at _ _ 2 _ ltac:(done)) H2).
      cbn [ok_or result_bind]. rewrite (proj2 (name_at_lies _ _ _ _) H3). apply IH. by exists names.
Qed.

Lemma put_names_length name_of names : length (foldl put_name name_of names) = length name_of.
Proof. revert name_of. induction names as [| x names IH]; intros name_of; cbn; [done |]. rewrite IH. unfold put_name. apply length_insert. Qed.

Lemma put_names_last n names index : (index < n)%nat →
  mjoin (foldl put_name (replicate n None) names !! index) = last_name names index.
Proof.
  intros Hi. unfold last_name. induction names as [| x names IH] using rev_ind.
  - cbn. by rewrite lookup_replicate_2.
  - rewrite foldl_app, filter_app, fmap_app. cbn [foldl]. unfold put_name at 1. rewrite filter_cons, filter_nil.
    destruct (decide (Z.to_nat x.1 = index)) as [-> | Hne].
    + rewrite list_lookup_insert_eq by (by rewrite put_names_length, length_replicate). cbn. by rewrite last_snoc.
    + rewrite list_lookup_insert_ne by done. by rewrite app_nil_r.
Qed.

(** What the crate keeps of an export. *)
Definition slot_of (x : Export) : option Chars * Z := (ex_name x, ordinal x).

Definition slots_from (base : Z) (name_of : nat → option Chars) (from : nat) (addresses : list Z) : list (option Chars * Z) :=
  omap (λ x : nat * Z, if x.2 =? 0 then None else Some (name_of x.1, (base + Z.of_nat x.1) mod 2 ^ 16))
    (zip (List.seq from (length addresses)) addresses).

Lemma slots_from_ext base name_of name_of' from addresses :
  (∀ i, (from ≤ i < from + length addresses)%nat → name_of i = name_of' i) →
  slots_from base name_of from addresses = slots_from base name_of' from addresses.
Proof.
  unfold slots_from. revert from. induction addresses as [| f addresses IH]; intros from H; [done |].
  cbn [length List.seq zip_with omap list_omap fst snd]. rewrite (H from) by (cbn; lia).
  rewrite (IH (S from)); [done |]. intros i Hi. apply H. cbn. lia.
Qed.

Definition addresses_from (image : list Z) (functions_off : Z) (from : nat) (addresses : list Z) : Prop :=
  ∀ i address, addresses !! i = Some address → le_at image (functions_off + Z.of_nat (from + i) * 4) 4 address.

Lemma addresses_from_cons image functions_off from address addresses :
  addresses_from image functions_off from (address :: addresses) ↔
  le_at image (functions_off + Z.of_nat from * 4) 4 address ∧ addresses_from image functions_off (S from) addresses.
Proof.
  unfold addresses_from. split.
  - intros H. split; [specialize (H 0%nat address eq_refl); by rewrite Nat.add_0_r in H |].
    intros i a Hi. specialize (H (S i) a Hi). by replace (from + S i)%nat with (S from + i)%nat in H by lia.
  - intros [H1 H2] [| i] a; cbn [lookup list_lookup]; [intros [= <-]; by rewrite Nat.add_0_r |].
    intros Hi. specialize (H2 i a Hi). by replace (from + S i)%nat with (S from + i)%nat by lia.
Qed.

Lemma read_functions_iff image functions_off rva size base name_of count from :
  (∀ es, read_functions image functions_off rva size base name_of from count = Ok es →
    ∃ addresses, length addresses = count ∧ addresses_from image functions_off from addresses) ∧
  (∀ addresses, length addresses = count → addresses_from image functions_off from addresses →
    ∃ es, read_functions image functions_off rva size base name_of from count = Ok es ∧
      slot_of <$> es = slots_from base (λ i, mjoin (name_of !! i)) from addresses).
Proof.
  revert from. induction count as [| count IH]; intros from; cbn [read_functions].
  { split; [intros es _; by exists [] |]. intros [] [=] _. by exists []. }
  destruct (IH (S from)) as [IH1 IH2]. split.
  - intros es H. apply field_Ok in H as (f & H1 & _ & H). rewrite read_le_at in H1 by done.
    apply result_bind_Ok in H as (rest & (addresses & <- & Ha)%IH1 & _). exists (f :: addresses). split; [done |].
    by apply addresses_from_cons.
  - intros [| f addresses] [= Hl] [H1 Ha]%addresses_from_cons. destruct (IH2 addresses Hl Ha) as (rest & Hr & Hs).
    unfold read_u32. rewrite (proj2 (read_le_at _ _ 4 _ ltac:(done)) H1). cbn [ok_or result_bind]. rewrite Hr. cbn [result_bind].
    unfold slots_from in *. cbn [length List.seq zip_with omap list_omap fst snd]. destruct (f =? 0); [by exists rest |].
    eexists. split; [done |]. cbn [fmap list_fmap]. unfold slot_of at 1. cbn [ex_name ordinal]. f_equal; [| exact Hs]. f_equal.
    unfold add_u32. apply Z.mod_mod_divide. by exists (2 ^ 16).
Qed.

(** A field of the export directory is where the directory is. *)
Lemma field_at image dir header k v : get image dir 40 = Some header → 0 ≤ k → k + 4 ≤ 40 →
  field header k = v ↔ le_at image (dir + k) 4 v.
Proof.
  intros H Hk Hk4. pose proof H as (Hd & _ & Hl & Eh)%get_Some. rewrite <- read_le_at by done. unfold field, read_u32.
  assert (get header k 4 = get image (dir + k) 4) as ->.
  { rewrite Eh, get_head by lia. apply option_eq. intros x. rewrite !get_Some, length_drop, drop_drop, <- Z2Nat.inj_add by lia. split; intros (? & ? & ? & ->); repeat split; try done; lia. }
  destruct (get image (dir + k) 4) as [x |] eqn:E; cbn; [by split; [intros <- | intros [= <-]] |].
  exfalso. assert (get image (dir + k) 4 = Some (take (Z.to_nat 4) (drop (Z.to_nat (dir + k)) image))) by (apply get_Some; repeat split; lia). congruence.
Qed.

Lemma directory_iff image dir d : 0 ≤ dir → directory_at image dir d ↔
  ∃ header, get image dir 40 = Some header ∧
    d = MkDirectory (field header 16) (field header 20) (field header 24) (field header 28) (field header 32) (field header 36).
Proof.
  intros Hd. unfold directory_at. split.
  - intros (Hl & H1 & H2 & H3 & H4 & H5 & H6). destruct (get image dir 40) as [header |] eqn:E.
    + exists header. split; [done |]. rewrite <- !(field_at image dir header) in H1, H2, H3, H4, H5, H6 by done. destruct d. cbn in *. by f_equal.
    + exfalso. assert (get image dir 40 = Some (take (Z.to_nat 40) (drop (Z.to_nat dir) image))) by (apply get_Some; repeat split; lia). congruence.
  - intros (header & H & ->). cbn. pose proof H as (_ & _ & Hl & _)%get_Some. split; [done |].
    repeat split; by apply (field_at image dir header).
Qed.

Lemma directory_of image pe_off directories rva size :
  le_at image 0x3C 4 pe_off → le_at image (pe_off + 24) 2 0x20B → le_at image (pe_off + 132) 4 directories → 1 ≤ directories →
  le_at image (pe_off + 136) 4 rva → le_at image (pe_off + 140) 4 size → export_directory image = Some (rva, size).
Proof.
  rewrite <- !read_u32_at, <- read_u16_at. intros H1 H2 H3 Hd H4 H5. unfold export_directory. rewrite H1. cbn.
  replace (pe_off + 4 + 20) with (pe_off + 24) by lia. rewrite H2. cbn. replace (pe_off + 24 + 108) with (pe_off + 132) by lia. rewrite H3. cbn.
  rewrite (proj2 (Z.ltb_ge _ _) Hd). replace (pe_off + 24 + 112) with (pe_off + 136) by lia. rewrite H4. cbn.
  replace (pe_off + 136 + 4) with (pe_off + 140) by lia. by rewrite H5.
Qed.

Lemma export_directory_at image pe_off rva size : le_at image 0x3C 4 pe_off → export_directory image = Some (rva, size) →
  ∃ directories, (le_at image (pe_off + 132) 4 directories ∧ 1 ≤ directories) ∧ le_at image (pe_off + 136) 4 rva ∧ le_at image (pe_off + 140) 4 size.
Proof.
  rewrite <- read_u32_at. intros H1. unfold export_directory. rewrite H1. cbn. intros (magic & _ & H)%bind_Some.
  destruct (negb (magic =? 0x20B)); [done |]. apply bind_Some in H as (n & Hn & H). destruct (Z.ltb_spec n 1); [done |].
  apply bind_Some in H as (r & Hr & H). apply bind_Some in H as (z & Hz & H). injection H as <- <-. rewrite read_u32_at in Hn, Hr, Hz.
  replace (pe_off + 4 + 20 + 108) with (pe_off + 132) in Hn by lia. replace (pe_off + 4 + 20 + 112) with (pe_off + 136) in Hr by lia.
  replace (pe_off + 4 + 20 + 112 + 4) with (pe_off + 140) in Hz by lia. by exists n.
Qed.

(** The names of the slots, as they are collected. *)
Lemma names_lie_iff image pe d n : 0 ≤ d_names d →
  let read :=
    match rva_to_offset pe (d_names_rva d), rva_to_offset pe (d_ordinals_rva d) with
    | Some names_off, Some ordinals_off => read_names pe image names_off ordinals_off 0 (Z.to_nat (d_names d)) (replicate n None)
    | _, _ => Ok (replicate n None)
    end in
  (∀ name_of, read = Ok name_of → ∃ names, names_lie image (sections pe) d names) ∧
  (∀ names, names_lie image (sections pe) d names → read = Ok (foldl put_name (replicate n None) names)).
Proof.
  intros H0 read. unfold names_lie. setoid_rewrite <- rva_to_offset_at. subst read.
  destruct (rva_to_offset pe (d_names_rva d)) as [no |], (rva_to_offset pe (d_ordinals_rva d)) as [oo |].
  2,3,4: split; [intros name_of _; exists []; right; naive_solver | naive_solver].
  split.
  - intros name_of (names & Hl & Hn & _)%read_names_iff. exists names. left. exists no, oo. split; [done |]. split; [done |]. split; [lia |]. exact Hn.
  - intros names [(? & ? & [= <-] & [= <-] & Hl & Hn) | [H ->]]; [| by destruct (H no oo)]. apply read_names_iff. exists names.
    split; [lia | done].
Qed.

Lemma exports_read image base names addresses : Forall is_byte image → export_table image base names addresses →
  ∃ e, parse_exports image = Ok e ∧ slot_of <$> entries e = slots base names addresses.
Proof.
  intros Hb (pe & pe_off & directories & rva & size & dir & d & functions_off & Hpe & Hoff & _ & Hmagic & [Hn Hn1] & [Hr Hr0] & [Hz Hz0] & Hdir & Hd &
    Hf & Hm & -> & Hfo & Hl & Ha & Hnames). unfold parse_exports. rewrite Hpe. cbn [result_bind].
  rewrite (directory_of image pe_off directories rva size) by done. cbn [ok_or result_bind].
  rewrite (proj2 (Z.eqb_neq _ _) Hr0), (proj2 (Z.eqb_neq _ _) Hz0). cbn [orb].
  rewrite (proj2 (rva_to_offset_at _ _ _) Hdir). cbn [ok_or result_bind].
  pose proof (lies_at_range _ _ _ Hdir) as H0. destruct (proj1 (directory_iff image dir d H0) Hd) as (header & Hh & ->).
  cbn [d_base d_functions d_names d_functions_rva d_names_rva d_ordinals_rva] in *.
  rewrite Hh. cbn [ok_or result_bind]. change MAX_EXPORTS with (2 ^ 18).
  rewrite (proj2 (Z.ltb_ge _ _) Hf), (proj2 (Z.ltb_ge _ _) Hm). cbn [orb].
  rewrite (proj2 (rva_to_offset_at _ _ _) Hfo). cbn [ok_or result_bind].
  pose proof Hd as (_ & _ & _ & Hm0%le_at_nonneg & _); [| done].
  destruct (names_lie_iff image pe (MkDirectory (field header 16) (field header 20) (field header 24) (field header 28) (field header 32) (field header 36))
    (Z.to_nat (field header 20)) Hm0) as [_ Hread]. cbn [d_names d_names_rva d_ordinals_rva] in Hread. rewrite (Hread names Hnames). cbn [result_bind].
  destruct (read_functions_iff image functions_off rva size (field header 16) (foldl put_name (replicate (Z.to_nat (field header 20)) None) names)
    (Z.to_nat (field header 20)) 0) as [_ H]. destruct (H addresses) as (es & -> & Hs); [lia | exact Ha |].
  cbn [result_bind]. eexists. split; [done |]. cbn [entries]. rewrite Hs.
  apply (slots_from_ext _ _ (last_name names)). intros i Hi. apply put_names_last. lia.
Qed.

Lemma exports_there image e : Forall is_byte image → parse_exports image = Ok e → ∃ base names addresses, export_table image base names addresses.
Proof.
  intros Hb. unfold parse_exports. destruct (parse_pe image) as [pe |] eqn:Ep; cbn [result_bind]; [| done].
  destruct (parse_pe_sections image pe Hb Ep) as (pe_off & Hoff & Hmagic & Hsecs).
  destruct (export_directory image) as [[rva size] |] eqn:Ed; cbn [ok_or result_bind]; [| done].
  destruct (export_directory_at _ _ _ _ Hoff Ed) as (directories & Hdirs & Hrva & Hsize).
  destruct (Z.eqb_spec rva 0) as [| Hr0]; [done |]. destruct (Z.eqb_spec size 0) as [| Hz0]; [done |]. cbn [orb].
  destruct (rva_to_offset pe rva) as [dir |] eqn:Er; cbn [ok_or result_bind]; [| done]. apply rva_to_offset_at in Er.
  destruct (get image dir 40) as [header |] eqn:Eh; cbn [ok_or result_bind]; [| done].
  set (d := MkDirectory (field header 16) (field header 20) (field header 24) (field header 28) (field header 32) (field header 36)).
  assert (Hd : directory_at image dir d) by (apply directory_iff; [by eapply lies_at_range | by exists header]).
  change MAX_EXPORTS with (2 ^ 18). destruct (Z.ltb_spec (2 ^ 18) (field header 20)) as [| Hf]; [done |].
  destruct (Z.ltb_spec (2 ^ 18) (field header 24)) as [| Hm]; [done |]. cbn [orb].
  destruct (rva_to_offset pe (field header 28)) as [fo |] eqn:Ef; cbn [ok_or result_bind]; [| done]. apply rva_to_offset_at in Ef.
  pose proof Hd as (_ & _ & Hf0%le_at_nonneg & Hm0%le_at_nonneg & _); [| done..].
  destruct (names_lie_iff image pe d (Z.to_nat (field header 20)) Hm0) as [Hnames _]. cbn [d d_names d_names_rva d_ordinals_rva] in Hnames.
  destruct (match rva_to_offset pe (field header 32), rva_to_offset pe (field header 36) with
    | Some _, Some _ => _ | _, _ => _ end) as [name_of |]; cbn [result_bind]; [| done].
  destruct (Hnames name_of eq_refl) as (names & Hn).
  destruct (read_functions _ _ _ _ _ _ _ _) as [es |] eqn:Es; cbn [result_bind]; [| done]. intros _.
  apply read_functions_iff in Es as (addresses & Hl & Ha). exists (d_base d), names, addresses.
  exists pe, pe_off, directories, rva, size, dir, d, fo. cbn [d d_functions d_names d_functions_rva] in *.
  do 16 (try (split; [done |])). split; [| split; [exact Ha | exact Hn]]. lia.
Qed.

(** The name of a slot that no other name shares. *)
Lemma last_name_sole names slot name : NoDup (Z.to_nat <$> names.*1) → (slot, name) ∈ names → last_name names (Z.to_nat slot) = Some name.
Proof.
  intros Hd (l1 & l2 & ->)%list_elem_of_split. unfold last_name.
  rewrite !fmap_app in Hd. cbn in Hd. apply NoDup_app in Hd as (_ & H1 & [H2 _]%NoDup_cons).
  rewrite filter_app, filter_cons_True by done.
  assert (∀ l, Z.to_nat slot ∉ Z.to_nat <$> l.*1 → filter (λ x : Z * Chars, Z.to_nat x.1 = Z.to_nat slot) l = []) as Hnone.
  { intros l Hl. destruct (filter _ l) as [| x k] eqn:Ef; [done |]. destruct Hl.
    assert (x ∈ filter (λ x : Z * Chars, Z.to_nat x.1 = Z.to_nat slot) l) as [<- Hx]%list_elem_of_filter by (rewrite Ef; by left).
    by do 2 apply list_elem_of_fmap_2. }
  rewrite (Hnone l2 H2), (Hnone l1); [done |]. intros Hin. apply (H1 _ Hin). by left.
Qed.

(** A live slot is in the list. *)
Lemma slots_live base names addresses i address : addresses !! i = Some address → address ≠ 0 →
  (last_name names i, (base + Z.of_nat i) mod 2 ^ 16) ∈ slots base names addresses.
Proof.
  unfold slots. intros Hi Hf. apply list_elem_of_omap. exists (i, address). split.
  - apply list_elem_of_lookup_2 with i. rewrite lookup_zip_with, lookup_seq_lt by (by eapply lookup_lt_Some). cbn. by rewrite Hi.
  - cbn. by rewrite (proj2 (Z.eqb_neq _ _) Hf).
Qed.

Lemma lines_forward real_stem es :
  es ≫= def_line real_stem = (slot_of <$> es) ≫= forward_line real_stem ∧
  es ≫= directive real_stem = (slot_of <$> es) ≫= forward_option real_stem.
Proof.
  induction es as [| [[name |] n f] es [IH1 IH2]]; [done | |]; cbn [fmap list_fmap]; rewrite !bind_cons, IH1, IH2; done.
Qed.

Lemma generate_def e proxy_stem real_stem :
  def (generate e proxy_stem real_stem) = def_head real_stem ++ (entries e ≫= def_line real_stem).
Proof. reflexivity. Qed.

Lemma generate_lib e proxy_stem real_stem : ∃ before after,
  lib_rs (generate e proxy_stem real_stem) = before ++ [34] ++ (entries e ≫= directive real_stem) ++ [34] ++ after.
Proof.
  unfold generate, quoted. cbn [lib_rs].
  set (head := lib_head _ _ _). set (len := decimal _). set (a := chars "static EXPORT_DIRECTIVES: [u8; ").
  set (b := chars "] = *b"). set (all := entries e ≫= directive real_stem). set (c := chars ";" ++ nl).
  exists (head ++ a ++ len ++ b), c. by rewrite <- !app_assoc.
Qed.

(** C39: a proxy forwards what the library exports.  For the bytes of any image, the
    exports are read exactly if there is a table of them, of at most 2^18 slots and
    names, where the PE format puts it (the first data directory of the headers says at
    which address, and the sections where that is in the file).  Then the file for the
    linker is, after its heading, a line for each slot of the table that has an address,
    in the order of the slots, that forwards the last of the slot's names, or the
    slot's number if it has none, to the same of the renamed library; and the crate has
    an option for each of them, in the same order and in one string.  If no two names
    share a slot, every name of a slot with an address is forwarded. *)
Theorem proxy_forwards (image : list Z) (proxy_stem real_stem : Chars) : Forall is_byte image →
  ((∃ e, parse_exports image = Ok e) ↔ ∃ base names addresses, export_table image base names addresses) ∧
  (∀ e base names addresses, parse_exports image = Ok e → export_table image base names addresses →
    let files := generate e proxy_stem real_stem in
    let live := slots base names addresses in
    def files = def_head real_stem ++ (live ≫= forward_line real_stem) ∧
    (∃ before after, lib_rs files = before ++ [34] ++ (live ≫= forward_option real_stem) ++ [34] ++ after) ∧
    (∀ slot name address, NoDup (Z.to_nat <$> names.*1) → (slot, name) ∈ names →
      addresses !! Z.to_nat slot = Some address → address ≠ 0 → ∃ n, (Some name, n) ∈ live)).
Proof.
  intros Hb. split; [split; [intros [e He]; by eapply exports_there | intros (base & names & addresses & (e & He & _)%exports_read); [by exists e | done]] |].
  intros e base names addresses He (e' & He' & Hs)%exports_read files live; [| done]. rewrite He in He'. injection He' as <-.
  destruct (lines_forward real_stem (entries e)) as [H1 H2]. rewrite Hs in H1, H2. fold live in H1, H2.
  split; [unfold files; by rewrite generate_def, H1 |]. split.
  - unfold files. destruct (generate_lib e proxy_stem real_stem) as (before & after & E). exists before, after. by rewrite E, H2.
  - intros slot name address Hd Hin Ha Hne. pose proof (slots_live base names addresses _ _ Ha Hne) as H.
    rewrite (last_name_sole names slot name Hd Hin) in H. eauto.
Qed.

Module ProxyExamples.
Import PeExamples.

(** An image whose export table has these addresses, and these names for their slots. *)
Fixpoint name_rvas (at_ : Z) (names : list (Z * Chars)) : list Z :=
  match names with
  | [] => []
  | (_, name) :: names => at_ :: name_rvas (at_ + Z.of_nat (length name) + 1) names
  end.

Definition export_pe (addresses : list Z) (names : list (Z * Chars)) : list Z :=
  let n := Z.of_nat (length addresses) in
  let m := Z.of_nat (length names) in
  let functions := 0x1028 in
  let pointers := functions + 4 * n in
  let ordinals := pointers + 4 * m in
  let strings := ordinals + 2 * m in
  let table := (addresses ≫= le 4) ++ (name_rvas strings names ≫= le 4) ++ (names.*1 ≫= le 2) ++ (names ≫= λ x, x.2 ++ [0]) in
  let directory := replicate 16 0 ++ le 4 1 ++ le 4 n ++ le 4 m ++ le 4 functions ++ le 4 pointers ++ le 4 ordinals in
  put 0x104 (le 4 16) (put 0x108 (le 4 0x1000) (put 0x10C (le 4 0x300)
    (put 0x188 (chars ".rdata") (put 0x190 (le 4 0x400) (put 0x194 (le 4 0x1000) (put 0x198 (le 4 0x400) (put 0x19C (le 4 0x400)
      (put 0x400 (directory ++ table) (headers 1 ++ replicate 1024 0))))))))).

Definition alut : list Z := export_pe [0x9000; 0; 0x9010; 0x9020] [(0, chars "alutInit"); (2, chars "alutExit")].
Definition aliased : list Z := export_pe [0x9000] [(0, chars "glBlendEquation"); (0, chars "glBlendEquationEXT")].

Definition exports (image : list Z) : list Export := match parse_exports image with Ok e => entries e | Err _ => [] end.
End ProxyExamples.

Lemma proxy_forwards_witness :
  ∃ e base names addresses, parse_exports ProxyExamples.alut = Ok e ∧ export_table ProxyExamples.alut base names addresses ∧
    slots base names addresses = [(Some (chars "alutInit"), 1); (Some (chars "alutExit"), 3); (None, 4)] ∧
    def (generate e (chars "alut") (chars "alut_real")) = def_head (chars "alut_real") ++
      chars "    alutInit=alut_real.alutInit" ++ nl ++ chars "    alutExit=alut_real.alutExit" ++ nl ++
      chars "    proxy_ordinal_4=alut_real.#4 @4 NONAME" ++ nl.
Proof.
  assert (Hb : Forall is_byte ProxyExamples.alut) by (apply (bool_decide_unpack _); vm_compute; exact I).
  destruct (proxy_forwards ProxyExamples.alut (chars "alut") (chars "alut_real") Hb) as [Hiff H].
  destruct (parse_exports ProxyExamples.alut) as [e |] eqn:Ee; [| vm_compute in Ee; discriminate].
  destruct (proj1 Hiff (ex_intro _ e eq_refl)) as (base & names & addresses & Ht).
  exists e, base, names, addresses. split; [reflexivity |]. split; [exact Ht |].
  destruct (exports_read _ _ _ _ Hb Ht) as (e' & He' & Hs). rewrite Ee in He'. injection He' as <-.
  destruct (H e base names addresses eq_refl Ht) as (Hdef & _). rewrite Hdef, <- Hs.
  assert (Ev : slot_of <$> entries e = [(Some (chars "alutInit"), 1); (Some (chars "alutExit"), 3); (None, 4)]).
  { vm_compute in Ee. injection Ee as <-. vm_compute. reflexivity. }
  rewrite Ev. split; [reflexivity |]. vm_compute. reflexivity.
Defined.

(** Of two names for one function, which DLLs may have, the proxy forwards only the last. *)
Lemma alias_dropped :
  ProxyExamples.exports ProxyExamples.aliased = [MkExport (Some (chars "glBlendEquationEXT")) 1 false] ∧
  read_cstr ProxyExamples.aliased 0x438 = chars "glBlendEquation" ∧ read_cstr ProxyExamples.aliased 0x448 = chars "glBlendEquationEXT".
Proof. vm_compute. auto. Qed.
