(* ===== verification/ServerInv.v ===== *)
(** What holds of the server whatever its peers do: the invariant of [Server], that
    every step keeps it, and what follows for connections and rooms. *)
From S2P Require Import Prelude Proto Codec Limit Verdict Snapshots Ruleset Game Persist Room RoomInv Recover Server.
From S2P Require Admission.
Local Open Scope Z_scope.

(** * What a room answers *)

(** No connection sits in a player's seat. *)
Definition unlinked {R} (p : PlayerId) (r : Room R) : Prop := ∀ l, (p, Some l) ∉ seats r.

Lemma unlinked_absent {R} p (r : Room R) : p ∉ players r → unlinked p r.
Proof.
  intros Hp l (m & E & Hm)%list_elem_of_fmap. apply Hp, list_elem_of_fmap. exists m. split; [congruence | done].
Qed.

Lemma unlinked_steady {R} p (r r' : Room R) : steady [] r r' → unlinked p r → unlinked p r'.
Proof. intros (_ & _ & _ & Hs) Hu l [? | ?%not_elem_of_nil]%Hs; [by apply (Hu l) | done]. Qed.

Section answers.
Context {R : Type} {RS : Ruleset R} {P : Postcard TurnMessage} {PS : Postcard StartRecord}.
Context (hmac_verify : list Z → list Z → list Z → bool) (crc : list Z → Z).
Context (outcome : nat → SendOutcome) (disk : nat → WriteOutcome) (fresh : R).
Implicit Types r : Room R.

Lemma leave_unlinks r p k : NoDup (players r) → unlinked p (leave outcome r p k).1.
Proof.
  intros Hnd. destruct (position (λ m, player m =? p) (members r)) as [i |] eqn:Hi.
  - eapply unlinked_steady; [by apply leave_split |]. apply unlinked_absent.
    destruct (position_spec _ _ _ Hi) as (m & Hm & <-%Z.eqb_eq).
    unfold players. cbn. rewrite (delete_players _ _ _ Hnd Hm), list_elem_of_In, filter_In.
    intros [_ Hx%negb_true_iff]. lia.
  - unfold leave. rewrite Hi. by apply unlinked_absent, not_seated.
Qed.

Lemma in_lobby_absent r p : in_lobby r p = Err NotInRoom → p ∉ players r.
Proof.
  unfold in_lobby. destruct (phase r); [| done]. destruct (position _ _) eqn:E; [done |].
  intros _. by apply not_seated.
Qed.

Lemma kick_not_in_room r p t : (kick outcome r p t).2 ≠ Err NotInRoom.
Proof.
  unfold kick. destruct (negb _); [done |]. destruct (_ =? _); [done |].
  destruct (position _ _) as [i |] eqn:Hi; [| done].
  set (r1 := if _ <? _ then _ else push outcome r i Kicked).
  assert (players r1 = players r) as Ep.
  { transitivity (players (push outcome r i Kicked)); [by subst r1; destruct (_ <? _) |].
    apply (q_players _ _ (quiet_push outcome r i Kicked)). }
  unfold leave. destruct (position _ (members r1)) as [j |] eqn:Hj.
  - by destruct (position_spec _ _ _ Hj) as (m & -> & _).
  - exfalso. apply not_seated in Hj. rewrite Ep in Hj. apply Hj.
    destruct (position_spec _ _ _ Hi) as (m & Hm & <-%Z.eqb_eq).
    apply list_elem_of_fmap_2. by eapply list_elem_of_lookup_2.
Qed.

(** A room that says a player is not in it has no connection of the player. *)
Lemma asked_room_reply r now (c : Client) req history command :
  room_command c req history = Some command →
  let '(r', reply) := handle hmac_verify crc outcome disk r now command in
  ∃ result, reply = ReplyDone result ∧ (result = Err NotInRoom → unlinked (c_player c) r').
Proof.
  intros Hc. pose proof (steady_handle hmac_verify crc outcome disk r now command) as Hs.
  destruct (handle _ _ _ _ r now command) as [r' reply] eqn:E.
  assert (newcomers command reply = []) as Hn by (destruct req; cbn in Hc; by simplify_eq).
  rewrite Hn in Hs.
  assert (∃ result, reply = ReplyDone result ∧ (result = Err NotInRoom → c_player c ∉ players r)) as (res & -> & Hr).
  { destruct req; cbn in Hc; simplify_eq; cbn [handle] in E.
    - unfold set_ready in E. destruct (in_lobby r (c_player c)) eqn:El; cbn in E; injection E as _ <-; eexists;
        (split; [reflexivity |]); [done |]. intros [= ->]. by apply in_lobby_absent.
    - unfold declare_content in E. destruct (in_lobby r (c_player c)) eqn:El; cbn in E; injection E as _ <-; eexists;
        (split; [reflexivity |]); [done |]. intros [= ->]. by apply in_lobby_absent.
    - exists (start crc outcome disk r (c_player c) history now).2. unfold answer_and_broadcast in E. simplify_eq.
      split; [done |]. unfold start. repeat (case_match; try done).
    - exists (set_speed r (c_player c) speed).2. destruct (set_speed r (c_player c) speed) eqn:Es. simplify_eq.
      split; [done |]. unfold set_speed in Es. repeat (case_match; simplify_eq; try done).
    - exists (kick outcome r (c_player c) target).2. pose proof (kick_not_in_room r (c_player c) target).
      destruct (kick _ _ _ _). simplify_eq. split; [done |]. naive_solver.
    - exists (chat outcome r (c_player c) text now).2. destruct (chat _ _ _ _ _) eqn:Es. simplify_eq.
      split; [done |]. unfold chat in Es. destruct (position _ _) as [i |] eqn:Hi; [| intros; by apply not_seated].
      destruct (position_spec _ _ _ Hi) as (m & Hm & _). rewrite Hm in Es.
      destruct (TokenBucket_take _ _ _) as [b []]; by simplify_eq/=. }
  exists res. split; [done |]. intros Hres. by eapply unlinked_steady, unlinked_absent, Hr.
Qed.

Lemma asked_member_reply r now p :
  handle hmac_verify crc outcome disk r now (CmdIsMember p) =
    (r, ReplyDone (if existsb (λ m, player m =? p) (members r) then Ok tt else Err NotInRoom)) ∧
  (existsb (λ m, player m =? p) (members r) = false → unlinked p r).
Proof.
  split; [done |]. intros H. apply unlinked_absent. intros (m & -> & Hm)%list_elem_of_fmap.
  apply not_true_iff_false in H. apply H, existsb_exists. exists m. split; [by apply list_elem_of_In | lia].
Qed.
End answers.

(** * The invariant *)

(** The part of a server the invariant of sessions and rooms is about. *)
Record Core (R : Type) := MkCore {
  k_clients : gmap LinkId Client;
  k_tasks : gmap Handle (RoomTask R);
  k_rooms : gmap RoomId Handle;
  k_started : list (LinkId * (HandshakeId * Hello));
  k_next_link : LinkId;
  k_next_handle : Handle;
}.
Arguments MkCore {R}. Arguments k_clients {R}. Arguments k_tasks {R}. Arguments k_rooms {R}.
Arguments k_started {R}. Arguments k_next_link {R}. Arguments k_next_handle {R}.
#[export] Instance eta_Core {R} : Eta (Core R) := fun k =>
  MkCore (k_clients k) (k_tasks k) (k_rooms k) (k_started k) (k_next_link k) (k_next_handle k).

Definition core {R} (s : Server R) : Core R :=
  MkCore (s_clients s) (s_tasks s) (s_rooms s) (s_started s) (s_next_link s) (s_next_handle s).

(** The room a session waits for. *)
Definition asked (c : Client) : option Handle :=
  match c_waiting c with
  | Reading => None
  | AskedMember _ _ h | AskedJoin _ h | AskedLeave _ h | AskedRoom _ h => Some h
  end.

(** The command it waits for the answer of. *)
Definition asks_with (c : Client) (command : RoomCommand) : Prop :=
  match c_waiting c with
  | Reading => False
  | AskedMember _ _ _ => command = CmdIsMember (c_player c)
  | AskedJoin _ _ => ∃ token password resume content, command = CmdJoin (new_member c) token password resume content
  | AskedLeave _ _ => command = CmdLeave (c_player c)
  | AskedRoom _ _ => ∃ req history, room_command c req history = Some command
  end.

(** The result a session reads from an answer. *)
Definition result_of (reply : option Reply) : result unit RequestError :=
  match reply with Some (ReplyDone result) => result | _ => Err NotInRoom end.

(** The room a session may have a seat in: the one it is in; the one it joins, once it
    has the seat; the one it leaves, until it has left. *)
Definition may_sit (c : Client) : option Handle :=
  match c_waiting c, c_answer c with
  | AskedJoin _ h, Answered (Some (ReplyView (Ok _))) => Some h
  | AskedLeave _ h, Awaiting => Some h
  | AskedMember _ _ _, Answered reply => if is_ok (result_of reply) then c_room c else None
  | AskedRoom _ _, Answered reply => match result_of reply with Err NotInRoom => None | _ => c_room c end
  | AskedJoin _ _, _ | AskedLeave _ _, _ => None
  | _, _ => c_room c
  end.

Section invariant.
Context {R : Type} {RS : Ruleset R} {P : Postcard TurnMessage} {PS : Postcard StartRecord}.
Implicit Types (k : Core R) (t : RoomTask R) (c : Client).

(** A connection has a seat in a room; it waits in a room's queue; it began with a
    player's [Hello]. *)
Definition seated_at k (h : Handle) (l : LinkId) : Prop :=
  ∃ t p, k_tasks k !! h = Some t ∧ (p, Some l) ∈ seats (t_room t).
Definition queued k (h : Handle) (l : LinkId) (command : RoomCommand) : Prop :=
  ∃ t, k_tasks k !! h = Some t ∧ (command, Some l) ∈ t_queue t.
Definition began k (l : LinkId) (p : PlayerId) : Prop :=
  ∃ greeted, (l, greeted) ∈ k_started k ∧ identity greeted.2 = p.

Record client_ok k (l : LinkId) c : Prop := {
  co_link : c_link c = l;
  co_began : began k l (c_player c);
  co_seat : ∀ h, seated_at k h l → may_sit c = Some h;
  co_room : match c_waiting c with
            | AskedMember _ _ h | AskedRoom _ h => c_room c = Some h
            | AskedJoin _ _ | AskedLeave _ _ => c_room c = None
            | Reading => True
            end;
  co_waits : ∀ h, asked c = Some h → c_answer c = Awaiting → ∃ command, queued k h l command;
}.

Definition is_join (command : RoomCommand) : bool := match command with CmdJoin _ _ _ _ _ => true | _ => false end.

Record task_ok k (h : Handle) t : Prop := {
  to_handle : (h < k_next_handle k)%nat;
  to_room : ∃ fresh : R, room_ok fresh (t_room t);
  to_seats : ∀ p l, (p, Some l) ∈ seats (t_room t) → began k l p;
  to_queue : ∀ command l, (command, Some l) ∈ t_queue t →
    ∃ c, k_clients k !! l = Some c ∧ asked c = Some h ∧ c_answer c = Awaiting ∧ asks_with c command;
  to_notices : ∀ command, (command, None) ∈ t_queue t → is_join command = false;
  to_once : NoDup (omap snd (t_queue t));
}.

Record core_ok k : Prop := {
  ko_clients : ∀ l c, k_clients k !! l = Some c → client_ok k l c;
  ko_tasks : ∀ h t, k_tasks k !! h = Some t → task_ok k h t;
  ko_one : ∀ h1 h2 l, seated_at k h1 l → seated_at k h2 l → h1 = h2;
  ko_started : ∀ l greeted, (l, greeted) ∈ k_started k → l < k_next_link k;
  ko_once : NoDup (k_started k).*1;
  ko_rooms : ∀ id h, k_rooms k !! id = Some h → ∃ t, k_tasks k !! h = Some t ∧ room_id (t_room t) = id;
}.

(** ** What leaves a session or a room as it was *)
Lemma client_keeps k k' l c :
  client_ok k l c → k_started k ⊆ k_started k' →
  (∀ h, seated_at k' h l → seated_at k h l) →
  (∀ h command, queued k h l command → queued k' h l command) → client_ok k' l c.
Proof.
  intros [Hl Hb Hs Hr Hw] Hst Hseat Hq. split; [done | | | done |].
  - destruct Hb as (hello & ? & ?). exists hello. auto.
  - auto.
  - intros h Ha Hn. destruct (Hw h Ha Hn) as [command Hc]. eauto.
Qed.

Lemma task_keeps k k' h t :
  task_ok k h t → k_started k ⊆ k_started k' → (k_next_handle k <= k_next_handle k')%nat →
  (∀ command l, (command, Some l) ∈ t_queue t → k_clients k' !! l = k_clients k !! l) → task_ok k' h t.
Proof.
  intros [Hh Hr Hs Hq Hn Ho] Hst Hle Hc. split; [lia | done | | | done | done].
  - intros p l (hello & ? & ?)%Hs. exists hello. auto.
  - intros command l Hin. rewrite (Hc _ _ Hin). by apply Hq.
Qed.

Lemma began_unique k l p q : core_ok k → began k l p → began k l q → p = q.
Proof.
  intros [_ _ _ _ Hnd _] (h1 & H1 & <-) (h2 & H2 & <-). f_equal. f_equal.
  apply list_elem_of_lookup in H1 as [i1 H1]. apply list_elem_of_lookup in H2 as [i2 H2].
  assert (i1 = i2) as ->; [| congruence].
  eapply (NoDup_lookup _ _ _ l Hnd); rewrite list_lookup_fmap; [by rewrite H1 | by rewrite H2].
Qed.

(** A seat of a session is its player's. *)
Lemma seat_of k h t p l c :
  core_ok k → k_tasks k !! h = Some t → k_clients k !! l = Some c → (p, Some l) ∈ seats (t_room t) → p = c_player c.
Proof.
  intros Hk Ht Hc Hp. eapply (began_unique k l); [done | |].
  - by eapply (to_seats k h t (ko_tasks k Hk h t Ht)).
  - apply (co_began k l c (ko_clients k Hk l c Hc)).
Qed.

(** A session that waits for no answer is in no queue. *)
Lemma not_queued k l c h command :
  core_ok k → k_clients k !! l = Some c → asked c = None ∨ c_answer c ≠ Awaiting → ¬ queued k h l command.
Proof.
  intros Hk Hc Hn (t & Ht & Hq). destruct (to_queue k h t (ko_tasks k Hk h t Ht) _ _ Hq) as (c' & ? & ? & ? & _).
  naive_solver congruence.
Qed.

Lemma seated_task k h t' h2 l :
  seated_at (k <| k_tasks := <[h := t']> (k_tasks k) |>) h2 l →
  (h2 = h ∧ ∃ p, (p, Some l) ∈ seats (t_room t')) ∨ (h2 ≠ h ∧ seated_at k h2 l).
Proof.
  intros (t & p & Ht & Hp). cbn in Ht. destruct (Nat.eq_dec h2 h) as [-> | Hne].
  - rewrite lookup_insert_eq in Ht. simplify_eq. eauto.
  - rewrite lookup_insert_ne in Ht by done. right. split; [done |]. by exists t, p.
Qed.

(** ** Steps of the core *)

(** One room moves, and with it at most one session. *)
Lemma ok_task_step k clients h t t' (who : option LinkId) :
  core_ok k → k_tasks k !! h = Some t → room_id (t_room t') = room_id (t_room t) →
  let k' := k <| k_clients := clients |> <| k_tasks := <[h := t']> (k_tasks k) |> in
  task_ok k' h t' →
  (∀ l, who ≠ Some l → clients !! l = k_clients k !! l) →
  (∀ l c, who = Some l → clients !! l = Some c → client_ok k' l c) →
  (∀ l h2 command, who = Some l → queued k h2 l command → h2 = h) →
  (∀ p l, (p, Some l) ∈ seats (t_room t') →
    (∃ q, (q, Some l) ∈ seats (t_room t)) ∨ (who = Some l ∧ ∀ h2, ¬ seated_at k h2 l)) →
  (∀ command l, who ≠ Some l → (command, Some l) ∈ t_queue t → (command, Some l) ∈ t_queue t') →
  core_ok k'.
Proof.
  intros Hk Ht Hid k' Ht' Hsame Hwho Hq Hs Hkeep.
  assert (∀ h2 l, seated_at k' h2 l → seated_at k h2 l ∨ (who = Some l ∧ h2 = h ∧ ∀ h3, ¬ seated_at k h3 l)) as Hseat.
  { intros h2 l H. destruct (seated_task (k <| k_clients := clients |>) h t' h2 l H) as [[-> [p Hp]] | [_ ?]]; [| by left].
    destruct (Hs p l Hp) as [[q ?] | [? ?]]; [left; by exists t, q | by right]. }
  split.
  - intros l c Hc. destruct (base.decide (who = Some l)) as [Hl | Hl]; [by apply Hwho |]. cbn in Hc.
    rewrite Hsame in Hc by done. eapply client_keeps; [by apply (ko_clients k Hk) | done | |].
    + intros h2 [? | [? _]]%Hseat; done.
    + intros h2 command (t2 & H2 & Hin). unfold queued. cbn. destruct (Nat.eq_dec h2 h) as [-> | Hne].
      * simplify_eq. exists t'. rewrite lookup_insert_eq. split; [done | by apply Hkeep].
      * exists t2. by rewrite lookup_insert_ne.
  - intros h2 t2 H2. cbn in H2. destruct (Nat.eq_dec h2 h) as [-> | Hne].
    + rewrite lookup_insert_eq in H2. by simplify_eq.
    + rewrite lookup_insert_ne in H2 by done.
      eapply task_keeps; [by apply (ko_tasks k Hk) | done | done |].
      intros command l Hin. apply Hsame. intros ->. apply Hne, (Hq l h2 command); [done |]. by exists t2.
  - intros h1 h2 l [H1 | (? & -> & H1)]%Hseat [H2 | (? & -> & H2)]%Hseat.
    + by eapply (ko_one k Hk).
    + by apply H2 in H1.
    + by apply H1 in H2.
    + done.
  - apply Hk.
  - apply Hk.
  - intros id h2 H2. destruct (ko_rooms k Hk id h2 H2) as (t2 & Ht2 & Hi2). cbn.
    destruct (Nat.eq_dec h2 h) as [-> | Hne].
    + exists t'. rewrite lookup_insert_eq. split; [done | congruence].
    + exists t2. by rewrite lookup_insert_ne.
Qed.

(** A session moves on by itself: it waits for no answer. *)
Lemma ok_client k l c c' :
  core_ok k → k_clients k !! l = Some c → (∀ h command, ¬ queued k h l command) →
  c_link c' = l → c_player c' = c_player c →
  client_ok (k <| k_clients := <[l := c']> (k_clients k) |>) l c' →
  core_ok (k <| k_clients := <[l := c']> (k_clients k) |>).
Proof.
  intros Hk Hc Hnq Hl Hp Hok. split; try apply Hk.
  - intros l2 c2 H2. cbn in H2. destruct (Z.eq_dec l2 l) as [-> | Hne].
    + rewrite lookup_insert_eq in H2. by simplify_eq.
    + rewrite lookup_insert_ne in H2 by done. by eapply client_keeps; [apply (ko_clients k Hk) | ..].
  - intros h t Ht. eapply task_keeps; [by apply (ko_tasks k Hk) | done | done |].
    intros command l2 Hin. cbn. rewrite lookup_insert_ne; [done |]. intros <-. apply (Hnq h command). by exists t.
Qed.

(** A session that reads its next message. *)
Lemma ok_reading k l c c' :
  core_ok k → k_clients k !! l = Some c → asked c = None ∨ c_answer c ≠ Awaiting →
  c_link c' = l → c_player c' = c_player c → c_waiting c' = Reading → c_room c' = may_sit c →
  core_ok (k <| k_clients := <[l := c']> (k_clients k) |>).
Proof.
  intros Hk Hc Ha Hl Hp Hw Hr. pose proof (ko_clients k Hk l c Hc) as Hok.
  eapply ok_client; [done | done | intros h command; by eapply not_queued | done | done |].
  split; [done | rewrite Hp; apply Hok | | by rewrite Hw | unfold asked; by rewrite Hw].
  intros h H. unfold may_sit. rewrite Hw, Hr. by apply Hok.
Qed.

(** A room's queue takes a notice. *)
Lemma ok_notice k h t command :
  core_ok k → k_tasks k !! h = Some t → is_join command = false →
  core_ok (k <| k_tasks := <[h := t <| t_queue := t_queue t ++ [(command, None)] |>]> (k_tasks k) |>).
Proof.
  intros Hk Ht Hj. destruct (ko_tasks k Hk h t Ht) as [Hh Hr Hs Hq Hn Ho].
  apply (ok_task_step k (k_clients k) h t _ None); [done | done | done | | done | done | done | | ].
  - split; [done | done | done | | |]; cbn [t_queue update_field].
    + intros cmd l [H | H%list_elem_of_singleton]%elem_of_app; [by apply Hq | done].
    + intros cmd [H | H%list_elem_of_singleton]%elem_of_app; [by apply Hn | congruence].
    + change (NoDup (omap snd (t_queue t ++ [(command, None)]))). rewrite omap_app. cbn. by rewrite app_nil_r.
  - intros p l Hp. left. by exists p.
  - intros cmd l _ H. cbn. apply elem_of_app. by left.
Qed.

(** A room's queue takes a session's command, and the session waits for the answer. *)
Lemma ok_ask k h t l c c' command :
  core_ok k → k_clients k !! l = Some c → asked c = None ∨ c_answer c ≠ Awaiting → k_tasks k !! h = Some t →
  c_link c' = l → c_player c' = c_player c → asked c' = Some h → c_answer c' = Awaiting → asks_with c' command →
  match c_waiting c' with
  | AskedMember _ _ h | AskedRoom _ h => c_room c' = Some h
  | AskedJoin _ _ | AskedLeave _ _ => c_room c' = None
  | Reading => True
  end →
  may_sit c' = may_sit c →
  core_ok (k <| k_clients := <[l := c']> (k_clients k) |>
             <| k_tasks := <[h := t <| t_queue := t_queue t ++ [(command, Some l)] |>]> (k_tasks k) |>).
Proof.
  intros Hk Hc Hidle Ht Hl Hp Ha Hw Hwith Hroom Hsit.
  destruct (ko_tasks k Hk h t Ht) as [Hh Hr Hs Hq Hn Ho].
  assert (∀ h cmd, ¬ queued k h l cmd) as Hnq by (intros; by eapply not_queued).
  apply (ok_task_step k _ h t _ (Some l)); [done | done | done | | | | | |].
  - split; [done | done | done | | |]; cbn [t_queue update_field].
    + intros cmd l2 [H | H%list_elem_of_singleton]%elem_of_app; cbn.
      * rewrite lookup_insert_ne; [by apply Hq |]. intros <-. apply (Hnq h cmd). by exists t.
      * simplify_eq. exists c'. by rewrite lookup_insert_eq.
    + intros cmd [H | H%list_elem_of_singleton]%elem_of_app; [by apply Hn | congruence].
    + change (NoDup (omap snd (t_queue t ++ [(command, Some l)]))). rewrite omap_app. cbn. apply NoDup_app.
      split; [done |]. split; [| apply NoDup_singleton].
      intros l2 ([cmd x] & H & E)%list_elem_of_omap ->%list_elem_of_singleton. cbn in E. subst x.
      apply (Hnq h cmd). by exists t.
  - intros l2 Hne. rewrite lookup_insert_ne; [done |]. congruence.
  - intros l2 c2 [= <-] H2. rewrite lookup_insert_eq in H2. simplify_eq. pose proof (ko_clients k Hk _ c Hc) as Hok.
    split; [done | rewrite Hp; apply Hok | | done |].
    + intros h2 H2. rewrite Hsit. apply Hok.
      destruct (seated_task (k <| k_clients := <[c_link c2 := c2]> (k_clients k) |>) _ _ _ _ H2) as [[-> [p Hp2]] | [_ ?]]; [| done].
      by exists t, p.
    + intros h2 Ha2 _. assert (h2 = h) as -> by congruence. exists command, (t <| t_queue := t_queue t ++ [(command, Some (c_link c2))] |>).
      cbn. rewrite lookup_insert_eq. split; [done |]. apply elem_of_app. right. by apply list_elem_of_singleton.
  - intros l2 h2 cmd [= <-] H2. by apply Hnq in H2.
  - intros p l2 Hp2. left. by exists p.
  - intros cmd l2 _ H. cbn. apply elem_of_app. by left.
Qed.

(** A room opens, with nobody at its table but perhaps the session that opened it. *)
Lemma ok_new_task k clients r share (fresh : R) (who : option LinkId) :
  let h := k_next_handle k in
  let k' := k <| k_clients := clients |> <| k_tasks := <[h := MkRoomTask r [] share]> (k_tasks k) |>
              <| k_rooms := <[room_id r := h]> (k_rooms k) |> <| k_next_handle := S h |> in
  core_ok k → room_ok fresh r →
  (∀ l, who ≠ Some l → clients !! l = k_clients k !! l) →
  (∀ l c, who = Some l → clients !! l = Some c → client_ok k' l c) →
  (∀ l h2 command, who = Some l → ¬ queued k h2 l command) →
  (∀ p l, (p, Some l) ∈ seats r → who = Some l ∧ began k l p ∧ ∀ h2, ¬ seated_at k h2 l) →
  core_ok k'.
Proof.
  intros h k' Hk Hr Hsame Hwho Hnq Hs.
  assert (k_tasks k !! h = None) as Hfree.
  { destruct (k_tasks k !! h) as [t |] eqn:E; [| done]. pose proof (to_handle k h t (ko_tasks k Hk h t E)). subst h. lia. }
  assert (∀ h2 t2, h2 ≠ h → k_tasks k' !! h2 = Some t2 → k_tasks k !! h2 = Some t2) as Hold.
  { intros h2 t2 Hne H. cbn in H. by rewrite lookup_insert_ne in H. }
  assert (∀ h2 t2, k_tasks k !! h2 = Some t2 → k_tasks k' !! h2 = Some t2) as Hkept.
  { intros h2 t2 H. cbn. rewrite lookup_insert_ne; [done | congruence]. }
  assert (∀ h2 l, seated_at k' h2 l → seated_at k h2 l ∨ (who = Some l ∧ h2 = h ∧ ∀ h3, ¬ seated_at k h3 l)) as Hseat.
  { intros h2 l (t2 & p & Ht & Hp). destruct (Nat.eq_dec h2 h) as [-> | Hne]; [| left; exists t2, p; auto].
    cbn in Ht. rewrite lookup_insert_eq in Ht. simplify_eq. right. destruct (Hs p l Hp) as (? & _ & ?). auto. }
  split.
  - intros l c Hc. destruct (base.decide (who = Some l)) as [Hl | Hl]; [by apply Hwho |]. cbn in Hc.
    rewrite Hsame in Hc by done. eapply client_keeps; [by apply (ko_clients k Hk) | done | |].
    + intros h2 [? | [? _]]%Hseat; done.
    + intros h2 command (t2 & ? & ?). exists t2. auto.
  - intros h2 t2 H2. destruct (Nat.eq_dec h2 h) as [-> | Hne].
    + cbn in H2. rewrite lookup_insert_eq in H2. simplify_eq.
      split; cbn; [lia | by exists fresh | | by intros ?? ?%not_elem_of_nil | by intros ? ?%not_elem_of_nil | constructor].
      intros p l Hp. by destruct (Hs p l Hp) as (_ & ? & _).
    + apply Hold in H2; [| done]. eapply task_keeps; [by apply (ko_tasks k Hk) | done | cbn; lia |].
      intros command l Hin. apply Hsame. intros ->. apply (Hnq l h2 command); [done |]. by exists t2.
  - intros h1 h2 l [H1 | (? & -> & H1)]%Hseat [H2 | (? & -> & H2)]%Hseat;
      [by eapply (ko_one k Hk) | by apply H2 in H1 | by apply H1 in H2 | done].
  - apply Hk.
  - apply Hk.
  - intros id h2 H2. cbn in H2. destruct (Z.eq_dec id (room_id r)) as [-> | Hne].
    + rewrite lookup_insert_eq in H2. simplify_eq. eexists. cbn. by rewrite lookup_insert_eq.
    + rewrite lookup_insert_ne in H2 by done. destruct (ko_rooms k Hk id h2 H2) as (t2 & ? & ?). exists t2. auto.
Qed.

(** A room steps by itself: nobody new sits down. *)
Lemma ok_room k h t r' (fresh : R) :
  core_ok k → k_tasks k !! h = Some t → steady [] (t_room t) r' → room_ok fresh r' →
  core_ok (k <| k_tasks := <[h := t <| t_room := r' |>]> (k_tasks k) |>).
Proof.
  intros Hk Ht Hs Hr. destruct (ko_tasks k Hk h t Ht) as [Hh _ Hst Hq Hn Ho].
  assert (∀ p l, (p, Some l) ∈ seats r' → (p, Some l) ∈ seats (t_room t)) as Hseat.
  { intros p l H. destruct Hs as (_ & _ & _ & Hs). destruct (Hs p l H) as [? | ?%not_elem_of_nil]; done. }
  apply (ok_task_step k (k_clients k) h t _ None); [done | done | apply Hs | | done | done | done | | done].
  - split; [done | by exists fresh | | done | done | done]. intros p l H. by apply Hst, Hseat.
  - intros p l H. left. exists p. by apply Hseat.
Qed.
End invariant.

(** * The steps of the server *)
Section steps.
Context {R : Type} {RS : Ruleset R} {P : Postcard TurnMessage} {PS : Postcard StartRecord}.
Context (verify_proof : HandshakeId → PlayerId → Z → bool).
Context (hmac_sign : list Z → list Z → list Z) (hmac_verify : list Z → list Z → list Z → bool).
Context (crc : list Z → Z).
Context (outcome : Handle → nat → SendOutcome) (disk : Handle → nat → WriteOutcome).
Context (config : ServerConfig R).
Implicit Types (s : Server R) (t : RoomTask R) (c : Client).

(** What the answer to a session's command says about its seat. *)
Lemma answer_seat k h t c l now command r' reply :
  core_ok k → k_tasks k !! h = Some t → k_clients k !! l = Some c → closed (t_room t) = false →
  asked c = Some h → c_answer c = Awaiting → asks_with c command →
  handle hmac_verify crc (outcome h) (disk h) (t_room t) now command = (r', reply) →
  (∀ h2, h2 ≠ h → ¬ seated_at k h2 l) ∧
  ((∃ p, (p, Some l) ∈ seats r') → may_sit (c <| c_answer := Answered (Some reply) |>) = Some h).
Proof.
  intros Hk Ht Hc Hopen Ha Hw Hwith E. destruct (ko_clients k Hk l c Hc) as [_ Hb Hseat Hroom _].
  pose proof (steady_handle hmac_verify crc (outcome h) (disk h) (t_room t) now command) as Hs. rewrite E in Hs.
  destruct Hs as (_ & _ & _ & Hs).
  destruct (ko_tasks k Hk h t Ht) as [_ [fresh Hok] _ _ _ _].
  assert (newcomers command reply = [] → unlinked (c_player c) r' → ¬ ∃ p, (p, Some l) ∈ seats r') as Hgone.
  { intros Hn Hu [p Hp]. rewrite Hn in Hs. destruct (Hs p l Hp) as [H | ?%not_elem_of_nil]; [| done].
    assert (p = c_player c) as -> by (by eapply seat_of). by apply (Hu l). }
  assert (∀ h2, seated_at k h2 l → h2 = h) as Honly.
  { intros h2 H%Hseat. unfold may_sit in H. rewrite Hw in H. unfold asked in Ha. destruct (c_waiting c); congruence. }
  split; [intros h2 Hne H; by apply Hne, Honly |].
  clear Honly. unfold may_sit, asked, asks_with in *. destruct (c_waiting c) as [| id req h0 | id h0 | id h0 | id h0] eqn:Ec; simplify_eq;
    cbn [c_waiting c_answer c_room update_field]; cbn; rewrite Ec.
  - destruct (asked_member_reply hmac_verify crc (outcome h) (disk h) (t_room t) now (c_player c)) as [E' Hu].
    rewrite E' in E. injection E as <- <-. destruct (existsb _ _); cbn; [done |].
    intros H. exfalso. by apply Hgone; [| apply Hu |].
  - destruct Hwith as (tok & pw & res & ct & ->). cbn [handle] in E. destruct (join _ _ _ _ _ _ _ _ _) as [r1 [v | e]].
    + by simplify_eq/=.
    + simplify_eq/=. intros [p Hp]. exfalso. destruct (Hs p l Hp) as [H | ?%not_elem_of_nil]; [| done].
      assert (seated_at k h l) as H2 by (by exists t, p). apply Hseat in H2. by rewrite Hw in H2.
  - intros H. exfalso. cbn [handle] in E. apply Hgone; [done | | done].
    pose proof (leave_unlinks (outcome h) (t_room t) (c_player c) false) as Hu.
    destruct (leave _ _ _ _) as [r1 res]. simplify_eq. apply Hu.
    destruct Hok as [? | [[Hnd _ _] _]]; [congruence | done].
  - destruct Hwith as (req & hist & Hreq).
    pose proof (asked_room_reply hmac_verify crc (outcome h) (disk h) (t_room t) now c req hist command Hreq) as H.
    rewrite E in H. destruct H as (res & -> & Hu). cbn.
    destruct res as [u | []]; try done. intros H. exfalso. apply Hgone; [| by apply Hu | done].
    by destruct command.
Qed.

Lemma omap_snd_cons (e : RoomCommand * option LinkId) q :
  NoDup (omap snd (e :: q)) → NoDup (omap snd q) ∧ ∀ l command, e.2 = Some l → (command, Some l) ∉ q.
Proof.
  destruct e as [cmd [l |]]; cbn; [| by split]. intros [Hn Hnd]%NoDup_cons. split; [done |].
  intros l2 command [= <-] H. apply Hn, list_elem_of_omap. by exists (command, Some l).
Qed.

(** A room handles a notice. *)
Lemma core_takes_notice k h t now command rest :
  core_ok k → k_tasks k !! h = Some t → closed (t_room t) = false → t_queue t = (command, None) :: rest →
  core_ok (k <| k_tasks := <[h := t <| t_room := (handle hmac_verify crc (outcome h) (disk h) (t_room t) now command).1 |>
                                     <| t_queue := rest |>]> (k_tasks k) |>).
Proof.
  intros Hk Ht Hopen Hqueue. destruct (ko_tasks k Hk h t Ht) as [Hh [fresh Hok] Hst Hq Hn Ho].
  rewrite Hqueue in Hq, Hn, Ho. apply omap_snd_cons in Ho as [Ho _].
  pose proof (steady_handle hmac_verify crc (outcome h) (disk h) (t_room t) now command) as Hs.
  pose proof (handle_ok hmac_verify crc (outcome h) (disk h) fresh (t_room t) now command Hok Hopen) as Hok'.
  destruct (handle _ _ _ _ _ _ _) as [r' reply]. cbn [fst] in *.
  assert (newcomers command reply = []) as Hnew.
  { specialize (Hn command ltac:(left)). by destruct command. }
  rewrite Hnew in Hs.
  assert (∀ p l, (p, Some l) ∈ seats r' → (p, Some l) ∈ seats (t_room t)) as Hseat.
  { intros p l H. destruct Hs as (_ & _ & _ & Hs). destruct (Hs p l H) as [? | ?%not_elem_of_nil]; done. }
  apply (ok_task_step k (k_clients k) h t _ None); [done | done | apply Hs | | done | done | done | |].
  - split; cbn; [done | by exists fresh | | | | done].
    + intros p l H. by apply Hst, Hseat.
    + intros cmd l H. apply Hq. by right.
    + intros cmd H. apply Hn. by right.
  - intros p l H. left. exists p. by apply Hseat.
  - intros cmd l _. rewrite Hqueue. cbn. intros [? | ?]%elem_of_cons; [congruence | done].
Qed.

(** A room handles a session's command, and the session has its answer. *)
Lemma core_takes_asked k h t now command l rest :
  core_ok k → k_tasks k !! h = Some t → closed (t_room t) = false → t_queue t = (command, Some l) :: rest →
  let '(r', reply) := handle hmac_verify crc (outcome h) (disk h) (t_room t) now command in
  ∃ c, k_clients k !! l = Some c ∧ c_link c = l ∧
  core_ok (k <| k_clients := <[l := c <| c_answer := Answered (Some reply) |>]> (k_clients k) |>
             <| k_tasks := <[h := t <| t_room := r' |> <| t_queue := rest |>]> (k_tasks k) |>).
Proof.
  intros Hk Ht Hopen Hqueue. destruct (ko_tasks k Hk h t Ht) as [Hh [fresh Hok] Hst Hq Hn Ho].
  rewrite Hqueue in Hq, Hn, Ho. apply omap_snd_cons in Ho as [Ho Hlast]. cbn in Hlast.
  destruct (Hq command l ltac:(left)) as (c & Hc & Ha & Hw & Hwith).
  pose proof (handle_ok hmac_verify crc (outcome h) (disk h) fresh (t_room t) now command Hok Hopen) as Hok'.
  pose proof (steady_handle hmac_verify crc (outcome h) (disk h) (t_room t) now command) as Hs.
  destruct (handle _ _ _ _ _ _ _) as [r' reply] eqn:E. cbn [fst] in *.
  destruct (answer_seat k h t c l now command r' reply) as [Helse Hhere]; try done.
  destruct (ko_clients k Hk l c Hc) as [Hl Hb Hseat Hroom _].
  assert (∀ p l2, (p, Some l2) ∈ seats r' →
    (p, Some l2) ∈ seats (t_room t) ∨ (l2 = l ∧ p = c_player c ∧ ∀ h2, ¬ seated_at k h2 l)) as Hseats.
  { intros p l2 H. destruct Hs as (_ & _ & _ & Hs). destruct (Hs p l2 H) as [? | Hnew]; [by left |]. right.
    unfold newcomers in Hnew. destruct command; try by apply not_elem_of_nil in Hnew.
    destruct reply as [| | [v | e] | |]; try by apply not_elem_of_nil in Hnew.
    apply list_elem_of_singleton in Hnew. unfold asks_with in Hwith.
    destruct (c_waiting c) eqn:Ec; try discriminate; [done | |].
    - destruct Hwith as (tok & pw & res & ct & [= -> _ _ _ _]). simplify_eq/=. split; [done |]. split; [done |].
      intros h2 H2%Hseat. unfold may_sit in H2. by rewrite Ec, Hw in H2.
    - destruct Hwith as (req & hist & Hreq). by destruct req. }
  exists c. split; [done |]. split; [done |].
  apply (ok_task_step k _ h t _ (Some l)); [done | done | apply Hs | | | | | |].
  - split; cbn; [done | by exists fresh | | | | done].
    + intros p l2 [H | (-> & -> & _)]%Hseats; [by apply Hst | done].
    + intros cmd l2 H. rewrite lookup_insert_ne by (intros <-; by apply (Hlast l cmd)). apply Hq. by right.
    + intros cmd H. apply Hn. by right.
  - intros l2 Hne. rewrite lookup_insert_ne; [done | congruence].
  - intros l2 c2 [= <-] H2. rewrite lookup_insert_eq in H2. simplify_eq. split; [done | done | | done | done].
    intros h2 H2. destruct (seated_task (k <| k_clients := _ |>) _ _ _ _ H2) as [[-> H] | [Hne H]]; [by apply Hhere |].
    by apply Helse in H.
  - intros l2 h2 cmd [= <-] (t2 & H2 & Hin).
    destruct (to_queue k h2 t2 (ko_tasks k Hk h2 t2 H2) _ _ Hin) as (c2 & ? & ? & _). congruence.
  - intros p l2 [H | (-> & _ & H)]%Hseats; [left; by exists p | by right].
  - intros cmd l2 Hne. rewrite Hqueue. cbn. intros [? | ?]%elem_of_cons; [congruence | done].
Qed.

Lemma core_takes s h t now :
  core_ok (core s) → s_tasks s !! h = Some t → closed (t_room t) = false →
  core_ok (core (room_takes hmac_verify crc outcome disk s h t now)).
Proof.
  intros Hk Ht Hopen. unfold room_takes. destruct (t_queue t) as [| [command asker] rest] eqn:Hq; [done |].
  destruct asker as [l |].
  - pose proof (core_takes_asked (core s) h t now command l rest Hk Ht Hopen Hq) as H.
    destruct (handle _ _ _ _ _ _ _) as [r' reply]. destruct H as (c & Hc & Hl & H). cbn in Hc.
    unfold deliver. cbn. rewrite Hc. subst l. exact H.
  - pose proof (core_takes_notice (core s) h t now command rest Hk Ht Hopen Hq) as H.
    by destruct (handle _ _ _ _ _ _ _) as [r' reply].
Qed.

(** ** Sessions *)

(** A session that waits for no answer. *)
Definition idle (c : Client) : Prop := asked c = None ∨ c_answer c ≠ Awaiting.

(** The server is sound with this in the place of the session. *)
Definition settled s c : Prop := core_ok (core (put_client s c)).

Lemma settled_stored s l c :
  core_ok (core s) → s_clients s !! l = Some c → settled s c ∧ c_link c = l.
Proof.
  intros Hk Hc. assert (c_link c = l) as Hl by apply (co_link _ _ _ (ko_clients _ Hk l c Hc)). split; [| done].
  unfold settled, core, put_client. cbn. rewrite insert_id; [done | by rewrite Hl].
Qed.

Lemma settled_notify s c h command :
  settled s c → is_join command = false → settled (notify s h command).1 c.
Proof.
  intros Hk Hj. unfold notify. destruct (s_tasks s !! h) as [t |] eqn:Ht; [| done].
  destruct (_ <? _)%nat; [| done]. exact (ok_notice (core (put_client s c)) h t command Hk Ht Hj).
Qed.

Lemma settled_update s c c' :
  settled s c → idle c → c_link c' = c_link c → c_player c' = c_player c → c_waiting c' = Reading →
  c_room c' = may_sit c → settled s c'.
Proof.
  intros Hk Hi Hl Hp Hw Hr. unfold settled, core, put_client. cbn. rewrite Hl.
  rewrite <- (insert_insert_eq (s_clients s) (c_link c) c' c).
  eapply (ok_reading (core (put_client s c)) (c_link c) c c'); [done | | done | done | done | done | done].
  apply lookup_insert_eq.
Qed.

(** It ends. *)
Lemma core_end s c c1 code :
  settled s c1 → idle c1 → c_link c = c_link c1 → core_ok (core (end_session s c code)).
Proof.
  intros Hk Hi Hl. unfold end_session.
  set (s0 := match code with Some _ => _ | None => s end).
  assert (settled s0 c1) as H0 by (by subst s0; destruct code).
  set (s1 := match c_room c with Some h => _ | None => s0 end).
  assert (settled s1 c1) as H1 by (subst s1; destruct (c_room c); [by apply settled_notify | done]).
  clearbody s1. rewrite Hl. unfold core. cbn. rewrite <- (delete_insert_eq (s_clients s1) (c_link c1) c1).
  set (k := core (put_client s1 c1)).
  assert (∀ h command, ¬ queued k h (c_link c1) command) as Hnq.
  { intros h command. eapply not_queued; [exact H1 | apply lookup_insert_eq | exact Hi]. }
  split; try apply H1.
  - intros l2 c2 H2. cbn in H2. apply lookup_delete_Some in H2 as [_ H2].
    by eapply client_keeps; [apply (ko_clients k H1) | ..].
  - intros h t Ht. eapply task_keeps; [by apply (ko_tasks k H1) | done | done |].
    intros command l2 Hin. cbn. apply lookup_delete_ne. intros <-. apply (Hnq h command). by exists t.
Qed.

Lemma core_respond s c c1 id res sent now :
  settled s c1 → idle c1 → c_link c = c_link c1 → c_player c = c_player c1 → c_room c = may_sit c1 →
  core_ok (core (respond s c id res sent now)).
Proof.
  intros Hk Hi Hl Hp Hr. unfold respond. destruct sent; [| by eapply core_end].
  assert (settled (say s (ToClient (c_link c) (ResponseTo id res))) (next_message c now)) as H; [| done].
  by eapply (settled_update _ c1).
Qed.

(** It asks its room. *)
Lemma core_ask s c c1 h command w :
  let c' := c <| c_waiting := w |> <| c_answer := Awaiting |> in
  settled s c1 → idle c1 → c_link c = c_link c1 → c_player c = c_player c1 →
  asked c' = Some h → asks_with c' command → may_sit c' = may_sit c1 →
  match w with
  | AskedMember _ _ h | AskedRoom _ h => c_room c = Some h
  | AskedJoin _ _ | AskedLeave _ _ => c_room c = None
  | Reading => True
  end → core_ok (core (ask s c h command w)).
Proof.
  intros c' Hk Hi Hl Hp Ha Hwith Hsit Hroom. set (k := core (put_client s c1)).
  assert (k_clients k !! c_link c1 = Some c1) as Hc by apply lookup_insert_eq.
  unfold ask, queue. destruct (s_tasks s !! h) as [t |] eqn:Ht.
  - pose proof (ok_ask k h t (c_link c1) c1 c' command Hk Hc Hi Ht Hl Hp Ha eq_refl Hwith Hroom Hsit) as H.
    unfold k in H. cbn in H. rewrite insert_insert_eq, <- Hl in H. exact H.
  - set (c2 := c <| c_waiting := w |> <| c_answer := Answered None |>).
    change (core_ok ((core s) <| k_clients := <[c_link c := c2]> (s_clients s) |>)).
    rewrite Hl, <- (insert_insert_eq _ (c_link c1) c2 c1).
    eapply (ok_client k (c_link c1) c1 c2); [done | done | | done | done |].
    { intros h2 cmd. by eapply not_queued. }
    split; [done | change (began k (c_link c1) (c_player c)); rewrite Hp; apply (ko_clients k Hk _ _ Hc) | | done | done].
    intros h2 H2. exfalso. assert (may_sit c' = Some h2) as E.
    { rewrite Hsit. by apply (ko_clients k Hk _ _ Hc). }
    destruct H2 as (t2 & p & H2 & _). cbn in H2.
    assert (h2 = h) as ->; [| congruence].
    subst c'. unfold may_sit in E. unfold asked in Ha. cbn in E, Ha. destruct w; congruence.
Qed.

(** It enters a room. *)
Lemma core_created s c c1 r share (fresh : R) :
  let h := s_next_handle s in
  settled s c1 → idle c1 → c_link c = c_link c1 → c_player c = c_player c1 → may_sit c1 = None →
  c_waiting c = Reading → c_room c = Some h → room_ok fresh r → seats r = [(c_player c, Some (c_link c))] →
  settled (s <| s_tasks := <[h := MkRoomTask r [] share]> (s_tasks s) |>
             <| s_rooms := <[room_id r := h]> (s_rooms s) |> <| s_next_handle := S h |>) c.
Proof.
  intros h Hk Hi Hl Hp Hsit Hw Hroom Hr Hs. set (k := core (put_client s c1)).
  assert (k_clients k !! c_link c1 = Some c1) as Hc by apply lookup_insert_eq.
  assert (∀ h2, ¬ seated_at k h2 (c_link c1)) as Hnone.
  { intros h2 H%(co_seat k _ _ (ko_clients k Hk _ _ Hc)). congruence. }
  unfold settled, core, put_client. cbn. rewrite Hl, <- (insert_insert_eq (s_clients s) (c_link c1) c c1).
  refine (ok_new_task k (<[c_link c1 := c]> (k_clients k)) r share fresh (Some (c_link c1)) Hk Hr _ _ _ _).
  - intros l Hne. rewrite lookup_insert_ne; [done | congruence].
  - intros l c2 [= <-] H2. rewrite lookup_insert_eq in H2. simplify_eq.
    split; [done | rewrite Hp; apply (co_began k _ _ (ko_clients k Hk _ _ Hc)) | | by rewrite Hw | unfold asked; by rewrite Hw].
    intros h2 (t2 & p & Ht & Hp2). cbn in Ht. unfold may_sit. rewrite Hw, Hroom.
    destruct (Nat.eq_dec h2 h) as [-> | Hne]; [done |]. rewrite lookup_insert_ne in Ht by done.
    exfalso. apply (Hnone h2). by exists t2, p.
  - intros l h2 command [= <-]. by eapply not_queued.
  - intros p l H. rewrite Hs in H. apply list_elem_of_singleton in H. simplify_eq. rewrite Hl, Hp. split; [done |].
    split; [apply (co_began k _ _ (ko_clients k Hk _ _ Hc)) | done].
Qed.

Definition stored s c : Prop := core_ok (core s) ∧ s_clients s !! c_link c = Some c.

Lemma stored_settled s c : stored s c → settled s c.
Proof. intros [Hk Hc]. by destruct (settled_stored s _ c Hk Hc). Qed.

Lemma core_create_room s c c1 id req draw sent now :
  stored s c1 → idle c1 → c_link c = c_link c1 → c_player c = c_player c1 → may_sit c1 = None → c_room c = None →
  core_ok (core (create_room hmac_sign config s c id req draw sent now)).
Proof.
  intros Hst Hi Hl Hp Hsit Hroom. pose proof (stored_settled _ _ Hst) as Hk. unfold create_room.
  destruct (Admission.room _ _ _) as [a []]; [| by eapply core_respond; [exact Hk | ..]; rewrite ?Hsit].
  destruct (create _ _ _ _ _ _ _ _) as [[s' [[[h invite] v] | e]] |] eqn:E; [| | apply Hst].
  - unfold create in E. destruct (_ || _) eqn:Hvalid; [done |].
    destruct (menu_find _ _) as [rules |]; [| done]. destruct (_ <=? _)%nat; [done |].
    destruct (draw_id _ _) as [rid |] eqn:Hid; [| done].
    set (r := Room_new rid _ _ _ _ _ _ _ _ _ _ _ now) in E. injection E as <- <- <- <-.
    eapply (core_respond _ _ (next_message (c <| c_room := Some (s_next_handle s) |>) now)); try done; [| by left].
    eapply (core_created s _ c1 r (Some (c_origin c)) (factory rules tt)); try done.
    apply Room_new_ok. apply orb_false_iff in Hvalid as [_ Hm%negb_false_iff]. unfold contains_incl in Hm. lia.
  - eapply core_respond; [| exact Hi | done | done | by rewrite Hsit].
    unfold create in E. repeat (case_match; simplify_eq; try exact Hk).
Qed.

Lemma core_enter s c c1 id req draw sent now :
  stored s c1 → idle c1 → c_link c = c_link c1 → c_player c = c_player c1 → may_sit c1 = None → c_room c = None →
  core_ok (core (enter hmac_sign config s c id req draw sent now)).
Proof.
  intros Hst Hi Hl Hp Hsit Hroom. pose proof (stored_settled _ _ Hst) as Hk.
  destruct req; cbn [enter]; try apply Hst; [by eapply core_create_room |].
  unfold join_room. destruct (s_rooms s !! _) as [h |]; [| by eapply core_respond; [exact Hk | ..]; rewrite ?Hsit].
  eapply core_ask; try done. by eexists _, _, _, _.
Qed.

(** A session that reads, with what it has counted of the message it read. *)
Record reading s c c1 : Prop := {
  rd_stored : stored s c1;
  rd_waits : c_waiting c1 = Reading;
  rd_link : c_link c = c_link c1;
  rd_player : c_player c = c_player c1;
  rd_room : c_room c = c_room c1;
}.

Lemma reading_idle s c c1 : reading s c c1 → idle c1 ∧ may_sit c1 = c_room c ∧ settled s c1.
Proof.
  intros [Hst Hw _ _ Hr]. unfold idle, asked, may_sit. rewrite Hw, Hr. split; [by left |]. split; [done |].
  by apply stored_settled.
Qed.

Lemma core_request s c c1 id req draw history sent now :
  reading s c c1 → core_ok (core (request hmac_sign config s c id req draw history sent now)).
Proof.
  intros Hrd. pose proof (reading_idle _ _ _ Hrd) as (Hi & Hsit & Hk). destruct Hrd as [Hst Hw Hl Hp Hr].
  assert (∀ res, core_ok (core (respond s c id res sent now))) as Hrespond
    by (intros res; by eapply core_respond).
  unfold request. destruct req; destruct (c_room c) as [h |] eqn:Hroom; cbn [room_command]; try apply Hrespond;
    try (eapply core_enter; by try (rewrite Hsit)).
  all: eapply core_ask; try done; unfold asks_with; cbn; try done; try (by rewrite Hsit).
  all: try (by rewrite Hroom).
  - exists (RequestReady ready), history. done.
  - by exists (RequestContent content), history.
  - by exists RequestStart, history.
  - by exists (RequestSpeed speed), history.
  - by exists (RequestKick target), history.
  - by exists (RequestChat text), history.
Qed.

Lemma core_answered s c reply draw sent now :
  stored s c → c_answer c = Answered reply →
  core_ok (core (answered hmac_sign config s c reply draw sent now)).
Proof.
  intros Hst Ha. pose proof (stored_settled _ _ Hst) as Hk.
  assert (idle c) as Hi by (right; congruence).
  pose proof (co_room _ _ _ (ko_clients _ (proj1 Hst) _ _ (proj2 Hst))) as Hroom.
  assert (∀ c' id res, c_link c' = c_link c → c_player c' = c_player c → c_room c' = may_sit c →
    core_ok (core (respond s c' id res sent now))) as Hrespond by (intros; by eapply core_respond).
  unfold answered. fold (result_of reply).
  destruct (c_waiting c) as [| id req h | id h | id h | id h] eqn:Hw; [apply Hst | | | |].
  - destruct (is_ok (result_of reply)) eqn:Hok.
    + apply Hrespond; [done | done |]. unfold may_sit. by rewrite Hw, Ha, Hok.
    + eapply core_enter; try done. unfold may_sit. by rewrite Hw, Ha, Hok.
  - destruct reply as [[| | [v | e] | |] |]; apply Hrespond; try done; unfold may_sit; by rewrite Hw, Ha.
  - apply Hrespond; [done | done |]. unfold may_sit. by rewrite Hw, Ha.
  - apply Hrespond; unfold may_sit; rewrite ?Hw, ?Ha; destruct (result_of reply) as [| []]; done.
Qed.

Lemma core_serve s c incoming draw history sent now :
  stored s c → c_waiting c = Reading →
  core_ok (core (serve hmac_sign config s c incoming draw history sent now)).
Proof.
  intros Hst Hw.
  assert (∀ c', c_link c' = c_link c → c_player c' = c_player c → c_room c' = c_room c → reading s c' c) as Hrd
    by (intros; by split).
  pose proof (reading_idle s c c (Hrd c eq_refl eq_refl eq_refl)) as (Hi & Hsit & Hk).
  assert (∀ s' c', settled s' c → c_link c' = c_link c → c_player c' = c_player c → c_room c' = c_room c →
    core_ok (core (put_client s' (next_message c' now)))) as Hnext.
  { intros s' c' Hk' ? ? Hr. eapply (settled_update s' c); try done. by rewrite Hsit. }
  destruct incoming as [[hello | id req | message] | e |]; cbn [serve].
  - by eapply core_end.
  - unfold within_rate. destruct (TokenBucket_take (c_requests c) now 1) as [b []]; cbn [negb].
    2: { by eapply core_respond; [exact Hk | ..]; rewrite ?Hsit. }
    destruct req; try (eapply core_request; by apply Hrd).
    destruct (TokenBucket_take _ now 1) as [b2 []]; [eapply core_request; by apply Hrd |].
    by eapply core_respond; [exact Hk | ..]; rewrite ?Hsit.
  - assert (∀ n reason c', settled (reject_intent s c' n reason sent) c) as Hreject
      by (intros; unfold reject_intent; by destruct sent).
    destruct (allowed c message now) as [c' ok] eqn:E.
    assert (c_link c' = c_link c ∧ c_player c' = c_player c ∧ c_room c' = c_room c) as (El & Ep & Er).
    { unfold allowed in E. destruct message; try destruct (TokenBucket_take _ _ _); by simplify_eq/=. }
    destruct ok; [| apply Hnext; [destruct message; auto; apply Hk | done..]].
    destruct (game s c' message sent) as [s' |] eqn:Eg; [| by eapply core_end].
    apply Hnext; [| done..]. unfold game in Eg. destruct (c_room c') as [h |].
    + assert (∀ command, is_join command = false → settled (notify s h command).1 c) as Hn
        by (intros; by apply settled_notify).
      destruct message; try (destruct (_ <? _); [done |]); try (injection Eg as <-; by apply Hn).
      specialize (Hn (CmdIntent (c_player c') client_seq payload) eq_refl).
      destruct (notify _ _ _) as [s1 []]; injection Eg as <-; [done |].
      unfold reject_intent. by destruct sent.
    + injection Eg as <-. destruct message; auto; apply Hk.
  - by eapply core_end.
  - destruct (c_room c), (c_roomless_since c); try apply Hst.
    destruct (_ <=? _); [by eapply core_end | apply Hst].
Qed.

(** ** Rooms *)

Definition hear_nothing (q : list (RoomCommand * option LinkId)) (l : LinkId) (oc : option Client) : option Client :=
  if bool_decide (l ∈ omap snd q) then (λ c, c <| c_answer := Answered None |>) <$> oc else oc.

(** Whoever waited hears nothing. *)
Lemma deliver_all s q :
  (∀ l c, s_clients s !! l = Some c → c_link c = l) →
  let s' := foldl (λ s e, deliver s e.2 None) s q in
  core s' = (core s) <| k_clients := s_clients s' |> ∧
  ∀ l, s_clients s' !! l = hear_nothing q l (s_clients s !! l).
Proof.
  cbn zeta. revert s. induction q as [| [cmd [l0 |]] q IH]; intros s Hl; [done | | by apply IH].
  cbn [foldl snd]. destruct (s_clients s !! l0) as [c |] eqn:Hc.
  - replace (deliver s (Some l0) None) with (put_client s (c <| c_answer := Answered None |>))
      by (unfold deliver; by rewrite Hc).
    pose proof (Hl _ _ Hc) as Hl0. subst l0. set (c' := c <| c_answer := Answered None |>).
    destruct (IH (put_client s c')) as [E1 E2].
    { intros l c2 H. cbn in H. destruct (Z.eq_dec l (c_link c)) as [-> | Hne].
      - rewrite lookup_insert_eq in H. by simplify_eq.
      - rewrite lookup_insert_ne in H by done. by apply Hl. }
    split; [exact E1 |]. intros l. rewrite E2. change (s_clients (put_client s c')) with (<[c_link c := c']> (s_clients s)).
    unfold hear_nothing. cbn [omap list_omap snd]. destruct (Z.eq_dec l (c_link c)) as [-> | Hne].
    + rewrite lookup_insert_eq, Hc. rewrite (bool_decide_eq_true_2 (c_link c ∈ c_link c :: _)) by left.
      by destruct (bool_decide _).
    + rewrite lookup_insert_ne by done. destruct (bool_decide_reflect (l ∈ omap snd q)) as [H | H].
      * by rewrite bool_decide_eq_true_2 by (by right).
      * rewrite bool_decide_eq_false_2; [done |]. intros [? | ?]%elem_of_cons; [congruence | done].
  - replace (deliver s (Some l0) None) with s by (unfold deliver; by rewrite Hc).
    destruct (IH s Hl) as [E1 E2]. split; [exact E1 |]. intros l. rewrite E2. unfold hear_nothing. cbn.
    destruct (Z.eq_dec l l0) as [-> | Hne].
    + rewrite Hc. by repeat case_bool_decide.
    + destruct (bool_decide_reflect (l ∈ omap snd q)) as [H | H].
      * by rewrite bool_decide_eq_true_2 by (by right).
      * rewrite bool_decide_eq_false_2; [done |]. intros [? | ?]%elem_of_cons; [congruence | done].
Qed.

Lemma elem_askers (q : list (RoomCommand * option LinkId)) l :
  l ∈ omap snd q ↔ ∃ command, (command, Some l) ∈ q.
Proof.
  rewrite list_elem_of_omap. split.
  - intros ([command x] & H & E). cbn in E. subst x. by exists command.
  - intros [command H]. by exists (command, Some l).
Qed.

(** A session that waits for a room can only sit there. *)
Lemma waiting_sits k l c h h2 :
  core_ok k → k_clients k !! l = Some c → asked c = Some h → c_answer c = Awaiting → seated_at k h2 l → h2 = h.
Proof.
  intros Hk Hc Ha Hw H. pose proof (ko_clients k Hk l c Hc) as [_ _ Hs Hr _]. apply Hs in H.
  unfold may_sit in H. rewrite Hw in H. unfold asked in Ha. destruct (c_waiting c); congruence.
Qed.

Lemma core_ends s h t :
  core_ok (core s) → s_tasks s !! h = Some t → core_ok (core (room_ends s h t)).
Proof.
  intros Hk Ht. unfold room_ends.
  set (s1 := s <| s_rooms := _ |> <| s_tasks := _ |>).
  destruct (deliver_all s1 (t_queue t)) as [E Hcl].
  { intros l c Hc. apply (co_link _ _ _ (ko_clients _ Hk l c Hc)). }
  set (s2 := foldl _ s1 (t_queue t)) in *.
  assert (core_ok (core s2)) as H2; [| by destruct (t_share t)].
  rewrite E. clear E. set (k := core s) in *.
  assert (∀ command l, (command, Some l) ∈ t_queue t →
    ∃ c, k_clients k !! l = Some c ∧ asked c = Some h ∧ c_answer c = Awaiting) as Hq.
  { intros command l Hin. destruct (to_queue k h t (ko_tasks k Hk h t Ht) _ _ Hin) as (c & ? & ? & ? & _). eauto. }
  assert (∀ h2 t2, delete h (s_tasks s) !! h2 = Some t2 → h2 ≠ h ∧ k_tasks k !! h2 = Some t2) as Hold.
  { intros h2 t2 [? ?]%lookup_delete_Some. auto. }
  split.
  - intros l c' Hc'. cbn in Hc'. rewrite Hcl in Hc'. unfold hear_nothing in Hc'.
    destruct (bool_decide_reflect (l ∈ omap snd (t_queue t))) as [Hin | Hin].
    + apply elem_askers in Hin as [command Hin]. destruct (Hq command l Hin) as (c & Hc & Ha & Hw).
      cbn in Hc'. change (s_clients s) with (k_clients k) in Hc'. rewrite Hc in Hc'. cbn in Hc'. simplify_eq.
      destruct (ko_clients k Hk l c Hc) as [Hl Hb _ Hr _]. split; [done | done | | done | done].
      intros h2 (t2 & p & H2 & Hp). exfalso. cbn in H2. destruct (Hold h2 t2 H2) as [Hne H3].
      apply Hne. eapply waiting_sits; [done | exact Hc | done | done |]. by exists t2, p.
    + eapply client_keeps; [by apply (ko_clients k Hk) | done | |].
      * intros h2 (t2 & p & H2 & Hp). cbn in H2. destruct (Hold h2 t2 H2) as [_ ?]. by exists t2, p.
      * intros h2 command (t2 & H2 & Hp). exists t2. split; [| done]. cbn. rewrite lookup_delete_ne; [done |].
        intros <-. change (k_tasks k !! h) with (s_tasks s !! h) in H2. apply Hin, elem_askers. exists command. congruence.
  - intros h2 t2 H2. cbn in H2. destruct (Hold h2 t2 H2) as [Hne H3].
    eapply task_keeps; [by apply (ko_tasks k Hk) | done | done |]. intros command l Hin. cbn. rewrite Hcl.
    unfold hear_nothing. rewrite bool_decide_eq_false_2; [done |]. intros [command2 Hin2]%elem_askers.
    destruct (Hq command2 l Hin2) as (c & Hc & Ha & _).
    destruct (to_queue k h2 t2 (ko_tasks k Hk h2 t2 H3) _ _ Hin) as (c2 & ? & ? & _). congruence.
  - intros h1 h2 l (t1 & p1 & H1 & Hp1) (t2 & p2 & H2 & Hp2). cbn in H1, H2.
    destruct (Hold h1 t1 H1) as [_ H1']. destruct (Hold h2 t2 H2) as [_ H2'].
    eapply (ko_one k Hk h1 h2 l); [by exists t1, p1 | by exists t2, p2].
  - apply Hk.
  - apply Hk.
  - intros id h2 H2. cbn in H2. apply lookup_delete_Some in H2 as [Hne H2].
    destruct (ko_rooms k Hk id h2 H2) as (t2 & Ht2 & Hid). exists t2. split; [| done]. cbn.
    rewrite lookup_delete_ne; [done |]. intros <-. change (k_tasks k !! h) with (s_tasks s !! h) in Ht2. congruence.
Qed.

Lemma core_start s h hello share origin now :
  core_ok (core s) → core_ok (core (start_session s h hello share origin now)).
Proof.
  intros Hk. set (l := s_next_link s). set (k := core s) in *.
  assert (∀ p, ¬ began k l p) as Hnew.
  { intros p (x & Hx & _). pose proof (ko_started k Hk l x Hx) as H. cbn in H. subst l. lia. }
  assert (s_clients s !! l = None) as Hfree.
  { destruct (s_clients s !! l) as [c |] eqn:E; [| done]. exfalso.
    by apply (Hnew (c_player c)), (co_began k l c), (ko_clients k Hk). }
  assert (k_started k ⊆ k_started k ++ [(l, (h, hello))]) as Hsub by (intros x; rewrite elem_of_app; by left).
  split; cbn.
  - intros l2 c2 H2. apply lookup_insert_Some in H2 as [[<- <-] | [Hne H2]].
    + split; [done | | | done | done].
      * exists (h, hello). split; [| done]. cbn. apply elem_of_app. right. by apply list_elem_of_singleton.
      * intros h2 (t & p & Ht & Hp). exfalso. apply (Hnew p). by apply (to_seats k h2 t (ko_tasks k Hk h2 t Ht)).
    + by eapply client_keeps; [apply (ko_clients k Hk) | ..].
  - intros h2 t H2. eapply task_keeps; [by apply (ko_tasks k Hk) | done | done |]. intros command l2 Hin. cbn.
    rewrite lookup_insert_ne; [done |]. intros <-.
    destruct (to_queue k h2 t (ko_tasks k Hk h2 t H2) _ _ Hin) as (c & Hc & _).
    enough (Some c = None) by done. rewrite <- Hfree. symmetry. exact Hc.
  - apply Hk.
  - intros l2 x [H | H%list_elem_of_singleton]%elem_of_app.
    + pose proof (ko_started k Hk l2 x H) as H1. cbn in H1. lia.
    + simplify_eq. subst l. lia.
  - rewrite fmap_app. apply NoDup_app. split; [apply Hk |]. split; [| apply NoDup_singleton].
    intros l2 ([l3 x] & -> & H)%list_elem_of_fmap H2%list_elem_of_singleton. cbn in H2.
    pose proof (ko_started k Hk l3 x H) as H1. cbn in H1. subst l. lia.
  - apply Hk.
Qed.

Lemma core_step s e :
  core_ok (core s) → core_ok (core (server_step verify_proof hmac_sign hmac_verify crc outcome disk config s e)).
Proof.
  intros Hk. destruct e as [o v m | h a v w m ses | h w | h w o now | h | l inc d hist sent now | l d sent now
    | h command | h now | h now | h done renamed now | h]; cbn [server_step].
  - unfold admit_peer. by destruct (Admission.on_attempt _ _ _ _ _) as [a []].
  - destruct (s_handshakes s !! h) as [[] |]; try done. unfold handshake.
    destruct (greet _ _ _ _); [| done]. repeat (case_match; try done).
  - destruct (s_handshakes s !! h) as [[| why t slot |] |]; try done. unfold close_refused, drop_handshake.
    by destruct (refusal_close _), t, slot.
  - destruct (s_handshakes s !! h) as [[| | hello share] |]; try done. destruct w; [by apply core_start |].
    done.
  - destruct (s_handshakes s !! h) as [hs |]; [| done]. unfold drop_handshake. destruct hs as [| why t slot |]; try done.
    by destruct t, slot.
  - destruct (s_clients s !! l) as [c |] eqn:Hc; [| done]. destruct (c_waiting c) eqn:Hw; try done.
    destruct (settled_stored s l c Hk Hc) as [_ <-]. by apply core_serve.
  - destruct (s_clients s !! l) as [c |] eqn:Hc; [| done]. destruct (c_answer c) eqn:Ha; [done |].
    destruct (settled_stored s l c Hk Hc) as [_ <-]. by apply core_answered.
  - destruct (bulk_command command) eqn:Hb; [| done]. unfold queue.
    destruct (s_tasks s !! h) as [t |] eqn:Ht; [| done]. apply (ok_notice (core s) h t command Hk Ht). by destruct command.
  - destruct (s_tasks s !! h) as [t |] eqn:Ht; [| done]. destruct (closed (t_room t)) eqn:Hc; [done |]. by apply core_takes.
  - destruct (s_tasks s !! h) as [t |] eqn:Ht; [| done]. destruct (closed (t_room t)) eqn:Hc; [done |].
    destruct (to_room _ _ _ (ko_tasks _ Hk h t Ht)) as [fresh Hok].
    apply (ok_room (core s) h t _ fresh Hk Ht); [apply steady_on_tick | by apply on_tick_ok].
  - destruct (s_tasks s !! h) as [t |] eqn:Ht; [| by destruct done]. destruct (closed (t_room t)) eqn:Hc; [by destruct done |].
    destruct (to_room _ _ _ (ko_tasks _ Hk h t Ht)) as [fresh Hok].
    pose proof (quiet_finish_compaction crc (disk h) (t_room t) done renamed) as Hq.
    apply (ok_room (core s) h t _ fresh Hk Ht); [by apply quiet_steady | by eapply room_ok_quiet].
  - destruct (s_tasks s !! h) as [t |] eqn:Ht; [| done]. destruct (closed (t_room t)) eqn:Hc; [| done]. by apply core_ends.
Qed.

Abbreviation step := (server_step verify_proof hmac_sign hmac_verify crc outcome disk config).
Abbreviation run := (server_run verify_proof hmac_sign hmac_verify crc outcome disk config).

(** ** The whole run *)

(** A room restored from its log: sound, and nobody is connected to it yet. *)
Definition restored_ok (r : Room R) : Prop := (∃ fresh : R, room_ok fresh r) ∧ ∀ p l, (p, Some l) ∉ seats r.

Lemma core_register s r : core_ok (core s) → restored_ok r → core_ok (core (register s r)).
Proof.
  intros Hk [[fresh Hr] Hn].
  refine (ok_new_task (core s) (s_clients s) r None fresh None Hk Hr _ _ _ _); try done. intros p l H. by apply Hn in H.
Qed.

Lemma core_bind restored : Forall restored_ok restored → core_ok (core (bind config restored)).
Proof.
  intros Hr. unfold bind. set (s0 := MkServer _ _ _ _ _ _ _ _ _ _ _).
  assert (core_ok (core s0)) as H0.
  { split.
    - intros l c Hc. by destruct (lookup_empty_Some _ _ Hc).
    - intros h t Ht. by destruct (lookup_empty_Some _ _ Ht).
    - intros h1 h2 l (t & p & Ht & _). by destruct (lookup_empty_Some _ _ Ht).
    - by intros l hello ?%not_elem_of_nil.
    - constructor.
    - intros id h Hh. by destruct (lookup_empty_Some _ _ Hh). }
  clearbody s0. revert s0 H0. induction Hr as [| r restored Hr _ IH]; intros s0 H0; [done |]. cbn.
  by apply IH, core_register.
Qed.

Lemma core_run s events : core_ok (core s) → core_ok (core (run s events)).
Proof. revert s. induction events as [| e events IH]; intros s Hk; [done |]. by apply IH, core_step. Qed.

(** Every session began with a proof that verified; so does one being welcomed. *)
Record proved s : Prop := {
  pr_started : ∀ l h hello, (l, (h, hello)) ∈ s_started s → verify_proof h (identity hello) (proof hello) = true;
  pr_welcome : ∀ h hello o, s_handshakes s !! h = Some (Welcoming hello o) → verify_proof h (identity hello) (proof hello) = true;
}.

(** What leaves the sessions' beginnings alone. *)
Definition same_start s s' : Prop := s_started s' = s_started s ∧ s_handshakes s' = s_handshakes s.

Lemma proved_same s s' : same_start s s' → proved s → proved s'.
Proof. intros [E1 E2] [H1 H2]. split; [by rewrite E1 | by rewrite E2]. Qed.

#[local] Instance same_start_preorder : PreOrder same_start.
Proof. split; [by intros s |]. intros s1 s2 s3 [? ?] [? ?]. split; congruence. Qed.

Lemma start_notify s h command : same_start s (notify s h command).1.
Proof. unfold notify. destruct (s_tasks s !! h); [| done]. by destruct (_ <? _)%nat. Qed.

Lemma start_end s c code : same_start s (end_session s c code).
Proof.
  unfold end_session. set (s0 := match code with Some _ => _ | None => s end).
  assert (same_start s s0) as H0 by (by subst s0; destruct code).
  set (s1 := match c_room c with Some h => _ | None => s0 end).
  assert (same_start s s1) as H1.
  { etransitivity; [exact H0 |]. subst s1. destruct (c_room c); [apply start_notify | done]. }
  exact H1.
Qed.

Lemma start_respond s c id res sent now : same_start s (respond s c id res sent now).
Proof. unfold respond. destruct sent; [done | apply start_end]. Qed.

Lemma start_ask s c h command w : same_start s (ask s c h command w).
Proof. unfold ask, queue. by destruct (s_tasks s !! h). Qed.

Lemma start_enter s c id req draw sent now : same_start s (enter hmac_sign config s c id req draw sent now).
Proof.
  destruct req as [req | j | | | | | | |]; cbn [enter]; try done.
  - unfold create_room. destruct (Admission.room _ _ _) as [a []].
    + destruct (create _ _ _ _ _ _ _ _) as [[s' [[[h invite] v] | e]] |] eqn:E; [| | done];
        (etransitivity; [| apply start_respond]); unfold create in E; by repeat (case_match; simplify_eq).
    + etransitivity; [| apply start_respond]. done.
  - unfold join_room. destruct (s_rooms s !! _); [apply start_ask | apply start_respond].
Qed.

Lemma start_serve s c incoming draw history sent now :
  same_start s (serve hmac_sign config s c incoming draw history sent now).
Proof.
  assert (∀ c n reason, same_start s (reject_intent s c n reason sent)) as Hrej
    by (intros; unfold reject_intent; by destruct sent).
  destruct incoming as [[hello | id req | message] | e |]; cbn [serve]; try apply start_end.
  - destruct (within_rate c req now) as [c' []]; [| apply start_respond]. unfold request.
    destruct req, (c_room c'); cbn [room_command]; try apply start_respond; try apply start_ask; apply start_enter.
  - destruct (allowed c message now) as [c' []].
    + destruct (game s c' message sent) as [s' |] eqn:E; [| apply start_end].
      assert (same_start s s') as H; [| done]. unfold game in E. destruct (c_room c') as [h |].
      * destruct message; try (destruct (_ <? _); [done |]); try (injection E as <-; apply start_notify).
        pose proof (start_notify s h (CmdIntent (c_player c') client_seq payload)) as H.
        destruct (notify _ _ _) as [s1 []]; injection E as <-; [done |]. etransitivity; [exact H |].
        unfold reject_intent. by destruct sent.
      * injection E as <-. by destruct message.
    + by destruct message; try apply Hrej.
  - destruct (c_room c), (c_roomless_since c); try done. destruct (_ <=? _); [apply start_end | done].
Qed.

Lemma start_deliver s asker reply : same_start s (deliver s asker reply).
Proof. destruct asker as [l |]; [| done]. cbn. by destruct (s_clients s !! l). Qed.

Lemma drop_handshake_start s h hs :
  s_started (drop_handshake s h hs) = s_started s ∧ s_handshakes (drop_handshake s h hs) = delete h (s_handshakes s).
Proof. destruct hs as [| why t slot |]; [done | by destruct t, slot | done]. Qed.

Lemma proved_drop s h hs : proved s → proved (drop_handshake s h hs).
Proof.
  intros [H1 H2]. destruct (drop_handshake_start s h hs) as [E1 E2]. split; [by rewrite E1 |]. rewrite E2.
  intros h2 hello o [_ H]%lookup_delete_Some. by eapply H2.
Qed.

Lemma start_close s h why : same_start s (close_refused s h why).
Proof. unfold close_refused. by destruct (refusal_close why). Qed.

Lemma proved_step s e : proved s → proved (step s e).
Proof.
  intros Hp. destruct e as [o v m | h a v w m ses | h w | h w o now | h | l inc d hist sent now | l d sent now
    | h command | h now | h now | h done renamed now | h]; cbn [server_step].
  - unfold admit_peer. destruct (Admission.on_attempt _ _ _ _ _) as [a []]; try by apply (proved_same s).
    destruct Hp as [H1 H2]. split; [done |]. intros h hello o2. cbn. intros [[_ ?] | [_ ?]]%lookup_insert_Some; [done |].
    by eapply H2.
  - destruct (s_handshakes s !! h) as [[] |]; try done. unfold handshake.
    assert (∀ hs, (∀ hello o, hs = Welcoming hello o → verify_proof h (identity hello) (proof hello) = true) →
      ∀ h2 hello o, <[h := hs]> (s_handshakes s) !! h2 = Some (Welcoming hello o) → verify_proof h2 (identity hello) (proof hello) = true) as Hput.
    { intros hs Hhs h2 hello o [[<- ?] | [_ ?]]%lookup_insert_Some; [by eapply Hhs | by eapply (pr_welcome s Hp)]. }
    destruct (greet _ _ _ _) as [hello |]; [| split; [apply Hp | by apply Hput]].
    destruct (verify_proof _ _ _) eqn:Hv; [| split; [apply Hp | by apply Hput]]. cbn [negb].
    destruct (_ <=? _); [split; [apply Hp | by apply Hput] |].
    destruct (Admission.into_session _ _ _) as [a2 []]; (split; [apply Hp | apply Hput]); [| done].
    by intros ?? [= <- <-].
  - destruct (s_handshakes s !! h) as [[| why t slot |] |]; try done.
    eapply proved_same; [apply start_close | by apply proved_drop].
  - destruct (s_handshakes s !! h) as [[| | hello share] |] eqn:Hh; try done. destruct w.
    + destruct Hp as [H1 H2]. split.
      * intros l2 h2 x [H | H%list_elem_of_singleton]%elem_of_app; [by eapply H1 |]. simplify_eq. by eapply H2.
      * intros h2 x o2 H. cbn in H. apply lookup_delete_Some in H as [_ H]. by eapply H2.
    + eapply proved_same; [apply start_close | by apply proved_drop].
  - destruct (s_handshakes s !! h) as [hs |]; [| done].
    apply (proved_same (drop_handshake s h hs)); [done | by apply proved_drop].
  - destruct (s_clients s !! l) as [c |]; [| done]. destruct (c_waiting c); try done.
    eapply proved_same; [apply start_serve | done].
  - destruct (s_clients s !! l) as [c |]; [| done]. destruct (c_answer c) as [| reply]; [done |].
    eapply proved_same; [| done]. unfold answered.
    destruct (c_waiting c); [done | | | apply start_respond | apply start_respond].
    + destruct (is_ok _); [apply start_respond | apply start_enter].
    + destruct reply as [[| | [] | |] |]; apply start_respond.
  - destruct (bulk_command command); [| done]. unfold queue. by destruct (s_tasks s !! h); [apply (proved_same s) |].
  - destruct (s_tasks s !! h) as [t |]; [| done]. destruct (closed _); [done |]. unfold room_takes.
    destruct (t_queue t) as [| [command asker] rest]; [done |]. destruct (handle _ _ _ _ _ _ _) as [r' reply].
    eapply proved_same; [apply start_deliver | by apply (proved_same s)].
  - destruct (s_tasks s !! h) as [t |]; [| done]. destruct (closed _); [done | by apply (proved_same s)].
  - destruct (s_tasks s !! h) as [t |]; [| by destruct done].
    destruct (closed _); [by destruct done | by apply (proved_same s)].
  - destruct (s_tasks s !! h) as [t |]; [| done]. destruct (closed _); [| done]. unfold room_ends.
    set (s1 := s <| s_rooms := _ |> <| s_tasks := _ |>).
    assert (∀ (q : list (RoomCommand * option LinkId)) s2, same_start s s2 → same_start s (foldl (λ s e, deliver s e.2 None) s2 q)) as Hfold.
    { induction q as [| e q IH]; intros s2 H2; [done |]. apply IH. etransitivity; [exact H2 | apply start_deliver]. }
    specialize (Hfold (t_queue t) s1 ltac:(done)). eapply proved_same; [| done]. by destruct (t_share t).
Qed.

Lemma proved_run restored events : proved (run (bind config restored) events).
Proof.
  assert (proved (bind config restored)) as H0.
  { unfold bind. set (s0 := MkServer _ _ _ _ _ _ _ _ _ _ _).
    assert (proved s0) as H by (split; cbn; [by intros ??? ?%not_elem_of_nil | intros ???; by rewrite lookup_empty]).
    clearbody s0. revert s0 H. induction restored as [| r restored IH]; intros s0 H; [done |]. cbn.
    apply IH. by apply (proved_same s0). }
  revert H0. generalize (bind config restored). induction events as [| e events IH]; intros s Hp; [done |].
  by apply IH, proved_step.
Qed.

(** ** What follows *)

(** C5: a seat is its owner's, and a connection has one seat.  However sessions,
    rooms and handshakes interleave, from any rooms restored from their logs: whenever a
    connection sits at the table of a room, the session began with a [Hello] of the
    player whose seat it is, with a proof of that identity that verified on the very
    connection the session came over; the connection
    sits in no other room and no other seat; and if its session reads its next message,
    it is that room it takes itself to be in. *)
Theorem one_seat_per_connection restored events h t p l :
  Forall restored_ok restored →
  let s := run (bind config restored) events in
  s_tasks s !! h = Some t → (p, Some l) ∈ seats (t_room t) →
  (∃ via hello, (l, (via, hello)) ∈ s_started s ∧ identity hello = p ∧ verify_proof via p (proof hello) = true) ∧
  (∀ h2 t2 q, s_tasks s !! h2 = Some t2 → (q, Some l) ∈ seats (t_room t2) → h2 = h ∧ q = p) ∧
  (∀ c, s_clients s !! l = Some c → c_player c = p ∧ (c_waiting c = Reading → c_room c = Some h)).
Proof.
  intros Hr s Ht Hp. pose proof (core_run _ events (core_bind restored Hr)) as Hk.
  pose proof (proved_run restored events) as Hv. fold s in Hk, Hv.
  pose proof (to_seats _ _ _ (ko_tasks _ Hk h t Ht) p l Hp) as Hb. split; [| split].
  - destruct Hb as ([via hello] & Hin & <-). exists via, hello. split; [done |]. split; [done |]. by eapply pr_started.
  - intros h2 t2 q H2 Hq. pose proof (to_seats _ _ _ (ko_tasks _ Hk h2 t2 H2) q l Hq) as Hb2.
    split; [| by eapply began_unique]. eapply (ko_one _ Hk h2 h l); [by exists t2, q | by exists t, p].
  - intros c Hc. split; [symmetry; by eapply seat_of |]. intros Hw.
    pose proof (co_seat _ _ _ (ko_clients _ Hk l c Hc) h) as Hs. unfold may_sit in Hs. rewrite Hw in Hs.
    apply Hs. by exists t, p.
Qed.

(** A session's answer, once a room takes the next command of its queue. *)
Lemma room_takes_client s h t now command asker rest l c :
  core_ok (core s) → s_tasks s !! h = Some t → t_queue t = (command, asker) :: rest → s_clients s !! l = Some c →
  let s' := room_takes hmac_verify crc outcome disk s h t now in
  (∃ t', s_tasks s' !! h = Some t' ∧ t_queue t' = rest) ∧
  (asker ≠ Some l → s_clients s' !! l = Some c) ∧
  (asker = Some l → ∃ reply, s_clients s' !! l = Some (c <| c_answer := Answered reply |>)).
Proof.
  intros Hk Ht Hq Hc. unfold room_takes. rewrite Hq. destruct (handle _ _ _ _ _ _ _) as [r' reply]. cbn zeta.
  pose proof (λ l c, co_link _ l c ∘ ko_clients _ Hk l c) as Hl. cbn in Hl.
  set (t' := t <| t_room := r' |> <| t_queue := rest |>).
  assert (s_tasks (put_task s h t') !! h = Some t') as Ht' by apply lookup_insert_eq.
  destruct asker as [l2 |]; cbn.
  - change (s_clients (put_task s h t')) with (s_clients s). destruct (s_clients s !! l2) as [c2 |] eqn:Hc2.
    + split; [by exists t' |]. pose proof (Hl _ _ Hc2) as E. subst l2. split.
      * intros Hne. cbn. rewrite lookup_insert_ne; [done | congruence].
      * intros [= <-]. cbn. rewrite lookup_insert_eq. assert (c2 = c) as -> by congruence. by exists (Some reply).
    + split; [by exists t' |]. split; [done |]. intros [= ->]. congruence.
  - split; [by exists t' |]. by split.
Qed.

Lemma room_ends_client s h t l c command :
  core_ok (core s) → s_clients s !! l = Some c → (command, Some l) ∈ t_queue t →
  s_clients (room_ends s h t) !! l = Some (c <| c_answer := Answered None |>).
Proof.
  intros Hk Hc Hq. unfold room_ends. set (s1 := s <| s_rooms := _ |> <| s_tasks := _ |>).
  destruct (deliver_all s1 (t_queue t)) as [_ Hd].
  { intros l2 c2 H. by apply (co_link _ _ _ (ko_clients _ Hk l2 c2 H)). }
  set (s2 := foldl _ s1 (t_queue t)) in *.
  assert (s_clients s2 !! l = Some (c <| c_answer := Answered None |>)) as H; [| by destruct (t_share t)].
  rewrite Hd. change (s_clients s1) with (s_clients s). rewrite Hc. unfold hear_nothing.
  rewrite bool_decide_eq_true_2; [done |]. apply elem_askers. by exists command.
Qed.

Lemma room_answers n s h t l c command now :
  core_ok (core s) → s_tasks s !! h = Some t → (length (t_queue t) <= n)%nat → (command, Some l) ∈ t_queue t →
  s_clients s !! l = Some c →
  ∃ more, Forall (λ e, e = EvRoom h now ∨ e = EvClosed h) more ∧
    ∃ reply, s_clients (run s more) !! l = Some (c <| c_answer := Answered reply |>).
Proof.
  revert s t. induction n as [| n IH]; intros s t Hk Ht Hn Hq Hc.
  { destruct (t_queue t); [by apply not_elem_of_nil in Hq | cbn in Hn; lia]. }
  destruct (closed (t_room t)) eqn:Hclosed.
  { exists [EvClosed h]. split; [constructor; [by right | constructor] |]. exists None.
    cbn. rewrite Ht, Hclosed. by eapply room_ends_client. }
  destruct (t_queue t) as [| [cmd asker] rest] eqn:E; [by apply not_elem_of_nil in Hq |].
  destruct (room_takes_client s h t now cmd asker rest l c Hk Ht E Hc) as ((t' & Ht' & E') & Hother & Hthis).
  assert (step s (EvRoom h now) = room_takes hmac_verify crc outcome disk s h t now) as Hstep
    by (cbn; by rewrite Ht, Hclosed).
  destruct (base.decide (asker = Some l)) as [Ha | Ha].
  - destruct (Hthis Ha) as [reply Hr]. exists [EvRoom h now]. split; [constructor; [by left | constructor] |].
    exists reply. unfold server_run. cbn [foldl]. by rewrite Hstep.
  - rewrite <- Hstep in *. destruct (IH _ t' (core_step s (EvRoom h now) Hk) Ht') as (more & Hm & Hr).
    + rewrite E'. cbn in Hn. lia.
    + rewrite E'. apply elem_of_cons in Hq as [? | ?]; [congruence | done].
    + by apply Hother.
    + exists (EvRoom h now :: more). split; [constructor; [by left | done] |]. exact Hr.
Qed.

(** C6: no request is lost.  In every run, a session that waits for a room's answer
    has it, or gets it from the room's own next steps, taking commands from its queue
    and ending once it has closed, whatever else the room was told: no other task has
    to move. *)
Theorem no_request_lost restored events l c h now :
  Forall restored_ok restored →
  let s := run (bind config restored) events in
  s_clients s !! l = Some c → asked c = Some h →
  ∃ more, Forall (λ e, e = EvRoom h now ∨ e = EvClosed h) more ∧
    ∃ reply, s_clients (run s more) !! l = Some (c <| c_answer := Answered reply |>).
Proof.
  intros Hr s Hc Ha. pose proof (core_run _ events (core_bind restored Hr)) as Hk. fold s in Hk.
  destruct (c_answer c) as [| reply] eqn:Hw.
  - destruct (co_waits _ _ _ (ko_clients _ Hk l c Hc) h Ha Hw) as (command & t & Ht & Hq).
    by eapply (room_answers (length (t_queue t)) s h t l c command now).
  - exists []. split; [constructor |]. exists reply. cbn. rewrite <- Hw. by destruct c.
Qed.
End steps.

(** * Two sessions

    Two players connect from two addresses; the first opens a room and the second
    joins it. *)
Module ServerExamples.
Export RoomExamples.

Definition hello (h : HandshakeId) (p : PlayerId) (name : Text) : Hello := MkHello "0.1" linux name p (p * 7 + Z.of_nat h).
Definition verify (h : HandshakeId) (p : PlayerId) (signature : Z) : bool := signature =? p * 7 + Z.of_nat h.
Definition sign (key input : list Z) : list Z := [].
Definition config : ServerConfig AcceptAll := {|
  g_limits := Admission.MkLimits 8 2 2 1 2; g_max_sessions := 4; g_max_rooms := 2%nat;
  g_roomless_timeout := from_secs 600; g_secret := [];
  g_rules := [MkRulesChoice "native" "the game's own" (λ _, accept_all)];
  g_env := MkRoomEnv false (MkTimeouts (from_secs 10) (from_secs 60) (from_secs 60)) None 1000000;
  g_version := "0.1" |}.

Definition connect (h : HandshakeId) (o : Z) (p : PlayerId) (name : Text) : list ServerEvent := [
  EvAttempt (Admission.V4 o) true false;
  EvGreeted h true (Ok PROTOCOL_VERSION) (Ok tt) (Ok (ClientHello (hello h p name))) 100;
  EvWelcomed h (Ok tt) (Admission.V4 o) 0].

Definition draw : Draw := MkDraw [9] 55.
Definition opening : list ServerEvent := connect 0 1 1 "ada" ++ connect 1 2 2 "bob" ++ [
  EvIncoming 1 (Message (ClientRequest 5 (RequestCreate (MkCreateRoom "table" 4 None DEFAULT_SETTINGS None)))) draw 0 true 10;
  EvIncoming 2 (Message (ClientRequest 6 (RequestJoin (MkJoinRoom (MkInvite 9 55) None None None)))) draw 0 true 20].
Definition joined : list ServerEvent := opening ++ [EvRoom 0 30; EvAnswered 2 draw true 40].

Abbreviation serve_all := (server_run (P := Concrete.turn_postcard) (PS := ConcreteStart.start_postcard)
  verify sign any_tag no_crc (λ _, sends) (λ _, writes) config (bind config [])).
End ServerExamples.

Lemma one_seat_per_connection_witness :
  let s := ServerExamples.serve_all ServerExamples.joined in
  ∃ t, s_tasks s !! 0%nat = Some t ∧ seats (t_room t) = [(1, Some 1); (2, Some 2)] ∧
  (∃ via hello, (2, (via, hello)) ∈ s_started s ∧ identity hello = 2 ∧ ServerExamples.verify via 2 (proof hello) = true) ∧
  (∀ h2 t2 q, s_tasks s !! h2 = Some t2 → (q, Some 2) ∈ seats (t_room t2) → h2 = 0%nat ∧ q = 2) ∧
  (∀ c, s_clients s !! 2 = Some c → c_player c = 2 ∧ (c_waiting c = Reading → c_room c = Some 0%nat)).
Proof.
  intros s.
  assert (∃ t, s_tasks s !! 0%nat = Some t ∧ seats (t_room t) = [(1, Some 1); (2, Some 2)]) as (t & Ht & Hs)
    by (eexists; split; vm_compute; reflexivity).
  exists t. split; [exact Ht |]. split; [exact Hs |].
  refine (one_seat_per_connection (P := Concrete.turn_postcard) (PS := ConcreteStart.start_postcard)
    ServerExamples.verify ServerExamples.sign RoomExamples.any_tag RoomExamples.no_crc (λ _, RoomExamples.sends)
    (λ _, RoomExamples.writes) ServerExamples.config [] ServerExamples.joined 0%nat t 2 2 (Forall_nil_2 _) Ht _).
  rewrite Hs. right. left.
Defined.

Lemma no_request_lost_witness :
  let s := ServerExamples.serve_all ServerExamples.opening in
  ∃ c, s_clients s !! 2 = Some c ∧ c_answer c = Awaiting ∧
  ∃ more, Forall (λ e, e = EvRoom 0 30 ∨ e = EvClosed 0) more ∧
    ∃ reply, s_clients (foldl (server_step (P := Concrete.turn_postcard) (PS := ConcreteStart.start_postcard)
      ServerExamples.verify ServerExamples.sign RoomExamples.any_tag RoomExamples.no_crc (λ _, RoomExamples.sends)
      (λ _, RoomExamples.writes) ServerExamples.config) s more) !! 2 = Some (c <| c_answer := Answered reply |>).
Proof.
  intros s.
  assert (∃ c, s_clients s !! 2 = Some c ∧ c_answer c = Awaiting ∧ asked c = Some 0%nat) as (c & Hc & Hw & Ha)
    by (eexists; split; [vm_compute; reflexivity | split; vm_compute; reflexivity]).
  exists c. split; [exact Hc |]. split; [exact Hw |].
  exact (no_request_lost (P := Concrete.turn_postcard) (PS := ConcreteStart.start_postcard)
    ServerExamples.verify ServerExamples.sign RoomExamples.any_tag RoomExamples.no_crc (λ _, RoomExamples.sends)
    (λ _, RoomExamples.writes) ServerExamples.config [] ServerExamples.opening 2 c 0%nat 30 (Forall_nil_2 _) Hc Ha).
Defined.
