(* ===== verification/ServerLimits.v ===== *)
(** What the server hands out and takes back: session slots, each address's shares
    ([Admission]) and places in the directory, over every run of [Server]. *)
From S2P Require Import Prelude Proto Codec Limit Verdict Snapshots Ruleset Game Persist Room RoomInv Recover Server ServerInv.
From S2P Require Admission.
Local Open Scope Z_scope.

(** * What the values of a map hold between them *)
Definition collect {K} `{Countable K} {A B} (f : A → list B) (m : gmap K A) : list B :=
  map_to_list m ≫= λ x, f x.2.

Section collect.
Context {K : Type} `{Countable K} {A B : Type} (f : A → list B).
Implicit Types m : gmap K A.

Lemma collect_insert m k v : m !! k = None → collect f (<[k := v]> m) ≡ₚ f v ++ collect f m.
Proof. intros Hk. unfold collect. by rewrite map_to_list_insert. Qed.

Lemma collect_delete m k v : m !! k = Some v → collect f m ≡ₚ f v ++ collect f (delete k m).
Proof.
  intros Hk. rewrite <- (insert_delete_id m k v Hk) at 1. apply collect_insert, lookup_delete_eq.
Qed.

Lemma collect_update m k v v' : m !! k = Some v → collect f (<[k := v']> m) ≡ₚ f v' ++ collect f (delete k m).
Proof. intros Hk. rewrite <- insert_delete_eq. apply collect_insert, lookup_delete_eq. Qed.

Lemma collect_same m k v v' : m !! k = Some v → f v' = f v → collect f (<[k := v']> m) ≡ₚ collect f m.
Proof. intros Hk E. by rewrite (collect_update m k v v' Hk), (collect_delete m k v Hk), E. Qed.
End collect.

(** The guards a task of the server keeps. *)
Abbreviation Guard := (Admission.Share * Origin)%type.

Definition handshake_guards (hs : Handshaking) : list Guard :=
  match hs with
  | Greeting o => [(Admission.AHandshake, o)]
  | Refusing _ ticket _ => match ticket with Some o => [(Admission.AHandshake, o)] | None => [] end
  | Welcoming _ o => [(Admission.ASession, o)]
  end.
Definition client_guards (c : Client) : list Guard := [(Admission.ASession, c_share c)].
Definition task_guards {R} (t : RoomTask R) : list Guard :=
  match t_share t with Some o => [(Admission.ARoom, o)] | None => [] end.

Definition guards_of {R} (s : Server R) : list Guard :=
  collect handshake_guards (s_handshakes s) ++ collect client_guards (s_clients s) ++ collect task_guards (s_tasks s).

(** The session slots handshakes keep. *)
Definition handshake_slot (hs : Handshaking) : list unit :=
  match hs with Refusing _ _ true | Welcoming _ _ => [tt] | _ => [] end.
Definition slots_taken {R} (s : Server R) : nat :=
  (length (collect handshake_slot (s_handshakes s)) + length (collect client_guards (s_clients s)))%nat.

Section limits.
Context {R : Type} {RS : Ruleset R} {P : Postcard TurnMessage} {PS : Postcard StartRecord}.
Context (verify_proof : HandshakeId → PlayerId → Z → bool).
Context (hmac_sign : list Z → list Z → list Z) (hmac_verify : list Z → list Z → list Z → bool).
Context (crc : list Z → Z).
Context (outcome : Handle → nat → SendOutcome) (disk : Handle → nat → WriteOutcome).
Context (config : ServerConfig R) (restored : nat).
Implicit Types (s : Server R) (t : RoomTask R) (c : Client).
Abbreviation gate s l := (Admission.gate_ok (g_limits config) (Admission.MkGatehouse (s_admission s) l)).

(** [extra]: guards in the hands of the step under way. *)
Record limits_ok (extra : list Guard) s : Prop := {
  li_gate : gate s (extra ++ guards_of s);
  li_slots : s_slots s = g_max_sessions config - Z.of_nat (slots_taken s);
  li_free : Z.min 0 (g_max_sessions config) ≤ s_slots s;
  li_rooms : (size (s_rooms s) <= g_max_rooms config `max` restored)%nat;
  li_fresh : ∀ h, (s_next_handshake s <= h)%nat → s_handshakes s !! h = None;
}.

(** Steps that neither take nor give back anything. *)
Record same_limits s s' : Prop := {
  sl_admission : s_admission s' = s_admission s;
  sl_handshakes : s_handshakes s' = s_handshakes s;
  sl_clients : collect client_guards (s_clients s') ≡ₚ collect client_guards (s_clients s);
  sl_tasks : collect task_guards (s_tasks s') ≡ₚ collect task_guards (s_tasks s);
  sl_slots : s_slots s' = s_slots s;
  sl_rooms : s_rooms s' = s_rooms s;
  sl_next : s_next_handshake s' = s_next_handshake s;
}.

#[local] Instance same_limits_preorder : PreOrder same_limits.
Proof.
  split; [by intros s; split |]. intros s1 s2 s3 [] []. split; etransitivity; eassumption.
Qed.

Lemma limits_same extra s s' : same_limits s s' → limits_ok extra s → limits_ok extra s'.
Proof.
  intros [E1 E2 E3 E4 E5 E6 E7] [H1 H2 H3 H4 H5]. split; rewrite ?E5, ?E6; try done.
  - rewrite E1. eapply Admission.gate_perm; [| exact H1]. unfold guards_of. by rewrite E2, E3, E4.
  - unfold slots_taken. rewrite E2, E3. exact H2.
  - rewrite E2, E7. done.
Qed.

Lemma same_put_task s h t t' : s_tasks s !! h = Some t → t_share t' = t_share t → same_limits s (put_task s h t').
Proof. intros Ht E. split; try done. cbn. eapply collect_same; [done |]. unfold task_guards. by rewrite E. Qed.

Lemma same_put_client s l c c' :
  s_clients s !! l = Some c → c_link c' = l → c_share c' = c_share c → same_limits s (put_client s c').
Proof.
  intros Hc El E. split; try done. unfold put_client. cbn. rewrite El. eapply collect_same; [done |].
  unfold client_guards. by rewrite E.
Qed.

Lemma same_say s o : same_limits s (say s o).
Proof. done. Qed.

Lemma same_notify s h command : same_limits s (notify s h command).1.
Proof.
  unfold notify. destruct (s_tasks s !! h) as [t |] eqn:Ht; [| done]. destruct (_ <? _)%nat; [| done].
  by eapply same_put_task.
Qed.

Lemma same_deliver s asker reply :
  (∀ l c, s_clients s !! l = Some c → c_link c = l) → same_limits s (deliver s asker reply).
Proof.
  intros Hl. destruct asker as [l |]; [| done]. unfold deliver. destruct (s_clients s !! l) as [c |] eqn:Hc; [| done].
  eapply (same_put_client s l c); [done | exact (Hl l c Hc) | done].
Qed.

Lemma same_ask s l c c1 h command w :
  s_clients s !! l = Some c1 → c_link c = l → c_share c = c_share c1 → same_limits s (ask s c h command w).
Proof.
  intros Hc El E. unfold ask, queue. destruct (s_tasks s !! h) as [t |] eqn:Ht.
  - etransitivity; [by eapply (same_put_task s h t (t <| t_queue := t_queue t ++ [(command, Some (c_link c))] |>)) |].
    by eapply (same_put_client _ l c1).
  - by eapply (same_put_client _ l c1).
Qed.

(** A guard let go of. *)
Lemma limits_drop extra s k o : limits_ok ((k, o) :: extra) s → limits_ok extra (drop_share s k o).
Proof. intros [H1 H2 H3 H4 H5]. split; try done. by apply Admission.gate_drop. Qed.

(** ** Sessions *)
Lemma limits_end s l c c1 code :
  limits_ok [] s → s_clients s !! l = Some c1 → c_link c = l → c_share c = c_share c1 →
  limits_ok [] (end_session s c code).
Proof.
  intros Hs Hc El E. unfold end_session. set (s0 := match code with Some _ => _ | None => s end).
  assert (same_limits s s0 ∧ s_clients s0 !! l = Some c1) as [H0 Hc0] by (subst s0; by destruct code).
  set (s1 := match c_room c with Some h => _ | None => s0 end).
  assert (same_limits s s1 ∧ s_clients s1 !! l = Some c1) as [H1 Hc1].
  { subst s1. destruct (c_room c) as [h |]; [| done]. split; [etransitivity; [exact H0 | apply same_notify] |].
    unfold notify. destruct (s_tasks s0 !! h); [| done]. by destruct (_ <? _)%nat. }
  pose proof (limits_same _ _ _ H1 Hs) as [Hg Hsl Hf Hr Hn]. clearbody s1. rewrite El, E.
  pose proof (collect_delete client_guards _ _ _ Hc1) as Hp. split; try done.
  - apply (Admission.gate_drop _ (s_admission s1) Admission.ASession (c_share c1)
      (collect handshake_guards (s_handshakes s1) ++ collect client_guards (delete l (s_clients s1))
        ++ collect task_guards (s_tasks s1))).
    eapply Admission.gate_perm; [| exact Hg]. cbn. unfold guards_of. rewrite Hp. cbn. symmetry. apply Permutation_middle.
  - cbn. rewrite Hsl. unfold slots_taken. cbn. rewrite Hp, length_app. cbn. lia.
  - cbn. lia.
Qed.

Lemma limits_respond s l c c1 id res sent now :
  limits_ok [] s → s_clients s !! l = Some c1 → c_link c = l → c_share c = c_share c1 →
  limits_ok [] (respond s c id res sent now).
Proof.
  intros Hs Hc El E. unfold respond. destruct sent; [| by eapply limits_end].
  eapply limits_same; [| exact Hs]. etransitivity; [apply same_say | by eapply (same_put_client _ l c1)].
Qed.

Lemma limits_create s creator req share draw now s' result :
  limits_ok [(Admission.ARoom, share)] s → core_ok (core s) →
  create hmac_sign config s creator req share draw now = Some (s', result) →
  limits_ok [] s' ∧ s_clients s' = s_clients s.
Proof.
  intros Hs Hk. pose proof (limits_drop _ _ _ _ Hs) as Hd. unfold create.
  destruct (_ || _); [by intros [= <- <-] |]. destruct (menu_find _ _) as [rules |]; [| by intros [= <- <-]].
  destruct (Nat.leb_spec (g_max_rooms config) (size (s_rooms s))) as [| Hlt]; [by intros [= <- <-] |].
  destruct (draw_id _ _) as [id |]; [| done]. intros [= <- _]. split; [| done].
  destruct Hs as [Hg Hsl Hf Hr Hn]. split; try done.
  - cbn. eapply Admission.gate_perm; [| exact Hg]. unfold guards_of. cbn. rewrite collect_insert; cbn.
    + rewrite !app_assoc. symmetry. rewrite <- Permutation_middle. done.
    + destruct (s_tasks s !! s_next_handle s) as [t |] eqn:Ht; [| done].
      pose proof (to_handle _ _ _ (ko_tasks _ Hk _ t Ht)) as H. cbn in H. lia.
  - cbn. rewrite map_size_insert. destruct (s_rooms s !! id); cbn; lia.
Qed.

(** The session of a step: stored, with what the step has counted of it. *)
Record held_client s c c1 : Prop := {
  hc_core : core_ok (core s);
  hc_stored : s_clients s !! c_link c1 = Some c1;
  hc_link : c_link c = c_link c1;
  hc_share : c_share c = c_share c1;
}.

Lemma limits_enter s c c1 id req draw sent now :
  limits_ok [] s → held_client s c c1 → limits_ok [] (enter hmac_sign config s c id req draw sent now).
Proof.
  intros Hs [Hk Hc El E]. destruct req as [req | j | | | | | | |]; cbn [enter]; try done.
  - unfold create_room.
    pose proof (Admission.gate_room (g_limits config) (s_admission s) (c_origin c) _ (li_gate _ _ Hs)) as Hg.
    destruct (Admission.room _ _ _) as [a []].
    + assert (limits_ok [(Admission.ARoom, c_origin c)] (set_admission s a)) as Ha by (destruct Hs; by split).
      destruct (create _ _ _ _ _ _ _ _) as [[s' res] |] eqn:Ec; [| done].
      destruct (limits_create _ _ _ _ _ _ _ _ Ha Hk Ec) as [Hs' Ecl].
      assert (s_clients s' !! c_link c1 = Some c1) as Hc' by (rewrite Ecl; exact Hc).
      destruct res as [[[h invite] v] | e]; by eapply (limits_respond _ (c_link c1) _ c1).
    + eapply (limits_respond _ (c_link c1) _ c1); [destruct Hs; by split | done..].
  - unfold join_room. destruct (s_rooms s !! _); [| by eapply (limits_respond _ (c_link c1) _ c1)].
    eapply limits_same; [by eapply (same_ask s (c_link c1) c c1) | done].
Qed.

Lemma limits_request s c c1 id req draw history sent now :
  limits_ok [] s → held_client s c c1 → limits_ok [] (request hmac_sign config s c id req draw history sent now).
Proof.
  intros Hs Hh. pose proof Hh as [Hk Hc El E].
  assert (∀ res, limits_ok [] (respond s c id res sent now)) as Hrespond by (intros; by eapply (limits_respond _ (c_link c1) _ c1)).
  assert (∀ c' h command w, c_link c' = c_link c → c_share c' = c_share c → limits_ok [] (ask s c' h command w)) as Hask.
  { intros c' h command w El' E'. eapply limits_same; [| done]. apply (same_ask s (c_link c1) c' c1); congruence. }
  unfold request. destruct req, (c_room c); cbn [room_command]; try apply Hrespond; try (by apply Hask);
    by eapply limits_enter.
Qed.

Lemma limits_answered s c reply draw sent now :
  limits_ok [] s → core_ok (core s) → s_clients s !! c_link c = Some c →
  limits_ok [] (answered hmac_sign config s c reply draw sent now).
Proof.
  intros Hs Hk Hc.
  assert (∀ c' id res, c_link c' = c_link c → c_share c' = c_share c → limits_ok [] (respond s c' id res sent now)) as Hrespond
    by (intros; by eapply (limits_respond _ (c_link c) _ c)).
  unfold answered. destruct (c_waiting c); [done | | | |].
  - destruct (is_ok _); [by apply Hrespond |]. by eapply (limits_enter _ _ c).
  - destruct reply as [[| | [] | |] |]; by apply Hrespond.
  - by apply Hrespond.
  - destruct (match reply with Some (ReplyDone result) => result | _ => Err NotInRoom end) as [| []]; by apply Hrespond.
Qed.

Lemma limits_serve s c incoming draw history sent now :
  limits_ok [] s → core_ok (core s) → s_clients s !! c_link c = Some c →
  limits_ok [] (serve hmac_sign config s c incoming draw history sent now).
Proof.
  intros Hs Hk Hc.
  assert (∀ c' code, c_link c' = c_link c → c_share c' = c_share c → limits_ok [] (end_session s c' code)) as Hend
    by (intros; by eapply (limits_end _ (c_link c) _ c)).
  assert (∀ s' c', same_limits s s' → s_clients s' = s_clients s → c_link c' = c_link c → c_share c' = c_share c →
    limits_ok [] (put_client s' (next_message c' now))) as Hnext.
  { intros s' c' Hss Ecl El E. eapply limits_same; [| exact Hs]. etransitivity; [exact Hss |].
    apply (same_put_client s' (c_link c) c); [by rewrite Ecl | done | done]. }
  assert (∀ s' c' n reason, same_limits s' (reject_intent s' c' n reason sent) ∧
    s_clients (reject_intent s' c' n reason sent) = s_clients s') as Hrej by (intros; unfold reject_intent; by destruct sent).
  assert (∀ h command, s_clients (notify s h command).1 = s_clients s) as Hncl.
  { intros h command. unfold notify. destruct (s_tasks s !! h); [| done]. by destruct (_ <? _)%nat. }
  destruct incoming as [[hello | id req | message] | e |]; cbn [serve]; try (by apply Hend).
  - unfold within_rate. destruct (TokenBucket_take (c_requests c) now 1) as [b []]; cbn [negb].
    2: { by eapply (limits_respond _ (c_link c) _ c). }
    destruct req; try (by eapply (limits_request _ _ c)).
    destruct (TokenBucket_take _ now 1) as [b2 []]; [by eapply (limits_request _ _ c) |].
    by eapply (limits_respond _ (c_link c) _ c).
  - destruct (allowed c message now) as [c' ok] eqn:E.
    assert (c_link c' = c_link c ∧ c_share c' = c_share c) as (El & Es).
    { unfold allowed in E. destruct message; try destruct (TokenBucket_take _ _ _); by simplify_eq/=. }
    destruct ok; [| destruct message; apply Hnext; try done; apply Hrej].
    destruct (game s c' message sent) as [s' |] eqn:Eg; [| by apply Hend].
    assert (same_limits s s' ∧ s_clients s' = s_clients s) as [? ?]; [| by apply Hnext].
    unfold game in Eg. destruct (c_room c') as [h |].
    + destruct message; try (destruct (_ <? _); [done |]);
        try (injection Eg as <-; split; [apply same_notify | apply Hncl]).
      pose proof (same_notify s h (CmdIntent (c_player c') client_seq payload)) as Hn.
      specialize (Hncl h (CmdIntent (c_player c') client_seq payload)).
      destruct (notify _ _ _) as [s1 []]; injection Eg as <-; [done |]. cbn in Hn, Hncl.
      destruct (Hrej s1 c' client_seq RejectedRateLimited) as [H1 H2].
      split; [by etransitivity | congruence].
    + injection Eg as <-. by destruct message.
  - destruct (c_room c), (c_roomless_since c); try done. destruct (_ <=? _); [by apply Hend | done].
Qed.

(** ** Handshakes *)

(** The guards and slots of everything but one handshake. *)
Definition without s (h : HandshakeId) : Server R := s <| s_handshakes := delete h (s_handshakes s) |>.

Lemma guards_at s h hs :
  s_handshakes s !! h = Some hs → guards_of s ≡ₚ handshake_guards hs ++ guards_of (without s h).
Proof. intros Hh. unfold guards_of at 1. by rewrite (collect_delete handshake_guards _ _ _ Hh), <- app_assoc. Qed.

Lemma guards_put s h hs hs' :
  s_handshakes s !! h = Some hs → guards_of (put_handshake s h hs') ≡ₚ handshake_guards hs' ++ guards_of (without s h).
Proof.
  intros Hh. unfold guards_of at 1. cbn. by rewrite (collect_update handshake_guards _ _ _ hs' Hh), <- app_assoc.
Qed.

Lemma slots_at s h hs :
  s_handshakes s !! h = Some hs → slots_taken s = (length (handshake_slot hs) + slots_taken (without s h))%nat.
Proof. intros Hh. unfold slots_taken. cbn. rewrite (collect_delete handshake_slot _ _ _ Hh), length_app. lia. Qed.

Lemma slots_put s h hs hs' :
  s_handshakes s !! h = Some hs →
  slots_taken (put_handshake s h hs') = (length (handshake_slot hs') + slots_taken (without s h))%nat.
Proof. intros Hh. unfold slots_taken. cbn. rewrite (collect_update handshake_slot _ _ _ hs' Hh), length_app. lia. Qed.

Lemma fresh_put s h hs hs' :
  limits_ok [] s → s_handshakes s !! h = Some hs →
  ∀ h2, (s_next_handshake s <= h2)%nat → <[h := hs']> (s_handshakes s) !! h2 = None.
Proof.
  intros [_ _ _ _ Hn] Hh h2 H2. rewrite lookup_insert_ne; [by apply Hn |]. intros <-. by rewrite Hn in Hh.
Qed.

(** A handshake goes on with what it has. *)
Lemma limits_put s h hs hs' :
  limits_ok [] s → s_handshakes s !! h = Some hs →
  handshake_slot hs' = handshake_slot hs → handshake_guards hs' = handshake_guards hs →
  limits_ok [] (put_handshake s h hs').
Proof.
  intros Hs Hh Es Eg. pose proof Hs as [Hg Hsl Hf Hr _]. split; try done.
  - eapply Admission.gate_perm; [| exact Hg]. cbn. by rewrite (guards_put s h hs hs' Hh), (guards_at s h hs Hh), Eg.
  - rewrite (slots_put s h hs hs' Hh), Es, <- (slots_at s h hs Hh). exact Hsl.
  - exact (fresh_put s h hs hs' Hs Hh).
Qed.

(** A handshake takes a slot. *)
Lemma limits_slot s h hs hs' a :
  limits_ok [] s → s_handshakes s !! h = Some hs → 0 < s_slots s →
  handshake_slot hs = [] → handshake_slot hs' = [tt] →
  Admission.gate_ok (g_limits config) (Admission.MkGatehouse a (handshake_guards hs' ++ guards_of (without s h))) →
  limits_ok [] (put_handshake (set_admission (s <| s_slots := s_slots s - 1 |>) a) h hs').
Proof.
  intros Hs Hh Hfree Es Es' Hg. pose proof Hs as [_ Hsl _ Hr _]. set (s1 := set_admission _ a).
  split; try done.
  - eapply Admission.gate_perm; [| exact Hg]. symmetry. exact (guards_put s1 h _ _ Hh).
  - rewrite (slots_put s1 h _ _ Hh), Es'. change (s_slots (put_handshake s1 h hs')) with (s_slots s - 1).
    change (slots_taken (without s1 h)) with (slots_taken (without s h)).
    rewrite Hsl, (slots_at s h _ Hh), Es. cbn [length]. lia.
  - cbn. lia.
  - exact (fresh_put s h hs hs' Hs Hh).
Qed.

Lemma limits_handshake s h o greeted session :
  limits_ok [] s → s_handshakes s !! h = Some (Greeting o) →
  limits_ok [] (handshake verify_proof config s h o greeted session).
Proof.
  intros Hs Hh.
  assert (∀ why, limits_ok [] (put_handshake s h (Refusing why (Some o) false))) as Hrefuse by (intros; by eapply limits_put).
  unfold handshake. destruct greeted as [hello |]; [| done].
  destruct (negb _); [apply (limits_same _ _ _ (same_say _ _)), Hrefuse |].
  destruct (Z.leb_spec (s_slots s) 0) as [| Hfree]; [apply (limits_same _ _ _ (same_say _ _)), Hrefuse |].
  pose proof Hs as [Hg Hsl _ Hr _].
  assert (gate s ((Admission.AHandshake, o) :: guards_of (without s h))) as Hg'
    by (eapply Admission.gate_perm; [| exact Hg]; exact (guards_at s h _ Hh)).
  apply Admission.gate_into in Hg'. cbn zeta. set (s1 := s <| s_slots := s_slots s - 1 |>).
  change (s_admission s1) with (s_admission s).
  destruct (Admission.into_session _ (s_admission s) o) as [a ok].
  destruct ok; apply (limits_same _ _ _ (same_say _ _)); by eapply (limits_slot s h (Greeting o)).
Qed.

(** A handshake ends, and gives back its slot, if it has one. *)
Lemma limits_without s h hs a :
  limits_ok [] s → s_handshakes s !! h = Some hs →
  Admission.gate_ok (g_limits config) (Admission.MkGatehouse a (guards_of (without s h))) →
  limits_ok [] ((set_admission (without s h) a) <| s_slots := s_slots s + Z.of_nat (length (handshake_slot hs)) |>).
Proof.
  intros [_ Hsl Hf Hr Hn] Hh Hg. rewrite (slots_at s h _ Hh) in Hsl. split; try done.
  - set (n := s_slots s + _). change (n = g_max_sessions config - Z.of_nat (slots_taken (without s h))). subst n. lia.
  - cbn. lia.
  - intros h2 H2. cbn. apply lookup_delete_None. right. by apply Hn.
Qed.

Lemma limits_drop_handshake s h hs :
  limits_ok [] s → s_handshakes s !! h = Some hs → limits_ok [] (drop_handshake s h hs).
Proof.
  intros Hs Hh.
  assert (gate s (handshake_guards hs ++ guards_of (without s h))) as Hg
    by (eapply Admission.gate_perm; [| apply Hs]; exact (guards_at s h _ Hh)).
  destruct hs as [o | why [o |] slot | hello o]; cbn [handshake_guards app] in Hg;
    try apply Admission.gate_drop in Hg; pose proof (limits_without s h _ _ Hs Hh Hg) as H;
    (eapply limits_same; [| exact H]); unfold drop_handshake; try destruct slot; split; try done; cbn; lia.
Qed.

Lemma limits_start s h hello share origin now :
  limits_ok [] s → core_ok (core s) → s_handshakes s !! h = Some (Welcoming hello share) →
  limits_ok [] (start_session s h hello share origin now).
Proof.
  intros [Hg Hsl Hf Hr Hn] Hk Hh.
  assert (s_clients s !! s_next_link s = None) as Hfree.
  { destruct (s_clients s !! s_next_link s) as [c |] eqn:E; [| done].
    destruct (co_began _ _ _ (ko_clients _ Hk _ c E)) as (x & Hx & _).
    pose proof (ko_started _ Hk _ x Hx) as H. cbn in H. lia. }
  split; try done; cbn.
  - eapply Admission.gate_perm; [| exact Hg]. cbn. rewrite (guards_at s h _ Hh). unfold guards_of. cbn.
    rewrite (collect_insert client_guards _ _ _ Hfree). cbn. by rewrite <- Permutation_middle.
  - rewrite Hsl, (slots_at s h _ Hh). unfold slots_taken. cbn.
    rewrite (collect_insert client_guards _ _ _ Hfree), length_app. cbn. lia.
  - intros h2 H2. apply lookup_delete_None. right. by apply Hn.
Qed.

Lemma limits_admit s o v r : limits_ok [] s → limits_ok [] (admit_peer config s o v r).
Proof.
  intros [Hg Hsl Hf Hr Hn]. unfold admit_peer. apply (Admission.gate_attempt _ _ o v r) in Hg.
  destruct (Admission.on_attempt _ _ _ _ _) as [a []]; cbn [app] in Hg; split; try done; cbn.
  - eapply Admission.gate_perm; [| exact Hg]. unfold guards_of. cbn.
    by rewrite (collect_insert handshake_guards _ _ _ (Hn (s_next_handshake s) (le_n _))).
  - rewrite Hsl. unfold slots_taken. cbn. by rewrite (collect_insert handshake_slot _ _ _ (Hn (s_next_handshake s) (le_n _))).
  - intros h H. rewrite lookup_insert_ne; [apply Hn; lia | lia].
Qed.

(** ** Rooms *)
Lemma same_deliver_all s (q : list (RoomCommand * option LinkId)) :
  (∀ l c, s_clients s !! l = Some c → c_link c = l) →
  same_limits s (foldl (λ s e, deliver s e.2 None) s q).
Proof.
  revert s. induction q as [| e q IH]; intros s Hl; [done |]. cbn [foldl].
  etransitivity; [by apply (same_deliver s e.2 None) |]. apply IH.
  intros l c Hc. destruct e as [cmd [l2 |]]; cbn in Hc; [| by apply Hl].
  destruct (s_clients s !! l2) as [c2 |] eqn:H2; [| by apply Hl].
  cbn in Hc. apply lookup_insert_Some in Hc as [[<- <-] | [_ Hc]]; [done | by apply Hl].
Qed.

Lemma limits_ends s h t :
  limits_ok [] s → core_ok (core s) → s_tasks s !! h = Some t → limits_ok [] (room_ends s h t).
Proof.
  intros [Hg Hsl Hf Hr Hn] Hk Ht. unfold room_ends. set (s1 := s <| s_rooms := _ |> <| s_tasks := _ |>).
  assert (limits_ok (task_guards t) s1) as H1.
  { split; try done; cbn.
    - eapply Admission.gate_perm; [| exact Hg]. cbn. unfold guards_of. cbn.
      rewrite (collect_delete task_guards _ _ _ Ht).
      by rewrite (Permutation_app_swap_app _ (task_guards t)), (Permutation_app_swap_app _ (task_guards t)).
    - etransitivity; [| exact Hr]. rewrite map_size_delete. destruct (s_rooms s !! _); cbn; lia. }
  pose proof (same_deliver_all s1 (t_queue t)) as Hd.
  assert (limits_ok (task_guards t) (foldl (λ s e, deliver s e.2 None) s1 (t_queue t))) as H2.
  { eapply limits_same; [apply Hd | exact H1]. intros l c Hc. exact (co_link _ _ _ (ko_clients _ Hk l c Hc)). }
  unfold task_guards in H2. destruct (t_share t); [by apply limits_drop | done].
Qed.

Lemma limits_step s e :
  limits_ok [] s → core_ok (core s) →
  limits_ok [] (server_step verify_proof hmac_sign hmac_verify crc outcome disk config s e).
Proof.
  intros Hs Hk. pose proof (λ l c H, co_link _ l c (ko_clients _ Hk l c H)) as Hl.
  destruct e as [o v m | h a v w m ses | h w | h w o now | h | l inc d hist sent now | l d sent now
    | h command | h now | h now | h done renamed now | h]; cbn [server_step].
  - by apply limits_admit.
  - destruct (s_handshakes s !! h) as [[] |] eqn:Hh; try done. by apply limits_handshake.
  - destruct (s_handshakes s !! h) as [[| why t slot |] |] eqn:Hh; try done.
    apply (limits_same _ (drop_handshake s h (Refusing why t slot))); [| by apply limits_drop_handshake].
    unfold close_refused. by destruct (refusal_close _).
  - destruct (s_handshakes s !! h) as [[| | hello share] |] eqn:Hh; try done. destruct w; [by apply limits_start |].
    apply (limits_same _ (drop_handshake s h (Welcoming hello share))); [done | by apply limits_drop_handshake].
  - destruct (s_handshakes s !! h) as [hs |] eqn:Hh; [| done].
    apply (limits_same _ (drop_handshake s h hs)); [done | by apply limits_drop_handshake].
  - destruct (s_clients s !! l) as [c |] eqn:Hc; [| done]. destruct (c_waiting c); try done.
    apply limits_serve; [done | done |]. by rewrite (Hl l c Hc).
  - destruct (s_clients s !! l) as [c |] eqn:Hc; [| done]. destruct (c_answer c); [done |].
    apply limits_answered; [done | done |]. by rewrite (Hl l c Hc).
  - destruct (bulk_command command); [| done]. unfold queue. destruct (s_tasks s !! h) as [t |] eqn:Ht; [| done].
    cbn. eapply limits_same; [by eapply (same_put_task s h t) | done].
  - destruct (s_tasks s !! h) as [t |] eqn:Ht; [| done]. destruct (closed _); [done |]. unfold room_takes.
    destruct (t_queue t) as [| [command asker] rest]; [done |]. destruct (handle _ _ _ _ _ _ _) as [r' reply].
    eapply limits_same; [| exact Hs]. etransitivity; [by eapply (same_put_task s h t (t <| t_room := r' |> <| t_queue := rest |>)) |].
    by apply same_deliver.
  - destruct (s_tasks s !! h) as [t |] eqn:Ht; [| done]. destruct (closed _); [done |].
    eapply limits_same; [by eapply (same_put_task s h t) | done].
  - destruct (s_tasks s !! h) as [t |] eqn:Ht; [| by destruct done]. destruct (closed _); [by destruct done |].
    eapply limits_same; [by eapply (same_put_task s h t) | exact Hs].
  - destruct (s_tasks s !! h) as [t |] eqn:Ht; [| done]. destruct (closed _); [by apply limits_ends | done].
Qed.
End limits.

Section runs.
Context {R : Type} {RS : Ruleset R} {P : Postcard TurnMessage} {PS : Postcard StartRecord}.
Context (verify_proof : HandshakeId → PlayerId → Z → bool).
Context (hmac_sign : list Z → list Z → list Z) (hmac_verify : list Z → list Z → list Z → bool).
Context (crc : list Z → Z).
Context (outcome : Handle → nat → SendOutcome) (disk : Handle → nat → WriteOutcome).
Context (config : ServerConfig R).
Abbreviation run := (server_run verify_proof hmac_sign hmac_verify crc outcome disk config).

Lemma register_limits n (s : Server R) r :
  limits_ok config n [] s → core_ok (core s) → (size (s_rooms s) < n)%nat → limits_ok config n [] (register s r).
Proof.
  intros [Hg Hsl Hf Hr Hn] Hk Hlt. split; try done; cbn.
  - eapply Admission.gate_perm; [| exact Hg]. cbn. unfold guards_of. cbn. rewrite collect_insert; [done |].
    destruct (s_tasks s !! s_next_handle s) as [t |] eqn:Ht; [| done].
    pose proof (to_handle _ _ _ (ko_tasks _ Hk _ t Ht)) as H. cbn in H. lia.
  - rewrite map_size_insert. destruct (s_rooms s !! room_id r); cbn; lia.
Qed.

Lemma registers_limits n (restored : list (Room R)) s :
  Forall restored_ok restored → core_ok (core s) → limits_ok config n [] s →
  (size (s_rooms s) + length restored <= n)%nat → limits_ok config n [] (foldl register s restored).
Proof.
  intros Hr. revert s. induction Hr as [| r restored Hr _ IH]; intros s Hk Hs Hn; [done |]. cbn in *. apply IH.
  - by apply core_register.
  - apply register_limits; [done | done | lia].
  - cbn. rewrite map_size_insert. destruct (s_rooms s !! room_id r); cbn; lia.
Qed.

Lemma bind_limits (restored : list (Room R)) :
  Forall restored_ok restored → limits_ok config (length restored) [] (bind config restored).
Proof.
  intros Hr. unfold bind. set (s0 := MkServer _ _ _ _ _ _ _ _ _ _ _).
  apply registers_limits; [done | exact (core_bind config [] (Forall_nil_2 _)) | | cbn; by rewrite map_size_empty].
  split; [apply Admission.new_ok | change (slots_taken s0) with 0%nat; cbn; lia | cbn; lia | |].
  - cbn. rewrite map_size_empty. lia.
  - intros h _. apply lookup_empty.
Qed.

Lemma run_limits n (s : Server R) events :
  limits_ok config n [] s → core_ok (core s) → limits_ok config n [] (run s events).
Proof.
  revert s. induction events as [| e events IH]; intros s Hs Hk; [done |]. cbn.
  apply IH; [by apply limits_step | by apply core_step].
Qed.

Lemma size_clients (m : gmap LinkId Client) : length (collect client_guards m) = size m.
Proof.
  induction m as [| l c m Hl IH] using map_ind; [done |].
  rewrite (collect_insert client_guards _ _ _ Hl), map_size_insert_None by done. cbn. by rewrite IH.
Qed.

(** C28: the server stays within its limits and loses nothing.  However its tasks
    interleave, there are never more sessions than slots, nor more rooms than the
    limit, but for those restored at the start; what the admission counts for an address
    is exactly what its handshakes, sessions and open rooms hold, and never more than the
    address's share; and the free slots are the others: every slot and share taken is
    given back, on every path out of a handshake, a session or a room. *)
Theorem server_within_limits (restored : list (Room R)) (events : list ServerEvent) :
  Forall restored_ok restored → 0 ≤ g_max_sessions config →
  let s := run (bind config restored) events in
  Z.of_nat (size (s_clients s)) ≤ g_max_sessions config ∧
  (size (s_rooms s) <= g_max_rooms config `max` length restored)%nat ∧
  s_slots s = g_max_sessions config - Z.of_nat (slots_taken s) ∧
  ∀ k o, Admission.counted k (Admission.entry o (s_admission s)) = Admission.holds k o (guards_of s) ∧
    Admission.holds k o (guards_of s) ≤ Z.max 0 (Admission.share_limit (g_limits config) k).
Proof.
  intros Hr Hmax s.
  assert (limits_ok config (length restored) [] s) as [Hg Hsl Hf Hrooms _]
    by (apply run_limits; [by apply bind_limits | by apply core_bind]).
  split; [| split; [done | split; [done |]]].
  - unfold slots_taken in Hsl. rewrite size_clients in Hsl. lia.
  - intros k o. destruct Hg as [H1 _ H3 _ _]. split; [apply H1 | apply H3].
Qed.
End runs.

Lemma server_within_limits_witness :
  let s := ServerExamples.serve_all ServerExamples.joined in
  size (s_clients s) = 2%nat ∧ s_slots s = 2 ∧ size (s_rooms s) = 1%nat ∧
  Z.of_nat (size (s_clients s)) ≤ 4 ∧ (size (s_rooms s) <= 2 `max` 0)%nat ∧
  s_slots s = 4 - Z.of_nat (slots_taken s) ∧
  ∀ k o, Admission.counted k (Admission.entry o (s_admission s)) = Admission.holds k o (guards_of s) ∧
    Admission.holds k o (guards_of s) ≤ Z.max 0 (Admission.share_limit (g_limits ServerExamples.config) k).
Proof.
  intros s. split; [vm_compute; reflexivity |]. split; [vm_compute; reflexivity |]. split; [vm_compute; reflexivity |].
  exact (server_within_limits (P := Concrete.turn_postcard) (PS := ConcreteStart.start_postcard)
    ServerExamples.verify ServerExamples.sign RoomExamples.any_tag RoomExamples.no_crc (λ _, RoomExamples.sends)
    (λ _, RoomExamples.writes) ServerExamples.config [] ServerExamples.joined
    (Forall_nil_2 _) ltac:(done)).
Defined.
